(* ===== verification/_CoqProject ===== *)
-Q . S2P
Prelude.v
PyText.v
PyTime.v
Cursor.v
PyFloat.v
Md5.v
Retry.v
JobRow.v
Terminal.v
Control.v
Sweeps.v
Upkeep.v
Progress.v
Lifecycle.v
Runner.v
TerminalProps.v
SweepProps.v
Reservation.v
ReservationProps.v
Batch.v
BatchProps.v
TokenBucket.v
TokenBucketProps.v
SlidingWindow.v
WindowProps.v
Admission.v
AdmissionProps.v
MemoryBackend.v
ClaimCursor.v
StallTally.v
ProgressProps.v
Workflow.v
WorkflowProps.v
WorkflowRun.v
WorkflowSweep.v
WorkflowStatus.v
Dispatch.v
DispatchOrder.v
DispatchDemo.v
DispatchProps.v
DispatchFair.v
DispatchLive.v
DispatchRound.v
DispatchCompose.v
EnqueueArgs.v
Session.v
SessionProps.v
Enqueue.v
EnqueueNet.v
EnqueueLogic.v
EnqueueLock.v
EnqueueDemo.v
EnqueueRace.v
EnqueueAlone.v
EnqueueBatch.v
EnqueueQuiet.v
EnqueueBulk.v
EnqueueBulkCap.v
EnqueueCopy.v
EnqueueCaller.v
Zone.v
CronTime.v
CronTimeProps.v
CronTick.v
CronTickProps.v
CronOnce.v
CronRun.v
CronDemo.v
CronAdmin.v
Leader.v
LeaderProps.v
LeaderLive.v
LeaderDemo.v
