(* ===== verification/Prelude.v ===== *)
(** * TaskQ: a verification development

    TaskQ is a job queue kept in PostgreSQL.  Producers insert rows into [jobs]; workers
    claim pending rows, run an actor, and end each claim with one fused SQL statement;
    a leader sweeps crashed, overdue and due rows; operators cancel and retry.  Before a
    job runs, its rate limits and reservations are admitted together; while it runs, it
    reports progress through a buffer; when it ends, the batch it belongs to is told.  A
    workflow engine runs graphs of jobs: nodes that wait on their parents, fire, and deliver to
    consumers.  A leader's cron tick turns schedules into jobs; which worker leads is decided
    by a lease row.  The rules that make this correct are in the SQL statements and the Python
    around them (directory [src/taskq] of the repository), and those are what is modelled here.
    The state is the database, and the worker's own buffers and limiters; concurrent
    processes are sequences of atomic statements in any order, split where a coroutine or a
    transaction can be overtaken.

    ** Files

    - [Prelude]: results of fallible code, column updates, tactics, shared lemmas.
    - [PyText], [PyTime]: Python text (decimal integers, splitting, [strip], UUID text)
      and [datetime] values as the cursors and classifiers use them.
    - [PyFloat]: floats as rationals with a rounding after each operation.  The class
      [Rounding] states the laws the proofs need; [b64_rounding] is an executable
      instance (round to nearest even, 53 bits).  Timedeltas are integer microseconds.
    - [Md5]: the digest behind the deterministic reclaim jitter.
    - [Cursor]: [backend/_cursor.py].  Orderings, cursor text, and the keyset predicates
      as syntax trees with PostgreSQL's three-valued meaning.
    - [Retry]: [retry.py] and the reclaim-delay fragments of [backend/_sweeps.py].
      Policies and their validation, backoff and jitter, overrides and hooks, the stock
      classifiers, [decide_after_failure].
    - [JobRow]: [backend/statemachine.py], [backend/_sql_fragments.py], the row types of
      [backend/_protocol.py], the attempt and event inserts of [backend/_sql.py].
    - [Terminal]: the mark_* statements of [backend/_sql_templates.py], arm by arm, and
      their callers in [backend/_terminal.py].
    - [Control]: the claiming UPDATE ([backend/_dispatch_sql.py]), lease renewal
      ([backend/_sql.py]), cancel request and escalation, operator retry
      ([backend/_sql_templates.py], [backend/postgres.py], [backend/_terminal.py]).
    - [Sweeps]: sweeps 1, 2 and 3 of [backend/_sweeps.py] as transactions, and the isolate
      statement of [worker/heartbeat.py].
    - [Upkeep]: the other writers of job rows: the reconcile of lost claims
      ([worker/heartbeat.py]), the drain at shutdown ([worker/shutdown.py]), the expiry of results
      ([backend/_sweeps.py]), bulk cancels ([backend/_cancel_bulk.py]), and the cancels of a
      deregistration ([actor_config_ops.py]) and of an aborted batch ([backend/_batch_sql.py]).
    - [Lifecycle]: all those statements as one step relation; the row invariant, the
      transitions, the fence and the cancel guarantees, over every reachable database, for the
      jobs outside workflows ([with_flows]: the rows of workflows may change in any way).
    - [Runner]: the writes of the workflow runner ([workflows/api/_sql_runner.py]) to the rows of
      its flow, and which of those guarantees they do not keep.
    - [TerminalProps], [SweepProps]: what each statement and each sweep decides.
    - [Reservation], [ReservationProps]: the slot rows of [ratelimit/reservation.py] and
      every statement that writes them, with the in-memory table beside them.
    - [Batch], [BatchProps]: [backend/_batch_sql.py], [batch_policy.py], the terminal hook of
      [batch.py], the membership lock of [backend/_enqueue.py] and the stale-batch sweep of
      [worker/_leader_shared.py]; first as uncontended calls, then as the steps of
      concurrent transactions on one batch.
    - [TokenBucket], [TokenBucketProps]: [ratelimit/token_bucket.py] in its three stores, the
      token-bucket scripts of [ratelimit/_scripts.py], publishing and reclaiming bucket rows.
    - [SlidingWindow], [WindowProps]: [ratelimit/sliding_window.py] (in-memory log and GCRA)
      and the PostgreSQL log of [ratelimit/_sliding_window_pg.py], behind the interface
      [WindowLimiter].
    - [Admission], [AdmissionProps], [MemoryBackend]: [acquire_for_actor] and
      [release_for_actor] of [ratelimit/registry.py] over a class of primitives
      ([Backend]) and its laws ([Accounting]), and an instance that discharges them.
    - [ClaimCursor]: [backend/_claim_cursor.py].  [StallTally]: [worker/_stall_tally.py].
    - [Progress], [ProgressProps]: [progress/_buffer.py], [progress/_flush.py] and the
      reporting half of [context.py].
    - [Workflow]: [workflows/engine.py], [_fork.py], [_sweep.py] and their statements: node
      inserts, forks, the finalize in its two transactions, the re-derive sweep, the drain.
      [WorkflowProps] states what keeps counters and edges in step ([wired]) and that every transaction
      keeps it; [WorkflowRun] the runs of those transactions; [WorkflowSweep] what a sweep and
      a drain do; [WorkflowStatus] [workflows/_status.py], the status derived from the nodes.
    - [Dispatch]: [backend/_dispatch_sql.py], the claim statement CTE by CTE, in its three
      renders.  [DispatchOrder] has the theory of its sorts, row numbers and key scans,
      [DispatchDemo] small fleets to run it on, [DispatchProps] what a claim may take,
      [DispatchFair] in which order, [DispatchLive] that it makes progress.  [DispatchRound]:
      [backend/_dispatch.py], the mode cache, the claimable probe and the round that widens
      its window.  [DispatchCompose] puts rounds on the lifecycle and on workflow runs.
    - [EnqueueArgs]: the struct a producer hands over and the pure rules both backends share
      ([backend/_protocol.py]).  [Session]: connections, transactions, savepoints and lock
      waits, and every statement of an enqueue ([backend/_sql_templates.py], [_advisory.py],
      [connections.py]); Python code is a tree of statements ([prog]).  [SessionProps]: what a
      statement can do to a session.
    - [Enqueue]: the single enqueue of [backend/_enqueue.py], from the pool and on a caller's
      connection.  [EnqueueNet] runs many calls at once; [EnqueueLogic] is a weakest-precondition
      logic for their programs, [EnqueueLock] what an advisory lock buys them, [EnqueueRace] the
      claims over every interleaving, [EnqueueDemo] small nets to run.  [EnqueueAlone] is one
      call whose connection may die, [EnqueueCaller] one inside its caller's transaction.
    - [EnqueueBatch]: both bulk tiers of [backend/_enqueue.py].  [EnqueueQuiet] is the logic of a
      store on its own; [EnqueueBulk], [EnqueueBulkCap] and [EnqueueCopy] have the outcomes.
    - [Zone]: time zones as Python's [ZoneInfo] has them, offsets, folds and gaps, and the
      instants at which a wall clock reaches or repeats a time.  [CronTime]: the fire times of
      [cron.py] over an interface to the croniter package.  [CronTimeProps]: the laws of that
      interface, what a schedule owes, and that the fire times are exactly that.
    - [CronTick]: [worker/cron_loop.py], the tick from its due read to its three UPDATEs.
      [CronTickProps]: each due schedule's one outcome.  [CronOnce]: second passes of
      repeated hours, what covers them, the interface to the backend's batch insert
      ([BatchWriter]) and the ledger of one schedule.  [CronRun]: runs of ticks.  [CronDemo]: the
      INSERT of [Session] as an instance of that interface, and a night in New York.
    - [CronAdmin]: the other writes to [cron_schedules] ([backend/_schedules.py],
      [worker/_bootstrap.py], [worker/_cron_recovery.py], [web/admin/ops.py],
      [actor_config_ops.py]), the registration checks of [scheduler.py], and what the
      [disabled_by] marker guarantees over all writers.
    - [Leader]: the lease row of [worker/leader.py] and its three statements, the election loop with
      the tasks beside it as a machine whose states are its awaits, and a world of pods and
      statements in flight.  [LeaderProps]: one leader, and the shutdown contract.  [LeaderLive]: failover
      and hand-back.  [LeaderDemo]: two pods, run.

    ** What the theorems show

    - Safety over executions ([Lifecycle]).  At most one write ends a claim; a stale
      write changes nothing; statuses move along the declared transitions and terminal
      rows are final but for the expiry of their results ([lifecycle_sound]); an accepted cancel
      is never laundered by a retry or deferral ([cancel_not_laundered]); the row invariant holds
      in every reachable database ([wf_reachable]).  These speak of jobs that are no node or root of
      a workflow; what the runner's own statements do instead is in [Runner].
    - Decisions ([TerminalProps], [SweepProps]).  On a live claim each fused statement
      lands exactly one arm, the one its guards say; a deferral refunds the attempt; a
      landed write touches one row, its own attempt record and one event.  The crash
      reclaim is bounded, its arms are disjoint and operator intent comes first; the
      promotion of due rows drains any backlog, oldest first.
    - Retry arithmetic ([Retry]).  Every delay is within its floor and ceiling under any
      admissible rounding; the SQL and the Python reclaim curves agree; the exponent
      clamp and the no-drift shortcut are invisible; hooks cannot break the failure
      path; composition is first-decisive-wins.
    - Pagination ([Cursor]).  The SQL seam predicate and the in-memory comparison agree
      on every row, NULLs included, for text columns where the collation is by code points
      ([sql_after_exact]); pages neither skip nor repeat; cursors round trip.
    - Limiters.  No window holds more than its limit of unrefunded grants, in memory or in
      PostgreSQL ([pg_window_respected], [memory_window_respected]); the evicting log refines
      one that never forgets ([memory_log_refines]).  A token bucket's grants stay within
      capacity plus refill, up to its rounding ([token_rate_respected]); a fixed quota is
      spent once whatever reclaims run ([fixed_quota_spent_once]); the PostgreSQL statement
      decides as the in-memory bucket ([pg_bucket_agrees]); rows the code writes are rows it
      accepts ([bucket_rows_well_typed]).
    - Reservations and admission.  A lease taken over can never free its successor
      ([lease_fence]); what an acquire decides, and that the in-memory table agrees; admission
      is all or nothing under any error ([admission_all_or_nothing]) and a finished actor
      returns its slots and keeps its tokens spent.
    - Progress.  Sequence numbers are fresh and increasing and no report is lost, whatever flushes
      fail and whatever lands while one is in flight; the row's counter runs ahead of the numbers
      handed out by no more than the flushes that committed and lost their answer
      ([progress_stream_sound]).
    - Batches.  A complete batch has no open member over every interleaving of its
      transactions ([complete_means_terminal]); an abort cancels exactly the waiting members
      ([abort_batch_cancels_waiting]); the failure streak decides the abort ([streak_aborts]).
    - Workflows.  A node that fires or can be claimed has every recorded parent finished and none
      failed on a fail-closed edge, over every disciplined run ([rstep]) of the engine's transactions
      with any half lost ([join_waits_for_parents]); a join whose last decrement was lost, its counter
      still positive, is fired and delivered by one sweep ([sweep_heals]); a
      drained delivery becomes one job ([drain_exactly_once]); the derived status is the one
      the sweep writes ([maintained_agrees]).
    - Enqueue.  Over every interleaving of producers, with waits that give up and connections
      that die at any statement: a cap is exact ([cap_exact]), an idempotency pair names one
      job ([enqueue_idempotent]), the jobs of a single-flight identity keep their distance
      ([single_flight_apart]).  One call decides in the documented order, with typed refusals and its
      caller's transaction left usable ([caller_decides]), and what it writes is a well-formed
      job ([born_well_formed]); a lost acknowledgement is recovered where the driver reports a
      parked connection and otherwise reported as the loss it is, never answered with a second row
      ([lost_ack_recovered]).  A
      bulk call partitions, writes and reports as specified ([batch_outcome]) within its caps
      ([batch_cap_kept]); the COPY tier leaves the rows the INSERT would ([fast_outcome]) and
      names the pair that stopped it ([copy_names_pair]).
    - Dispatch.  Whatever rows peers hold, a claim takes only rows that qualify
      ([claims_only_claimable]), within its limit and what its snapshot left of the actors' caps, so
      that only what peers start in between exceeds a cap ([claims_within_caps]) or runs beside a
      job of the same identity ([claims_keep_single_flight]), and workflow nodes only when they may run
      ([claimed_node_may_run]).  It keeps strict order within a queue ([strict_fifo_order]), or turns
      between cohorts ([round_robin_turns]); the rotation serves every actor with a
      free row in its window ([rotation_serves]); a round outlasts peers that hold less than its widest window
      ([round_outlasts_peers]) and accounts for every row it claims ([round_accounts]).  The loose
      index scan is exact ([loose_scan_distinct]).
    - Cron.  Fire times are exact in every zone of whole minutes, gaps and repeated hours included,
      and an expression no date satisfies is a [ValueError] ([fire_times_exact]); an [allof] schedule's occurrences are each delivered once, whether by
      a fire or by the job written ahead ([occurrences_exactly_once]); a tick gives every due
      schedule one outcome and moves it on or counts against it ([tick_settles]), and counts the
      slots a late schedule drops ([skip_walk_counts]); an operator's disable survives ticks,
      boots and takeovers ([operator_disable_kept]).
    - Leadership.  At most one pod acts, over every interleaving of the pods' tasks with statements
      in flight, abandoned ones included ([one_leader]); a pod that is stopping never leads again and resigns
      at its next tick ([stopping_never_leads]); every elect the server runs takes an absent row, and a
      silent holder's row once a lease is over, and its answer makes the candidate lead
      ([failover_within_lease]); a row that cannot be
      assumed is handed back ([unassumable_handed_back]).
    - Worker bookkeeping.  The claim cursor's bound expires ([claim_cursor_bounded]); the
      stall tally's eviction ends within its bound ([record_terminates]).
    - Limits of the code, as theorems: an attempt or requeued row older than 2^31 ms
      cannot be ended ([long_attempt_write_raises], [sweep_1_poisoned],
      [sweep_2_poisoned]); [RetryAfter(0)] records a transition it does not make
      ([retry_after_zero_event]); the two stock hooks do not always commute
      ([hooks_order_matters_429]); a flush outlives its claim ([stale_flush_lands]) and one whose answer
      was lost is applied again ([repeated_flush_runs_ahead]); the runner's re-pend puts a cancelled
      node back in the queue ([repend_launders_cancel], [laundered_node_runs]); peers can exceed a cap
      and run an identity twice, as documented ([peers_exceed_cap], [peers_run_identity_twice]); with no
      lock budget a legacy conflict ends the caller's transaction ([unbounded_conflict_poisons]); a
      NULL cursor of a single nullable column renders no SQL ([null_seam_of_one_column]) and text
      columns follow the collation, not Python ([text_follows_collation]); a Redis
      bucket of a long capacity is refused when full ([redis_refuses_full_bucket]); the
      stale-batch sweep completes a batch over a member appended after its snapshot
      ([stale_sweep_completes_open]), and a retry can miss an uncommitted completion
      ([retry_misses_completion]); a full stall tally admits no newcomer
      ([full_tally_locks_out]); a window under a millisecond limits nothing
      ([sub_ms_window]); a re-derive sweep between the halves of a finalize counts a parent
      twice ([sweep_midway_counts_twice]), forgets counts reserved before their edges
      ([sweep_forgets_reserved]) and can leave a healed join unfired for good ([sweep_starves]); the derived
      status drops absorbed cancels ([derivation_drops_cancel]); a capped actor's claim window does
      not widen ([capped_window_stuck]) and headroom admits more rows than there are free
      slots ([headroom_overshoots]); a singleton whose acknowledgement was lost is refused by its own
      row ([lost_singleton_refused]); a batch discounts a pair against a refused item and
      overruns a cap ([batch_cap_overrun]); a bulk call re-run after a lost COMMIT misreports
      it ([lost_commit_misreported]); a long transaction outlives a [unique_for] window
      ([unique_window_leaks]); outside a transaction a legacy conflict escapes untyped
      ([legacy_marker_escapes]) and a COPY can be left half fixed ([copy_half_fixed]); a cap that
      trims an [allof] pair loses its first pass ([trim_drops_first_pass]); the job written ahead
      has not the actor's retry curve ([twin_loses_curve]); an unknown zone is no [ValueError]
      ([unknown_zone_is_no_value_error]) and stops the boot's registrations
      ([bad_zone_stops_boot]); a deregistration leaves a struck-out schedule for the next boot to
      enable ([deregister_leaves_struck_out]); enabling with a failure count is no SQL
      ([enable_with_count_refused]); a skip gives up after a thousand slots
      ([skip_refuses_backlog]); an abandoned elect that read its clock before a later one of its
      pod shortens a lease that is trusted ([overtaken_elect_splits]); a late renewal leaves a term without the
      flag ([half_set_role]); an elect can follow the stop signal ([elect_sent_after_stop]); a teardown
      resigns before it demotes ([departing_still_flagged]).

    ** Conventions and bounds

    - Time is integer microseconds.  [clock_timestamp()] is read anew at each mention:
      [clk i] is the [i]-th read, and theorems that need it assume the reads do not go
      backwards ([mono]); [statement_timestamp()] is one value.  A statement that raises
      writes nothing.
    - [td_exact_horizon], 2^32 seconds (136 years), bounds the ceilings for which the
      float seconds of a timedelta convert back to the exact microsecond; the operator
      ceiling is 24 hours by default.
    - [int4_ms_span], 2^31 milliseconds, is the age up to which the duration cast of the
      terminal writes fits its column.
    - [attempt] and [max_attempts] are kept inside smallint as the statements do, by
      saturation; claim_epoch is a bigint and is not bounded in the model.  The int4 and
      bigint counters ([snooze_count], [progress_seq] and the like) are unbounded too.
    - Loops are structural recursions over the rows they visit, with these exceptions, each
      given more fuel than it can use: the abort drain and the prune loop (one page a row and
      one more; [abort_drain_all] and [prune_exact] show it suffices), the stall tally's
      eviction (one round an actor; [record_terminates]), the tick's batches (one slice an
      entry), the decimal exponent of a Lua number (700 steps span the floats), the digits of
      an integer and the blocks of a digest (one per bit, one per word), the loose index scan
      (one seek a row; [loose_scan_distinct]) and the window expansion (three re-runs, the
      code's own bound; [widen_last]).
    - Workflow ids are minted by the caller; a sweep is one atomic function whose skipped rows are an
      argument; the dependency counter is not bounded; concurrent drains are not modelled.
    - A claim statement reads one snapshot; rows peers hold are an argument ([passed]).
      [dispatch_batch] lands on that snapshot; [dispatch_landing] on a later fleet, as READ COMMITTED
      does: its counts and candidates are the snapshot's, each row is checked again when it is locked.  Where its ORDER BY leaves ties, any order is allowed.  Between the attempts of a
      round the fleet may change in any way.  The product of limit and oversample is not
      bounded to int4.
    - A transaction on a batch holds the batches row from its lock to its commit; a statement
      sees what was committed before it started and its own transaction's writes.

    - Enqueue's sessions are READ COMMITTED; [now()] is the transaction's start.  Whether a
      bounded wait gives up, whether a connection dies, whether the statement it died under
      had reached the server, and whether the driver reports the death as its parked state or as the
      loss of the connection ([death]) are chosen by the run.  Lock budgets are whole milliseconds.  A
      LIMIT 1 over a tie takes any row.  [quiet] runs have one session, no death and any
      clock.  A retry of an enqueue is bounded by the code to one; no fuel is needed.
    - A zone ([wf_zone]) has offsets and transitions on whole minutes, shifts of at most fifteen
      hours, and transitions so far apart that the ranges they repeat or skip do not meet; this
      leaves out the zones that skipped or repeated a day at the date line.  [shift_fuel] (2880 minutes) outlasts both walks of
      [repeated_range_bounds] ([bounds_repeated]); [recursion_room] (901 frames, below Python's
      limit) is [_check_gap]'s recursion, one frame a minute of a gap ([gap_steps]); the walks past
      a range, over skipped slots and over covered occurrences have one step a second of the range, a
      second of the backlog and a covered instant ([step_over_ends], [skip_walk_counts], [hop_total]).
    - A tick's transaction writes to the schedules as they are at its end, which need not be as it
      read them.  [occurrences_exactly_once] is about ticks in time: within the catch-up window of
      the slot they fire and done before the next, for an actor with no singleton or cap, while
      nobody edits the schedule or deletes or reschedules the jobs that stand for its coming
      occurrences; it counts a job that was written, not one that succeeded.
    - A pod of the fleet waits as long as it likes: ticks, wakes and deadlines are moves of the
      run, any await may fail at any time, and a statement its sender gave up on may still run.  Clocks
      obey [clock_laws]: none runs backwards, and over a lease a pod's does not fall behind the server's by
      more than the margin.  [faithful_move] asks of a statement that it reads the clock between
      its sending and its end, and of a write to the sender's own row that it does not put older values
      back.  The [workers] row of a pod that runs is not deleted; pods that do not lease are left out.

    ** Parameters

    The ISO parser of cursor timestamps (class [IsoText]), the HTTP-date parser of
    Retry-After, the JSON encoder of results and the collation of text columns (class
    [Collation] where dispatch needs its laws), whether an encoded object carries a NUL
    ([has_nul]) and the text of the server's message on a violation ([detail]) are not defined in the modelled files: they are
    arguments, with their documented behaviour as laws where a theorem needs one.  The croniter
    package is the class [Croniter] with its laws [CroniterLaws] (instance [demo_croniter]); the
    zone database is a function from names; what a payload factory does, the monotonic clock and the minted
    ids are [fire_luck], and which errors are transient is a predicate.  So are the draws of
    random jitter, the rows other transactions hold locked, and whether a bounded wait for a
    lock was granted.

    ** Not modelled

    The client's assembly of enqueue arguments, deletion and archiving of rows, NOTIFY, metrics
    and logs, connection handling and timeouts.  Of the limiters, the PostgreSQL GCRA and the
    Redis windows, and the registry's declaration and eviction of buckets; of batches,
    listing, waiting and the atomic opening with its members; of progress, publishing to Redis; of
    workflows, the declarative graph, the driver of node bodies, holds, loops, child flows,
    streaming and the retention of workflow tables; of cron, the thread pool that runs payload
    factories, the commit gate its telemetry waits behind, the drift warning and the admin's
    run-now; of leadership, the wake channel, the courtesy lock, the error guard and the pacing of
    the sweep loops.  The worker process, dependency injection, the command line, the rest of
    the web administration and cloud credentials: processes, configuration, rendering and calls to
    services, whose effect on jobs and schedules is the statements modelled here.

    ** Plan

    What would come next, in order: the PostgreSQL GCRA and the Redis windows; the worker's memory
    and CPU budget; the validation of workflow graphs. *)

From Stdlib Require Import ZArith Lia QArith Lqa.
From stdpp Require Import base gmap list strings sorting.

Open Scope Z_scope.

(** ** Results of fallible code

    Python code that raises is modelled by [result]: [Ok v] is a normal
    return, [Err e] the exception [e] escaping the call. *)

Inductive result (E A : Type) : Type :=
| Ok (a : A)
| Err (e : E).
Arguments Ok {E A} a.
Arguments Err {E A} e.

#[export] Instance result_eq_dec `{EqDecision E, EqDecision A} : EqDecision (result E A).
Proof. solve_decision. Defined.

Definition rbind {E A B : Type} (m : result E A) (k : A -> result E B) : result E B :=
  match m with
  | Ok a => k a
  | Err e => Err e
  end.

Definition is_ok {E A : Type} (m : result E A) : bool :=
  match m with Ok _ => true | Err _ => false end.

Declare Scope taskq_scope.
Delimit Scope taskq_scope with taskq.
Notation "'let*' x ':=' m 'in' k" := (rbind m (fun x => k))
  (at level 10, x name, m at level 100, k at level 200,
   format "'[v' 'let*'  x  ':='  m  'in' '/' k ']'") : taskq_scope.
Open Scope taskq_scope.

Lemma rbind_ok {E A B : Type} (m : result E A) (k : A -> result E B) (b : B) :
  rbind m k = Ok b <-> exists a, m = Ok a /\ k a = Ok b.
Proof. destruct m; simpl; naive_solver. Qed.

Fixpoint traverse {E A B : Type} (f : A -> result E B) (l : list A) : result E (list B) :=
  match l with
  | [] => Ok []
  | x :: l' => let* y := f x in let* ys := traverse f l' in Ok (y :: ys)
  end.

(** ** Automation *)

Create HintDb taskq.

(** Case analysis on every [if] and [match] scrutinee of the goal and the
    hypotheses, keeping the equations. *)
Ltac split_ifs :=
  repeat match goal with
  | |- context [if ?b then _ else _] => destruct b eqn:?
  | H : context [if ?b then _ else _] |- _ => destruct b eqn:?
  end.

(** Boolean comparisons on [Z] as propositions. *)
Ltac zbool :=
  repeat match goal with
  | H : (_ <? _) = true |- _ => apply Z.ltb_lt in H
  | H : (_ <? _) = false |- _ => apply Z.ltb_ge in H
  | H : (_ <=? _) = true |- _ => apply Z.leb_le in H
  | H : (_ <=? _) = false |- _ => apply Z.leb_gt in H
  | H : (_ =? _) = true |- _ => apply Z.eqb_eq in H
  | H : (_ =? _) = false |- _ => apply Z.eqb_neq in H
  | H : (_ && _)%bool = true |- _ => apply andb_true_iff in H; destruct H
  | H : (_ || _)%bool = false |- _ => apply orb_false_iff in H; destruct H
  | H : negb _ = true |- _ => apply negb_true_iff in H
  | H : negb _ = false |- _ => apply negb_false_iff in H
  end.

(** Inversion of a chain of binds that returned [Ok]. *)
Ltac inv_ok :=
  repeat match goal with
  | H : rbind _ _ = Ok _ |- _ => apply rbind_ok in H as (? & ? & ?)
  | H : Ok _ = Ok _ |- _ => injection H as H; try subst
  | H : Err _ = Ok _ |- _ => discriminate H
  | H : Ok _ = Err _ |- _ => discriminate H
  end.

(** ** Column updates

    [r <| col := v |>] is the row [r] with one column assigned, [r <| col ::= f |>] with
    the column mapped.  A record type declares its field-by-field copy once ([Copy]);
    the setter of a column is derived from it. *)

Class Copy (R : Type) : Type := copy_fields : R -> R.

Class Column {R E : Type} (col : R -> E) : Type := assign : (E -> E) -> R -> R.
Arguments assign {R E} col {_} f r /.

Ltac derive_column :=
  lazymatch goal with
  | |- @Column ?R ?E ?col =>
      let c := constr:(_ : Copy R) in
      refine ((fun (f : E -> E) (r : R) => ltac:(
        let row := eval hnf in (@copy_fields R c r) in
        lazymatch row with
        | context k [col r] => let row' := context k [f (col r)] in exact row'
        end)) : @Column R E col)
  end.

#[export] Hint Extern 1 (Column _) => derive_column : typeclass_instances.

Notation "r <| col := v |>" := (assign col (fun _ => v) r)
  (at level 1, col at level 1, v at level 99) : taskq_scope.
Notation "r <| col ::= f |>" := (assign col f r)
  (at level 1, col at level 1, f at level 99) : taskq_scope.
