(* ===== verification/PyText.v ===== *)
(** * Python text primitives

    The pieces of [str], [int()], [uuid.UUID] and [datetime.isoformat] that the
    cursor and identifier code relies on, over ASCII text.  A text is a list of
    characters; [fixed] is the zero-padded rendering ["%0<w>d"] / ["%0<w>x"],
    [py_int] the parser behind [int(text, base)], [py_split] is
    [str.split(sep, maxsplit)]. *)

From Stdlib Require Import ZArith Lia Ascii.
From stdpp Require Import base list strings.
From S2P Require Import Prelude.

Notation text := (list ascii).

(** A string literal as a text. *)
Definition txt (s : string) : text := String.list_ascii_of_string s.

Definition ascii_eqb : ascii -> ascii -> bool := Ascii.eqb.

Lemma ascii_eqb_spec (a b : ascii) : reflect (a = b) (ascii_eqb a b).
Proof. apply Ascii.eqb_spec. Qed.

(** ** Stripping, splitting, joining *)

(** The characters [str.isspace] accepts, in the ASCII range. *)
Definition is_space (c : ascii) : bool :=
  let n := Ascii.nat_of_ascii c in
  (Nat.leb 9 n && Nat.leb n 13) || (Nat.leb 28 n && Nat.leb n 32).

Fixpoint lstrip_by (p : ascii -> bool) (s : text) : text :=
  match s with
  | [] => []
  | c :: s' => if p c then lstrip_by p s' else s
  end.

(** [str.strip]: leading, then trailing characters satisfying [p]. *)
Definition strip_by (p : ascii -> bool) (s : text) : text :=
  rev (lstrip_by p (rev (lstrip_by p s))).

(** [str.split(sep, n)] for a one-character separator: at most [n] cuts. *)
Fixpoint py_split (sep : ascii) (n : nat) (s : text) : list text :=
  match s with
  | [] => [[]]
  | c :: s' =>
      if ascii_eqb c sep && Nat.ltb 0 n then [] :: py_split sep (n - 1) s'
      else match py_split sep n s' with
           | [] => [[c]]
           | w :: ws => (c :: w) :: ws
           end
  end.

(** [sep.join(parts)]. *)
Fixpoint py_join (sep : text) (parts : list text) : text :=
  match parts with
  | [] => []
  | [w] => w
  | w :: ws => w ++ sep ++ py_join sep ws
  end.

Definition occurs (c : ascii) (s : text) : bool := existsb (ascii_eqb c) s.

Lemma py_split_zero sep s : py_split sep 0 s = [s].
Proof.
  induction s as [|c s IH]; simpl; [done|].
  rewrite andb_false_r, IH. done.
Qed.

Lemma py_split_head sep n w rest :
  occurs sep w = false ->
  py_split sep (S n) (w ++ sep :: rest) = w :: py_split sep n rest.
Proof.
  induction w as [|c w IH]; simpl; intros Hocc.
  - unfold ascii_eqb. rewrite Ascii.eqb_refl. simpl. by rewrite Nat.sub_0_r.
  - apply orb_false_iff in Hocc as [Hc Hw].
    destruct (ascii_eqb_spec c sep) as [->|Hne].
    + unfold ascii_eqb in Hc. by rewrite Ascii.eqb_refl in Hc.
    + simpl. by rewrite (IH Hw).
Qed.

(** Splitting a join gives the parts back, when only the last part may contain
    the separator and the cut count is one less than the number of parts. *)
Lemma py_split_join sep ws w :
  Forall (fun x => occurs sep x = false) ws ->
  py_split sep (length ws) (py_join [sep] (ws ++ [w])) = ws ++ [w].
Proof.
  induction ws as [|x ws IH]; simpl; intros Hws.
  - apply py_split_zero.
  - inversion_clear Hws as [|? ? Hx Hws'].
    destruct (ws ++ [w]) as [|y ys] eqn:E; [by destruct ws|].
    cbn [app]. rewrite (py_split_head sep (length ws) x _ Hx).
    f_equal. by apply IH.
Qed.

(** ** Digits *)

(** The value of a digit character, any case, up to base 36's [f]. *)
Definition digit_val (c : ascii) : option Z :=
  let n := Z.of_nat (Ascii.nat_of_ascii c) in
  if (48 <=? n) && (n <=? 57) then Some (n - 48)
  else if (97 <=? n) && (n <=? 102) then Some (n - 87)
  else if (65 <=? n) && (n <=? 70) then Some (n - 55)
  else None.

(** The lower-case digit character of a value below 16. *)
Definition digit_chr (d : Z) : ascii :=
  Ascii.ascii_of_nat (Z.to_nat (if d <? 10 then d + 48 else d + 87)).

(** ["%0<w>d" % z] (base 10) and ["%0<w>x" % z] (base 16) for [z < base^w]. *)
Fixpoint fixed (base : Z) (w : nat) (z : Z) : text :=
  match w with
  | O => []
  | S w' => fixed base w' (z / base) ++ [digit_chr (z mod base)]
  end.

(** The digit loop of [int(text, base)]: digits with single underscores between
    them; [prev] says whether the previous character was a digit. *)
Fixpoint parse_digits (base : Z) (prev : bool) (acc : Z) (s : text) : option Z :=
  match s with
  | [] => if prev then Some acc else None
  | c :: s' =>
      if ascii_eqb c "_"%char then (if prev then parse_digits base false acc s' else None)
      else match digit_val c with
           | Some d => if d <? base then parse_digits base true (acc * base + d) s' else None
           | None => None
           end
  end.

(** CPython refuses base-10 literals of more than 4300 digits. *)
Definition int_max_str_digits : nat := 4300.

Definition count_digits (s : text) : nat :=
  length (List.filter (fun c => negb (ascii_eqb c "_"%char)) s).

(** [int(text, base)] for base 10 and 16; [None] is [ValueError]. *)
Definition py_int (base : Z) (s : text) : option Z :=
  let s := strip_by is_space s in
  let '(neg, s) := match s with
                   | c :: s' => if ascii_eqb c "-"%char then (true, s')
                                else if ascii_eqb c "+"%char then (false, s') else (false, s)
                   | [] => (false, s)
                   end in
  let s := match s with
           | c :: x :: s' =>
               if (base =? 16) && ascii_eqb c "0"%char && (ascii_eqb x "x"%char || ascii_eqb x "X"%char)
               then match s' with
                    | u :: s'' => if ascii_eqb u "_"%char then s'' else s'
                    | [] => s'
                    end
               else s
           | _ => s
           end in
  if (base =? 10) && Nat.ltb int_max_str_digits (count_digits s) then None
  else match parse_digits base false 0 s with
       | Some v => Some (if neg then - v else v)
       | None => None
       end.

(** The number of decimal digits of [z >= 0], by repeated division. *)
Fixpoint ndigits (fuel : nat) (z : Z) : nat :=
  match fuel with
  | O => 1%nat
  | S fuel' => if z <? 10 then 1%nat else S (ndigits fuel' (z / 10))
  end.

(** [str(z)]: as many divisions as the bit length is always enough. *)
Definition py_str_int (z : Z) : text :=
  let a := Z.abs z in
  let ds := fixed 10 (ndigits (Z.to_nat (Z.log2 a + 1)) a) a in
  if z <? 0 then "-"%char :: ds else ds.

(** ** Facts about rendered digits *)

(** A lower-case hexadecimal digit character. *)
Definition is_lower_hex (c : ascii) : bool :=
  match digit_val c with
  | Some d => ascii_eqb (digit_chr d) c
  | None => false
  end.

Lemma digit_cases (d : Z) (P : Z -> Prop) :
  0 <= d < 16 ->
  P 0 -> P 1 -> P 2 -> P 3 -> P 4 -> P 5 -> P 6 -> P 7 ->
  P 8 -> P 9 -> P 10 -> P 11 -> P 12 -> P 13 -> P 14 -> P 15 -> P d.
Proof.
  intros Hd **.
  assert (d = 0 \/ d = 1 \/ d = 2 \/ d = 3 \/ d = 4 \/ d = 5 \/ d = 6 \/ d = 7 \/
          d = 8 \/ d = 9 \/ d = 10 \/ d = 11 \/ d = 12 \/ d = 13 \/ d = 14 \/ d = 15)
    as Hcases by lia.
  by repeat (destruct Hcases as [->|Hcases]; [assumption|]); subst.
Qed.

Lemma digit_val_chr (d : Z) : 0 <= d < 16 -> digit_val (digit_chr d) = Some d.
Proof. intros Hd. by apply (digit_cases d). Qed.

Lemma digit_chr_hex (d : Z) : 0 <= d < 16 -> is_lower_hex (digit_chr d) = true.
Proof. intros Hd. by apply (digit_cases d). Qed.

(** A rendered digit is none of the characters the parsers treat specially. *)
Lemma lower_hex_plain (c : ascii) :
  is_lower_hex c = true ->
  is_space c = false /\ ascii_eqb c "_"%char = false /\ ascii_eqb c "-"%char = false /\
  ascii_eqb c "+"%char = false /\ ascii_eqb c "x"%char = false /\
  ascii_eqb c "X"%char = false /\ ascii_eqb c "u"%char = false /\
  ascii_eqb c "{"%char = false /\ ascii_eqb c "}"%char = false /\
  ascii_eqb c "|"%char = false.
Proof. by destruct c as [[] [] [] [] [] [] [] []]. Qed.

Definition base_ok (base : Z) : Prop := 2 <= base <= 16.

Lemma fixed_length base w z : length (fixed base w z) = w.
Proof.
  revert z; induction w as [|w IH]; intros z; simpl; [done|].
  rewrite length_app, IH; simpl. lia.
Qed.

Lemma fixed_hex base w z :
  base_ok base -> Forall (fun c => is_lower_hex c = true) (fixed base w z).
Proof.
  intros Hb; revert z; induction w as [|w IH]; intros z; simpl; [constructor|].
  apply Forall_app; split; [apply IH|].
  constructor; [|constructor]. apply digit_chr_hex.
  pose proof (Z.mod_pos_bound z base). unfold base_ok in Hb. lia.
Qed.

(** A character the digit loop of base [base] accepts. *)
Definition digit_of (base : Z) (c : ascii) : Prop :=
  exists d, digit_val c = Some d /\ 0 <= d < base /\ ascii_eqb c "_"%char = false.

Definition digits_value (base acc : Z) (s : text) : Z :=
  fold_left (fun a c => a * base + default 0 (digit_val c)) s acc.

Lemma parse_digits_value base prev acc s :
  Forall (digit_of base) s -> prev = true \/ s <> [] ->
  parse_digits base prev acc s = Some (digits_value base acc s).
Proof.
  intros Hs; revert prev acc.
  induction Hs as [|c s (d & Hd & Hlt & Hu) Hs IH]; intros prev acc Hp; simpl.
  - destruct Hp as [->|?]; done.
  - rewrite Hu, Hd. destruct (Z.ltb_spec d base); [|lia].
    rewrite IH by auto. done.
Qed.

Lemma fixed_digit_of base w z : base_ok base -> Forall (digit_of base) (fixed base w z).
Proof.
  intros Hb; revert z; induction w as [|w IH]; intros z; simpl; [constructor|].
  apply Forall_app; split; [apply IH|]. constructor; [|constructor].
  pose proof (Z.mod_pos_bound z base) as Hm. unfold base_ok in Hb.
  exists (z mod base). split_and!; try lia.
  - apply digit_val_chr. lia.
  - apply lower_hex_plain, digit_chr_hex. lia.
Qed.

Lemma digits_value_fixed base w z acc :
  base_ok base ->
  digits_value base acc (fixed base w z) = acc * base ^ Z.of_nat w + z mod base ^ Z.of_nat w.
Proof.
  intros Hb. unfold base_ok in Hb.
  revert z; induction w as [|w IH]; intros z.
  - change (Z.of_nat 0) with 0. rewrite Z.pow_0_r, Z.mod_1_r. unfold digits_value. simpl. ring.
  - pose proof (Z.mod_pos_bound z base) as Hm.
    unfold digits_value in *. cbn [fixed]. rewrite fold_left_app, IH. cbn [fold_left].
    rewrite digit_val_chr by lia. change (default 0 (Some (z mod base))) with (z mod base).
    rewrite Nat2Z.inj_succ, Z.pow_succ_r by lia.
    rewrite (Z.rem_mul_r z base (base ^ Z.of_nat w)) by (try apply Z.pow_pos_nonneg; lia).
    ring.
Qed.

Lemma lower_hex_digit c : is_lower_hex c = true -> digit_of 16 c.
Proof.
  intros Hc. pose proof (lower_hex_plain c Hc) as (_ & Hu & _). revert Hc.
  unfold is_lower_hex. destruct (digit_val c) as [d|] eqn:E; [|done]. intros _.
  exists d. split_and!; auto; revert E; unfold digit_val;
    repeat case_match; zbool; intros [= <-]; lia.
Qed.

Lemma digits_value_bound base acc s :
  1 <= base -> 0 <= acc -> Forall (digit_of base) s ->
  0 <= digits_value base acc s < (acc + 1) * base ^ Z.of_nat (length s).
Proof.
  intros Hb Ha Hs; revert acc Ha.
  induction Hs as [|c s (d & Hd & Hlt & _) Hs IH]; intros acc Ha.
  - change (Z.of_nat (length [])) with 0. rewrite Z.pow_0_r. unfold digits_value. simpl. lia.
  - unfold digits_value in *. cbn [fold_left length]. rewrite Hd.
    change (default 0 (Some d)) with d. rewrite Nat2Z.inj_succ, Z.pow_succ_r by lia.
    specialize (IH (acc * base + d) ltac:(nia)).
    assert (0 <= base ^ Z.of_nat (length s)) by (apply Z.pow_nonneg; lia). nia.
Qed.

(** The digit loop reads a rendered number back. *)
Lemma parse_digits_fixed base w z :
  base_ok base -> (0 < w)%nat ->
  parse_digits base false 0 (fixed base w z) = Some (z mod base ^ Z.of_nat w).
Proof.
  intros Hb Hw. rewrite parse_digits_value, digits_value_fixed; auto using fixed_digit_of.
  right. pose proof (fixed_length base w z) as HL. destruct (fixed base w z); [simpl in HL; lia|done].
Qed.

(** ** [int] and [str] *)

Lemma lstrip_by_none p s :
  match s with [] => True | c :: _ => p c = false end -> lstrip_by p s = s.
Proof. destruct s as [|c s]; simpl; [done|]. by intros ->. Qed.

Lemma strip_by_none p s : Forall (fun c => p c = false) s -> strip_by p s = s.
Proof.
  intros Hs. unfold strip_by.
  rewrite (lstrip_by_none p s) by (by destruct Hs).
  rewrite lstrip_by_none, rev_involutive; [done|].
  apply Forall_rev in Hs. by destruct Hs.
Qed.

Lemma ndigits_bound fuel z :
  0 <= z < 10 * 2 ^ Z.of_nat fuel -> z < 10 ^ Z.of_nat (ndigits fuel z).
Proof.
  revert z; induction fuel as [|fuel IH]; intros z Hz; [simpl in *; lia|].
  cbn [ndigits]. destruct (Z.ltb_spec z 10); [simpl; lia|].
  rewrite Nat2Z.inj_succ, Z.pow_succ_r by lia.
  rewrite Nat2Z.inj_succ, Z.pow_succ_r in Hz by lia.
  assert (z / 10 < 10 ^ Z.of_nat (ndigits fuel (z / 10))).
  { apply IH. split; [apply Z.div_pos; lia|]. apply Z.div_lt_upper_bound; lia. }
  pose proof (Z.div_mod z 10). pose proof (Z.mod_pos_bound z 10). nia.
Qed.

Lemma ndigits_pos fuel z : (0 < ndigits fuel z)%nat.
Proof. destruct fuel; simpl; [lia|]. case_match; lia. Qed.

Lemma py_str_int_fuel a :
  0 <= a -> a < 10 ^ Z.of_nat (ndigits (Z.to_nat (Z.log2 a + 1)) a).
Proof.
  intros Ha. apply ndigits_bound. split; [done|].
  pose proof (Z.log2_nonneg a).
  rewrite Z2Nat.id by lia.
  destruct (Z.eq_dec a 0) as [->|]; [simpl; lia|].
  pose proof (proj2 (Z.log2_spec a ltac:(lia))).
  replace (Z.log2 a + 1) with (Z.succ (Z.log2 a)) by lia. lia.
Qed.

(** A text of rendered digits needs no stripping, has no sign and no prefix. *)
Lemma py_int_plain base s :
  Forall (fun c => is_lower_hex c = true) s ->
  (count_digits s <= int_max_str_digits)%nat ->
  py_int base s = parse_digits base false 0 s.
Proof.
  intros Hs Hlen. unfold py_int.
  rewrite strip_by_none by (eapply Forall_impl; [exact Hs|]; intros; by apply lower_hex_plain).
  assert (Hsp : Nat.ltb int_max_str_digits (count_digits s) = false) by (by apply Nat.ltb_ge).
  destruct s as [|c s]; [by rewrite Hsp, andb_false_r|].
  inversion_clear Hs as [|? ? Hc Hs']. apply lower_hex_plain in Hc as (_ & _ & -> & -> & _).
  assert (Hx : match s with
               | x :: s' => if (base =? 16) && ascii_eqb c "0"%char &&
                              (ascii_eqb x "x"%char || ascii_eqb x "X"%char)
                            then match s' with
                                 | u :: s'' => if ascii_eqb u "_"%char then s'' else s'
                                 | [] => s'
                                 end
                            else c :: s
               | [] => c :: s
               end = c :: s).
  { destruct Hs' as [|x s' Hx' _]; [done|].
    apply lower_hex_plain in Hx' as (_ & _ & _ & _ & -> & -> & _).
    by rewrite andb_false_r. }
  rewrite Hx, Hsp, andb_false_r. by destruct (parse_digits base false 0 (c :: s)).
Qed.

Lemma count_digits_hex s :
  Forall (fun c => is_lower_hex c = true) s -> count_digits s = length s.
Proof.
  unfold count_digits. induction 1 as [|c s Hc Hs IH]; [done|].
  apply lower_hex_plain in Hc as (_ & Hu & _). simpl. rewrite Hu. simpl. by rewrite IH.
Qed.

Lemma py_int_fixed base w z :
  base_ok base -> (0 < w <= int_max_str_digits)%nat ->
  py_int base (fixed base w z) = Some (z mod base ^ Z.of_nat w).
Proof.
  intros Hb Hw.
  rewrite py_int_plain, parse_digits_fixed; auto using fixed_hex; [lia|].
  rewrite count_digits_hex, fixed_length by auto using fixed_hex. lia.
Qed.

Lemma ndigits_le fuel z : (ndigits fuel z <= S fuel)%nat.
Proof.
  revert z; induction fuel as [|fuel IH]; intros z; simpl; [lia|].
  case_match; [lia|]. specialize (IH (z / 10)). lia.
Qed.

Lemma py_str_int_abs_digits a :
  0 <= a < 2 ^ 4000 ->
  (0 < ndigits (Z.to_nat (Z.log2 a + 1)) a <= int_max_str_digits)%nat.
Proof.
  intros Ha. split; [apply ndigits_pos|].
  etransitivity; [apply ndigits_le|].
  assert (Z.log2 a < 4000).
  { destruct (Z.eq_dec a 0) as [->|]; [reflexivity|]. apply Z.log2_lt_pow2; lia. }
  pose proof (Z.log2_nonneg a).
  unfold int_max_str_digits. lia.
Qed.

(** [int(str(z)) = z]. *)
Lemma py_int_str z : Z.abs z < 2 ^ 4000 -> py_int 10 (py_str_int z) = Some z.
Proof.
  intros Hz. assert (Hb : base_ok 10) by (unfold base_ok; lia).
  pose proof (py_str_int_abs_digits (Z.abs z) ltac:(lia)) as Hn.
  pose proof (py_str_int_fuel (Z.abs z) ltac:(lia)) as Hf.
  pose proof (py_int_fixed 10 _ (Z.abs z) Hb Hn) as Hp.
  rewrite Z.mod_small in Hp by lia.
  unfold py_str_int. destruct (Z.ltb_spec z 0); [|rewrite Hp; f_equal; lia].
  revert Hp. generalize (ndigits (Z.to_nat (Z.log2 (Z.abs z) + 1)) (Z.abs z)) as w.
  intros w Hp. pose proof (fixed_hex 10 w (Z.abs z) Hb) as Hx.
  revert Hp. unfold py_int at 2. rewrite strip_by_none.
  2: { constructor; [done|]. eapply Forall_impl; [exact Hx|]. intros; by apply lower_hex_plain. }
  unfold py_int. rewrite strip_by_none.
  2: { eapply Forall_impl; [exact Hx|]. intros; by apply lower_hex_plain. }
  destruct Hx as [|c s Hc _]; [done|].
  apply lower_hex_plain in Hc as (_ & _ & -> & -> & _). simpl.
  destruct s; repeat case_match; try done; intros [=]; f_equal; lia.
Qed.

Lemma py_str_int_chars z :
  Forall (fun c => is_lower_hex c = true \/ c = "-"%char) (py_str_int z).
Proof.
  assert (H : forall w a, Forall (fun c => is_lower_hex c = true \/ c = "-"%char) (fixed 10 w a)).
  { intros w a. eapply Forall_impl; [apply (fixed_hex 10); unfold base_ok; lia|]. auto. }
  unfold py_str_int. case_match; [constructor|]; auto.
Qed.

(** ** [uuid.UUID] *)

Fixpoint starts_with (pat s : text) : bool :=
  match pat, s with
  | [], _ => true
  | p :: pat', c :: s' => ascii_eqb p c && starts_with pat' s'
  | _ :: _, [] => false
  end.

(** [s.replace(pat, '')]: every non-overlapping occurrence of [pat] removed from
    the left; [skip] counts the characters of a match still to drop. *)
Fixpoint remove_all (pat : text) (skip : nat) (s : text) : text :=
  match s with
  | [] => []
  | c :: s' =>
      match skip with
      | S k => remove_all pat k s'
      | O => if starts_with pat s then remove_all pat (length pat - 1) s'
             else c :: remove_all pat 0 s'
      end
  end.

Definition is_brace (c : ascii) : bool := ascii_eqb c "{"%char || ascii_eqb c "}"%char.

(** A UUID is its 128-bit integer, the value [uuid.UUID] compares by. *)
Definition uuid_max : Z := 2 ^ 128.

(** [UUID(text)]; [None] is [ValueError]. *)
Definition uuid_parse (s : text) : option Z :=
  let h := remove_all (txt "uuid:") 0 (remove_all (txt "urn:") 0 s) in
  let h := strip_by is_brace h in
  let h := List.filter (fun c => negb (ascii_eqb c "-"%char)) h in
  if Nat.eqb (length h) 32 then
    match py_int 16 h with
    | Some v => if (0 <=? v) && (v <? uuid_max) then Some v else None
    | None => None
    end
  else None.

(** [str(uuid)]: 8-4-4-4-12 lower-case hexadecimal digits. *)
Definition uuid_str (u : Z) : text :=
  let h := fixed 16 32 u in
  take 8 h ++ "-"%char :: take 4 (drop 8 h) ++ "-"%char :: take 4 (drop 12 h) ++
  "-"%char :: take 4 (drop 16 h) ++ "-"%char :: drop 20 h.

Definition uuid_char (c : ascii) : Prop := is_lower_hex c = true \/ c = "-"%char.

Lemma remove_all_none pat p s :
  Forall (fun c => ascii_eqb p c = false) s -> remove_all (p :: pat) 0 s = s.
Proof.
  induction 1 as [|c s Hc Hs IH]; [done|].
  simpl. rewrite Hc. simpl. by rewrite IH.
Qed.

Lemma filter_dash_hex s :
  Forall (fun c => is_lower_hex c = true) s ->
  List.filter (fun c => negb (ascii_eqb c "-"%char)) s = s.
Proof.
  induction 1 as [|c s Hc Hs IH]; [done|].
  apply lower_hex_plain in Hc as (_ & _ & Hd & _). simpl. by rewrite Hd, IH.
Qed.

Lemma take_drop_hex n m s :
  Forall (fun c => is_lower_hex c = true) s ->
  Forall (fun c => is_lower_hex c = true) (take n (drop m s)).
Proof. intros H. by apply Forall_take, Forall_drop. Qed.

Lemma uuid_str_chars u : Forall uuid_char (uuid_str u).
Proof.
  assert (Hx : Forall (fun c => is_lower_hex c = true) (fixed 16 32 u))
    by (apply fixed_hex; unfold base_ok; lia).
  assert (Himp : forall s, Forall (fun c => is_lower_hex c = true) s -> Forall uuid_char s)
    by (intros s Hs; eapply Forall_impl; [exact Hs|]; by left).
  unfold uuid_str.
  repeat first [ apply Forall_app; split | apply Forall_cons; split; [by right|] ];
    apply Himp; auto using Forall_take, Forall_drop.
Qed.

Lemma uuid_char_plain c :
  uuid_char c -> ascii_eqb "u"%char c = false /\ is_brace c = false /\ ascii_eqb "|"%char c = false.
Proof.
  intros [Hc| ->]; [|done].
  apply lower_hex_plain in Hc as (_ & _ & _ & _ & _ & _ & Hu & H1 & H2 & Hb).
  unfold is_brace, ascii_eqb in *. rewrite H1, H2.
  rewrite (Ascii.eqb_sym "u"), Hu, (Ascii.eqb_sym "|"), Hb. done.
Qed.

Lemma uuid_str_undash u :
  List.filter (fun c => negb (ascii_eqb c "-"%char)) (uuid_str u) = fixed 16 32 u.
Proof.
  assert (Hx : Forall (fun c => is_lower_hex c = true) (fixed 16 32 u))
    by (apply fixed_hex; unfold base_ok; lia).
  unfold uuid_str.
  repeat (rewrite List.filter_app || cbn [List.filter]).
  change (ascii_eqb "-"%char "-"%char) with true. cbn [negb].
  repeat rewrite filter_dash_hex by (try apply Forall_take; try apply Forall_drop; done).
  reflexivity.
Qed.

(** [UUID(str(u)) = u]. *)
Lemma uuid_roundtrip u : 0 <= u < uuid_max -> uuid_parse (uuid_str u) = Some u.
Proof.
  intros Hu. pose proof (uuid_str_chars u) as Hc.
  assert (Hn : Forall (fun c => ascii_eqb "u"%char c = false) (uuid_str u))
    by (eapply Forall_impl; [exact Hc|]; intros; by apply uuid_char_plain).
  unfold uuid_parse.
  rewrite (remove_all_none (txt "rn:") "u"%char) by done.
  rewrite (remove_all_none (txt "uid:") "u"%char) by done.
  rewrite strip_by_none by (eapply Forall_impl; [exact Hc|]; intros; by apply uuid_char_plain).
  rewrite uuid_str_undash, fixed_length. simpl Nat.eqb. cbv iota.
  rewrite py_int_fixed by (unfold base_ok, int_max_str_digits; lia).
  change (16 ^ Z.of_nat 32) with uuid_max.
  rewrite Z.mod_small by done.
  destruct (Z.leb_spec 0 u), (Z.ltb_spec u uuid_max); done || lia.
Qed.
