(* ===== verification/PyTime.v ===== *)
(** * UTC datetimes and their ISO-8601 text

    The timestamps TaskQ stores are timezone-aware UTC [datetime]s.  [datetime]
    keeps the seven fields Python's object keeps; Python compares two datetimes
    of the same zone field by field, which [dt_key] packs into one integer.
    [isoformat] is [datetime.isoformat()]; parsing is the interface [IsoText],
    whose one law is the documented inverse ("[fromisoformat] parses what
    [isoformat] emits"), with an executable instance. *)

From Stdlib Require Import ZArith Lia Ascii.
From stdpp Require Import base list strings.
From S2P Require Import Prelude PyText.

Record datetime := mkdt {
  dt_year : Z; dt_month : Z; dt_day : Z;
  dt_hour : Z; dt_minute : Z; dt_second : Z; dt_us : Z
}.

#[export] Instance datetime_eq_dec : EqDecision datetime.
Proof. solve_decision. Defined.

Definition is_leap (y : Z) : bool :=
  (y mod 4 =? 0) && (negb (y mod 100 =? 0) || (y mod 400 =? 0)).

Definition days_in_month (y m : Z) : Z :=
  if m =? 2 then (if is_leap y then 29 else 28)
  else if existsb (Z.eqb m) [4; 6; 9; 11] then 30 else 31.

(** The field ranges [datetime()] enforces. *)
Definition dt_valid (d : datetime) : bool :=
  (1 <=? dt_year d) && (dt_year d <=? 9999) &&
  (1 <=? dt_month d) && (dt_month d <=? 12) &&
  (1 <=? dt_day d) && (dt_day d <=? days_in_month (dt_year d) (dt_month d)) &&
  (0 <=? dt_hour d) && (dt_hour d <? 24) &&
  (0 <=? dt_minute d) && (dt_minute d <? 60) &&
  (0 <=? dt_second d) && (dt_second d <? 60) &&
  (0 <=? dt_us d) && (dt_us d <? 1000000).

Definition dt_key (d : datetime) : Z :=
  (((((dt_year d * 100 + dt_month d) * 100 + dt_day d) * 100 + dt_hour d) * 100
    + dt_minute d) * 100 + dt_second d) * 1000000 + dt_us d.

Lemma dt_valid_bounds d :
  dt_valid d = true ->
  1 <= dt_year d <= 9999 /\ 1 <= dt_month d <= 12 /\ 1 <= dt_day d <= 31 /\
  0 <= dt_hour d < 24 /\ 0 <= dt_minute d < 60 /\ 0 <= dt_second d < 60 /\
  0 <= dt_us d < 1000000.
Proof.
  unfold dt_valid. intros H. zbool.
  assert (days_in_month (dt_year d) (dt_month d) <= 31)
    by (unfold days_in_month; repeat case_match; lia).
  lia.
Qed.

Lemma pack_inj b q1 r1 q2 r2 :
  0 <= r1 < b -> 0 <= r2 < b -> q1 * b + r1 = q2 * b + r2 -> q1 = q2 /\ r1 = r2.
Proof. intros. assert (q1 = q2) by nia. lia. Qed.

Lemma dt_key_inj a b :
  dt_valid a = true -> dt_valid b = true -> dt_key a = dt_key b -> a = b.
Proof.
  intros Ha%dt_valid_bounds Hb%dt_valid_bounds Hk.
  destruct a, b; unfold dt_key in Hk; simpl in *.
  apply pack_inj in Hk as [Hk ->]; [|lia..].
  do 4 (apply pack_inj in Hk as [Hk ->]; [|lia..]).
  apply pack_inj in Hk as [-> ->]; [|lia..]. done.
Qed.

(** [d.isoformat()] of a UTC datetime: the fraction only when non-zero. *)
Definition isoformat (d : datetime) : text :=
  fixed 10 4 (dt_year d) ++ "-"%char :: fixed 10 2 (dt_month d) ++
  "-"%char :: fixed 10 2 (dt_day d) ++ "T"%char :: fixed 10 2 (dt_hour d) ++
  ":"%char :: fixed 10 2 (dt_minute d) ++ ":"%char :: fixed 10 2 (dt_second d) ++
  (if dt_us d =? 0 then [] else "."%char :: fixed 10 6 (dt_us d)) ++ txt "+00:00".

(** ** Parsing *)

Class IsoText := {
  fromisoformat : text -> option datetime;
  fromisoformat_isoformat : forall d, dt_valid d = true -> fromisoformat (isoformat d) = Some d
}.

(** Exactly [w] decimal digits at the front of [s]. *)
Definition take_num (w : nat) (s : text) : option (Z * text) :=
  if Nat.eqb (length (take w s)) w
     && forallb (fun c => match digit_val c with Some d => d <? 10 | None => false end) (take w s)
  then Some (digits_value 10 0 (take w s), drop w s) else None.

Definition expect (c : ascii) (s : text) : option text :=
  match s with
  | a :: s' => if ascii_eqb a c then Some s' else None
  | [] => None
  end.

Lemma expect_same c s : expect c (c :: s) = Some s.
Proof. unfold expect, ascii_eqb. by rewrite Ascii.eqb_refl. Qed.

Lemma take_num_fixed w z r :
  0 <= z < 10 ^ Z.of_nat w -> take_num w (fixed 10 w z ++ r) = Some (z, r).
Proof.
  intros Hz. assert (Hb : base_ok 10) by (unfold base_ok; lia).
  unfold take_num. rewrite take_app_length' by (by rewrite fixed_length).
  rewrite drop_app_length' by (by rewrite fixed_length).
  rewrite fixed_length, Nat.eqb_refl, digits_value_fixed by done.
  assert (forallb (fun c => match digit_val c with Some d => d <? 10 | None => false end)
            (fixed 10 w z) = true) as ->.
  { apply forallb_forall. intros c Hc%list_elem_of_In.
    pose proof (fixed_digit_of 10 w z Hb) as Hf. rewrite Forall_forall in Hf.
    destruct (Hf c Hc) as (d & -> & Hd & _). apply Z.ltb_lt. lia. }
  simpl. rewrite Z.mod_small by done. done.
Qed.

(** The extended format with an explicit UTC offset, the text [isoformat] emits. *)
Definition iso_parse (s : text) : option datetime :=
  '(y, s) ← take_num 4 s; s ← expect "-"%char s;
  '(mo, s) ← take_num 2 s; s ← expect "-"%char s;
  '(d, s) ← take_num 2 s; s ← expect "T"%char s;
  '(h, s) ← take_num 2 s; s ← expect ":"%char s;
  '(mi, s) ← take_num 2 s; s ← expect ":"%char s;
  '(sec, s) ← take_num 2 s;
  '(us, s) ← match expect "."%char s with
             | Some s' => take_num 6 s'
             | None => Some (0, s)
             end;
  let r := mkdt y mo d h mi sec us in
  if bool_decide (s = txt "+00:00") && dt_valid r then Some r else None.

Lemma iso_parse_isoformat d : dt_valid d = true -> iso_parse (isoformat d) = Some d.
Proof.
  intros Hv. pose proof (dt_valid_bounds d Hv) as Hb.
  unfold iso_parse, isoformat.
  repeat first [ rewrite take_num_fixed by (simpl; lia) | rewrite expect_same
               | progress cbn [mbind option_bind] ].
  destruct (Z.eqb_spec (dt_us d) 0) as [E|E].
  - simpl. destruct d; simpl in *; subst. by rewrite Hv.
  - rewrite <- app_comm_cons, expect_same, take_num_fixed by (simpl; lia). simpl.
    destruct d; simpl in *. by rewrite Hv.
Qed.

#[export] Instance iso_text : IsoText := {
  fromisoformat := iso_parse;
  fromisoformat_isoformat := iso_parse_isoformat
}.

Lemma isoformat_no_bar d : occurs "|"%char (isoformat d) = false.
Proof.
  assert (Hf : forall w z, occurs "|"%char (fixed 10 w z) = false).
  { intros w z. unfold occurs. apply not_true_iff_false. rewrite existsb_exists.
    intros (c & Hin%list_elem_of_In & Hc).
    pose proof (fixed_hex 10 w z ltac:(unfold base_ok; lia)) as Hx.
    rewrite Forall_forall in Hx. apply Hx, lower_hex_plain in Hin.
    destruct Hin as (_ & _ & _ & _ & _ & _ & _ & _ & _ & Hbar).
    unfold ascii_eqb in *. rewrite Ascii.eqb_sym in Hc. congruence. }
  unfold isoformat, occurs in *.
  repeat (rewrite existsb_app || cbn [existsb] || rewrite Hf).
  destruct (dt_us d =? 0); [done|]. cbn [existsb]. by rewrite Hf.
Qed.

Lemma isoformat_nonempty d : isoformat d <> [].
Proof. unfold isoformat. cbn [fixed app]. by destruct d. Qed.
