(* ===== verification/Cursor.v ===== *)
(** * Keyset pagination: orderings, cursors and their SQL predicates

    Models [src/taskq/backend/_cursor.py].  A [JobOrdering] is one list of
    [SortColumn]s; the ORDER BY text, the keyset predicate, the cursor text and
    the in-memory comparison are all derived from it.  The keyset predicate is
    built as a syntax tree ([sql_pred]) in the shape the source concatenates,
    with [render_pred] giving the SQL text and [eval_pred] its PostgreSQL meaning:
    three-valued logic, row-wise comparison that stops at the first unequal or
    NULL pair.  Errors of the predicate (an unbound placeholder, operands of
    different types) are [None], distinct from SQL NULL. *)

From Stdlib Require Import ZArith Lia Ascii.
From stdpp Require Import base list strings sorting.
From S2P Require Import Prelude PyText PyTime.

Inductive cursor_err := ValueError | TypeError | KeyError.

#[export] Instance cursor_err_eq_dec : EqDecision cursor_err.
Proof. solve_decision. Defined.

(** ** Cursor values *)

Inductive ColumnKind := KInt | KText | KTs | KUuid.

#[export] Instance ColumnKind_eq_dec : EqDecision ColumnKind.
Proof. solve_decision. Defined.

Inductive cvalue :=
| VInt (z : Z)
| VStr (s : text)
| VTs (t : datetime)
| VUuid (u : Z).

#[export] Instance cvalue_eq_dec : EqDecision cvalue.
Proof. solve_decision. Defined.

(** [int | str | datetime | UUID | None]. *)
Notation CursorValue := (option cvalue).

Definition INT4_MIN : Z := - 2 ^ 31.
Definition INT4_MAX : Z := 2 ^ 31 - 1.

Definition parse_int4 (s : text) : result cursor_err Z :=
  match py_int 10 s with
  | Some v => if (INT4_MIN <=? v) && (v <=? INT4_MAX) then Ok v else Err ValueError
  | None => Err ValueError
  end.

Definition bar : ascii := "|"%char.

Definition encode_cursor (priority : Z) (scheduled_at : datetime) (job_id : Z) : text :=
  py_str_int priority ++ [bar] ++ isoformat scheduled_at ++ [bar] ++ uuid_str job_id.

Definition encode_batch_cursor (created_at : datetime) (batch_id : Z) : text :=
  isoformat created_at ++ [bar] ++ uuid_str batch_id.

Definition or_value_error {A : Type} (o : option A) : result cursor_err A :=
  match o with Some a => Ok a | None => Err ValueError end.

Section parsing.
Context `{IsoText}.

Definition decode_cursor (cursor : text) : result cursor_err (Z * datetime * Z) :=
  match py_split bar 2 cursor with
  | [p0; p1; p2] =>
      let* priority := parse_int4 p0 in
      let* scheduled_at := or_value_error (fromisoformat p1) in
      let* job_id := or_value_error (uuid_parse p2) in
      Ok (priority, scheduled_at, job_id)
  | _ => Err ValueError
  end.

Definition decode_batch_cursor (cursor : text) : result cursor_err (datetime * Z) :=
  match py_split bar 1 cursor with
  | [p0; p1] =>
      let* created_at := or_value_error (fromisoformat p0) in
      let* batch_id := or_value_error (uuid_parse p1) in
      Ok (created_at, batch_id)
  | _ => Err ValueError
  end.
End parsing.

(** ** Sort columns *)

Record SortColumn := {
  col_name : string;
  col_kind : ColumnKind;
  descending : bool;
  nullable : bool
}.

Definition cast (k : ColumnKind) : text :=
  match k with
  | KInt => txt "::int"
  | KText => []
  | KTs => txt "::timestamptz"
  | KUuid => txt "::uuid"
  end.

Definition format (v : CursorValue) : text :=
  match v with
  | None => []
  | Some (VTs t) => isoformat t
  | Some (VInt z) => py_str_int z
  | Some (VStr s) => s
  | Some (VUuid u) => uuid_str u
  end.

Definition parse `{IsoText} (col : SortColumn) (s : text) : result cursor_err CursorValue :=
  match s with
  | [] => if nullable col then Ok None else Err ValueError
  | _ =>
      match col_kind col with
      | KInt => let* v := parse_int4 s in Ok (Some (VInt v))
      | KTs => let* t := or_value_error (fromisoformat s) in Ok (Some (VTs t))
      | KUuid => let* u := or_value_error (uuid_parse s) in Ok (Some (VUuid u))
      | KText => Ok (Some (VStr s))
      end
  end.

(** Python's [str.__lt__]: lexicographic on code points. *)
Fixpoint text_ltb (a b : text) : bool :=
  match a, b with
  | _, [] => false
  | [], _ :: _ => true
  | x :: a', y :: b' =>
      if Nat.ltb (Ascii.nat_of_ascii x) (Ascii.nat_of_ascii y) then true
      else if ascii_eqb x y then text_ltb a' b' else false
  end.

(** [_lt]: values of different columns are a [TypeError]. *)
Definition cv_lt (x y : cvalue) : result cursor_err bool :=
  match x, y with
  | VTs a, VTs b => Ok (dt_key a <? dt_key b)
  | VUuid a, VUuid b => Ok (a <? b)
  | VInt a, VInt b => Ok (a <? b)
  | VStr a, VStr b => Ok (text_ltb a b)
  | _, _ => Err TypeError
  end.

(** ** The ordering: comparison and cursor text *)

Definition JobOrdering := list SortColumn.

(** The columns of [JobRow] that [_ROW_READERS] reads. *)
Record JobKeys := {
  jk_id : Z;
  jk_priority : Z;
  jk_scheduled_at : datetime;
  jk_created_at : datetime;
  jk_finished_at : option datetime
}.

Definition ROW_READERS (name : string) (r : JobKeys) : result cursor_err CursorValue :=
  if String.eqb name "id" then Ok (Some (VUuid (jk_id r)))
  else if String.eqb name "priority" then Ok (Some (VInt (jk_priority r)))
  else if String.eqb name "scheduled_at" then Ok (Some (VTs (jk_scheduled_at r)))
  else if String.eqb name "created_at" then Ok (Some (VTs (jk_created_at r)))
  else if String.eqb name "finished_at" then Ok (VTs <$> jk_finished_at r)
  else Err KeyError.

Definition values (ord : JobOrdering) (row : JobKeys) : result cursor_err (list CursorValue) :=
  traverse (fun col => ROW_READERS (col_name col) row) ord.

(** [compare]: nullness decided before direction; [zip(strict=True)] raises
    [ValueError] on tuples of different lengths. *)
Fixpoint compare (ord : JobOrdering) (left right : list CursorValue) : result cursor_err Z :=
  match ord, left, right with
  | [], [], [] => Ok 0
  | col :: ord', x :: left', y :: right' =>
      match x, y with
      | None, None => compare ord' left' right'
      | None, Some _ => Ok 1
      | Some _, None => Ok (-1)
      | Some a, Some b =>
          let* ab := cv_lt a b in
          if ab : bool then Ok (if descending col then 1 else -1)
          else let* ba := cv_lt b a in
               if ba : bool then Ok (if descending col then -1 else 1)
               else compare ord' left' right'
      end
  | _, _, _ => Err ValueError
  end.

Definition compare_rows (ord : JobOrdering) (left right : JobKeys) : result cursor_err Z :=
  let* l := values ord left in
  let* r := values ord right in
  compare ord l r.

Definition encode (ord : JobOrdering) (row : JobKeys) : result cursor_err text :=
  let* vs := values ord row in Ok (py_join [bar] (map format vs)).

Definition decode `{IsoText} (ord : JobOrdering) (cursor : text) : result cursor_err (list CursorValue) :=
  let parts := py_split bar (length ord - 1) cursor in
  if Nat.eqb (length parts) (length ord)
  then traverse (fun '(col, part) => parse col part) (combine ord parts)
  else Err ValueError.

(** ** SQL rendering *)

Definition order_by_sql (ord : JobOrdering) (forward : bool) : text :=
  py_join (txt ", ")
    (map (fun col =>
            txt (col_name col) ++
            (if eqb (descending col) forward then txt " DESC" else txt " ASC") ++
            (if nullable col then (if forward then txt " NULLS LAST" else txt " NULLS FIRST")
             else []))
         ord).

(** The predicate, in the shape the source concatenates; a slot is the number of
    the placeholder, [None] the Python value the source would print as [$None]. *)
Inductive sql_pred :=
| PTuple (cols : list SortColumn) (slots : list (option Z)) (lt : bool)
| PIsNull (col : SortColumn)
| PIsNotNull (col : SortColumn)
| PEq (col : SortColumn) (slot : Z)
| PAnd (ps : list sql_pred)
| POr (ps : list sql_pred)
| PParen (p : sql_pred).

Definition tuple_cmp (cols : list SortColumn) (slots : list (option Z)) (lt : bool) : sql_pred :=
  PTuple cols slots lt.

Definition equality_cmp (col : SortColumn) (slot : option Z) : sql_pred :=
  match slot with None => PIsNull col | Some n => PEq col n end.

Definition strict_cmp (col : SortColumn) (value : CursorValue) (slot : option Z)
    (desc forward : bool) : option sql_pred :=
  if nullable col && bool_decide (value = None) then
    (if forward then None else Some (PIsNotNull col))
  else
    let comparison := PTuple [col] [slot] desc in
    if nullable col && forward
    then Some (PParen (POr [PIsNull col; comparison]))
    else Some comparison.

Definition row_wise_sql (ord : JobOrdering) (vals : list CursorValue) (slots : list (option Z))
    (forward null_tail : bool) : sql_pred :=
  match ord, vals with
  | lead :: rest, v0 :: _ =>
      let lt := eqb (descending lead) forward in
      if nullable lead && bool_decide (v0 = None) then
        let inside := PParen (PAnd [PIsNull lead; tuple_cmp rest (tl slots) lt]) in
        if forward then inside else PParen (POr [inside; PIsNotNull lead])
      else
        let whole := tuple_cmp ord slots lt in
        if nullable lead && forward
        then (if null_tail then PParen (POr [PIsNull lead; whole]) else whole)
        else whole
  | _, _ => PTuple [] [] true
  end.

(** The loop of [_lexicographic_sql]; [eqs] accumulates the equalities. *)
Fixpoint lexicographic_terms (ord : JobOrdering) (vals : list CursorValue)
    (slots : list (option Z)) (forward : bool) (eqs : list sql_pred) : list sql_pred :=
  match ord, vals, slots with
  | col :: ord', v :: vals', s :: slots' =>
      let rest := lexicographic_terms ord' vals' slots' forward (eqs ++ [equality_cmp col s]) in
      match strict_cmp col v s (eqb (descending col) forward) forward with
      | Some strict => PParen (PAnd (eqs ++ [strict])) :: rest
      | None => rest
      end
  | _, _, _ => []
  end.

Definition lexicographic_sql (ord : JobOrdering) (vals : list CursorValue)
    (slots : list (option Z)) (forward : bool) : sql_pred :=
  PParen (POr (lexicographic_terms ord vals slots forward [])).

(** The placeholder loop of [sql_after]: NULL binds no parameter. *)
Fixpoint bind_slots (first_param : Z) (vals : list CursorValue) : list (option Z) :=
  match vals with
  | [] => []
  | None :: vals' => None :: bind_slots first_param vals'
  | Some _ :: vals' => Some first_param :: bind_slots (first_param + 1) vals'
  end.

Definition bind_params (vals : list CursorValue) : list cvalue := omap id vals.

(** [len(set(descending)) == 1]. *)
Definition one_direction (ord : JobOrdering) : bool :=
  match ord with
  | [] => false
  | c :: rest => forallb (fun d => eqb (descending d) (descending c)) rest
  end.

Definition sql_after (ord : JobOrdering) (vals : list CursorValue) (first_param : Z)
    (forward null_tail : bool) : sql_pred * list cvalue :=
  let slots := bind_slots first_param vals in
  let params := bind_params vals in
  if one_direction ord && forallb (fun c => negb (nullable c)) (tl ord)
  then (row_wise_sql ord vals slots forward null_tail, params)
  else (lexicographic_sql ord vals slots forward, params).

(** The text of a predicate. *)
Definition render_bind (slot : option Z) (col : SortColumn) : text :=
  "$"%char :: match slot with Some n => py_str_int n | None => txt "None" end ++ cast (col_kind col).

Fixpoint render_pred (p : sql_pred) : text :=
  match p with
  | PTuple cols slots lt =>
      let names := py_join (txt ", ") (map (fun c => txt (col_name c)) cols) in
      let binds := py_join (txt ", ") (zip_with render_bind slots cols) in
      let op := if lt then txt " < " else txt " > " in
      if Nat.eqb (length cols) 1 then names ++ op ++ binds
      else txt "(" ++ names ++ txt ")" ++ op ++ txt "(" ++ binds ++ txt ")"
  | PIsNull col => txt (col_name col) ++ txt " IS NULL"
  | PIsNotNull col => txt (col_name col) ++ txt " IS NOT NULL"
  | PEq col n => txt (col_name col) ++ txt " = " ++ render_bind (Some n) col
  | PAnd ps => py_join (txt " AND ") (map render_pred ps)
  | POr ps => py_join (txt " OR ") (map render_pred ps)
  | PParen p => txt "(" ++ render_pred p ++ txt ")"
  end.

(** ** PostgreSQL meaning of a predicate *)

(** Truth values: [Some (Some b)] is TRUE/FALSE, [Some None] is NULL, [None] an
    error of the statement. *)
Notation tv := (option (option bool)).

Definition and3 (a b : tv) : tv :=
  match a, b with
  | Some (Some false), Some _ | Some _, Some (Some false) => Some (Some false)
  | Some (Some true), Some y => Some y
  | Some None, Some _ => Some None
  | _, _ => None
  end.

Definition or3 (a b : tv) : tv :=
  match a, b with
  | Some (Some true), Some _ | Some _, Some (Some true) => Some (Some true)
  | Some (Some false), Some y => Some y
  | Some None, Some _ => Some None
  | _, _ => None
  end.

Section sql_meaning.
(** Text comparison follows the column's collation, which the source does not fix. *)
Variable collate : text -> text -> comparison.
(** The row's column values and the statement's bound parameters. *)
Variable env : string -> CursorValue.
Variable bind : Z -> option cvalue.

Definition pg_compare (x y : cvalue) : option comparison :=
  match x, y with
  | VInt a, VInt b => Some (a ?= b)
  | VUuid a, VUuid b => Some (a ?= b)
  | VTs a, VTs b => Some (dt_key a ?= dt_key b)
  | VStr a, VStr b => Some (collate a b)
  | _, _ => None
  end.

(** [Some (Some c)]: the first unequal pair compares as [c], all equal is [Eq];
    [Some None]: a NULL was met first. *)
Fixpoint pg_row_compare (xs : list CursorValue) (ys : list cvalue) : option (option comparison) :=
  match xs, ys with
  | [], [] => Some (Some Eq)
  | None :: xs', _ :: ys' => if Nat.eqb (length xs') (length ys') then Some None else None
  | Some x :: xs', y :: ys' =>
      match pg_compare x y with
      | Some Eq => pg_row_compare xs' ys'
      | Some c => if Nat.eqb (length xs') (length ys') then Some (Some c) else None
      | None => None
      end
  | _, _ => None
  end.

Definition resolve (slot : option Z) : option cvalue :=
  match slot with Some n => bind n | None => None end.

Fixpoint eval_pred (p : sql_pred) : tv :=
  match p with
  | PTuple [] _ _ => None  (* "() < ()" is a syntax error *)
  | PTuple cols slots lt =>
      match mapM resolve slots with
      | Some ys =>
          match pg_row_compare (map (fun c => env (col_name c)) cols) ys with
          | Some (Some c) =>
              Some (Some (match c, lt with Lt, true => true | Gt, false => true | _, _ => false end))
          | Some None => Some None
          | None => None
          end
      | None => None
      end
  | PIsNull col => Some (Some (bool_decide (env (col_name col) = None)))
  | PIsNotNull col => Some (Some (negb (bool_decide (env (col_name col) = None))))
  | PEq col n =>
      match bind n with
      | Some y =>
          match env (col_name col) with
          | Some x => match pg_compare x y with
                      | Some c => Some (Some (match c with Eq => true | _ => false end))
                      | None => None
                      end
          | None => Some None
          end
      | None => None
      end
  | PAnd ps => fold_right (fun q acc => and3 (eval_pred q) acc) (Some (Some true)) ps
  | POr ps => fold_right (fun q acc => or3 (eval_pred q) acc) (Some (Some false)) ps
  | PParen q => eval_pred q
  end.

(** A WHERE clause keeps a row when the predicate is TRUE. *)
Definition holds (p : sql_pred) : Prop := eval_pred p = Some (Some true).
Definition no_error (p : sql_pred) : Prop := is_Some (eval_pred p).
End sql_meaning.

(** ** The shipped orderings *)

Definition ID_ASC : SortColumn := Build_SortColumn "id" KUuid false false.
Definition ID_DESC : SortColumn := Build_SortColumn "id" KUuid true false.

Inductive JobSortField := SCHEDULED_AT_ASC | CREATED_AT_DESC | FINISHED_AT_DESC.

Definition ORDERINGS (f : JobSortField) : JobOrdering :=
  match f with
  | SCHEDULED_AT_ASC =>
      [Build_SortColumn "priority" KInt true false;
       Build_SortColumn "scheduled_at" KTs false false; ID_ASC]
  | CREATED_AT_DESC => [Build_SortColumn "created_at" KTs true false; ID_DESC]
  | FINISHED_AT_DESC => [Build_SortColumn "finished_at" KTs true true; ID_DESC]
  end.

Definition ordering_for (order_by : option JobSortField) : JobOrdering :=
  ORDERINGS (default SCHEDULED_AT_ASC order_by).

Definition encode_job_cursor (row : JobKeys) (order_by : option JobSortField) : result cursor_err text :=
  encode (ordering_for order_by) row.

Definition decode_job_cursor `{IsoText} (cursor : text) (order_by : option JobSortField)
  : result cursor_err (list CursorValue) :=
  decode (ordering_for order_by) cursor.

Example sql_after_default_text :
  render_pred (sql_after (ORDERINGS SCHEDULED_AT_ASC)
     [Some (VInt 5); Some (VTs (mkdt 2026 1 2 3 4 5 6)); Some (VUuid 7)] 3 true true).1
  = txt "((priority < $3::int) OR (priority = $3::int AND scheduled_at > $4::timestamptz) OR (priority = $3::int AND scheduled_at = $4::timestamptz AND id > $5::uuid))".
Proof. vm_compute. reflexivity. Qed.

Example sql_after_finished_text :
  render_pred (sql_after (ORDERINGS FINISHED_AT_DESC)
     [Some (VTs (mkdt 2026 1 2 3 4 5 6)); Some (VUuid 7)] 1 true true).1
  = txt "(finished_at IS NULL OR (finished_at, id) < ($1::timestamptz, $2::uuid))".
Proof. vm_compute. reflexivity. Qed.

Example order_by_reverse_text :
  order_by_sql (ORDERINGS FINISHED_AT_DESC) false = txt "finished_at ASC NULLS FIRST, id ASC".
Proof. vm_compute. reflexivity. Qed.

(** ** Typed keys *)

(** A value of a column's kind.  [texts] says whether text columns take part: their SQL order
    is the collation's, which need not be Python's. *)
Definition value_of_kind (texts : Prop) (k : ColumnKind) (v : cvalue) : Prop :=
  match k, v with
  | KInt, VInt _ | KTs, VTs _ | KUuid, VUuid _ => True
  | KText, VStr _ => texts
  | _, _ => False
  end.

Definition typed (texts : Prop) (col : SortColumn) (v : CursorValue) : Prop :=
  match v with
  | None => nullable col = true
  | Some a => value_of_kind texts (col_kind col) a
  end.

(** The order of code points, and the values of one kind in their order. *)
Fixpoint text_cmp (a b : text) : comparison :=
  match a, b with
  | [], [] => Eq
  | [], _ :: _ => Lt
  | _ :: _, [] => Gt
  | x :: a', y :: b' =>
      match Nat.compare (Ascii.nat_of_ascii x) (Ascii.nat_of_ascii y) with Eq => text_cmp a' b' | c => c end
  end.

Definition vcmp (a b : cvalue) : comparison :=
  match a, b with
  | VInt x, VInt y => x ?= y
  | VUuid x, VUuid y => x ?= y
  | VTs x, VTs y => dt_key x ?= dt_key y
  | VStr x, VStr y => text_cmp x y
  | _, _ => Eq
  end.

Lemma ascii_cmp_eq x y : Nat.compare (Ascii.nat_of_ascii x) (Ascii.nat_of_ascii y) = Eq -> x = y.
Proof.
  intros E%Nat.compare_eq_iff. rewrite <- (Ascii.ascii_nat_embedding x), <- (Ascii.ascii_nat_embedding y). by rewrite E.
Qed.

Lemma text_ltb_cmp a b : text_ltb a b = match text_cmp a b with Lt => true | _ => false end.
Proof.
  revert b. induction a as [|x a IH]; intros [|y b]; try done. cbn [text_ltb text_cmp].
  destruct (Nat.compare_spec (Ascii.nat_of_ascii x) (Ascii.nat_of_ascii y)) as [E|E|E].
  - rewrite (proj2 (Nat.ltb_ge _ _)) by lia. assert (x = y) as ->.
    { apply ascii_cmp_eq. by apply Nat.compare_eq_iff. }
    destruct (ascii_eqb_spec y y); [apply IH|done].
  - by rewrite (proj2 (Nat.ltb_lt _ _)) by lia.
  - rewrite (proj2 (Nat.ltb_ge _ _)) by lia. destruct (ascii_eqb_spec x y); [subst; lia|done].
Qed.

Lemma text_cmp_eq a b : text_cmp a b = Eq -> a = b.
Proof.
  revert b. induction a as [|x a IH]; intros [|y b]; try done. cbn [text_cmp].
  destruct (Nat.compare _ _) eqn:E; try done. apply ascii_cmp_eq in E as ->. intros Hab. by rewrite (IH b).
Qed.

Lemma text_cmp_refl a : text_cmp a a = Eq.
Proof. induction a as [|x a IH]; [done|]. cbn. by rewrite Nat.compare_refl. Qed.

Lemma text_cmp_antisym a b : text_cmp b a = CompOpp (text_cmp a b).
Proof.
  revert b. induction a as [|x a IH]; intros [|y b]; try done. cbn [text_cmp].
  rewrite (Nat.compare_antisym (Ascii.nat_of_ascii x)). destruct (Nat.compare (Ascii.nat_of_ascii x) _); [apply IH|done..].
Qed.

Lemma text_cmp_trans a b c : text_cmp a b = Lt -> text_cmp b c = Lt -> text_cmp a c = Lt.
Proof.
  revert b c. induction a as [|x a IH]; intros [|y b] [|z c]; try done. cbn [text_cmp].
  destruct (Nat.compare_spec (Ascii.nat_of_ascii x) (Ascii.nat_of_ascii y)) as [E1|E1|E1];
    destruct (Nat.compare_spec (Ascii.nat_of_ascii y) (Ascii.nat_of_ascii z)) as [E2|E2|E2];
    destruct (Nat.compare_spec (Ascii.nat_of_ascii x) (Ascii.nat_of_ascii z)) as [E3|E3|E3]; try done; try lia. apply IH.
Qed.

Lemma vcmp_antisym a b : vcmp b a = CompOpp (vcmp a b).
Proof. destruct a, b; try done; simpl; first [apply Z.compare_antisym|apply text_cmp_antisym]. Qed.

Lemma vcmp_lt_trans texts k a b c :
  value_of_kind texts k a -> value_of_kind texts k b -> value_of_kind texts k c ->
  vcmp a b = Lt -> vcmp b c = Lt -> vcmp a c = Lt.
Proof.
  destruct k, a, b, c; try done; simpl; intros _ _ _; rewrite ?Z.compare_lt_iff; try lia. apply text_cmp_trans.
Qed.

Lemma vcmp_eq_l texts k a b c :
  value_of_kind texts k a -> value_of_kind texts k b -> value_of_kind texts k c -> vcmp a b = Eq -> vcmp a c = vcmp b c.
Proof.
  destruct k, a, b, c; try done; simpl; intros _ _ _ E; (apply Z.compare_eq_iff in E || apply text_cmp_eq in E); by rewrite E.
Qed.

(** A direction: the result [compare] returns for a key comparison. *)
Definition dir (desc : bool) (c : comparison) : Z :=
  match c with
  | Eq => 0
  | Lt => if desc then 1 else -1
  | Gt => if desc then -1 else 1
  end.

Lemma pg_compare_typed texts collate k a b :
  (texts -> forall x y, collate x y = text_cmp x y) ->
  value_of_kind texts k a -> value_of_kind texts k b -> pg_compare collate a b = Some (vcmp a b).
Proof. intros Hc. destruct k, a, b; try done. simpl. intros Ht _. by rewrite Hc. Qed.

Lemma cv_lt_typed texts k a b :
  value_of_kind texts k a -> value_of_kind texts k b -> cv_lt a b = Ok (match vcmp a b with Lt => true | _ => false end).
Proof. destruct k, a, b; try done. intros _ _. simpl. by rewrite text_ltb_cmp. Qed.

Section compared.
Context {texts : Prop}.

Lemma compare_some col ord l r a b :
  value_of_kind texts (col_kind col) a -> value_of_kind texts (col_kind col) b ->
  compare (col :: ord) (Some a :: l) (Some b :: r) =
  match vcmp a b with
  | Eq => compare ord l r
  | c => Ok (dir (descending col) c)
  end.
Proof.
  intros Ha Hb. cbn [compare].
  rewrite !(cv_lt_typed texts (col_kind col)) by done. cbn [rbind].
  rewrite (vcmp_antisym a b). by destruct (vcmp a b).
Qed.

(** On typed keys the comparison never raises. *)
Lemma compare_total ord l r :
  Forall2 (typed texts) ord l -> Forall2 (typed texts) ord r ->
  exists z, compare ord l r = Ok z /\ (z = 0 \/ z = 1 \/ z = -1).
Proof.
  intros Hl; revert r. induction Hl as [|col x ord l Hx Hl IH]; intros r Hr;
    inversion Hr as [|? y ? r' Hy Hr']; subst; [by exists 0; auto|].
  destruct x as [a|], y as [b|].
  - rewrite compare_some by done.
    destruct (vcmp a b); [by apply IH|..]; simpl; destruct (descending col); eauto.
  - exists (-1); auto.
  - exists 1; auto.
  - by apply IH.
Qed.

(** *** The comparison is an order *)

Lemma compare_antisym ord l r z :
  Forall2 (typed texts) ord l -> Forall2 (typed texts) ord r ->
  compare ord l r = Ok z -> compare ord r l = Ok (- z).
Proof.
  intros Hl; revert r z. induction Hl as [|col x ord l Hx Hl IH]; intros r z Hr;
    inversion Hr as [|? y ? r' Hy Hr']; subst; [by intros [= <-]|].
  destruct x as [a|], y as [b|]; [|by intros [= <-]..|by apply IH].
  rewrite !compare_some by done. rewrite (vcmp_antisym a b).
  destruct (vcmp a b); simpl; [by apply IH|..];
    destruct (descending col); by intros [= <-].
Qed.

Lemma compare_trans ord l m r :
  Forall2 (typed texts) ord l -> Forall2 (typed texts) ord m -> Forall2 (typed texts) ord r ->
  compare ord l m = Ok (-1) -> compare ord m r = Ok (-1) -> compare ord l r = Ok (-1).
Proof.
  intros Hl; revert m r. induction Hl as [|col x ord l Hx Hl IH]; intros m r Hm Hr;
    inversion Hm as [|? y ? m' Hy Hm']; subst; inversion Hr as [|? w ? r' Hw Hr']; subst; [done|].
  destruct x as [a|], y as [b|], w as [c|]; try done; try by apply IH.
  rewrite !compare_some by done. destruct (vcmp a b) eqn:Eab.
  - rewrite (vcmp_eq_l texts (col_kind col) a b c) by done. destruct (vcmp b c); [by apply IH|done..].
  - destruct (vcmp b c) eqn:Ebc.
    + rewrite (vcmp_antisym c a), (vcmp_eq_l texts (col_kind col) c b a), <- (vcmp_antisym b a), Eab
        by (try done; by rewrite (vcmp_antisym b c), Ebc). done.
    + by rewrite (vcmp_lt_trans texts (col_kind col) a b c).
    + simpl. by destruct (descending col).
  - destruct (vcmp b c) eqn:Ebc.
    + rewrite (vcmp_antisym c a), (vcmp_eq_l texts (col_kind col) c b a), <- (vcmp_antisym b a), Eab
        by (try done; by rewrite (vcmp_antisym b c), Ebc). done.
    + simpl. by destruct (descending col).
    + rewrite (vcmp_antisym c a), (vcmp_lt_trans texts (col_kind col) c b a); try done.
      * by rewrite (vcmp_antisym b c), Ebc.
      * by rewrite (vcmp_antisym a b), Eab.
Qed.

(** Keys that compare equal have equal values, when timestamps are valid. *)
Definition value_valid (v : CursorValue) : Prop :=
  match v with Some (VTs t) => dt_valid t = true | _ => True end.

Lemma vcmp_inj k a b :
  value_of_kind texts k a -> value_of_kind texts k b -> value_valid (Some a) -> value_valid (Some b) ->
  vcmp a b = Eq -> a = b.
Proof.
  destruct k, a, b; simpl; try done; intros ? ? ? ? E; f_equal;
    first [by apply text_cmp_eq|apply Z.compare_eq_iff in E; by auto using dt_key_inj].
Qed.

Lemma compare_zero_eq ord l r :
  Forall2 (typed texts) ord l -> Forall2 (typed texts) ord r ->
  Forall value_valid l -> Forall value_valid r ->
  compare ord l r = Ok 0 -> l = r.
Proof.
  intros Hl; revert r. induction Hl as [|col x ord l Hx Hl IH]; intros r Hr Vl Vr;
    inversion Hr as [|? y ? r' Hy Hr']; subst; [done|].
  inversion_clear Vl; inversion_clear Vr.
  destruct x as [a|], y as [b|]; [|done..|by intros; f_equal; auto].
  rewrite compare_some by done.
  destruct (vcmp a b) eqn:E; simpl; try (by destruct (descending col)).
  intros. f_equal; [f_equal; by eapply vcmp_inj|]. by apply IH.
Qed.
End compared.

(** ** The SQL predicate selects exactly the rows past the cursor *)

Section sql_correct.
Variable collate : text -> text -> comparison.
Variable env : string -> CursorValue.
Variable bind : Z -> option cvalue.
Variable texts : Prop.
Hypothesis collated : texts -> forall x y, collate x y = text_cmp x y.

Local Notation holds := (holds collate env bind).
Local Notation no_error := (no_error collate env bind).
Local Notation eval := (eval_pred collate env bind).
Local Notation typed := (typed texts).
Local Notation row := (map (fun c => env (col_name c))).

(** A slot carries the cursor value it was made for. *)
Definition slot_ok (v : CursorValue) (s : option Z) : Prop :=
  match v, s with
  | None, None => True
  | Some a, Some n => bind n = Some a
  | _, _ => False
  end.

Lemma holds_and ps :
  Forall no_error ps -> (holds (PAnd ps) <-> Forall holds ps) /\ no_error (PAnd ps).
Proof.
  unfold holds, no_error. induction 1 as [|p ps [v Hv] Hps [IH [w Hw]]]; simpl.
  - split; [|by eexists]. split; auto.
  - rewrite Forall_cons, <- IH. simpl in Hw. rewrite Hv, Hw.
    destruct v as [[]|], w as [[]|]; simpl; split; try (by eexists); naive_solver.
Qed.

Lemma holds_or ps :
  Forall no_error ps -> (holds (POr ps) <-> Exists holds ps) /\ no_error (POr ps).
Proof.
  unfold holds, no_error. induction 1 as [|p ps [v Hv] Hps [IH [w Hw]]]; simpl.
  - split; [|by eexists]. rewrite Exists_nil. naive_solver.
  - rewrite Exists_cons, <- IH. simpl in Hw. rewrite Hv, Hw.
    destruct v as [[]|], w as [[]|]; simpl; split; try (by eexists); naive_solver.
Qed.

Lemma resolve_slots vs slots :
  Forall2 slot_ok vs slots -> Forall is_Some vs ->
  exists ys, mapM (resolve bind) slots = Some ys /\ vs = Some <$> ys.
Proof.
  induction 1 as [|v s vs slots Hv Hvs IH]; intros Hs; [by exists []|].
  apply Forall_cons in Hs as [[a Ha] Hs']. subst v. destruct (IH Hs') as (ys & Hys & ->).
  destruct s as [n|]; unfold slot_ok in Hv; [|done].
  exists (a :: ys). split; [|done]. simpl. rewrite Hv. simpl. by rewrite Hys.
Qed.

(** The row-wise comparison computes the lexicographic comparison of keys that
    all run in one direction. *)
Lemma pg_row_compare_typed D cols xs ys :
  Forall (fun c => descending c = D) cols ->
  Forall2 typed cols (Some <$> xs) -> Forall2 typed cols (Some <$> ys) ->
  exists c, pg_row_compare collate (Some <$> xs) ys = Some (Some c) /\
            compare cols (Some <$> xs) (Some <$> ys) = Ok (dir D c).
Proof.
  revert xs ys. induction cols as [|col cols IH]; intros xs ys HD Hx Hy.
  - destruct xs, ys; inversion Hx; inversion Hy. by exists Eq.
  - destruct xs as [|x xs]; [inversion Hx|]. destruct ys as [|y ys]; [inversion Hy|].
    apply Forall_cons in HD as [<- HD].
    rewrite fmap_cons in Hx, Hy.
    apply Forall2_cons in Hx as [Hx Hxs]. apply Forall2_cons in Hy as [Hy Hys].
    rewrite !fmap_cons, compare_some by done. cbn [pg_row_compare].
    rewrite (pg_compare_typed texts collate (col_kind col)) by done.
    apply Forall2_length in Hxs as Lx. apply Forall2_length in Hys as Ly.
    rewrite length_fmap in Lx, Ly.
    replace (Nat.eqb (length (Some <$> xs)) (length ys)) with true
      by (symmetry; apply Nat.eqb_eq; rewrite length_fmap; lia).
    destruct (vcmp x y); [by apply IH|by eexists..].
Qed.

(** What [compare] must return for a row past the cursor. *)
Definition past (forward : bool) : Z := if forward then 1 else -1.

Lemma dir_past D forward c :
  dir D c = past forward <->
  match c, eqb D forward with Lt, true => true | Gt, false => true | _, _ => false end = true.
Proof. by destruct D, forward, c. Qed.

Lemma tuple_holds D cols xs vs slots forward :
  cols <> [] ->
  Forall (fun c => descending c = D) cols ->
  row cols = Some <$> xs -> Forall is_Some vs ->
  Forall2 typed cols (Some <$> xs) -> Forall2 typed cols vs -> Forall2 slot_ok vs slots ->
  (holds (tuple_cmp cols slots (eqb D forward)) <->
   compare cols (row cols) vs = Ok (past forward)) /\
  no_error (tuple_cmp cols slots (eqb D forward)).
Proof.
  intros Hne HD Hrow Hsome Hx Hv Hslots.
  destruct (resolve_slots vs slots Hslots Hsome) as (ys & Hys & ->).
  destruct (pg_row_compare_typed D cols xs ys HD Hx Hv) as (c & Hc & Hcmp).
  unfold holds, no_error, tuple_cmp. destruct cols as [|c0 cols]; [done|].
  cbn [eval_pred]. rewrite Hys, Hrow, Hc, Hcmp.
  split; [|by eexists].
  transitivity (dir D c = past forward); [rewrite dir_past|].
  - split; [by intros [=]|by intros ->].
  - split; [by intros ->|by intros [=]].
Qed.

(** *** One column *)

Lemma equality_holds col x v s :
  env (col_name col) = x -> typed col x -> typed col v -> slot_ok v s ->
  no_error (equality_cmp col s) /\
  (holds (equality_cmp col s) <->
   match x, v with
   | None, None => True
   | Some a, Some b => vcmp a b = Eq
   | _, _ => False
   end).
Proof.
  intros Hx Tx Tv Hs. unfold no_error, holds, equality_cmp.
  destruct v as [b|], s as [n|]; simpl in Hs; try done; simpl; rewrite ?Hs, Hx.
  - destruct x as [a|].
    + rewrite (pg_compare_typed texts collate (col_kind col)) by done.
      split; [by eexists|]. destruct (vcmp a b); naive_solver.
    + split; [by eexists|]. naive_solver.
  - split; [by eexists|]. destruct x; naive_solver.
Qed.

(** Rows strictly past the cursor on this column alone. *)
Definition col_past (col : SortColumn) (forward : bool) (x v : CursorValue) : Prop :=
  match x, v with
  | None, None => False
  | None, Some _ => forward = true
  | Some _, None => forward = false
  | Some a, Some b => dir (descending col) (vcmp a b) = past forward
  end.

Lemma single_holds col x b n forward :
  env (col_name col) = x -> typed col x -> typed col (Some b) -> bind n = Some b ->
  no_error (PTuple [col] [Some n] (eqb (descending col) forward)) /\
  (holds (PTuple [col] [Some n] (eqb (descending col) forward)) <->
   match x with Some _ => col_past col forward x (Some b) | None => False end).
Proof.
  intros Hx Tx Tb Hn. unfold no_error, holds. cbn [eval_pred map].
  replace (mapM (resolve bind) [Some n]) with (Some [b]) by (simpl; by rewrite Hn).
  rewrite Hx. destruct x as [a|]; [|simpl; split; [by eexists|done]].
  assert (pg_row_compare collate [Some a] [b] = Some (Some (vcmp a b))) as ->.
  { simpl. rewrite (pg_compare_typed texts collate (col_kind col)) by done. by destruct (vcmp _ _). }
  split; [by eexists|]. unfold col_past. rewrite dir_past.
  split; [by intros [=]|by intros ->].
Qed.

Lemma strict_holds col x v s forward :
  env (col_name col) = x -> typed col x -> typed col v -> slot_ok v s ->
  match strict_cmp col v s (eqb (descending col) forward) forward with
  | Some p => no_error p /\ (holds p <-> col_past col forward x v)
  | None => ~ col_past col forward x v
  end.
Proof.
  intros Hx Tx Tv Hs. unfold strict_cmp.
  destruct v as [b|]; simpl.
  - rewrite andb_false_r.
    destruct s as [n|]; simpl in Hs; [|done].
    destruct (single_holds col x b n forward Hx Tx Tv Hs) as [He Hh].
    destruct (nullable col && forward) eqn:E.
    + apply andb_true_iff in E as [_ ->].
      set (ps := [PIsNull col; PTuple [col] [Some n] (eqb (descending col) true)]).
      assert (Hps : Forall no_error ps) by (repeat constructor; [by eexists|done]).
      destruct (holds_or ps Hps) as [Ho Hno]. split; [done|].
      change (holds (POr ps) <-> col_past col true x (Some b)).
      rewrite Ho. unfold ps. rewrite Exists_cons, Exists_cons, Exists_nil, Hh.
      unfold holds at 1. simpl. rewrite Hx.
      destruct x; simpl; naive_solver.
    + split; [done|]. rewrite Hh. destruct x; [reflexivity|].
      cbn in Tx. rewrite Tx in E. simpl in E. subst forward. split; done.
  - simpl in Tv. rewrite Tv. simpl.
    destruct forward; simpl; [unfold col_past; destruct x; naive_solver|].
    split; [by eexists|]. unfold holds. simpl. rewrite Hx.
    destruct x; simpl; naive_solver.
Qed.

(** *** Both renderings *)

Lemma compare_cons_past col ord x v xs vs forward :
  typed col x -> typed col v ->
  compare (col :: ord) (x :: xs) (v :: vs) = Ok (past forward) <->
  col_past col forward x v \/
  (match x, v with
   | None, None => True
   | Some a, Some b => vcmp a b = Eq
   | _, _ => False
   end /\ compare ord xs vs = Ok (past forward)).
Proof.
  intros Tx Tv. destruct x as [a|], v as [b|]; [|by destruct forward; naive_solver..].
  rewrite compare_some by done. unfold col_past.
  destruct (vcmp a b) eqn:E; simpl; destruct (descending col), forward; simpl; intuition congruence.
Qed.

Lemma lexicographic_holds ord vs slots forward eqs :
  Forall2 typed ord (row ord) -> Forall2 typed ord vs -> Forall2 slot_ok vs slots ->
  Forall no_error eqs ->
  Forall no_error (lexicographic_terms ord vs slots forward eqs) /\
  (Exists holds (lexicographic_terms ord vs slots forward eqs) <->
   Forall holds eqs /\ compare ord (row ord) vs = Ok (past forward)).
Proof.
  revert vs slots eqs. induction ord as [|col ord IH]; intros vs slots eqs Hx Hv Hs He.
  { inversion Hv; subst. simpl. split; [done|]. rewrite Exists_nil.
    split; [done|]. intros [_ Hp]. by destruct forward. }
  destruct vs as [|v vs]; [inversion Hv|]. destruct slots as [|s slots]; [inversion Hs|].
  apply Forall2_cons in Hx as [Tx Hx], Hv as [Tv Hv], Hs as [Sv Hs].
  pose proof (equality_holds col _ v s eq_refl Tx Tv Sv) as [Eo Eh].
  pose proof (strict_holds col _ v s forward eq_refl Tx Tv Sv) as Hst.
  assert (He' : Forall no_error (eqs ++ [equality_cmp col s])) by (apply Forall_app; auto).
  destruct (IH vs slots _ Hx Hv Hs He') as [IHn IHh].
  cbn [map lexicographic_terms]. rewrite compare_cons_past by done.
  destruct (strict_cmp col v s (eqb (descending col) forward) forward) as [p|].
  - destruct Hst as [Po Ph].
    assert (Hp : Forall no_error (eqs ++ [p])) by (apply Forall_app; auto).
    destruct (holds_and _ Hp) as [Ah Ao].
    split; [by constructor|].
    rewrite Exists_cons, IHh, Forall_app, Forall_singleton, Eh.
    change (holds (PParen ?q)) with (holds q). rewrite Ah, Forall_app, Forall_singleton, Ph. tauto.
  - split; [done|]. rewrite IHh, Forall_app, Forall_singleton, Eh. tauto.
Qed.

Lemma row_some cols :
  Forall (fun c => nullable c = false) cols -> Forall2 typed cols (row cols) ->
  exists xs, row cols = Some <$> xs.
Proof.
  intros Hn. induction Hn as [|c cols Hc Hn IH]; intros HT; [by exists []|].
  cbn [map] in *. apply Forall2_cons in HT as [Tc HT].
  destruct (IH HT) as [xs ->]. cbn in Tc.
  destruct (env (col_name c)) as [a|]; [|congruence]. by exists (a :: xs).
Qed.

Lemma typed_some cols vs :
  Forall (fun c => nullable c = false) cols -> Forall2 typed cols vs -> Forall is_Some vs.
Proof.
  intros Hn HT. induction HT as [|c v cols vs Tc HT IH]; [constructor|].
  apply Forall_cons in Hn as [Hc Hn]. constructor; [|auto].
  destruct v; [by eexists|]. simpl in Tc. congruence.
Qed.

(** *** The row-wise form *)

(** A disjunction or conjunction of a NULL test on [col] and an error-free
    predicate. *)
Lemma null_or_holds col p :
  no_error p ->
  no_error (POr [PIsNull col; p]) /\
  (holds (POr [PIsNull col; p]) <-> env (col_name col) = None \/ holds p).
Proof.
  intros Hp.
  assert (Hps : Forall no_error [PIsNull col; p]) by (repeat constructor; [by eexists|done]).
  destruct (holds_or _ Hps) as [-> ?]. split; [done|].
  rewrite !Exists_cons, Exists_nil. unfold holds at 1. simpl.
  destruct (env (col_name col)); simpl; naive_solver.
Qed.

Lemma null_and_holds col p :
  no_error p ->
  no_error (PAnd [PIsNull col; p]) /\
  (holds (PAnd [PIsNull col; p]) <-> env (col_name col) = None /\ holds p).
Proof.
  intros Hp.
  assert (Hps : Forall no_error [PIsNull col; p]) by (repeat constructor; [by eexists|done]).
  destruct (holds_and _ Hps) as [-> ?]. split; [done|].
  rewrite !Forall_cons, Forall_nil. unfold holds at 1. simpl.
  destruct (env (col_name col)); simpl; naive_solver.
Qed.

Section row_wise.
Variables (lead : SortColumn) (rest : list SortColumn).
Hypothesis same_dir : Forall (fun c => descending c = descending lead) rest.
Hypothesis rest_not_null : Forall (fun c => nullable c = false) rest.
Hypothesis row_typed : Forall2 typed (lead :: rest) (row (lead :: rest)).

(** The whole tuple comparison: NULL when the row's lead is NULL. *)
Lemma whole_holds b vs slots forward :
  Forall2 typed (lead :: rest) (Some b :: vs) -> Forall2 slot_ok (Some b :: vs) slots ->
  let whole := tuple_cmp (lead :: rest) slots (eqb (descending lead) forward) in
  no_error whole /\
  (holds whole <-> env (col_name lead) <> None /\
     compare (lead :: rest) (row (lead :: rest)) (Some b :: vs) = Ok (past forward)).
Proof.
  intros Hv Hs whole. cbn [map] in *.
  apply Forall2_cons in row_typed as [X0 Hx]. apply Forall2_cons in Hv as Hv2.
  destruct Hv2 as [T0 Hv'].
  destruct (row_some rest rest_not_null Hx) as [xs Hxs].
  assert (Hvs : Forall is_Some (Some b :: vs))
    by (constructor; [by eexists|by apply (typed_some rest)]).
  destruct (env (col_name lead)) as [a|] eqn:Ea.
  - assert (Hr : row (lead :: rest) = Some <$> (a :: xs)) by (cbn [map]; by rewrite Ea, Hxs).
    destruct (tuple_holds (descending lead) (lead :: rest) (a :: xs) (Some b :: vs) slots forward)
      as [Hh Hn]; auto.
    { rewrite fmap_cons, <- Hxs. by constructor. }
    split; [done|]. unfold whole. rewrite Hh. cbn [map]. rewrite Ea. naive_solver.
  - destruct (resolve_slots (Some b :: vs) slots Hs Hvs) as (ys & Hys & Heq).
    assert (He : eval whole = Some None).
    { unfold whole, tuple_cmp. cbn [eval_pred]. rewrite Hys. cbn [map]. rewrite Ea.
      destruct ys as [|y ys]; [done|]. cbn [pg_row_compare].
      apply (f_equal length) in Heq. rewrite length_fmap in Heq. simpl in Heq.
      apply Forall2_length in Hv'. rewrite length_map.
      replace (length rest) with (length ys) by lia. by rewrite Nat.eqb_refl. }
    unfold holds, no_error. rewrite He. split; [by eexists|]. naive_solver.
Qed.

(** The seam at a value: forward, the NULL range follows every value. *)
Lemma row_wise_value_seam b vs slots forward null_tail :
  Forall2 typed (lead :: rest) (Some b :: vs) -> Forall2 slot_ok (Some b :: vs) slots ->
  let p := row_wise_sql (lead :: rest) (Some b :: vs) slots forward null_tail in
  no_error p /\
  (holds p <-> compare (lead :: rest) (row (lead :: rest)) (Some b :: vs) = Ok (past forward) /\
     (null_tail = false -> forward = true -> env (col_name lead) <> None)).
Proof.
  intros Hv Hs p. unfold p. cbn [row_wise_sql]. simpl bool_decide. rewrite andb_false_r.
  destruct (whole_holds b vs slots forward Hv Hs) as [Hwn Hw].
  set (whole := tuple_cmp _ _ _) in *.
  assert (Hnull : env (col_name lead) = None -> nullable lead = true /\
     (compare (lead :: rest) (row (lead :: rest)) (Some b :: vs) = Ok (past forward) <-> forward = true)).
  { intros Ea. cbn [map] in *. apply Forall2_cons in row_typed as [X0 _]. rewrite Ea in *.
    split; [done|]. simpl. destruct forward; naive_solver. }
  destruct (nullable lead && forward) eqn:En; [destruct null_tail|].
  - destruct (null_or_holds lead whole Hwn) as [Hon Ho].
    split; [done|]. change (holds (PParen ?q)) with (holds q). rewrite Ho, Hw.
    apply andb_true_iff in En as [_ ->].
    destruct (env (col_name lead)); naive_solver.
  - split; [done|]. rewrite Hw. apply andb_true_iff in En as [_ ->]. naive_solver.
  - split; [done|]. rewrite Hw.
    destruct (env (col_name lead)); [naive_solver|]. destruct (Hnull eq_refl) as [Hl Hf].
    rewrite Hl in En. simpl in En. subst forward. naive_solver.
Qed.

(** The seam inside the NULL range. *)
Lemma row_wise_null_seam vs slots forward null_tail :
  rest <> [] ->
  Forall2 typed (lead :: rest) (None :: vs) -> Forall2 slot_ok (None :: vs) slots ->
  let p := row_wise_sql (lead :: rest) (None :: vs) slots forward null_tail in
  no_error p /\
  (holds p <-> compare (lead :: rest) (row (lead :: rest)) (None :: vs) = Ok (past forward)).
Proof.
  intros Hne Hv Hs p. unfold p. cbn [row_wise_sql]. simpl bool_decide. cbn [map] in *.
  apply Forall2_cons in Hv as [T0 Hv]. cbn in T0. rewrite T0. cbn [andb].
  apply Forall2_cons in row_typed as [X0 Hx].
  destruct slots as [|s0 slots]; [inversion Hs|]. apply Forall2_cons in Hs as [_ Hs].
  destruct (row_some rest rest_not_null Hx) as [xs Hxs].
  destruct (tuple_holds (descending lead) rest xs vs slots forward) as [Ht Htn]; auto.
  { by apply (typed_some rest). }
  { by rewrite <- Hxs. }
  simpl tl. set (tail := tuple_cmp _ _ _) in *.
  destruct (null_and_holds lead tail Htn) as [Hin Hi].
  assert (Hcmp : compare (lead :: rest) (env (col_name lead) :: row rest) (None :: vs)
                 = Ok (past forward) <->
     (env (col_name lead) = None /\ holds tail) \/ (forward = false /\ env (col_name lead) <> None)).
  { rewrite Ht. simpl. destruct (env (col_name lead)), forward; naive_solver. }
  rewrite Hcmp. destruct forward.
  - split; [done|]. change (holds (PParen ?q)) with (holds q). rewrite Hi. naive_solver.
  - assert (Hqs : Forall no_error [PParen (PAnd [PIsNull lead; tail]); PIsNotNull lead])
      by (repeat constructor; [done|by eexists]).
    destruct (holds_or _ Hqs) as [Ho Hon]. split; [done|].
    change (holds (PParen (POr ?q))) with (holds (POr q)). rewrite Ho, !Exists_cons, Exists_nil.
    change (holds (PParen ?q)) with (holds q). rewrite Hi.
    unfold holds at 2. simpl. destruct (env (col_name lead)); simpl; naive_solver.
Qed.
End row_wise.
End sql_correct.

(** ** The keyset predicate, end to end *)

(** [$n] of a statement that binds [params] from [$first] onwards. *)
Definition bind_of (first : Z) (params : list cvalue) (n : Z) : option cvalue :=
  if n <? first then None else params !! Z.to_nat (n - first).

Lemma bind_slots_ok_aux first pre vs :
  Forall2 (slot_ok (bind_of first (pre ++ bind_params vs))) vs
          (bind_slots (first + Z.of_nat (length pre)) vs).
Proof.
  revert pre. induction vs as [|[a|] vs IH]; intros pre; simpl; constructor.
  - unfold slot_ok, bind_of. destruct (Z.ltb_spec (first + Z.of_nat (length pre)) first); [lia|].
    replace (Z.to_nat (first + Z.of_nat (length pre) - first)) with (length pre) by lia.
    by rewrite lookup_app_r, Nat.sub_diag.
  - specialize (IH (pre ++ [a])). rewrite length_app, <- app_assoc in IH. simpl in IH.
    replace (first + Z.of_nat (length pre + 1)) with (first + Z.of_nat (length pre) + 1) in IH by lia.
    exact IH.
  - done.
  - apply IH.
Qed.

Lemma bind_slots_ok first vs :
  Forall2 (slot_ok (bind_of first (bind_params vs))) vs (bind_slots first vs).
Proof.
  pose proof (bind_slots_ok_aux first [] vs) as H. simpl in H. by rewrite Z.add_0_r in H.
Qed.

(** An ordering the row-wise form can seam: a single column is not nullable. *)
Definition seamable (ord : JobOrdering) : bool :=
  match ord with
  | [] => false
  | [c] => negb (nullable c)
  | _ => true
  end.

Lemma one_direction_forall lead rest :
  one_direction (lead :: rest) = true <-> Forall (fun c => descending c = descending lead) rest.
Proof.
  simpl. rewrite forallb_forall, Forall_forall. setoid_rewrite eqb_true_iff.
  split; intros H x Hx; apply H; by apply list_elem_of_In.
Qed.

Lemma rest_not_null_forall (rest : list SortColumn) :
  forallb (fun c => negb (nullable c)) rest = true <-> Forall (fun c => nullable c = false) rest.
Proof.
  rewrite forallb_forall, Forall_forall. setoid_rewrite negb_true_iff.
  split; intros H x Hx; apply H; by apply list_elem_of_In.
Qed.

(** The row's key tuple under an environment. *)
Definition row_of (env : string -> CursorValue) (ord : JobOrdering) : list CursorValue :=
  map (fun c => env (col_name c)) ord.

Lemma sql_after_correct (texts : Prop) collate env ord vs first forward :
  (texts -> forall x y, collate x y = text_cmp x y) -> seamable ord = true ->
  Forall2 (typed texts) ord (row_of env ord) -> Forall2 (typed texts) ord vs ->
  let '(p, params) := sql_after ord vs first forward true in
  no_error collate env (bind_of first params) p /\
  (holds collate env (bind_of first params) p <->
   compare ord (row_of env ord) vs = Ok (past forward)).
Proof.
  intros Hcol Hseam Hx Hv. unfold sql_after.
  pose proof (bind_slots_ok first vs) as Hs.
  destruct ord as [|lead rest]; [done|].
  destruct vs as [|v0 vs]; [inversion Hv|].
  destruct (one_direction (lead :: rest) && forallb (fun c => negb (nullable c)) (tl (lead :: rest)))
    eqn:E.
  - apply andb_true_iff in E as [Hdir%one_direction_forall Hnn%rest_not_null_forall].
    destruct v0 as [b|].
    + destruct (row_wise_value_seam collate env _ texts Hcol lead rest Hdir Hnn Hx b vs _ forward true Hv Hs)
        as [Hn Hh].
      split; [exact Hn|]. rewrite Hh. unfold row_of. naive_solver.
    + apply (row_wise_null_seam collate env _ texts Hcol); auto. intros ->. apply Forall2_cons in Hv as [T _].
      simpl in *. by rewrite T in Hseam.
  - destruct (lexicographic_holds collate env _ texts Hcol (lead :: rest) (v0 :: vs) _ forward [] Hx Hv Hs
      ltac:(constructor)) as [Hn Hh].
    destruct (holds_or collate env (bind_of first (bind_params (v0 :: vs))) _ Hn) as [Ho Hon].
    split; [exact Hon|]. unfold lexicographic_sql.
    change (holds ?c ?e ?b (PParen ?q)) with (holds c e b q). rewrite Ho, Hh.
    rewrite Forall_nil. unfold row_of. naive_solver.
Qed.

(** C38: The keyset predicate is exact.  For every ordering other than a single nullable column
    (as all the shipped ones), every cursor tuple and every row of the columns' kinds - with
    text columns where the database's collation orders by code points, as Python does, and any
    collation where there are none - the predicate [sql_after] builds (row-wise or
    lexicographic, forward or backward, NULL seams included) evaluates without an
    SQL error under the parameters it returns, and is TRUE exactly when the
    in-memory [compare] puts the row strictly past the cursor. *)
Theorem sql_after_exact (texts : Prop) collate env ord vs first forward :
  (texts -> forall x y, collate x y = text_cmp x y) -> seamable ord = true ->
  Forall2 (typed texts) ord (row_of env ord) -> Forall2 (typed texts) ord vs ->
  let '(p, params) := sql_after ord vs first forward true in
  no_error collate env (bind_of first params) p /\
  (holds collate env (bind_of first params) p <->
   compare ord (row_of env ord) vs = Ok (past forward)).
Proof. apply sql_after_correct. Qed.

(** The planner form ([null_tail=False]) is the forward predicate without the
    NULL range of its nullable lead column: it holds exactly on the rows past the
    cursor whose lead column is not NULL. *)
Theorem sql_after_null_tail (texts : Prop) collate env lead rest b vs first :
  (texts -> forall x y, collate x y = text_cmp x y) ->
  one_direction (lead :: rest) && forallb (fun c => negb (nullable c)) rest = true ->
  Forall2 (typed texts) (lead :: rest) (row_of env (lead :: rest)) ->
  Forall2 (typed texts) (lead :: rest) (Some b :: vs) ->
  let '(p, params) := sql_after (lead :: rest) (Some b :: vs) first true false in
  no_error collate env (bind_of first params) p /\
  (holds collate env (bind_of first params) p <->
   compare (lead :: rest) (row_of env (lead :: rest)) (Some b :: vs) = Ok 1 /\
   env (col_name lead) <> None).
Proof.
  intros Hcol E Hx Hv. unfold sql_after. cbn [tl]. rewrite E.
  pose proof (bind_slots_ok first (Some b :: vs)) as Hs.
  apply andb_true_iff in E as [Hdir%one_direction_forall Hnn%rest_not_null_forall].
  destruct (row_wise_value_seam collate env _ texts Hcol lead rest Hdir Hnn Hx b vs _ true false Hv Hs) as [Hn Hh].
  split; [exact Hn|]. rewrite Hh. unfold row_of, past. naive_solver.
Qed.

(** ** Cursor text round trip *)

Definition value_storable (v : CursorValue) : Prop :=
  match v with
  | Some (VInt z) => INT4_MIN <= z <= INT4_MAX
  | Some (VTs t) => dt_valid t = true
  | Some (VUuid u) => 0 <= u < uuid_max
  | _ => True
  end.

Lemma occurs_forall c s : Forall (fun a => ascii_eqb c a = false) s -> occurs c s = false.
Proof. unfold occurs. induction 1 as [|a s Ha Hs IH]; simpl; [done|]. by rewrite Ha. Qed.

Lemma format_no_bar col v : typed False col v -> occurs bar (format v) = false.
Proof.
  destruct v as [[z|s|t|u]|]; intros Ht; cbn [format]; [..|reflexivity].
  - apply occurs_forall. eapply Forall_impl; [apply py_str_int_chars|].
    intros c Hc. by apply uuid_char_plain.
  - unfold typed in Ht. by destruct (col_kind col).
  - apply isoformat_no_bar.
  - apply occurs_forall. eapply Forall_impl; [apply uuid_str_chars|].
    intros c Hc. by apply uuid_char_plain.
Qed.

Lemma parse_int4_str z : INT4_MIN <= z <= INT4_MAX -> parse_int4 (py_str_int z) = Ok z.
Proof.
  intros Hz. unfold parse_int4. rewrite py_int_str.
  - destruct (Z.leb_spec INT4_MIN z), (Z.leb_spec z INT4_MAX); done || lia.
  - unfold INT4_MIN, INT4_MAX in Hz. lia.
Qed.

Lemma py_str_int_nonempty z : py_str_int z <> [].
Proof.
  unfold py_str_int. case_match; [done|].
  intros E%(f_equal length). rewrite fixed_length in E.
  pose proof (ndigits_pos (Z.to_nat (Z.log2 (Z.abs z) + 1)) (Z.abs z)). simpl in E. lia.
Qed.

Lemma uuid_str_nonempty u : uuid_str u <> [].
Proof. unfold uuid_str. intros E%(f_equal length). rewrite length_app in E. simpl in E. lia. Qed.

Lemma parse_nonempty `{IsoText} col s :
  s <> [] ->
  parse col s =
  match col_kind col with
  | KInt => let* v := parse_int4 s in Ok (Some (VInt v))
  | KTs => let* t := or_value_error (fromisoformat s) in Ok (Some (VTs t))
  | KUuid => let* u := or_value_error (uuid_parse s) in Ok (Some (VUuid u))
  | KText => Ok (Some (VStr s))
  end.
Proof. by destruct s. Qed.

Lemma parse_format `{IsoText} col v :
  typed False col v -> value_storable v -> parse col (format v) = Ok v.
Proof.
  destruct v as [[z|s|t|u]|]; intros Ht Hs; cbn [format typed value_storable] in *.
  - rewrite parse_nonempty by apply py_str_int_nonempty.
    destruct (col_kind col); try done. by rewrite parse_int4_str.
  - by destruct (col_kind col).
  - rewrite parse_nonempty by apply isoformat_nonempty.
    destruct (col_kind col); try done. by rewrite fromisoformat_isoformat.
  - rewrite parse_nonempty by apply uuid_str_nonempty.
    destruct (col_kind col); try done. by rewrite uuid_roundtrip.
  - cbn [parse]. by rewrite Ht.
Qed.

Lemma py_split_join_all sep (ws : list text) :
  ws <> [] -> Forall (fun x => occurs sep x = false) ws ->
  py_split sep (length ws - 1) (py_join [sep] ws) = ws.
Proof.
  intros Hne Hws. destruct (exists_last Hne) as (init & last & ->).
  apply Forall_app in Hws as [Hi _]. rewrite length_app. simpl.
  rewrite Nat.add_sub. by apply py_split_join.
Qed.

Lemma traverse_parse `{IsoText} ord vs :
  Forall2 (typed False) ord vs -> Forall value_storable vs ->
  traverse (fun '(col, part) => parse col part) (combine ord (map format vs)) = Ok vs.
Proof.
  induction 1 as [|col v ord vs Hv Hvs IH]; intros Hs; [done|].
  apply Forall_cons in Hs as [Hs Hs']. simpl.
  rewrite parse_format by done. simpl. by rewrite IH.
Qed.

Lemma decode_join `{IsoText} ord vs :
  ord <> [] -> Forall2 (typed False) ord vs -> Forall value_storable vs ->
  decode ord (py_join [bar] (map format vs)) = Ok vs.
Proof.
  intros Hne Hv Hs. pose proof (Forall2_length _ _ _ Hv) as HL.
  unfold decode. rewrite HL, <- (length_map format vs).
  rewrite py_split_join_all.
  - rewrite Nat.eqb_refl. by apply traverse_parse.
  - destruct vs; [by destruct ord|done].
  - apply Forall_map. clear -Hv. induction Hv; constructor; eauto using format_no_bar.
Qed.

(** *** Rows of the shipped orderings *)

Definition keys_valid (r : JobKeys) : Prop :=
  0 <= jk_id r < uuid_max /\ INT4_MIN <= jk_priority r <= INT4_MAX /\
  dt_valid (jk_scheduled_at r) = true /\ dt_valid (jk_created_at r) = true /\
  match jk_finished_at r with Some t => dt_valid t = true | None => True end.

Definition row_env (r : JobKeys) (name : string) : CursorValue :=
  match ROW_READERS name r with Ok v => v | Err _ => None end.

Lemma values_shipped f r : values (ORDERINGS f) r = Ok (row_of (row_env r) (ORDERINGS f)).
Proof. by destruct f. Qed.

Lemma shipped_typed texts f r : Forall2 (typed texts) (ORDERINGS f) (row_of (row_env r) (ORDERINGS f)).
Proof. destruct f; repeat constructor. by destruct r as [? ? ? ? []]. Qed.

Lemma shipped_storable f r :
  keys_valid r -> Forall value_storable (row_of (row_env r) (ORDERINGS f)).
Proof.
  intros (Hid & Hp & Hs & Hc & Hf).
  assert (Hfin : value_storable (VTs <$> jk_finished_at r)) by (by destruct (jk_finished_at r)).
  destruct f; repeat (apply Forall_cons; split); auto using Forall_nil_2.
Qed.

Lemma shipped_seamable f : seamable (ORDERINGS f) = true.
Proof. by destruct f. Qed.

(** C40: The cursor text round trips: for every shipped ordering and every storable
    row, decoding the cursor the row encodes to gives back the row's own key tuple,
    in the columns' own types (NULL [finished_at] included), whatever parser
    inverts [isoformat]. *)
Theorem decode_encode_job_cursor `{IsoText} row order_by :
  keys_valid row ->
  exists cursor vs,
    encode_job_cursor row order_by = Ok cursor /\
    values (ordering_for order_by) row = Ok vs /\
    decode_job_cursor cursor order_by = Ok vs.
Proof.
  intros Hr. unfold encode_job_cursor, decode_job_cursor, encode, ordering_for.
  set (f := default SCHEDULED_AT_ASC order_by). rewrite values_shipped. simpl.
  do 2 eexists. split_and!; [done..|].
  apply decode_join; auto using shipped_typed, shipped_storable. by destruct f.
Qed.

(** ** Pages *)

(** A page query: decode the cursor, build the predicate, keep the rows on which
    it is TRUE (the rows come in the ordering's own order). *)
Definition select_after `{IsoText} (collate : text -> text -> comparison) (ord : JobOrdering)
    (cursor : text) (forward : bool) (rows : list JobKeys) : result cursor_err (list JobKeys) :=
  let* vs := decode ord cursor in
  let '(p, params) := sql_after ord vs 1 forward true in
  Ok (List.filter (fun r => bool_decide (eval_pred collate (row_env r) (bind_of 1 params) p
                                         = Some (Some true))) rows).

Definition before (f : JobSortField) (a b : JobKeys) : Prop :=
  compare_rows (ORDERINGS f) a b = Ok (-1).

Lemma compare_rows_shipped f a b :
  compare_rows (ORDERINGS f) a b =
  compare (ORDERINGS f) (row_of (row_env a) (ORDERINGS f)) (row_of (row_env b) (ORDERINGS f)).
Proof. unfold compare_rows. rewrite !values_shipped. done. Qed.

Lemma before_flip f a b : before f a b -> compare_rows (ORDERINGS f) b a = Ok 1.
Proof.
  unfold before. rewrite !compare_rows_shipped. intros Hc.
  apply (compare_antisym (texts := False) _ _ _ (-1)) in Hc; auto using shipped_typed.
Qed.

Lemma compare_rows_refl f a : compare_rows (ORDERINGS f) a a = Ok 0.
Proof.
  rewrite compare_rows_shipped.
  destruct (compare_total (ORDERINGS f) _ _ (shipped_typed False f a) (shipped_typed False f a))
    as (z & Hz & Hcase).
  pose proof (compare_antisym _ _ _ z (shipped_typed False f a) (shipped_typed False f a) Hz) as Hn.
  rewrite Hz in *. injection Hn as Hn. f_equal. lia.
Qed.

Lemma filter_all {A} (p : A -> bool) l : Forall (fun x => p x = true) l -> List.filter p l = l.
Proof. induction 1 as [|x l Hx Hl IH]; simpl; [done|]. by rewrite Hx, IH. Qed.

Lemma filter_none {A} (p : A -> bool) l : Forall (fun x => p x = false) l -> List.filter p l = [].
Proof. induction 1 as [|x l Hx Hl IH]; simpl; [done|]. by rewrite Hx. Qed.

Lemma sorted_split_before {A} (R : A -> A -> Prop) l1 c l2 :
  StronglySorted R (l1 ++ c :: l2) -> Forall (fun a => R a c) l1 /\ Forall (R c) l2.
Proof.
  induction l1 as [|a l1 IH]; simpl; intros Hs.
  - apply StronglySorted_inv in Hs as [_ Hs]. split; [constructor|done].
  - apply StronglySorted_inv in Hs as [Hs Ha]. destruct (IH Hs) as [H1 H2].
    split; [constructor; [|done]|done].
    rewrite Forall_app, Forall_cons in Ha. tauto.
Qed.

(** Selection on one row of a page query. *)
Lemma select_row collate f c r forward :
  let '(p, params) := sql_after (ORDERINGS f) (row_of (row_env c) (ORDERINGS f)) 1 forward true in
  bool_decide (eval_pred collate (row_env r) (bind_of 1 params) p = Some (Some true)) =
  bool_decide (compare_rows (ORDERINGS f) r c = Ok (past forward)).
Proof.
  pose proof (sql_after_correct False collate (row_env r) (ORDERINGS f) _ 1 forward
    (False_ind _) (shipped_seamable f) (shipped_typed False f r) (shipped_typed False f c)) as H.
  destruct (sql_after _ _ _ _ _) as [p params]. destruct H as [_ H].
  apply bool_decide_ext. rewrite compare_rows_shipped. exact H.
Qed.

(** Keyset pages neither skip nor repeat a row.  Take the rows of any shipped
    ordering, in that order with distinct keys, and any row [c] of the listing: the
    query seamed at [c]'s own cursor text returns, going forward, exactly the rows
    after [c], and going backward exactly the rows before it. *)
Theorem keyset_pages `{IsoText} collate f l1 c l2 :
  StronglySorted (before f) (l1 ++ c :: l2) -> keys_valid c ->
  exists cursor,
    encode_job_cursor c (Some f) = Ok cursor /\
    select_after collate (ORDERINGS f) cursor true (l1 ++ c :: l2) = Ok l2 /\
    select_after collate (ORDERINGS f) cursor false (l1 ++ c :: l2) = Ok l1.
Proof.
  intros Hs Hc. apply sorted_split_before in Hs as [H1 H2].
  unfold encode_job_cursor, encode, ordering_for. simpl default. rewrite values_shipped.
  eexists; split; [done|].
  assert (Hd : decode (ORDERINGS f) (py_join [bar] (map format (row_of (row_env c) (ORDERINGS f))))
               = Ok (row_of (row_env c) (ORDERINGS f)))
    by (apply decode_join; auto using shipped_typed, shipped_storable; by destruct f).
  unfold select_after. rewrite Hd. cbn [rbind].
  split.
  - pose proof (fun r => select_row collate f c r true) as Hr.
    destruct (sql_after _ _ _ _ _) as [p params]. f_equal.
    rewrite List.filter_app. cbn [List.filter]. rewrite Hr, compare_rows_refl.
    rewrite filter_none, filter_all; [done|..].
    + eapply Forall_impl; [exact H2|]. intros r Hb%before_flip. by rewrite Hr, Hb.
    + eapply Forall_impl; [exact H1|]. intros r Hb. unfold before in Hb. by rewrite Hr, Hb.
  - pose proof (fun r => select_row collate f c r false) as Hr.
    destruct (sql_after _ _ _ _ _) as [p params]. f_equal.
    rewrite List.filter_app. cbn [List.filter]. rewrite Hr, compare_rows_refl.
    rewrite filter_all, filter_none; [by rewrite app_nil_r|..].
    + eapply Forall_impl; [exact H2|]. intros r Hb%before_flip. by rewrite Hr, Hb.
    + eapply Forall_impl; [exact H1|]. intros r Hb. unfold before in Hb. by rewrite Hr, Hb.
Qed.

(** ** Concrete instances *)

Definition ex_time (s : Z) : datetime := mkdt 2026 3 14 15 9 s 250000.

Definition ex_job (id prio s : Z) (fin : option datetime) : JobKeys :=
  Build_JobKeys id prio (ex_time s) (ex_time s) fin.

Definition ex_collate (a b : text) : comparison := Eq.

Lemma sql_after_exact_witness :
  let env := row_env (ex_job 9 5 20 None) in
  let vs := [Some (VTs (ex_time 7)); Some (VUuid 3)] in
  let '(p, params) := sql_after (ORDERINGS FINISHED_AT_DESC) vs 1 true true in
  no_error ex_collate env (bind_of 1 params) p /\
  (holds ex_collate env (bind_of 1 params) p <->
   compare (ORDERINGS FINISHED_AT_DESC) (row_of env (ORDERINGS FINISHED_AT_DESC)) vs = Ok 1).
Proof.
  apply (sql_after_exact False ex_collate (row_env (ex_job 9 5 20 None)) (ORDERINGS FINISHED_AT_DESC)
           [Some (VTs (ex_time 7)); Some (VUuid 3)] 1 true).
  - intros [].
  - reflexivity.
  - repeat constructor.
  - repeat constructor.
Defined.

(** Outside those bounds.  A single nullable column with a NULL cursor leaves no column to compare:
    the predicate is a comparison of empty rows, an SQL error.  Under a collation that ignores case, a
    text column's row that Python puts past the cursor is not selected. *)
Definition ex_nullable : JobOrdering := [Build_SortColumn "finished_at" KTs true true].
Definition ex_texts : JobOrdering := [Build_SortColumn "actor" KText false false; ID_ASC].

Example null_seam_of_one_column :
  render_pred (sql_after ex_nullable [None] 1 true true).1 = txt "(finished_at IS NULL AND () < ())" /\
  eval_pred ex_collate (fun _ => None) (bind_of 1 []) (sql_after ex_nullable [None] 1 true true).1 = None.
Proof. split; vm_compute; reflexivity. Qed.

Example text_follows_collation :
  let env := fun n : string => if decide (n = "actor"%string) then Some (VStr (txt "a")) else Some (VUuid 1) in
  let '(p, params) := sql_after ex_texts [Some (VStr (txt "A")); Some (VUuid 2)] 1 true true in
  compare ex_texts (row_of env ex_texts) [Some (VStr (txt "A")); Some (VUuid 2)] = Ok 1 /\
  eval_pred ex_collate env (bind_of 1 params) p = Some (Some false) /\
  eval_pred text_cmp env (bind_of 1 params) p = Some (Some true).
Proof. split_and!; vm_compute; reflexivity. Qed.

Lemma sql_after_null_tail_witness :
  let ord := ORDERINGS FINISHED_AT_DESC in
  let env := row_env (ex_job 9 5 20 None) in
  let vs := [Some (VTs (ex_time 7)); Some (VUuid 3)] in
  let '(p, params) := sql_after ord vs 1 true false in
  no_error ex_collate env (bind_of 1 params) p /\
  (holds ex_collate env (bind_of 1 params) p <->
   compare ord (row_of env ord) vs = Ok 1 /\ env "finished_at" <> None).
Proof.
  apply (sql_after_null_tail False ex_collate (row_env (ex_job 9 5 20 None))
           (Build_SortColumn "finished_at" KTs true true) [ID_DESC]
           (VTs (ex_time 7)) [Some (VUuid 3)] 1).
  - intros [].
  - reflexivity.
  - repeat constructor.
  - repeat constructor.
Defined.

Lemma ex_job_valid id prio s fin :
  0 <= id < 1000 -> 0 <= prio < 1000 -> 0 <= s < 60 ->
  match fin with Some t => dt_valid t = true | None => True end ->
  keys_valid (ex_job id prio s fin).
Proof.
  intros Hid Hp Hs Hf. unfold keys_valid, ex_job, ex_time, dt_valid; simpl.
  destruct (Z.leb_spec 0 s), (Z.ltb_spec s 60); try lia.
  split_and!; auto; try reflexivity; unfold uuid_max, INT4_MIN, INT4_MAX; lia.
Qed.

Lemma decode_encode_job_cursor_witness :
  exists cursor vs,
    encode_job_cursor (ex_job 9 (5) 20 None) (Some FINISHED_AT_DESC) = Ok cursor /\
    values (ordering_for (Some FINISHED_AT_DESC)) (ex_job 9 5 20 None) = Ok vs /\
    decode_job_cursor cursor (Some FINISHED_AT_DESC) = Ok vs.
Proof.
  apply (decode_encode_job_cursor (ex_job 9 5 20 None) (Some FINISHED_AT_DESC)).
  apply ex_job_valid; [lia|lia|lia|exact I].
Defined.

Lemma keyset_pages_witness :
  let rows := [ex_job 1 9 10 None; ex_job 2 5 10 None; ex_job 3 5 10 None] in
  exists cursor,
    encode_job_cursor (ex_job 2 5 10 None) (Some SCHEDULED_AT_ASC) = Ok cursor /\
    select_after ex_collate (ORDERINGS SCHEDULED_AT_ASC) cursor true rows = Ok [ex_job 3 5 10 None] /\
    select_after ex_collate (ORDERINGS SCHEDULED_AT_ASC) cursor false rows = Ok [ex_job 1 9 10 None].
Proof.
  apply (keyset_pages ex_collate SCHEDULED_AT_ASC [ex_job 1 9 10 None] (ex_job 2 5 10 None)
           [ex_job 3 5 10 None]).
  - repeat constructor.
  - apply ex_job_valid; [lia|lia|lia|exact I].
Defined.
