(* ===== verification/PyFloat.v ===== *)
(** * Python floats and timedeltas

    A finite Python float is modelled by the rational it denotes; every float
    operation is the exact rational operation followed by [rnd], the rounding of
    the class [Rounding].  The laws of the class are IEEE-754 facts about
    round-to-nearest in binary64 away from overflow and underflow; the instance
    [b64_rounding] is round-to-nearest-even to 53 significant bits, executable and
    proved to satisfy them.  Infinities, NaN and subnormals are outside the model.

    A [timedelta] is its integer number of microseconds; [total_seconds] and
    [td_of_seconds] are [timedelta.total_seconds()] and [timedelta(seconds=f)]. *)

From Stdlib Require Import ZArith Lia QArith Qround Qabs Qpower Lqa.
From stdpp Require Import base tactics.
From S2P Require Import Prelude.

Open Scope Q_scope.

(** The unit roundoff of binary64. *)
Definition ulp53 : Q := 1 # (2 ^ 53).

Class Rounding := {
  rnd : Q -> Q;
  rnd_mono : forall x y, x <= y -> rnd x <= rnd y;
  rnd_rel : forall x, Qabs (rnd x - x) <= Qabs x * ulp53;
  rnd_idem : forall x, rnd (rnd x) == rnd x;
  rnd_int : forall n : Z, (Z.abs n <= 2 ^ 53)%Z -> rnd (inject_Z n) == inject_Z n
}.

(** ** Rounding to an integer, half to even *)

Definition rne (q : Q) : Z :=
  let f := Qfloor q in
  match Qcompare (q - inject_Z f) (1 # 2) with
  | Lt => f
  | Gt => f + 1
  | Eq => if Z.even f then f else f + 1
  end%Z.

Lemma Qfloor_bounds q : inject_Z (Qfloor q) <= q /\ q < inject_Z (Qfloor q) + 1.
Proof.
  split; [apply Qfloor_le|].
  pose proof (Qlt_floor q) as H. by rewrite inject_Z_plus in H.
Qed.

Lemma rne_floor q : (rne q = Qfloor q \/ rne q = Qfloor q + 1)%Z.
Proof. unfold rne. destruct (_ ?= _)%Q; [destruct (Z.even _)|..]; auto. Qed.

Lemma rne_nearest q : inject_Z (rne q) - (1 # 2) <= q /\ q <= inject_Z (rne q) + (1 # 2).
Proof.
  pose proof (Qfloor_bounds q) as [Hl Hu]. unfold rne.
  destruct (Qcompare (q - inject_Z (Qfloor q)) (1 # 2)) eqn:E.
  - apply Qeq_alt in E. destruct (Z.even _); rewrite ?inject_Z_plus; change (inject_Z 1) with 1; lra.
  - apply Qlt_alt in E. lra.
  - apply Qgt_alt in E. rewrite inject_Z_plus; change (inject_Z 1) with 1; lra.
Qed.

(** A rational strictly within one half of an integer rounds to it. *)
Lemma rne_close q (n : Z) : Qabs (q - inject_Z n) < 1 # 2 -> rne q = n.
Proof.
  intros H. apply Qabs_Qlt_condition in H as [H1 H2].
  pose proof (rne_nearest q) as [H3 H4].
  assert (inject_Z (rne q) < inject_Z (n + 1)) as A1
    by (rewrite inject_Z_plus; change (inject_Z 1) with 1; lra).
  assert (inject_Z (n - 1) < inject_Z (rne q)) as A2
    by (unfold Zminus; rewrite inject_Z_plus; change (inject_Z (-(1))) with (- (1)); lra).
  rewrite <- Zlt_Qlt in A1, A2. lia.
Qed.

Lemma rne_mono x y : x <= y -> (rne x <= rne y)%Z.
Proof.
  intros Hxy. pose proof (Qfloor_resp_le x y Hxy) as Hf.
  destruct (Z.eq_dec (Qfloor x) (Qfloor y)) as [E|E].
  - unfold rne. rewrite E.
    destruct (Qcompare (x - inject_Z (Qfloor y)) (1 # 2)) eqn:E1;
    destruct (Qcompare (y - inject_Z (Qfloor y)) (1 # 2)) eqn:E2;
      repeat match goal with
      | H : (_ ?= _) = Eq |- _ => apply Qeq_alt in H
      | H : (_ ?= _) = Lt |- _ => apply Qlt_alt in H
      | H : (_ ?= _) = Gt |- _ => apply Qgt_alt in H
      end; try destruct (Z.even _); try lia; exfalso; lra.
  - destruct (rne_floor x), (rne_floor y); lia.
Qed.

#[export] Instance rne_proper : Proper (Qeq ==> eq) rne.
Proof. intros x y H. apply Z.le_antisymm; apply rne_mono; lra. Qed.

Lemma rne_inject (n : Z) : rne (inject_Z n) = n.
Proof. apply rne_close. apply Qabs_Qlt_condition. split; lra. Qed.

(** ** Truncation towards zero: [int(f)] and the integer part of [math.modf] *)

Definition Qtrunc (q : Q) : Z := Z.quot (Qnum q) (QDen q).

Lemma Qtrunc_nonneg q : 0 <= q -> Qtrunc q = Qfloor q.
Proof.
  destruct q as [n d]. unfold Qle, Qtrunc, Qfloor. simpl. intros H.
  apply Z.quot_div_nonneg; lia.
Qed.

Lemma Qmult_le_l_nonneg x y z : 0 <= z -> x <= y -> z * x <= z * y.
Proof. intros. nra. Qed.

(** ** Float operations *)

Section float_ops.
Context `{Rounding}.

#[global] Instance rnd_proper : Proper (Qeq ==> Qeq) rnd.
Proof. intros x y E. apply Qle_antisym; apply rnd_mono; lra. Qed.

Lemma rnd_0 : rnd 0 == 0.
Proof. apply (rnd_int 0). done. Qed.

Lemma rnd_1 : rnd 1 == 1.
Proof. apply (rnd_int 1). done. Qed.

Lemma rnd_nonneg x : 0 <= x -> 0 <= rnd x.
Proof. intros Hx. rewrite <- rnd_0. by apply rnd_mono. Qed.

Definition fadd (x y : Q) : Q := rnd (x + y).
Definition fsub (x y : Q) : Q := rnd (x - y).
Definition fmul (x y : Q) : Q := rnd (x * y).
Definition fdiv (x y : Q) : Q := rnd (x / y).
(** [float(n)] of a Python int. *)
Definition fint (n : Z) : Q := rnd (inject_Z n).
End float_ops.

(** Python's [min(a, b)] and [max(a, b)]: the first argument unless the second
    is strictly smaller (greater). *)
Definition fmin (a b : Q) : Q := match Qcompare b a with Lt => b | _ => a end.
Definition fmax (a b : Q) : Q := match Qcompare b a with Gt => b | _ => a end.

Lemma fmin_cases a b : (fmin a b = b /\ b < a) \/ (fmin a b = a /\ a <= b).
Proof.
  unfold fmin. destruct (Qcompare b a) eqn:E.
  - right. apply Qeq_alt in E. split; [done|lra].
  - left. by apply Qlt_alt in E.
  - right. apply Qgt_alt in E. split; [done|lra].
Qed.

Lemma fmax_cases a b : (fmax a b = b /\ a < b) \/ (fmax a b = a /\ b <= a).
Proof.
  unfold fmax. destruct (Qcompare b a) eqn:E.
  - right. apply Qeq_alt in E. split; [done|lra].
  - right. apply Qlt_alt in E. split; [done|lra].
  - left. by apply Qgt_alt in E.
Qed.

(** Case analysis on every [fmin] and [fmax] of the goal and the hypotheses. *)
Ltac fminmax :=
  let go l a b t :=
    (let x := fresh "m" in let E := fresh in let E' := fresh in
     pose proof (l a b) as E; set (x := t) in *; clearbody x;
     destruct E as [[E' ?]|[E' ?]]; subst x) in
  repeat match goal with
  | |- context [fmin ?a ?b] => go fmin_cases a b (fmin a b)
  | H : context [fmin ?a ?b] |- _ => go fmin_cases a b (fmin a b)
  | |- context [fmax ?a ?b] => go fmax_cases a b (fmax a b)
  | H : context [fmax ?a ?b] |- _ => go fmax_cases a b (fmax a b)
  end.

(** ** The binary64 instance *)

Definition pow2 (e : Z) : Q := Qpower 2 e.

Lemma pow2_pos e : 0 < pow2 e.
Proof. by apply Qpower_0_lt. Qed.

Lemma pow2_plus a b : pow2 (a + b) == pow2 a * pow2 b.
Proof. apply Qpower_plus. discriminate. Qed.

Lemma pow2_le a b : (a <= b)%Z -> pow2 a <= pow2 b.
Proof. intros. by apply Qpower_le_compat_l. Qed.

Lemma pow2_int k : (0 <= k)%Z -> pow2 k == inject_Z (2 ^ k).
Proof. intros. unfold pow2. by rewrite Zpower_Qpower. Qed.

Lemma pow2_lt_inv a b : pow2 a < pow2 b -> (a < b)%Z.
Proof. intros. by eapply Qpower_lt_compat_l_inv; [eassumption|]. Qed.

(** The binary exponent: [2^e <= q < 2^(e+1)]. *)
Definition expo (q : Q) : Z :=
  let l := (Z.log2 (Qnum q) - Z.log2 (QDen q))%Z in
  if Qle_bool (pow2 l) q then l else (l - 1)%Z.

(** 53-bit round-to-nearest-even of a positive rational. *)
Definition b64_pos (q : Q) : Q :=
  let s := pow2 (expo q - 52) in inject_Z (rne (q / s)) * s.

Definition b64 (q : Q) : Q :=
  match Qnum q with
  | Z0 => 0
  | Zpos _ => b64_pos q
  | Zneg _ => - b64_pos (- q)
  end.

Lemma Qfrac_mul_den q : q * inject_Z (QDen q) == inject_Z (Qnum q).
Proof. destruct q as [n d]. unfold Qeq. simpl. lia. Qed.

Lemma expo_spec q : 0 < q -> pow2 (expo q) <= q /\ q < pow2 (expo q + 1).
Proof.
  intros Hq.
  assert (Hn : (0 < Qnum q)%Z) by (destruct q as [n d]; unfold Qlt in Hq; simpl in *; lia).
  pose proof (Z.log2_spec _ Hn) as [Ha1 Ha2].
  pose proof (Z.log2_spec (QDen q) eq_refl) as [Hb1 Hb2].
  pose proof (Z.log2_nonneg (Qnum q)) as Na. pose proof (Z.log2_nonneg (QDen q)) as Nb.
  set (a := Z.log2 (Qnum q)) in *. set (b := Z.log2 (QDen q)) in *.
  rewrite Zle_Qle, <- pow2_int in Ha1, Hb1 by lia.
  rewrite Zlt_Qlt, <- pow2_int in Ha2, Hb2 by lia.
  rewrite <- Z.add_1_r in Ha2, Hb2.
  pose proof (Qfrac_mul_den q) as Hq'.
  pose proof (pow2_pos (a - b - 1)) as P1. pose proof (pow2_pos (a - b)) as P2.
  assert (Hlow : pow2 (a - b - 1) < q).
  { destruct (Qlt_le_dec (pow2 (a - b - 1)) q) as [|Hge]; [done|exfalso].
    assert (E : pow2 a == pow2 (a - b - 1) * pow2 (b + 1))
      by (rewrite <- pow2_plus; f_equiv; lia).
    assert (0 < inject_Z (QDen q)) by done.
    assert (q * inject_Z (QDen q) <= pow2 (a - b - 1) * inject_Z (QDen q))
      by (apply Qmult_le_compat_r; [done|lra]).
    assert (pow2 (a - b - 1) * inject_Z (QDen q) < pow2 (a - b - 1) * pow2 (b + 1))
      by (apply Qmult_lt_l; lra).
    lra. }
  assert (Hhigh : q < pow2 (a - b + 1)).
  { destruct (Qlt_le_dec q (pow2 (a - b + 1))) as [|Hge]; [done|exfalso].
    assert (E : pow2 (a + 1) == pow2 (a - b + 1) * pow2 b)
      by (rewrite <- pow2_plus; f_equiv; lia).
    pose proof (pow2_pos b) as Pb.
    assert (pow2 (a - b + 1) * pow2 b <= q * pow2 b) by (apply Qmult_le_compat_r; lra).
    assert (q * pow2 b <= q * inject_Z (QDen q)) by (apply Qmult_le_l; lra).
    lra. }
  unfold expo. fold a b. destruct (Qle_bool (pow2 (a - b)) q) eqn:E.
  - apply Qle_bool_iff in E. by split.
  - assert (q < pow2 (a - b)).
    { apply Qnot_le_lt. intros Hc%Qle_bool_iff. congruence. }
    split; [lra|]. by replace (a - b - 1 + 1)%Z with (a - b)%Z by lia.
Qed.

Lemma expo_mono x y : 0 < x -> x <= y -> (expo x <= expo y)%Z.
Proof.
  intros Hx Hxy. destruct (expo_spec x Hx), (expo_spec y ltac:(lra)).
  assert (pow2 (expo x) < pow2 (expo y + 1)) by lra.
  enough (expo x < expo y + 1)%Z by lia. by apply pow2_lt_inv.
Qed.

(** The 53-bit significand of a positive rational, before rounding. *)
Lemma significand_bounds q :
  0 < q -> pow2 52 <= q / pow2 (expo q - 52) /\ q / pow2 (expo q - 52) < pow2 53.
Proof.
  intros Hq. destruct (expo_spec q Hq) as [H1 H2].
  pose proof (pow2_pos (expo q - 52)) as Ps.
  assert (E1 : pow2 (expo q) == pow2 52 * pow2 (expo q - 52))
    by (rewrite <- pow2_plus; f_equiv; lia).
  assert (E2 : pow2 (expo q + 1) == pow2 53 * pow2 (expo q - 52))
    by (rewrite <- pow2_plus; f_equiv; lia).
  split; [apply Qle_shift_div_l|apply Qlt_shift_div_r]; lra.
Qed.

Lemma b64_pos_bounds q :
  0 < q -> pow2 (expo q) <= b64_pos q /\ b64_pos q <= pow2 (expo q + 1).
Proof.
  intros Hq. destruct (significand_bounds q Hq) as [H1 H2].
  pose proof (pow2_pos (expo q - 52)) as Ps.
  rewrite (pow2_int 52) in H1 by lia. rewrite (pow2_int 53) in H2 by lia.
  apply rne_mono in H1. apply Qlt_le_weak, rne_mono in H2. rewrite rne_inject in H1, H2.
  rewrite Zle_Qle, <- (pow2_int 52) in H1 by lia. rewrite Zle_Qle, <- (pow2_int 53) in H2 by lia.
  unfold b64_pos. set (m := inject_Z _) in *. set (s := pow2 (expo q - 52)) in *.
  assert (E1 : pow2 (expo q) == pow2 52 * s) by (unfold s; rewrite <- pow2_plus; f_equiv; lia).
  assert (E2 : pow2 (expo q + 1) == pow2 53 * s) by (unfold s; rewrite <- pow2_plus; f_equiv; lia).
  rewrite E1, E2. split; apply Qmult_le_compat_r; lra.
Qed.

Lemma b64_pos_mono x y : 0 < x -> x <= y -> b64_pos x <= b64_pos y.
Proof.
  intros Hx Hxy. pose proof (expo_mono x y Hx Hxy) as He.
  destruct (Z.eq_dec (expo x) (expo y)) as [E|E].
  - unfold b64_pos. rewrite E. pose proof (pow2_pos (expo y - 52)) as Ps.
    apply Qmult_le_compat_r; [|lra]. rewrite <- Zle_Qle. apply rne_mono.
    unfold Qdiv. apply Qmult_le_compat_r; [done|]. apply Qlt_le_weak, Qinv_lt_0_compat; lra.
  - destruct (b64_pos_bounds x Hx), (b64_pos_bounds y ltac:(lra)).
    pose proof (pow2_le (expo x + 1) (expo y) ltac:(lia)). lra.
Qed.

Lemma b64_pos_rel q : 0 < q -> Qabs (b64_pos q - q) <= q * ulp53.
Proof.
  intros Hq. destruct (expo_spec q Hq) as [H1 _].
  pose proof (pow2_pos (expo q - 52)) as Ps.
  unfold b64_pos. set (s := pow2 (expo q - 52)) in *.
  pose proof (rne_nearest (q / s)) as [N1 N2].
  assert (Eq : q == (q / s) * s) by (field; lra).
  assert (Es : pow2 (expo q) * ulp53 == s * (1 # 2)).
  { unfold s. replace (expo q) with (expo q - 52 + 52)%Z at 1 by lia. rewrite pow2_plus.
    rewrite (pow2_int 52) by lia. unfold ulp53.
    rewrite <- Qmult_assoc. f_equiv; reflexivity. }
  assert (pow2 (expo q) * ulp53 <= q * ulp53) by (apply Qmult_le_compat_r; [done|discriminate]).
  apply Qabs_Qle_condition. set (m := inject_Z (rne (q / s))) in *.
  assert (M1 : m * s - (1 # 2) * s <= q) by (rewrite Eq at 1; nra).
  assert (M2 : q <= m * s + (1 # 2) * s) by (rewrite Eq at 1; nra).
  split; lra.
Qed.

(** A rational [m * 2^k] with a significand of at most 53 bits is a float. *)
Lemma b64_pos_exact q (m k : Z) :
  0 < q -> q == inject_Z m * pow2 k -> (m <= 2 ^ 53)%Z -> b64_pos q == q.
Proof.
  intros Hq E Hm. destruct (expo_spec q Hq) as [H1 H2].
  pose proof (pow2_pos k) as Pk. pose proof (pow2_pos (expo q - 52)) as Ps.
  assert (Hek : (expo q <= k + 53)%Z).
  { rewrite Zle_Qle, <- (pow2_int 53) in Hm by lia.
    assert (inject_Z m * pow2 k <= pow2 53 * pow2 k) by (apply Qmult_le_compat_r; lra).
    rewrite <- pow2_plus in H. assert (Hc : pow2 (expo q) <= pow2 (53 + k)) by lra.
    apply Qpower_le_compat_l_inv in Hc; [lia|done]. }
  assert (Hint : exists n : Z, q / pow2 (expo q - 52) == inject_Z n).
  { destruct (Z.eq_dec (expo q) (k + 53)) as [Ee|Ne].
    - exists (2 ^ 52)%Z.
      assert (E3 : pow2 (expo q) == pow2 53 * pow2 k) by (rewrite <- pow2_plus; f_equiv; lia).
      assert (E4 : pow2 (expo q) == pow2 52 * pow2 (expo q - 52)) by (rewrite <- pow2_plus; f_equiv; lia).
      rewrite Zle_Qle, <- (pow2_int 53) in Hm by lia.
      assert (inject_Z m * pow2 k <= pow2 53 * pow2 k) by (apply Qmult_le_compat_r; lra).
      rewrite <- (pow2_int 52) by lia.
      assert (Hqe : q == pow2 52 * pow2 (expo q - 52)) by lra.
      rewrite Hqe at 1. field. lra.
    - exists (m * 2 ^ (k - (expo q - 52)))%Z.
      rewrite inject_Z_mult, <- pow2_int by lia. rewrite E at 1.
      assert (E5 : pow2 k == pow2 (k - (expo q - 52)) * pow2 (expo q - 52))
        by (rewrite <- pow2_plus; f_equiv; lia).
      rewrite E5. field. lra. }
  destruct Hint as [n Hn]. unfold b64_pos. rewrite Hn at 1. rewrite rne_inject, <- Hn. field. lra.
Qed.

Lemma b64_pos_gt0 q : 0 < q -> 0 < b64_pos q.
Proof. intros Hq. destruct (b64_pos_bounds q Hq). pose proof (pow2_pos (expo q)). lra. Qed.

Lemma b64_pos_significand q :
  0 < q -> exists m k, b64_pos q == inject_Z m * pow2 k /\ (m <= 2 ^ 53)%Z.
Proof.
  intros Hq. exists (rne (q / pow2 (expo q - 52))), (expo q - 52)%Z. split; [done|].
  destruct (significand_bounds q Hq) as [_ H2]. rewrite (pow2_int 53) in H2 by lia.
  apply Qlt_le_weak, rne_mono in H2. by rewrite rne_inject in H2.
Qed.

Lemma b64_cases q :
  (q == 0 /\ b64 q = 0) \/ (0 < q /\ b64 q = b64_pos q) \/ (0 < - q /\ b64 q = - b64_pos (- q)).
Proof.
  destruct q as [[|n|n] d]; unfold b64; simpl.
  - left. by split.
  - right; left. by split.
  - right; right. by split.
Qed.

Lemma b64_mono x y : x <= y -> b64 x <= b64 y.
Proof.
  intros Hxy.
  destruct (b64_cases x) as [[Hx ->]|[[Hx ->]|[Hx ->]]];
    destruct (b64_cases y) as [[Hy ->]|[[Hy ->]|[Hy ->]]];
    try pose proof (b64_pos_gt0 _ Hx); try pose proof (b64_pos_gt0 _ Hy); try lra.
  - by apply b64_pos_mono.
  - assert (b64_pos (- y) <= b64_pos (- x)) by (apply b64_pos_mono; lra). lra.
Qed.

#[global] Instance b64_proper : Proper (Qeq ==> Qeq) b64.
Proof. intros x y E. apply Qle_antisym; apply b64_mono; lra. Qed.

Lemma b64_of_pos q : 0 < q -> b64 q = b64_pos q.
Proof. intros Hq. destruct (b64_cases q) as [[? _]|[[_ ?]|[? _]]]; [lra|done|lra]. Qed.

Lemma b64_of_neg q : 0 < - q -> b64 q = - b64_pos (- q).
Proof. intros Hq. destruct (b64_cases q) as [[? _]|[[? _]|[_ ?]]]; [lra|lra|done]. Qed.

Lemma b64_exact_pos q (m k : Z) :
  0 < q -> q == inject_Z m * pow2 k -> (m <= 2 ^ 53)%Z -> b64 q == q.
Proof. intros. rewrite b64_of_pos by done. by eapply b64_pos_exact. Qed.

Lemma b64_opp q : b64 (- q) == - b64 q.
Proof.
  destruct (b64_cases q) as [[Hq ->]|[[Hq ->]|[Hq ->]]].
  - rewrite Hq. reflexivity.
  - rewrite (b64_of_neg (- q)) by lra. rewrite <- !b64_of_pos by lra.
    by setoid_rewrite Qopp_involutive.
  - rewrite (b64_of_pos (- q)) by lra. lra.
Qed.

Lemma b64_idem q : b64 (b64 q) == b64 q.
Proof.
  assert (Hp : forall p, 0 < p -> b64 (b64_pos p) == b64_pos p).
  { intros p Hp. destruct (b64_pos_significand p Hp) as (m & k & E & Hm).
    eapply b64_exact_pos; eauto using b64_pos_gt0. }
  destruct (b64_cases q) as [[Hq ->]|[[Hq ->]|[Hq ->]]]; [done|by apply Hp|].
  rewrite b64_opp, Hp by done. reflexivity.
Qed.

Lemma b64_rel q : Qabs (b64 q - q) <= Qabs q * ulp53.
Proof.
  destruct (b64_cases q) as [[Hq ->]|[[Hq ->]|[Hq ->]]].
  - rewrite Hq. discriminate.
  - rewrite (Qabs_pos q) by lra. by apply b64_pos_rel.
  - assert (E : Qabs (- b64_pos (- q) - q) == Qabs (b64_pos (- q) - - q))
      by (rewrite <- Qabs_opp; apply Qabs_wd; lra).
    rewrite E, (Qabs_neg q) by lra. by apply b64_pos_rel.
Qed.

Lemma b64_int (n : Z) : (Z.abs n <= 2 ^ 53)%Z -> b64 (inject_Z n) == inject_Z n.
Proof.
  intros Hn. assert (Hp : forall p : Z, (0 < p <= 2 ^ 53)%Z -> b64 (inject_Z p) == inject_Z p).
  { intros p Hp. apply (b64_exact_pos _ p 0); [|unfold pow2; simpl; lra|lia].
    change 0 with (inject_Z 0). rewrite <- Zlt_Qlt. lia. }
  destruct (Z.lt_trichotomy n 0) as [Hlt|[->|Hgt]]; [|done|apply Hp; lia].
  assert (E : inject_Z n == - inject_Z (- n)) by (rewrite inject_Z_opp; lra).
  rewrite E, b64_opp, Hp by lia. reflexivity.
Qed.

#[export] Instance b64_rounding : Rounding := {
  rnd := b64;
  rnd_mono := b64_mono;
  rnd_rel := b64_rel;
  rnd_idem := b64_idem;
  rnd_int := b64_int
}.

(** ** Timedeltas *)

(** Microseconds. *)
Definition usec_per_sec : Z := 1000000.

Section timedelta.
Context `{Rounding}.

(** [td.total_seconds()]: the correctly rounded quotient. *)
Definition total_seconds (td : Z) : Q := rnd (inject_Z td / inject_Z usec_per_sec).

(** [timedelta(seconds=f)]: the whole seconds exactly, the fractional part scaled
    by a float multiplication and rounded half to even. *)
Definition td_of_seconds (f : Q) : Z :=
  (Qtrunc f * usec_per_sec + rne (fmul (f - inject_Z (Qtrunc f)) (inject_Z usec_per_sec)))%Z.

Lemma Qfloor_frac_nonneg f : 0 <= f -> 0 <= f - inject_Z (Qfloor f).
Proof. intros _. destruct (Qfloor_bounds f). lra. Qed.

Lemma td_of_seconds_nonneg f : 0 <= f -> (0 <= td_of_seconds f)%Z.
Proof.
  intros Hf. unfold td_of_seconds. rewrite Qtrunc_nonneg by done.
  pose proof (Qfloor_frac_nonneg f Hf) as Hfr.
  assert (0 <= Qfloor f)%Z by (apply (Qfloor_resp_le 0 f Hf)).
  assert (0 <= rne (fmul (f - inject_Z (Qfloor f)) (inject_Z usec_per_sec)))%Z.
  { rewrite <- (rne_inject 0). apply rne_mono, rnd_nonneg.
    apply Qmult_le_0_compat; [done|discriminate]. }
  unfold usec_per_sec in *. lia.
Qed.

Lemma fmul_usec_frac_le f : 0 <= f ->
  (rne (fmul (f - inject_Z (Qfloor f)) (inject_Z usec_per_sec)) <= usec_per_sec)%Z.
Proof.
  intros Hf. destruct (Qfloor_bounds f) as [_ Hu].
  rewrite <- (rne_inject usec_per_sec) at 2. apply rne_mono.
  apply Qle_trans with (rnd (inject_Z usec_per_sec)); [apply rnd_mono|apply Qle_lteq; right; by apply rnd_int].
  apply Qle_trans with (1 * inject_Z usec_per_sec); [|rewrite Qmult_1_l; lra].
  apply Qmult_le_compat_r; [lra|discriminate].
Qed.

(** Constructing a timedelta is monotone in the seconds. *)
Lemma td_of_seconds_mono f g : 0 <= f -> f <= g -> (td_of_seconds f <= td_of_seconds g)%Z.
Proof.
  intros Hf Hfg. unfold td_of_seconds. rewrite !Qtrunc_nonneg by lra.
  pose proof (Qfloor_resp_le f g Hfg) as Hfl.
  destruct (Z.eq_dec (Qfloor f) (Qfloor g)) as [E|E].
  - rewrite E. apply Z.add_le_mono_l, rne_mono, rnd_mono.
    apply Qmult_le_compat_r; [lra|discriminate].
  - pose proof (fmul_usec_frac_le f Hf).
    assert (0 <= rne (fmul (g - inject_Z (Qfloor g)) (inject_Z usec_per_sec)))%Z.
    { rewrite <- (rne_inject 0). apply rne_mono, rnd_nonneg.
      apply Qmult_le_0_compat; [apply Qfloor_frac_nonneg; lra|discriminate]. }
    unfold usec_per_sec in *. nia.
Qed.

Lemma total_seconds_nonneg td : (0 <= td)%Z -> 0 <= total_seconds td.
Proof.
  intros Htd. apply rnd_nonneg. apply Qle_shift_div_l; [done|].
  rewrite Qmult_0_l. change 0 with (inject_Z 0). by rewrite <- Zle_Qle.
Qed.

Lemma total_seconds_mono a b : (a <= b)%Z -> total_seconds a <= total_seconds b.
Proof.
  intros Hab. apply rnd_mono. unfold Qdiv. apply Qmult_le_compat_r; [by rewrite <- Zle_Qle|discriminate].
Qed.

(** Below 2^32 seconds (136 years) the float detour through seconds is exact. *)
Lemma td_roundtrip td :
  (0 <= td < 2 ^ 32 * usec_per_sec)%Z -> td_of_seconds (total_seconds td) = td.
Proof.
  intros Htd. pose proof (total_seconds_nonneg td ltac:(lia)) as Hnn.
  unfold td_of_seconds. rewrite Qtrunc_nonneg by done.
  set (x := inject_Z td / inject_Z usec_per_sec).
  assert (Hx : inject_Z td == x * inject_Z usec_per_sec) by (unfold x; field; discriminate).
  assert (Hx0 : 0 <= x) by (apply Qle_shift_div_l; [done|]; rewrite Qmult_0_l;
    change 0 with (inject_Z 0); rewrite <- Zle_Qle; lia).
  assert (Hx1 : x <= inject_Z (2 ^ 32)).
  { apply Qle_shift_div_r; [done|]. rewrite <- inject_Z_mult, <- Zle_Qle. lia. }
  pose proof (rnd_rel x) as Hr. change (rnd x) with (total_seconds td) in Hr. rewrite (Qabs_pos x) in Hr by done.
  set (f := total_seconds td) in *. destruct (Qfloor_bounds f) as [Hf1 Hf2].
  set (fr := f - inject_Z (Qfloor f)).
  pose proof (rnd_rel (fr * inject_Z usec_per_sec)) as Hg.
  unfold fmul. fold fr. set (g := rnd (fr * inject_Z usec_per_sec)) in *.
  rewrite (Qabs_pos (fr * _)) in Hg by (apply Qmult_le_0_compat; [unfold fr; lra|discriminate]).
  apply Qabs_Qle_condition in Hr as [Hr1 Hr2]. apply Qabs_Qle_condition in Hg as [Hg1 Hg2].
  assert (Hcl : rne g = (td - Qfloor f * usec_per_sec)%Z).
  { apply rne_close, Qabs_Qlt_condition.
    unfold Zminus. rewrite inject_Z_plus, inject_Z_opp, inject_Z_mult, Hx.
    unfold fr, ulp53, usec_per_sec in *.
    change (inject_Z (2 ^ 32)) with 4294967296 in *. change (inject_Z 1000000) with 1000000 in *.
    change (1 # 2 ^ 53) with (1 # 9007199254740992) in *.
    split; lra. }
  rewrite Hcl. lia.
Qed.
End timedelta.
