(* ===== verification/Md5.v ===== *)
(** * MD5

    [hashlib.md5(text).hexdigest()] (and PostgreSQL's [md5(text)]) on ASCII text:
    the reclaim jitter of [src/taskq/retry.py] hashes a row's identity with it.
    Words are 32-bit integers kept in range by [mask32]. *)

From Stdlib Require Import ZArith Lia Ascii.
From stdpp Require Import base list strings.
From S2P Require Import Prelude PyText.

Definition mask32 (z : Z) : Z := z mod 2 ^ 32.

Definition rotl32 (x s : Z) : Z := mask32 (Z.lor (Z.shiftl x s) (Z.shiftr x (32 - s))).

Definition not32 (x : Z) : Z := 2 ^ 32 - 1 - x.

(** [floor(2^32 * abs(sin(i + 1)))], and the per-round shift amounts. *)
Definition md5_K : list Z :=
  [3614090360; 3905402710; 606105819; 3250441966; 4118548399; 1200080426;
   2821735955; 4249261313; 1770035416; 2336552879; 4294925233; 2304563134;
   1804603682; 4254626195; 2792965006; 1236535329; 4129170786; 3225465664;
   643717713; 3921069994; 3593408605; 38016083; 3634488961; 3889429448;
   568446438; 3275163606; 4107603335; 1163531501; 2850285829; 4243563512;
   1735328473; 2368359562; 4294588738; 2272392833; 1839030562; 4259657740;
   2763975236; 1272893353; 4139469664; 3200236656; 681279174; 3936430074;
   3572445317; 76029189; 3654602809; 3873151461; 530742520; 3299628645;
   4096336452; 1126891415; 2878612391; 4237533241; 1700485571; 2399980690;
   4293915773; 2240044497; 1873313359; 4264355552; 2734768916; 1309151649;
   4149444226; 3174756917; 718787259; 3951481745].

Definition md5_S : list Z :=
  [7; 12; 17; 22; 7; 12; 17; 22; 7; 12; 17; 22; 7; 12; 17; 22;
   5; 9; 14; 20; 5; 9; 14; 20; 5; 9; 14; 20; 5; 9; 14; 20;
   4; 11; 16; 23; 4; 11; 16; 23; 4; 11; 16; 23; 4; 11; 16; 23;
   6; 10; 15; 21; 6; 10; 15; 21; 6; 10; 15; 21; 6; 10; 15; 21].

Definition md5_state : Type := Z * Z * Z * Z.

(** One of the 64 operations on a block of sixteen words. *)
Definition md5_op (M : list Z) (st : md5_state) (i : nat) : md5_state :=
  let '(a, b, c, d) := st in
  let '(f, g) :=
    if Nat.ltb i 16 then (Z.lor (Z.land b c) (Z.land (not32 b) d), i)
    else if Nat.ltb i 32 then (Z.lor (Z.land d b) (Z.land (not32 d) c), ((5 * i + 1) mod 16)%nat)
    else if Nat.ltb i 48 then (Z.lxor b (Z.lxor c d), ((3 * i + 5) mod 16)%nat)
    else (Z.lxor c (Z.lor b (not32 d)), ((7 * i) mod 16)%nat) in
  let f := mask32 (f + a + default 0 (md5_K !! i) + default 0 (M !! g)) in
  (d, mask32 (b + rotl32 f (default 0 (md5_S !! i))), b, c).

Definition md5_block (st : md5_state) (M : list Z) : md5_state :=
  let '(a, b, c, d) := st in
  let '(a', b', c', d') := fold_left (md5_op M) (seq 0 64) st in
  (mask32 (a + a'), mask32 (b + b'), mask32 (c + c'), mask32 (d + d')).

(** Little-endian bytes of a number, and of a list of bytes its words. *)
Fixpoint le_bytes (n : nat) (z : Z) : list Z :=
  match n with
  | O => []
  | S n' => z mod 256 :: le_bytes n' (z / 256)
  end.

Fixpoint le_words (bs : list Z) : list Z :=
  match bs with
  | b0 :: b1 :: b2 :: b3 :: bs' => b0 + 256 * (b1 + 256 * (b2 + 256 * b3)) :: le_words bs'
  | _ => []
  end.

(** The message, a one bit, zeros to 56 modulo 64, and the bit length. *)
Definition md5_pad (bs : list Z) : list Z :=
  let n := Z.of_nat (length bs) in
  bs ++ [128] ++ repeat 0 (Z.to_nat ((55 - n) mod 64)) ++ le_bytes 8 (8 * n).

(** The blocks of sixteen words; one block per 64 padded bytes. *)
Fixpoint md5_blocks (fuel : nat) (ws : list Z) (st : md5_state) : md5_state :=
  match fuel with
  | O => st
  | S fuel' => md5_blocks fuel' (drop 16 ws) (md5_block st (take 16 ws))
  end.

Definition md5_init : md5_state := (1732584193, 4023233417, 2562383102, 271733878).

Definition ascii_byte (c : ascii) : Z := Z.of_nat (Ascii.nat_of_ascii c).

Definition md5_hexdigest (s : text) : text :=
  let p := md5_pad (map ascii_byte s) in
  let ws := le_words p in
  let '(a, b, c, d) := md5_blocks (length ws / 16) ws md5_init in
  concat (map (fixed 16 2) (le_bytes 4 a ++ le_bytes 4 b ++ le_bytes 4 c ++ le_bytes 4 d)).

Example md5_empty : md5_hexdigest [] = txt "d41d8cd98f00b204e9800998ecf8427e".
Proof. vm_compute. reflexivity. Qed.

Example md5_abc : md5_hexdigest (txt "abc") = txt "900150983cd24fb0d6963f7d28e17f72".
Proof. vm_compute. reflexivity. Qed.

Example md5_alpha :
  md5_hexdigest (txt "ABCDEFGHIJKLMNOPQRSTUVWXYZabcdefghijklmnopqrstuvwxyz0123456789")
  = txt "d174ab98d277d9f5a5611c2c9f419d9f".
Proof. vm_compute. reflexivity. Qed.

Lemma concat_hex_bytes (bs : list Z) :
  Forall (fun c => is_lower_hex c = true) (concat (map (fixed 16 2) bs)) /\
  length (concat (map (fixed 16 2) bs)) = (2 * length bs)%nat.
Proof.
  induction bs as [|b bs [IH1 IH2]]; [split; [constructor|done]|].
  change (concat (map (fixed 16 2) (b :: bs))) with (fixed 16 2 b ++ concat (map (fixed 16 2) bs)).
  rewrite length_app, fixed_length, IH2. split; [|simpl; lia].
  apply Forall_app; split; [apply fixed_hex; unfold base_ok; lia|done].
Qed.

Lemma md5_hexdigest_hex s :
  Forall (fun c => is_lower_hex c = true) (md5_hexdigest s) /\ length (md5_hexdigest s) = 32%nat.
Proof.
  unfold md5_hexdigest. destruct (md5_blocks _ _ _) as [[[a b] c] d].
  destruct (concat_hex_bytes (le_bytes 4 a ++ le_bytes 4 b ++ le_bytes 4 c ++ le_bytes 4 d))
    as [H1 H2]. split; [exact H1|]. rewrite H2. rewrite !length_app. reflexivity.
Qed.
