(* ===== verification/Retry.v ===== *)
(** * Retry policy, backoff curve and failure classification

    Models [src/taskq/retry.py] and the reclaim-delay SQL fragments of
    [src/taskq/backend/_sweeps.py].  Delays are timedeltas (integer microseconds);
    seconds are floats over an abstract [Rounding].  The random draw of
    [random.random()] is an explicit argument [u].  An exception is what the
    classifiers observe of it: its class name, the classes it is an instance of,
    and the duck-typed HTTP attributes. *)

From Stdlib Require Import ZArith Lia QArith Qround Qabs Lqa Ascii Btauto.
From stdpp Require Import base tactics list strings.
From S2P Require Import Prelude PyText PyFloat Md5.

Open Scope Z_scope.

(** ** Constants *)

Definition td_seconds (n : Z) : Z := n * usec_per_sec.

Definition MIN_DEFERRAL_INTERVAL : Z := td_seconds 1.
Definition DEFAULT_MAX_RETRY_BACKOFF : Z := td_seconds (24 * 3600).
Definition SMALLINT_MAX : Z := 32767.
Definition MAX_ENQUEUABLE_MAX_ATTEMPTS : Z := SMALLINT_MAX - 1.
Definition MAX_BACKOFF_EXPONENT : Z := 67.
(** [timedelta.max]: 999999999 days, 23:59:59.999999. *)
Definition td_max : Z := 1000000000 * 86400 * usec_per_sec - 1.

(** ** Policies *)

Inductive RetryKind := transient | indefinite | non_retryable.
Inductive Backoff := exponential | linear | fixed_backoff.

#[export] Instance RetryKind_eq_dec : EqDecision RetryKind.
Proof. solve_decision. Defined.

Record RetryPolicy := {
  kind : RetryKind;
  max_attempts : Z;
  time_budget : option Z;
  backoff : Backoff;
  base : Z;
  cap : Z;
  jitter : Q
}.

Inductive retry_err :=
| ValueErr          (* ValueError *)
| ValidationErr     (* pydantic.ValidationError from a constructor *)
| CarveOut.         (* KeyboardInterrupt / CancelledError propagated raw *)

Definition check_max_attempts_domain (v : Z) : bool :=
  (1 <=? v) && (v <=? MAX_ENQUEUABLE_MAX_ATTEMPTS).

Definition jitter_ok (j : Q) : bool := Qle_bool 0 j && Qle_bool j 1.

(** The validators of the model, all of which must pass. *)
Definition policy_valid (p : RetryPolicy) : bool :=
  check_max_attempts_domain (max_attempts p) && (0 <? base p) && (base p <=? cap p) &&
  jitter_ok (jitter p).

Definition mk_RetryPolicy (p : RetryPolicy) : result retry_err RetryPolicy :=
  if policy_valid p then Ok p else Err ValidationErr.

(** ** The backoff curve *)

Section curve.
Context `{Rounding}.

Definition raw_backoff_seconds (base_s cap_s : Q) (b : Backoff) (attempt : Z) : Q :=
  match b with
  | exponential =>
      fmin cap_s (fmul base_s (pow2 (Z.min (Z.max (attempt - 1) 0) MAX_BACKOFF_EXPONENT)))
  | linear => fmin cap_s (fmul base_s (fint attempt))
  | fixed_backoff => base_s
  end.

(** [random.uniform(a, b)] is [a + (b - a) * random()]. *)
Definition uniform (a b u : Q) : Q := fadd a (fmul (fsub b a) u).

Definition jittered_seconds (raw_s j u : Q) : Q :=
  fmax 0 (fmul raw_s (uniform (fsub 1 j) (fadd 1 j) u)).

Definition capped_jitter_band (raw_s cap_s j : Q) : Q * Q :=
  let capped_raw := fmin cap_s raw_s in
  let lower := fmul capped_raw (fsub 1 j) in
  let upper := fmin (fmul capped_raw (fadd 1 j)) cap_s in
  (lower, upper).

Definition draw_in_band (lower upper fraction cap_s : Q) : Q :=
  fmin cap_s (fadd lower (fmul (fsub upper lower) fraction)).

Definition apply_jitter (delay : Z) (j u : Q) : result retry_err Z :=
  if jitter_ok j then Ok (td_of_seconds (jittered_seconds (total_seconds delay) j u))
  else Err ValueErr.

Definition compute_backoff (policy : RetryPolicy) (attempt : Z) (u : Q) (max_retry_backoff : Z)
  : result retry_err Z :=
  if attempt <? 1 then Err ValueErr
  else
    let base_s := total_seconds (base policy) in
    let cap_s := fmin (total_seconds (cap policy)) (total_seconds max_retry_backoff) in
    let raw := raw_backoff_seconds base_s cap_s (backoff policy) attempt in
    let '(lower, upper) := capped_jitter_band raw cap_s (jitter policy) in
    Ok (td_of_seconds (draw_in_band lower upper u cap_s)).

(** ** The deterministic reclaim delay *)

Definition RECLAIM_JITTER_MODULUS : Q := 4294967296.

(** [md5('<job_id>:<attempt>')], first eight hex digits over 2^32. *)
Definition reclaim_jitter_fraction (job_id attempt : Z) : Q :=
  let digest := md5_hexdigest (uuid_str job_id ++ ":"%char :: py_str_int attempt) in
  fdiv (fint (default 0 (py_int 16 (take 8 digest)))) RECLAIM_JITTER_MODULUS.

(** The seconds [_compute_reclaim_backoff] turns into a timedelta. *)
Definition reclaim_backoff_seconds (policy : RetryPolicy) (attempt job_id max_retry_backoff : Z) : Q :=
  let fraction := reclaim_jitter_fraction job_id attempt in
  let base_s := total_seconds (base policy) in
  let cap_s := fmin (total_seconds (cap policy)) (total_seconds max_retry_backoff) in
  let raw := raw_backoff_seconds base_s cap_s (backoff policy) attempt in
  let '(lower, upper) := capped_jitter_band raw cap_s (jitter policy) in
  fmax (draw_in_band lower upper fraction cap_s) (total_seconds MIN_DEFERRAL_INTERVAL).

Definition compute_reclaim_backoff (policy : RetryPolicy) (attempt job_id max_retry_backoff : Z) : Z :=
  td_of_seconds (reclaim_backoff_seconds policy attempt job_id max_retry_backoff).

(** *** The SQL twin

    The fragments of [_sweeps.py] over the row's stamped columns, in float8. *)

Record reclaim_row := {
  j_id : Z;
  j_attempt : Z;
  j_retry_base_seconds : Q;
  j_retry_cap_seconds : Q;
  j_retry_backoff : Backoff;
  j_retry_jitter : Q
}.

(** [LEAST] and [GREATEST] of two non-NULL float8 values. *)
Definition LEAST (a b : Q) : Q := if Qle_bool a b then a else b.
Definition GREATEST (a b : Q) : Q := if Qle_bool b a then a else b.

Definition RECLAIM_EFFECTIVE_CAP_SQL (j : reclaim_row) (max_backoff_seconds : Q) : Q :=
  LEAST (j_retry_cap_seconds j) max_backoff_seconds.

Definition RECLAIM_RAW_BACKOFF_SQL (j : reclaim_row) (mbs : Q) : Q :=
  match j_retry_backoff j with
  | exponential =>
      LEAST (RECLAIM_EFFECTIVE_CAP_SQL j mbs)
        (fmul (j_retry_base_seconds j) (pow2 (Z.min (Z.max (j_attempt j - 1) 0) 67)))
  | linear =>
      LEAST (RECLAIM_EFFECTIVE_CAP_SQL j mbs) (fmul (j_retry_base_seconds j) (fint (j_attempt j)))
  | fixed_backoff => j_retry_base_seconds j
  end.

(** [('x' || substr(md5(id::text || ':' || attempt::text), 1, 8))::bit(32)::bigint::float8 / 2^32]. *)
Definition RECLAIM_JITTER_FRACTION_SQL (j : reclaim_row) : Q :=
  let digest := md5_hexdigest (uuid_str (j_id j) ++ [":"%char] ++ py_str_int (j_attempt j)) in
  fdiv (fint (digits_value 16 0 (take 8 digest))) 4294967296.

Definition RECLAIM_CAPPED_RAW_SQL (j : reclaim_row) (mbs : Q) : Q :=
  LEAST (RECLAIM_EFFECTIVE_CAP_SQL j mbs) (RECLAIM_RAW_BACKOFF_SQL j mbs).

Definition RECLAIM_BAND_LOWER_SQL (j : reclaim_row) (mbs : Q) : Q :=
  fmul (RECLAIM_CAPPED_RAW_SQL j mbs) (fsub 1 (j_retry_jitter j)).

Definition RECLAIM_BAND_UPPER_SQL (j : reclaim_row) (mbs : Q) : Q :=
  LEAST (fmul (RECLAIM_CAPPED_RAW_SQL j mbs) (fadd 1 (j_retry_jitter j)))
        (RECLAIM_EFFECTIVE_CAP_SQL j mbs).

Definition RECLAIM_DELAY_SQL (j : reclaim_row) (mbs : Q) : Q :=
  GREATEST
    (LEAST (RECLAIM_EFFECTIVE_CAP_SQL j mbs)
       (fadd (RECLAIM_BAND_LOWER_SQL j mbs)
          (fmul (fsub (RECLAIM_BAND_UPPER_SQL j mbs) (RECLAIM_BAND_LOWER_SQL j mbs))
                (RECLAIM_JITTER_FRACTION_SQL j))))
    (total_seconds MIN_DEFERRAL_INTERVAL).
End curve.

(** ** Exceptions as the classifiers see them *)

(** The exception classes the module tests with [isinstance], and user classes. *)
Inductive exc_class :=
| C_PayloadValidationError | C_ResultTooLarge | C_UnencodableValue | C_ValidationError
| C_ReservationUnavailable | C_ConnectionError | C_TimeoutError
| C_User (name : string).

#[export] Instance exc_class_eq_dec : EqDecision exc_class.
Proof. solve_decision. Defined.

(** Reading [type(e).__name__]: a string, a non-string whose [str()] may fail, or
    a raising metaclass. *)
Inductive type_name :=
| NameStr (s : text)
| NameOther (str_result : option text)
| NameRaises.

(** A duck-typed attribute: absent (or None), an [int], or anything else. *)
Inductive attr := AAbsent | AInt (z : Z) | AOther.

(** A header value: a [str] or anything else. *)
Inductive hval := HStr (s : text) | HOther.

(** A header container: its [.get] and [.items], where callable. *)
Record headers := {
  h_get : option (text -> hval);
  h_items : option (list (hval * hval))
}.

Record response := {
  r_status_code : attr;
  r_status : attr;
  r_headers : option headers
}.

Record exc := {
  e_name : type_name;
  e_mro : list exc_class;
  e_source : string;         (* ReservationUnavailable.source *)
  e_response : option response;
  e_status_code : attr;
  e_status : attr;
  e_headers : option headers
}.

Definition isinstance (e : exc) (cs : list exc_class) : bool :=
  existsb (fun c => bool_decide (c ∈ e_mro e)) cs.

(** Names are ASCII here, on which [sanitize_surrogates] is the identity. *)
Definition safe_type_name (e : exc) : text :=
  match e_name e with
  | NameStr s => s
  | NameOther (Some s) => s
  | NameOther None | NameRaises => txt "<exception type name failed>"
  end.

(** ** Overrides and classifier hooks *)

(** The fields of a returned object, which a [model_construct] can make anything. *)
Inductive kind_field := KindNone | KindOk (k : RetryKind) | KindStr | KindOther.
Inductive delay_field := DelayNone | DelayTd (d : Z) | DelayOther.

(** What a hook returned: [None], a [RetryOverride], or another object. *)
Inductive hook_value := RetNone | RetOverride (k : kind_field) (d : delay_field) | RetOther.

(** What a hook did: return, or raise; [KeyboardInterrupt] and [CancelledError]
    are the carve-out. *)
Inductive hook_outcome := Returns (v : hook_value) | Raises (carve_out : bool).

Definition hook := exc -> Z -> hook_outcome.

Inductive shape_error := NotAnOverride | BadDelay | BadKind.

Definition override_shape_error (v : hook_value) : option shape_error :=
  match v with
  | RetNone | RetOther => Some NotAnOverride
  | RetOverride k d =>
      match d with
      | DelayOther => Some BadDelay
      | _ => match k with
             | KindNone | KindOk _ => None
             | KindStr | KindOther => Some BadKind
             end
      end
  end.

Fixpoint compose_retry_classifiers (classifiers : list hook) : hook := fun e attempt =>
  match classifiers with
  | [] => Returns RetNone
  | h :: rest =>
      match h e attempt with
      | Raises true => Raises true
      | Raises false => compose_retry_classifiers rest e attempt
      | Returns RetNone => compose_retry_classifiers rest e attempt
      | Returns v =>
          match override_shape_error v with
          | Some _ => compose_retry_classifiers rest e attempt
          | None => Returns v
          end
      end
  end.

(** An override the decision path can use. *)
Record RetryOverride := { o_kind : option RetryKind; o_delay : option Z }.

Definition usable_override (v : hook_value) : option RetryOverride :=
  match v with
  | RetOverride k d =>
      match k, d with
      | KindNone, DelayNone => Some {| o_kind := None; o_delay := None |}
      | KindNone, DelayTd t => Some {| o_kind := None; o_delay := Some t |}
      | KindOk r, DelayNone => Some {| o_kind := Some r; o_delay := None |}
      | KindOk r, DelayTd t => Some {| o_kind := Some r; o_delay := Some t |}
      | _, _ => None
      end
  | _ => None
  end.

Definition ret_override (k : RetryKind) (d : option Z) : hook_value :=
  RetOverride (KindOk k) (match d with Some t => DelayTd t | None => DelayNone end).

(** ** HTTP hints *)

Definition first_int (a b : attr) : option Z :=
  match a with
  | AInt z => Some z
  | _ => match b with AInt z => Some z | _ => None end
  end.

Definition extract_http_status (e : exc) : option Z :=
  match match e_response e with
        | Some r => first_int (r_status_code r) (r_status r)
        | None => None
        end with
  | Some z => Some z
  | None => first_int (e_status_code e) (e_status e)
  end.

Definition lower_char (c : ascii) : ascii :=
  let n := Ascii.nat_of_ascii c in
  if Nat.leb 65 n && Nat.leb n 90 then Ascii.ascii_of_nat (n + 32) else c.
Definition py_lower (s : text) : text := map lower_char s.

(** A value that is not a non-empty string reads as absent. *)
Definition nonempty_str (v : hval) : option text :=
  match v with HStr (c :: s) => Some (c :: s) | _ => None end.

Fixpoint scan_items (items : list (hval * hval)) (lowered : text) : option text :=
  match items with
  | [] => None
  | (HStr key, v) :: rest =>
      match bool_decide (py_lower key = lowered), nonempty_str v with
      | true, Some s => Some s
      | _, _ => scan_items rest lowered
      end
  | (HOther, _) :: rest => scan_items rest lowered
  end.

Definition header_lookup (h : headers) (name : text) : option text :=
  match match h_get h with Some g => nonempty_str (g name) | None => None end with
  | Some s => Some s
  | None => match h_items h with
            | Some items => scan_items items (py_lower name)
            | None => None
            end
  end.

Definition RETRY_AFTER_HEADERS : list text := [txt "retry-after"; txt "x-retry-after"].

Fixpoint first_header (h : headers) (names : list text) : option text :=
  match names with
  | [] => None
  | n :: rest => match header_lookup h n with Some s => Some s | None => first_header h rest end
  end.

Definition extract_retry_after_header (e : exc) : option text :=
  match match e_response e with
        | Some r => match r_headers r with
                    | Some h => first_header h RETRY_AFTER_HEADERS
                    | None => None
                    end
        | None => None
        end with
  | Some s => Some s
  | None => match e_headers e with
            | Some h => first_header h RETRY_AFTER_HEADERS
            | None => None
            end
  end.

Definition is_digit (c : ascii) : bool :=
  match digit_val c with Some d => d <? 10 | None => false end.

(** [[0-9]+(?:\.[0-9]+)?] over the whole text: the digits before and after the dot. *)
Definition match_seconds (s : text) : option (text * text) :=
  match py_split "."%char 1 s with
  | [w] => if negb (bool_decide (w = [])) && forallb is_digit w then Some (w, []) else None
  | [w; f] => if negb (bool_decide (w = [])) && forallb is_digit w &&
                 negb (bool_decide (f = [])) && forallb is_digit f
              then Some (w, f) else None
  | _ => None
  end.

Section http_hint.
Context `{Rounding}.
(** [email.utils.parsedate_to_datetime] as a UTC instant in microseconds (a naive
    result read as UTC), [None] when it raises. *)
Variable parsedate : text -> option Z.

(** [float(text)]: the decimal value, correctly rounded. *)
Definition float_of_seconds (w f : text) : Q :=
  rnd (inject_Z (digits_value 10 0 (w ++ f)) / inject_Z (10 ^ Z.of_nat (length f))).

Definition parse_retry_after (value : text) (now : Z) : option Z :=
  let s := strip_by is_space value in
  if bool_decide (s = []) then None
  else
    match match match_seconds s with
          | Some (w, f) => Some (Z.min (td_of_seconds (float_of_seconds w f)) td_max)
          | None => match parsedate s with
                    | Some when => Some (Z.min (when - now) td_max)
                    | None => None
                    end
          end with
    | Some delay => if delay <=? 0 then None else Some delay
    | None => None
    end.

Definition rate_limit_claim (claim_kind : option RetryKind) (now : Z) (e : exc) : hook_value :=
  match claim_kind with
  | None => RetNone
  | Some k =>
      if isinstance e [C_ReservationUnavailable] then
        (if String.eqb (e_source e) "rate_limit" then ret_override k None else RetNone)
      else if negb (bool_decide (extract_http_status e = Some 429)) &&
              negb (bool_decide (safe_type_name e = txt "RateLimitError"))
      then RetNone
      else
        match extract_retry_after_header e with
        | Some header =>
            match parse_retry_after header now with
            | Some delay => ret_override k (Some delay)
            | None => ret_override k None
            end
        | None => ret_override k None
        end
  end.

(** [make_rate_limit_aware_classifier]; a [non_retryable] claim is the [ValueError]. *)
Definition make_rate_limit_aware_classifier (claim_kind : option RetryKind) (now : Z)
  : result retry_err hook :=
  match claim_kind with
  | Some non_retryable => Err ValueErr
  | _ => Ok (fun e _ => Returns (rate_limit_claim claim_kind now e))
  end.

Definition rate_limit_aware_classifier (now : Z) : hook :=
  fun e _ => Returns (rate_limit_claim (Some indefinite) now e).
End http_hint.

(** ** The failure taxonomy *)

Definition in_range (lo hi z : Z) : bool := (lo <=? z) && (z <? hi).

Definition DEFAULT_TRANSIENT_STATUSES (z : Z) : bool :=
  (z =? 408) || (z =? 425) || in_range 500 600 z.

Definition DEFAULT_NON_RETRYABLE_STATUSES (z : Z) : bool :=
  in_range 400 500 z && negb (existsb (Z.eqb z) [408; 425; 429]).

Definition DEFAULT_TRANSIENT_EXCEPTION_NAMES : list text :=
  map txt ["Timeout"; "TimeoutError"; "ConnectError"; "ConnectTimeout"; "ReadTimeout";
           "WriteTimeout"; "PoolTimeout"; "ServerTimeoutError"; "ReadTimeoutError";
           "ConnectTimeoutError"; "ConnectionError"; "ConnectionResetError";
           "ConnectionRefusedError"; "ConnectionAbortedError"]%string.

Definition ends_with (suffix s : text) : bool := starts_with (rev suffix) (rev s).

Definition failure_taxonomy_classifier
    (transient_status non_retryable_status : option (Z -> bool))
    (include_names exclude_names : option (list text)) (infer_timeout_by_suffix : bool) : hook :=
  let tr := default DEFAULT_TRANSIENT_STATUSES transient_status in
  let nr := default DEFAULT_NON_RETRYABLE_STATUSES non_retryable_status in
  let include := default DEFAULT_TRANSIENT_EXCEPTION_NAMES include_names in
  let exclude := default [] exclude_names in
  fun e _ =>
    let name := safe_type_name e in
    if bool_decide (name ∈ exclude) then Returns RetNone
    else
      let status := extract_http_status e in
      if isinstance e [C_ConnectionError; C_TimeoutError] || bool_decide (name ∈ include) ||
         (infer_timeout_by_suffix && (ends_with (txt "Timeout") name || ends_with (txt "TimeoutError") name)) ||
         match status with Some z => tr z | None => false end
      then Returns (ret_override transient None)
      else if match status with Some z => nr z | None => false end
      then Returns (ret_override non_retryable None)
      else Returns RetNone.

(** ** The decision *)

Inductive RetryDecision :=
| Retry (retry_delay : Z)
| Fail (error_class : text) (retryable : bool).

Section decision.
Context `{Rounding}.

Definition retry_decision (policy : RetryPolicy) (attempt : Z) (u : Q) (max_retry_backoff : Z)
    (override_delay : option Z) : result retry_err RetryDecision :=
  let* delay :=
    match override_delay with
    | Some d =>
        let cap_s := total_seconds max_retry_backoff in
        Ok (td_of_seconds (fmin (total_seconds d) cap_s))
    | None => compute_backoff policy attempt u max_retry_backoff
    end in
  Ok (Retry (Z.max delay MIN_DEFERRAL_INTERVAL)).

Definition classify (policy : RetryPolicy) (non_retryable_exceptions : list exc_class) (e : exc)
    (attempt : Z) (u : Q) (max_retry_backoff : Z) (override : option RetryOverride)
  : result retry_err RetryDecision :=
  if isinstance e non_retryable_exceptions then Ok (Fail (safe_type_name e) false)
  else if isinstance e [C_PayloadValidationError] then Ok (Fail (txt "PayloadValidationError") false)
  else if isinstance e [C_ResultTooLarge] then Ok (Fail (txt "ResultTooLarge") false)
  else if isinstance e [C_UnencodableValue] then Ok (Fail (txt "UnencodableValue") false)
  else if isinstance e [C_ValidationError] then Ok (Fail (txt "PayloadValidationError") false)
  else
    let effective_kind := match override with
                          | Some o => default (kind policy) (o_kind o)
                          | None => kind policy
                          end in
    let override_delay := match override with Some o => o_delay o | None => None end in
    match effective_kind with
    | non_retryable => Ok (Fail (safe_type_name e) false)
    | transient =>
        if attempt <? max_attempts policy
        then retry_decision policy attempt u max_retry_backoff override_delay
        else Ok (Fail (safe_type_name e) false)
    | indefinite => retry_decision policy attempt u max_retry_backoff override_delay
    end.

Definition time_budget_as_interval (p : RetryPolicy) : option Z :=
  match kind p, time_budget p with
  | indefinite, Some b => Some b
  | _, _ => None
  end.

Record JobRetryState := {
  js_attempt : Z;
  js_max_attempts : Z;
  js_retry_kind : RetryKind
}.

Record ActorConfig := {
  ac_retry : RetryPolicy;
  ac_non_retryable_exceptions : list exc_class;
  ac_retry_classifier : option hook
}.

(** Row-stored kind and ceiling are authoritative; the rest is the registration's. *)
Definition reconstructed_args (registered : RetryPolicy) (js : JobRetryState) : RetryPolicy :=
  {| kind := js_retry_kind js;
     max_attempts := Z.min (js_max_attempts js) MAX_ENQUEUABLE_MAX_ATTEMPTS;
     time_budget := time_budget registered;
     backoff := backoff registered;
     base := base registered;
     cap := cap registered;
     jitter := jitter registered |}.

Definition no_drift (registered : RetryPolicy) (js : JobRetryState) : bool :=
  bool_decide (js_retry_kind js = kind registered) &&
  (js_max_attempts js =? max_attempts registered) && (base registered <=? cap registered).

Definition unconditional_fail : list exc_class :=
  [C_PayloadValidationError; C_ValidationError; C_ResultTooLarge; C_UnencodableValue].

(** The guarded hook call: [Err CarveOut] propagates, every other defect is no override. *)
Definition guarded_override (ac : ActorConfig) (e : exc) (attempt : Z)
  : result retry_err (option RetryOverride) :=
  match ac_retry_classifier ac with
  | None => Ok None
  | Some h =>
      if isinstance e (ac_non_retryable_exceptions ac ++ unconditional_fail) then Ok None
      else match h e attempt with
           | Raises true => Err CarveOut
           | Raises false => Ok None
           | Returns RetNone => Ok None
           | Returns v => match override_shape_error v with
                          | Some _ => Ok None
                          | None => Ok (usable_override v)
                          end
           end
  end.

Definition decide_after_failure (ac : ActorConfig) (e : exc) (js : JobRetryState) (u : Q)
    (max_retry_backoff : Z) : result retry_err RetryDecision :=
  let registered := ac_retry ac in
  let* policy := (if no_drift registered js then Ok registered
                  else mk_RetryPolicy (reconstructed_args registered js)) in
  let* override := guarded_override ac e (js_attempt js) in
  classify policy (ac_non_retryable_exceptions ac) e (js_attempt js) u max_retry_backoff override.
End decision.

(** * Properties *)

Section curve_facts.
Context `{Rounding}.
Open Scope Q_scope.

(** A value that is already a float. *)
Definition is_float (x : Q) : Prop := rnd x == x.

Lemma total_seconds_float td : is_float (total_seconds td).
Proof. apply rnd_idem. Qed.

Lemma fmin_float a b : is_float a -> is_float b -> is_float (fmin a b).
Proof. intros. destruct (fmin_cases a b) as [[-> _]|[-> _]]; done. Qed.

Lemma rnd_le_float x y : is_float y -> x <= y -> rnd x <= y.
Proof. intros Hy Hxy. apply rnd_mono in Hxy. unfold is_float in Hy. lra. Qed.

Lemma rnd_ge_float x y : is_float x -> x <= y -> x <= rnd y.
Proof. intros Hx Hxy. apply rnd_mono in Hxy. unfold is_float in Hx. lra. Qed.

Lemma raw_backoff_float base_s cap_s b n :
  is_float base_s -> is_float cap_s -> is_float (raw_backoff_seconds base_s cap_s b n).
Proof. intros Hb Hc. destruct b; simpl; [..|done]; apply fmin_float; auto; apply rnd_idem. Qed.

Lemma raw_backoff_nonneg base_s cap_s b n :
  0 <= base_s -> 0 <= cap_s -> (b = linear -> (0 <= n)%Z) ->
  0 <= raw_backoff_seconds base_s cap_s b n.
Proof.
  intros Hb Hc Hn. destruct b; simpl; [..|done].
  - destruct (fmin_cases cap_s (fmul base_s (pow2 (Z.min (Z.max (n - 1) 0) MAX_BACKOFF_EXPONENT))))
      as [[-> _]|[-> _]]; [|done].
    apply rnd_nonneg, Qmult_le_0_compat; [done|]. apply Qlt_le_weak, pow2_pos.
  - destruct (fmin_cases cap_s (fmul base_s (fint n))) as [[-> _]|[-> _]]; [|done].
    apply rnd_nonneg, Qmult_le_0_compat; [done|]. apply rnd_nonneg.
    change 0 with (inject_Z 0). rewrite <- Zle_Qle. auto.
Qed.

Lemma jitter_ok_bounds j : jitter_ok j = true -> 0 <= j /\ j <= 1.
Proof. unfold jitter_ok. rewrite andb_true_iff, !Qle_bool_iff. tauto. Qed.

(** The band lies inside [0, cap] and is not inverted. *)
Lemma band_bounds raw_s cap_s j :
  is_float raw_s -> is_float cap_s -> 0 <= raw_s -> 0 <= cap_s -> jitter_ok j = true ->
  let '(lower, upper) := capped_jitter_band raw_s cap_s j in
  0 <= lower /\ lower <= upper /\ upper <= cap_s /\ is_float lower /\ is_float upper.
Proof.
  intros Fr Fc Hr Hc [Hj0 Hj1]%jitter_ok_bounds. unfold capped_jitter_band.
  set (c := fmin cap_s raw_s).
  assert (Fcr : is_float c) by (by apply fmin_float).
  assert (Hc0 : 0 <= c /\ c <= cap_s)
    by (unfold c; destruct (fmin_cases cap_s raw_s) as [[-> ?]|[-> ?]]; split; lra).
  destruct Hc0 as [Hc0 Hc1].
  assert (Hs0 : 0 <= fsub 1 j) by (apply rnd_nonneg; lra).
  assert (Hs1 : fsub 1 j <= 1) by (apply rnd_le_float; [apply rnd_1|lra]).
  assert (Ha1 : 1 <= fadd 1 j) by (apply rnd_ge_float; [apply rnd_1|lra]).
  assert (Hl : fmul c (fsub 1 j) <= c) by (apply rnd_le_float; [done|nra]).
  assert (Hu : c <= fmul c (fadd 1 j)) by (apply rnd_ge_float; [done|nra]).
  assert (Hl0 : 0 <= fmul c (fsub 1 j)) by (apply rnd_nonneg; nra).
  split_and!; [done|..|apply rnd_idem|apply fmin_float; [apply rnd_idem|done]].
  all: destruct (fmin_cases (fmul c (fadd 1 j)) cap_s) as [[-> ?]|[-> ?]]; lra.
Qed.

(** A draw stays between the band's lower edge and the cap. *)
Lemma draw_bounds lower upper u cap_s :
  is_float lower -> lower <= upper -> upper <= cap_s -> 0 <= u ->
  lower <= draw_in_band lower upper u cap_s /\ draw_in_band lower upper u cap_s <= cap_s.
Proof.
  intros Fl Hlu Huc Hu. unfold draw_in_band.
  assert (lower <= fadd lower (fmul (fsub upper lower) u)).
  { apply rnd_ge_float; [done|].
    assert (0 <= fmul (fsub upper lower) u); [|lra].
    apply rnd_nonneg, Qmult_le_0_compat; [apply rnd_nonneg; lra|done]. }
  destruct (fmin_cases cap_s (fadd lower (fmul (fsub upper lower) u))) as [[-> ?]|[-> ?]]; lra.
Qed.

(** The effective ceiling of a policy. *)
Definition effective_cap_s (p : RetryPolicy) (mrb : Z) : Q :=
  fmin (total_seconds (cap p)) (total_seconds mrb).

Lemma effective_cap_total p mrb :
  effective_cap_s p mrb == total_seconds (Z.min (cap p) mrb).
Proof.
  unfold effective_cap_s.
  destruct (Z.le_ge_cases (cap p) mrb) as [Hle|Hge].
  - rewrite Z.min_l by done. pose proof (total_seconds_mono _ _ Hle).
    destruct (fmin_cases (total_seconds (cap p)) (total_seconds mrb)) as [[-> ?]|[-> ?]]; lra.
  - rewrite Z.min_r by done. pose proof (total_seconds_mono _ _ Hge).
    destruct (fmin_cases (total_seconds (cap p)) (total_seconds mrb)) as [[-> ?]|[-> ?]]; lra.
Qed.

#[global] Instance td_of_seconds_proper : Proper (Qeq ==> eq) td_of_seconds.
Proof.
  intros x y E.
  assert (Ht : Qtrunc x = Qtrunc y).
  { unfold Qtrunc. destruct x as [a b], y as [c d]. unfold Qeq in E. simpl in *.
    rewrite <- (Z.quot_mul_cancel_r a (Zpos b) (Zpos d)) by lia.
    rewrite E. rewrite (Z.mul_comm (Zpos b)). apply Z.quot_mul_cancel_r; lia. }
  unfold td_of_seconds, fmul. rewrite Ht. f_equal. apply rne_proper, rnd_proper.
  apply Qmult_comp; [lra|reflexivity].
Qed.

Lemma policy_valid_bounds p :
  policy_valid p = true ->
  (1 <= max_attempts p <= MAX_ENQUEUABLE_MAX_ATTEMPTS)%Z /\ (0 < base p)%Z /\
  (base p <= cap p)%Z /\ jitter_ok (jitter p) = true.
Proof. unfold policy_valid, check_max_attempts_domain. intros Hp. zbool. split_and!; done || lia. Qed.

(** The drawn seconds of a valid policy. *)
Lemma curve_draw_bounds p attempt u mrb :
  policy_valid p = true -> (0 <= mrb)%Z -> (0 <= attempt)%Z -> 0 <= u ->
  let cap_s := effective_cap_s p mrb in
  let '(lower, upper) :=
    capped_jitter_band (raw_backoff_seconds (total_seconds (base p)) cap_s (backoff p) attempt)
      cap_s (jitter p) in
  0 <= lower /\ lower <= draw_in_band lower upper u cap_s /\ draw_in_band lower upper u cap_s <= cap_s.
Proof.
  intros Hp Hm Ha Hu cap_s. apply policy_valid_bounds in Hp as (_ & Hb & Hbc & Hj).
  assert (Fc : is_float cap_s) by (apply fmin_float; apply total_seconds_float).
  assert (Hc : 0 <= cap_s).
  { unfold cap_s. rewrite effective_cap_total. apply total_seconds_nonneg. lia. }
  assert (Hb0 : 0 <= total_seconds (base p)) by (apply total_seconds_nonneg; lia).
  set (raw := raw_backoff_seconds _ _ _ _).
  assert (Fr : is_float raw) by (apply raw_backoff_float; [apply total_seconds_float|done]).
  assert (Hr : 0 <= raw) by (apply raw_backoff_nonneg; auto).
  pose proof (band_bounds raw cap_s (jitter p) Fr Fc Hr Hc Hj) as Hband.
  destruct (capped_jitter_band raw cap_s (jitter p)) as [lower upper].
  destruct Hband as (H0 & Hlu & Huc & Fl & _).
  destruct (draw_bounds lower upper u cap_s Fl Hlu Huc Hu). done.
Qed.
End curve_facts.

(** ** The computed backoff *)

(** The documented horizon of the float detour: 2^32 seconds. *)
Definition td_exact_horizon : Z := 2 ^ 32 * usec_per_sec.

Section backoff_claims.
Context `{Rounding}.

Lemma compute_backoff_range p attempt u mrb :
  policy_valid p = true -> 1 <= attempt -> (0 <= u)%Q -> 0 <= mrb ->
  Z.min (cap p) mrb < td_exact_horizon ->
  exists d, compute_backoff p attempt u mrb = Ok d /\ 0 <= d <= Z.min (cap p) mrb.
Proof.
  intros Hp Ha Hu Hm Hh. unfold compute_backoff.
  destruct (Z.ltb_spec attempt 1); [lia|].
  pose proof (curve_draw_bounds p attempt u mrb Hp Hm ltac:(lia) Hu) as Hb.
  fold (effective_cap_s p mrb). cbv zeta in Hb.
  destruct (capped_jitter_band _ _ _) as [lower upper]. destruct Hb as (Hl & Hd & Hc).
  eexists; split; [done|].
  apply policy_valid_bounds in Hp as (_ & Hb & Hbc & _).
  split; [apply td_of_seconds_nonneg; lra|].
  rewrite <- (td_roundtrip (Z.min (cap p) mrb)) by (unfold td_exact_horizon in *; lia).
  rewrite <- effective_cap_total.
  apply td_of_seconds_mono; lra.
Qed.

(** Backoff bounds.  For every policy the constructor accepts, every attempt,
    every random draw and every global ceiling, [compute_backoff] returns a delay
    (it does not raise), never negative and never above the lesser of the policy's
    cap and [max_retry_backoff], whatever rounding the float arithmetic uses. *)
Theorem compute_backoff_bounds p attempt u mrb :
  policy_valid p = true -> 1 <= attempt -> (0 <= u)%Q -> 0 <= mrb ->
  Z.min (cap p) mrb < td_exact_horizon ->
  exists d, compute_backoff p attempt u mrb = Ok d /\ 0 <= d <= Z.min (cap p) mrb.
Proof. apply compute_backoff_range. Qed.

(** *** The curve *)

Lemma fmin_mono_r a x y : (x <= y -> fmin a x <= fmin a y)%Q.
Proof.
  intros Hxy. destruct (fmin_cases a x) as [[-> ?]|[-> ?]], (fmin_cases a y) as [[-> ?]|[-> ?]]; lra.
Qed.

(** The unjittered curve never decreases from one attempt to the next, for each
    of the three backoff shapes. *)
Theorem raw_backoff_monotone base_s cap_s b m n :
  (0 <= base_s)%Q -> m <= n ->
  (raw_backoff_seconds base_s cap_s b m <= raw_backoff_seconds base_s cap_s b n)%Q.
Proof.
  intros Hb Hmn. destruct b; simpl; [| |lra].
  - apply fmin_mono_r, rnd_mono.
    apply Qmult_le_l_nonneg; [done|]. apply pow2_le. lia.
  - apply fmin_mono_r, rnd_mono. apply Qmult_le_l_nonneg; [done|].
    apply rnd_mono. by rewrite <- Zle_Qle.
Qed.

Lemma rnd_lower x : (0 <= x -> x * (1 - ulp53) <= rnd x)%Q.
Proof.
  intros Hx. pose proof (rnd_rel x) as Hr. rewrite (Qabs_pos x) in Hr by done.
  apply Qabs_Qle_condition in Hr as [Hr _]. lra.
Qed.

Lemma rnd_upper x : (0 <= x -> rnd x <= x * (1 + ulp53))%Q.
Proof.
  intros Hx. pose proof (rnd_rel x) as Hr. rewrite (Qabs_pos x) in Hr by done.
  apply Qabs_Qle_condition in Hr as [_ Hr]. lra.
Qed.

(** A microsecond doubled 67 times exceeds every representable cap. *)
Lemma exponent_saturates b c :
  1 <= b -> c <= td_max -> (total_seconds c <= fmul (total_seconds b) (pow2 67))%Q.
Proof.
  intros Hb Hc.
  pose proof (total_seconds_mono 1 b Hb) as H1. pose proof (total_seconds_mono c td_max Hc) as H2.
  pose proof (rnd_lower (inject_Z 1 / inject_Z usec_per_sec) ltac:(discriminate)) as H3.
  pose proof (rnd_upper (inject_Z td_max / inject_Z usec_per_sec) ltac:(discriminate)) as H4.
  change (rnd (inject_Z 1 / inject_Z usec_per_sec)) with (total_seconds 1) in H3.
  change (rnd (inject_Z td_max / inject_Z usec_per_sec)) with (total_seconds td_max) in H4.
  assert (H5 : (0 <= total_seconds b * pow2 67)%Q)
    by (apply Qmult_le_0_compat; [apply total_seconds_nonneg; lia|apply Qlt_le_weak, pow2_pos]).
  pose proof (rnd_lower _ H5) as H6. unfold fmul.
  assert (H7 : (total_seconds 1 * pow2 67 <= total_seconds b * pow2 67)%Q)
    by (apply Qmult_le_compat_r; [done|apply Qlt_le_weak, pow2_pos]).
  assert (H8 : (total_seconds 1 * pow2 67 * (1 - ulp53) <= total_seconds b * pow2 67 * (1 - ulp53))%Q)
    by (apply Qmult_le_compat_r; [done|discriminate]).
  assert (H9 : (inject_Z 1 / inject_Z usec_per_sec * (1 - ulp53) * (pow2 67 * (1 - ulp53))
                <= total_seconds 1 * (pow2 67 * (1 - ulp53)))%Q)
    by (apply Qmult_le_compat_r; [done|discriminate]).
  assert (H10 : (inject_Z td_max / inject_Z usec_per_sec * (1 + ulp53) <=
                 inject_Z 1 / inject_Z usec_per_sec * (1 - ulp53) * (pow2 67 * (1 - ulp53)))%Q)
    by (vm_compute; discriminate).
  rewrite <- Qmult_assoc in H8 at 1. lra.
Qed.

(** The exponent clamp is invisible.  For every timedelta-representable base
    (at least one microsecond) and cap, and every attempt however large, clamping
    the exponent at 67 gives the same curve value as the unclamped doubling. *)
Theorem exponent_clamp_invisible b c mrb n :
  1 <= b -> c <= td_max ->
  (raw_backoff_seconds (total_seconds b) (fmin (total_seconds c) (total_seconds mrb)) exponential n
   == fmin (fmin (total_seconds c) (total_seconds mrb))
           (fmul (total_seconds b) (pow2 (Z.max (n - 1) 0))))%Q.
Proof.
  intros Hb Hc. simpl. set (cap_s := fmin (total_seconds c) (total_seconds mrb)).
  destruct (Z.le_ge_cases (Z.max (n - 1) 0) MAX_BACKOFF_EXPONENT) as [Hle|Hge];
    [by rewrite Z.min_l|]. rewrite Z.min_r by done.
  assert (Hcap : (cap_s <= total_seconds c)%Q).
  { unfold cap_s. destruct (fmin_cases (total_seconds c) (total_seconds mrb)) as [[-> ?]|[-> ?]]; lra. }
  pose proof (exponent_saturates b c Hb Hc) as Hsat.
  assert (Hbig : (fmul (total_seconds b) (pow2 67) <= fmul (total_seconds b) (pow2 (Z.max (n - 1) 0)))%Q).
  { apply rnd_mono, Qmult_le_l_nonneg; [apply total_seconds_nonneg; lia|by apply pow2_le]. }
  unfold MAX_BACKOFF_EXPONENT.
  destruct (fmin_cases cap_s (fmul (total_seconds b) (pow2 67))) as [[-> ?]|[-> ?]],
    (fmin_cases cap_s (fmul (total_seconds b) (pow2 (Z.max (n - 1) 0)))) as [[-> ?]|[-> ?]]; lra.
Qed.
End backoff_claims.

(** ** The reclaim delay and its SQL twin *)

Section reclaim_claims.
Context `{Rounding}.

Lemma LEAST_fmin a b : LEAST a b = fmin a b.
Proof.
  unfold LEAST. destruct (fmin_cases a b) as [[-> Hlt]|[-> Hle]].
  - destruct (Qle_bool a b) eqn:E; [|done]. apply Qle_bool_iff in E. lra.
  - by rewrite (proj2 (Qle_bool_iff a b) Hle).
Qed.

Lemma GREATEST_fmax a b : GREATEST a b = fmax a b.
Proof.
  unfold GREATEST. destruct (fmax_cases a b) as [[-> Hlt]|[-> Hle]].
  - destruct (Qle_bool b a) eqn:E; [|done]. apply Qle_bool_iff in E. lra.
  - by rewrite (proj2 (Qle_bool_iff b a) Hle).
Qed.

(** The prefix of a digest, as [int(prefix, 16)] and as a bit string cast. *)
Lemma digest_prefix s :
  py_int 16 (take 8 (md5_hexdigest s)) = Some (digits_value 16 0 (take 8 (md5_hexdigest s))) /\
  0 <= digits_value 16 0 (take 8 (md5_hexdigest s)) < 2 ^ 32.
Proof.
  destruct (md5_hexdigest_hex s) as [Hx HL].
  set (w := take 8 (md5_hexdigest s)).
  assert (Hw : Forall (fun c => is_lower_hex c = true) w) by (by apply Forall_take).
  assert (Lw : length w = 8%nat) by (unfold w; rewrite length_take, HL; done).
  assert (Hd : Forall (digit_of 16) w) by (eapply Forall_impl; [exact Hw|apply lower_hex_digit]).
  split.
  - rewrite py_int_plain; [|done|rewrite count_digits_hex, Lw by done; unfold int_max_str_digits; lia].
    apply parse_digits_value; [done|]. right. by destruct w.
  - pose proof (digits_value_bound 16 0 w ltac:(lia) ltac:(lia) Hd) as Hb.
    rewrite Lw in Hb. simpl in Hb. lia.
Qed.

(** The two reclaim-delay implementations agree.  When a row carries the
    policy's own columns (as [float8] seconds), the SQL expression the leader's
    sweep and the heartbeat isolate evaluate is equal, operation for operation, to
    the seconds [_compute_reclaim_backoff] computes for the same job and attempt. *)
Theorem reclaim_sql_python_agree p attempt job_id mrb :
  let row := {| j_id := job_id; j_attempt := attempt;
                j_retry_base_seconds := total_seconds (base p);
                j_retry_cap_seconds := total_seconds (cap p);
                j_retry_backoff := backoff p; j_retry_jitter := jitter p |} in
  RECLAIM_DELAY_SQL row (total_seconds mrb) = reclaim_backoff_seconds p attempt job_id mrb.
Proof.
  intros row. unfold RECLAIM_DELAY_SQL, reclaim_backoff_seconds, RECLAIM_BAND_UPPER_SQL,
    RECLAIM_BAND_LOWER_SQL, RECLAIM_CAPPED_RAW_SQL, RECLAIM_RAW_BACKOFF_SQL,
    RECLAIM_EFFECTIVE_CAP_SQL, RECLAIM_JITTER_FRACTION_SQL, reclaim_jitter_fraction,
    capped_jitter_band, draw_in_band, raw_backoff_seconds, MAX_BACKOFF_EXPONENT.
  rewrite GREATEST_fmax, !LEAST_fmin. unfold row; cbn [j_id j_attempt j_retry_base_seconds
    j_retry_cap_seconds j_retry_backoff j_retry_jitter].
  rewrite (proj1 (digest_prefix _)). by destruct (backoff p).
Qed.

Lemma reclaim_fraction_range job_id attempt :
  (0 <= reclaim_jitter_fraction job_id attempt <= 1)%Q.
Proof.
  unfold reclaim_jitter_fraction, fdiv, fint.
  destruct (digest_prefix (uuid_str job_id ++ ":"%char :: py_str_int attempt)) as [-> Hb].
  set (v := digits_value _ _ _) in *. change (default 0 (Some v)) with v.
  rewrite (rnd_int v) by lia.
  assert (Hv : (0 <= inject_Z v /\ inject_Z v <= RECLAIM_JITTER_MODULUS)%Q).
  { split; [change 0%Q with (inject_Z 0)|change RECLAIM_JITTER_MODULUS with (inject_Z (2 ^ 32))];
      rewrite <- Zle_Qle; lia. }
  split.
  - apply rnd_nonneg. apply Qle_shift_div_l; [done|lra].
  - apply rnd_le_float; [apply rnd_1|]. apply Qle_shift_div_r; [done|lra].
Qed.

(** The reclaim delay is floored and capped.  For a policy the constructor
    accepts, the hand-back delay of any (job, attempt), attempt 0 included, is at
    least [MIN_DEFERRAL_INTERVAL] and at most the effective cap, unless the cap
    itself is below the floor. *)
Theorem reclaim_backoff_bounds p attempt job_id mrb :
  policy_valid p = true -> 0 <= attempt -> 0 <= mrb ->
  Z.min (cap p) mrb < td_exact_horizon ->
  MIN_DEFERRAL_INTERVAL <= compute_reclaim_backoff p attempt job_id mrb
    <= Z.max (Z.min (cap p) mrb) MIN_DEFERRAL_INTERVAL.
Proof.
  intros Hp Ha Hm Hh. unfold compute_reclaim_backoff, reclaim_backoff_seconds.
  pose proof (curve_draw_bounds p attempt _ mrb Hp Hm Ha (proj1 (reclaim_fraction_range job_id attempt)))
    as Hb. fold (effective_cap_s p mrb). cbv zeta in Hb.
  destruct (capped_jitter_band _ _ _) as [lower upper]. destruct Hb as (Hl & Hd & Hc).
  apply policy_valid_bounds in Hp as (_ & Hb & Hbc & _).
  assert (Hf : td_of_seconds (total_seconds MIN_DEFERRAL_INTERVAL) = MIN_DEFERRAL_INTERVAL)
    by (apply td_roundtrip; unfold MIN_DEFERRAL_INTERVAL, td_seconds, usec_per_sec; lia).
  assert (Hcap : td_of_seconds (effective_cap_s p mrb) = Z.min (cap p) mrb).
  { rewrite effective_cap_total. apply td_roundtrip. unfold td_exact_horizon in *. lia. }
  set (fl := total_seconds MIN_DEFERRAL_INTERVAL) in *.
  assert (Hfl : (0 <= fl)%Q) by (by apply total_seconds_nonneg).
  destruct (fmax_cases (draw_in_band lower upper (reclaim_jitter_fraction job_id attempt)
              (effective_cap_s p mrb)) fl) as [[-> Hlt]|[-> Hle]].
  - rewrite Hf. lia.
  - split.
    + rewrite <- Hf at 1. by apply td_of_seconds_mono.
    + etransitivity; [apply td_of_seconds_mono; [|exact Hc]; lra|]. rewrite Hcap. lia.
Qed.
End reclaim_claims.

(** ** Classification *)

(** The exceptions that fail unconditionally. *)
Definition fatal (nre : list exc_class) (e : exc) : bool :=
  isinstance e nre || isinstance e unconditional_fail.

Definition effective_kind (p : RetryPolicy) (o : option RetryOverride) : RetryKind :=
  match o with Some o => default (kind p) (o_kind o) | None => kind p end.

Definition override_delay_of (o : option RetryOverride) : option Z :=
  match o with Some o => o_delay o | None => None end.

Lemma fatal_cases nre e :
  fatal nre e = isinstance e nre || isinstance e [C_PayloadValidationError]
    || isinstance e [C_ResultTooLarge] || isinstance e [C_UnencodableValue]
    || isinstance e [C_ValidationError].
Proof. unfold fatal, unconditional_fail, isinstance. simpl. btauto. Qed.

Section classify_claims.
Context `{Rounding}.

(** [classify] as one decision table. *)
Lemma classify_table p nre e attempt u mrb o :
  classify p nre e attempt u mrb o =
  if fatal nre e then
    Ok (Fail (if isinstance e nre then safe_type_name e
              else if isinstance e [C_PayloadValidationError] then txt "PayloadValidationError"
              else if isinstance e [C_ResultTooLarge] then txt "ResultTooLarge"
              else if isinstance e [C_UnencodableValue] then txt "UnencodableValue"
              else txt "PayloadValidationError") false)
  else match effective_kind p o with
       | non_retryable => Ok (Fail (safe_type_name e) false)
       | transient => if attempt <? max_attempts p
                      then retry_decision p attempt u mrb (override_delay_of o)
                      else Ok (Fail (safe_type_name e) false)
       | indefinite => retry_decision p attempt u mrb (override_delay_of o)
       end.
Proof.
  unfold classify, effective_kind, override_delay_of. rewrite fatal_cases.
  destruct (isinstance e nre); [done|].
  destruct (isinstance e [C_PayloadValidationError]); [done|].
  destruct (isinstance e [C_ResultTooLarge]); [done|].
  destruct (isinstance e [C_UnencodableValue]); [done|].
  destruct (isinstance e [C_ValidationError]); [done|]. simpl.
  destruct o as [[[k|] d]|]; simpl; try destruct k; try destruct (kind p);
    by repeat case_match.
Qed.

Lemma rne_nonpos q : (q <= 0)%Q -> rne q <= 0.
Proof. intros Hq. rewrite <- (rne_inject 0). by apply rne_mono. Qed.

Lemma Qtrunc_nonpos q : (q <= 0)%Q -> Qtrunc q <= 0 /\ (q <= inject_Z (Qtrunc q))%Q.
Proof.
  destruct q as [n d]. unfold Qle, Qtrunc. simpl. intros Hn.
  pose proof (Z.quot_opp_l n (Zpos d) ltac:(lia)) as Ho.
  pose proof (Z.quot_pos (- n) (Zpos d) ltac:(lia) ltac:(lia)) as Hp.
  pose proof (Z.mul_quot_le (- n) (Zpos d) ltac:(lia) ltac:(lia)) as Hm.
  split; [lia|]. nia.
Qed.

Lemma td_of_seconds_nonpos f : (f <= 0)%Q -> td_of_seconds f <= 0.
Proof.
  intros Hf. destruct (Qtrunc_nonpos f Hf) as [Ht Hle]. unfold td_of_seconds.
  assert (rne (fmul (f - inject_Z (Qtrunc f)) (inject_Z usec_per_sec)) <= 0).
  { apply rne_nonpos. rewrite <- rnd_0. apply rnd_mono.
    assert (0 <= (inject_Z (Qtrunc f) - f) * inject_Z usec_per_sec)%Q; [|lra].
    apply Qmult_le_0_compat; [lra|discriminate]. }
  unfold usec_per_sec in *. lia.
Qed.

(** The override path: verbatim, clamped to the global ceiling. *)
Lemma override_delay_value d mrb :
  0 <= mrb < td_exact_horizon ->
  td_of_seconds (fmin (total_seconds d) (total_seconds mrb)) <= mrb /\
  (0 <= d <= mrb -> td_of_seconds (fmin (total_seconds d) (total_seconds mrb)) = d).
Proof.
  intros Hm.
  assert (Hr : td_of_seconds (total_seconds mrb) = mrb)
    by (apply td_roundtrip; unfold td_exact_horizon in *; lia).
  destruct (fmin_cases (total_seconds d) (total_seconds mrb)) as [[-> Hlt]|[-> Hle]].
  - split; [lia|]. intros Hd. pose proof (total_seconds_mono d mrb ltac:(lia)). lra.
  - split.
    + destruct (Qlt_le_dec (total_seconds d) 0).
      * etransitivity; [apply td_of_seconds_nonpos; lra|lia].
      * rewrite <- Hr. by apply td_of_seconds_mono.
    + intros Hd. apply td_roundtrip. unfold td_exact_horizon in *. lia.
Qed.

Lemma retry_decision_range p attempt u mrb od :
  policy_valid p = true -> 1 <= attempt -> (0 <= u)%Q -> 0 <= mrb < td_exact_horizon ->
  exists d, retry_decision p attempt u mrb od = Ok (Retry d) /\
    MIN_DEFERRAL_INTERVAL <= d <= Z.max MIN_DEFERRAL_INTERVAL mrb /\
    (forall t, od = Some t -> MIN_DEFERRAL_INTERVAL <= t <= mrb -> d = t).
Proof.
  intros Hp Ha Hu Hm. unfold retry_decision. destruct od as [t|].
  - simpl. eexists; split; [done|].
    destruct (override_delay_value t mrb Hm) as [H1 H2].
    split; [lia|]. intros t' [= <-] Ht.
    rewrite H2 by (unfold MIN_DEFERRAL_INTERVAL, td_seconds, usec_per_sec in *; lia). lia.
  - destruct (compute_backoff_range p attempt u mrb Hp Ha Hu ltac:(lia) ltac:(lia)) as (d & -> & Hd).
    simpl. eexists; split; [done|]. split; [lia|done].
Qed.

(** Every retry is scheduled inside the operator's bounds.  For a policy the
    constructor accepts, the classifier never raises; a retry's delay is never below
    [MIN_DEFERRAL_INTERVAL] (no zero-period retry loop) and never above
    [max_retry_backoff] (unless that is below the floor), whatever delay an override
    asked for, negative ones included; and an override delay within those bounds is
    honored exactly. *)
Theorem classify_retry_bounds p nre e attempt u mrb o :
  policy_valid p = true -> 1 <= attempt -> (0 <= u)%Q -> 0 <= mrb < td_exact_horizon ->
  exists dec, classify p nre e attempt u mrb o = Ok dec /\
    forall d, dec = Retry d ->
      MIN_DEFERRAL_INTERVAL <= d <= Z.max MIN_DEFERRAL_INTERVAL mrb /\
      (forall t, override_delay_of o = Some t -> MIN_DEFERRAL_INTERVAL <= t <= mrb -> d = t).
Proof.
  intros Hp Ha Hu Hm. rewrite classify_table.
  destruct (retry_decision_range p attempt u mrb (override_delay_of o) Hp Ha Hu Hm)
    as (d & Hd & Hb & Ht).
  repeat case_match; rewrite ?Hd; eexists; (split; [done|]); intros d' [=]; subst; auto.
Qed.

(** The retry budget.  A failure is retried exactly when no unconditional-fail
    class matches and the effective kind (the override's, else the policy's) is
    [indefinite], or is [transient] with the attempt below [max_attempts]; every
    other failure is terminal and non-retryable. *)
Theorem classify_retry_iff p nre e attempt u mrb o :
  policy_valid p = true -> 1 <= attempt -> (0 <= u)%Q -> 0 <= mrb < td_exact_horizon ->
  ((exists d, classify p nre e attempt u mrb o = Ok (Retry d)) <->
   fatal nre e = false /\
   (effective_kind p o = indefinite \/
    (effective_kind p o = transient /\ attempt < max_attempts p))) /\
  (forall c r, classify p nre e attempt u mrb o = Ok (Fail c r) -> r = false).
Proof.
  intros Hp Ha Hu Hm. rewrite classify_table.
  destruct (retry_decision_range p attempt u mrb (override_delay_of o) Hp Ha Hu Hm)
    as (d & Hd & _). rewrite Hd.
  destruct (fatal nre e); [split; [naive_solver|]; by intros c r [= _ <-]|].
  destruct (effective_kind p o); [destruct (Z.ltb_spec attempt (max_attempts p))|..];
    (split; [|by intros c r [= _ <-]]);
    (split; [intros [d' Hd']|intros [_ [?|[? ?]]]]); try done; try lia; eauto.
Qed.
End classify_claims.

(** ** Hooks and the whole decision *)

(** The override a hook outcome amounts to, when it amounts to one. *)
Definition hook_override (out : hook_outcome) : option RetryOverride :=
  match out with
  | Returns v => match override_shape_error v with Some _ => None | None => usable_override v end
  | Raises _ => None
  end.

Definition carve_out_raised (out : hook_outcome) : bool :=
  match out with Raises b => b | Returns _ => false end.

Definition with_hook (ac : ActorConfig) (h : option hook) : ActorConfig :=
  {| ac_retry := ac_retry ac;
     ac_non_retryable_exceptions := ac_non_retryable_exceptions ac;
     ac_retry_classifier := h |}.

Lemma isinstance_app e a b : isinstance e (a ++ b) = isinstance e a || isinstance e b.
Proof. unfold isinstance. by rewrite existsb_app. Qed.

Lemma guarded_override_table ac e attempt :
  guarded_override ac e attempt =
  match ac_retry_classifier ac with
  | None => Ok None
  | Some h => if fatal (ac_non_retryable_exceptions ac) e then Ok None
              else if carve_out_raised (h e attempt) then Err CarveOut
              else Ok (hook_override (h e attempt))
  end.
Proof.
  unfold guarded_override, fatal. destruct (ac_retry_classifier ac) as [h|]; [|done].
  rewrite isinstance_app. destruct (_ || _); [done|].
  destruct (h e attempt) as [[|k d|]|[|]]; simpl; try done.
  by destruct d, k.
Qed.

Lemma shape_ok_usable v : override_shape_error v = None -> is_Some (usable_override v).
Proof. destruct v as [|k d|]; simpl; try done. destruct d, k; simpl; eauto; done. Qed.

Lemma reconstructed_no_drift registered js :
  policy_valid registered = true -> no_drift registered js = true ->
  mk_RetryPolicy (reconstructed_args registered js) = Ok registered.
Proof.
  intros Hv Hn. unfold no_drift in Hn. rewrite !andb_true_iff, bool_decide_eq_true in Hn.
  destruct Hn as [[Hk Hn] Hb]. zbool.
  assert (Hm : Z.min (js_max_attempts js) MAX_ENQUEUABLE_MAX_ATTEMPTS = max_attempts registered).
  { unfold policy_valid, check_max_attempts_domain in Hv. zbool. lia. }
  assert (Hr : reconstructed_args registered js = registered).
  { destruct registered; unfold reconstructed_args; simpl in *. by rewrite Hm, Hk. }
  unfold mk_RetryPolicy. by rewrite Hr, Hv.
Qed.

Lemma reconstructed_valid registered js :
  policy_valid registered = true -> 1 <= js_max_attempts js ->
  policy_valid (reconstructed_args registered js) = true.
Proof.
  unfold policy_valid, check_max_attempts_domain. simpl.
  unfold MAX_ENQUEUABLE_MAX_ATTEMPTS, SMALLINT_MAX. intros Hv Hm. zbool. rewrite !andb_true_iff, !Z.leb_le, !Z.ltb_lt.
  split_and!; first [lia|done].
Qed.

(** Whether a hook is silent: it returned None, a malformed value, or raised an
    ordinary exception. *)
Definition silent (out : hook_outcome) : bool :=
  negb (carve_out_raised out) && negb (bool_decide (is_Some (hook_override out))).

Lemma silent_cases out :
  silent out = true \/ out = Raises true \/
  (exists v o, out = Returns v /\ override_shape_error v = None /\ usable_override v = Some o).
Proof.
  unfold silent. destruct out as [v|[|]]; simpl; [|tauto|tauto].
  destruct (override_shape_error v) eqn:E; simpl; [tauto|].
  destruct (shape_ok_usable v E) as [o Ho]. rewrite Ho. simpl. naive_solver.
Qed.

Lemma compose_step h rest e attempt :
  compose_retry_classifiers (h :: rest) e attempt =
  if silent (h e attempt) then compose_retry_classifiers rest e attempt else h e attempt.
Proof.
  simpl. destruct (silent_cases (h e attempt)) as [Hs|[Hr|(v & o & Hv & Hsh & Hu)]].
  - rewrite Hs. unfold silent in Hs. destruct (h e attempt) as [v|[|]]; simpl in *; try done.
    destruct v as [|k d|]; simpl in *; try done. by destruct d, k.
  - by rewrite Hr.
  - rewrite Hv. unfold silent. simpl. rewrite Hsh, Hu. simpl.
    destruct v; try done.
Qed.

(** Composition is first-decisive-hook-wins.  The composed classifier's outcome is
    exactly the outcome of the first hook that is not silent (a silent hook returns
    None, returns a malformed value or raises an ordinary exception), and is "no
    opinion" when every hook is silent; so a buggy member never masks a later one. *)
Theorem compose_first_decisive hs e attempt :
  (Forall (fun h => silent (h e attempt) = true) hs /\
   compose_retry_classifiers hs e attempt = Returns RetNone) \/
  (exists hs1 h hs2, hs = hs1 ++ h :: hs2 /\
     Forall (fun g => silent (g e attempt) = true) hs1 /\
     silent (h e attempt) = false /\
     compose_retry_classifiers hs e attempt = h e attempt).
Proof.
  induction hs as [|h hs IH]; [by left|]. rewrite compose_step.
  destruct (silent (h e attempt)) eqn:E.
  - destruct IH as [[Hf Hc]|(hs1 & g & hs2 & -> & Hf & Hg & Hc)].
    + left. by split; [constructor|].
    + right. exists (h :: hs1), g, hs2. by repeat split; [constructor|..].
  - right. exists [], h, hs. by repeat split.
Qed.

Section decide_claims.
Context `{Rounding}.

(** A failure hook can never break the failure path.  For a registered policy the
    constructor accepts and any row (its stored ceiling at the smallint limit
    included), the decision is always produced unless the hook raised one of the two
    carve-out exceptions; a silent hook decides exactly as no hook; and on an
    unconditional-fail exception the hook has no influence at all. *)
Theorem decide_hook_isolation ac h e js u mrb :
  policy_valid (ac_retry ac) = true -> 1 <= js_attempt js -> 1 <= js_max_attempts js ->
  (0 <= u)%Q -> 0 <= mrb < td_exact_horizon ->
  let decide g := decide_after_failure (with_hook ac g) e js u mrb in
  (exists dec, decide None = Ok dec) /\
  (carve_out_raised (h e (js_attempt js)) = false -> exists dec, decide (Some h) = Ok dec) /\
  (silent (h e (js_attempt js)) = true -> decide (Some h) = decide None) /\
  (fatal (ac_non_retryable_exceptions ac) e = true -> decide (Some h) = decide None).
Proof.
  intros Hv Ha Hm Hu Hb decide.
  assert (Hpol : exists p, policy_valid p = true /\
            (if no_drift (ac_retry ac) js then Ok (ac_retry ac)
             else mk_RetryPolicy (reconstructed_args (ac_retry ac) js)) = Ok p).
  { destruct (no_drift _ _); [eauto|]. eexists; split; [by apply (reconstructed_valid _ js Hv)|].
    unfold mk_RetryPolicy. by rewrite reconstructed_valid. }
  destruct Hpol as (p & Hp & Hpe).
  assert (Hd : forall g, decide g =
      rbind (guarded_override (with_hook ac g) e (js_attempt js)) (fun o =>
        classify p (ac_non_retryable_exceptions ac) e (js_attempt js) u mrb o)).
  { intros g. unfold decide, decide_after_failure. simpl. by rewrite Hpe. }
  assert (Hc : forall o, exists dec,
      classify p (ac_non_retryable_exceptions ac) e (js_attempt js) u mrb o = Ok dec).
  { intros o. rewrite classify_table.
    destruct (retry_decision_range p (js_attempt js) u mrb (override_delay_of o) Hp Ha Hu Hb)
      as (d & Hr & _). rewrite Hr. repeat case_match; eauto. }
  rewrite !Hd, !guarded_override_table. simpl.
  split_and!.
  - apply Hc.
  - intros ->. destruct (fatal _ _); simpl; apply Hc.
  - unfold silent. intros Hs. apply andb_true_iff in Hs as [Hs1 Hs2].
    apply negb_true_iff in Hs1, Hs2. rewrite Hs1. destruct (fatal _ _); [done|].
    apply bool_decide_eq_false in Hs2. apply eq_None_not_Some in Hs2. by rewrite Hs2.
  - by intros ->.
Qed.

(** The no-drift shortcut is invisible.  Reusing the registered policy when the row
    agrees with it gives the same decision, or the same error, as always rebuilding
    the policy from the row's kind and ceiling and the registered scalars. *)
Theorem no_drift_shortcut ac e js u mrb :
  policy_valid (ac_retry ac) = true ->
  decide_after_failure ac e js u mrb =
  rbind (mk_RetryPolicy (reconstructed_args (ac_retry ac) js)) (fun p =>
  rbind (guarded_override ac e (js_attempt js)) (fun o =>
  classify p (ac_non_retryable_exceptions ac) e (js_attempt js) u mrb o)).
Proof.
  intros Hv. unfold decide_after_failure. destruct (no_drift (ac_retry ac) js) eqn:E; [|done].
  by rewrite reconstructed_no_drift.
Qed.
End decide_claims.

(** ** Rate-limit and taxonomy hooks together *)

Definition taxonomy : hook := failure_taxonomy_classifier None None None None true.

(** The exceptions the taxonomy recognizes by class or name, whatever their status. *)
Definition connection_shaped (e : exc) : bool :=
  isinstance e [C_ConnectionError; C_TimeoutError] ||
  bool_decide (safe_type_name e ∈ DEFAULT_TRANSIENT_EXCEPTION_NAMES) ||
  (ends_with (txt "Timeout") (safe_type_name e) || ends_with (txt "TimeoutError") (safe_type_name e)).

Lemma taxonomy_table e attempt :
  taxonomy e attempt =
  if connection_shaped e then Returns (ret_override transient None)
  else match extract_http_status e with
       | Some z => if DEFAULT_TRANSIENT_STATUSES z then Returns (ret_override transient None)
                   else if DEFAULT_NON_RETRYABLE_STATUSES z
                   then Returns (ret_override non_retryable None)
                   else Returns RetNone
       | None => Returns RetNone
       end.
Proof.
  unfold taxonomy, failure_taxonomy_classifier, connection_shaped. cbn [default from_option].
  rewrite bool_decide_eq_false_2 by apply not_elem_of_nil.
  destruct (isinstance _ _ || _ || _); simpl; [done|].
  by destruct (extract_http_status e).
Qed.

(** ** Retry-After *)

Lemma is_digit_plain c :
  is_digit c = true -> ascii_eqb c "."%char = false /\ is_space c = false.
Proof.
  intros Hd. destruct (ascii_eqb_spec c "."%char) as [->|]; [done|]. split; [done|].
  revert Hd. unfold is_digit. destruct c as [[] [] [] [] [] [] [] []]; by vm_compute.
Qed.

Lemma digit_of_10_is_digit c : digit_of 10 c -> is_digit c = true.
Proof. intros (d & Hd & Hlt & _). unfold is_digit. rewrite Hd. apply Z.ltb_lt. lia. Qed.

Lemma match_seconds_digits w :
  w <> [] -> forallb is_digit w = true -> match_seconds w = Some (w, []).
Proof.
  intros Hw Hd. unfold match_seconds.
  assert (Hs : py_split "."%char 1 w = [w]).
  { clear Hw. induction w as [|c w IH]; [done|].
    simpl in Hd. apply andb_true_iff in Hd as [Hc Hd]. cbn [py_split].
    destruct (is_digit_plain c Hc) as [-> _]. cbn [andb]. by rewrite IH. }
  rewrite Hs, Hd. by rewrite bool_decide_eq_false_2.
Qed.

Section rate_limit_claims.
Context `{Rounding}.
Variable parsedate : text -> option Z.

Lemma parse_retry_after_range value now d :
  parse_retry_after parsedate value now = Some d -> 0 < d <= td_max.
Proof.
  unfold parse_retry_after. case_match; [done|].
  destruct (match_seconds _) as [[w f]|]; [|destruct (parsedate _); [|done]];
    case_match; try done; intros [= <-]; zbool; lia.
Qed.

Lemma td_of_whole_seconds (n : Z) : 0 <= n <= 2 ^ 53 -> td_of_seconds (rnd (inject_Z n / 1)) = n * usec_per_sec.
Proof.
  intros Hn.
  assert (Hr : (rnd (inject_Z n / 1) == inject_Z n)%Q).
  { rewrite <- (rnd_int n) at 2 by lia. apply rnd_proper. field. }
  assert (H0 : (0 <= inject_Z n)%Q) by (change 0%Q with (inject_Z 0); rewrite <- Zle_Qle; lia).
  unfold td_of_seconds.
  rewrite Qtrunc_nonneg by (rewrite Hr; done).
  assert (Hf : Qfloor (rnd (inject_Z n / 1)) = n) by (rewrite Hr; apply Qfloor_Z).
  rewrite Hf. unfold fmul.
  replace (rne _) with 0; [lia|]. symmetry. apply rne_close, Qabs_Qlt_condition.
  assert (Hz : (rnd ((rnd (inject_Z n / 1) - inject_Z n) * inject_Z usec_per_sec) == 0)%Q).
  { rewrite <- rnd_0. apply rnd_proper. rewrite Hr. ring. }
  rewrite Hz. change (inject_Z 0) with 0%Q. lra.
Qed.

(** A Retry-After hint is usable or absent, never harmful.  Every hint the parser
    returns is strictly positive and representable as a timedelta, whatever the header
    text and whatever the date parser makes of it; and a whole number of seconds
    [n >= 1] within timedelta's range reads as exactly [n] seconds. *)
Theorem parse_retry_after_sound value now :
  (forall d, parse_retry_after parsedate value now = Some d -> 0 < d <= td_max) /\
  (forall n, value = py_str_int n -> 1 <= n -> td_seconds n <= td_max ->
     parse_retry_after parsedate value now = Some (td_seconds n)).
Proof.
  split; [apply parse_retry_after_range|]. intros n -> Hn Hmax.
  assert (Hb : n < 2 ^ 53) by (unfold td_seconds, td_max, usec_per_sec in *; lia).
  assert (Hdig : Forall (digit_of 10) (py_str_int n)).
  { unfold py_str_int. destruct (Z.ltb_spec n 0); [lia|]. apply fixed_digit_of. unfold base_ok; lia. }
  assert (Hval : digits_value 10 0 (py_str_int n) = n).
  { unfold py_str_int. destruct (Z.ltb_spec n 0); [lia|].
    rewrite digits_value_fixed by (unfold base_ok; lia).
    pose proof (py_str_int_fuel (Z.abs n) ltac:(lia)). rewrite Z.mod_small by lia. lia. }
  assert (Hne : py_str_int n <> []).
  { intros E. rewrite E in Hval. unfold digits_value in Hval. simpl in Hval. lia. }
  assert (Hd : forallb is_digit (py_str_int n) = true).
  { apply forallb_forall. intros c Hc. apply digit_of_10_is_digit.
    rewrite Forall_forall in Hdig. apply Hdig. by apply list_elem_of_In. }
  unfold parse_retry_after. rewrite strip_by_none.
  2:{ eapply Forall_impl; [exact Hdig|]. intros c Hc. by apply is_digit_plain, digit_of_10_is_digit. }
  rewrite bool_decide_eq_false_2 by done. rewrite match_seconds_digits by done.
  unfold float_of_seconds. rewrite app_nil_r, Hval.
  change (inject_Z (10 ^ Z.of_nat (length []))) with 1%Q.
  rewrite td_of_whole_seconds by lia. fold (td_seconds n). rewrite Z.min_l by done.
  destruct (Z.leb_spec (td_seconds n) 0); [unfold td_seconds, usec_per_sec in *; lia|done].
Qed.

Lemma rate_limit_429_decisive now e attempt :
  isinstance e [C_ReservationUnavailable] = false ->
  extract_http_status e = Some 429 ->
  exists d, rate_limit_aware_classifier parsedate now e attempt =
    Returns (ret_override indefinite d).
Proof.
  intros Hr Hs. unfold rate_limit_aware_classifier, rate_limit_claim.
  rewrite Hr, Hs. simpl. repeat case_match; eauto.
Qed.

(** The two stock hooks compose in either order on a 429.  For an HTTP 429 that is
    neither connection- nor timeout-shaped, the failure taxonomy is silent and the
    rate-limit hook claims it, so both composition orders give the rate-limit verdict
    (an indefinite retry, with the server's delay when it sent a usable one). *)
Theorem hooks_compose_either_order now e attempt :
  isinstance e [C_ReservationUnavailable] = false ->
  extract_http_status e = Some 429 -> connection_shaped e = false ->
  let rl := rate_limit_aware_classifier parsedate now in
  compose_retry_classifiers [rl; taxonomy] e attempt = rl e attempt /\
  compose_retry_classifiers [taxonomy; rl] e attempt = rl e attempt /\
  exists d, rl e attempt = Returns (ret_override indefinite d).
Proof.
  intros Hr Hs Hc rl.
  assert (Ht : taxonomy e attempt = Returns RetNone)
    by (rewrite taxonomy_table, Hc, Hs; done).
  destruct (rate_limit_429_decisive now e attempt Hr Hs) as [d Hd].
  rewrite !compose_step, Ht. subst rl. rewrite Hd. by destruct d; eauto.
Qed.

(** The two stock hooks do not commute on every exception: a connection-shaped
    exception that carries a 429 is claimed as transient by the taxonomy, so with the
    taxonomy first the rate-limit verdict (indefinite, with the server's delay) is
    lost. *)
Theorem hooks_order_matters_429 now e attempt :
  isinstance e [C_ReservationUnavailable] = false ->
  extract_http_status e = Some 429 -> connection_shaped e = true ->
  let rl := rate_limit_aware_classifier parsedate now in
  compose_retry_classifiers [taxonomy; rl] e attempt = Returns (ret_override transient None) /\
  compose_retry_classifiers [rl; taxonomy] e attempt <>
  compose_retry_classifiers [taxonomy; rl] e attempt.
Proof.
  intros Hr Hs Hc rl.
  assert (Ht : taxonomy e attempt = Returns (ret_override transient None))
    by (rewrite taxonomy_table, Hc; done).
  destruct (rate_limit_429_decisive now e attempt Hr Hs) as [d Hd].
  rewrite !compose_step, Ht. subst rl. rewrite Hd. by destruct d.
Qed.
End rate_limit_claims.

(** ** Witnesses: a concrete policy under binary64 rounding *)

Definition demo_policy : RetryPolicy :=
  {| kind := transient; max_attempts := 3; time_budget := None; backoff := exponential;
     base := td_seconds 2; cap := td_seconds 300; jitter := 1 # 4 |}.

Definition plain_exc (name : text) (status : attr) : exc :=
  {| e_name := NameStr name; e_mro := [C_User "E"]; e_source := ""; e_response := None;
     e_status_code := status; e_status := AAbsent; e_headers := None |}.

Definition demo_row : JobRetryState :=
  {| js_attempt := 2; js_max_attempts := 3; js_retry_kind := transient |}.

Definition demo_actor : ActorConfig :=
  {| ac_retry := demo_policy; ac_non_retryable_exceptions := []; ac_retry_classifier := None |}.

Lemma demo_policy_valid : policy_valid demo_policy = true.
Proof. reflexivity. Qed.

Lemma compute_backoff_bounds_witness :
  exists d, compute_backoff demo_policy 3 (1 # 2) DEFAULT_MAX_RETRY_BACKOFF = Ok d /\
    0 <= d <= Z.min (cap demo_policy) DEFAULT_MAX_RETRY_BACKOFF.
Proof. apply (compute_backoff_bounds demo_policy); by vm_compute. Defined.

Lemma raw_backoff_monotone_witness :
  (raw_backoff_seconds 2 300 exponential 2 <= raw_backoff_seconds 2 300 exponential 5)%Q.
Proof. apply (raw_backoff_monotone 2 300); by vm_compute. Defined.

Lemma exponent_clamp_invisible_witness :
  (raw_backoff_seconds (total_seconds 1) (fmin (total_seconds td_max) (total_seconds td_max)) exponential 90
   == fmin (fmin (total_seconds td_max) (total_seconds td_max))
           (fmul (total_seconds 1) (pow2 89)))%Q.
Proof. apply (exponent_clamp_invisible 1 td_max td_max 90); by vm_compute. Defined.

Lemma reclaim_backoff_bounds_witness :
  MIN_DEFERRAL_INTERVAL <= compute_reclaim_backoff demo_policy 0 7 DEFAULT_MAX_RETRY_BACKOFF
    <= Z.max (Z.min (cap demo_policy) DEFAULT_MAX_RETRY_BACKOFF) MIN_DEFERRAL_INTERVAL.
Proof. apply (reclaim_backoff_bounds demo_policy); by vm_compute. Defined.

Lemma classify_retry_bounds_witness :
  exists dec, classify demo_policy [] (plain_exc (txt "E") AAbsent) 2 (1 # 2)
    DEFAULT_MAX_RETRY_BACKOFF (Some {| o_kind := None; o_delay := Some (td_seconds 30) |}) = Ok dec /\
    forall d, dec = Retry d ->
      MIN_DEFERRAL_INTERVAL <= d <= Z.max MIN_DEFERRAL_INTERVAL DEFAULT_MAX_RETRY_BACKOFF /\
      (forall t, Some (td_seconds 30) = Some t ->
         MIN_DEFERRAL_INTERVAL <= t <= DEFAULT_MAX_RETRY_BACKOFF -> d = t).
Proof.
  apply (classify_retry_bounds demo_policy [] (plain_exc (txt "E") AAbsent) 2 (1 # 2)
    DEFAULT_MAX_RETRY_BACKOFF (Some {| o_kind := None; o_delay := Some (td_seconds 30) |}));
    by vm_compute.
Defined.

Lemma classify_retry_iff_witness :
  ((exists d, classify demo_policy [] (plain_exc (txt "E") AAbsent) 2 (1 # 2)
      DEFAULT_MAX_RETRY_BACKOFF None = Ok (Retry d)) <->
   fatal [] (plain_exc (txt "E") AAbsent) = false /\
   (effective_kind demo_policy None = indefinite \/
    (effective_kind demo_policy None = transient /\ 2 < max_attempts demo_policy))) /\
  (forall c r, classify demo_policy [] (plain_exc (txt "E") AAbsent) 2 (1 # 2)
      DEFAULT_MAX_RETRY_BACKOFF None = Ok (Fail c r) -> r = false).
Proof. apply (classify_retry_iff demo_policy); by vm_compute. Defined.

Lemma decide_hook_isolation_witness :
  decide_after_failure (with_hook demo_actor (Some (fun _ _ => Raises false)))
    (plain_exc (txt "E") AAbsent) demo_row (1 # 2) DEFAULT_MAX_RETRY_BACKOFF =
  decide_after_failure (with_hook demo_actor None)
    (plain_exc (txt "E") AAbsent) demo_row (1 # 2) DEFAULT_MAX_RETRY_BACKOFF.
Proof.
  refine (proj1 (proj2 (proj2 (decide_hook_isolation demo_actor (fun _ _ => Raises false)
    (plain_exc (txt "E") AAbsent) demo_row (1 # 2) DEFAULT_MAX_RETRY_BACKOFF _ _ _ _ _))) _);
    by vm_compute.
Defined.

Lemma no_drift_shortcut_witness :
  decide_after_failure demo_actor (plain_exc (txt "E") AAbsent) demo_row (1 # 2) DEFAULT_MAX_RETRY_BACKOFF =
  rbind (mk_RetryPolicy (reconstructed_args demo_policy demo_row)) (fun p =>
  rbind (guarded_override demo_actor (plain_exc (txt "E") AAbsent) 2) (fun o =>
  classify p [] (plain_exc (txt "E") AAbsent) 2 (1 # 2) DEFAULT_MAX_RETRY_BACKOFF o)).
Proof. apply (no_drift_shortcut demo_actor). by vm_compute. Defined.

Lemma hooks_compose_either_order_witness :
  let rl := rate_limit_aware_classifier (fun _ => None) 0 in
  let e := plain_exc (txt "TooManyRequests") (AInt 429) in
  compose_retry_classifiers [rl; taxonomy] e 1 = rl e 1 /\
  compose_retry_classifiers [taxonomy; rl] e 1 = rl e 1 /\
  exists d, rl e 1 = Returns (ret_override indefinite d).
Proof.
  apply (hooks_compose_either_order (fun _ => None) 0 (plain_exc (txt "TooManyRequests") (AInt 429)));
    by vm_compute.
Defined.

Lemma hooks_order_matters_429_witness :
  let rl := rate_limit_aware_classifier (fun _ => None) 0 in
  let e := plain_exc (txt "ReadTimeout") (AInt 429) in
  compose_retry_classifiers [taxonomy; rl] e 1 = Returns (ret_override transient None) /\
  compose_retry_classifiers [rl; taxonomy] e 1 <> compose_retry_classifiers [taxonomy; rl] e 1.
Proof.
  apply (hooks_order_matters_429 (fun _ => None) 0 (plain_exc (txt "ReadTimeout") (AInt 429)));
    by vm_compute.
Defined.

Lemma parse_retry_after_sound_witness :
  parse_retry_after (fun _ => None) (txt "120") 0 = Some (td_seconds 120).
Proof. apply (proj2 (parse_retry_after_sound (fun _ => None) (txt "120") 0) 120); [reflexivity|lia|by vm_compute]. Defined.
