(* ===== verification/JobRow.v ===== *)
(** * Job rows, the state machine and the shared SQL fragments

    The [jobs], [job_attempts], [job_events], [workers], [actor_config] and [batches]
    tables as the statements of [src/taskq/backend] read and write them, the status
    vocabulary of [backend/_protocol.py], the transition table of
    [backend/statemachine.py] and the fragments of [backend/_sql_fragments.py].

    Timestamps and intervals are microseconds.  A nullable column is an [option].  In a
    WHERE clause only TRUE selects, so a comparison with NULL is [false].  A jsonb
    object is a finite map; concatenation is the right-biased union. *)

From Stdlib Require Import ZArith Lia QArith.
From stdpp Require Import base tactics list gmap strings.
From S2P Require Import Prelude PyFloat Retry.

Open Scope Z_scope.

(** ** Status vocabulary *)

Inductive JobStatus :=
| pending | scheduled | running | succeeded | failed | cancelled | crashed | abandoned.

#[export] Instance JobStatus_eq_dec : EqDecision JobStatus.
Proof. solve_decision. Defined.

Definition TERMINAL_STATUSES : list JobStatus := [succeeded; failed; cancelled; crashed; abandoned].

Definition VALID_TRANSITIONS (from : JobStatus) : list JobStatus :=
  match from with
  | pending => [running; cancelled; failed]
  | scheduled => [pending; cancelled; failed]
  | running => [succeeded; failed; cancelled; crashed; abandoned; scheduled; pending]
  | succeeded | failed | cancelled | crashed | abandoned => []
  end.

Definition all_statuses : list JobStatus :=
  [pending; scheduled; running; succeeded; failed; cancelled; crashed; abandoned].

Definition ACTIVE_STATUSES : list JobStatus :=
  filter (fun s => s ∉ TERMINAL_STATUSES) all_statuses.

Inductive transition_err := IllegalStateTransition (job_id : Z) (from to : JobStatus).

Definition assert_valid_transition (from to : JobStatus) (job_id : Z) : result transition_err unit :=
  if bool_decide (to ∈ VALID_TRANSITIONS from) then Ok ()
  else Err (IllegalStateTransition job_id from to).

Definition terminal (s : JobStatus) : bool := bool_decide (s ∈ TERMINAL_STATUSES).

Definition status_text (s : JobStatus) : string :=
  match s with
  | pending => "pending" | scheduled => "scheduled" | running => "running"
  | succeeded => "succeeded" | failed => "failed" | cancelled => "cancelled"
  | crashed => "crashed" | abandoned => "abandoned"
  end.

Inductive AttemptOutcome :=
| A_succeeded | A_failed | A_snoozed | A_cancelled | A_crashed | A_scheduled
| A_reservation_denied | A_rate_limit_denied.

Inductive SnoozeOutcome := snoozed_outcome | reservation_denied | rate_limit_denied.

Inductive DenialReason := capacity | unavailable.

Inductive SqlOutcomeBranch :=
| B_retried | B_deadline_failed | B_snoozed | B_cancelled | B_failed | B_max_attempts_failed
| B_released.

#[export] Instance SqlOutcomeBranch_eq_dec : EqDecision SqlOutcomeBranch.
Proof. solve_decision. Defined.

(** ** Constants stamped on rows *)

Definition CANCEL_ORIGIN_COOPERATIVE : string := "CancelledCooperatively".
Definition CANCEL_ORIGIN_FORCED : string := "CancelledForced".
Definition CANCEL_ORIGIN_ABANDONED : string := "CancelAbandoned".
Definition CANCEL_ORIGIN_PENDING : string := "CancelledBeforeStart".
Definition CANCEL_ORIGIN_UNREQUESTED : string := "CancelledWithoutRequest".
Definition ERROR_CLASS_DEADLINE_EXCEEDED : string := "DeadlineExceeded".
Definition ERROR_CLASS_MAX_ATTEMPTS_EXCEEDED : string := "MaxAttemptsExceeded".
Definition ERROR_CLASS_WORKER_CRASHED : string := "WorkerCrashed".
Definition ERROR_CLASS_HEARTBEAT_LOST : string := "HeartbeatLost".
Definition BUDGET_EXHAUSTED_MESSAGE : string := "retry budget exhausted".
Definition DEADLINE_EXCEEDED_MESSAGE : string := "schedule_to_close reached before next dispatch".
Definition DEADLINE_RETRY_EXCEEDED_MESSAGE : string :=
  "schedule_to_close reached before next retry dispatch".

(** ** jsonb *)

(** A jsonb value: null, a string, a string that is a UUID's text, a numeric of
    seconds (kept in microseconds), an integer, or any other value by its text. *)
Inductive jval := JNull | JStr (s : string) | JUuid (u : Z) | JSeconds (usec : Z) | JInt (z : Z) | JRaw (s : string).

#[export] Instance jval_eq_dec : EqDecision jval.
Proof. solve_decision. Defined.

Definition jobj := gmap string jval.

(** [a || b]: keys of [b] win. *)
Definition jconcat (a b : jobj) : jobj := b ∪ a.

Definition jsonb_strip_nulls (o : jobj) : jobj := filter (fun kv => kv.2 <> JNull) o.

Definition jopt (s : option string) : jval := match s with Some s => JStr s | None => JNull end.

(** ** Tables *)

(** The columns of [jobs] the modelled statements read or write ([JobRow] and the
    dependency counter the claim tests); [retry_base] and [retry_cap] as the float8
    seconds the database stores. *)
Record job := {
  status : JobStatus;
  actor : string;
  attempt : Z;
  max_attempts : Z;
  retry_kind : RetryKind;
  scheduled_at : Z;
  schedule_to_close : option Z;
  heartbeat_timeout : option Z;
  started_at : option Z;
  finished_at : option Z;
  last_heartbeat_at : option Z;
  locked_by_worker : option Z;
  lock_expires_at : option Z;
  claim_epoch : Z;
  cancel_requested_at : option Z;
  cancel_phase : Z;
  error_class : option string;
  error_message : option string;
  error_traceback : option string;
  progress_state : jobj;
  progress_seq : Z;
  result_json : option string;
  result_size_bytes : option Z;
  result_expires_at : option Z;
  metadata : jobj;
  assignment_routed : bool;
  deps_pending : Z;
  snooze_count : Z;
  rate_limit_blocked_count : Z;
  interrupt_count : Z;
  retry_base_seconds : Q;
  retry_cap_seconds : Q;
  retry_backoff : Backoff;
  retry_jitter : Q
}.

#[export] Instance job_copy : Copy job := fun j =>
  {| status := status j; actor := actor j; attempt := attempt j; max_attempts := max_attempts j;
     retry_kind := retry_kind j; scheduled_at := scheduled_at j;
     schedule_to_close := schedule_to_close j; heartbeat_timeout := heartbeat_timeout j;
     started_at := started_at j; finished_at := finished_at j;
     last_heartbeat_at := last_heartbeat_at j; locked_by_worker := locked_by_worker j;
     lock_expires_at := lock_expires_at j; claim_epoch := claim_epoch j;
     cancel_requested_at := cancel_requested_at j; cancel_phase := cancel_phase j;
     error_class := error_class j; error_message := error_message j;
     error_traceback := error_traceback j; progress_state := progress_state j;
     progress_seq := progress_seq j; result_json := result_json j;
     result_size_bytes := result_size_bytes j; result_expires_at := result_expires_at j;
     metadata := metadata j; assignment_routed := assignment_routed j;
     deps_pending := deps_pending j; snooze_count := snooze_count j;
     rate_limit_blocked_count := rate_limit_blocked_count j; interrupt_count := interrupt_count j;
     retry_base_seconds := retry_base_seconds j; retry_cap_seconds := retry_cap_seconds j;
     retry_backoff := retry_backoff j; retry_jitter := retry_jitter j |}.

(** A [job_attempts] row; its key is the map's key, its metadata is always empty. *)
Record attempt_row := {
  a_started_at : Z;
  a_finished_at : option Z;
  a_outcome : AttemptOutcome;
  a_error_class : option string;
  a_error_message : option string;
  a_error_traceback : option string;
  a_duration_ms : option Z;
  a_worker_id : option Z;
  a_due_at : option Z
}.

(** A [job_events] row; the event id is the position in the list. *)
Record event := { ev_job : Z; ev_at : Z; ev_kind : string; ev_detail : jobj }.

Inductive BatchStatus := b_active | b_complete | b_aborted.

(** A [batches] row, without the columns no modelled statement reads. *)
Record batch := {
  b_status : BatchStatus;
  b_completed_at : option Z;
  b_failures : Z;            (* consecutive_failures *)
  b_threshold : option Z     (* failure_threshold *)
}.

#[export] Instance batch_copy : Copy batch := fun b =>
  {| b_status := b_status b; b_completed_at := b_completed_at b; b_failures := b_failures b;
     b_threshold := b_threshold b |}.

Record db := {
  jobs : gmap Z job;
  attempts : gmap (Z * Z) attempt_row;   (* keyed by (job_id, attempt) *)
  events : list event;                   (* in event-id order *)
  workers : gset Z;
  result_ttl : gmap string (option Z);   (* actor_config.result_ttl, in microseconds *)
  batches : gmap Z batch
}.

#[export] Instance db_copy : Copy db := fun d =>
  {| jobs := jobs d; attempts := attempts d; events := events d; workers := workers d;
     result_ttl := result_ttl d; batches := batches d |}.

(** The errors a statement can raise; the statement is atomic, so it then writes nothing. *)
Inductive db_err := NotNullViolation | IntOutOfRange | InvalidText.

Definition insert_event (id at_ : Z) (kind : string) (detail : jobj) (d : db) : db :=
  d <| events ::= fun es => es ++ [{| ev_job := id; ev_at := at_; ev_kind := kind; ev_detail := detail |}] |>.

(** [jsonb_build_object('from_state', ..., 'to_state', ...)]. *)
Definition state_change (from to_ : string) : jobj :=
  <["to_state" := JStr to_]> {["from_state" := JStr from]}.

Definition write_row (id : Z) (j : job) (d : db) : db := d <| jobs ::= fun m => <[id := j]> m |>.

(** UPDATE .. WHERE id = .. AND [p]: the row the statement selects. *)
Definition select_row (d : db) (id : Z) (p : job -> bool) : option job :=
  match jobs d !! id with
  | Some j => if p j then Some j else None
  | None => None
  end.

(** [trunc(EXTRACT(EPOCH FROM (finished - started)) * 1000)::int]: milliseconds
    truncated toward zero; the int4 cast raises out of range. *)
Definition duration_ms (finished started : option Z) : result db_err (option Z) :=
  match finished, started with
  | Some f, Some s =>
      let ms := Z.quot (f - s) 1000 in
      if (- 2 ^ 31 <=? ms) && (ms <? 2 ^ 31) then Ok (Some ms) else Err IntOutOfRange
  | _, _ => Ok None
  end.

(** The holder CTE: the worker id, or NULL when its row is gone. *)
Definition holder (d : db) (w : option Z) : option Z :=
  match w with
  | Some w => if bool_decide (w ∈ workers d) then Some w else None
  | None => None
  end.

(** INSERT INTO job_attempts .. ON CONFLICT (job_id, attempt) DO NOTHING, with the
    NOT NULL of [started_at]. *)
Definition insert_attempt (id att : Z) (started finished : option Z) (outcome : AttemptOutcome)
    (cls msg tb : option string) (duration : option Z) (worker : option Z) (due : option Z)
    (d : db) : result db_err db :=
  match started with
  | None => Err NotNullViolation
  | Some s =>
      let row := {| a_started_at := s; a_finished_at := finished; a_outcome := outcome;
                    a_error_class := cls; a_error_message := msg; a_error_traceback := tb;
                    a_duration_ms := duration; a_worker_id := worker; a_due_at := due |} in
      Ok match attempts d !! (id, att) with
         | Some _ => d
         | None => d <| attempts ::= fun m => <[(id, att) := row]> m |>
         end
  end.

(** ** Shared fragments *)

(** SQL equality as a WHERE conjunct: TRUE only between two equal non-NULL values. *)
Definition sql_eq (a b : option Z) : bool :=
  match a, b with Some x, Some y => x =? y | _, _ => false end.

(** What the caller presents: its worker id, and the two epochs (NULL when unknown). *)
Record fence := { f_worker : Z; f_attempt : option Z; f_epoch : option Z }.

Definition is_status (s : JobStatus) (j : job) : bool := bool_decide (status j = s).

Definition JOB_FENCE (f : fence) (j : job) : bool :=
  is_status running j && sql_eq (locked_by_worker j) (Some (f_worker f)) &&
  sql_eq (Some (attempt j)) (f_attempt f) && sql_eq (Some (claim_epoch j)) (f_epoch f).

Definition LEASE_CLEAR (j : job) : job :=
  j <| locked_by_worker := None |> <| lock_expires_at := None |> <| last_heartbeat_at := None |>.

(** The two-column clear of the single-row terminal writes. *)
Definition lock_clear (j : job) : job :=
  j <| locked_by_worker := None |> <| lock_expires_at := None |>.

Definition PROGRESS_MERGE (seq : Z) (state : option jobj) (j : job) : job :=
  j <| progress_seq ::= fun s => Z.max s seq |>
    <| progress_state ::= fun s => match state with Some u => jconcat s u | None => s end |>.

Definition ATTEMPT_REFUND (j : job) : job := j <| attempt ::= fun a => Z.max (a - 1) 0 |>.

(** [schedule_to_close IS NULL OR t <= schedule_to_close]. *)
Definition within_deadline (j : job) (t : Z) : bool :=
  match schedule_to_close j with None => true | Some s => t <=? s end.

(** [schedule_to_close IS NOT NULL AND t > schedule_to_close]. *)
Definition past_deadline (j : job) (t : Z) : bool :=
  match schedule_to_close j with None => false | Some s => s <? t end.

Definition no_cancel (j : job) : bool := cancel_phase j =? 0.

(** [CASE WHEN delay > interval '0' THEN 'scheduled' ELSE 'pending' END]. *)
Definition requeue_status (delay : Z) : JobStatus := if 0 <? delay then scheduled else pending.

(** The SET every hand-back arm shares: reschedule, clear the lease, reset the cancel
    columns, route by the actor's current assignment. *)
Definition hand_back (now delay : Z) (j : job) : job :=
  LEASE_CLEAR (j <| status := requeue_status delay |> <| scheduled_at := now + delay |>
                 <| finished_at := None |>)
    <| cancel_phase := 0 |> <| cancel_requested_at := None |> <| assignment_routed := true |>.

(** The SET the deadline and budget exits share. *)
Definition fail_row (now : Z) (cls msg : string) (j : job) : job :=
  LEASE_CLEAR (j <| status := failed |> <| finished_at := Some now |> <| error_class := Some cls |>
                 <| error_message := Some msg |> <| error_traceback := None |>).

(** The deadline_cancelled SET: the cancel columns survive as the audit trail. *)
Definition cancel_row (now : Z) (j : job) : job :=
  LEASE_CLEAR (j <| status := cancelled |> <| finished_at := Some now |>
    <| error_class := Some (if cancel_phase j =? 2 then CANCEL_ORIGIN_FORCED
                            else CANCEL_ORIGIN_COOPERATIVE) |>).
