(* ===== verification/Terminal.v ===== *)
(** * Terminal writes and deferrals

    The fused statements of [src/taskq/backend/_sql_templates.py] by which a worker ends,
    requeues, defers or releases the attempt it runs, and the callers of
    [src/taskq/backend/_terminal.py].  Each statement is one atomic function on the
    database: it returns the winning arm and the updated row, [None] when every arm was
    fenced out, or the error it raises (and then nothing is written).

    [clock_timestamp()] is read again at each mention: [clk i] is the [i]-th read of the
    statement, in evaluation order (the arms are evaluated in the order of the final
    UNION ALL, each arm's WHERE before its SET, the inserts last). *)

From Stdlib Require Import ZArith Lia QArith.
From stdpp Require Import base tactics list gmap strings.
From S2P Require Import Prelude Retry JobRow.

Open Scope Z_scope.

Definition written := (db * option (SqlOutcomeBranch * job))%type.

(** ** The inserts the arms share *)

Definition with_worker (w : Z) (o : jobj) : jobj := <["worker_id" := JUuid w]> o.
Definition with_class (c : jval) (o : jobj) : jobj := <["error_class" := c]> o.

(** A terminal arm's attempt row: its end is the row's own [finished_at]. *)
Definition terminal_attempt (id w t_att : Z) (u : job) (outcome : AttemptOutcome)
    (cls msg tb : option string) (d : db) : result db_err db :=
  let* ms := duration_ms (finished_at u) (started_at u) in
  insert_attempt id (attempt u) (started_at u) (Some t_att) outcome cls msg tb ms
    (holder d (Some w)) (Some (scheduled_at u)) d.

(** deadline_att / max_attempts_att and their events. *)
Definition failed_inserts (id w t_att t_evt : Z) (u : job) (cls msg : string) (extra : jobj) (d : db)
  : result db_err db :=
  let* d := terminal_attempt id w t_att u A_failed (Some cls) (Some msg) None d in
  Ok (insert_event id t_evt "state_change"
        (jconcat (with_worker w (with_class (JStr cls) (state_change "running" "failed"))) extra) d).

(** cancelled_att / cancelled_evt: the marker is read back off the row. *)
Definition cancelled_inserts (id w t_att t_evt : Z) (u : job) (d : db) : result db_err db :=
  let* d := terminal_attempt id w t_att u A_cancelled (error_class u) None None d in
  Ok (insert_event id t_evt "state_change"
        (with_worker w (with_class (jopt (error_class u)) (state_change "running" "cancelled"))) d).

(** ** Single-row terminal writes *)

(** [COALESCE((SELECT now + result_ttl FROM actor_config ..), now + $7, result_expires_at)]. *)
Definition result_expiry (d : db) (now : Z) (fallback : option Z) (j : job) : option Z :=
  match result_ttl d !! actor j with
  | Some (Some ttl) => Some (now + ttl)
  | _ => match fallback with
         | Some t => Some (now + t)
         | None => result_expires_at j
         end
  end.

Definition mark_succeeded (clk : nat -> Z) (id : Z) (f : fence) (res : option string)
    (size : option Z) (seq : Z) (state : option jobj) (fallback : option Z) (d : db)
  : result db_err (db * option job) :=
  match select_row d id (JOB_FENCE f) with
  | None => Ok (d, None)
  | Some j =>
      let u := PROGRESS_MERGE seq state
        (lock_clear (j <| status := succeeded |> <| finished_at := Some (clk 0%nat) |>)
           <| result_json := res |> <| result_size_bytes := size |>
           <| result_expires_at := result_expiry d (clk 1%nat) fallback j |>) in
      let* d := terminal_attempt id (f_worker f) (clk 2%nat) u A_succeeded None None None
                  (write_row id u d) in
      Ok (insert_event id (clk 3%nat) "state_change"
            (with_worker (f_worker f) (state_change "running" "succeeded")) d, Some u)
  end.

Definition mark_failed (clk : nat -> Z) (id : Z) (f : fence) (cls msg tb : option string)
    (seq : Z) (state : option jobj) (d : db) : result db_err (db * option job) :=
  match select_row d id (JOB_FENCE f) with
  | None => Ok (d, None)
  | Some j =>
      let u := PROGRESS_MERGE seq state
        (lock_clear (j <| status := failed |> <| finished_at := Some (clk 0%nat) |>)
           <| error_class := cls |> <| error_message := msg |> <| error_traceback := tb |>) in
      let* d := terminal_attempt id (f_worker f) (clk 1%nat) u A_failed cls msg tb
                  (write_row id u d) in
      Ok (insert_event id (clk 2%nat) "state_change"
            (jsonb_strip_nulls
               (with_worker (f_worker f) (with_class (jopt cls) (state_change "running" "failed")))) d,
          Some u)
  end.

Definition cancel_origin (j : job) : string :=
  if cancel_phase j =? 2 then CANCEL_ORIGIN_FORCED
  else match cancel_requested_at j with
       | Some _ => CANCEL_ORIGIN_COOPERATIVE
       | None => CANCEL_ORIGIN_UNREQUESTED
       end.

Definition mark_cancelled (clk : nat -> Z) (id : Z) (f : fence) (seq : Z) (state : option jobj) (d : db)
  : result db_err (db * option job) :=
  match select_row d id (JOB_FENCE f) with
  | None => Ok (d, None)
  | Some j =>
      let u := PROGRESS_MERGE seq state
        (lock_clear (j <| status := cancelled |> <| finished_at := Some (clk 0%nat) |>)
           <| error_class := Some (cancel_origin j) |>) in
      let* d := cancelled_inserts id (f_worker f) (clk 1%nat) (clk 2%nat) u (write_row id u d) in
      Ok (d, Some u)
  end.

(** The NULL-lease arm is the corruption shape no live holder can own. *)
Definition abandon_where (j : job) : bool :=
  is_status running j &&
  ((cancel_phase j =? 2) || match lock_expires_at j with None => true | Some _ => false end).

Definition mark_abandoned (clk : nat -> Z) (id seq : Z) (state : option jobj) (d : db)
  : result db_err (db * option job) :=
  match select_row d id abandon_where with
  | None => Ok (d, None)
  | Some j =>
      let u := PROGRESS_MERGE seq state
        (j <| status := abandoned |> <| finished_at := Some (clk 0%nat) |>
           <| error_class := Some CANCEL_ORIGIN_ABANDONED |>) in
      let d1 := write_row id u d in
      let* ms := duration_ms (finished_at u) (started_at u) in
      let* d2 := insert_attempt id (attempt u)
                   (match started_at u with Some s => Some s | None => Some (clk 1%nat) end)
                   (Some (clk 2%nat)) A_cancelled (Some CANCEL_ORIGIN_ABANDONED) None None ms
                   (holder d (locked_by_worker u)) (Some (scheduled_at u)) d1 in
      Ok (insert_event id (clk 3%nat) "state_change"
            (jsonb_strip_nulls
               (<["worker_id" := match locked_by_worker u with Some w => JUuid w | None => JNull end]>
                 (with_class (JStr CANCEL_ORIGIN_ABANDONED) (state_change "running" "abandoned")))) d2,
          Some u)
  end.

(** ** mark_retry *)

(** [GREATEST($3::interval, MIN_DEFERRAL_INTERVAL)]. *)
Definition effective_delay (delay : Z) : Z := Z.max delay MIN_DEFERRAL_INTERVAL.

Definition mark_retry_retried (clk : nat -> Z) (f : fence) (delay : Z) (cls msg tb : option string)
    (seq : Z) (state : option jobj) (j : job) : option job :=
  if JOB_FENCE f j && no_cancel j && within_deadline j (clk 0%nat + delay)
  then Some (PROGRESS_MERGE seq state
               (hand_back (clk 1%nat) delay j <| error_class := cls |> <| error_message := msg |>
                  <| error_traceback := tb |>))
  else None.

Definition mark_retry_deadline_failed (clk : nat -> Z) (f : fence) (delay : Z) (seq : Z)
    (state : option jobj) (retried : option job) (j : job) : option job :=
  if JOB_FENCE f j && no_cancel j && past_deadline j (clk 3%nat + delay) &&
     match retried with None => true | Some _ => false end
  then Some (PROGRESS_MERGE seq state
               (fail_row (clk 4%nat) ERROR_CLASS_DEADLINE_EXCEEDED DEADLINE_RETRY_EXCEEDED_MESSAGE j))
  else None.

(** retried_att / retried_evt: the end is the arm's own [now_ts], the due time the
    pre-reschedule one. *)
Definition retried_inserts (id : Z) (f : fence) (now_ts t_att t_evt : Z) (due : Z) (u : job)
    (cls msg tb : option string) (d : db) : result db_err db :=
  let* ms := duration_ms (Some now_ts) (started_at u) in
  let* d := insert_attempt id (attempt u) (started_at u) (Some t_att) A_failed cls msg tb ms
              (holder d (Some (f_worker f))) (Some due) d in
  Ok (insert_event id t_evt "state_change"
        (jsonb_strip_nulls (with_worker (f_worker f)
           (with_class (jopt cls) (state_change "running" "scheduled")))) d).

Definition mark_retry (clk : nat -> Z) (id : Z) (f : fence) (retry_delay : Z)
    (cls msg tb : option string) (seq : Z) (state : option jobj) (d : db) : result db_err written :=
  let delay := effective_delay retry_delay in
  match jobs d !! id with
  | None => Ok (d, None)
  | Some j =>
      let retried := mark_retry_retried clk f delay cls msg tb seq state j in
      let deadline := mark_retry_deadline_failed clk f delay seq state retried j in
      match retried, deadline with
      | Some u, _ =>
          let* d := retried_inserts id f (clk 2%nat) (clk 5%nat) (clk 6%nat) (scheduled_at j) u cls msg tb
                      (write_row id u d) in
          Ok (d, Some (B_retried, u))
      | None, Some u =>
          let* d := failed_inserts id (f_worker f) (clk 5%nat) (clk 6%nat) u
                      ERROR_CLASS_DEADLINE_EXCEEDED DEADLINE_RETRY_EXCEEDED_MESSAGE ∅ (write_row id u d) in
          Ok (d, Some (B_deadline_failed, u))
      | None, None => Ok (d, None)
      end
  end.

(** ** The deferral statements *)

Definition absent {A} (o : option A) : bool := match o with None => true | Some _ => false end.

(** deadline_cancelled, identical in the three deferral statements. *)
Definition deadline_cancelled_arm (clk : nat -> Z) (f : fence) (delay seq : Z) (state : option jobj)
    (snoozed : option job) (j : job) : option job :=
  if JOB_FENCE f j && negb (cancel_phase j =? 0) && past_deadline j (clk 3%nat + delay) && absent snoozed
  then Some (PROGRESS_MERGE seq state (cancel_row (clk 4%nat) j))
  else None.

Definition denial (o : SnoozeOutcome) : bool :=
  match o with snoozed_outcome => false | reservation_denied | rate_limit_denied => true end.

Definition mark_snoozed_snoozed (clk : nat -> Z) (f : fence) (delay : Z) (meta : option jobj) (seq : Z)
    (state : option jobj) (outcome : SnoozeOutcome) (j : job) : option job :=
  if JOB_FENCE f j && no_cancel j && within_deadline j (clk 0%nat + delay)
  then Some (PROGRESS_MERGE seq state
               (ATTEMPT_REFUND (hand_back (clk 1%nat) delay j)
                  <| snooze_count ::= fun c => if denial outcome then c else c + 1 |>
                  <| rate_limit_blocked_count ::= fun c => if denial outcome then c + 1 else c |>
                  <| metadata ::= fun m => jconcat m (default ∅ meta) |>))
  else None.

Definition mark_snoozed_deadline_failed (clk : nat -> Z) (f : fence) (delay seq : Z) (state : option jobj)
    (outcome : SnoozeOutcome) (snoozed cancelled : option job) (j : job) : option job :=
  if JOB_FENCE f j && no_cancel j && absent cancelled && past_deadline j (clk 5%nat + delay) && absent snoozed
  then Some (PROGRESS_MERGE seq state
               (fail_row (clk 6%nat) ERROR_CLASS_DEADLINE_EXCEEDED DEADLINE_EXCEEDED_MESSAGE j
                  <| rate_limit_blocked_count ::= fun c => if denial outcome then c + 1 else c |>))
  else None.

Definition denial_text (r : DenialReason) : string :=
  match r with capacity => "capacity" | unavailable => "unavailable" end.

Definition denial_detail (outcome : SnoozeOutcome) (r : DenialReason) : jobj :=
  if denial outcome then {["denial_reason" := JStr (denial_text r)]} else ∅.

Definition mark_snoozed (clk : nat -> Z) (id : Z) (f : fence) (raw_delay : Z) (meta : option jobj)
    (seq : Z) (state : option jobj) (outcome : SnoozeOutcome) (reason : DenialReason) (d : db)
  : result db_err written :=
  let delay := effective_delay raw_delay in
  match jobs d !! id with
  | None => Ok (d, None)
  | Some j =>
      let sn := mark_snoozed_snoozed clk f delay meta seq state outcome j in
      let ca := deadline_cancelled_arm clk f delay seq state sn j in
      let fl := mark_snoozed_deadline_failed clk f delay seq state outcome sn ca j in
      match sn, ca, fl with
      | Some u, _, _ => Ok (write_row id u d, Some (B_snoozed, u))
      | None, Some u, _ =>
          let* d := cancelled_inserts id (f_worker f) (clk 7%nat) (clk 8%nat) u (write_row id u d) in
          Ok (d, Some (B_cancelled, u))
      | None, None, Some u =>
          let* d := failed_inserts id (f_worker f) (clk 7%nat) (clk 8%nat) u ERROR_CLASS_DEADLINE_EXCEEDED
                      DEADLINE_EXCEEDED_MESSAGE (denial_detail outcome reason) (write_row id u d) in
          Ok (d, Some (B_failed, u))
      | None, None, None => Ok (d, None)
      end
  end.

(** *** RetryAfter(consume_budget=True): the raw delay, the budget checked *)

Definition budget_left (j : job) : bool :=
  bool_decide (retry_kind j = indefinite) || (attempt j <? max_attempts j).

Definition retry_after_true_snoozed (clk : nat -> Z) (f : fence) (delay seq : Z) (state : option jobj)
    (j : job) : option job :=
  if JOB_FENCE f j && no_cancel j && within_deadline j (clk 0%nat + delay) && budget_left j
  then Some (PROGRESS_MERGE seq state (hand_back (clk 1%nat) delay j))
  else None.

Definition retry_after_true_max_attempts (clk : nat -> Z) (f : fence) (delay seq : Z)
    (state : option jobj) (snoozed cancelled : option job) (j : job) : option job :=
  if JOB_FENCE f j && bool_decide (retry_kind j <> indefinite) && (max_attempts j <=? attempt j) &&
     no_cancel j && absent cancelled && within_deadline j (clk 5%nat + delay) && absent snoozed
  then Some (PROGRESS_MERGE seq state
               (fail_row (clk 6%nat) ERROR_CLASS_MAX_ATTEMPTS_EXCEEDED BUDGET_EXHAUSTED_MESSAGE j))
  else None.

Definition retry_after_true_deadline_failed (clk : nat -> Z) (f : fence) (delay seq : Z)
    (state : option jobj) (snoozed cancelled exhausted : option job) (j : job) : option job :=
  if JOB_FENCE f j && past_deadline j (clk 7%nat + delay) && no_cancel j && absent cancelled &&
     absent snoozed && absent exhausted
  then Some (PROGRESS_MERGE seq state
               (fail_row (clk 8%nat) ERROR_CLASS_DEADLINE_EXCEEDED DEADLINE_EXCEEDED_MESSAGE j))
  else None.

(** snoozed_att / snoozed_evt of the consuming arm. *)
Definition retry_after_inserts (id : Z) (f : fence) (now_ts t_att t_evt due : Z) (u : job) (d : db)
  : result db_err db :=
  let* ms := duration_ms (Some now_ts) (started_at u) in
  let* d := insert_attempt id (attempt u) (started_at u) (Some t_att) A_snoozed (Some "RetryAfter"%string)
              None None ms (holder d (Some (f_worker f))) (Some due) d in
  Ok (insert_event id t_evt "state_change"
        (with_worker (f_worker f) (state_change "running" "scheduled")) d).

Definition mark_retry_after_consume_true (clk : nat -> Z) (id : Z) (f : fence) (delay seq : Z)
    (state : option jobj) (d : db) : result db_err written :=
  match jobs d !! id with
  | None => Ok (d, None)
  | Some j =>
      let sn := retry_after_true_snoozed clk f delay seq state j in
      let ca := deadline_cancelled_arm clk f delay seq state sn j in
      let mx := retry_after_true_max_attempts clk f delay seq state sn ca j in
      let fl := retry_after_true_deadline_failed clk f delay seq state sn ca mx j in
      match sn, ca, mx, fl with
      | Some u, _, _, _ =>
          let* d := retry_after_inserts id f (clk 2%nat) (clk 9%nat) (clk 10%nat) (scheduled_at j) u
                      (write_row id u d) in
          Ok (d, Some (B_snoozed, u))
      | None, Some u, _, _ =>
          let* d := cancelled_inserts id (f_worker f) (clk 9%nat) (clk 10%nat) u (write_row id u d) in
          Ok (d, Some (B_cancelled, u))
      | None, None, Some u, _ =>
          let* d := failed_inserts id (f_worker f) (clk 9%nat) (clk 10%nat) u
                      ERROR_CLASS_MAX_ATTEMPTS_EXCEEDED BUDGET_EXHAUSTED_MESSAGE ∅ (write_row id u d) in
          Ok (d, Some (B_max_attempts_failed, u))
      | None, None, None, Some u =>
          let* d := failed_inserts id (f_worker f) (clk 9%nat) (clk 10%nat) u
                      ERROR_CLASS_DEADLINE_EXCEEDED DEADLINE_EXCEEDED_MESSAGE ∅ (write_row id u d) in
          Ok (d, Some (B_deadline_failed, u))
      | None, None, None, None => Ok (d, None)
      end
  end.

(** *** RetryAfter(consume_budget=False): the deferral contract of a snooze *)

Definition retry_after_false_snoozed (clk : nat -> Z) (f : fence) (delay seq : Z) (state : option jobj)
    (j : job) : option job :=
  if JOB_FENCE f j && no_cancel j && within_deadline j (clk 0%nat + delay)
  then Some (PROGRESS_MERGE seq state
               (ATTEMPT_REFUND (hand_back (clk 1%nat) delay j) <| snooze_count ::= fun c => c + 1 |>))
  else None.

Definition retry_after_false_deadline_failed (clk : nat -> Z) (f : fence) (delay seq : Z)
    (state : option jobj) (snoozed cancelled : option job) (j : job) : option job :=
  if JOB_FENCE f j && past_deadline j (clk 5%nat + delay) && no_cancel j && absent cancelled && absent snoozed
  then Some (PROGRESS_MERGE seq state
               (fail_row (clk 6%nat) ERROR_CLASS_DEADLINE_EXCEEDED DEADLINE_EXCEEDED_MESSAGE j))
  else None.

Definition mark_retry_after_consume_false (clk : nat -> Z) (id : Z) (f : fence) (raw_delay seq : Z)
    (state : option jobj) (d : db) : result db_err written :=
  let delay := effective_delay raw_delay in
  match jobs d !! id with
  | None => Ok (d, None)
  | Some j =>
      let sn := retry_after_false_snoozed clk f delay seq state j in
      let ca := deadline_cancelled_arm clk f delay seq state sn j in
      let fl := retry_after_false_deadline_failed clk f delay seq state sn ca j in
      match sn, ca, fl with
      | Some u, _, _ => Ok (write_row id u d, Some (B_snoozed, u))
      | None, Some u, _ =>
          let* d := cancelled_inserts id (f_worker f) (clk 7%nat) (clk 8%nat) u (write_row id u d) in
          Ok (d, Some (B_cancelled, u))
      | None, None, Some u =>
          let* d := failed_inserts id (f_worker f) (clk 7%nat) (clk 8%nat) u ERROR_CLASS_DEADLINE_EXCEEDED
                      DEADLINE_EXCEEDED_MESSAGE ∅ (write_row id u d) in
          Ok (d, Some (B_deadline_failed, u))
      | None, None, None => Ok (d, None)
      end
  end.

(** ** mark_interrupted *)

(** A positive hold is floored; a zero hold stays zero. *)
Definition effective_hold (hold : Z) : Z := if 0 <? hold then Z.max hold MIN_DEFERRAL_INTERVAL else 0.

Definition mark_interrupted_released (clk : nat -> Z) (f : fence) (hold seq : Z) (state : option jobj)
    (j : job) : option job :=
  if JOB_FENCE f j && no_cancel j && within_deadline j (clk 0%nat + hold)
  then Some (PROGRESS_MERGE seq state
               (hand_back (clk 1%nat) hold j <| interrupt_count ::= fun c => c + 1 |>))
  else None.

Definition mark_interrupted_deadline_failed (clk : nat -> Z) (f : fence) (hold seq : Z)
    (state : option jobj) (released : option job) (j : job) : option job :=
  if JOB_FENCE f j && no_cancel j && past_deadline j (clk 3%nat + hold) && absent released
  then Some (PROGRESS_MERGE seq state
               (fail_row (clk 4%nat) ERROR_CLASS_DEADLINE_EXCEEDED DEADLINE_EXCEEDED_MESSAGE j))
  else None.

Definition mark_interrupted (clk : nat -> Z) (id : Z) (f : fence) (raw_hold seq : Z)
    (state : option jobj) (d : db) : result db_err written :=
  let hold := effective_hold raw_hold in
  match jobs d !! id with
  | None => Ok (d, None)
  | Some j =>
      let rl := mark_interrupted_released clk f hold seq state j in
      let fl := mark_interrupted_deadline_failed clk f hold seq state rl j in
      match rl, fl with
      | Some u, _ =>
          Ok (insert_event id (clk 5%nat) "state_change"
                (<["hold_seconds" := JSeconds hold]>
                  (with_worker (f_worker f) (<["reason" := JStr "interrupted"]>
                    (state_change "running" (status_text (status u))))))
                (write_row id u d), Some (B_released, u))
      | None, Some u =>
          let* d := failed_inserts id (f_worker f) (clk 5%nat) (clk 6%nat) u ERROR_CLASS_DEADLINE_EXCEEDED
                      DEADLINE_EXCEEDED_MESSAGE ∅ (write_row id u d) in
          Ok (d, Some (B_deadline_failed, u))
      | None, None => Ok (d, None)
      end
  end.

(** ** The callers *)

Inductive call_err :=
| Db (e : db_err)
| WorkerOwnershipMismatch (job_id expected : Z) (actual : option Z)
| CallValueError
| CallUnencodable
| CallResultTooLarge
| CallAssertionError.

Definition lift {A} (m : result db_err A) : result call_err A :=
  match m with Ok a => Ok a | Err e => Err (Db e) end.

Definition select_owner (d : db) (id : Z) : option Z :=
  match jobs d !! id with Some j => locked_by_worker j | None => None end.

Definition MAX_RESULT_BYTES : Z := 65536.

Section mark_succeeded_call.
(** orjson, and the scan of the [tors] package. *)
Variable V : Type.
Variable dumps : V -> option string.          (* [None]: UnencodableValue *)
Variable contains_nul : string -> bool.
Variable loads_ok : string -> bool.

Definition jsonb_param (v : option V) : result call_err (option string) :=
  match v with
  | None => Ok None
  | Some v => match dumps v with
              | None => Err CallUnencodable
              | Some s => if contains_nul s then Err CallValueError else Ok (Some s)
              end
  end.

Definition serialize_result (result : option V) (result_bytes : option string)
  : Prelude.result call_err (option string) :=
  match result, result_bytes with
  | Some _, Some _ => Err CallValueError
  | _, Some b =>
      if String.eqb b "" then Err CallValueError
      else if contains_nul b then Err CallValueError
      else if loads_ok b then Ok (Some b) else Err CallValueError
  | _, None => jsonb_param result
  end.

Definition mark_succeeded_on_conn (clk : nat -> Z) (id : Z) (f : fence) (result : option V)
    (result_bytes : option string) (seq : Z) (state : option jobj) (fallback : option Z)
    (max_result_bytes : Z) (d : db) : Prelude.result call_err (db * bool) :=
  let* ser := serialize_result result result_bytes in
  let size := option_map (fun s => Z.of_nat (String.length s)) ser in
  if match size with Some n => max_result_bytes <? n | None => false end then Err CallResultTooLarge
  else
    let* r := lift (mark_succeeded clk id f ser size seq state fallback d) in
    Ok (fst r, match snd r with Some _ => true | None => false end).
End mark_succeeded_call.

Definition mark_failed_call (clk : nat -> Z) (id : Z) (f : fence) (cls msg tb : option string) (seq : Z)
    (state : option jobj) (d : db) : result call_err (db * job) :=
  let* r := lift (mark_failed clk id f cls msg tb seq state d) in
  match snd r with
  | None => Err (WorkerOwnershipMismatch id (f_worker f) (select_owner (fst r) id))
  | Some row => Ok (fst r, row)
  end.

Definition mark_retry_call (clk : nat -> Z) (id : Z) (f : fence) (retry_delay : Z)
    (cls msg tb : option string) (seq : Z) (state : option jobj) (d : db) : result call_err (db * job) :=
  let* r := lift (mark_retry clk id f retry_delay cls msg tb seq state d) in
  match snd r with
  | None => Err (WorkerOwnershipMismatch id (f_worker f) (select_owner (fst r) id))
  | Some (b, row) =>
      match b with
      | B_retried | B_deadline_failed => Ok (fst r, row)
      | _ => Err CallAssertionError
      end
  end.

Definition mark_failed_or_retry (clk : nat -> Z) (id : Z) (f : fence) (cls msg tb : option string)
    (retry_delay : option Z) (seq : Z) (state : option jobj) (d : db) : result call_err (db * job) :=
  match retry_delay with
  | None => mark_failed_call clk id f cls msg tb seq state d
  | Some delay => mark_retry_call clk id f delay cls msg tb seq state d
  end.

Inductive SnoozeResult := S_scheduled | S_failed | S_noop.

Definition mark_snoozed_call (clk : nat -> Z) (id : Z) (f : fence) (delay : Z) (meta : option jobj)
    (seq : Z) (state : option jobj) (outcome : SnoozeOutcome) (reason : DenialReason) (d : db)
  : result call_err (db * SnoozeResult) :=
  let* r := lift (mark_snoozed clk id f delay meta seq state outcome reason d) in
  match snd r with
  | None => Ok (fst r, S_noop)
  | Some (b, _) =>
      match b with
      | B_snoozed => Ok (fst r, S_scheduled)
      | B_cancelled => Ok (fst r, S_noop)
      | B_failed => Ok (fst r, S_failed)
      | _ => Err CallAssertionError
      end
  end.

Inductive RetryAfterResult := R_scheduled | R_failed_deadline | R_failed_max_attempts | R_noop.

Definition mark_retry_after (clk : nat -> Z) (id : Z) (f : fence) (delay : Z) (consume_budget : bool)
    (seq : Z) (state : option jobj) (d : db) : result call_err (db * RetryAfterResult) :=
  let* r := lift (if consume_budget then mark_retry_after_consume_true clk id f delay seq state d
                  else mark_retry_after_consume_false clk id f delay seq state d) in
  match snd r with
  | None => Ok (fst r, R_noop)
  | Some (b, _) =>
      match b with
      | B_snoozed => Ok (fst r, R_scheduled)
      | B_cancelled => Ok (fst r, R_noop)
      | B_max_attempts_failed => Ok (fst r, R_failed_max_attempts)
      | B_deadline_failed => Ok (fst r, R_failed_deadline)
      | _ => Err CallAssertionError
      end
  end.

Inductive InterruptResult := I_pending | I_scheduled | I_failed_deadline | I_noop.

Definition mark_interrupted_call (clk : nat -> Z) (id : Z) (f : fence) (hold seq : Z)
    (state : option jobj) (d : db) : result call_err (db * InterruptResult) :=
  let* r := lift (mark_interrupted clk id f hold seq state d) in
  match snd r with
  | None => Ok (fst r, I_noop)
  | Some (b, row) =>
      match b with
      | B_released => Ok (fst r, if is_status pending row then I_pending else I_scheduled)
      | B_deadline_failed => Ok (fst r, I_failed_deadline)
      | _ => Err CallAssertionError
      end
  end.

(** [_mark_cancelled] and [_mark_abandoned] report whether a row was written. *)
Definition wrote (m : result db_err (db * option job)) : result call_err (db * bool) :=
  let* r := lift m in Ok (fst r, match snd r with Some _ => true | None => false end).

Definition mark_cancelled_call (clk : nat -> Z) (id : Z) (f : fence) (seq : Z) (state : option jobj) (d : db)
  : result call_err (db * bool) := wrote (mark_cancelled clk id f seq state d).

Definition mark_abandoned_call (clk : nat -> Z) (id seq : Z) (state : option jobj) (d : db)
  : result call_err (db * bool) := wrote (mark_abandoned clk id seq state d).

(** [_write_attempt]: the explicit insert, [started_at] and [finished_at] from the caller. *)
Definition write_attempt (id att : Z) (row : attempt_row) (d : db) : result call_err db :=
  lift (insert_attempt id att (Some (a_started_at row)) (a_finished_at row) (a_outcome row)
          (a_error_class row) (a_error_message row) (a_error_traceback row) (a_duration_ms row)
          (holder d (a_worker_id row)) (a_due_at row) d).
