(* ===== verification/Control.v ===== *)
(** * Claims, lease renewal, cancel requests and operator retries

    The statements that take a row from [pending] to [running]
    ([backend/_dispatch_sql.py]), keep its lease alive ([backend/_sql.py]), record a
    cancel and its escalation, and put a finished job back ([backend/_sql_templates.py],
    [backend/postgres.py]). *)

From Stdlib Require Import ZArith Lia QArith.
From stdpp Require Import base tactics list gmap strings.
From S2P Require Import Prelude Retry JobRow Terminal.

Open Scope Z_scope.

(** ** Dispatch: the claiming UPDATE

    [eligible] is the id array the candidate CTEs produced; the final WHERE re-checks each
    row.  [wf_fence] is the workflow conjunct spliced into the statement. *)

Section claim.
Variable wf_fence : job -> bool.

Definition claim_where (j : job) : bool :=
  is_status pending j && (deps_pending j =? 0) && wf_fence j.

Definition claim_set (started heartbeat lease_base worker lock_lease : Z) (j : job) : job :=
  j <| status := running |> <| started_at := Some started |> <| finished_at := None |>
    <| last_heartbeat_at := Some heartbeat |> <| locked_by_worker := Some worker |>
    <| lock_expires_at := Some (lease_base + lock_lease) |>
    <| error_class := None |> <| error_message := None |> <| error_traceback := None |>
    <| result_json := None |> <| result_size_bytes := None |>
    <| attempt ::= fun a => Z.min (a + 1) SMALLINT_MAX |>
    <| claim_epoch ::= fun e => e + 1 |>.

Definition claim_row (clk : nat -> Z) (worker lock_lease : Z) (id : Z) (d : db) : db :=
  match select_row d id claim_where with
  | Some j => write_row id (claim_set (clk 0%nat) (clk 1%nat) (clk 2%nat) worker lock_lease j) d
  | None => d
  end.

(** [WHERE j.id = ANY(eligible)]: each row of the array once, three clock reads per row. *)
Fixpoint claim_rows (clk : nat -> Z) (worker lock_lease : Z) (eligible : list Z) (d : db) : db :=
  match eligible with
  | [] => d
  | id :: rest =>
      claim_rows (fun n => clk (3 + n)%nat) worker lock_lease rest
        (claim_row clk worker lock_lease id d)
  end.
End claim.

(** ** Lease renewal *)

Definition renew_where (worker : Z) (disowned : gset Z) (id : Z) (j : job) : bool :=
  sql_eq (locked_by_worker j) (Some worker) && is_status running j && negb (bool_decide (id ∈ disowned)).

Definition renew_set (now1 now2 lease : Z) (j : job) : job :=
  j <| last_heartbeat_at := Some now1 |> <| lock_expires_at := Some (now2 + lease) |>.

(** The unconditional renewal: every running row the worker holds and has not disowned. *)
Definition update_jobs_lock (now1 now2 : Z -> Z) (worker lease : Z) (disowned : gset Z) (d : db) : db :=
  d <| jobs ::= map_imap (fun id j =>
         Some (if renew_where worker disowned id j then renew_set (now1 id) (now2 id) lease j else j)) |>.

(** ** Cancel *)

Definition waiting (s : JobStatus) : bool := bool_decide (s = pending \/ s = scheduled).

Definition cancel_request_where (j : job) : bool :=
  waiting (status j) || (is_status running j && (cancel_phase j =? 0)).

Definition cancel_request_set (now1 now2 : Z) (j : job) : job :=
  let w := waiting (status j) in
  let r := is_status running j && (cancel_phase j =? 0) in
  j <| status ::= fun s => if w then cancelled else s |>
    <| finished_at ::= fun t => if w then Some now1 else t |>
    <| error_class ::= fun c => if w then Some CANCEL_ORIGIN_PENDING else c |>
    <| cancel_requested_at ::= fun t => if r then Some now2 else t |>
    <| cancel_phase ::= fun p => if r then 1 else p |>.

Definition cancel_request (clk : nat -> Z) (id : Z) (reason : option string) (d : db)
  : db * option (JobStatus * option Z) :=
  match select_row d id cancel_request_where with
  | None => (d, None)
  | Some j =>
      let u := cancel_request_set (clk 0%nat) (clk 1%nat) j in
      let ts := clk 2%nat in
      let d := write_row id u d in
      let d := if waiting (status j)
               then insert_event id ts "state_change" (state_change (status_text (status j)) "cancelled") d
               else d in
      let d := insert_event id ts "cancel_request" (jsonb_strip_nulls {["reason" := jopt reason]}) d in
      (d, Some (status j, locked_by_worker u))
  end.

(** [write_cancel_request]: false means there was nothing left to cancel. *)
Definition write_cancel_request (clk : nat -> Z) (id : Z) (reason : option string) (d : db) : db * bool :=
  let r := cancel_request clk id reason d in
  (fst r, match snd r with Some _ => true | None => false end).

Definition escalation_where (worker : Z) (j : job) : bool :=
  is_status running j && sql_eq (locked_by_worker j) (Some worker) && (cancel_phase j =? 1).

Definition write_cancel_escalation (clk : nat -> Z) (id worker phase : Z) (d : db)
  : result call_err (db * bool) :=
  if negb (phase =? 2) then Err CallValueError
  else
    match select_row d id (escalation_where worker) with
    | None => Ok (d, false)
    | Some j =>
        let detail := <["cancel_phase_to" := JInt 2]> (<["cancel_phase_from" := JInt 1]>
                        (with_worker worker (state_change "running" "running"))) in
        Ok (insert_event id (clk 0%nat) "state_change" detail (write_row id (j <| cancel_phase := 2 |>) d), true)
    end.

(** ** Operator retry *)

Definition raised_ceiling (j : job) : Z := Z.min (Z.max (max_attempts j) (attempt j + 1)) 32767.

Definition retry_job_where (j : job) : bool :=
  terminal (status j) && (attempt j <? raised_ceiling j).

Definition retry_job_set (now1 now2 : Z) (j : job) : job :=
  j <| status := pending |> <| max_attempts := raised_ceiling j |> <| assignment_routed := true |>
    <| cancel_phase := 0 |> <| cancel_requested_at := None |>
    <| error_class := None |> <| error_message := None |> <| error_traceback := None |>
    <| scheduled_at := now1 |>
    <| schedule_to_close ::= fun s => match s with
                                      | Some t => if t <=? now2 then None else Some t
                                      | None => None
                                      end |>
    <| finished_at := None |> <| result_json := None |> <| result_size_bytes := None |>
    <| result_expires_at := None |>.

(** [metadata->>'batch_id'] cast to uuid. *)
Definition batch_of (j : job) : result db_err (option Z) :=
  match metadata j !! "batch_id"%string with
  | None | Some JNull => Ok None
  | Some (JUuid u) => Ok (Some u)
  | Some _ => Err InvalidText
  end.

Definition reopen_batch (b : option Z) (d : db) : db * bool :=
  match b with
  | None => (d, false)
  | Some b => match batches d !! b with
              | Some {| b_status := b_active |} | None => (d, false)
              | Some r => (d <| batches ::= fun m => <[b := r <| b_status := b_active |> <| b_completed_at := None |>]> m |>, true)
              end
  end.

Definition retry_job (clk : nat -> Z) (id : Z) (d : db) : result db_err (db * bool) :=
  match select_row d id retry_job_where with
  | None => Ok (d, false)
  | Some j =>
      let* b := batch_of j in
      Ok (fst (reopen_batch b (write_row id (retry_job_set (clk 0%nat) (clk 1%nat) j) d)), true)
  end.
