(* ===== verification/Sweeps.v ===== *)
(** * The leader's job sweeps and the heartbeat isolate

    [src/taskq/backend/_sweeps.py]: crash reclaim (sweep 1), overdue deadlines (sweep 2) and
    promotion of due jobs (sweep 3), each with the attempt and event rows it writes in the
    same transaction; and the isolate statement of [src/taskq/worker/heartbeat.py].

    A sweep's candidate CTE orders the eligible rows by its index key, skips the rows other
    transactions hold ([held]) and takes at most [batch_size].  [st] is
    [statement_timestamp()]; [clk p i] is the [p]-th per-row clock read of row [i].  A
    transaction that raises leaves the database unchanged. *)

From Stdlib Require Import ZArith Lia QArith.
From stdpp Require Import base tactics list gmap strings sorting.
From S2P Require Import Prelude PyFloat Retry JobRow Terminal.

Open Scope Z_scope.

(** [ORDER BY key LIMIT n FOR UPDATE SKIP LOCKED] over the rows satisfying [p]. *)
Definition by_key (key : job -> Z) (a b : Z * job) : Prop := key a.2 <= key b.2.

#[export] Instance by_key_dec key a b : Decision (by_key key a b).
Proof. unfold by_key. apply _. Defined.

Definition candidates (key : job -> Z) (p : job -> bool) (held : gset Z) (limit : nat) (d : db)
  : list (Z * job) :=
  take limit
    (merge_sort (by_key key)
       (filter (fun kv => p kv.2 = true /\ kv.1 ∉ held) (map_to_list (jobs d)))).

Definition write_rows (rows : list (Z * job)) (d : db) : db :=
  foldl (fun d kv => write_row kv.1 kv.2 d) d rows.

Inductive reclaim_reason := lock_expired | heartbeat_timeout_reason.

#[export] Instance reclaim_reason_eq_dec : EqDecision reclaim_reason.
Proof. solve_decision. Defined.

Section sweeps.
Context `{Rounding}.

(** [compute_duration_ms]: [int((finished - started).total_seconds() * 1000)], then bound
    to an int4 array element. *)
Definition compute_duration_ms (started finished : option Z) : option Z :=
  match started, finished with
  | Some s, Some f => Some (Qtrunc (fmul (total_seconds (f - s)) 1000))
  | _, _ => None
  end.

Definition bind_int4 (v : option Z) : result db_err (option Z) :=
  match v with
  | None => Ok None
  | Some z => if (- 2 ^ 31 <=? z) && (z <? 2 ^ 31) then Ok (Some z) else Err IntOutOfRange
  end.

(** ** Sweep 1: crash reclaim *)

Definition RECLAIM_HAS_BUDGET (j : job) : bool :=
  bool_decide (retry_kind j = indefinite) ||
  ((attempt j <? max_attempts j) && bool_decide (retry_kind j <> non_retryable)).

Definition reclaim_view (id : Z) (j : job) : reclaim_row :=
  {| j_id := id; j_attempt := attempt j; j_retry_base_seconds := retry_base_seconds j;
     j_retry_cap_seconds := retry_cap_seconds j; j_retry_backoff := retry_backoff j;
     j_retry_jitter := retry_jitter j |}.

(** [delay * interval '1 second']: rounded to whole microseconds. *)
Definition reclaim_interval (id : Z) (j : job) (max_backoff_seconds : Q) : Z :=
  rne (fmul (RECLAIM_DELAY_SQL (reclaim_view id j) max_backoff_seconds) (inject_Z usec_per_sec)).

Definition reason_text (r : reclaim_reason) : string :=
  match r with lock_expired => "lock_expired" | heartbeat_timeout_reason => "heartbeat_timeout" end.

Definition ATTEMPT_MESSAGES (r : reclaim_reason) : string :=
  match r with
  | lock_expired => "lock expired before worker reported terminal state"
  | heartbeat_timeout_reason => "heartbeat timeout passed before worker reported terminal state"
  end.

Definition ISOLATE_CRASHED_MESSAGE : string :=
  "worker heartbeat connection lost before terminal state was reported".

Definition opt_lt (a : option Z) (t : Z) : bool := match a with Some x => x <? t | None => false end.
Definition opt_ge (a : option Z) (t : Z) : bool := match a with Some x => t <=? x | None => false end.

Definition sixty_seconds : Z := 60 * usec_per_sec.

Definition lease_arm_where (st cancel_grace cleanup_grace : Z) (j : job) : bool :=
  is_status running j && opt_lt (lock_expires_at j) st &&
  (no_cancel j || opt_lt (lock_expires_at j) (st - cancel_grace - cleanup_grace - sixty_seconds)).

(** [last_heartbeat_at + heartbeat_timeout]. *)
Definition heartbeat_deadline (j : job) : option Z :=
  match last_heartbeat_at j, heartbeat_timeout j with
  | Some b, Some t => Some (b + t)
  | _, _ => None
  end.

Definition heartbeat_arm_where (st cancel_grace cleanup_grace : Z) (j : job) : bool :=
  is_status running j &&
  match heartbeat_timeout j with Some t => 0 <? t | None => false end &&
  opt_ge (lock_expires_at j) st && opt_lt (last_heartbeat_at j) st &&
  opt_lt (heartbeat_deadline j) st &&
  (no_cancel j || opt_lt (heartbeat_deadline j) (st - cancel_grace - cleanup_grace - sixty_seconds)).

(** The SET clause sweep 1 and the isolate share, with the crashed arm's own stamps. *)
Definition reclaim_set (crash_class crash_message : string) (t_sched t_fin delay : Z) (j : job) : job :=
  let cancel := negb (cancel_phase j =? 0) in
  let budget := RECLAIM_HAS_BUDGET j in
  j <| status := if cancel then cancelled else if budget then pending else crashed |>
    <| locked_by_worker := None |> <| lock_expires_at := None |>
    <| cancel_phase ::= fun p => if negb (p =? 0) then p else 0 |>
    <| cancel_requested_at ::= fun t => if cancel then t else None |>
    <| assignment_routed := true |>
    <| scheduled_at ::= fun s => if negb cancel && budget then t_sched + delay else s |>
    <| finished_at ::= fun t => if cancel || negb budget then Some t_fin else t |>
    <| error_class ::= fun c => if negb budget && negb cancel then Some crash_class else c |>
    <| error_message ::= fun m => if negb budget && negb cancel then Some crash_message else m |>.

Record reclaimed := { rc_id : Z; rc_old : job; rc_new : job; rc_reason : reclaim_reason; rc_now : Z }.

Definition sweep_1_snap (st cancel_grace cleanup_grace : Z) (held : gset Z) (limit : nat) (d : db)
  : list (Z * job * reclaim_reason) :=
  map (fun kv => (kv, lock_expired))
    (candidates (fun j => default 0 (lock_expires_at j)) (lease_arm_where st cancel_grace cleanup_grace)
       held limit d) ++
  map (fun kv => (kv, heartbeat_timeout_reason))
    (candidates (fun j => default 0 (last_heartbeat_at j)) (heartbeat_arm_where st cancel_grace cleanup_grace)
       held limit d).

Definition sweep_1_update (clk : nat -> nat -> Z) (mbs : Q) (snap : list (Z * job * reclaim_reason))
  : list reclaimed :=
  imap (fun i x => let '(id, j, r) := x in
    {| rc_id := id; rc_old := j;
       rc_new := reclaim_set ERROR_CLASS_WORKER_CRASHED (ATTEMPT_MESSAGES r) (clk 0%nat i) (clk 1%nat i)
                   (reclaim_interval id j mbs) j;
       rc_reason := r; rc_now := clk 2%nat i |}) snap.

(** The batched attempt insert: rows with no standing claim record none; the stamp is a
    microsecond ladder on the row ordinal. *)
Definition sweep_1_attempt (clk : nat -> nat -> Z) (i : nat) (row : reclaimed) (ms : option Z) (d : db) : db :=
  match started_at (rc_new row) with
  | None => d
  | Some _ =>
      match insert_attempt (rc_id row) (attempt (rc_new row)) (started_at (rc_new row))
              (Some (clk 3%nat i + Z.of_nat i)) A_crashed (Some ERROR_CLASS_WORKER_CRASHED)
              (Some (ATTEMPT_MESSAGES (rc_reason row))) None ms
              (holder d (locked_by_worker (rc_old row))) (Some (scheduled_at (rc_old row))) d with
      | Ok d' => d'
      | Err _ => d
      end
  end.

Definition reclaim_detail (row : reclaimed) : jobj :=
  let base := <["cause" := JStr (reason_text (rc_reason row))]>
                (<["reason" := JStr "lock_expired"]>
                  (state_change "running" (status_text (status (rc_new row))))) in
  match locked_by_worker (rc_old row) with Some w => with_worker w base | None => base end.

Fixpoint sweep_1_inserts (clk : nat -> nat -> Z) (i : nat) (rows : list (reclaimed * option Z)) (d : db) : db :=
  match rows with
  | [] => d
  | (row, ms) :: rest => sweep_1_inserts clk (S i) rest (sweep_1_attempt clk i row ms d)
  end.

Fixpoint sweep_1_events (clk : nat -> nat -> Z) (i : nat) (rows : list reclaimed) (d : db) : db :=
  match rows with
  | [] => d
  | row :: rest =>
      sweep_1_events clk (S i) rest
        (insert_event (rc_id row) (clk 4%nat i + Z.of_nat i) "state_change" (reclaim_detail row) d)
  end.

Definition sweep_expired_locks (clk : nat -> nat -> Z) (st cancel_grace cleanup_grace : Z) (mbs : Q)
    (held : gset Z) (batch_size : nat) (d : db) : result db_err (db * list reclaimed) :=
  let rows := sweep_1_update clk mbs (sweep_1_snap st cancel_grace cleanup_grace held batch_size d) in
  let d1 := write_rows (map (fun r => (rc_id r, rc_new r)) rows) d in
  let* ms := traverse (fun r => bind_int4 (compute_duration_ms (started_at (rc_new r)) (Some (rc_now r)))) rows in
  Ok (sweep_1_events clk 0 rows (sweep_1_inserts clk 0 (combine rows ms) d1), rows).

(** ** Sweep 2: overdue schedule_to_close *)

Definition sweep_2_where (st : Z) (j : job) : bool :=
  bool_decide (status j = pending \/ status j = scheduled) && opt_lt (schedule_to_close j) st.

Definition sweep_2_set (t_fin : Z) (j : job) : job :=
  j <| status := failed |> <| finished_at := Some t_fin |>
    <| error_class := Some ERROR_CLASS_DEADLINE_EXCEEDED |>
    <| error_message := Some DEADLINE_EXCEEDED_MESSAGE |>.

Record swept := { sw_id : Z; sw_old : job; sw_new : job; sw_now : Z }.

Definition sweep_2_update (clk : nat -> nat -> Z) (snap : list (Z * job)) : list swept :=
  imap (fun i kv => {| sw_id := kv.1; sw_old := kv.2; sw_new := sweep_2_set (clk 0%nat i) kv.2;
                       sw_now := clk 1%nat i |}) snap.

Definition sweep_2_attempt (clk : nat -> nat -> Z) (i : nat) (row : swept) (ms : option Z) (d : db) : db :=
  match insert_attempt (sw_id row) (attempt (sw_new row))
          (Some (match started_at (sw_new row) with Some s => s | None => clk 2%nat i + Z.of_nat i end))
          (Some (clk 3%nat i + Z.of_nat i)) A_failed (Some ERROR_CLASS_DEADLINE_EXCEEDED)
          (Some DEADLINE_EXCEEDED_MESSAGE) None ms None (Some (scheduled_at (sw_old row))) d with
  | Ok d' => d'
  | Err _ => d
  end.

Definition deadline_detail (row : swept) : jobj :=
  with_class (JStr ERROR_CLASS_DEADLINE_EXCEEDED) (state_change (status_text (status (sw_old row))) "failed").

Fixpoint sweep_2_inserts (clk : nat -> nat -> Z) (i : nat) (rows : list (swept * option Z)) (d : db) : db :=
  match rows with
  | [] => d
  | (row, ms) :: rest => sweep_2_inserts clk (S i) rest (sweep_2_attempt clk i row ms d)
  end.

Fixpoint sweep_2_events (clk : nat -> nat -> Z) (i : nat) (rows : list swept) (d : db) : db :=
  match rows with
  | [] => d
  | row :: rest =>
      sweep_2_events clk (S i) rest
        (insert_event (sw_id row) (clk 4%nat i + Z.of_nat i) "state_change" (deadline_detail row) d)
  end.

Definition sweep_deadline_exceeded (clk : nat -> nat -> Z) (st : Z) (held : gset Z) (batch_size : nat) (d : db)
  : result db_err (db * list swept) :=
  let rows := sweep_2_update clk
                (candidates (fun j => default 0 (schedule_to_close j)) (sweep_2_where st) held batch_size d) in
  let d1 := write_rows (map (fun r => (sw_id r, sw_new r)) rows) d in
  let* ms := traverse (fun r => bind_int4 (compute_duration_ms (started_at (sw_new r)) (Some (sw_now r)))) rows in
  Ok (sweep_2_events clk 0 rows (sweep_2_inserts clk 0 (combine rows ms) d1), rows).

(** ** Sweep 3: due jobs *)

Definition sweep_3_where (st : Z) (j : job) : bool := is_status scheduled j && (scheduled_at j <=? st).

Definition sweep_scheduled_to_pending (st : Z) (held : gset Z) (batch_size : nat) (d : db) : db * list Z :=
  let rows := candidates scheduled_at (sweep_3_where st) held batch_size d in
  (write_rows (map (fun kv => (kv.1, kv.2 <| status := pending |>)) rows) d, map fst rows).

(** ** The isolate statement *)

Definition isolate_job (t_sched t_fin : Z) (mbs : Q) (id worker : Z) (d : db) : db * option job :=
  match select_row d id (fun j => is_status running j && sql_eq (locked_by_worker j) (Some worker)) with
  | None => (d, None)
  | Some j =>
      let u := reclaim_set ERROR_CLASS_HEARTBEAT_LOST ISOLATE_CRASHED_MESSAGE t_sched t_fin
                 (reclaim_interval id j mbs) j in
      (write_row id u d, Some u)
  end.
End sweeps.
