(* ===== verification/Upkeep.v ===== *)
(** * The other writers of job rows

    The statements on [jobs] that neither claim, end, renew nor sweep one claim: the refund of claims
    a worker lost ([worker/heartbeat.py]) and the hand-back of claims it never started
    ([worker/shutdown.py]), the expiry of stored results ([backend/_sweeps.py]), bulk cancels
    ([backend/_cancel_bulk.py]), the cancels of a deregistration ([actor_config_ops.py]) and of an
    aborted batch ([backend/_batch_sql.py]).
    Each is one UPDATE; [now id] is a clock read for the row [id]. *)

From Stdlib Require Import ZArith Lia.
From stdpp Require Import base tactics list gmap strings.
From S2P Require Import Prelude PyFloat Retry JobRow Terminal Control Sweeps.

Open Scope Z_scope.

Definition is_set {A} (x : option A) : bool := match x with Some _ => true | None => false end.

(** [UPDATE jobs SET f WHERE p]. *)
Definition update_where (p : Z -> job -> bool) (f : Z -> job -> job) (d : db) : db :=
  d <| jobs ::= map_imap (fun id j => Some (if p id j then f id j else j)) |>.

(** No row of the attempt ledger for the row's current attempt. *)
Definition unrecorded (d : db) (id : Z) (j : job) : bool :=
  match attempts d !! (id, attempt j) with Some _ => false | None => true end.

(** ** The heartbeat's reconcile of lost claims *)

(** [excluded] are the jobs this process holds, the [$2] of the statement. *)
Definition reconcile_where (now : Z -> Z) (worker lease : Z) (excluded : gset Z) (d : db) (id : Z) (j : job) : bool :=
  sql_eq (locked_by_worker j) (Some worker) && is_status running j && no_cancel j &&
  negb (bool_decide (id ∈ excluded)) && opt_lt (started_at j) (now id - lease) && unrecorded d id j.

Definition reconcile_set (j : job) : job := ATTEMPT_REFUND j <| started_at := None |>.

Definition reconcile_lost_claims (now : Z -> Z) (worker lease : Z) (excluded : gset Z) (d : db) : db :=
  update_where (reconcile_where now worker lease excluded d) (fun _ => reconcile_set) d.

(** ** The drain of claimed jobs at shutdown *)

Definition drain_where (worker : Z) (active disowned : gset Z) (d : db) (id : Z) (j : job) : bool :=
  sql_eq (locked_by_worker j) (Some worker) && is_status running j && no_cancel j && unrecorded d id j &&
  is_set (started_at j) && negb (bool_decide (id ∈ active)) && negb (bool_decide (id ∈ disowned)).

Definition drain_set (j : job) : job :=
  ATTEMPT_REFUND (lock_clear (j <| status := pending |>)) <| assignment_routed := true |>.

Definition drain_local_queue_to_pending (worker : Z) (active disowned : gset Z) (d : db) : db :=
  update_where (drain_where worker active disowned d) (fun _ => drain_set) d.

(** ** Expired results *)

Definition expire_result (j : job) : job := j <| result_json := None |> <| result_size_bytes := None |>.

(** [guarded] are the rows the workflow guard protects: parents of a join that has not fired. *)
Definition result_ttl_where (st : Z) (guarded : gset Z) (id : Z) (j : job) : bool :=
  opt_lt (result_expires_at j) st && is_set (result_json j) && negb (bool_decide (id ∈ guarded)).

(** The window is any [batch_size] eligible rows: [scan] is the order in which the scan meets them. *)
Definition result_ttl_window (st : Z) (guarded : gset Z) (scan : list Z) (batch_size : nat) (d : db) : list Z :=
  take batch_size
    (filter (fun id => match jobs d !! id with Some j => result_ttl_where st guarded id j | None => false end = true) scan).

Definition sweep_result_ttl (st : Z) (guarded : gset Z) (scan : list Z) (batch_size : nat) (d : db) : db :=
  let expired := result_ttl_window st guarded scan batch_size d in
  update_where (fun id j => bool_decide (id ∈ expired) && is_set (result_json j)) (fun _ => expire_result) d.

(** ** Bulk cancels

    [ids] is the window of an arm; the WHERE re-checks each row as it stands when it is locked. *)

Definition cancel_waiting_set (now : Z) (class : string) (j : job) : job :=
  j <| status := cancelled |> <| finished_at := Some now |> <| error_class := Some class |>.

Definition bulk_cancel_waiting (now : Z -> Z) (ids : gset Z) (d : db) : db :=
  update_where (fun id j => bool_decide (id ∈ ids) && waiting (status j))
    (fun id => cancel_waiting_set (now id) CANCEL_ORIGIN_PENDING) d.

Definition cancel_running_set (now : Z) (j : job) : job :=
  j <| cancel_requested_at := Some now |> <| cancel_phase := 1 |>.

Definition bulk_cancel_running (now : Z -> Z) (ids : gset Z) (d : db) : db :=
  update_where (fun id j => bool_decide (id ∈ ids) && is_status running j && no_cancel j)
    (fun id => cancel_running_set (now id)) d.

Definition ERROR_CLASS_ACTOR_DEREGISTERED : string := "ActorDeregistered".
Definition DEREGISTERED_MESSAGE : string := "Job cancelled by actor deregistration (force=True)".

Definition deregister_cancel_pending (now : Z -> Z) (ids : gset Z) (d : db) : db :=
  update_where (fun id j => bool_decide (id ∈ ids) && waiting (status j))
    (fun id j => cancel_waiting_set (now id) ERROR_CLASS_ACTOR_DEREGISTERED j <| error_message := Some DEREGISTERED_MESSAGE |>) d.

(** A page of a batch abort ([backend/_batch_sql.py]), on the rows [ids] it windowed. *)
Definition ERROR_CLASS_BATCH_ABORTED : string := "BatchAbortedError".

Definition abort_set (t1 t2 : Z) (j : job) : job :=
  j <| status := cancelled |> <| finished_at := Some t1 |>
    <| error_class := Some ERROR_CLASS_BATCH_ABORTED |>
    <| error_message := Some "Batch aborted due to consecutive failures"%string |>
    <| cancel_requested_at := Some t2 |> <| cancel_phase := 2 |>.

Definition abort_batch_jobs (clk : nat -> Z -> Z) (ids : gset Z) (d : db) : db :=
  update_where (fun id j => bool_decide (id ∈ ids) && waiting (status j))
    (fun id => abort_set (clk 0%nat id) (clk 1%nat id)) d.
