(* ===== verification/Progress.v ===== *)
(** * Progress: the coalescing buffer and its flush

    [src/taskq/progress/_buffer.py], [src/taskq/progress/_flush.py] and
    [JobContext.progress] of [src/taskq/context.py].  A running job reports progress into a
    buffer; a tick or a pre-terminal flush merges the buffered delta into the job's row; the
    write that ends the claim carries what is left.  The flush awaits the database, so it
    is split where the coroutine is suspended: begin (snapshot), the UPDATE, and end
    (retire, drop or leave dirty), with reports landing in between. *)

From Stdlib Require Import ZArith Lia.
From stdpp Require Import base tactics list gmap strings.
From S2P Require Import Prelude JobRow.

Open Scope Z_scope.

(** ** The buffer *)

Record buffer := {
  base_seq : Z;
  b_attempt : Z;
  pending_seq_delta : Z;
  pending_state : jobj;
  dirty : bool;
  flush_in_flight : bool
}.

#[export] Instance buffer_copy : Copy buffer := fun b =>
  {| base_seq := base_seq b; b_attempt := b_attempt b; pending_seq_delta := pending_seq_delta b;
     pending_state := pending_state b; dirty := dirty b; flush_in_flight := flush_in_flight b |}.

(** The consumer's buffer of a fresh claim: seeded from the claimed row. *)
Definition new_buffer (j : job) : buffer :=
  {| base_seq := progress_seq j; b_attempt := attempt j; pending_seq_delta := 0;
     pending_state := ∅; dirty := false; flush_in_flight := false |}.

(** [_consume_state_change_seq]. *)
Definition consume_state_change_seq (b : option buffer) : option buffer * Z :=
  match b with
  | None => (None, 0)
  | Some b =>
      let b' := b <| pending_seq_delta ::= fun d => d + 1 |> in
      (Some b', base_seq b' + pending_seq_delta b')
  end.

(** [_terminal_seq_and_state]. *)
Definition terminal_seq_and_state (b : option buffer) : Z * jobj :=
  match b with
  | None => (0, ∅)
  | Some b => (base_seq b + pending_seq_delta b + 1, pending_state b)
  end.

(** [_seq_and_state_after_flush_attempt]. *)
Definition seq_and_state_after_flush_attempt (b : option buffer) : Z * option jobj :=
  let '(seq, state) := terminal_seq_and_state b in
  if decide (state = ∅) then (seq, None) else (seq, Some state).

(** ** [JobContext.progress] *)

Inductive number := Finite (v : jval) | NonFinite.

Record report := {
  r_step : option Z;
  r_percent : option number;
  r_detail : option string;
  r_data : option jval
}.

Inductive progress_err := NotFinite | ProgressTooLarge (limit actual : Z) | NulInJsonb.

Section report.
(** The JSON encoder: the length of a value's encoding, and whether it holds a NUL. *)
Variables (encoded_size : jval -> Z) (has_nul : jval -> bool).

(** The size cap and NUL guard on one value. *)
Definition check_encoded (limit : Z) (v : jval) : result progress_err unit :=
  if limit <? encoded_size v then Err (ProgressTooLarge limit (encoded_size v))
  else if has_nul v then Err NulInJsonb
  else Ok tt.

Definition check_option (limit : Z) (v : option jval) : result progress_err unit :=
  match v with Some v => check_encoded limit v | None => Ok tt end.

(** [max_bytes] is the settings' cap when settings are wired into the context. *)
Definition progress_guards (max_bytes : option Z) (r : report) : result progress_err unit :=
  let* _ := match r_percent r with Some NonFinite => Err NotFinite | _ => Ok tt end in
  match max_bytes with
  | None => Ok tt
  | Some limit =>
      let* _ := check_option limit (r_data r) in
      check_option limit (JStr <$> r_detail r)
  end.

(** The keys a report sets. *)
Definition report_state (r : report) : jobj :=
  let put k (v : option jval) (o : jobj) := match v with Some v => <[k := v]> o | None => o end in
  put "data" (r_data r)
    (put "detail" (JStr <$> r_detail r)
      (put "percent" (match r_percent r with Some (Finite v) => Some v | _ => None end)
        (put "step" (JInt <$> r_step r) ∅))).

(** The whole call: the buffer of the job's key ([None] when absent or unwired), the
    context's attempt; the seq of the event it publishes, if any. *)
Definition progress (max_bytes : option Z) (ctx_attempt : Z) (r : report) (b : option buffer) :
    result progress_err (option buffer * option Z) :=
  let* _ := progress_guards max_bytes r in
  match b with
  | None => Ok (None, None)
  | Some b =>
      if b_attempt b =? ctx_attempt then
        let b' := b <| pending_seq_delta ::= fun d => d + 1 |>
                    <| pending_state ::= fun s => jconcat s (report_state r) |>
                    <| dirty := true |> in
        Ok (Some b', Some (base_seq b' + pending_seq_delta b'))
      else Ok (Some b, None)
  end.
End report.

(** ** The flush UPDATE *)

(** [running], this worker, this attempt. *)
Definition flush_where (worker att : Z) (j : job) : bool :=
  is_status running j && sql_eq (locked_by_worker j) (Some worker) && (attempt j =? att).

Definition flush_row (worker att delta : Z) (state : jobj) (j : job) : option job :=
  if flush_where worker att j then
    Some (j <| progress_state ::= fun s => jconcat s state |> <| progress_seq ::= fun s => s + delta |>)
  else None.

(** One bound row of the unnest arrays. *)
Record snapshot := { sn_job : Z; sn_delta : Z; sn_state : jobj; sn_attempt : Z }.

(** The batched statement (job ids are unique in it): the table it leaves and the rows it
    returns. *)
Fixpoint flush_rows (worker : Z) (batch : list snapshot) (d : db) : db * gmap Z Z :=
  match batch with
  | [] => (d, ∅)
  | s :: rest =>
      let '(d', ret) := flush_rows worker rest d in
      match jobs d !! sn_job s with
      | None => (d', ret)
      | Some j =>
          match flush_row worker (sn_attempt s) (sn_delta s) (sn_state s) j with
          | None => (d', ret)
          | Some u => (write_row (sn_job s) u d', <[sn_job s := progress_seq u]> ret)
          end
      end
  end.

(** ** Flushing a buffer *)

Definition take_snapshot (id : Z) (b : buffer) : snapshot :=
  {| sn_job := id; sn_delta := pending_seq_delta b; sn_state := pending_state b; sn_attempt := b_attempt b |}.

(** [_flush_buffer_immediate] up to its await: nothing for a clean or latched buffer. *)
Definition flush_begin (id : Z) (b : buffer) : option (buffer * snapshot) :=
  if dirty b then
    if flush_in_flight b then None
    else Some (b <| flush_in_flight := true |>, take_snapshot id b)
  else None.

(** [_retire_flushed_snapshot]. *)
Definition retire_flushed_snapshot (returned_seq : Z) (s : snapshot) (b : buffer) : buffer :=
  let delta := pending_seq_delta b - sn_delta s in
  let state := filter (fun p => sn_state s !! p.1 <> Some p.2) (pending_state b) in
  b <| base_seq := returned_seq |> <| pending_seq_delta := delta |> <| pending_state := state |>
    <| dirty := negb (delta =? 0) || bool_decide (state <> ∅) |>.

Inductive flush_outcome :=
| Raised                      (* the statement or the pool failed *)
| NoRow                       (* the gate fenced the row out *)
| Returned (seq : Z).

(** After the await: the buffer goes on (retired or still dirty, its gate open), or is
    dropped. *)
Definition flush_end (s : snapshot) (o : flush_outcome) (b : buffer) : option buffer :=
  match o with
  | Raised => Some (b <| flush_in_flight := false |>)
  | NoRow => None
  | Returned seq => Some (retire_flushed_snapshot seq s b <| flush_in_flight := false |>)
  end.

(** [_drop_fenced_out_buffer] on the worker's dictionary of buffers (by object identity). *)
Definition drop_fenced_out (id : Z) (obj : nat) (buffers : gmap Z nat) : gmap Z nat :=
  if bool_decide (buffers !! id = Some obj) then base.delete id buffers else buffers.

(** ** The tick *)

Definition FLUSH_BATCH_ROWS : nat := 32.
Definition FLUSH_MAX_BATCHES_PER_TICK : nat := 8.

(** [encodable] is the jsonb rendering of a state: [false] where it raises. *)
Definition tick_snapshots (encodable : jobj -> bool) (dirty_set : list (Z * buffer)) : list snapshot :=
  omap (fun p => if flush_in_flight p.2 then None
                 else if encodable (pending_state p.2) then Some (take_snapshot p.1 p.2) else None)
    dirty_set.

(** [[l[i : i + n] for i in range(0, len(l), n)]]. *)
Fixpoint slices {A} (fuel n : nat) (l : list A) : list (list A) :=
  match fuel, l with
  | S fuel', _ :: _ => take n l :: slices fuel' n (drop n l)
  | _, _ => []
  end.

Definition tick_batches {A} (snapshots : list A) : list (list A) :=
  take FLUSH_MAX_BATCHES_PER_TICK (slices (length snapshots) FLUSH_BATCH_ROWS snapshots).
