(* ===== verification/Lifecycle.v ===== *)
(** * The job lifecycle: what every writer may do to a row

    The statements of [Terminal], [Control], [Sweeps] and [Upkeep] and the progress flush as one
    step relation on the database, with the row invariant they preserve, the transitions they make, and the
    fencing that lets at most one write end each claim. *)

From Stdlib Require Import ZArith Lia QArith.
From stdpp Require Import base tactics list gmap strings sorting.
From S2P Require Import Prelude PyFloat Retry JobRow Terminal Control Sweeps Upkeep Progress.

Open Scope Z_scope.

(** ** The worker's fenced writes *)

Inductive worker_write :=
| W_succeeded (res : option string) (size fallback : option Z)
| W_failed (cls msg tb : option string)
| W_retry (delay : Z) (cls msg tb : option string)
| W_cancelled
| W_snoozed (delay : Z) (meta : option jobj) (outcome : SnoozeOutcome) (reason : DenialReason)
| W_retry_after (consume_budget : bool) (delay : Z)
| W_interrupted (hold : Z).

Definition drop_branch (m : result db_err written) : result db_err (db * option job) :=
  match m with Ok (d, o) => Ok (d, option_map snd o) | Err e => Err e end.

Definition run_write (w : worker_write) (clk : nat -> Z) (id : Z) (f : fence) (seq : Z)
    (state : option jobj) (d : db) : result db_err (db * option job) :=
  match w with
  | W_succeeded res size fallback => mark_succeeded clk id f res size seq state fallback d
  | W_failed cls msg tb => mark_failed clk id f cls msg tb seq state d
  | W_retry delay cls msg tb => drop_branch (mark_retry clk id f delay cls msg tb seq state d)
  | W_cancelled => mark_cancelled clk id f seq state d
  | W_snoozed delay meta outcome reason =>
      drop_branch (mark_snoozed clk id f delay meta seq state outcome reason d)
  | W_retry_after consume delay =>
      drop_branch (if consume then mark_retry_after_consume_true clk id f delay seq state d
                   else mark_retry_after_consume_false clk id f delay seq state d)
  | W_interrupted hold => drop_branch (mark_interrupted clk id f hold seq state d)
  end.

(** A stale presentation: no row, or a row this fence does not match. *)
Definition stale (f : fence) (id : Z) (d : db) : Prop :=
  forall j, jobs d !! id = Some j -> JOB_FENCE f j = false.

Lemma select_row_stale f id d : stale f id d -> select_row d id (JOB_FENCE f) = None.
Proof.
  intros Hs. unfold select_row. destruct (jobs d !! id) eqn:E; [|done]. by rewrite (Hs _ E).
Qed.

Lemma run_write_stale w clk id f seq state d :
  stale f id d -> run_write w clk id f seq state d = Ok (d, None).
Proof.
  intros Hs. pose proof (select_row_stale f id d Hs) as Hsel.
  destruct w as [| | | | |[] |]; simpl; unfold mark_succeeded, mark_failed, mark_cancelled, mark_retry,
    mark_snoozed, mark_retry_after_consume_true, mark_retry_after_consume_false, mark_interrupted;
    rewrite ?Hsel; try done; destruct (jobs d !! id) as [j|] eqn:E; try done;
    specialize (Hs _ E);
    unfold mark_retry_retried, mark_retry_deadline_failed, deadline_cancelled_arm, mark_snoozed_snoozed,
      mark_snoozed_deadline_failed, retry_after_true_snoozed, retry_after_true_max_attempts,
      retry_after_true_deadline_failed, retry_after_false_snoozed, retry_after_false_deadline_failed,
      mark_interrupted_released, mark_interrupted_deadline_failed; rewrite Hs; done.
Qed.

(** What a landed write may have done to the row. *)
Record row_write (j u : job) : Prop := {
  rw_status : status u ∈ [succeeded; failed; cancelled; scheduled; pending];
  rw_lock : locked_by_worker u = None /\ lock_expires_at u = None;
  rw_epoch : claim_epoch u = claim_epoch j;
  rw_started : started_at u = started_at j;
  rw_ceiling : max_attempts u = max_attempts j;
  rw_deps : deps_pending u = deps_pending j;
  rw_progress : progress_seq j <= progress_seq u;
  rw_waiting : terminal (status u) = false ->
    cancel_phase j = 0 /\ cancel_phase u = 0 /\ cancel_requested_at u = None /\ finished_at u = None /\
    (attempt u = attempt j \/ attempt u = Z.max (attempt j - 1) 0);
  rw_terminal : terminal (status u) = true ->
    is_Some (finished_at u) /\ cancel_phase u = cancel_phase j /\
    cancel_requested_at u = cancel_requested_at j /\ attempt u = attempt j
}.

(** What a landed write did to the tables: one row, at most one attempt row (at the row's
    own attempt, never overwriting one), at most one event. *)
Record tables_write (id : Z) (j u : job) (d d' : db) : Prop := {
  tw_jobs : jobs d' = <[id := u]> (jobs d);
  tw_attempts : attempts d' = attempts d \/
    (attempts d !! (id, attempt u) = None /\
     exists a, attempts d' = <[(id, attempt u) := a]> (attempts d));
  tw_events : events d' = events d \/ exists e, events d' = events d ++ [e] /\ ev_job e = id;
  tw_rest : workers d' = workers d /\ result_ttl d' = result_ttl d /\ batches d' = batches d
}.

(** The ledger half of a statement: the jobs table is untouched. *)
Record ledger_write (id att : Z) (d d' : db) : Prop := {
  lw_jobs : jobs d' = jobs d;
  lw_attempts : attempts d' = attempts d \/
    (attempts d !! (id, att) = None /\ exists a, attempts d' = <[(id, att) := a]> (attempts d));
  lw_events : events d' = events d \/ exists e, events d' = events d ++ [e] /\ ev_job e = id;
  lw_rest : workers d' = workers d /\ result_ttl d' = result_ttl d /\ batches d' = batches d
}.

Lemma ledger_refl id att d : ledger_write id att d d.
Proof. by constructor; auto. Qed.

Lemma insert_attempt_ledger id att st fi o c m t du w due d d' :
  insert_attempt id att st fi o c m t du w due d = Ok d' ->
  ledger_write id att d d' /\ events d' = events d.
Proof.
  unfold insert_attempt. destruct st; [|done]. intros [= <-].
  destruct (attempts d !! (id, att)) eqn:E; simpl; (split; [|done]); [apply ledger_refl|].
  constructor; simpl; eauto.
Qed.

Lemma insert_event_ledger id att t k o d0 d :
  ledger_write id att d0 d -> events d = events d0 -> ledger_write id att d0 (insert_event id t k o d).
Proof. intros [] He. constructor; simpl; try done. right. eexists. by rewrite He. Qed.

Lemma terminal_attempt_ledger id w t u o c m tb d d' :
  terminal_attempt id w t u o c m tb d = Ok d' ->
  ledger_write id (attempt u) d d' /\ events d' = events d.
Proof. unfold terminal_attempt. intros. inv_ok. eauto using insert_attempt_ledger. Qed.

Lemma failed_inserts_ledger id w t1 t2 u c m x d d' :
  failed_inserts id w t1 t2 u c m x d = Ok d' -> ledger_write id (attempt u) d d'.
Proof.
  unfold failed_inserts. intros Hi. inv_ok.
  apply terminal_attempt_ledger in H as [? ?]. by apply insert_event_ledger.
Qed.

Lemma cancelled_inserts_ledger id w t1 t2 u d d' :
  cancelled_inserts id w t1 t2 u d = Ok d' -> ledger_write id (attempt u) d d'.
Proof.
  unfold cancelled_inserts. intros Hi. inv_ok.
  apply terminal_attempt_ledger in H as [? ?]. by apply insert_event_ledger.
Qed.

Lemma retried_inserts_ledger id f n t1 t2 due u c m tb d d' :
  retried_inserts id f n t1 t2 due u c m tb d = Ok d' -> ledger_write id (attempt u) d d'.
Proof.
  unfold retried_inserts. intros Hi. inv_ok.
  apply insert_attempt_ledger in H0 as [? ?]. by apply insert_event_ledger.
Qed.

Lemma retry_after_inserts_ledger id f n t1 t2 due u d d' :
  retry_after_inserts id f n t1 t2 due u d = Ok d' -> ledger_write id (attempt u) d d'.
Proof.
  unfold retry_after_inserts. intros Hi. inv_ok.
  apply insert_attempt_ledger in H0 as [? ?]. by apply insert_event_ledger.
Qed.

Lemma tables_of_ledger id j u d d' :
  ledger_write id (attempt u) (write_row id u d) d' -> tables_write id j u d d'.
Proof. intros [Hj Ha He Hr]. by constructor. Qed.

Lemma select_row_some d id p j :
  select_row d id p = Some j -> jobs d !! id = Some j /\ p j = true.
Proof. unfold select_row. intros. by repeat case_match; simplify_eq. Qed.

(** Projections of an updated row compute. *)
Ltac row_simpl :=
  unfold PROGRESS_MERGE, ATTEMPT_REFUND, hand_back, fail_row, cancel_row in *;
  unfold LEASE_CLEAR, lock_clear in *;
  cbn [assign status actor attempt max_attempts retry_kind scheduled_at schedule_to_close
       heartbeat_timeout started_at finished_at last_heartbeat_at locked_by_worker lock_expires_at
       claim_epoch cancel_requested_at cancel_phase error_class error_message error_traceback
       progress_state progress_seq result_json result_size_bytes result_expires_at metadata
       assignment_routed deps_pending snooze_count rate_limit_blocked_count interrupt_count
       retry_base_seconds retry_cap_seconds retry_backoff retry_jitter] in *.

Lemma requeue_cases delay :
  (requeue_status delay = scheduled /\ 0 < delay) \/ (requeue_status delay = pending /\ delay <= 0).
Proof. unfold requeue_status. destruct (Z.ltb_spec 0 delay); auto. Qed.

(** The three shapes of an updated row. *)
Lemma row_write_requeue j u delay :
  cancel_phase j = 0 -> status u = requeue_status delay ->
  locked_by_worker u = None -> lock_expires_at u = None -> claim_epoch u = claim_epoch j ->
  started_at u = started_at j -> max_attempts u = max_attempts j -> deps_pending u = deps_pending j ->
  progress_seq j <= progress_seq u ->
  cancel_phase u = 0 -> cancel_requested_at u = None -> finished_at u = None ->
  (attempt u = attempt j \/ attempt u = Z.max (attempt j - 1) 0) -> row_write j u.
Proof.
  intros. destruct (requeue_cases delay) as [[E _]|[E _]];
    (constructor; [|done..| |]); rewrite ?H0, ?E; try set_solver; try done; intros; by auto.
Qed.

Lemma row_write_terminal j u s t :
  status u = s -> s ∈ [succeeded; failed; cancelled] -> finished_at u = Some t ->
  locked_by_worker u = None -> lock_expires_at u = None -> claim_epoch u = claim_epoch j ->
  started_at u = started_at j -> max_attempts u = max_attempts j -> deps_pending u = deps_pending j ->
  progress_seq j <= progress_seq u ->
  cancel_phase u = cancel_phase j -> cancel_requested_at u = cancel_requested_at j ->
  attempt u = attempt j -> row_write j u.
Proof.
  intros <- Hs Hf ? ? ? ? ? ? ? ? ? ?.
  assert (Ht : terminal (status u) = true).
  { apply bool_decide_eq_true. unfold TERMINAL_STATUSES. set_solver. }
  constructor; [set_solver|by split|done|done|done|done|done|by rewrite Ht|].
  intros _. rewrite Hf. by eauto 6.
Qed.

Lemma fenced_clean f j b :
  JOB_FENCE f j && no_cancel j && b = true -> JOB_FENCE f j = true /\ cancel_phase j = 0.
Proof. unfold no_cancel. intros. zbool. done. Qed.

Ltac arm_inv :=
  repeat match goal with
  | H : (if ?c then Some _ else None) = Some _ |- _ =>
      destruct c eqn:?; [injection H as H; subst|discriminate H]
  end; unfold no_cancel in *; zbool.

Ltac requeued d := eapply (row_write_requeue _ _ d); row_simpl; auto; try lia.
Ltac terminated := eapply row_write_terminal; row_simpl; try reflexivity; try lia;
  rewrite !elem_of_cons; auto.

Lemma mark_retry_retried_row clk f delay c m t seq st j u :
  mark_retry_retried clk f delay c m t seq st j = Some u -> JOB_FENCE f j = true /\ row_write j u.
Proof. unfold mark_retry_retried. intros. arm_inv. split; [done|]. requeued delay. Qed.

Lemma mark_retry_deadline_failed_row clk f delay seq st o j u :
  mark_retry_deadline_failed clk f delay seq st o j = Some u -> JOB_FENCE f j = true /\ row_write j u.
Proof. unfold mark_retry_deadline_failed. intros. arm_inv. split; [done|]. terminated. Qed.

Lemma deadline_cancelled_row clk f delay seq st o j u :
  deadline_cancelled_arm clk f delay seq st o j = Some u -> JOB_FENCE f j = true /\ row_write j u.
Proof. unfold deadline_cancelled_arm. intros. arm_inv. split; [done|]. terminated. Qed.

Lemma mark_snoozed_snoozed_row clk f delay meta seq st o j u :
  mark_snoozed_snoozed clk f delay meta seq st o j = Some u -> JOB_FENCE f j = true /\ row_write j u.
Proof. unfold mark_snoozed_snoozed. intros. arm_inv. split; [done|]. requeued delay. Qed.

Lemma mark_snoozed_deadline_failed_row clk f delay seq st o sn ca j u :
  mark_snoozed_deadline_failed clk f delay seq st o sn ca j = Some u -> JOB_FENCE f j = true /\ row_write j u.
Proof. unfold mark_snoozed_deadline_failed. intros. arm_inv. split; [done|]. terminated. Qed.

Lemma retry_after_true_snoozed_row clk f delay seq st j u :
  retry_after_true_snoozed clk f delay seq st j = Some u -> JOB_FENCE f j = true /\ row_write j u.
Proof. unfold retry_after_true_snoozed. intros. arm_inv. split; [done|]. requeued delay. Qed.

Lemma retry_after_true_max_attempts_row clk f delay seq st sn ca j u :
  retry_after_true_max_attempts clk f delay seq st sn ca j = Some u -> JOB_FENCE f j = true /\ row_write j u.
Proof. unfold retry_after_true_max_attempts. intros. arm_inv. split; [done|]. terminated. Qed.

Lemma retry_after_true_deadline_failed_row clk f delay seq st sn ca mx j u :
  retry_after_true_deadline_failed clk f delay seq st sn ca mx j = Some u -> JOB_FENCE f j = true /\ row_write j u.
Proof. unfold retry_after_true_deadline_failed. intros. arm_inv. split; [done|]. terminated. Qed.

Lemma retry_after_false_snoozed_row clk f delay seq st j u :
  retry_after_false_snoozed clk f delay seq st j = Some u -> JOB_FENCE f j = true /\ row_write j u.
Proof. unfold retry_after_false_snoozed. intros. arm_inv. split; [done|]. requeued delay. Qed.

Lemma retry_after_false_deadline_failed_row clk f delay seq st sn ca j u :
  retry_after_false_deadline_failed clk f delay seq st sn ca j = Some u -> JOB_FENCE f j = true /\ row_write j u.
Proof. unfold retry_after_false_deadline_failed. intros. arm_inv. split; [done|]. terminated. Qed.

Lemma mark_interrupted_released_row clk f hold seq st j u :
  mark_interrupted_released clk f hold seq st j = Some u -> JOB_FENCE f j = true /\ row_write j u.
Proof. unfold mark_interrupted_released. intros. arm_inv. split; [done|]. requeued hold. Qed.

Lemma mark_interrupted_deadline_failed_row clk f hold seq st rl j u :
  mark_interrupted_deadline_failed clk f hold seq st rl j = Some u -> JOB_FENCE f j = true /\ row_write j u.
Proof. unfold mark_interrupted_deadline_failed. intros. arm_inv. split; [done|]. terminated. Qed.

(** The row fact of the arm that won, and the ledger fact of its inserts. *)
Ltac won_row :=
  match goal with
  | H : mark_retry_retried _ _ _ _ _ _ _ _ _ = Some _ |- _ => apply mark_retry_retried_row in H; exact H
  | H : mark_retry_deadline_failed _ _ _ _ _ _ _ = Some _ |- _ => apply mark_retry_deadline_failed_row in H; exact H
  | H : deadline_cancelled_arm _ _ _ _ _ _ _ = Some _ |- _ => apply deadline_cancelled_row in H; exact H
  | H : mark_snoozed_snoozed _ _ _ _ _ _ _ _ = Some _ |- _ => apply mark_snoozed_snoozed_row in H; exact H
  | H : mark_snoozed_deadline_failed _ _ _ _ _ _ _ _ _ = Some _ |- _ => apply mark_snoozed_deadline_failed_row in H; exact H
  | H : retry_after_true_snoozed _ _ _ _ _ _ = Some _ |- _ => apply retry_after_true_snoozed_row in H; exact H
  | H : retry_after_true_max_attempts _ _ _ _ _ _ _ _ = Some _ |- _ => apply retry_after_true_max_attempts_row in H; exact H
  | H : retry_after_true_deadline_failed _ _ _ _ _ _ _ _ _ = Some _ |- _ => apply retry_after_true_deadline_failed_row in H; exact H
  | H : retry_after_false_snoozed _ _ _ _ _ _ = Some _ |- _ => apply retry_after_false_snoozed_row in H; exact H
  | H : retry_after_false_deadline_failed _ _ _ _ _ _ _ _ = Some _ |- _ => apply retry_after_false_deadline_failed_row in H; exact H
  | H : mark_interrupted_released _ _ _ _ _ _ = Some _ |- _ => apply mark_interrupted_released_row in H; exact H
  | H : mark_interrupted_deadline_failed _ _ _ _ _ _ _ = Some _ |- _ => apply mark_interrupted_deadline_failed_row in H; exact H
  end.

Ltac won_ledger :=
  match goal with
  | H : failed_inserts _ _ _ _ _ _ _ _ _ = Ok _ |- _ => apply failed_inserts_ledger in H; exact H
  | H : cancelled_inserts _ _ _ _ _ _ = Ok _ |- _ => apply cancelled_inserts_ledger in H; exact H
  | H : retried_inserts _ _ _ _ _ _ _ _ _ _ _ = Ok _ |- _ => apply retried_inserts_ledger in H; exact H
  | H : retry_after_inserts _ _ _ _ _ _ _ _ = Ok _ |- _ => apply retry_after_inserts_ledger in H; exact H
  | |- ledger_write _ _ ?d (insert_event _ _ _ _ ?d) => apply insert_event_ledger; [apply ledger_refl|reflexivity]
  | |- ledger_write _ _ ?d ?d => apply ledger_refl
  end.

(** A landed write, whichever statement made it. *)
Definition landed (id : Z) (f : fence) (d d' : db) (u : job) : Prop :=
  exists j, jobs d !! id = Some j /\ (JOB_FENCE f j = true /\ row_write j u) /\ tables_write id j u d d'.

Lemma landed_intro id f d d' j u :
  jobs d !! id = Some j -> JOB_FENCE f j = true /\ row_write j u ->
  ledger_write id (attempt u) (write_row id u d) d' -> landed id f d d' u.
Proof. intros. exists j. eauto using tables_of_ledger. Qed.

Lemma mark_succeeded_landed clk id f res size seq st fb d d' o :
  mark_succeeded clk id f res size seq st fb d = Ok (d', o) ->
  match o with None => d' = d | Some u => landed id f d d' u end.
Proof.
  unfold mark_succeeded. destruct (select_row d id (JOB_FENCE f)) as [j|] eqn:E; [|by intros [= <- <-]].
  apply select_row_some in E as [Hj Hf]. intros Hr. inv_ok. simplify_eq.
  apply terminal_attempt_ledger in H as [Hl He].
  apply (landed_intro _ _ _ _ j); [done|split; [done|]; terminated|by apply insert_event_ledger].
Qed.

Lemma mark_failed_landed clk id f c m t seq st d d' o :
  mark_failed clk id f c m t seq st d = Ok (d', o) ->
  match o with None => d' = d | Some u => landed id f d d' u end.
Proof.
  unfold mark_failed. destruct (select_row d id (JOB_FENCE f)) as [j|] eqn:E; [|by intros [= <- <-]].
  apply select_row_some in E as [Hj Hf]. intros Hr. inv_ok. simplify_eq.
  apply terminal_attempt_ledger in H as [Hl He].
  apply (landed_intro _ _ _ _ j); [done|split; [done|]; terminated|by apply insert_event_ledger].
Qed.

Lemma mark_cancelled_landed clk id f seq st d d' o :
  mark_cancelled clk id f seq st d = Ok (d', o) ->
  match o with None => d' = d | Some u => landed id f d d' u end.
Proof.
  unfold mark_cancelled. destruct (select_row d id (JOB_FENCE f)) as [j|] eqn:E; [|by intros [= <- <-]].
  apply select_row_some in E as [Hj Hf]. intros Hr. inv_ok. simplify_eq.
  apply (landed_intro _ _ _ _ j); [done|split; [done|]; terminated|won_ledger].
Qed.

(** The multi-arm statements: case analysis on the winning arm. *)
Ltac arms_landed :=
  cbv zeta;
  repeat match goal with
  | |- match ?o with Some _ => _ | None => _ end = Ok _ -> _ => destruct o eqn:?
  end;
  let H := fresh "H" in intros H;
  try (apply rbind_ok in H as (? & ? & H));
  injection H as <- <-; [..|reflexivity || idtac]; try reflexivity;
  (eapply landed_intro; [eassumption|won_row|won_ledger]).

Lemma mark_retry_landed clk id f delay c m t seq st d d' o :
  mark_retry clk id f delay c m t seq st d = Ok (d', o) ->
  match o with None => d' = d | Some (_, u) => landed id f d d' u end.
Proof. unfold mark_retry. arms_landed. Qed.

Lemma mark_snoozed_landed clk id f delay meta seq st oc r d d' o :
  mark_snoozed clk id f delay meta seq st oc r d = Ok (d', o) ->
  match o with None => d' = d | Some (_, u) => landed id f d d' u end.
Proof. unfold mark_snoozed. arms_landed. Qed.

Lemma retry_after_true_landed clk id f delay seq st d d' o :
  mark_retry_after_consume_true clk id f delay seq st d = Ok (d', o) ->
  match o with None => d' = d | Some (_, u) => landed id f d d' u end.
Proof. unfold mark_retry_after_consume_true. arms_landed. Qed.

Lemma retry_after_false_landed clk id f delay seq st d d' o :
  mark_retry_after_consume_false clk id f delay seq st d = Ok (d', o) ->
  match o with None => d' = d | Some (_, u) => landed id f d d' u end.
Proof. unfold mark_retry_after_consume_false. arms_landed. Qed.

Lemma mark_interrupted_landed clk id f hold seq st d d' o :
  mark_interrupted clk id f hold seq st d = Ok (d', o) ->
  match o with None => d' = d | Some (_, u) => landed id f d d' u end.
Proof. unfold mark_interrupted. arms_landed. Qed.

Lemma drop_branch_landed m id f d :
  (forall d' o, m = Ok (d', o) -> match o with None => d' = d | Some (_, u) => landed id f d d' u end) ->
  forall d' o, drop_branch m = Ok (d', o) ->
  match o with None => d' = d | Some u => landed id f d d' u end.
Proof.
  intros Hm d' o. unfold drop_branch. destruct m as [[d0 [[b u]|]]|]; [..|done]; intros [= <- <-];
    by apply (Hm _ _ eq_refl).
Qed.

Lemma run_write_landed w clk id f seq st d d' o :
  run_write w clk id f seq st d = Ok (d', o) ->
  match o with None => d' = d | Some u => landed id f d d' u end.
Proof.
  destruct w as [| | | | |[] |]; simpl.
  - apply mark_succeeded_landed.
  - apply mark_failed_landed.
  - apply drop_branch_landed. intros ? ?. apply mark_retry_landed.
  - apply mark_cancelled_landed.
  - apply drop_branch_landed. intros ? ?. apply mark_snoozed_landed.
  - apply drop_branch_landed. intros ? ?. apply retry_after_true_landed.
  - apply drop_branch_landed. intros ? ?. apply retry_after_false_landed.
  - apply drop_branch_landed. intros ? ?. apply mark_interrupted_landed.
Qed.

(** ** Every writer, row by row *)

Inductive row_change : job -> job -> Prop :=
| rc_same j : row_change j j
| rc_write f j u : JOB_FENCE f j = true -> row_write j u -> row_change j u
| rc_abandon t seq st j : abandon_where j = true ->
    row_change j (PROGRESS_MERGE seq st (j <| status := abandoned |> <| finished_at := Some t |>
                    <| error_class := Some CANCEL_ORIGIN_ABANDONED |>))
| rc_claim t1 t2 t3 w l j : status j = pending -> row_change j (claim_set t1 t2 t3 w l j)
| rc_renew t1 t2 l j : status j = running -> row_change j (renew_set t1 t2 l j)
| rc_cancel t1 t2 j : cancel_request_where j = true -> row_change j (cancel_request_set t1 t2 j)
| rc_escalate j : status j = running -> cancel_phase j = 1 -> row_change j (j <| cancel_phase := 2 |>)
| rc_reclaim c m t1 t2 dl j : status j = running -> row_change j (reclaim_set c m t1 t2 dl j)
| rc_deadline t j : waiting (status j) = true -> row_change j (sweep_2_set t j)
| rc_promote j : status j = scheduled -> row_change j (j <| status := pending |>)
| rc_reconcile j : status j = running -> cancel_phase j = 0 -> row_change j (reconcile_set j)
| rc_drain j : status j = running -> cancel_phase j = 0 -> row_change j (drain_set j)
| rc_expire j : row_change j (expire_result j)
| rc_cancel_waiting t c m j : waiting (status j) = true ->
    row_change j (cancel_waiting_set t c j <| error_message := m |>)
| rc_cancel_running t j : status j = running -> cancel_phase j = 0 -> row_change j (cancel_running_set t j)
| rc_flush s n j : status j = running -> row_change j (j <| progress_state := s |> <| progress_seq := n |>)
| rc_abort t1 t2 j : waiting (status j) = true -> row_change j (abort_set t1 t2 j).

(** No job statement moves the dependency counter. *)
Lemma row_change_deps j u : row_change j u -> deps_pending u = deps_pending j.
Proof.
  intros []; try done. by apply rw_deps.
Qed.

(** The operator's retry, the one writer that leaves a terminal status. *)
Inductive row_change_op : job -> job -> Prop :=
| ro_change j u : row_change j u -> row_change_op j u
| ro_retry t1 t2 j : retry_job_where j = true -> row_change_op j (retry_job_set t1 t2 j).

Lemma is_status_true s j : is_status s j = true <-> status j = s.
Proof. unfold is_status. apply bool_decide_eq_true. Qed.

Lemma fence_running f j : JOB_FENCE f j = true ->
  status j = running /\ locked_by_worker j = Some (f_worker f) /\
  f_attempt f = Some (attempt j) /\ f_epoch f = Some (claim_epoch j).
Proof.
  unfold JOB_FENCE, sql_eq. intros Hf. zbool. apply is_status_true in H. split; [done|].
  destruct (locked_by_worker j), (f_attempt f), (f_epoch f); try done. zbool. by subst.
Qed.

Lemma waiting_true s : waiting s = true <-> s = pending \/ s = scheduled.
Proof. unfold waiting. apply bool_decide_eq_true. Qed.

(** Statuses after each SET, by projection. *)
Lemma cancel_request_set_status t1 t2 j :
  cancel_request_where j = true ->
  (waiting (status j) = true /\ status (cancel_request_set t1 t2 j) = cancelled) \/
  (status j = running /\ cancel_phase j = 0 /\ status (cancel_request_set t1 t2 j) = running).
Proof.
  unfold cancel_request_where, cancel_request_set. intros Hw. row_simpl.
  destruct (waiting (status j)) eqn:E; [by left|]. right. simpl in Hw. zbool.
  apply is_status_true in H. auto.
Qed.

Lemma reclaim_set_status c m t1 t2 dl j :
  status (reclaim_set c m t1 t2 dl j) =
  if negb (cancel_phase j =? 0) then cancelled else if RECLAIM_HAS_BUDGET j then pending else crashed.
Proof. unfold reclaim_set. row_simpl. done. Qed.

Lemma row_change_transition j u :
  row_change j u -> status u = status j \/ status u ∈ VALID_TRANSITIONS (status j).
Proof.
  intros [| f j' u' Hf Hw|? ? ? j' Ha|? ? ? ? ? j' Hs|? ? ? j' Hs|? ? j' Hc|j' Hs _|? ? ? ? ? j' Hs|? j' Hs|j' Hs
    |j' Hs Hp|j' Hs Hp|j'|? ? ? j' Hs|? j' Hs Hp|? ? j' Hs|? ? j' Hs].
  - by left.
  - right. apply fence_running in Hf as [-> _]. pose proof (rw_status _ _ Hw). simpl. set_solver.
  - right. unfold abandon_where in Ha. zbool. apply is_status_true in H as ->. row_simpl. simpl. set_solver.
  - right. rewrite Hs. unfold claim_set. row_simpl. simpl. set_solver.
  - left. by unfold renew_set; row_simpl.
  - destruct (cancel_request_set_status t1 t2 j' Hc) as [[Hw ->]|(Hr & _ & ->)]; [|by left].
    right. apply waiting_true in Hw as [->| ->]; simpl; set_solver.
  - by left; row_simpl.
  - right. rewrite reclaim_set_status, Hs. simpl. repeat case_match; set_solver.
  - right. unfold sweep_2_set. row_simpl. apply waiting_true in Hs as [->| ->]; simpl; set_solver.
  - right. row_simpl. rewrite Hs. simpl. set_solver.
  - by left; unfold reconcile_set; row_simpl.
  - right. unfold drain_set. row_simpl. rewrite Hs. simpl. set_solver.
  - by left; unfold expire_result; row_simpl.
  - right. unfold cancel_waiting_set. row_simpl. apply waiting_true in Hs as [->| ->]; simpl; set_solver.
  - by left; unfold cancel_running_set; row_simpl.
  - by left; row_simpl.
  - right. unfold abort_set. row_simpl. apply waiting_true in Hs as [->| ->]; simpl; set_solver.
Qed.

Lemma terminal_not_active s : terminal s = true -> s <> running /\ waiting s = false.
Proof. by destruct s. Qed.

(** A terminal row is final until an operator retries it, its stored result apart. *)
Lemma row_change_terminal j u : row_change j u -> terminal (status j) = true -> u = j \/ u = expire_result j.
Proof.
  intros Hc Ht. apply terminal_not_active in Ht as [Hr Hw].
  destruct Hc as [| f j' u' Hf _|? ? ? j' Ha|? ? ? ? ? j' Hs|? ? ? j' Hs|? ? j' Hc|j' Hs _|? ? ? ? ? j' Hs|? j' Hs|j' Hs
    |j' Hs Hp|j' Hs Hp|j'|? ? ? j' Hs|? j' Hs Hp|? ? j' Hs|? ? j' Hs];
    try (by left); try (by right); try congruence; try (by rewrite Hs in Hw).
  - by apply fence_running in Hf as [? _].
  - unfold abandon_where in Ha. zbool. by apply is_status_true in H.
  - destruct (cancel_request_set_status t1 t2 j' Hc) as [[Hw' _]|[? _]]; [by rewrite Hw in Hw'|done].
Qed.

Lemma row_change_terminal_status j u : row_change j u -> terminal (status j) = true -> status u = status j.
Proof. intros Hc Ht. by destruct (row_change_terminal _ _ Hc Ht) as [->| ->]. Qed.

Lemma row_change_epoch j u :
  row_change j u ->
  claim_epoch j <= claim_epoch u /\
  (status u = running ->
    (status j = running /\ claim_epoch u = claim_epoch j /\ locked_by_worker u = locked_by_worker j) \/
    (status j = pending /\ claim_epoch u = claim_epoch j + 1)).
Proof.
  intros [| f j' u' Hf Hw|? ? ? j' Ha|? ? ? ? ? j' Hs|? ? ? j' Hs|? ? j' Hc|j' Hs _|? ? ? ? ? j' Hs|? j' Hs|j' Hs
    |j' Hs Hp|j' Hs Hp|j'|? ? ? j' Hs|? j' Hs Hp|? ? j' Hs|? ? j' Hs].
  - split; [lia|auto].
  - split; [by rewrite (rw_epoch _ _ Hw)|]. intros E. pose proof (rw_status _ _ Hw) as Hs.
    rewrite E in Hs. set_solver.
  - row_simpl. split; [lia|done].
  - unfold claim_set. row_simpl. split; [lia|auto].
  - unfold renew_set. row_simpl. split; [lia|auto].
  - destruct (cancel_request_set_status t1 t2 j' Hc) as [[Hw E]|(Hr & _ & E)]; rewrite E;
      (split; [by unfold cancel_request_set; row_simpl; lia|]); [done|].
    intros _. left. unfold cancel_request_set. row_simpl. auto.
  - row_simpl. split; [lia|auto].
  - rewrite reclaim_set_status. split; [by unfold reclaim_set; row_simpl; lia|]. repeat case_match; done.
  - unfold sweep_2_set. row_simpl. split; [lia|done].
  - row_simpl. split; [lia|done].
  - unfold reconcile_set. row_simpl. split; [lia|auto].
  - unfold drain_set. row_simpl. split; [lia|done].
  - unfold expire_result. row_simpl. split; [lia|auto].
  - unfold cancel_waiting_set. row_simpl. split; [lia|done].
  - unfold cancel_running_set. row_simpl. split; [lia|auto].
  - row_simpl. split; [lia|auto].
  - unfold abort_set. row_simpl. split; [lia|done].
Qed.

(** ** The row invariant *)

Definition wf_job (j : job) : Prop :=
  (status j = running ->
     is_Some (locked_by_worker j) /\ is_Some (lock_expires_at j) /\
     (is_Some (started_at j) -> 1 <= attempt j) /\ finished_at j = None) /\
  (waiting (status j) = true ->
     cancel_phase j = 0 /\ finished_at j = None) /\
  (terminal (status j) = true -> is_Some (finished_at j)) /\
  0 <= cancel_phase j <= 2 /\
  (cancel_phase j <> 0 <-> is_Some (cancel_requested_at j)) /\
  0 <= attempt j <= SMALLINT_MAX /\ max_attempts j <= SMALLINT_MAX.

#[export] Instance wf_job_dec j : Decision (wf_job j).
Proof. unfold wf_job. apply _. Defined.

Lemma status_kinds s : s = running \/ waiting s = true \/ terminal s = true.
Proof. destruct s; auto. Qed.

Lemma wf_waiting j u :
  wf_job j -> waiting (status u) = true -> cancel_phase u = 0 -> cancel_requested_at u = None ->
  finished_at u = None -> 0 <= attempt u <= SMALLINT_MAX -> max_attempts u <= SMALLINT_MAX -> wf_job u.
Proof.
  intros Hj Hw Hc Hr Hf Ha Hm. unfold wf_job. rewrite Hc, Hr.
  split_and!; try done; try lia.
  - intros E. by rewrite E in Hw.
  - intros Ht. apply terminal_not_active in Ht as [_ Ht]. by rewrite Hw in Ht.
Qed.

Lemma wf_terminal j u :
  wf_job j -> terminal (status u) = true -> is_Some (finished_at u) ->
  cancel_phase u = cancel_phase j -> cancel_requested_at u = cancel_requested_at j ->
  attempt u = attempt j -> max_attempts u = max_attempts j -> wf_job u.
Proof.
  intros (_ & _ & _ & H3 & H4 & H5 & H6) Ht Hf Hc Hr Ha Hm.
  apply terminal_not_active in Ht as Hn. destruct Hn as [Hn1 Hn2].
  unfold wf_job. rewrite Hc, Hr, Ha, Hm, Hn2. split_and!; try done; try lia; apply H4.
Qed.

Lemma row_write_wf f j u : JOB_FENCE f j = true -> row_write j u -> wf_job j -> wf_job u.
Proof.
  intros Hf Hw Hj. apply fence_running in Hf as [Hr _].
  destruct Hj as (H0 & H1 & H2 & H3 & H4 & H5 & H6). 
  destruct (terminal (status u)) eqn:Et.
  - destruct (rw_terminal _ _ Hw Et) as (? & ? & ? & ?).
    apply (wf_terminal j); auto using rw_ceiling. unfold wf_job; auto 10.
  - destruct (rw_waiting _ _ Hw Et) as (? & ? & ? & ? & Hatt).
    apply (wf_waiting j); auto; [unfold wf_job; auto 10| |lia|by rewrite (rw_ceiling _ _ Hw)].
    pose proof (rw_status _ _ Hw) as Hs. destruct (status_kinds (status u)) as [E|[?|?]]; [|done|congruence].
    rewrite E in Hs. set_solver.
Qed.

Lemma reclaim_wf c m t1 t2 dl j : status j = running -> wf_job j -> wf_job (reclaim_set c m t1 t2 dl j).
Proof.
  intros Hr Hj. pose proof Hj as (H0 & _ & _ & H3 & H4 & H5 & H6).
  destruct (H0 Hr) as (_ & _ & _ & Hfin).
  pose proof (reclaim_set_status c m t1 t2 dl j) as Hs.
  revert Hs. destruct (Z.eqb_spec (cancel_phase j) 0) as [E|E]; cbn [negb];
    [destruct (RECLAIM_HAS_BUDGET j) eqn:Eb|]; intros Hs.
  - apply (wf_waiting j); [done|by rewrite Hs|..]; unfold reclaim_set; row_simpl;
      rewrite ?E, ?Eb; simpl; auto.
  - apply (wf_terminal j); [done|by rewrite Hs|..]; unfold reclaim_set; row_simpl; rewrite ?E, ?Eb; simpl; eauto.
    destruct (cancel_requested_at j) eqn:Er; [|done]. exfalso. apply H4; eauto.
  - apply (wf_terminal j); [done|by rewrite Hs|..]; unfold reclaim_set; row_simpl;
      destruct (Z.eqb_spec (cancel_phase j) 0); simpl; eauto; done.
Qed.

Lemma claim_wf t1 t2 t3 w l j : status j = pending -> wf_job j -> wf_job (claim_set t1 t2 t3 w l j).
Proof.
  intros Hs (_ & H1 & _ & H3 & H4 & H5 & H6). unfold claim_set, wf_job. row_simpl.
  unfold SMALLINT_MAX in *. split_and!; try done; try lia; try apply H4.
  intros _. split_and!; eauto. intros _. lia.
Qed.

Lemma renew_wf t1 t2 l j : status j = running -> wf_job j -> wf_job (renew_set t1 t2 l j).
Proof.
  intros Hs (H0 & H1 & H2 & H3 & H4 & H5 & H6). destruct (H0 Hs) as (? & ? & ? & ?).
  unfold renew_set, wf_job. row_simpl. rewrite Hs.
  split_and!; try done; try lia; try apply H4; eauto.
Qed.

Lemma escalate_wf j : status j = running -> cancel_phase j = 1 -> wf_job j -> wf_job (j <| cancel_phase := 2 |>).
Proof.
  intros Hs Hp (H0 & H1 & H2 & H3 & H4 & H5 & H6). unfold wf_job. row_simpl. rewrite Hs.
  split_and!; try done; try lia; [intros _; by apply H0|]. split; [intros _; apply H4; lia|lia].
Qed.

Lemma cancel_request_wf t1 t2 j :
  cancel_request_where j = true -> wf_job j -> wf_job (cancel_request_set t1 t2 j).
Proof.
  intros Hc Hj. pose proof Hj as (H0 & H1 & H2 & H3 & H4 & H5 & H6).
  destruct (cancel_request_set_status t1 t2 j Hc) as [[Hw E]|(Hr & Hp & E)].
  - assert (Hnr : is_status running j = false).
    { apply bool_decide_eq_false. intros Er. by rewrite Er in Hw. }
    apply (wf_terminal j); [done|by rewrite E|..]; unfold cancel_request_set; row_simpl;
      rewrite ?Hw, ?Hnr; simpl; eauto.
  - destruct (H0 Hr) as (? & ? & ? & ?). unfold wf_job. rewrite E.
    assert (Hnw : waiting (status j) = false) by (by rewrite Hr).
    assert (Her : is_status running j = true) by (by apply is_status_true).
    unfold cancel_request_set. row_simpl. rewrite Hnw, Her, Hp. simpl.
    split_and!; try done; try lia; eauto.
Qed.

Lemma no_request j : wf_job j -> cancel_phase j = 0 -> cancel_requested_at j = None.
Proof.
  intros (_ & _ & _ & _ & H4 & _) Hp. destruct (cancel_requested_at j) eqn:E; [|done].
  exfalso. apply H4; eauto.
Qed.

Lemma reconcile_wf j : status j = running -> cancel_phase j = 0 -> wf_job j -> wf_job (reconcile_set j).
Proof.
  intros Hs Hp (H0 & H1 & H2 & H3 & H4 & H5 & H6). destruct (H0 Hs) as (? & ? & _ & ?).
  unfold wf_job, reconcile_set. row_simpl. rewrite Hs. split_and!; try done; try lia; try apply H4.
Qed.

Lemma cancel_running_wf t j : status j = running -> cancel_phase j = 0 -> wf_job j -> wf_job (cancel_running_set t j).
Proof.
  intros Hs Hp (H0 & H1 & H2 & H3 & H4 & H5 & H6). unfold wf_job, cancel_running_set. row_simpl. rewrite Hs.
  split_and!; try done; try lia; intros _; first [apply (H0 Hs)|eauto].
Qed.

Lemma abort_wf t1 t2 j : wf_job j -> wf_job (abort_set t1 t2 j).
Proof. intros (_ & _ & _ & _ & _ & H5 & H6). unfold wf_job, abort_set. row_simpl. split_and!; try done; try lia; eauto. Qed.

Lemma row_change_wf j u : row_change j u -> wf_job j -> wf_job u.
Proof.
  intros Hc Hj.
  destruct Hc as [| f j' u' Hf Hw|? ? ? j' Ha|? ? ? ? ? j' Hs|? ? ? j' Hs|? ? j' Hc|j' Hs Hp|? ? ? ? ? j' Hs|? j' Hs|j' Hs
    |j' Hs Hp|j' Hs Hp|j'|? ? ? j' Hs|? j' Hs Hp|? ? j' Hs|? ? j' Hs];
    eauto using row_write_wf, claim_wf, renew_wf, cancel_request_wf, escalate_wf, reclaim_wf, reconcile_wf, cancel_running_wf, abort_wf.
  - apply (wf_terminal j'); row_simpl; eauto.
  - apply (wf_terminal j'); unfold sweep_2_set; row_simpl; eauto.
  - pose proof Hj as (_ & H1 & _ & _ & _ & H5 & H6). rewrite Hs in H1. destruct (H1 eq_refl) as [Hp Hf].
    apply (wf_waiting j'); row_simpl; auto using no_request.
  - pose proof Hj as (H0 & _ & _ & _ & _ & H5 & H6). destruct (H0 Hs) as (_ & _ & _ & Hf).
    apply (wf_waiting j'); unfold drain_set; row_simpl; auto using no_request. lia.
  - apply (wf_terminal j'); unfold cancel_waiting_set; row_simpl; eauto.
Qed.

Lemma retry_job_wf t1 t2 j : retry_job_where j = true -> wf_job j -> wf_job (retry_job_set t1 t2 j).
Proof.
  intros Hr Hj. pose proof Hj as (_ & _ & _ & _ & _ & H5 & _).
  apply (wf_waiting j); [done|..]; unfold retry_job_set; row_simpl; auto.
  unfold raised_ceiling, SMALLINT_MAX. lia.
Qed.

(** ** Steps of the whole system *)

Definition rows_related (R : job -> job -> Prop) (d d' : db) : Prop :=
  forall id, option_Forall2 R (jobs d !! id) (jobs d' !! id).

Section rows_related.
Context (R : job -> job -> Prop) `{!Reflexive R}.

Lemma rows_same d d' : jobs d' = jobs d -> rows_related R d d'.
Proof. intros E id. rewrite E. reflexivity. Qed.

Lemma rows_one d d' id j u :
  jobs d !! id = Some j -> R j u -> jobs d' = <[id := u]> (jobs d) -> rows_related R d d'.
Proof.
  intros Hj Hr E id'. rewrite E. destruct (decide (id = id')) as [<-|Hne].
  - rewrite Hj, lookup_insert_eq. by constructor.
  - rewrite lookup_insert_ne by done. reflexivity.
Qed.

Lemma rows_many d rows :
  (forall id u, (id, u) ∈ rows -> exists j, jobs d !! id = Some j /\ R j u) ->
  rows_related R d (write_rows rows d).
Proof.
  intros Hrows. unfold write_rows.
  assert (Hgen : forall d1, rows_related R d d1 ->
    rows_related R d (foldl (fun d kv => write_row kv.1 kv.2 d) d1 rows)); [|apply Hgen; by apply rows_same].
  induction rows as [|[id u] rows IH]; intros d1 H1; [done|]. simpl.
  apply IH; [set_solver|]. intros id'. simpl. destruct (decide (id = id')) as [<-|Hne].
  - rewrite lookup_insert_eq. destruct (Hrows id u) as (j & -> & Hr); [set_solver|]. by constructor.
  - by rewrite lookup_insert_ne.
Qed.
End rows_related.

#[export] Instance row_change_refl : Reflexive row_change.
Proof. intros j. apply rc_same. Qed.

Lemma candidates_lookup key p held n d id j :
  (id, j) ∈ candidates key p held n d -> jobs d !! id = Some j /\ p j = true /\ id ∉ held.
Proof.
  unfold candidates. intros Hin. apply elem_of_take in Hin as (i & Hi & _).
  apply list_elem_of_lookup_2 in Hi.
  rewrite (merge_sort_Permutation (by_key key)) in Hi.
  apply list_elem_of_filter in Hi as [[Hp Hh] Hi]. by apply elem_of_map_to_list in Hi.
Qed.

Lemma jobs_write_rows_ext rows d d' :
  jobs d = jobs d' -> jobs (write_rows rows d) = jobs (write_rows rows d').
Proof.
  unfold write_rows. revert d d'. induction rows as [|[i u] rows IH]; intros d d' E; [done|].
  simpl. apply IH. simpl. by rewrite E.
Qed.

Section system.
Context `{Rounding}.

Lemma sweep_1_attempt_jobs clk i row ms d : jobs (sweep_1_attempt clk i row ms d) = jobs d.
Proof.
  unfold sweep_1_attempt. case_match; [|done].
  match goal with |- context [match ?m with Ok _ => _ | Err _ => _ end] => destruct m eqn:E end; [|done].
  apply insert_attempt_ledger in E as [Hl _]. apply (lw_jobs _ _ _ _ Hl).
Qed.

Lemma sweep_1_inserts_jobs clk i rows d : jobs (sweep_1_inserts clk i rows d) = jobs d.
Proof.
  revert i d. induction rows as [|[row ms] rows IH]; intros i d; simpl; [done|].
  by rewrite IH, sweep_1_attempt_jobs.
Qed.

Lemma sweep_1_events_jobs clk i rows d : jobs (sweep_1_events clk i rows d) = jobs d.
Proof. revert i d. induction rows as [|row rows IH]; intros i d; simpl; [done|]. by rewrite IH. Qed.

Lemma sweep_2_attempt_jobs clk i row ms d : jobs (sweep_2_attempt clk i row ms d) = jobs d.
Proof.
  unfold sweep_2_attempt.
  match goal with |- context [match ?m with Ok _ => _ | Err _ => _ end] => destruct m eqn:E end; [|done].
  apply insert_attempt_ledger in E as [Hl _]. apply (lw_jobs _ _ _ _ Hl).
Qed.

Lemma sweep_2_inserts_jobs clk i rows d : jobs (sweep_2_inserts clk i rows d) = jobs d.
Proof.
  revert i d. induction rows as [|[row ms] rows IH]; intros i d; simpl; [done|].
  by rewrite IH, sweep_2_attempt_jobs.
Qed.

Lemma sweep_2_events_jobs clk i rows d : jobs (sweep_2_events clk i rows d) = jobs d.
Proof. revert i d. induction rows as [|row rows IH]; intros i d; simpl; [done|]. by rewrite IH. Qed.

(** One write by the queue itself, an operator's retry apart: the worker's fenced writes, abandons and
    attempt records, claims, renewals, cancels (one job, a bulk arm, a deregistration, an aborted
    batch) and their escalation, the sweeps, the isolate, the reconcile of lost claims, the drain
    at shutdown, the expiry of results and progress flushes.  (An enqueue adds rows and the
    retention deletes them; a queue's re-label changes no column these rows have.)  The statements the workflow engine and
    its runners make on the rows of their flows are not among them ([with_flows] allows for those). *)
Inductive step : db -> db -> Prop :=
| s_write w clk id f seq st d d' o : run_write w clk id f seq st d = Ok (d', o) -> step d d'
| s_abandon clk id seq st d d' o : mark_abandoned clk id seq st d = Ok (d', o) -> step d d'
| s_attempt id att row d d' : write_attempt id att row d = Ok d' -> step d d'
| s_claim wf clk worker lease ids d : step d (claim_rows wf clk worker lease ids d)
| s_renew t1 t2 worker lease disowned d : step d (update_jobs_lock t1 t2 worker lease disowned d)
| s_cancel clk id reason d : step d (fst (write_cancel_request clk id reason d))
| s_escalate clk id worker phase d d' b :
    write_cancel_escalation clk id worker phase d = Ok (d', b) -> step d d'
| s_reclaim clk st cg clg mbs held n d d' rows :
    sweep_expired_locks clk st cg clg mbs held n d = Ok (d', rows) -> step d d'
| s_deadline clk st held n d d' rows :
    sweep_deadline_exceeded clk st held n d = Ok (d', rows) -> step d d'
| s_promote st held n d : step d (fst (sweep_scheduled_to_pending st held n d))
| s_isolate t1 t2 mbs id worker d : step d (fst (isolate_job t1 t2 mbs id worker d))
| s_reconcile now worker lease excluded d : step d (reconcile_lost_claims now worker lease excluded d)
| s_drain worker active disowned d : step d (drain_local_queue_to_pending worker active disowned d)
| s_expire st guarded scan n d : step d (sweep_result_ttl st guarded scan n d)
| s_bulk_waiting now ids d : step d (bulk_cancel_waiting now ids d)
| s_bulk_running now ids d : step d (bulk_cancel_running now ids d)
| s_deregister now ids d : step d (deregister_cancel_pending now ids d)
| s_abort clk ids d : step d (abort_batch_jobs clk ids d)
| s_flush worker batch d : step d (fst (flush_rows worker batch d)).

(** Any write, operator retries included. *)
Inductive step_op : db -> db -> Prop :=
| so_step d d' : step d d' -> step_op d d'
| so_retry clk id d d' b : retry_job clk id d = Ok (d', b) -> step_op d d'.

(** Steps of [R] among whatever happens to the rows in [flows], the roots and nodes of workflows:
    their drivers, sweeps and runners may write those rows in any way. *)
Inductive with_flows (flows : gset Z) (R : db -> db -> Prop) : db -> db -> Prop :=
| wf_queue d d' : R d d' -> with_flows flows R d d'
| wf_flow d d' : (forall id, id ∉ flows -> jobs d' !! id = jobs d !! id) -> with_flows flows R d d'.

Definition steps := rtc step.
Definition steps_op := rtc step_op.
End system.

Section step_rows.
Context `{Rounding}.

Lemma run_write_rows w clk id f seq st d d' o :
  run_write w clk id f seq st d = Ok (d', o) -> rows_related row_change d d'.
Proof.
  intros Hw. apply run_write_landed in Hw. destruct o as [u|]; [|subst; by apply (rows_same row_change)].
  destruct Hw as (j & Hj & [Hf Hr] & Ht).
  apply (rows_one row_change d d' id j u); eauto using rc_write. apply (tw_jobs _ _ _ _ _ Ht).
Qed.

Lemma abandon_rows clk id seq st d d' o :
  mark_abandoned clk id seq st d = Ok (d', o) -> rows_related row_change d d'.
Proof.
  unfold mark_abandoned. destruct (select_row d id abandon_where) as [j|] eqn:E;
    [|intros [= <- <-]; by apply (rows_same row_change)].
  apply select_row_some in E as [Hj Ha]. cbv zeta. intros Hm. inv_ok. simplify_eq.
  apply insert_attempt_ledger in H1 as [Hl _].
  eapply (rows_one row_change _ _ id j); [done|by apply rc_abandon|]. simpl. rewrite (lw_jobs _ _ _ _ Hl). done.
Qed.

Lemma claim_row_rows wf clk w l id d : rows_related row_change d (claim_row wf clk w l id d).
Proof.
  unfold claim_row. destruct (select_row d id (claim_where wf)) as [j|] eqn:E; [|by apply (rows_same row_change)].
  apply select_row_some in E as [Hj Hc]. unfold claim_where in Hc. zbool. apply is_status_true in H0.
  eapply (rows_one row_change _ _ id j); [done|by apply rc_claim|done].
Qed.

(** A row claimed once is running, so a second mention of its id changes nothing. *)
Lemma claim_rows_lookup wf clk w l ids d id :
  option_Forall2 (fun j u => j = u \/ exists t1 t2 t3, status j = pending /\ u = claim_set t1 t2 t3 w l j)
    (jobs d !! id) (jobs (claim_rows wf clk w l ids d) !! id).
Proof.
  revert clk d. induction ids as [|i ids IH]; intros clk d; simpl.
  - destruct (jobs d !! id); constructor; auto.
  - specialize (IH (fun n => clk (3 + n)%nat) (claim_row wf clk w l i d)). revert IH.
    unfold claim_row. destruct (select_row d i (claim_where wf)) as [j|] eqn:E; [|done].
    apply select_row_some in E as [Hj Hc]. unfold claim_where in Hc. zbool. apply is_status_true in H0.
    cbn [jobs write_row assign]. destruct (decide (i = id)) as [->|Hne]; [|by rewrite lookup_insert_ne].
    rewrite lookup_insert_eq, Hj. intros Hf. inversion Hf as [? u Hu Hs Hk|]; subst. constructor.
    destruct Hu as [<-|(? & ? & ? & Hr & _)]; [|by unfold claim_set in Hr; row_simpl].
    right. eauto.
Qed.

Lemma claim_rows_rows wf clk w l ids d : rows_related row_change d (claim_rows wf clk w l ids d).
Proof.
  intros id. pose proof (claim_rows_lookup wf clk w l ids d id) as Hl.
  inversion Hl as [j u Hu|]; constructor. destruct Hu as [->|(? & ? & ? & Hs & ->)]; [done|].
  by apply rc_claim.
Qed.

Lemma renew_rows t1 t2 w l dis d : rows_related row_change d (update_jobs_lock t1 t2 w l dis d).
Proof.
  intros id. simpl. rewrite map_lookup_imap. destruct (jobs d !! id) as [j|]; simpl; constructor.
  destruct (renew_where w dis id j) eqn:E; [|reflexivity].
  unfold renew_where in E. zbool. apply is_status_true in H2. by apply rc_renew.
Qed.

Lemma cancel_rows clk id r d : rows_related row_change d (fst (write_cancel_request clk id r d)).
Proof.
  unfold write_cancel_request, cancel_request.
  destruct (select_row d id cancel_request_where) as [j|] eqn:E; [|by apply (rows_same row_change)].
  apply select_row_some in E as [Hj Hc].
  eapply (rows_one row_change _ _ id j); [done|by apply rc_cancel|]. simpl. by destruct (waiting _).
Qed.

Lemma escalate_rows clk id w p d d' b :
  write_cancel_escalation clk id w p d = Ok (d', b) -> rows_related row_change d d'.
Proof.
  unfold write_cancel_escalation. destruct (negb _); [done|].
  destruct (select_row d id (escalation_where w)) as [j|] eqn:E; intros [= <- <-]; [|by apply (rows_same row_change)].
  apply select_row_some in E as [Hj Hc]. unfold escalation_where in Hc. zbool. apply is_status_true in H0.
  eapply (rows_one row_change _ _ id j); [done|by apply rc_escalate|done].
Qed.

Lemma isolate_rows t1 t2 mbs id w d : rows_related row_change d (fst (isolate_job t1 t2 mbs id w d)).
Proof.
  unfold isolate_job. destruct (select_row _ _ _) as [j|] eqn:E; [|by apply (rows_same row_change)].
  apply select_row_some in E as [Hj Hc]. zbool. apply is_status_true in H0.
  eapply (rows_one row_change _ _ id j); [done|by apply rc_reclaim|done].
Qed.

Lemma sweep_1_snap_in st cg clg held n d id j r :
  (id, j, r) ∈ sweep_1_snap st cg clg held n d ->
  jobs d !! id = Some j /\ status j = running /\ id ∉ held.
Proof.
  unfold sweep_1_snap. rewrite elem_of_app, !list_elem_of_fmap.
  intros [([id' j'] & [= -> -> ->] & Hin)|([id' j'] & [= -> -> ->] & Hin)];
    apply candidates_lookup in Hin as (Hj & Hw & Hh); (split; [done|]); (split; [|done]);
    unfold lease_arm_where, heartbeat_arm_where in Hw; zbool; by apply is_status_true.
Qed.

Lemma reclaim_rows clk st cg clg mbs held n d d' rows :
  sweep_expired_locks clk st cg clg mbs held n d = Ok (d', rows) -> rows_related row_change d d'.
Proof.
  unfold sweep_expired_locks. intros Hs. inv_ok. simplify_eq. intros id.
  rewrite sweep_1_events_jobs, sweep_1_inserts_jobs. revert id. apply (rows_many row_change).
  intros id u Hin. apply list_elem_of_fmap in Hin as (r & [= -> ->] & Hin).
  apply elem_of_lookup_imap in Hin as (i & [[id j] re] & -> & Hi). simpl.
  apply list_elem_of_lookup_2, sweep_1_snap_in in Hi as (Hj & Hr & _).
  eauto using rc_reclaim.
Qed.

Lemma deadline_rows clk st held n d d' rows :
  sweep_deadline_exceeded clk st held n d = Ok (d', rows) -> rows_related row_change d d'.
Proof.
  unfold sweep_deadline_exceeded. intros Hs. inv_ok. simplify_eq. intros id.
  rewrite sweep_2_events_jobs, sweep_2_inserts_jobs. revert id. apply (rows_many row_change).
  intros id u Hin. apply list_elem_of_fmap in Hin as (r & [= -> ->] & Hin).
  apply elem_of_lookup_imap in Hin as (i & [id j] & -> & Hi). simpl.
  apply list_elem_of_lookup_2, candidates_lookup in Hi as (Hj & Hw & _).
  unfold sweep_2_where in Hw. zbool. eauto using rc_deadline.
Qed.

Lemma promote_rows st held n d : rows_related row_change d (fst (sweep_scheduled_to_pending st held n d)).
Proof.
  apply (rows_many row_change). intros id u Hin.
  apply list_elem_of_fmap in Hin as ([id' j] & [= -> ->] & Hin).
  apply candidates_lookup in Hin as (Hj & Hw & _). unfold sweep_3_where in Hw. zbool.
  apply is_status_true in H0. eauto using rc_promote.
Qed.

(** A plain UPDATE, row by row. *)
Lemma update_where_rows p f d :
  (forall id j, jobs d !! id = Some j -> p id j = true -> row_change j (f id j)) ->
  rows_related row_change d (update_where p f d).
Proof.
  intros Hp id. unfold update_where. cbn. rewrite map_lookup_imap.
  destruct (jobs d !! id) as [j|] eqn:Hj; cbn; constructor. destruct (p id j) eqn:E; [by apply Hp|apply rc_same].
Qed.

Lemma flush_rows_rows worker batch d : rows_related row_change d (fst (flush_rows worker batch d)).
Proof.
  induction batch as [|s batch IH]; cbn; [by apply (rows_same row_change)|].
  destruct (flush_rows worker batch d) as [d' ret]. destruct (jobs d !! sn_job s) as [j|] eqn:Hj; [|done].
  unfold flush_row, flush_where. destruct (is_status running j) eqn:Hr; [|done]. destruct (_ && _); [|done].
  cbn. intros id. destruct (decide (sn_job s = id)) as [<-|Hne].
  - cbn. rewrite lookup_insert_eq, Hj. constructor. apply is_status_true in Hr. by apply (rc_flush _ _ j).
  - cbn. by rewrite lookup_insert_ne.
Qed.

Ltac updated := apply update_where_rows; intros id j Hj Hp; zbool.

Lemma reconcile_rows now w l ex d : rows_related row_change d (reconcile_lost_claims now w l ex d).
Proof. updated. unfold reconcile_where, no_cancel in Hp. zbool. apply rc_reconcile; [by apply is_status_true|done]. Qed.

Lemma drain_rows w ac di d : rows_related row_change d (drain_local_queue_to_pending w ac di d).
Proof. updated. unfold drain_where, no_cancel in Hp. zbool. apply rc_drain; [by apply is_status_true|done]. Qed.

Lemma expire_rows st g sc n d : rows_related row_change d (sweep_result_ttl st g sc n d).
Proof. updated. apply rc_expire. Qed.

Lemma bulk_waiting_rows now ids d : rows_related row_change d (bulk_cancel_waiting now ids d).
Proof. updated. by apply (rc_cancel_waiting _ _ (error_message j) j). Qed.

Lemma bulk_running_rows now ids d : rows_related row_change d (bulk_cancel_running now ids d).
Proof. updated. unfold no_cancel in *. zbool. apply rc_cancel_running; [by apply is_status_true|done]. Qed.

Lemma deregister_rows now ids d : rows_related row_change d (deregister_cancel_pending now ids d).
Proof. updated. by apply (rc_cancel_waiting _ _ (Some DEREGISTERED_MESSAGE) j). Qed.

Lemma abort_rows clk ids d : rows_related row_change d (abort_batch_jobs clk ids d).
Proof. updated. by apply rc_abort. Qed.

Lemma step_rows d d' : step d d' -> rows_related row_change d d'.
Proof.
  intros []; eauto using run_write_rows, abandon_rows, claim_rows_rows, renew_rows, cancel_rows,
    escalate_rows, reclaim_rows, deadline_rows, promote_rows, isolate_rows, flush_rows_rows,
    reconcile_rows, drain_rows, expire_rows, bulk_waiting_rows, bulk_running_rows, deregister_rows, abort_rows.
  apply (rows_same row_change). unfold write_attempt, lift in *.
  destruct (insert_attempt _ _ _ _ _ _ _ _ _ _ _ _) eqn:E; simplify_eq.
  apply insert_attempt_ledger in E as [Hl _]. apply (lw_jobs _ _ _ _ Hl).
Qed.

Lemma step_op_rows d d' : step_op d d' -> rows_related row_change_op d d'.
Proof.
  intros [d0 d1 Hs|clk id d0 d1 b Hr].
  - intros id. destruct (step_rows _ _ Hs id); constructor. by apply ro_change.
  - assert (Reflexive row_change_op) by (intros j; apply ro_change, rc_same).
    unfold retry_job in Hr. destruct (select_row d0 id retry_job_where) as [j|] eqn:E;
      [|simplify_eq; by apply (rows_same row_change_op)].
    apply select_row_some in E as [Hj Hc]. inv_ok. simplify_eq.
    eapply (rows_one row_change_op _ _ id j); [done|by apply ro_retry|].
    unfold reopen_batch. by repeat case_match.
Qed.
End step_rows.

(** * Properties *)

(** ** The state machine over whole executions *)

Section lifecycle_claims.
Context `{Rounding}.

Lemma rows_related_lookup R d d' id j :
  rows_related R d d' -> jobs d !! id = Some j -> exists u, jobs d' !! id = Some u /\ R j u.
Proof. intros Hr Hj. specialize (Hr id). rewrite Hj in Hr. inversion Hr; eauto. Qed.

Lemma rows_related_origin R d d' id u :
  rows_related R d d' -> jobs d' !! id = Some u -> exists j, jobs d !! id = Some j /\ R j u.
Proof. intros Hr Hu. specialize (Hr id). rewrite Hu in Hr. inversion Hr; eauto. Qed.

(** A row property that every row change keeps holds of a row for ever. *)
Lemma steps_keep (P : job -> Prop) id d d' j :
  (forall a b, row_change a b -> P a -> P b) ->
  steps d d' -> jobs d !! id = Some j -> P j -> exists u, jobs d' !! id = Some u /\ P u.
Proof.
  intros HP Hs. revert j. induction Hs as [|d d1 d2 H1 H2 IH]; intros j Hj Hp; [eauto|].
  destruct (rows_related_lookup _ _ _ _ _ (step_rows _ _ H1) Hj) as (u & Hu & Hc). eauto.
Qed.

Lemma steps_op_keep (P : job -> Prop) id d d' j :
  (forall a b, row_change_op a b -> P a -> P b) ->
  steps_op d d' -> jobs d !! id = Some j -> P j -> exists u, jobs d' !! id = Some u /\ P u.
Proof.
  intros HP Hs. revert j. induction Hs as [|d d1 d2 H1 H2 IH]; intros j Hj Hp; [eauto|].
  destruct (rows_related_lookup _ _ _ _ _ (step_op_rows _ _ H1) Hj) as (u & Hu & Hc). eauto.
Qed.

(** Whatever happens to the rows of flows, a row outside them changes only by the queue's writes. *)
Lemma flows_keep (R : db -> db -> Prop) (RC : job -> job -> Prop) (P : job -> Prop) flows id d d' j :
  (forall d d', R d d' -> rows_related RC d d') -> (forall a b, RC a b -> P a -> P b) -> id ∉ flows ->
  rtc (with_flows flows R) d d' -> jobs d !! id = Some j -> P j -> exists u, jobs d' !! id = Some u /\ P u.
Proof.
  intros HR HP Hid Hs. revert j. induction Hs as [|d d1 d2 H1 H2 IH]; intros j Hj Hp; [eauto|].
  destruct H1 as [d d1 H1|d d1 H1]; [|apply (IH j); [by rewrite H1|done]].
  destruct (rows_related_lookup _ _ _ _ _ (HR _ _ H1) Hj) as (u & Hu & Hc). eauto.
Qed.

(** The end of a terminal row: as it is, or with its stored result expired. *)
Definition final (j u : job) : Prop := u = j \/ u = expire_result j.

Lemma final_keep j a b : terminal (status j) = true -> row_change a b -> final j a -> final j b.
Proof.
  intros Ht Hc [->| ->].
  - by apply row_change_terminal.
  - by destruct (row_change_terminal _ _ Hc Ht) as [->| ->]; right.
Qed.

(** C2: Only declared transitions, and terminal rows are final.  For a job that is no node or root of
    a workflow: one write of the queue (a worker's terminal write or deferral, an abandon, a
    claim, a lease renewal, a cancel of one job, in bulk, by a deregistration or by a batch's abort,
    an escalation, the sweeps, an isolate, the reconcile of lost claims, the drain at shutdown, a
    progress flush, the expiry of results) either keeps its status or moves it along
    [VALID_TRANSITIONS]; and over any sequence of such writes, whatever happens to the rows of
    workflows meanwhile, a row that has reached a terminal status is never changed again,
    except that the expiry sweep nulls its stored result and that result's size.  Only an
    operator's retry leaves a terminal status.  (The deletion of old rows is not a change here.) *)
Theorem lifecycle_sound flows id j :
  id ∉ flows ->
  (forall d d', with_flows flows step d d' -> jobs d !! id = Some j ->
     exists u, jobs d' !! id = Some u /\
       (status u = status j \/ status u ∈ VALID_TRANSITIONS (status j))) /\
  (forall d d', rtc (with_flows flows step) d d' -> jobs d !! id = Some j -> terminal (status j) = true ->
     jobs d' !! id = Some j \/ jobs d' !! id = Some (expire_result j)).
Proof.
  intros Hid. split.
  - intros d d' [d0 d1 Hs|d0 d1 Hs] Hj; [|exists j; rewrite Hs by done; auto].
    destruct (rows_related_lookup _ _ _ _ _ (step_rows _ _ Hs) Hj) as (u & Hu & Hc).
    eauto using row_change_transition.
  - intros d d' Hs Hj Ht.
    destruct (flows_keep step row_change (final j) flows id d d' j step_rows (fun a b => final_keep j a b Ht) Hid Hs Hj
      (or_introl eq_refl)) as (u & Hu & [->| ->]); auto.
Qed.

Lemma row_change_op_wf a b : row_change_op a b -> wf_job a -> wf_job b.
Proof. intros []; eauto using row_change_wf, retry_job_wf. Qed.

(** C4: The row invariant holds in every reachable database.  From rows that satisfy it, every
    sequence of the queue's writes, operator retries included, keeps it on every row outside
    workflows, whatever happens to the rows of workflows: a running row has a holder, a
    lease and no finish time, and an attempt of at least 1 unless the reconcile of lost claims
    took its stamp back; a waiting row carries no cancel and no finish time; a terminal row has a
    finish time; the cancel phase is 0, 1 or 2 and is non-zero exactly when a cancel was requested;
    attempt and ceiling stay inside smallint.  (Rows an enqueue adds are [born_well_formed].) *)
Theorem wf_reachable flows d d' :
  (forall id j, id ∉ flows -> jobs d !! id = Some j -> wf_job j) -> rtc (with_flows flows step_op) d d' ->
  forall id j, id ∉ flows -> jobs d' !! id = Some j -> wf_job j.
Proof.
  intros Hw Hs. induction Hs as [|d d1 d2 H1 H2 IH]; [done|]. apply IH. intros id u Hid Hu.
  destruct H1 as [d d1 H1|d d1 H1]; [|apply (Hw id); [done|by rewrite <- H1]].
  destruct (rows_related_origin _ _ _ _ _ (step_op_rows _ _ H1) Hu) as (j & Hj & Hc).
  eapply row_change_op_wf; [done|]. by apply (Hw id j).
Qed.

(** ** Fencing *)

(** A stale write changes nothing.  When the caller's presentation does not match the
    row (the row is gone or not running, another worker holds it, the attempt or the
    claim epoch differ, or either epoch was not presented), every terminal write and
    deferral returns "no row" and leaves the whole database as it was. *)
Theorem stale_write_noop w clk id f seq st d :
  (forall j, jobs d !! id = Some j ->
     status j <> running \/ locked_by_worker j <> Some (f_worker f) \/
     f_attempt f <> Some (attempt j) \/ f_epoch f <> Some (claim_epoch j)) ->
  run_write w clk id f seq st d = Ok (d, None).
Proof.
  intros Hs. apply run_write_stale. intros j Hj. apply not_true_iff_false. intros Hf.
  apply fence_running in Hf as (? & ? & ? & ?). destruct (Hs j Hj) as [?|[?|[?|?]]]; done.
Qed.

(** The claim epoch [e] of the row is over. *)
Definition epoch_over (e : Z) (j : job) : Prop :=
  e <= claim_epoch j /\ (status j = running -> e < claim_epoch j).

Lemma epoch_over_keep e a b : row_change_op a b -> epoch_over e a -> epoch_over e b.
Proof.
  intros [j u Hc|t1 t2 j Hr] [H1 H2]; unfold epoch_over.
  - destruct (row_change_epoch _ _ Hc) as [Hm Hrun]. split; [lia|].
    intros E. destruct (Hrun E) as [(Es & Ee & _)|(Es & Ee)]; [specialize (H2 Es)|]; lia.
  - unfold retry_job_set. row_simpl. split; [lia|done].
Qed.

Lemma landed_epoch_over id f d d' u :
  landed id f d d' u -> jobs d' !! id = Some u /\ exists e, f_epoch f = Some e /\ epoch_over e u.
Proof.
  intros (j & Hj & [Hf Hw] & Ht). split.
  - rewrite (tw_jobs _ _ _ _ _ Ht). apply lookup_insert_eq.
  - apply fence_running in Hf as (_ & _ & _ & He). exists (claim_epoch j). split; [done|].
    split; [by rewrite (rw_epoch _ _ Hw)|]. intros E. pose proof (rw_status _ _ Hw) as Hs.
    rewrite E in Hs. set_solver.
Qed.

(** C1: At most one write ends a claim.  Once any terminal write or deferral presented
    under a fence has landed, no later write presented under the same fence lands,
    whatever happened in between: re-claims by the same worker at the same attempt
    number, crash reclaims, operator retries, attempt refunds, counters saturated at the
    smallint ceiling. *)
Theorem claim_ends_once w1 w2 clk1 clk2 id f seq1 seq2 st1 st2 d d1 d2 u :
  run_write w1 clk1 id f seq1 st1 d = Ok (d1, Some u) ->
  steps_op d1 d2 ->
  run_write w2 clk2 id f seq2 st2 d2 = Ok (d2, None).
Proof.
  intros Hw Hs. apply run_write_landed, landed_epoch_over in Hw as (Hu & e & He & Ho).
  destruct (steps_op_keep (epoch_over e) id d1 d2 u) as (v & Hv & [Hle Hlt]); eauto using epoch_over_keep.
  apply run_write_stale. intros j Hj. rewrite Hv in Hj. injection Hj as ->.
  apply not_true_iff_false. intros Hf. apply fence_running in Hf as (Hr & _ & _ & He').
  rewrite He in He'. injection He' as ->. specialize (Hlt Hr). lia.
Qed.
End lifecycle_claims.

(** ** Cancel requests *)

Section cancel_claims.
Context `{Rounding}.

(** A cancel in flight or honoured: the phase is on the row and the row waits for nobody. *)
Definition cancel_carried (j : job) : Prop := cancel_phase j <> 0 /\ waiting (status j) = false.

Lemma cancel_carried_keep a b : row_change a b -> cancel_carried a -> cancel_carried b.
Proof.
  intros Hc [Hp Hw]. unfold cancel_carried.
  destruct (terminal (status a)) eqn:Et; [by destruct (row_change_terminal _ _ Hc Et) as [->| ->]|].
  destruct (status_kinds (status a)) as [Hr|[?|?]]; [|congruence..].
  destruct Hc as [| f j' u' Hf Hrw|? ? ? j' Ha|? ? ? ? ? j' Hs|? ? ? j' Hs|? ? j' Hc|j' Hs Hp'|? ? ? ? ? j' Hs|? j' Hs|j' Hs
    |j' Hs Hp'|j' Hs Hp'|j'|? ? ? j' Hs|? j' Hs Hp'|? ? j' Hs|? ? j' Hs];
    try congruence; try done.
  - destruct (terminal (status u')) eqn:Eu.
    + destruct (rw_terminal _ _ Hrw Eu) as (_ & -> & _). by apply terminal_not_active in Eu as [_ ->].
    + by destruct (rw_waiting _ _ Hrw Eu) as (? & _).
  - destruct (cancel_request_set_status t1 t2 j' Hc) as [[? _]|(_ & ? & _)]; congruence.
  - unfold reclaim_set. row_simpl. destruct (Z.eqb_spec (cancel_phase j') 0); done.
Qed.

Lemma cancel_request_carried clk id reason d j :
  jobs d !! id = Some j -> status j = running ->
  exists u, jobs (fst (write_cancel_request clk id reason d)) !! id = Some u /\
    (cancel_phase j = 0 -> cancel_phase u = 1) /\ (cancel_phase j <> 0 -> u = j) /\ status u = running.
Proof.
  intros Hj Hr. unfold write_cancel_request, cancel_request, select_row. rewrite Hj.
  unfold cancel_request_where. assert (Hs : is_status running j = true) by (by apply is_status_true).
  rewrite Hr, Hs. change (waiting running) with false. simpl.
  destruct (Z.eqb_spec (cancel_phase j) 0) as [E|E]; simpl.
  - rewrite Hr. simpl. rewrite lookup_insert_eq. eexists. split; [done|]. unfold cancel_request_set.
    row_simpl. rewrite Hr, Hs, E. done.
  - exists j. by rewrite Hj.
Qed.

(** C3: The queue never launders an accepted cancel.  After a cancel request on a running job that is
    no node or root of a workflow, no sequence of the queue's writes (workers, sweeps, isolates,
    claims, reconciles, drains, flushes, further cancels) ever puts the job back in the queue,
    whatever happens to the rows of workflows: its row keeps a cancel phase and is never pending
    or scheduled again (it stays running until it ends), unless an operator explicitly retries
    it.  A retry decision, a snooze, an admission denial, a RetryAfter or an interruption cannot
    reset the request.  For the nodes a workflow runner drives this is false: see
    [Runner.repend_launders_cancel]. *)
Theorem cancel_not_laundered flows clk id reason d d' j :
  id ∉ flows -> jobs d !! id = Some j -> status j = running ->
  rtc (with_flows flows step) (fst (write_cancel_request clk id reason d)) d' ->
  exists u, jobs d' !! id = Some u /\ cancel_phase u <> 0 /\ (status u = running \/ terminal (status u) = true).
Proof.
  intros Hid Hj Hr Hs. destruct (cancel_request_carried clk id reason d j Hj Hr) as (v & Hv & H1 & H2 & Hrv).
  assert (Hc : cancel_carried v).
  { split; [|by rewrite Hrv]. destruct (Z.eq_dec (cancel_phase j) 0) as [E|E].
    - rewrite (H1 E). done.
    - by rewrite (H2 E). }
  destruct (flows_keep step row_change cancel_carried flows id _ d' v step_rows cancel_carried_keep Hid Hs Hv Hc)
    as (u & Hu & Hp & Hw).
  exists u. split_and!; auto. destruct (status_kinds (status u)) as [?|[?|?]]; auto. congruence.
Qed.

(** A request is recorded or there was nothing to cancel.  [write_cancel_request]
    answers false exactly when the job is missing, terminal, or running and already under
    a cancel phase; otherwise a waiting job becomes [cancelled] with the
    before-start origin and two events (the state change first), and a running job at
    phase 0 gets phase 1, its request time and one event. *)
Theorem write_cancel_request_total clk id reason d :
  let '(d', ok) := write_cancel_request clk id reason d in
  match jobs d !! id with
  | None => ok = false /\ d' = d
  | Some j =>
      if waiting (status j) then
        ok = true /\ (exists u, jobs d' = <[id := u]> (jobs d) /\ status u = cancelled /\
          finished_at u = Some (clk 0%nat) /\ error_class u = Some CANCEL_ORIGIN_PENDING /\
          cancel_phase u = cancel_phase j) /\
        (exists e1 e2, events d' = events d ++ [e1; e2] /\
          ev_kind e1 = "state_change"%string /\ ev_kind e2 = "cancel_request"%string /\ ev_at e1 = ev_at e2)
      else if bool_decide (status j = running) && (cancel_phase j =? 0) then
        ok = true /\ (exists u, jobs d' = <[id := u]> (jobs d) /\ status u = running /\
          cancel_phase u = 1 /\ cancel_requested_at u = Some (clk 1%nat)) /\
        (exists e, events d' = events d ++ [e] /\ ev_kind e = "cancel_request"%string)
      else ok = false /\ d' = d
  end.
Proof.
  unfold write_cancel_request, cancel_request, select_row.
  destruct (jobs d !! id) as [j|] eqn:Hj; [|done]. unfold cancel_request_where.
  destruct (waiting (status j)) eqn:Hw; cbn [orb].
  - assert (Hn : is_status running j = false).
    { apply bool_decide_eq_false. intros E. by rewrite E in Hw. }
    cbn [fst snd]. rewrite Hw. simpl. split; [done|]. split.
    + eexists. split; [done|]. unfold cancel_request_set. row_simpl. by rewrite Hw, Hn.
    + do 2 eexists. rewrite <- app_assoc. simpl. by split.
  - unfold is_status. destruct (bool_decide (status j = running)) eqn:Hr; [|done]. simpl.
    destruct (Z.eqb_spec (cancel_phase j) 0) as [E|E]; [|done]. cbn [fst snd]. rewrite Hw. simpl.
    split; [done|]. split.
    + eexists. split; [done|]. unfold cancel_request_set. row_simpl. unfold is_status.
      rewrite Hw, Hr, E. simpl. by apply bool_decide_eq_true in Hr.
    + by eexists.
Qed.
End cancel_claims.

(** ** Witnesses *)

Definition demo_job : job :=
  {| status := running; actor := "a"; attempt := 1; max_attempts := 3; retry_kind := transient;
     scheduled_at := 0; schedule_to_close := Some (3600 * usec_per_sec); heartbeat_timeout := None;
     started_at := Some 0; finished_at := None; last_heartbeat_at := Some 0;
     locked_by_worker := Some 7; lock_expires_at := Some (60 * usec_per_sec); claim_epoch := 1;
     cancel_requested_at := None; cancel_phase := 0; error_class := None; error_message := None;
     error_traceback := None; progress_state := ∅; progress_seq := 0; result_json := None;
     result_size_bytes := None; result_expires_at := None; metadata := ∅; assignment_routed := false;
     deps_pending := 0; snooze_count := 0; rate_limit_blocked_count := 0; interrupt_count := 0;
     retry_base_seconds := 2; retry_cap_seconds := 300; retry_backoff := exponential;
     retry_jitter := 1 # 4 |}.

Definition done_job : job :=
  demo_job <| status := succeeded |> <| finished_at := Some 3 |> <| result_json := Some "1"%string |>
    <| result_size_bytes := Some 1 |> <| result_expires_at := Some 5 |>.

Definition demo_db (j : job) : db :=
  {| jobs := {[1 := j]}; attempts := ∅; events := []; workers := {[7]}; result_ttl := ∅; batches := ∅ |}.

Definition demo_fence : fence := {| f_worker := 7; f_attempt := Some 1; f_epoch := Some 1 |}.

Definition demo_clk (n : nat) : Z := 5 * usec_per_sec.

Lemma wf_reachable_witness :
  exists j, jobs (fst (write_cancel_request demo_clk 1 None (demo_db demo_job))) !! 1 = Some j /\
    cancel_phase j = 1 /\ wf_job j.
Proof.
  eexists. split_and!; [reflexivity|reflexivity|].
  apply (wf_reachable {[5]} (demo_db demo_job) (fst (write_cancel_request demo_clk 1 None (demo_db demo_job)))) with (id := 1).
  - intros id j _ Hj. unfold demo_db in Hj. cbn in Hj. apply lookup_singleton_Some in Hj as [_ <-].
    apply (bool_decide_unpack _). by vm_compute.
  - apply rtc_once, wf_queue, so_step, s_cancel.
  - apply (bool_decide_unpack _). by vm_compute.
  - reflexivity.
Defined.

Lemma lifecycle_sound_witness :
  jobs (sweep_result_ttl 9 ∅ [1] 5 (demo_db done_job)) !! 1 = Some done_job \/
  jobs (sweep_result_ttl 9 ∅ [1] 5 (demo_db done_job)) !! 1 = Some (expire_result done_job).
Proof.
  destruct (lifecycle_sound {[5]} 1 done_job) as [_ Hf]; [apply (bool_decide_unpack _); by vm_compute|].
  apply (Hf (demo_db done_job)); [apply rtc_once, wf_queue, s_expire|reflexivity|reflexivity].
Defined.

Lemma stale_write_noop_witness :
  run_write W_cancelled demo_clk 1 {| f_worker := 7; f_attempt := Some 1; f_epoch := None |} 0 None
    (demo_db demo_job) = Ok (demo_db demo_job, None).
Proof.
  apply stale_write_noop. intros j Hj. right; right; right. discriminate.
Defined.

Lemma claim_ends_once_witness :
  exists d1 u, run_write (W_retry 0 None None None) demo_clk 1 demo_fence 0 None (demo_db demo_job) = Ok (d1, Some u) /\
    run_write W_cancelled demo_clk 1 demo_fence 0 None d1 = Ok (d1, None).
Proof.
  destruct (run_write (W_retry 0 None None None) demo_clk 1 demo_fence 0 None (demo_db demo_job))
    as [[d1 [u|]]|] eqn:E; [|by vm_compute in E..].
  exists d1, u. split; [done|].
  exact (claim_ends_once _ W_cancelled demo_clk demo_clk 1 demo_fence 0 0 None None _ d1 d1 u E (rtc_refl _ d1)).
Defined.

Lemma cancel_not_laundered_witness :
  exists u, jobs (fst (write_cancel_request demo_clk 1 None (demo_db demo_job))) !! 1 = Some u /\
    cancel_phase u <> 0 /\ (status u = running \/ terminal (status u) = true).
Proof.
  apply (cancel_not_laundered {[5]} demo_clk 1 None (demo_db demo_job) _ demo_job);
    [apply (bool_decide_unpack _); by vm_compute|reflexivity|reflexivity|apply rtc_refl].
Defined.

Definition demo_cancel_job : job := demo_job <| cancel_phase := 2 |> <| cancel_requested_at := Some 1 |>.
