(* ===== verification/Runner.v ===== *)
(** * The workflow runner's own writes

    The statements an in-process or worker-hosted [FlowRunner] makes on the rows of its flow
    ([workflows/api/_sql_runner.py]), beside the engine's ([Workflow]).  They are outside the
    queue's step relation, and two of its guarantees do not extend to them: the re-pend of a
    failed attempt has no cancel fence, and a started root runs without a holder. *)

From Stdlib Require Import ZArith Lia.
From stdpp Require Import base tactics list gmap strings.
From S2P Require Import Prelude PyFloat Retry JobRow Terminal Control Sweeps Upkeep Progress Lifecycle.

Open Scope Z_scope.

Definition ninety_seconds : Z := 90 * usec_per_sec.

Definition carries (key : string) (j : job) : bool := is_set (metadata j !! key).

(** [NODE_CLAIM]: [flow_open] is its terminal-flow fence, the escalation step's exemption included. *)
Definition node_claim_where (now : Z) (flow_open : bool) (j : job) : bool :=
  (is_status pending j || is_status scheduled j && (scheduled_at j <=? now)) &&
  (deps_pending j =? 0) && negb (carries "hold" j) && flow_open.

Definition node_claim_set (now worker : Z) (j : job) : job :=
  j <| status := running |> <| locked_by_worker := Some worker |> <| lock_expires_at := Some (now + ninety_seconds) |>
    <| attempt ::= fun a => a + 1 |> <| claim_epoch := 0 |>.

Definition node_claim (now worker : Z) (flow_open : bool) (id : Z) (d : db) : db * option Z :=
  match select_row d id (node_claim_where now flow_open) with
  | Some j => let u := node_claim_set now worker j in (write_row id u d, Some (attempt u))
  | None => (d, None)
  end.

(** [NODE_REPEND]; [stamp] is the metadata with the [wf_repend] record of this attempt. *)
Definition node_repend (now backoff : Z) (stamp : jobj -> jobj) (id : Z) (d : db) : db * bool :=
  match select_row d id (is_status running) with
  | Some j =>
      (write_row id (j <| status := scheduled |> <| locked_by_worker := None |> <| scheduled_at := now + backoff |>
                       <| metadata ::= stamp |>) d, true)
  | None => (d, false)
  end.

(** [NODE_DEADLINE_REPEND]: the verdict of its three arms. *)
Inductive deadline_verdict := repended | exhausted | cancel_fenced.

Definition claim_identity (worker att epoch : Z) (j : job) : bool :=
  is_status running j && sql_eq (locked_by_worker j) (Some worker) && (attempt j =? att) && (claim_epoch j =? epoch).

Definition node_deadline_repend (now backoff : Z) (spent : bool) (worker att epoch id : Z) (d : db) :
    db * option deadline_verdict :=
  match select_row d id (claim_identity worker att epoch) with
  | None => (d, None)
  | Some j =>
      if negb (no_cancel j) || carries "cancel_phase" j then (d, Some cancel_fenced)
      else if spent then (d, Some exhausted)
      else (write_row id (j <| status := scheduled |> <| locked_by_worker := None |> <| scheduled_at := now + backoff |>) d,
            Some repended)
  end.

(** [ROOT_START]. *)
Definition root_start (id : Z) (d : db) : db :=
  match select_row d id (is_status pending) with
  | Some j => write_row id (j <| status := running |>) d
  | None => d
  end.

(** [EXIT_SKIP]; [skipped] are the nodes of the flow under the exit's step keys. *)
Definition exit_skip (now : Z -> Z) (envelope : string) (skipped : gset Z) (d : db) : db :=
  update_where (fun id j => bool_decide (id ∈ skipped) && negb (terminal (status j)))
    (fun id j => j <| status := succeeded |> <| result_json := Some envelope |> <| finished_at := Some (now id) |>) d.

(** The re-pend forgets a cancel.  A running node under an accepted cancel whose attempt fails is put
    back among the scheduled rows, phase and request still on it, and the next claim runs it again. *)
Theorem repend_launders_cancel now backoff stamp id d j :
  jobs d !! id = Some j -> status j = running -> cancel_phase j <> 0 ->
  exists u, jobs (fst (node_repend now backoff stamp id d)) !! id = Some u /\
    status u = scheduled /\ cancel_phase u = cancel_phase j /\ locked_by_worker u = None.
Proof.
  intros Hj Hr Hp. unfold node_repend, select_row. rewrite Hj.
  assert (is_status running j = true) as -> by (by apply is_status_true). cbn. rewrite lookup_insert_eq. by eexists.
Qed.

(** Its twin for deadlines does not: under a cancel, on either carrier, it writes nothing. *)
Theorem deadline_repend_keeps_cancel now backoff spent worker att epoch id d j :
  jobs d !! id = Some j -> cancel_phase j <> 0 ->
  fst (node_deadline_repend now backoff spent worker att epoch id d) = d.
Proof.
  intros Hj Hp. unfold node_deadline_repend, select_row. rewrite Hj. destruct (claim_identity _ _ _ _); [|done].
  unfold no_cancel. by destruct (Z.eqb_spec (cancel_phase j) 0).
Qed.

(** A started root is running with no holder and no lease. *)
Theorem root_start_unheld id d j :
  jobs d !! id = Some j -> status j = pending -> locked_by_worker j = None ->
  exists u, jobs (root_start id d) !! id = Some u /\ status u = running /\ ~ wf_job u.
Proof.
  intros Hj Hs Hl. unfold root_start, select_row. rewrite Hj.
  assert (is_status pending j = true) as -> by (by apply is_status_true). cbn. rewrite lookup_insert_eq. eexists.
  split; [done|]. split; [done|]. intros (H0 & _). destruct (H0 eq_refl) as ([w Hw] & _). cbn in Hw. congruence.
Qed.

(** A scheduled row the re-pend left is promoted and run, its cancel ignored. *)
Example laundered_node_runs :
  let d := fst (write_cancel_request demo_clk 1 None (demo_db demo_job)) in
  let d := fst (node_repend 6 50000 (fun m => m) 1 d) in
  let d := fst (sweep_scheduled_to_pending usec_per_sec ∅ 10 d) in
  let d := claim_rows (fun _ => true) (fun _ => 9) 7 30 [1] d in
  exists u, jobs d !! 1 = Some u /\ status u = running /\ cancel_phase u = 1 /\ attempt u = 2.
Proof. vm_compute. by eexists. Qed.
