(* ===== verification/TerminalProps.v ===== *)
(** * What each terminal write and deferral decides

    Exhaustiveness and exclusivity of the arms of the fused statements, the attempt
    refund, the inserts that record the outcome, and the callers' reports. *)

From Stdlib Require Import ZArith Lia QArith.
From stdpp Require Import base tactics list gmap strings.
From S2P Require Import Prelude PyFloat Retry JobRow Terminal Control Sweeps Lifecycle.

Open Scope Z_scope.

(** Successive reads of the server clock do not go backwards. *)
Definition mono (clk : nat -> Z) : Prop := forall i k, (i <= k)%nat -> clk i <= clk k.

(** The attempt's age fits the int4 millisecond column (24 days and 20 hours). *)
Definition int4_ms_span : Z := 2 ^ 31 * 1000.

Definition short_attempt (clk : nat -> Z) (s : Z) : Prop := forall i, 0 <= clk i - s < int4_ms_span.

Lemma duration_short t s :
  0 <= t - s < int4_ms_span -> duration_ms (Some t) (Some s) = Ok (Some (Z.quot (t - s) 1000)).
Proof.
  unfold int4_ms_span. intros Hr. unfold duration_ms.
  rewrite Z.quot_div_nonneg by lia.
  assert (0 <= (t - s) / 1000 < 2 ^ 31) by (split; [apply Z.div_pos|apply Z.div_lt_upper_bound]; lia).
  destruct (Z.leb_spec (- 2 ^ 31) ((t - s) / 1000)); [|lia].
  destruct (Z.ltb_spec ((t - s) / 1000) (2 ^ 31)); [done|lia].
Qed.

Lemma duration_long t s : int4_ms_span <= t - s -> duration_ms (Some t) (Some s) = Err IntOutOfRange.
Proof.
  unfold int4_ms_span. intros Hr. unfold duration_ms.
  rewrite Z.quot_div_nonneg by lia.
  assert (2 ^ 31 <= (t - s) / 1000) by (apply Z.div_le_lower_bound; lia).
  destruct (Z.ltb_spec ((t - s) / 1000) (2 ^ 31)); [lia|]. by rewrite andb_false_r.
Qed.

Lemma insert_attempt_records id att s fi o c m tb du w due d :
  exists d', insert_attempt id att (Some s) fi o c m tb du w due d = Ok d' /\
    is_Some (attempts d' !! (id, att)) /\ jobs d' = jobs d /\ events d' = events d.
Proof.
  eexists. split; [done|]. destruct (attempts d !! (id, att)) eqn:E; simpl; [by rewrite E; eauto|].
  rewrite lookup_insert_eq. eauto.
Qed.

Lemma terminal_attempt_records id w t u o c m tb d fin s :
  finished_at u = Some fin -> started_at u = Some s -> 0 <= fin - s < int4_ms_span ->
  exists d', terminal_attempt id w t u o c m tb d = Ok d' /\
    is_Some (attempts d' !! (id, attempt u)) /\ jobs d' = jobs d /\ events d' = events d.
Proof.
  intros Hf Hs Hr. unfold terminal_attempt. rewrite Hf, Hs, duration_short by done. simpl.
  apply insert_attempt_records.
Qed.

Lemma failed_inserts_records id w t1 t2 u c m x d fin s :
  finished_at u = Some fin -> started_at u = Some s -> 0 <= fin - s < int4_ms_span ->
  exists d', failed_inserts id w t1 t2 u c m x d = Ok d' /\
    is_Some (attempts d' !! (id, attempt u)) /\ jobs d' = jobs d.
Proof.
  intros Hf Hs Hr. unfold failed_inserts.
  destruct (terminal_attempt_records id w t1 u A_failed (Some c) (Some m) None d fin s Hf Hs Hr)
    as (d1 & -> & Ha & Hj & _). simpl. eexists. split; [done|]. by split.
Qed.

Lemma cancelled_inserts_records id w t1 t2 u d fin s :
  finished_at u = Some fin -> started_at u = Some s -> 0 <= fin - s < int4_ms_span ->
  exists d', cancelled_inserts id w t1 t2 u d = Ok d' /\
    is_Some (attempts d' !! (id, attempt u)) /\ jobs d' = jobs d.
Proof.
  intros Hf Hs Hr. unfold cancelled_inserts.
  destruct (terminal_attempt_records id w t1 u A_cancelled (error_class u) None None d fin s Hf Hs Hr)
    as (d1 & -> & Ha & Hj & _). simpl. eexists. split; [done|]. by split.
Qed.

Lemma retried_inserts_records id f n t1 t2 due u c m tb d s :
  started_at u = Some s -> 0 <= n - s < int4_ms_span ->
  exists d', retried_inserts id f n t1 t2 due u c m tb d = Ok d' /\
    is_Some (attempts d' !! (id, attempt u)) /\ jobs d' = jobs d.
Proof.
  intros Hs Hr. unfold retried_inserts. rewrite Hs, duration_short by done. cbn [rbind].
  edestruct insert_attempt_records as (d1 & -> & Ha & Hj & _). simpl. eexists. split; [done|]. by split.
Qed.

Lemma retry_after_inserts_records id f n t1 t2 due u d s :
  started_at u = Some s -> 0 <= n - s < int4_ms_span ->
  exists d', retry_after_inserts id f n t1 t2 due u d = Ok d' /\
    is_Some (attempts d' !! (id, attempt u)) /\ jobs d' = jobs d.
Proof.
  intros Hs Hr. unfold retry_after_inserts. rewrite Hs, duration_short by done. cbn [rbind].
  edestruct insert_attempt_records as (d1 & -> & Ha & Hj & _). simpl. eexists. split; [done|]. by split.
Qed.

(** A deadline that does not admit the earlier read refuses the later one. *)
Lemma deadline_partition j clk i k delay :
  mono clk -> (i <= k)%nat -> within_deadline j (clk i + delay) = false -> past_deadline j (clk k + delay) = true.
Proof.
  intros Hm Hi. unfold within_deadline, past_deadline. destruct (schedule_to_close j); [|done].
  specialize (Hm i k Hi). intros. zbool. apply Z.ltb_lt. lia.
Qed.

Lemma effective_positive delay : 0 < effective_delay delay.
Proof. unfold effective_delay, MIN_DEFERRAL_INTERVAL, td_seconds, usec_per_sec. lia. Qed.

Lemma requeue_effective delay : requeue_status (effective_delay delay) = scheduled.
Proof. unfold requeue_status. pose proof (effective_positive delay). destruct (Z.ltb_spec 0 (effective_delay delay)); [done|lia]. Qed.

(** The row of a clean fenced claim, as the arms read it. *)
Section clean_row.
Variables (clk : nat -> Z) (f : fence) (id s : Z) (d : db) (j : job).
Hypotheses (Hj : jobs d !! id = Some j) (Hf : JOB_FENCE f j = true) (Hs : started_at j = Some s)
  (Hm : mono clk) (Hsh : short_attempt clk s).

Lemma mark_retry_total raw cls msg tb seq st :
  cancel_phase j = 0 ->
  let delay := effective_delay raw in
  exists d' b u, mark_retry clk id f raw cls msg tb seq st d = Ok (d', Some (b, u)) /\
    jobs d' = <[id := u]> (jobs d) /\ attempt u = attempt j /\ is_Some (attempts d' !! (id, attempt j)) /\
    ((b = B_retried /\ within_deadline j (clk 0%nat + delay) = true /\ status u = scheduled /\
      scheduled_at u = clk 1%nat + delay /\ error_class u = cls) \/
     (b = B_deadline_failed /\ within_deadline j (clk 0%nat + delay) = false /\ status u = failed /\
      error_class u = Some ERROR_CLASS_DEADLINE_EXCEEDED)).
Proof.
  intros Hp delay. unfold mark_retry. rewrite Hj. cbv zeta. fold delay.
  unfold mark_retry_retried, mark_retry_deadline_failed, no_cancel. rewrite Hf, Hp. cbn [Z.eqb andb].
  destruct (within_deadline j (clk 0%nat + delay)) eqn:Ew.
  - cbv iota beta. edestruct retried_inserts_records as (d' & -> & Ha & Hd); [|exact (Hsh 2%nat)|].
    { row_simpl. exact Hs. }
    cbn [rbind]. do 3 eexists. split; [done|]. split; [exact Hd|]. row_simpl.
    split; [done|]. split; [exact Ha|]. left. split_and!; auto. apply requeue_effective.
  - rewrite (deadline_partition j clk 0 3 delay Hm ltac:(lia) Ew). cbv iota beta. cbn [andb].
    edestruct failed_inserts_records as (d' & -> & Ha & Hd); [| |exact (Hsh 4%nat)|].
    { row_simpl. done. } { row_simpl. exact Hs. }
    cbn [rbind]. do 3 eexists. split; [done|]. split; [exact Hd|]. row_simpl.
    split; [done|]. split; [exact Ha|]. right. auto.
Qed.

Lemma mark_snoozed_total raw meta seq st oc r :
  cancel_phase j = 0 ->
  let delay := effective_delay raw in
  exists d' b u, mark_snoozed clk id f raw meta seq st oc r d = Ok (d', Some (b, u)) /\
    jobs d' = <[id := u]> (jobs d) /\ max_attempts u = max_attempts j /\
    rate_limit_blocked_count u = rate_limit_blocked_count j + (if denial oc then 1 else 0) /\
    ((b = B_snoozed /\ within_deadline j (clk 0%nat + delay) = true /\ status u = scheduled /\
      scheduled_at u = clk 1%nat + delay /\ attempt u = Z.max (attempt j - 1) 0 /\
      snooze_count u = snooze_count j + (if denial oc then 0 else 1) /\
      attempts d' = attempts d /\ events d' = events d) \/
     (b = B_failed /\ within_deadline j (clk 0%nat + delay) = false /\ status u = failed /\
      error_class u = Some ERROR_CLASS_DEADLINE_EXCEEDED /\ attempt u = attempt j /\
      snooze_count u = snooze_count j /\ is_Some (attempts d' !! (id, attempt j)))).
Proof.
  intros Hp delay. unfold mark_snoozed. rewrite Hj. cbv zeta. fold delay.
  unfold mark_snoozed_snoozed, deadline_cancelled_arm, mark_snoozed_deadline_failed, no_cancel.
  rewrite Hf, Hp. cbn [Z.eqb andb negb].
  destruct (within_deadline j (clk 0%nat + delay)) eqn:Ew.
  - cbv iota beta. do 3 eexists. split; [done|]. split; [done|]. row_simpl. split; [done|].
    split; [destruct (denial oc); lia|]. left. split_and!; auto; [apply requeue_effective|].
    destruct (denial oc); lia.
  - rewrite (deadline_partition j clk 0 5 delay Hm ltac:(lia) Ew). cbv iota beta. cbn [andb absent].
    edestruct failed_inserts_records as (d' & -> & Ha & Hd); [| |exact (Hsh 6%nat)|].
    { row_simpl. done. } { row_simpl. exact Hs. }
    cbn [rbind]. do 3 eexists. split; [done|]. split; [exact Hd|]. row_simpl. split; [done|].
    split; [destruct (denial oc); lia|]. right. split_and!; auto.
Qed.

(** On a row carrying a cancel the deferral lands nowhere but at the deadline. *)
Lemma mark_snoozed_cancel_row raw meta seq st oc r :
  cancel_phase j <> 0 ->
  let delay := effective_delay raw in
  if past_deadline j (clk 3%nat + delay) then
    exists d' u, mark_snoozed clk id f raw meta seq st oc r d = Ok (d', Some (B_cancelled, u)) /\
      jobs d' = <[id := u]> (jobs d) /\ status u = cancelled /\ cancel_phase u = cancel_phase j /\
      cancel_requested_at u = cancel_requested_at j /\
      error_class u = Some (if cancel_phase j =? 2 then CANCEL_ORIGIN_FORCED else CANCEL_ORIGIN_COOPERATIVE)
  else mark_snoozed clk id f raw meta seq st oc r d = Ok (d, None).
Proof.
  intros Hp delay. unfold mark_snoozed. rewrite Hj. cbv zeta. fold delay.
  unfold mark_snoozed_snoozed, deadline_cancelled_arm, mark_snoozed_deadline_failed, no_cancel.
  rewrite Hf. destruct (Z.eqb_spec (cancel_phase j) 0) as [|_]; [done|]. cbn [andb negb absent].
  destruct (past_deadline j (clk 3%nat + delay)) eqn:E; [|done]. cbv iota beta.
  cbn [andb absent]. cbv iota beta.
  edestruct cancelled_inserts_records as (d' & -> & Ha & Hd); [| |exact (Hsh 4%nat)|].
  { row_simpl. done. } { row_simpl. exact Hs. }
  cbn [rbind]. do 2 eexists. split; [done|]. split; [exact Hd|]. row_simpl. done.
Qed.

Lemma retry_after_true_total raw seq st :
  cancel_phase j = 0 ->
  exists d' b u, mark_retry_after_consume_true clk id f raw seq st d = Ok (d', Some (b, u)) /\
    jobs d' = <[id := u]> (jobs d) /\ attempt u = attempt j /\ max_attempts u = max_attempts j /\
    is_Some (attempts d' !! (id, attempt j)) /\
    ((b = B_snoozed /\ budget_left j = true /\ status u = requeue_status raw /\
      scheduled_at u = clk 1%nat + raw) \/
     (b = B_max_attempts_failed /\ budget_left j = false /\ status u = failed /\
      error_class u = Some ERROR_CLASS_MAX_ATTEMPTS_EXCEEDED) \/
     (b = B_deadline_failed /\ past_deadline j (clk 7%nat + raw) = true /\ status u = failed /\
      error_class u = Some ERROR_CLASS_DEADLINE_EXCEEDED)).
Proof.
  intros Hp. unfold mark_retry_after_consume_true. rewrite Hj. cbv zeta.
  unfold retry_after_true_snoozed, deadline_cancelled_arm, retry_after_true_max_attempts,
    retry_after_true_deadline_failed, no_cancel.
  rewrite Hf, Hp. cbn [Z.eqb andb negb].
  assert (Hb : bool_decide (retry_kind j <> indefinite) && (max_attempts j <=? attempt j) = negb (budget_left j)).
  { unfold budget_left. rewrite Z.leb_antisym. destruct (retry_kind j), (attempt j <? max_attempts j); done. }
  rewrite Hb. destruct (budget_left j) eqn:Eb; cbn [negb andb absent];
    [rewrite andb_true_r|rewrite andb_false_r]; cbv iota beta.
  - destruct (within_deadline j (clk 0%nat + raw)) eqn:Ew; cbv iota beta.
    + edestruct retry_after_inserts_records as (d' & -> & Ha & Hd); [|exact (Hsh 2%nat)|].
      { row_simpl. exact Hs. }
      cbn [rbind]. do 3 eexists. split; [done|]. split; [exact Hd|]. row_simpl.
      split; [done|]. split; [done|]. split; [exact Ha|]. left. auto.
    + rewrite (deadline_partition j clk 0 7 raw Hm ltac:(lia) Ew). cbn [andb absent]. cbv iota beta.
      edestruct failed_inserts_records as (d' & -> & Ha & Hd); [| |exact (Hsh 8%nat)|].
      { row_simpl. done. } { row_simpl. exact Hs. }
      cbn [rbind]. do 3 eexists. split; [done|]. split; [exact Hd|]. row_simpl.
      split; [done|]. split; [done|]. split; [exact Ha|]. right; right. auto.
  - destruct (within_deadline j (clk 5%nat + raw)) eqn:Ew; cbn [andb absent]; cbv iota beta.
    + edestruct failed_inserts_records as (d' & -> & Ha & Hd); [| |exact (Hsh 6%nat)|].
      { row_simpl. done. } { row_simpl. exact Hs. }
      cbn [rbind]. do 3 eexists. split; [done|]. split; [exact Hd|]. row_simpl.
      split; [done|]. split; [done|]. split; [exact Ha|]. right; left. auto.
    + rewrite (deadline_partition j clk 5 7 raw Hm ltac:(lia) Ew). cbn [andb absent]. cbv iota beta.
      edestruct failed_inserts_records as (d' & -> & Ha & Hd); [| |exact (Hsh 8%nat)|].
      { row_simpl. done. } { row_simpl. exact Hs. }
      cbn [rbind]. do 3 eexists. split; [done|]. split; [exact Hd|]. row_simpl.
      split; [done|]. split; [done|]. split; [exact Ha|]. right; right. auto.
Qed.
End clean_row.

(** * Properties *)

Lemma demo_mono : mono demo_clk.
Proof. intros i k _. done. Qed.

Lemma demo_short : short_attempt demo_clk 0.
Proof. intros i. by vm_compute. Qed.

(** C5: A landed write is one row and its own ledger entry.  When a terminal write or a
    deferral lands, the row was the fenced running row; exactly that row changed; it left
    [running] along the state machine with its lock released and its progress sequence
    not lowered; at most one attempt row was added, at the row's own (job, attempt) key
    and never over an existing record; at most one event was appended; and no other table
    changed. *)
Theorem landed_write_effects w clk id f seq st d d' u :
  run_write w clk id f seq st d = Ok (d', Some u) ->
  exists j, jobs d !! id = Some j /\ JOB_FENCE f j = true /\
    status u ∈ VALID_TRANSITIONS running /\ locked_by_worker u = None /\ lock_expires_at u = None /\
    claim_epoch u = claim_epoch j /\ max_attempts u = max_attempts j /\ progress_seq j <= progress_seq u /\
    jobs d' = <[id := u]> (jobs d) /\
    (attempts d' = attempts d \/
     (attempts d !! (id, attempt u) = None /\ exists a, attempts d' = <[(id, attempt u) := a]> (attempts d))) /\
    (events d' = events d \/ exists e, events d' = events d ++ [e] /\ ev_job e = id) /\
    workers d' = workers d /\ result_ttl d' = result_ttl d /\ batches d' = batches d.
Proof.
  intros Hw. apply run_write_landed in Hw as (j & Hj & [Hf [Hs [Hl1 Hl2] He _ Hc _ Hp _ _]] & [Ht Ha Hv Hr]).
  exists j. split_and!; auto; try apply Hr. simpl. set_solver.
Qed.

Lemma landed_write_effects_witness :
  exists d' u, run_write W_cancelled demo_clk 1 demo_fence 0 None (demo_db demo_job) = Ok (d', Some u) /\
    exists j, jobs (demo_db demo_job) !! 1 = Some j /\ jobs d' = <[1 := u]> (jobs (demo_db demo_job)).
Proof.
  destruct (run_write W_cancelled demo_clk 1 demo_fence 0 None (demo_db demo_job))
    as [[d' [u|]]|] eqn:E; [|by vm_compute in E..].
  exists d', u. split; [done|]. apply landed_write_effects in E as (j & Hj & _ & _ & _ & _ & _ & _ & _ & Hd & _).
  exists j. by split.
Defined.

(** A retryable failure is always decided, one way.  On the fenced, uncancelled row of
    a live claim (its age within the int4 millisecond column, the server clock not going
    backwards) [mark_retry] always lands exactly one of its two arms: when now plus the
    delay, floored at [MIN_DEFERRAL_INTERVAL], fits [schedule_to_close] the row is
    [scheduled] that far out with the failure stamped, otherwise it is [failed] with
    [DeadlineExceeded].  The spent attempt is kept and its attempt row is on record. *)
Theorem mark_retry_decides clk f id s d j raw cls msg tb seq st :
  jobs d !! id = Some j -> JOB_FENCE f j = true -> started_at j = Some s -> mono clk ->
  short_attempt clk s -> cancel_phase j = 0 ->
  let delay := effective_delay raw in
  exists d' b u, mark_retry clk id f raw cls msg tb seq st d = Ok (d', Some (b, u)) /\
    jobs d' = <[id := u]> (jobs d) /\ attempt u = attempt j /\ is_Some (attempts d' !! (id, attempt j)) /\
    ((b = B_retried /\ within_deadline j (clk 0%nat + delay) = true /\ status u = scheduled /\
      scheduled_at u = clk 1%nat + delay /\ error_class u = cls) \/
     (b = B_deadline_failed /\ within_deadline j (clk 0%nat + delay) = false /\ status u = failed /\
      error_class u = Some ERROR_CLASS_DEADLINE_EXCEEDED)).
Proof. intros. by eapply mark_retry_total. Qed.

Lemma mark_retry_decides_witness :
  exists d' b u, mark_retry demo_clk 1 demo_fence 0 (Some "E"%string) None None 0 None (demo_db demo_job)
    = Ok (d', Some (b, u)) /\ attempt u = 1 /\ is_Some (attempts d' !! (1, 1)).
Proof.
  destruct (mark_retry_decides demo_clk demo_fence 1 0 (demo_db demo_job) demo_job 0 (Some "E"%string) None None 0 None)
    as (d' & b & u & H & _ & Ha & Ht & _);
    [done|done|done|exact demo_mono|exact demo_short|done|].
  exists d', b, u. by split_and!.
Defined.

(** A deferral never spends budget.  On the fenced, uncancelled row of a live claim
    [mark_snoozed] (an actor's snooze, or an admission denial for capacity or a rate
    limit) always lands: the row is [scheduled] at least [MIN_DEFERRAL_INTERVAL] out with
    the claim's attempt increment refunded (floored at 0) and the ceiling untouched, and
    no attempt row or event is written; its only terminal exit is [DeadlineExceeded] when
    the reschedule point passes [schedule_to_close].  The snooze and denial counters are
    kept exactly. *)
Theorem mark_snoozed_decides clk f id s d j raw meta seq st oc r :
  jobs d !! id = Some j -> JOB_FENCE f j = true -> started_at j = Some s -> mono clk ->
  short_attempt clk s -> cancel_phase j = 0 ->
  let delay := effective_delay raw in
  exists d' b u, mark_snoozed clk id f raw meta seq st oc r d = Ok (d', Some (b, u)) /\
    jobs d' = <[id := u]> (jobs d) /\ max_attempts u = max_attempts j /\
    rate_limit_blocked_count u = rate_limit_blocked_count j + (if denial oc then 1 else 0) /\
    ((b = B_snoozed /\ within_deadline j (clk 0%nat + delay) = true /\ status u = scheduled /\
      scheduled_at u = clk 1%nat + delay /\ attempt u = Z.max (attempt j - 1) 0 /\
      snooze_count u = snooze_count j + (if denial oc then 0 else 1) /\
      attempts d' = attempts d /\ events d' = events d) \/
     (b = B_failed /\ within_deadline j (clk 0%nat + delay) = false /\ status u = failed /\
      error_class u = Some ERROR_CLASS_DEADLINE_EXCEEDED /\ attempt u = attempt j /\
      snooze_count u = snooze_count j /\ is_Some (attempts d' !! (id, attempt j)))).
Proof. intros. by eapply mark_snoozed_total. Qed.

Lemma mark_snoozed_decides_witness :
  exists d' b u, mark_snoozed demo_clk 1 demo_fence 0 None 0 None rate_limit_denied capacity (demo_db demo_job)
    = Ok (d', Some (b, u)) /\ max_attempts u = 3 /\ rate_limit_blocked_count u = 1.
Proof.
  destruct (mark_snoozed_decides demo_clk demo_fence 1 0 (demo_db demo_job) demo_job 0 None 0 None rate_limit_denied capacity)
    as (d' & b & u & H & _ & Hm & Hr & _);
    [done|done|done|exact demo_mono|exact demo_short|done|].
  exists d', b, u. by split_and!.
Defined.

(** An operator's cancel outranks a deferral.  On a row carrying a cancel phase a
    snooze or denial changes nothing at all, unless the reschedule point would pass
    [schedule_to_close]: then the row ends [cancelled] (never [failed]) with the origin
    its phase says, the phase and request time kept as the audit trail. *)
Theorem mark_snoozed_yields_to_cancel clk f id s d j raw meta seq st oc r :
  jobs d !! id = Some j -> JOB_FENCE f j = true -> started_at j = Some s -> short_attempt clk s ->
  cancel_phase j <> 0 ->
  let delay := effective_delay raw in
  if past_deadline j (clk 3%nat + delay) then
    exists d' u, mark_snoozed clk id f raw meta seq st oc r d = Ok (d', Some (B_cancelled, u)) /\
      jobs d' = <[id := u]> (jobs d) /\ status u = cancelled /\ cancel_phase u = cancel_phase j /\
      cancel_requested_at u = cancel_requested_at j /\
      error_class u = Some (if cancel_phase j =? 2 then CANCEL_ORIGIN_FORCED else CANCEL_ORIGIN_COOPERATIVE)
  else mark_snoozed clk id f raw meta seq st oc r d = Ok (d, None).
Proof. intros. by eapply mark_snoozed_cancel_row. Qed.

Lemma mark_snoozed_yields_to_cancel_witness :
  mark_snoozed demo_clk 1 demo_fence 0 None 0 None snoozed_outcome capacity (demo_db demo_cancel_job)
  = Ok (demo_db demo_cancel_job, None).
Proof.
  exact (mark_snoozed_yields_to_cancel demo_clk demo_fence 1 0 (demo_db demo_cancel_job) demo_cancel_job 0 None 0 None
    snoozed_outcome capacity eq_refl eq_refl eq_refl demo_short (fun E : 2 = 0 => ltac:(discriminate E))).
Defined.

(** RetryAfter with the budget consumed always ends the claim.  On the fenced,
    uncancelled row of a live claim the statement always lands exactly one arm: with
    budget left and the delay inside the deadline the row is requeued that far out (the
    spent attempt kept), with the budget spent it is [failed] with [MaxAttemptsExceeded]
    whatever its non-indefinite kind, and past the deadline it is [failed] with
    [DeadlineExceeded]; the attempt row is on record in every case. *)
Theorem retry_after_decides clk f id s d j raw seq st :
  jobs d !! id = Some j -> JOB_FENCE f j = true -> started_at j = Some s -> mono clk ->
  short_attempt clk s -> cancel_phase j = 0 ->
  exists d' b u, mark_retry_after_consume_true clk id f raw seq st d = Ok (d', Some (b, u)) /\
    jobs d' = <[id := u]> (jobs d) /\ attempt u = attempt j /\ max_attempts u = max_attempts j /\
    is_Some (attempts d' !! (id, attempt j)) /\
    ((b = B_snoozed /\ budget_left j = true /\ status u = requeue_status raw /\
      scheduled_at u = clk 1%nat + raw) \/
     (b = B_max_attempts_failed /\ budget_left j = false /\ status u = failed /\
      error_class u = Some ERROR_CLASS_MAX_ATTEMPTS_EXCEEDED) \/
     (b = B_deadline_failed /\ past_deadline j (clk 7%nat + raw) = true /\ status u = failed /\
      error_class u = Some ERROR_CLASS_DEADLINE_EXCEEDED)).
Proof. intros. by eapply retry_after_true_total. Qed.

Lemma retry_after_decides_witness :
  exists d' b u, mark_retry_after_consume_true demo_clk 1 demo_fence 9 0 None (demo_db demo_job)
    = Ok (d', Some (b, u)) /\ attempt u = 1 /\ max_attempts u = 3.
Proof.
  destruct (retry_after_decides demo_clk demo_fence 1 0 (demo_db demo_job) demo_job 9 0 None)
    as (d' & b & u & H & _ & Ha & Hm & _);
    [done|done|done|exact demo_mono|exact demo_short|done|].
  exists d', b, u. by split_and!.
Defined.

(** ** Claim, then defer *)

Lemma claimed_fence wf clk w l id d j :
  jobs d !! id = Some j -> claim_where wf j = true ->
  exists u, jobs (claim_row wf clk w l id d) !! id = Some u /\
    u = claim_set (clk 0%nat) (clk 1%nat) (clk 2%nat) w l j /\
    JOB_FENCE {| f_worker := w; f_attempt := Some (attempt u); f_epoch := Some (claim_epoch u) |} u = true.
Proof.
  intros Hj Hc. unfold claim_row, select_row. rewrite Hj, Hc. simpl. rewrite lookup_insert_eq.
  eexists. split; [done|]. split; [done|]. unfold JOB_FENCE. simpl. by rewrite !Z.eqb_refl.
Qed.

(** A claim followed by a deferral leaves the retry budget where it was.  Claiming a
    pending job below the smallint ceiling and then snoozing the claim (or denying it
    admission) returns the row to exactly the attempt and ceiling it had before the
    claim, however often the cycle repeats, while the claim epoch has advanced, so the
    revisited attempt number never revives an old fence. *)
Theorem claim_then_defer_refunds wf clk1 clk2 w l id d j raw meta seq st oc r :
  jobs d !! id = Some j -> claim_where wf j = true -> cancel_phase j = 0 ->
  0 <= attempt j < SMALLINT_MAX -> mono clk2 -> short_attempt clk2 (clk1 0%nat) ->
  within_deadline j (clk2 0%nat + effective_delay raw) = true ->
  let d1 := claim_row wf clk1 w l id d in
  let f := {| f_worker := w; f_attempt := Some (attempt j + 1); f_epoch := Some (claim_epoch j + 1) |} in
  exists d2 u, mark_snoozed clk2 id f raw meta seq st oc r d1 = Ok (d2, Some (B_snoozed, u)) /\
    jobs d2 !! id = Some u /\ attempt u = attempt j /\ max_attempts u = max_attempts j /\
    claim_epoch u = claim_epoch j + 1 /\ status u = scheduled /\ attempts d2 = attempts d.
Proof.
  intros Hj Hc Hp Ha Hm Hsh Hw d1 f.
  destruct (claimed_fence wf clk1 w l id d j Hj Hc) as (v & Hv & Ev & Hf).
  assert (Hav : attempt v = attempt j + 1) by (subst v; unfold claim_set; row_simpl; lia).
  assert (Hev : claim_epoch v = claim_epoch j + 1) by (by subst v).
  rewrite Hav, Hev in Hf. fold f in Hf. fold d1 in Hv.
  destruct (mark_snoozed_total clk2 f id (clk1 0%nat) d1 v Hv Hf ltac:(by subst v) Hm Hsh raw meta seq st oc r)
    as (d2 & b & u & He & Hd & Hmx & _ & [(-> & _ & Hs & _ & Hu & _ & Hat & _)|(-> & Hn & _)]);
    [by subst v| |].
  - exists d2, u. split; [done|]. rewrite Hd, lookup_insert_eq. split; [done|].
    assert (Hl : landed id f d1 d2 u).
    { eapply mark_snoozed_landed in He. done. }
    destruct Hl as (v' & Hv' & [_ Hrw] & _). rewrite Hv in Hv'. injection Hv' as <-.
    split_and!; auto; [lia|by subst v|by rewrite (rw_epoch _ _ Hrw)|].
    rewrite Hat. unfold d1, claim_row. by destruct (select_row d id (claim_where wf)).
  - exfalso. assert (within_deadline v (clk2 0%nat + effective_delay raw) = true) by (by subst v). congruence.
Qed.

Definition demo_pending : job :=
  demo_job <| status := pending |> <| attempt := 0 |> <| claim_epoch := 0 |> <| locked_by_worker := None |>
           <| lock_expires_at := None |> <| started_at := None |>.

Lemma claim_then_defer_refunds_witness :
  exists d2 u,
    mark_snoozed demo_clk 1 demo_fence 0 None 0 None snoozed_outcome capacity
      (claim_row (fun _ => true) (fun _ => 0) 7 (60 * usec_per_sec) 1 (demo_db demo_pending))
      = Ok (d2, Some (B_snoozed, u)) /\ jobs d2 !! 1 = Some u /\ attempt u = 0.
Proof.
  destruct (claim_then_defer_refunds (fun _ => true) (fun _ => 0) demo_clk 7 (60 * usec_per_sec) 1
    (demo_db demo_pending) demo_pending 0 None 0 None snoozed_outcome capacity)
    as (d2 & u & H & Hu & Ha & _);
    [done|done|done|by vm_compute|exact demo_mono|exact demo_short|done|].
  exists d2, u. by split_and!.
Defined.

(** ** The callers' reports *)

Lemma mark_retry_branches clk id f raw c m t seq st d d' b u :
  mark_retry clk id f raw c m t seq st d = Ok (d', Some (b, u)) -> b = B_retried \/ b = B_deadline_failed.
Proof.
  unfold mark_retry. destruct (jobs d !! id); [|done]. cbv zeta.
  repeat match goal with |- match ?o with Some _ => _ | None => _ end = Ok _ -> _ => destruct o end;
    intros Hm; inv_ok; simplify_eq; auto.
Qed.

Lemma mark_snoozed_branches clk id f raw meta seq st oc r d d' b u :
  mark_snoozed clk id f raw meta seq st oc r d = Ok (d', Some (b, u)) ->
  b = B_snoozed \/ b = B_cancelled \/ b = B_failed.
Proof.
  unfold mark_snoozed. destruct (jobs d !! id); [|done]. cbv zeta.
  repeat match goal with |- match ?o with Some _ => _ | None => _ end = Ok _ -> _ => destruct o end;
    intros Hm; inv_ok; simplify_eq; auto.
Qed.

Lemma retry_after_branches clk id f raw seq st d d' b u consume :
  (if consume : bool then mark_retry_after_consume_true clk id f raw seq st d
   else mark_retry_after_consume_false clk id f raw seq st d) = Ok (d', Some (b, u)) ->
  b = B_snoozed \/ b = B_cancelled \/ b = B_max_attempts_failed \/ b = B_deadline_failed.
Proof.
  destruct consume; unfold mark_retry_after_consume_true, mark_retry_after_consume_false;
    (destruct (jobs d !! id); [|done]); cbv zeta;
    repeat match goal with |- match ?o with Some _ => _ | None => _ end = Ok _ -> _ => destruct o end;
    intros Hm; inv_ok; simplify_eq; auto.
Qed.

Lemma mark_interrupted_branches clk id f hold seq st d d' b u :
  mark_interrupted clk id f hold seq st d = Ok (d', Some (b, u)) -> b = B_released \/ b = B_deadline_failed.
Proof.
  unfold mark_interrupted. destruct (jobs d !! id); [|done]. cbv zeta.
  repeat match goal with |- match ?o with Some _ => _ | None => _ end = Ok _ -> _ => destruct o end;
    intros Hm; inv_ok; simplify_eq; auto.
Qed.

(** The branch guards are unreachable.  No caller of a multi-arm statement ever raises
    the drift AssertionError: every [outcome_branch] a statement can return is one the
    caller reports. *)
Theorem callers_never_assert clk id f delay cls msg tb meta seq st oc r consume d :
  mark_retry_call clk id f delay cls msg tb seq st d <> Err CallAssertionError /\
  mark_snoozed_call clk id f delay meta seq st oc r d <> Err CallAssertionError /\
  mark_retry_after clk id f delay consume seq st d <> Err CallAssertionError /\
  mark_interrupted_call clk id f delay seq st d <> Err CallAssertionError.
Proof.
  unfold mark_retry_call, mark_snoozed_call, mark_retry_after, mark_interrupted_call, lift.
  split_and!; match goal with |- context [match ?m with Ok _ => _ | Err _ => _ end] => destruct m as [[d' [[b u]|]]|] eqn:E end;
    try done; simpl.
  - apply mark_retry_branches in E as [->| ->]; done.
  - apply mark_snoozed_branches in E as [->|[->| ->]]; done.
  - apply retry_after_branches in E as [->|[->|[->| ->]]]; done.
  - apply mark_interrupted_branches in E as [->| ->]; done.
Qed.

(** What is stored as a result is what was measured.  When the success write lands, the
    row's [result_size_bytes] is the byte length of the stored result and is at most
    [max_result_bytes]; a larger result, both result forms at once, an empty or undecodable
    byte form, or an encoded NUL never reaches the statement. *)
Theorem success_result_capped V dumps contains_nul loads_ok clk id f res rb seq st fb cap d d' :
  mark_succeeded_on_conn V dumps contains_nul loads_ok clk id f res rb seq st fb cap d = Ok (d', true) ->
  exists u, jobs d' !! id = Some u /\ status u = succeeded /\
    match result_json u with
    | Some s => result_size_bytes u = Some (Z.of_nat (String.length s)) /\
                Z.of_nat (String.length s) <= cap /\ contains_nul s = false
    | None => result_size_bytes u = None /\ res = None /\ rb = None
    end.
Proof.
  unfold mark_succeeded_on_conn. intros Hm. apply rbind_ok in Hm as (ser & Hser & Hm). cbv zeta in Hm.
  destruct (match option_map _ ser with Some n => cap <? n | None => false end) eqn:Hcap; [done|].
  apply rbind_ok in Hm as ([d1 o] & Hw & Hm). simpl in Hm. destruct o as [u|]; [|done]. injection Hm as <-.
  unfold lift in Hw. destruct (mark_succeeded _ _ _ _ _ _ _ _ _) as [x|] eqn:E; [|done]. injection Hw as ->.
  pose proof E as Hl. apply mark_succeeded_landed in Hl as (j & Hj & _ & Ht).
  exists u. rewrite (tw_jobs _ _ _ _ _ Ht), lookup_insert_eq. split; [done|].
  unfold mark_succeeded in E. destruct (select_row d id (JOB_FENCE f)) as [j'|]; [|done].
  cbv zeta in E. apply rbind_ok in E as (d2 & _ & E). injection E as _ <-. row_simpl. split; [done|].
  destruct ser as [s|]; simpl in *.
  - zbool. split; [done|]. split; [done|]. unfold serialize_result, jsonb_param in Hser.
    repeat case_match; simplify_eq; done.
  - unfold serialize_result, jsonb_param in Hser. repeat case_match; simplify_eq; done.
Qed.

Lemma success_result_capped_witness :
  exists d' u, mark_succeeded_on_conn string Some (fun _ => false) (fun _ => true) demo_clk 1 demo_fence
    (Some "{}"%string) None 0 None None MAX_RESULT_BYTES (demo_db demo_job) = Ok (d', true) /\
    jobs d' !! 1 = Some u /\ status u = succeeded.
Proof.
  destruct (mark_succeeded_on_conn string Some (fun _ => false) (fun _ => true) demo_clk 1 demo_fence
    (Some "{}"%string) None 0 None None MAX_RESULT_BYTES (demo_db demo_job)) as [[d' [|]]|] eqn:E;
    [|by vm_compute in E..].
  destruct (success_result_capped string Some (fun _ => false) (fun _ => true) demo_clk 1 demo_fence
    (Some "{}"%string) None 0 None None MAX_RESULT_BYTES (demo_db demo_job) d' E) as (u & Hu & Hs & _).
  by exists d', u.
Defined.

(** ** Two behaviours worth knowing *)

(** An attempt older than the int4 millisecond column cannot be ended by its worker.
    Once 2^31 ms (24 days and 20 hours) have passed since the claim, the success, failure
    and cancel writes of the rightful holder raise "integer out of range" from the
    duration cast, and being atomic write nothing, at every later clock reading. *)
Theorem long_attempt_write_raises clk f id s d j res size fb cls msg tb seq st :
  jobs d !! id = Some j -> JOB_FENCE f j = true -> started_at j = Some s ->
  int4_ms_span <= clk 0%nat - s ->
  run_write (W_succeeded res size fb) clk id f seq st d = Err IntOutOfRange /\
  run_write (W_failed cls msg tb) clk id f seq st d = Err IntOutOfRange /\
  run_write W_cancelled clk id f seq st d = Err IntOutOfRange.
Proof.
  intros Hj Hf Hs Hl. simpl.
  unfold mark_succeeded, mark_failed, mark_cancelled, cancelled_inserts, terminal_attempt, select_row.
  rewrite Hj, Hf. cbv zeta. row_simpl. rewrite Hs, (duration_long _ _ Hl). done.
Qed.

Lemma long_attempt_write_raises_witness :
  run_write W_cancelled (fun _ => 25 * 86400 * usec_per_sec) 1 demo_fence 0 None (demo_db demo_job)
  = Err IntOutOfRange.
Proof.
  exact (proj2 (proj2 (long_attempt_write_raises (fun _ => 25 * 86400 * usec_per_sec) demo_fence 1 0
    (demo_db demo_job) demo_job None None None None None None 0 None eq_refl eq_refl eq_refl
    (ltac:(by vm_compute))))).
Defined.

Lemma to_state_lookup w a b :
  with_worker w (state_change a b) !! "to_state"%string = Some (JStr b).
Proof. reflexivity. Qed.

(** A zero RetryAfter is reported as a different transition than it makes.  With
    [RetryAfter(0)] (the default, budget-consuming form) and budget left, the row lands
    [pending], but the event written by the same statement says the job went to
    [scheduled]. *)
Theorem retry_after_zero_event clk f id s d j seq st :
  jobs d !! id = Some j -> JOB_FENCE f j = true -> started_at j = Some s -> short_attempt clk s ->
  cancel_phase j = 0 -> budget_left j = true -> within_deadline j (clk 0%nat + 0) = true ->
  exists d' u e, mark_retry_after_consume_true clk id f 0 seq st d = Ok (d', Some (B_snoozed, u)) /\
    status u = pending /\ events d' = events d ++ [e] /\
    ev_detail e !! "to_state"%string = Some (JStr "scheduled").
Proof.
  intros Hj Hf Hs Hsh Hp Hb Hw. unfold mark_retry_after_consume_true. rewrite Hj. cbv zeta.
  unfold retry_after_true_snoozed, no_cancel. rewrite Hf, Hp, Hb, Hw. cbn [Z.eqb andb].
  unfold retry_after_inserts. row_simpl. rewrite Hs, duration_short by apply Hsh. cbn [rbind].
  edestruct insert_attempt_records as (d' & -> & _ & _ & He). cbn [rbind].
  do 3 eexists. split; [done|]. split; [done|]. unfold insert_event. cbn [events assign]. rewrite He.
  split; [done|]. apply to_state_lookup.
Qed.

Lemma retry_after_zero_event_witness :
  exists d' u e, mark_retry_after_consume_true demo_clk 1 demo_fence 0 0 None (demo_db demo_job)
    = Ok (d', Some (B_snoozed, u)) /\ status u = pending /\ events d' = [] ++ [e] /\
    ev_detail e !! "to_state"%string = Some (JStr "scheduled").
Proof.
  apply (retry_after_zero_event demo_clk demo_fence 1 0 (demo_db demo_job) demo_job 0 None);
    done.
Defined.
