(* ===== verification/SweepProps.v ===== *)
(** * What the sweeps guarantee

    Bounded batches, disjoint arms, oldest first, one disposition per reclaimed row, the
    reclaim delay's floor, and the drain of a backlog; and the row that stops the deadline
    sweep. *)

From Stdlib Require Import ZArith Lia QArith Qround Qabs Lqa.
From stdpp Require Import base tactics list gmap strings sorting.
From S2P Require Import Prelude PyFloat Retry JobRow Terminal Control Sweeps Lifecycle.

Open Scope Z_scope.

(** ** Candidate windows *)

Definition eligible (p : job -> bool) (held : gset Z) (d : db) : list (Z * job) :=
  filter (fun kv => p kv.2 = true /\ kv.1 ∉ held) (map_to_list (jobs d)).

Lemma eligible_in p held d id j :
  (id, j) ∈ eligible p held d <-> jobs d !! id = Some j /\ p j = true /\ id ∉ held.
Proof. unfold eligible. rewrite list_elem_of_filter, elem_of_map_to_list. simpl. tauto. Qed.

Lemma eligible_nodup p held d : NoDup (map fst (eligible p held d)).
Proof.
  unfold eligible. pose proof (NoDup_fst_map_to_list (jobs d)) as Hn.
  induction (map_to_list (jobs d)) as [|kv l IH]; [constructor|].
  inversion Hn as [|? ? Hni Hn']; subst. rewrite filter_cons. case_decide; [|by apply IH].
  simpl. constructor; [|by apply IH]. intros Hin. apply Hni.
  apply list_elem_of_fmap in Hin as (x & -> & Hx). apply list_elem_of_filter in Hx as [_ Hx].
  apply list_elem_of_fmap. eauto.
Qed.

Lemma by_key_total key : Total (by_key key).
Proof. intros a b. unfold by_key. lia. Qed.

Lemma by_key_trans key : Transitive (by_key key).
Proof. intros a b c. unfold by_key. lia. Qed.

Lemma candidates_perm key p held n d :
  exists rest, eligible p held d ≡ₚ candidates key p held n d ++ rest /\
    StronglySorted (by_key key) (candidates key p held n d ++ rest).
Proof.
  exists (drop n (merge_sort (by_key key) (eligible p held d))). unfold candidates. fold (eligible p held d).
  rewrite take_drop. split; [symmetry; apply merge_sort_Permutation|].
  pose proof (by_key_total key). pose proof (by_key_trans key). by apply StronglySorted_merge_sort.
Qed.

Lemma candidates_nodup key p held n d : NoDup (map fst (candidates key p held n d)).
Proof.
  destruct (candidates_perm key p held n d) as (rest & Hp & _).
  pose proof (eligible_nodup p held d) as Hn. rewrite Hp in Hn. rewrite map_app in Hn.
  by apply NoDup_app in Hn as (? & _).
Qed.

Lemma candidates_length key p held n d :
  length (candidates key p held n d) = Nat.min n (length (eligible p held d)).
Proof.
  unfold candidates. fold (eligible p held d). rewrite length_take.
  by rewrite (Permutation_length (merge_sort_Permutation (by_key key) (eligible p held d))).
Qed.

Lemma StronglySorted_app_rel {A} (R : A -> A -> Prop) l k x y :
  StronglySorted R (l ++ k) -> x ∈ l -> y ∈ k -> R x y.
Proof.
  induction l as [|a l IH]; simpl; intros Hs Hx Hy; [set_solver|].
  inversion Hs as [|? ? Hs' Hf]; subst. apply elem_of_cons in Hx as [->|Hx]; [|by apply IH].
  rewrite Forall_forall in Hf. apply Hf. set_solver.
Qed.

(** ** Writing a batch *)

Lemma write_rows_other rows d id :
  id ∉ map fst rows -> jobs (write_rows rows d) !! id = jobs d !! id.
Proof.
  unfold write_rows. revert d. induction rows as [|[i u] rows IH]; intros d Hn; [done|].
  simpl in *. rewrite IH by set_solver. simpl. apply lookup_insert_ne. set_solver.
Qed.

Lemma write_rows_in rows d id u :
  NoDup (map fst rows) -> (id, u) ∈ rows -> jobs (write_rows rows d) !! id = Some u.
Proof.
  unfold write_rows. revert d. induction rows as [|[i v] rows IH]; intros d Hn Hin; [set_solver|].
  simpl in *. inversion Hn as [|? ? Hni Hn']; subst.
  apply elem_of_cons in Hin as [[= -> ->]|Hin]; [|by apply IH].
  fold (write_rows rows (write_row i v d)). rewrite write_rows_other by done. simpl. apply lookup_insert_eq.
Qed.

Lemma map_imap_const {A B C} (g : B -> C) (f : nat -> A -> B) (h : A -> C) l :
  (forall i x, g (f i x) = h x) -> map g (imap f l) = map h l.
Proof.
  revert f. induction l as [|x l IH]; intros f E; [done|]. rewrite imap_cons. simpl. f_equal; [apply E|].
  apply IH. intros i y. apply E.
Qed.

(** ** Sweep 1 *)

Section reclaim.
Context `{Rounding}.

Lemma reclaim_interval_floor id j mbs : MIN_DEFERRAL_INTERVAL <= reclaim_interval id j mbs.
Proof.
  unfold reclaim_interval, RECLAIM_DELAY_SQL.
  set (x := LEAST _ _). set (fl := total_seconds MIN_DEFERRAL_INTERVAL).
  assert (Hfl : (fl == 1)%Q).
  { unfold fl, total_seconds. rewrite <- rnd_1. apply rnd_proper. reflexivity. }
  assert (Hg : (1 <= GREATEST x fl)%Q).
  { unfold GREATEST. destruct (Qle_bool fl x) eqn:E; [apply Qle_bool_iff in E|]; lra. }
  rewrite <- (rne_inject MIN_DEFERRAL_INTERVAL). apply rne_mono. unfold fmul.
  rewrite <- (rnd_int MIN_DEFERRAL_INTERVAL) by (by vm_compute). apply rnd_mono.
  change (inject_Z MIN_DEFERRAL_INTERVAL) with (1 * inject_Z usec_per_sec)%Q.
  apply Qmult_le_compat_r; [done|by vm_compute].
Qed.

Lemma sweep_1_arms_disjoint st cg clg j :
  lease_arm_where st cg clg j = true -> heartbeat_arm_where st cg clg j = false.
Proof.
  unfold lease_arm_where, heartbeat_arm_where, opt_lt, opt_ge. intros Hl. zbool.
  destruct (lock_expires_at j); [|done]. zbool.
  destruct (Z.leb_spec st z); [lia|]. by rewrite !andb_false_r.
Qed.

Lemma sweep_1_snap_spec st cg clg held n d id j r :
  (id, j, r) ∈ sweep_1_snap st cg clg held n d ->
  jobs d !! id = Some j /\ id ∉ held /\
  match r with
  | lock_expired => lease_arm_where st cg clg j = true
  | heartbeat_timeout_reason => heartbeat_arm_where st cg clg j = true
  end.
Proof.
  unfold sweep_1_snap. rewrite elem_of_app, !list_elem_of_fmap.
  intros [([id' j'] & [= -> -> ->] & Hin)|([id' j'] & [= -> -> ->] & Hin)];
    apply candidates_lookup in Hin as (Hj & Hw & Hh); auto.
Qed.

Lemma sweep_1_snap_nodup st cg clg held n d :
  NoDup (map (fun x => x.1.1) (sweep_1_snap st cg clg held n d)).
Proof.
  unfold sweep_1_snap. rewrite map_app, !map_map. simpl. apply NoDup_app. split_and!.
  - apply (candidates_nodup (fun j => default 0 (lock_expires_at j))).
  - intros id Hl Hh. apply list_elem_of_fmap in Hl as ([i j] & -> & Hl).
    apply list_elem_of_fmap in Hh as ([i' j'] & [= E] & Hh). simpl in E. subst i'.
    apply candidates_lookup in Hl as (Hj & Hw & _). apply candidates_lookup in Hh as (Hj' & Hw' & _).
    rewrite Hj in Hj'. injection Hj' as <-. apply sweep_1_arms_disjoint in Hw. congruence.
  - apply (candidates_nodup (fun j => default 0 (last_heartbeat_at j))).
Qed.

Lemma sweep_1_update_ids clk mbs snap :
  map (fun r => rc_id r) (sweep_1_update clk mbs snap) = map (fun x => x.1.1) snap.
Proof. apply map_imap_const. by intros i [[id j] r]. Qed.

(** C37: The crash reclaim is bounded, fenced and decides each row once.  A sweep that
    commits returns at most twice the batch size of rows, no row twice (the two arms are
    disjoint), none that another transaction held; every returned row was running with an
    expired lease or a lapsed heartbeat promise, and is written as its disposition says:
    [cancelled] whenever a cancel was in flight (request kept), else [pending] with budget
    left, at least [MIN_DEFERRAL_INTERVAL] out and without cancel columns, else [crashed];
    every other row of the table is untouched. *)
Theorem sweep_1_sound clk st cg clg mbs held n d d' rows :
  sweep_expired_locks clk st cg clg mbs held n d = Ok (d', rows) ->
  (length rows <= 2 * n)%nat /\ NoDup (map (fun r => rc_id r) rows) /\
  (forall id, id ∉ map (fun r => rc_id r) rows -> jobs d' !! id = jobs d !! id) /\
  (forall row, row ∈ rows ->
     jobs d !! rc_id row = Some (rc_old row) /\ rc_id row ∉ held /\
     match rc_reason row with
     | lock_expired => lease_arm_where st cg clg (rc_old row) = true
     | heartbeat_timeout_reason => heartbeat_arm_where st cg clg (rc_old row) = true
     end /\
     jobs d' !! rc_id row = Some (rc_new row) /\
     (if negb (cancel_phase (rc_old row) =? 0)
      then status (rc_new row) = cancelled /\ cancel_phase (rc_new row) = cancel_phase (rc_old row) /\
           cancel_requested_at (rc_new row) = cancel_requested_at (rc_old row)
      else if RECLAIM_HAS_BUDGET (rc_old row)
      then status (rc_new row) = pending /\ cancel_phase (rc_new row) = 0 /\
           cancel_requested_at (rc_new row) = None /\
           exists i, clk 0%nat i + MIN_DEFERRAL_INTERVAL <= scheduled_at (rc_new row)
      else status (rc_new row) = crashed /\ error_class (rc_new row) = Some ERROR_CLASS_WORKER_CRASHED)).
Proof.
  unfold sweep_expired_locks. set (snap := sweep_1_snap st cg clg held n d). intros Hs.
  apply rbind_ok in Hs as (ms & _ & [= <- <-]).
  assert (Hids := sweep_1_update_ids clk mbs snap). set (rows := sweep_1_update clk mbs snap) in *.
  assert (Hnd : NoDup (map (fun r => rc_id r) rows)) by (rewrite Hids; apply sweep_1_snap_nodup).
  assert (Hmap : map fst (map (fun r => (rc_id r, rc_new r)) rows) = map (fun r => rc_id r) rows)
    by (rewrite map_map; done).
  split_and!.
  - unfold rows, sweep_1_update. rewrite length_imap. unfold snap, sweep_1_snap.
    rewrite length_app, !length_map, !candidates_length. lia.
  - done.
  - intros id Hn. rewrite sweep_1_events_jobs, sweep_1_inserts_jobs. apply write_rows_other. by rewrite Hmap.
  - intros row Hin. rewrite sweep_1_events_jobs, sweep_1_inserts_jobs.
    assert (Hnew : jobs (write_rows (map (fun r => (rc_id r, rc_new r)) rows) d) !! rc_id row = Some (rc_new row)).
    { apply write_rows_in; [by rewrite Hmap|]. apply list_elem_of_fmap. eauto. }
    unfold rows, sweep_1_update in Hin.
    apply elem_of_lookup_imap in Hin as (i & [[id j] r] & -> & Hi). cbn [rc_id rc_old rc_new rc_reason] in *.
    apply list_elem_of_lookup_2, sweep_1_snap_spec in Hi as (Hj & Hh & Hr).
    split_and!; auto. rewrite reclaim_set_status. unfold reclaim_set. row_simpl.
    pose proof (reclaim_interval_floor id j mbs).
    destruct (Z.eqb_spec (cancel_phase j) 0); simpl; [|done]. destruct (RECLAIM_HAS_BUDGET j); simpl; [|done].
    split_and!; auto. exists i. lia.
Qed.
End reclaim.

(** ** The duration bind *)

Section poison.
Context `{Rounding}.

Lemma traverse_err {A B} (f : A -> result db_err B) l x :
  (forall y, f y = Err IntOutOfRange \/ exists b, f y = Ok b) ->
  x ∈ l -> f x = Err IntOutOfRange -> traverse f l = Err IntOutOfRange.
Proof.
  intros Hf Hin Hx. induction l as [|y l IH]; [set_solver|]. simpl.
  destruct (Hf y) as [Hy|[b Hb]]; [by rewrite Hy|]. rewrite Hb. simpl.
  apply elem_of_cons in Hin as [->|Hin]; [congruence|]. by rewrite IH.
Qed.

Lemma bind_int4_cases v : bind_int4 v = Err IntOutOfRange \/ exists b, bind_int4 v = Ok b.
Proof. unfold bind_int4. destruct v as [z|]; [|eauto]. case_match; eauto. Qed.

Lemma compute_duration_long s t :
  (2 ^ 31 + 1) * 1000 <= t - s -> exists ms, compute_duration_ms (Some s) (Some t) = Some ms /\ 2 ^ 31 <= ms.
Proof.
  intros Hl. eexists. split; [done|]. unfold fmul.
  set (x := (inject_Z (t - s) / inject_Z usec_per_sec)%Q).
  assert (Hx : (inject_Z (2 ^ 31 + 1) * (1 # 1000) <= x)%Q).
  { unfold x. apply Qle_shift_div_l; [done|].
    apply (Qle_trans _ (inject_Z ((2 ^ 31 + 1) * 1000))); [by vm_compute|by rewrite <- Zle_Qle]. }
  assert (H1 : (0 <= x)%Q) by (eapply Qle_trans; [|exact Hx]; discriminate).
  pose proof (rnd_lower x H1) as Hr. change (rnd x) with (total_seconds (t - s)) in Hr.
  set (y := total_seconds (t - s)) in *.
  assert (H2 : (0 <= y * 1000)%Q).
  { apply Qmult_le_0_compat; [|discriminate]. unfold y. apply total_seconds_nonneg. lia. }
  pose proof (rnd_lower (y * 1000) H2) as Hr2. set (z := rnd (y * 1000)) in *.
  assert (Hz : (inject_Z (2 ^ 31) <= z)%Q).
  { change (inject_Z (2 ^ 31)) with 2147483648%Q. change (inject_Z (2 ^ 31 + 1)) with 2147483649%Q in Hx.
    unfold ulp53 in *. change (2 ^ 53)%positive with 9007199254740992%positive in *. lra. }
  rewrite Qtrunc_nonneg by (eapply Qle_trans; [|exact Hz]; discriminate).
  rewrite <- (Qfloor_Z (2 ^ 31)). by apply Qfloor_resp_le.
Qed.

Lemma bind_duration_long s t :
  (2 ^ 31 + 1) * 1000 <= t - s -> bind_int4 (compute_duration_ms (Some s) (Some t)) = Err IntOutOfRange.
Proof.
  intros Hl. destruct (compute_duration_long s t Hl) as (ms & -> & Hms). unfold bind_int4.
  destruct (Z.ltb_spec ms (2 ^ 31)); [lia|]. by rewrite andb_false_r.
Qed.

(** One old row stops the deadline sweep.  If a row in the sweep's batch was claimed
    once (so it carries a claim stamp) more than 2^31 ms before the sweep, the sweep's
    transaction raises on the int4 duration bind and commits nothing: no overdue job of
    that batch is failed, and the row is still there for the next call. *)
Theorem sweep_2_poisoned clk st held n d id j s :
  (id, j) ∈ candidates (fun j => default 0 (schedule_to_close j)) (sweep_2_where st) held n d ->
  started_at j = Some s -> (forall i, (2 ^ 31 + 1) * 1000 <= clk 1%nat i - s) ->
  sweep_deadline_exceeded clk st held n d = Err IntOutOfRange.
Proof.
  intros Hin Hs Hold. unfold sweep_deadline_exceeded.
  set (cs := candidates _ _ _ _ _) in *. apply list_elem_of_lookup_1 in Hin as [i Hi].
  rewrite (traverse_err _ (sweep_2_update clk cs)
    {| sw_id := id; sw_old := j; sw_new := sweep_2_set (clk 0%nat i) j; sw_now := clk 1%nat i |}).
  - done.
  - intros y. apply bind_int4_cases.
  - apply elem_of_lookup_imap. exists i, (id, j). done.
  - simpl. rewrite Hs. apply bind_duration_long, Hold.
Qed.

(** One old running row stops crash recovery.  If a row in the reclaim batch has been
    running for more than 2^31 ms, the reclaim transaction raises on the same bind and
    commits nothing: no crashed worker's job in that batch is recovered. *)
Theorem sweep_1_poisoned clk st cg clg mbs held n d id j r s :
  (id, j, r) ∈ sweep_1_snap st cg clg held n d ->
  started_at j = Some s -> (forall i, (2 ^ 31 + 1) * 1000 <= clk 2%nat i - s) ->
  sweep_expired_locks clk st cg clg mbs held n d = Err IntOutOfRange.
Proof.
  intros Hin Hs Hold. unfold sweep_expired_locks.
  set (snap := sweep_1_snap st cg clg held n d) in *. apply list_elem_of_lookup_1 in Hin as [i Hi].
  rewrite (traverse_err _ (sweep_1_update clk mbs snap)
    {| rc_id := id; rc_old := j;
       rc_new := reclaim_set ERROR_CLASS_WORKER_CRASHED (ATTEMPT_MESSAGES r) (clk 0%nat i) (clk 1%nat i)
                   (reclaim_interval id j mbs) j;
       rc_reason := r; rc_now := clk 2%nat i |}).
  - done.
  - intros y. apply bind_int4_cases.
  - apply elem_of_lookup_imap. exists i, (id, j, r). done.
  - simpl. rewrite Hs. apply bind_duration_long, Hold.
Qed.
End poison.

(** ** Draining a backlog *)

Section drain.

Definition due (st : Z) (d : db) : list (Z * job) := eligible (sweep_3_where st) ∅ d.

(** One promotion per call until nothing is due. *)
Fixpoint promote_rounds (k : nat) (st : Z) (batch : nat) (d : db) : db :=
  match k with
  | O => d
  | S k' => promote_rounds k' st batch (fst (sweep_scheduled_to_pending st ∅ batch d))
  end.

Lemma promoted_rows st n d :
  let taken := candidates scheduled_at (sweep_3_where st) ∅ n d in
  let d' := fst (sweep_scheduled_to_pending st ∅ n d) in
  (forall id j, (id, j) ∈ taken -> jobs d' !! id = Some (j <| status := pending |>)) /\
  (forall id, id ∉ map fst taken -> jobs d' !! id = jobs d !! id).
Proof.
  intros taken d'.
  assert (Hm : map fst (map (fun kv => (kv.1, kv.2 <| status := pending |>)) taken) = map fst taken)
    by (rewrite map_map; done).
  split; intros id; [intros j Hin|intros Hn]; unfold d', sweep_scheduled_to_pending; cbn [fst]; fold taken.
  - apply write_rows_in; [rewrite Hm; apply candidates_nodup|].
    apply list_elem_of_fmap. exists (id, j). done.
  - apply write_rows_other. by rewrite Hm.
Qed.

Lemma due_after st n d :
  due st (fst (sweep_scheduled_to_pending st ∅ n d)) ≡ₚ
  filter (fun kv => kv.1 ∉ map fst (candidates scheduled_at (sweep_3_where st) ∅ n d)) (due st d).
Proof.
  destruct (promoted_rows st n d) as [Hin Hout]. set (taken := candidates _ _ _ _ _) in *.
  assert (Hnd : forall d0, NoDup (due st d0)).
  { intros d0. apply (NoDup_fmap_1 fst). apply eligible_nodup. }
  apply NoDup_Permutation; [apply Hnd|apply NoDup_filter, Hnd|].
  intros [id j]. rewrite list_elem_of_filter. unfold due. rewrite !eligible_in. cbn [fst].
  destruct (decide (id ∈ map fst taken)) as [Ht|Ht].
  - apply list_elem_of_fmap in Ht as ([id' j0] & E & Ht). cbn [fst] in E. subst id'.
    rewrite (Hin _ _ Ht). split.
    + intros ([= <-] & Hw & _). unfold sweep_3_where, is_status in Hw. by row_simpl.
    + intros [Hn _]. exfalso. apply Hn. apply list_elem_of_fmap. by exists (id, j0).
  - rewrite (Hout _ Ht). tauto.
Qed.

Lemma due_after_rest st n d :
  exists rest, due st d ≡ₚ candidates scheduled_at (sweep_3_where st) ∅ n d ++ rest /\
    due st (fst (sweep_scheduled_to_pending st ∅ n d)) ≡ₚ rest /\
    StronglySorted (by_key scheduled_at) (candidates scheduled_at (sweep_3_where st) ∅ n d ++ rest).
Proof.
  destruct (candidates_perm scheduled_at (sweep_3_where st) ∅ n d) as (rest & Hp & Hs).
  exists rest. split; [done|]. split; [|done]. rewrite due_after. unfold due. rewrite Hp.
  set (taken := candidates _ _ _ _ _) in *.
  pose proof (eligible_nodup (sweep_3_where st) ∅ d) as Hn. rewrite Hp, map_app in Hn.
  apply NoDup_app in Hn as (_ & Hd & _). rewrite filter_app.
  assert (H1 : forall l, incl l taken -> filter (fun kv => kv.1 ∉ map fst taken) l = []).
  { intros l. induction l as [|x l IH]; intros Hi; [done|]. rewrite filter_cons_False; [apply IH|].
    - intros y Hy. apply Hi. by right.
    - intros Hx. apply Hx. apply list_elem_of_fmap. exists x. split; [done|].
      apply list_elem_of_In, Hi. by left. }
  rewrite H1 by (apply incl_refl). simpl.
  assert (H2 : forall l : list (Z * job), (forall x, x ∈ l -> x ∈ rest) -> filter (fun kv => kv.1 ∉ map fst taken) l = l).
  { intros l. induction l as [|x l IH]; intros Hi; [done|]. rewrite filter_cons_True.
    - f_equal. apply IH. set_solver.
    - intros Hx. apply (Hd _ Hx). apply list_elem_of_fmap. exists x. split; [done|]. set_solver. }
  by rewrite H2.
Qed.

Lemma due_count st n d :
  length (due st (fst (sweep_scheduled_to_pending st ∅ n d))) = (length (due st d) - n)%nat.
Proof.
  destruct (due_after_rest st n d) as (rest & Hp & Ha & _).
  apply Permutation_length in Ha, Hp. rewrite Ha. rewrite length_app, candidates_length in Hp.
  fold (due st d) in Hp. lia.
Qed.

(** Promotion drains the backlog, oldest first.  Each call promotes the rows due
    longest (no row left due is older than a promoted one) and removes exactly
    [min batch due] rows from the due set, so [k] calls with a positive batch empty any
    backlog of at most [k * batch] due rows; the loop that repeats the call terminates. *)
Theorem promotion_drains st n d :
  (forall id j id' j', (id, j) ∈ candidates scheduled_at (sweep_3_where st) ∅ n d ->
     (id', j') ∈ due st (fst (sweep_scheduled_to_pending st ∅ n d)) -> scheduled_at j <= scheduled_at j') /\
  length (due st (fst (sweep_scheduled_to_pending st ∅ n d))) = (length (due st d) - n)%nat /\
  (forall k, (length (due st d) <= k * n)%nat -> due st (promote_rounds k st n d) = []).
Proof.
  split; [|split; [apply due_count|]].
  - intros id j id' j' Hin Hrest. destruct (due_after_rest st n d) as (rest & _ & Ha & Hs).
    rewrite Ha in Hrest. exact (StronglySorted_app_rel _ _ _ _ _ Hs Hin Hrest).
  - intros k. revert d. induction k as [|k IH]; intros d Hk; cbn [promote_rounds].
    + destruct (due st d); [done|simpl in Hk; lia].
    + apply IH. rewrite due_count. lia.
Qed.
End drain.

(** ** Witnesses *)

Definition demo_sweep_clk (p i : nat) : Z := 100 * usec_per_sec.

Lemma sweep_1_sound_witness :
  exists d' rows, sweep_expired_locks demo_sweep_clk (100 * usec_per_sec) 0 0 300 ∅ 10 (demo_db demo_job)
    = Ok (d', rows) /\ NoDup (map (fun r => rc_id r) rows) /\ (length rows <= 20)%nat.
Proof.
  destruct (sweep_expired_locks demo_sweep_clk (100 * usec_per_sec) 0 0 300 ∅ 10 (demo_db demo_job))
    as [[d' rows]|] eqn:E; [|by vm_compute in E].
  exists d', rows. split; [done|].
  destruct (sweep_1_sound _ _ _ _ _ _ _ _ _ _ E) as (Hl & Hn & _). by split.
Defined.

Definition demo_overdue : job :=
  demo_job <| status := pending |> <| locked_by_worker := None |> <| lock_expires_at := None |>.

Lemma sweep_2_poisoned_witness :
  sweep_deadline_exceeded (fun _ _ => 26 * 86400 * usec_per_sec) (26 * 86400 * usec_per_sec) ∅ 10
    (demo_db demo_overdue) = Err IntOutOfRange.
Proof.
  apply (sweep_2_poisoned _ _ _ _ _ 1 demo_overdue 0);
    [by vm_compute; left|reflexivity|intros i; by vm_compute].
Defined.

Lemma sweep_1_poisoned_witness :
  sweep_expired_locks (fun _ _ => 26 * 86400 * usec_per_sec) (26 * 86400 * usec_per_sec) 0 0 300 ∅ 10
    (demo_db demo_job) = Err IntOutOfRange.
Proof.
  apply (sweep_1_poisoned _ _ _ _ _ _ _ _ 1 demo_job lock_expired 0);
    [by vm_compute; left|reflexivity|intros i; by vm_compute].
Defined.
