(* ===== verification/Reservation.v ===== *)
(** * Concurrency reservations

    The slot rows of [src/taskq/ratelimit/reservation.py] and every statement that writes
    them: pre-allocation, acquire, release (fenced by the lease's own acquisition stamp),
    the synchronisation of a bucket to its configured size, the slice reclaim, the
    heartbeat's lease extension ([backend/_sql.py]), the sweep of leaked slots and the
    sweep of idle keyed buckets ([backend/_sweeps.py]); and the in-memory table that
    stands in for PostgreSQL.

    The table is a map from bucket name to the bucket's rows by slot index.
    [clk p i] is the [p]-th mention of [clock_timestamp()] evaluated on slot row [i];
    [st] is [statement_timestamp()].  [locked] are the slot rows other transactions hold. *)

From Stdlib Require Import ZArith Lia QArith.
From stdpp Require Import base tactics list gmap strings sorting.
From S2P Require Import Prelude PyFloat Retry JobRow Terminal Control Sweeps.

Open Scope Z_scope.

Definition DEFAULT_RESERVATION_BACKOFF : Z := 5 * usec_per_sec.
Definition RESERVATION_RETRY_HINT_MARGIN : Z := 500000.

(** ** The table *)

Record slot := {
  s_job : option Z;
  s_worker : option Z;
  s_acquired : option Z;
  s_lease : option Z;
  s_keyed : bool;
  s_last_used : Z
}.

#[export] Instance slot_copy : Copy slot := fun s =>
  {| s_job := s_job s; s_worker := s_worker s; s_acquired := s_acquired s; s_lease := s_lease s;
     s_keyed := s_keyed s; s_last_used := s_last_used s |}.

Notation bucket_rows := (gmap Z slot).
Notation table := (gmap string bucket_rows).

Definition rows (t : table) (b : string) : bucket_rows := default ∅ (t !! b).

Definition by_index {A} (x y : Z * A) : Prop := x.1 <= y.1.

#[export] Instance by_index_dec {A} (x y : Z * A) : Decision (by_index x y).
Proof. unfold by_index. apply _. Defined.

(** [ORDER BY slot_index] (and Python's [sorted(bucket)]). *)
Definition in_order {A} (m : gmap Z A) : list (Z * A) := merge_sort by_index (map_to_list m).

(** [job_id IS NULL OR lease_expires_at < now]. *)
Definition acquirable (now : Z) (s : slot) : bool :=
  match s_job s with None => true | Some _ => opt_lt (s_lease s) now end.

Inductive res_err := ReservationUnavailable (bucket : string) (retry_after : Z).

Definition clear_slot (s : slot) : slot :=
  s <| s_job := None |> <| s_worker := None |> <| s_acquired := None |> <| s_lease := None |>.

Definition fresh_slot (keyed : bool) (used : Z) : slot :=
  {| s_job := None; s_worker := None; s_acquired := None; s_lease := None;
     s_keyed := keyed; s_last_used := used |}.

(** [0 .. n-1]. *)
Definition range (n : Z) : list Z := seqZ 0 n.

(** ** PostgreSQL statements *)

Section statements.
Context `{Rounding}.
Implicit Types (clk : nat -> Z -> Z) (t : table) (b : string).

(** [seconds * INTERVAL '1 second']. *)
Definition interval_of_seconds (q : Q) : Z := rne (fmul q (inject_Z usec_per_sec)).

(** INSERT .. ON CONFLICT: a surviving row keeps its holder, converges its mark toward
    static and restarts its staleness. *)
Definition ensure_row clk (keyed : bool) (r : bucket_rows) (i : Z) : bucket_rows :=
  match r !! i with
  | None => <[i := fresh_slot keyed (clk 0%nat i)]> r
  | Some s => <[i := s <| s_keyed ::= fun k => k && keyed |> <| s_last_used := clk 1%nat i |>]> r
  end.

Definition ensure_slots clk b (slots : Z) (keyed : bool) t : table :=
  <[b := foldl (ensure_row clk keyed) (rows t b) (range slots)]> t.

Definition free_slot clk (locked : gset (string * Z)) b t : option (Z * slot) :=
  head (filter (fun r => acquirable (clk 0%nat r.1) r.2 = true /\ (b, r.1) ∉ locked) (in_order (rows t b))).

Definition take_slot clk (job worker lease : Z) (i : Z) (s : slot) : slot :=
  s <| s_job := Some job |> <| s_worker := Some worker |> <| s_acquired := Some (clk 1%nat i) |>
    <| s_lease := Some (clk 2%nat i + interval_of_seconds (total_seconds lease)) |>
    <| s_last_used := clk 3%nat i |>.

(** [min(lease_expires_at)] over the live-held rows of the statement's snapshot. *)
Definition live_expiry (now : Z) (s : slot) : option Z :=
  match s_job s, s_lease s with
  | Some _, Some e => if now <=? e then Some e else None
  | _, _ => None
  end.

Definition opt_min (a b : option Z) : option Z :=
  match a, b with
  | Some x, Some y => Some (Z.min x y)
  | None, y => y
  | x, None => x
  end.

Definition earliest_held clk b t : option Z :=
  foldr (fun r acc => opt_min (live_expiry (clk 4%nat r.1) r.2) acc) None (in_order (rows t b)).

Definition hint_seconds clk b t : option Q :=
  match earliest_held clk b t with
  | None => None
  | Some e => Some (total_seconds (Z.max (e - clk 5%nat 0) 0))
  end.

Definition acquire clk (locked : gset (string * Z)) b (job worker lease : Z) t
  : result res_err (table * (Z * Z)) :=
  match free_slot clk locked b t with
  | Some (i, s) =>
      Ok (<[b := <[i := take_slot clk job worker lease i s]> (rows t b)]> t, (i, clk 1%nat i))
  | None =>
      Err (ReservationUnavailable b
             match hint_seconds clk b t with
             | Some q => td_of_seconds q + RESERVATION_RETRY_HINT_MARGIN
             | None => DEFAULT_RESERVATION_BACKOFF
             end)
  end.
End statements.

(** The fence is NULL for a plain index, the lease's stamp for a [SlotLease]. *)
Definition release_where (worker : Z) (fence : option Z) (s : slot) : bool :=
  sql_eq (s_worker s) (Some worker) &&
  match fence with None => true | Some f => sql_eq (s_acquired s) (Some f) end.

Definition release (now : Z) (b : string) (i worker : Z) (fence : option Z) (t : table) : table :=
  match rows t b !! i with
  | Some s =>
      if release_where worker fence s
      then <[b := <[i := clear_slot s <| s_last_used := now |>]> (rows t b)]> t
      else t
  | None => t
  end.

(** The heartbeat's extension: the slots of the jobs this worker runs, less the disowned. *)
Definition owned_job (d : db) (worker : Z) (disowned : gset Z) (job : Z) : bool :=
  match jobs d !! job with
  | Some j => sql_eq (locked_by_worker j) (Some worker) && is_status running j && bool_decide (job ∉ disowned)
  | None => false
  end.

Definition extend_row (now lease : Z) (d : db) (worker : Z) (disowned : gset Z) (s : slot) : slot :=
  match s_job s with
  | Some j => if owned_job d worker disowned j then s <| s_lease := Some (now + lease) |> else s
  | None => s
  end.

Definition update_reservation_leases (clk : string -> Z -> Z) (lease : Z) (d : db) (worker : Z)
    (disowned : gset Z) (t : table) : table :=
  map_imap (fun b r => Some (map_imap (fun i s => Some (extend_row (clk b i) lease d worker disowned s)) r)) t.

(** Sweep 4.  [window] is the id window the LIMIT took (at most a batch, expired rows
    only); the outer WHERE re-checks that a row is still held. *)
Definition leaked (st : Z) (s : slot) : bool :=
  match s_job s with Some _ => opt_lt (s_lease s) st | None => false end.

Definition sweep_4_rows (st : Z) (t : table) : list (Z * (string * Z)) :=
  omap (fun x => match s_lease x.2.2 with
                 | Some e => if leaked st x.2.2 then Some (e, (x.1, x.2.1)) else None
                 | None => None end)
    (map_to_list t ≫= fun br => map (fun r => (br.1, r)) (map_to_list br.2)).

Definition sweep_4_window (st : Z) (batch : nat) (t : table) : list (string * Z) :=
  map snd (take batch (merge_sort by_index (sweep_4_rows st t))).

Definition sweep_4 (st : Z) (batch : nat) (t : table) : table :=
  let window := sweep_4_window st batch t in
  map_imap (fun b r => Some (map_imap (fun i s =>
    Some (if bool_decide ((b, i) ∈ window) && bool_decide (is_Some (s_job s)) then clear_slot s else s)) r)) t.

(** ** Synchronising a bucket to its configured size *)

Record SyncResult := {
  inserted : list (string * Z);
  deleted : list (string * Z);
  skipped_held : list (string * Z)
}.

(** [job_id IS NOT NULL AND (lease_expires_at >= now OR lease_expires_at IS NULL)]. *)
Definition held_now (now : Z) (s : slot) : bool :=
  match s_job s with
  | None => false
  | Some _ => match s_lease s with Some e => now <=? e | None => true end
  end.

Definition missing (slots : Z) (r : bucket_rows) : list Z :=
  filter (fun i => r !! i = None) (range slots).

Definition excess (slots : Z) (r : bucket_rows) : list (Z * slot) :=
  filter (fun x => ~ (0 <= x.1 < slots)) (in_order r).

Definition sync_one (clk : nat -> Z -> Z) (b : string) (slots : Z) (t : table) : table * SyncResult :=
  let r := rows t b in
  let miss := missing slots r in
  let exc := excess slots r in
  let r1 := foldl (fun r i => <[i := fresh_slot false (clk 0%nat i)]> r) r miss in
  let held := filter (fun x => held_now (clk 1%nat x.1) x.2 = true) exc in
  let gone := filter (fun x => acquirable (clk 2%nat x.1) x.2 = true) exc in
  let r2 := foldl (fun r x => base.delete x.1 r) r1 gone in
  (<[b := r2]> t,
   {| inserted := map (pair b) miss; deleted := map (fun x => (b, x.1)) gone;
      skipped_held := map (fun x => (b, x.1)) held |}).

(** One transaction per reservation, in order.  A new row's [last_used_at] defaults to the
    transaction's start. *)
Fixpoint sync_slots (clk : nat -> nat -> Z -> Z) (k : nat) (reservations : list (string * Z)) (t : table)
  : table * SyncResult :=
  match reservations with
  | [] => (t, {| inserted := []; deleted := []; skipped_held := [] |})
  | (b, n) :: rest =>
      let '(t1, r1) := sync_one (clk k) b n t in
      let '(t2, r2) := sync_slots clk (S k) rest t1 in
      (t2, {| inserted := inserted r1 ++ inserted r2; deleted := deleted r1 ++ deleted r2;
              skipped_held := skipped_held r1 ++ skipped_held r2 |})
  end.

(** The slice reclaim: the free rows of the named buckets. *)
Definition reclaim_slice (clk : string -> Z -> Z) (names : list string) (t : table) : table :=
  map_imap (fun b r => if bool_decide (b ∈ names)
                       then Some (filter (fun x => acquirable (clk b x.1) x.2 = false) r) else Some r) t.

(** ** The sweep of idle keyed buckets *)

Definition stale_bucket (st horizon : Z) (r : bucket_rows) : bool :=
  existsb (fun x => s_keyed x.2 && (s_last_used x.2 <? st - horizon)) (map_to_list r) &&
  bool_decide (map_Forall (fun _ s => s_last_used s < st - horizon) r).

(** [min(last_used_at)] over the keyed rows. *)
Definition min_used (r : bucket_rows) : option Z :=
  foldr (fun x acc => if s_keyed x.2 then opt_min (Some (s_last_used x.2)) acc else acc) None (map_to_list r).

Definition stale_window (st horizon : Z) (batch : nat) (t : table) : list string :=
  map snd (take batch (merge_sort by_index
    (map (fun x => (default 0 (min_used x.2), x.1))
       (filter (fun x => stale_bucket st horizon x.2 = true) (map_to_list t))))).

(** The whole-bucket verdict over the locked rows. *)
Definition reclaimable (st horizon : Z) (r : bucket_rows) : bool :=
  bool_decide (map_Forall (fun _ s => s_last_used s < st - horizon) r) &&
  bool_decide (map_Forall (fun _ s => s_keyed s = true) r) &&
  bool_decide (map_Forall (fun _ s => acquirable st s = true) r).

Definition sweep_idle_keyed_slots (st horizon : Z) (batch : nat) (t : table) : table :=
  let window := stale_window st horizon batch t in
  map_imap (fun b r => if bool_decide (b ∈ window) && reclaimable st horizon r then None else Some r) t.

(** ** The in-memory table *)

Record mslot := {
  m_job : option Z;
  m_worker : option Z;
  m_acquired : option Z;
  m_lease : option Z;
  m_keyed : bool
}.

Notation mtable := (gmap string (gmap Z mslot)).

Definition free_mslot (keyed : bool) : mslot :=
  {| m_job := None; m_worker := None; m_acquired := None; m_lease := None; m_keyed := keyed |}.

Definition m_acquirable (now : Z) (s : mslot) : bool :=
  match m_job s with None => true | Some _ => false end || opt_lt (m_lease s) now.

Definition mem_ensure_slots (b : string) (slots : Z) (keyed : bool) (m : mtable) : mtable :=
  <[b := foldl (fun r i => match r !! i with None => <[i := free_mslot keyed]> r | Some _ => r end)
           (default ∅ (m !! b)) (range slots)]> m.

Definition m_live_expiry (now : Z) (s : mslot) : option Z :=
  match m_job s, m_lease s with
  | Some _, Some e => if now <=? e then Some e else None
  | _, _ => None
  end.

Definition mem_retry_after (now : Z) (r : gmap Z mslot) : Z :=
  match foldr (fun x acc => opt_min (m_live_expiry now x.2) acc) None (map_to_list r) with
  | Some e => e - now + RESERVATION_RETRY_HINT_MARGIN
  | None => DEFAULT_RESERVATION_BACKOFF
  end.

Definition mem_acquire (now : Z) (b : string) (job worker lease : Z) (m : mtable)
  : result res_err (mtable * (Z * Z)) :=
  match m !! b with
  | None => Err (ReservationUnavailable b DEFAULT_RESERVATION_BACKOFF)
  | Some r =>
      match head (filter (fun x => m_acquirable now x.2 = true) (in_order r)) with
      | Some (i, s) =>
          Ok (<[b := <[i := {| m_job := Some job; m_worker := Some worker; m_acquired := Some now;
                               m_lease := Some (now + lease); m_keyed := m_keyed s |}]> r]> m, (i, now))
      | None => Err (ReservationUnavailable b (mem_retry_after now r))
      end
  end.

Definition mem_release (b : string) (i worker : Z) (fence : option Z) (m : mtable) : mtable * bool :=
  match m !! b with
  | None => (m, false)
  | Some r =>
      match r !! i with
      | None => (m, false)
      | Some s =>
          if bool_decide (m_worker s = Some worker) &&
             match fence with None => true | Some f => bool_decide (m_acquired s = Some f) end
          then (<[b := <[i := free_mslot (m_keyed s)]> r]> m, true)
          else (m, false)
      end
  end.

Definition mem_peek_slots (now : Z) (b : string) (m : mtable) : nat * nat :=
  match m !! b with
  | None => (0%nat, 0%nat)
  | Some r =>
      (length (filter (fun x => m_acquirable now x.2 = true) (map_to_list r)),
       length (filter (fun x => m_acquirable now x.2 = false) (map_to_list r)))
  end.

Definition mem_sync_slots (now : Z) (b : string) (desired : Z) (m : mtable) : mtable * SyncResult :=
  let r := default ∅ (m !! b) in
  let miss := filter (fun i => r !! i = None) (range desired) in
  let r1 := foldl (fun r i => <[i := free_mslot false]> r) r miss in
  let exc := filter (fun x => desired <= x.1) (in_order r1) in
  let keep := filter (fun x => m_acquirable now x.2 = false) exc in
  let gone := filter (fun x => m_acquirable now x.2 = true) exc in
  (<[b := foldl (fun r x => base.delete x.1 r) r1 gone]> m,
   {| inserted := map (pair b) miss; deleted := map (fun x => (b, x.1)) gone;
      skipped_held := map (fun x => (b, x.1)) keep |}).
