(* ===== verification/ReservationProps.v ===== *)
(** * What the reservation slots guarantee

    The lease fence over every sequence of slot statements, what an acquire and a denial
    decide, the agreement of the in-memory table with the PostgreSQL one, resizing, and the
    reclaim of idle keyed buckets. *)

From Stdlib Require Import ZArith Lia QArith Qabs Lqa.
From stdpp Require Import base tactics list gmap strings sorting.
From S2P Require Import Prelude PyFloat Retry JobRow Terminal Control Sweeps Reservation.

Open Scope Z_scope.

(** ** Rows in index order *)

#[export] Instance by_index_trans {A} : Transitive (@by_index A).
Proof. intros x y z. unfold by_index. lia. Qed.

#[export] Instance by_index_total {A} : Total (@by_index A).
Proof. intros x y. unfold by_index. lia. Qed.

Lemma elem_of_in_order {A} (m : gmap Z A) x : x ∈ in_order m <-> m !! x.1 = Some x.2.
Proof.
  unfold in_order. rewrite merge_sort_Permutation. destruct x. apply elem_of_map_to_list.
Qed.

Lemma in_order_sorted {A} (m : gmap Z A) : StronglySorted by_index (in_order m).
Proof. apply StronglySorted_merge_sort; apply _. Qed.

Lemma in_order_inj {A} (m : gmap Z A) x y : x ∈ in_order m -> y ∈ in_order m -> x.1 = y.1 -> x = y.
Proof. rewrite !elem_of_in_order. destruct x, y; simpl; intros ?? ->. congruence. Qed.

Lemma in_order_fmap {A B} (f : A -> B) (m : gmap Z A) :
  in_order (f <$> m) = map (prod_map id f) (in_order m).
Proof.
  apply (StronglySorted_unique_strong by_index).
  - intros x y Hx Hy H1 H2. apply elem_of_in_order in Hx.
    apply list_elem_of_fmap in Hy as [z [-> Hz]]. apply elem_of_in_order in Hz.
    rewrite lookup_fmap in Hx. unfold by_index in *. destruct x as [k a], z as [k' c]; simpl in *.
    assert (k = k') as -> by lia. rewrite Hz in Hx. by simplify_eq/=.
  - apply in_order_sorted.
  - pose proof (in_order_sorted m) as Hs. induction Hs as [|x l Hl IH Hx]; simpl; constructor; auto.
    rewrite Forall_map. eapply Forall_impl; [exact Hx|]. intros y. unfold by_index. done.
  - unfold in_order. rewrite !merge_sort_Permutation. by rewrite map_to_list_fmap.
Qed.

Lemma head_filter_spec {A} (P : A -> Prop) `{!forall x, Decision (P x)} (R : relation A) l :
  StronglySorted R l ->
  match head (filter P l) with
  | Some x => x ∈ l /\ P x /\ (forall y, y ∈ l -> P y -> y = x \/ R x y)
  | None => forall y, y ∈ l -> ~ P y
  end.
Proof.
  induction 1 as [|x l Hl IH Hx]; [intros y Hy; by apply elem_of_nil in Hy|].
  rewrite filter_cons. destruct (decide (P x)) as [HP|HP]; simpl.
  - split_and!; [left|done|]. intros y Hy _. apply elem_of_cons in Hy as [->|Hy]; [by left|right].
    by eapply Forall_forall in Hx.
  - destruct (head (filter P l)) as [z|].
    + destruct IH as (H1 & H2 & H3). split_and!; [by right|done|].
      intros y Hy HPy. apply elem_of_cons in Hy as [->|Hy]; [done|auto].
    + intros y Hy. apply elem_of_cons in Hy as [->|Hy]; auto.
Qed.

Lemma rows_insert t b r b' : rows (<[b := r]> t) b' = if decide (b' = b) then r else rows t b'.
Proof.
  unfold rows. destruct (decide (b' = b)) as [->|Hn]; [by rewrite lookup_insert_eq|].
  by rewrite lookup_insert_ne.
Qed.

Lemma rows_imap (f : string -> bucket_rows -> option bucket_rows) t b :
  f b ∅ = Some ∅ \/ f b ∅ = None ->
  rows (map_imap f t) b = default ∅ (f b (rows t b)).
Proof.
  intros Hf. unfold rows. rewrite map_lookup_imap. destruct (t !! b) as [r|]; [done|].
  cbn. destruct Hf as [->| ->]; done.
Qed.

(** ** The lease fence

    A state is a server time and a table.  Every statement reads the clock after the
    previous one finished; rows are serialised by their locks. *)

Section fence.
Context `{Rounding}.

Inductive rstep : Z * table -> Z * table -> Prop :=
| R_ensure now now' clk b n keyed t :
    (forall p i, now < clk p i <= now') ->
    rstep (now, t) (now', ensure_slots clk b n keyed t)
| R_acquire now now' clk locked b job w lease t t' l :
    (forall p i, now < clk p i <= now') ->
    acquire clk locked b job w lease t = Ok (t', l) ->
    rstep (now, t) (now', t')
| R_release now now' b i w f t : now < now' -> rstep (now, t) (now', release now' b i w f t)
| R_extend now now' clk lease d w dis t :
    now < now' -> rstep (now, t) (now', update_reservation_leases clk lease d w dis t)
| R_sweep_4 now now' st batch t : now < now' -> rstep (now, t) (now', sweep_4 st batch t)
| R_sync now now' clk b n t : now < now' -> rstep (now, t) (now', fst (sync_one clk b n t))
| R_reclaim now now' clk names t : now < now' -> rstep (now, t) (now', reclaim_slice clk names t)
| R_idle now now' st horizon batch t :
    now < now' -> rstep (now, t) (now', sweep_idle_keyed_slots st horizon batch t).

(** Where a row's stamp comes from: the row had it, with the same holder, or it is new. *)
Definition same_holder (s s' : slot) : Prop :=
  s_acquired s' = s_acquired s /\ s_job s' = s_job s /\ s_worker s' = s_worker s.

Definition origin (now : Z) (t : table) (b : string) (i : Z) (s' : slot) : Prop :=
  s_acquired s' = None \/ (exists x, s_acquired s' = Some x /\ now < x) \/
  (exists s, rows t b !! i = Some s /\ same_holder s s').

Definition table_step (now : Z) (t t' : table) : Prop :=
  forall b i s', rows t' b !! i = Some s' -> origin now t b i s'.

Lemma origin_same now t b i s s' : rows t b !! i = Some s -> same_holder s s' -> origin now t b i s'.
Proof. intros. right; right. eauto. Qed.

Lemma table_step_insert now t b (r : bucket_rows) :
  (forall i s', r !! i = Some s' -> origin now t b i s') -> table_step now t (<[b := r]> t).
Proof.
  intros Hr b' i s'. rewrite rows_insert. case_decide; [subst; apply Hr|].
  intros Hs. eapply origin_same; [exact Hs|done].
Qed.

Lemma table_step_imap now t (f : string -> bucket_rows -> option bucket_rows) :
  (forall b, f b ∅ = Some ∅ \/ f b ∅ = None) ->
  (forall b r r', f b r = Some r' -> forall i s', r' !! i = Some s' ->
     exists s, r !! i = Some s /\ (s_acquired s' = None \/ same_holder s s')) ->
  table_step now t (map_imap f t).
Proof.
  intros Hf H1 b i s'. rewrite rows_imap by apply Hf.
  destruct (f b (rows t b)) as [r'|] eqn:E; simpl; [|by rewrite lookup_empty].
  intros Hs. destruct (H1 _ _ _ E _ _ Hs) as (s & Hs1 & [Hn|Hh]); [by left|].
  by eapply origin_same.
Qed.

Lemma ensure_step now clk b n keyed t : table_step now t (ensure_slots clk b n keyed t).
Proof.
  apply table_step_insert. intros i s'.
  assert (Hgen : forall l (r : bucket_rows),
    (forall i s, r !! i = Some s -> origin now t b i s) ->
    forall i s, foldl (ensure_row clk keyed) r l !! i = Some s -> origin now t b i s).
  { induction l as [|k l IH]; intros r Hr; [done|]. apply IH. intros k' s. unfold ensure_row.
    destruct (r !! k) as [s0|] eqn:E; rewrite lookup_insert_Some; intros [[<- <-]|[_ Hs]]; eauto.
    - destruct (Hr _ _ E) as [Hn|[Hn|(s1 & Hs1 & Hh)]]; [by left|right; by left|].
      by eapply origin_same.
    - by left. }
  apply Hgen. intros k s Hs. by eapply origin_same.
Qed.

Lemma sync_step now clk b n t : table_step now t (fst (sync_one clk b n t)).
Proof.
  apply table_step_insert. intros i s'.
  assert (Hdel : forall l (r : bucket_rows) i s,
    foldl (fun r (x : Z * slot) => base.delete x.1 r) r l !! i = Some s -> r !! i = Some s).
  { induction l as [|x l IH]; intros r k s; [done|]. intros Hk. apply IH in Hk.
    by apply lookup_delete_Some in Hk as [_ ?]. }
  intros Hs. apply Hdel in Hs.
  assert (Hins : forall l (r : bucket_rows),
    (forall i s, r !! i = Some s -> origin now t b i s) ->
    forall i s, foldl (fun (r : bucket_rows) i => <[i := fresh_slot false (clk 0%nat i)]> r) r l !! i = Some s ->
    origin now t b i s).
  { induction l as [|k l IH]; intros r Hr; [done|]. apply IH. intros k' s.
    rewrite lookup_insert_Some. intros [[<- <-]|[_ ?]]; [by left|eauto]. }
  eapply Hins; [|exact Hs]. intros k s Hk. by eapply origin_same.
Qed.

Lemma acquire_step now now' clk locked b job w lease t t' l :
  (forall p i, now < clk p i <= now') -> acquire clk locked b job w lease t = Ok (t', l) ->
  table_step now t t'.
Proof.
  intros Hc. unfold acquire. destruct (free_slot clk locked b t) as [[k s]|]; [|done].
  intros [= <- <-]. apply table_step_insert. intros i s'. rewrite lookup_insert_Some.
  intros [[<- <-]|[_ Hs]]; [|by eapply origin_same].
  right; left. exists (clk 1%nat k). split; [done|]. specialize (Hc 1%nat k). lia.
Qed.

Lemma release_step now c b i w f t : table_step now t (release c b i w f t).
Proof.
  unfold release. destruct (rows t b !! i) as [s|] eqn:E; [|intros b' i' s' Hs; by eapply origin_same].
  destruct (release_where w f s); [|intros b' i' s' Hs; by eapply origin_same].
  apply table_step_insert. intros k s'. rewrite lookup_insert_Some.
  intros [[<- <-]|[_ Hs]]; [by left|by eapply origin_same].
Qed.

Lemma map_imap_rows (g : Z -> slot -> option slot) (r : bucket_rows) i s' :
  map_imap g r !! i = Some s' -> exists s, r !! i = Some s /\ g i s = Some s'.
Proof. rewrite map_lookup_imap. destruct (r !! i); simpl; naive_solver. Qed.

Lemma rstep_origin now t now' t' : rstep (now, t) (now', t') -> now < now' /\ table_step now t t'.
Proof.
  intros Hstep. inversion Hstep; subst.
  - match goal with Hc : forall p i, _ |- _ => pose proof (Hc 0%nat 0) end. split; [lia|apply ensure_step].
  - match goal with Hc : forall p i, _ |- _ => pose proof (Hc 0%nat 0) end.
    split; [lia|by eapply acquire_step].
  - split; [done|apply release_step].
  - split; [done|]. apply table_step_imap; [by left|]. intros b r r' [= <-] i s' Hs.
    apply map_imap_rows in Hs as (s & Hs & [= <-]). exists s. split; [done|right].
    unfold extend_row. destruct (s_job s) as [j|] eqn:Ej; [|done].
    by destruct (owned_job d w dis j).
  - split; [done|]. apply table_step_imap; [by left|]. intros b r r' [= <-] i s' Hs.
    apply map_imap_rows in Hs as (s & Hs & [= <-]). exists s. split; [done|].
    destruct (_ && _); [by left|by right].
  - split; [done|apply sync_step].
  - split; [done|]. apply table_step_imap.
    { intros b. left. by destruct (bool_decide _). }
    intros b r r' Hr i s' Hs. exists s'. split; [|by right].
    destruct (bool_decide (b ∈ names)); simplify_eq/=; [|done]. by apply map_lookup_filter_Some in Hs as [? _].
  - split; [done|]. apply table_step_imap.
    { intros b. destruct (_ && _); auto. }
    intros b r r' Hr i s' Hs. exists s'. split; [|by right]. by destruct (_ && _); simplify_eq/=.
Qed.

Definition only_holder (stamp job w : Z) (b : string) (i : Z) (t : table) : Prop :=
  forall s, rows t b !! i = Some s -> s_acquired s = Some stamp -> s_job s = Some job /\ s_worker s = Some w.

Definition gone (stamp : Z) (b : string) (i : Z) (t : table) : Prop :=
  forall s, rows t b !! i = Some s -> s_acquired s <> Some stamp.

Lemma rsteps_past stamp b i now t now' t' : rtc rstep (now, t) (now', t') -> stamp <= now ->
  (forall job w, only_holder stamp job w b i t -> only_holder stamp job w b i t') /\
  (gone stamp b i t -> gone stamp b i t') /\ stamp <= now'.
Proof.
  intros Hs. remember (now, t) as x eqn:Ex. remember (now', t') as y eqn:Ey.
  revert now t Ex. induction Hs as [x|x [now1 t1] z Hstep Hs IH]; intros now t -> Hle.
  { by simplify_eq. }
  apply rstep_origin in Hstep as [Hlt Hstep].
  destruct (IH Ey now1 t1 eq_refl ltac:(lia)) as (H1 & H2 & H3). split_and!; [| |done].
  - intros job w Ho. apply H1. intros s Hrow Hst.
    destruct (Hstep _ _ _ Hrow) as [?|[(x & ? & ?)|(s0 & Hs0 & Ha & Hj & Hw)]]; [congruence| |].
    + assert (x = stamp) by congruence. lia.
    + rewrite Hj, Hw. apply Ho; [done|congruence].
  - intros Hg. apply H2. intros s Hrow Hst.
    destruct (Hstep _ _ _ Hrow) as [?|[(x & ? & ?)|(s0 & Hs0 & Ha & _)]]; [congruence| |].
    + assert (x = stamp) by congruence. lia.
    + apply (Hg _ Hs0). congruence.
Qed.

Lemma release_gone c b i w stamp t : gone stamp b i t -> release c b i w (Some stamp) t = t.
Proof.
  intros Hg. unfold release. destruct (rows t b !! i) as [s|] eqn:E; [|done].
  unfold release_where, sql_eq. destruct (s_acquired s) as [x|] eqn:Ex.
  - assert (x <> stamp) by (intros ->; by apply (Hg _ E)).
    rewrite (proj2 (Z.eqb_neq x stamp)) by done. by rewrite andb_false_r.
  - by rewrite andb_false_r.
Qed.

(** C30: A lease frees only itself.  Take the lease an acquire returned and any later state,
    whatever acquires, releases, expiries, sweeps, extensions, resizes and deletions came in
    between.  Either the slot row still carries that lease's stamp, with the same job and
    worker, and the holder's fenced release frees exactly that row; or the lease is over,
    and from then on a release presenting it never changes any row, whoever holds the slot
    now (the same worker running the same job again included). *)
Theorem lease_fence clk locked b job w lease t t1 i stamp now now1 n2 t2 :
  (forall p k, now < clk p k <= now1) ->
  acquire clk locked b job w lease t = Ok (t1, (i, stamp)) ->
  rtc rstep (now1, t1) (n2, t2) ->
  (exists s, rows t2 b !! i = Some s /\ s_acquired s = Some stamp /\ s_job s = Some job /\ s_worker s = Some w /\
     forall c, release c b i w (Some stamp) t2 =
       <[b := <[i := clear_slot s <| s_last_used := c |>]> (rows t2 b)]> t2) \/
  (forall n3 t3 c w', rtc rstep (n2, t2) (n3, t3) -> release c b i w' (Some stamp) t3 = t3).
Proof.
  intros Hc Ha Hs. unfold acquire in Ha.
  destruct (free_slot clk locked b t) as [[k s0]|]; [|done]. simplify_eq/=.
  pose proof (Hc 1%nat i) as Hi.
  assert (Ho : only_holder (clk 1%nat i) job w b i
                 (<[b := <[i := take_slot clk job w lease i s0]> (rows t b)]> t)).
  { intros s. rewrite rows_insert, decide_True, lookup_insert_eq by done. intros [= <-] _. done. }
  destruct (rsteps_past (clk 1%nat i) b i _ _ _ _ Hs ltac:(lia)) as (H1 & _ & Hle).
  specialize (H1 _ _ Ho).
  destruct (rows t2 b !! i) as [s|] eqn:E.
  2:{ right. intros n3 t3 c w' Hs2. apply release_gone.
      eapply rsteps_past; [exact Hs2|lia|]. intros s. by rewrite E. }
  destruct (decide (s_acquired s = Some (clk 1%nat i))) as [Hst|Hst].
  - left. exists s. destruct (H1 _ E Hst) as [Hj Hw]. split_and!; try done.
    intros c. unfold release. rewrite E. unfold release_where. rewrite Hw, Hst. cbn.
    by rewrite !Z.eqb_refl.
  - right. intros n3 t3 c w' Hs2. apply release_gone.
    eapply rsteps_past; [exact Hs2|lia|]. intros s'. rewrite E. by intros [= <-].
Qed.
End fence.

(** ** What an acquire decides *)

Section decides.
Context `{Rounding}.

(** Below 2^30 seconds (34 years) the float detour of a bound interval is exact. *)
Lemma interval_exact l : 0 <= l < 2 ^ 30 * usec_per_sec -> interval_of_seconds (total_seconds l) = l.
Proof.
  intros Hl. unfold interval_of_seconds, fmul.
  set (x := (inject_Z l / inject_Z usec_per_sec)%Q).
  assert (Hx : (inject_Z l == x * inject_Z usec_per_sec)%Q) by (unfold x; field; discriminate).
  assert (Hx0 : (0 <= x)%Q) by (apply Qle_shift_div_l; [done|]; rewrite Qmult_0_l;
    change 0%Q with (inject_Z 0); rewrite <- Zle_Qle; lia).
  assert (Hx1 : (x <= inject_Z (2 ^ 30))%Q).
  { apply Qle_shift_div_r; [done|]. rewrite <- inject_Z_mult, <- Zle_Qle. lia. }
  pose proof (rnd_rel x) as Hr. change (rnd x) with (total_seconds l) in Hr.
  rewrite (Qabs_pos x) in Hr by done.
  pose proof (total_seconds_nonneg l ltac:(lia)) as Hnn. set (f := total_seconds l) in *.
  pose proof (rnd_rel (f * inject_Z usec_per_sec)) as Hg.
  rewrite (Qabs_pos (f * _)) in Hg by (apply Qmult_le_0_compat; [done|discriminate]).
  set (g := rnd (f * inject_Z usec_per_sec)) in *.
  apply Qabs_Qle_condition in Hr as [Hr1 Hr2]. apply Qabs_Qle_condition in Hg as [Hg1 Hg2].
  apply rne_close, Qabs_Qlt_condition. rewrite Hx. unfold ulp53, usec_per_sec in *.
  change (inject_Z (2 ^ 30)) with 1073741824%Q in *. change (inject_Z 1000000) with 1000000%Q in *.
  change (1 # 2 ^ 53)%Q with (1 # 9007199254740992)%Q in *. split; lra.
Qed.

Lemma free_slot_spec clk b t :
  match free_slot clk ∅ b t with
  | Some (i, s) => rows t b !! i = Some s /\ acquirable (clk 0%nat i) s = true /\
      (forall k s', rows t b !! k = Some s' -> acquirable (clk 0%nat k) s' = true -> i <= k)
  | None => forall k s, rows t b !! k = Some s -> acquirable (clk 0%nat k) s = false
  end.
Proof.
  unfold free_slot.
  match goal with |- context [@filter _ _ _ ?P ?D ?l] =>
    pose proof (@head_filter_spec _ P D by_index l (in_order_sorted _)) as Hh end.
  destruct (head _) as [[i s]|].
  - destruct Hh as (H1 & [H2 _] & H3). apply elem_of_in_order in H1. split_and!; [done..|].
    intros k s' Hk Ha. assert (Hin : (k, s') ∈ in_order (rows t b)) by by apply elem_of_in_order.
    destruct (H3 _ Hin (conj Ha (not_elem_of_empty _))) as [[= -> ->]|Hle]; [lia|exact Hle].
  - intros k s Hk. destruct (acquirable (clk 0%nat k) s) eqn:E; [|done].
    exfalso. apply (Hh (k, s)); [by apply elem_of_in_order|by split; [|apply not_elem_of_empty]].
Qed.

Lemma opt_min_foldr (f : Z * slot -> option Z) l e :
  foldr (fun r acc => opt_min (f r) acc) None l = Some e -> exists r, r ∈ l /\ f r = Some e.
Proof.
  revert e. induction l as [|r l IH]; intros e; [done|]. cbn.
  destruct (f r) as [x|] eqn:Ef; destruct (foldr _ None l) as [y|] eqn:Er; cbn; intros [= <-].
  - destruct (Z.le_ge_cases x y).
    + rewrite Z.min_l by done. exists r. split; [left|done].
    + rewrite Z.min_r by done. destruct (IH y eq_refl) as (z & Hz & Hf). exists z. split; [by right|done].
  - exists r. split; [left|done].
  - destruct (IH y eq_refl) as (z & Hz & Hf). exists z. split; [by right|done].
Qed.

Lemma earliest_held_row clk b t e : earliest_held clk b t = Some e ->
  exists i s, rows t b !! i = Some s /\ s_lease s = Some e.
Proof.
  intros He. apply (opt_min_foldr (fun r => live_expiry (clk 4%nat r.1) r.2)) in He as ([i s] & Hin & Hl).
  apply elem_of_in_order in Hin. exists i, s. split; [done|]. unfold live_expiry in Hl. simpl in Hl.
  destruct (s_job s); [|done]. destruct (s_lease s); [|done]. by destruct (_ <=? _); simplify_eq.
Qed.

(** An acquire takes the lowest free slot, and a denial's hint is honest.  With no peer
    transaction holding rows, an acquire is granted exactly when some slot of the bucket is
    free or expired; it takes the lowest such index and changes no other row.  A denial
    means every slot is held, and when a live lease exists the hint is the wait after which,
    the table unchanged, the same acquire is granted. *)
Theorem acquire_decides clk b job w lease t :
  (forall i s e, rows t b !! i = Some s -> s_lease s = Some e -> e - clk 5%nat 0 < td_exact_horizon) ->
  match acquire clk ∅ b job w lease t with
  | Ok (t', (i, stamp)) =>
      exists s, rows t b !! i = Some s /\ acquirable (clk 0%nat i) s = true /\ stamp = clk 1%nat i /\
        (forall k s', rows t b !! k = Some s' -> acquirable (clk 0%nat k) s' = true -> i <= k) /\
        rows t' b !! i = Some (take_slot clk job w lease i s) /\
        (forall b' k, (b', k) <> (b, i) -> rows t' b' !! k = rows t b' !! k)
  | Err (ReservationUnavailable b' after) =>
      b' = b /\ (forall k s, rows t b !! k = Some s -> acquirable (clk 0%nat k) s = false) /\
      (forall clk', (forall p k, clk 5%nat 0 + after <= clk' p k) -> earliest_held clk b t <> None ->
         exists t' l, acquire clk' ∅ b job w lease t = Ok (t', l))
  end.
Proof.
  intros Hhor. unfold acquire at 1. pose proof (free_slot_spec clk b t) as Hf.
  destruct (free_slot clk ∅ b t) as [[i s]|].
  - destruct Hf as (H1 & H2 & H3). exists s. split_and!; try done.
    + by rewrite rows_insert, decide_True, lookup_insert_eq.
    + intros b' k Hne. rewrite rows_insert. case_decide; [|done]. subst.
      by rewrite lookup_insert_ne by congruence.
  - split_and!; [done..|]. unfold hint_seconds. intros clk' Hclk Hne.
    destruct (earliest_held clk b t) as [e|] eqn:Ee; [|done].
    destruct (earliest_held_row _ _ _ _ Ee) as (i & s & Hi & He).
    rewrite td_roundtrip in Hclk by (specialize (Hhor _ _ _ Hi He); unfold td_exact_horizon, usec_per_sec in *; lia).
    unfold acquire. pose proof (free_slot_spec clk' b t) as Hf'.
    destruct (free_slot clk' ∅ b t) as [[k s']|]; [eauto|].
    specialize (Hf' _ _ Hi). specialize (Hclk 0%nat i). unfold acquirable, opt_lt in Hf'.
    rewrite He in Hf'. destruct (s_job s); [|done]. unfold RESERVATION_RETRY_HINT_MARGIN in Hclk. lia.
Qed.
End decides.

(** ** The in-memory table is the PostgreSQL table under one clock *)

Section twin.
Context `{Rounding}.

Definition erase (s : slot) : mslot :=
  {| m_job := s_job s; m_worker := s_worker s; m_acquired := s_acquired s; m_lease := s_lease s;
     m_keyed := s_keyed s |}.

Definition twin (m : mtable) (t : table) : Prop := forall b, default ∅ (m !! b) = erase <$> rows t b.

Lemma twin_insert m t b r : twin m t -> twin (<[b := erase <$> r]> m) (<[b := r]> t).
Proof.
  intros Ht b'. rewrite rows_insert. case_decide; [subst; by rewrite lookup_insert_eq|].
  by rewrite lookup_insert_ne.
Qed.

Lemma m_acquirable_erase now s : m_acquirable now (erase s) = acquirable now s.
Proof. unfold m_acquirable, acquirable, opt_lt. simpl. by destruct (s_job s). Qed.

Lemma head_filter_map {A B} (f : A -> B) (P : A -> Prop) (Q : B -> Prop)
    `{!forall x, Decision (P x), !forall y, Decision (Q y)} l :
  (forall x, P x <-> Q (f x)) -> head (filter Q (map f l)) = f <$> head (filter P l).
Proof.
  intros HPQ. induction l as [|x l IH]; [done|]. cbn [map]. rewrite !filter_cons.
  destruct (decide (P x)) as [Hp|Hp], (decide (Q (f x))) as [Hq|Hq]; try done; exfalso; naive_solver.
Qed.

Lemma opt_min_comm3 x y z : opt_min x (opt_min y z) = opt_min y (opt_min x z).
Proof. destruct x, y, z; simpl; f_equal; lia. Qed.

Lemma m_retry_erase now (r : bucket_rows) :
  foldr (fun x acc => opt_min (m_live_expiry now x.2) acc) None (map_to_list (erase <$> r)) =
  foldr (fun x acc => opt_min (live_expiry now x.2) acc) None (in_order r).
Proof.
  assert (Hp : map_to_list (erase <$> r) ≡ₚ map (prod_map id erase) (in_order r)).
  { rewrite <- in_order_fmap. unfold in_order. by rewrite merge_sort_Permutation. }
  rewrite (foldr_permutation (=) (fun (x : Z * mslot) acc => opt_min (m_live_expiry now x.2) acc) None _ _
             (fun _ _ _ _ _ _ _ _ => opt_min_comm3 _ _ _) Hp).
  clear Hp. induction (in_order r) as [|x l IH]; [done|]. cbn. by rewrite IH.
Qed.

Lemma mem_acquire_agrees now b job w lease m t :
  twin m t -> 0 <= lease < 2 ^ 30 * usec_per_sec ->
  (forall i s e, rows t b !! i = Some s -> s_lease s = Some e -> e - now < td_exact_horizon) ->
  match acquire (fun _ _ => now) ∅ b job w lease t, mem_acquire now b job w lease m with
  | Ok (t', l), Ok (m', l') => l = l' /\ twin m' t'
  | Err e, Err e' => e = e'
  | _, _ => False
  end.
Proof.
  intros Ht Hl Hh. unfold acquire, mem_acquire. pose proof (Ht b) as Hb.
  assert (Hfree : head (filter (fun x => m_acquirable now x.2 = true) (in_order (erase <$> rows t b))) =
                  prod_map id erase <$> free_slot (fun _ _ => now) ∅ b t).
  { unfold free_slot. rewrite in_order_fmap. apply head_filter_map. intros x. simpl.
    rewrite m_acquirable_erase. split; [by intros []|]. intros E. split; [done|apply not_elem_of_empty]. }
  destruct (m !! b) as [r|] eqn:Em; simpl in Hb.
  - subst r. rewrite Hfree. destruct (free_slot _ ∅ b t) as [[i s]|]; cbn.
    + split; [done|].
      assert (He : erase (take_slot (fun _ _ => now) job w lease i s) =
        {| m_job := Some job; m_worker := Some w; m_acquired := Some now;
           m_lease := Some (now + lease); m_keyed := s_keyed s |})
        by (unfold erase, take_slot; simpl; by rewrite interval_exact).
      rewrite <- He, <- fmap_insert. by apply twin_insert.
    + f_equal. unfold mem_retry_after. rewrite m_retry_erase. unfold hint_seconds, earliest_held.
      destruct (foldr _ None _) as [e|] eqn:Ee; [|done].
      apply (opt_min_foldr (fun r => live_expiry now r.2)) in Ee as ([i s] & Hin & Hlive).
      apply elem_of_in_order in Hin. unfold live_expiry in Hlive. simpl in *.
      destruct (s_job s); [|done]. destruct (s_lease s) as [e'|] eqn:El; [|done].
      destruct (now <=? e') eqn:Ele; [|done]. simplify_eq. specialize (Hh _ _ _ Hin El).
      rewrite td_roundtrip by (unfold td_exact_horizon, usec_per_sec in *; lia). lia.
  - assert (Hr : rows t b = ∅) by (by apply (fmap_empty_inv erase); rewrite <- Hb).
    unfold free_slot, hint_seconds, earliest_held. by rewrite Hr.
Qed.

Lemma mem_release_agrees now b i worker f m t :
  twin m t -> twin (fst (mem_release b i worker f m)) (release now b i worker f t).
Proof.
  intros Ht. pose proof (Ht b) as Hb. unfold mem_release, release.
  destruct (m !! b) as [r|] eqn:Em; simpl in Hb.
  2:{ assert (Hr : rows t b = ∅) by (by apply (fmap_empty_inv erase); rewrite <- Hb).
      by rewrite Hr, lookup_empty. }
  subst r. rewrite lookup_fmap. destruct (rows t b !! i) as [s|] eqn:Es; [|done]. cbn.
  assert (Hw : bool_decide (s_worker s = Some worker) &&
      match f with None => true | Some f => bool_decide (s_acquired s = Some f) end = release_where worker f s).
  { assert (Hq : forall a v, bool_decide (a = Some v) = sql_eq a (Some v)).
    { intros [x|] v; unfold sql_eq; case_bool_decide as E; try done.
      - injection E as ->. by rewrite Z.eqb_refl.
      - symmetry. apply Z.eqb_neq. congruence. }
    unfold release_where. rewrite Hq. by destruct f; rewrite ?Hq. }
  rewrite Hw. destruct (release_where worker f s); [|done]. simpl.
  change (free_mslot (s_keyed s)) with (erase (clear_slot s <| s_last_used := now |>)).
  rewrite <- fmap_insert. by apply twin_insert.
Qed.

Lemma NoDup_in_order {A} (m : gmap Z A) : NoDup (in_order m).
Proof. unfold in_order. rewrite merge_sort_Permutation. apply NoDup_map_to_list. Qed.

Lemma StronglySorted_filter' {A} (R : relation A) (P : A -> Prop) `{!forall x, Decision (P x)} l :
  StronglySorted R l -> StronglySorted R (filter P l).
Proof.
  induction 1 as [|x l Hl IH Hx]; [constructor|]. rewrite filter_cons. case_decide; [|done].
  constructor; [done|]. apply Forall_forall. intros y [_ Hy]%list_elem_of_filter.
  by eapply Forall_forall in Hx.
Qed.

Lemma in_order_filter_ext {A} (P : Z * A -> Prop) `{!forall x, Decision (P x)} (m1 m2 : gmap Z A) :
  (forall x, P x -> m1 !! x.1 = Some x.2 <-> m2 !! x.1 = Some x.2) ->
  filter P (in_order m1) = filter P (in_order m2).
Proof.
  intros Hm. apply (StronglySorted_unique_strong by_index).
  - intros x y [Hp Hx]%list_elem_of_filter [Hq Hy]%list_elem_of_filter Hxy Hyx. unfold by_index in *.
    apply elem_of_in_order, Hm, elem_of_in_order in Hx; [|done].
    apply (in_order_inj m2); auto. lia.
  - apply StronglySorted_filter', in_order_sorted.
  - apply StronglySorted_filter', in_order_sorted.
  - apply NoDup_Permutation; [apply NoDup_filter, NoDup_in_order..|].
    intros x. rewrite !list_elem_of_filter, !elem_of_in_order. naive_solver.
Qed.

Lemma filter_map {A B} (f : A -> B) (P : A -> Prop) (Q : B -> Prop)
    `{!forall x, Decision (P x), !forall y, Decision (Q y)} l :
  (forall x, x ∈ l -> P x <-> Q (f x)) -> filter Q (map f l) = map f (filter P l).
Proof.
  induction l as [|x l IH]; intros HPQ; [done|]. cbn [map]. rewrite !filter_cons.
  pose proof (HPQ x ltac:(left)) as Hx. rewrite IH by (intros; apply HPQ; by right).
  destruct (decide (P x)), (decide (Q (f x))); try done; exfalso; naive_solver.
Qed.

Lemma filter_in_iff {A} (P Q : A -> Prop) `{!forall x, Decision (P x), !forall y, Decision (Q y)} (l : list A) :
  (forall x, x ∈ l -> P x <-> Q x) -> filter P l = filter Q l.
Proof.
  intros HPQ. pose proof (filter_map id P Q l HPQ) as E. by rewrite !map_id in E.
Qed.

Lemma erase_inserts u l (r : bucket_rows) :
  erase <$> foldl (fun (r : bucket_rows) i => <[i := fresh_slot false (u i)]> r) r l =
  foldl (fun (r : gmap Z mslot) i => <[i := free_mslot false]> r) (erase <$> r) l.
Proof. revert r. induction l as [|i l IH]; intros r; [done|]. simpl. rewrite IH. by rewrite fmap_insert. Qed.

Lemma erase_deletes (l : list (Z * slot)) (r : bucket_rows) :
  erase <$> foldl (fun (r : bucket_rows) x => base.delete x.1 r) r l =
  foldl (fun (r : gmap Z mslot) x => base.delete x.1 r) (erase <$> r) (map (prod_map id erase) l).
Proof. revert r. induction l as [|x l IH]; intros r; [done|]. simpl. rewrite IH. by rewrite fmap_delete. Qed.

Lemma foldl_insert_miss (f : Z -> slot) l (r : bucket_rows) k :
  foldl (fun (r : bucket_rows) i => <[i := f i]> r) r l !! k = if decide (k ∈ l) then Some (f k) else r !! k.
Proof.
  revert r. induction l as [|i l IH]; intros r; [done|]. simpl. rewrite IH.
  destruct (decide (k ∈ l)), (decide (k ∈ i :: l)) as [Hk|Hk]; try done.
  - exfalso. apply Hk. by right.
  - apply elem_of_cons in Hk as [->|]; [|done]. by rewrite lookup_insert_eq.
  - rewrite lookup_insert_ne; [done|]. intros ->. apply Hk. left.
Qed.

Lemma elem_of_missing n (r : bucket_rows) k : k ∈ missing n r <-> r !! k = None /\ 0 <= k < n.
Proof. unfold missing, range. rewrite list_elem_of_filter, elem_of_seqZ. by rewrite Z.add_0_l. Qed.

Lemma mem_sync_agrees now b n m t :
  twin m t -> (forall i s, rows t b !! i = Some s -> 0 <= i) ->
  let '(t', r) := sync_one (fun _ _ => now) b n t in
  let '(m', r') := mem_sync_slots now b n m in
  r = r' /\ twin m' t'.
Proof.
  intros Ht Hpos. unfold sync_one, mem_sync_slots. rewrite (Ht b).
  assert (Hmiss : filter (fun i => (erase <$> rows t b) !! i = None) (range n) = missing n (rows t b)).
  { unfold missing. apply list_filter_iff. intros i. rewrite lookup_fmap. by destruct (rows t b !! i). }
  rewrite Hmiss, <- (erase_inserts (fun _ => now)). set (r1 := foldl _ (rows t b) _).
  assert (Hexc : filter (fun x : Z * mslot => n <= x.1) (in_order (erase <$> r1)) =
                 map (prod_map id erase) (excess n (rows t b))).
  { rewrite in_order_fmap. rewrite (filter_map _ (fun x : Z * slot => n <= x.1) (fun x : Z * mslot => n <= x.1)) by done. f_equal.
    rewrite (in_order_filter_ext _ r1 (rows t b)).
    - unfold excess. apply filter_in_iff. intros [i s] Hin%elem_of_in_order. simpl in *.
      specialize (Hpos _ _ Hin). lia.
    - intros [i s] Hi. simpl in *. unfold r1. rewrite foldl_insert_miss. case_decide as Hk; [|done].
      apply elem_of_missing in Hk. lia. }
  rewrite Hexc.
  rewrite (filter_map _ (fun x : Z * slot => acquirable now x.2 = true) (fun x => m_acquirable now x.2 = true))
    by (intros; simpl; by rewrite m_acquirable_erase).
  rewrite (filter_map _ (fun x : Z * slot => held_now now x.2 = true) (fun x => m_acquirable now x.2 = false)).
  2:{ intros x _. simpl. rewrite m_acquirable_erase. unfold held_now, acquirable, opt_lt.
      destruct (s_job x.2); [|done]. destruct (s_lease x.2); [|done]. zbool; lia. }
  rewrite <- erase_deletes. rewrite !map_map. split; [done|]. by apply twin_insert.
Qed.

(** The in-memory table behaves as the PostgreSQL table.  When both hold the same slots
    and each statement reads one instant, acquire returns the same lease or the same denial
    with the same hint, release frees the same slot, resizing inserts, deletes and reports
    the same slots in the same order, and the tables stay equal. *)
Theorem memory_table_agrees now b m t :
  twin m t -> (forall i s, rows t b !! i = Some s -> 0 <= i) ->
  (forall i s e, rows t b !! i = Some s -> s_lease s = Some e -> e - now < td_exact_horizon) ->
  (forall job w lease, 0 <= lease < 2 ^ 30 * usec_per_sec ->
     match acquire (fun _ _ => now) ∅ b job w lease t, mem_acquire now b job w lease m with
     | Ok (t', l), Ok (m', l') => l = l' /\ twin m' t'
     | Err e, Err e' => e = e'
     | _, _ => False
     end) /\
  (forall i w f, twin (fst (mem_release b i w f m)) (release now b i w f t)) /\
  (forall n, snd (sync_one (fun _ _ => now) b n t) = snd (mem_sync_slots now b n m) /\
             twin (fst (mem_sync_slots now b n m)) (fst (sync_one (fun _ _ => now) b n t))).
Proof.
  intros Ht Hpos Hh. split_and!.
  - intros. by apply mem_acquire_agrees.
  - intros. by apply mem_release_agrees.
  - intros n. pose proof (mem_sync_agrees now b n m t Ht Hpos) as Hs.
    by destruct (sync_one _ _ _ _), (mem_sync_slots _ _ _ _).
Qed.
End twin.

(** ** Resizing a bucket *)

Lemma foldl_delete_lookup (l : list (Z * slot)) (r : bucket_rows) k :
  foldl (fun (r : bucket_rows) x => base.delete x.1 r) r l !! k =
  if decide (k ∈ map fst l) then None else r !! k.
Proof.
  revert r. induction l as [|x l IH]; intros r; [done|]. cbn [foldl map]. rewrite IH.
  destruct (decide (k ∈ map fst l)), (decide (k ∈ x.1 :: map fst l)) as [Hk|Hk]; try done.
  - exfalso. apply Hk. by right.
  - apply elem_of_cons in Hk as [->|]; [|done]. by rewrite lookup_delete_eq.
  - rewrite lookup_delete_ne; [done|]. intros <-. apply Hk. left.
Qed.

Lemma sync_one_lookup clk b n t k :
  rows (fst (sync_one clk b n t)) b !! k =
  match rows t b !! k with
  | Some s => if decide (0 <= k < n) then Some s
              else if acquirable (clk 2%nat k) s then None else Some s
  | None => if decide (0 <= k < n) then Some (fresh_slot false (clk 0%nat k)) else None
  end.
Proof.
  unfold sync_one. cbn [fst]. rewrite rows_insert, decide_True by done.
  rewrite foldl_delete_lookup, (foldl_insert_miss (fun i => fresh_slot false (clk 0%nat i))).
  assert (Hg : k ∈ map fst (filter (fun x => acquirable (clk 2%nat x.1) x.2 = true) (excess n (rows t b)))
    <-> exists s, rows t b !! k = Some s /\ ~ (0 <= k < n) /\ acquirable (clk 2%nat k) s = true).
  { rewrite list_elem_of_fmap. split.
    - intros ([i s] & -> & [Ha [Hn Hin]%list_elem_of_filter]%list_elem_of_filter).
      apply elem_of_in_order in Hin. simpl in *. eauto.
    - intros (s & Hs & Hn & Ha). exists (k, s). split; [done|].
      apply list_elem_of_filter. split; [done|]. apply list_elem_of_filter. split; [done|].
      by apply elem_of_in_order. }
  pose proof (elem_of_missing n (rows t b) k) as Hm.
  destruct (rows t b !! k) as [s|] eqn:E.
  - rewrite (decide_False (P := k ∈ missing _ _)) by (intros [? _]%Hm; congruence).
    destruct (decide (k ∈ map fst _)) as [Hin|Hin].
    + apply Hg in Hin as (s' & [= <-] & Hn & Ha). by rewrite decide_False, Ha by done.
    + destruct (decide (0 <= k < n)) as [|Hr]; [done|].
      destruct (acquirable (clk 2%nat k) s) eqn:Ea; [|done]. exfalso. apply Hin, Hg. eauto.
  - rewrite (decide_False (P := k ∈ map fst _)) by (intros (s & ? & _)%Hg; congruence).
    destruct (decide (k ∈ missing _ _)) as [Hk|Hk], (decide (0 <= k < n)) as [Hr|Hr]; try done.
    + by apply Hm in Hk as [_ ?].
    + exfalso. by apply Hk, Hm.
Qed.

(** Resizing is exact and never evicts a live holder.  After a bucket is synchronised to
    [n] slots, every index below [n] exists; a row inside the range, or outside it with a
    live lease (or held without one), is exactly as it was; every row left outside the range
    is one of those, so no slot beyond the new size is free to be acquired; other buckets
    are untouched. *)
Theorem sync_exact clk b n t :
  let t' := fst (sync_one clk b n t) in
  (forall i, 0 <= i < n -> is_Some (rows t' b !! i)) /\
  (forall i s, rows t b !! i = Some s -> 0 <= i < n \/ acquirable (clk 2%nat i) s = false ->
     rows t' b !! i = Some s) /\
  (forall i s, rows t' b !! i = Some s -> ~ (0 <= i < n) ->
     rows t b !! i = Some s /\ acquirable (clk 2%nat i) s = false) /\
  (forall b', b' <> b -> rows t' b' = rows t b').
Proof.
  cbn zeta. split_and!.
  - intros i Hi. rewrite sync_one_lookup. destruct (rows t b !! i); rewrite decide_True by done; eauto.
  - intros i s Hs Hor. rewrite sync_one_lookup, Hs. case_decide; [done|].
    destruct Hor as [?| ->]; done.
  - intros i s. rewrite sync_one_lookup. intros Hs Hn. destruct (rows t b !! i) as [s0|]; rewrite decide_False in Hs by done;
      [|done]. destruct (acquirable (clk 2%nat i) s0) eqn:E; simplify_eq. done.
  - intros b' Hne. unfold sync_one. cbn [fst]. by rewrite rows_insert, decide_False.
Qed.

(** ** Reclaiming idle keyed buckets *)

Lemma sweep_idle_rows st horizon batch t b :
  rows (sweep_idle_keyed_slots st horizon batch t) b =
  if bool_decide (b ∈ stale_window st horizon batch t) && reclaimable st horizon (rows t b)
  then ∅ else rows t b.
Proof.
  unfold sweep_idle_keyed_slots. rewrite rows_imap.
  - by destruct (_ && _).
  - destruct (_ && _); auto.
Qed.

(** Idle reclaim takes a bucket whole or leaves it whole.  Whatever the window, the sweep
    either leaves every row of a bucket as it is, or removes all of them, and then every row
    was keyed, unused past the horizon, and free or expired: a static declaration, a fresh
    sibling or one live lease protects the whole bucket. *)
Theorem idle_sweep_whole_bucket st horizon batch t b :
  let t' := sweep_idle_keyed_slots st horizon batch t in
  rows t' b = rows t b \/
  (rows t' b = ∅ /\ forall i s, rows t b !! i = Some s ->
     s_keyed s = true /\ s_last_used s < st - horizon /\ acquirable st s = true).
Proof.
  cbn zeta. rewrite sweep_idle_rows. destruct (_ && _) eqn:E; [right|by left].
  split; [done|]. apply andb_true_iff in E as [_ E]. unfold reclaimable in E.
  rewrite !andb_true_iff, !bool_decide_eq_true in E. destruct E as [[H1 H2] H3].
  intros i s Hs. split_and!; [exact (H2 _ _ Hs)|exact (H1 _ _ Hs)|exact (H3 _ _ Hs)].
Qed.

(** Buckets in use can fill the window.  The heartbeat extends leases without refreshing
    [last_used_at], so a bucket held by one job for longer than the horizon counts as stale;
    when every bucket of the window holds a live lease the sweep removes nothing at all,
    however many reclaimable buckets wait behind it. *)
Theorem idle_sweep_starved st horizon batch t :
  (forall b, b ∈ stale_window st horizon batch t ->
     exists i s, rows t b !! i = Some s /\ acquirable st s = false) ->
  forall b, rows (sweep_idle_keyed_slots st horizon batch t) b = rows t b.
Proof.
  intros Hw b. rewrite sweep_idle_rows. destruct (bool_decide _) eqn:E; [|done].
  apply bool_decide_eq_true in E. destruct (Hw _ E) as (i & s & Hs & Ha).
  unfold reclaimable. rewrite (bool_decide_eq_false_2 (map_Forall (fun _ s => acquirable st s = true) _)).
  { by rewrite andb_false_r. }
  intros Hf. by rewrite (Hf _ _ Hs) in Ha.
Qed.

(** The two pre-allocations treat an existing row's mark differently.  Over a keyed row, a
    static PostgreSQL [ensure_slots] retires the mark, while the in-memory one leaves it. *)
Theorem ensure_mark_diverges clk b n i t m s :
  rows t b !! i = Some s -> s_keyed s = true -> 0 <= i < n -> twin m t ->
  (exists s1, rows (ensure_slots clk b n false t) b !! i = Some s1 /\ s_keyed s1 = false) /\
  (exists m1, default ∅ (mem_ensure_slots b n false m !! b) !! i = Some m1 /\ m_keyed m1 = true).
Proof.
  intros Hs Hk Hi Ht. split.
  - unfold ensure_slots. rewrite rows_insert, decide_True by done.
    assert (Hin : i ∈ range n) by (apply elem_of_seqZ; lia).
    assert (Hgen : forall l (r : bucket_rows) s, r !! i = Some s -> i ∈ l \/ s_keyed s = false ->
      exists s1, foldl (ensure_row clk false) r l !! i = Some s1 /\ s_keyed s1 = false).
    { induction l as [|k l IH]; intros r s0 Hr Hor.
      - destruct Hor as [Hn|?]; [by apply elem_of_nil in Hn|]. eauto.
      - simpl. unfold ensure_row at 2. destruct (decide (k = i)) as [->|Hne].
        + rewrite Hr. eapply IH; [apply lookup_insert_eq|right]. simpl. apply andb_false_r.
        + assert (Hl : i ∈ l \/ s_keyed s0 = false).
          { destruct Hor as [Hn|?]; [left|by right]. apply elem_of_cons in Hn as [->|]; done. }
          destruct (r !! k); eapply IH; try exact Hl; by rewrite lookup_insert_ne. }
    eapply Hgen; eauto.
  - unfold mem_ensure_slots. rewrite lookup_insert_eq. cbn [default]. rewrite (Ht b).
    assert (Hgen : forall l (r : gmap Z mslot) m0, r !! i = Some m0 ->
      foldl (fun (r : gmap Z mslot) i => match r !! i with None => <[i := free_mslot false]> r | Some _ => r end) r l
        !! i = Some m0).
    { induction l as [|k l IH]; intros r m0 Hr; [done|]. simpl. apply IH.
      destruct (r !! k) eqn:E; [done|]. rewrite lookup_insert_ne; [done|congruence]. }
    exists (erase s). split; [|done]. apply Hgen. by rewrite lookup_fmap, Hs.
Qed.

(** ** Witnesses *)

Definition demo_held (e : Z) : slot :=
  {| s_job := Some 5; s_worker := Some 7; s_acquired := Some 10; s_lease := Some e;
     s_keyed := true; s_last_used := 10 |}.

Definition demo_table : table := {[ "b"%string := {[ 0 := demo_held 50 ]} ]}.

(** A keyed bucket in use and an orphan used later; both past the horizon. *)
Definition demo_idle : table :=
  {[ "live"%string := {[ 0 := demo_held 1000 ]};
     "orphan"%string := {[ 0 := fresh_slot true 20 ]} ]}.

Lemma demo_twin : twin {[ "b"%string := {[ 0 := erase (demo_held 50) ]} ]} demo_table.
Proof.
  intros b. unfold rows, demo_table. destruct (decide (b = "b"%string)) as [->|Hn].
  - reflexivity.
  - by rewrite !lookup_singleton_ne.
Qed.

Definition demo_granted : table :=
  match acquire (fun _ _ => 60) ∅ "b" 6 8 1000 demo_table with Ok (t, _) => t | Err _ => ∅ end.

Lemma lease_fence_witness :
  let t2 := release 70 "b" 0 8 (Some 60) demo_granted in
  (exists s, rows t2 "b" !! 0 = Some s /\ s_acquired s = Some 60 /\ s_job s = Some 6 /\ s_worker s = Some 8 /\
     forall c, release c "b" 0 8 (Some 60) t2 =
       <["b"%string := <[0 := clear_slot s <| s_last_used := c |>]> (rows t2 "b")]> t2) \/
  (forall n3 t3 c w', rtc rstep (70, t2) (n3, t3) -> release c "b" 0 w' (Some 60) t3 = t3).
Proof.
  apply (lease_fence (fun _ _ => 60) ∅ "b" 6 8 1000 demo_table demo_granted 0 60 55 60 70).
  - lia.
  - vm_compute. reflexivity.
  - apply rtc_once. apply R_release. lia.
Defined.

Lemma acquire_decides_witness :
  exists after, acquire (fun _ _ => 20) ∅ "b" 6 8 1000 demo_table = Err (ReservationUnavailable "b" after) /\
  "b"%string = "b"%string /\
  (forall k s, rows demo_table "b" !! k = Some s -> acquirable 20 s = false) /\
  (forall clk', (forall p k, 20 + after <= clk' p k) -> earliest_held (fun _ _ => 20) "b" demo_table <> None ->
     exists t' l, acquire clk' ∅ "b" 6 8 1000 demo_table = Ok (t', l)).
Proof.
  pose proof (acquire_decides (fun _ _ => 20) "b" 6 8 1000 demo_table) as Hd.
  assert (E : acquire (fun _ _ => 20) ∅ "b" 6 8 1000 demo_table = Err (ReservationUnavailable "b" 500030))
    by (vm_compute; reflexivity).
  rewrite E in Hd. exists 500030. split; [exact E|]. apply Hd. intros i s e Hs He.
  change (rows demo_table "b") with ({[0 := demo_held 50]} : gmap Z slot) in Hs.
  apply lookup_singleton_Some in Hs as [_ <-]. injection He as <-. reflexivity.
Defined.

Lemma memory_table_agrees_witness :
  let m : mtable := {[ "b"%string := {[ 0 := erase (demo_held 50) ]} ]} in
  match acquire (fun _ _ => 60) ∅ "b" 9 8 (30 * usec_per_sec) demo_table,
        mem_acquire 60 "b" 9 8 (30 * usec_per_sec) m with
  | Ok (t', l), Ok (m', l') => l = l' /\ twin m' t'
  | Err e, Err e' => e = e'
  | _, _ => False
  end /\
  twin (fst (mem_release "b" 0 8 None m)) (release 60 "b" 0 8 None demo_table) /\
  twin (fst (mem_sync_slots 60 "b" 3 m)) (fst (sync_one (fun _ _ => 60) "b" 3 demo_table)).
Proof.
  intros m. destruct (memory_table_agrees 60 "b" m demo_table) as (Ha & Hr & Hs).
  - apply demo_twin.
  - intros i s Hs. change (rows demo_table "b") with ({[0 := demo_held 50]} : gmap Z slot) in Hs.
    apply lookup_singleton_Some in Hs as [<- _]. lia.
  - intros i s e Hs He. change (rows demo_table "b") with ({[0 := demo_held 50]} : gmap Z slot) in Hs.
    apply lookup_singleton_Some in Hs as [_ <-]. injection He as <-. reflexivity.
  - split; [apply Ha; vm_compute; intuition congruence|]. split; [apply Hr|apply Hs].
Defined.

(** The orphan would be reclaimed on its own; behind the bucket in use, with a window of one
    bucket, nothing is. *)
Lemma idle_sweep_starved_witness :
  rows (sweep_idle_keyed_slots 100 50 1 {[ "orphan"%string := {[ 0 := fresh_slot true 20 ]} ]}) "orphan" = ∅ /\
  rows (sweep_idle_keyed_slots 100 50 1 demo_idle) "orphan" = {[ 0 := fresh_slot true 20 ]}.
Proof.
  split; [vm_compute; reflexivity|].
  rewrite (idle_sweep_starved 100 50 1 demo_idle); [reflexivity|].
  intros b Hb. assert (E : stale_window 100 50 1 demo_idle = ["live"%string]) by (vm_compute; reflexivity).
  rewrite E in Hb. apply list_elem_of_singleton in Hb as ->.
  exists 0, (demo_held 1000). split; vm_compute; reflexivity.
Defined.

Lemma ensure_mark_diverges_witness :
  (exists s1, rows (ensure_slots (fun _ _ => 60) "b" 1 false demo_table) "b" !! 0 = Some s1 /\ s_keyed s1 = false) /\
  (exists m1, default ∅ (mem_ensure_slots "b" 1 false {[ "b"%string := {[ 0 := erase (demo_held 50) ]} ]} !! "b"%string)
     !! 0 = Some m1 /\ m_keyed m1 = true).
Proof.
  apply (ensure_mark_diverges (fun _ _ => 60) "b" 1 0 demo_table _ (demo_held 50)).
  - reflexivity.
  - reflexivity.
  - lia.
  - apply demo_twin.
Defined.
