(* ===== verification/Batch.v ===== *)
(** * Batches

    [src/taskq/backend/_batch_sql.py], the terminal-outcome hook of [src/taskq/batch.py], the
    failure policy of [src/taskq/batch_policy.py], the membership lock of
    [src/taskq/backend/_enqueue.py] and the stale-batch sweep of
    [src/taskq/worker/_leader_shared.py].

    First the statements, each as one uncontended call: [locked] says whether the bounded wait
    for the batches row was granted.  Then the same statements as steps of concurrent
    transactions on one batch ([world]): the row lock, what a transaction has written and not
    committed, and the stale-batch statement that took its snapshot before it got the row. *)

From Stdlib Require Import ZArith Lia QArith.
From stdpp Require Import base tactics list gmap strings sorting.
From S2P Require Import Prelude PyFloat Retry JobRow Terminal Control Sweeps Upkeep Lifecycle Reservation.

Open Scope Z_scope.

Definition COMPLETE_TAIL_RECHECK_MAX_OPEN : Z := 16.
Definition UUID_MIN : Z := 0.

(** ** The failure policy *)

Inductive batch_err := ValueError | BatchIdExistsError.

(** [AbortBatchAfter(consecutive_failures=n)]: the threshold it carries. *)
Definition AbortBatchAfter (n : Z) : result batch_err Z := if n <? 1 then Err ValueError else Ok n.

Definition should_abort (threshold n : Z) : bool := threshold <=? n.

(** ** Members *)

(** [metadata->>'batch_id' = id]. *)
Definition member (b : Z) (j : job) : bool :=
  match batch_of j with Ok (Some u) => u =? b | _ => false end.

(** [open_member_where]. *)
Definition open_member (b : Z) (j : job) : bool := member b j && negb (terminal (status j)).

Definition open_members (b : Z) (js : gmap Z job) : list (Z * job) :=
  filter (fun x => open_member b x.2 = true) (map_to_list js).

(** [count_batch_non_terminal]. *)
Definition count_batch_non_terminal (b : Z) (d : db) : Z := Z.of_nat (length (open_members b (jobs d))).

(** [NOT EXISTS (SELECT 1 FROM jobs WHERE open_member)]. *)
Definition all_terminal (b : Z) (js : gmap Z job) : bool := bool_decide (open_members b js = []).

Definition active (r : batch) : bool := match b_status r with b_active => true | _ => false end.

Definition set_batch (b : Z) (r : batch) (d : db) : db := d <| batches ::= fun m => <[b := r]> m |>.

(** ** Statements *)

(** [create_batch]. *)
Definition create_batch (b : Z) (threshold : option Z) (d : db) : result batch_err db :=
  if match threshold with Some n => n <? 1 | None => false end then Err ValueError
  else match batches d !! b with
       | Some _ => Err BatchIdExistsError
       | None => Ok (set_batch b {| b_status := b_active; b_completed_at := None; b_failures := 0;
                                    b_threshold := threshold |} d)
       end.

(** The UPDATE of an active row and its new value. *)
Definition bump_failures (r : batch) : option batch :=
  if active r then Some (r <| b_failures ::= fun n => n + 1 |>) else None.

Definition clear_failures (r : batch) : option batch :=
  if active r && negb (b_failures r =? 0) then Some (r <| b_failures := 0 |>) else None.

Definition flip_aborted (now : Z) (r : batch) : option batch :=
  if active r then Some (r <| b_status := b_aborted |> <| b_completed_at := Some now |>) else None.

Definition flip_complete (now : Z) (r : batch) : option batch :=
  if active r then Some (r <| b_status := b_complete |> <| b_completed_at := Some now |>) else None.

(** [increment_batch_failures]: the count, the threshold and the open members. *)
Definition increment_batch_failures (locked : bool) (b : Z) (d : db) : db * (Z * option Z * Z) :=
  if locked then
    match batches d !! b ≫= bump_failures with
    | Some r => (set_batch b r d, (b_failures r, b_threshold r, count_batch_non_terminal b d))
    | None => (d, (0, None, 0))
    end
  else (d, (0, None, 0)).

(** [reset_batch_failures]: the open members where it wrote, zero otherwise. *)
Definition reset_batch_failures (locked : bool) (b : Z) (d : db) : db * Z :=
  if locked then
    match batches d !! b ≫= clear_failures with
    | Some r => (set_batch b r d, count_batch_non_terminal b d)
    | None => (d, 0)
    end
  else (d, 0).

(** [complete_batch]: the tail gate, then the lock and the guarded write.  The result says
    whether the attempt arbitrated. *)
Definition complete_batch (locked : bool) (now b : Z) (d : db) : db * bool :=
  if COMPLETE_TAIL_RECHECK_MAX_OPEN <? count_batch_non_terminal b d then (d, false)
  else if locked then
    match batches d !! b ≫= flip_complete now with
    | Some r => if all_terminal b (jobs d) then (set_batch b r d, true) else (d, true)
    | None => (d, true)
    end
  else (d, true).

(** [PostgresBackend.complete_batch]: whether the caller owes a re-arbitration. *)
Definition backend_complete_batch (in_transaction locked : bool) (now b : Z) (d : db) : db * bool :=
  let '(d', arbitrated) := complete_batch locked now b d in
  (d', in_transaction && negb arbitrated).

(** [complete_stale_batches], as one uncontended statement over the candidates [ids]. *)
Definition stale (d : db) (b : Z) : bool :=
  match batches d !! b with Some r => active r && all_terminal b (jobs d) | None => false end.

Definition complete_stale_batches (now : Z) (batch_size : nat) (d : db) : db * nat :=
  let ids := take batch_size (filter (fun b => stale d b = true) (map fst (map_to_list (batches d)))) in
  (foldl (fun d b => match batches d !! b ≫= flip_complete now with
                     | Some r => set_batch b r d
                     | None => d
                     end) d ids,
   length ids).

(** [_lock_batch_membership]: a terminal row refuses the append. *)
Definition lock_batch_membership (bs : list Z) (d : db) : result batch_err unit :=
  if existsb (fun b => match batches d !! b with Some r => negb (active r) | None => false end) bs
  then Err BatchIdExistsError else Ok ().

(** ** The abort drain *)

Definition abortable (b cursor : Z) (x : Z * job) : Prop :=
  member b x.2 = true /\ waiting (status x.2) = true /\ cursor < x.1.

#[export] Instance abortable_dec b cursor x : Decision (abortable b cursor x).
Proof. unfold abortable. apply _. Defined.

(** The ids a page windows, in order. *)
Definition page_ids (b cursor : Z) (batch_size : nat) (d : db) : list Z :=
  map fst (take batch_size (filter (abortable b cursor) (in_order (jobs d)))).

(** One page: its rows are cancelled, each at its own readings of the clock. *)
Definition abort_page (clk : nat -> Z -> Z) (b cursor : Z) (batch_size : nat) (d : db) : db * list Z :=
  let ids := page_ids b cursor batch_size d in
  (d <| jobs ::= fun js => map_imap (fun id j => Some (if bool_decide (id ∈ ids)
                                                       then abort_set (clk 0%nat id) (clk 1%nat id) j else j)) js |>,
   ids).

(** The loop over pages; [None] is fuel run out. *)
Fixpoint abort_drain (fuel : nat) (clk : nat -> Z -> Z) (b : Z) (batch_size : nat) (cursor total : Z) (d : db) :
    option (db * Z) :=
  match fuel with
  | O => None
  | S fuel' =>
      let '(d', ids) := abort_page clk b cursor batch_size d in
      let total' := total + Z.of_nat (length ids) in
      if bool_decide (length ids < batch_size)%nat then Some (d', total')
      else match last ids with
           | None => Some (d', total')
           | Some c => abort_drain fuel' clk b batch_size c total' d'
           end
  end.

(** [abort_batch].  Each full page windows a fresh id, so one page a job and one more is fuel
    enough; a page size below one is refused. *)
Definition abort_batch (locked : bool) (now : Z) (clk : nat -> Z -> Z) (b : Z) (batch_size : nat) (d : db) :
    result batch_err (db * option Z) :=
  match batch_size with
  | O => Err ValueError
  | S _ =>
      if locked then
        let d1 := match batches d !! b ≫= flip_aborted now with Some r => set_batch b r d | None => d end in
        Ok match abort_drain (S (size (jobs d))) clk b batch_size UUID_MIN 0 d1 with
           | Some (d2, n) => (d2, Some n)
           | None => (d1, None)
           end
      else Ok (d, Some 0)
  end.

(** ** The terminal-outcome hook *)

Inductive hook_outcome := H_outcome (o : AttemptOutcome) | H_noop.

(** [apply_batch_terminal_outcome] of a job of batch [b], in a transaction or not; [locks i]
    is the outcome of the [i]-th wait for the row. *)
Definition apply_batch_terminal_outcome (in_transaction : bool) (locks : nat -> bool) (now : Z)
    (clk : nat -> Z -> Z) (batch_size : nat) (raw_bid : option Z) (o : hook_outcome) (d : db) :
    result batch_err (db * bool) :=
  match raw_bid with
  | None => Ok (d, false)
  | Some b =>
      match o with
      | H_noop | H_outcome (A_snoozed | A_reservation_denied | A_rate_limit_denied | A_scheduled) =>
          Ok (d, false)
      | H_outcome A_succeeded =>
          let '(d1, _) := reset_batch_failures (locks 0%nat) b d in
          Ok (backend_complete_batch in_transaction (locks 1%nat) now b d1)
      | H_outcome A_failed =>
          let '(d1, (count, threshold, _)) := increment_batch_failures (locks 0%nat) b d in
          if match threshold with Some n => n <=? count | None => false end then
            let* x := abort_batch (locks 1%nat) now clk b batch_size d1 in Ok (fst x, false)
          else Ok (backend_complete_batch in_transaction (locks 1%nat) now b d1)
      | H_outcome (A_cancelled | A_crashed) =>
          Ok (backend_complete_batch in_transaction (locks 1%nat) now b d)
      end
  end.

(** [prune_old_batches]: one statement, then the loop until a window comes back short. *)
Definition prunable (cutoff : Z) (d : db) (x : Z * batch) : Prop :=
  match b_completed_at x.2 with Some t => t < cutoff | None => False end /\
  Forall (fun y => member x.1 y.2 = false) (map_to_list (jobs d)).

#[export] Instance prunable_dec cutoff d x : Decision (prunable cutoff d x).
Proof. unfold prunable. destruct (b_completed_at x.2); apply _. Defined.

Definition prune_page (cutoff : Z) (batch_size : nat) (d : db) : db * nat :=
  let ids := map fst (take batch_size (filter (prunable cutoff d) (map_to_list (batches d)))) in
  (d <| batches ::= fun m => foldl (fun m b => base.delete b m) m ids |>, length ids).

Fixpoint prune_old_batches (fuel : nat) (cutoff : Z) (batch_size : nat) (total : nat) (d : db) :
    option (db * nat) :=
  match fuel with
  | O => None
  | S fuel' =>
      let '(d', n) := prune_page cutoff batch_size d in
      if bool_decide (n = 0%nat) then Some (d', total)
      else if bool_decide (n < batch_size)%nat then Some (d', (total + n)%nat)
      else prune_old_batches fuel' cutoff batch_size (total + n) d'
  end.

(** ** Concurrent transactions on one batch

    PostgreSQL under READ COMMITTED: a statement sees the rows committed before it started
    and its own transaction's writes.  The batches row is locked by an append from its
    membership lock to its commit, and by the transaction of a counter write, an abort or a
    completion from that write to its commit. *)

Inductive tx :=
| Appending (new : gmap Z job)                  (* members inserted, not committed *)
| Writing (r : batch) (own : gmap Z job).       (* the new batches row, and job rows written *)

Record world := {
  committed : db;
  open_tx : option tx;      (* the transaction that holds the batches row *)
  sweep_due : bool              (* a stale-batch statement chose the batch and waits for its row *)
}.

(** Job rows an open transaction has locked. *)
Definition held (t : option tx) : gmap Z job :=
  match t with Some (Writing _ own) => own | _ => ∅ end.

(** The batches-row writes: the counters, the abort's flip, the guarded completion over the
    rows [js] the transaction sees. *)
Definition batch_write (now b : Z) (js : gmap Z job) (r r' : batch) : Prop :=
  bump_failures r = Some r' \/ clear_failures r = Some r' \/ flip_aborted now r = Some r' \/
  (flip_complete now r = Some r' /\ all_terminal b js = true).

(** Membership is not rewritten: no snooze's metadata names another batch. *)
Definition same_members (b : Z) (d d' : db) : Prop :=
  forall id j u, jobs d !! id = Some j -> jobs d' !! id = Some u -> member b u = member b j.

Definition untouched (ids : gmap Z job) (d d' : db) : Prop :=
  forall id, is_Some (ids !! id) -> jobs d' !! id = jobs d !! id.

Section world.
Context `{Rounding}.

Inductive wstep (b : Z) : world -> world -> Prop :=
| w_jobs d d' t s : step d d' -> same_members b d d' -> untouched (held t) d d' ->
    wstep b {| committed := d; open_tx := t; sweep_due := s |} {| committed := d'; open_tx := t; sweep_due := s |}
| w_page clk cursor n d t s : untouched (held t) d (fst (abort_page clk b cursor n d)) ->
    wstep b {| committed := d; open_tx := t; sweep_due := s |}
            {| committed := fst (abort_page clk b cursor n d); open_tx := t; sweep_due := s |}
| w_enqueue id j d t s : jobs d !! id = None -> member b j = false ->
    wstep b {| committed := d; open_tx := t; sweep_due := s |} {| committed := write_row id j d; open_tx := t; sweep_due := s |}
| w_append_begin r d s : batches d !! b = Some r -> active r = true ->
    wstep b {| committed := d; open_tx := None; sweep_due := s |}
            {| committed := d; open_tx := Some (Appending ∅); sweep_due := s |}
| w_append_insert id j new d s : jobs d !! id = None ->
    wstep b {| committed := d; open_tx := Some (Appending new); sweep_due := s |}
            {| committed := d; open_tx := Some (Appending (<[id := j]> new)); sweep_due := s |}
| w_append_commit new d s : new ##ₘ jobs d ->
    wstep b {| committed := d; open_tx := Some (Appending new); sweep_due := s |}
            {| committed := d <| jobs ::= fun js => new ∪ js |>; open_tx := None; sweep_due := s |}
| w_write now r r' own d s :
    batches d !! b = Some r ->
    (forall id u, own !! id = Some u ->
       exists j, jobs d !! id = Some j /\ row_change j u /\ member b u = member b j) ->
    batch_write now b (own ∪ jobs d) r r' ->
    wstep b {| committed := d; open_tx := None; sweep_due := s |}
            {| committed := d; open_tx := Some (Writing r' own); sweep_due := s |}
| w_commit r own d s :
    wstep b {| committed := d; open_tx := Some (Writing r own); sweep_due := s |}
            {| committed := set_batch b r (d <| jobs ::= fun js => own ∪ js |>); open_tx := None; sweep_due := s |}
| w_rollback t d s :
    wstep b {| committed := d; open_tx := Some t; sweep_due := s |} {| committed := d; open_tx := None; sweep_due := s |}.

(** The stale-batch statement: its snapshot, then its UPDATE once the row is free.  The
    UPDATE re-checks the status of the row, not the members. *)
Inductive sweep_step (b : Z) : world -> world -> Prop :=
| sw_snapshot r d t s : batches d !! b = Some r -> active r = true -> all_terminal b (jobs d) = true ->
    sweep_step b {| committed := d; open_tx := t; sweep_due := s |} {| committed := d; open_tx := t; sweep_due := true |}
| sw_update now r r' d : batches d !! b = Some r -> flip_complete now r = Some r' ->
    sweep_step b {| committed := d; open_tx := None; sweep_due := true |}
                 {| committed := set_batch b r' d; open_tx := None; sweep_due := false |}
| sw_miss r d t : batches d !! b = Some r -> active r = false ->
    sweep_step b {| committed := d; open_tx := t; sweep_due := true |} {| committed := d; open_tx := t; sweep_due := false |}.

(** An operator's retry of a job: its reopen locks the batches row only where it matches, a
    committed terminal row. *)
Inductive retry_step (b : Z) : world -> world -> Prop :=
| rt_retry clk id d d' x t s :
    retry_job clk id d = Ok (d', x) -> held t !! id = None ->
    (forall r, batches d !! b = Some r -> active r = false -> t = None) ->
    retry_step b {| committed := d; open_tx := t; sweep_due := s |} {| committed := d'; open_tx := t; sweep_due := s |}.

End world.
