(* ===== verification/BatchProps.v ===== *)
(** * Batches: abort, completion and its races

    The abort drain against cancelling every member at once; the failure streak; and, over
    [Batch]'s concurrent transactions, what completion guarantees and where it does not. *)

From Stdlib Require Import ZArith Lia QArith.
From stdpp Require Import base tactics list gmap strings sorting.
From S2P Require Import Prelude PyFloat Retry JobRow Terminal Control Sweeps Upkeep Progress Lifecycle.
From S2P Require Import Reservation ReservationProps Batch.

Open Scope Z_scope.

(** ** The abort drain *)

(** Every waiting member above [cursor] cancelled in one stroke. *)
Definition cancel_members (clk : nat -> Z -> Z) (b cursor : Z) (js : gmap Z job) : gmap Z job :=
  map_imap (fun id j => Some (if decide (abortable b cursor (id, j))
                              then abort_set (clk 0%nat id) (clk 1%nat id) j else j)) js.

Definition to_abort (b cursor : Z) (js : gmap Z job) : list (Z * job) :=
  filter (abortable b cursor) (in_order js).

Lemma elem_of_to_abort b cursor js x :
  x ∈ to_abort b cursor js <-> abortable b cursor x /\ js !! x.1 = Some x.2.
Proof. unfold to_abort. rewrite list_elem_of_filter, elem_of_in_order. done. Qed.

Lemma to_abort_sorted b cursor js : StronglySorted by_index (to_abort b cursor js).
Proof. apply StronglySorted_filter', in_order_sorted. Qed.

Lemma to_abort_NoDup b cursor js : NoDup (map fst (to_abort b cursor js)).
Proof.
  apply NoDup_fmap_fst; [|apply NoDup_filter, NoDup_in_order].
  intros i j k Hj Hk. apply elem_of_to_abort in Hj as [_ Hj]. apply elem_of_to_abort in Hk as [_ Hk].
  simpl in *. congruence.
Qed.

(** A full page splits the members at its last id. *)
Lemma page_split b cursor js n c :
  (0 < n)%nat -> (n <= length (to_abort b cursor js))%nat ->
  last (map fst (take n (to_abort b cursor js))) = Some c ->
  cursor < c /\
  (forall x, x ∈ to_abort b cursor js -> x.1 ∈ map fst (take n (to_abort b cursor js)) <-> x.1 <= c).
Proof.
  intros Hn Hlen Hlast. set (l := to_abort b cursor js) in *.
  pose proof (to_abort_sorted b cursor js) as Hs. pose proof (to_abort_NoDup b cursor js) as Hnd.
  fold l in Hs, Hnd.
  assert (Hl : exists l0 y, take n l = l0 ++ [y] /\ y.1 = c).
  { apply last_Some in Hlast as [ids E]. apply map_eq_app in E as (l0 & l1 & E & _ & E1).
    destruct l1 as [|y [|]]; simplify_eq/=. eauto. }
  destruct Hl as (l0 & y & Hl & Hy). rewrite Hl. rewrite <- (take_drop n l), Hl in Hs, Hnd.
  assert (Hin : y ∈ l) by (rewrite <- (take_drop n l), Hl; set_solver).
  split.
  { apply elem_of_to_abort in Hin as [(_ & _ & Hc) _]. lia. }
  intros x Hx. rewrite <- (take_drop n l), Hl in Hx. split.
  - intros Hin'. apply list_elem_of_fmap in Hin' as (z & E & Hz). rewrite E, <- Hy.
    apply elem_of_app in Hz as [Hz|Hz]; [|by apply list_elem_of_singleton in Hz as ->].
    rewrite <- app_assoc in Hs. apply (StronglySorted_app_1_elem_of by_index l0 ([y] ++ drop n l)) with (x1 := z) (x2 := y) in Hs; [done..|set_solver].
  - intros Hle. apply elem_of_app in Hx as [Hx|Hx]; [by apply list_elem_of_fmap_2|exfalso].
    rewrite <- app_assoc in Hs, Hnd.
    assert (Hyx : by_index y x).
    { apply StronglySorted_app in Hs as (_ & _ & Hs). inversion Hs as [|? ? _ Hf]; subst.
      rewrite Forall_forall in Hf. by apply Hf. }
    unfold by_index in Hyx. assert (E : x.1 = y.1) by lia.
    rewrite map_app in Hnd. apply NoDup_app in Hnd as (_ & _ & Hnd). simpl in Hnd.
    apply NoDup_cons in Hnd as [Hnd _]. apply Hnd. rewrite <- E. by apply list_elem_of_fmap_2.
Qed.

Lemma to_abort_after b cursor c js js' :
  cursor < c ->
  (forall id, c < id -> js' !! id = js !! id) ->
  to_abort b c js' = filter (fun x => c < x.1) (to_abort b cursor js).
Proof.
  intros Hc Hjs. unfold to_abort. rewrite list_filter_filter.
  rewrite (in_order_filter_ext (abortable b c) js' js).
  - apply filter_in_iff. intros x _. unfold abortable. split; [|naive_solver].
    intros (? & ? & ?). split_and!; done || lia.
  - intros x (_ & _ & Hx). by rewrite Hjs.
Qed.

Lemma drop_above b cursor js n c :
  (0 < n)%nat -> (n <= length (to_abort b cursor js))%nat ->
  last (map fst (take n (to_abort b cursor js))) = Some c ->
  filter (fun x => c < x.1) (to_abort b cursor js) = drop n (to_abort b cursor js).
Proof.
  intros Hn Hlen Hlast. destruct (page_split b cursor js n c Hn Hlen Hlast) as [_ Hs].
  set (l := to_abort b cursor js) in *. rewrite <- (take_drop n l) at 1. rewrite filter_app.
  assert (Hnd : NoDup (map fst l)) by apply to_abort_NoDup.
  rewrite <- (take_drop n l), map_app in Hnd. apply NoDup_app in Hnd as (_ & Hnd & _).
  rewrite (filter_in_iff _ (fun _ => False) (take n l)), (filter_in_iff _ (fun _ => True) (drop n l)).
  - assert (Hf : forall l' : list (Z * job), filter (fun _ => False) l' = []) by (by induction l').
    assert (Ht : forall l' : list (Z * job), filter (fun _ => True) l' = l').
    { induction l' as [|x l' IH]; [done|]. rewrite filter_cons_True by done. by rewrite IH. }
    by rewrite Hf, Ht.
  - intros x Hx. assert (Hxl : x ∈ l) by (rewrite <- (take_drop n l); set_solver).
    split; [done|]. intros _. destruct (Z.lt_ge_cases c x.1) as [|Hge]; [done|exfalso].
    apply (Hs x Hxl) in Hge. apply (Hnd x.1 Hge). by apply list_elem_of_fmap_2.
  - intros x Hx. assert (Hxl : x ∈ l) by (rewrite <- (take_drop n l); set_solver).
    split; [|done]. intros Hlt. assert (x.1 <= c); [|lia]. apply (Hs x Hxl). by apply list_elem_of_fmap_2.
Qed.

(** The rows after a page over the ids [ids]. *)
Definition page_jobs (clk : nat -> Z -> Z) (ids : list Z) (js : gmap Z job) : gmap Z job :=
  map_imap (fun id j => Some (if bool_decide (id ∈ ids)
                              then abort_set (clk 0%nat id) (clk 1%nat id) j else j)) js.

Lemma elem_of_page b cursor js n id j :
  js !! id = Some j -> id ∈ map fst (take n (to_abort b cursor js)) -> (id, j) ∈ to_abort b cursor js.
Proof.
  intros Hj Hin. apply list_elem_of_fmap in Hin as ([id' j'] & -> & Hx).
  apply elem_of_take in Hx as (k & Hk & _). apply list_elem_of_lookup_2 in Hk.
  pose proof Hk as Hk'. apply elem_of_to_abort in Hk' as [_ Hj']. simpl in *. rewrite Hj in Hj'. by simplify_eq.
Qed.

(** A short page is the last. *)
Lemma short_page clk b cursor js n :
  (length (to_abort b cursor js) <= n)%nat ->
  page_jobs clk (map fst (take n (to_abort b cursor js))) js = cancel_members clk b cursor js.
Proof.
  intros Hlen. unfold page_jobs, cancel_members. apply map_eq. intros id. rewrite !map_lookup_imap.
  destruct (js !! id) as [j|] eqn:Hj; [|done]. simpl. f_equal.
  destruct (decide (abortable b cursor (id, j))) as [Ha|Ha].
  - rewrite bool_decide_true; [done|]. rewrite take_ge by done.
    apply (list_elem_of_fmap_2 fst _ (id, j)). by apply elem_of_to_abort.
  - rewrite bool_decide_false; [done|]. intros Hin. apply (elem_of_page b cursor js n id j Hj) in Hin.
    apply elem_of_to_abort in Hin as [? _]. done.
Qed.

(** A full page ending at [c] leaves the rows above [c] to the pages after it. *)
Section full_page.
Context (clk : nat -> Z -> Z) (b cursor : Z) (js : gmap Z job) (n : nat) (c : Z).
Context (Hn : (0 < n)%nat) (Hlen : (n <= length (to_abort b cursor js))%nat).
Context (Hc : last (map fst (take n (to_abort b cursor js))) = Some c).
#[local] Abbreviation ids := (map fst (take n (to_abort b cursor js))).

Lemma page_above id : c < id -> page_jobs clk ids js !! id = js !! id.
Proof.
  intros Hid. destruct (page_split b cursor js n c Hn Hlen Hc) as [_ Hs].
  unfold page_jobs. rewrite map_lookup_imap. destruct (js !! id) as [j|] eqn:Hj; [|done].
  simpl. rewrite bool_decide_false; [done|]. intros Hin.
  pose proof (elem_of_page b cursor js n id j Hj Hin) as Hx. apply (Hs _ Hx) in Hin. simpl in Hin. lia.
Qed.

Lemma full_page_next : to_abort b c (page_jobs clk ids js) = drop n (to_abort b cursor js).
Proof.
  destruct (page_split b cursor js n c Hn Hlen Hc) as [Hcc _].
  rewrite (to_abort_after b cursor c js _ Hcc page_above). by apply drop_above.
Qed.

Lemma full_page_then : cancel_members clk b c (page_jobs clk ids js) = cancel_members clk b cursor js.
Proof.
  destruct (page_split b cursor js n c Hn Hlen Hc) as [Hcc Hs].
  apply map_eq. intros id. unfold cancel_members, page_jobs. rewrite !map_lookup_imap.
  destruct (js !! id) as [j|] eqn:Hj; [|done]. simpl. f_equal.
  destruct (decide (abortable b cursor (id, j))) as [Ha|Ha].
  - assert (Hin : (id, j) ∈ to_abort b cursor js) by (by apply elem_of_to_abort). specialize (Hs _ Hin).
    simpl in Hs. destruct (bool_decide (id ∈ ids)) eqn:Ei.
    + apply bool_decide_eq_true, Hs in Ei. rewrite decide_False; [done|]. unfold abortable. simpl. lia.
    + apply bool_decide_eq_false in Ei. rewrite decide_True; [done|]. unfold abortable in *. simpl in *.
      split_and!; [naive_solver..|]. destruct (Z.lt_ge_cases c id); [done|tauto].
  - rewrite bool_decide_false.
    + rewrite decide_False; [done|]. intros Ha'. apply Ha. unfold abortable in *. simpl in *. intuition lia.
    + intros Hin. apply (elem_of_page b cursor js n id j Hj), elem_of_to_abort in Hin as [? _]. done.
Qed.
End full_page.

Lemma abort_drain_all fuel clk b n cursor total d :
  (0 < n)%nat -> (length (to_abort b cursor (jobs d)) < fuel)%nat ->
  abort_drain fuel clk b n cursor total d =
    Some (d <| jobs := cancel_members clk b cursor (jobs d) |>,
          total + Z.of_nat (length (to_abort b cursor (jobs d)))).
Proof.
  intros Hn. revert cursor total d. induction fuel as [|fuel IH]; intros cursor total d Hf; [lia|].
  cbn [abort_drain]. unfold abort_page, page_ids. fold (to_abort b cursor (jobs d)).
  set (ids := map fst (take n (to_abort b cursor (jobs d)))).
  assert (Hlids : length ids = Nat.min n (length (to_abort b cursor (jobs d))))
    by (unfold ids; by rewrite length_map, length_take).
  destruct (bool_decide (length ids < n)%nat) eqn:E.
  - apply bool_decide_eq_true in E.
    rewrite <- (short_page clk b cursor (jobs d) n) by lia.
    replace (Z.of_nat (length ids)) with (Z.of_nat (length (to_abort b cursor (jobs d)))) by lia. done.
  - apply bool_decide_eq_false in E. assert (Hlen : (n <= length (to_abort b cursor (jobs d)))%nat) by lia.
    destruct (last ids) as [c|] eqn:Hc.
    2:{ apply last_None in Hc. rewrite Hc in Hlids. simpl in Hlids. lia. }
    rewrite IH; simpl; fold (page_jobs clk ids (jobs d)).
    + rewrite Hlids. unfold ids. rewrite full_page_next, full_page_then, length_drop by done.
      f_equal. f_equal. lia.
    + unfold ids. rewrite full_page_next, length_drop by done. lia.
Qed.

(** ** Job statements leave the batches table alone *)

Section batches_kept.
Context `{Rounding}.

Lemma insert_attempt_batches id att st fi o c m t du w due d d' :
  insert_attempt id att st fi o c m t du w due d = Ok d' -> batches d' = batches d.
Proof. intros Hi. apply insert_attempt_ledger in Hi as [Hl _]. apply (lw_rest _ _ _ _ Hl). Qed.

Lemma claim_rows_batches wf clk w l ids d : batches (claim_rows wf clk w l ids d) = batches d.
Proof.
  revert clk d. induction ids as [|i ids IH]; intros clk d; [done|]. cbn [claim_rows]. rewrite IH.
  unfold claim_row. by destruct (select_row _ _ _).
Qed.

Lemma sweep_1_batches clk rows ms d :
  batches (sweep_1_events clk 0 rows (sweep_1_inserts clk 0 ms d)) = batches d.
Proof.
  assert (He : forall rows i d, batches (sweep_1_events clk i rows d) = batches d).
  { clear. induction rows as [|r rows IH]; intros i d; simpl; [done|]. by rewrite IH. }
  rewrite He. generalize 0%nat as i. revert d. induction ms as [|[r m] ms IH]; intros d i; simpl; [done|].
  rewrite IH. unfold sweep_1_attempt. case_match; [|done].
  match goal with |- context [match ?x with Ok _ => _ | Err _ => _ end] => destruct x eqn:E end; [|done].
  by apply insert_attempt_batches in E.
Qed.

Lemma sweep_2_batches clk rows ms d :
  batches (sweep_2_events clk 0 rows (sweep_2_inserts clk 0 ms d)) = batches d.
Proof.
  assert (He : forall rows i d, batches (sweep_2_events clk i rows d) = batches d).
  { clear. induction rows as [|r rows IH]; intros i d; simpl; [done|]. by rewrite IH. }
  rewrite He. generalize 0%nat as i. revert d. induction ms as [|[r m] ms IH]; intros d i; simpl; [done|].
  rewrite IH. unfold sweep_2_attempt.
  match goal with |- context [match ?x with Ok _ => _ | Err _ => _ end] => destruct x eqn:E end; [|done].
  by apply insert_attempt_batches in E.
Qed.

Lemma write_rows_batches rows d : batches (write_rows rows d) = batches d.
Proof. unfold write_rows. revert d. induction rows as [|r rows IH]; intros d; [done|]. simpl. by rewrite IH. Qed.

Lemma step_batches d d' : step d d' -> batches d' = batches d.
Proof.
  intros [w clk id f seq st d1 d2 o Hw|clk id seq st d1 d2 o Hm|id att row d1 d2 Ha|wf clk worker lease ids d1
    | |clk id reason d1|clk id worker phase d1 d2 x He|clk st cg clg mbs hd n d1 d2 rows Hs
    |clk st hd n d1 d2 rows Hs|st hd n d1|t1 t2 mbs id worker d1| | | | | | | |worker batch d1]; try done.
  - apply run_write_landed in Hw. destruct o as [u|]; [|by subst]. destruct Hw as (j & _ & _ & Ht). apply Ht.
  - unfold mark_abandoned in Hm. destruct (select_row _ _ _); [|by simplify_eq]. cbv zeta in Hm.
    inv_ok. simplify_eq. match goal with E : insert_attempt _ _ _ _ _ _ _ _ _ _ _ _ = _ |- _ =>
      apply insert_attempt_batches in E; simpl in *; congruence end.
  - unfold write_attempt, lift in *. destruct (insert_attempt _ _ _ _ _ _ _ _ _ _ _ _) eqn:E; simplify_eq.
    by apply insert_attempt_batches in E.
  - apply claim_rows_batches.
  - unfold write_cancel_request, cancel_request. simpl. by repeat case_match.
  - unfold write_cancel_escalation in He. repeat (case_match; simplify_eq/=; try done); inv_ok; by simplify_eq.
  - unfold sweep_expired_locks in Hs. inv_ok. simplify_eq. by rewrite sweep_1_batches, write_rows_batches.
  - unfold sweep_deadline_exceeded in Hs. inv_ok. simplify_eq. by rewrite sweep_2_batches, write_rows_batches.
  - unfold sweep_scheduled_to_pending. simpl. by rewrite ?write_rows_batches.
  - unfold isolate_job. by repeat case_match.
  - induction batch as [|x batch IH]; [done|]. cbn. destruct (flush_rows worker batch d1) as [d2 ret].
    destruct (jobs d1 !! sn_job x); [|done]. by destruct (flush_row _ _ _ _ _).
Qed.
End batches_kept.

(** ** Completion under concurrent transactions *)

Lemma all_terminal_spec b js :
  all_terminal b js = true <-> forall id j, js !! id = Some j -> open_member b j = false.
Proof.
  unfold all_terminal, open_members. rewrite bool_decide_eq_true. split.
  - intros Hn id j Hj. destruct (open_member b j) eqn:E; [|done]. exfalso.
    assert (Hin : (id, j) ∈ filter (fun x => open_member b x.2 = true) (map_to_list js)).
    { apply list_elem_of_filter. split; [done|]. by apply elem_of_map_to_list. }
    rewrite Hn in Hin. set_solver.
  - intros Hall. apply elem_of_nil_inv. intros [id j] Hin.
    apply list_elem_of_filter in Hin as [Ho Hin]. apply elem_of_map_to_list in Hin.
    simpl in Ho. by rewrite (Hall id j Hin) in Ho.
Qed.

(** An open member after was an open member before. *)
Definition calm (b : Z) (js js' : gmap Z job) : Prop :=
  forall id u, js' !! id = Some u -> open_member b u = true ->
    exists j, js !! id = Some j /\ open_member b j = true.

Lemma all_terminal_calm b js js' : calm b js js' -> all_terminal b js = true -> all_terminal b js' = true.
Proof.
  intros Hc Ha. apply all_terminal_spec. intros id u Hu. destruct (open_member b u) eqn:E; [|done].
  destruct (Hc id u Hu E) as (j & Hj & Ho). rewrite all_terminal_spec in Ha. by rewrite (Ha id j Hj) in Ho.
Qed.

(** The rows a transaction has locked hide what others commit beneath them. *)
Lemma calm_under b own js js' : calm b js js' -> calm b (own ∪ js) (own ∪ js').
Proof.
  intros Hc id u Hu Ho. destruct (own !! id) as [v|] eqn:Ev.
  - rewrite lookup_union_l' in * by eauto. eauto.
  - rewrite lookup_union_r in * by done. eauto.
Qed.

Section calm_steps.
Context `{Rounding}.

Lemma step_calm b d d' : step d d' -> same_members b d d' -> calm b (jobs d) (jobs d').
Proof.
  intros Hs Hm id u Hu Ho. pose proof (step_rows _ _ Hs id) as Hr. rewrite Hu in Hr.
  inversion Hr as [j u' Hc Hj|]; subst. exists j. split; [done|].
  unfold open_member in *. apply andb_true_iff in Ho as [Hmem Ht]. symmetry in Hj.
  rewrite <- (Hm id j u Hj Hu), Hmem. simpl. destruct (terminal (status j)) eqn:E; [|done].
  by rewrite (row_change_terminal_status _ _ Hc E), E in Ht.
Qed.
End calm_steps.

Lemma page_calm clk b cursor n d : calm b (jobs d) (jobs (fst (abort_page clk b cursor n d))).
Proof.
  intros id u Hu Ho. simpl in Hu. rewrite map_lookup_imap in Hu.
  destruct (jobs d !! id) as [j|] eqn:Hj; [|done]. simpl in Hu. exists j. split; [done|].
  case_bool_decide; simplify_eq/=; [|done]. unfold open_member in Ho. simpl in Ho.
  by rewrite andb_false_r in Ho.
Qed.

Lemma enqueue_calm b id j d : jobs d !! id = None -> member b j = false -> calm b (jobs d) (jobs (write_row id j d)).
Proof.
  intros Hn Hm id' u Hu Ho. simpl in Hu. apply lookup_insert_Some in Hu as [[<- <-]|[_ Hu]]; [|eauto].
  unfold open_member in Ho. by rewrite Hm in Ho.
Qed.

(** What holds of a batch between any two statements. *)
Definition batch_ok (b : Z) (w : world) : Prop :=
  exists r, batches (committed w) !! b = Some r /\
    (b_status r = b_complete -> all_terminal b (jobs (committed w)) = true) /\
    match open_tx w with
    | None => True
    | Some (Appending _) => active r = true
    | Some (Writing r' own) => active r = true /\
        (b_status r' = b_complete -> all_terminal b (own ∪ jobs (committed w)) = true)
    end.

Lemma batch_ok_calm b d d' t s s' :
  batches d' = batches d -> calm b (jobs d) (jobs d') ->
  batch_ok b {| committed := d; open_tx := t; sweep_due := s |} ->
  batch_ok b {| committed := d'; open_tx := t; sweep_due := s' |}.
Proof.
  intros Hb Hc (r & Hr & Hcomp & Ht). exists r. simpl in *. rewrite Hb.
  split_and!; [done|eauto using all_terminal_calm|].
  destruct t as [[new|r' own]|]; [done| |done]. destruct Ht as [Ha Hw]. split; [done|].
  intros E. eapply all_terminal_calm; [|by apply Hw]. by apply calm_under.
Qed.

Lemma batch_write_ok now b js r r' :
  batch_write now b js r r' -> active r = true /\ (b_status r' = b_complete -> all_terminal b js = true).
Proof.
  unfold batch_write, bump_failures, clear_failures, flip_aborted, flip_complete.
  destruct (active r) eqn:Ha; [|naive_solver]. unfold active in Ha.
  intros [E|[E|[E|[E Hj]]]]; (split; [done|]); simpl in E;
    repeat case_match; simplify_eq/=; done || congruence.
Qed.

Section completion.
Context `{Rounding}.

Lemma wstep_ok b w w' : wstep b w w' -> batch_ok b w -> batch_ok b w'.
Proof.
  intros [d d' t s Hs Hm _|clk cursor n d t s _|id j d t s Hn Hm|r d s Hr Ha|id j new d s _|new d s _
    |now r r' own d s Hr _ Hw|r own d s|t d s].
  - apply batch_ok_calm; [by apply step_batches|by apply step_calm].
  - apply batch_ok_calm; [done|apply page_calm].
  - apply batch_ok_calm; [done|by apply enqueue_calm].
  - intros (r' & Hr' & Hc & _). exists r'. simpl in *. rewrite Hr in Hr'. by simplify_eq.
  - intros (r' & Hr' & Hc & Ha). by exists r'.
  - intros (r & Hr & _ & Ha). exists r. simpl in *. split_and!; [done| |done].
    intros E. unfold active in Ha. by rewrite E in Ha.
  - intros (r0 & Hr0 & Hc & _). simpl in *. rewrite Hr in Hr0. simplify_eq.
    exists r0. split_and!; [done..|]. simpl. by apply (batch_write_ok now).
  - intros (r0 & Hr0 & _ & Ha & Hw). exists r. simpl in *. rewrite lookup_insert_eq. by split_and!.
  - intros (r & Hr & Hc & _). by exists r.
Qed.

(** C36: A batch completes only once every member is terminal.  Over any interleaving of job
    statements, appends, counter writes, aborts and guarded completions on a batch that
    starts active, a batch whose row says complete has no member that is still open. *)
Theorem complete_means_terminal b d r w :
  batches d !! b = Some r -> active r = true ->
  rtc (wstep b) {| committed := d; open_tx := None; sweep_due := false |} w ->
  forall r', batches (committed w) !! b = Some r' -> b_status r' = b_complete ->
  all_terminal b (jobs (committed w)) = true.
Proof.
  intros Hr Ha Hw r' Hr' Hc.
  assert (Hok : batch_ok b w).
  { eapply (rtc_ind_r (fun w => batch_ok b w)); [| |exact Hw].
    - exists r. simpl. split_and!; [done| |done]. intros E. unfold active in Ha. by rewrite E in Ha.
    - intros ? ? _ Hs. by apply wstep_ok. }
  destruct Hok as (r0 & Hr0 & Hok & _). rewrite Hr' in Hr0. simplify_eq. by apply Hok.
Qed.
End completion.

Lemma abort_drain_counts b js :
  (forall id j, js !! id = Some j -> UUID_MIN < id) ->
  length (to_abort b UUID_MIN js) =
    length (filter (fun x => member b x.2 = true /\ waiting (status x.2) = true) (map_to_list js)).
Proof.
  intros Hid. unfold to_abort, in_order. apply Permutation_length.
  rewrite (filter_in_iff _ (abortable b UUID_MIN) (map_to_list js)).
  - by rewrite merge_sort_Permutation.
  - intros [id j] Hin. apply elem_of_map_to_list, Hid in Hin. unfold abortable. simpl. tauto.
Qed.

(** [abort_batch] with the row's lock granted, in closed form. *)
Lemma abort_batch_all now clk b n d :
  (0 < n)%nat ->
  abort_batch true now clk b n d =
    Ok (match batches d !! b ≫= flip_aborted now with Some r => set_batch b r d | None => d end
          <| jobs := cancel_members clk b UUID_MIN (jobs d) |>,
        Some (Z.of_nat (length (to_abort b UUID_MIN (jobs d))))).
Proof.
  intros Hn. unfold abort_batch. destruct n as [|n]; [lia|].
  set (d1 := match batches d !! b ≫= flip_aborted now with Some r => set_batch b r d | None => d end).
  assert (E : jobs d1 = jobs d) by (unfold d1; by destruct (_ ≫= _)).
  rewrite abort_drain_all, E; [done|lia|]. rewrite E. unfold to_abort, in_order.
  rewrite (Permutation_length (filter_Permutation _ _ _ (merge_sort_Permutation by_index _))).
  rewrite <- length_map_to_list. pose proof (length_filter (abortable b UUID_MIN) (map_to_list (jobs d))). lia.
Qed.

(** Aborting a batch cancels every waiting member and nothing else.  With the row's lock
    granted, a page size of at least one and no job under the nil id, the paged drain
    terminates: each pending or scheduled member is cancelled with the batch-aborted error,
    every other row is as it was, the count it reports is the number cancelled, and an active
    batch is aborted. *)
Theorem abort_batch_cancels_waiting now clk b n d r :
  (0 < n)%nat -> (forall id j, jobs d !! id = Some j -> UUID_MIN < id) ->
  batches d !! b = Some r -> active r = true ->
  exists d' k, abort_batch true now clk b n d = Ok (d', Some k) /\
    (forall id, jobs d' !! id =
       (fun j => if member b j && waiting (status j) then abort_set (clk 0%nat id) (clk 1%nat id) j else j)
         <$> jobs d !! id) /\
    k = Z.of_nat (length (filter (fun x => member b x.2 = true /\ waiting (status x.2) = true)
                            (map_to_list (jobs d)))) /\
    batches d' = <[b := r <| b_status := b_aborted |> <| b_completed_at := Some now |>]> (batches d) /\
    d' <| jobs := jobs d |> <| batches := batches d |> = d.
Proof.
  intros Hn Hid Hr Ha. rewrite abort_batch_all by done. eexists _, _. split; [done|].
  rewrite Hr. cbn [mbind option_bind]. unfold flip_aborted. rewrite Ha. split_and!.
  - intros id. cbn. unfold cancel_members. rewrite map_lookup_imap.
    destruct (jobs d !! id) as [j|] eqn:Hj; [|done]. simpl. f_equal. specialize (Hid id j Hj).
    destruct (decide (abortable b UUID_MIN (id, j))) as [(H1 & H2 & _)|Hna]; simpl in *.
    + by rewrite H1, H2.
    + destruct (member b j) eqn:E1, (waiting (status j)) eqn:E2; try done. exfalso. by apply Hna.
  - by rewrite abort_drain_counts.
  - done.
  - by destruct d.
Qed.

(** ** The failure streak *)

#[export] Instance outcome_eq_dec : EqDecision AttemptOutcome.
Proof. solve_decision. Defined.

(** Failures since the last success. *)
Definition streak_step (c : Z) (o : AttemptOutcome) : Z :=
  match o with A_succeeded => 0 | A_failed => c + 1 | _ => c end.

Definition streak (os : list AttemptOutcome) : Z := foldl streak_step 0 os.

Definition failures (os : list AttemptOutcome) : Z :=
  Z.of_nat (length (filter (fun o => o = A_failed) os)).

(** A run of [n] failures with no success among them, other outcomes allowed between. *)
Definition has_streak (n : Z) (os : list AttemptOutcome) : Prop :=
  exists pre mid post, os = pre ++ mid ++ post /\ A_succeeded ∉ mid /\ n <= failures mid.

Lemma failures_snoc os o : failures (os ++ [o]) = failures os + (if decide (o = A_failed) then 1 else 0).
Proof.
  unfold failures. rewrite filter_app, length_app, Nat2Z.inj_add. f_equal.
  destruct (decide (o = A_failed)); [by rewrite filter_cons_True|by rewrite filter_cons_False].
Qed.

Lemma streak_snoc os o : streak (os ++ [o]) = streak_step (streak os) o.
Proof. unfold streak. by rewrite foldl_app. Qed.

Lemma streak_nonneg os : 0 <= streak os.
Proof. induction os as [|o os IH] using rev_ind; [done|]. rewrite streak_snoc. destruct o; simpl; lia. Qed.

(** The streak is the failures of a success-free suffix, and no such suffix has more. *)
Lemma streak_suffix os : exists pre mid, os = pre ++ mid /\ A_succeeded ∉ mid /\ streak os = failures mid.
Proof.
  induction os as [|o os (pre & mid & -> & Hs & E)] using rev_ind.
  - exists [], []. split_and!; [done|apply not_elem_of_nil|done].
  - rewrite streak_snoc. destruct (decide (o = A_succeeded)) as [->|Hne].
    + exists ((pre ++ mid) ++ [A_succeeded]), []. split_and!; [by rewrite app_nil_r|apply not_elem_of_nil|done].
    + exists pre, (mid ++ [o]). rewrite app_assoc. split_and!; [done|set_solver|].
      rewrite failures_snoc, E. destruct o; simpl; done || lia.
Qed.

Lemma streak_max pre mid : A_succeeded ∉ mid -> failures mid <= streak (pre ++ mid).
Proof.
  induction mid as [|o mid IH] using rev_ind; intros Hs.
  - apply streak_nonneg.
  - rewrite app_assoc, streak_snoc, failures_snoc. assert (failures mid <= streak (pre ++ mid)) by (apply IH; set_solver).
    destruct o; simpl; try lia. set_solver.
Qed.

Lemma streak_has n os : n <= streak os -> has_streak n os.
Proof.
  intros Hn. destruct (streak_suffix os) as (pre & mid & E & Hs & Hm). exists pre, mid, [].
  rewrite app_nil_r. split_and!; [done..|lia].
Qed.

Lemma has_streak_snoc n os o : has_streak n (os ++ [o]) <-> has_streak n os \/ n <= streak (os ++ [o]).
Proof.
  split.
  - intros (pre & mid & post & E & Hs & Hn). destruct post as [|x post _] using rev_ind.
    + right. rewrite E, app_nil_r. pose proof (streak_max pre mid Hs). lia.
    + left. rewrite !app_assoc in E. apply app_inj_tail in E as [-> _]. exists pre, mid, post.
      by rewrite app_assoc.
  - intros [(pre & mid & post & -> & Hs & Hn)|Hn].
    + exists pre, mid, (post ++ [o]). by rewrite <- !app_assoc.
    + by apply streak_has.
Qed.

(** The hooks of a batch's members in the order they run, every wait granted. *)
Fixpoint hooks (now : Z) (clk : nat -> Z -> Z) (n : nat) (b : Z) (os : list AttemptOutcome) (d : db) :
    result batch_err db :=
  match os with
  | [] => Ok d
  | o :: os' => let* x := apply_batch_terminal_outcome false (fun _ => true) now clk n (Some b) (H_outcome o) d in
                hooks now clk n b os' (fst x)
  end.

Lemma hooks_app now clk n b os os' d :
  hooks now clk n b (os ++ os') d = (let* d1 := hooks now clk n b os d in hooks now clk n b os' d1).
Proof.
  revert d. induction os as [|o os IH]; intros d; [done|]. cbn [hooks app].
  destruct (apply_batch_terminal_outcome _ _ _ _ _ _ _ _) as [x|e]; cbn; [by rewrite IH|done].
Qed.

(** A running member keeps its batch open. *)
Lemma complete_batch_open now b d id j :
  jobs d !! id = Some j -> member b j = true -> status j = running ->
  fst (complete_batch true now b d) = d.
Proof.
  intros Hj Hm Hs. unfold complete_batch. case_match; [done|].
  destruct (_ ≫= _); [|done]. destruct (all_terminal b (jobs d)) eqn:E; [|done]. exfalso.
  rewrite all_terminal_spec in E. specialize (E id j Hj). unfold open_member in E. by rewrite Hm, Hs in E.
Qed.

Lemma backend_complete_open now b d id j :
  jobs d !! id = Some j -> member b j = true -> status j = running ->
  fst (backend_complete_batch false true now b d) = d.
Proof.
  intros Hj Hm Hs. unfold backend_complete_batch. rewrite <- (complete_batch_open now b d id j) at 2 by done.
  by destruct (complete_batch true now b d).
Qed.

(** One hook of a batch with a running member [id]: the row it leaves. *)
Section one_hook.
Context (now : Z) (clk : nat -> Z -> Z) (n : nat) (b id : Z) (j : job).
Context (Hn : (0 < n)%nat) (Hm : member b j = true) (Hs : status j = running).

(** The batch's row, and the member still running. *)
Definition row_is (r : batch) (d : db) : Prop := jobs d !! id = Some j /\ batches d !! b = Some r.

#[local] Abbreviation hook := (apply_batch_terminal_outcome false (fun _ => true) now clk n (Some b)).

Lemma row_is_set r r' d : row_is r d -> row_is r' (set_batch b r' d).
Proof. intros [Hj _]. split; [done|]. by apply lookup_insert_eq. Qed.

Lemma hook_complete r d :
  row_is r d -> exists d' x, Ok (backend_complete_batch false true now b d) = @Ok batch_err _ (d', x) /\ row_is r d'.
Proof.
  intros Hr. pose proof (backend_complete_open now b d id j (proj1 Hr) Hm Hs) as E.
  destruct (backend_complete_batch false true now b d) as [d' x]. simpl in E. subst d'. eauto.
Qed.

Lemma hook_abort r d :
  row_is r d -> exists d' x, abort_batch true now clk b n d = Ok (d', x) /\
    row_is (default r (flip_aborted now r)) d'.
Proof.
  intros [Hj Hb]. rewrite abort_batch_all by done. eexists _, _. split; [done|].
  rewrite Hb. cbn [mbind option_bind]. split.
  - cbn. unfold cancel_members. rewrite map_lookup_imap, Hj. cbn. f_equal. rewrite decide_False; [done|].
    unfold abortable. simpl. rewrite Hs. intros (_ & ? & _). done.
  - destruct (flip_aborted now r); cbn; [by apply lookup_insert_eq|done].
Qed.

Lemma hook_row o r d :
  row_is r d ->
  exists d' x, hook (H_outcome o) d = Ok (d', x) /\
    row_is (if active r then
              match o with
              | A_succeeded => r <| b_failures := 0 |>
              | A_failed => let r1 := r <| b_failures ::= fun c => c + 1 |> in
                            match b_threshold r with
                            | Some k => if k <=? b_failures r1 then default r1 (flip_aborted now r1) else r1
                            | None => r1
                            end
              | _ => r
              end
            else r) d'.
Proof.
  intros Hr. pose proof Hr as [Hj Hb]. destruct o; cbn [apply_batch_terminal_outcome];
    try (destruct (active r); by eexists _, _); try (destruct (active r); by apply hook_complete).
  - unfold reset_batch_failures. rewrite Hb. cbn [mbind option_bind]. unfold clear_failures.
    destruct (active r) eqn:Ha; cbn; [|by apply hook_complete].
    destruct (b_failures r =? 0) eqn:E; cbn; [|by eapply hook_complete, row_is_set].
    apply Z.eqb_eq in E. assert (Er : r <| b_failures := 0 |> = r) by (destruct r; cbn in *; by subst). cbn in Er.
    apply hook_complete. by rewrite Er.
  - unfold increment_batch_failures. rewrite Hb. cbn [mbind option_bind]. unfold bump_failures.
    destruct (active r) eqn:Ha; cbn; [|by apply hook_complete].
    pose proof (row_is_set r (r <| b_failures ::= fun c => c + 1 |>) d Hr) as Hr1. cbn in Hr1.
    destruct (b_threshold r) as [k|]; [|by apply hook_complete].
    destruct (k <=? b_failures r + 1); [|by apply hook_complete].
    destruct (hook_abort _ _ Hr1) as (d' & x & E & Hr'). cbn in E. rewrite E. by eexists _, _.
Qed.
End one_hook.

(** A batch is aborted by its failure streak and by nothing else.  While a member is still
    running, the hooks of any sequence of finished attempts abort an active batch with a
    failure threshold exactly when the sequence has that many failures with no success among
    them; until then the row is active and carries the failures since the last success. *)
Theorem streak_aborts now clk n b id j r k os d :
  (0 < n)%nat -> jobs d !! id = Some j -> member b j = true -> status j = running ->
  batches d !! b = Some r -> active r = true -> b_failures r = 0 ->
  b_threshold r = Some k -> 1 <= k ->
  exists d' r', hooks now clk n b os d = Ok d' /\ batches d' !! b = Some r' /\
    (has_streak k os -> b_status r' = b_aborted) /\
    (~ has_streak k os -> b_status r' = b_active /\ b_failures r' = streak os).
Proof.
  intros Hn Hj Hm Hs Hb Ha Hf Hk H1.
  assert (G : exists d' r', hooks now clk n b os d = Ok d' /\ row_is b id j r' d' /\
    (has_streak k os /\ b_status r' = b_aborted \/
     ~ has_streak k os /\ active r' = true /\ b_threshold r' = Some k /\ b_failures r' = streak os)).
  2:{ destruct G as (d' & r' & E & [_ Hr] & G). exists d', r'. split_and!; [done..| |];
        destruct G as [[? ?]|(? & Hac & _ & ?)]; try done.
      intros _. split; [|done]. unfold active in Hac. by destruct (b_status r'). }
  induction os as [|o os (d1 & r1 & E1 & Hr1 & G)] using rev_ind.
  - exists d, r. split_and!; [done..|]. right. split_and!; [|done..].
    intros (pre & mid & post & E & _ & Hc). destruct pre, mid; simplify_eq/=. unfold failures in Hc. simpl in Hc. lia.
  - destruct (hook_row now clk n b id j Hn Hm Hs o r1 d1 Hr1) as (d' & x & E & Hr').
    rewrite hooks_app, E1. cbn [hooks]. cbn in E |- *. rewrite E. eexists _, _. split; [done|]. split; [exact Hr'|].
    rewrite has_streak_snoc, streak_snoc. destruct G as [[Hst Hab]|(Hst & Hac & Hth & Hfa)].
    + left. split; [by left|]. unfold active. by rewrite Hab.
    + rewrite Hac. pose proof (streak_nonneg os). destruct o; unfold streak_step;
        try (right; split_and!; try done; intros [?|Hle]; [done|]; apply Hst, streak_has; lia).
      rewrite Hth. cbn. unfold flip_aborted. cbn. destruct (k <=? b_failures r1 + 1) eqn:Ek.
      * left. split; [right; lia|]. unfold active in *. cbn. by destruct (b_status r1).
      * right. split_and!; [|done..|cbn; lia]. intros [?|?]; [done|lia].
Qed.

(** ** The stale-batch sweep and the operator's retry *)

Section stale_sweep.
Context `{Rounding}.

Definition bstep (b : Z) (w w' : world) : Prop := wstep b w w' \/ sweep_step b w w'.

(** A terminal row no transaction holds stays as it is. *)
Lemma terminal_row_stays b w w' r :
  bstep b w w' -> batches (committed w) !! b = Some r -> active r = false -> open_tx w = None ->
  batches (committed w') !! b = Some r /\ open_tx w' = None.
Proof.
  intros [Hw|Hw] Hr Ha Ho.
  - destruct Hw as [d d' t s Hs _ _|clk cursor n d t s _|id j d t s _ _|r0 d s Hr0 Ha0|id j new d s _|new d s _
      |now r0 r' own d s Hr0 _ Hw|r0 own d s|t d s]; simpl in *; try done; try congruence.
    + by rewrite (step_batches _ _ Hs).
    + rewrite Hr in Hr0. simplify_eq. destruct (batch_write_ok _ _ _ _ _ Hw). congruence.
  - destruct Hw as [r0 d t s _ _ _|now r0 r' d Hr0 Hf|r0 d t _ _]; simpl in *; [done| |done].
    rewrite Hr in Hr0. simplify_eq. unfold flip_complete in Hf. by rewrite Ha in Hf.
Qed.

Lemma open_not_all_terminal b id j js : js !! id = Some j -> open_member b j = true -> all_terminal b js = false.
Proof.
  intros Hj Ho. destruct (all_terminal b js) eqn:E; [|done]. rewrite all_terminal_spec in E.
  by rewrite (E id j Hj) in Ho.
Qed.

(** The stale-batch sweep can complete a batch with open members.  From any active batch
    with no open member, when the sweep's statement takes its snapshot and a new open member is
    then appended and committed, its UPDATE still matches, since it re-checks the row's status
    and not its members: the batch is complete while the member is open, and no later
    statement on the batch other than an operator's retry changes the row. *)
Theorem stale_sweep_completes_open b d r id j now :
  batches d !! b = Some r -> active r = true -> all_terminal b (jobs d) = true ->
  jobs d !! id = None -> open_member b j = true ->
  exists w r', rtc (bstep b) {| committed := d; open_tx := None; sweep_due := false |} w /\
    batches (committed w) !! b = Some r' /\ b_status r' = b_complete /\ b_completed_at r' = Some now /\
    jobs (committed w) !! id = Some j /\ all_terminal b (jobs (committed w)) = false /\
    forall w', rtc (bstep b) w w' -> batches (committed w') !! b = Some r'.
Proof.
  intros Hr Ha Hall Hid Ho.
  set (r' := r <| b_status := b_complete |> <| b_completed_at := Some now |>).
  set (d' := d <| jobs ::= fun js => <[id := j]> ∅ ∪ js |>).
  assert (Hj : jobs d' !! id = Some j).
  { unfold d'. simpl. apply lookup_union_Some_l, lookup_insert_eq. }
  exists {| committed := set_batch b r' d'; open_tx := None; sweep_due := false |}, r'.
  split; [|split_and!; [by apply lookup_insert_eq|done|done|exact Hj|by eapply open_not_all_terminal|]].
  - eapply rtc_l; [right; by eapply (sw_snapshot b r)|].
    eapply rtc_l; [left; by eapply (w_append_begin b r)|].
    eapply rtc_l; [left; by apply (w_append_insert b id j)|].
    eapply rtc_l; [left; apply w_append_commit, map_disjoint_insert_l_2; [done|apply map_disjoint_empty_l]|].
    apply rtc_once. right. apply (sw_update b now r r'); [exact Hr|]. unfold flip_complete. by rewrite Ha.
  - intros w' Hw.
    assert (G : batches (committed w') !! b = Some r' /\ open_tx w' = None); [|by destruct G].
    eapply (rtc_ind_r (fun w => batches (committed w) !! b = Some r' /\ open_tx w = None)); [| |exact Hw].
    + split; [by apply lookup_insert_eq|done].
    + intros ? ? _ Hs [H1 H2]. by eapply terminal_row_stays.
Qed.

(** A retry that meets an uncommitted completion reopens nothing: the reopen reads the
    committed row, which is active, and the completion then commits over a pending member. *)
Theorem retry_misses_completion b d r id j (clk : nat -> Z) :
  batches d !! b = Some r -> active r = true -> all_terminal b (jobs d) = true ->
  jobs d !! id = Some j -> batch_of j = Ok (Some b) -> retry_job_where j = true ->
  exists w r', rtc (fun x y => wstep b x y \/ retry_step b x y)
      {| committed := d; open_tx := None; sweep_due := false |} w /\
    batches (committed w) !! b = Some r' /\ b_status r' = b_complete /\
    all_terminal b (jobs (committed w)) = false.
Proof.
  intros Hr Ha Hall Hj Hb Hw.
  set (r' := r <| b_status := b_complete |> <| b_completed_at := Some (clk 2%nat) |>).
  set (j' := retry_job_set (clk 0%nat) (clk 1%nat) j).
  set (d' := write_row id j' d).
  assert (Hrb : reopen_batch (Some b) d' = (d', false)).
  { unfold reopen_batch, d'. simpl. rewrite Hr. unfold active in Ha. destruct r as [[] ? ? ?]; done. }
  assert (Hret : retry_job clk id d = Ok (d', true)).
  { unfold retry_job, select_row. rewrite Hj. simpl. rewrite Hw, Hb. cbn -[reopen_batch]. fold j' d'. by rewrite Hrb. }
  exists {| committed := set_batch b r' (d' <| jobs ::= fun js => ∅ ∪ js |>); open_tx := None; sweep_due := false |}, r'.
  split; [|split_and!; [by apply lookup_insert_eq|done|]].
  - eapply rtc_l.
    { left. apply (w_write b (clk 2%nat) r r' ∅ d); [done|by intros ? ? ?%lookup_empty_Some|].
      right; right; right. rewrite map_empty_union. unfold flip_complete. by rewrite Ha. }
    eapply rtc_l; [right; apply (rt_retry b clk id d d' true); [done..|]|].
    { intros r0 Hr0 Ha0. congruence. }
    apply rtc_once. left. apply w_commit.
  - eapply (open_not_all_terminal b id j'); [simpl; rewrite map_empty_union; by apply lookup_insert_eq|].
    unfold open_member, member. replace (batch_of j') with (batch_of j) by done. by rewrite Hb, Z.eqb_refl.
Qed.
End stale_sweep.

(** ** Pruning *)

Lemma foldl_delete {A} (m : gmap Z A) ids i :
  foldl (fun m b => base.delete b m) m ids !! i = if decide (i ∈ ids) then None else m !! i.
Proof.
  revert m. induction ids as [|b ids IH]; intros m; cbn [foldl].
  - by rewrite decide_False by apply not_elem_of_nil.
  - rewrite IH. destruct (decide (i ∈ ids)) as [Hi|Hi]; [by rewrite decide_True by (by right)|].
    destruct (decide (i = b)) as [->|Hne].
    + rewrite lookup_delete_eq, decide_True; [done|by left].
    + rewrite lookup_delete_ne, decide_False; [done| |done]. by intros [?|?]%elem_of_cons.
Qed.

Lemma size_foldl_delete {A} (m : gmap Z A) ids :
  NoDup ids -> (forall i, i ∈ ids -> is_Some (m !! i)) ->
  (size (foldl (fun m b => base.delete b m) m ids) + length ids = size m)%nat.
Proof.
  intros Hnd. revert m. induction Hnd as [|b ids Hb _ IH]; intros m Hin; cbn [foldl length]; [lia|].
  destruct (Hin b) as [x Hx]; [by left|].
  assert (Hs : size m = S (size (base.delete b m))).
  { rewrite <- (insert_delete_id m b x Hx) at 1. apply map_size_insert_None, lookup_delete_eq. }
  rewrite Hs, Nat.add_succ_r. f_equal. apply IH.
  intros i Hi. rewrite lookup_delete_ne; [apply Hin; by right|]. by intros ->.
Qed.

(** A window of prunable batches deleted. *)
Section prune.
Context (cutoff : Z) (n : nat) (Hn : (0 < n)%nat).

Lemma prune_page_batches d i :
  batches (fst (prune_page cutoff n d)) !! i =
    if decide (i ∈ map fst (take n (filter (prunable cutoff d) (map_to_list (batches d)))))
    then None else batches d !! i.
Proof. apply foldl_delete. Qed.

Lemma prune_page_in d i :
  i ∈ map fst (take n (filter (prunable cutoff d) (map_to_list (batches d)))) ->
  exists r, batches d !! i = Some r /\ prunable cutoff d (i, r).
Proof.
  intros Hi. apply list_elem_of_fmap in Hi as ([i' r] & -> & Hx). apply elem_of_take in Hx as (k & Hk & _).
  apply list_elem_of_lookup_2, list_elem_of_filter in Hk as [Hp Hk]. apply elem_of_map_to_list in Hk. eauto.
Qed.

Lemma prune_page_size d :
  (size (batches (fst (prune_page cutoff n d))) + snd (prune_page cutoff n d) = size (batches d))%nat.
Proof.
  cbn. apply size_foldl_delete.
  - apply NoDup_fmap_fst.
    + intros i r1 r2 H1 H2. apply elem_of_take in H1 as (k1 & H1 & _). apply elem_of_take in H2 as (k2 & H2 & _).
      apply list_elem_of_lookup_2, list_elem_of_filter in H1 as [_ H1].
      apply list_elem_of_lookup_2, list_elem_of_filter in H2 as [_ H2].
      apply elem_of_map_to_list in H1, H2. congruence.
    + eapply sublist_NoDup; [|apply sublist_take]. apply NoDup_filter, NoDup_map_to_list.
  - intros i Hi. destruct (prune_page_in d i Hi) as (r & -> & _). eauto.
Qed.

(** The loop ends and leaves exactly the batches that are not prunable: not older than the
    cutoff, not terminal, or with a member left in the table. *)
Theorem prune_exact fuel total d :
  (size (batches d) < fuel)%nat ->
  exists d' total', prune_old_batches fuel cutoff n total d = Some (d', total') /\
    d' = d <| batches := filter (fun x => ~ prunable cutoff d x) (batches d) |> /\
    (total' + size (batches d') = total + size (batches d))%nat.
Proof.
  revert total d. induction fuel as [|fuel IH]; intros total d Hf; [lia|]. cbn [prune_old_batches].
  destruct (prune_page cutoff n d) as [d1 k] eqn:E.
  assert (Hd1 : d1 <| batches := batches d |> = d) by (unfold prune_page in E; simplify_eq; by destruct d).
  assert (Hp : forall x, prunable cutoff d1 x <-> prunable cutoff d x).
  { intros x. unfold prunable. unfold prune_page in E. by simplify_eq. }
  pose proof (prune_page_size d) as Hsz. pose proof (prune_page_batches d) as Hb.
  pose proof (prune_page_in d) as Hin. rewrite E in Hsz, Hb. cbn in Hsz, Hb.
  set (ids := map fst (take n (filter (prunable cutoff d) (map_to_list (batches d))))) in *.
  assert (Hk : k = length ids) by (unfold prune_page in E; by simplify_eq).
  assert (Hflt : filter (fun x => ~ prunable cutoff d1 x) (batches d1) = filter (fun x => ~ prunable cutoff d x) (batches d)).
  { apply map_eq. intros i. apply option_eq. intros r. rewrite !map_lookup_filter_Some, Hp, Hb.
    destruct (decide (i ∈ ids)) as [Hi|Hi]; [|done]. split; [by intros []|]. intros [Hr Hnp].
    destruct (Hin i Hi) as (r' & Hr' & ?). rewrite Hr in Hr'. by simplify_eq. }
  assert (Hshort : (k < n)%nat -> batches d1 = filter (fun x => ~ prunable cutoff d x) (batches d)).
  { intros Hlt. rewrite <- Hflt. symmetry. apply map_filter_id. intros i r Hr. rewrite Hp. rewrite Hb in Hr.
    destruct (decide (i ∈ ids)) as [|Hi]; [done|]. intros Hpr. apply Hi. unfold ids. unfold ids in Hk.
    rewrite length_map, length_take in Hk. rewrite take_ge by lia.
    apply (list_elem_of_fmap_2 fst _ (i, r)), list_elem_of_filter. split; [done|]. by apply elem_of_map_to_list. }
  assert (Hend : (k < n)%nat -> d1 = d <| batches := filter (fun x => ~ prunable cutoff d x) (batches d) |>).
  { intros Hlt. rewrite <- Hshort by done. rewrite <- Hd1 at 1. by destruct d1. }
  case_bool_decide as E0; [exists d1, total; split_and!; [done|apply Hend; lia|lia]|].
  case_bool_decide as E1; [exists d1, (total + k)%nat; split_and!; [done|by apply Hend|lia]|].
  destruct (IH (total + k)%nat d1) as (d' & total' & -> & -> & Ht); [lia|].
  eexists _, total'. split; [done|]. rewrite Hflt in *. split; [clear -Hd1; destruct d1, d; cbn in *; by simplify_eq|cbn in *; lia].
Qed.
End prune.

(** ** Witnesses *)

Definition demo_member (s : JobStatus) : job :=
  demo_job <| status := s |> <| metadata := {["batch_id"%string := JUuid 9]} |>.

Definition demo_batch : batch :=
  {| b_status := b_active; b_completed_at := None; b_failures := 0; b_threshold := Some 2 |}.

Definition demo_batch_db (js : gmap Z job) : db :=
  {| jobs := js; attempts := ∅; events := []; workers := {[7]}; result_ttl := ∅; batches := {[9 := demo_batch]} |}.

Definition demo_pages (_ : nat) (_ : Z) : Z := 100.

Lemma demo_ids (js : gmap Z job) :
  map_Forall (fun id _ => UUID_MIN < id) js -> forall id j, js !! id = Some j -> UUID_MIN < id.
Proof. intros Hf id j Hj. apply (Hf id j Hj). Qed.

Lemma abort_batch_cancels_waiting_witness :
  exists d', abort_batch true 100 demo_pages 9 1
               (demo_batch_db {[1 := demo_member running; 2 := demo_member pending; 3 := demo_member scheduled]})
             = Ok (d', Some 2).
Proof.
  set (d := demo_batch_db _).
  destruct (abort_batch_cancels_waiting 100 demo_pages 9 1 d demo_batch) as (d' & k & E & _ & Hk & _);
    [lia| |reflexivity|reflexivity|].
  - apply demo_ids. apply (bool_decide_unpack _). by vm_compute.
  - exists d'. rewrite E. vm_compute in Hk. by rewrite Hk.
Defined.

Lemma complete_means_terminal_witness :
  let d1 := fst (abort_page demo_pages 9 0 4 (demo_batch_db {[2 := demo_member pending]})) in
  let d2 := set_batch 9 (demo_batch <| b_status := b_complete |> <| b_completed_at := Some 5 |>)
              (d1 <| jobs ::= fun js => ∅ ∪ js |>) in
  all_terminal 9 (jobs d2) = true.
Proof.
  intros d1 d2.
  apply (complete_means_terminal 9 (demo_batch_db {[2 := demo_member pending]}) demo_batch
           {| committed := d2; open_tx := None; sweep_due := false |}) with
    (r' := demo_batch <| b_status := b_complete |> <| b_completed_at := Some 5 |>); try reflexivity.
  eapply rtc_l; [apply (w_page 9 demo_pages 0 4); intros ? [? Hu]; cbn in Hu; by rewrite lookup_empty in Hu|].
  eapply rtc_l; [|apply rtc_once, w_commit].
  apply (w_write 9 5 demo_batch); [reflexivity|intros ? ? Hu; by rewrite lookup_empty in Hu|].
  right; right; right. split; [reflexivity|by vm_compute].
Defined.

Lemma streak_aborts_witness :
  exists d' r', hooks 100 demo_pages 10 9 [A_failed; A_snoozed; A_failed]
                  (demo_batch_db {[1 := demo_member running]}) = Ok d' /\
    batches d' !! 9 = Some r' /\ b_status r' = b_aborted.
Proof.
  destruct (streak_aborts 100 demo_pages 10 9 1 (demo_member running) demo_batch 2
              [A_failed; A_snoozed; A_failed] (demo_batch_db {[1 := demo_member running]}))
    as (d' & r' & E & Hr & Hs & _); try reflexivity; [lia|lia|].
  exists d', r'. split_and!; [done..|]. apply Hs. exists [], [A_failed; A_snoozed; A_failed], [].
  split_and!; [reflexivity|by apply (bool_decide_unpack _); vm_compute|by vm_compute].
Defined.

Lemma stale_sweep_completes_open_witness :
  exists w r', rtc (bstep 9) {| committed := demo_batch_db ∅; open_tx := None; sweep_due := false |} w /\
    batches (committed w) !! 9 = Some r' /\ b_status r' = b_complete /\
    all_terminal 9 (jobs (committed w)) = false.
Proof.
  destruct (stale_sweep_completes_open 9 (demo_batch_db ∅) demo_batch 3 (demo_member pending) 50)
    as (w & r' & Hw & Hr & Hs & _ & _ & Ha & _); try reflexivity. by exists w, r'.
Defined.
