(* ===== verification/TokenBucket.v ===== *)
(** * Token buckets

    [src/taskq/ratelimit/token_bucket.py], the two token-bucket scripts of
    [src/taskq/ratelimit/_scripts.py], and the statements that publish and reclaim
    [rate_limit_buckets] rows ([src/taskq/ratelimit/registry.py],
    [src/taskq/backend/_sweeps.py]).

    Three stores keep a bucket: a Python object, a PostgreSQL row with a jsonb document, a
    Redis hash.  Floats are rationals rounded after each operation; an operation whose
    result leaves the range of floats gives infinity ([finite]).  Lua numbers are the same
    floats, and [tostring] keeps 14 significant digits ([sig14]). *)

From Stdlib Require Import ZArith Lia QArith Qround Lqa.
From stdpp Require Import base tactics list gmap strings sorting.
From S2P Require Import Prelude PyFloat Retry.

Open Scope Z_scope.

(** ** Bounds of the derived durations *)

Definition DEFAULT_FIXED_QUOTA_TTL : Z := 86400 * usec_per_sec.
Definition MAX_TTL : Z := 365 * 86400 * usec_per_sec.

(** [None] is an infinity or NaN. *)
Definition finite (q : Q) : option Q :=
  if Qle_bool (pow2 1024) q then None else Some q.

(** ** Rows of [rate_limit_buckets] *)

(** A value of the state document: a number, a text the float parsers read as NaN, a text
    they refuse, a JSON null. *)
Inductive dval := DNum (q : Q) | DNaN | DText | DNull.

Record document := {
  d_tokens : option dval;
  d_ts : option dval;
  d_capacity : option dval;
  d_refill : option dval
}.

Record brow := {
  b_state : document;
  b_keyed : bool;
  b_last_used : Z
}.

Abbreviation btable := (gmap string brow).

Section bucket.
Context `{Rounding}.

(** [_retry_after]. *)
Definition retry_hint (seconds : option Q) : Z :=
  match seconds with
  | None => MAX_TTL
  | Some s =>
      if Qle_bool s 0 then 0
      else if Qle_bool (total_seconds MAX_TTL) s then MAX_TTL
      else td_of_seconds s
  end.

(** [_default_ttl]. *)
Definition default_ttl (capacity refill : Q) : Z :=
  if Qeq_bool refill 0 then DEFAULT_FIXED_QUOTA_TTL
  else
    match finite (fadd (fmul (fdiv capacity refill) 2) 60) with
    | None => MAX_TTL
    | Some seconds =>
        if Qle_bool (total_seconds MAX_TTL) seconds then MAX_TTL
        else Qceiling seconds * usec_per_sec
    end.

(** [_compute_ttl_seconds]. *)
Definition ttl_seconds (ttl : Z) : Z := Z.max 1 (Qtrunc (total_seconds ttl)).

(** ** Decisions *)

Record decision := {
  allowed : bool;
  remaining : Q;
  retry_after : option Z
}.

Record snapshot := {
  is_exhausted : bool;
  tokens_remaining : Q;
  peek_retry : option Z
}.

(** The constructor's checks. *)
Inductive config_err := CapacityNotPositive | RefillNegative.

Record config := { capacity : Q; refill : Q }.

Definition new_config (c r : Q) : result config_err config :=
  if Qle_bool c 0 then Err CapacityNotPositive
  else if negb (Qle_bool 0 r) then Err RefillNegative
  else Ok {| capacity := c; refill := r |}.

(** [min(capacity, tokens + max(0.0, now - ts) * refill)]. *)
Definition refilled (k : config) (tokens ts now : Q) : Q :=
  fmin (capacity k) (fadd tokens (fmul (fmax 0 (fsub now ts)) (refill k))).

(** The hint of a denial: none for a fixed quota. *)
Definition denial_hint (k : config) (deficit : Q) : option Z :=
  if Qeq_bool (refill k) 0 then None
  else Some (retry_hint (finite (fdiv deficit (refill k)))).

(** Spending [count] of [tokens]: the count left and the decision. *)
Definition spend (k : config) (count tokens : Q) : Q * decision :=
  if Qle_bool count tokens then
    let rest := fsub tokens count in
    (rest, {| allowed := true; remaining := rest; retry_after := Some 0 |})
  else
    (tokens, {| allowed := false; remaining := tokens;
                retry_after := denial_hint k (fsub count tokens) |}).

Definition peeked (k : config) (tokens : Q) : snapshot :=
  {| is_exhausted := Qle_bool tokens 0;
     tokens_remaining := tokens;
     peek_retry :=
       if Qle_bool tokens 0 && negb (Qle_bool (refill k) 0)
       then Some (retry_hint (finite (fdiv (fsub 1 tokens) (refill k))))
       else None |}.

(** ** The in-memory bucket *)

Record bucket := { tokens : Q; ts : option Q }.

Definition new_bucket (k : config) : bucket := {| tokens := capacity k; ts := None |}.

Definition mem_acquire (k : config) (count now : Q) (b : bucket) : bucket * decision :=
  let since := match ts b with Some t => t | None => now end in
  let '(rest, d) := spend k count (refilled k (tokens b) since now) in
  ({| tokens := rest; ts := Some now |}, d).

Definition mem_refund (k : config) (count : Q) (b : bucket) : bucket :=
  {| tokens := fmin (capacity k) (fadd (tokens b) count); ts := ts b |}.

Definition mem_peek (k : config) (now : Q) (b : bucket) : snapshot :=
  peeked k (match ts b with
            | None => capacity k
            | Some t => refilled k (tokens b) t now
            end).

Definition mem_reset (k : config) (now : Q) (b : bucket) : bucket :=
  {| tokens := capacity k; ts := Some now |}.

(** [holds_consumed_quota] of a memory-backed bucket; the other backends answer [false]. *)
Definition holds_consumed_quota (k : config) (b : option bucket) : bool :=
  Qeq_bool (refill k) 0 &&
  match b with None => false | Some b => negb (Qle_bool (capacity k) (tokens b)) end.

(** ** The PostgreSQL row *)

(** [InvalidText] is PostgreSQL refusing a cast; [LockTimeout] the bounded row lock. *)
Inductive store_err := InvalidText | RateLimitStoreCorrupt | LockTimeout.

(** [(state->>'key')::float8]: NULL, NaN ([Some None]) or a number. *)
Definition sql_float (v : option dval) : result store_err (option (option Q)) :=
  match v with
  | None | Some DNull => Ok None
  | Some DNaN => Ok (Some None)
  | Some (DNum q) => Ok (Some (Some (rnd q)))
  | Some DText => Err InvalidText
  end.

(** [_state_payload]. *)
Definition state_payload (k : config) (t now : Q) : document :=
  {| d_tokens := Some (DNum t); d_ts := Some (DNum now);
     d_capacity := Some (DNum (capacity k)); d_refill := Some (DNum (refill k)) |}.

(** [_refilled]: PostgreSQL sorts NaN above every number, so [LEAST] drops it. *)
Definition sql_refilled (k : config) (old_tokens old_ts : option Q) (now : Q) : Q :=
  match old_tokens, old_ts with
  | Some t, Some s =>
      LEAST (capacity k) (fadd t (fmul (GREATEST (fsub (rnd now) s) 0) (refill k)))
  | _, _ => capacity k
  end.

Definition sql_spend (count tokens : Q) : Q * bool :=
  (if Qle_bool count tokens then fsub tokens count else tokens, Qle_bool count tokens).

(** The fused statement on the row of one bucket: [now] is [statement_timestamp()] in
    seconds (a numeric, stored as such), [stamp] the write's [clock_timestamp()].  The
    document's transient [granted] key is read only by RETURNING: it is the boolean returned. *)
Definition fused_acquire (k : config) (keyed : bool) (count now : Q) (stamp : Z)
    (r : option brow) : result store_err (brow * (Q * bool)) :=
  let* t := match r with
            | None => Ok (capacity k)
            | Some r =>
                let* tv := sql_float (d_tokens (b_state r)) in
                let* sv := sql_float (d_ts (b_state r)) in
                Ok (sql_refilled k (default (Some (capacity k)) tv) (default (Some (rnd now)) sv) now)
            end in
  let '(rest, granted) := sql_spend count t in
  Ok ({| b_state := state_payload k rest now; b_keyed := keyed; b_last_used := stamp |},
      (rest, granted)).

(** [_acquire_pg].  [locked] is the outcome of the bounded wait for the row, [budget] its
    length. *)
Definition acquire_pg (k : config) (name : string) (keyed : bool) (count now : Q) (stamp : Z)
    (locked : bool) (budget : Z) (t : btable) : result store_err (btable * decision) :=
  if locked then
    let* x := fused_acquire k keyed count now stamp (t !! name) in
    let '(r, (tokens_after, granted)) := x in
    Ok (<[name := r]> t,
        {| allowed := granted; remaining := tokens_after;
           retry_after := if granted then Some 0
                          else denial_hint k (fsub count tokens_after) |})
  else
    Ok (t, {| allowed := false; remaining := 0; retry_after := Some budget |}).

(** [float(state.get(key, missing))], where [None] is a NaN. *)
Definition py_float (missing : Q) (v : option dval) : result store_err (option Q) :=
  match v with
  | None => Ok (Some missing)
  | Some (DNum q) => Ok (Some (rnd q))
  | Some DNaN => Ok None
  | Some DText | Some DNull => Err RateLimitStoreCorrupt
  end.

(** The range check both readers apply to the stored count. *)
Definition honest_tokens (k : config) (v : option Q) : result store_err Q :=
  match v with
  | Some t => if Qle_bool 0 t && Qle_bool t (capacity k) then Ok t else Err RateLimitStoreCorrupt
  | None => Err RateLimitStoreCorrupt
  end.

(** [_refund_pg]; [max(0.0, now - ts)] of a NaN is [0.0]. *)
Definition refund_pg (k : config) (name : string) (count now_s : Q) (stamp : Z) (locked : bool)
    (t : btable) : result store_err btable :=
  if locked then
    match t !! name with
    | None => Ok t
    | Some r =>
        let now := rnd now_s in
        let* tv := py_float (capacity k) (d_tokens (b_state r)) in
        let* sv := py_float now (d_ts (b_state r)) in
        let* old := honest_tokens k tv in
        let grown := refilled k old (default now sv) now in
        let back := fmin (capacity k) (fadd grown count) in
        Ok (<[name := {| b_state := state_payload k back now; b_keyed := b_keyed r;
                         b_last_used := stamp |}]> t)
    end
  else Err LockTimeout.

(** [_peek_pg]: the stored count, without refill. *)
Definition peek_pg (k : config) (name : string) (t : btable) : result store_err snapshot :=
  match t !! name with
  | None => Ok (peeked k (capacity k))
  | Some r =>
      let* tv := py_float (capacity k) (d_tokens (b_state r)) in
      let* held := honest_tokens k tv in
      Ok (peeked k held)
  end.

Definition reset_pg (name : string) (t : btable) : btable := base.delete name t.

(** [_upsert_rate_limit_bucket_row]: an empty document, nothing over an existing row. *)
Definition upsert_row (name : string) (keyed : bool) (stamp : Z) (t : btable) : btable :=
  match t !! name with
  | Some _ => t
  | None => <[name := {| b_state := {| d_tokens := None; d_ts := None; d_capacity := None;
                                       d_refill := None |};
                         b_keyed := keyed; b_last_used := stamp |}]> t
  end.

(** *** Reclaiming rows *)

(** SQL comparison of two float8 values, NULL when either is; NaN is equal to itself and
    above every number. *)
Definition sql_cmp (a b : option (option Q)) : option comparison :=
  match a, b with
  | Some (Some x), Some (Some y) => Some (Qcompare x y)
  | Some None, Some None => Some Eq
  | Some None, Some (Some _) => Some Gt
  | Some (Some _), Some None => Some Lt
  | _, _ => None
  end.

(** [_no_consumed_quota_sql]: a disjunction, true when one of its proofs is. *)
Definition no_consumed_quota (d : document) : result store_err bool :=
  match d_tokens d with
  | None | Some DNull => Ok true
  | Some _ =>
      let* rv := sql_float (d_refill d) in
      let* tv := sql_float (d_tokens d) in
      let* cv := sql_float (d_capacity d) in
      Ok match sql_cmp rv (Some (Some 0%Q)) with
         | None => false
         | Some Eq => match sql_cmp tv cv with Some Eq | Some Gt => true | _ => false end
         | Some _ => true
         end
  end.

(** The rows of [expired]; PostgreSQL evaluates the predicate on rows that pass the cheap
    conditions, and a refused cast aborts the statement. *)
Definition idle_row (st horizon : Z) (r : brow) : result store_err bool :=
  if b_keyed r && (b_last_used r <? st - horizon) then no_consumed_quota (b_state r) else Ok false.

Definition by_age (x y : string * brow) : Prop :=
  b_last_used x.2 < b_last_used y.2 \/
  (b_last_used x.2 = b_last_used y.2 /\ String.leb x.1 y.1 = true).

#[export] Instance by_age_dec x y : Decision (by_age x y).
Proof. unfold by_age. apply _. Defined.

Definition is_idle (st horizon : Z) (x : string * brow) : Prop := idle_row st horizon x.2 = Ok true.

#[export] Instance is_idle_dec st horizon x : Decision (is_idle st horizon x).
Proof.
  unfold is_idle. destruct (idle_row st horizon x.2) as [[]|]; [left; done|right; done..].
Defined.

(** [_SWEEP_IDLE_KEYED_BUCKETS_SQL]. *)
Definition sweep_idle_keyed_buckets (st horizon : Z) (batch : nat) (t : btable) :
    result store_err btable :=
  let* _ := traverse (fun x => idle_row st horizon x.2) (map_to_list t) in
  let expired := take batch (merge_sort by_age (filter (is_idle st horizon) (map_to_list t))) in
  Ok (foldl (fun t x => base.delete x.1 t) t expired).

(** [_RECLAIM_RATE_LIMIT_SLICE_DELETE_SQL_TEMPLATE]: one name, then a slice of them. *)
Definition reclaim_name (acc : result store_err btable) (name : string) : result store_err btable :=
  let* t := acc in
  match t !! name with
  | None => Ok t
  | Some r =>
      let* safe := no_consumed_quota (b_state r) in
      Ok (if safe then base.delete name t else t)
  end.

Definition reclaim_slice (names : list string) (t : btable) : result store_err btable :=
  foldl reclaim_name (Ok t) names.

(** ** The Redis hash *)

(** [%.14g]: the nearest decimal with 14 significant digits, ties to even. *)
Fixpoint dec_expo (fuel : nat) (e : Z) (q : Q) : Z :=
  match fuel with
  | O => e
  | S fuel' =>
      if negb (Qle_bool (Qpower 10 e) q) then dec_expo fuel' (e - 1) q
      else if Qle_bool (Qpower 10 (e + 1)) q then dec_expo fuel' (e + 1) q
      else e
  end.

Definition sig14_pos (q : Q) : Q :=
  let e := dec_expo 700 0 q in
  (inject_Z (rne (q * Qpower 10 (13 - e))) * Qpower 10 (e - 13))%Q.

Definition sig14 (q : Q) : Q :=
  match Qcompare q 0 with
  | Eq => 0
  | Gt => sig14_pos q
  | Lt => - sig14_pos (- q)
  end.

(** The value of [tonumber(tostring(x))]. *)
Definition lua_text (x : Q) : Q := rnd (sig14 x).

Record rhash := { h_tokens : Q; h_ts : Q }.

(** The reply of the acquire script. *)
Record lua_reply := {
  l_allowed : Z;
  l_tokens : Q;
  l_retry : Q
}.

(** [_LUA_SRC]; [now] is TIME combined into seconds. *)
Definition lua_acquire (k : config) (req now : Q) (h : option rhash) : rhash * lua_reply :=
  let '(t0, s0) := match h with
                   | Some h => (h_tokens h, h_ts h)
                   | None => (capacity k, now)
                   end in
  let t := refilled k t0 s0 now in
  let granted := Qle_bool req t in
  let rest := if granted then fsub t req else t in
  let retry := if granted then 0%Q
               else if negb (Qle_bool (refill k) 0) then fdiv (fsub req t) (refill k) else 0%Q in
  ({| h_tokens := lua_text rest; h_ts := lua_text now |},
   {| l_allowed := if granted then 1 else 0; l_tokens := lua_text rest; l_retry := lua_text retry |}).

(** [_REFUND_SRC]. *)
Definition lua_refund (k : config) (amount now : Q) (h : option rhash) : option rhash :=
  match h with
  | None => None
  | Some h =>
      let t := refilled k (h_tokens h) (h_ts h) now in
      let back := fmin (capacity k) (fadd t amount) in
      Some {| h_tokens := lua_text back; h_ts := lua_text now |}
  end.

(** An element of a reply as [int()] and [float()] read it: a number, an infinity or NaN,
    something that is not a number. *)
Inductive reply_elem := RNum (q : Q) | RNonFinite | RText.

Definition elem_float (e : reply_elem) : result store_err (option Q) :=
  match e with RNum q => Ok (Some q) | RNonFinite => Ok None | RText => Err RateLimitStoreCorrupt end.

(** [_decode_lua_result] of a reply that is a list.  The verdict's [int()] truncates a
    number and refuses a non-finite one; NaN compares false with [0.0] and an infinite hint
    is passed on. *)
Definition decode_lua_result (cap : Q) (raw : list reply_elem) :
    result store_err (bool * Q * option Q) :=
  match raw with
  | [a; t; h] =>
      let* av := match a with
                 | RNum q => Ok (Qtrunc q)
                 | RNonFinite | RText => Err RateLimitStoreCorrupt
                 end in
      let* tv := elem_float t in
      let* hv := elem_float h in
      if negb ((av =? 0) || (av =? 1)) then Err RateLimitStoreCorrupt
      else
        match tv with
        | Some t =>
            if Qle_bool 0 t && Qle_bool t cap then
              match hv with
              | Some x => if negb (Qle_bool 0 x) then Err RateLimitStoreCorrupt
                          else Ok (av =? 1, t, Some x)
              | None => Ok (av =? 1, t, None)
              end
            else Err RateLimitStoreCorrupt
        | None => Err RateLimitStoreCorrupt
        end
  | _ => Err RateLimitStoreCorrupt
  end.

(** [_acquire_redis] over the store's reply. *)
Definition decide_redis (k : config) (raw : list reply_elem) : result store_err decision :=
  let* x := decode_lua_result (capacity k) raw in
  let '(ok, t, h) := x in
  Ok {| allowed := ok; remaining := t;
        retry_after := if ok then Some 0
                       else if Qeq_bool (refill k) 0 then None
                       else Some (retry_hint h) |}.

Definition reply_list (r : lua_reply) : list reply_elem :=
  [RNum (inject_Z (l_allowed r)); RNum (l_tokens r); RNum (l_retry r)].

(** [_acquire_redis] against the script itself. *)
Definition acquire_redis (k : config) (req now : Q) (h : option rhash) :
    rhash * result store_err decision :=
  let '(h', reply) := lua_acquire k req now h in (h', decide_redis k (reply_list reply)).

(** [_peek_redis] of the hash's two fields. *)
Definition peek_redis (k : config) (now : Q) (h : option rhash) : result store_err snapshot :=
  let '(t, s) := match h with Some h => (h_tokens h, h_ts h) | None => (capacity k, now) end in
  let* held := honest_tokens k (Some t) in
  Ok (peeked k (refilled k held s now)).

End bucket.
