(* ===== verification/TokenBucketProps.v ===== *)
(** * Token buckets: what the limiter guarantees

    Over [TokenBucket]: the rate bound of the in-memory bucket with its rounding error, its
    agreement with the PostgreSQL statement, the well-formedness of the rows the code writes,
    the fixed quota that no reclaim resets, and where the code departs from its comments. *)

From Stdlib Require Import ZArith Lia QArith Qround Qabs Lqa.
From stdpp Require Import base tactics list gmap strings sorting.
From S2P Require Import Prelude PyFloat Retry TokenBucket.

Open Scope Q_scope.

(** ** Boolean comparisons of rationals *)

Lemma Qle_bool_false a b : Qle_bool a b = false <-> b < a.
Proof.
  split; intros Hb.
  - destruct (Qlt_le_dec b a) as [|Hle]; [done|]. apply Qle_bool_iff in Hle. congruence.
  - destruct (Qle_bool a b) eqn:E; [|done]. apply Qle_bool_iff in E. lra.
Qed.

Ltac qbool :=
  repeat match goal with
  | H : Qle_bool _ _ = true |- _ => apply Qle_bool_iff in H
  | H : Qle_bool _ _ = false |- _ => apply Qle_bool_false in H
  | H : Qeq_bool _ _ = true |- _ => apply Qeq_bool_iff in H
  | H : Qeq_bool _ _ = false |- _ => apply Qeq_bool_neq in H
  | H : (_ && _)%bool = true |- _ => apply andb_true_iff in H; destruct H
  | H : negb _ = true |- _ => apply negb_true_iff in H
  | H : negb _ = false |- _ => apply negb_false_iff in H
  end.

#[export] Instance Qle_bool_proper : Proper (Qeq ==> Qeq ==> eq) Qle_bool.
Proof.
  intros a a' Ha b b' Hb. destruct (Qle_bool a b) eqn:E, (Qle_bool a' b') eqn:E'; qbool; lra || done.
Qed.

#[export] Instance fmin_proper : Proper (Qeq ==> Qeq ==> Qeq) fmin.
Proof. intros a a' Ha b b' Hb. fminmax; lra. Qed.

#[export] Instance fmax_proper : Proper (Qeq ==> Qeq ==> Qeq) fmax.
Proof. intros a a' Ha b b' Hb. fminmax; lra. Qed.

Section props.
Context `{Rounding}.

#[global] Instance fadd_proper : Proper (Qeq ==> Qeq ==> Qeq) fadd.
Proof. intros a a' Ha b b' Hb. unfold fadd. by rewrite Ha, Hb. Qed.
#[global] Instance fsub_proper : Proper (Qeq ==> Qeq ==> Qeq) fsub.
Proof. intros a a' Ha b b' Hb. unfold fsub. by rewrite Ha, Hb. Qed.
#[global] Instance fmul_proper : Proper (Qeq ==> Qeq ==> Qeq) fmul.
Proof. intros a a' Ha b b' Hb. unfold fmul. by rewrite Ha, Hb. Qed.
#[global] Instance fdiv_proper : Proper (Qeq ==> Qeq ==> Qeq) fdiv.
Proof. intros a a' Ha b b' Hb. unfold fdiv. by rewrite Ha, Hb. Qed.

#[global] Instance td_of_seconds_proper_pos :
  Proper ((fun a b => 0 <= a /\ a == b) ==> eq) td_of_seconds.
Proof.
  intros a b [Ha E]. apply Z.le_antisymm; apply td_of_seconds_mono; lra.
Qed.

(** A value that is a float. *)
Definition is_float (x : Q) : Prop := rnd x == x.

Lemma is_float_rnd x : is_float (rnd x).
Proof. apply rnd_idem. Qed.

Lemma is_float_0 : is_float 0.
Proof. apply rnd_0. Qed.

#[global] Instance is_float_proper : Proper (Qeq ==> iff) is_float.
Proof. intros a b E. unfold is_float. by rewrite E. Qed.

(** A configuration the constructor accepts. *)
Record config_ok (k : config) : Prop := {
  cap_pos : 0 < capacity k;
  cap_float : is_float (capacity k);
  refill_nonneg : 0 <= refill k;
  refill_float : is_float (refill k)
}.

Lemma new_config_ok c r k : is_float c -> is_float r -> new_config c r = Ok k -> config_ok k.
Proof.
  unfold new_config. intros. split_ifs; simplify_eq; qbool. by split.
Qed.

(** ** Refilling and spending *)

(** A count the bucket may hold. *)
Definition fits (k : config) (t : Q) : Prop := 0 <= t <= capacity k /\ is_float t.

#[global] Instance fits_proper k : Proper (Qeq ==> iff) (fits k).
Proof. intros a b E. unfold fits. by rewrite E. Qed.

Lemma fits_cap k : config_ok k -> fits k (capacity k).
Proof. intros []. split; [lra|done]. Qed.

Lemma elapsed_nonneg ts now : 0 <= fmax 0 (fsub now ts).
Proof. fminmax; lra. Qed.

Lemma refilled_fits k t ts now : config_ok k -> fits k t -> fits k (refilled k t ts now).
Proof.
  intros [Hc Hf Hr _] [Ht Htf]. unfold refilled.
  set (p := fmul _ _). assert (0 <= p).
  { apply rnd_nonneg. apply Qmult_le_0_compat; [apply elapsed_nonneg|done]. }
  assert (0 <= fadd t p) by (apply rnd_nonneg; lra).
  assert (is_float (fadd t p)) by apply is_float_rnd.
  split; fminmax; done || lra.
Qed.

Lemma refilled_full k ts now : config_ok k -> refilled k (capacity k) ts now == capacity k.
Proof.
  intros [Hc Hf Hr _]. unfold refilled. set (p := fmul _ _). assert (0 <= p).
  { apply rnd_nonneg. apply Qmult_le_0_compat; [apply elapsed_nonneg|done]. }
  assert (capacity k <= fadd (capacity k) p).
  { apply Qle_trans with (rnd (capacity k)); [unfold is_float in Hf; lra|]. apply rnd_mono. lra. }
  fminmax; lra.
Qed.

(** The default hint and its range. *)
Lemma total_seconds_max : 0 < total_seconds MAX_TTL /\ total_seconds MAX_TTL == 31536000.
Proof.
  assert (E : total_seconds MAX_TTL == 31536000).
  { unfold total_seconds. rewrite <- (rnd_int 31536000) by (vm_compute; discriminate).
    assert (inject_Z MAX_TTL / inject_Z usec_per_sec == inject_Z 31536000) as -> by reflexivity.
    reflexivity. }
  split; [rewrite E; reflexivity|done].
Qed.

Lemma retry_hint_range s : (0 <= retry_hint s <= MAX_TTL)%Z.
Proof.
  unfold retry_hint. destruct s as [s|]; [|done]. split_ifs; qbool; [done..|].
  split; [apply td_of_seconds_nonneg; lra|].
  rewrite <- (td_roundtrip MAX_TTL) by done. apply td_of_seconds_mono; lra.
Qed.

(** What a caller can rely on in a decision. *)
Definition decision_ok (k : config) (d : decision) : Prop :=
  0 <= remaining d <= capacity k /\
  if allowed d then retry_after d = Some 0%Z
  else match retry_after d with
       | None => refill k == 0
       | Some h => ~ refill k == 0 /\ (0 <= h <= MAX_TTL)%Z
       end.

Lemma denial_hint_ok k x :
  match denial_hint k x with
  | None => refill k == 0
  | Some h => ~ refill k == 0 /\ (0 <= h <= MAX_TTL)%Z
  end.
Proof.
  unfold denial_hint. destruct (Qeq_bool _ _) eqn:E; qbool; [done|].
  split; [done|apply retry_hint_range].
Qed.

Lemma spent_fits k count t : fits k t -> 0 <= count -> count <= t -> fits k (fsub t count).
Proof.
  intros [Ht Hf] Hc Hle. split; [|apply is_float_rnd]. split; [apply rnd_nonneg; lra|].
  apply Qle_trans with (rnd t); [apply rnd_mono; lra|]. unfold is_float in Hf. lra.
Qed.

Lemma spend_ok k count t rest d :
  fits k t -> 0 <= count -> spend k count t = (rest, d) ->
  fits k rest /\ decision_ok k d /\ remaining d = rest.
Proof.
  intros Ht Hc. unfold spend. destruct (Qle_bool count t) eqn:E; intros [= <- <-]; qbool.
  - pose proof (spent_fits k count t Ht Hc E) as Hf. split_and!; [done|split; [apply Hf|done]|done].
  - split_and!; [done|split; [apply Ht|apply denial_hint_ok]|done].
Qed.

(** ** The rate bound *)

Ltac ulp := unfold ulp53 in *; change (2 ^ 53)%positive with 9007199254740992%positive in *.

Lemma rnd_le x : 0 <= x -> rnd x <= x + x * ulp53.
Proof.
  intros Hx. pose proof (rnd_rel x) as Hr. rewrite (Qabs_pos x) in Hr by done.
  apply Qabs_Qle_condition in Hr. lra.
Qed.

Lemma rnd_nonpos x : x <= 0 -> rnd x <= 0.
Proof. intros Hx. rewrite <- rnd_0. by apply rnd_mono. Qed.

(** The time a refill credits. *)
Definition gap (s : option Q) (now : Q) : Q :=
  match s with None => 0 | Some s => fmax 0 (now - s) end.

Lemma gap_nonneg s now : 0 <= gap s now.
Proof. unfold gap. destruct s; [|lra]. fminmax; lra. Qed.

Lemma elapsed_le s now : fmax 0 (fsub now s) <= gap (Some s) now + gap (Some s) now * ulp53.
Proof.
  unfold gap, fsub. destruct (Qlt_le_dec 0 (now - s)).
  - pose proof (rnd_le (now - s) ltac:(lra)). ulp. fminmax; lra.
  - pose proof (rnd_nonpos (now - s) ltac:(lra)). ulp. fminmax; lra.
Qed.

Lemma refilled_le k t s now :
  config_ok k -> fits k t ->
  refilled k t s now <= t + refill k * gap (Some s) now + 4 * ulp53 * capacity k.
Proof.
  intros [Hc Hf Hr _] [Ht _]. unfold refilled.
  set (x := refill k * gap (Some s) now).
  pose proof (gap_nonneg (Some s) now) as Hg.
  assert (Hx : 0 <= x) by (apply Qmult_le_0_compat; done).
  set (e := fmax 0 (fsub now s)). assert (He : 0 <= e) by apply elapsed_nonneg.
  assert (Hp0 : 0 <= e * refill k) by (apply Qmult_le_0_compat; done).
  assert (Hp : e * refill k <= x + x * ulp53).
  { pose proof (elapsed_le s now) as He'. fold e in He'. unfold x.
    apply Qle_trans with ((gap (Some s) now + gap (Some s) now * ulp53) * refill k).
    - by apply Qmult_le_compat_r.
    - lra. }
  pose proof (rnd_le _ Hp0) as Hm. fold (fmul e (refill k)) in Hm.
  set (p := fmul e (refill k)) in *. assert (0 <= p) by (by apply rnd_nonneg).
  pose proof (rnd_le (t + p) ltac:(lra)) as Ha. fold (fadd t p) in Ha.
  assert (0 <= ulp53 * capacity k) by (apply Qmult_le_0_compat; [discriminate|lra]).
  ulp. fminmax; lra.
Qed.

Lemma refilled_since k t s now :
  config_ok k -> fits k t ->
  refilled k t (match s with Some s => s | None => now end) now
    <= t + refill k * gap s now + 4 * ulp53 * capacity k.
Proof.
  intros Hk Ht. destruct s as [s|]; [by apply refilled_le|].
  pose proof (refilled_le k t now now Hk Ht) as Hr. unfold gap in *.
  assert (E : fmax 0 (now - now) == 0) by (fminmax; lra). rewrite E in Hr. done.
Qed.

Lemma mem_acquire_step k count now b b' d :
  config_ok k -> fits k (tokens b) -> 0 <= count -> mem_acquire k count now b = (b', d) ->
  fits k (tokens b') /\ decision_ok k d /\ ts b' = Some now /\
  (if allowed d then count else 0) + tokens b'
    <= tokens b + refill k * gap (ts b) now + 5 * ulp53 * capacity k.
Proof.
  intros Hk Hb Hc. unfold mem_acquire. set (t := refilled _ _ _ _).
  assert (Ht : fits k t) by (by apply refilled_fits).
  assert (Hle : t <= tokens b + refill k * gap (ts b) now + 4 * ulp53 * capacity k)
    by (by apply refilled_since).
  destruct (spend k count t) as [rest d'] eqn:Hs. intros [= <- <-]. simpl.
  destruct (spend_ok k count t rest d' Ht Hc Hs) as (? & ? & ?). split_and!; [done..|].
  destruct Hk as [Hcap _ _ _]. destruct Ht as [Ht _].
  unfold spend in Hs. destruct (Qle_bool count t) eqn:E; injection Hs as <- <-; qbool; simpl.
  - pose proof (rnd_le (t - count) ltac:(lra)) as Hr. fold (fsub t count) in Hr.
    ulp. lra.
  - ulp. lra.
Qed.

Lemma mem_refund_step k count b :
  config_ok k -> fits k (tokens b) -> 0 <= count ->
  fits k (tokens (mem_refund k count b)) /\
  tokens (mem_refund k count b) <= tokens b + count + ulp53 * capacity k.
Proof.
  intros [Hcap Hcf _ _] [Ht Htf] Hc. unfold mem_refund; simpl.
  pose proof (rnd_le (tokens b + count) ltac:(lra)) as Hr. fold (fadd (tokens b) count) in Hr.
  assert (0 <= fadd (tokens b) count) by (apply rnd_nonneg; lra).
  assert (is_float (fadd (tokens b) count)) by apply is_float_rnd.
  split; [split|]; fminmax; ulp; done || lra.
Qed.

(** Calls on one bucket, in the order its lock grants them. *)
Inductive mem_op := Acquire (count now : Q) | Refund (count : Q).

Definition op_count (o : mem_op) : Q := match o with Acquire c _ | Refund c => c end.

(** The bucket after the calls, and the tokens granted less those refunded. *)
Fixpoint mem_run (k : config) (ops : list mem_op) (b : bucket) : bucket * Q :=
  match ops with
  | [] => (b, 0)
  | Acquire c now :: ops' =>
      let '(b1, d) := mem_acquire k c now b in
      let '(b2, net) := mem_run k ops' b1 in
      (b2, (if allowed d then c else 0) + net)
  | Refund c :: ops' =>
      let '(b2, net) := mem_run k ops' (mem_refund k c b) in (b2, net - c)
  end.

(** How far the clock climbs over the acquires: every move forward counts, also one that
    makes up for a step back. *)
Fixpoint climb (s : option Q) (ops : list mem_op) : Q :=
  match ops with
  | [] => 0
  | Acquire _ now :: ops' => gap s now + climb (Some now) ops'
  | Refund _ :: ops' => climb s ops'
  end.

Lemma mem_run_le k ops b b' net :
  config_ok k -> fits k (tokens b) -> Forall (fun o => 0 <= op_count o) ops ->
  mem_run k ops b = (b', net) ->
  fits k (tokens b') /\
  net + tokens b' <= tokens b + refill k * climb (ts b) ops
                     + inject_Z (Z.of_nat (length ops)) * (5 * ulp53 * capacity k).
Proof.
  intros Hk. revert b b' net. induction ops as [|o ops IH]; intros b b' net Hb Hops Hrun.
  - injection Hrun as <- <-. split; [done|]. cbn [climb length]. change (inject_Z (Z.of_nat 0)) with 0. lra.
  - apply Forall_cons in Hops as [Ho Hops].
    assert (0 <= ulp53 * capacity k) by (destruct Hk; apply Qmult_le_0_compat; [discriminate|lra]).
    cbn [length]. rewrite Nat2Z.inj_succ. unfold Z.succ. rewrite inject_Z_plus.
    change (inject_Z 1) with 1. destruct o as [c now|c]; cbn [mem_run climb op_count] in *.
    + destruct (mem_acquire k c now b) as [b1 d] eqn:Ha.
      destruct (mem_run k ops b1) as [b2 n2] eqn:Hr. injection Hrun as <- <-.
      destruct (mem_acquire_step k c now b b1 d Hk Hb Ho Ha) as (Hf & _ & Hts & Hle).
      destruct (IH _ _ _ Hf Hops Hr) as [Hfit Hle2]. rewrite Hts in Hle2. split; [done|]. lra.
    + destruct (mem_run k ops (mem_refund k c b)) as [b2 n2] eqn:Hr. injection Hrun as <- <-.
      destruct (mem_refund_step k c b Hk Hb Ho) as [Hf Hle].
      destruct (IH _ _ _ Hf Hops Hr) as [Hfit Hle2]. change (ts (mem_refund k c b)) with (ts b) in Hle2. split; [done|]. lra.
Qed.

(** While the clock does not go back, the climb is the time between the first and the last
    acquire. *)
Fixpoint forward (s : Q) (ops : list mem_op) : Prop :=
  match ops with
  | [] => True
  | Acquire _ now :: ops' => s <= now /\ forward now ops'
  | Refund _ :: ops' => forward s ops'
  end.

Fixpoint last_time (s : Q) (ops : list mem_op) : Q :=
  match ops with
  | [] => s
  | Acquire _ now :: ops' => last_time now ops'
  | Refund _ :: ops' => last_time s ops'
  end.

Lemma climb_forward s ops : forward s ops -> climb (Some s) ops == last_time s ops - s.
Proof.
  revert s. induction ops as [|[c now|c] ops IH]; intros s Hf;
    cbn [climb forward last_time] in *.
  - lra.
  - destruct Hf as [Hle Hf]. rewrite IH by done. unfold gap. fminmax; lra.
  - by apply IH.
Qed.

End props.

(** The in-memory token bucket respects its rate.  Over any sequence of acquires and
    refunds on a new bucket, the tokens granted less those refunded are at most the capacity
    plus the refill rate times the forward movement of the clock, up to five units of
    roundoff of the capacity a call; and when the clock does not go back that movement is
    the time from the first acquire to the last. *)
Theorem token_rate_respected `{Rounding} (k : config) (c0 t0 : Q) (ops : list mem_op)
    (b : bucket) (net : Q) :
  config_ok k -> 0 <= c0 -> Forall (fun o => 0 <= op_count o) ops ->
  mem_run k (Acquire c0 t0 :: ops) (new_bucket k) = (b, net) ->
  net <= capacity k + refill k * climb (Some t0) ops
         + inject_Z (Z.of_nat (S (length ops))) * (5 * ulp53 * capacity k) /\
  (forward t0 ops -> climb (Some t0) ops == last_time t0 ops - t0).
Proof.
  intros Hk Hc Hops Hrun. split; [|apply climb_forward].
  destruct (mem_run_le k (Acquire c0 t0 :: ops) (new_bucket k) b net Hk) as [[[H0 _] _] Hle];
    [by apply fits_cap|by apply Forall_cons|done|].
  change (ts (new_bucket k)) with (@None Q) in Hle. cbn [climb gap length] in Hle.
  change (tokens (new_bucket k)) with (capacity k) in Hle. lra.
Qed.

(** ** The PostgreSQL statement against the in-memory bucket *)

Section agreement.
Context `{Rounding}.

Lemma hint_ext x y : x == y -> retry_hint (finite x) = retry_hint (finite y).
Proof.
  intros E. unfold finite.
  assert (Qle_bool (pow2 1024) x = Qle_bool (pow2 1024) y) as -> by (by rewrite E).
  destruct (Qle_bool (pow2 1024) y); [done|]. unfold retry_hint.
  assert (Qle_bool x 0 = Qle_bool y 0) as -> by (by rewrite E).
  assert (Qle_bool (total_seconds MAX_TTL) x = Qle_bool (total_seconds MAX_TTL) y) as ->
    by (by rewrite E).
  destruct (Qle_bool y 0) eqn:E0; [done|]. destruct (Qle_bool _ y); [done|].
  qbool. apply Z.le_antisymm; apply td_of_seconds_mono; lra.
Qed.

Lemma denial_hint_ext k x y : x == y -> denial_hint k x = denial_hint k y.
Proof.
  intros E. unfold denial_hint. destruct (Qeq_bool _ _); [done|]. f_equal. apply hint_ext.
  unfold fdiv. by rewrite E.
Qed.

(** The two limiters in the same state: no row or an empty document is a full bucket. *)
Definition same_state (k : config) (o : option brow) (b : bucket) : Prop :=
  match o with
  | None => tokens b == capacity k
  | Some r =>
      (d_tokens (b_state r) = None /\ d_ts (b_state r) = None /\ tokens b == capacity k) \/
      exists t s s', d_tokens (b_state r) = Some (DNum t) /\ d_ts (b_state r) = Some (DNum s) /\
        rnd t == tokens b /\ ts b = Some s' /\ rnd s == s'
  end.

Definition same_decision (d d' : decision) : Prop :=
  allowed d = allowed d' /\ remaining d == remaining d' /\ retry_after d = retry_after d'.

Lemma sql_refilled_agrees k t s now :
  sql_refilled k (Some t) (Some s) now == refilled k t s (rnd now).
Proof.
  unfold sql_refilled, refilled. rewrite LEAST_fmin, GREATEST_fmax.
  assert (E : fmax (fsub (rnd now) s) 0 == fmax 0 (fsub (rnd now) s)) by (fminmax; lra).
  unfold fadd, fmul. by rewrite E.
Qed.

Lemma refilled_ext k t t' s s' now :
  t == t' -> s == s' -> refilled k t s now == refilled k t' s' now.
Proof. intros Et Es. unfold refilled, fadd, fmul, fsub. by rewrite Et, Es. Qed.

(** The count the fused statement spends from. *)
Lemma fused_tokens k keyed count now stamp o b :
  config_ok k -> same_state k o b ->
  exists t, t == refilled k (tokens b) (match ts b with Some s => s | None => rnd now end) (rnd now) /\
    fused_acquire k keyed count now stamp o =
      Ok ({| b_state := state_payload k (sql_spend count t).1 now; b_keyed := keyed;
             b_last_used := stamp |}, sql_spend count t).
Proof.
  intros Hk Hs. unfold fused_acquire.
  assert (Hfull : forall s, tokens b == capacity k -> refilled k (tokens b) s (rnd now) == capacity k).
  { intros s E. rewrite (refilled_ext k _ (capacity k) s s) by done. by apply refilled_full. }
  destruct o as [r|]; [|exists (capacity k); split; [symmetry; by apply Hfull|done]].
  destruct Hs as [(Ht & Hs & E)|(t & s & s' & Ht & Hs & Et & Ets & Es)]; rewrite Ht, Hs;
    cbn [sql_float rbind default from_option id].
  - eexists; split; [|reflexivity]. rewrite sql_refilled_agrees, Hfull by done. by apply refilled_full.
  - eexists; split; [|reflexivity]. rewrite sql_refilled_agrees, Ets. by apply refilled_ext.
Qed.

Lemma acquire_pg_agrees k name keyed count now stamp budget t b b' d :
  config_ok k -> fits k (tokens b) -> 0 <= count -> same_state k (t !! name) b ->
  mem_acquire k count (rnd now) b = (b', d) ->
  exists t' d', acquire_pg k name keyed count now stamp true budget t = Ok (t', d') /\
    same_decision d' d /\ same_state k (t' !! name) b' /\ fits k (tokens b').
Proof.
  intros Hk Hb Hc Hs Hm. unfold acquire_pg.
  destruct (fused_tokens k keyed count now stamp (t !! name) b Hk Hs) as (x & Hx & ->). simpl.
  pose proof (mem_acquire_step k count (rnd now) b b' d Hk Hb Hc Hm) as (Hfit & _ & _ & _).
  unfold mem_acquire in Hm. set (y := refilled _ _ _ _) in Hx, Hm. unfold spend in Hm.
  assert (Hfy : fits k y) by (by apply refilled_fits).
  rewrite <- Hx in Hm. destruct (Qle_bool count x) eqn:E; injection Hm as <- <-; simpl in *.
  - do 2 eexists. split; [reflexivity|]. assert (E' : fsub x count == fsub y count).
    { unfold fsub. by rewrite Hx. }
    split_and!; [|rewrite lookup_insert_eq|done].
    + split_and!; simpl; done.
    + right. exists (fsub x count), now, (rnd now). split_and!; try done. simpl.
      rewrite E'. apply Hfit.
  - do 2 eexists. split; [reflexivity|]. split_and!; [|rewrite lookup_insert_eq|done].
    + split_and!; simpl; [done..|]. apply denial_hint_ext. unfold fsub. by rewrite Hx.
    + right. exists x, now, (rnd now). split_and!; try done. simpl. rewrite Hx. apply Hfy.
Qed.

(** Calls made to either limiter; [now] is the exact time in seconds. *)
Inductive call := CallAcquire (count now : Q) (stamp : Z) | CallReset (now : Q).

Fixpoint run_pg (k : config) (name : string) (keyed : bool) (cs : list call) (t : btable) :
    result store_err (list decision) :=
  match cs with
  | [] => Ok []
  | CallAcquire c now stamp :: cs' =>
      let* x := acquire_pg k name keyed c now stamp true 0 t in
      let* ds := run_pg k name keyed cs' x.1 in Ok (x.2 :: ds)
  | CallReset _ :: cs' => run_pg k name keyed cs' (reset_pg name t)
  end.

Fixpoint run_memory (k : config) (cs : list call) (b : bucket) : list decision :=
  match cs with
  | [] => []
  | CallAcquire c now _ :: cs' =>
      let '(b', d) := mem_acquire k c (rnd now) b in d :: run_memory k cs' b'
  | CallReset now :: cs' => run_memory k cs' (mem_reset k (rnd now) b)
  end.

Definition call_ok (c : call) : Prop := match c with CallAcquire c _ _ => 0 <= c | CallReset _ => True end.

Lemma runs_agree k name keyed cs t b :
  config_ok k -> Forall call_ok cs -> fits k (tokens b) -> same_state k (t !! name) b ->
  exists ds, run_pg k name keyed cs t = Ok ds /\ Forall2 same_decision ds (run_memory k cs b).
Proof.
  intros Hk Hcs. revert t b. induction Hcs as [|[c now stamp|now] cs Hc Hcs IH]; intros t b Hb Hs;
    cbn [run_pg run_memory].
  - by exists [].
  - destruct (mem_acquire k c (rnd now) b) as [b' d] eqn:Hm.
    destruct (acquire_pg_agrees k name keyed c now stamp 0 t b b' d Hk Hb Hc Hs Hm)
      as (t' & d' & -> & Hd & Hs' & Hb'). cbn [rbind fst snd].
    destruct (IH t' b' Hb' Hs') as (ds & -> & Hds). exists (d' :: ds). split; [done|by constructor].
  - apply IH; [by apply fits_cap|]. unfold reset_pg. rewrite lookup_delete_eq. simpl. reflexivity.
Qed.

End agreement.

(** The PostgreSQL token bucket is the in-memory one.  From a table without the bucket's
    row, over any sequence of acquires (non-negative counts, any times) and resets, the fused
    statement never raises and decides every acquire as the in-memory bucket does: the same
    verdict, the same count left, the same hint. *)
Theorem pg_bucket_agrees `{Rounding} (k : config) (name : string) (keyed : bool) (cs : list call)
    (t : btable) :
  config_ok k -> Forall call_ok cs -> t !! name = None ->
  exists ds, run_pg k name keyed cs t = Ok ds /\
             Forall2 same_decision ds (run_memory k cs (new_bucket k)).
Proof.
  intros Hk Hcs Ht. apply runs_agree; [done..|by apply fits_cap|]. by rewrite Ht.
Qed.

(** ** The rows the code writes *)

Section store.
Context `{Rounding}.

(** A row of the bucket as the code leaves it: published and unused, or written whole. *)
Definition honest_row (k : config) (r : brow) : Prop :=
  (d_tokens (b_state r) = None /\ d_ts (b_state r) = None) \/
  exists t s, b_state r = state_payload k t s /\ fits k t.

Definition honest (k : config) (o : option brow) : Prop :=
  match o with None => True | Some r => honest_row k r end.

(** The count an acquire starts from, before refill. *)
Definition stored (k : config) (o : option brow) : Q :=
  match o with
  | Some r => match d_tokens (b_state r) with Some (DNum t) => t | _ => capacity k end
  | None => capacity k
  end.

Lemma stored_fits k o : config_ok k -> honest k o -> fits k (stored k o).
Proof.
  intros Hk Ho. destruct o as [r|]; simpl; [|by apply fits_cap].
  destruct Ho as [[-> _]|(t & s & -> & Ht)]; [by apply fits_cap|done].
Qed.

Lemma fixed_refill k t s now : config_ok k -> refill k == 0 -> fits k t -> refilled k t s now == t.
Proof.
  intros [_ _ _ _] Hr [Ht Hf]. unfold refilled, fmul, fadd, is_float in *. rewrite Hr, Qmult_0_r, rnd_0, Qplus_0_r.
  fminmax; lra.
Qed.

Lemma fits_rnd k t : fits k t -> fits k (rnd t).
Proof. intros Ht. pose proof Ht as [_ Hf]. unfold is_float in Hf. by rewrite Hf. Qed.

(** What the fused statement does to an honest row. *)
Lemma fused_honest k keyed count now stamp o :
  config_ok k -> honest k o -> 0 <= count ->
  exists t, fits k t /\ (refill k == 0 -> t == stored k o) /\
    fused_acquire k keyed count now stamp o =
      Ok ({| b_state := state_payload k (sql_spend count t).1 now; b_keyed := keyed;
             b_last_used := stamp |}, sql_spend count t).
Proof.
  intros Hk Ho Hc. unfold fused_acquire. pose proof (stored_fits k o Hk Ho) as Hst.
  destruct o as [r|]; [|exists (capacity k); split_and!; [by apply fits_cap|done|done]].
  destruct Ho as [[Et Es]|(t & s & E & Ht)].
  - unfold stored in *. rewrite Et, Es in *. cbn [sql_float rbind default from_option id].
    eexists. split_and!; [| |reflexivity]; [|intros _]; rewrite sql_refilled_agrees, refilled_full by done;
      [by apply fits_cap|done].
  - unfold stored in *. rewrite E in *. cbn [d_tokens d_ts state_payload sql_float rbind default from_option id].
    eexists. split_and!; [| |reflexivity].
    + rewrite sql_refilled_agrees. apply refilled_fits; [done|by apply fits_rnd].
    + intros Hr. rewrite sql_refilled_agrees, fixed_refill by (done || by apply fits_rnd). apply Ht.
Qed.

Lemma sql_spend_fits k count t : fits k t -> 0 <= count -> fits k (sql_spend count t).1.
Proof.
  intros Ht Hc. unfold sql_spend. simpl. destruct (Qle_bool count t) eqn:E; qbool; [|done].
  by apply spent_fits.
Qed.

Lemma acquire_pg_honest k name keyed count now stamp budget t :
  config_ok k -> honest k (t !! name) -> 0 <= count ->
  exists t' d, acquire_pg k name keyed count now stamp true budget t = Ok (t', d) /\
    decision_ok k d /\ honest k (t' !! name) /\
    (refill k == 0 ->
     allowed d = Qle_bool count (stored k (t !! name)) /\
     stored k (t' !! name) ==
       if allowed d then fsub (stored k (t !! name)) count else stored k (t !! name)).
Proof.
  intros Hk Ho Hc. unfold acquire_pg.
  destruct (fused_honest k keyed count now stamp (t !! name) Hk Ho Hc) as (x & Hx & Hfix & ->).
  pose proof (sql_spend_fits k count x Hx Hc) as Hs. cbn [rbind].
  destruct (sql_spend count x) as [rest granted] eqn:E. cbn [fst] in *.
  do 2 eexists. split; [reflexivity|]. rewrite lookup_insert_eq. split_and!; cbn [allowed].
  - split; [apply Hs|]. simpl. destruct granted; [done|apply denial_hint_ok].
  - right. by exists rest, now.
  - intros Hr. specialize (Hfix Hr). unfold sql_spend in E. injection E as <- <-.
    cbn [stored b_state d_tokens state_payload]. split; [by rewrite Hfix|].
    destruct (Qle_bool count x); [|done]. unfold fsub. by rewrite Hfix.
Qed.

Lemma honest_tokens_ok k t : fits k t -> honest_tokens k (Some (rnd t)) = Ok (rnd t).
Proof.
  intros [Ht Hf]. unfold honest_tokens.
  assert (Qle_bool 0 (rnd t) = true) as -> by (apply Qle_bool_iff; unfold is_float in Hf; lra).
  assert (Qle_bool (rnd t) (capacity k) = true) as ->
    by (apply Qle_bool_iff; unfold is_float in Hf; lra). done.
Qed.

Lemma honest_tokens_full k : config_ok k -> honest_tokens k (Some (capacity k)) = Ok (capacity k).
Proof.
  intros [Hc _ _ _]. unfold honest_tokens.
  assert (Qle_bool 0 (capacity k) = true) as -> by (apply Qle_bool_iff; lra).
  assert (Qle_bool (capacity k) (capacity k) = true) as -> by (apply Qle_bool_iff; lra). done.
Qed.

Lemma refund_pg_honest k name count now stamp t :
  config_ok k -> honest k (t !! name) -> 0 <= count ->
  exists t', refund_pg k name count now stamp true t = Ok t' /\ honest k (t' !! name) /\
    (refill k == 0 ->
     match t !! name with
     | None => t' = t
     | Some _ => stored k (t' !! name) == fmin (capacity k) (fadd (stored k (t !! name)) count)
     end).
Proof.
  intros Hk Ho Hc. unfold refund_pg. destruct (t !! name) as [r|] eqn:Hr; [|exists t; by rewrite Hr].
  assert (exists old sv, fits k old /\ old == stored k (Some r) /\
            py_float (capacity k) (d_tokens (b_state r)) = Ok (Some old) /\
            py_float (rnd now) (d_ts (b_state r)) = Ok sv /\
            honest_tokens k (Some old) = Ok old) as (old & sv & Hf & Hst & -> & -> & Hh).
  { unfold stored. destruct Ho as [[Et Es]|(x & s & E & Hx)].
    - rewrite Et, Es. exists (capacity k), (Some (rnd now)).
      split_and!; try done; [by apply fits_cap|by apply honest_tokens_full].
    - rewrite E. simpl. exists (rnd x), (Some (rnd s)). split_and!; try done; [by apply fits_rnd|apply Hx|by apply honest_tokens_ok]. }
  cbn [rbind]. rewrite Hh. cbn [rbind]. eexists. split; [reflexivity|]. rewrite lookup_insert_eq.
  set (g := refilled k old _ _). assert (Hg : fits k g) by (by apply refilled_fits).
  split.
  - right. eexists _, _. split; [reflexivity|].
    apply (mem_refund_step k count {| tokens := g; ts := None |} Hk Hg Hc).
  - intros Hz. cbn [stored b_state d_tokens state_payload]. fold (stored k (Some r)).
    assert (Eg : g == stored k (Some r)) by (unfold g; rewrite fixed_refill; done).
    unfold fadd. by rewrite Eg.
Qed.

(** *** Reclaiming *)

(** A row a reclaim removes was provably safe to remove. *)
Definition reclaimed (name : string) (t t' : btable) : Prop :=
  t' !! name = t !! name \/
  (t' !! name = None /\ exists r, t !! name = Some r /\ no_consumed_quota (b_state r) = Ok true).

Lemma foldl_delete_name (l : list (string * brow)) (t : btable) name :
  foldl (fun t x => base.delete x.1 t) t l !! name = t !! name \/
  (foldl (fun t x => base.delete x.1 t) t l !! name = None /\ exists r, (name, r) ∈ l).
Proof.
  revert t. induction l as [|[n r] l IH]; intros t; simpl; [by left|].
  destruct (IH (base.delete n t)) as [E|[E [r' Hr']]].
  - rewrite E. destruct (decide (n = name)) as [->|Hne].
    + rewrite lookup_delete_eq. right. split; [done|]. exists r. left.
    + left. by apply lookup_delete_ne.
  - right. split; [done|]. exists r'. by right.
Qed.

Lemma sweep_reclaimed st horizon batch t t' name :
  sweep_idle_keyed_buckets st horizon batch t = Ok t' -> reclaimed name t t'.
Proof.
  unfold sweep_idle_keyed_buckets. intros Hs. inv_ok.
  match goal with |- reclaimed _ _ (foldl _ _ ?l) =>
    destruct (foldl_delete_name l t name) as [E|[E [r Hr]]] end; [by left|right].
  split; [done|]. exists r.
  apply elem_of_take in Hr as (i & Hi & _). apply list_elem_of_lookup_2 in Hi.
  rewrite merge_sort_Permutation in Hi. apply list_elem_of_filter in Hi as [Hidle Hin].
  apply elem_of_map_to_list in Hin. split; [done|].
  unfold is_idle, idle_row in Hidle. simpl in Hidle. by destruct (_ && _).
Qed.

Lemma slice_reclaimed names t t' name : reclaim_slice names t = Ok t' -> reclaimed name t t'.
Proof.
  unfold reclaim_slice.
  assert (Herr : forall e ns, foldl reclaim_name (Err e) ns = Err e) by (intros e; by induction ns).
  revert t. induction names as [|n names IH]; intros t; simpl; [intros [= <-]; by left|].
  destruct (t !! n) as [r|] eqn:Hn; simpl; [|apply IH].
  destruct (no_consumed_quota (b_state r)) as [[]|e] eqn:Hq; simpl; intros Hs; [|by apply IH|].
  - apply IH in Hs. destruct (decide (n = name)) as [->|Hne].
    + right. destruct Hs as [E|[E _]]; rewrite ?lookup_delete_eq in *; eauto.
    + unfold reclaimed in *. by rewrite lookup_delete_ne in Hs by done.
  - by rewrite Herr in Hs.
Qed.

(** *** Every statement that can touch the bucket's row

    [net] counts the tokens granted less those given back since the last reset; a refund that
    finds no row gives nothing back.  [good] restricts the counts asked for. *)
Inductive bstep (good : Q -> Prop) (k : config) (name : string) : btable * Q -> btable * Q -> Prop :=
| bs_acquire keyed count now stamp locked budget t t' d net :
    good count -> acquire_pg k name keyed count now stamp locked budget t = Ok (t', d) ->
    bstep good k name (t, net) (t', net + if allowed d then count else 0)
| bs_refund count now stamp t t' net :
    good count -> refund_pg k name count now stamp true t = Ok t' ->
    bstep good k name (t, net) (t', match t !! name with Some _ => net - count | None => net end)
| bs_upsert keyed stamp t net : bstep good k name (t, net) (upsert_row name keyed stamp t, net)
| bs_sweep st horizon batch t t' net :
    sweep_idle_keyed_buckets st horizon batch t = Ok t' -> bstep good k name (t, net) (t', net)
| bs_slice names t t' net : reclaim_slice names t = Ok t' -> bstep good k name (t, net) (t', net)
| bs_reset t net : bstep good k name (t, net) (reset_pg name t, 0)
| bs_other t t' net : t' !! name = t !! name -> bstep good k name (t, net) (t', net).

Lemma acquire_pg_unlocked k name keyed count now stamp budget t t' d :
  acquire_pg k name keyed count now stamp false budget t = Ok (t', d) -> t' = t /\ allowed d = false.
Proof. by intros [= <- <-]. Qed.

Lemma upsert_lookup k name keyed stamp t :
  honest k (t !! name) ->
  honest k (upsert_row name keyed stamp t !! name) /\
  stored k (upsert_row name keyed stamp t !! name) = stored k (t !! name).
Proof.
  unfold upsert_row. destruct (t !! name) eqn:E; [by rewrite E|].
  rewrite lookup_insert_eq. intros _. split; [left|]; done.
Qed.

Lemma bstep_honest (good : Q -> Prop) k name t net t' net' :
  (forall c, good c -> 0 <= c) -> config_ok k ->
  bstep good k name (t, net) (t', net') -> honest k (t !! name) -> honest k (t' !! name).
Proof.
  intros Hgood Hk Hst Ho.
  assert (Hrec : forall t', reclaimed name t t' -> honest k (t' !! name)).
  { intros ? [->|[-> _]]; done. }
  inversion Hst as [keyed count now stamp locked budget ? ? d ? Hg Ha|count now stamp ? ? ? Hg Ha| | | | |];
    subst; clear Hst; eauto using sweep_reclaimed, slice_reclaimed.
  - destruct locked; [|by apply acquire_pg_unlocked in Ha as [-> _]].
    destruct (acquire_pg_honest k name keyed count now stamp budget t Hk Ho (Hgood _ Hg))
      as (? & ? & E & _ & ? & _). congruence.
  - destruct (refund_pg_honest k name count now stamp t Hk Ho (Hgood _ Hg)) as (? & E & ? & _).
    congruence.
  - by apply upsert_lookup.
  - unfold reset_pg. by rewrite lookup_delete_eq.
  - congruence.
Qed.

Lemma bsteps_honest (good : Q -> Prop) k name t0 net0 t net :
  (forall c, good c -> 0 <= c) -> config_ok k ->
  rtc (bstep good k name) (t0, net0) (t, net) -> honest k (t0 !! name) -> honest k (t !! name).
Proof.
  intros Hgood Hk Hst Ho.
  assert (Hall : forall x y, rtc (bstep good k name) x y -> honest k (x.1 !! name) -> honest k (y.1 !! name)).
  { intros x y Hr. induction Hr as [|[a na] [b nb] z Hab _ IH]; [done|]. intros Hx. apply IH.
    by apply (bstep_honest good k name a na b nb Hgood Hk). }
  exact (Hall _ _ Hst Ho).
Qed.

(** *** Fixed quotas *)

(** Whole tokens: what a bucket of a whole capacity is asked for. *)
Definition whole (c : Q) : Prop := exists n : Z, c = inject_Z n /\ (0 <= n <= 2 ^ 53)%Z.

Lemma whole_nonneg c : whole c -> 0 <= c.
Proof. intros (n & -> & Hn). change 0 with (inject_Z 0). rewrite <- Zle_Qle. lia. Qed.

(** The stored count is whole and never exceeds what is left of the quota. *)
Definition quota_left (k : config) (name : string) (t : btable) (net : Q) : Prop :=
  exists n : Z, stored k (t !! name) == inject_Z n /\ (0 <= n <= 2 ^ 53)%Z /\
                inject_Z n <= capacity k - net.

Lemma fsub_whole a b : (0 <= b <= a)%Z -> (a <= 2 ^ 53)%Z -> fsub (inject_Z a) (inject_Z b) == inject_Z (a - b).
Proof.
  intros Hb Ha. unfold fsub, Qminus. rewrite <- inject_Z_opp, <- inject_Z_plus.
  rewrite (rnd_int (a + - b)%Z) by lia. reflexivity.
Qed.

Lemma refund_whole k a b :
  config_ok k -> (0 <= a <= 2 ^ 53)%Z -> (0 <= b)%Z -> (exists c, capacity k == inject_Z c /\ (0 < c <= 2 ^ 53)%Z) ->
  exists n, fmin (capacity k) (fadd (inject_Z a) (inject_Z b)) == inject_Z n /\ (0 <= n <= 2 ^ 53)%Z /\
            (n <= a + b)%Z.
Proof.
  intros Hk Ha Hb (c & Hc & Hc'). exists (Z.min c (a + b)). split; [|lia].
  unfold fadd. rewrite <- inject_Z_plus. destruct (Z.le_gt_cases c (a + b)) as [Hle|Hgt].
  - rewrite Z.min_l by done. assert (inject_Z c <= rnd (inject_Z (a + b))).
    { rewrite <- (rnd_int c) by lia. apply rnd_mono. by rewrite <- Zle_Qle. }
    fminmax; lra.
  - rewrite Z.min_r, (rnd_int (a + b)%Z) by lia.
    assert (inject_Z (a + b) <= inject_Z c) by (rewrite <- Zle_Qle; lia). fminmax; lra.
Qed.

Lemma reclaim_keeps_quota k name t t' net :
  config_ok k -> refill k == 0 -> honest k (t !! name) -> reclaimed name t t' ->
  (exists c, capacity k == inject_Z c /\ (0 < c <= 2 ^ 53)%Z) ->
  quota_left k name t net -> quota_left k name t' net.
Proof.
  intros Hk Hr Ho Hrec (c & Hc & Hc') (n & Hn & Hb & Hle). unfold quota_left.
  destruct Hrec as [->|[-> (r & Er & Hq)]]; [by exists n|].
  exists c. split_and!; [done|lia..|]. rewrite Er in Hn, Ho. unfold stored in Hn.
  destruct Ho as [[Et _]|(x & s & E & Hx)].
  - rewrite Et in Hn. lra.
  - rewrite E in Hq, Hn. simpl in Hn.
    unfold no_consumed_quota in Hq. simpl in Hq. injection Hq as Hq.
    assert (Hz : rnd (refill k) ?= 0 = Eq) by (apply Qeq_alt; rewrite Hr; apply rnd_0).
    rewrite Hz in Hq. destruct (rnd x ?= rnd (capacity k)) eqn:Ec; [|done|].
    + apply Qeq_alt in Ec. destruct Hk, Hx. unfold is_float in *. lra.
    + apply Qgt_alt in Ec. destruct Hk, Hx as [[]]. unfold is_float in *. lra.
Qed.

Lemma quota_step k name t net t' net' :
  config_ok k -> refill k == 0 -> (exists c, capacity k == inject_Z c /\ (0 < c <= 2 ^ 53)%Z) ->
  honest k (t !! name) -> bstep whole k name (t, net) (t', net') ->
  quota_left k name t net -> quota_left k name t' net'.
Proof.
  intros Hk Hr Hw Ho Hst Hq.
  inversion Hst as [keyed count now stamp locked budget ? ? d ? Hg Ha|count now stamp ? ? ? Hg Ha
    |keyed stamp| | | |? ? ? E]; subst; clear Hst;
    eauto using reclaim_keeps_quota, sweep_reclaimed, slice_reclaimed.
  - pose proof (whole_nonneg _ Hg) as Hc0. destruct Hq as (n & Hn & Hb & Hle).
    destruct locked; [|apply acquire_pg_unlocked in Ha as [-> ->]; exists n; split_and!; [done|lia..|lra]].
    destruct (acquire_pg_honest k name keyed count now stamp budget t Hk Ho Hc0)
      as (t1 & d1 & E & _ & _ & Hfix). rewrite E in Ha. injection Ha as -> ->.
    destruct (Hfix Hr) as [Hal Hst]. destruct Hg as (c & -> & Hc).
    destruct (allowed d); [|exists n; rewrite Hst; split_and!; [done|lia..|lra]].
    symmetry in Hal. qbool. rewrite Hn in Hal. rewrite <- Zle_Qle in Hal.
    exists (n - c)%Z. split_and!; [|lia..|].
    + rewrite Hst. unfold fsub. rewrite Hn. apply fsub_whole; lia.
    + unfold Z.sub. rewrite inject_Z_plus, inject_Z_opp. lra.
  - pose proof (whole_nonneg _ Hg) as Hc0. destruct Hq as (n & Hn & Hb & Hle).
    destruct (refund_pg_honest k name count now stamp t Hk Ho Hc0) as (t1 & E & _ & Hfix).
    rewrite E in Ha. injection Ha as ->. specialize (Hfix Hr).
    destruct (t !! name) eqn:Et; [|subst t'; exists n; by rewrite Et].
    destruct Hg as (c & -> & Hc). destruct (refund_whole k n c Hk Hb ltac:(lia) Hw) as (m & Hm & Hm1 & Hm2).
    exists m. split_and!; [|lia..|].
    + rewrite Hfix. unfold fadd. rewrite Hn. exact Hm.
    + rewrite Zle_Qle, inject_Z_plus in Hm2. lra.
  - destruct (upsert_lookup k name keyed stamp t Ho) as [_ E]. unfold quota_left. by rewrite E.
  - destruct Hw as (c & Hc & Hc'). exists c. unfold reset_pg. rewrite lookup_delete_eq.
    split_and!; [done|lia..|lra].
  - unfold quota_left. by rewrite E.
Qed.

Lemma quota_steps k name x y :
  config_ok k -> refill k == 0 -> (exists c, capacity k == inject_Z c /\ (0 < c <= 2 ^ 53)%Z) ->
  rtc (bstep whole k name) x y -> honest k (x.1 !! name) -> quota_left k name x.1 x.2 ->
  quota_left k name y.1 y.2.
Proof.
  intros Hk Hr Hw Hst. induction Hst as [|[a na] [b nb] z Hab _ IH]; [done|]. intros Ho Hq. apply IH.
  - by apply (bstep_honest whole k name a na b nb whole_nonneg Hk).
  - by apply (quota_step k name a na b nb).
Qed.

End store.

(** C33: A fixed quota is spent once.  For a bucket that never refills, with a whole capacity,
    over any sequence of acquires and refunds of whole counts, lock timeouts, publications,
    fleet sweeps, eviction drains and statements on other rows, the tokens granted since the
    last reset, less those given back, never exceed the capacity, although the reclaims may
    delete the row in between. *)
Theorem fixed_quota_spent_once `{Rounding} (k : config) (name : string) (t0 t : btable) (net : Q) (c : Z) :
  config_ok k -> refill k == 0 -> capacity k == inject_Z c -> (0 < c <= 2 ^ 53)%Z ->
  t0 !! name = None -> rtc (bstep whole k name) (t0, 0) (t, net) ->
  net <= capacity k.
Proof.
  intros Hk Hr Hc Hc' Ht0 Hst.
  destruct (quota_steps k name (t0, 0) (t, net) Hk Hr) as (n & _ & Hn & Hle); [by exists c|done|..].
  - simpl. by rewrite Ht0.
  - exists c. simpl. rewrite Ht0. split_and!; [done|lia..|lra].
  - simpl in Hle. assert (inject_Z 0 <= inject_Z n) by (rewrite <- Zle_Qle; lia).
    change (inject_Z 0) with 0 in *. lra.
Qed.

(** The rows the code writes are rows the code accepts.  From a table without the
    bucket's row, after any sequence of acquires and refunds with non-negative counts,
    publications, reclaims, resets and statements on other rows: a peek reads a count in
    [0, capacity]; an acquire that gets its lock returns a decision whose count is in range
    and whose hint is zero when it allows, absent exactly for fixed quotas, and within a year
    otherwise; a refund lands; and the reclaim predicate evaluates without a cast error. *)
Theorem bucket_rows_well_typed `{Rounding} (k : config) (name : string) (t0 t : btable) (net : Q) :
  config_ok k -> t0 !! name = None ->
  rtc (bstep (fun c => 0 <= c) k name) (t0, 0) (t, net) ->
  (exists s, peek_pg k name t = Ok s /\ 0 <= tokens_remaining s <= capacity k) /\
  (forall keyed count now stamp budget, 0 <= count ->
     exists t' d, acquire_pg k name keyed count now stamp true budget t = Ok (t', d) /\ decision_ok k d) /\
  (forall count now stamp, 0 <= count -> exists t', refund_pg k name count now stamp true t = Ok t') /\
  (forall r, t !! name = Some r -> exists safe, no_consumed_quota (b_state r) = Ok safe).
Proof.
  intros Hk Ht0 Hst.
  assert (Ho : honest k (t !! name)).
  { eapply bsteps_honest; [|exact Hk|exact Hst|by rewrite Ht0]. done. }
  split_and!.
  - unfold peek_pg. destruct (t !! name) as [r|].
    + destruct Ho as [[-> _]|(x & s & -> & Hx)]; cbn [d_tokens state_payload py_float rbind].
      * eexists. rewrite honest_tokens_full by done. split; [reflexivity|]. apply (fits_cap k Hk).
      * eexists. rewrite honest_tokens_ok by done. split; [reflexivity|]. apply (fits_rnd k x Hx).
    + eexists. split; [reflexivity|]. apply (fits_cap k Hk).
  - intros keyed count now stamp budget Hc.
    destruct (acquire_pg_honest k name keyed count now stamp budget t Hk Ho Hc) as (? & ? & ? & ? & _). eauto.
  - intros count now stamp Hc. destruct (refund_pg_honest k name count now stamp t Hk Ho Hc) as (? & ? & _).
    eauto.
  - intros r Hr. rewrite Hr in Ho. unfold no_consumed_quota.
    destruct Ho as [[-> _]|(x & s & -> & Hx)]; simpl; eauto.
Qed.

(** ** Where the code and its comments part *)

(** An acquire trusts a row no honest write produced: a NaN count is a full bucket, where a
    peek and a refund of the same row raise. *)
Theorem nan_row_is_full `{Rounding} (k : config) (name : string) (r : brow) (t : btable)
    (count now : Q) (stamp : Z) :
  t !! name = Some r -> d_tokens (b_state r) = Some DNaN -> d_ts (b_state r) = Some (DNum now) ->
  count <= capacity k ->
  (exists t' d, acquire_pg k name true count now stamp true 0 t = Ok (t', d) /\ allowed d = true) /\
  peek_pg k name t = Err RateLimitStoreCorrupt /\
  refund_pg k name count now stamp true t = Err RateLimitStoreCorrupt.
Proof.
  intros Hr Ht Hs Hc. split_and!.
  - unfold acquire_pg, fused_acquire. rewrite Hr, Ht, Hs. cbn [rbind sql_float default from_option id].
    unfold sql_refilled, sql_spend. apply Qle_bool_iff in Hc. rewrite Hc. eauto.
  - unfold peek_pg. by rewrite Hr, Ht.
  - unfold refund_pg. by rewrite Hr, Ht, Hs.
Qed.

(** A full Redis bucket whose capacity needs more than 14 significant digits is refused
    as corrupt.  The scripts store and return counts through [tostring], which may round a
    full bucket above its capacity; the acquire that is denied at a full bucket and the peek
    after a refund that fills the bucket then raise [RateLimitStoreCorrupt]. *)
Theorem redis_refuses_full_bucket `{Rounding} (k : config) :
  config_ok k -> capacity k < lua_text (capacity k) ->
  (forall req now, capacity k < req ->
     (acquire_redis k req now None).2 = Err RateLimitStoreCorrupt) /\
  (forall amount now now' h,
     capacity k <= fadd (refilled k (h_tokens h) (h_ts h) now) amount ->
     peek_redis k now' (lua_refund k amount now (Some h)) = Err RateLimitStoreCorrupt).
Proof.
  intros Hk Hlt. assert (Hbad : Qle_bool (lua_text (capacity k)) (capacity k) = false)
    by (by apply Qle_bool_false).
  split.
  - intros req now Hreq. unfold acquire_redis, lua_acquire, decide_redis, decode_lua_result.
    set (t := refilled k (capacity k) now now).
    assert (Et : t = capacity k).
    { pose proof (refilled_full k now now Hk) as E. unfold t, refilled in *.
      destruct (fmin_cases (capacity k) (fadd (capacity k) (fmul (fmax 0 (fsub now now)) (refill k))))
        as [[E' ?]|[E' ?]]; rewrite E' in *; [lra|done]. }
    rewrite Et. assert (Qle_bool req (capacity k) = false) as -> by (by apply Qle_bool_false).
    cbn [reply_list l_allowed l_tokens l_retry rbind elem_float snd]. change (Qtrunc (inject_Z 0)) with 0%Z.
    cbn [Z.eqb orb negb]. rewrite Hbad, andb_false_r. done.
  - intros amount now now' h Hfull. unfold peek_redis, lua_refund.
    destruct (fmin_cases (capacity k) (fadd (refilled k (h_tokens h) (h_ts h) now) amount))
      as [[E ?]|[-> _]]; [lra|].
    cbn [h_tokens h_ts]. unfold honest_tokens. by rewrite Hbad, andb_false_r.
Qed.

(** ** Concrete buckets *)

Definition ten : config := {| capacity := 10; refill := 1 # 2 |}.
Definition quota3 : config := {| capacity := 3; refill := 0 |}.

Lemma ten_ok : config_ok ten.
Proof. by split. Qed.

Lemma quota3_ok : config_ok quota3.
Proof. by split. Qed.

Lemma token_rate_respected_witness :
  (mem_run ten [Acquire 10 100; Acquire 1 100; Acquire 4 108; Refund 4] (new_bucket ten)).2 == 10 /\
  (mem_run ten [Acquire 10 100; Acquire 1 100; Acquire 4 108; Refund 4] (new_bucket ten)).2
    <= 10 + (1 # 2) * climb (Some 100) [Acquire 1 100; Acquire 4 108; Refund 4]
       + inject_Z 4 * (5 * ulp53 * 10).
Proof.
  split; [reflexivity|].
  apply (token_rate_respected ten 10 100 [Acquire 1 100; Acquire 4 108; Refund 4]
           (mem_run ten [Acquire 10 100; Acquire 1 100; Acquire 4 108; Refund 4] (new_bucket ten)).1).
  - exact ten_ok.
  - discriminate.
  - repeat constructor; discriminate.
  - by destruct (mem_run _ _ _).
Defined.

Lemma pg_bucket_agrees_witness :
  exists ds, run_pg ten "api" true [CallAcquire 8 100 0; CallAcquire 8 101 0; CallReset 102; CallAcquire 8 103 0] ∅ = Ok ds /\
    Forall2 same_decision ds
      (run_memory ten [CallAcquire 8 100 0; CallAcquire 8 101 0; CallReset 102; CallAcquire 8 103 0] (new_bucket ten)).
Proof.
  apply (pg_bucket_agrees ten "api" true); [exact ten_ok| |done]. repeat constructor; discriminate.
Defined.

(** Three whole tokens are spent, an idle sweep finds the row, nothing more is granted. *)
Definition spent_table : btable :=
  match acquire_pg quota3 "q" true 3 100 0 true 0 ∅ with Ok (t, _) => t | Err _ => ∅ end.

Lemma fixed_quota_spent_once_witness : 0 + 3 <= 3.
Proof.
  apply (fixed_quota_spent_once quota3 "q" ∅ spent_table _ 3); [exact quota3_ok|reflexivity..|lia|done|].
  eapply rtc_l; [|apply rtc_refl].
  apply (bs_acquire whole quota3 "q" true 3 100 0 true 0 ∅ spent_table
           {| allowed := true; remaining := fsub 3 3; retry_after := Some 0%Z |} 0);
    [by exists 3%Z|reflexivity].
Defined.

Lemma bucket_rows_well_typed_witness :
  exists s, peek_pg quota3 "q" spent_table = Ok s /\ 0 <= tokens_remaining s <= 3.
Proof.
  apply (bucket_rows_well_typed quota3 "q" ∅ spent_table (0 + 3)); [exact quota3_ok|done|].
  eapply rtc_l; [|apply rtc_refl].
  apply (bs_acquire _ quota3 "q" true 3 100 0 true 0 ∅ spent_table
           {| allowed := true; remaining := fsub 3 3; retry_after := Some 0%Z |} 0);
    [discriminate|reflexivity].
Defined.

(** One hundred requests a minute, as a rate with a burst of a second. *)
Definition per_second : config := {| capacity := b64 (100 # 60); refill := b64 (100 # 60) |}.

Lemma redis_refuses_full_bucket_witness :
  capacity per_second < lua_text (capacity per_second) /\
  (acquire_redis per_second 2 100 None).2 = Err RateLimitStoreCorrupt.
Proof.
  assert (Hlt : capacity per_second < lua_text (capacity per_second)) by (vm_compute; reflexivity).
  split; [exact Hlt|]. apply (redis_refuses_full_bucket per_second); [|exact Hlt|vm_compute; reflexivity].
  split; vm_compute; congruence.
Defined.

(** A denial whose deficit refills within half a microsecond is told to wait zero. *)
Theorem fast_refill_zero_hint :
  let k := {| capacity := 1; refill := 10000000 |} in
  let b := (mem_acquire k 1 0 (new_bucket k)).1 in
  allowed (mem_acquire k 1 0 b).2 = false /\ retry_after (mem_acquire k 1 0 b).2 = Some 0%Z.
Proof. vm_compute. done. Qed.

(** A step of the clock back and forth refills: the empty bucket at time 100 grants five
    tokens at time 100 once an acquire has read time 90. *)
Theorem step_back_refills :
  (mem_run ten [Acquire 10 100; Acquire 5 100] (new_bucket ten)).2 == 10 /\
  (mem_run ten [Acquire 10 100; Acquire 5 90; Acquire 5 100] (new_bucket ten)).2 == 15.
Proof. vm_compute. done. Qed.
