(* ===== verification/SlidingWindow.v ===== *)
(** * Sliding-window rate limits

    [src/taskq/ratelimit/sliding_window.py] and [src/taskq/ratelimit/_sliding_window_pg.py]:
    the in-memory log and the in-memory GCRA limiters, the construction and the in-memory
    arms of [SlidingWindow], and the log-style limiter whose window lives in PostgreSQL.

    Timestamps of the in-memory limiters are integer milliseconds, those of PostgreSQL
    integer microseconds; timedeltas are microseconds.  Request ids (fresh UUIDs) are only
    ever compared, so they are any type with decidable equality.  A method that mutates and
    then raises returns both the state it left and the exception. *)

From Stdlib Require Import ZArith Lia QArith.
From stdpp Require Import base tactics list strings sorting.
From S2P Require Import Prelude PyFloat.

Open Scope Z_scope.

(** ** Decisions, states and exceptions *)

Definition ms (n : Z) : Z := n * 1000.

(** [previous_state] of an in-memory GCRA decision. *)
Record gcra_previous := {
  previous_tat_ms : option Q;
  new_tat_ms : Q;
  acquire_now_ms : Z
}.

(** Both styles report a whole number of remaining admissions. *)
Record RateLimitDecision (Rid : Type) := {
  allowed : bool;
  remaining : Z;
  retry_after : Z;
  request_id : option Rid;
  previous_state : option gcra_previous
}.
Arguments allowed {Rid}.
Arguments remaining {Rid}.
Arguments retry_after {Rid}.
Arguments request_id {Rid}.
Arguments previous_state {Rid}.
Arguments Build_RateLimitDecision {Rid}.

Record RateLimitState := {
  is_exhausted : bool;
  st_remaining : Z;
  st_retry_after : option Z
}.

Inductive py_err := IndexError | ZeroDivisionError | ValueError | RuntimeError.

#[export] Instance py_err_eq_dec : EqDecision py_err.
Proof. solve_decision. Defined.

(** Python indexing of a deque at 0, and [popleft]. *)
Definition first {A} (l : list A) : result py_err A :=
  match l with [] => Err IndexError | x :: _ => Ok x end.

(** ** The in-memory log *)

Section memory_log.
Context {Rid : Type} `{EqDecision Rid}.

(** The two deques of [_InMemorySlidingWindowLog]. *)
Record mlog := { deque : list Z; ids : list Rid }.

Definition empty_log : mlog := {| deque := []; ids := [] |}.

(** The eviction loop: one [popleft] of each deque per round, while the oldest timestamp
    is at or before the cutoff. *)
Fixpoint evict (cutoff : Z) (ds : list Z) (rs : list Rid) : mlog * result py_err unit :=
  match ds with
  | [] => ({| deque := ds; ids := rs |}, Ok tt)
  | d :: ds' =>
      if d <=? cutoff then
        match rs with
        | [] => ({| deque := ds'; ids := [] |}, Err IndexError)
        | _ :: rs' => evict cutoff ds' rs'
        end
      else ({| deque := ds; ids := rs |}, Ok tt)
  end.

Definition denied (retry : Z) : RateLimitDecision Rid :=
  {| allowed := false; remaining := 0; retry_after := retry;
     request_id := None; previous_state := None |}.

Definition log_acquire (limit window_ms now_ms : Z) (rid : Rid) (m : mlog) :
    mlog * result py_err (RateLimitDecision Rid) :=
  let cutoff := now_ms - window_ms in
  match evict cutoff (deque m) (ids m) with
  | (m', Err e) => (m', Err e)
  | (m', Ok _) =>
      if limit <=? Z.of_nat (length (deque m')) then
        (m', let* oldest := first (deque m') in
             let retry_ms := oldest + window_ms - now_ms in
             Ok (denied (ms retry_ms)))
      else
        let m'' := {| deque := deque m' ++ [now_ms]; ids := ids m' ++ [rid] |} in
        (m'', Ok {| allowed := true;
                    remaining := limit - Z.of_nat (length (deque m''));
                    retry_after := 0; request_id := None; previous_state := None |})
  end.

(** [del l[i]]. *)
Definition del {A} (i : nat) (l : list A) : result py_err (list A) :=
  if decide (i < length l)%nat then Ok (take i l ++ drop (S i) l) else Err IndexError.

Fixpoint index_of (rid : Rid) (l : list Rid) : option nat :=
  match l with
  | [] => None
  | x :: l' => if decide (x = rid) then Some 0%nat else S <$> index_of rid l'
  end.

(** [refund]: the first entry of the request id is deleted from both deques. *)
Definition log_refund (rid : Rid) (m : mlog) : mlog * result py_err unit :=
  match index_of rid (ids m) with
  | None => (m, Ok tt)
  | Some i =>
      match del i (deque m) with
      | Err e => (m, Err e)
      | Ok ds =>
          match del i (ids m) with
          | Err e => ({| deque := ds; ids := ids m |}, Err e)
          | Ok rs => ({| deque := ds; ids := rs |}, Ok tt)
          end
      end
  end.

(** The first timestamp after the cutoff, in deque order. *)
Definition oldest_in_window (cutoff : Z) (l : list Z) : option Z :=
  head (filter (fun ts => cutoff < ts) l).

Definition log_peek (limit window_ms now_ms : Z) (m : mlog) : RateLimitState :=
  let cutoff := now_ms - window_ms in
  let count := Z.of_nat (length (filter (fun ts => cutoff < ts) (deque m))) in
  let is_exhausted := limit <=? count in
  {| is_exhausted := is_exhausted;
     st_remaining := Z.max 0 (limit - count);
     st_retry_after :=
       if is_exhausted then
         match oldest_in_window cutoff (deque m) with
         | Some o => Some (ms (Z.max 1 (o + window_ms - now_ms)))
         | None => None
         end
       else None |}.

Definition log_reset (m : mlog) : mlog := empty_log.

End memory_log.
Arguments mlog : clear implicits.

(** ** The in-memory GCRA *)

Section memory_gcra.
Context `{Rounding}.

(** [_emission_interval_ms] is fixed at construction: [window_ms / limit]. *)
Record gcra := { tat : option Q; glog : list Z }.

Definition empty_gcra : gcra := {| tat := None; glog := [] |}.

Definition emission_interval_ms (limit window_ms : Z) : Q := fdiv (inject_Z window_ms) (inject_Z limit).

(** Float division: raises on a zero divisor. *)
Definition pydiv (x y : Q) : result py_err Q :=
  if Qeq_bool y 0 then Err ZeroDivisionError else Ok (fdiv x y).

Fixpoint evict_log (cutoff : Z) (l : list Z) : list Z :=
  match l with
  | [] => []
  | d :: l' => if d <=? cutoff then evict_log cutoff l' else l
  end.

Definition base_tat (now_ms : Z) (g : gcra) : Q :=
  fmax (match tat g with Some t => t | None => fint now_ms end) (fint now_ms).

(** [a < b] on floats. *)
Definition flt (a b : Q) : bool := negb (Qle_bool b a).

Definition gcra_acquire {Rid} (limit window_ms now_ms : Z) (g : gcra) :
    gcra * result py_err (RateLimitDecision Rid) :=
  let emission := emission_interval_ms limit window_ms in
  let tolerance := fint window_ms in
  let now := fint now_ms in
  let log := evict_log (now_ms - window_ms) (glog g) in
  let g0 := {| tat := tat g; glog := log |} in
  let new_tat := fadd (base_tat now_ms g) emission in
  let allow_at := fsub new_tat tolerance in
  let count_full := limit <=? Z.of_nat (length log) in
  if flt now allow_at || count_full then
    (g0,
     let* retry_after :=
       (if count_full && negb (flt now allow_at) then
          let* oldest := first log in
          Ok (ms (Z.max 1 (oldest + window_ms - now_ms)))
        else Ok (ms (rne (fsub allow_at now)))) in
     Ok (denied retry_after))
  else
    let g1 := {| tat := Some new_tat; glog := log ++ [now_ms] |} in
    (g1,
     let* q := pydiv (fsub tolerance (fsub new_tat now)) emission in
     let remaining := Z.max 0 (Qtrunc q) in
     Ok {| allowed := true;
           remaining := Z.min remaining (limit - Z.of_nat (length (glog g1)));
           retry_after := 0; request_id := None;
           previous_state := Some {| previous_tat_ms := tat g; new_tat_ms := new_tat;
                                     acquire_now_ms := now_ms |} |}).

(** [deque.remove], with the [ValueError] of a missing value suppressed. *)
Fixpoint remove_first (x : Z) (l : list Z) : list Z :=
  match l with
  | [] => []
  | y :: l' => if y =? x then l' else y :: remove_first x l'
  end.

(** [refund]: a compare-and-set on the stored TAT. *)
Definition gcra_refund (p : gcra_previous) (g : gcra) : gcra :=
  match tat g with
  | None => g
  | Some t =>
      if Qeq_bool t (new_tat_ms p) then
        {| tat := previous_tat_ms p; glog := remove_first (acquire_now_ms p) (glog g) |}
      else g
  end.

Definition gcra_peek (limit window_ms now_ms : Z) (g : gcra) : result py_err RateLimitState :=
  let emission := emission_interval_ms limit window_ms in
  let tolerance := fint window_ms in
  let now := fint now_ms in
  let cutoff := now_ms - window_ms in
  let log_count := Z.of_nat (length (filter (fun ts => cutoff < ts) (glog g))) in
  let t := base_tat now_ms g in
  let* q := pydiv (fsub tolerance (fsub t now)) emission in
  let remaining := Z.min (Z.max 0 (Qtrunc q)) (limit - log_count) in
  let is_exhausted := (remaining <=? 0) || (limit <=? log_count) in
  let from_log :=
    if limit <=? log_count then
      match oldest_in_window cutoff (glog g) with
      | Some o => Some (ms (Z.max 1 (o + window_ms - now_ms)))
      | None => None
      end
    else None in
  let allow_at := fsub (fadd t emission) tolerance in
  Ok {| is_exhausted := is_exhausted;
        st_remaining := remaining;
        st_retry_after :=
          if is_exhausted then
            match from_log with
            | Some r => Some r
            | None => Some (ms (Z.max 1 (rne (fsub allow_at now))))
            end
          else None |}.

Definition gcra_reset (g : gcra) : gcra := empty_gcra.

(** ** The [SlidingWindow] object, in-memory backend *)

Inductive SlidingWindowStyle := Log | Gcra.

(** [int(td.total_seconds() * 1000)] of a timedelta, also [int(now.timestamp() * 1000)]. *)
Definition to_ms (td : Z) : Z := Qtrunc (fmul (total_seconds td) 1000).

Definition TTL_SAFETY_MARGIN : Z := 60 * usec_per_sec.

Context {Rid : Type} `{EqDecision Rid}.

Record SlidingWindow := {
  sw_limit : Z;
  sw_window : Z;
  sw_style : SlidingWindowStyle;
  sw_ttl : Z;
  mem_log : option (mlog Rid);
  mem_gcra : option gcra
}.

(** [__init__] with [backend="memory"]. *)
Definition new_memory (limit window : Z) (style : SlidingWindowStyle) (ttl : option Z) :
    result py_err SlidingWindow :=
  if limit <? 1 then Err ValueError
  else if window <=? 0 then Err ValueError
  else Ok {| sw_limit := limit; sw_window := window; sw_style := style;
             sw_ttl := match ttl, style with
                       | Some t, _ => t
                       | None, Gcra => window + TTL_SAFETY_MARGIN
                       | None, Log => 2 * window + TTL_SAFETY_MARGIN
                       end;
             mem_log := match style with Log => Some empty_log | Gcra => None end;
             mem_gcra := match style with Log => None | Gcra => Some empty_gcra end |}.

Definition with_request_id (rid : Rid) (d : RateLimitDecision Rid) : RateLimitDecision Rid :=
  {| allowed := allowed d; remaining := remaining d; retry_after := retry_after d;
     request_id := Some rid; previous_state := previous_state d |}.

(** The memory arms of [acquire]; [clock] is the injected clock's reading (microseconds
    since the epoch) and [rid] the request id a log-style acquire generates. *)
Definition acquire_memory (clock : option Z) (rid : Rid) (w : SlidingWindow) :
    SlidingWindow * result py_err (RateLimitDecision Rid) :=
  match clock with
  | None => (w, Err RuntimeError)
  | Some now =>
      let now_ms := to_ms now in
      let window_ms := to_ms (sw_window w) in
      match sw_style w with
      | Log =>
          match mem_log w with
          | None => (w, Err RuntimeError)
          | Some m =>
              let '(m', r) := log_acquire (sw_limit w) window_ms now_ms rid m in
              ({| sw_limit := sw_limit w; sw_window := sw_window w; sw_style := sw_style w;
                  sw_ttl := sw_ttl w; mem_log := Some m'; mem_gcra := mem_gcra w |},
               let* d := r in Ok (with_request_id rid d))
          end
      | Gcra =>
          match mem_gcra w with
          | None => (w, Err RuntimeError)
          | Some g =>
              let '(g', r) := gcra_acquire (sw_limit w) window_ms now_ms g in
              ({| sw_limit := sw_limit w; sw_window := sw_window w; sw_style := sw_style w;
                  sw_ttl := sw_ttl w; mem_log := mem_log w; mem_gcra := Some g' |}, r)
          end
      end
  end.

(** The memory arms of [refund]: nothing to do for a decision that carries no handle. *)
Definition refund_memory (d : RateLimitDecision Rid) (w : SlidingWindow) :
    SlidingWindow * result py_err unit :=
  match sw_style w with
  | Log =>
      match mem_log w with
      | None => (w, Err RuntimeError)
      | Some m =>
          match request_id d with
          | None => (w, Ok tt)
          | Some rid =>
              let '(m', r) := log_refund rid m in
              ({| sw_limit := sw_limit w; sw_window := sw_window w; sw_style := sw_style w;
                  sw_ttl := sw_ttl w; mem_log := Some m'; mem_gcra := mem_gcra w |}, r)
          end
      end
  | Gcra =>
      match mem_gcra w with
      | None => (w, Err RuntimeError)
      | Some g =>
          match previous_state d with
          | None => (w, Ok tt)
          | Some p =>
              ({| sw_limit := sw_limit w; sw_window := sw_window w; sw_style := sw_style w;
                  sw_ttl := sw_ttl w; mem_log := mem_log w;
                  mem_gcra := Some (gcra_refund p g) |}, Ok tt)
          end
      end
  end.

(** The memory arms of [reset]. *)
Definition reset_memory (w : SlidingWindow) : SlidingWindow * result py_err unit :=
  match sw_style w with
  | Log =>
      match mem_log w with
      | None => (w, Err RuntimeError)
      | Some m =>
          ({| sw_limit := sw_limit w; sw_window := sw_window w; sw_style := sw_style w;
              sw_ttl := sw_ttl w; mem_log := Some (log_reset m); mem_gcra := mem_gcra w |}, Ok tt)
      end
  | Gcra =>
      match mem_gcra w with
      | None => (w, Err RuntimeError)
      | Some g =>
          ({| sw_limit := sw_limit w; sw_window := sw_window w; sw_style := sw_style w;
              sw_ttl := sw_ttl w; mem_log := mem_log w; mem_gcra := Some (gcra_reset g) |}, Ok tt)
      end
  end.

(** The memory arms of [peek]. *)
Definition peek_memory (clock : option Z) (w : SlidingWindow) : result py_err RateLimitState :=
  match clock with
  | None => Err RuntimeError
  | Some now =>
      match sw_style w with
      | Log =>
          match mem_log w with
          | None => Err RuntimeError
          | Some m => Ok (log_peek (sw_limit w) (to_ms (sw_window w)) (to_ms now) m)
          end
      | Gcra =>
          match mem_gcra w with
          | None => Err RuntimeError
          | Some g => gcra_peek (sw_limit w) (to_ms (sw_window w)) (to_ms now) g
          end
      end
  end.

End memory_gcra.
Arguments SlidingWindow : clear implicits.

(** ** The log kept in PostgreSQL *)

Section pg_log.
Context {Rid : Type} `{EqDecision Rid}.

(** A row of [rate_limit_window_entries]. *)
Record entry := { e_bucket : string; e_ts : Z; e_rid : Rid }.

(** The readings of [clock_timestamp()] in the fused statement, one per mention, and per
    scanned row where the mention is in a row predicate. *)
Record reads := {
  prune_at : nat -> Z;
  count_at : nat -> Z;
  stamp : Z;
  shown_at : nat -> Z;
  oldest_at : nat -> Z;
  server_now : Z
}.

Definition indexed {A} (l : list A) : list (nat * A) := imap (fun i x => (i, x)) l.

(** Rows of the bucket whose timestamp is at or after [clk - window]. *)
Definition in_window (clk : nat -> Z) (window_ms : Z) (b : string) (p : nat * entry) : Prop :=
  e_bucket p.2 = b /\ clk p.1 - ms window_ms <= e_ts p.2.

#[export] Instance in_window_dec clk w b p : Decision (in_window clk w b p).
Proof. unfold in_window. apply _. Defined.

Definition window_rows (clk : nat -> Z) (window_ms : Z) (b : string) (t : list entry) : list entry :=
  map snd (filter (in_window clk window_ms b) (indexed t)).

(** The [pruned] CTE: what its DELETE leaves. *)
Definition pruned (clk : nat -> Z) (window_ms : Z) (b : string) (t : list entry) : list entry :=
  map snd (filter (fun p => ~ (e_bucket p.2 = b /\ e_ts p.2 < clk p.1 - ms window_ms)) (indexed t)).

Definition min_ts (l : list entry) : option Z :=
  match map e_ts l with
  | [] => None
  | x :: l' => Some (fold_left Z.min l' x)
  end.

(** [timedelta(milliseconds=1)] unless the hint is positive. *)
Definition positive_hint (td : Z) : Z := if td <=? 0 then ms 1 else td.

(** [_acquire_pg_log] once the schema and pool are resolved.  [lock] is the outcome of the
    bounded advisory-lock acquire and [lock_timeout] its budget (microseconds). *)
Definition acquire_pg_log (limit window_ms : Z) (b : string) (lock : bool) (lock_timeout : Z)
    (rd : reads) (rid : Rid) (t : list entry) : list entry * RateLimitDecision Rid :=
  if lock then
    let inserted :=
      Z.of_nat (length (window_rows (count_at rd) window_ms b t)) <? limit in
    let count_in_window := Z.of_nat (length (window_rows (shown_at rd) window_ms b t)) in
    let oldest_ts := min_ts (window_rows (oldest_at rd) window_ms b t) in
    let left := pruned (prune_at rd) window_ms b t in
    if inserted then
      (left ++ [{| e_bucket := b; e_ts := stamp rd; e_rid := rid |}],
       {| allowed := true; remaining := limit - (count_in_window + 1); retry_after := 0;
          request_id := Some rid; previous_state := None |})
    else
      (left,
       {| allowed := false; remaining := 0;
          retry_after := match oldest_ts with
                         | Some o => positive_hint (o + ms window_ms - server_now rd)
                         | None => ms 1
                         end;
          request_id := Some rid; previous_state := None |})
  else
    (t, {| allowed := false; remaining := 0; retry_after := lock_timeout;
           request_id := Some rid; previous_state := None |}).

(** [_refund_pg_log] of a decision: a DELETE by bucket and request id. *)
Definition refund_pg_log (b : string) (d : RateLimitDecision Rid) (t : list entry) : list entry :=
  match request_id d with
  | None => t
  | Some rid => filter (fun e => ~ (e_bucket e = b /\ e_rid e = rid)) t
  end.

Definition reset_pg_log (b : string) (t : list entry) : list entry :=
  filter (fun e => e_bucket e <> b) t.

(** [_peek_pg_log]: the two statements on one connection see the tables [t] and [t']. *)
Definition peek_pg_log (limit window_ms : Z) (b : string) (count_at oldest_at : nat -> Z)
    (server_now : Z) (t t' : list entry) : RateLimitState :=
  let count := Z.of_nat (length (window_rows count_at window_ms b t)) in
  let is_exhausted := limit <=? count in
  {| is_exhausted := is_exhausted;
     st_remaining := Z.max 0 (limit - count);
     st_retry_after :=
       if is_exhausted && (0 <? count) then
         match min_ts (window_rows oldest_at window_ms b t') with
         | Some o => Some (positive_hint (o + ms window_ms - server_now))
         | None => None
         end
       else None |}.

End pg_log.
Arguments entry : clear implicits.
