(* ===== verification/WindowProps.v ===== *)
(** * What the sliding-window limiters guarantee

    The interface [WindowLimiter] states what a limiter promises to its callers: the grants
    still charged are remembered while they are in the window, and a grant is given only
    below the limit.  Against it, no window ever holds more than the limit's worth of
    grants; the in-memory limiters (log and GCRA) and the PostgreSQL log implement it.  The
    evicting log is also shown to refine a log that never forgets. *)

From Stdlib Require Import ZArith Lia QArith Qabs Qround Lqa.
From stdpp Require Import base tactics relations list strings sorting.
From S2P Require Import Prelude PyFloat SlidingWindow.

Open Scope Z_scope.

(** ** The interface *)

Section live.
Context {T : Type}.

(** Grants are (timestamp, ticket) pairs; [live H t] are the ones less than [H] old at [t]. *)
Definition live (H t : Z) (g : Z * T) : Prop := t - H < g.1.

#[export] Instance live_dec H t g : Decision (live H t g).
Proof. unfold live. apply _. Defined.

(** Grants stamped in the window of length [H] that ends at [a]. *)
Definition within (H a : Z) (g : Z * T) : Prop := a - H < g.1 <= a.

#[export] Instance within_dec H a g : Decision (within H a g).
Proof. unfold within. apply _. Defined.

Definition count (P : Z * T -> Prop) `{!forall g, Decision (P g)} (G : list (Z * T)) : Z :=
  Z.of_nat (length (filter P G)).
End live.

Class WindowLimiter (St Req T : Type) := {
  wl_limit : Z;
  wl_horizon : Z;
  (** The grant of an acquire: its timestamp and the ticket a refund hands back. *)
  wl_acquire : Req -> St -> St * option (Z * T);
  wl_refund : T -> St -> St;
  wl_reset : St -> St;
  (** Writes of others to the shared store. *)
  wl_other : St -> St -> Prop;
  (** The request reads the clock between the two times. *)
  wl_span : Z -> Req -> Z -> Prop;
  wl_fresh : Req -> list (Z * T) -> Prop;
  (** At time [t] the store represents the grants that have not been refunded. *)
  wl_rep : Z -> list (Z * T) -> St -> Prop;

  wl_limit_pos : 0 <= wl_limit;
  wl_granted t t' r G s s' g :
    wl_rep t G s -> wl_span t r t' -> wl_fresh r G -> wl_acquire r s = (s', Some g) ->
    t <= g.1 <= t' /\ count (live wl_horizon g.1) G < wl_limit /\ wl_rep t' (g :: G) s';
  wl_denied t t' r G s s' :
    wl_rep t G s -> wl_span t r t' -> wl_acquire r s = (s', None) -> t <= t' /\ wl_rep t' G s';
  wl_refunded t g G G' s : wl_rep t G s -> G ≡ₚ g :: G' -> wl_rep t G' (wl_refund g.2 s);
  wl_reset_ok t G s : wl_rep t G s -> wl_rep t [] (wl_reset s);
  wl_other_ok t G s s' : wl_rep t G s -> wl_other s s' -> wl_rep t G s'
}.

Section client.
Context `{L : WindowLimiter St Req T}.

(** What callers do: acquire at a clock that does not go backwards, refund a grant once,
    reset.  The configuration is (time of the latest reading, grants out, store). *)
Inductive use : Z * list (Z * T) * St -> Z * list (Z * T) * St -> Prop :=
| use_grant t t' r G s s' g :
    wl_span t r t' -> wl_fresh r G -> wl_acquire r s = (s', Some g) ->
    use (t, G, s) (t', g :: G, s')
| use_deny t t' r G s s' :
    wl_span t r t' -> wl_acquire r s = (s', None) -> use (t, G, s) (t', G, s')
| use_refund t g G G' s :
    G ≡ₚ g :: G' -> use (t, G, s) (t, G', wl_refund g.2 s)
| use_reset t G s : use (t, G, s) (t, [], wl_reset s)
| use_other t G s s' : wl_other s s' -> use (t, G, s) (t, G, s').

Definition bounded (G : list (Z * T)) : Prop :=
  forall a, count (within wl_horizon a) G <= wl_limit.

Definition use_inv (c : Z * list (Z * T) * St) : Prop :=
  let '(t, G, s) := c in wl_rep t G s /\ Forall (fun g => g.1 <= t) G /\ bounded G.

Lemma count_perm (P : Z * T -> Prop) `{!forall g, Decision (P g)} G G' :
  G ≡ₚ G' -> count P G = count P G'.
Proof. intros E. unfold count. by rewrite E. Qed.

Lemma count_cons_le (P : Z * T -> Prop) `{!forall g, Decision (P g)} g G :
  count P G <= count P (g :: G).
Proof. unfold count. rewrite filter_cons. destruct (decide (P g)); simpl; lia. Qed.

Lemma count_mono (P Q : Z * T -> Prop) `{!forall g, Decision (P g)} `{!forall g, Decision (Q g)} G :
  (forall g, P g -> Q g) -> count P G <= count Q G.
Proof.
  intros HPQ. unfold count. induction G as [|g G IH]; [done|].
  rewrite !filter_cons. destruct (decide (P g)), (decide (Q g)); simpl; [lia|exfalso; auto|lia|lia].
Qed.

(** A grant keeps the bound: windows ending before it do not see it, later ones contain at
    most the grants that were live when it was given. *)
Lemma bounded_grant g G :
  bounded G -> count (live wl_horizon g.1) G < wl_limit -> bounded (g :: G).
Proof.
  intros Hb Hc a. destruct (decide (within wl_horizon a g)) as [Hw|Hw].
  - assert (count (within wl_horizon a) (g :: G) = 1 + count (within wl_horizon a) G) as ->
      by (unfold count; rewrite filter_cons_True by done; simpl; lia).
    assert (count (within wl_horizon a) G <= count (live wl_horizon g.1) G); [|lia].
    apply count_mono. unfold within, live in *. lia.
  - assert (count (within wl_horizon a) (g :: G) = count (within wl_horizon a) G) as ->
      by (unfold count; by rewrite filter_cons_False).
    apply Hb.
Qed.

Lemma use_preserves c c' : use c c' -> use_inv c -> use_inv c'.
Proof.
  intros Hu. destruct Hu as [t t' r G s s' g Hs Hf Ha|t t' r G s s' Hs Ha|t g G G' s E|t G s|t G s s' Ho];
    intros (Hr & Ht & Hb); simpl.
  - destruct (wl_granted _ _ _ _ _ _ _ Hr Hs Hf Ha) as (Hg & Hc & Hr'). split_and!; [done| |].
    + constructor; [lia|]. eapply Forall_impl; [exact Ht|]. simpl. lia.
    + by apply bounded_grant.
  - destruct (wl_denied _ _ _ _ _ _ Hr Hs Ha) as [Hle Hr']. split_and!; [done| |done].
    eapply Forall_impl; [exact Ht|]. simpl. lia.
  - split_and!; [by eapply wl_refunded| |].
    + rewrite E in Ht. by inversion Ht.
    + intros a. specialize (Hb a). rewrite (count_perm _ _ _ E) in Hb.
      pose proof (count_cons_le (within wl_horizon a) g G'). lia.
  - split_and!; [by eapply wl_reset_ok|constructor|]. intros a. unfold count. simpl. apply wl_limit_pos.
  - split_and!; [by eapply wl_other_ok|done|done].
Qed.

Lemma use_bounded t0 s0 t G s :
  wl_rep t0 [] s0 -> rtc use (t0, [], s0) (t, G, s) -> bounded G.
Proof.
  intros Hr Hu.
  assert (use_inv (t, G, s)) as (_ & _ & Hb); [|exact Hb].
  eapply (rtc_ind_r (fun c => use_inv c)); [|intros c c' _ ?; by apply use_preserves|exact Hu].
  split_and!; [done|constructor|]. intros a. unfold count. simpl. apply wl_limit_pos.
Qed.
End client.

(** ** Sub-multisets *)

Section submseteq_facts.
Context {A : Type}.
Implicit Types l k : list A.

Lemma submseteq_cons_cancel x l k : x :: l ⊆+ x :: k -> l ⊆+ k.
Proof. apply (submseteq_app_inv_l l k [x]). Qed.

Lemma submseteq_cons_notin x l k : l ⊆+ x :: k -> x ∉ l -> l ⊆+ k.
Proof.
  intros [Hlk|[l' [E Hlk]]]%submseteq_cons_r Hx; [done|]. exfalso. apply Hx. rewrite E. left.
Qed.

Lemma submseteq_filter (P : A -> Prop) `{!forall x, Decision (P x)} l k : l ⊆+ k -> filter P l ⊆+ filter P k.
Proof.
  induction 1 as [|x l k Hlk IH|x y l|x l k Hlk IH|l k j _ IH1 _ IH2].
  - done.
  - rewrite !filter_cons. destruct (decide (P x)); [by constructor|done].
  - rewrite !filter_cons. destruct (decide (P x)), (decide (P y)); [constructor|done|done|done].
  - rewrite (filter_cons _ _ k). destruct (decide (P x)); [by constructor|done].
  - by etransitivity.
Qed.

Lemma filter_submseteq (P : A -> Prop) `{!forall x, Decision (P x)} l : filter P l ⊆+ l.
Proof. apply sublist_submseteq. induction l; [done|]. rewrite filter_cons. case_decide; by constructor. Qed.

Lemma submseteq_filter_impl (P Q : A -> Prop) `{!forall x, Decision (P x)} `{!forall x, Decision (Q x)} l :
  (forall x, P x -> Q x) -> filter P l ⊆+ filter Q l.
Proof.
  intros HPQ. induction l as [|x l IH]; [done|]. rewrite !filter_cons.
  destruct (decide (P x)), (decide (Q x)); [by constructor|exfalso; auto|by constructor|done].
Qed.

Lemma filter_keeps_all (P : A -> Prop) `{!forall x, Decision (P x)} l : Forall P l -> filter P l = l.
Proof. induction 1; [done|]. rewrite filter_cons_True by done. by f_equal. Qed.
End submseteq_facts.

(** ** The in-memory log *)

Section log_facts.
Context {Rid : Type} `{EqDecision Rid}.
Implicit Types m : mlog Rid.

(** The eviction drops a prefix of both deques, every dropped timestamp is at or before the
    cutoff, and the loop stops at the first one that is not. *)
Lemma evict_spec cutoff ds (rs : list Rid) :
  length ds = length rs ->
  exists n, evict cutoff ds rs = ({| deque := drop n ds; ids := drop n rs |}, Ok tt) /\
    Forall (fun d => d <= cutoff) (take n ds) /\
    (forall d, head (drop n ds) = Some d -> cutoff < d).
Proof.
  revert rs. induction ds as [|d ds IH]; intros [|r rs] Hl; simplify_eq/=.
  - exists 0%nat. by split_and!.
  - destruct (d <=? cutoff) eqn:Hd; zbool.
    + destruct (IH rs) as (n & E & Hn & Hh); [lia|]. exists (S n). simpl. split_and!; [done|by constructor|done].
    + exists 0%nat. simpl. split_and!; [done|constructor|]. intros ? [= <-]. done.
Qed.

(** The entries of the log, in the form grants are compared in. *)
Definition entries (m : mlog Rid) : list (Z * option Rid) := zip (deque m) (Some <$> ids m).

Definition log_rep (H t : Z) (P : list (Z * option Rid)) (m : mlog Rid) : Prop :=
  length (deque m) = length (ids m) /\ NoDup P.*2 /\
  entries m ⊆+ P /\ filter (live H t) P ⊆+ entries m.

#[export] Instance log_rep_proper H t : Proper (Permutation ==> eq ==> iff) (log_rep H t).
Proof. intros P P' E m ? <-. unfold log_rep. by rewrite E. Qed.

Lemma zip_drop {A B} n (l : list A) (k : list B) : zip (drop n l) (drop n k) = drop n (zip l k).
Proof. revert l k. induction n as [|n IH]; intros [|x l] [|y k]; simpl; try done. by rewrite zip_with_nil_r. Qed.

Lemma length_entries m : length (deque m) = length (ids m) -> length (entries m) = length (deque m).
Proof. intros E. unfold entries. rewrite length_zip_with, length_fmap. lia. Qed.

(** Forgetting expired entries keeps the live part. *)
Lemma live_kept {T} H t now (l : list (Z * T)) (P : list (Z * T)) n :
  t <= now -> filter (live H t) P ⊆+ l -> Forall (fun d => d <= now - H) (take n l.*1) ->
  filter (live H now) P ⊆+ drop n l.
Proof.
  intros Hle HP Hn.
  assert (filter (live H now) P ⊆+ filter (live H now) l) as ->.
  { apply (submseteq_filter (live H now)) in HP. etrans; [|exact HP].
    rewrite list_filter_filter. apply submseteq_filter_impl. unfold live. intros x. lia. }
  rewrite <- (take_drop n l) at 1. rewrite filter_app.
  assert (filter (live H now) (take n l) = []) as ->; [|apply filter_submseteq].
  rewrite <- fmap_take, Forall_fmap in Hn. induction Hn as [|x k Hx Hk IH]; [done|].
  rewrite filter_cons_False; [done|]. unfold live. simpl in Hx. lia.
Qed.

Lemma log_rep_evict H t now P m :
  log_rep H t P m -> t <= now ->
  exists m', evict (now - H) (deque m) (ids m) = (m', Ok tt) /\ log_rep H now P m'.
Proof.
  intros (Hl & Hnd & Hsub & Hlive) Hle.
  destruct (evict_spec (now - H) (deque m) (ids m) Hl) as (n & E & Hn & _).
  eexists; split; [exact E|].
  assert (Hen : entries {| deque := drop n (deque m); ids := drop n (ids m) |} = drop n (entries m)).
  { unfold entries. simpl. by rewrite fmap_drop, zip_drop. }
  split_and!; simpl; [by rewrite !length_drop, Hl|done| |].
  - rewrite Hen. etrans; [|exact Hsub]. apply sublist_submseteq, sublist_drop.
  - rewrite Hen. eapply live_kept; [done|exact Hlive|].
    unfold entries. rewrite fst_zip by (rewrite length_fmap; lia). done.
Qed.

Lemma log_rep_count H t P m : log_rep H t P m -> count (live H t) P <= Z.of_nat (length (deque m)).
Proof.
  intros (Hl & _ & _ & Hlive). unfold count. rewrite <- (length_entries m Hl).
  apply submseteq_length in Hlive. lia.
Qed.

Lemma log_rep_push H now P m (rid : Rid) :
  log_rep H now P m -> Some rid ∉ P.*2 ->
  log_rep H now ((now, Some rid) :: P) {| deque := deque m ++ [now]; ids := ids m ++ [rid] |}.
Proof.
  intros (Hl & Hnd & Hsub & Hlive) Hf.
  assert (Hen : entries {| deque := deque m ++ [now]; ids := ids m ++ [rid] |} ≡ₚ (now, Some rid) :: entries m).
  { unfold entries. simpl. rewrite fmap_app. simpl. rewrite zip_with_app by (by rewrite length_fmap).
    simpl. by rewrite Permutation_app_comm. }
  split_and!; [simpl; by rewrite !length_app, Hl|by constructor| |].
  - rewrite Hen. by constructor.
  - rewrite Hen, filter_cons. case_decide; [by constructor|by apply submseteq_cons].
Qed.

Lemma del_head {A} (x : A) l : del 0 (x :: l) = Ok l.
Proof. unfold del. by rewrite decide_True by (simpl; lia). Qed.

Lemma del_tail {A} i (x : A) l : del (S i) (x :: l) = let* l' := del i l in Ok (x :: l').
Proof.
  unfold del. destruct (decide (i < length l)%nat);
    [rewrite decide_True by (simpl; lia)|rewrite decide_False by (simpl; lia)]; done.
Qed.

Lemma index_of_entries (rid : Rid) (ds : list Z) rs :
  length ds = length rs ->
  match index_of rid rs with
  | None => Some rid ∉ Some <$> rs
  | Some i => exists (ds' : list Z) (rs' : list Rid) (d : Z), del i ds = Ok ds' /\ del i rs = Ok rs' /\ length ds' = length rs' /\
      zip ds (Some <$> rs) ≡ₚ (d, Some rid) :: zip ds' (Some <$> rs')
  end.
Proof.
  revert ds. induction rs as [|r rs IH]; intros [|d ds] Hl; simplify_eq/=; [by apply not_elem_of_nil|].
  destruct (decide (r = rid)) as [->|Hr].
  - exists ds, rs, d. rewrite !del_head. by split_and!.
  - specialize (IH ds Hl). destruct (index_of rid rs) as [i|]; simpl.
    + destruct IH as (ds' & rs' & d' & E1 & E2 & Hl' & E). 
      exists (d :: ds'), (r :: rs'), d'. rewrite !del_tail, E1, E2. split_and!; [done|done|simpl; lia|]. simpl. rewrite E. apply Permutation_swap.
    + intros [?|?]%elem_of_cons; congruence.
Qed.

(** Taking one grant out of a represented multiset. *)
Lemma rep_remove {T} H t (x : Z * T) (P' E E' : list (Z * T)) :
  E ⊆+ x :: P' -> filter (live H t) (x :: P') ⊆+ E -> NoDup (x :: P').*2 ->
  (x ∉ E /\ E' = E \/ E ≡ₚ x :: E') -> E' ⊆+ P' /\ filter (live H t) P' ⊆+ E'.
Proof.
  intros Hsub Hlive Hnd [[Hx ->]|Ep].
  - split; [by eapply submseteq_cons_notin|]. etrans; [|exact Hlive].
    rewrite (filter_cons _ x). case_decide; [by apply submseteq_cons|done].
  - rewrite Ep in Hsub, Hlive. apply submseteq_cons_cancel in Hsub. split; [done|].
    rewrite filter_cons in Hlive. destruct (decide (live H t x)); [by eapply submseteq_cons_cancel|].
    eapply submseteq_cons_notin; [exact Hlive|]. intros Hin%list_elem_of_filter. tauto.
Qed.

Lemma log_rep_refund H t (rid : Rid) ts P P' m :
  log_rep H t P m -> P ≡ₚ (ts, Some rid) :: P' ->
  exists m', log_refund rid m = (m', Ok tt) /\ log_rep H t P' m'.
Proof.
  intros (Hl & Hnd & Hsub & Hlive) EP. rewrite EP in Hnd, Hsub, Hlive.
  pose proof (index_of_entries rid (deque m) (ids m) Hl) as Hi. unfold log_refund.
  destruct (index_of rid (ids m)) as [i|].
  - destruct Hi as (ds' & rs' & d & -> & -> & Hl' & E). eexists; split; [done|].
    assert (d = ts) as ->.
    { assert (Hd : (d, Some rid) ∈ (ts, Some rid) :: P').
      { eapply elem_of_submseteq; [|exact Hsub]. unfold entries. rewrite E. left. }
      apply elem_of_cons in Hd as [?|Hd]; [congruence|]. exfalso.
      apply NoDup_cons in Hnd as [Hnd _]. apply Hnd. apply list_elem_of_fmap. by exists (d, Some rid). }
    destruct (rep_remove H t _ P' _ (entries {| deque := ds'; ids := rs' |}) Hsub Hlive Hnd) as [H1 H2];
      [right; exact E|]. split_and!; [done|by apply NoDup_cons in Hnd as [_ ?]|done|done].
  - eexists; split; [done|].
    destruct (rep_remove H t _ P' _ (entries m) Hsub Hlive Hnd) as [H1 H2].
    { left. split; [|done]. intros Hin. apply Hi. apply elem_of_zip_r in Hin. done. }
    split_and!; [done|by apply NoDup_cons in Hnd as [_ ?]|done|done].
Qed.
End log_facts.

(** ** The in-memory GCRA *)

Section gcra_facts.
Context `{Rounding}.
Context {Rid : Type}.
Notation dec := (RateLimitDecision Rid).

Definition untag (l : list Z) : list (Z * unit) := (fun ts => (ts, tt)) <$> l.

#[export] Instance untag_proper : Proper (Permutation ==> Permutation) untag.
Proof. intros l k E. unfold untag. by rewrite E. Qed.

(** The count guard remembers every live grant; the refund handle names its timestamp. *)
Definition gcra_rep (W t : Z) (G : list (Z * dec)) (g : gcra) : Prop :=
  filter (live W t) (untag G.*1) ⊆+ untag (glog g) /\
  Forall (fun x => forall p, previous_state x.2 = Some p -> acquire_now_ms p = x.1) G.

Lemma evict_log_spec cutoff l :
  exists n, evict_log cutoff l = drop n l /\ Forall (fun d => d <= cutoff) (take n l).
Proof.
  induction l as [|d l IH]; simpl; [by exists 0%nat|]. destruct (d <=? cutoff) eqn:Hd; zbool.
  - destruct IH as (n & E & Hn). exists (S n). simpl. split; [done|by constructor].
  - exists 0%nat. simpl. split; [done|constructor].
Qed.

Lemma untag_fst l : (untag l).*1 = l.
Proof. unfold untag. rewrite <- list_fmap_compose. apply list_fmap_id. Qed.

Lemma gcra_rep_evict W t now G g :
  gcra_rep W t G g -> t <= now -> gcra_rep W now G {| tat := tat g; glog := evict_log (now - W) (glog g) |}.
Proof.
  intros [Hr Hp] Hle. split; [|done]. simpl.
  destruct (evict_log_spec (now - W) (glog g)) as (n & -> & Hn).
  unfold untag at 2. rewrite fmap_drop. eapply live_kept; [done|exact Hr|]. by rewrite untag_fst.
Qed.

Lemma gcra_acquire_cases limit W now g g' (r : result py_err dec) :
  gcra_acquire limit W now g = (g', r) ->
  let log := evict_log (now - W) (glog g) in
  (glog g' = log /\ forall d, r = Ok d -> allowed d = false) \/
  (Z.of_nat (length log) < limit /\ glog g' = log ++ [now] /\
   forall d, r = Ok d -> forall p, previous_state d = Some p -> acquire_now_ms p = now).
Proof.
  unfold gcra_acquire. cbv zeta. destruct (_ || _) eqn:E; intros [= <- <-]; simpl.
  - left. split; [done|]. intros d Hd. inv_ok. simplify_eq/=. done.
  - right. zbool. split_and!; [lia|done|]. intros d Hd p Hp. inv_ok. simplify_eq/=. done.
Qed.

Lemma gcra_rep_log W t G g g' :
  gcra_rep W t G g -> untag (glog g) ⊆+ untag (glog g') -> gcra_rep W t G g'.
Proof. intros [Hr Hp] Hs. split; [|done]. by etrans. Qed.

Lemma untag_filter_length W t (G : list (Z * dec)) :
  count (live W t) G = Z.of_nat (length (filter (live W t) (untag G.*1))).
Proof.
  unfold count, untag. f_equal. induction G as [|g G IH]; [done|]. simpl. rewrite !filter_cons.
  do 2 case_decide; [simpl; f_equal; exact IH|..|exact IH]; exfalso; unfold live in *; simpl in *; lia.
Qed.

Lemma gcra_rep_count W t G g : gcra_rep W t G g -> count (live W t) G <= Z.of_nat (length (glog g)).
Proof.
  intros [Hr _]. rewrite untag_filter_length. apply submseteq_length in Hr.
  unfold untag in Hr at 2. rewrite length_fmap in Hr. lia.
Qed.

Lemma gcra_rep_push W now G g d t' :
  gcra_rep W now G g -> (forall p, previous_state d = Some p -> acquire_now_ms p = now) ->
  gcra_rep W now ((now, d) :: G) {| tat := t'; glog := glog g ++ [now] |}.
Proof.
  intros [Hr Hp] Hd. split; [|by constructor]. simpl.
  unfold untag at 2. rewrite fmap_app, Permutation_app_comm. simpl. rewrite filter_cons.
  case_decide; [by constructor|by apply submseteq_cons].
Qed.

Lemma remove_first_perm x l : x ∈ l -> l ≡ₚ x :: remove_first x l.
Proof.
  induction l as [|y l IH]; [by intros ?%elem_of_nil|]. intros Hx. simpl.
  destruct (y =? x) eqn:E; zbool; [by subst|].
  apply elem_of_cons in Hx as [->|Hx]; [done|]. rewrite IH at 1 by done. apply Permutation_swap.
Qed.

Lemma remove_first_id x l : x ∉ l -> remove_first x l = l.
Proof.
  induction l as [|y l IH]; [done|]. rewrite not_elem_of_cons. intros [Hx Hl]. simpl.
  destruct (y =? x) eqn:E; zbool; [by subst|]. by rewrite IH.
Qed.

Lemma elem_of_untag x l : (x, tt) ∈ untag l <-> x ∈ l.
Proof.
  unfold untag. rewrite list_elem_of_fmap. split; [|by exists x]. by intros (y & [= ->] & ?).
Qed.

Lemma gcra_rep_refund W t (x : Z * dec) G G' g p :
  gcra_rep W t G g -> G ≡ₚ x :: G' -> previous_state x.2 = Some p -> gcra_rep W t G' (gcra_refund p g).
Proof.
  intros [Hr Hp] EG Ep. rewrite EG in Hr, Hp. apply Forall_cons in Hp as [Hx Hp].
  assert (Hs : gcra_rep W t G' g).
  { split; [|done]. etrans; [|exact Hr]. simpl. rewrite filter_cons. case_decide; [by apply submseteq_cons|done]. }
  unfold gcra_refund. destruct (tat g) as [t0|]; [|done]. destruct (Qeq_bool _ _); [|done].
  rewrite (Hx p Ep). split; [|done]. simpl.
  destruct (decide (x.1 ∈ glog g)) as [Hin|Hin]; [|rewrite remove_first_id by done; apply Hs].
  apply remove_first_perm in Hin. rewrite Hin in Hr. simpl in Hr.
  rewrite filter_cons in Hr. case_decide as Hl; [by eapply submseteq_cons_cancel|].
  eapply submseteq_cons_notin; [exact Hr|]. intros [? _]%list_elem_of_filter. done.
Qed.
End gcra_facts.

(** ** The in-memory [SlidingWindow] implements the interface *)

Section memory_limiter.
Context `{Rounding} {Rid : Type} `{EqDecision Rid}.
Context (limit window : Z) (limit_pos : 1 <= limit).
Notation dec := (RateLimitDecision Rid).

(** Log grants are compared by timestamp and request id. *)
Definition by_request (G : list (Z * dec)) : list (Z * option Rid) :=
  (fun g => (g.1, request_id g.2)) <$> G.

#[export] Instance by_request_proper : Proper (Permutation ==> Permutation) by_request.
Proof. intros l k E. unfold by_request. by rewrite E. Qed.

Lemma by_request_cons g G : by_request (g :: G) = (g.1, request_id g.2) :: by_request G.
Proof. done. Qed.

Definition memory_rep (t : Z) (G : list (Z * dec)) (w : SlidingWindow Rid) : Prop :=
  sw_limit w = limit /\ sw_window w = window /\
  match sw_style w with
  | Log => exists m, mem_log w = Some m /\ log_rep (to_ms window) t (by_request G) m
  | Gcra => exists g, mem_gcra w = Some g /\ gcra_rep (to_ms window) t G g
  end.

(** The grant of an acquire, if it returned an admission. *)
Definition memory_grant (rq : Z * Rid) (w : SlidingWindow Rid) : SlidingWindow Rid * option (Z * dec) :=
  let '(w', r) := acquire_memory (Some rq.1) rq.2 w in
  (w', match r with
       | Ok d => if allowed d then Some (to_ms rq.1, d) else None
       | Err _ => None
       end).

Definition memory_span (t : Z) (rq : Z * Rid) (t' : Z) : Prop := t <= t' /\ t' = to_ms rq.1.

Definition memory_fresh (rq : Z * Rid) (G : list (Z * dec)) : Prop :=
  Forall (fun g => request_id g.2 <> Some rq.2) G.

Lemma by_request_count W t G : count (live W t) (by_request G) = count (live W t) G.
Proof.
  unfold count, by_request. f_equal. induction G as [|g G IH]; [done|]. simpl. rewrite !filter_cons.
  do 2 case_decide; [simpl; f_equal; exact IH|..|exact IH]; exfalso; unfold live in *; simpl in *; lia.
Qed.

Lemma memory_fresh_rid rq G : memory_fresh rq G -> Some rq.2 ∉ (by_request G).*2.
Proof.
  unfold memory_fresh. rewrite Forall_forall. intros Hf Hin. unfold by_request in Hin.
  rewrite <- list_fmap_compose in Hin. apply list_elem_of_fmap in Hin as (g & E & Hg).
  by eapply Hf.
Qed.

Lemma log_acquire_cases W now (rid : Rid) t P m :
  log_rep W t P m -> t <= now ->
  exists m' r, log_acquire limit W now rid m = (m', Ok r) /\ request_id r = None /\
    if allowed r then
      exists m0, log_rep W now P m0 /\ Z.of_nat (length (deque m0)) < limit /\
        m' = {| deque := deque m0 ++ [now]; ids := ids m0 ++ [rid] |}
    else log_rep W now P m'.
Proof.
  intros Hr Hle. destruct (log_rep_evict W t now P m Hr Hle) as (m0 & E & Hr0).
  unfold log_acquire. cbv zeta. rewrite E. destruct (limit <=? _) eqn:Hc; zbool.
  - destruct (deque m0) as [|o ds] eqn:Hd; simpl in *; [lia|].
    eexists _, _. split_and!; [done|done|done].
  - eexists _, _. split_and!; [done|done|]. simpl. by exists m0.
Qed.

Lemma memory_granted t t' rq G w w' g :
  memory_rep t G w -> memory_span t rq t' -> memory_fresh rq G -> memory_grant rq w = (w', Some g) ->
  t <= g.1 <= t' /\ count (live (to_ms window) g.1) G < limit /\ memory_rep t' (g :: G) w'.
Proof.
  intros (Hlim & Hwin & Hrep) [Hle ->] Hf Hg. unfold memory_grant, acquire_memory in Hg.
  rewrite Hlim, Hwin in Hg. destruct (sw_style w) eqn:Hst.
  - destruct Hrep as (m & Hm & Hrep). rewrite Hm in Hg.
    destruct (log_acquire_cases _ (to_ms rq.1) rq.2 _ _ _ Hrep Hle) as (m' & d & E & Hid & Hc).
    rewrite E in Hg. simpl in Hg. destruct (allowed d) eqn:Ha; simplify_eq/=.
    destruct Hc as (m0 & Hr0 & Hlen & ->). pose proof (log_rep_count _ _ _ _ Hr0) as Hcnt.
    rewrite by_request_count in Hcnt. split_and!; [lia|lia|lia|].
    split_and!; [done|done|]. simpl. eexists; split; [done|].
    apply log_rep_push; [done|by apply memory_fresh_rid].
  - destruct Hrep as (gc & Hm & Hrep). rewrite Hm in Hg.
    apply (gcra_rep_evict _ _ (to_ms rq.1)) in Hrep; [|done].
    destruct (gcra_acquire limit (to_ms window) (to_ms rq.1) gc) as [gc' r] eqn:E.
    apply gcra_acquire_cases in E. pose proof (gcra_rep_count _ _ _ _ Hrep) as Hcnt. simpl in Hcnt.
    destruct r as [d|]; simplify_eq/=. destruct (allowed d) eqn:Ha; simplify_eq/=.
    destruct E as [[_ Hd]|(Hlen & Hlog & Hd)]; [specialize (Hd d eq_refl); congruence|].
    split_and!; [lia|lia|lia|]. split_and!; [done|done|]. simpl. eexists; split; [done|].
    eapply gcra_rep_log; [apply (gcra_rep_push _ _ _ _ d (tat gc') Hrep (Hd d eq_refl))|].
    simpl. by rewrite Hlog.
Qed.

Lemma memory_denied t t' rq G w w' :
  memory_rep t G w -> memory_span t rq t' -> memory_grant rq w = (w', None) ->
  t <= t' /\ memory_rep t' G w'.
Proof.
  intros (Hlim & Hwin & Hrep) [Hle ->] Hg. split; [done|]. unfold memory_grant, acquire_memory in Hg.
  rewrite Hlim, Hwin in Hg. destruct (sw_style w) eqn:Hst.
  - destruct Hrep as (m & Hm & Hrep). rewrite Hm in Hg.
    destruct (log_acquire_cases _ (to_ms rq.1) rq.2 _ _ _ Hrep Hle) as (m' & d & E & Hid & Hc).
    rewrite E in Hg. simpl in Hg. destruct (allowed d) eqn:Ha; simplify_eq/=.
    split_and!; [done|done|]. simpl. by eexists.
  - destruct Hrep as (gc & Hm & Hrep). rewrite Hm in Hg.
    apply (gcra_rep_evict _ _ (to_ms rq.1)) in Hrep; [|done].
    destruct (gcra_acquire limit (to_ms window) (to_ms rq.1) gc) as [gc' r] eqn:E.
    apply gcra_acquire_cases in E. injection Hg as <- _.
    split_and!; [done|done|]. simpl. eexists; split; [done|].
    eapply gcra_rep_log; [exact Hrep|]. simpl.
    destruct E as [[-> _]|(_ & -> & _)]; [done|]. unfold untag. rewrite fmap_app. by apply submseteq_inserts_r.
Qed.

Lemma memory_refunded t g G G' w :
  memory_rep t G w -> G ≡ₚ g :: G' -> memory_rep t G' (refund_memory g.2 w).1.
Proof.
  intros (Hlim & Hwin & Hrep) EG. unfold refund_memory. destruct (sw_style w) eqn:Hst.
  - destruct Hrep as (m & Hm & Hrep). rewrite Hm. rewrite EG, by_request_cons in Hrep.
    destruct (request_id g.2) as [rid|] eqn:Hid.
    + destruct (log_rep_refund _ _ rid g.1 _ (by_request G') _ Hrep) as (m' & E & Hr').
      { done. }
      rewrite E. split_and!; [done|done|]. simpl. by eexists.
    + split_and!; [done|done|]. simpl. rewrite Hst. exists m. split; [done|].
      destruct Hrep as (Hl & Hnd & Hsub & Hlive).
      destruct (rep_remove (to_ms window) t (g.1, None) (by_request G') (entries m) (entries m)) as [H1 H2];
        [done|done|done| |split_and!; [done|by apply NoDup_cons in Hnd as [_ ?]|done|done]].
      left. split; [|done]. intros Hin. apply elem_of_zip_r in Hin.
      apply list_elem_of_fmap in Hin as (? & ? & ?). done.
  - destruct Hrep as (gc & Hm & Hrep). rewrite Hm. destruct (previous_state g.2) as [p|] eqn:Hp.
    + split_and!; [done|done|]. simpl. eexists; split; [done|]. by eapply gcra_rep_refund.
    + split_and!; [done|done|]. simpl. rewrite Hst. eexists; split; [done|].
      destruct Hrep as [Hr Hf]. rewrite EG in Hr, Hf. apply Forall_cons in Hf as [_ Hf].
      split; [|done]. etrans; [|exact Hr]. simpl. rewrite filter_cons.
      case_decide; [by apply submseteq_cons|done].
Qed.

Lemma memory_rep_new style ttl w t :
  new_memory limit window style ttl = Ok w -> memory_rep t [] w.
Proof.
  unfold new_memory. do 2 (case_match; [done|]). intros ?; simplify_eq. split_and!; [done|done|].
  destruct style; simpl; eexists; split; try done. by split_and!; constructor.
Qed.

Lemma memory_reset_ok t G w : memory_rep t G w -> memory_rep t [] (reset_memory w).1.
Proof.
  intros (Hlim & Hwin & Hrep). unfold reset_memory. destruct (sw_style w) eqn:Hst;
    destruct Hrep as (m & Hm & Hrep); rewrite Hm; (split_and!; [done|done|]); simpl;
    eexists; split; try done. by split_and!; constructor.
Qed.

Lemma limit_nonneg : 0 <= limit.
Proof. lia. Qed.

Definition memory_limiter : WindowLimiter (SlidingWindow Rid) (Z * Rid) dec := {|
  wl_limit := limit;
  wl_horizon := to_ms window;
  wl_acquire := memory_grant;
  wl_refund d w := (refund_memory d w).1;
  wl_reset w := (reset_memory w).1;
  wl_other _ _ := False;
  wl_span := memory_span;
  wl_fresh := memory_fresh;
  wl_rep := memory_rep;
  wl_granted := memory_granted;
  wl_denied := memory_denied;
  wl_refunded := memory_refunded;
  wl_limit_pos := limit_nonneg;
  wl_reset_ok := memory_reset_ok;
  wl_other_ok _ _ _ _ _ no := match no with end
|}.
End memory_limiter.

(** ** The log in PostgreSQL implements the interface *)

Section pg_limiter.
Context {Rid : Type} `{EqDecision Rid}.
Context (limit window_ms : Z) (limit_pos : 1 <= limit) (b : string).
Notation dec := (RateLimitDecision Rid).
Implicit Types t : list (entry Rid).

Record pg_request := { rq_lock : bool; rq_budget : Z; rq_reads : reads; rq_rid : Rid }.

(** The bucket's rows, in the form grants are compared in. *)
Definition bucket_entries (t : list (entry Rid)) : list (Z * option Rid) :=
  (fun e => (e_ts e, Some (e_rid e))) <$> filter (fun e => e_bucket e = b) t.

(** The PostgreSQL window is closed at both ends. *)
Definition pg_horizon : Z := ms window_ms + 1.

Definition pg_rep (now : Z) (G : list (Z * dec)) (t : list (entry Rid)) : Prop :=
  NoDup (by_request G).*2 /\ filter (live pg_horizon now) (by_request G) ⊆+ bucket_entries t.

Definition pg_grant (rq : pg_request) (t : list (entry Rid)) : list (entry Rid) * option (Z * dec) :=
  let '(t', d) := acquire_pg_log limit window_ms b (rq_lock rq) (rq_budget rq) (rq_reads rq) (rq_rid rq) t in
  (t', if allowed d then Some (stamp (rq_reads rq), d) else None).

(** The readings fall between the two times, and the guard of the insert is evaluated
    before the row it guards is built. *)
Definition pg_span (now : Z) (rq : pg_request) (now' : Z) : Prop :=
  let rd := rq_reads rq in
  now <= now' /\ (forall i, prune_at rd i <= now') /\
  (forall i, count_at rd i <= stamp rd) /\ now <= stamp rd <= now'.

Definition pg_fresh (rq : pg_request) (G : list (Z * dec)) : Prop :=
  Forall (fun g => request_id g.2 <> Some (rq_rid rq)) G.

Lemma indexed_snd {A} (l : list A) : (indexed l).*2 = l.
Proof. unfold indexed. rewrite fmap_imap. rewrite <- (list_fmap_id l) at 2. apply (imap_const id). Qed.

Lemma filter_snd {A B} (P : B -> Prop) `{!forall x, Decision (P x)} (l : list (A * B)) :
  filter P l.*2 = (filter (fun p => P p.2) l).*2.
Proof. induction l as [|p l IH]; [done|]. rewrite fmap_cons, !filter_cons. case_decide; by rewrite ?fmap_cons, IH. Qed.

(** A row predicate that holds at every reading keeps at least the rows of [P]. *)
Lemma filter_indexed {A} (P : A -> Prop) `{!forall x, Decision (P x)}
    (R : nat * A -> Prop) `{!forall p, Decision (R p)} l :
  (forall i x, P x -> R (i, x)) -> filter P l ⊆+ (filter R (indexed l)).*2.
Proof.
  intros HPR. rewrite <- (indexed_snd l) at 1. rewrite filter_snd.
  apply fmap_submseteq, submseteq_filter_impl. intros [i x]. apply HPR.
Qed.

Lemma bucket_entries_submseteq t t' : t ⊆+ t' -> bucket_entries t ⊆+ bucket_entries t'.
Proof. intros E. unfold bucket_entries. by apply fmap_submseteq, submseteq_filter. Qed.

(** Rows of the bucket at or after a time, as entries. *)
Lemma bucket_entries_since now t :
  filter (live pg_horizon now) (bucket_entries t) =
  bucket_entries (filter (fun e => e_bucket e = b /\ now - ms window_ms <= e_ts e) t).
Proof.
  unfold bucket_entries. induction t as [|e t IH]; [done|]. rewrite !filter_cons.
  destruct (decide (e_bucket e = b)) as [Hb|Hb].
  - rewrite fmap_cons, filter_cons. case_decide as Hl; case_decide as Hw;
      unfold live, pg_horizon in Hl; simpl in Hl; try (exfalso; lia || tauto || (apply Hw; split; [done|lia])); [|done].
    rewrite filter_cons_True, fmap_cons by done. by rewrite IH.
  - rewrite decide_False by tauto. done.
Qed.

Lemma pg_rep_live now now' G t :
  pg_rep now G t -> now <= now' ->
  filter (live pg_horizon now') (by_request G) ⊆+
    bucket_entries (filter (fun e => e_bucket e = b /\ now' - ms window_ms <= e_ts e) t).
Proof.
  intros [_ Hl] Hle. rewrite <- bucket_entries_since.
  apply (submseteq_filter (live pg_horizon now')) in Hl. etrans; [|exact Hl].
  rewrite list_filter_filter. apply submseteq_filter_impl. unfold live. intros x. lia.
Qed.

Lemma pg_rep_count now now' clk G t :
  pg_rep now G t -> now <= now' -> (forall i, clk i <= now') ->
  count (live pg_horizon now') G <= Z.of_nat (length (window_rows clk window_ms b t)).
Proof.
  intros Hr Hle Hclk. rewrite <- by_request_count. unfold count.
  pose proof (pg_rep_live _ _ _ _ Hr Hle) as Hs. apply submseteq_length in Hs.
  unfold bucket_entries in Hs. rewrite length_fmap in Hs.
  assert (Hw : filter (fun e => e_bucket e = b /\ now' - ms window_ms <= e_ts e) t ⊆+ window_rows clk window_ms b t).
  { apply filter_indexed. unfold in_window. simpl. intros i e [? ?]. specialize (Hclk i). split; [done|lia]. }
  apply submseteq_length in Hw. pose proof (filter_submseteq (fun e => e_bucket e = b)
    (filter (fun e => e_bucket e = b /\ now' - ms window_ms <= e_ts e) t)) as Hf.
  apply submseteq_length in Hf. lia.
Qed.

Lemma pg_rep_pruned now now' clk G t :
  pg_rep now G t -> now <= now' -> (forall i, clk i <= now') -> pg_rep now' G (pruned clk window_ms b t).
Proof.
  intros Hr Hle Hclk. split; [apply Hr|]. rewrite (pg_rep_live _ _ _ _ Hr Hle).
  apply bucket_entries_submseteq, filter_indexed. simpl. intros i e [? ?] [? ?]. specialize (Hclk i). lia.
Qed.

Lemma pg_granted now now' rq G t t' g :
  pg_rep now G t -> pg_span now rq now' -> pg_fresh rq G -> pg_grant rq t = (t', Some g) ->
  now <= g.1 <= now' /\ count (live pg_horizon g.1) G < limit /\ pg_rep now' (g :: G) t'.
Proof.
  intros Hr (Hle & Hp & Hc & Hs) Hf. unfold pg_grant, acquire_pg_log.
  destruct (rq_lock rq); [|done]. cbv zeta. destruct (_ <? limit) eqn:Hlt; [|done].
  simpl. intros [= <- <-]. zbool. simpl. split_and!; [lia|lia| |].
  - pose proof (pg_rep_count now _ _ _ _ Hr ltac:(apply Hs) Hc). lia.
  - destruct (pg_rep_pruned _ _ _ _ _ Hr Hle Hp) as [Hnd Hl]. split.
    + apply NoDup_cons. split; [|done]. by apply (memory_fresh_rid (0, rq_rid rq)).
    + unfold bucket_entries. rewrite filter_app, fmap_app, filter_cons_True by done. simpl.
      rewrite Permutation_app_comm. simpl. rewrite filter_cons.
      case_decide; [by constructor|by apply submseteq_cons].
Qed.

Lemma pg_denied now now' rq G t t' :
  pg_rep now G t -> pg_span now rq now' -> pg_grant rq t = (t', None) -> now <= now' /\ pg_rep now' G t'.
Proof.
  intros Hr (Hle & Hp & _ & _). unfold pg_grant, acquire_pg_log. split; [done|].
  destruct (rq_lock rq); cbv zeta in *.
  - destruct (_ <? limit); [done|]. simplify_eq/=. by apply pg_rep_pruned with now.
  - simplify_eq/=. split; [apply Hr|]. rewrite (pg_rep_live _ _ _ _ Hr Hle).
    apply bucket_entries_submseteq, filter_submseteq.
Qed.

Lemma bucket_entries_refund rid d t :
  request_id d = Some rid ->
  bucket_entries (refund_pg_log b d t) = filter (fun x => x.2 <> Some rid) (bucket_entries t).
Proof.
  intros E. unfold refund_pg_log, bucket_entries. rewrite E. induction t as [|e t IH]; [done|].
  rewrite !filter_cons. destruct (decide (e_bucket e = b)) as [Hb|Hb].
  - rewrite fmap_cons, filter_cons. simpl.
    destruct (decide (e_rid e = rid)) as [->|Hr].
    + rewrite decide_False by tauto. rewrite decide_False by tauto. done.
    + rewrite decide_True by tauto. rewrite decide_True by congruence.
      by rewrite filter_cons_True, fmap_cons, IH.
  - rewrite decide_True by tauto. by rewrite filter_cons_False.
Qed.

Lemma pg_refunded now g G G' t :
  pg_rep now G t -> G ≡ₚ g :: G' -> pg_rep now G' (refund_pg_log b g.2 t).
Proof.
  intros [Hnd Hl] EG. rewrite EG, by_request_cons in Hnd, Hl.
  apply NoDup_cons in Hnd as [Hni Hnd]. simpl in Hni. split; [done|].
  assert (Hl' : filter (live pg_horizon now) (by_request G') ⊆+ bucket_entries t).
  { etrans; [|exact Hl]. rewrite filter_cons. case_decide; [by apply submseteq_cons|done]. }
  destruct (request_id g.2) as [rid|] eqn:Hid; [|by unfold refund_pg_log; rewrite Hid].
  rewrite (bucket_entries_refund rid) by done.
  apply (submseteq_filter (fun x => x.2 <> Some rid)) in Hl'. etrans; [|exact Hl'].
  rewrite (filter_keeps_all (fun x => x.2 <> Some rid)); [done|]. apply Forall_forall. intros x [_ Hx]%list_elem_of_filter E.
  apply Hni. rewrite <- E. by apply list_elem_of_fmap_2.
Qed.

Lemma pg_reset_ok now G t : pg_rep now G t -> pg_rep now [] (reset_pg_log b t).
Proof. intros _. split; [constructor|apply submseteq_nil_l]. Qed.

(** Writes to the rows of other buckets. *)
Definition pg_other (t t' : list (entry Rid)) : Prop :=
  filter (fun e => e_bucket e = b) t = filter (fun e => e_bucket e = b) t'.

Lemma pg_other_ok now G t t' : pg_rep now G t -> pg_other t t' -> pg_rep now G t'.
Proof. intros [? Hl] E. split; [done|]. unfold bucket_entries in *. by rewrite <- E. Qed.

Definition pg_limiter : WindowLimiter (list (entry Rid)) pg_request dec := {|
  wl_limit := limit;
  wl_horizon := pg_horizon;
  wl_acquire := pg_grant;
  wl_refund := refund_pg_log b;
  wl_reset := reset_pg_log b;
  wl_other := pg_other;
  wl_span := pg_span;
  wl_fresh := pg_fresh;
  wl_rep := pg_rep;
  wl_limit_pos := limit_nonneg limit limit_pos;
  wl_granted := pg_granted;
  wl_denied := pg_denied;
  wl_refunded := pg_refunded;
  wl_reset_ok := pg_reset_ok;
  wl_other_ok := pg_other_ok
|}.

Lemma pg_rep_start now t : pg_rep now [] t.
Proof. split; [constructor|apply submseteq_nil_l]. Qed.
End pg_limiter.

(** ** The evicting log refines a log that never forgets *)

Section log_refinement.
Context {Rid : Type} `{EqDecision Rid} (limit window_ms : Z).
Notation dec := (RateLimitDecision Rid).

Inductive log_op := OAcquire (now : Z) (rid : Rid) | ORefund (rid : Rid) | OPeek (now : Z) | OReset.

Inductive log_out :=
| Decided (d : result py_err dec)
| Looked (s : RateLimitState)
| Done (r : result py_err unit).

Definition log_step (o : log_op) (m : mlog Rid) : mlog Rid * log_out :=
  match o with
  | OAcquire now rid => let '(m', r) := log_acquire limit window_ms now rid m in (m', Decided r)
  | ORefund rid => let '(m', r) := log_refund rid m in (m', Done r)
  | OPeek now => (m, Looked (log_peek limit window_ms now m))
  | OReset => (log_reset m, Done (Ok tt))
  end.

(** The specification keeps every grant that was not refunded, in order. *)
Definition recent (now : Z) (l : list (Z * Rid)) : list (Z * Rid) :=
  filter (fun e => now - window_ms < e.1) l.

Definition abs_step (o : log_op) (l : list (Z * Rid)) : list (Z * Rid) * log_out :=
  match o with
  | OAcquire now rid =>
      let n := Z.of_nat (length (recent now l)) in
      match recent now l with
      | e :: _ =>
          if limit <=? n then (l, Decided (Ok (denied (ms (e.1 + window_ms - now)))))
          else (l ++ [(now, rid)],
                Decided (Ok {| allowed := true; remaining := limit - (n + 1); retry_after := 0;
                               request_id := None; previous_state := None |}))
      | [] => (l ++ [(now, rid)],
               Decided (Ok {| allowed := true; remaining := limit - 1; retry_after := 0;
                              request_id := None; previous_state := None |}))
      end
  | ORefund rid => (filter (fun e => e.2 <> rid) l, Done (Ok tt))
  | OPeek now =>
      let n := Z.of_nat (length (recent now l)) in
      (l, Looked {| is_exhausted := limit <=? n;
                    st_remaining := Z.max 0 (limit - n);
                    st_retry_after :=
                      if limit <=? n
                      then (fun e => ms (Z.max 1 (e.1 + window_ms - now))) <$> head (recent now l)
                      else None |})
  | OReset => ([], Done (Ok tt))
  end.

Fixpoint outputs {S} (step : log_op -> S -> S * log_out) (os : list log_op) (s : S) : list log_out :=
  match os with
  | [] => []
  | o :: os' => let '(s', r) := step o s in r :: outputs step os' s'
  end.

(** Usable sequences: the clock does not go backwards and request ids are not reused. *)
Fixpoint usable (t : Z) (used : list Rid) (os : list log_op) : Prop :=
  match os with
  | [] => True
  | OAcquire now rid :: os' => t <= now /\ rid ∉ used /\ usable now (rid :: used) os'
  | OPeek now :: os' => t <= now /\ usable now used os'
  | _ :: os' => usable t used os'
  end.

Definition pairs (m : mlog Rid) : list (Z * Rid) := zip (deque m) (ids m).

Record simulates (t : Z) (used : list Rid) (m : mlog Rid) (l : list (Z * Rid)) : Prop := {
  sim_lockstep : length (deque m) = length (ids m);
  sim_suffix : exists old, l = old ++ pairs m /\ Forall (fun e => e.1 <= t - window_ms) old;
  sim_sorted : StronglySorted Z.le (deque m);
  sim_past : Forall (fun d => d <= t) (deque m);
  sim_ids : NoDup l.*2;
  sim_used : l.*2 ⊆ used
}.
Arguments sim_lockstep {t used m l}.

Lemma recent_old now old : Forall (fun e : Z * Rid => e.1 <= now - window_ms) old -> recent now old = [].
Proof. induction 1; [done|]. unfold recent. rewrite filter_cons_False by lia. done. Qed.

Lemma fst_pairs m : length (deque m) = length (ids m) -> (pairs m).*1 = deque m.
Proof. intros E. unfold pairs. apply fst_zip. lia. Qed.

Lemma sim_recent t used m l now :
  simulates t used m l -> t <= now -> recent now l = recent now (pairs m).
Proof.
  intros [Hl (old & -> & Ho) _ _ _ _] Hle. unfold recent. rewrite filter_app.
  change (recent now old ++ recent now (pairs m) = recent now (pairs m)).
  rewrite recent_old; [done|]. eapply Forall_impl; [exact Ho|]. simpl. lia.
Qed.

Lemma recent_fst now (l : list (Z * Rid)) :
  (recent now l).*1 = filter (fun ts => now - window_ms < ts) l.*1.
Proof.
  unfold recent. induction l as [|e l IH]; [done|]. rewrite fmap_cons, !filter_cons.
  repeat case_decide; try done; rewrite ?fmap_cons; by rewrite IH.
Qed.

(** After the eviction the deque is exactly the recent part. *)
Lemma sim_evict t used m l now :
  simulates t used m l -> t <= now ->
  exists m', evict (now - window_ms) (deque m) (ids m) = (m', Ok tt) /\
    simulates now used m' l /\ recent now l = pairs m'.
Proof.
  intros Hs Hle. pose proof (sim_recent _ _ _ _ now Hs Hle) as Hrec.
  destruct Hs as [Hl (old & -> & Ho) Hsrt Hp Hid Hu].
  destruct (evict_spec (now - window_ms) (deque m) (ids m) Hl) as (n & E & Hn & Hh).
  eexists; split; [exact E|]. set (m' := {| deque := _; ids := _ |}).
  assert (Hpr : pairs m = take n (pairs m) ++ pairs m').
  { unfold pairs, m'. simpl. by rewrite zip_drop, take_drop. }
  assert (Hold : Forall (fun e : Z * Rid => e.1 <= now - window_ms) (take n (pairs m))).
  { rewrite <- (fst_pairs m Hl), <- fmap_take, Forall_fmap in Hn. exact Hn. }
  assert (Hsrt' : StronglySorted Z.le (drop n (deque m))).
  { rewrite <- (take_drop n (deque m)) in Hsrt. by eapply StronglySorted_app_1_r. }
  split; [constructor|].
  - simpl. by rewrite !length_drop, Hl.
  - exists (old ++ take n (pairs m)). rewrite <- app_assoc, <- Hpr. split; [done|].
    apply Forall_app. split; [|done]. eapply Forall_impl; [exact Ho|]. simpl. lia.
  - done.
  - apply Forall_drop. eapply Forall_impl; [exact Hp|]. simpl. lia.
  - done.
  - done.
  - rewrite Hrec, Hpr. unfold recent. rewrite filter_app. change (recent now (take n (pairs m)) ++ recent now (pairs m') = pairs m').
    rewrite recent_old by done. simpl. unfold recent. apply filter_keeps_all.
    assert (Hall : Forall (fun d => now - window_ms < d) (deque m')).
    { unfold m'. simpl. destruct (drop n (deque m)) as [|d ds]; [constructor|].
      specialize (Hh d eq_refl). constructor; [done|].
      inversion Hsrt' as [|?? _ Hd]; subst. eapply Forall_impl; [exact Hd|]. simpl. lia. }
    rewrite <- (fst_pairs m'), Forall_fmap in Hall; [exact Hall|]. simpl. by rewrite !length_drop, Hl.
Qed.

Lemma length_pairs m : length (deque m) = length (ids m) -> length (pairs m) = length (deque m).
Proof. intros E. rewrite <- (length_fmap fst (pairs m)). by rewrite fst_pairs. Qed.

Lemma sim_push now used m l rid :
  simulates now used m l -> rid ∉ used ->
  simulates now (rid :: used) {| deque := deque m ++ [now]; ids := ids m ++ [rid] |} (l ++ [(now, rid)]).
Proof.
  intros [Hl (old & -> & Ho) Hsrt Hp Hid Hu] Hf. constructor; simpl.
  - by rewrite !length_app, Hl.
  - exists old. split; [|done]. rewrite <- app_assoc. f_equal. unfold pairs. simpl.
    by rewrite zip_with_app by done.
  - apply StronglySorted_app. split_and!; [|done|repeat constructor].
    intros x y Hx Hy%list_elem_of_singleton. subst y. by eapply Forall_forall in Hp.
  - apply Forall_app. by split; [|repeat constructor].
  - rewrite fmap_app. apply NoDup_app. split_and!; [done| |apply NoDup_singleton].
    intros x Hx Hy%list_elem_of_singleton. subst x. by apply Hf, Hu.
  - rewrite fmap_app. apply list_subseteq_app_iff_l. split; [set_solver|simpl; set_solver].
Qed.

Lemma sim_acquire t used m l now rid :
  1 <= limit -> simulates t used m l -> t <= now -> rid ∉ used ->
  exists m' l' r, log_step (OAcquire now rid) m = (m', r) /\ abs_step (OAcquire now rid) l = (l', r) /\
    simulates now (rid :: used) m' l'.
Proof.
  intros Hlim Hs Hle Hf. destruct (sim_evict _ _ _ _ now Hs Hle) as (m0 & E & Hs0 & Hrec).
  unfold log_step, abs_step, log_acquire. cbv zeta. rewrite E, Hrec.
  pose proof (sim_lockstep Hs0) as Hl0. pose proof (length_pairs m0 Hl0) as Hlen.
  pose proof (fst_pairs m0 Hl0) as Hfst.
  assert (Hweak : simulates now (rid :: used) m0 l) by (destruct Hs0; constructor; try done; set_solver).
  assert (Hlen' : Z.of_nat (length (deque m0 ++ [now])) = Z.of_nat (length (pairs m0)) + 1)
    by (rewrite length_app, Hlen; simpl; lia).
  cbn [deque]. rewrite <- Hlen, Hlen'. destruct (pairs m0) as [|e ps] eqn:Hps.
  - cbn [length]. rewrite (proj2 (Z.leb_gt limit (Z.of_nat 0))) by lia.
    eexists _, _, _. split_and!; [|done|by apply sim_push].
    done.
  - destruct (limit <=? _) eqn:Hc; eexists _, _, _.
    + split_and!; [|done|done]. simpl in Hfst. by rewrite <- Hfst.
    + split_and!; [done|done|by apply sim_push].
Qed.

Lemma sim_peek t used m l now :
  simulates t used m l -> t <= now ->
  exists r, log_step (OPeek now) m = (m, r) /\ abs_step (OPeek now) l = (l, r) /\ simulates now used m l.
Proof.
  intros Hs Hle. unfold log_step, abs_step. eexists. split_and!; [done| |].
  - do 2 f_equal. rewrite (sim_recent _ _ _ _ now Hs Hle).
    unfold log_peek, oldest_in_window. rewrite <- (fst_pairs m (sim_lockstep Hs)), <- recent_fst, length_fmap.
    cbv zeta. f_equal. by destruct (recent now (pairs m)).
  - destruct Hs as [Hl (old & -> & Ho) Hsrt Hp Hid Hu]. constructor; try done.
    + exists old. split; [done|]. eapply Forall_impl; [exact Ho|]. simpl. lia.
    + eapply Forall_impl; [exact Hp|]. simpl. lia.
Qed.

(** Under distinct ids the refund's deletion by index is the removal of the id. *)
Lemma refund_pairs rid (ds : list Z) (rs : list Rid) :
  length ds = length rs -> NoDup rs ->
  match index_of rid rs with
  | None => filter (fun e => e.2 <> rid) (zip ds rs) = zip ds rs
  | Some i => exists (ds' : list Z) (rs' : list Rid), del i ds = Ok ds' /\ del i rs = Ok rs' /\ length ds' = length rs' /\
      ds' `sublist_of` ds /\ zip ds' rs' = filter (fun e => e.2 <> rid) (zip ds rs)
  end.
Proof.
  revert ds. induction rs as [|r rs IH]; intros [|d ds] Hl Hnd; simplify_eq/=; [done|].
  apply NoDup_cons in Hnd as [Hr Hnd]. destruct (decide (r = rid)) as [->|Hne].
  - exists ds, rs. rewrite !del_head. split_and!; [done|done|done|by apply sublist_cons|].
    rewrite filter_cons_False by tauto. symmetry. apply filter_keeps_all, Forall_forall.
    intros e He E. apply Hr. rewrite <- E. destruct e. by eapply elem_of_zip_r.
  - specialize (IH ds Hl Hnd). destruct (index_of rid rs) as [i|]; simpl.
    + destruct IH as (ds' & rs' & E1 & E2 & Hl' & Hsub & E). exists (d :: ds'), (r :: rs').
      rewrite !del_tail, E1, E2. split_and!; [done|done|simpl; lia|by apply sublist_skip|].
      simpl. rewrite filter_cons_True by done. by rewrite E.
    + rewrite filter_cons_True by done. by rewrite IH.
Qed.

Lemma sorted_sublist (l k : list Z) : l `sublist_of` k -> StronglySorted Z.le k -> StronglySorted Z.le l.
Proof.
  induction 1 as [|x l k Hlk IH|x l k Hlk IH]; [done|..]; inversion 1 as [|?? Hs Hx]; subst; [|auto].
  constructor; [auto|]. apply Forall_forall. intros y Hy.
  eapply Forall_forall in Hx; [exact Hx|]. by eapply elem_of_sublist.
Qed.

Lemma sim_refund t used m l rid :
  simulates t used m l ->
  exists m' l' r, log_step (ORefund rid) m = (m', r) /\ abs_step (ORefund rid) l = (l', r) /\
    simulates t used m' l'.
Proof.
  intros [Hl (old & -> & Ho) Hsrt Hp Hid Hu]. unfold log_step, abs_step, log_refund.
  assert (Hnd : NoDup (ids m)).
  { rewrite fmap_app in Hid. apply NoDup_app in Hid as (_ & _ & Hid).
    unfold pairs in Hid. by rewrite snd_zip in Hid by lia. }
  set (keep := fun e : Z * Rid => e.2 <> rid).
  assert (Hids : NoDup (filter keep (old ++ pairs m)).*2 /\ (filter keep (old ++ pairs m)).*2 ⊆ used).
  { pose proof (fmap_sublist snd _ _ (sublist_filter keep (old ++ pairs m))) as Hk. split.
    - eapply sublist_NoDup; [exact Hid|exact Hk].
    - etrans; [|exact Hu]. by apply sublist_subseteq. }
  assert (Ho' : Forall (fun e => e.1 <= t - window_ms) (filter keep old)).
  { apply Forall_forall. intros e [_ He]%list_elem_of_filter. by eapply Forall_forall in Ho. }
  destruct Hids as [Hid' Hu']. pose proof (refund_pairs rid (deque m) (ids m) Hl Hnd) as Hi.
  destruct (index_of rid (ids m)) as [i|].
  - destruct Hi as (ds' & rs' & -> & -> & Hl' & Hsub & E). eexists _, _, _. split_and!; [done|done|].
    constructor; simpl; try done.
    + exists (filter keep old). split; [|done]. rewrite filter_app. f_equal. symmetry. exact E.
    + by eapply sorted_sublist.
    + apply Forall_forall. intros d Hd. eapply Forall_forall in Hp; [exact Hp|]. by eapply elem_of_sublist.
  - eexists _, _, _. split_and!; [done|done|]. constructor; try done.
    exists (filter keep old). split; [|done]. rewrite filter_app. f_equal. exact Hi.
Qed.

Lemma outputs_agree t used m l os :
  1 <= limit -> simulates t used m l -> usable t used os -> outputs log_step os m = outputs abs_step os l.
Proof.
  intros Hlim. revert t used m l. induction os as [|o os IH]; intros t used m l Hs Hu; [done|].
  assert (exists t' used' m' l' r, log_step o m = (m', r) /\ abs_step o l = (l', r) /\
    simulates t' used' m' l' /\ usable t' used' os) as (t' & used' & m' & l' & r & E1 & E2 & Hs' & Hu').
  { destruct o as [now rid|rid|now|]; simpl in Hu.
    - destruct Hu as (Hle & Hf & Hu). destruct (sim_acquire _ _ _ _ now rid Hlim Hs Hle Hf) as (?&?&?&?&?&?). eauto 10.
    - destruct (sim_refund _ _ _ _ rid Hs) as (?&?&?&?&?&?). eauto 10.
    - destruct Hu as (Hle & Hu). destruct (sim_peek _ _ _ _ now Hs Hle) as (?&?&?&?). eauto 10.
    - exists t, used, empty_log, [], (Done (Ok tt)). split_and!; [done|done| |done].
      constructor; simpl; try constructor; [by exists []|set_solver]. }
  cbn [outputs]. rewrite E1, E2. f_equal. by eapply IH.
Qed.
End log_refinement.

(** ** Claims *)

(** An in-memory sliding window, log or GCRA, never has more than [limit] grants out
    that were stamped within one window: over every sequence of acquires (at a clock that
    does not go backwards, with fresh request ids), refunds and resets of a newly built
    limiter, every interval of the window's length holds at most [limit] unrefunded
    grants. *)
Theorem memory_window_respected `{Rounding} {Rid} `{EqDecision Rid}
    limit window (Hl : 1 <= limit) style ttl (w0 w : SlidingWindow Rid) t0 t G :
  new_memory limit window style ttl = Ok w0 ->
  rtc (use (L := memory_limiter limit window Hl)) (t0, [], w0) (t, G, w) ->
  forall a, count (within (to_ms window) a) G <= limit.
Proof.
  intros Hw Hu. apply (use_bounded (L := memory_limiter limit window Hl) t0 w0 t G w); [|done].
  by eapply memory_rep_new.
Qed.

Lemma memory_window_respected_witness :
  exists (w0 w : SlidingWindow nat) g,
    new_memory 1 1000000 Gcra None = Ok w0 /\
    rtc (use (L := memory_limiter 1 1000000 (Z.le_refl 1))) (0, [], w0) (5000, [g], w) /\
    count (within (to_ms 1000000) 5500) [g] <= 1.
Proof.
  pose (w0 := {| sw_limit := 1; sw_window := 1000000; sw_style := Gcra; sw_ttl := 61000000;
                 mem_log := None; mem_gcra := Some empty_gcra |} : SlidingWindow nat).
  let out := eval vm_compute in (memory_grant (5000000, 7%nat) w0) in
  lazymatch out with (?w, Some ?g) =>
    assert (Hw : new_memory 1 1000000 Gcra None = Ok w0) by reflexivity;
    assert (Hu : rtc (use (L := memory_limiter 1 1000000 (Z.le_refl 1))) (0, [], w0) (5000, [g], w));
    [apply rtc_once, use_grant with (r := (5000000, 7%nat));
      [split; [lia|vm_compute; reflexivity]|constructor|vm_compute; reflexivity]|];
    exists w0, w, g; split; [exact Hw|split; [exact Hu|]];
    exact (memory_window_respected 1 1000000 (Z.le_refl 1) Gcra None w0 w 0 5000 [g] Hw Hu 5500)
  end.
Defined.

(** C31: The PostgreSQL log never has more than [limit] grants out stamped within one
    window, both ends included: from any table, over every sequence of acquires under the
    bucket's lock or denied for want of it, with every [clock_timestamp()] mention read
    anew, refunds, resets and writes to other buckets. *)
Theorem pg_window_respected {Rid} `{EqDecision Rid} limit window_ms (Hl : 1 <= limit) b
    (tbl0 tbl : list (entry Rid)) t0 t G :
  rtc (use (L := pg_limiter limit window_ms Hl b)) (t0, [], tbl0) (t, G, tbl) ->
  forall a, count (within (ms window_ms + 1) a) G <= limit.
Proof.
  intros Hu. apply (use_bounded (L := pg_limiter limit window_ms Hl b) t0 tbl0 t G tbl); [|done].
  apply pg_rep_start.
Qed.

Lemma pg_window_respected_witness :
  exists (tbl : list (entry nat)) g,
    rtc (use (L := pg_limiter 1 1000 (Z.le_refl 1) "b")) (0, [], []) (9, [g], tbl) /\
    count (within (ms 1000 + 1) 1000009) [g] <= 1.
Proof.
  pose (rq := {| rq_lock := true; rq_budget := 5000000; rq_rid := 7%nat;
    rq_reads := {| prune_at := fun _ => 4; count_at := fun _ => 5; stamp := 6;
                   shown_at := fun _ => 7; oldest_at := fun _ => 8; server_now := 9 |} |}).
  let out := eval vm_compute in (pg_grant 1 1000 "b" rq []) in
  lazymatch out with (?t, Some ?g) =>
    assert (Hu : rtc (use (L := pg_limiter 1 1000 (Z.le_refl 1) "b")) (0, [], []) (9, [g], t));
    [apply rtc_once, use_grant with (r := rq);
      [split_and!; simpl; [lia|intros; lia|intros; lia|lia|lia]|constructor|vm_compute; reflexivity]|];
    exists t, g; split; [exact Hu|];
    exact (pg_window_respected 1 1000 (Z.le_refl 1) "b" [] t 0 9 [g] Hu 1000009)
  end.
Defined.

(** The evicting in-memory log refines a log that never forgets: on every sequence of
    acquires, refunds, peeks and resets with a clock that does not go backwards and request
    ids that are not reused, both give the same decisions, remaining counts, retry hints and
    states, and the eviction loop and the deletions by index never raise. *)
Theorem memory_log_refines {Rid} `{EqDecision Rid} limit window_ms t0 (os : list (log_op (Rid := Rid))) :
  1 <= limit -> usable t0 [] os ->
  outputs (log_step limit window_ms) os empty_log = outputs (abs_step limit window_ms) os [].
Proof.
  intros Hl Hu. eapply outputs_agree; [done| |exact Hu].
  constructor; simpl; try constructor; [by exists []|set_solver].
Qed.

Lemma memory_log_refines_witness :
  outputs (log_step 2 10) [OAcquire 0 1%nat; OAcquire 3 2%nat; OAcquire 5 3%nat; ORefund 1%nat; OAcquire 6 4%nat;
    OPeek 7; OAcquire 14 5%nat] empty_log =
  outputs (abs_step 2 10) [OAcquire 0 1%nat; OAcquire 3 2%nat; OAcquire 5 3%nat; ORefund 1%nat; OAcquire 6 4%nat;
    OPeek 7; OAcquire 14 5%nat] [].
Proof.
  apply (memory_log_refines 2 10 0); [lia|]. simpl. repeat split; try lia; set_solver.
Defined.

(** *** Windows below a millisecond *)

Section sub_millisecond.
Context `{Rounding} {Rid : Type} `{EqDecision Rid}.

Lemma to_ms_sub window : 0 < window < 1000 -> to_ms window = 0.
Proof.
  intros Hw. unfold to_ms, fmul, total_seconds. set (x := (inject_Z window / inject_Z usec_per_sec)%Q).
  assert (Hx : (0 <= x /\ x <= 999 # 1000000)%Q).
  { unfold x, usec_per_sec. split.
    - apply Qle_shift_div_l; [done|]. rewrite Qmult_0_l. change 0%Q with (inject_Z 0). rewrite <- Zle_Qle. lia.
    - apply Qle_shift_div_r; [done|]. change ((999 # 1000000) * inject_Z 1000000)%Q with (999000000 # 1000000)%Q.
      unfold Qle. simpl. lia. }
  pose proof (rnd_rel x) as Hr. rewrite (Qabs.Qabs_pos x) in Hr by apply Hx.
  apply Qabs.Qabs_Qle_condition in Hr as [_ Hr]. pose proof (rnd_nonneg x (proj1 Hx)) as Hr0.
  set (s := rnd x) in *. assert (Hy : (0 <= s * 1000)%Q) by lra.
  pose proof (rnd_rel (s * 1000)) as Hq. rewrite (Qabs.Qabs_pos (s * 1000)) in Hq by done.
  apply Qabs.Qabs_Qle_condition in Hq as [_ Hq]. pose proof (rnd_nonneg _ Hy) as Hq0.
  set (q := rnd (s * 1000)) in *. unfold ulp53 in *. change (1 # 2 ^ 53)%Q with (1 # 9007199254740992)%Q in *.
  assert (Hlt : (q < 1)%Q) by lra.
  rewrite Qtrunc_nonneg by done. destruct (Qfloor_bounds q) as [Hf1 Hf2].
  pose proof (Qfloor_resp_le 0 q Hq0) as Hf3. change (Qfloor 0) with 0 in Hf3.
  assert (Qfloor q < 1); [|lia]. rewrite Zlt_Qlt. change (inject_Z 1) with 1%Q. lra.
Qed.

(** Acquires one after another at the same clock reading. *)
Fixpoint acquire_each (now : Z) (rids : list Rid) (w : SlidingWindow Rid) :
    list (result py_err (RateLimitDecision Rid)) :=
  match rids with
  | [] => []
  | rid :: rids' => let '(w', r) := acquire_memory (Some now) rid w in r :: acquire_each now rids' w'
  end.

Definition admitted (r : result py_err (RateLimitDecision Rid)) : bool :=
  match r with Ok d => allowed d | Err _ => false end.

(** With a window of zero milliseconds every entry has expired by its own timestamp. *)
Lemma log_acquire_zero limit now rid (m : mlog Rid) :
  1 <= limit -> length (deque m) = length (ids m) -> Forall (fun d => d <= now) (deque m) ->
  exists d, log_acquire limit 0 now rid m = ({| deque := [now]; ids := [rid] |}, Ok d) /\ allowed d = true.
Proof.
  intros Hl Hlen Hd. unfold log_acquire. cbv zeta.
  assert (evict (now - 0) (deque m) (ids m) = (empty_log, Ok tt)) as ->.
  { destruct m as [ds rs]. simpl in *. revert rs Hlen. induction Hd as [|d ds Hd _ IH]; intros [|r rs] Hlen;
      simplify_eq/=; [done|]. rewrite (proj2 (Z.leb_le d (now - 0))) by lia. auto. }
  simpl. rewrite (proj2 (Z.leb_gt limit (Z.of_nat 0))) by lia. by eexists.
Qed.

Lemma acquire_each_zero limit window ttl now rids (w : SlidingWindow Rid) m :
  0 < window < 1000 -> 1 <= limit -> length (deque m) = length (ids m) ->
  Forall (fun d => d <= to_ms now) (deque m) ->
  w = {| sw_limit := limit; sw_window := window; sw_style := Log; sw_ttl := ttl;
         mem_log := Some m; mem_gcra := None |} ->
  Forall (fun r => admitted r = true) (acquire_each now rids w).
Proof.
  intros Hw Hl. revert w m. induction rids as [|rid rids IH]; intros w m Hlen Hd ->; [constructor|].
  simpl. unfold acquire_memory. cbn [sw_style mem_log sw_limit sw_window sw_ttl mem_gcra].
  rewrite to_ms_sub by done.
  destruct (log_acquire_zero limit (to_ms now) rid m Hl Hlen Hd) as (d & -> & Ha).
  constructor; [done|]. eapply IH; [| |done]; [done|by repeat constructor].
Qed.

Lemma gcra_acquire_zero limit now :
  1 <= limit -> (gcra_acquire (Rid := Rid) limit 0 now empty_gcra).2 = Err ZeroDivisionError.
Proof.
  intros Hl. unfold gcra_acquire. cbv zeta. cbn [glog empty_gcra evict_log length tat].
  assert (Hem : emission_interval_ms limit 0 == 0).
  { unfold emission_interval_ms, fdiv. rewrite <- rnd_0. apply rnd_proper. unfold Qdiv. apply Qmult_0_l. }
  assert (Hn : flt (fint now) (fsub (fadd (base_tat now empty_gcra) (emission_interval_ms limit 0)) (fint 0)) = false).
  { assert (Hb : base_tat now empty_gcra = fint now).
    { unfold base_tat. simpl. destruct (fmax_cases (fint now) (fint now)) as [[-> ?]|[-> ?]]; done. }
    unfold flt. rewrite negb_false_iff, Hb. apply Qle_bool_iff. apply Qle_lteq. right.
    unfold fsub, fadd. assert (Hz : fint 0 == 0) by apply rnd_0.
    rewrite Hem, Hz, Qplus_0_r. unfold fint at 1. rewrite rnd_idem. fold (fint now).
    unfold Qminus. rewrite Qplus_0_r. unfold fint. by rewrite rnd_idem. }
  rewrite Hn. simpl. rewrite (proj2 (Z.leb_gt limit (Z.of_nat 0))) by lia. simpl.
  unfold pydiv. rewrite (proj2 (Qeq_bool_iff _ 0) Hem). done.
Qed.
End sub_millisecond.

(** A window shorter than a millisecond is accepted by the constructor and disables the
    limiter: the log style admits every request of a burst of any size at one instant, and
    the GCRA style raises [ZeroDivisionError] from the first acquire. *)
Theorem sub_ms_window `{Rounding} {Rid} `{EqDecision Rid} limit window ttl now (rid : Rid) rids :
  1 <= limit -> 0 < window < 1000 ->
  exists wl wg : SlidingWindow Rid,
    new_memory limit window Log ttl = Ok wl /\ new_memory limit window Gcra ttl = Ok wg /\
    Forall (fun r => admitted r = true) (acquire_each now rids wl) /\
    (acquire_memory (Some now) rid wg).2 = Err ZeroDivisionError.
Proof.
  intros Hl Hw. unfold new_memory.
  rewrite (proj2 (Z.ltb_ge limit 1)), (proj2 (Z.leb_gt window 0)) by lia.
  eexists _, _. split_and!; [done|done| |].
  - eapply acquire_each_zero; [done|done| | |done]; [done|constructor].
  - unfold acquire_memory. cbn [sw_style mem_gcra sw_limit sw_window]. rewrite to_ms_sub by done.
    pose proof (gcra_acquire_zero (Rid := Rid) limit (to_ms now) Hl) as Hg.
    destruct (gcra_acquire _ _ _ _). done.
Qed.

Lemma sub_ms_window_witness :
  exists wl wg : SlidingWindow nat,
    new_memory 1 500 Log None = Ok wl /\ new_memory 1 500 Gcra None = Ok wg /\
    Forall (fun r => admitted r = true) (acquire_each 1700000000000000 [1%nat; 2%nat; 3%nat] wl) /\
    (acquire_memory (Some 1700000000000000) 0%nat wg).2 = Err ZeroDivisionError.
Proof. apply (sub_ms_window 1 500 None); lia. Defined.
