(* ===== verification/Admission.v ===== *)
(** * Admission: the AND-composition of limits and reservations

    [acquire_for_actor], its healing acquire and [release_for_actor] of
    [src/taskq/ratelimit/registry.py], over the handles of
    [src/taskq/ratelimit/composition.py].  The primitives the registry calls are the class
    [Backend]: stateful, fallible operations on a world [W].  An operation returns the world
    it leaves together with its value or the exception that escaped it; [Cancelled] is the
    [BaseException] that [except Exception] does not catch. *)

From Stdlib Require Import ZArith Lia QArith.
From stdpp Require Import base tactics list gmap strings.
From S2P Require Import Prelude PyFloat SlidingWindow Retry JobRow Terminal Control Sweeps Reservation.

Open Scope Z_scope.

Inductive source := FromReservation | FromRateLimit.

Inductive exn :=
| Unavailable (bucket : string) (retry_after : Z) (src : source)
| KeyError (name : string)
| Failure
| Cancelled.

Definition caught (e : exn) : bool := match e with Cancelled => false | _ => true end.

(** ** The primitives *)

Class Backend (W Ref Lease D : Type) := {
  (** [_resolve_reservation_name] and [_resolve_rate_limit_name]. *)
  resolve_reservation : Ref -> W -> W * result exn string;
  resolve_rate_limit : Ref -> W -> W * result exn string;
  (** [ConcurrencyReservation.acquire], [.release], [.slot_rows_exist], [.ensure_slots]. *)
  res_acquire : string -> Z -> Z -> W -> W * result exn Lease;
  res_release : string -> Lease -> Z -> W -> W * result exn unit;
  slot_rows_exist : string -> W -> W * result exn bool;
  ensure_rows : string -> W -> W * result exn unit;
  (** [acquire] and [refund] of the rate-limit primitives. *)
  rl_acquire : string -> W -> W * result exn D;
  rl_refund : string -> D -> W -> W * result exn unit;
  d_allowed : D -> bool;
  d_retry_after : D -> option Z
}.

Section admission.
Context `{Rounding} `{B : Backend W Ref Lease D}.

(** [ReservationHandle] and [RateLimitHandle]. *)
Inductive handle :=
| ReservationHandle (name : string) (lease : Lease) (worker : Z)
| RateLimitHandle (name : string) (decision : D) (refund_on_release : bool).

Definition h_name (h : handle) : string :=
  match h with ReservationHandle n _ _ => n | RateLimitHandle n _ _ => n end.

Definition handle_release (h : handle) (w : W) : W * result exn unit :=
  match h with
  | ReservationHandle n l worker => res_release n l worker w
  | RateLimitHandle n d refund => if refund then rl_refund n d w else (w, Ok tt)
  end.

(** The registry: what is registered, and the heal stamps of its keyed reservations
    (readings of [monotonic()], float seconds). *)
Record registry := {
  rate_limits : gset string;
  reservations : gset string;
  keyed_reservation_last_used : gset string;
  heal_attempted : gmap string Q;
  heal_failure_logged : gmap string Q
}.

#[export] Instance registry_copy : Copy registry := fun r =>
  {| rate_limits := rate_limits r; reservations := reservations r;
     keyed_reservation_last_used := keyed_reservation_last_used r;
     heal_attempted := heal_attempted r; heal_failure_logged := heal_failure_logged r |}.

Definition KEYED_RECLAIM_HEAL_WINDOW : Z := 60 * usec_per_sec.

(** [now - stamp < window] of a stamp that may be missing. *)
Definition inside_window (now : Q) (stamp : option Q) : bool :=
  match stamp with
  | Some s => flt (fsub now s) (total_seconds KEYED_RECLAIM_HEAL_WINDOW)
  | None => false
  end.

(** [_heal_deleted_keyed_reservation_rows]; [now] is its reading of [monotonic()] and [pool]
    whether a PostgreSQL pool was passed. *)
Definition heal (now : Q) (pool : bool) (name : string) (r : registry) (w : W) :
    registry * W * result exn bool :=
  if bool_decide (name ∉ keyed_reservation_last_used r) || negb pool then (r, w, Ok false)
  else if inside_window now (heal_attempted r !! name) then (r, w, Ok false)
  else
    let r1 := r <| heal_attempted ::= insert name now |> in
    let unstamped := r1 <| heal_attempted ::= delete name |> in
    let on_error w e :=
      if caught e then
        (if inside_window now (heal_failure_logged r !! name) then unstamped
         else unstamped <| heal_failure_logged ::= insert name now |>, w, Ok false)
      else (unstamped, w, Err e) in
    match slot_rows_exist name w with
    | (w1, Err e) => on_error w1 e
    | (w1, Ok true) => (r1, w1, Ok false)
    | (w1, Ok false) =>
        match ensure_rows name w1 with
        | (w2, Err e) => on_error w2 e
        | (w2, Ok _) => (r1, w2, Ok true)
        end
    end.

Definition is_unavailable (e : exn) : bool := match e with Unavailable _ _ _ => true | _ => false end.

(** [_acquire_reservation_slot_with_heal]. *)
Definition acquire_with_heal (now : Q) (pool : bool) (name : string) (job worker : Z)
    (r : registry) (w : W) : registry * W * result exn Lease :=
  match res_acquire name job worker w with
  | (w1, Ok l) => (r, w1, Ok l)
  | (w1, Err e) =>
      if is_unavailable e then
        match heal now pool name r w1 with
        | (r2, w2, Err e') => (r2, w2, Err e')
        | (r2, w2, Ok false) => (r2, w2, Err e)
        | (r2, w2, Ok true) => let '(w3, res) := res_acquire name job worker w2 in (r2, w3, res)
        end
      else (r, w1, Err e)
  end.

Variable clock : nat -> Q.
Variables (pool : bool) (job worker : Z).

(** The reservations of the composition, in order; [n] counts the acquires begun, so
    [clock n] is the reading a heal inside the [n]-th would take.  The handles acquired so
    far come back with the exception when one escapes. *)
Fixpoint acquire_reservations (refs : list Ref) (n : nat) (acquired : list handle)
    (r : registry) (w : W) : registry * W * (list handle * result exn unit) :=
  match refs with
  | [] => (r, w, (acquired, Ok tt))
  | ref :: refs' =>
      match resolve_reservation ref w with
      | (w1, Err e) => (r, w1, (acquired, Err e))
      | (w1, Ok name) =>
          if bool_decide (name ∈ reservations r) then
            match acquire_with_heal (clock n) pool name job worker r w1 with
            | (r2, w2, Err e) => (r2, w2, (acquired, Err e))
            | (r2, w2, Ok l) =>
                acquire_reservations refs' (S n) (acquired ++ [ReservationHandle name l worker]) r2 w2
            end
          else (r, w1, (acquired, Err (KeyError name)))
      end
  end.

Fixpoint acquire_rate_limits (refs : list Ref) (acquired : list handle) (r : registry) (w : W) :
    W * (list handle * result exn unit) :=
  match refs with
  | [] => (w, (acquired, Ok tt))
  | ref :: refs' =>
      match resolve_rate_limit ref w with
      | (w1, Err e) => (w1, (acquired, Err e))
      | (w1, Ok name) =>
          if bool_decide (name ∈ rate_limits r) then
            match rl_acquire name w1 with
            | (w2, Err e) => (w2, (acquired, Err e))
            | (w2, Ok d) =>
                if d_allowed d then
                  acquire_rate_limits refs' (acquired ++ [RateLimitHandle name d true]) r w2
                else
                  (w2, (acquired,
                        Err (Unavailable name (default DEFAULT_RESERVATION_BACKOFF (d_retry_after d))
                               FromRateLimit)))
            end
          else (w1, (acquired, Err (KeyError name)))
      end
  end.

(** One pass of releases: a failure is reported (first component) and the pass goes on; a
    cancellation ends it. *)
Fixpoint release_each (hs : list handle) (w : W) : list handle * W * result exn unit :=
  match hs with
  | [] => ([], w, Ok tt)
  | h :: hs' =>
      match handle_release h w with
      | (w1, Ok _) => release_each hs' w1
      | (w1, Err e) =>
          if caught e then
            let '(stuck, w2, res) := release_each hs' w1 in (h :: stuck, w2, res)
          else ([], w1, Err e)
      end
  end.

(** [acquire_for_actor].  The second component of the result is the list of handles whose
    rollback failed. *)
Definition acquire_for_actor (limits reservs : list Ref) (r : registry) (w : W) :
    registry * W * list handle * result exn (list handle) :=
  let '(r1, w1, (acq1, res1)) := acquire_reservations reservs 0 [] r w in
  let '(w2, (acq, res)) :=
    match res1 with
    | Ok _ => acquire_rate_limits limits acq1 r1 w1
    | Err e => (w1, (acq1, Err e))
    end in
  match res with
  | Ok _ => (r1, w2, [], Ok acq)
  | Err e =>
      if caught e then
        match release_each (rev acq) w2 with
        | (stuck, w3, Ok _) => (r1, w3, stuck, Err e)
        | (stuck, w3, Err e') => (r1, w3, stuck, Err e')
        end
      else (r1, w2, [], Err e)
  end.

Definition keep_tokens (h : handle) : handle :=
  match h with RateLimitHandle n d _ => RateLimitHandle n d false | _ => h end.

(** [release_for_actor]: also the buckets whose waiters are woken. *)
Fixpoint release_and_notify (hs : list handle) (w : W) : list string * list handle * W * result exn unit :=
  match hs with
  | [] => ([], [], w, Ok tt)
  | h :: hs' =>
      match handle_release h w with
      | (w1, Ok _) =>
          let '(woken, stuck, w2, res) := release_and_notify hs' w1 in
          (match h with ReservationHandle n _ _ => n :: woken | _ => woken end, stuck, w2, res)
      | (w1, Err e) =>
          if caught e then
            let '(woken, stuck, w2, res) := release_and_notify hs' w1 in (woken, h :: stuck, w2, res)
          else ([], [], w1, Err e)
      end
  end.

Definition release_for_actor (acquired : list handle) (w : W) :
    list string * list handle * W * result exn unit :=
  release_and_notify (rev (map keep_tokens acquired)) w.

End admission.
Arguments handle : clear implicits.
