(* ===== verification/AdmissionProps.v ===== *)
(** * What admission guarantees

    Against the laws of [Accounting] (what the primitives promise the registry): an
    admission takes one unit of every reservation and limit it names or, on any error,
    nothing; a completed actor gives its slots back and keeps its tokens spent; the healing
    probe of a busy bucket is rationed.  The in-memory slot table and sliding-window log
    discharge the laws. *)

From Stdlib Require Import ZArith Lia QArith Lqa.
From stdpp Require Import base tactics list gmap strings.
From S2P Require Import Prelude PyFloat SlidingWindow WindowProps Retry JobRow.
From S2P Require Import Terminal Control Sweeps Reservation ReservationProps Admission.

Open Scope Z_scope.

#[export] Instance source_eq_dec : EqDecision source.
Proof. solve_decision. Defined.

(** ** The interface laws *)

(** A unit taken: of a reservation (with its lease and holder) or of a rate limit. *)
Inductive grant (Lease D : Type) :=
| GRes (name : string) (lease : Lease) (worker : Z)
| GLim (name : string) (decision : D).
Arguments GRes {Lease D}.
Arguments GLim {Lease D}.

Definition key {Lease D} (g : grant Lease D) : source * string :=
  match g with GRes n _ _ => (FromReservation, n) | GLim n _ => (FromRateLimit, n) end.

(** How many of the grants are units of [k]. *)
Definition units {Lease D} (k : source * string) (gs : list (grant Lease D)) : Z :=
  Z.of_nat (length (filter (fun g => key g = k) gs)).

(** What the primitives promise: an acquire takes one unit and a release of a unit that is
    out gives it back; an operation that raises an ordinary exception changes nothing, and
    neither do name resolution, the row probe and the row creation. *)
Class Accounting {W Ref Lease D} (B : Backend W Ref Lease D) := {
  used : W -> source * string -> Z;
  out : W -> list (grant Lease D) -> Prop;
  out_perm w gs gs' : gs ≡ₚ gs' -> out w gs -> out w gs';
  resolve_reservation_ok ref w w' x gs : out w gs -> resolve_reservation ref w = (w', x) ->
    out w' gs /\ forall k, used w' k = used w k;
  resolve_rate_limit_ok ref w w' x gs : out w gs -> resolve_rate_limit ref w = (w', x) ->
    out w' gs /\ forall k, used w' k = used w k;
  slot_rows_exist_ok n w w' x gs : out w gs -> slot_rows_exist n w = (w', x) ->
    out w' gs /\ forall k, used w' k = used w k;
  ensure_rows_ok n w w' x gs : out w gs -> ensure_rows n w = (w', x) ->
    out w' gs /\ forall k, used w' k = used w k;
  res_acquire_ok n j wk w w' l gs : out w gs -> res_acquire n j wk w = (w', Ok l) ->
    out w' (GRes n l wk :: gs) /\ forall k, used w' k = used w k + units k [GRes (D := D) n l wk];
  res_acquire_err n j wk w w' e gs : out w gs -> res_acquire n j wk w = (w', Err e) -> caught e = true ->
    out w' gs /\ forall k, used w' k = used w k;
  res_release_ok n l wk w w' gs : out w (GRes n l wk :: gs) -> res_release n l wk w = (w', Ok tt) ->
    out w' gs /\ forall k, used w' k = used w k - units k [GRes (D := D) n l wk];
  res_release_err n l wk w w' e gs : out w gs -> res_release n l wk w = (w', Err e) -> caught e = true ->
    out w' gs /\ forall k, used w' k = used w k;
  rl_acquire_ok n w w' d gs : out w gs -> rl_acquire n w = (w', Ok d) -> d_allowed d = true ->
    out w' (GLim n d :: gs) /\ forall k, used w' k = used w k + units k [GLim (Lease := Lease) n d];
  rl_acquire_denied n w w' d gs : out w gs -> rl_acquire n w = (w', Ok d) -> d_allowed d = false ->
    out w' gs /\ forall k, used w' k = used w k;
  rl_acquire_err n w w' e gs : out w gs -> rl_acquire n w = (w', Err e) -> caught e = true ->
    out w' gs /\ forall k, used w' k = used w k;
  rl_refund_ok n d w w' gs : out w (GLim n d :: gs) -> rl_refund n d w = (w', Ok tt) ->
    out w' gs /\ forall k, used w' k = used w k - units k [GLim (Lease := Lease) n d];
  rl_refund_err n d w w' e gs : out w gs -> rl_refund n d w = (w', Err e) -> caught e = true ->
    out w' gs /\ forall k, used w' k = used w k
}.

Section client.
Context `{Rounding} {W Ref Lease D : Type} `{B : Backend W Ref Lease D} `{A : !Accounting B}.
Notation handle := (handle Lease D).
Notation grant := (grant Lease D).
Implicit Types (hs : list handle) (gs : list grant) (r : registry) (w : W).

Definition grant_of (h : handle) : grant :=
  match h with
  | ReservationHandle n l wk => GRes n l wk
  | RateLimitHandle n d _ => GLim n d
  end.

(** The accounting state of a world: grants out and the units they use. *)
Definition balance w gs w' gs' : Prop :=
  out w' gs' /\ forall k, used w' k - units k gs' = used w k - units k gs.

Lemma units_app k gs gs' : units k (gs ++ gs') = units k gs + units k gs'.
Proof. unfold units. rewrite filter_app, length_app. lia. Qed.

Lemma units_cons k g gs : units k (g :: gs) = units k [g] + units k gs.
Proof. apply (units_app k [g] gs). Qed.

#[local] Instance units_perm k : Proper (Permutation ==> eq) (units (Lease := Lease) (D := D) k).
Proof. intros gs gs' E. unfold units. by rewrite E. Qed.

Lemma balance_refl w gs : out w gs -> balance w gs w gs.
Proof. by split. Qed.

Lemma balance_same w w' gs : (out w' gs /\ forall k, used w' k = used w k) -> balance w gs w' gs.
Proof. intros [? E]. split; [done|]. intros k. rewrite E. lia. Qed.

Lemma balance_take w w' gs g :
  (out w' (g :: gs) /\ forall k, used w' k = used w k + units k [g]) -> balance w gs w' (g :: gs).
Proof. intros [? E]. split; [done|]. intros k. rewrite E, (units_cons k g gs). lia. Qed.

Lemma balance_give w w' gs g :
  (out w' gs /\ forall k, used w' k = used w k - units k [g]) -> balance w (g :: gs) w' gs.
Proof. intros [? E]. split; [done|]. intros k. rewrite E, (units_cons k g gs). lia. Qed.

Lemma balance_trans w1 gs1 w2 gs2 w3 gs3 :
  balance w1 gs1 w2 gs2 -> balance w2 gs2 w3 gs3 -> balance w1 gs1 w3 gs3.
Proof. intros [_ E1] [? E2]. split; [done|]. intros k. rewrite E2. apply E1. Qed.

Lemma balance_out w gs w' gs' : balance w gs w' gs' -> out w' gs'.
Proof. by intros []. Qed.

(** Steps of the acquiring half: each leaves the world in balance with the grants it names. *)
Lemma heal_balance now pool n r w r' w' x gs :
  out w gs -> heal now pool n r w = (r', w', x) -> balance w gs w' gs.
Proof.
  intros Ho. unfold heal. destruct (_ || _); [intros; simplify_eq; by apply balance_refl|].
  destruct (inside_window _ _); [intros; simplify_eq; by apply balance_refl|].
  destruct (slot_rows_exist n w) as [w1 x1] eqn:E1.
  pose proof (balance_same _ _ _ (slot_rows_exist_ok _ _ _ _ _ Ho E1)) as B1.
  destruct x1 as [[]|e]; [intros; by simplify_eq| |destruct (caught e); intros; by simplify_eq].
  destruct (ensure_rows n w1) as [w2 x2] eqn:E2.
  pose proof (balance_same _ _ _ (ensure_rows_ok _ _ _ _ _ (balance_out _ _ _ _ B1) E2)) as B2.
  pose proof (balance_trans _ _ _ _ _ _ B1 B2).
  destruct x2 as [|e]; [|destruct (caught e)]; intros; by simplify_eq.
Qed.

Lemma acquire_with_heal_balance now pool n job wk r w r' w' x gs :
  out w gs -> acquire_with_heal now pool n job wk r w = (r', w', x) ->
  match x with
  | Ok l => balance w gs w' (GRes n l wk :: gs)
  | Err e => caught e = true -> balance w gs w' gs
  end.
Proof.
  intros Ho. unfold acquire_with_heal. destruct (res_acquire n job wk w) as [w1 x1] eqn:E1.
  destruct x1 as [l|e]; [intros; simplify_eq; by eapply balance_take, res_acquire_ok|].
  destruct (is_unavailable e) eqn:Hu.
  - assert (B1 : balance w gs w1 gs).
    { eapply balance_same, res_acquire_err; [done|done|]. by destruct e. }
    destruct (heal now pool n r w1) as [[r2 w2] x2] eqn:E2.
    pose proof (heal_balance _ _ _ _ _ _ _ _ _ (balance_out _ _ _ _ B1) E2) as B2.
    pose proof (balance_trans _ _ _ _ _ _ B1 B2) as B12.
    destruct x2 as [[]|e']; [|intros; by simplify_eq..].
    destruct (res_acquire n job wk w2) as [w3 x3] eqn:E3. intros; simplify_eq.
    destruct x as [l|e3].
    + eapply balance_trans; [exact B12|]. eapply balance_take, res_acquire_ok; [|exact E3]. by eapply balance_out.
    + intros Hc. eapply balance_trans; [exact B12|]. eapply balance_same, res_acquire_err; [|exact E3|done].
      by eapply balance_out.
  - intros; simplify_eq. intros Hc. by eapply balance_same, res_acquire_err.
Qed.

Context (clock : nat -> Q) (pool : bool) (job worker : Z).

(** The grants of a composition in progress: newest last in the handles. *)
Definition with_handles hs gs : list grant := map grant_of hs ++ gs.

Lemma with_handles_snoc hs h gs : grant_of h :: with_handles hs gs ≡ₚ with_handles (hs ++ [h]) gs.
Proof. unfold with_handles. rewrite map_app. simpl. by rewrite <- app_assoc, Permutation_middle. Qed.

Lemma balance_perm w gs w' gs1 gs2 : gs1 ≡ₚ gs2 -> balance w gs w' gs1 -> balance w gs w' gs2.
Proof.
  intros E [Ho Hk]. split; [by eapply out_perm|]. intros k. rewrite <- E. apply Hk.
Qed.

(** Neither a cancellation nor one escaping a release. *)
Definition settled {X} (x : result exn X) : Prop :=
  match x with Ok _ => True | Err e => caught e = true end.

Definition is_reservation (h : handle) : bool := match h with ReservationHandle _ _ _ => true | _ => false end.

Definition refundable (h : handle) : bool := match h with RateLimitHandle _ _ f => f | _ => true end.

Lemma acquire_reservations_spec refs n acq r w r' w' acq' x gs w0 gs0 :
  balance w0 gs0 w (with_handles acq gs) ->
  acquire_reservations clock pool job worker refs n acq r w = (r', w', (acq', x)) ->
  (settled x -> balance w0 gs0 w' (with_handles acq' gs)) /\
  exists new, acq' = acq ++ new /\ Forall (fun h => is_reservation h = true) new /\
    (is_ok x = true -> length new = length refs).
Proof.
  revert n acq r w. induction refs as [|ref refs IH]; intros n acq r w Hb; simpl.
  { intros; simplify_eq. split; [done|]. exists []. by rewrite app_nil_r. }
  assert (Hstop : forall w1 e, balance w0 gs0 w1 (with_handles acq gs) \/ caught e = false ->
    (settled (X := unit) (Err e) -> balance w0 gs0 w1 (with_handles acq gs)) /\
    exists new, acq = acq ++ new /\ Forall (fun h => is_reservation h = true) new /\
      (is_ok (E := exn) (A := unit) (Err e) = true -> length new = length (ref :: refs))).
  { intros w1 e Hor. split; [simpl; intros; destruct Hor; [done|congruence]|].
    exists []. by rewrite app_nil_r. }
  destruct (resolve_reservation ref w) as [w1 x1] eqn:E1.
  pose proof (balance_trans _ _ _ _ _ _ Hb (balance_same _ _ _
    (resolve_reservation_ok _ _ _ _ _ (balance_out _ _ _ _ Hb) E1))) as B1.
  destruct x1 as [name|e]; [|intros; simplify_eq; apply Hstop; by left].
  case_bool_decide; [|intros; simplify_eq; apply Hstop; by left].
  destruct (acquire_with_heal (clock n) pool name job worker r w1) as [[r2 w2] x2] eqn:E2.
  pose proof (acquire_with_heal_balance _ _ _ _ _ _ _ _ _ _ _ (balance_out _ _ _ _ B1) E2) as B2.
  destruct x2 as [l|e].
  - intros Hrec. apply IH in Hrec as [Hs (new & -> & Hf & Hlen)].
    + split; [done|]. exists (ReservationHandle name l worker :: new). rewrite <- app_assoc.
      split_and!; [done|by constructor|]. intros Hok. simpl. by rewrite Hlen.
    + eapply balance_perm; [apply with_handles_snoc|]. eapply balance_trans; [exact B1|exact B2].
  - intros; simplify_eq. apply Hstop. destruct (caught e) eqn:Hc; [left|by right].
    eapply balance_trans; [exact B1|]. auto.
Qed.

Lemma acquire_rate_limits_spec refs acq r w w' acq' x gs w0 gs0 :
  balance w0 gs0 w (with_handles acq gs) ->
  acquire_rate_limits refs acq r w = (w', (acq', x)) ->
  (settled x -> balance w0 gs0 w' (with_handles acq' gs)) /\
  exists new, acq' = acq ++ new /\
    Forall (fun h => is_reservation h = false /\ refundable h = true) new /\
    (is_ok x = true -> length new = length refs).
Proof.
  revert acq w. induction refs as [|ref refs IH]; intros acq w Hb; simpl.
  { intros; simplify_eq. split; [done|]. exists []. by rewrite app_nil_r. }
  assert (Hstop : forall w1 e, balance w0 gs0 w1 (with_handles acq gs) \/ caught e = false ->
    (settled (X := unit) (Err e) -> balance w0 gs0 w1 (with_handles acq gs)) /\
    exists new, acq = acq ++ new /\ Forall (fun h => is_reservation h = false /\ refundable h = true) new /\
      (is_ok (E := exn) (A := unit) (Err e) = true -> length new = length (ref :: refs))).
  { intros w1 e Hor. split; [simpl; intros; destruct Hor; [done|congruence]|].
    exists []. by rewrite app_nil_r. }
  destruct (resolve_rate_limit ref w) as [w1 x1] eqn:E1.
  pose proof (balance_trans _ _ _ _ _ _ Hb (balance_same _ _ _
    (resolve_rate_limit_ok _ _ _ _ _ (balance_out _ _ _ _ Hb) E1))) as B1.
  destruct x1 as [name|e]; [|intros; simplify_eq; apply Hstop; by left].
  case_bool_decide; [|intros; simplify_eq; apply Hstop; by left].
  pose proof (balance_out _ _ _ _ B1) as Ho1.
  destruct (rl_acquire name w1) as [w2 [d|e]] eqn:E2.
  - destruct (d_allowed d) eqn:Hd.
    + pose proof (balance_take _ _ _ _ (rl_acquire_ok _ _ _ _ _ Ho1 E2 Hd)) as B2.
      intros Hrec. apply IH in Hrec as [Hs (new & -> & Hf & Hlen)].
      * split; [done|]. exists (RateLimitHandle name d true :: new). rewrite <- app_assoc.
        split_and!; [done|by constructor|]. intros Hok. simpl. by rewrite Hlen.
      * eapply balance_perm; [apply with_handles_snoc|]. eapply balance_trans; [exact B1|exact B2].
    + intros; simplify_eq. apply Hstop. left. eapply balance_trans; [exact B1|].
      by eapply balance_same, rl_acquire_denied.
  - intros; simplify_eq. apply Hstop. destruct (caught e) eqn:Hc; [left|by right].
    eapply balance_trans; [exact B1|]. by eapply balance_same, rl_acquire_err.
Qed.

(** Releasing: what stays out are the failures and the tokens that are not refunded. *)
Lemma handle_release_balance h w w' x gs :
  refundable h = true -> out w (grant_of h :: gs) -> handle_release h w = (w', x) ->
  match x with
  | Ok _ => balance w (grant_of h :: gs) w' gs
  | Err e => caught e = true -> balance w (grant_of h :: gs) w' (grant_of h :: gs)
  end.
Proof.
  intros Hr Ho. destruct h as [n l wk|n d []]; simplify_eq/=; intros E; destruct x as [[]|e].
  - by eapply balance_give, res_release_ok.
  - intros. by eapply balance_same, res_release_err.
  - by eapply balance_give, rl_refund_ok.
  - intros. by eapply balance_same, rl_refund_err.
Qed.

Lemma release_each_spec hs w stuck w' gs :
  out w (with_handles hs gs) -> release_each hs w = (stuck, w', Ok tt) ->
  stuck `sublist_of` hs /\
  balance w (with_handles hs gs) w'
    (map grant_of (stuck ++ filter (fun h => refundable h = false) hs) ++ gs).
Proof.
  revert w stuck gs. induction hs as [|h hs IH]; intros w stuck gs Ho; simpl.
  { intros; simplify_eq. split; [done|]. by apply balance_refl. }
  destruct (refundable h) eqn:Hr.
  - rewrite filter_cons_False by congruence.
    destruct (handle_release h w) as [w1 x1] eqn:E1.
    pose proof (handle_release_balance h w w1 x1 (with_handles hs gs) Hr Ho E1) as B1.
    destruct x1 as [|e].
    + intros Hrec. apply (IH _ _ gs) in Hrec as [Hs B2]; [|by eapply balance_out].
      split; [by apply sublist_cons|]. by eapply balance_trans.
    + destruct (caught e); [|done]. specialize (B1 eq_refl).
      destruct (release_each hs w1) as [[stuck2 w2] x2] eqn:E2. intros; simplify_eq.
      assert (Hm : grant_of h :: with_handles hs gs ≡ₚ with_handles hs (grant_of h :: gs))
        by apply Permutation_middle.
      apply (IH _ _ (grant_of h :: gs)) in E2 as [Hs B2].
      * split; [by apply sublist_skip|]. simpl. eapply balance_perm; [symmetry; apply Permutation_middle|].
        eapply balance_trans; [|exact B2]. eapply balance_perm; [exact Hm|done].
      * eapply out_perm; [exact Hm|]. by eapply balance_out.
  - rewrite filter_cons_True by done. destruct h as [|n d []]; simplify_eq/=. intros Hrec.
    assert (Hm : GLim n d :: with_handles hs gs ≡ₚ with_handles hs (GLim n d :: gs))
      by apply Permutation_middle.
    apply (IH _ _ (GLim n d :: gs)) in Hrec as [Hs B2]; [|by eapply out_perm].
    split; [by apply sublist_cons|]. eapply balance_perm; [|eapply balance_trans; [|exact B2]].
    + rewrite !map_app. simpl. rewrite <- !app_assoc. simpl. apply Permutation_app_head.
      symmetry. apply Permutation_middle.
    + eapply balance_perm; [exact Hm|]. by apply balance_refl.
Qed.

Lemma release_each_err hs w stuck w' e : release_each hs w = (stuck, w', Err e) -> caught e = false.
Proof.
  revert w stuck. induction hs as [|h hs IH]; intros w stuck; simpl; [done|].
  destruct (handle_release h w) as [w1 [|e1]]; [apply IH|].
  destruct (caught e1) eqn:?; [|intros; by simplify_eq].
  destruct (release_each hs w1) as [[? ?] ?] eqn:?. intros; simplify_eq. eauto.
Qed.

Lemma filter_none_refundable hs :
  Forall (fun h => refundable h = true) hs -> filter (fun h => refundable h = false) hs = [].
Proof. induction 1; [done|]. by rewrite filter_cons_False by congruence. Qed.

Lemma acquire_for_actor_spec limits reservs r w r' w' stuck x gs :
  out w gs -> acquire_for_actor clock pool job worker limits reservs r w = (r', w', stuck, x) ->
  match x with
  | Ok hs => stuck = [] /\ length hs = (length reservs + length limits)%nat /\
      Forall (fun h => is_reservation h = true) (take (length reservs) hs) /\
      Forall (fun h => is_reservation h = false) (drop (length reservs) hs) /\
      balance w gs w' (with_handles hs gs)
  | Err e => caught e = true -> balance w gs w' (with_handles stuck gs)
  end.
Proof.
  intros Ho. unfold acquire_for_actor.
  destruct (acquire_reservations clock pool job worker reservs 0 [] r w) as [[r1 w1] [acq1 x1]] eqn:E1.
  destruct (acquire_reservations_spec reservs 0 [] r w _ _ _ _ gs w gs (balance_refl w gs Ho) E1)
    as [B1 (new1 & -> & Hr1 & Hl1)]. simpl in *.
  destruct (match x1 with Ok _ => _ | Err e => _ end) as [w2 [acq x2]] eqn:E2.
  assert ((settled x2 -> balance w gs w2 (with_handles acq gs)) /\ Forall (fun h => refundable h = true) acq /\
    (is_ok x2 = true -> exists new2, acq = new1 ++ new2 /\ length new1 = length reservs /\
       length new2 = length limits /\ Forall (fun h => is_reservation h = false) new2)) as (B2 & Hrf & Hok).
  { assert (Hrf1 : Forall (fun h => refundable h = true) new1).
    { eapply Forall_impl; [exact Hr1|]. by intros []. }
    destruct x1 as [[]|e]; [|by simplify_eq]. specialize (B1 I).
    apply (acquire_rate_limits_spec _ _ _ _ _ _ _ gs w gs B1) in E2 as [B2 (new2 & -> & Hr2 & Hl2)].
    split_and!; [done| |].
    - apply Forall_app. split; [done|]. eapply Forall_impl; [exact Hr2|]. by intros ? [].
    - intros Hx. exists new2. split_and!; [done|by apply Hl1|by apply Hl2|].
      eapply Forall_impl; [exact Hr2|]. by intros ? []. }
  destruct x2 as [[]|e].
  - intros; simplify_eq. destruct (Hok eq_refl) as (new2 & -> & Hn1 & Hn2 & Hnr).
    rewrite length_app, <- Hn1, take_app_length, drop_app_length. split_and!; auto with lia. by apply B2.
  - destruct (caught e) eqn:Hc; [|intros; simplify_eq; congruence].
    destruct (release_each (rev acq) w2) as [[st w3] x3] eqn:E3.
    destruct x3 as [[]|e']; intros; simplify_eq.
    + intros _. specialize (B2 Hc).
      assert (Hp : with_handles acq gs ≡ₚ with_handles (rev acq) gs)
        by (unfold with_handles; by rewrite <- Permutation_rev).
      apply (release_each_spec _ _ _ _ gs) in E3 as [_ B3]; [|eapply out_perm; [exact Hp|by eapply balance_out]].
      rewrite filter_none_refundable, app_nil_r in B3 by (by apply Forall_rev).
      eapply balance_trans; [|exact B3]. by eapply balance_perm.
    + apply release_each_err in E3. intros. congruence.
Qed.
(** [release_for_actor] releases like the rollback, and wakes the buckets it freed. *)
Lemma release_and_notify_each hs w woken stuck w' x :
  release_and_notify hs w = (woken, stuck, w', x) ->
  release_each hs w = (stuck, w', x) /\
  (is_ok x = true ->
   map h_name (filter (fun h => is_reservation h = true) hs) ≡ₚ
   woken ++ map h_name (filter (fun h => is_reservation h = true) stuck)).
Proof.
  revert w woken stuck. induction hs as [|h hs IH]; intros w woken stuck; simpl.
  { intros; by simplify_eq. }
  destruct (handle_release h w) as [w1 [[]|e]].
  - destruct (release_and_notify hs w1) as [[[wk st] w2] x2] eqn:E. intros; simplify_eq.
    destruct (IH _ _ _ E) as [-> Hn]. split; [done|]. intros Hx. specialize (Hn Hx).
    destruct h; [rewrite filter_cons_True by done|rewrite filter_cons_False by done; done].
    simpl. by rewrite Hn.
  - destruct (caught e); [|intros; by simplify_eq].
    destruct (release_and_notify hs w1) as [[[wk st] w2] x2] eqn:E. intros; simplify_eq.
    destruct (IH _ _ _ E) as [-> Hn]. split; [done|]. intros Hx. specialize (Hn Hx).
    destruct h; [rewrite !filter_cons_True by done|by rewrite !filter_cons_False by done].
    simpl. rewrite Hn. apply Permutation_middle.
Qed.

(** A token that is not refunded cannot fail to be released. *)
Lemma release_each_stuck hs w stuck w' x :
  release_each hs w = (stuck, w', x) -> Forall (fun h => refundable h = true) stuck.
Proof.
  revert w stuck. induction hs as [|h hs IH]; intros w stuck; simpl; [intros; by simplify_eq|].
  destruct (handle_release h w) as [w1 [|e]] eqn:E; [apply IH|]. destruct (caught e); [|intros; by simplify_eq].
  destruct (release_each hs w1) as [[st w2] x2] eqn:E2. intros; simplify_eq. constructor; [|by eapply IH].
  by destruct h as [|n d []].
Qed.

Lemma kept_units n hs :
  units (FromRateLimit, n) (map grant_of (filter (fun h => refundable h = false) (map keep_tokens hs))) =
    units (FromRateLimit, n) (map grant_of hs) /\
  units (FromReservation, n) (map grant_of (filter (fun h => refundable h = false) (map keep_tokens hs))) = 0.
Proof.
  induction hs as [|h hs [IH1 IH2]]; [done|]. rewrite !map_cons, (units_cons _ (grant_of h) (map grant_of hs)).
  destruct h as [m l wk|m d f]; cbn [keep_tokens].
  - rewrite filter_cons_False by done. split; [|done]. by rewrite IH1.
  - rewrite filter_cons_True by done. rewrite map_cons.
    rewrite 2!(units_cons _ _ (map grant_of (filter _ _))). by rewrite IH1, IH2.
Qed.

Lemma reservations_only n hs :
  Forall (fun h => is_reservation h = true) hs -> units (FromRateLimit, n) (map grant_of hs) = 0.
Proof. induction 1 as [|h hs Hh _ IH]; [done|]. simpl. rewrite units_cons, IH. by destruct h. Qed.

Lemma release_for_actor_spec hs gs w woken stuck w' :
  out w (with_handles hs gs) -> release_for_actor hs w = (woken, stuck, w', Ok tt) ->
  (forall n, used w' (FromReservation, n) =
     used w (FromReservation, n) - units (FromReservation, n) (map grant_of hs)
       + units (FromReservation, n) (map grant_of stuck)) /\
  (forall n, used w' (FromRateLimit, n) = used w (FromRateLimit, n)) /\
  Forall (fun h => is_reservation h = true) stuck /\
  map h_name (filter (fun h => is_reservation h = true) hs) ≡ₚ woken ++ map h_name stuck.
Proof.
  intros Ho Hr. unfold release_for_actor in Hr. apply release_and_notify_each in Hr as [Hr Hn].
  specialize (Hn eq_refl). set (ks := map keep_tokens hs) in *.
  assert (Hgs : map grant_of (rev ks) ≡ₚ map grant_of hs).
  { rewrite <- Permutation_rev. unfold ks. rewrite map_map.
    rewrite (map_ext_Forall _ grant_of); [done|]. apply Forall_forall. by intros []. }
  pose proof (release_each_stuck _ _ _ _ _ Hr) as Hst.
  apply (release_each_spec _ _ _ _ gs) in Hr as [Hsub [_ Hb]];
    [|eapply out_perm; [|exact Ho]; unfold with_handles; by rewrite Hgs].
  assert (Hres : Forall (fun h => is_reservation h = true) stuck).
  { apply Forall_forall. intros h Hh. assert (Hf : refundable h = true) by (by eapply Forall_forall in Hst).
    eapply elem_of_sublist in Hh; [|exact Hsub]. rewrite <- Permutation_rev in Hh.
    apply list_elem_of_fmap in Hh as ([] & -> & _); done. }
  assert (Hperm : filter (fun h => refundable h = false) (rev ks) ≡ₚ filter (fun h => refundable h = false) ks)
    by (by rewrite <- Permutation_rev).
  assert (Hu : forall k, used w' k - (units k (map grant_of stuck) +
      units k (map grant_of (filter (fun h => refundable h = false) ks))) = used w k - units k (map grant_of hs)).
  { intros k. specialize (Hb k). unfold with_handles in Hb.
    rewrite map_app, Hgs, Hperm, !units_app in Hb. lia. }
  split_and!; [| |done|].
  - intros n. specialize (Hu (FromReservation, n)). unfold ks in Hu. rewrite (proj2 (kept_units n hs)) in Hu. lia.
  - intros n. specialize (Hu (FromRateLimit, n)). unfold ks in Hu.
    rewrite (proj1 (kept_units n hs)), (reservations_only n stuck Hres) in Hu. lia.
  - rewrite (filter_keeps_all _ stuck) in Hn by done. rewrite <- Hn, <- Permutation_rev. unfold ks.
    apply reflexive_eq. clear. induction hs as [|h hs IH]; [done|]. simpl.
    destruct h; [rewrite !filter_cons_True by done; simpl; by rewrite IH|by rewrite !filter_cons_False].
Qed.

(** ** The healing probe is rationed *)

(** Inside the window of the last attempt a denial stands at once: no probe, no change. *)
Lemma heal_rationed now n r w s :
  heal_attempted r !! n = Some s -> inside_window now (Some s) = true ->
  heal now pool n r w = (r, w, Ok false).
Proof. intros Hs Hi. unfold heal. destruct (_ || _); [done|]. by rewrite Hs, Hi. Qed.

(** An attempt that is not undone by an error leaves its stamp. *)
Lemma heal_stamps now n r w r' w' b :
  heal now pool n r w = (r', w', Ok b) -> n ∈ keyed_reservation_last_used r -> pool = true ->
  inside_window now (heal_attempted r !! n) = false ->
  heal_attempted r' !! n = Some now \/ (b = false /\ heal_attempted r' !! n = None).
Proof.
  intros Hh Hk Hp Hi. unfold heal in Hh.
  rewrite bool_decide_eq_false_2, Hp, Hi in Hh by (intros ?; done). simpl in Hh.
  destruct (slot_rows_exist n w) as [w1 [[]|e]].
  - simplify_eq. left. simpl. by rewrite lookup_insert_eq.
  - destruct (ensure_rows n w1) as [w2 [|e]].
    + simplify_eq. left. simpl. by rewrite lookup_insert_eq.
    + destruct (caught e); simplify_eq. right. split; [done|].
      destruct (inside_window now (heal_failure_logged r !! n)); apply lookup_delete_eq.
  - destruct (caught e); simplify_eq. right. split; [done|].
    destruct (inside_window now (heal_failure_logged r !! n)); apply lookup_delete_eq.
Qed.
End client.
