(* ===== verification/MemoryBackend.v ===== *)
(** * The in-memory primitives keep the admission accounts

    The in-memory slot table ([Reservation]) and sliding-window log ([SlidingWindow]) as a
    [Backend] of the registry at one clock reading, and the proof that they satisfy
    [Accounting]: an acquire takes exactly one unit of its bucket and nothing else, a
    release or refund gives back exactly the unit its handle names. *)

From Stdlib Require Import ZArith Lia QArith Lqa.
From stdpp Require Import base tactics list gmap strings.
From S2P Require Import Prelude PyFloat SlidingWindow WindowProps Retry JobRow Terminal.
From S2P Require Import Control Sweeps Reservation ReservationProps Admission AdmissionProps.

Open Scope Z_scope.

(** ** Slots *)

Section slots.
Context (now : Z).

Definition held_slots (r : gmap Z mslot) : gmap Z mslot :=
  filter (fun x => m_acquirable now x.2 = false) r.

Definition slots_used (m : mtable) (n : string) : Z := Z.of_nat (size (held_slots (default ∅ (m !! n)))).

(** The slot row a lease names is held, live, by its worker and acquisition stamp. *)
Definition leased (m : mtable) (n : string) (l : Z * Z) (wk : Z) : Prop :=
  exists r s, m !! n = Some r /\ r !! l.1 = Some s /\ m_worker s = Some wk /\
    m_acquired s = Some l.2 /\ m_acquirable now s = false.

Lemma ensure_lookup n k keyed (m : mtable) :
  exists r, mem_ensure_slots n k keyed m !! n = Some r /\
    (forall i s, default ∅ (m !! n) !! i = Some s -> r !! i = Some s) /\
    (forall i s, r !! i = Some s -> default ∅ (m !! n) !! i = Some s \/ s = free_mslot keyed).
Proof.
  eexists. unfold mem_ensure_slots. rewrite lookup_insert_eq. split; [done|].
  generalize (default ∅ (m !! n)). induction (range k) as [|j js IH]; intros r; simpl; [naive_solver|].
  destruct (r !! j) as [sj|] eqn:Hj; [apply IH|].
  destruct (IH (<[j := free_mslot keyed]> r)) as [H1 H2]. split.
  - intros i s Hi. apply H1. rewrite lookup_insert_ne; [done|]. intros ->. congruence.
  - intros i s [Hi| ->]%H2; [|by right]. destruct (decide (i = j)) as [->|Hne].
    + rewrite lookup_insert_eq in Hi. simplify_eq. by right.
    + rewrite lookup_insert_ne in Hi by done. by left.
Qed.

Lemma ensure_other n k keyed (m : mtable) n' : n' <> n -> mem_ensure_slots n k keyed m !! n' = m !! n'.
Proof. intros. unfold mem_ensure_slots. by rewrite lookup_insert_ne. Qed.

Lemma ensure_used n k keyed m n' : slots_used (mem_ensure_slots n k keyed m) n' = slots_used m n'.
Proof.
  unfold slots_used. destruct (decide (n' = n)) as [->|Hne]; [|by rewrite ensure_other].
  destruct (ensure_lookup n k keyed m) as (r & -> & H1 & H2). do 2 f_equal. simpl. unfold held_slots.
  apply map_eq. intros i. apply option_eq. intros s. rewrite !map_lookup_filter_Some. simpl. split.
  - intros [[Hs| ->]%H2 Ha]; [done|]. by unfold m_acquirable in Ha.
  - intros [Hs Ha]. split; [by apply H1|done].
Qed.

Lemma ensure_leased n k keyed m n' l wk : leased m n' l wk -> leased (mem_ensure_slots n k keyed m) n' l wk.
Proof.
  intros (r & s & Hm & Hs & Hrest). destruct (decide (n' = n)) as [->|Hne].
  - destruct (ensure_lookup n k keyed m) as (r' & Hr' & H1 & _). exists r', s.
    split_and!; [done| |apply Hrest..]. apply H1. by rewrite Hm.
  - exists r, s. by rewrite ensure_other.
Qed.

Lemma held_insert r i s s' :
  r !! i = Some s ->
  Z.of_nat (size (held_slots (<[i := s']> r))) =
    Z.of_nat (size (held_slots r)) + (if m_acquirable now s' then 0 else 1) - (if m_acquirable now s then 0 else 1).
Proof.
  intros Hi. unfold held_slots.
  assert (Hdel : forall (t : mslot), filter (fun x => m_acquirable now x.2 = false) (<[i := t]> r) =
    if m_acquirable now t then base.delete i (filter (fun x => m_acquirable now x.2 = false) r)
    else <[i := t]> (base.delete i (filter (fun x => m_acquirable now x.2 = false) r))).
  { intros t. destruct (m_acquirable now t) eqn:Ht.
    - rewrite map_filter_insert_False by (simpl; congruence). by rewrite map_filter_delete.
    - rewrite map_filter_insert_True by done. by rewrite insert_delete_eq. }
  pose proof (Hdel s) as Hself. rewrite insert_id in Hself by done. rewrite Hdel.
  assert (Hsz : forall t : mslot, size (<[i := t]> (base.delete i (filter (fun x => m_acquirable now x.2 = false) r))) =
    S (size (base.delete i (filter (fun x => m_acquirable now x.2 = false) r)))).
  { intros t. apply map_size_insert_None. apply lookup_delete_eq. }
  apply (f_equal (fun x => Z.of_nat (size x))) in Hself.
  destruct (m_acquirable now s), (m_acquirable now s'); rewrite ?Hsz in *; lia.
Qed.

Lemma mem_acquire_spec n job wk lease m m' l :
  0 <= lease -> mem_acquire now n job wk lease m = Ok (m', l) ->
  leased m' n l wk /\ ~ (exists wk' f, leased m n (l.1, f) wk') /\
  (forall n', slots_used m' n' = slots_used m n' + (if decide (n' = n) then 1 else 0)) /\
  (forall n' l' wk', leased m n' l' wk' -> leased m' n' l' wk').
Proof.
  intros Hl. unfold mem_acquire. destruct (m !! n) as [r|] eqn:Hm; [|done].
  pose proof (head_filter_spec (fun x => m_acquirable now x.2 = true) by_index (in_order r) (in_order_sorted r)) as Hh.
  destruct (head _) as [[i s]|]; [|done]. destruct Hh as (Hin & Ha & _). apply elem_of_in_order in Hin. simpl in *.
  intros [= <- <-]. set (s' := {| m_job := Some job; m_worker := Some wk; m_acquired := Some now;
    m_lease := Some (now + lease); m_keyed := m_keyed s |}).
  assert (Hs' : m_acquirable now s' = false).
  { unfold m_acquirable, s', opt_lt. simpl. apply Z.ltb_ge. lia. }
  split_and!.
  - exists (<[i := s']> r), s'. simpl. rewrite !lookup_insert_eq. by split_and!.
  - intros (wk' & f & r2 & s2 & E1 & E2 & _ & _ & E3). simplify_eq/=. congruence.
  - intros n'. unfold slots_used. case_decide as Hn.
    + subst n'. rewrite lookup_insert_eq, Hm. simpl. rewrite (held_insert r i s s' Hin), Hs', Ha. lia.
    + rewrite lookup_insert_ne by done. lia.
  - intros n' l' wk' (r2 & s2 & E1 & E2 & E3 & E4 & E5). destruct (decide (n' = n)) as [->|Hn].
    + simplify_eq. exists (<[i := s']> r), s2. rewrite lookup_insert_eq.
      split_and!; [done|rewrite lookup_insert_ne; [done|]|done..]. intros ->. congruence.
    + exists r2, s2. by rewrite lookup_insert_ne.
Qed.

Lemma mem_release_spec n l wk m :
  leased m n l wk ->
  let m' := (mem_release n l.1 wk (Some l.2) m).1 in
  (forall n', slots_used m' n' = slots_used m n' - (if decide (n' = n) then 1 else 0)) /\
  (forall n' l' wk', (n', l'.1) <> (n, l.1) -> leased m n' l' wk' -> leased m' n' l' wk').
Proof.
  intros (r & s & Hm & Hs & Hw & Hf & Ha). unfold mem_release. rewrite Hm, Hs, Hw, Hf.
  rewrite !bool_decide_eq_true_2 by done. simpl. split.
  - intros n'. unfold slots_used. case_decide as Hn.
    + subst n'. rewrite lookup_insert_eq, Hm. simpl. rewrite (held_insert r l.1 s _ Hs), Ha. simpl. lia.
    + rewrite lookup_insert_ne by done. lia.
  - intros n' l' wk' Hne (r2 & s2 & E1 & E2 & Hrest). destruct (decide (n' = n)) as [->|Hn].
    + simplify_eq. eexists _, s2. rewrite lookup_insert_eq.
      split_and!; [done|rewrite lookup_insert_ne by congruence; done|apply Hrest..].
    + exists r2, s2. by rewrite lookup_insert_ne.
Qed.
End slots.

(** ** Window entries *)

Section logs.
Context (limit window_ms now : Z) (limit_pos : 1 <= limit) (window_pos : 0 < window_ms).
Implicit Types m : mlog nat.

Definition log_used m : Z := Z.of_nat (length (recent window_ms now (pairs m))).

(** Request ids come from one supply; [next] is the first that has not been given out. *)
Definition log_ok (next : nat) m : Prop :=
  length (deque m) = length (ids m) /\ NoDup (ids m) /\ Forall (fun i => i < next)%nat (ids m).

Definition charged m (rid : nat) : Prop := exists ts, (ts, rid) ∈ pairs m /\ now - window_ms < ts.

Lemma charged_recent m rid : charged m rid <-> rid ∈ (recent window_ms now (pairs m)).*2.
Proof.
  unfold charged, recent. rewrite list_elem_of_fmap. split.
  - intros (ts & Hin & Hts). exists (ts, rid). split; [done|]. by apply list_elem_of_filter.
  - intros ([ts r] & -> & [Hts Hin]%list_elem_of_filter). by exists ts.
Qed.

Lemma log_evict next m :
  log_ok next m ->
  exists m', evict (now - window_ms) (deque m) (ids m) = (m', Ok tt) /\ log_ok next m' /\
    recent window_ms now (pairs m') = recent window_ms now (pairs m).
Proof.
  intros (Hl & Hnd & Hlt). destruct (evict_spec (now - window_ms) (deque m) (ids m) Hl) as (n & E & Hn & _).
  eexists; split; [exact E|]. split; [split_and!|]; simpl.
  - by rewrite !length_drop, Hl.
  - eapply sublist_NoDup; [exact Hnd|apply sublist_drop].
  - by apply Forall_drop.
  - unfold pairs at 1. simpl. rewrite zip_drop. change (zip (deque m) (ids m)) with (pairs m).
    rewrite <- (take_drop n (pairs m)) at 2. unfold recent at 2. rewrite filter_app.
    change (recent window_ms now (drop n (pairs m)) =
      recent window_ms now (take n (pairs m)) ++ recent window_ms now (drop n (pairs m))).
    rewrite (recent_old window_ms now (take n (pairs m))); [done|]. rewrite <- (fst_pairs m Hl), <- fmap_take, Forall_fmap in Hn. exact Hn.
Qed.

Lemma log_acquire_ok next m m' x :
  log_ok next m -> log_acquire limit window_ms now next m = (m', x) ->
  exists d, x = Ok d /\ log_ok (S next) m' /\ (forall rid, charged m rid -> charged m' rid) /\
    if allowed d then log_used m' = log_used m + 1 /\ charged m' next else log_used m' = log_used m.
Proof.
  intros Hok. destruct (log_evict next m Hok) as (m0 & E & (Hl & Hnd & Hlt) & Hrec).
  assert (Hlt' : Forall (fun i => i < S next)%nat (ids m0)).
  { eapply Forall_impl; [exact Hlt|]. simpl. lia. }
  assert (Hc0 : forall rid, charged m rid -> charged m0 rid) by (intros rid; by rewrite !charged_recent, Hrec).
  unfold log_acquire. cbv zeta. rewrite E. destruct (limit <=? _) eqn:Hc; intros [= <- <-]; zbool.
  - assert (exists o, first (deque m0) = Ok o) as [o ->].
    { destruct (deque m0); simpl in *; [lia|by eexists]. }
    eexists. split_and!; [done|by split_and!|exact Hc0|]. simpl. unfold log_used. by rewrite Hrec.
  - set (m1 := {| deque := _; ids := _ |}).
    assert (Hp : pairs m1 = pairs m0 ++ [(now, next)]).
    { unfold pairs, m1. simpl. by rewrite zip_with_app by done. }
    assert (Hr1 : recent window_ms now (pairs m1) = recent window_ms now (pairs m0) ++ [(now, next)]).
    { rewrite Hp. unfold recent. rewrite filter_app. f_equal. rewrite filter_cons_True by (simpl; lia). done. }
    eexists. split_and!; [done|split_and!|..]; simpl.
    + by rewrite !length_app, Hl.
    + apply NoDup_app. split_and!; [done| |apply NoDup_singleton]. intros i Hi ->%list_elem_of_singleton.
      eapply Forall_forall in Hlt; [|exact Hi]. lia.
    + apply Forall_app. split; [done|]. repeat constructor.
    + intros rid Hrid. apply Hc0 in Hrid. rewrite charged_recent in *. rewrite Hr1, fmap_app. set_solver.
    + rewrite charged_recent, Hr1, fmap_app. unfold log_used. rewrite Hr1, length_app, Hrec.
      split; [simpl; lia|set_solver].
Qed.

Lemma remove_rid (l : list (Z * nat)) ts rid :
  NoDup l.*2 -> (ts, rid) ∈ l -> l ≡ₚ (ts, rid) :: filter (fun e => e.2 <> rid) l.
Proof.
  intros Hnd [k Hk]%elem_of_Permutation. rewrite Hk at 1 2. rewrite Hk in Hnd. simpl in Hnd.
  apply NoDup_cons in Hnd as [Hni _]. rewrite filter_cons_False by (simpl; tauto).
  rewrite filter_keeps_all; [done|]. apply Forall_forall. intros e He E. apply Hni.
  rewrite <- E. by apply list_elem_of_fmap_2.
Qed.

Lemma log_refund_ok next m rid :
  log_ok next m -> charged m rid ->
  exists m', log_refund rid m = (m', Ok tt) /\ log_ok next m' /\ log_used m' = log_used m - 1 /\
    forall rid', rid' <> rid -> charged m rid' -> charged m' rid'.
Proof.
  intros (Hl & Hnd & Hlt) (ts & Hin & Hts). unfold log_refund.
  pose proof (refund_pairs rid (deque m) (ids m) Hl Hnd) as Hi.
  destruct (index_of rid (ids m)) as [i|].
  - destruct Hi as (ds' & rs' & -> & -> & Hl' & _ & E). eexists; split; [done|].
    set (m' := {| deque := ds'; ids := rs' |}). assert (Hp : pairs m' = filter (fun e => e.2 <> rid) (pairs m)) by exact E.
    assert (Hids : rs' `sublist_of` ids m).
    { rewrite <- (snd_zip ds' rs') by lia. rewrite <- (snd_zip (deque m) (ids m)) by lia. rewrite E.
      apply fmap_sublist, sublist_filter. }
    assert (Hnd2 : NoDup (pairs m).*2) by (unfold pairs; by rewrite snd_zip by lia).
    split_and!; [split_and!|..]; simpl.
    + done.
    + eapply sublist_NoDup; [exact Hnd|exact Hids].
    + apply Forall_forall. intros j Hj. eapply Forall_forall in Hlt; [exact Hlt|]. by eapply elem_of_sublist.
    + pose proof (remove_rid _ _ _ Hnd2 Hin) as Hperm. unfold log_used.
      assert (Hlen : length (recent window_ms now (pairs m)) = S (length (recent window_ms now (pairs m')))).
      { unfold recent. rewrite Hperm at 1. rewrite filter_cons_True by done. rewrite Hp. done. }
      rewrite Hlen. lia.
    + intros rid' Hne (ts' & Hin' & Hts'). exists ts'. split; [|done]. rewrite Hp.
      apply list_elem_of_filter. by split.
  - exfalso. change (zip (deque m) (ids m)) with (pairs m) in Hi.
    rewrite <- Hi in Hin. apply list_elem_of_filter in Hin. simpl in Hin. tauto.
Qed.
End logs.

(** ** The backend *)

Record mem_world := { mw_slots : mtable; mw_logs : gmap string (mlog nat); mw_next : nat }.

Section backend.
Context (now slots lease limit window_ms : Z) (keyed : bool).
Context (lease_nonneg : 0 <= lease) (limit_pos : 1 <= limit) (window_pos : 0 < window_ms).
Notation dec := (RateLimitDecision nat).
Notation grant := (grant (Z * Z) dec).

(** [acquire] with no pool ensures the bucket's rows and takes a slot. *)
Definition mem_res_acquire (n : string) (job wk : Z) (w : mem_world) : mem_world * result exn (Z * Z) :=
  let m := mem_ensure_slots n slots keyed (mw_slots w) in
  match mem_acquire now n job wk lease m with
  | Ok (m', l) => ({| mw_slots := m'; mw_logs := mw_logs w; mw_next := mw_next w |}, Ok l)
  | Err (ReservationUnavailable b ra) =>
      ({| mw_slots := m; mw_logs := mw_logs w; mw_next := mw_next w |}, Err (Unavailable b ra FromReservation))
  end.

Definition mem_res_release (n : string) (l : Z * Z) (wk : Z) (w : mem_world) : mem_world * result exn unit :=
  ({| mw_slots := (mem_release n l.1 wk (Some l.2) (mw_slots w)).1;
      mw_logs := mw_logs w; mw_next := mw_next w |}, Ok tt).

(** A log-style limit with a fresh request id. *)
Definition mem_rl_acquire (n : string) (w : mem_world) : mem_world * result exn dec :=
  match mw_logs w !! n with
  | None => (w, Err (KeyError n))
  | Some m =>
      let '(m', x) := log_acquire limit window_ms now (mw_next w) m in
      ({| mw_slots := mw_slots w; mw_logs := <[n := m']> (mw_logs w); mw_next := S (mw_next w) |},
       match x with Ok d => Ok (with_request_id (mw_next w) d) | Err _ => Err Failure end)
  end.

Definition mem_rl_refund (n : string) (d : dec) (w : mem_world) : mem_world * result exn unit :=
  match mw_logs w !! n, request_id d with
  | Some m, Some rid =>
      let '(m', x) := log_refund rid m in
      ({| mw_slots := mw_slots w; mw_logs := <[n := m']> (mw_logs w); mw_next := mw_next w |},
       match x with Ok _ => Ok tt | Err _ => Err Failure end)
  | Some _, None => (w, Ok tt)
  | None, _ => (w, Err (KeyError n))
  end.

(** Without a pool the row probe and the row creation fail; the heal never calls them. *)
#[local] Instance mem_backend : Backend mem_world string (Z * Z) dec := {|
  resolve_reservation n w := (w, Ok n);
  resolve_rate_limit n w := (w, Ok n);
  res_acquire := mem_res_acquire;
  res_release := mem_res_release;
  slot_rows_exist _ w := (w, Err Failure);
  ensure_rows _ w := (w, Err Failure);
  rl_acquire := mem_rl_acquire;
  rl_refund := mem_rl_refund;
  d_allowed := allowed;
  d_retry_after d := Some (retry_after d)
|}.

Definition mem_used (w : mem_world) (k : source * string) : Z :=
  match k with
  | (FromReservation, n) => slots_used now (mw_slots w) n
  | (FromRateLimit, n) => match mw_logs w !! n with Some m => log_used window_ms now m | None => 0 end
  end.

Definition present (w : mem_world) (g : grant) : Prop :=
  match g with
  | GRes n l wk => leased now (mw_slots w) n l wk
  | GLim n d => exists m rid, mw_logs w !! n = Some m /\ request_id d = Some rid /\ charged window_ms now m rid
  end.

(** The row or entry behind a grant. *)
Definition unit_of (g : grant) : (string * Z) + (string * option nat) :=
  match g with GRes n l _ => inl (n, l.1) | GLim n d => inr (n, request_id d) end.

Definition mem_out (w : mem_world) (gs : list grant) : Prop :=
  (forall n m, mw_logs w !! n = Some m -> log_ok (mw_next w) m) /\
  Forall (present w) gs /\ NoDup (map unit_of gs).

Lemma mem_out_perm w gs gs' : gs ≡ₚ gs' -> mem_out w gs -> mem_out w gs'.
Proof. intros E (H1 & H2 & H3). unfold mem_out. by rewrite <- E. Qed.

Lemma units_res n n' (l : Z * Z) (wk : Z) :
  units (FromReservation, n') [GRes (D := dec) n l wk] = (if decide (n' = n) then 1 else 0) /\
  units (FromRateLimit, n') [GRes (D := dec) n l wk] = 0.
Proof. unfold units. rewrite !filter_cons. repeat case_decide; simplify_eq/=; auto; congruence. Qed.

Lemma units_lim n n' (d : dec) :
  units (FromRateLimit, n') [GLim (Lease := Z * Z) n d] = (if decide (n' = n) then 1 else 0) /\
  units (FromReservation, n') [GLim (Lease := Z * Z) n d] = 0.
Proof. unfold units. rewrite !filter_cons. repeat case_decide; simplify_eq/=; auto; congruence. Qed.

(** Grants other than limits are untouched by the logs and conversely. *)
Lemma present_slots w m' g :
  (forall n l wk, leased now (mw_slots w) n l wk -> g = GRes n l wk -> leased now m' n l wk) ->
  present w g -> present {| mw_slots := m'; mw_logs := mw_logs w; mw_next := mw_next w |} g.
Proof. destruct g; simpl; eauto. Qed.

Lemma mem_acquire_laws n job wk w w' x gs :
  mem_out w gs -> mem_res_acquire n job wk w = (w', x) ->
  match x with
  | Ok l => mem_out w' (GRes n l wk :: gs) /\ forall k, mem_used w' k = mem_used w k + units k [GRes (D := dec) n l wk]
  | Err _ => mem_out w' gs /\ forall k, mem_used w' k = mem_used w k
  end.
Proof.
  intros (Hlog & Hpr & Hnd). unfold mem_res_acquire. cbv zeta.
  set (m := mem_ensure_slots n slots keyed (mw_slots w)).
  assert (Hus : forall n', slots_used now m n' = slots_used now (mw_slots w) n') by (intros; apply ensure_used).
  assert (Hle : forall n' l' wk', leased now (mw_slots w) n' l' wk' -> leased now m n' l' wk')
    by (intros; by apply ensure_leased).
  destruct (mem_acquire now n job wk lease m) as [[m' l]|[b ra]] eqn:E; intros [= <- <-].
  - destruct (mem_acquire_spec now n job wk lease m m' l lease_nonneg E) as (Hl & Hnew & Hu & Hk).
    split; [split_and!|].
    + done.
    + constructor; [done|]. eapply Forall_impl; [exact Hpr|]. intros g. apply present_slots. eauto.
    + simpl. apply NoDup_cons. split; [|done]. intros (g & Eg & Hg)%list_elem_of_fmap.
      destruct g as [n' l' wk'|]; simplify_eq/=. eapply Forall_forall in Hpr; [|exact Hg]. simpl in Hpr.
      apply Hnew. exists wk', l'.2. apply Hle. replace (l.1, l'.2) with l'; [done|]. destruct l'; simpl in *; congruence.
    + intros [[] n']; simpl; [|rewrite (proj2 (units_res n n' l wk)); lia].
      by rewrite Hu, Hus, (proj1 (units_res n n' l wk)).
  - split; [split_and!|]; [done| |done|].
    + eapply Forall_impl; [exact Hpr|]. intros g. apply present_slots. eauto.
    + intros [[] n']; simpl; [apply Hus|done].
Qed.

Lemma mem_release_laws n l wk w w' gs :
  mem_out w (GRes n l wk :: gs) -> mem_res_release n l wk w = (w', Ok tt) ->
  mem_out w' gs /\ forall k, mem_used w' k = mem_used w k - units k [GRes (D := dec) n l wk].
Proof.
  intros (Hlog & [Hl Hpr]%Forall_cons & [Hni Hnd]%NoDup_cons). intros [= <-].
  destruct (mem_release_spec now n l wk (mw_slots w) Hl) as [Hu Hk]. split; [split_and!|].
  - done.
  - apply Forall_forall. intros g Hg. assert (Hp : present w g) by (by eapply Forall_forall in Hpr).
    apply present_slots; [|done]. intros n' l' wk' Hl' ->. apply Hk; [|done].
    intros E. apply Hni. apply list_elem_of_fmap. exists (GRes n' l' wk'). simpl. by rewrite E.
  - done.
  - intros [[] n']; simpl; [|rewrite (proj2 (units_res n n' l wk)); lia].
    by rewrite Hu, (proj1 (units_res n n' l wk)).
Qed.
(** Replacing one log keeps the grants whose entries it keeps. *)
Lemma present_logs w n m m' next g :
  mw_logs w !! n = Some m ->
  (forall d rid, g = GLim n d -> request_id d = Some rid -> charged window_ms now m rid -> charged window_ms now m' rid) ->
  present w g -> present {| mw_slots := mw_slots w; mw_logs := <[n := m']> (mw_logs w); mw_next := next |} g.
Proof.
  intros Hm Hk. destruct g as [n' l wk|n' d]; [done|]. simpl. intros (m0 & rid & E & Hr & Hc).
  destruct (decide (n' = n)) as [->|Hne].
  - simplify_eq. exists m', rid. rewrite lookup_insert_eq. eauto.
  - exists m0, rid. by rewrite lookup_insert_ne.
Qed.

Lemma logs_ok w n m' next :
  (forall n m, mw_logs w !! n = Some m -> log_ok (mw_next w) m) -> (mw_next w <= next)%nat -> log_ok next m' ->
  forall n0 m0, (<[n := m']> (mw_logs w)) !! n0 = Some m0 -> log_ok next m0.
Proof.
  intros Hlog Hle Hm' n0 m0 [[-> <-]|[_ H0]]%lookup_insert_Some; [done|].
  destruct (Hlog _ _ H0) as (H1 & H2 & H3). split_and!; [done|done|].
  eapply Forall_impl; [exact H3|]. simpl. lia.
Qed.

Lemma log_used_insert w n m m' next k c :
  mw_logs w !! n = Some m -> log_used window_ms now m' = log_used window_ms now m + c ->
  mem_used {| mw_slots := mw_slots w; mw_logs := <[n := m']> (mw_logs w); mw_next := next |} k =
  mem_used w k + (if decide (k = (FromRateLimit, n)) then c else 0).
Proof.
  intros Hm Hc. unfold mem_used. destruct k as [[] n']; cbn [mw_slots mw_logs].
  - rewrite decide_False by congruence. lia.
  - destruct (decide (n' = n)) as [->|Hne].
    + rewrite lookup_insert_eq, decide_True, Hm by done. done.
    + rewrite lookup_insert_ne, decide_False by congruence. lia.
Qed.

Lemma units_lim_key n (d : dec) k :
  units k [GLim (Lease := Z * Z) n d] = if decide (k = (FromRateLimit, n)) then 1 else 0.
Proof. unfold units. rewrite filter_cons. repeat case_decide; simplify_eq/=; auto; congruence. Qed.

Lemma mem_rl_acquire_laws n w w' x gs :
  mem_out w gs -> mem_rl_acquire n w = (w', x) ->
  match x with
  | Ok d => if allowed d
      then mem_out w' (GLim n d :: gs) /\ forall k, mem_used w' k = mem_used w k + units k [GLim (Lease := Z * Z) n d]
      else mem_out w' gs /\ forall k, mem_used w' k = mem_used w k
  | Err _ => mem_out w' gs /\ forall k, mem_used w' k = mem_used w k
  end.
Proof.
  intros (Hlog & Hpr & Hnd). unfold mem_rl_acquire.
  destruct (mw_logs w !! n) as [m|] eqn:Hm; [|intros [= <- <-]; by split_and!].
  destruct (log_acquire limit window_ms now (mw_next w) m) as [m' r] eqn:E.
  destruct (log_acquire_ok limit window_ms now limit_pos window_pos (mw_next w) m m' r (Hlog _ _ Hm) E)
    as (d & -> & Hok & Hch & Hd). intros [= <- <-]. cbn [allowed with_request_id].
  assert (Hpr' : Forall (present {| mw_slots := mw_slots w; mw_logs := <[n := m']> (mw_logs w); mw_next := S (mw_next w) |}) gs).
  { eapply Forall_impl; [exact Hpr|]. intros g. eapply present_logs; [done|]. eauto. }
  destruct (allowed d).
  - destruct Hd as [Hu Hc]. split; [split_and!|].
    + eapply logs_ok; [done|simpl; lia|done].
    + constructor; [|done]. exists m', (mw_next w). simpl. by rewrite lookup_insert_eq.
    + simpl. apply NoDup_cons. split; [|done]. intros (g & Eg & Hg)%list_elem_of_fmap.
      destruct g as [|n' d']; simplify_eq/=. eapply Forall_forall in Hpr; [|exact Hg].
      destruct Hpr as (m0 & rid & E0 & Er & (ts & Hin & _)). simplify_eq/=.
      match goal with HH : _ = request_id d' |- _ => rewrite Er in HH end. simplify_eq.
      destruct (Hlog _ _ Hm) as (_ & _ & Hlt). apply elem_of_zip_r in Hin.
      eapply Forall_forall in Hlt; [|exact Hin]. lia.
    + intros k. rewrite (log_used_insert _ _ _ _ _ k 1 Hm Hu). by rewrite units_lim_key.
  - split; [split_and!|]; [|done|done|].
    + eapply logs_ok; [done|simpl; lia|done].
    + intros k. rewrite (log_used_insert _ _ _ _ _ k 0 Hm) by lia. case_decide; lia.
Qed.

Lemma mem_rl_refund_laws n d w w' x gs :
  mem_out w (GLim n d :: gs) -> mem_rl_refund n d w = (w', x) ->
  x = Ok tt /\ mem_out w' gs /\ forall k, mem_used w' k = mem_used w k - units k [GLim (Lease := Z * Z) n d].
Proof.
  intros (Hlog & [(m & rid & Hm & Hr & Hc) Hpr]%Forall_cons & [Hni Hnd]%NoDup_cons).
  unfold mem_rl_refund. rewrite Hm, Hr.
  destruct (log_refund_ok window_ms now (mw_next w) m rid (Hlog _ _ Hm) Hc) as (m' & -> & Hok & Hu & Hk).
  intros [= <- <-]. split; [done|split; [split_and!|]].
  - eapply logs_ok; [done|simpl; lia|done].
  - apply Forall_forall. intros g Hg. assert (Hp : present w g) by (by eapply Forall_forall in Hpr).
    eapply present_logs; [done| |done]. intros d' rid' -> Hr' Hc'. apply Hk; [|done]. intros ->.
    apply Hni. apply list_elem_of_fmap. exists (GLim n d'). simpl. by rewrite Hr, Hr'.
  - done.
  - intros k. rewrite (log_used_insert _ _ _ _ _ k (-1) Hm) by lia. rewrite units_lim_key. case_decide; lia.
Qed.

Lemma mem_rl_refund_total n d w w' e gs :
  mem_out w gs -> mem_rl_refund n d w = (w', Err e) -> w' = w.
Proof.
  intros (Hlog & _ & _). unfold mem_rl_refund. destruct (mw_logs w !! n) as [m|] eqn:Hm; [|congruence].
  destruct (request_id d) as [rid|]; [|done]. destruct (Hlog _ _ Hm) as (Hl & Hnd & _).
  unfold log_refund. pose proof (refund_pairs rid (deque m) (ids m) Hl Hnd) as Hi.
  destruct (index_of rid (ids m)) as [i|]; [|done]. by destruct Hi as (? & ? & -> & -> & _).
Qed.

#[local] Instance mem_accounting : Accounting mem_backend.
Proof.
  refine {| used := mem_used; out := mem_out; out_perm := mem_out_perm |}.
  - intros ref w w' x gs Ho [= <- <-]. done.
  - intros ref w w' x gs Ho [= <- <-]. done.
  - intros n w w' x gs Ho [= <- <-]. done.
  - intros n w w' x gs Ho [= <- <-]. done.
  - intros n j wk w w' l gs Ho E. exact (mem_acquire_laws _ _ _ _ _ _ _ Ho E).
  - intros n j wk w w' e gs Ho E _. exact (mem_acquire_laws _ _ _ _ _ _ _ Ho E).
  - intros n l wk w w' gs Ho E. by apply mem_release_laws.
  - done.
  - intros n w w' d gs Ho E Ha. pose proof (mem_rl_acquire_laws _ _ _ _ _ Ho E) as Hx. simpl in *. by rewrite Ha in Hx.
  - intros n w w' d gs Ho E Ha. pose proof (mem_rl_acquire_laws _ _ _ _ _ Ho E) as Hx. simpl in *. by rewrite Ha in Hx.
  - intros n w w' e gs Ho E _. exact (mem_rl_acquire_laws _ _ _ _ _ Ho E).
  - intros n d w w' gs Ho E. by destruct (mem_rl_refund_laws _ _ _ _ _ _ Ho E).
  - intros n d w w' e gs Ho E _. by rewrite (mem_rl_refund_total _ _ _ _ _ _ Ho E).
Defined.
End backend.

(** ** Claims *)

Section claims.
Context `{Rounding} {W Ref Lease D : Type} `{B : Backend W Ref Lease D} `{A : !Accounting B}.

(** C32: Admission is all or nothing.  Over any primitives that keep the accounts, a
    successful [acquire_for_actor] returns one handle per declared reservation and limit,
    reservations first, and has taken exactly the units its handles name; one that raises
    (a denial, an unknown name, a failing store, at any position) has taken nothing, except
    the units of the handles whose own rollback failed, which it reports. *)
Theorem admission_all_or_nothing (clock : nat -> Q) pool job worker limits reservs r (w : W) r' w' stuck x gs :
  out w gs -> acquire_for_actor clock pool job worker limits reservs r w = (r', w', stuck, x) ->
  match x with
  | Ok hs => stuck = [] /\ length hs = (length reservs + length limits)%nat /\
      Forall (fun h => is_reservation h = true) (take (length reservs) hs) /\
      Forall (fun h => is_reservation h = false) (drop (length reservs) hs) /\
      forall k, used w' k = used w k + units k (map grant_of hs)
  | Err e => caught e = true -> forall k, used w' k = used w k + units k (map grant_of stuck)
  end.
Proof.
  intros Ho E. apply (acquire_for_actor_spec clock pool job worker _ _ _ _ _ _ _ _ gs Ho) in E.
  destruct x as [hs|e].
  - destruct E as (? & ? & ? & ? & _ & Hk). split_and!; try done.
    intros k. specialize (Hk k). unfold with_handles in Hk. rewrite units_app in Hk. lia.
  - intros Hc k. destruct (E Hc) as [_ Hk]. specialize (Hk k). unfold with_handles in Hk.
    rewrite units_app in Hk. lia.
Qed.

(** When an actor is done, [release_for_actor] gives back every reservation slot it
    held but no rate-limit token, tries every handle whatever fails, and wakes the waiters
    of exactly the buckets whose slots it freed. *)
Theorem release_returns_slots (hs : list (handle Lease D)) gs (w : W) woken stuck w' :
  out w (with_handles hs gs) -> release_for_actor hs w = (woken, stuck, w', Ok tt) ->
  (forall n, used w' (FromReservation, n) =
     used w (FromReservation, n) - units (FromReservation, n) (map grant_of hs)
       + units (FromReservation, n) (map grant_of stuck)) /\
  (forall n, used w' (FromRateLimit, n) = used w (FromRateLimit, n)) /\
  Forall (fun h => is_reservation h = true) stuck /\
  map h_name (filter (fun h => is_reservation h = true) hs) ≡ₚ woken ++ map h_name stuck.
Proof. apply release_for_actor_spec. Qed.
End claims.

(** *** Concrete admissions *)

Definition demo_registry : registry :=
  {| rate_limits := {[ "l"%string ]}; reservations := {[ "r"%string ]};
     keyed_reservation_last_used := ∅; heal_attempted := ∅; heal_failure_logged := ∅ |}.

(** The limit [l] admits one request a second and has just admitted one. *)
Definition demo_world : mem_world :=
  {| mw_slots := ∅; mw_logs := {[ "l"%string := {| deque := [5000]; ids := [0%nat] |} ]}; mw_next := 1 |}.

#[local] Instance demo_backend : Backend mem_world string (Z * Z) (RateLimitDecision nat) :=
  mem_backend 5000 2 60000000 1 1000 false.

#[local] Instance demo_accounting : Accounting demo_backend :=
  mem_accounting 5000 2 60000000 1 1000 false ltac:(done) ltac:(done) ltac:(done).

Lemma demo_out : out (Accounting := demo_accounting) demo_world [].
Proof.
  split_and!; [|constructor|constructor]. simpl. intros n m [_ <-]%lookup_singleton_Some.
  split_and!; simpl; [done|apply NoDup_singleton|repeat constructor].
Qed.

Lemma admission_all_or_nothing_witness :
  exists r' w',
    acquire_for_actor (fun _ => 0%Q) false 1 7 ["l"%string] ["r"%string] demo_registry demo_world
      = (r', w', [], Err (Unavailable "l" 1000000 FromRateLimit)) /\
    forall k, mem_used 5000 1000 w' k = mem_used 5000 1000 demo_world k + 0.
Proof.
  let out := eval vm_compute in
    (acquire_for_actor (fun _ => 0%Q) false 1 7 ["l"%string] ["r"%string] demo_registry demo_world) in
  lazymatch out with (?r', ?w', _, Err ?e) =>
    exists r', w'; split; [vm_compute; reflexivity|];
    refine (admission_all_or_nothing (fun _ => 0%Q) false 1 7 ["l"%string] ["r"%string] demo_registry
              demo_world r' w' [] (Err e) [] demo_out _ eq_refl); vm_compute; reflexivity
  end.
Defined.

(** The slot of an admitted job. *)
Definition demo_held : mem_world :=
  {| mw_slots := {[ "r"%string := {[ 0 := {| m_job := Some 1; m_worker := Some 7; m_acquired := Some 5000;
                      m_lease := Some 60005000; m_keyed := false |} ]} ]};
     mw_logs := ∅; mw_next := 0 |}.

Lemma demo_held_out : out (Accounting := demo_accounting) demo_held
  (with_handles [ReservationHandle "r" (0, 5000) 7] []).
Proof.
  split_and!; [by intros|constructor; [|constructor]|apply NoDup_singleton].
  eexists _, _. split_and!; [apply lookup_singleton_eq|apply lookup_singleton_eq|done|done|done].
Qed.

Lemma release_returns_slots_witness :
  exists w',
    release_for_actor [ReservationHandle "r" (0, 5000) 7] demo_held = (["r"%string], [], w', Ok tt) /\
    mem_used 5000 1000 w' (FromReservation, "r"%string) =
      mem_used 5000 1000 demo_held (FromReservation, "r"%string) - 1 + 0.
Proof.
  let out := eval vm_compute in (release_for_actor [ReservationHandle "r" (0, 5000) 7] demo_held) in
  lazymatch out with (_, _, ?w', _) =>
    assert (E : release_for_actor [ReservationHandle "r" (0, 5000) 7] demo_held = (["r"%string], [], w', Ok tt))
      by (vm_compute; reflexivity);
    exists w'; split; [exact E|];
    exact (proj1 (release_returns_slots [ReservationHandle "r" (0, 5000) 7] [] demo_held
             ["r"%string] [] w' demo_held_out E) "r"%string)
  end.
Defined.
