(* ===== verification/ClaimCursor.v ===== *)
(** * The claim cursor

    [src/taskq/backend/_claim_cursor.py]: the per-queue high-water mark of claimed job ids
    that bounds the claim query from below, and its jittered reset.  Ids are UUIDs compared
    as integers; clock readings, the reset interval and the jitter draws are floats.

    A row below a queue's bound is invisible to the claim query while the bound stands, so
    what matters is how long a bound can stand and what it can be. *)

From Stdlib Require Import ZArith Lia QArith Lqa.
From stdpp Require Import base tactics list gmap strings.
From S2P Require Import Prelude PyFloat SlidingWindow.

Open Scope Z_scope.

Section claim_cursor.
Context `{Rounding}.

(** [_entries] and the live value of the knob. *)
Record cursor := { reset_seconds : Q; cc_entries : gmap string (Z * Q) }.

#[export] Instance cursor_copy : Copy cursor := fun c =>
  {| reset_seconds := reset_seconds c; cc_entries := cc_entries c |}.

Definition new_cursor (reset : Q) : cursor := {| reset_seconds := reset; cc_entries := ∅ |}.

Definition set_reset (v : Q) (c : cursor) : cursor := c <| reset_seconds := v |>.

(** [advance]; [now] and [jitter] are the reading and the draw it takes if it arms an entry. *)
Definition advance (queue : string) (job_id : Z) (now jitter : Q) (c : cursor) : cursor :=
  if Qle_bool (reset_seconds c) 0 then c
  else match cc_entries c !! queue with
  | Some (top, expires) =>
      if job_id <=? top then c
      else c <| cc_entries ::= insert queue (job_id, expires) |>
  | None => c <| cc_entries ::= insert queue (job_id, fadd now (fmul (reset_seconds c) jitter)) |>
  end.

Definition bound (queue : string) (now : Q) (c : cursor) : cursor * option Z :=
  if Qle_bool (reset_seconds c) 0 then (c, None)
  else match cc_entries c !! queue with
  | None => (c, None)
  | Some (job_id, expires) =>
      if Qle_bool expires now then (c <| cc_entries ::= delete queue |>, None)
      else (c, Some job_id)
  end.

Definition forget (queue : string) (c : cursor) : cursor := c <| cc_entries ::= delete queue |>.

(** ** Histories *)

Inductive cursor_op :=
| Advance (queue : string) (job_id : Z) (now jitter : Q)
| Bound (queue : string) (now : Q)
| Forget (queue : string)
| SetReset (v : Q).

Definition apply_op (o : cursor_op) (c : cursor) : cursor :=
  match o with
  | Advance q i n j => advance q i n j c
  | Bound q n => (bound q n c).1
  | Forget q => forget q c
  | SetReset v => set_reset v c
  end.

(** The knob before each operation of a history that began at [reset]. *)
Definition knob (reset : Q) (os : list cursor_op) : Q :=
  foldl (fun r o => match o with SetReset v => v | _ => r end) reset os.

Definition cursor_after (reset : Q) (os : list cursor_op) : cursor :=
  foldl (fun c o => apply_op o c) (new_cursor reset) os.

(** The ids claimed from [queue] while the cursor was on. *)
Definition claims (queue : string) (reset : Q) (os : list cursor_op) : list Z :=
  (fix go (r : Q) (os : list cursor_op) : list Z :=
     match os with
     | [] => []
     | Advance q i _ _ :: os' =>
         if bool_decide (q = queue) && negb (Qle_bool r 0) then i :: go r os' else go r os'
     | SetReset v :: os' => go v os'
     | _ :: os' => go r os'
     end) reset os.

Definition max_of (x : Z) (l : list Z) : Z := foldl Z.max x l.

(** A standing entry was armed by one advance of the history, at its reading and draw, and
    its id is the highest claimed since. *)
Definition armed (queue : string) (reset : Q) (os : list cursor_op) (top : Z) (expires : Q) : Prop :=
  exists pre first now jitter post,
    os = pre ++ Advance queue first now jitter :: post /\
    expires = fadd now (fmul (knob reset pre) jitter) /\
    Qle_bool (knob reset pre) 0 = false /\
    top = max_of first (claims queue (knob reset pre) post).

Lemma knob_snoc reset os o : knob reset (os ++ [o]) = match o with SetReset v => v | _ => knob reset os end.
Proof. unfold knob. by rewrite foldl_app. Qed.

Lemma cursor_snoc reset os o : cursor_after reset (os ++ [o]) = apply_op o (cursor_after reset os).
Proof. unfold cursor_after. by rewrite foldl_app. Qed.

Lemma cursor_knob reset os : reset_seconds (cursor_after reset os) = knob reset os.
Proof.
  induction os as [|o os IH] using rev_ind; [done|]. rewrite cursor_snoc, knob_snoc.
  destruct o as [q i n j|q n|q|v]; simpl; try done; rewrite <- IH.
  - unfold advance. repeat case_match; done.
  - unfold bound. repeat case_match; done.
Qed.

Lemma claims_snoc queue reset os o :
  claims queue reset (os ++ [o]) =
  claims queue reset os ++
    match o with
    | Advance q i _ _ => if bool_decide (q = queue) && negb (Qle_bool (knob reset os) 0) then [i] else []
    | _ => []
    end.
Proof.
  revert reset. induction os as [|o' os IH]; intros reset.
  - simpl. destruct o; simpl; try done.
  - unfold claims, knob in *. simpl. destruct o' as [q i n j|q n|q|v]; try apply IH.
    destruct (bool_decide (q = queue) && _); simpl; by rewrite IH.
Qed.

Lemma max_of_snoc x l y : max_of x (l ++ [y]) = Z.max (max_of x l) y.
Proof. unfold max_of. by rewrite foldl_app. Qed.

(** An operation that leaves the entry in place extends the history of its arming. *)
Lemma armed_snoc queue reset os o top expires :
  armed queue reset os top expires ->
  armed queue reset (os ++ [o])
    (match o with
     | Advance q i _ _ =>
         if bool_decide (q = queue) && negb (Qle_bool (knob reset os) 0) then Z.max top i else top
     | _ => top
     end) expires.
Proof.
  intros (pre & first & now & jitter & post & -> & He & Hk & ->).
  exists pre, first, now, jitter, (post ++ [o]). rewrite <- app_assoc. simpl. split_and!; try done.
  rewrite claims_snoc.
  assert (Hkk : knob reset (pre ++ Advance queue first now jitter :: post) = knob (knob reset pre) post).
  { unfold knob. by rewrite foldl_app. }
  rewrite Hkk. destruct o as [q i n j|q n|q|v]; try (by rewrite app_nil_r).
  destruct (bool_decide (q = queue) && negb (Qle_bool (knob (knob reset pre) post) 0)) eqn:E.
  - by rewrite max_of_snoc.
  - by rewrite app_nil_r.
Qed.

Lemma armed_new queue reset os i now jitter :
  Qle_bool (knob reset os) 0 = false ->
  armed queue reset (os ++ [Advance queue i now jitter]) i (fadd now (fmul (knob reset os) jitter)).
Proof. intros Hk. exists os, i, now, jitter, []. by split_and!. Qed.

Lemma entries_armed reset os queue top expires :
  cc_entries (cursor_after reset os) !! queue = Some (top, expires) -> armed queue reset os top expires.
Proof.
  revert top expires. induction os as [|o os IH] using rev_ind; intros top expires; [done|].
  rewrite cursor_snoc. pose proof (cursor_knob reset os) as Hk. set (c := cursor_after reset os) in *.
  destruct o as [q i n j|q n|q|v]; simpl.
  - unfold advance. rewrite Hk. destruct (Qle_bool (knob reset os) 0) eqn:Hr.
    { intros He. apply IH, (armed_snoc _ _ _ (Advance q i n j)) in He. simpl in He.
      by rewrite Hr, andb_false_r in He. }
    destruct (cc_entries c !! q) as [[t e]|] eqn:Hq.
    + destruct (i <=? t) eqn:Hi; zbool.
      * intros He. pose proof (armed_snoc _ _ _ (Advance q i n j) _ _ (IH _ _ He)) as Ha. simpl in Ha.
        case_bool_decide as Hqq; [|done]. subst q. rewrite Hr in Ha. simpl in Ha.
        simplify_eq. by rewrite Z.max_l in Ha by lia.
      * simpl. intros [[-> [= <- <-]]|[Hne He]]%lookup_insert_Some.
        -- pose proof (armed_snoc _ _ _ (Advance queue i n j) _ _ (IH _ _ Hq)) as Ha. simpl in Ha.
           rewrite bool_decide_eq_true_2, Hr in Ha by done. simpl in Ha. by rewrite Z.max_r in Ha by lia.
        -- pose proof (armed_snoc _ _ _ (Advance q i n j) _ _ (IH _ _ He)) as Ha. simpl in Ha.
           by rewrite bool_decide_eq_false_2 in Ha.
    + simpl. intros [[-> [= <- <-]]|[Hne He]]%lookup_insert_Some.
      * by apply armed_new.
      * pose proof (armed_snoc _ _ _ (Advance q i n j) _ _ (IH _ _ He)) as Ha. simpl in Ha.
        by rewrite bool_decide_eq_false_2 in Ha.
  - intros He. apply (armed_snoc _ _ _ (Bound q n)), IH. revert He.
    unfold bound. repeat case_match; try done. simpl. by intros [_ ?]%lookup_delete_Some.
  - intros [_ He]%lookup_delete_Some. by apply (armed_snoc _ _ _ (Forget q)), IH.
  - intros He. by apply (armed_snoc _ _ _ (SetReset v)), IH.
Qed.
End claim_cursor.

(** The claim cursor can hide a row only for a bounded time, and only rows below a
    claimed id.  Over every history of claims, bound queries, resets of one queue and knob
    changes: if [bound] answers an id at time [now], some advance of the history armed the
    entry, [now] is before its reading plus the knob's value then times its jitter draw
    (so, for draws up to 1.5, before one and a half reset windows, and no later claim
    extends it), and the answer is the highest id claimed from the queue since. *)
Theorem claim_cursor_bounded `{Rounding} reset os queue now id :
  (bound queue now (cursor_after reset os)).2 = Some id ->
  exists pre first at_ jitter post,
    os = pre ++ Advance queue first at_ jitter :: post /\
    (now < fadd at_ (fmul (knob reset pre) jitter))%Q /\
    (jitter <= 3 # 2 -> now < fadd at_ (fmul (knob reset pre) (3 # 2)))%Q /\
    id = max_of first (claims queue (knob reset pre) post).
Proof.
  unfold bound. rewrite cursor_knob. destruct (Qle_bool (knob reset os) 0); [done|].
  destruct (cc_entries (cursor_after reset os) !! queue) as [[top expires]|] eqn:He; [|done].
  destruct (Qle_bool expires now) eqn:Hx; [done|]. simpl. intros [= <-].
  apply entries_armed in He as (pre & first & at_ & jitter & post & E1 & -> & Hr & E2).
  assert (Hlt : (now < fadd at_ (fmul (knob reset pre) jitter))%Q).
  { apply Qnot_le_lt. intros Hle. apply Qle_bool_iff in Hle. congruence. }
  exists pre, first, at_, jitter, post. split_and!; [done|done| |done].
  intros Hj. eapply Qlt_le_trans; [exact Hlt|]. unfold fadd, fmul. apply rnd_mono.
  apply Qplus_le_r, rnd_mono. apply Qmult_le_l_nonneg; [|done].
  apply Qlt_le_weak, Qnot_le_lt. intros Hle. apply Qle_bool_iff in Hle. congruence.
Qed.

Lemma claim_cursor_bounded_witness :
  exists pre first at_ jitter post,
    [Advance "q" 10 0 1; Advance "q" 25 3 1; Advance "q" 7 4 1] =
      pre ++ Advance "q" first at_ jitter :: post /\
    (20 < fadd at_ (fmul (knob 60 pre) jitter))%Q /\
    (jitter <= 3 # 2 -> 20 < fadd at_ (fmul (knob 60 pre) (3 # 2)))%Q /\
    25 = max_of first (claims "q" (knob 60 pre) post).
Proof.
  apply (claim_cursor_bounded 60 [Advance "q" 10 0 1; Advance "q" 25 3 1; Advance "q" 7 4 1] "q" 20 25).
  vm_compute. reflexivity.
Defined.
