(* ===== verification/StallTally.v ===== *)
(** * The stall tally and the idle window

    [src/taskq/worker/_stall_tally.py]: the bounded per-actor tally of event-loop stalls,
    its windowed delta, and the sampled idle-fraction window.  Both are lock-guarded, so an
    operation is one step.  The dictionaries' order is never observed ([min] breaks ties by
    name), so they are finite maps; names are compared as Python compares strings. *)

From Stdlib Require Import ZArith Lia QArith.
From stdpp Require Import base tactics list gmap strings fin_maps.
From S2P Require Import Prelude PyFloat SlidingWindow.

Open Scope Z_scope.

Definition KIND_BLOCKING_CALL : string := "blocking_call".
Definition KIND_GIL_HELD : string := "gil_held".
Definition STALL_TALLY_MAX_ACTORS : Z := 20.
Definition STALL_TALLY_UNATTRIBUTED : string := "_unattributed_".

Notation kinds := (gmap string Z).
Notation counts := (gmap string kinds).

(** [sum(counts.values())]. *)
Definition total (k : kinds) : Z := foldr Z.add 0 (map snd (map_to_list k)).

(** The key [(sum, name)] that [min] compares. *)
Definition before (x y : string * Z) : bool :=
  (x.2 <? y.2) || ((x.2 =? y.2) && (String.leb x.1 y.1)).

Definition colder (x y : string * Z) : string * Z := if before x y then x else y.

(** [min(self._counts, key=...)]; raises on an empty dictionary. *)
Definition smallest (c : counts) : result py_err string :=
  match map (fun p => (p.1, total p.2)) (map_to_list c) with
  | [] => Err ValueError
  | x :: xs => Ok (foldl colder x xs).1
  end.

Definition evict_smallest (c : counts) : result py_err counts :=
  let* s := smallest c in Ok (base.delete s c).

(** The eviction loop of [record]; [fuel] bounds its rounds. *)
Fixpoint evict_loop (fuel : nat) (max_actors : Z) (c : counts) : result py_err counts :=
  if max_actors <? Z.of_nat (size c) then
    match fuel with
    | O => Ok c
    | S fuel' => let* c' := evict_smallest c in evict_loop fuel' max_actors c'
    end
  else Ok c.

Record tally := {
  max_actors : Z;
  t_counts : counts;
  last_published : option (Q * counts);
  created_at : Q
}.

#[export] Instance tally_copy : Copy tally := fun t =>
  {| max_actors := max_actors t; t_counts := t_counts t; last_published := last_published t;
     created_at := created_at t |}.

Definition actor_key (actor : option string) : string :=
  match actor with Some a => if decide (a = "") then STALL_TALLY_UNATTRIBUTED else a
                 | None => STALL_TALLY_UNATTRIBUTED end.

Definition count_stall (key kind : string) (c : counts) : counts :=
  let entry := default ∅ (c !! key) in
  <[key := <[kind := default 0 (entry !! kind) + 1]> entry]> c.

(** [record]: the loop removes one actor a round, so the tally's size is fuel enough. *)
Definition record (actor : option string) (kind : string) (t : tally) : result py_err tally :=
  let c := count_stall (actor_key actor) kind (t_counts t) in
  let* c' := evict_loop (size c) (max_actors t) c in
  Ok (t <| t_counts := c' |>).

(** The per-kind increments of one actor against the previous snapshot, positive ones only. *)
Definition kind_delta (prev : option kinds) (k : kinds) : kinds :=
  filter (fun p => 0 < p.2)
    (map_imap (fun kind count => Some (count - default 0 (default ∅ prev !! kind))) k).

Section floats.
Context `{Rounding}.

Definition window_delta (now : Q) (snapshot : counts) (t : tally) : tally * (Q * counts) :=
  let delta :=
    match last_published t with
    | None => (fsub now (created_at t), snapshot)
    | Some (since, previous) =>
        (fsub now since,
         filter (fun p => p.2 <> ∅) (map_imap (fun a k => Some (kind_delta (previous !! a) k)) snapshot))
    end in
  (t <| last_published := Some (now, snapshot) |>, delta).

(** [metadata_value]: nothing while the tally is empty. *)
Definition metadata_value (now : Q) (t : tally) : tally * option (counts * (Q * counts)) :=
  let snapshot := t_counts t in
  if decide (snapshot = ∅) then (t, None)
  else let '(t', window) := window_delta now snapshot t in (t', Some (snapshot, window)).

(** ** The idle window *)

Record idle_window := {
  window_started : option Q;
  samples : Z;
  parked : Z;
  unreadable : Z
}.

Record DrainedIdleWindow := {
  idle_fraction : Q;
  d_samples : Z;
  samples_parked : Z;
  samples_unreadable : Z;
  window_seconds : Q
}.

Definition fresh_window : idle_window :=
  {| window_started := None; samples := 0; parked := 0; unreadable := 0 |}.

Definition record_sample (now : Q) (p : option bool) (w : idle_window) : idle_window :=
  {| window_started := match window_started w with None => Some now | Some s => Some s end;
     samples := samples w + 1;
     parked := match p with Some true => parked w + 1 | _ => parked w end;
     unreadable := match p with None => unreadable w + 1 | _ => unreadable w end |}.

(** [drain]; the assertion that a started window carries its start is the [Err]. *)
Definition drain (now : Q) (w : idle_window) : idle_window * result unit (option DrainedIdleWindow) :=
  if samples w =? 0 then (w, Ok None)
  else match window_started w with
  | None => (w, Err tt)
  | Some start =>
      (fresh_window,
       Ok (Some {| idle_fraction := fdiv (inject_Z (parked w)) (inject_Z (samples w));
                   d_samples := samples w;
                   samples_parked := parked w;
                   samples_unreadable := unreadable w;
                   window_seconds := fsub now start |}))
  end.
End floats.

(** ** The least attributed actor *)

Lemma colder_sum x y : (colder x y).2 <= x.2 /\ (colder x y).2 <= y.2.
Proof.
  unfold colder, before. destruct (x.2 <? y.2) eqn:E1; zbool; simpl; [lia|].
  destruct (x.2 =? y.2) eqn:E2; zbool; simpl; [destruct (String.leb _ _)|]; lia.
Qed.

Lemma colder_one x y : colder x y = x \/ colder x y = y.
Proof. unfold colder. destruct (before x y); auto. Qed.

Lemma foldl_colder x xs :
  foldl colder x xs ∈ x :: xs /\ forall y, y ∈ x :: xs -> (foldl colder x xs).2 <= y.2.
Proof.
  revert x. induction xs as [|z xs IH]; intros x; simpl.
  - split; [left|]. intros y Hy%list_elem_of_singleton. subst. lia.
  - destruct (IH (colder x z)) as [Hin Hle]. pose proof (colder_sum x z) as [H1 H2]. split.
    + apply elem_of_cons in Hin as [E|Hin]; [|set_solver].
      destruct (colder_one x z) as [E'|E']; rewrite E' in *; set_solver.
    + intros y Hy. assert ((foldl colder (colder x z) xs).2 <= (colder x z).2) by (apply Hle; left).
      apply elem_of_cons in Hy as [->|Hy]; [lia|].
      apply elem_of_cons in Hy as [->|Hy]; [lia|]. apply Hle. by right.
Qed.

(** [smallest] names an attributed actor with the least total, if there is one. *)
Lemma smallest_spec c :
  match smallest c with
  | Ok s => exists k, c !! s = Some k /\ forall a k', c !! a = Some k' -> total k <= total k'
  | Err _ => c = ∅
  end.
Proof.
  unfold smallest.
  assert (Hel : forall a z, (a, z) ∈ map (fun p => (p.1, total p.2)) (map_to_list c) <->
    exists k, c !! a = Some k /\ z = total k).
  { intros a z. split.
    - intros ([a' k] & [= -> ->] & Hp)%list_elem_of_fmap. exists k. by apply elem_of_map_to_list in Hp.
    - intros (k & Hk & ->). apply list_elem_of_fmap. exists (a, k). by rewrite elem_of_map_to_list. }
  destruct (map (fun p => (p.1, total p.2)) (map_to_list c)) as [|x xs] eqn:E.
  - destruct (map_to_list c) eqn:E'; [|done]. by apply map_to_list_empty_iff.
  - destruct (foldl_colder x xs) as [Hin Hle]. destruct (foldl colder x xs) as [s z]. simpl in *.
    apply Hel in Hin as (k & Hk & ->). exists k. split; [done|]. intros a k' Ha.
    apply (Hle (a, total k')). apply Hel. eauto.
Qed.

Lemma evict_spec_size c : 0 < Z.of_nat (size c) ->
  exists c', evict_smallest c = Ok c' /\ size c = S (size c').
Proof.
  intros Hc. unfold evict_smallest. pose proof (smallest_spec c) as Hs. destruct (smallest c) as [s|e].
  - destruct Hs as (k & Hk & _). eexists; split; [done|]. rewrite map_size_delete_Some by done.
    assert (size c <> 0)%nat by lia. lia.
  - subst c. by rewrite map_size_empty in Hc.
Qed.

Lemma evict_loop_ends fuel m c :
  0 <= m -> (size c <= fuel)%nat ->
  exists c', evict_loop fuel m c = Ok c' /\ Z.of_nat (size c') <= m /\
    (forall fuel', (size c <= fuel')%nat -> evict_loop fuel' m c = Ok c') /\
    (Z.of_nat (size c) <= m -> c' = c).
Proof.
  intros Hm. revert c. induction fuel as [|fuel IH]; intros c Hf.
  - exists c. assert (Hz : Z.of_nat (size c) <= m) by lia. split_and!; try done.
    + unfold evict_loop. by rewrite (proj2 (Z.ltb_ge m _) Hz).
    + intros []; simpl; by rewrite (proj2 (Z.ltb_ge m _) Hz).
  - destruct (Z.lt_decidable m (Z.of_nat (size c))) as [Hlt|Hge].
    + destruct (evict_spec_size c ltac:(lia)) as (c1 & E & Hsz).
      destruct (IH c1 ltac:(lia)) as (c' & E' & Hle & Hany & _). exists c'. split_and!; [|done| |lia].
      * simpl. rewrite (proj2 (Z.ltb_lt m _) Hlt), E. exact E'.
      * intros [|fuel'] Hf'; [lia|]. simpl. rewrite (proj2 (Z.ltb_lt m _) Hlt), E. apply Hany. lia.
    + exists c. assert (Hz : Z.of_nat (size c) <= m) by lia. split_and!; try done.
      * simpl. by rewrite (proj2 (Z.ltb_ge m _) Hz).
      * intros []; simpl; by rewrite (proj2 (Z.ltb_ge m _) Hz).
Qed.

(** C39: [record]'s eviction loop ends and keeps the tally bounded: from any tally with a
    non-negative bound, [record] returns a tally of at most [max_actors] actors without
    raising, more fuel gives the same result, and nothing is evicted while there is room. *)
Theorem record_terminates actor kind t :
  0 <= max_actors t ->
  let c := count_stall (actor_key actor) kind (t_counts t) in
  exists t', record actor kind t = Ok t' /\
    Z.of_nat (size (t_counts t')) <= max_actors t /\ max_actors t' = max_actors t /\
    (forall fuel, (size c <= fuel)%nat -> evict_loop fuel (max_actors t) c = Ok (t_counts t')) /\
    (Z.of_nat (size c) <= max_actors t -> t_counts t' = c).
Proof.
  intros Hm c. destruct (evict_loop_ends (size c) (max_actors t) c Hm (le_n _)) as (c' & E & Hle & Hany & Hid).
  exists (t <| t_counts := c' |>). unfold record. fold c. rewrite E. by split_and!.
Qed.

Lemma record_terminates_witness :
  exists t', record (Some "b") KIND_GIL_HELD
      {| max_actors := 1; t_counts := {[ "a"%string := {[ KIND_GIL_HELD := 3 ]} ]};
         last_published := None; created_at := 0 |} = Ok t' /\
    Z.of_nat (size (t_counts t')) <= 1.
Proof.
  destruct (record_terminates (Some "b"%string) KIND_GIL_HELD
    {| max_actors := 1; t_counts := {[ "a"%string := {[ KIND_GIL_HELD := 3 ]} ]};
       last_published := None; created_at := 0 |} ltac:(simpl; lia)) as (t' & E & Hle & _).
  exists t'. split; [exact E|exact Hle].
Defined.

(** ** A full tally locks newcomers out *)

Lemma total_singleton kind z : total {[ kind := z ]} = z.
Proof. unfold total. rewrite map_to_list_singleton. simpl. lia. Qed.

Lemma record_newcomer a kind t :
  Z.of_nat (size (t_counts t)) = max_actors t ->
  (forall b k, t_counts t !! b = Some k -> 2 <= total k) ->
  t_counts t !! a = None -> a <> ""%string -> record (Some a) kind t = Ok t.
Proof.
  intros Hsz Hbig Hnew Hne. unfold record, actor_key. rewrite decide_False by done.
  set (c := <[a := {[ kind := 1 ]}]> (t_counts t)).
  assert (count_stall a kind (t_counts t) = c) as ->.
  { unfold count_stall, c. by rewrite Hnew. }
  assert (Hc : size c = S (size (t_counts t))) by (by apply map_size_insert_None).
  cbv zeta. rewrite Hc at 1. cbn [evict_loop]. rewrite (proj2 (Z.ltb_lt (max_actors t) _)) by lia.
  unfold evict_smallest. pose proof (smallest_spec c) as Hs. destruct (smallest c) as [s|e].
  - destruct Hs as (k & Hk & Hmin). assert (s = a) as ->.
    { destruct (decide (s = a)) as [|Hsa]; [done|exfalso].
      specialize (Hmin a {[ kind := 1 ]} (lookup_insert_eq _ _ _)). rewrite total_singleton in Hmin.
      unfold c in Hk. rewrite lookup_insert_ne in Hk by done. apply Hbig in Hk. lia. }
    simpl. unfold c. rewrite delete_insert_id by done.
    assert (Hok : forall f, evict_loop f (max_actors t) (t_counts t) = Ok (t_counts t)).
    { intros []; simpl; by rewrite (proj2 (Z.ltb_ge (max_actors t) _)) by lia. }
    rewrite Hok. simpl. by destruct t.
  - exfalso. assert (Hi : c !! a = Some {[ kind := 1 ]}) by apply lookup_insert_eq. by rewrite Hs in Hi.
Qed.

Fixpoint record_all (stalls : list (string * string)) (t : tally) : result py_err tally :=
  match stalls with
  | [] => Ok t
  | (a, kind) :: rest => let* t' := record (Some a) kind t in record_all rest t'
  end.

(** Once the tally is full of actors with two stalls or more, no other actor can enter
    it: however many stalls of however many newcomers follow, each newcomer's first stall
    makes it the least attributed and it is evicted at once, so the tally never changes and
    never names the actor that is stalling now. *)
Theorem full_tally_locks_out t stalls :
  Z.of_nat (size (t_counts t)) = max_actors t ->
  (forall b k, t_counts t !! b = Some k -> 2 <= total k) ->
  Forall (fun s => t_counts t !! s.1 = None /\ s.1 <> ""%string) stalls ->
  record_all stalls t = Ok t.
Proof.
  intros Hsz Hbig. induction 1 as [|[a kind] rest [Ha Hne] _ IH]; [done|].
  simpl. by rewrite (record_newcomer a kind t Hsz Hbig Ha Hne).
Qed.

Lemma full_tally_locks_out_witness :
  record_all (replicate 50 ("hot"%string, KIND_GIL_HELD))
    {| max_actors := 1; t_counts := {[ "old"%string := {[ KIND_BLOCKING_CALL := 2 ]} ]};
       last_published := None; created_at := 0 |} =
  Ok {| max_actors := 1; t_counts := {[ "old"%string := {[ KIND_BLOCKING_CALL := 2 ]} ]};
        last_published := None; created_at := 0 |}.
Proof.
  apply full_tally_locks_out.
  - reflexivity.
  - simpl. intros b k [_ <-]%lookup_singleton_Some. rewrite total_singleton. lia.
  - apply Forall_replicate. split; [reflexivity|discriminate].
Defined.

(** ** The windowed delta *)

Lemma kind_delta_empty prev (k : kinds) :
  (forall kind c, k !! kind = Some c -> c <= default 0 (default ∅ prev !! kind)) -> kind_delta prev k = ∅.
Proof.
  intros Hk. unfold kind_delta. apply map_eq. intros kind. rewrite lookup_empty.
  apply map_lookup_filter_None. right. intros z Hz. rewrite map_lookup_imap in Hz.
  destruct (k !! kind) as [c|] eqn:E; simplify_eq/=. specialize (Hk kind c E). lia.
Qed.

(** An actor evicted since the last publish and then re-attributed restarts from one: its
    new stalls are missing from the window until it passes its old count again. *)
Lemma window_misses_evicted `{Rounding} a kind t t' since prev pk now :
  last_published t = Some (since, prev) -> prev !! a = Some pk -> 1 <= default 0 (pk !! kind) ->
  t_counts t !! a = None -> a <> ""%string -> Z.of_nat (size (t_counts t)) < max_actors t ->
  record (Some a) kind t = Ok t' ->
  t_counts t' !! a = Some {[ kind := 1 ]} /\
  exists snap span delta, (metadata_value now t').2 = Some (snap, (span, delta)) /\ delta !! a = None.
Proof.
  intros Hlast Hprev Hpk Hnone Hne Hroom. unfold record, actor_key. rewrite decide_False by done. cbv zeta.
  set (c := count_stall a kind (t_counts t)).
  assert (Hc : c = <[a := {[ kind := 1 ]}]> (t_counts t)) by (unfold c, count_stall; by rewrite Hnone).
  assert (Hsz : Z.of_nat (size c) <= max_actors t) by (rewrite Hc, map_size_insert_None by done; lia).
  destruct (evict_loop_ends (size c) (max_actors t) c ltac:(lia) (le_n _)) as (c' & -> & _ & _ & Hid).
  rewrite (Hid Hsz). intros [= <-]. simpl. rewrite Hc, lookup_insert_eq. split; [done|].
  unfold metadata_value. simpl. rewrite decide_False by apply insert_non_empty.
  unfold window_delta. simpl. rewrite Hlast. eexists _, _, _. split; [done|].
  apply map_lookup_filter_None. right. intros d Hd. rewrite map_lookup_imap, lookup_insert_eq in Hd. simpl in Hd.
  injection Hd as <-. simpl. intros Hnn. apply Hnn. apply kind_delta_empty.
  intros k z [<- <-]%lookup_singleton_Some. rewrite Hprev. done.
Qed.

(** ** The idle window *)

Definition idle_ok (w : idle_window) : Prop :=
  0 <= parked w /\ 0 <= unreadable w /\ parked w + unreadable w <= samples w /\
  (samples w <> 0 -> exists s, window_started w = Some s).

Lemma fresh_window_ok : idle_ok fresh_window.
Proof. split_and!; simpl; try lia. Qed.

Lemma record_sample_ok now p w : idle_ok w -> idle_ok (record_sample now p w).
Proof.
  intros (H1 & H2 & H3 & H4). destruct p as [[]|]; split_and!; simpl; try lia;
    intros _; destruct (window_started w); eauto.
Qed.

(** Draining a window of samples never fails its assertion, resets it, and publishes a
    fraction between 0 and 1. *)
Lemma drain_ok `{Rounding} now w :
  idle_ok w ->
  match drain now w with
  | (w', Ok None) => samples w = 0 /\ w' = w
  | (w', Ok (Some d)) => w' = fresh_window /\ (0 <= idle_fraction d /\ idle_fraction d <= 1)%Q /\
      d_samples d = samples w /\ samples_parked d + samples_unreadable d <= d_samples d
  | (_, Err _) => False
  end.
Proof.
  intros (H1 & H2 & H3 & H4). unfold drain. destruct (samples w =? 0) eqn:E; zbool; [done|].
  destruct (H4 E) as [s ->]. simpl. split_and!; [done| | |done|done].
  - apply rnd_nonneg. apply Qle_shift_div_l; [change 0%Q with (inject_Z 0); rewrite <- Zlt_Qlt; lia|].
    rewrite Qmult_0_l. change 0%Q with (inject_Z 0). rewrite <- Zle_Qle. lia.
  - unfold fdiv. rewrite <- rnd_1. apply rnd_mono. apply Qle_shift_div_r; [change 0%Q with (inject_Z 0); rewrite <- Zlt_Qlt; lia|].
    rewrite Qmult_1_l, <- Zle_Qle. lia.
Qed.
