(* ===== verification/ProgressProps.v ===== *)
(** * What progress reporting guarantees

    One claim's event stream as a step relation: reports and state changes on the buffer,
    flushes suspended at the database, the write that ends the claim.  Every event gets a
    sequence number of its own and no report is lost, whatever flushes fail and whatever
    lands while one is in flight.  A flush whose answer is lost after its UPDATE committed
    is merged again: harmless for the state, but the row's counter then runs ahead of the
    numbers handed out, by at most the deltas so repeated. *)

From Stdlib Require Import ZArith Lia Sorted.
From stdpp Require Import base tactics relations list gmap strings sorting.
From S2P Require Import Prelude PyFloat Retry JobRow Terminal Control Sweeps Lifecycle Progress.

Open Scope Z_scope.

(** ** jsonb merges *)

Lemma jconcat_lookup (a b : jobj) k :
  jconcat a b !! k = match b !! k with Some v => Some v | None => a !! k end.
Proof.
  unfold jconcat, jobj in *. rewrite lookup_union. destruct (b !! k), (a !! k); done.
Qed.

Lemma jconcat_assoc (a b c : jobj) : jconcat (jconcat a b) c = jconcat a (jconcat b c).
Proof. unfold jconcat, jobj. apply map_union_assoc. Qed.

Lemma jconcat_empty (a : jobj) : jconcat a ∅ = a.
Proof. unfold jconcat, jobj. apply (left_id_L ∅ (∪)). Qed.

(** ** The stream of one claim *)

Section stream.
Context (encoded_size : jval -> Z) (has_nul : jval -> bool) (max_bytes : option Z).
Context (id worker att : Z).

(** A flush in flight: its snapshot, and what the statement returned once it has run. *)
Record flight := { fl_snapshot : snapshot; fl_returned : option Z }.

(** [emitted] are the sequence numbers given to events, newest first, [ideal] the merge of
    every report on top of the claimed row's state, and [lost] the sum of the deltas of
    flushes that committed while their answer never came back. *)
Record stream := {
  row : job;
  buf : buffer;
  in_flight : option flight;
  emitted : list Z;
  ideal : jobj;
  lost : Z;
  ended : bool
}.

Definition opened (j : job) : stream :=
  {| row := j; buf := new_buffer j; in_flight := None; emitted := [];
     ideal := progress_state j; lost := 0; ended := false |}.

Inductive pstep : stream -> stream -> Prop :=
| p_report r b' seq j b fl em i l :
    progress encoded_size has_nul max_bytes att r (Some b) = Ok (Some b', Some seq) ->
    pstep {| row := j; buf := b; in_flight := fl; emitted := em; ideal := i; lost := l; ended := false |}
          {| row := j; buf := b'; in_flight := fl; emitted := seq :: em;
             ideal := jconcat i (report_state r); lost := l; ended := false |}
| p_state_change b' seq j b fl em i l :
    consume_state_change_seq (Some b) = (Some b', seq) ->
    pstep {| row := j; buf := b; in_flight := fl; emitted := em; ideal := i; lost := l; ended := false |}
          {| row := j; buf := b'; in_flight := fl; emitted := seq :: em; ideal := i; lost := l; ended := false |}
| p_flush_begin b' s j b fl em i l :
    flush_begin id b = Some (b', s) ->
    pstep {| row := j; buf := b; in_flight := fl; emitted := em; ideal := i; lost := l; ended := false |}
          {| row := j; buf := b'; in_flight := Some {| fl_snapshot := s; fl_returned := None |};
             emitted := em; ideal := i; lost := l; ended := false |}
| p_flush_runs s j u b em i l :
    flush_row worker (sn_attempt s) (sn_delta s) (sn_state s) j = Some u ->
    pstep {| row := j; buf := b; in_flight := Some {| fl_snapshot := s; fl_returned := None |};
             emitted := em; ideal := i; lost := l; ended := false |}
          {| row := u; buf := b;
             in_flight := Some {| fl_snapshot := s; fl_returned := Some (progress_seq u) |};
             emitted := em; ideal := i; lost := l; ended := false |}
(* the statement never ran *)
| p_flush_fails s j b b' em i l :
    flush_end s Raised b = Some b' ->
    pstep {| row := j; buf := b; in_flight := Some {| fl_snapshot := s; fl_returned := None |};
             emitted := em; ideal := i; lost := l; ended := false |}
          {| row := j; buf := b'; in_flight := None; emitted := em; ideal := i; lost := l; ended := false |}
(* the statement committed and its answer was lost: the same except branch *)
| p_flush_lost s seq j b b' em i l :
    flush_end s Raised b = Some b' ->
    pstep {| row := j; buf := b; in_flight := Some {| fl_snapshot := s; fl_returned := Some seq |};
             emitted := em; ideal := i; lost := l; ended := false |}
          {| row := j; buf := b'; in_flight := None; emitted := em; ideal := i;
             lost := l + sn_delta s; ended := false |}
| p_flush_retires s seq j b b' em i l :
    flush_end s (Returned seq) b = Some b' ->
    pstep {| row := j; buf := b; in_flight := Some {| fl_snapshot := s; fl_returned := Some seq |};
             emitted := em; ideal := i; lost := l; ended := false |}
          {| row := j; buf := b'; in_flight := None; emitted := em; ideal := i; lost := l; ended := false |}
(* heartbeats, cancel requests and the like: every column but the two of progress *)
| p_other j u b fl em i l :
    progress_seq u = progress_seq j -> progress_state u = progress_state j ->
    pstep {| row := j; buf := b; in_flight := fl; emitted := em; ideal := i; lost := l; ended := false |}
          {| row := u; buf := b; in_flight := fl; emitted := em; ideal := i; lost := l; ended := false |}
| p_terminal seq st (f : job -> job) j b fl em i l :
    seq_and_state_after_flush_attempt (Some b) = (seq, st) ->
    (* the fused write: its other columns, then the progress merge *)
    progress_seq (f j) = progress_seq j -> progress_state (f j) = progress_state j ->
    pstep {| row := j; buf := b; in_flight := fl; emitted := em; ideal := i; lost := l; ended := false |}
          {| row := PROGRESS_MERGE seq st (f j); buf := b; in_flight := fl; emitted := seq :: em;
             ideal := i; lost := l; ended := true |}.

(** The part of the invariant about the flush in flight, the row being [ahead] of what the
    buffer takes it to be. *)
Definition flight_ok (ahead : Z) (j : job) (b : buffer) (fl : option flight) : Prop :=
  match fl with
  | None => flush_in_flight b = false /\ progress_seq j = base_seq b + ahead
  | Some fl =>
      let s := fl_snapshot fl in
      flush_in_flight b = true /\ 0 <= sn_delta s <= pending_seq_delta b /\
      (forall k, is_Some (sn_state s !! k) -> is_Some (pending_state b !! k)) /\
      match fl_returned fl with
      | None => progress_seq j = base_seq b + ahead
      | Some seq => progress_seq j = seq /\ seq = base_seq b + ahead + sn_delta s /\
          forall k v, sn_state s !! k = Some v -> progress_state j !! k = Some v
      end
  end.

(** The last number handed out; before any, the row's when it was claimed. *)
Definition handed_out (seed : Z) (em : list Z) : Z := default seed (head em).

(** Sequence numbers handed out so far: strictly falling from the head, all above the seed. *)
Definition numbered (seed top : Z) (em : list Z) : Prop :=
  StronglySorted Z.gt em /\ Forall (fun e => seed < e <= top) em.

Definition stream_inv (seed : Z) (p : stream) : Prop :=
  0 <= lost p /\
  if ended p then
    numbered seed (handed_out seed (emitted p)) (emitted p) /\ emitted p <> [] /\
    handed_out seed (emitted p) <= progress_seq (row p) <= handed_out seed (emitted p) + lost p /\
    progress_state (row p) = ideal p
  else
    exists ahead,
      0 <= ahead /\ 0 <= pending_seq_delta (buf p) /\ seed <= base_seq (buf p) /\
      base_seq (buf p) + pending_seq_delta (buf p) + ahead <= handed_out seed (emitted p) + lost p /\
      numbered seed (base_seq (buf p) + pending_seq_delta (buf p)) (emitted p) /\
      flight_ok ahead (row p) (buf p) (in_flight p) /\
      jconcat (progress_state (row p)) (pending_state (buf p)) = ideal p.

Lemma numbered_push seed head em :
  seed <= head -> numbered seed head em -> numbered seed (head + 1) ((head + 1) :: em).
Proof.
  intros Hle [Hs Hf]. split.
  - constructor; [done|]. eapply Forall_impl; [exact Hf|]. simpl. lia.
  - constructor; [lia|]. eapply Forall_impl; [exact Hf|]. simpl. lia.
Qed.

Lemma handed_out_le seed top em : seed <= top -> numbered seed top em -> handed_out seed em <= top.
Proof. intros Hle [_ Hf]. unfold handed_out. destruct Hf; simpl; lia. Qed.

Lemma numbered_weaken seed top top' em : top <= top' -> numbered seed top em -> numbered seed top' em.
Proof. intros Hle [Hs Hf]. split; [done|]. eapply Forall_impl; [exact Hf|]. simpl. lia. Qed.

Lemma opened_inv j : stream_inv (progress_seq j) (opened j).
Proof.
  split; [done|]. exists 0. simpl. unfold handed_out. simpl. split_and!; try lia; try done.
  - split; constructor.
  - apply jconcat_empty.
Qed.

(** A report or a consumed number leaves the flush in flight as it was. *)
Lemma flight_ok_grow a j b b' fl :
  flight_ok a j b fl -> flush_in_flight b' = flush_in_flight b -> base_seq b' = base_seq b ->
  pending_seq_delta b <= pending_seq_delta b' ->
  (forall k, is_Some (pending_state b !! k) -> is_Some (pending_state b' !! k)) -> flight_ok a j b' fl.
Proof.
  unfold flight_ok. destruct fl as [[s ret]|]; intros Hf -> -> Hd Hk; [|done]. simpl in *.
  destruct Hf as (H1 & H2 & H3 & H4). split_and!; [done|lia|lia|eauto|done].
Qed.

(** Dropping the flushed keys from the pending state loses nothing: the row has them. *)
Lemma retire_keeps (s p : jobj) (rs : jobj) :
  (forall k v, s !! k = Some v -> rs !! k = Some v) ->
  jconcat rs (filter (fun x => s !! x.1 <> Some x.2) p) = jconcat rs p.
Proof.
  intros Hs. apply map_eq. intros k. rewrite !jconcat_lookup.
  destruct (filter (fun x => s !! x.1 <> Some x.2) p !! k) as [v|] eqn:E.
  - apply map_lookup_filter_Some in E as [E _]. unfold jobj in *. by rewrite E.
  - apply map_lookup_filter_None in E as [E|E]; unfold jobj in *; [by rewrite E|].
    destruct (p !! k) as [v|] eqn:Ep; [|done]. apply Hs.
    destruct (decide (s !! k = Some v)) as [|Hn]; [done|]. exfalso. by apply (E v eq_refl).
Qed.

(** Merging a snapshot of the pending state under it changes nothing. *)
Lemma flush_keeps (s p : jobj) (rs : jobj) :
  (forall k, is_Some (s !! k) -> is_Some (p !! k)) -> jconcat (jconcat rs s) p = jconcat rs p.
Proof.
  intros Hk. apply map_eq. intros k. rewrite !jconcat_lookup.
  destruct (p !! k) eqn:Ep; [done|]. destruct (s !! k) eqn:Es; [|done].
  destruct (Hk k) as [v Hv]; [by rewrite Es|congruence].
Qed.

(** The row is never ahead of the buffer's count by more than [ahead]. *)
Lemma flight_ok_row a j b fl :
  0 <= a -> 0 <= pending_seq_delta b -> flight_ok a j b fl ->
  base_seq b <= progress_seq j <= base_seq b + pending_seq_delta b + a.
Proof. destruct fl as [[s [ret|]]|]; simpl; naive_solver lia. Qed.

(** An event takes the next number of the buffer. *)
Lemma stream_inv_event seed j b b' fl em i i' l :
  base_seq b' = base_seq b -> pending_seq_delta b' = pending_seq_delta b + 1 ->
  flush_in_flight b' = flush_in_flight b ->
  (forall k, is_Some (pending_state b !! k) -> is_Some (pending_state b' !! k)) ->
  (jconcat (progress_state j) (pending_state b) = i -> jconcat (progress_state j) (pending_state b') = i') ->
  stream_inv seed {| row := j; buf := b; in_flight := fl; emitted := em; ideal := i; lost := l; ended := false |} ->
  stream_inv seed {| row := j; buf := b'; in_flight := fl; emitted := (base_seq b' + pending_seq_delta b') :: em;
    ideal := i'; lost := l; ended := false |}.
Proof.
  intros Hb Hd Hfl Hk Hst [Hl (a & Ha & Hp & Hs & Hle & Hn & Hf & Hi)]. simpl in *.
  split; [done|]. exists a. simpl. rewrite Hb, Hd, Z.add_assoc.
  assert (handed_out seed em <= base_seq b + pending_seq_delta b) by (apply handed_out_le; [lia|done]).
  assert (handed_out seed ((base_seq b + pending_seq_delta b + 1) :: em) = base_seq b + pending_seq_delta b + 1) as -> by done.
  split_and!; [lia|lia|lia|lia|by apply numbered_push; [lia|]| |by apply Hst].
  eapply flight_ok_grow; [exact Hf|done|done|lia|done].
Qed.

Lemma pstep_preserves seed p q : pstep p q -> stream_inv seed p -> stream_inv seed q.
Proof.
  intros Hs. destruct Hs as [r b' seq j b fl em i l Hp|b' seq j b fl em i l Hc|b' s j b fl em i l Hb
    |s j u b em i l Hr|s j b b' em i l He|s seq j b b' em i l He|s seq j b b' em i l He|j u b fl em i l Hus Hup
    |seq st f j b fl em i l Ht Hfs Hfp].
  { unfold progress in Hp. inv_ok. case_match; simplify_eq/=. apply stream_inv_event; try done; simpl.
    - intros k Hk. rewrite jconcat_lookup. by destruct (report_state r !! k).
    - intros <-. by rewrite <- jconcat_assoc. }
  { simplify_eq/=. by apply stream_inv_event. }
  all: intros [Hl (a & Ha & H1 & H2 & H3 & Hn & H4 & H5)]; simpl in *;
    try (split; [simpl; lia|]; simpl).
  - unfold flush_begin in Hb. repeat case_match; simplify_eq/=. exists a. split_and!; try done; try lia.
    destruct fl as [[s0 ret]|]; simpl in H4; [destruct H4; congruence|]. apply H4.
  - unfold flush_row in Hr. case_match; [|done]. simplify_eq/=.
    destruct H4 as (F1 & F2 & F3 & F4). exists a. split_and!; try done; try lia.
    + intros k v Hk. rewrite jconcat_lookup. by rewrite Hk.
    + rewrite flush_keeps; done.
  - simplify_eq/=. destruct H4 as (F1 & F2 & F3 & F4). exists a. by split_and!.
  - simplify_eq/=. destruct H4 as (F1 & F2 & F3 & F4 & F5 & F6). exists (a + sn_delta s).
    split_and!; try done; lia.
  - simplify_eq/=. destruct H4 as (F1 & F2 & F3 & F4 & F5 & F6). exists 0. split_and!; try lia.
    + eapply numbered_weaken; [|exact Hn]. lia.
    + by rewrite retire_keeps.
  - exists a. split_and!; try done.
    + destruct fl as [[s [ret|]]|]; simpl in *; naive_solver congruence.
    + by rewrite Hup.
  - pose proof (flight_ok_row _ _ _ _ Ha H1 H4).
    assert (handed_out seed em <= base_seq b + pending_seq_delta b) by (apply handed_out_le; [lia|done]).
    unfold seq_and_state_after_flush_attempt, terminal_seq_and_state in Ht.
    assert (Hseq : seq = base_seq b + pending_seq_delta b + 1 /\
      match st with Some u => jconcat (progress_state j) u | None => progress_state j end = i).
    { case_decide as He; simplify_eq; [|done]. split; [done|]. by rewrite He, jconcat_empty. }
    destruct Hseq as [-> Hst]. unfold PROGRESS_MERGE, handed_out. simpl. rewrite Hfs, Hfp.
    split_and!; [by apply numbered_push; [lia|]|done|lia|lia|done].
Qed.

Lemma pstep_reachable j p : rtc pstep (opened j) p -> stream_inv (progress_seq j) p.
Proof.
  intros Hr. eapply (rtc_ind_r (stream_inv (progress_seq j))); [|intros q q' _ Hq; by apply pstep_preserves|exact Hr].
  apply opened_inv.
Qed.
End stream.

(** C29: The event stream of a claim.  Over every interleaving of reports, state changes,
    flushes (with reports landing while one is suspended, flushes that never run, flushes
    that commit while their answer is lost, one surface skipping while the other is in
    flight), writes by others to the row's other columns, and the write that ends the
    claim: every event gets a sequence number of its own, strictly above all earlier ones
    and above the row's when it was claimed; no report is lost, the row's state with what
    is still pending being at every moment the merge of all reports in order; and the row's
    counter is ahead of the last number handed out by at most the deltas of the flushes
    whose answer was lost ([lost]), so never ahead while every answer arrives.  The ending
    write lands that merge and a counter not behind the last number. *)
Theorem progress_stream_sound encoded_size has_nul max_bytes id worker att j p :
  rtc (pstep encoded_size has_nul max_bytes id worker att) (opened j) p ->
  StronglySorted Z.gt (emitted p) /\ Forall (fun e => progress_seq j < e) (emitted p) /\
  progress_seq (row p) <= handed_out (progress_seq j) (emitted p) + lost p /\
  if ended p then
    (exists seq, head (emitted p) = Some seq /\ seq <= progress_seq (row p)) /\
    progress_state (row p) = ideal p
  else
    Forall (fun e => e <= base_seq (buf p) + pending_seq_delta (buf p)) (emitted p) /\
    jconcat (progress_state (row p)) (pending_state (buf p)) = ideal p.
Proof.
  intros Hi%pstep_reachable. destruct Hi as [Hl Hi]. destruct (ended p).
  - destruct Hi as ([Hs Hf] & Hne & Hb & Hst). split_and!; try done; try lia.
    + eapply Forall_impl; [exact Hf|]. simpl. lia.
    + unfold handed_out in Hb. destruct (emitted p) as [|e em]; [done|]. exists e. simpl in *. split; [done|lia].
  - destruct Hi as (a & Ha & H1 & H2 & H3 & [Hs Hf] & H4 & H5). split_and!; try done.
    + eapply Forall_impl; [exact Hf|]. simpl. lia.
    + pose proof (flight_ok_row _ _ _ _ Ha H1 H4). lia.
    + eapply Forall_impl; [exact Hf|]. simpl. lia.
Qed.

(** ** The batched statement *)

Lemma flush_rows_lookup worker batch d d' ret :
  NoDup (map sn_job batch) -> flush_rows worker batch d = (d', ret) ->
  (forall s, s ∈ batch ->
     let u := j ← jobs d !! sn_job s; flush_row worker (sn_attempt s) (sn_delta s) (sn_state s) j in
     jobs d' !! sn_job s = match u with Some u => Some u | None => jobs d !! sn_job s end /\
     ret !! sn_job s = progress_seq <$> u) /\
  (forall id, id ∉ map sn_job batch -> jobs d' !! id = jobs d !! id /\ ret !! id = None).
Proof.
  revert d' ret. induction batch as [|s batch IH]; intros d' ret Hnd; simpl.
  { intros [= <- <-]. split; [by intros s ?%elem_of_nil|done]. }
  apply NoDup_cons in Hnd as [Hni Hnd]. destruct (flush_rows worker batch d) as [d1 r1] eqn:E1.
  destruct (IH d1 r1 Hnd eq_refl) as [IHin IHout].
  assert (Hskip : forall d2 r2,
    d2 = d1 -> r2 = r1 -> (j ← jobs d !! sn_job s; flush_row worker (sn_attempt s) (sn_delta s) (sn_state s) j) = None ->
    (forall s0, s0 ∈ s :: batch ->
       let u := j ← jobs d !! sn_job s0; flush_row worker (sn_attempt s0) (sn_delta s0) (sn_state s0) j in
       jobs d2 !! sn_job s0 = match u with Some u => Some u | None => jobs d !! sn_job s0 end /\
       r2 !! sn_job s0 = progress_seq <$> u) /\
    (forall id, id ∉ sn_job s :: map sn_job batch -> jobs d2 !! id = jobs d !! id /\ r2 !! id = None)).
  { intros d2 r2 -> -> Hu. split.
    - intros s0 [->|Hs0]%elem_of_cons; [|by apply IHin]. rewrite Hu. simpl. apply (IHout _ Hni).
    - intros id [_ Hid]%not_elem_of_cons. by apply IHout. }
  destruct (jobs d !! sn_job s) as [j|] eqn:Hj; [|intros [= <- <-]; by apply Hskip].
  simpl in Hskip.
  destruct (flush_row worker (sn_attempt s) (sn_delta s) (sn_state s) j) as [u|] eqn:Hu;
    intros [= <- <-]; [|by apply Hskip].
  split.
  - intros s0 [->|Hs0]%elem_of_cons.
    + rewrite Hj. simpl. rewrite Hu. simpl. by rewrite !lookup_insert_eq.
    + assert (Hne : sn_job s <> sn_job s0).
      { intros E. apply Hni. rewrite E. by apply list_elem_of_fmap_2. }
      simpl. rewrite !lookup_insert_ne by done. by apply IHin.
  - intros id [Hne Hid]%not_elem_of_cons. simpl. rewrite !lookup_insert_ne by done. by apply IHout.
Qed.

(** The tick's batched UPDATE does to every row exactly what a flush of that row alone
    would: with the job ids of a batch distinct, each named row that passes its own fence
    (running, this worker, its own attempt) is merged and returned with its new number,
    each one that does not is neither touched nor returned, and no other row is touched. *)
Theorem batched_flush_rowwise worker batch d :
  NoDup (map sn_job batch) ->
  let '(d', ret) := flush_rows worker batch d in
  (forall s, s ∈ batch ->
     let u := j ← jobs d !! sn_job s; flush_row worker (sn_attempt s) (sn_delta s) (sn_state s) j in
     jobs d' !! sn_job s = match u with Some u => Some u | None => jobs d !! sn_job s end /\
     ret !! sn_job s = progress_seq <$> u) /\
  (forall id, id ∉ map sn_job batch -> jobs d' !! id = jobs d !! id /\ ret !! id = None).
Proof. intros Hnd. destruct (flush_rows worker batch d) as [d' ret] eqn:E. by eapply flush_rows_lookup. Qed.

(** ** Batches of a tick *)

Lemma slices_concat {A} n fuel (l : list A) :
  (1 <= n)%nat -> (length l <= fuel)%nat -> concat (slices fuel n l) = l.
Proof.
  intros Hn. revert l. induction fuel as [|fuel IH]; intros [|x l] Hf; simpl in *; try done; [lia|].
  destruct n as [|n]; [lia|]. simpl. rewrite IH; [by rewrite take_drop|]. rewrite length_drop. lia.
Qed.

Lemma slices_sizes {A} n fuel (l : list A) :
  (1 <= n)%nat -> Forall (fun s => (1 <= length s <= n)%nat) (slices fuel n l).
Proof.
  intros Hn. revert l. induction fuel as [|fuel IH]; intros [|x l]; simpl; constructor; [|apply IH].
  destruct n as [|n]; [lia|]. simpl. rewrite length_take. lia.
Qed.

Lemma slices_take {A} n fuel k (l : list A) :
  (1 <= n)%nat -> (length l <= fuel)%nat -> concat (take k (slices fuel n l)) = take (k * n) l.
Proof.
  intros Hn. revert fuel l. induction k as [|k IH]; intros fuel l Hf; [done|].
  destruct fuel as [|fuel]; [destruct l; simpl in *; [by rewrite take_nil|lia]|].
  destruct l as [|x l]; [by rewrite take_nil|].
  cbn [slices take concat]. rewrite IH by (rewrite length_drop; simpl in *; lia).
  by rewrite take_take_drop.
Qed.

(** A tick's statements are short, cover the first 256 snapshots in order and once each,
    and leave the rest for the next tick. *)
Lemma tick_batches_cover {A} (l : list A) :
  concat (tick_batches l) = take (FLUSH_MAX_BATCHES_PER_TICK * FLUSH_BATCH_ROWS) l /\
  (length (tick_batches l) <= FLUSH_MAX_BATCHES_PER_TICK)%nat /\
  Forall (fun s => (1 <= length s <= FLUSH_BATCH_ROWS)%nat) (tick_batches l).
Proof.
  unfold tick_batches. split_and!.
  - apply slices_take; [unfold FLUSH_BATCH_ROWS; lia|lia].
  - rewrite length_take. lia.
  - apply Forall_take, slices_sizes. unfold FLUSH_BATCH_ROWS. lia.
Qed.

(** ** The flush fence and refunded attempts *)

Lemma snoozed_columns clk f delay meta seq st oc v u :
  mark_snoozed_snoozed clk f delay meta seq st oc v = Some u ->
  attempt u = Z.max (attempt v - 1) 0 /\ claim_epoch u = claim_epoch v.
Proof.
  unfold mark_snoozed_snoozed. destruct (_ && within_deadline _ _); [|done].
  intros [= <-]. row_simpl. done.
Qed.

Lemma claimed_columns s h b w lease j :
  let v := claim_set s h b w lease j in
  attempt v = Z.min (attempt j + 1) SMALLINT_MAX /\ claim_epoch v = claim_epoch j + 1 /\
  is_status running v = true /\ locked_by_worker v = Some w.
Proof. done. Qed.

(** The attempt number does not identify a claim: a flush suspended across a deferral
    can land on a later claim.  When a claim is deferred (snoozed or denied admission, the
    attempt refunded) and the same worker claims the job again, the new claim has the old
    attempt number and a new claim epoch; a flush statement of the first claim that runs
    only then passes its fence, adds its delta a second time and overwrites the new
    claim's progress with the old one's, where the fence of the terminal writes (which
    carries the claim epoch) refuses. *)
Theorem stale_flush_lands clk f delay meta seq st oc s1 h1 b1 s2 h2 b2 w lease j v u v2 delta state :
  0 <= attempt j < SMALLINT_MAX ->
  v = claim_set s1 h1 b1 w lease j ->
  mark_snoozed_snoozed clk f delay meta seq st oc v = Some u ->
  v2 = claim_set s2 h2 b2 w lease (u <| status := pending |>) ->
  attempt v2 = attempt v /\ claim_epoch v2 = claim_epoch v + 1 /\
  JOB_FENCE {| f_worker := w; f_attempt := Some (attempt v); f_epoch := Some (claim_epoch v) |} v2 = false /\
  exists v3, flush_row w (attempt v) delta state v2 = Some v3 /\
    progress_seq v3 = progress_seq v2 + delta /\ progress_state v3 = jconcat (progress_state v2) state.
Proof.
  intros Ha Hv Hu Hv2. apply snoozed_columns in Hu as [Hua Hue].
  pose proof (claimed_columns s1 h1 b1 w lease j) as (Hva & Hve & _ & _). rewrite <- Hv in Hva, Hve.
  pose proof (claimed_columns s2 h2 b2 w lease (u <| status := pending |>)) as (H2a & H2e & H2s & H2w).
  rewrite <- Hv2 in H2a, H2e, H2s, H2w. clear Hv Hv2. cbn [assign attempt claim_epoch] in H2a, H2e.
  assert (Hatt : attempt v2 = attempt v) by lia. split_and!; [done|lia| |].
  - unfold JOB_FENCE. cbn [f_worker f_attempt f_epoch sql_eq].
    rewrite (proj2 (Z.eqb_neq (claim_epoch v2) (claim_epoch v))) by lia. by rewrite andb_false_r.
  - unfold flush_row, flush_where. rewrite H2s, H2w, Hatt. cbn [sql_eq andb]. rewrite !Z.eqb_refl.
    eexists. split; [done|]. by split.
Qed.

(** ** Witnesses *)

Lemma stale_flush_lands_witness :
  let j := demo_job <| status := pending |> <| locked_by_worker := None |> in
  let v := claim_set 0 0 0 7 60000000 j in
  let f := {| f_worker := 7; f_attempt := Some (attempt v); f_epoch := Some (claim_epoch v) |} in
  exists u v3,
    mark_snoozed_snoozed demo_clk f 1000000 None 4 None snoozed_outcome v = Some u /\
    flush_row 7 (attempt v) 3 {["step" := JInt 9]} (claim_set 0 0 0 7 60000000 (u <| status := pending |>)) = Some v3 /\
    progress_seq v3 = 7.
Proof.
  intros j v f.
  destruct (mark_snoozed_snoozed demo_clk f 1000000 None 4 None snoozed_outcome v) as [u|] eqn:E;
    [|exfalso; vm_compute in E; discriminate].
  destruct (stale_flush_lands demo_clk f 1000000 None 4 None snoozed_outcome 0 0 0 0 0 0 7 60000000 j v u
    (claim_set 0 0 0 7 60000000 (u <| status := pending |>)) 3
    {["step" := JInt 9]} ltac:(split; vm_compute; congruence) eq_refl E eq_refl) as (_ & _ & _ & v3 & Hf & Hseq & _).
  exists u, v3. split; [reflexivity|split; [exact Hf|]]. rewrite Hseq.
  vm_compute in E. injection E as <-. reflexivity.
Defined.

Definition demo_report (n : Z) : report :=
  {| r_step := Some n; r_percent := None; r_detail := None; r_data := None |}.

Definition demo_snapshot : snapshot :=
  {| sn_job := 1; sn_delta := 1; sn_state := {["step" := JInt 1]}; sn_attempt := 1 |}.

(** A report, a flush begun, a second report while it is suspended, the flush landing and
    retiring. *)
Lemma progress_stream_sound_witness :
  exists p, rtc (pstep (fun _ => 0) (fun _ => false) None 1 7 1) (opened demo_job) p /\
    emitted p = [2; 1] /\ progress_seq (row p) = 1 /\ lost p = 0 /\ StronglySorted Z.gt (emitted p).
Proof.
  assert (Hr : exists p, rtc (pstep (fun _ => 0) (fun _ => false) None 1 7 1) (opened demo_job) p /\
    emitted p = [2; 1] /\ progress_seq (row p) = 1 /\ lost p = 0).
  { eexists. split.
    - eapply rtc_l; [apply (p_report _ _ _ _ _ _ (demo_report 1)); reflexivity|].
      eapply rtc_l; [eapply p_flush_begin; reflexivity|].
      eapply rtc_l; [apply (p_report _ _ _ _ _ _ (demo_report 2)); reflexivity|].
      eapply rtc_l; [eapply p_flush_runs; reflexivity|].
      eapply rtc_l; [eapply p_flush_retires; reflexivity|]. apply rtc_refl.
    - split_and!; reflexivity. }
  destruct Hr as (p & Hr & E1 & E2 & E3). exists p. split_and!; [exact Hr|exact E1|exact E2|exact E3|].
  apply (progress_stream_sound _ _ _ _ _ _ _ _ Hr).
Defined.

(** The counter that runs ahead: one report, a flush that commits while its answer is lost,
    and the flush that follows.  Number 1 alone was handed out and the row is at 2. *)
Example repeated_flush_runs_ahead :
  exists p, rtc (pstep (fun _ => 0) (fun _ => false) None 1 7 1) (opened demo_job) p /\
    emitted p = [1] /\ progress_seq (row p) = 2 /\ lost p = 1.
Proof.
  eexists. split.
  - eapply rtc_l; [apply (p_report _ _ _ _ _ _ (demo_report 1)); reflexivity|].
    eapply rtc_l; [eapply p_flush_begin; reflexivity|].
    eapply rtc_l; [eapply p_flush_runs; reflexivity|].
    eapply rtc_l; [eapply p_flush_lost; reflexivity|].
    eapply rtc_l; [eapply p_flush_begin; reflexivity|].
    eapply rtc_l; [eapply p_flush_runs; reflexivity|].
    eapply rtc_l; [eapply p_flush_retires; reflexivity|]. apply rtc_refl.
  - split_and!; reflexivity.
Qed.

Lemma batched_flush_rowwise_witness :
  let '(d', ret) := flush_rows 7 [demo_snapshot] (demo_db demo_job) in
  jobs d' !! 1 = flush_row 7 1 1 {["step" := JInt 1]} demo_job /\ ret !! 1 = Some 1.
Proof.
  pose proof (batched_flush_rowwise 7 [demo_snapshot] (demo_db demo_job) (NoDup_singleton _)) as Hb.
  destruct (flush_rows 7 [demo_snapshot] (demo_db demo_job)) as [d' ret].
  destruct Hb as [Hin _]. destruct (Hin demo_snapshot) as [H1 H2]; [left|]. split; [exact H1|exact H2].
Defined.
