(* ===== verification/Workflow.v ===== *)
(** * The workflow engine

    [src/taskq/workflows/engine.py], [_fork.py], [_sweep.py] and their statements in
    [_sql_finalize.py], [_sql_ledger.py] and [_sql_sweep.py]: nodes that wait on their
    parents, the finalize in its two transactions, the fork, the re-derive sweep and the
    delivery of a fired join.

    A node is a row of [jobs].  The columns only workflow statements read are kept beside it
    ([wcols]); [metadata->'consumers'] and [metadata->'failures'] are kept decoded.  Edges are
    keyed by child, then parent, the primary key of [wf_edge]; fires by join, their UNIQUE;
    the outbox is in id order, the order its ids are minted.  A peer's cancel record is kept as
    the node it came from.  Queue, payload, priority, fairness key, reservation names, the join's
    shape mark and the ledger's capture of a failure are written and not read here: they are left
    out.  Ids are minted by the caller; [held] are the rows other transactions have locked. *)

From Stdlib Require Import ZArith Lia QArith.
From stdpp Require Import base tactics list gmap strings sorting.
From S2P Require Import Prelude PyText PyFloat Retry JobRow Terminal Reservation.

Open Scope Z_scope.

(** ** Data *)

Inductive policy := fail_closed | collect | maybe.

#[export] Instance policy_eq_dec : EqDecision policy.
Proof. solve_decision. Defined.

(** [failure_policy IN ('collect', 'maybe')]. *)
Definition absorbing (p : policy) : bool := match p with fail_closed => false | _ => true end.

(** [ConsumerBinding]; the deadline in microseconds. *)
Record binding := {
  c_step : string; c_actor : string; c_queue : string; c_payload : option string;
  c_map : option Z; c_policy : policy; c_deadline : option Z
}.

(** What a stored binding decodes to: the policy is not stored, a negative deadline is dropped. *)
Definition stored_binding (c : binding) : binding :=
  {| c_step := c_step c; c_actor := c_actor c; c_queue := c_queue c; c_payload := c_payload c;
     c_map := c_map c; c_policy := fail_closed;
     c_deadline := match c_deadline c with Some t => if 0 <=? t then Some t else None | None => None end |}.

(** [FailureInfo]. *)
Record FailureInfo := {
  fi_node : string; fi_map : option Z; fi_class : string; fi_message : string;
  fi_traceback : option string; fi_attempts : list (Z * option string * option string);
  fi_policy : policy
}.

(** [metadata->'failures']: the items, or the summary past the byte cap. *)
Inductive fan_in := Items (l : list FailureInfo) | Truncated (n : Z).

Record wcols := {
  step_key : string; map_index : option Z; parent_id : option Z; trace_id : option string;
  consumers : list binding; failures : option fan_in
}.

#[export] Instance wcols_copy : Copy wcols := fun c =>
  {| step_key := step_key c; map_index := map_index c; parent_id := parent_id c;
     trace_id := trace_id c; consumers := consumers c; failures := failures c |}.

(** The outcomes a node is finalized with.  The signature also admits ["abandoned"], which is no
    attempt outcome and which no caller passes. *)
Inductive fin_outcome := F_succeeded | F_failed | F_cancelled | F_crashed.

Definition fin_status (o : fin_outcome) : JobStatus :=
  match o with F_succeeded => succeeded | F_failed => failed | F_cancelled => cancelled | F_crashed => crashed end.

Definition fin_attempt (o : fin_outcome) : AttemptOutcome :=
  match o with F_succeeded => A_succeeded | F_failed => A_failed | F_cancelled => A_cancelled | F_crashed => A_crashed end.

Inductive ledger_status := L_running | L_done (o : fin_outcome) | L_fenced.

(** A [wf_step_ledger] row. *)
Record lrow := {
  l_flow : Z; l_job : Z; l_step : string; l_map : option Z; l_attempt : Z; l_status : ledger_status;
  l_result : option string; l_class : option string; l_message : option string; l_updated : Z
}.

#[export] Instance lrow_copy : Copy lrow := fun r =>
  {| l_flow := l_flow r; l_job := l_job r; l_step := l_step r; l_map := l_map r; l_attempt := l_attempt r;
     l_status := l_status r; l_result := l_result r; l_class := l_class r; l_message := l_message r;
     l_updated := l_updated r |}.

Record fire_row := { fr_id : Z; fr_flow : Z; fr_step : string; fr_by : string }.

Record outbox_row := {
  o_join : Z; o_flow : Z; o_step : string; o_map : option Z; o_actor : string; o_queue : string;
  o_payload : option string; o_trace : string; o_deadline : option Z; o_delivered : bool
}.

#[export] Instance outbox_copy : Copy outbox_row := fun r =>
  {| o_join := o_join r; o_flow := o_flow r; o_step := o_step r; o_map := o_map r; o_actor := o_actor r;
     o_queue := o_queue r; o_payload := o_payload r; o_trace := o_trace r; o_deadline := o_deadline r;
     o_delivered := o_delivered r |}.

Record wdb := {
  base : db;
  cols : gmap Z wcols;
  edges : gmap Z (gmap Z policy);                  (* child, then parent *)
  fires : gmap Z fire_row;                         (* by join_job_id *)
  outbox : list outbox_row;
  ledger : gmap Z lrow;
  arbiter : gmap (string * string) Z;              (* (idempotency_scope, idempotency_key) *)
  deadlines : gmap Z Z                             (* jobs.start_to_close *)
}.

#[export] Instance wdb_copy : Copy wdb := fun W =>
  {| base := base W; cols := cols W; edges := edges W; fires := fires W; outbox := outbox W;
     ledger := ledger W; arbiter := arbiter W; deadlines := deadlines W |}.

Inductive wf_err := Db (e : db_err) | UniqueViolation | ReducerRaised (join : Z) | EmptyFork | FanInBound | BadDeps.

Definition lift_db {A} (r : result db_err A) : result wf_err A :=
  match r with Ok a => Ok a | Err e => Err (Db e) end.

(** ** Reading rows *)

Definition wjobs (W : wdb) : gmap Z job := jobs (base W).

Definition parents (W : wdb) (c : Z) : gmap Z policy := default ∅ (edges W !! c).

Definition set_rows (js : gmap Z job) (W : wdb) : wdb := W <| base ::= fun d => d <| jobs := js |> |>.

(** [metadata->>'blocking_reason']. *)
Definition blocking_reason (j : job) : option string :=
  match metadata j !! "blocking_reason"%string with Some (JStr s) => Some s | _ => None end.

Definition reason_is (r : string) (j : job) : bool := bool_decide (blocking_reason j = Some r).

Definition BLOCKING_REASON_JOIN : string := "join".
Definition BLOCKING_REASON_ORPHAN_PARENT : string := "orphan_parent".
Definition BLOCKING_REASON_FAILED_PARENT : string := "failed_parent".
Definition BLOCKING_REASON_FLOW_DEAD : string := "flow_dead".
Definition BLOCKING_REASON_BODY_UNAVAILABLE : string := "body_unavailable".
Definition CANCEL_ORIGIN_PEER_FAILURE : string := "CancelledByPeerFailure".
Definition FLOW_STEP_KEY : string := "__flow__".

Definition set_meta (k : string) (v : jval) (j : job) : job := j <| metadata ::= fun m => <[k := v]> m |>.

(** [(metadata->>'flow_id')::uuid]. *)
Definition flow_of (j : job) : option Z :=
  match metadata j !! "flow_id"%string with Some (JUuid f) => Some f | _ => None end.

(** [EXISTS (SELECT 1 FROM jobs f WHERE f.id = $2 AND f.status NOT IN terminal)]. *)
Definition flow_alive (W : wdb) (flow : Z) : bool :=
  match wjobs W !! flow with Some f => negb (terminal (status f)) | None => false end.

Definition cols_of (W : wdb) (id : Z) : wcols :=
  default {| step_key := ""; map_index := None; parent_id := None; trace_id := None; consumers := [];
             failures := None |} (cols W !! id).

Definition is_root (W : wdb) (id : Z) : bool := bool_decide (step_key (cols_of W id) = FLOW_STEP_KEY).

(** Text of ids. *)
Definition ustr (u : Z) : string := String.string_of_list_ascii (uuid_str u).
Definition zstr (z : Z) : string := String.string_of_list_ascii (py_str_int z).

(** ** tx1: the terminal mark and the ledger *)

Definition terminal_mark (clk : nat -> Z) (id : Z) (f : fence) (o : fin_outcome) (res : option string)
    (cls msg tb : option string) (d : db) : result db_err (db * option job) :=
  match select_row d id (JOB_FENCE f) with
  | None => Ok (d, None)
  | Some j =>
      let u := j <| status := fin_status o |> <| finished_at := Some (clk 0%nat) |>
                 <| result_json := Some (default "{}"%string res) |>
                 <| result_size_bytes := (fun s => Z.of_nat (String.length s)) <$> res |>
                 <| error_class := cls |> <| error_message := msg |> <| error_traceback := tb |>
                 <| result_expires_at := match o with
                                         | F_succeeded => result_expiry d (clk 1%nat) None j
                                         | _ => result_expires_at j
                                         end |> in
      let* ms := duration_ms (Some (clk 4%nat)) (Some (default (clk 5%nat) (started_at u))) in
      let* d1 := insert_attempt id (attempt u) (Some (default (clk 2%nat) (started_at u))) (Some (clk 3%nat))
                   (fin_attempt o) cls msg tb ms (holder d (Some (f_worker f))) (Some (scheduled_at u))
                   (write_row id u d) in
      Ok (insert_event id (clk 6%nat) "state_change"
            (jsonb_strip_nulls
               (with_worker (f_worker f) (with_class (jopt cls)
                  (state_change "running" (status_text (fin_status o)))))) d1, Some u)
  end.

(** The two keyings of a ledger row: the claim's own id, or the arbiter tuple. *)
Definition ledger_hit (lid : option Z) (flow : Z) (step : string) (att : Z) (mi : option Z) (id : Z) (r : lrow) : bool :=
  match lid with
  | Some i => id =? i
  | None => (l_flow r =? flow) && bool_decide (l_step r = step) && (l_attempt r =? att) &&
            (default (-1) (l_map r) =? default (-1) mi)
  end.

Definition ledger_terminal (clk : nat -> Z) (lid : option Z) (flow : Z) (step : string) (att : Z) (mi : option Z)
    (o : fin_outcome) (res cls msg : option string) (W : wdb) : wdb :=
  W <| ledger ::= map_imap (fun id r => Some (if ledger_hit lid flow step att mi id r
        then r <| l_status := L_done o |> <| l_result := Some (default "{}"%string res) |>
               <| l_class := cls |> <| l_message := msg |> <| l_updated := clk 7%nat |>
        else r)) |>.

Definition is_running (s : ledger_status) : bool := match s with L_running => true | _ => false end.

Definition ledger_fence (clk : nat -> Z) (lid : option Z) (flow : Z) (step : string) (att : Z) (mi : option Z)
    (cls : option string) (W : wdb) : wdb :=
  W <| ledger ::= map_imap (fun id r => Some (if ledger_hit lid flow step att mi id r && is_running (l_status r)
        then r <| l_status := L_fenced |> <| l_class := cls |> <| l_updated := clk 7%nat |>
        else r)) |>.

(** ** New rows *)

(** A node's row at its insert: the columns the statement sets, the defaults of the rest. *)
Definition new_node (now : Z) (act : string) (max_att : Z) (kind : RetryKind) (deps : Z) (meta : jobj) : job :=
  {| status := pending; actor := act; attempt := 0; max_attempts := max_att; retry_kind := kind;
     scheduled_at := now; schedule_to_close := None; heartbeat_timeout := None; started_at := None;
     finished_at := None; last_heartbeat_at := None; locked_by_worker := None; lock_expires_at := None;
     claim_epoch := 0; cancel_requested_at := None; cancel_phase := 0; error_class := None;
     error_message := None; error_traceback := None; progress_state := ∅; progress_seq := 0;
     result_json := None; result_size_bytes := None; result_expires_at := None; metadata := meta;
     assignment_routed := false; deps_pending := deps; snooze_count := 0; rate_limit_blocked_count := 0;
     interrupt_count := 0; retry_base_seconds := 5; retry_cap_seconds := 3600;
     retry_backoff := exponential; retry_jitter := 1 # 5 |}.

(** [_metadata] and [_join_metadata]. *)
Definition node_meta (flow : Z) : jobj := {["flow_id"%string := JUuid flow]}.
Definition join_meta (flow : Z) : jobj := <["blocking_reason"%string := JStr BLOCKING_REASON_JOIN]> (node_meta flow).

(** Insert one row; a taken id or a taken key raises. *)
Definition insert_row (id : Z) (j : job) (c : wcols) (key : option (string * string)) (deadline : option Z) (W : wdb) :
    result wf_err wdb :=
  match wjobs W !! id, key ≫= fun k => arbiter W !! k with
  | None, None =>
      let W1 := W <| base ::= fun d => write_row id j d |> <| cols ::= fun m => <[id := c]> m |>
                  <| arbiter ::= fun m => match key with Some k => <[k := id]> m | None => m end |> in
      Ok (W1 <| deadlines ::= fun m => match deadline with Some t => <[id := t]> m | None => m end |>)
  | _, _ => Err UniqueViolation
  end.

(** Insert one edge; a taken (child, parent) raises. *)
Definition insert_edge (child parent : Z) (p : policy) (W : wdb) : result wf_err wdb :=
  match parents W child !! parent with
  | Some _ => Err UniqueViolation
  | None => Ok (W <| edges ::= fun m => <[child := <[parent := p]> (default ∅ (m !! child))]> m |>)
  end.

Fixpoint insert_edges (es : list (Z * Z * policy)) (W : wdb) : result wf_err wdb :=
  match es with
  | [] => Ok W
  | (c, p, pol) :: es' => let* W1 := insert_edge c p pol W in insert_edges es' W1
  end.

(** [insert_node]: a joined node and its edges, in one call. *)
Record NodeSpec := {
  n_flow : Z; n_step : string; n_actor : string; n_parents : list Z; n_policy : policy; n_map : option Z;
  n_parent : option Z; n_deps : Z; n_consumers : list binding; n_trace : option string; n_max_attempts : Z;
  n_kind : RetryKind; n_key : option (string * string); n_deadline : option Z
}.

Definition insert_node (now id : Z) (s : NodeSpec) (W : wdb) : result wf_err wdb :=
  if n_deps s <? 0 then Err BadDeps
  else if match n_parents s with [] => false | ps => negb (Z.of_nat (length ps) =? n_deps s) end then Err BadDeps
  else
    let joined := 0 <? n_deps s in
    let c := {| step_key := n_step s; map_index := n_map s; parent_id := n_parent s; trace_id := n_trace s;
                consumers := if joined then map stored_binding (n_consumers s) else []; failures := None |} in
    let* W1 := insert_row id (new_node now (n_actor s) (n_max_attempts s) (n_kind s) (n_deps s)
                                (if joined then join_meta (n_flow s) else node_meta (n_flow s)))
                 c (n_key s) (n_deadline s) W in
    insert_edges (map (fun p => (id, p, n_policy s)) (n_parents s)) W1.

(** ** The fork *)

Record ChildSpec := { ch_step : string; ch_actor : string; ch_map : option Z; ch_deadline : option Z }.

Record JoinSpec := {
  js_step : string; js_actor : string; js_consumers : list binding; js_policy : policy; js_child_driven : bool
}.

Record ForkSpec := {
  fk_children : list ChildSpec; fk_join : option JoinSpec; fk_trace : option string; fk_max_attempts : Z;
  fk_kind : RetryKind; fk_deadline : option Z
}.

Definition MAX_FAN_IN_PER_JOIN : Z := 1000.

Definition validate_fork (k : ForkSpec) : result wf_err unit :=
  match fk_children k, fk_join k with
  | [], None => Err EmptyFork
  | cs, Some js => if (MAX_FAN_IN_PER_JOIN <? Z.of_nat (length cs)) && negb (js_child_driven js)
                   then Err FanInBound else Ok ()
  | _, None => Ok ()
  end.

(** [workflow:<flow>] and the parent-scoped key of a fork's row. *)
Definition scope_of (flow : Z) : string := "workflow:" +:+ ustr flow.

Definition indexed (k : string) (mi : option Z) : string :=
  match mi with Some i => k +:+ ":" +:+ zstr i | None => k end.

Definition fork_key (flow : Z) (parent_step step : string) (mi : option Z) : string * string :=
  (scope_of flow, indexed ("wf:" +:+ ustr flow +:+ ":" +:+ parent_step +:+ ":" +:+ step) mi).

Definition fork_child (now flow parent : Z) (parent_step : string) (k : ForkSpec) (x : Z * ChildSpec) (W : wdb) :
    result wf_err wdb :=
  let '(id, ch) := x in
  let* W1 := insert_row id (new_node now (ch_actor ch) (fk_max_attempts k) (fk_kind k) 0 (node_meta flow))
    {| step_key := ch_step ch; map_index := ch_map ch; parent_id := Some parent; trace_id := fk_trace k;
       consumers := []; failures := None |}
    (Some (fork_key flow parent_step (ch_step ch) (ch_map ch))) (ch_deadline ch) W in
  insert_edge id parent fail_closed W1.

Fixpoint each {A} (f : A -> wdb -> result wf_err wdb) (l : list A) (W : wdb) : result wf_err wdb :=
  match l with [] => Ok W | a :: l' => let* W1 := f a W in each f l' W1 end.

(** The rows of a flow with a step key, the target of a keyed lookup. *)
Definition rows_at (W : wdb) (flow : Z) (step : string) : list Z :=
  map fst (filter (fun x => step_key (cols_of W x.1) = step /\ flow_of x.2 = Some flow) (in_order (wjobs W))).

(** The guarded fire: the row waits on nothing, the flow lives, no fire is recorded. *)
Definition fire (fid join flow : Z) (by_ : string) (W : wdb) : option wdb :=
  match wjobs W !! join, fires W !! join with
  | Some j, None =>
      if (deps_pending j =? 0) && is_status pending j && flow_alive W flow
      then Some (W <| fires ::= fun m => <[join := {| fr_id := fid; fr_flow := flow;
                                                       fr_step := step_key (cols_of W join); fr_by := by_ |}]> m |>)
      else None
  | _, _ => None
  end.

(** The join's row: adopted when the run has one under its step key, inserted otherwise. *)
Definition fork_join (now flow parent : Z) (parent_step : string) (k : ForkSpec) (js : JoinSpec) (fresh : Z) (W : wdb) :
    result wf_err (wdb * Z) :=
  let n := Z.of_nat (length (fk_children k)) in
  let cs := map stored_binding (js_consumers js) in
  match rows_at W flow (js_step js) with
  | jid :: _ =>
      Ok (W <| base ::= fun d => d <| jobs ::= alter (fun j =>
                set_meta "blocking_reason" (JStr BLOCKING_REASON_JOIN) (j <| deps_pending ::= fun z => z + n |>)) jid |> |>
            <| cols ::= alter (fun c => c <| consumers := cs |>) jid |>, jid)
  | [] =>
      let* W1 := insert_row fresh (new_node now (js_actor js) (fk_max_attempts k) (fk_kind k) n (join_meta flow))
        {| step_key := js_step js; map_index := None; parent_id := Some parent; trace_id := fk_trace k;
           consumers := cs; failures := None |}
        (Some (fork_key flow parent_step (js_step js) None)) (fk_deadline k) W in
      Ok (W1, fresh)
  end.

(** Every row of the run under a consumer's step key waits on the join. *)
Definition consumer_edges (W : wdb) (flow jid : Z) (cs : list binding) : list (Z * Z * policy) :=
  concat (map (fun c => map (fun id => (id, jid, c_policy c)) (rows_at W flow (c_step c))) cs).

(** The children, the join and the join's edges; the ids are minted by the caller. *)
Definition fork_children (now flow parent : Z) (parent_step : string) (k : ForkSpec) (ids : list Z) (W : wdb) :
    result wf_err wdb :=
  each (fork_child now flow parent parent_step k) (zip ids (fk_children k)) W.

Definition fork_join_edges (k : ForkSpec) (js : JoinSpec) (ids : list Z) (join : Z) (W : wdb) : result wf_err wdb :=
  insert_edges (map (fun id => (join, id, js_policy js)) (take (length (fk_children k)) ids)) W.

(** [insert_fork]; a join without children is fired at its birth. *)
Definition insert_fork (now flow parent : Z) (parent_step : string) (k : ForkSpec) (ids : list Z) (jid fid : Z) (W : wdb) :
    result wf_err wdb :=
  let* _ := validate_fork k in
  let* W1 := fork_children now flow parent parent_step k ids W in
  match fk_join k with
  | None => Ok W1
  | Some js =>
      let* x := fork_join now flow parent parent_step k js jid W1 in
      let* W3 := fork_join_edges k js ids (snd x) (fst x) in
      let* W4 := insert_edges (consumer_edges W3 flow (snd x) (js_consumers js)) W3 in
      match fk_children k with
      | [] => Ok (default W4 (fire fid (snd x) flow "born-zero" W4))
      | _ => Ok W4
      end
  end.

(** [INCREMENT_DEPS_SQL_TEMPLATE]: a static node's edge, counted before or with its row. *)
Definition increment_deps (id : Z) (W : wdb) : wdb :=
  W <| base ::= fun d => d <| jobs ::= alter (fun j =>
    set_meta "blocking_reason" (JStr BLOCKING_REASON_JOIN) (j <| deps_pending ::= fun n => n + 1 |>)) id |> |>.

(** ** tx1 *)

(** What a finalize is called with. *)
Record finalize := {
  z_flow : Z; z_job : Z; z_step : string; z_map : option Z; z_fence : fence; z_outcome : fin_outcome;
  z_result : option string; z_class : option string; z_message : option string; z_traceback : option string;
  z_fork : option ForkSpec; z_ledger : option Z
}.

(** [_run_tx1]: whether the fence admitted the write.  [ids] are the children's ids, [jid] and
    [fid] the join's and its fire's. *)
Definition run_tx1 (clk : nat -> Z) (ids : list Z) (jid fid : Z) (z : finalize) (W : wdb) : result wf_err (wdb * bool) :=
  let att := default 0 (f_attempt (z_fence z)) in
  let* x := lift_db (terminal_mark clk (z_job z) (z_fence z) (z_outcome z) (z_result z) (z_class z) (z_message z)
                       (z_traceback z) (base W)) in
  match x with
  | (_, None) => Ok (ledger_fence clk (z_ledger z) (z_flow z) (z_step z) att (z_map z) (z_class z) W, false)
  | (d1, Some _) =>
      let W1 := ledger_terminal clk (z_ledger z) (z_flow z) (z_step z) att (z_map z) (z_outcome z) (z_result z)
                  (z_class z) (z_message z) (W <| base := d1 |>) in
      match z_fork z with
      | None => Ok (W1, true)
      | Some k => let* W2 := insert_fork (clk 8%nat) (z_flow z) (z_job z) (z_step z) k ids jid fid W1 in Ok (W2, true)
      end
  end.

(** ** tx2 *)

(** The rows a decrement over the edges [sel] admits takes: pending children with a positive counter. *)
Definition dec_where (sel : policy -> bool) (W : wdb) (parent id : Z) (j : job) : bool :=
  match parents W id !! parent with
  | Some p => sel p && (0 <? deps_pending j) && is_status pending j
  | None => false
  end.

Definition decrement (sel : policy -> bool) (parent flow : Z) (W : wdb) : wdb * list (Z * Z) :=
  if flow_alive W flow then
    (set_rows (map_imap (fun id j => Some (if dec_where sel W parent id j
                                           then j <| deps_pending ::= fun n => n - 1 |> else j)) (wjobs W)) W,
     map (fun x => (x.1, deps_pending x.2 - 1))
       (filter (fun x => dec_where sel W parent x.1 x.2 = true) (in_order (wjobs W))))
  else (W, []).

(** The fail-closed cascade. *)
Definition cascade_child (W : wdb) (parent c : Z) : bool := bool_decide (parents W c !! parent = Some fail_closed).

Definition cascade_blocked (W : wdb) (parent id : Z) (j : job) : bool :=
  cascade_child W parent id && is_status pending j && (0 <? deps_pending j) && reason_is BLOCKING_REASON_JOIN j.

(** The other parents of a fail-closed child. *)
Definition cascade_sibling (W : wdb) (parent p : Z) : bool :=
  existsb (fun x => cascade_child W parent x.1 && bool_decide (is_Some (x.2 !! p))) (map_to_list (edges W)).

Definition join_wait (j : job) : bool := (0 <? deps_pending j) && reason_is BLOCKING_REASON_JOIN j.

Definition cascade_peer (W : wdb) (parent id : Z) (j : job) : bool :=
  cascade_sibling W parent id && negb (id =? parent) && negb (terminal (status j)) && negb (join_wait j).

Definition fail_closed_cascade (clk : Z -> Z) (parent flow : Z) (step : string) (W : wdb) : wdb :=
  let hit := existsb (fun x => cascade_blocked W parent x.1 x.2) (map_to_list (wjobs W)) in
  set_rows (map_imap (fun id j => Some (
      if cascade_blocked W parent id j then
        set_meta "failed_step" (JStr step)
          (set_meta "failed_parent" (JUuid parent) (set_meta "blocking_reason" (JStr BLOCKING_REASON_FAILED_PARENT) j))
      else if cascade_peer W parent id j then
        set_meta "peer_cancel" (JUuid parent)
          (j <| status := cancelled |> <| finished_at := Some (clk id) |> <| error_class := Some CANCEL_ORIGIN_PEER_FAILURE |>)
      else if (id =? flow) && negb (terminal (status j)) && hit then
        j <| status := failed |> <| finished_at := Some (clk id) |> <| error_class := Some CANCEL_ORIGIN_PEER_FAILURE |>
      else j)) (wjobs W)) W.

(** The absorbed fan-in: the joins, with their edge's policy. *)
Definition fan_in_joins (W : wdb) (parent : Z) : list (Z * policy) :=
  omap (fun x => match parents W x.1 !! parent with
                 | Some p => if absorbing p && is_status pending x.2 && (0 <? deps_pending x.2)
                             then Some (x.1, p) else None
                 | None => None
                 end) (in_order (wjobs W)).

Definition by_attempt (a b : Z * option string * option string) : Prop := a.1.1 <= b.1.1.

#[export] Instance by_attempt_dec a b : Decision (by_attempt a b) := decide (a.1.1 <= b.1.1).

Definition is_outcome (s : ledger_status) : bool :=
  match s with L_done F_succeeded | L_done F_failed => true | _ => false end.

(** The attempts the ledger records for the child. *)
Definition history (W : wdb) (flow : Z) (step : string) (mi : option Z) : list (Z * option string * option string) :=
  merge_sort by_attempt (map (fun x => (l_attempt x.2, l_class x.2, l_message x.2))
    (filter (fun x => l_flow x.2 = flow /\ l_step x.2 = step /\ default (-1) (l_map x.2) = default (-1) mi /\
                      is_outcome (l_status x.2) = true) (map_to_list (ledger W)))).

Definition FANIN_FAILURES_BYTE_CAP : Z := 64 * 1024.

Section delivery.
(** The length of the jsonb text of an array of items. *)
Variable items_len : list FailureInfo -> Z.

Definition fan_append (x : FailureInfo) (f : option fan_in) : fan_in :=
  match f with
  | Some (Truncated n) => Truncated (n + 1)
  | _ => let l := match f with Some (Items l) => l | _ => [] end in
         if items_len (l ++ [x]) <=? FANIN_FAILURES_BYTE_CAP then Items (l ++ [x])
         else Truncated (Z.of_nat (length l) + 1)
  end.

Definition append_failure (x : FailureInfo) (join : Z) (W : wdb) : wdb :=
  W <| cols ::= alter (fun c => c <| failures ::= fun f => Some (fan_append x f) |>) join |>.

Definition fan_in_item (step : string) (mi : option Z) (cls msg tb : option string)
    (hist : list (Z * option string * option string)) (p : policy) : FailureInfo :=
  {| fi_node := step; fi_map := mi; fi_class := default "" cls; fi_message := default "" msg; fi_traceback := tb;
     fi_attempts := hist; fi_policy := p |}.

Definition resolve_failed_parent (clk : Z -> Z) (z : finalize) (W : wdb) : wdb :=
  let W1 := fail_closed_cascade clk (z_job z) (z_flow z) (z_step z) W in
  let hist := history W1 (z_flow z) (z_step z) (z_map z) in
  foldl (fun W' x => append_failure (fan_in_item (z_step z) (z_map z) (z_class z) (z_message z) (z_traceback z) hist x.2) x.1 W')
    W1 (fan_in_joins W1 (z_job z)).

(** [fan_in_skip]: a skipped child is an item without attempts. *)
Definition fan_in_skip (parent : Z) (step : string) (mi : option Z) (W : wdb) : wdb * Z :=
  let js := fan_in_joins W parent in
  (foldl (fun W' x => append_failure (fan_in_item step mi (Some "Skipped"%string)
            (Some "the child was skipped (a skip is not an attempt)"%string) None [] x.2) x.1 W') W js,
   Z.of_nat (length js)).

(** Whether a join's reducer body returns; a body that raises undoes the transaction. *)
Variable body_ok : Z -> bool.

Definition outbox_of (flow join : Z) (trace : string) (keep_deadline : bool) (c : binding) : outbox_row :=
  {| o_join := join; o_flow := flow; o_step := c_step c; o_map := c_map c; o_actor := c_actor c; o_queue := c_queue c;
     o_payload := c_payload c; o_trace := trace; o_deadline := if keep_deadline then c_deadline c else None;
     o_delivered := false |}.

(** [winner["trace_id"] or str(fire_id)]. *)
Definition trace_or (fid : Z) (t : option string) : string :=
  match t with Some (String.String _ _ as s) => s | _ => ustr fid end.

Definition fire_and_deliver (flow join fid : Z) (by_ : string) (W : wdb) : result wf_err (wdb * bool) :=
  match fire fid join flow by_ W with
  | None => Ok (W, false)
  | Some W1 =>
      if body_ok join then
        let c := cols_of W1 join in
        Ok (W1 <| outbox ::= fun l => l ++ map (outbox_of flow join (trace_or fid (trace_id c)) true) (consumers c) |>, true)
      else Err (ReducerRaised join)
  end.

(** The joins the decrement brought to zero, in turn. *)
Fixpoint fire_hits (flow : Z) (fids : Z -> Z) (hits : list (Z * Z)) (W : wdb) : result wf_err wdb :=
  match hits with
  | [] => Ok W
  | (join, n) :: hits' =>
      if n =? 0 then let* x := fire_and_deliver flow join (fids join) "finalize" W in fire_hits flow fids hits' (fst x)
      else fire_hits flow fids hits' W
  end.

Definition is_failed (o : fin_outcome) : bool := match o with F_failed => true | _ => false end.

(** [_run_tx2]. *)
Definition run_tx2 (clk : Z -> Z) (fids : Z -> Z) (z : finalize) (W : wdb) : result wf_err wdb :=
  let W1 := if is_failed (z_outcome z) then resolve_failed_parent clk z W else W in
  let '(W2, hits) := decrement (if is_failed (z_outcome z) then absorbing else fun _ => true) (z_job z) (z_flow z) W1 in
  fire_hits (z_flow z) fids hits W2.

(** [finalize_node] when nothing comes between its transactions. *)
Definition finalize_node (clk : nat -> Z) (clk2 : Z -> Z) (ids : list Z) (jid fid : Z) (fids : Z -> Z) (z : finalize)
    (W : wdb) : result wf_err (wdb * bool) :=
  let* x := run_tx1 clk ids jid fid z W in
  if snd x then let* W2 := run_tx2 clk2 fids z (fst x) in Ok (W2, true) else Ok x.

End delivery.

(** ** The re-derive sweep *)

(** What the ledger says of a join: its edges, the missing and the live parents, the failed
    parents on fail-closed edges. *)
Record counts := { edge_count : Z; missing_parents : Z; unterminal : Z; failed_required : Z }.

Definition count_edges (p : Z -> policy -> bool) (m : gmap Z policy) : Z :=
  Z.of_nat (length (filter (fun x => p x.1 x.2 = true) (map_to_list m))).

Definition parent_missing (W : wdb) (p : Z) : bool := match wjobs W !! p with None => true | Some _ => false end.
Definition parent_live (W : wdb) (p : Z) : bool :=
  match wjobs W !! p with Some j => negb (terminal (status j)) | None => false end.
Definition parent_failed (W : wdb) (p : Z) : bool :=
  match wjobs W !! p with Some j => is_status failed j | None => false end.

Definition counts_of (W : wdb) (c : Z) : counts :=
  let m := parents W c in
  {| edge_count := count_edges (fun _ _ => true) m;
     missing_parents := count_edges (fun p _ => parent_missing W p) m;
     unterminal := count_edges (fun p _ => parent_live W p) m;
     failed_required := count_edges (fun p pol => parent_failed W p && negb (absorbing pol)) m |}.

(** The join-wait rows the statement locks; [held] are the rows others have locked. *)
Definition rederive_where (st : Z) (j : job) : bool :=
  is_status pending j && (0 <? deps_pending j) && reason_is BLOCKING_REASON_JOIN j && (scheduled_at j <=? st).

Definition rederive_locked (st : Z) (held : gset Z) (n : nat) (W : wdb) : list Z :=
  map fst (take n (filter (fun x => rederive_where st x.2 = true /\ x.1 ∉ held) (in_order (wjobs W)))).

Definition orphaned (k : counts) : bool := (0 <? missing_parents k) || (edge_count k =? 0).

(** A never-fired join of a flow that is over. *)
Definition fenced_where (W : wdb) (id : Z) (j : job) : bool :=
  is_status pending j && reason_is BLOCKING_REASON_JOIN j &&
  match fires W !! id with None => true | Some _ => false end &&
  match flow_of j with
  | Some f => is_root W f && match wjobs W !! f with Some r => terminal (status r) | None => false end
  | None => false
  end.

(** The lowest failed parent. *)
Definition failed_parent_of (W : wdb) (id : Z) : option Z :=
  head (map fst (filter (fun x => parent_failed W x.1 = true) (in_order (parents W id)))).

Inductive arm := arm_blocked | arm_required | arm_fenced | arm_reconciled (n : Z) | arm_none.

(** The arm that writes a row: every arm reads the same snapshot. *)
Definition rederive_arm (W : wdb) (locked : list Z) (id : Z) (j : job) : arm :=
  let k := counts_of W id in
  let l := bool_decide (id ∈ locked) in
  if l && orphaned k then arm_blocked
  else if l && (0 <? failed_required k) then arm_required
  else if fenced_where W id j then arm_fenced
  else if l && negb (deps_pending j =? unterminal k) then arm_reconciled (unterminal k)
  else arm_none.

Definition rederive_row (W : wdb) (locked : list Z) (id : Z) (j : job) : job :=
  match rederive_arm W locked id j with
  | arm_blocked => set_meta "blocking_reason" (JStr BLOCKING_REASON_ORPHAN_PARENT) j
  | arm_required => set_meta "blocking_reason" (JStr BLOCKING_REASON_FAILED_PARENT) j
  | arm_fenced =>
      match failed_parent_of W id with
      | Some p => set_meta "failed_step" (JStr (step_key (cols_of W p))) (set_meta "failed_parent" (JUuid p)
                    (set_meta "blocking_reason" (JStr BLOCKING_REASON_FAILED_PARENT) j))
      | None => set_meta "failed_step" JNull (set_meta "failed_parent" JNull
                    (set_meta "blocking_reason" (JStr BLOCKING_REASON_FLOW_DEAD) j))
      end
  | arm_reconciled n => j <| deps_pending := n |>
  | arm_none => j
  end.

Definition ledger_firable (k : counts) : bool :=
  (0 <? edge_count k) && (missing_parents k =? 0) && (unterminal k =? 0) && (failed_required k =? 0).

Definition rederive_firable (W : wdb) (locked : list Z) : list Z :=
  filter (fun id => ledger_firable (counts_of W id) = true /\
                    match wjobs W !! id with Some j => fenced_where W id j | None => false end = false) locked.

(** The statement: the rows it leaves and the number it calls firable. *)
Definition rederive_sweep (st : Z) (held : gset Z) (n : nat) (W : wdb) : wdb * nat :=
  let locked := rederive_locked st held n W in
  (set_rows (map_imap (fun id j => Some (rederive_row W locked id j)) (wjobs W)) W,
   length (rederive_firable W locked)).

(** The fire arm: it locks the marked rows anew, whatever their counter. *)
Definition sweep_fire_where (st : Z) (j : job) : bool :=
  is_status pending j && reason_is BLOCKING_REASON_JOIN j && (scheduled_at j <=? st).

Definition sweep_fire_locked (st : Z) (held : gset Z) (n : nat) (W : wdb) : list Z :=
  map fst (take n (filter (fun x => sweep_fire_where st x.2 = true /\ x.1 ∉ held) (in_order (wjobs W)))).

Definition sweep_firable (st : Z) (held : gset Z) (n : nat) (W : wdb) : list Z :=
  filter (fun id => ledger_firable (counts_of W id) = true) (sweep_fire_locked st held n W).

(** A firable row takes the fire id of its ordinal; past the minted ids it is left. *)
Definition sweep_wins (st : Z) (held : gset Z) (n : nat) (fids : list Z) (W : wdb) : list (Z * Z) :=
  filter (fun x => match wjobs W !! x.1 with
                   | Some j => match flow_of j with Some f => flow_alive W f | None => false end
                   | None => false
                   end = true /\ fires W !! x.1 = None)
    (zip (sweep_firable st held n W) fids).

Definition row_flow (W : wdb) (id : Z) : Z := default 0 (wjobs W !! id ≫= flow_of).

Definition record_fire (W : wdb) (x : Z * Z) : wdb :=
  W <| fires ::= fun m => <[x.1 := {| fr_id := x.2; fr_flow := row_flow W x.1; fr_step := step_key (cols_of W x.1);
                                      fr_by := "sweep" |}]> m |>.

Definition sweep_fire (st : Z) (held : gset Z) (n : nat) (fids : list Z) (W : wdb) : wdb * list (Z * Z) :=
  let wins := sweep_wins st held n fids W in (foldl record_fire W wins, wins).

(** What the sweep makes of a fired join's reducer. *)
Inductive reducer_body := body_runs | body_raises | body_unavailable | body_absent.

Section sweep.
Variable body : Z -> reducer_body.

Fixpoint run_bodies (wins : list (Z * Z)) (W : wdb) : result wf_err wdb :=
  match wins with
  | [] => Ok W
  | (join, _) :: wins' =>
      match body join with
      | body_raises => Err (ReducerRaised join)
      | body_unavailable =>
          run_bodies wins' (W <| base ::= fun d => d <| jobs ::=
            alter (set_meta "blocking_reason" (JStr BLOCKING_REASON_BODY_UNAVAILABLE)) join |> |>)
      | body_runs | body_absent => run_bodies wins' W
      end
  end.

(** The rows the sweep delivers; the binding's deadline does not ride them. *)
Definition sweep_outbox (W : wdb) (wins : list (Z * Z)) : list outbox_row :=
  concat (map (fun x => map (outbox_of (row_flow W x.1) x.1 (trace_or x.2 (trace_id (cols_of W x.1))) false)
                          (consumers (cols_of W x.1))) wins).

(** ** The flow root *)

Definition absorbed (W : wdb) (id : Z) : bool :=
  existsb (fun x => match x.2 !! id, wjobs W !! x.1 with
                    | Some p, Some j2 =>
                        absorbing p && negb (is_status pending j2 &&
                          (reason_is BLOCKING_REASON_FAILED_PARENT j2 || reason_is BLOCKING_REASON_ORPHAN_PARENT j2 ||
                           reason_is BLOCKING_REASON_FLOW_DEAD j2))
                    | _, _ => false
                    end) (map_to_list (edges W)).

Definition flow_nodes (W : wdb) (flow : Z) : list (Z * job) :=
  filter (fun x => flow_of x.2 = Some flow /\ is_root W x.1 = false) (in_order (wjobs W)).

Definition failed_class (s : JobStatus) : bool := match s with failed | crashed | abandoned => true | _ => false end.

Definition has_failed (W : wdb) (ns : list (Z * job)) : bool :=
  existsb (fun x => failed_class (status x.2) && negb (absorbed W x.1)) ns.

Definition has_unresolved (ns : list (Z * job)) : bool :=
  existsb (fun x => is_status running x.2 ||
             ((is_status pending x.2 || is_status scheduled x.2) &&
              negb (bool_decide (is_Some (metadata x.2 !! "blocking_reason"%string))))) ns.

Definition has_cancelled (ns : list (Z * job)) : bool := existsb (fun x => is_status cancelled x.2) ns.

Definition has_live (ns : list (Z * job)) : bool := existsb (fun x => negb (terminal (status x.2))) ns.

(** The status the maintenance leg gives a running root, if any. *)
Definition maintained (W : wdb) (flow : Z) : option JobStatus :=
  match flow_nodes W flow with
  | [] => None
  | ns => if (has_failed W ns && negb (has_unresolved ns)) || negb (has_live ns)
          then Some (if has_failed W ns then failed else if has_cancelled ns then cancelled else succeeded)
          else None
  end.

Definition root_ids (held : gset Z) (n : nat) (W : wdb) : list Z :=
  map fst (take n (filter (fun x => is_root W x.1 = true /\ status x.2 = running /\ x.1 ∉ held) (in_order (wjobs W)))).

Definition maintain_row (clk : Z -> Z) (s : JobStatus) (id : Z) (j : job) : job :=
  j <| status := s |> <| finished_at := Some (clk id) |>
    <| error_class ::= fun c => match c with
                                | Some e => Some e
                                | None => if bool_decide (s = failed) then Some "UnabsorbedNodeFailure"%string else None
                                end |>.

Definition maintain_root (clk : Z -> Z) (W0 : wdb) (W : wdb) (id : Z) : wdb :=
  match wjobs W !! id, maintained W0 id with
  | Some j, Some s =>
      W <| base ::= fun d => insert_event id (clk id) "state_change"
             (<["reason"%string := JStr "workflow-maintained"]> (state_change "running" (status_text s)))
             (write_row id (maintain_row clk s id j) d) |>
  | _, _ => W
  end.

Definition root_maintain (clk : Z -> Z) (held : gset Z) (n : nat) (W : wdb) : wdb :=
  foldl (maintain_root clk W) W (root_ids held n W).

(** [sweep_join_rederive]: one transaction.  [mint] gives the fire ids. *)
Definition sweep_join_rederive (clk : Z -> Z) (st : Z) (held : gset Z) (n : nat) (mint : nat -> Z) (W : wdb) :
    result wf_err wdb :=
  let '(W1, firable) := rederive_sweep st held n W in
  let* W2 := (if bool_decide (firable = 0%nat) then Ok W1 else
    let '(W2, wins) := sweep_fire st held n (map mint (seq 0 firable)) W1 in
    let* W3 := run_bodies wins W2 in
    Ok (W3 <| outbox ::= fun l => l ++ sweep_outbox W3 wins |>)) in
  Ok (root_maintain clk held n W2).

End sweep.

(** ** The outbox drain *)

(** The delivered consumer's row and its key. *)
Definition drain_key (o : outbox_row) : string * string :=
  (scope_of (o_flow o), indexed ("wf:" +:+ o_step o) (o_map o)).

(** Insert a consumer unless its key is taken. *)
Definition drain_row (now : Z) (x : Z * outbox_row) (W : wdb) : result wf_err wdb :=
  let '(id, o) := x in
  match arbiter W !! drain_key o with
  | Some _ => Ok W
  | None =>
      insert_row id (new_node now (o_actor o) 3 transient 0 (node_meta (o_flow o)))
        {| step_key := o_step o; map_index := o_map o; parent_id := Some (o_join o);
           trace_id := Some (o_trace o); consumers := []; failures := None |}
        (Some (drain_key o)) (o_deadline o) W
  end.

Definition undelivered (o : outbox_row) : bool := negb (o_delivered o).

(** Flip the first [n] undelivered rows. *)
Fixpoint flip_first (n : nat) (l : list outbox_row) : list outbox_row :=
  match l with
  | [] => []
  | o :: l' => match n with
               | O => l
               | S n' => if undelivered o then (o <| o_delivered := true |>) :: flip_first n' l'
                         else o :: flip_first n l'
               end
  end.

(** [drain_outbox]: the ids of the new rows are minted by the caller. *)
Definition drain_outbox (now : Z) (n : nat) (ids : list Z) (W : wdb) : result wf_err (wdb * nat) :=
  let rows := take n (filter (fun o => undelivered o = true) (outbox W)) in
  let* W1 := each (drain_row now) (zip ids rows) W in
  Ok (W1 <| outbox ::= flip_first n |>, length rows).
