(* ===== verification/WorkflowProps.v ===== *)
(** * Workflows: what a counter covers

    The counter of a waiting node covers the parents it has still to wait for ([wired]), and
    every transaction of the engine keeps it so: job statements, the two halves of a finalize,
    forks, the re-derive sweep on settled joins, the outbox drain, inserts. *)

From Stdlib Require Import ZArith Lia QArith.
From stdpp Require Import base tactics relations list gmap strings sorting.
From S2P Require Import Prelude PyText PyFloat Retry JobRow Terminal Control Sweeps Lifecycle.
From S2P Require Import Reservation ReservationProps Workflow.

Open Scope Z_scope.

(** ** What a counter covers *)

(** A parent the node may not pass: missing, live, or failed and required. *)
Definition stuck (W : wdb) (p : Z) (pol : policy) : bool :=
  match wjobs W !! p with
  | None => true
  | Some j => negb (terminal (status j)) || (is_status failed j && negb (absorbing pol))
  end.

(** The parents still to be counted off: stuck ones, and those whose decrement is to come. *)
Definition debt (W : wdb) (due : gmap Z finalize) (c : Z) : gmap Z policy :=
  filter (fun x => stuck W x.1 x.2 = true \/ is_Some (due !! x.1)) (parents W c).

Definition clear (W : wdb) (c : Z) : Prop := forall p pol, parents W c !! p = Some pol -> stuck W p pol = false.

(** [due] are the finalizes between their two transactions; [owed c] the counts of [c] taken
    before their edge is written. *)
Record wired (W : wdb) (due : gmap Z finalize) (owed : Z -> Z) : Prop := {
  wi_due : forall p z, due !! p = Some z ->
    z_job z = p /\ exists j, wjobs W !! p = Some j /\ status j = fin_status (z_outcome z);
  wi_row : forall c j, wjobs W !! c = Some j ->
    0 <= deps_pending j /\ 0 <= owed c /\
    (0 < deps_pending j -> Z.of_nat (size (debt W due c)) + owed c <= deps_pending j) /\
    (deps_pending j = 0 -> owed c = 0 /\ clear W c);
  wi_none : forall c, wjobs W !! c = None -> parents W c = ∅ /\ owed c = 0 /\ fires W !! c = None;
  wi_fired : forall c f, fires W !! c = Some f -> owed c = 0 /\ clear W c
}.

Lemma fin_terminal o : terminal (fin_status o) = true.
Proof. by destruct o. Qed.

(** ** Rows that change without touching the counters *)

Definition tame (j u : job) : Prop :=
  deps_pending u = deps_pending j /\ (terminal (status j) = true -> status u = status j).

#[export] Instance tame_refl : Reflexive tame.
Proof. by intros j. Qed.

#[export] Instance tame_trans : Transitive tame.
Proof. intros a b c [H1 H2] [H3 H4]. split; [congruence|]. intros H. rewrite H4, H2; [done..|]. by rewrite H2. Qed.

Definition tame_rows (W W' : wdb) : Prop := forall id, option_Forall2 tame (wjobs W !! id) (wjobs W' !! id).

Lemma tame_rows_same W W' : wjobs W' = wjobs W -> tame_rows W W'.
Proof. intros Hj id. rewrite Hj. destruct (wjobs W !! id); constructor. reflexivity. Qed.

Lemma tame_rows_map W (f : Z -> job -> job) :
  (forall id j, wjobs W !! id = Some j -> tame j (f id j)) ->
  tame_rows W (set_rows (map_imap (fun id j => Some (f id j)) (wjobs W)) W).
Proof.
  intros Hf id. unfold set_rows, wjobs. cbn. rewrite map_lookup_imap. fold (wjobs W).
  destruct (wjobs W !! id) as [j|] eqn:E; simpl; constructor. by apply Hf.
Qed.

Lemma stuck_tame W W' p pol : tame_rows W W' -> stuck W' p pol = true -> stuck W p pol = true.
Proof.
  intros Ht. unfold stuck. destruct (Ht p) as [j u [_ Hs]|]; [|done].
  destruct (terminal (status j)) eqn:E; [|done]. rewrite Hs by done. rewrite E. simpl.
  unfold is_status. by rewrite Hs.
Qed.

Lemma clear_tame W W' c :
  tame_rows W W' -> (forall p pol, parents W' c !! p = Some pol -> parents W c !! p = Some pol) ->
  clear W c -> clear W' c.
Proof.
  intros Ht Hp Hc p pol Hq. destruct (stuck W' p pol) eqn:E; [|done]. apply (stuck_tame W) in E; [|done].
  by rewrite (Hc p pol (Hp p pol Hq)) in E.
Qed.

Lemma debt_mono W W' due due' c :
  tame_rows W W' -> (forall p, is_Some (due' !! p) -> is_Some (due !! p)) -> parents W' c = parents W c ->
  debt W' due' c ⊆ debt W due c.
Proof.
  intros Ht Hd Hp. apply map_subseteq_spec. intros p pol. unfold debt. rewrite !map_lookup_filter_Some, Hp.
  intros [Hq Hs]. split; [done|]. simpl in *. destruct Hs as [Hs|Hs]; [left; by eapply stuck_tame|right; auto].
Qed.

Lemma wired_tame W W' due owed :
  tame_rows W W' -> edges W' = edges W -> fires W' = fires W -> wired W due owed -> wired W' due owed.
Proof.
  intros Ht He Hf [H1 H2 H3 H4].
  assert (Hp : forall c, parents W' c = parents W c) by (intros c; unfold parents; by rewrite He).
  assert (Hpc : forall c p pol, parents W' c !! p = Some pol -> parents W c !! p = Some pol) by (intros c p pol; by rewrite Hp).
  constructor.
  - intros p z Hz. destruct (H1 p z Hz) as (Hj & j & Hr & Hs). split; [done|].
    pose proof (Ht p) as Htp. rewrite Hr in Htp. inversion Htp as [? u [_ Hu]|]; subst. exists u. split; [done|].
    rewrite Hu; [done|]. rewrite Hs. apply fin_terminal.
  - intros c u Hu. pose proof (Ht c) as Htc. rewrite Hu in Htc. inversion Htc as [j ? [Hdep _] Hj|]; subst.
    symmetry in Hj. destruct (H2 c j Hj) as (H5 & H6 & H7 & H8). rewrite Hdep. split_and!; [done..| |].
    + intros Hpos. specialize (H7 Hpos). pose proof (map_subseteq_size _ _ (debt_mono W W' due due c Ht (fun _ x => x) (Hp c))). lia.
    + intros H0. destruct (H8 H0) as [? ?]. split; [done|]. eapply clear_tame; eauto.
  - intros c Hc. rewrite Hp, Hf. apply H3. pose proof (Ht c) as Htc. rewrite Hc in Htc. by inversion Htc.
  - intros c f. rewrite Hf. intros Hfc. destruct (H4 c f Hfc). split; [done|]. eapply clear_tame; eauto.
Qed.

(** ** tx1: the mark moves the parent from live to due *)

Lemma parents_base W d c : parents (W <| base := d |>) c = parents W c.
Proof. done. Qed.

(** The row of [p] ends, its decrement becomes due, no other row moves. *)
Lemma wired_mark W d1 due owed z j u :
  wjobs W !! z_job z = Some j -> terminal (status j) = false ->
  status u = fin_status (z_outcome z) -> deps_pending u = deps_pending j ->
  jobs d1 = <[z_job z := u]> (wjobs W) ->
  wired W due owed -> wired (W <| base := d1 |>) (<[z_job z := z]> due) owed.
Proof.
  intros Hj Hlive Hu Hdep Hd [H1 H2 H3 H4]. set (W' := W <| base := d1 |>).
  assert (Hjobs : wjobs W' = <[z_job z := u]> (wjobs W)) by exact Hd.
  assert (Ht : tame_rows W W').
  { intros id. rewrite Hjobs. destruct (decide (z_job z = id)) as [<-|Hne].
    - rewrite Hj, lookup_insert_eq. constructor. split; [done|]. by rewrite Hlive.
    - rewrite lookup_insert_ne by done. destruct (wjobs W !! id); constructor. reflexivity. }
  assert (Hdebt : forall c, debt W' (<[z_job z := z]> due) c ⊆ debt W due c).
  { intros c. apply map_subseteq_spec. intros p pol. unfold debt. rewrite !map_lookup_filter_Some. cbn.
    intros [Hq Hs]. split; [done|]. destruct Hs as [Hs|Hs]; [left; by eapply stuck_tame|].
    destruct (decide (z_job z = p)) as [<-|Hne]; [left|right; by rewrite lookup_insert_ne in Hs].
    unfold stuck. rewrite Hj. by rewrite Hlive. }
  constructor.
  - intros p z' Hz. apply lookup_insert_Some in Hz as [[<- <-]|[Hne Hz]].
    + split; [done|]. exists u. by rewrite Hjobs, lookup_insert_eq.
    + destruct (H1 p z' Hz) as (? & j' & Hj' & ?). split; [done|]. exists j'. by rewrite Hjobs, lookup_insert_ne.
  - intros c v Hv. assert (exists j', wjobs W !! c = Some j' /\ deps_pending v = deps_pending j') as (j' & Hj' & ->).
    { rewrite Hjobs in Hv. apply lookup_insert_Some in Hv as [[<- <-]|[_ ?]]; eauto. }
    destruct (H2 c j' Hj') as (? & ? & H7 & H8). split_and!; [done..| |].
    + intros Hpos. specialize (H7 Hpos). pose proof (map_subseteq_size _ _ (Hdebt c)). lia.
    + intros E0. destruct (H8 E0). split; [done|]. eapply clear_tame; eauto.
  - intros c Hc. apply H3. rewrite Hjobs in Hc. by apply lookup_insert_None in Hc as [? _].
  - intros c f Hf. destruct (H4 c f Hf). split; [done|]. eapply clear_tame; eauto.
Qed.

(** ** New rows and edges *)

Lemma insert_row_ok id j c key dl W W' :
  insert_row id j c key dl W = Ok W' ->
  wjobs W !! id = None /\ wjobs W' = <[id := j]> (wjobs W) /\ edges W' = edges W /\ fires W' = fires W.
Proof.
  unfold insert_row. destruct (wjobs W !! id) eqn:E; [done|]. destruct (_ ≫= _); [done|]. intros [= <-]. done.
Qed.

(** The counts a row is born with are owed until its edges are written. *)
Lemma wired_row id j c key dl W W' due owed owed' :
  insert_row id j c key dl W = Ok W' -> terminal (status j) = false -> 0 <= deps_pending j ->
  (forall x, owed' x = if decide (x = id) then deps_pending j else owed x) ->
  wired W due owed -> wired W' due owed'.
Proof.
  intros Hi Hlive Hpos Ho [H1 H2 H3 H4]. apply insert_row_ok in Hi as (Hn & Hjobs & He & Hf).
  assert (Hp : forall x, parents W' x = parents W x) by (intros x; unfold parents; by rewrite He).
  assert (Hs : forall p pol, stuck W' p pol = stuck W p pol).
  { intros p pol. unfold stuck. rewrite Hjobs. destruct (decide (id = p)) as [<-|Hne].
    - rewrite lookup_insert_eq, Hn, Hlive. done.
    - by rewrite lookup_insert_ne. }
  assert (Hdebt : forall x, debt W' due x = debt W due x).
  { intros x. unfold debt. rewrite Hp. apply map_filter_ext. intros p pol _. by rewrite Hs. }
  assert (Hcl : forall x, clear W' x <-> clear W x).
  { intros x. unfold clear. rewrite Hp. by setoid_rewrite Hs. }
  constructor.
  - intros p z Hz. destruct (H1 p z Hz) as (? & j' & Hj' & ?). split; [done|]. exists j'. split; [|done].
    rewrite Hjobs, lookup_insert_ne; [done|]. congruence.
  - intros x v Hv. rewrite Ho, Hdebt, Hcl. rewrite Hjobs in Hv. apply lookup_insert_Some in Hv as [[<- <-]|[Hne Hv]].
    + rewrite decide_True by done. destruct (H3 id Hn) as (Hpar & _ & _). split_and!; [done..| |].
      * intros _. unfold debt. rewrite Hpar, map_filter_empty, map_size_empty. lia.
      * intros ->. split; [done|]. intros p pol. by rewrite Hpar, lookup_empty.
    + rewrite decide_False by congruence. by apply H2.
  - intros x Hx. rewrite Hjobs in Hx. apply lookup_insert_None in Hx as [Hx Hne].
    rewrite Hp, Hf, Ho, decide_False by congruence. by apply H3.
  - intros x f. rewrite Hf, Ho, Hcl. intros Hx. destruct (decide (x = id)) as [->|]; [|by eapply H4].
    destruct (H3 id Hn) as (_ & _ & ?). congruence.
Qed.

Lemma insert_edge_ok c p pol W W' :
  insert_edge c p pol W = Ok W' ->
  parents W c !! p = None /\ wjobs W' = wjobs W /\ fires W' = fires W /\
  parents W' c = <[p := pol]> (parents W c) /\ (forall x, x <> c -> parents W' x = parents W x).
Proof.
  unfold insert_edge. destruct (parents W c !! p) eqn:E; [done|]. intros [= <-]. split_and!; try done.
  - unfold parents. cbn. by rewrite lookup_insert_eq.
  - intros x Hx. unfold parents. cbn. by rewrite lookup_insert_ne.
Qed.

Lemma stuck_jobs W W' p pol : wjobs W' = wjobs W -> stuck W' p pol = stuck W p pol.
Proof. unfold stuck. by intros ->. Qed.

Lemma debt_jobs W W' due c : wjobs W' = wjobs W -> parents W' c = parents W c -> debt W' due c = debt W due c.
Proof.
  intros Hj Hp. unfold debt. rewrite Hp. apply map_filter_ext. intros p pol _. by rewrite (stuck_jobs W W').
Qed.

Lemma clear_jobs W W' c : wjobs W' = wjobs W -> parents W' c = parents W c -> clear W' c <-> clear W c.
Proof. intros Hj Hp. unfold clear. rewrite Hp. split; intros Hc p pol Hq; [rewrite <- (stuck_jobs W W')|rewrite (stuck_jobs W W')]; auto. Qed.

(** An edge pays one owed count. *)
Lemma wired_edge c p pol W W' due owed owed' :
  insert_edge c p pol W = Ok W' -> 1 <= owed c ->
  (forall x, owed' x = if decide (x = c) then owed c - 1 else owed x) ->
  wired W due owed -> wired W' due owed'.
Proof.
  intros Hi Hone Ho [H1 H2 H3 H4]. apply insert_edge_ok in Hi as (Hn & Hj & Hf & Hp & Hpx).
  constructor.
  - intros q z Hz. rewrite Hj. by apply H1.
  - intros x v Hv. rewrite Hj in Hv. destruct (H2 x v Hv) as (H5 & H6 & H7 & H8). rewrite Ho.
    destruct (decide (x = c)) as [->|Hne].
    + assert (Hd : 0 < deps_pending v).
      { destruct (decide (deps_pending v = 0)) as [E|]; [|lia]. destruct (H8 E). lia. }
      specialize (H7 Hd). split_and!; [lia|lia| |lia]. intros _.
      assert (Hsub : debt W' due c ⊆ <[p := pol]> (debt W due c)).
      { apply map_subseteq_spec. intros q pl. unfold debt. rewrite map_lookup_filter_Some, Hp. cbn.
        rewrite (stuck_jobs W W') by done. intros [Hq Hs]. apply lookup_insert_Some in Hq as [[<- <-]|[Hneq Hq]].
        - apply lookup_insert_eq.
        - rewrite lookup_insert_ne by done. by apply map_lookup_filter_Some. }
      apply map_subseteq_size in Hsub. rewrite map_size_insert_None in Hsub; [lia|].
      unfold debt. apply map_lookup_filter_None. by left.
    + rewrite (debt_jobs W W'), (clear_jobs W W') by auto. done.
  - intros x Hx. rewrite Hj in Hx. destruct (H3 x Hx) as (? & ? & ?). rewrite Hf, Ho.
    destruct (decide (x = c)) as [->|Hne]; [lia|]. by rewrite Hpx.
  - intros x f. rewrite Hf. intros Hx. destruct (H4 x f Hx). rewrite Ho. destruct (decide (x = c)) as [->|Hne]; [lia|].
    split; [done|]. apply (clear_jobs W W'); auto.
Qed.

(** An edge from a finished parent that the node does not wait for. *)
Lemma wired_free_edge c p pol W W' due owed j :
  insert_edge c p pol W = Ok W' -> stuck W p pol = false -> wjobs W !! c = Some j -> deps_pending j = 0 ->
  wired W due owed -> wired W' due owed.
Proof.
  intros Hi Hs Hc Hd0 [H1 H2 H3 H4]. apply insert_edge_ok in Hi as (Hn & Hj & Hf & Hp & Hpx).
  assert (Hcl : clear W c -> clear W' c).
  { intros Hcl q pl Hq. rewrite (stuck_jobs W W') by done. rewrite Hp in Hq.
    apply lookup_insert_Some in Hq as [[<- <-]|[_ Hq]]; eauto. }
  constructor.
  - intros q z Hz. rewrite Hj. by apply H1.
  - intros x v Hv. rewrite Hj in Hv. destruct (H2 x v Hv) as (H5 & H6 & H7 & H8).
    destruct (decide (x = c)) as [->|Hne].
    + assert (v = j) as -> by congruence. split_and!; [lia|lia|lia|]. intros E. destruct (H8 E). auto.
    + rewrite (debt_jobs W W'), (clear_jobs W W') by auto. done.
  - intros x Hx. rewrite Hj in Hx. destruct (H3 x Hx) as (? & ? & ?). rewrite Hf.
    destruct (decide (x = c)) as [->|Hne]; [congruence|]. by rewrite Hpx.
  - intros x f. rewrite Hf. intros Hx. destruct (H4 x f Hx). split; [done|].
    destruct (decide (x = c)) as [->|Hne]; [auto|]. apply (clear_jobs W W'); auto.
Qed.

(** Counts added to a row that still waits, or that has no edge yet, are owed. *)
Lemma wired_reserve id n j u W W' due owed owed' :
  wjobs W !! id = Some j -> 0 <= n -> fires W !! id = None -> 0 < deps_pending j \/ parents W id = ∅ ->
  deps_pending u = deps_pending j + n -> status u = status j ->
  wjobs W' = <[id := u]> (wjobs W) -> edges W' = edges W -> fires W' = fires W ->
  (forall x, owed' x = if decide (x = id) then owed id + n else owed x) ->
  wired W due owed -> wired W' due owed'.
Proof.
  intros Hj Hn Hnf Hw Hd Hst Hjobs He Hf Ho [H1 H2 H3 H4].
  assert (Hp : forall x, parents W' x = parents W x) by (intros x; unfold parents; by rewrite He).
  assert (Hs : forall p pol, stuck W' p pol = stuck W p pol).
  { intros p pol. unfold stuck. rewrite Hjobs. destruct (decide (id = p)) as [<-|Hne].
    - unfold is_status. by rewrite lookup_insert_eq, Hj, Hst.
    - by rewrite lookup_insert_ne. }
  assert (Hdebt : forall x, debt W' due x = debt W due x).
  { intros x. unfold debt. rewrite Hp. apply map_filter_ext. intros p pol _. by rewrite Hs. }
  assert (Hcl : forall x, clear W' x <-> clear W x).
  { intros x. unfold clear. rewrite Hp. by setoid_rewrite Hs. }
  constructor.
  - intros p z Hz. destruct (H1 p z Hz) as (Hzj & j' & Hj' & Hs'). split; [done|]. rewrite Hjobs.
    destruct (decide (id = p)) as [->|Hne]; [|rewrite lookup_insert_ne; eauto].
    exists u. rewrite lookup_insert_eq. split; [done|]. congruence.
  - intros x v Hv. rewrite Ho, Hdebt, Hcl. rewrite Hjobs in Hv. apply lookup_insert_Some in Hv as [[<- <-]|[Hne Hv]].
    + rewrite decide_True by done. destruct (H2 id j Hj) as (H5 & H6 & H7 & H8). rewrite Hd. split_and!; [lia..| |].
      * intros _. destruct Hw as [Hw|Hw]; [specialize (H7 Hw); lia|].
        unfold debt. rewrite Hw, map_filter_empty, map_size_empty.
        destruct (decide (deps_pending j = 0)) as [E|E]; [destruct (H8 E); lia|].
        assert (Z.of_nat (size (debt W due id)) + owed id <= deps_pending j) by (apply H7; lia). lia.
      * intros E. destruct H8 as [? ?]; [lia|]. split; [lia|done].
    + rewrite decide_False by congruence. by apply H2.
  - intros x Hx. rewrite Hjobs in Hx. apply lookup_insert_None in Hx as [Hx Hne].
    rewrite Hp, Hf, Ho, decide_False by congruence. by apply H3.
  - intros x f. rewrite Hf, Ho, Hcl. intros Hx. destruct (decide (x = id)) as [->|]; [congruence|by eapply H4].
Qed.

(** ** The fork *)

Lemma wired_ext W due owed owed' : (forall x, owed' x = owed x) -> wired W due owed -> wired W due owed'.
Proof.
  intros Ho [H1 H2 H3 H4]. constructor; [done|intros c j Hj; rewrite Ho; by apply H2|intros c Hc; rewrite Ho; by apply H3|].
  intros c f Hf. rewrite Ho. by eapply H4.
Qed.

(** How many of [es] are edges into [c]. *)
Definition edges_to (es : list (Z * Z * policy)) (c : Z) : Z :=
  Z.of_nat (length (filter (fun e => e.1.1 = c) es)).

Lemma wired_edges es W W' due owed owed' :
  insert_edges es W = Ok W' ->
  (forall c, edges_to es c <= owed c) -> (forall c, owed' c = owed c - edges_to es c) ->
  wired W due owed -> wired W' due owed'.
Proof.
  revert W owed. induction es as [|[[c p] pol] es IH]; intros W owed Hi Hle Ho Hw; cbn [insert_edges] in Hi.
  - simplify_eq. eapply wired_ext; [|done]. intros x. rewrite Ho. unfold edges_to. simpl. lia.
  - destruct (insert_edge c p pol W) as [W1|] eqn:E; [|done]. cbn in Hi.
    assert (Hto : forall x, edges_to ((c, p, pol) :: es) x = edges_to es x + if decide (x = c) then 1 else 0).
    { intros x. unfold edges_to. destruct (decide (x = c)) as [->|Hne].
      - rewrite filter_cons_True by done. simpl. lia.
      - rewrite filter_cons_False by (simpl; congruence). lia. }
    apply (IH W1 (fun x => if decide (x = c) then owed c - 1 else owed x) Hi).
    + intros x. specialize (Hle x). rewrite Hto in Hle. destruct (decide (x = c)) as [->|]; lia.
    + intros x. rewrite Ho, Hto. destruct (decide (x = c)) as [->|]; lia.
    + eapply wired_edge; [exact E| |done|done]. specialize (Hle c). rewrite Hto, decide_True in Hle by done.
      unfold edges_to in Hle. lia.
Qed.

Lemma wired_fork_children now flow parent pstep k ids W W' due owed :
  fork_children now flow parent pstep k ids W = Ok W' ->
  (exists j, wjobs W !! parent = Some j /\ status j = succeeded) ->
  wired W due owed -> wired W' due owed /\ (exists j, wjobs W' !! parent = Some j /\ status j = succeeded).
Proof.
  unfold fork_children. intros Hi. revert W Hi. induction (zip ids (fk_children k)) as [|[id ch] l IH]; intros W Hi Hpar Hw.
  { simpl in Hi. by simplify_eq. }
  cbn [each] in Hi. destruct (fork_child _ _ _ _ _ _ W) as [W1|] eqn:E; [|done]. cbn in Hi. apply (IH W1 Hi).
  - clear Hi IH Hw. cbn in E. destruct (insert_row _ _ _ _ _ _) as [W2|] eqn:E2; [|done]. cbn in E.
    apply insert_row_ok in E2 as (Hn & Hj & _ & _). apply insert_edge_ok in E as (_ & Hj1 & _).
    destruct Hpar as (j & Hp & Hs). exists j. rewrite Hj1, Hj, lookup_insert_ne; [done|congruence].
  - cbn in E. destruct (insert_row _ _ _ _ _ _) as [W2|] eqn:E2; [|done]. cbn in E.
    assert (Hw2 : wired W2 due owed).
    { eapply wired_row; [exact E2|done|done| |exact Hw]. intros x. cbn. destruct (decide (x = id)) as [->|]; [|done].
      apply insert_row_ok in E2 as (Hn & _). by destruct (wi_none _ _ _ Hw id Hn) as (_ & ? & _). }
    apply insert_row_ok in E2 as (Hn & Hj & _ & _).
    eapply wired_free_edge; [exact E| |by rewrite Hj, lookup_insert_eq|done|done].
    destruct Hpar as (j & Hp & Hs). unfold stuck, is_status. rewrite Hj, lookup_insert_ne by congruence. by rewrite Hp, Hs.
Qed.

Lemma alter_row (f : job -> job) id j (m : gmap Z job) : m !! id = Some j -> alter f id m = <[id := f j]> m.
Proof.
  intros Hj. apply map_eq. intros i. destruct (decide (id = i)) as [<-|Hne].
  - by rewrite lookup_alter_eq, Hj, lookup_insert_eq.
  - by rewrite lookup_alter_ne, lookup_insert_ne.
Qed.

Lemma rows_at_row W flow step id : id ∈ rows_at W flow step -> exists j, wjobs W !! id = Some j.
Proof.
  unfold rows_at. intros Hin. apply list_elem_of_fmap in Hin as ([i j] & -> & Hx).
  apply list_elem_of_filter in Hx as [_ Hx]. apply elem_of_in_order in Hx. eauto.
Qed.

Lemma wired_join now flow parent pstep k js fresh W W' join due owed owed' :
  fork_join now flow parent pstep k js fresh W = Ok (W', join) ->
  (forall j, wjobs W !! join = Some j -> fires W !! join = None /\ 0 < deps_pending j) ->
  (forall x, owed' x = owed x + if decide (x = join) then Z.of_nat (length (fk_children k)) else 0) ->
  wired W due owed -> wired W' due owed'.
Proof.
  unfold fork_join. destruct (rows_at W flow (js_step js)) as [|jid l] eqn:Er.
  - destruct (insert_row _ _ _ _ _ _) as [W1|] eqn:E; [|done]. cbn. intros [= <- <-] _ Ho Hw.
    eapply wired_row; [exact E|done|cbn; lia| |exact Hw]. intros x. rewrite Ho. cbn. destruct (decide (x = fresh)) as [->|]; [|lia].
    apply insert_row_ok in E as (Hn & _). destruct (wi_none _ _ _ Hw fresh Hn) as (_ & -> & _). lia.
  - intros [= <- <-] Hwait Ho Hw. destruct (rows_at_row W flow (js_step js) jid) as (j & Hj); [rewrite Er; by left|].
    destruct (Hwait j Hj) as [Hnf Hpos].
    eapply (wired_reserve jid (Z.of_nat (length (fk_children k))) j); [exact Hj|lia|exact Hnf|by left| | | | | | |exact Hw];
      [| |unfold wjobs; cbn; by rewrite (alter_row _ jid j) by exact Hj|done|done|]; [done|done|].
    intros x. rewrite Ho. destruct (decide (x = jid)) as [->|]; lia.
Qed.

Lemma edges_to_join join pol ids c :
  edges_to (map (fun id => (join, id, pol)) ids) c = if decide (c = join) then Z.of_nat (length ids) else 0.
Proof.
  unfold edges_to. induction ids as [|id ids IH]; [by destruct (decide _)|]. cbn [map]. destruct (decide (c = join)) as [->|Hne].
  - rewrite filter_cons_True by done. cbn [length]. rewrite Nat2Z.inj_succ. rewrite IH. lia.
  - rewrite filter_cons_False by (cbn; congruence). by rewrite IH.
Qed.

(** A fire finds nothing owed and no parent stuck. *)
Lemma wired_fire fid join flow by_ W W' due owed :
  fire fid join flow by_ W = Some W' -> wired W due owed -> wired W' due owed.
Proof.
  unfold fire. destruct (wjobs W !! join) as [j|] eqn:Hj; [|done]. destruct (fires W !! join) eqn:Hf; [done|].
  destruct (_ && _ && _) eqn:E; [|done]. intros [= <-] [H1 H2 H3 H4]. zbool.
  constructor; [done|exact H2| |].
  - intros c Hc. destruct (H3 c Hc) as (? & ? & ?). split_and!; [done..|]. cbn. apply lookup_insert_None. split; [done|].
    intros <-. unfold wjobs in *. cbn in Hc. congruence.
  - intros c f Hc. cbn in Hc. apply lookup_insert_Some in Hc as [[<- _]|[_ Hc]]; [|by eapply H4].
    destruct (H2 join j Hj) as (_ & _ & _ & H8). by apply H8.
Qed.

(** A fork whose consumers were counted when the run was created, and whose join, if it is
    adopted, still waits. *)
Definition fork_wired (now flow parent : Z) (pstep : string) (k : ForkSpec) (ids : list Z) (jid : Z) (W : wdb)
    (owed owed' : Z -> Z) : Prop :=
  length ids = length (fk_children k) /\
  match fk_join k with
  | None => forall x, owed' x = owed x
  | Some js => forall W1 W2 W3 join,
      fork_children now flow parent pstep k ids W = Ok W1 ->
      fork_join now flow parent pstep k js jid W1 = Ok (W2, join) ->
      fork_join_edges k js ids join W2 = Ok W3 ->
      (forall j, wjobs W1 !! join = Some j -> fires W1 !! join = None /\ 0 < deps_pending j) /\
      (forall c, edges_to (consumer_edges W3 flow join (js_consumers js)) c <= owed c) /\
      (forall c, owed' c = owed c - edges_to (consumer_edges W3 flow join (js_consumers js)) c)
  end.

Lemma wired_fork now flow parent pstep k ids jid fid W W' due owed owed' :
  insert_fork now flow parent pstep k ids jid fid W = Ok W' ->
  fork_wired now flow parent pstep k ids jid W owed owed' ->
  (exists j, wjobs W !! parent = Some j /\ status j = succeeded) ->
  wired W due owed -> wired W' due owed'.
Proof.
  unfold insert_fork, fork_wired. intros Hi [Hlen Hk] Hpar Hw. destruct (validate_fork k); [|done]. cbn [rbind] in Hi.
  destruct (fork_children _ _ _ _ _ _ W) as [W1|] eqn:E1; [|done]. cbn [rbind] in Hi.
  destruct (wired_fork_children _ _ _ _ _ _ _ _ _ _ E1 Hpar Hw) as [Hw1 _].
  destruct (fk_join k) as [js|]; [|by simplify_eq; eapply wired_ext].
  destruct (fork_join _ _ _ _ _ _ _ W1) as [[W2 join]|] eqn:E2; [|done]. cbn [rbind fst snd] in Hi.
  destruct (fork_join_edges _ _ _ _ W2) as [W3|] eqn:E3; [|done]. cbn [rbind] in Hi.
  destruct (Hk W1 W2 W3 join eq_refl E2 E3) as (Hwait & Hle & Ho).
  pose proof (wired_join _ _ _ _ _ _ _ _ _ _ due owed _ E2 Hwait (fun x => eq_refl) Hw1) as Hw2.
  assert (Hto : forall c, edges_to (map (fun id => (join, id, js_policy js)) (take (length (fk_children k)) ids)) c =
                          if decide (c = join) then Z.of_nat (length (fk_children k)) else 0).
  { intros c. rewrite edges_to_join, length_take, Hlen. by rewrite Nat.min_id. }
  assert (Hnn : forall c, 0 <= owed c).
  { intros c. destruct (wjobs W !! c) eqn:Ec; [by apply (wi_row _ _ _ Hw) in Ec as (_ & ? & _)|].
    by apply (wi_none _ _ _ Hw) in Ec as (_ & -> & _). }
  assert (Hw3 : wired W3 due owed).
  { eapply (wired_edges _ _ _ _ _ _ E3); [| |exact Hw2]; intros c; rewrite Hto; specialize (Hnn c); lia. }
  destruct (insert_edges (consumer_edges W3 flow join (js_consumers js)) W3) as [W4|] eqn:E4; [|done]. cbn [rbind] in Hi.
  pose proof (wired_edges _ _ _ _ _ _ E4 Hle Ho Hw3) as Hw4.
  destruct (fk_children k); [|by simplify_eq]. simplify_eq.
  destruct (fire fid join flow "born-zero" W4) as [W5|] eqn:E5; cbn; [by eapply wired_fire|done].
Qed.

(** ** The transactions *)

Lemma terminal_mark_landed clk id f o res cls msg tb d d' u :
  terminal_mark clk id f o res cls msg tb d = Ok (d', Some u) ->
  exists j, jobs d !! id = Some j /\ status j = running /\ jobs d' = <[id := u]> (jobs d) /\
    status u = fin_status o /\ deps_pending u = deps_pending j.
Proof.
  unfold terminal_mark. destruct (select_row d id (JOB_FENCE f)) as [j|] eqn:Es; [|by intros [=]]. cbv zeta. intros Ht. inv_ok.
  simplify_eq. apply select_row_some in Es as [Hj Hf]. apply fence_running in Hf as (Hr & _).
  exists j. split_and!; [done..| |done|done]. cbn.
  match goal with E : insert_attempt _ _ _ _ _ _ _ _ _ _ _ _ = _ |- _ => apply insert_attempt_ledger in E as [Hl _] end.
  rewrite (lw_jobs _ _ _ _ Hl). done.
Qed.

Lemma terminal_mark_fenced clk id f o res cls msg tb d d' :
  terminal_mark clk id f o res cls msg tb d = Ok (d', None) -> d' = d.
Proof.
  unfold terminal_mark. destruct (select_row d id (JOB_FENCE f)); [|by intros [=]]. cbv zeta. intros Ht. inv_ok. by simplify_eq.
Qed.

(** Nothing but the columns and the ledger moved. *)
Lemma wired_same W W' due owed :
  wjobs W' = wjobs W -> edges W' = edges W -> fires W' = fires W -> wired W due owed -> wired W' due owed.
Proof. intros Hj. by apply wired_tame, tame_rows_same. Qed.

(** The finalize without its fork. *)
Definition unforked (z : finalize) : finalize :=
  {| z_flow := z_flow z; z_job := z_job z; z_step := z_step z; z_map := z_map z; z_fence := z_fence z;
     z_outcome := z_outcome z; z_result := z_result z; z_class := z_class z; z_message := z_message z;
     z_traceback := z_traceback z; z_fork := None; z_ledger := z_ledger z |}.

(** A finalize that forks has succeeded, and its fork is wired in the marked database. *)
Definition tx1_wired (clk : nat -> Z) (ids : list Z) (jid fid : Z) (z : finalize) (W : wdb) (owed owed' : Z -> Z) : Prop :=
  match z_fork z with
  | None => forall x, owed' x = owed x
  | Some k => z_outcome z = F_succeeded /\
      forall W1, run_tx1 clk ids jid fid (unforked z) W = Ok (W1, true) ->
        fork_wired (clk 8%nat) (z_flow z) (z_job z) (z_step z) k ids jid W1 owed owed'
  end.

Lemma wired_tx1 clk ids jid fid z W W' due owed owed' :
  run_tx1 clk ids jid fid z W = Ok (W', true) -> tx1_wired clk ids jid fid z W owed owed' ->
  wired W due owed -> wired W' (<[z_job z := z]> due) owed'.
Proof.
  unfold tx1_wired, run_tx1. intros Hi Hk Hw. cbn [unforked z_job z_fence z_outcome z_result z_class z_message z_traceback
    z_fork z_ledger z_flow z_step z_map] in Hk.
  destruct (terminal_mark _ _ _ _ _ _ _ _ _) as [[d1 [u|]]|] eqn:E; cbn [lift_db rbind] in Hi, Hk; [|by simplify_eq|done].
  destruct (terminal_mark_landed _ _ _ _ _ _ _ _ _ _ _ E) as (j & Hj & Hr & Hjobs & Hu & Hd).
  assert (Hw1 : wired (W <| base := d1 |>) (<[z_job z := z]> due) owed).
  { eapply wired_mark; [exact Hj|by rewrite Hr|exact Hu|exact Hd|exact Hjobs|exact Hw]. }
  set (W1 := ledger_terminal _ _ _ _ _ _ _ _ _ _ _) in Hi, Hk.
  assert (Hw2 : wired W1 (<[z_job z := z]> due) owed) by (eapply wired_same; [| | |exact Hw1]; done).
  destruct (z_fork z) as [k|]; [|by simplify_eq; eapply wired_ext]. destruct Hk as [Ho Hk].
  destruct (insert_fork _ _ _ _ _ _ _ _ W1) as [W2|] eqn:E2; [|done]. cbn in Hi. simplify_eq.
  eapply (wired_fork _ _ _ _ _ _ _ _ _ _ _ _ _ E2); [by apply Hk| |exact Hw2].
  exists u. split; [|by rewrite Hu, Ho]. unfold W1, wjobs. cbn. rewrite Hjobs. by rewrite lookup_insert_eq.
Qed.

Lemma wired_tx1_fenced clk ids jid fid z W W' due owed :
  run_tx1 clk ids jid fid z W = Ok (W', false) -> wired W due owed -> wired W' due owed.
Proof.
  unfold run_tx1. intros Hi. destruct (terminal_mark _ _ _ _ _ _ _ _ _) as [[d1 [u|]]|] eqn:E; cbn [lift_db rbind] in Hi; [| |done].
  - destruct (z_fork z); [|by simplify_eq]. destruct (insert_fork _ _ _ _ _ _ _ _ _); by simplify_eq.
  - simplify_eq. by apply wired_same.
Qed.

(** The cascade blocks waiting rows, cancels live peers and fails a live root. *)
Lemma cascade_tame clk parent flow step W : tame_rows W (fail_closed_cascade clk parent flow step W).
Proof.
  apply tame_rows_map. intros id j Hj. case_match; [done|]. case_match.
  { split; [done|]. unfold cascade_peer in *. zbool. congruence. }
  case_match; [|reflexivity]. split; [done|]. zbool. congruence.
Qed.

Lemma append_failures_same (f : Z * policy -> FailureInfo) len l W :
  let W' := foldl (fun W x => append_failure len (f x) x.1 W) W l in
  wjobs W' = wjobs W /\ edges W' = edges W /\ fires W' = fires W.
Proof. revert W. induction l as [|x l IH]; intros W; [done|]. cbn. destruct (IH (append_failure len (f x) x.1 W)) as (-> & -> & ->). done. Qed.

Lemma wired_resolve len clk z W due owed : wired W due owed -> wired (resolve_failed_parent len clk z W) due owed.
Proof.
  intros Hw. unfold resolve_failed_parent.
  set (W1 := fail_closed_cascade clk (z_job z) (z_flow z) (z_step z) W).
  assert (Hw1 : wired W1 due owed) by (eapply wired_tame; [apply cascade_tame|done|done|exact Hw]).
  match goal with |- wired (foldl (fun W' x => append_failure _ (?g x.2) _ _) _ ?l) _ _ =>
    pose proof (append_failures_same (fun x => g x.2) len l W1) as (H1 & H2 & H3) end.
  by eapply wired_same.
Qed.

(** A decrement that is given up only lowers what is due. *)
Lemma wired_drop W due owed p : wired W due owed -> wired W (base.delete p due) owed.
Proof.
  intros [H1 H2 H3 H4]. constructor; [| |done|done].
  - intros q z Hz. apply lookup_delete_Some in Hz as [_ Hz]. by apply H1.
  - intros c j Hj. destruct (H2 c j Hj) as (? & ? & H7 & ?). split_and!; [done..| |done]. intros Hpos. specialize (H7 Hpos).
    assert (Hm : debt W (base.delete p due) c ⊆ debt W due c).
    { apply debt_mono; [by apply tame_rows_same| |done]. intros q [z Hz]. apply lookup_delete_Some in Hz as [_ ->]. eauto. }
    apply map_subseteq_size in Hm. lia.
Qed.

(** The parent a decrement is for is in the debt of the child before and not after. *)
Lemma debt_paid W due owed z c pol :
  wired W due owed -> due !! z_job z = Some z -> parents W c !! z_job z = Some pol ->
  (is_failed (z_outcome z) = true -> absorbing pol = true) ->
  (size (debt W (base.delete (z_job z) due) c) < size (debt W due c))%nat.
Proof.
  intros Hw Hdue Hp Hab. destruct (wi_due _ _ _ Hw _ _ Hdue) as (_ & jp & Hjp & Hsp).
  assert (Hns : stuck W (z_job z) pol = false).
  { unfold stuck, is_status. rewrite Hjp, Hsp, fin_terminal. cbn. destruct (z_outcome z); cbn in *; try done.
    rewrite Hab by done. by rewrite andb_false_r. }
  assert (Hin : debt W due c !! z_job z = Some pol).
  { unfold debt. apply map_lookup_filter_Some. split; [done|]. right. cbn. eauto. }
  apply map_subset_size, map_subset_alt. split.
  - apply debt_mono; [by apply tame_rows_same| |done]. intros q [z' Hz]. apply lookup_delete_Some in Hz as [_ ->]. eauto.
  - exists (z_job z). split; [|by rewrite Hin]. unfold debt. apply map_lookup_filter_None. right. intros pol' Hp'. cbn.
    rewrite Hp in Hp'. simplify_eq. rewrite Hns, lookup_delete_eq. intros [?|[? ?]]; done.
Qed.

(** The decrement pays the due parent off at every child it admits. *)
Lemma wired_decrement W due owed z sel :
  due !! z_job z = Some z -> sel = (if is_failed (z_outcome z) then absorbing else fun _ => true) ->
  wired W due owed -> wired (fst (decrement sel (z_job z) (z_flow z) W)) (base.delete (z_job z) due) owed.
Proof.
  intros Hdue -> Hw. pose proof (wired_drop W due owed (z_job z) Hw) as Hdrop.
  set (due' := base.delete (z_job z) due) in *.
  set (sel := if is_failed (z_outcome z) then absorbing else fun _ => true).
  unfold decrement. destruct (flow_alive W (z_flow z)); [|done]. cbn [fst]. set (W' := set_rows _ W).
  assert (Hrow : forall c, wjobs W' !! c = (fun j => if dec_where sel W (z_job z) c j
                                                    then j <| deps_pending ::= fun n => n - 1 |> else j) <$> wjobs W !! c).
  { intros c. unfold W', wjobs, set_rows. cbn. rewrite map_lookup_imap. by destruct (jobs (base W) !! c). }
  assert (Hs : forall p pol, stuck W' p pol = stuck W p pol).
  { intros p pol. unfold stuck. rewrite Hrow. destruct (wjobs W !! p) as [j|]; [|done]. cbn. unfold is_status. by case_match. }
  assert (Hdebt : forall c, debt W' due' c = debt W due' c).
  { intros c. unfold debt. apply map_filter_ext. intros p pol _. by rewrite Hs. }
  assert (Hcl : forall c, clear W' c <-> clear W c) by (intros c; unfold clear; by setoid_rewrite Hs).
  constructor.
  - intros p z' Hz. destruct (wi_due _ _ _ Hdrop p z' Hz) as (? & j & Hj & ?). split; [done|]. rewrite Hrow, Hj. cbn.
    eexists. split; [done|]. by case_match.
  - intros c u Hu. rewrite Hdebt, Hcl. rewrite Hrow in Hu. destruct (wjobs W !! c) as [j|] eqn:Hj; [|done]. cbn in Hu.
    destruct (dec_where sel W (z_job z) c j) eqn:Ed; simplify_eq; [|by apply (wi_row _ _ _ Hdrop)].
    unfold dec_where in Ed. destruct (parents W c !! z_job z) as [pol|] eqn:Hp; [|done]. zbool.
    destruct (wi_row _ _ _ Hw c j Hj) as (Hc1 & Hc2 & Hc3 & _). specialize (Hc3 ltac:(lia)).
    assert (Hpaid : (size (debt W due' c) < size (debt W due c))%nat).
    { eapply debt_paid; [exact Hw|exact Hdue|exact Hp|].
      intros Ef. match goal with H : sel pol = true |- _ => unfold sel in H; by rewrite Ef in H end. }
    cbn [assign deps_pending]. split_and!; [lia|lia|lia|]. intros E. split; [lia|].
    assert (E0 : debt W due' c = ∅) by (apply map_size_empty_inv; lia).
    intros p pl Hq. destruct (stuck W p pl) eqn:Es; [|done]. exfalso.
    assert (Hbad : debt W due' c !! p = Some pl) by (unfold debt; apply map_lookup_filter_Some; split; [done|by left]).
    by rewrite E0 in Hbad.
  - intros c. rewrite Hrow. intros Hc. destruct (wjobs W !! c) eqn:E; [done|]. by apply (wi_none _ _ _ Hw).
  - intros c f Hf. rewrite Hcl. by eapply (wi_fired _ _ _ Hw).
Qed.

Lemma wired_fire_hits ok flow fids hits W W' due owed :
  fire_hits ok flow fids hits W = Ok W' -> wired W due owed -> wired W' due owed.
Proof.
  revert W. induction hits as [|[join n] hits IH]; intros W Hi Hw; cbn in Hi; [by simplify_eq|].
  destruct (n =? 0); [|eauto]. unfold fire_and_deliver in Hi. destruct (fire _ _ _ _ W) as [W1|] eqn:E; [|by eauto].
  destruct (ok join); [|done]. cbn in Hi. apply (IH _ Hi). eapply wired_same; [| | |by eapply wired_fire]; done.
Qed.

Lemma wired_tx2 len ok clk fids z W W' due owed :
  run_tx2 len ok clk fids z W = Ok W' -> due !! z_job z = Some z ->
  wired W due owed -> wired W' (base.delete (z_job z) due) owed.
Proof.
  unfold run_tx2. intros Hi Hdue Hw.
  set (W1 := if is_failed (z_outcome z) then resolve_failed_parent len clk z W else W) in Hi.
  assert (Hw1 : wired W1 due owed) by (unfold W1; destruct (is_failed (z_outcome z)); [by apply wired_resolve|done]).
  pose proof (wired_decrement W1 due owed z _ Hdue eq_refl Hw1) as Hw2.
  destruct (decrement _ _ _ W1) as [W2 hits]. cbn in Hw2. by eapply wired_fire_hits.
Qed.

(** ** The sweep, the drain and the inserts *)

(** A join no due finalize feeds and no edge is owed to. *)
Definition settled (W : wdb) (due : gmap Z finalize) (owed : Z -> Z) (ids : list Z) : Prop :=
  forall c, c ∈ ids -> owed c = 0 /\ forall p, is_Some (parents W c !! p) -> due !! p = None.

Lemma count_edges_zero (f : Z -> policy -> bool) m :
  count_edges f m = 0 -> forall p pol, m !! p = Some pol -> f p pol = false.
Proof.
  unfold count_edges. intros Hz p pol Hp. destruct (f p pol) eqn:E; [|done]. exfalso.
  assert (Hin : (p, pol) ∈ filter (fun x => f x.1 x.2 = true) (map_to_list m)).
  { apply list_elem_of_filter. split; [done|]. by apply elem_of_map_to_list. }
  destruct (filter _ _); [by apply elem_of_nil in Hin|]. simpl in Hz. lia.
Qed.

Lemma count_edges_size (f : Z -> policy -> bool) m :
  count_edges f m = Z.of_nat (size (filter (fun x => f x.1 x.2 = true) m)).
Proof.
  unfold count_edges. f_equal. rewrite <- length_map_to_list. apply Permutation_length.
  rewrite map_filter_alt. rewrite map_to_list_to_map; [done|]. apply NoDup_fmap_fst.
  - intros i x y Hx Hy. apply list_elem_of_filter in Hx as [_ Hx]. apply list_elem_of_filter in Hy as [_ Hy].
    apply elem_of_map_to_list in Hx, Hy. congruence.
  - apply NoDup_filter, NoDup_map_to_list.
Qed.

Lemma orphaned_false k : orphaned k = false -> missing_parents k <= 0 /\ edge_count k <> 0.
Proof. unfold orphaned. intros H. apply orb_false_elim in H as [H1 H2]. zbool. done. Qed.

Lemma count_edges_pos f m : 0 <= count_edges f m.
Proof. unfold count_edges. lia. Qed.

(** With none missing and none failed that is required, the stuck parents are the live ones. *)
Lemma stuck_live W c :
  missing_parents (counts_of W c) = 0 -> failed_required (counts_of W c) = 0 ->
  forall p pol, parents W c !! p = Some pol -> stuck W p pol = parent_live W p.
Proof.
  intros Hm Hf p pol Hp. pose proof (count_edges_zero _ _ Hm p pol Hp) as H1.
  pose proof (count_edges_zero _ _ Hf p pol Hp) as H2. unfold stuck, parent_live, parent_missing, parent_failed in *.
  destruct (wjobs W !! p) as [j|]; [|done]. rewrite H2. by rewrite orb_false_r.
Qed.

Lemma debt_live W due owed ids c :
  settled W due owed ids -> c ∈ ids ->
  missing_parents (counts_of W c) = 0 -> failed_required (counts_of W c) = 0 ->
  Z.of_nat (size (debt W due c)) = unterminal (counts_of W c).
Proof.
  intros Hs Hin Hm Hf. destruct (Hs c Hin) as [_ Hdue]. cbn [counts_of unterminal]. rewrite count_edges_size.
  do 2 f_equal. unfold debt. apply map_filter_ext. intros p pol Hp. cbn. rewrite (stuck_live W c Hm Hf p pol Hp).
  split; [|by left]. intros [H|H]; [done|]. rewrite Hdue in H by eauto. by destruct H.
Qed.

Lemma clear_live W c :
  missing_parents (counts_of W c) = 0 -> failed_required (counts_of W c) = 0 -> unterminal (counts_of W c) = 0 ->
  clear W c.
Proof.
  intros Hm Hf Hu p pol Hp. rewrite (stuck_live W c Hm Hf p pol Hp). exact (count_edges_zero _ _ Hu p pol Hp).
Qed.

(** What the statement leaves of a row: the counter alone, or everything but the counter. *)
Lemma rederive_row_cases W locked id j :
  (exists n, rederive_row W locked id j = j <| deps_pending := n |> /\ id ∈ locked /\ n = unterminal (counts_of W id) /\
     missing_parents (counts_of W id) = 0 /\ failed_required (counts_of W id) = 0) \/
  (deps_pending (rederive_row W locked id j) = deps_pending j /\ status (rederive_row W locked id j) = status j).
Proof.
  unfold rederive_row, rederive_arm. set (k := counts_of W id).
  destruct (bool_decide (id ∈ locked)) eqn:El; cbn [andb]; [|repeat case_match; simplify_eq; by right].
  apply bool_decide_eq_true in El. destruct (orphaned k) eqn:Eo; [by right|]. apply orphaned_false in Eo as [Hm _].
  destruct (0 <? failed_required k) eqn:Ef; [by right|]. destruct (fenced_where W id j).
  { right. by destruct (failed_parent_of W id). }
  destruct (negb _); [|by right]. left. eexists. split_and!; [done..| |].
  - assert (0 <= missing_parents k) by apply count_edges_pos. lia.
  - assert (0 <= failed_required k) by apply count_edges_pos. zbool. lia.
Qed.

Lemma wired_rederive st held n W due owed :
  settled W due owed (rederive_locked st held n W) -> wired W due owed ->
  wired (fst (rederive_sweep st held n W)) due owed.
Proof.
  intros Hs [H1 H2 H3 H4]. unfold rederive_sweep. set (locked := rederive_locked st held n W) in *. cbn [fst].
  set (W' := set_rows _ W).
  assert (Hrow : forall c, wjobs W' !! c = rederive_row W locked c <$> wjobs W !! c).
  { intros c. unfold W', wjobs, set_rows. cbn. rewrite map_lookup_imap. by destruct (jobs (base W) !! c). }
  assert (Hst : forall c j, status (rederive_row W locked c j) = status j).
  { intros c j. destruct (rederive_row_cases W locked c j) as [(m & -> & _)|[_ ?]]; done. }
  assert (Hk : forall p pol, stuck W' p pol = stuck W p pol).
  { intros p pol. unfold stuck, is_status. rewrite Hrow. destruct (wjobs W !! p) as [j|]; [|done]. cbn. by rewrite Hst. }
  assert (Hdebt : forall c, debt W' due c = debt W due c).
  { intros c. unfold debt. apply map_filter_ext. intros p pol _. by rewrite Hk. }
  assert (Hcl : forall c, clear W' c <-> clear W c) by (intros c; unfold clear; by setoid_rewrite Hk).
  constructor.
  - intros p z Hz. destruct (H1 p z Hz) as (? & j & Hj & ?). split; [done|]. rewrite Hrow, Hj. cbn.
    eexists. split; [done|]. by rewrite Hst.
  - intros c u Hu. rewrite Hdebt, Hcl. rewrite Hrow in Hu. destruct (wjobs W !! c) as [j|] eqn:Hj; [|done]. cbn in Hu.
    simplify_eq. destruct (rederive_row_cases W locked c j) as [(m & -> & Hin & -> & Hm & Hf)|[-> _]]; [|by apply H2].
    cbn [assign deps_pending]. destruct (Hs c Hin) as [-> _]. rewrite (debt_live W due owed locked c) by done.
    split_and!; [apply count_edges_pos|done|lia|]. intros E. split; [done|]. by apply clear_live.
  - intros c. rewrite Hrow. intros Hc. destruct (wjobs W !! c) eqn:E; [done|]. by apply H3.
  - intros c f Hf. rewrite Hcl. by eapply H4.
Qed.

Lemma ledger_firable_inv k : ledger_firable k = true -> missing_parents k = 0 /\ unterminal k = 0 /\ failed_required k = 0.
Proof. unfold ledger_firable. intros. zbool. done. Qed.

Lemma wired_record_fire W due owed x :
  clear W x.1 -> owed x.1 = 0 -> is_Some (wjobs W !! x.1) -> wired W due owed -> wired (record_fire W x) due owed.
Proof.
  intros Hc Ho [j Hj] [H1 H2 H3 H4]. constructor; [done|exact H2| |].
  - intros c Hn. destruct (H3 c Hn) as (? & ? & ?). split_and!; [done..|]. cbn. apply lookup_insert_None. split; [done|].
    intros <-. unfold wjobs in *. cbn in Hn. congruence.
  - intros c f Hf. cbn in Hf. apply lookup_insert_Some in Hf as [[<- _]|[_ Hf]]; [done|by eapply H4].
Qed.

(** The joins the sweep fires it locked, and the ledger calls them firable. *)
Lemma sweep_wins_inv st held n fids W x :
  x ∈ sweep_wins st held n fids W ->
  x.1 ∈ sweep_fire_locked st held n W /\ ledger_firable (counts_of W x.1) = true /\ is_Some (wjobs W !! x.1).
Proof.
  intros Hx. apply list_elem_of_filter in Hx as [[Hj _] Hx]. destruct x as [i f]. apply elem_of_zip_l in Hx.
  apply list_elem_of_filter in Hx as [Hk Hl]. cbn in *. split_and!; [done..|]. by destruct (wjobs W !! i).
Qed.

Lemma wired_record_fires W0 due owed l W :
  (forall x, x ∈ l -> clear W0 x.1 /\ owed x.1 = 0 /\ is_Some (wjobs W0 !! x.1)) ->
  wjobs W = wjobs W0 -> edges W = edges W0 -> wired W due owed ->
  let W' := foldl record_fire W l in wired W' due owed /\ wjobs W' = wjobs W0 /\ edges W' = edges W0.
Proof.
  revert W. induction l as [|x l IH]; intros W Hl Hj He Hw; [done|]. cbn. apply IH; [|done..|].
  - intros y Hy. apply Hl. by right.
  - destruct (Hl x) as (Hc & ? & ?); [by left|]. apply wired_record_fire; [|done|by rewrite Hj|done].
    apply (clear_jobs W0 W); [done| |done]. unfold parents. by rewrite He.
Qed.

Lemma wired_sweep_fire st held n fids W due owed :
  settled W due owed (sweep_fire_locked st held n W) -> wired W due owed ->
  wired (fst (sweep_fire st held n fids W)) due owed.
Proof.
  intros Hs Hw. cbn. apply (wired_record_fires W); [|done..]. intros x Hx.
  destruct (sweep_wins_inv _ _ _ _ _ _ Hx) as (Hl & Hk & Hj). apply ledger_firable_inv in Hk as (? & ? & ?).
  split_and!; [by apply clear_live|by apply Hs|done].
Qed.

Lemma run_bodies_tame body wins W W' :
  run_bodies body wins W = Ok W' -> tame_rows W W' /\ edges W' = edges W /\ fires W' = fires W.
Proof.
  revert W. induction wins as [|[join fid] wins IH]; intros W Hi; cbn in Hi; [simplify_eq; split; [by apply tame_rows_same|done]|].
  destruct (body join); [by apply IH|done| |by apply IH].
  destruct (IH _ Hi) as (Ht & -> & ->). split; [|done]. intros id. eapply option_Forall2_trans; [| |apply Ht]; [apply _|].
  unfold wjobs. cbn. destruct (decide (join = id)) as [<-|Hne].
  - rewrite lookup_alter_eq. destruct (jobs (base W) !! join); constructor. done.
  - rewrite lookup_alter_ne by done. destruct (jobs (base W) !! id); constructor. reflexivity.
Qed.

Lemma take_elem {A} n (l : list A) x : x ∈ take n l -> x ∈ l.
Proof. intros Hx. rewrite <- (take_drop n l). apply elem_of_app. by left. Qed.

Lemma NoDup_ids {A} n (P : Z * A -> Prop) `{!forall x, Decision (P x)} (m : gmap Z A) :
  NoDup (map fst (take n (filter P (in_order m)))).
Proof.
  apply NoDup_fmap_fst.
  - intros i x y Hx Hy. apply take_elem in Hx, Hy.
    apply list_elem_of_filter in Hx as [_ Hx]. apply list_elem_of_filter in Hy as [_ Hy].
    apply elem_of_in_order in Hx, Hy. simpl in *. congruence.
  - eapply sublist_NoDup; [|apply sublist_take]. apply NoDup_filter. unfold in_order. rewrite merge_sort_Permutation.
    apply NoDup_map_to_list.
Qed.

Lemma root_maintain_tame clk held n W :
  tame_rows W (root_maintain clk held n W) /\ edges (root_maintain clk held n W) = edges W /\
  fires (root_maintain clk held n W) = fires W.
Proof.
  unfold root_maintain. set (l := root_ids held n W).
  assert (Hnd : NoDup l) by apply NoDup_ids.
  assert (Hrun : forall id, id ∈ l -> exists j, wjobs W !! id = Some j /\ status j = running).
  { intros id Hid. apply list_elem_of_fmap in Hid as ([i j] & -> & Hx). apply take_elem, list_elem_of_filter in Hx as [(_ & Hr & _) Hx].
    apply elem_of_in_order in Hx. eauto. }
  assert (Hgen : forall W1, tame_rows W W1 -> edges W1 = edges W -> fires W1 = fires W ->
    (forall id, id ∈ l -> wjobs W1 !! id = wjobs W !! id) ->
    let W2 := foldl (maintain_root clk W) W1 l in tame_rows W W2 /\ edges W2 = edges W /\ fires W2 = fires W);
    [|apply Hgen; [by apply tame_rows_same|done..]].
  induction l as [|id l IH]; intros W1 Ht He Hf Hsame; [done|]. apply NoDup_cons in Hnd as [Hni Hnd]. cbn.
  assert (Hrows : forall i, i <> id -> wjobs (maintain_root clk W W1 id) !! i = wjobs W1 !! i).
  { intros i Hi. unfold maintain_root. repeat case_match; try done. unfold wjobs. cbn. by rewrite lookup_insert_ne. }
  apply IH; [done|intros i Hi; apply Hrun; by right| | | |].
  - intros i. destruct (decide (i = id)) as [->|Hne]; [|rewrite Hrows by done; apply Ht].
    destruct (Hrun id) as (j & Hj & Hr); [by left|]. specialize (Hsame id ltac:(by left)). rewrite Hj in *.
    unfold maintain_root. rewrite Hsame. destruct (maintained W id); [|rewrite Hsame; by constructor].
    unfold wjobs. cbn. rewrite lookup_insert_eq. constructor. split; [done|]. by rewrite Hr.
  - unfold maintain_root. by repeat case_match.
  - unfold maintain_root. by repeat case_match.
  - intros i Hi. rewrite Hrows; [apply Hsame; by right|]. by intros ->.
Qed.

Lemma wired_sweep body clk st held n mint W W' due owed :
  sweep_join_rederive body clk st held n mint W = Ok W' ->
  settled W due owed (rederive_locked st held n W) ->
  settled W due owed (sweep_fire_locked st held n (fst (rederive_sweep st held n W))) ->
  wired W due owed -> wired W' due owed.
Proof.
  unfold sweep_join_rederive. intros Hi Hs1 Hs2 Hw. pose proof (wired_rederive st held n W due owed Hs1 Hw) as Hw1.
  destruct (rederive_sweep st held n W) as [W1 k] eqn:E. cbn [fst] in *.
  assert (He : edges W1 = edges W) by (unfold rederive_sweep in E; by simplify_eq).
  assert (Hfin : forall W2, wired W2 due owed -> wired (root_maintain clk held n W2) due owed).
  { intros W2 Hw2. destruct (root_maintain_tame clk held n W2) as (? & ? & ?). by eapply wired_tame. }
  destruct (bool_decide (k = 0%nat)); [cbn in Hi; simplify_eq; auto|].
  pose proof (wired_sweep_fire st held n (map mint (seq 0 k)) W1 due owed) as Hw2.
  destruct (sweep_fire _ _ _ _ W1) as [W2 wins]. cbn [fst] in Hw2.
  destruct (run_bodies body wins W2) as [W3|] eqn:E3; [|done]. cbn in Hi. simplify_eq. apply Hfin.
  destruct (run_bodies_tame _ _ _ _ E3) as (? & ? & ?).
  assert (Hw3 : wired W3 due owed); [|by eapply wired_same; [| | |exact Hw3]].
  eapply wired_tame; [done..|]. apply Hw2; [|done]. intros c Hc. unfold parents. rewrite He. by apply Hs2.
Qed.

(** ** The drain and the inserts *)

Lemma wired_drain now n ids W W' k due owed :
  drain_outbox now n ids W = Ok (W', k) -> wired W due owed -> wired W' due owed.
Proof.
  unfold drain_outbox. set (l := zip ids _). intros Hi Hw. destruct (each (drain_row now) l W) as [W1|] eqn:E; [|done].
  cbn in Hi. simplify_eq. apply (wired_same W1); [done..|]. clearbody l. clear -E Hw. revert W E Hw.
  induction l as [|[id o] l IH]; intros W E Hw; cbn in E; [by simplify_eq|].
  destruct (arbiter W !! drain_key o); [cbn in E; exact (IH W E Hw)|].
  destruct (insert_row _ _ _ _ _ W) as [W2|] eqn:E2; [|done]. cbn in E. apply (IH _ E).
  eapply wired_row; [exact E2|done|done| |exact Hw]. intros x. cbn. destruct (decide (x = id)) as [->|]; [|done].
  apply insert_row_ok in E2 as (Hn & _). by destruct (wi_none _ _ _ Hw id Hn) as (_ & ? & _).
Qed.

Lemma wired_insert_node now id s W W' due owed owed' :
  insert_node now id s W = Ok W' ->
  (forall x, owed' x = if decide (x = id) then n_deps s - Z.of_nat (length (n_parents s)) else owed x) ->
  wired W due owed -> wired W' due owed'.
Proof.
  unfold insert_node. intros Hi Ho Hw. destruct (n_deps s <? 0) eqn:E0; [done|].
  destruct (match n_parents s with [] => false | _ => _ end) eqn:Ep; [done|].
  destruct (insert_row _ _ _ _ _ W) as [W1|] eqn:E1; [|done]. cbn [rbind] in Hi. zbool.
  assert (Hlen : Z.of_nat (length (n_parents s)) <= n_deps s).
  { destruct (n_parents s); [simpl; lia|]. apply negb_false_iff in Ep. zbool. lia. }
  assert (Hto : forall c, edges_to (map (fun p => (id, p, n_policy s)) (n_parents s)) c =
                          if decide (c = id) then Z.of_nat (length (n_parents s)) else 0).
  { intros c. apply edges_to_join. }
  eapply (wired_edges _ _ _ _ (fun x => if decide (x = id) then n_deps s else owed x) _ Hi);
    [| |by eapply wired_row; [exact E1|destruct (0 <? n_deps s)|destruct (0 <? n_deps s)|..]].
  - intros c. rewrite Hto. destruct (decide (c = id)); [lia|].
    destruct (wjobs W !! c) eqn:Ec; [by apply (wi_row _ _ _ Hw) in Ec as (_ & ? & _)|].
    by apply (wi_none _ _ _ Hw) in Ec as (_ & -> & _).
  - intros c. rewrite Ho, Hto. destruct (decide (c = id)); lia.
Qed.

Lemma wired_increment id j W due owed owed' :
  wjobs W !! id = Some j -> fires W !! id = None -> 0 < deps_pending j \/ parents W id = ∅ ->
  (forall x, owed' x = if decide (x = id) then owed id + 1 else owed x) ->
  wired W due owed -> wired (increment_deps id W) due owed'.
Proof.
  intros Hj Hf Hw Ho. eapply (wired_reserve id 1 j); [exact Hj|lia|exact Hf|exact Hw| | | | | |exact Ho];
    [| |unfold wjobs; cbn; by rewrite (alter_row _ id j) by exact Hj|done|done]; done.
Qed.
