(* ===== verification/WorkflowRun.v ===== *)
(** * Workflows: a join waits for its parents

    The engine's transactions as the steps of one run, any of them between the two halves of a
    finalize.  A node that fires or can be claimed has every recorded parent finished and none
    failed that it requires. *)

From Stdlib Require Import ZArith Lia QArith.
From stdpp Require Import base tactics relations list gmap strings sorting.
From S2P Require Import Prelude PyText PyFloat Retry JobRow Terminal Control Sweeps Lifecycle.
From S2P Require Import Reservation ReservationProps Workflow WorkflowProps.

Open Scope Z_scope.

(** ** Runs *)

(** A database, the finalizes between their two transactions, the counts without an edge yet. *)
Record run := { store : wdb; mid : gmap Z finalize; reserved : Z -> Z }.

Definition reserve (id : Z) (n : Z) (owed : Z -> Z) (x : Z) : Z := if decide (x = id) then owed id + n else owed x.

Section runs.
Context `{Rounding}.
Variable items_len : list FailureInfo -> Z.

(** One transaction, under the discipline a join's count relies on.  It holds the runs to four things
    the statements do not enforce themselves: a sweep locks no join with a parent between the two
    halves of its finalize, and none with a count whose edge is still to come ([settled]; without it
    see [sweep_midway_counts_twice] and [sweep_forgets_reserved]); a fork's consumers were counted when
    the run was created, and a join it adopts still waits ([tx1_wired]); a count is added only to a
    join that has not fired and still waits or has no edge; and no operator retries a node that is
    over.  The writes of the dev driver and the loop engine ([workflows/api], [_sql_loop.py]) are not steps. *)
Inductive rstep : run -> run -> Prop :=
| r_job W m o d : step (base W) d -> rstep {| store := W; mid := m; reserved := o |}
                                           {| store := W <| base := d |>; mid := m; reserved := o |}
| r_tx1 clk ids jid fid z W W' m o o' :
    run_tx1 clk ids jid fid z W = Ok (W', true) -> tx1_wired clk ids jid fid z W o o' ->
    rstep {| store := W; mid := m; reserved := o |} {| store := W'; mid := <[z_job z := z]> m; reserved := o' |}
| r_fenced clk ids jid fid z W W' m o :
    run_tx1 clk ids jid fid z W = Ok (W', false) ->
    rstep {| store := W; mid := m; reserved := o |} {| store := W'; mid := m; reserved := o |}
| r_tx2 body_ok clk fids z W W' m o :
    run_tx2 items_len body_ok clk fids z W = Ok W' -> m !! z_job z = Some z ->
    rstep {| store := W; mid := m; reserved := o |} {| store := W'; mid := base.delete (z_job z) m; reserved := o |}
| r_lost p W m o :
    rstep {| store := W; mid := m; reserved := o |} {| store := W; mid := base.delete p m; reserved := o |}
| r_sweep body clk st held n mint W W' m o :
    sweep_join_rederive body clk st held n mint W = Ok W' ->
    settled W m o (rederive_locked st held n W) ->
    settled W m o (sweep_fire_locked st held n (fst (rederive_sweep st held n W))) ->
    rstep {| store := W; mid := m; reserved := o |} {| store := W'; mid := m; reserved := o |}
| r_drain now n ids W W' k m o :
    drain_outbox now n ids W = Ok (W', k) ->
    rstep {| store := W; mid := m; reserved := o |} {| store := W'; mid := m; reserved := o |}
| r_node now id s W W' m o :
    insert_node now id s W = Ok W' ->
    rstep {| store := W; mid := m; reserved := o |}
          {| store := W'; mid := m; reserved := reserve id (n_deps s - Z.of_nat (length (n_parents s))) o |}
| r_count id j W m o :
    wjobs W !! id = Some j -> fires W !! id = None -> 0 < deps_pending j \/ parents W id = ∅ ->
    rstep {| store := W; mid := m; reserved := o |} {| store := increment_deps id W; mid := m; reserved := reserve id 1 o |}
| r_edge child parent p W W' m o :
    insert_edge child parent p W = Ok W' -> 1 <= o child ->
    rstep {| store := W; mid := m; reserved := o |} {| store := W'; mid := m; reserved := reserve child (-1) o |}.

Definition run_wired (r : run) : Prop := wired (store r) (mid r) (reserved r).

Lemma wired_step W d due owed : step (base W) d -> wired W due owed -> wired (W <| base := d |>) due owed.
Proof.
  intros Hs. apply wired_tame; [|done..]. intros id. unfold wjobs. cbn.
  destruct (step_rows _ _ Hs id) as [j u Hc|]; constructor.
  split; [by apply row_change_deps|]. intros Ht. by rewrite (row_change_terminal_status _ _ Hc Ht).
Qed.

Lemma insert_node_fresh now id s W W' : insert_node now id s W = Ok W' -> wjobs W !! id = None.
Proof.
  unfold insert_node. destruct (n_deps s <? 0); [done|]. destruct (match n_parents s with [] => _ | _ => _ end); [done|].
  cbv zeta. intros Hi. inv_ok. match goal with E : insert_row _ _ _ _ _ _ = Ok _ |- _ => by apply insert_row_ok in E as (? & _) end.
Qed.

Lemma rstep_wired r r' : rstep r r' -> run_wired r -> run_wired r'.
Proof.
  unfold run_wired. destruct 1; cbn [store mid reserved]; intros Hw.
  - by apply wired_step.
  - by eapply wired_tx1.
  - by eapply wired_tx1_fenced.
  - by eapply wired_tx2.
  - by apply wired_drop.
  - by eapply wired_sweep.
  - by eapply wired_drain.
  - eapply wired_insert_node; [done| |done]. intros x. unfold reserve. destruct (decide (x = id)) as [->|]; [|done].
    destruct (wi_none _ _ _ Hw id) as (_ & -> & _); [by eapply insert_node_fresh|lia].
  - eapply wired_increment; done.
  - eapply wired_edge; [done|done| |done]. intros x. unfold reserve. destruct (decide _); lia.
Qed.

(** Nothing waits yet. *)
Definition blank (W : wdb) : Prop :=
  edges W = ∅ /\ fires W = ∅ /\ forall c j, wjobs W !! c = Some j -> deps_pending j = 0.

Definition start (W : wdb) : run := {| store := W; mid := ∅; reserved := fun _ => 0 |}.

Lemma start_wired W : blank W -> run_wired (start W).
Proof.
  intros (He & Hf & Hd). assert (Hp : forall c, parents W c = ∅) by (intros c; unfold parents; by rewrite He, lookup_empty).
  assert (Hc : forall c, clear W c) by (intros c p pol; by rewrite Hp, lookup_empty).
  constructor; cbn; intros *.
  - by rewrite lookup_empty.
  - intros Hj. rewrite (Hd _ _ Hj). split_and!; [done..|lia|done].
  - rewrite Hf, lookup_empty. done.
  - by rewrite Hf, lookup_empty.
Qed.

Lemma run_wired_reachable W r : blank W -> rtc rstep (start W) r -> run_wired r.
Proof. intros Hb Hr. pose proof (start_wired W Hb) as Hw. induction Hr; eauto using rstep_wired. Qed.

(** A parent that lets its child go: it is there, it is over, and it did not fail on a
    fail-closed edge. *)
Definition lets_go (W : wdb) (p : Z) (pol : policy) : Prop :=
  exists jp, wjobs W !! p = Some jp /\ terminal (status jp) = true /\ (status jp = failed -> absorbing pol = true).

Lemma clear_lets_go W c p pol : clear W c -> parents W c !! p = Some pol -> lets_go W p pol.
Proof.
  intros Hc Hp. specialize (Hc p pol Hp). unfold stuck, is_status in Hc. destruct (wjobs W !! p) as [jp|] eqn:E; [|done].
  apply orb_false_elim in Hc as [H1 H2]. exists jp. split_and!; [done|by destruct (terminal _)|].
  intros Hf. rewrite Hf in H2. by destruct (absorbing pol).
Qed.

(** C26: In every disciplined run ([rstep]) of the engine's transactions from a database where nothing
    waits - the queue's own statements, the first and second halves of finalizes in any order and
    with any half lost, forks wired in advance, node inserts, counts and edges, drains, and re-derive
    sweeps that lock no join fed by a half-done finalize or owed an edge, with no operator retry of a
    finished node - a join that has fired, and a node whose counter lets a worker claim it, has each
    of its recorded parents present, finished, and not failed on a fail-closed edge.  The restriction of
    the sweeps is needed: [sweep_midway_counts_twice], [sweep_forgets_reserved]. *)
Theorem join_waits_for_parents W r c :
  blank W -> rtc rstep (start W) r ->
  is_Some (fires (store r) !! c) \/ (exists j, wjobs (store r) !! c = Some j /\ deps_pending j = 0) ->
  forall p pol, parents (store r) c !! p = Some pol -> lets_go (store r) p pol.
Proof.
  intros Hb Hr Hc p pol. apply clear_lets_go. pose proof (run_wired_reachable W r Hb Hr) as Hw.
  destruct Hc as [[f Hf]|(j & Hj & Hd)]; [by apply (wi_fired _ _ _ Hw _ _ Hf)|].
  destruct (wi_row _ _ _ Hw c j Hj) as (_ & _ & _ & H0). by apply H0.
Qed.

End runs.

(** ** A run of one join *)

Definition demo_node : job := demo_job <| metadata := node_meta 1 |>.

Definition demo_cols (s : string) : wcols :=
  {| step_key := s; map_index := None; parent_id := None; trace_id := None; consumers := []; failures := None |}.

(** Flow 1 with two running nodes. *)
Definition demo_flow : wdb :=
  {| base := (demo_db demo_node) <| jobs := {[1 := demo_node; 2 := demo_node; 3 := demo_node]} |>;
     cols := {[1 := demo_cols FLOW_STEP_KEY; 2 := demo_cols "a"; 3 := demo_cols "b"]};
     edges := ∅; fires := ∅; outbox := []; ledger := ∅; arbiter := ∅; deadlines := ∅ |}.

Definition demo_consumer : binding :=
  {| c_step := "after"; c_actor := "after"; c_queue := "default"; c_payload := None; c_map := None;
     c_policy := fail_closed; c_deadline := Some 60000000 |}.

Definition demo_join (p : policy) : NodeSpec :=
  {| n_flow := 1; n_step := "join"; n_actor := "join"; n_parents := [2; 3]; n_policy := p; n_map := None;
     n_parent := None; n_deps := 2; n_consumers := [demo_consumer]; n_trace := None; n_max_attempts := 3; n_kind := transient;
     n_key := None; n_deadline := None |}.

Definition demo_fin (p : Z) (s : string) (o : fin_outcome) : finalize :=
  {| z_flow := 1; z_job := p; z_step := s; z_map := None; z_fence := demo_fence; z_outcome := o; z_result := None;
     z_class := None; z_message := None; z_traceback := None; z_fork := None; z_ledger := None |}.

Definition got {E A} (a : A) (r : result E A) : A := match r with Ok x => x | Err _ => a end.

Definition demo_joined (p : policy) : wdb := got demo_flow (insert_node 0 4 (demo_join p) demo_flow).
Definition demo_tx1 (z : finalize) (W : wdb) : wdb := fst (got (W, false) (run_tx1 demo_clk [] 0 0 z W)).
Definition demo_tx2 (z : finalize) (W : wdb) : wdb :=
  got W (run_tx2 (fun _ => 0) (fun _ => true) (fun _ => 0) (fun _ => 99) z W).

Definition demo_a : finalize := demo_fin 2 "a" F_succeeded.
Definition demo_b : finalize := demo_fin 3 "b" F_cancelled.
Definition demo_1 : wdb := demo_tx1 demo_a (demo_joined fail_closed).
Definition demo_2 : wdb := demo_tx1 demo_b demo_1.
Definition demo_3 : wdb := demo_tx2 demo_a demo_2.
Definition demo_4 : wdb := demo_tx2 demo_b demo_3.

Lemma demo_blank : blank demo_flow.
Proof.
  split_and!; [done..|]. apply (map_Forall_to_list (fun _ j => deps_pending j = 0) (wjobs demo_flow)).
  by repeat constructor.
Qed.

Lemma demo_run :
  insert_node 0 4 (demo_join fail_closed) demo_flow = Ok (demo_joined fail_closed) /\
  run_tx1 demo_clk [] 0 0 demo_a (demo_joined fail_closed) = Ok (demo_1, true) /\
  run_tx1 demo_clk [] 0 0 demo_b demo_1 = Ok (demo_2, true) /\
  run_tx2 (fun _ => 0) (fun _ => true) (fun _ => 0) (fun _ => 99) demo_a demo_2 = Ok demo_3 /\
  run_tx2 (fun _ => 0) (fun _ => true) (fun _ => 0) (fun _ => 99) demo_b demo_3 = Ok demo_4.
Proof. split_and!; vm_compute; reflexivity. Qed.

Lemma demo_end :
  is_Some (fires demo_4 !! 4) /\ parents demo_4 4 !! 2 = Some fail_closed /\ parents demo_4 4 !! 3 = Some fail_closed.
Proof. split; [vm_compute; by eexists|split; vm_compute; reflexivity]. Qed.

Lemma demo_reaches : exists r, store r = demo_4 /\ rtc (rstep (fun _ => 0)) (start demo_flow) r.
Proof.
  exists {| store := demo_4; mid := base.delete 3 (base.delete 2 (<[3 := demo_b]> (<[2 := demo_a]> ∅)));
            reserved := reserve 4 (2 - 2) (fun _ => 0) |}. split; [reflexivity|].
  destruct demo_run as (H1 & H2 & H3 & H4 & H5).
  eapply rtc_l; [exact (r_node _ _ _ _ _ _ _ _ H1)|].
  eapply rtc_l; [exact (r_tx1 _ _ _ _ _ _ _ _ _ _ _ H2 (fun _ => eq_refl))|].
  eapply rtc_l; [exact (r_tx1 _ _ _ _ _ _ _ _ _ _ _ H3 (fun _ => eq_refl))|].
  eapply rtc_l; [by eapply (r_tx2 _ _ _ _ _ _ _ _ _ H4)|].
  apply rtc_once. by apply (r_tx2 _ _ _ _ _ _ _ _ _ H5).
Qed.

Lemma join_waits_for_parents_witness :
  is_Some (fires demo_4 !! 4) /\ lets_go demo_4 2 fail_closed /\ lets_go demo_4 3 fail_closed.
Proof.
  destruct demo_end as (Hf & Ha & Hb), demo_reaches as (r & Hs & Hr). rewrite <- Hs in *.
  pose proof (join_waits_for_parents _ _ _ 4 demo_blank Hr (or_introl Hf)) as Hj.
  exact (conj Hf (conj (Hj 2 fail_closed Ha) (Hj 3 fail_closed Hb))).
Defined.
