(* ===== verification/WorkflowSweep.v ===== *)
(** * Workflows: what the re-derive sweep makes of a waiting join

    A join whose last decrement was lost is fired by the sweep with its consumers; the places
    where the sweep and the finalize, the reservation of a count, or the ordinals of the fire
    ids do not fit together. *)

From Stdlib Require Import ZArith Lia QArith.
From stdpp Require Import base tactics relations list gmap strings sorting.
From S2P Require Import Prelude PyText PyFloat Retry JobRow Terminal Control Sweeps Lifecycle.
From S2P Require Import Reservation ReservationProps Workflow WorkflowProps WorkflowRun.

Open Scope Z_scope.

(** ** What a statement leaves alone *)

(** The ledger's counts read statuses and edges only. *)
Lemma counts_same W W' c :
  (forall p, status <$> wjobs W' !! p = status <$> wjobs W !! p) -> parents W' c = parents W c ->
  counts_of W' c = counts_of W c.
Proof.
  intros Hs Hp. unfold counts_of. rewrite Hp.
  assert (Hm : forall p, parent_missing W' p = parent_missing W p /\ parent_live W' p = parent_live W p /\
                         parent_failed W' p = parent_failed W p).
  { intros p. specialize (Hs p). unfold parent_missing, parent_live, parent_failed, is_status.
    destruct (wjobs W' !! p), (wjobs W !! p); simplify_eq/=; rewrite ?Hs; done. }
  unfold count_edges. f_equal; f_equal; f_equal; apply list_filter_iff; intros x;
    destruct (Hm x.1) as (H1 & H2 & H3); rewrite ?H1, ?H2, ?H3; done.
Qed.

Lemma flow_alive_same W W' flow :
  (forall p, status <$> wjobs W' !! p = status <$> wjobs W !! p) -> flow_alive W' flow = flow_alive W flow.
Proof. intros Hs. specialize (Hs flow). unfold flow_alive. by destruct (wjobs W' !! flow), (wjobs W !! flow); simplify_eq/=; rewrite ?Hs. Qed.

Lemma rederive_lookup st held n W c :
  wjobs (fst (rederive_sweep st held n W)) !! c = rederive_row W (rederive_locked st held n W) c <$> wjobs W !! c.
Proof.
  unfold rederive_sweep. set (l := rederive_locked st held n W). unfold wjobs, set_rows. cbn. rewrite map_lookup_imap.
  by destruct (jobs (base W) !! c).
Qed.

Lemma rederive_status st held n W p :
  status <$> wjobs (fst (rederive_sweep st held n W)) !! p = status <$> wjobs W !! p.
Proof.
  rewrite rederive_lookup. destruct (wjobs W !! p) as [j|]; [|done]. cbn. f_equal.
  destruct (rederive_row_cases W (rederive_locked st held n W) p j) as [(m & -> & _)|[_ ?]]; done.
Qed.

Lemma decrement_lookup sel p flow W c :
  flow_alive W flow = true ->
  wjobs (fst (decrement sel p flow W)) !! c =
  (fun j => if dec_where sel W p c j then j <| deps_pending ::= fun n => n - 1 |> else j) <$> wjobs W !! c.
Proof.
  intros Ha. unfold decrement. rewrite Ha. unfold wjobs, set_rows. cbn. rewrite map_lookup_imap.
  by destruct (jobs (base W) !! c).
Qed.

Lemma decrement_status sel p flow W q :
  status <$> wjobs (fst (decrement sel p flow W)) !! q = status <$> wjobs W !! q.
Proof.
  destruct (flow_alive W flow) eqn:Ha; [|unfold decrement; by rewrite Ha].
  rewrite decrement_lookup by done. destruct (wjobs W !! q); [|done]. cbn. by case_match.
Qed.

Lemma rederive_locked_row st held n W c :
  c ∈ rederive_locked st held n W -> exists j, wjobs W !! c = Some j /\ rederive_where st j = true.
Proof.
  intros Hc. apply list_elem_of_fmap in Hc as ([i j] & -> & Hx). apply take_elem, list_elem_of_filter in Hx as [[Hw _] Hx].
  apply elem_of_in_order in Hx. eauto.
Qed.

Lemma ledger_firable_pos k : ledger_firable k = true -> orphaned k = false.
Proof. unfold ledger_firable, orphaned. intros. zbool. apply orb_false_intro; [apply Z.ltb_ge|apply Z.eqb_neq]; lia. Qed.

(** ** The counter the sweep writes *)

(** A row it locked whose parents are all there, none failed that is required, and whose flow
    lives, gets the number of its live parents. *)
Lemma rederive_counts st held n W c j :
  c ∈ rederive_locked st held n W -> wjobs W !! c = Some j ->
  orphaned (counts_of W c) = false -> failed_required (counts_of W c) = 0 -> fenced_where W c j = false ->
  exists u, wjobs (fst (rederive_sweep st held n W)) !! c = Some u /\
    deps_pending u = unterminal (counts_of W c) /\ status u = status j.
Proof.
  intros Hc Hj Ho Hf Hn. rewrite rederive_lookup, Hj. eexists. split; [reflexivity|].
  unfold rederive_row, rederive_arm. generalize dependent (counts_of W c). intros k Ho Hf.
  rewrite bool_decide_eq_true_2 by done. rewrite Ho, Hf, Hn. cbn.
  destruct (Z.eqb_spec (deps_pending j) (unterminal k)) as [E|E]; by split.
Qed.

Lemma count_edges_some (f : Z -> policy -> bool) m :
  0 < count_edges f m -> exists p pol, m !! p = Some pol /\ f p pol = true.
Proof.
  unfold count_edges. destruct (filter _ (map_to_list m)) as [|[p pol] l] eqn:E; [simpl; lia|]. intros _. exists p, pol.
  assert (Hin : (p, pol) ∈ filter (fun x => f x.1 x.2 = true) (map_to_list m)) by (rewrite E; by left).
  apply list_elem_of_filter in Hin as [? Hin]. by apply elem_of_map_to_list in Hin.
Qed.

Lemma parent_live_same W W' p :
  (forall p, status <$> wjobs W' !! p = status <$> wjobs W !! p) -> parent_live W' p = parent_live W p.
Proof. intros Hs. specialize (Hs p). unfold parent_live. by destruct (wjobs W' !! p), (wjobs W !! p); simplify_eq/=; rewrite ?Hs. Qed.

(** A re-derive sweep between the two transactions of a finalize counts its parent off, and the
    second transaction then counts it off again: the join's counter ends below the number of
    its live parents, and with one live parent left the join fires while that parent runs. *)
Theorem sweep_midway_counts_twice st held n W c j p pol sel flow by_ fid :
  c ∈ rederive_locked st held n W -> wjobs W !! c = Some j ->
  orphaned (counts_of W c) = false -> failed_required (counts_of W c) = 0 -> fenced_where W c j = false ->
  parents W c !! p = Some pol -> sel pol = true -> parent_live W p = false -> flow_alive W flow = true ->
  0 < unterminal (counts_of W c) ->
  let W2 := fst (decrement sel p flow (fst (rederive_sweep st held n W))) in
  unterminal (counts_of W2 c) = unterminal (counts_of W c) /\
  exists u, wjobs W2 !! c = Some u /\ deps_pending u = unterminal (counts_of W2 c) - 1 /\
    (unterminal (counts_of W2 c) = 1 -> fires W !! c = None ->
       is_Some (fire fid c flow by_ W2) /\
       exists q, q <> p /\ is_Some (parents W2 c !! q) /\ parent_live W2 q = true).
Proof.
  intros Hc Hj Ho Hf Hn Hp Hsel Hover Ha Hpos W2. set (W1 := fst (rederive_sweep st held n W)) in *.
  assert (Hs1 : forall q, status <$> wjobs W1 !! q = status <$> wjobs W !! q) by apply rederive_status.
  assert (Ha1 : flow_alive W1 flow = true) by (by rewrite (flow_alive_same W W1)).
  assert (Hs2 : forall q, status <$> wjobs W2 !! q = status <$> wjobs W !! q).
  { intros q. unfold W2. rewrite decrement_status. apply Hs1. }
  assert (He : edges W2 = edges W) by (unfold W2, decrement; rewrite Ha1; done).
  assert (Hk : counts_of W2 c = counts_of W c).
  { apply counts_same; [done|]. unfold parents. by rewrite He. }
  rewrite Hk. split; [done|].
  destruct (rederive_counts st held n W c j Hc Hj Ho Hf Hn) as (u & Hu & Hd & Hst). fold W1 in Hu.
  apply rederive_locked_row in Hc as (j' & Hj' & Hw). rewrite Hj in Hj'. injection Hj' as <-.
  assert (Hpend : is_status pending u = true) by (unfold rederive_where, is_status in *; rewrite Hst; by zbool).
  assert (Hdw : dec_where sel W1 p c u = true).
  { unfold dec_where, parents. replace (edges W1) with (edges W) by done. fold (parents W c).
    rewrite Hp, Hsel, Hpend, Hd. cbn. rewrite andb_true_r. by apply Z.ltb_lt. }
  assert (Hu2 : wjobs W2 !! c = Some (u <| deps_pending ::= fun n => n - 1 |>)).
  { unfold W2. rewrite decrement_lookup, Hu by done. unfold fmap, option_fmap, option_map. by rewrite Hdw. }
  eexists. split; [exact Hu2|]. split; [cbn [assign deps_pending]; lia|]. intros H1 Hnf. split.
  2:{ apply count_edges_some in Hpos as (q & pl & Hq & Hl). exists q. unfold parents. rewrite He, (parent_live_same W W2) by done.
      split_and!; [congruence|by exists pl|done]. }
  unfold fire. rewrite Hu2.
  replace (fires W2 !! c) with (@None fire_row) by (unfold W2, decrement; rewrite Ha1; done).
  rewrite (flow_alive_same W W2), Ha by done. cbn [deps_pending assign is_status status]. unfold is_status in *. cbn.
  rewrite Hpend, Hd, H1. by eexists.
Qed.

(** The sweep runs after the first parent's tx1; the second parent is still running. *)
Lemma sweep_midway_counts_twice_witness :
  let W2 := fst (decrement (fun _ => true) 2 1 (fst (rederive_sweep 0 ∅ 10 demo_1))) in
  is_Some (fire 99 4 1 "finalize" W2) /\ exists q, q <> 2 /\ is_Some (parents W2 4 !! q) /\ parent_live W2 q = true.
Proof.
  destruct (wjobs demo_1 !! 4) as [j|] eqn:Hj; [|by vm_compute in Hj].
  assert (Hn : fenced_where demo_1 4 j = false) by (vm_compute in Hj; injection Hj as <-; vm_compute; reflexivity).
  assert (Hc : 4 ∈ rederive_locked 0 ∅ 10 demo_1) by (vm_compute; constructor).
  pose proof (sweep_midway_counts_twice 0 ∅ 10 demo_1 4 j 2 fail_closed (fun _ => true) 1 "finalize" 99 Hc Hj
    ltac:(by vm_compute) ltac:(by vm_compute) Hn ltac:(by vm_compute) eq_refl ltac:(by vm_compute) ltac:(by vm_compute)
    ltac:(by vm_compute)) as [Hk (u & _ & _ & Hfire)].
  apply Hfire; [rewrite Hk|]; vm_compute; reflexivity.
Defined.

(** ** What the sweep fires *)

Lemma sweep_firable_nodup st held n W : NoDup (sweep_firable st held n W).
Proof. apply NoDup_filter, NoDup_ids. Qed.

Lemma zip_nodup {A B} (l : list A) (k : list B) : NoDup l -> NoDup (zip l k).*1.
Proof.
  intros Hl. revert k. induction Hl as [|x l Hx Hl IH]; intros [|y k]; cbn; [constructor..|].
  constructor; [|apply IH]. intros Hin. apply Hx. apply list_elem_of_fmap in Hin as ([a b] & -> & Hin).
  by apply elem_of_zip_l in Hin.
Qed.

Lemma filter_nodup_fst {A B} (P : A * B -> Prop) `{!forall x, Decision (P x)} (l : list (A * B)) :
  NoDup l.*1 -> NoDup (filter P l).*1.
Proof.
  induction l as [|x l IH]; [done|]. cbn [fmap list_fmap]. intros [Hx Hl]%NoDup_cons. rewrite filter_cons.
  destruct (decide (P x)); [|auto]. cbn. constructor; [|auto]. intros Hin. apply Hx.
  apply list_elem_of_fmap in Hin as (y & -> & Hin). apply list_elem_of_filter in Hin as [_ Hin]. by apply list_elem_of_fmap_2.
Qed.

Lemma sweep_wins_nodup st held n fids W : NoDup (sweep_wins st held n fids W).*1.
Proof. apply filter_nodup_fst, zip_nodup, sweep_firable_nodup. Qed.

(** Each win is recorded under its join; the rest of the fires stay. *)
Lemma record_fires_rows l W :
  wjobs (foldl record_fire W l) = wjobs W /\ cols (foldl record_fire W l) = cols W /\
  outbox (foldl record_fire W l) = outbox W /\
  forall c, c ∉ l.*1 -> fires (foldl record_fire W l) !! c = fires W !! c.
Proof.
  revert W. induction l as [|x l IH]; intros W; [done|]. cbn. destruct (IH (record_fire W x)) as (-> & -> & -> & H4).
  split_and!; [done..|]. intros c Hc. apply not_elem_of_cons in Hc as [Hne Hc]. rewrite H4 by done. cbn.
  by rewrite lookup_insert_ne.
Qed.

Lemma record_fires_win l W x :
  NoDup l.*1 -> x ∈ l ->
  fires (foldl record_fire W l) !! x.1 =
    Some {| fr_id := x.2; fr_flow := row_flow W x.1; fr_step := step_key (cols_of W x.1); fr_by := "sweep" |}.
Proof.
  revert W. induction l as [|y l IH]; intros W Hnd Hx; [by apply elem_of_nil in Hx|].
  cbn in Hnd. apply NoDup_cons in Hnd as [Hni Hnd]. cbn [foldl]. apply elem_of_cons in Hx as [->|Hx].
  - destruct (record_fires_rows l (record_fire W y)) as (_ & _ & _ & H4). rewrite H4 by done. cbn. by rewrite lookup_insert_eq.
  - by rewrite (IH (record_fire W y)).
Qed.

Lemma flow_of_set_meta k v j : k <> "flow_id"%string -> flow_of (set_meta k v j) = flow_of j.
Proof.
  intros Hk. unfold flow_of. change (metadata (set_meta k v j)) with (<[k := v]> (metadata j)).
  unfold jobj. by rewrite lookup_insert_ne.
Qed.

Lemma rederive_flow W locked id j : flow_of (rederive_row W locked id j) = flow_of j.
Proof.
  unfold rederive_row. destruct (rederive_arm W locked id j); [| |destruct (failed_parent_of W id)| |];
    rewrite ?flow_of_set_meta by done; done.
Qed.

(** The bodies and the roots leave the fires, the columns and the outbox as they are. *)
Lemma run_bodies_same body wins W W' :
  run_bodies body wins W = Ok W' -> cols W' = cols W /\ outbox W' = outbox W /\
  (forall id, flow_of <$> wjobs W' !! id = flow_of <$> wjobs W !! id).
Proof.
  revert W. induction wins as [|[join fid] wins IH]; intros W Hi; cbn in Hi; [by simplify_eq|].
  destruct (body join); [by apply IH|done| |by apply IH].
  destruct (IH _ Hi) as (-> & -> & Hf). split_and!; [done..|]. intros id. rewrite Hf. unfold wjobs. cbn.
  destruct (decide (join = id)) as [<-|Hne].
  - rewrite lookup_alter_eq. destruct (jobs (base W) !! join) as [j|]; [|done]. apply (f_equal Some).
    by apply flow_of_set_meta.
  - by rewrite lookup_alter_ne.
Qed.

Lemma root_maintain_outbox clk held n W : outbox (root_maintain clk held n W) = outbox W.
Proof.
  unfold root_maintain. generalize (root_ids held n W). intros l. generalize W at 2 3. induction l as [|id l IH]; intros W1; [done|].
  cbn. rewrite IH. unfold maintain_root. by repeat case_match.
Qed.

(** One pass, taken apart: the statement that re-derives, the fires it records, the rows it delivers. *)
Lemma sweep_pass body clk st held n mint W W' :
  sweep_join_rederive body clk st held n mint W = Ok W' ->
  let W1 := fst (rederive_sweep st held n W) in
  let wins := sweep_wins st held n (map mint (seq 0 (length (rederive_firable W (rederive_locked st held n W))))) W1 in
  fires W' = fires (foldl record_fire W1 wins) /\ outbox W' = outbox W ++ sweep_outbox W1 wins /\ tame_rows W1 W'.
Proof.
  intros Hi W1 wins. unfold sweep_join_rederive in Hi. set (k := length _) in wins.
  assert (E : rederive_sweep st held n W = (W1, k)) by reflexivity. rewrite E in Hi.
  assert (Ho : outbox W1 = outbox W) by reflexivity.
  destruct (bool_decide (k = 0%nat)) eqn:Ek.
  - apply bool_decide_eq_true in Ek.
    assert (Hi' : W' = root_maintain clk held n W1) by (by injection Hi). rewrite Hi'. clear Hi Hi'. destruct (root_maintain_tame clk held n W1) as (Ht & _ & Hf).
    assert (Hw : wins = []) by (unfold wins; rewrite Ek; unfold sweep_wins; cbn; by rewrite zip_with_nil_r).
    rewrite Hw, Hf, root_maintain_outbox, Ho. cbn. by rewrite app_nil_r.
  - destruct (sweep_fire _ _ _ _ W1) as [W2 ws] eqn:E2. unfold sweep_fire in E2. fold wins in E2. injection E2 as <- <-.
    destruct (run_bodies body wins _) as [W3|] eqn:E3; [|done].
    set (W4 := W3 <| outbox ::= fun l => l ++ sweep_outbox W3 wins |>).
    assert (Hi' : W' = root_maintain clk held n W4) by (by injection Hi). rewrite Hi'. clear Hi Hi'. destruct (root_maintain_tame clk held n W4) as (Ht & _ & Hf).
    destruct (run_bodies_tame _ _ _ _ E3) as (Ht3 & _ & Hf3). destruct (run_bodies_same _ _ _ _ E3) as (Hc3 & Ho3 & Hfl).
    destruct (record_fires_rows wins W1) as (Hj & Hc & Hob & _).
    rewrite Hf, root_maintain_outbox. cbn. rewrite Hf3, Ho3, Hob, Ho. split_and!; [done| |].
    + f_equal. unfold sweep_outbox, cols_of. rewrite Hc3, Hc. f_equal. apply map_ext. intros x.
      assert (Hr : row_flow W3 x.1 = row_flow W1 x.1); [|by rewrite Hr].
      specialize (Hfl x.1). rewrite Hj in Hfl. unfold row_flow.
      by destruct (wjobs W3 !! x.1), (wjobs W1 !! x.1); [injection Hfl as Hfl; cbn; rewrite Hfl|..].
    + intros id. specialize (Ht id). specialize (Ht3 id). rewrite Hj in Ht3. etrans; [exact Ht3|exact Ht].
Qed.

Lemma rederive_same st held n W :
  cols (fst (rederive_sweep st held n W)) = cols W /\ fires (fst (rederive_sweep st held n W)) = fires W /\
  edges (fst (rederive_sweep st held n W)) = edges W.
Proof. done. Qed.

(** A join the fire arm locks, within the fire ids minted for the pass, is fired with its consumers. *)
Lemma sweep_records body clk st held n mint W W' c i f :
  sweep_join_rederive body clk st held n mint W = Ok W' ->
  sweep_firable st held n (fst (rederive_sweep st held n W)) !! i = Some c ->
  (i < length (rederive_firable W (rederive_locked st held n W)))%nat ->
  wjobs W !! c ≫= flow_of = Some f -> flow_alive W f = true -> fires W !! c = None ->
  fires W' !! c = Some {| fr_id := mint i; fr_flow := f; fr_step := step_key (cols_of W c); fr_by := "sweep" |} /\
  forall b, b ∈ consumers (cols_of W c) ->
    outbox_of f c (trace_or (mint i) (trace_id (cols_of W c))) false b ∈ outbox W'.
Proof.
  intros Hi Hc Hlt Hflow Hal Hnf. apply sweep_pass in Hi.
  assert (Hflow1 : wjobs (fst (rederive_sweep st held n W)) !! c ≫= flow_of = Some f).
  { rewrite rederive_lookup. destruct (wjobs W !! c); [|done]. cbn in *. by rewrite rederive_flow. }
  set (W1 := fst (rederive_sweep st held n W)) in *.
  set (k := length _) in Hi. set (wins := sweep_wins _ _ _ _ _) in Hi. cbv zeta in Hi. destruct Hi as (-> & -> & _).
  assert (Hwin : (c, mint i) ∈ wins).
  { apply list_elem_of_filter. split.
    - cbn [fst]. destruct (wjobs W1 !! c) as [j|]; [|done]. cbn in Hflow1. rewrite Hflow1.
      rewrite (flow_alive_same W W1); [done|]. apply rederive_status.
    - apply list_elem_of_lookup. exists i. apply lookup_zip_Some. split; [done|].
      rewrite list_lookup_fmap, lookup_seq_lt by done. done. }
  assert (Hrf : row_flow W1 c = f) by (unfold row_flow; by rewrite Hflow1).
  split.
  - pose proof (record_fires_win wins W1 (c, mint i) (sweep_wins_nodup _ _ _ _ _) Hwin) as Hr. cbn [fst snd] in Hr.
    rewrite Hr. by rewrite Hrf.
  - intros b Hb. apply elem_of_app. right. apply list_elem_of_In, List.in_concat. eexists.
    split; [apply list_elem_of_In, list_elem_of_fmap; by exists (c, mint i)|].
    cbn [fst snd]. rewrite Hrf. apply list_elem_of_In, list_elem_of_fmap. by exists b.
Qed.

(** *** A lost decrement *)

(** A join-wait row, due and not locked by others, of a flow that lives, still counting a parent
    although every parent is over and lets it go: the decrement that should have fired it was lost. *)
Record lost_decrement (st : Z) (held : gset Z) (W : wdb) (c : Z) (j : job) (f : Z) : Prop := {
  ld_at : wjobs W !! c = Some j;
  ld_pending : is_status pending j = true;
  ld_waits : reason_is BLOCKING_REASON_JOIN j = true;
  ld_due : scheduled_at j <= st;
  ld_free : c ∉ held;
  ld_counts : 0 < deps_pending j;
  ld_edges : parents W c <> ∅;
  ld_over : forall p pol, parents W c !! p = Some pol -> lets_go W p pol;
  ld_flow : flow_of j = Some f;
  ld_alive : flow_alive W f = true;
  ld_unfired : fires W !! c = None
}.

(** The marked rows one pass can lock. *)
Definition marked (st : Z) (held : gset Z) (W : wdb) : list (Z * job) :=
  filter (fun x => sweep_fire_where st x.2 = true /\ x.1 ∉ held) (in_order (wjobs W)).

Lemma elem_of_marked st held W id j :
  (id, j) ∈ marked st held W <-> (sweep_fire_where st j = true /\ id ∉ held) /\ wjobs W !! id = Some j.
Proof. unfold marked. rewrite list_elem_of_filter, elem_of_in_order. done. Qed.

Lemma count_edges_none (f : Z -> policy -> bool) m :
  (forall p pol, m !! p = Some pol -> f p pol = false) -> count_edges f m = 0.
Proof.
  intros Hf. destruct (Z.lt_trichotomy (count_edges f m) 0) as [Hlt|[->|Hgt]]; [unfold count_edges in Hlt; lia|done|].
  apply count_edges_some in Hgt as (p & pol & Hp & He). by rewrite (Hf p pol Hp) in He.
Qed.

Lemma over_firable W c :
  parents W c <> ∅ -> (forall p pol, parents W c !! p = Some pol -> lets_go W p pol) -> ledger_firable (counts_of W c) = true.
Proof.
  intros Hne Hgo. assert (Hf : forall p pol, parents W c !! p = Some pol ->
    parent_missing W p = false /\ parent_live W p = false /\ parent_failed W p && negb (absorbing pol) = false).
  { intros p pol Hp. destruct (Hgo p pol Hp) as (jp & Hj & Ht & Ha). unfold parent_missing, parent_live, parent_failed, is_status.
    rewrite Hj, Ht. split_and!; [done..|]. destruct (bool_decide (status jp = failed)) eqn:E; [|done].
    apply bool_decide_eq_true in E. by rewrite Ha. }
  unfold ledger_firable. cbn. rewrite (count_edges_none (fun p _ => parent_missing W p)) by naive_solver.
  rewrite (count_edges_none (fun p _ => parent_live W p)) by naive_solver.
  rewrite (count_edges_none (fun p pol => parent_failed W p && _)) by naive_solver.
  assert (Hpos : 0 < count_edges (fun _ _ => true) (parents W c)); [|by apply Z.ltb_lt in Hpos as ->].
  rewrite count_edges_size, map_filter_id by done. assert (size (parents W c) <> 0%nat) by (by rewrite map_size_empty_iff). lia.
Qed.

(** The statement's rows are the marked ones that count. *)
Lemma rederive_where_marked st j : rederive_where st j = sweep_fire_where st j && (0 <? deps_pending j).
Proof.
  unfold rederive_where, sweep_fire_where.
  destruct (is_status pending j), (reason_is BLOCKING_REASON_JOIN j), (scheduled_at j <=? st), (0 <? deps_pending j); done.
Qed.

(** With the window large enough for the marked rows, the statement locks every counting one. *)
Lemma marked_locked st held n W id j :
  (length (marked st held W) <= n)%nat -> wjobs W !! id = Some j -> sweep_fire_where st j = true -> id ∉ held ->
  0 < deps_pending j -> id ∈ rederive_locked st held n W.
Proof.
  intros Hn Hj Hw Hh Hd. unfold rederive_locked. rewrite take_ge.
  - apply list_elem_of_fmap. exists (id, j). split; [done|]. apply list_elem_of_filter. rewrite elem_of_in_order. split; [|done].
    split; [|done]. cbn. rewrite rederive_where_marked, Hw. by apply Z.ltb_lt.
  - etrans; [|exact Hn]. unfold marked. apply submseteq_length, sublist_submseteq.
    assert (Hpq : forall x : Z * job, rederive_where st x.2 = true /\ x.1 ∉ held -> sweep_fire_where st x.2 = true /\ x.1 ∉ held).
    { intros x [Hx ?]. split; [|done]. rewrite rederive_where_marked in Hx. by apply andb_true_iff in Hx as [? _]. }
    induction (in_order (wjobs W)) as [|x l IH]; [constructor|]. rewrite !filter_cons.
    destruct (decide _) as [Hx|_], (decide _) as [|Hx']; [by constructor|exfalso; auto|by constructor|done].
Qed.

(** The re-derive puts no marker on a row: a row the fire arm can lock was marked before, and is
    not of a flow that is over. *)
Lemma rederive_marked st held n W id u :
  wjobs (fst (rederive_sweep st held n W)) !! id = Some u -> sweep_fire_where st u = true ->
  exists j, wjobs W !! id = Some j /\ sweep_fire_where st j = true /\
    (ledger_firable (counts_of W id) = true -> fenced_where W id j = false).
Proof.
  rewrite rederive_lookup. destruct (wjobs W !! id) as [j|]; [|done]. intros [= <-] Hw. exists j. split; [done|].
  assert (Hmark : forall r v, r <> BLOCKING_REASON_JOIN -> sweep_fire_where st (set_meta "blocking_reason" (JStr r) v) = false).
  { intros r v Hr. unfold sweep_fire_where, reason_is, blocking_reason.
    change (metadata (set_meta ?k ?x v)) with (<[k := x]> (metadata v)). unfold jobj. rewrite lookup_insert_eq.
    rewrite bool_decide_eq_false_2; [by rewrite andb_false_r|]. congruence. }
  assert (Hkeep : forall k x v, k <> "blocking_reason"%string -> sweep_fire_where st (set_meta k x v) = sweep_fire_where st v).
  { intros k x v Hk. unfold sweep_fire_where, reason_is, blocking_reason, is_status.
    change (metadata (set_meta k x v)) with (<[k := x]> (metadata v)). unfold jobj. by rewrite lookup_insert_ne. }
  unfold rederive_row in Hw. destruct (rederive_arm _ _ id j) eqn:Ea; [by rewrite Hmark in Hw..| | |].
  - destruct (failed_parent_of W id); rewrite !Hkeep, Hmark in Hw by done; done.
  - split; [exact Hw|]. intros _. unfold rederive_arm in Ea. by repeat case_match.
  - split; [exact Hw|]. intros Hf. destruct (fenced_where W id j) eqn:Hfw; [|done]. unfold rederive_arm in Ea.
    rewrite (ledger_firable_pos _ Hf), Hfw in Ea. apply ledger_firable_inv in Hf as (_ & _ & Hr). by rewrite Hr, !andb_false_r in Ea.
Qed.

(** A ready join keeps its marker: only its counter may be written. *)
Lemma firable_keeps_mark st W locked id j :
  sweep_fire_where st j = true -> ledger_firable (counts_of W id) = true -> fenced_where W id j = false ->
  sweep_fire_where st (rederive_row W locked id j) = true.
Proof.
  intros Hw Hk Hf. unfold rederive_row, rederive_arm. rewrite (ledger_firable_pos _ Hk), Hf.
  apply ledger_firable_inv in Hk as (_ & -> & ->). rewrite !andb_false_r. cbn. by destruct (_ && _).
Qed.

Lemma marked_after st held n W : (length (marked st held (fst (rederive_sweep st held n W))) <= length (marked st held W))%nat.
Proof.
  rewrite <- (length_fmap fst (marked st held W)), <- (length_fmap fst (marked _ _ (fst _))).
  apply submseteq_length, NoDup_submseteq.
  - unfold marked. rewrite <- (take_ge (filter _ _) (length (in_order (wjobs (fst (rederive_sweep st held n W)))))); [apply NoDup_ids|].
    apply length_filter.
  - intros id Hin. apply list_elem_of_fmap in Hin as ([i u] & -> & [[Hw Hh] Hu]%elem_of_marked).
    destruct (rederive_marked _ _ _ _ _ _ Hu Hw) as (j & Hj & Hwj & _).
    apply list_elem_of_fmap. exists (i, j). split; [done|]. by apply elem_of_marked.
Qed.

Lemma alive_unfenced W c j f : flow_of j = Some f -> flow_alive W f = true -> fenced_where W c j = false.
Proof.
  intros Hf Ha. unfold fenced_where, flow_alive in *. rewrite Hf. destruct (wjobs W !! f) as [r|]; [|done].
  apply negb_true_iff in Ha. rewrite Ha. by rewrite !andb_false_r.
Qed.

(** The place of a join that is ready among those the fire arm locks, and the ids minted for it. *)
Lemma firable_ordinal st held n W c j :
  (length (marked st held W) <= n)%nat ->
  (forall id u, (id, u) ∈ marked st held W -> ledger_firable (counts_of W id) = true -> 0 < deps_pending u) ->
  wjobs W !! c = Some j -> sweep_fire_where st j = true -> c ∉ held -> ledger_firable (counts_of W c) = true ->
  fenced_where W c j = false ->
  exists i, sweep_firable st held n (fst (rederive_sweep st held n W)) !! i = Some c /\
    (i < length (rederive_firable W (rederive_locked st held n W)))%nat.
Proof.
  intros Hn Hz Hj Hw Hh Hk Hfw. set (W1 := fst (rederive_sweep st held n W)).
  assert (Hcount : forall id, counts_of W1 id = counts_of W id) by (intros id; apply counts_same; [apply rederive_status|done]).
  assert (Hin : c ∈ sweep_firable st held n W1).
  { apply list_elem_of_filter. rewrite Hcount. split; [done|]. unfold sweep_fire_locked. fold (marked st held W1).
    rewrite take_ge by (etrans; [apply marked_after|exact Hn]). apply list_elem_of_fmap.
    exists (c, rederive_row W (rederive_locked st held n W) c j). split; [done|]. apply elem_of_marked.
    unfold W1. rewrite rederive_lookup, Hj. split; [|done]. split; [|done]. by apply firable_keeps_mark. }
  apply list_elem_of_lookup in Hin as [i Hi]. exists i. split; [done|]. apply lookup_lt_Some in Hi.
  eapply Nat.lt_le_trans; [exact Hi|]. apply submseteq_length, NoDup_submseteq; [apply sweep_firable_nodup|].
  intros id [Hkid Hl]%list_elem_of_filter. rewrite Hcount in Hkid. apply list_elem_of_fmap in Hl as ([? u] & -> & Hl).
  apply take_elem in Hl. apply list_elem_of_filter in Hl as [[Hwu Hhu] Hu]. apply elem_of_in_order in Hu. cbn [fst snd] in *.
  destruct (rederive_marked _ _ _ _ _ _ Hu Hwu) as (v & Hv & Hwv & Hfv).
  apply list_elem_of_filter. rewrite Hv. split; [by split; [|apply Hfv]|].
  apply (marked_locked st held n W _ v); try done. eapply Hz; [|done]. by apply elem_of_marked.
Qed.

Lemma run_bodies_ok body wins W : (forall join, body join <> body_raises) -> exists W', run_bodies body wins W = Ok W'.
Proof.
  intros Hb. revert W. induction wins as [|[join fid] wins IH]; intros W; cbn; [by eexists|].
  specialize (Hb join). by destruct (body join).
Qed.

Lemma sweep_succeeds body clk st held n mint W :
  (forall join, body join <> body_raises) -> exists W', sweep_join_rederive body clk st held n mint W = Ok W'.
Proof.
  intros Hb. unfold sweep_join_rederive. destruct (rederive_sweep st held n W) as [W1 k]. destruct (bool_decide _); [by eexists|].
  destruct (sweep_fire _ _ _ _ W1) as [W2 wins]. destruct (run_bodies_ok body wins W2 Hb) as [W3 ->]. by eexists.
Qed.

(** C34: A join whose last decrement was lost is healed by one pass of the sweep.  Let the join wait
    - pending, marked, due, its counter positive - although every parent is over and lets it go,
    in a flow that lives.  If the pass's window covers the marked rows, none of them is a join that
    is ready with a zero counter (as one fired before and not yet claimed), and no reducer body raises,
    then the pass succeeds, records the join's fire and puts a delivery row for each of its
    consumers in the outbox.  Its own statement zeroes the counter first, so the fire must not look at it. *)
Theorem sweep_heals body clk st held n mint W c j f :
  lost_decrement st held W c j f ->
  (length (marked st held W) <= n)%nat ->
  (forall id u, (id, u) ∈ marked st held W -> ledger_firable (counts_of W id) = true -> 0 < deps_pending u) ->
  (forall join, body join <> body_raises) ->
  exists W' fid, sweep_join_rederive body clk st held n mint W = Ok W' /\
    fires W' !! c = Some {| fr_id := fid; fr_flow := f; fr_step := step_key (cols_of W c); fr_by := "sweep" |} /\
    forall b, b ∈ consumers (cols_of W c) -> outbox_of f c (trace_or fid (trace_id (cols_of W c))) false b ∈ outbox W'.
Proof.
  intros [Hj Hp Hm Hd Hh Hc He Ho Hf Ha Hu] Hn Hz Hb.
  assert (Hw : sweep_fire_where st j = true) by (unfold sweep_fire_where; rewrite Hp, Hm; by apply Z.leb_le).
  assert (Hk : ledger_firable (counts_of W c) = true) by (by apply over_firable).
  destruct (firable_ordinal st held n W c j Hn Hz Hj Hw Hh Hk) as (i & Hi & Hlt); [by rewrite (alive_unfenced W c j f)|].
  destruct (sweep_succeeds body clk st held n mint W Hb) as [W' HW'].
  exists W', (mint i). split; [done|]. eapply sweep_records; try done. by rewrite Hj.
Qed.

(** Both first halves committed and both second halves were lost. *)
Definition demo_waiting : job := default demo_job (wjobs demo_2 !! 4).

Lemma demo_lost : lost_decrement 0 ∅ demo_2 4 demo_waiting 1.
Proof.
  assert (Hgo : forall p pol, parents demo_2 4 !! p = Some pol -> lets_go demo_2 p pol).
  { apply (map_Forall_to_list (fun p pol => lets_go demo_2 p pol)).
    assert (map_to_list (parents demo_2 4) = [(3, fail_closed); (2, fail_closed)]) as -> by (vm_compute; reflexivity).
    assert (Hp : forall p, p = 2 \/ p = 3 -> lets_go demo_2 p fail_closed).
    { intros p Hp. unfold lets_go. destruct (wjobs demo_2 !! p) as [jp|] eqn:E; [|exfalso; destruct Hp as [-> | ->]; by vm_compute in E].
      exists jp. destruct Hp as [-> | ->]; vm_compute in E; injection E as <-; split_and!; by vm_compute. }
    constructor; [|constructor; [|constructor]]; apply Hp; auto. }
  constructor; try exact Hgo; try (vm_compute; reflexivity); try (vm_compute; congruence).
Qed.

Lemma sweep_heals_witness :
  exists W' fid, sweep_join_rederive (fun _ => body_runs) (fun _ => 0) 0 ∅ 10 (fun i => 70 + Z.of_nat i) demo_2 = Ok W' /\
    fires W' !! 4 = Some {| fr_id := fid; fr_flow := 1; fr_step := "join"; fr_by := "sweep" |} /\
    outbox_of 1 4 (ustr fid) false demo_consumer ∈ outbox W'.
Proof.
  destruct (sweep_heals (fun _ => body_runs) (fun _ => 0) 0 ∅ 10 (fun i => 70 + Z.of_nat i) demo_2 4 demo_waiting 1 demo_lost)
    as (W' & fid & HW' & Hf & Ho).
  - vm_compute. lia.
  - assert (map fst (marked 0 ∅ demo_2) = [4]) as Hm by (vm_compute; reflexivity). intros id j Hin _.
    assert (id = 4) as -> by (apply list_elem_of_singleton; rewrite <- Hm; by apply (list_elem_of_fmap_2 fst _ (id, j))).
    apply elem_of_marked in Hin as [_ Hj]. vm_compute in Hj. injection Hj as <-. vm_compute. reflexivity.
  - done.
  - exists W', fid. split; [exact HW'|]. split; [rewrite Hf; by vm_compute|]. apply (Ho demo_consumer). vm_compute. constructor.
Defined.

(** When the joins the pass fires first - by id, up to the number of fire ids it minted - have
    fired before and still wait to be claimed, the pass fires nothing; the joins it was run for
    are left with a zero counter, so no later pass of the sweep counts them. *)
Theorem sweep_starves body clk st held n mint W W' :
  sweep_join_rederive body clk st held n mint W = Ok W' ->
  let ready := rederive_firable W (rederive_locked st held n W) in
  (forall id, id ∈ take (length ready) (sweep_firable st held n (fst (rederive_sweep st held n W))) ->
     is_Some (fires W !! id)) ->
  fires W' = fires W /\ outbox W' = outbox W /\
  forall c, c ∈ ready -> (exists u, wjobs W' !! c = Some u /\ deps_pending u = 0) /\
    forall st' held' n', c ∉ rederive_locked st' held' n' W'.
Proof.
  intros Hi ready Hall. apply sweep_pass in Hi. cbv zeta in Hi. fold ready in Hi.
  set (W1 := fst (rederive_sweep st held n W)) in *. set (wins := sweep_wins _ _ _ _ _) in Hi.
  assert (Hw : wins = []).
  { destruct wins as [|x l] eqn:E; [done|]. exfalso. assert (Hx : x ∈ wins) by (rewrite E; by left).
    apply list_elem_of_filter in Hx as [[_ Hnf] Hx]. apply list_elem_of_lookup in Hx as [i Hx]. destruct x as [c f].
    apply lookup_zip_Some in Hx as [H1 H2]. apply list_lookup_fmap_Some in H2 as (m & _ & H2). apply lookup_seq in H2 as [-> H2].
    destruct (Hall c) as [fr Hfr]; [|change (fires W !! c = None) in Hnf; congruence].
    apply list_elem_of_lookup. exists i. by rewrite lookup_take_lt. }
  rewrite Hw in Hi. destruct Hi as (Hf & Ho & Ht). split; [done|]. split; [rewrite Ho; apply app_nil_r|].
  intros c Hc. assert (Hu : exists u, wjobs W' !! c = Some u /\ deps_pending u = 0).
  { apply list_elem_of_filter in Hc as [[Hk Hn] Hl]. destruct (rederive_locked_row _ _ _ _ _ Hl) as (j & Hj & Hwj). rewrite Hj in Hn.
    apply ledger_firable_pos in Hk as Ho'. apply ledger_firable_inv in Hk as (Hm & Hun & Hfr).
    destruct (rederive_counts st held n W c j Hl Hj Ho' Hfr Hn) as (u & Hu & Hd & _). fold W1 in Hu.
    specialize (Ht c). rewrite Hu in Ht. inversion Ht as [? v [Hdv _]|]; subst. exists v. split; [done|]. lia. }
  split; [done|]. intros st' held' n' Hin. destruct (rederive_locked_row _ _ _ _ _ Hin) as (j & Hj & Hwj).
  destruct Hu as (u & Hu & Hd). unfold rederive_where in Hwj. zbool. simplify_eq. lia.
Qed.

(** Join 4 has fired and waits for a worker when join 5 is to be healed. *)
Definition demo_5 : wdb := got demo_4 (insert_node 0 5 (demo_join fail_closed) demo_4).

Lemma sweep_starves_witness :
  exists W', sweep_join_rederive (fun _ => body_runs) (fun _ => 0) 0 ∅ 10 (fun i => 70 + Z.of_nat i) demo_5 = Ok W' /\
    fires W' !! 5 = None /\ forall st' held' n', 5 ∉ rederive_locked st' held' n' W'.
Proof.
  destruct (sweep_join_rederive (fun _ => body_runs) (fun _ => 0) 0 ∅ 10 (fun i => 70 + Z.of_nat i) demo_5) as [W'|] eqn:E;
    [|by vm_compute in E].
  exists W'. split; [reflexivity|].
  assert (Hl : take 1 (sweep_firable 0 ∅ 10 (fst (rederive_sweep 0 ∅ 10 demo_5))) = [4]) by (vm_compute; reflexivity).
  assert (Hr : rederive_firable demo_5 (rederive_locked 0 ∅ 10 demo_5) = [5]) by (vm_compute; reflexivity).
  destruct (sweep_starves _ _ _ _ _ _ _ _ E) as (Hf & _ & Hc).
  - rewrite Hr. intros id. cbn [length]. rewrite Hl. intros ->%list_elem_of_singleton. vm_compute. by eexists.
  - split; [rewrite Hf; vm_compute; reflexivity|]. apply Hc. rewrite Hr. by left.
Defined.

(** A count that was reserved before its edge exists does not survive the sweep: a row with no
    edge yet is stamped as orphaned, and a row whose other parents are over gets the number of
    its live parents, so that with none it is counted ready to fire. *)
Theorem sweep_forgets_reserved st held n W c j :
  c ∈ rederive_locked st held n W -> wjobs W !! c = Some j -> fenced_where W c j = false ->
  missing_parents (counts_of W c) = 0 -> failed_required (counts_of W c) = 0 ->
  unterminal (counts_of W c) < deps_pending j ->
  exists u, wjobs (fst (rederive_sweep st held n W)) !! c = Some u /\
    (parents W c = ∅ -> reason_is BLOCKING_REASON_ORPHAN_PARENT u = true /\ deps_pending u = deps_pending j) /\
    (parents W c <> ∅ -> deps_pending u = unterminal (counts_of W c) /\
       (unterminal (counts_of W c) = 0 -> c ∈ rederive_firable W (rederive_locked st held n W))).
Proof.
  intros Hc Hj Hn Hm Hf Hlt. assert (He : edge_count (counts_of W c) = Z.of_nat (size (parents W c))).
  { cbn. rewrite count_edges_size. do 2 f_equal. by apply map_filter_id. }
  destruct (decide (parents W c = ∅)) as [E|E].
  - rewrite E, map_size_empty in He. rewrite rederive_lookup, Hj. eexists. split; [reflexivity|]. split; [|done]. intros _.
    unfold rederive_row, rederive_arm. rewrite bool_decide_eq_true_2 by done.
    assert (Ho : orphaned (counts_of W c) = true) by (unfold orphaned; rewrite He; by rewrite orb_true_r).
    rewrite Ho. cbn [andb]. split; [|done]. unfold reason_is, blocking_reason.
    change (metadata (set_meta ?k ?v j)) with (<[k := v]> (metadata j)). unfold jobj. rewrite lookup_insert_eq.
    by apply bool_decide_eq_true.
  - assert (Hpos : 0 < edge_count (counts_of W c)).
    { rewrite He. assert (size (parents W c) <> 0%nat) by (by rewrite map_size_empty_iff). lia. }
    assert (Ho : orphaned (counts_of W c) = false).
    { unfold orphaned. rewrite Hm. apply orb_false_intro; [done|]. apply Z.eqb_neq. lia. }
    destruct (rederive_counts st held n W c j Hc Hj Ho Hf Hn) as (u & Hu & Hd & _). exists u. split; [done|]. split; [done|].
    intros _. split; [done|]. intros Hz. apply list_elem_of_filter. rewrite Hj. split; [|done]. split; [|done].
    unfold ledger_firable. rewrite Hm, Hf, Hz. by apply Z.ltb_lt in Hpos as ->.
Qed.

Definition demo_reserved : wdb :=
  demo_tx2 demo_b (demo_tx2 demo_a (demo_tx1 demo_b (demo_tx1 demo_a (increment_deps 4 (demo_joined fail_closed))))).

(** Both recorded parents are over; the third count has no edge yet. *)
Lemma sweep_forgets_reserved_witness :
  (deps_pending <$> wjobs demo_reserved !! 4) = Some 1 /\
  exists u, wjobs (fst (rederive_sweep 0 ∅ 10 demo_reserved)) !! 4 = Some u /\ deps_pending u = 0 /\
    4 ∈ rederive_firable demo_reserved (rederive_locked 0 ∅ 10 demo_reserved).
Proof.
  split; [vm_compute; reflexivity|]. destruct (wjobs demo_reserved !! 4) as [j|] eqn:Hj; [|by vm_compute in Hj].
  assert (Hn : fenced_where demo_reserved 4 j = false) by (vm_compute in Hj; injection Hj as <-; vm_compute; reflexivity).
  assert (Hlt : unterminal (counts_of demo_reserved 4) < deps_pending j) by (vm_compute in Hj; injection Hj as <-; vm_compute; reflexivity).
  assert (Hc : 4 ∈ rederive_locked 0 ∅ 10 demo_reserved) by (vm_compute; constructor).
  assert (Hz : unterminal (counts_of demo_reserved 4) = 0) by (vm_compute; reflexivity).
  assert (Hp : parents demo_reserved 4 <> ∅) by (intros E; vm_compute in E; discriminate E).
  destruct (sweep_forgets_reserved 0 ∅ 10 demo_reserved 4 j Hc Hj Hn ltac:(by vm_compute) ltac:(by vm_compute) Hlt)
    as (u & Hu & _ & Hd).
  destruct (Hd Hp) as [Hd0 Hr]. exists u. rewrite Hd0, Hz. exact (conj Hu (conj eq_refl (Hr Hz))).
Defined.

(** ** The drain *)

(** What a prefix of the rows leaves: old rows and keys stay, a new row has its own key. *)
Record drained (rows : list outbox_row) (W W' : wdb) : Prop := {
  dr_rows : wjobs W ⊆ wjobs W';
  dr_keys : arbiter W ⊆ arbiter W';
  dr_key : forall o, o ∈ rows -> is_Some (arbiter W' !! drain_key o);
  dr_new : forall key id, arbiter W' !! key = Some id -> arbiter W !! key = None ->
    wjobs W !! id = None /\ exists o j, o ∈ rows /\ key = drain_key o /\ wjobs W' !! id = Some j /\
      actor j = o_actor o /\ flow_of j = Some (o_flow o) /\ status j = pending /\ deps_pending j = 0;
  dr_only : forall id, wjobs W !! id = None -> is_Some (wjobs W' !! id) ->
    exists key, arbiter W' !! key = Some id /\ arbiter W !! key = None
}.

Lemma drained_refl W : drained [] W W.
Proof.
  constructor; try done; [by intros o ?%elem_of_nil|intros; congruence|].
  intros id Hn [j Hj]. congruence.
Qed.

Lemma insert_row_key id j c key dl W W' :
  insert_row id j c (Some key) dl W = Ok W' ->
  wjobs W !! id = None /\ arbiter W !! key = None /\ wjobs W' = <[id := j]> (wjobs W) /\
  arbiter W' = <[key := id]> (arbiter W) /\ outbox W' = outbox W.
Proof.
  unfold insert_row. destruct (wjobs W !! id) eqn:E; [done|]. cbn [mbind option_bind]. destruct (arbiter W !! key) eqn:Ek; [done|].
  intros [= <-]. done.
Qed.

Lemma drain_rows_outbox now l W W' : each (drain_row now) l W = Ok W' -> outbox W' = outbox W.
Proof.
  revert W. induction l as [|[id o] l IH]; intros W Hi; cbn [each] in Hi; [by injection Hi as <-|].
  unfold drain_row in Hi at 1. destruct (arbiter W !! drain_key o); [exact (IH _ Hi)|].
  destruct (insert_row _ _ _ _ _ W) as [W1|] eqn:E; [|done]. apply insert_row_key in E as (_ & _ & _ & _ & <-). exact (IH _ Hi).
Qed.

Lemma drained_step now id o rows W W1 W2 :
  drained rows W W1 -> drain_row now (id, o) W1 = Ok W2 -> drained (rows ++ [o]) W W2.
Proof.
  intros [H1 H2 H3 H4 H5] Hd. unfold drain_row in Hd. destruct (arbiter W1 !! drain_key o) as [i|] eqn:Ek.
  - injection Hd as <-. constructor; [done..| | |done].
    + intros o' [Ho| ->%list_elem_of_singleton]%elem_of_app; [auto|by rewrite Ek].
    + intros key i' Hk Hn. destruct (H4 key i' Hk Hn) as (? & o' & j & ? & ?). split; [done|]. exists o', j.
      split; [apply elem_of_app; by left|done].
  - apply insert_row_key in Hd as (Ei & _ & Hj2 & Ha2 & _). set (j := new_node _ _ _ _ _ _) in Hj2.
    assert (Hid : wjobs W !! id = None) by (eapply lookup_weaken_None; [exact Ei|exact H1]).
    assert (Hko : arbiter W !! drain_key o = None) by (eapply lookup_weaken_None; [exact Ek|exact H2]).
    constructor; rewrite ?Hj2, ?Ha2.
    + by apply insert_subseteq_r.
    + by apply insert_subseteq_r.
    + intros o' [Ho| ->%list_elem_of_singleton]%elem_of_app; [|rewrite lookup_insert_eq; eauto].
      destruct (decide (drain_key o = drain_key o')) as [->|Hne]; [rewrite lookup_insert_eq; eauto|rewrite lookup_insert_ne; auto].
    + intros key i Hk Hn. apply lookup_insert_Some in Hk as [[<- <-]|[Hne Hk]].
      * split; [done|]. exists o, j. rewrite lookup_insert_eq. split_and!; try done. apply elem_of_app. right. by left.
      * destruct (H4 key i Hk Hn) as (? & o' & j' & Ho & ? & Hj' & ?). split; [done|]. exists o', j'.
        rewrite lookup_insert_ne by congruence. split; [apply elem_of_app; by left|done].
    + intros i Hn Hs. destruct (decide (id = i)) as [<-|Hne].
      * exists (drain_key o). by rewrite lookup_insert_eq.
      * rewrite lookup_insert_ne in Hs by done. destruct (H5 i Hn Hs) as (key & Hk & ?). exists key. split; [|done].
        rewrite lookup_insert_ne; [done|]. intros <-. congruence.
Qed.

Lemma drained_each now ids rows W W' :
  (length rows <= length ids)%nat -> each (drain_row now) (zip ids rows) W = Ok W' -> drained rows W W'.
Proof.
  assert (Hgen : forall rows ids done0 W1, (length rows <= length ids)%nat -> drained done0 W W1 ->
    each (drain_row now) (zip ids rows) W1 = Ok W' -> drained (done0 ++ rows) W W').
  { clear. induction rows as [|o rows IH]; intros [|id ids] done0 W1 Hl Hd Hi; cbn in Hl; try lia;
      [cbn in Hi; injection Hi as <-; by rewrite app_nil_r..|].
    cbn [zip zip_with each] in Hi. destruct (drain_row now (id, o) W1) as [W2|] eqn:E; [|done]. cbn [rbind] in Hi.
    replace (done0 ++ o :: rows) with ((done0 ++ [o]) ++ rows) by (by rewrite <- app_assoc).
    eapply IH; [|by eapply drained_step|exact Hi]. lia. }
  intros Hl Hi. exact (Hgen rows ids [] W Hl (drained_refl W) Hi).
Qed.

Lemma flip_first_undelivered n l :
  filter (fun o => undelivered o = true) (flip_first n l) = drop n (filter (fun o => undelivered o = true) l).
Proof.
  revert n. induction l as [|o l IH]; intros [|n]; cbn [flip_first]; [done..|]. destruct (undelivered o) eqn:E.
  - rewrite filter_cons_False by done. rewrite filter_cons_True by done. cbn [drop]. apply IH.
  - rewrite !filter_cons_False by congruence. apply (IH (S n)).
Qed.

(** C35: A drain pass delivers each of the rows it fetches exactly once: the row's key names one job
    afterwards, the one that held it before or a new pending job of the row's actor and flow;
    no other job appears, no job is replaced, and the undelivered rows lose exactly the fetched ones. *)
Theorem drain_exactly_once now n ids W W' k :
  let rows := take n (filter (fun o => undelivered o = true) (outbox W)) in
  (length rows <= length ids)%nat -> drain_outbox now n ids W = Ok (W', k) ->
  drained rows W W' /\ k = length rows /\
  filter (fun o => undelivered o = true) (outbox W') = drop n (filter (fun o => undelivered o = true) (outbox W)).
Proof.
  intros rows Hl Hi. unfold drain_outbox in Hi. fold rows in Hi.
  destruct (each (drain_row now) (zip ids rows) W) as [W1|] eqn:E; [|done]. cbn [rbind] in Hi. injection Hi as <- <-.
  pose proof (drain_rows_outbox _ _ _ _ E) as Ho. apply drained_each in E as [H1 H2 H3 H4 H5]; [|done].
  split; [by constructor|]. split; [done|]. cbn. rewrite Ho. apply flip_first_undelivered.
Qed.

Definition demo_delivery : outbox_row := outbox_of 1 4 "t" true demo_consumer.
Definition demo_outbox : wdb := demo_flow <| outbox := [demo_delivery; demo_delivery] |>.

(** The same delivery twice: one row is inserted. *)
Lemma drain_exactly_once_witness :
  exists W', drain_outbox 0 10 [50; 51] demo_outbox = Ok (W', 2%nat) /\ drained [demo_delivery; demo_delivery] demo_outbox W' /\
    filter (fun o => undelivered o = true) (outbox W') = [].
Proof.
  assert (Hok : is_ok (drain_outbox 0 10 [50; 51] demo_outbox) = true) by (vm_compute; reflexivity).
  destruct (drain_outbox 0 10 [50; 51] demo_outbox) as [[W' k]|] eqn:E; [|discriminate Hok].
  destruct (drain_exactly_once 0 10 [50; 51] demo_outbox W' k ltac:(vm_compute; lia) E) as (Hd & -> & Hu).
  exists W'. exact (conj eq_refl (conj Hd Hu)).
Defined.
