(* ===== verification/WorkflowStatus.v ===== *)
(** * Workflows: the status of a run

    [src/taskq/workflows/_status.py] and the statements it reads: the derivation of a run's status
    from its nodes, the reconstruction from rows alone, and the root the sweep maintains. *)

From Stdlib Require Import ZArith Lia QArith.
From stdpp Require Import base tactics list gmap strings sorting.
From S2P Require Import Prelude PyText PyFloat Retry JobRow Terminal Lifecycle Reservation ReservationProps.
From S2P Require Import Workflow WorkflowProps WorkflowRun.

Open Scope Z_scope.

(** ** The derivation *)

Inductive WorkflowStatus := ws_running | ws_failed | ws_blocked | ws_complete | ws_cancelled | ws_pending.

(** [NodeView]; the status is text, of a row or ["skipped"]. *)
Record NodeView := {
  v_status : string; v_deps : Z; v_reason : option string; v_held : bool; v_absorbed : bool; v_cancel : bool
}.

#[export] Instance view_copy : Copy NodeView := fun v =>
  {| v_status := v_status v; v_deps := v_deps v; v_reason := v_reason v; v_held := v_held v;
     v_absorbed := v_absorbed v; v_cancel := v_cancel v |}.

Definition has_text (s : string) (v : NodeView) : bool := bool_decide (v_status v = s).

Definition is_join_wait (v : NodeView) : bool := has_text "pending" v && (0 <? v_deps v).

Definition is_blocked_row (v : NodeView) : bool :=
  has_text "pending" v &&
  (v_held v || (0 <? v_deps v) ||
   match v_reason v with
   | None => false
   | Some r => negb (bool_decide (r = "join" \/ r = "body_unavailable")%string)
   end).

Definition counts_failed (v : NodeView) : bool := has_text "failed" v && negb (v_absorbed v).

Definition fold_crash (v : NodeView) : NodeView :=
  if bool_decide (v_status v = "crashed" \/ v_status v = "abandoned")%string then v <| v_status := "failed" |> else v.

Definition derive_workflow_status (views : list NodeView) : WorkflowStatus :=
  let nodes := map fold_crash views in
  if existsb (has_text "running") nodes || existsb v_cancel nodes then ws_running
  else if existsb counts_failed nodes then ws_failed
  else if existsb is_blocked_row nodes then ws_blocked
  else if negb (bool_decide (nodes = [])) &&
          forallb (fun v => has_text "succeeded" v || has_text "failed" v || has_text "skipped" v || v_absorbed v) nodes
       then ws_complete
  else if existsb (has_text "cancelled") nodes then ws_cancelled
  else ws_pending.

#[export] Instance view_eq_dec : EqDecision NodeView.
Proof. solve_decision. Defined.

(** ** Views of a run's rows *)

(** A row of the per-node read as a view; [held] are the nodes with an open hold. *)
Definition view_of (W : wdb) (held : Z -> bool) (x : Z * job) : NodeView :=
  {| v_status := status_text (status x.2); v_deps := deps_pending x.2; v_reason := blocking_reason x.2;
     v_held := held x.1; v_absorbed := absorbed W x.1; v_cancel := false |}.

Definition derive_flow_status (W : wdb) (held : Z -> bool) (flow : Z) : WorkflowStatus :=
  derive_workflow_status (map (view_of W held) (flow_nodes W flow)).

(** ** The reconstruction *)

Definition absorbed_keys (W : wdb) (ns : list (Z * job)) : list string :=
  map (fun x => step_key (cols_of W x.1)) (filter (fun x => absorbed W x.1 = true /\ terminal (status x.2) = true) ns).

(** The ledger's terminal rows of a flow, in the order the read returned them. *)
Definition ledger_terminals (W : wdb) (flow : Z) : list lrow :=
  map snd (filter (fun x => l_flow x.2 = flow /\ is_outcome (l_status x.2) = true) (map_to_list (ledger W))).

Definition outcome_text (s : ledger_status) : string :=
  match s with L_done o => status_text (fin_status o) | L_running => "running" | L_fenced => "fenced" end.

(** A later row overwrites an earlier one of its step key. *)
Definition ledger_by_key (rows : list lrow) : gmap string string :=
  foldl (fun m r => <[l_step r := outcome_text (l_status r)]> m) ∅ rows.

Definition never_granted (s : JobStatus) : bool := match s with cancelled | crashed | abandoned => true | _ => false end.

Definition reconstruct_workflow_status (W : wdb) (rows : list lrow) (flow : Z) : WorkflowStatus :=
  let ns := flow_nodes W flow in
  let view x :=
    let key := step_key (cols_of W x.1) in
    let s := status_text (status x.2) in
    {| v_status := if bool_decide (status x.2 = pending) then default s (ledger_by_key rows !! key) else s;
       v_deps := deps_pending x.2; v_reason := blocking_reason x.2; v_held := false;
       v_absorbed := bool_decide (key ∈ absorbed_keys W ns); v_cancel := false |} in
  derive_workflow_status
    (map view ns ++
     map (fun x => {| v_status := status_text (status x.2); v_deps := 0; v_reason := None; v_held := false;
                      v_absorbed := false; v_cancel := false |})
       (filter (fun x => never_granted (status x.2) = true) ns)).

(** ** The derivation agrees with the root *)

(** What the derivation says of a maintained root. *)
Definition shown (s : JobStatus) : WorkflowStatus :=
  match s with failed => ws_failed | cancelled => ws_cancelled | _ => ws_complete end.

Lemma status_text_inj s t : status_text s = status_text t -> s = t.
Proof. by destruct s, t. Qed.

Lemma has_text_fold W held x s t :
  status_text s = t ->
  has_text t (fold_crash (view_of W held x)) = bool_decide (s = if failed_class (status x.2) then failed else status x.2).
Proof.
  intros <-.
  unfold has_text, fold_crash, view_of. cbn [v_status]. destruct x as [id j]. cbn [fst snd].
  destruct (status j) eqn:E, s; reflexivity.
Qed.

Lemma existsb_map {A B} (f : A -> B) p l : existsb p (map f l) = existsb (fun x => p (f x)) l.
Proof. induction l as [|x l IH]; [done|]. cbn. by rewrite IH. Qed.

Lemma forallb_map {A B} (f : A -> B) p l : forallb p (map f l) = forallb (fun x => p (f x)) l.
Proof. induction l as [|x l IH]; [done|]. cbn. by rewrite IH. Qed.

Lemma existsb_ext' {A} (p q : A -> bool) l : (forall x, x ∈ l -> p x = q x) -> existsb p l = existsb q l.
Proof.
  induction l as [|x l IH]; intros Hpq; [done|]. cbn. rewrite (Hpq x) by left. rewrite IH; [done|].
  intros y Hy. apply Hpq. by right.
Qed.

Lemma forallb_ext' {A} (p q : A -> bool) l : (forall x, p x = q x) -> forallb p l = forallb q l.
Proof. intros Hpq. induction l as [|x l IH]; [done|]. cbn. by rewrite Hpq, IH. Qed.

(** The derivation over the rows themselves. *)
Lemma derive_rows W held ns :
  derive_workflow_status (map (view_of W held) ns) =
  if existsb (fun x => is_status running x.2) ns then ws_running
  else if has_failed W ns then ws_failed
  else if existsb (fun x => is_blocked_row (view_of W held x)) ns then ws_blocked
  else if negb (bool_decide (ns = [])) &&
          forallb (fun x => is_status succeeded x.2 || failed_class (status x.2) || absorbed W x.1) ns then ws_complete
  else if has_cancelled ns then ws_cancelled
  else ws_pending.
Proof.
  unfold derive_workflow_status. cbv zeta. rewrite !map_map.
  assert (Hc : existsb v_cancel (map (fun x => fold_crash (view_of W held x)) ns) = false).
  { induction ns as [|x l IH]; [done|]. cbn. rewrite IH, orb_false_r. unfold fold_crash. by case_match. }
  assert (Hn : bool_decide (map (fun x => fold_crash (view_of W held x)) ns = []) = bool_decide (ns = [])) by (by destruct ns).
  rewrite Hc, orb_false_r, Hn, !existsb_map, forallb_map.
  rewrite (existsb_ext' (fun x => has_text "running" _) (fun x => is_status running x.2)).
  2:{ intros x _. rewrite (has_text_fold W held x running "running" eq_refl). unfold is_status. by destruct (status x.2). }
  rewrite (existsb_ext' (fun x => counts_failed _) (fun x => failed_class (status x.2) && negb (absorbed W x.1))).
  2:{ intros x _. unfold counts_failed. rewrite (has_text_fold W held x failed "failed" eq_refl). unfold fold_crash. case_match; cbn;
        by destruct (status x.2). }
  rewrite (existsb_ext' (fun x => is_blocked_row (fold_crash _)) (fun x => is_blocked_row (view_of W held x))).
  2:{ intros x _. unfold is_blocked_row. rewrite (has_text_fold W held x pending "pending" eq_refl). unfold fold_crash. unfold has_text. cbn.
      by destruct (status x.2). }
  rewrite (existsb_ext' (fun x => has_text "cancelled" _) (fun x => is_status cancelled x.2)).
  2:{ intros x _. rewrite (has_text_fold W held x cancelled "cancelled" eq_refl). unfold is_status. by destruct (status x.2). }
  fold (has_failed W ns) (has_cancelled ns).
  assert (Hall : forall x, has_text "succeeded" (fold_crash (view_of W held x)) || has_text "failed" (fold_crash (view_of W held x)) ||
      has_text "skipped" (fold_crash (view_of W held x)) || v_absorbed (fold_crash (view_of W held x)) =
      is_status succeeded x.2 || failed_class (status x.2) || absorbed W x.1).
  { intros x. rewrite (has_text_fold W held x succeeded "succeeded" eq_refl), (has_text_fold W held x failed "failed" eq_refl).
    unfold has_text, fold_crash, is_status, view_of. cbn.
    by destruct (status x.2). }
  by rewrite (forallb_ext' _ _ ns Hall).
Qed.

(** What each predicate over the rows says of one row. *)
Lemma existsb_false {A} (p : A -> bool) l x : existsb p l = false -> x ∈ l -> p x = false.
Proof.
  intros Hl Hx. destruct (p x) eqn:E; [|done]. rewrite <- Hl. symmetry. apply existsb_exists. exists x.
  split; [by apply list_elem_of_In|done].
Qed.

Lemma has_live_false ns x : has_live ns = false -> x ∈ ns -> terminal (status x.2) = true.
Proof. intros Hl Hx. pose proof (existsb_false _ _ _ Hl Hx) as H. by apply negb_false_iff in H. Qed.

Lemma existsb_none {A} (p : A -> bool) l : (forall x, x ∈ l -> p x = false) -> existsb p l = false.
Proof. intros Hp. induction l as [|x l IH]; [done|]. cbn. rewrite Hp by left. apply IH. intros y Hy. apply Hp. by right. Qed.

Lemma terminal_not_live s : terminal s = true -> s <> running /\ s <> pending /\ s <> scheduled.
Proof. by destruct s. Qed.

Lemma no_unresolved_no_running ns : has_unresolved ns = false -> existsb (fun x => is_status running x.2) ns = false.
Proof.
  intros Hu. apply existsb_none. intros x Hx. pose proof (existsb_false _ _ _ Hu Hx) as H. by apply orb_false_elim in H as [? _].
Qed.

Lemma no_live_no_running ns : has_live ns = false -> existsb (fun x => is_status running x.2) ns = false.
Proof.
  intros Hl. apply existsb_none. intros x Hx. destruct (terminal_not_live _ (has_live_false _ _ Hl Hx)) as (H & _).
  unfold is_status. by apply bool_decide_eq_false.
Qed.

Lemma no_live_no_blocked W held ns : has_live ns = false -> existsb (fun x => is_blocked_row (view_of W held x)) ns = false.
Proof.
  intros Hl. apply existsb_none. intros x Hx. destruct (terminal_not_live _ (has_live_false _ _ Hl Hx)) as (_ & H & _).
  unfold is_blocked_row, has_text. cbn [v_status view_of]. rewrite bool_decide_eq_false_2; [done|].
  intros E. by apply (status_text_inj _ pending) in E.
Qed.

(** The rows of a run that is over and has no failure to answer for. *)
Lemma over_rows W ns x :
  has_live ns = false -> has_failed W ns = false -> x ∈ ns ->
  status x.2 = succeeded \/ status x.2 = cancelled \/ (failed_class (status x.2) = true /\ absorbed W x.1 = true).
Proof.
  intros Hl Hf Hx. pose proof (has_live_false _ _ Hl Hx) as Ht. pose proof (existsb_false _ _ _ Hf Hx) as H. cbv beta in H.
  destruct (status x.2); try done; cbn in H; try (by left); try (by right; left); right; right; by destruct (absorbed W x.1).
Qed.

(** When the sweep finalizes a run's root, the status derived from the run's nodes is the one it
    wrote: failed for failed, complete for succeeded, and cancelled for cancelled provided some
    cancelled node has no absorbing edge; holds on the nodes do not matter. *)
Theorem maintained_agrees W held flow s :
  maintained W flow = Some s ->
  (s = cancelled -> exists x, x ∈ flow_nodes W flow /\ status x.2 = cancelled /\ absorbed W x.1 = false) ->
  derive_flow_status W held flow = shown s.
Proof.
  unfold maintained, derive_flow_status. rewrite derive_rows. set (ns := flow_nodes W flow).
  destruct ns as [|x0 l] eqn:En; [done|].
  assert (Hne : ns <> []) by congruence. rewrite <- En. clear En. intros Hm Hc.
  destruct (has_failed W ns) eqn:Hf.
  - cbn [andb] in Hm. destruct (negb (has_unresolved ns) || negb (has_live ns)) eqn:E; [|done]. injection Hm as <-.
    assert (Hr : existsb (fun x => is_status running x.2) ns = false); [|by rewrite Hr].
    apply orb_true_iff in E as [E|E]; apply negb_true_iff in E; [by apply no_unresolved_no_running|by apply no_live_no_running].
  - cbn [andb orb] in Hm. destruct (has_live ns) eqn:Hl; [done|]. cbn in Hm. injection Hm as <-.
    rewrite no_live_no_running, no_live_no_blocked by done. rewrite (bool_decide_eq_false_2 (ns = [])) by done.
    cbn [negb andb]. destruct (has_cancelled ns) eqn:Hk.
    + destruct (Hc eq_refl) as (x & Hx & Hs & Ha).
      assert (Hall : forallb (fun x => is_status succeeded x.2 || failed_class (status x.2) || absorbed W x.1) ns = false).
      { apply not_true_iff_false. intros Hall. apply forallb_forall with (x := x) in Hall; [|by apply list_elem_of_In].
        unfold is_status in Hall. by rewrite Hs, Ha in Hall. }
      by rewrite Hall.
    + assert (Hall : forallb (fun x => is_status succeeded x.2 || failed_class (status x.2) || absorbed W x.1) ns = true).
      { apply forallb_forall. intros x Hx%list_elem_of_In. pose proof (existsb_false _ _ _ Hk Hx) as Hnc. unfold is_status in *.
        destruct (over_rows W ns x Hl Hf Hx) as [->|[E|[-> _]]]; [done|by rewrite E in Hnc|by rewrite orb_true_r]. }
      by rewrite Hall.
Qed.

(** ** Where they part *)

Lemma maintained_over W flow x :
  has_live (flow_nodes W flow) = false -> has_failed W (flow_nodes W flow) = false -> x ∈ flow_nodes W flow ->
  maintained W flow = Some (if has_cancelled (flow_nodes W flow) then cancelled else succeeded).
Proof.
  unfold maintained. destruct (flow_nodes W flow) as [|y l]; [by intros _ _ ?%elem_of_nil|]. intros Hl Hf _. by rewrite Hl, Hf.
Qed.

(** A run whose cancelled nodes all have an absorbing edge is finalized as cancelled by the sweep
    and derived as complete from the same rows. *)
Theorem derivation_drops_cancel W held flow :
  has_live (flow_nodes W flow) = false -> has_failed W (flow_nodes W flow) = false ->
  has_cancelled (flow_nodes W flow) = true ->
  (forall x, x ∈ flow_nodes W flow -> status x.2 = cancelled -> absorbed W x.1 = true) ->
  maintained W flow = Some cancelled /\ derive_flow_status W held flow = ws_complete.
Proof.
  intros Hl Hf Hk Ha. assert (Hx0 : exists x, x ∈ flow_nodes W flow).
  { apply existsb_exists in Hk as (x & Hx & _). exists x. by apply list_elem_of_In. }
  destruct Hx0 as [x0 Hx0]. rewrite (maintained_over W flow x0), Hk by done. split; [done|].
  unfold derive_flow_status. rewrite derive_rows. set (ns := flow_nodes W flow) in *.
  assert (Hne : ns <> []) by (intros E; rewrite E in Hx0; by apply elem_of_nil in Hx0). rewrite Hf.
  rewrite no_live_no_running, no_live_no_blocked by done. rewrite bool_decide_eq_false_2 by done. cbn [negb andb].
  assert (Hall : forallb (fun x => is_status succeeded x.2 || failed_class (status x.2) || absorbed W x.1) ns = true); [|by rewrite Hall].
  apply forallb_forall. intros x Hx%list_elem_of_In. unfold is_status.
  destruct (over_rows W ns x Hl Hf Hx) as [->|[E|[-> _]]]; [done|rewrite (Ha x Hx E); by rewrite orb_true_r|by rewrite orb_true_r].
Qed.

(** A run that is over and whose only failures are crashed or abandoned nodes that a collecting
    edge absorbed is finalized as succeeded or cancelled, but reconstructed as failed, whatever
    the ledger holds: the second read of the terminal rows forgets the absorption. *)
Theorem reconstruction_drops_absorption W rows flow x :
  has_live (flow_nodes W flow) = false -> has_failed W (flow_nodes W flow) = false ->
  x ∈ flow_nodes W flow -> status x.2 = crashed \/ status x.2 = abandoned ->
  (maintained W flow = Some succeeded \/ maintained W flow = Some cancelled) /\
  reconstruct_workflow_status W rows flow = ws_failed.
Proof.
  intros Hl Hf Hx Hs. rewrite (maintained_over W flow x) by done. split; [destruct (has_cancelled _); [by right|by left]|].
  unfold reconstruct_workflow_status. cbv zeta. set (ns := flow_nodes W flow) in *.
  unfold derive_workflow_status. cbv zeta.
  match goal with |- context [map fold_crash ?l] => set (vs := l) end.
  assert (Hv : forall v, v ∈ vs -> v_cancel v = false /\ exists y, y ∈ ns /\ v_status v = status_text (status y.2)).
  { intros v [Hv|Hv]%elem_of_app; apply list_elem_of_fmap in Hv as (y & -> & Hy); cbn; (split; [done|]); exists y.
    - split; [done|]. destruct (terminal_not_live _ (has_live_false _ _ Hl Hy)) as (_ & Hp & _). by rewrite bool_decide_eq_false_2.
    - apply list_elem_of_filter in Hy as [_ Hy]. done. }
  assert (Hr : existsb (has_text "running") (map fold_crash vs) || existsb v_cancel (map fold_crash vs) = false).
  { apply orb_false_intro; apply existsb_none; intros v (u & -> & Hu)%list_elem_of_fmap; destruct (Hv u Hu) as (Hc & y & Hy & Hu1);
      unfold fold_crash, has_text; [|by case_match].
    destruct (terminal_not_live _ (has_live_false _ _ Hl Hy)) as (Hn & _). apply bool_decide_eq_false. case_match; [done|].
    rewrite Hu1. intros E. by apply (status_text_inj _ running) in E. }
  assert (Hfail : existsb counts_failed (map fold_crash vs) = true); [|by rewrite Hr, Hfail].
  apply existsb_exists. eexists. split.
  - apply List.in_map, list_elem_of_In, elem_of_app. right. apply list_elem_of_fmap. exists x. split; [reflexivity|].
    apply list_elem_of_filter. split; [by destruct Hs as [-> | ->]|done].
  - unfold counts_failed, fold_crash, has_text. cbn. by destruct Hs as [-> | ->].
Qed.

(** Flow 1: node 3 ended as [s], its join over a [p] edge succeeded. *)
Definition demo_over (s : JobStatus) (p : policy) : wdb :=
  let ended t := demo_node <| status := t |> in
  demo_flow <| base := (demo_db demo_node) <| jobs := {[1 := demo_node; 2 := ended succeeded; 3 := ended s; 4 := ended succeeded]} |> |>
    <| cols ::= fun m => <[4 := demo_cols "join"]> m |> <| edges := {[4 := {[3 := p]}]} |>.

Lemma maintained_agrees_witness : derive_flow_status (demo_over cancelled fail_closed) (fun _ => false) 1 = ws_cancelled.
Proof.
  apply (maintained_agrees _ _ _ cancelled); [by vm_compute|]. intros _. exists (3, demo_node <| status := cancelled |>).
  split; [vm_compute; right; left|]. split; vm_compute; reflexivity.
Defined.

Lemma derivation_drops_cancel_witness :
  maintained (demo_over cancelled collect) 1 = Some cancelled /\
  derive_flow_status (demo_over cancelled collect) (fun _ => false) 1 = ws_complete.
Proof.
  apply derivation_drops_cancel; [by vm_compute..|]. intros x Hx Hs.
  assert (Hall : forallb (fun x => negb (is_status cancelled x.2) || absorbed (demo_over cancelled collect) x.1)
                   (flow_nodes (demo_over cancelled collect) 1) = true) by (by vm_compute).
  apply forallb_forall with (x := x) in Hall; [|by apply list_elem_of_In]. unfold is_status in Hall. by rewrite Hs in Hall.
Defined.

Lemma reconstruction_drops_absorption_witness :
  maintained (demo_over crashed collect) 1 = Some succeeded /\
  reconstruct_workflow_status (demo_over crashed collect) [] 1 = ws_failed.
Proof.
  split; [by vm_compute|].
  refine (proj2 (reconstruction_drops_absorption (demo_over crashed collect) [] 1 (3, demo_node <| status := crashed |>) _ _ _ (or_introl eq_refl)));
    [by vm_compute|by vm_compute|vm_compute; right; left].
Defined.
