(* ===== verification/Dispatch.v ===== *)
(** * Dispatch: which pending rows a claim takes

    [src/taskq/backend/_dispatch_sql.py]: the claim statement in its three renders, from the
    key walks to the ids its UPDATE writes, one definition a CTE; the claimable probe; and
    [src/taskq/backend/_dispatch.py]: the queue-mode cache and the round with its widening
    window.

    The statement reads one snapshot.  [passed] are the rows its lock steps pass over, because
    a peer holds them or has changed them since the snapshot; [unstamped] the registry rows a
    peer holds.  Two of its ORDER BYs leave ties open: [tie_rank] and [tie_cut] are the order
    in which the executor met equal rows, and can be any.  Texts compare by the database's
    collation, [text_lt].  LIMITs are natural numbers: the bounds the statement computes are
    never negative.  The columns of [jobs] that only dispatch reads are kept beside the row
    ([dcols]). *)

From Stdlib Require Import ZArith Lia QArith.
From stdpp Require Import base tactics list gmap strings sorting.
From S2P Require Import Prelude PyFloat JobRow Terminal Control Reservation ClaimCursor Workflow.

Open Scope Z_scope.

(** ** Data *)

Record dcols := { queue : string; priority : Z; identity_key : option string; fairness_key : option string }.

(** An [actor_config] row: its cap, its assigned queue, its rotation stamp. *)
Record actor_row := { max_concurrent : option Z; assignment : string; last_claimed_at : option Z }.

#[export] Instance actor_copy : Copy actor_row := fun a =>
  {| max_concurrent := max_concurrent a; assignment := assignment a; last_claimed_at := last_claimed_at a |}.

Record fleet := {
  wf : wdb;
  placed : gmap Z dcols;
  actor_config : gmap string actor_row;
  reservation_slots : table;
  executes : gmap Z bool;             (* workers.metadata->>'workflow_execution', where stamped *)
  queues : gmap string string         (* queues.mode by name *)
}.

#[export] Instance fleet_copy : Copy fleet := fun F =>
  {| wf := wf F; placed := placed F; actor_config := actor_config F;
     reservation_slots := reservation_slots F; executes := executes F; queues := queues F |}.

Definition fjobs (F : fleet) : gmap Z job := wjobs (wf F).

Definition no_cols : dcols := {| queue := ""; priority := 0; identity_key := None; fairness_key := None |}.

Definition cols_at (F : fleet) (id : Z) : dcols := default no_cols (placed F !! id).

(** [SELECT count( * ) FROM jobs WHERE actor = a AND status = 'running']. *)
Definition running_in (F : fleet) (a : string) : Z :=
  Z.of_nat (length (filter (fun x => is_status running x.2 = true /\ actor x.2 = a) (in_order (fjobs F)))).

(** [COALESCE(fairness_key, '__null__')]. *)
Definition cohort (c : dcols) : string := default "__null__"%string (fairness_key c).

(** The renders: strict FIFO, the same with the claim cursor's bound, round robin. *)
Inductive render := strict_fifo | strict_fifo_cursor (bound : Z) | round_robin.

Definition cursor_bound (v : render) (id : Z) : bool :=
  match v with strict_fifo_cursor b => b <=? id | _ => true end.

(** A statement's parameters and what it meets. *)
Record claim_call := {
  world : fleet;
  sql : render;
  on : list string;                   (* $1, the round's queues *)
  limit_n : nat;                      (* $2 *)
  claimer : Z;                        (* $3, the worker *)
  lock_lease : Z;                     (* $4 *)
  oversample : nat;                   (* $5 *)
  now : Z;                            (* statement_timestamp() *)
  text_lt : string -> string -> bool;
  passed : gset Z;
  unstamped : gset string;
  tie_rank : Z -> Z;
  tie_cut : Z -> Z
}.

(** ** ORDER BY and ROW_NUMBER

    A sort key is the list of its columns as integers, compared from the left. *)

Fixpoint lex_le (a b : list Z) : bool :=
  match a, b with
  | [], _ => true
  | _ :: _, [] => false
  | x :: a', y :: b' => (x <? y) || ((x =? y) && lex_le a' b')
  end.

Definition by_keys {A} (key : A -> list Z) (x y : A) : Prop := lex_le (key x) (key y) = true.

#[export] Instance by_keys_dec {A} (key : A -> list Z) x y : Decision (by_keys key x y).
Proof. unfold by_keys. apply _. Defined.

(** [ORDER BY key]: PostgreSQL's result is one permutation sorted by the key; where the key
    ends in the row's id there is only one. *)
Definition order_by {A} (key : A -> list Z) (l : list A) : list A := merge_sort (by_keys key) l.

(** A nullable column: ASC NULLS FIRST, and ASC (nulls last). *)
Definition nulls_first (o : option Z) : list Z := match o with None => [0; 0] | Some z => [1; z] end.
Definition nulls_last (o : option Z) : list Z := match o with None => [1; 0] | Some z => [0; z] end.

(** [ROW_NUMBER() OVER (PARTITION BY part)] of a list already in the window's order. *)
Fixpoint number {A P} `{EqDecision P} (part : A -> P) (seen : list P) (l : list A) : list (A * Z) :=
  match l with
  | [] => []
  | x :: l' => (x, 1 + Z.of_nat (length (filter (fun p => p = part x) seen))) :: number part (part x :: seen) l'
  end.

Definition row_number {A P} `{EqDecision P} (part : A -> P) (key : A -> list Z) (l : list A) : list (A * Z) :=
  number part [] (order_by key l).

(** [DISTINCT ON (part)] of a list already in order: the first row of each part. *)
Fixpoint distinct_on {A P} `{EqDecision P} (part : A -> P) (seen : list P) (l : list A) : list A :=
  match l with
  | [] => []
  | x :: l' => if decide (part x ∈ seen) then distinct_on part seen l'
               else x :: distinct_on part (part x :: seen) l'
  end.

(** ** The loose index scan: the next key strictly above the last one, until there is none *)

Section loose_scan.
Variable text_lt : string -> string -> bool.

(** Row comparison [(a, b, ..) < (a', b', ..)]. *)
Fixpoint row_lt (a b : list string) : bool :=
  match a, b with
  | x :: a', y :: b' => text_lt x y || (bool_decide (x = y) && row_lt a' b')
  | _, _ => false
  end.

(** [ORDER BY key LIMIT 1]. *)
Fixpoint least (ks : list (list string)) : option (list string) :=
  match ks with
  | [] => None
  | k :: ks' => match least ks' with
                | Some b => if row_lt b k then Some b else Some k
                | None => Some k
                end
  end.

Fixpoint scan_from (fuel : nat) (cur : list string) (ks : list (list string)) : list (list string) :=
  match fuel with
  | O => []
  | S n => match least (filter (fun k => row_lt cur k = true) ks) with
           | Some k => k :: scan_from n k ks
           | None => []
           end
  end.

Definition loose_scan (ks : list (list string)) : list (list string) :=
  match least ks with
  | Some k => k :: scan_from (length ks) k ks
  | None => []
  end.
End loose_scan.

(** ** The workflow fence *)

Definition WF_LOOP_ESCALATION_STEP_KEY : string := "loop.escalation".

(** [EXISTS (SELECT 1 FROM jobs f WHERE f.id = (metadata->>'flow_id')::uuid AND f.status IN terminal)]. *)
Definition flow_over (F : fleet) (j : job) : bool :=
  match flow_of j with
  | Some f => match fjobs F !! f with Some r => terminal (status r) | None => false end
  | None => false
  end.

Definition wf_exec_capable (F : fleet) (worker : Z) : bool := default false (executes F !! worker).

Definition step_is (s : string) (c : wcols) : bool := bool_decide (step_key c = s).

Definition _wf_dispatch_fence (F : fleet) (worker : Z) (x : Z * job) : bool :=
  match cols (wf F) !! x.1 with
  | None => true
  | Some c => negb (step_is FLOW_STEP_KEY c) && wf_exec_capable F worker &&
              (step_is WF_LOOP_ESCALATION_STEP_KEY c || negb (flow_over F x.2))
  end.

Definition _wf_probe_fence (F : fleet) (x : Z * job) : bool :=
  negb match cols (wf F) !! x.1 with
       | None => false
       | Some c => step_is FLOW_STEP_KEY c || (negb (step_is WF_LOOP_ESCALATION_STEP_KEY c) && flow_over F x.2)
       end.

(** ** The statement's CTEs *)

Section statement.
Variable C : claim_call.

Local Notation F := (world C).

(** The rows of [jobs], in some order. *)
Definition table_rows : list (Z * job) := in_order (fjobs F).

Definition queue_of (x : Z * job) : string := queue (cols_at F x.1).
Definition cohort_of (x : Z * job) : string := cohort (cols_at F x.1).

(** [status = 'pending' AND deps_pending = 0]. *)
Definition ready (x : Z * job) : bool := is_status pending x.2 && (deps_pending x.2 =? 0).

Definition fenced_in (x : Z * job) : bool := _wf_dispatch_fence F (claimer C) x.

(** [scheduled_at <= st AND (schedule_to_close IS NULL OR schedule_to_close > st)]. *)
Definition due (x : Z * job) : bool :=
  (scheduled_at x.2 <=? now C) &&
  match schedule_to_close x.2 with None => true | Some t => now C <? t end.

Definition polled (q : string) : bool := bool_decide (q ∈ on C).

(** The key walks' populations. *)
Definition labelled_rows : list (Z * job) :=
  filter (fun x => is_status pending x.2 = true /\ assignment_routed x.2 = false /\ polled (queue_of x) = true)
    table_rows.

Definition pa_keys : list (list string) :=
  loose_scan (text_lt C) (map (fun x => [queue_of x; actor x.2]) labelled_rows).

Definition rr_keys : list (list string) :=
  loose_scan (text_lt C) (map (fun x => [actor x.2; queue_of x; cohort_of x]) labelled_rows).

Definition rr_tail_keys : list (list string) :=
  loose_scan (text_lt C)
    (map (fun x => [actor x.2; cohort_of x])
       (filter (fun x => ready x = true /\ assignment_routed x.2 = true) table_rows)).

Definition nth_text (n : nat) (k : list string) : string := default ""%string (k !! n).

Definition pa_actors : list string :=
  remove_dups (match sql C with
               | round_robin => map (nth_text 0) rr_keys
               | _ => map (nth_text 1) pa_keys
               end).

Definition tail_actors : list string := remove_dups (map (nth_text 0) rr_tail_keys).

(** Actor and [in_flight], for the live actors the registry knows. *)
Definition capped_running : list (string * Z) :=
  omap (fun a => match actor_config F !! a with
                 | Some ac => Some (a, match max_concurrent ac with None => 0 | Some _ => running_in F a end)
                 | None => None
                 end) (remove_dups (pa_actors ++ tail_actors)).

(** [COALESCE((SELECT in_flight FROM capped_running WHERE actor = a), 0)]. *)
Definition in_flight (a : string) : Z :=
  match head (filter (fun p => p.1 = a) capped_running) with Some p => p.2 | None => 0 end.

Definition running_identity (a k : string) : bool :=
  existsb (fun x => is_status running x.2 && bool_decide (actor x.2 = a) &&
                    bool_decide (identity_key (cols_at F x.1) = Some k)) table_rows.

(** Live non-keyed holds, as (actor, bucket). *)
Definition holds (a b : string) : bool :=
  existsb (fun r => held_now (now C) r.2 && negb (s_keyed r.2) &&
             match s_job r.2 with
             | Some id => match fjobs F !! id with Some j => bool_decide (actor j = a) | None => false end
             | None => false
             end) (in_order (rows (reservation_slots F) b)).

Definition reservation_holdings (a : string) : list string :=
  filter (fun b => holds a b = true) (map fst (map_to_list (reservation_slots F))).

Definition free_slots (b : string) : Z :=
  Z.of_nat (length (filter (fun r => acquirable (now C) r.2 = true) (in_order (rows (reservation_slots F) b)))).

Definition QUEUE_CONCURRENCY_PREFIX : string := "taskq:global:queue:".

(** [left(b, len) = prefix], and [substring(b from len + 1)]. *)
Definition is_queue_cap (b : string) : bool := String.prefix QUEUE_CONCURRENCY_PREFIX b.
Definition queue_of_bucket (b : string) : string :=
  let n := String.length QUEUE_CONCURRENCY_PREFIX in String.substring n (String.length b - n) b.

Definition min_over (l : list Z) : option Z := foldr (fun z acc => opt_min (Some z) acc) None l.

Definition reservation_headroom (a : string) : option Z :=
  min_over (map free_slots (filter (fun b => is_queue_cap b = false) (reservation_holdings a))).

Definition queue_cap_headroom (a q : string) : option Z :=
  min_over (map free_slots
    (filter (fun b => is_queue_cap b = true /\ queue_of_bucket b = q) (reservation_holdings a))).

(** [LEAST(x, o)]: a NULL argument is ignored. *)
Definition least_of (x : Z) (o : option Z) : Z := match o with Some y => Z.min x y | None => x end.

Definition has_pending (a : string) : bool :=
  existsb (fun q => existsb (fun x => bool_decide (actor x.2 = a) && bool_decide (queue_of x = q) &&
                                      negb (assignment_routed x.2) && ready x && cursor_bound (sql C) x.1)
                      table_rows) (on C).

Record capacity := { k_actor : string; k_cap : option Z; k_residual : Z; k_stamp : option Z }.

(** The shared residual: the cap less what runs, or the round's limit; folded with the headroom. *)
Definition residual (a : string) (ac : actor_row) : Z :=
  least_of (match max_concurrent ac with
            | None => Z.of_nat (limit_n C)
            | Some m => Z.max (m - in_flight a) 0
            end) (reservation_headroom a).

Definition capacity_of (a : string) (ac : actor_row) : capacity :=
  {| k_actor := a; k_cap := max_concurrent ac; k_residual := residual a ac; k_stamp := last_claimed_at ac |}.

Definition per_actor_capacity : list capacity :=
  omap (fun a => match actor_config F !! a with
                 | Some ac => if has_pending a then Some (capacity_of a ac) else None
                 | None => None
                 end) pa_actors.

Definition repend_capacity : list capacity :=
  omap (fun a => match actor_config F !! a with
                 | Some ac => if polled (assignment ac) then Some (capacity_of a ac) else None
                 | None => None
                 end) tail_actors.

(** *** Candidates *)

Definition fifo_key (x : Z * job) : list Z := [- priority (cols_at F x.1); scheduled_at x.2; x.1].

(** One bounded probe: the scan bound, then the admission window over it. *)
Definition probe (p : Z * job -> bool) (window : Z) : list (Z * job) :=
  take (Z.to_nat window * oversample C)
    (take (limit_n C * oversample C) (order_by fifo_key (filter (fun x => p x = true) table_rows))).

Definition label_where (a q : string) (x : Z * job) : bool :=
  bool_decide (actor x.2 = a) && bool_decide (queue_of x = q) && negb (assignment_routed x.2) &&
  ready x && fenced_in x && due x.

Definition repended_where (a c : string) (x : Z * job) : bool :=
  bool_decide (actor x.2 = a) && assignment_routed x.2 && ready x && fenced_in x &&
  bool_decide (cohort_of x = c) && due x.

Definition strict_lateral (k : capacity) (q : string) : list ((Z * job) * option Z) :=
  map (fun x => (x, None))
    (probe (fun x => label_where (k_actor k) q x && cursor_bound (sql C) x.1)
       (least_of (k_residual k) (queue_cap_headroom (k_actor k) q))).

(** The fairness rank of the union of the cohorts' probes. *)
Definition fairness_ranks (l : list (Z * job)) : list ((Z * job) * option Z) :=
  map (fun y => (y.1, Some y.2)) (row_number cohort_of fifo_key l).

Definition round_robin_lateral (k : capacity) (q : string) : list ((Z * job) * option Z) :=
  fairness_ranks
    (mjoin (map (fun key => probe (fun x => label_where (k_actor k) q x && bool_decide (cohort_of x = nth_text 2 key))
                              (least_of (k_residual k) (queue_cap_headroom (k_actor k) q)))
       (filter (fun key => nth_text 0 key = k_actor k /\ nth_text 1 key = q) rr_keys))).

Definition repended_probes (k : capacity) : list (Z * job) :=
  mjoin (map (fun key => probe (repended_where (k_actor k) (nth_text 1 key)) (k_residual k))
    (filter (fun key => nth_text 0 key = k_actor k) rr_tail_keys)).

Definition repended_lateral (k : capacity) : list ((Z * job) * option Z) :=
  match sql C with
  | round_robin => fairness_ranks (repended_probes k)
  | _ => map (fun x => (x, None)) (repended_probes k)
  end.

Record candidate := { c_row : Z * job; c_fair : option Z; c_cap : capacity; c_rank : Z }.

Definition c_id (c : candidate) : Z := (c_row c).1.
Definition c_who (c : candidate) : string := actor (c_row c).2.
Definition c_identity (c : candidate) : option string := identity_key (cols_at F (c_id c)).

(** A candidate before it is ranked. *)
Definition candidate_of (k : capacity) (y : (Z * job) * option Z) : candidate :=
  {| c_row := y.1; c_fair := y.2; c_cap := k; c_rank := 0 |}.

Definition label_arm : list candidate :=
  mjoin (map (fun k => mjoin (map (fun q => map (candidate_of k)
      (match sql C with round_robin => round_robin_lateral k q | _ => strict_lateral k q end)) (on C)))
    (filter (fun k => 0 < k_residual k) per_actor_capacity)).

Definition repended_arm : list candidate :=
  mjoin (map (fun k => map (candidate_of k) (repended_lateral k))
    (filter (fun k => 0 < k_residual k) repend_capacity)).

Definition candidates : list candidate := label_arm ++ repended_arm.

(** *** Identity deduplication and ranks *)

Definition c_fifo (c : candidate) : list Z := fifo_key (c_row c).

Definition identity_free (c : candidate) : bool :=
  match c_identity c with Some k => negb (running_identity (c_who c) k) | None => false end.

Definition identity_dedup : list candidate :=
  distinct_on (fun c => (c_who c, c_identity c)) []
    (order_by c_fifo (filter (fun c => identity_free c = true) candidates)) ++
  filter (fun c => c_identity c = None) candidates.

(** Round robin orders by fairness rank first; strict ranks are NULL. *)
Definition rank_key (c : candidate) : list Z := nulls_last (c_fair c) ++ c_fifo c.

Definition ranked : list candidate :=
  map (fun y => {| c_row := c_row y.1; c_fair := c_fair y.1; c_cap := c_cap y.1; c_rank := y.2 |})
    (row_number c_who rank_key identity_dedup).

(** *** The two lock steps *)

Definition capped (c : candidate) : bool := match k_cap (c_cap c) with Some _ => true | None => false end.

(** [ORDER BY pending_rank, priority DESC, actor_claimed_at ASC NULLS FIRST, scheduled_at, id]. *)
Definition cut_key (c : candidate) : list Z :=
  [c_rank c; - priority (cols_at F (c_id c))] ++ nulls_first (k_stamp (c_cap c)) ++
  [scheduled_at (c_row c).2; c_id c].

Definition top_ids : list candidate :=
  take (limit_n C) (order_by cut_key (filter (fun c => capped c = true) ranked)).

(** The row lock: the row still qualifies and no peer has it. *)
Definition lockable (c : candidate) : bool :=
  ready (c_row c) && fenced_in (c_row c) && negb (bool_decide (c_id c ∈ passed C)).

Definition locked : list candidate := filter (fun c => lockable c = true) top_ids.

Definition sliding_locked : list candidate :=
  take (limit_n C)
    (filter (fun c => lockable c = true) (order_by cut_key (filter (fun c => capped c = false) ranked))).

Definition claimed : list candidate := locked ++ sliding_locked.

(** *** The post-lock limit *)

Definition actor_cap (a : string) : option Z := actor_config F !! a ≫= max_concurrent.

Definition actor_rank_key (c : candidate) : list Z :=
  nulls_last (c_fair c) ++ [- priority (cols_at F (c_id c)); scheduled_at (c_row c).2; tie_rank C (c_id c)].

(** [max_concurrent IS NULL OR in_flight < max_concurrent]. *)
Definition below_cap (c : candidate) : bool :=
  match actor_cap (c_who c) with None => true | Some m => in_flight (c_who c) <? m end.

(** The WHERE precedes the window: the rows whose actor is below its cap, numbered. *)
Definition eligible_candidates : list (candidate * Z) :=
  row_number c_who actor_rank_key (filter (fun c => below_cap c = true) claimed).

(** [max_concurrent IS NULL OR actor_rank <= max_concurrent - in_flight]. *)
Definition within_cap (y : candidate * Z) : bool :=
  match actor_cap (c_who y.1) with None => true | Some m => y.2 <=? m - in_flight (c_who y.1) end.

Definition eligible_key (y : candidate * Z) : list Z :=
  let c := y.1 in
  [c_rank c] ++ nulls_last (c_fair c) ++ [- priority (cols_at F (c_id c))] ++
  nulls_first (k_stamp (c_cap c)) ++ [scheduled_at (c_row c).2; tie_cut C (c_id c)].

Definition eligible : list candidate :=
  map fst (take (limit_n C) (order_by eligible_key (filter (fun y => within_cap y = true) eligible_candidates))).

(** *** The writes *)

(** The ids the UPDATE's WHERE leaves: the array, and the fence once more. *)
Definition claim_ids : list Z :=
  map c_id (filter (fun c => fenced_in (c_row c) = true) eligible).

Definition stamp_rows : list string :=
  filter (fun a => a ∉ unstamped C) (remove_dups (map c_who eligible)).

Definition stamp (cfg : gmap string actor_row) : gmap string actor_row :=
  foldl (fun m a => alter (fun r => r <| last_claimed_at := Some (now C) |>) a m) cfg stamp_rows.

(** The statement, no peer committing meanwhile: the claims, the stamps, and the ids it returns. *)
Definition dispatch_batch (clk : nat -> Z) : fleet * list Z :=
  (F <| wf ::= fun W => W <| base ::= claim_rows (fun _ => true) clk (claimer C) (lock_lease C) claim_ids |> |>
     <| actor_config ::= stamp |>,
   remove_dups claim_ids).

(** The statement beside peers that commit while it runs.  Its reads are of its snapshot [F]: the
    capacities, the running counts and identities, the candidates.  Its lock steps and its
    UPDATE meet the rows as they are by then, in [G]: a row is checked again when it is locked, and one
    that does not qualify any more is not written. *)
Definition still_lockable (G : fleet) (id : Z) : bool :=
  match fjobs G !! id with
  | Some j => ready (id, j) && _wf_dispatch_fence G (claimer C) (id, j)
  | None => false
  end.

Definition landing_ids (G : fleet) : list Z := filter (fun id => still_lockable G id = true) claim_ids.

Definition dispatch_landing (clk : nat -> Z) (G : fleet) : fleet * list Z :=
  (G <| wf ::= fun W => W <| base ::= claim_rows (fun _ => true) clk (claimer C) (lock_lease C) (landing_ids G) |> |>
     <| actor_config ::= stamp |>,
   remove_dups (landing_ids G)).
End statement.
