(* ===== verification/DispatchOrder.v ===== *)
(** * Sorted cuts, row numbers and loose index scans

    What the claim statement's building blocks ([Dispatch]) guarantee, whatever rows they run
    over: a cut of a sorted list keeps every row that sorts strictly before a kept one; row
    numbers grow with the order and count their partition; the loose index scan enumerates
    exactly the distinct keys. *)

From Stdlib Require Import ZArith Lia OrdersEx.
From stdpp Require Import base tactics list gmap strings sorting.
From S2P Require Import Prelude Dispatch.

Open Scope Z_scope.

(** ** Sort keys *)

Lemma lex_le_refl a : lex_le a a = true.
Proof. induction a as [|x a IH]; simpl; [done|]. rewrite Z.eqb_refl, IH. by rewrite orb_true_r. Qed.

Lemma lex_le_total a b : lex_le a b = true \/ lex_le b a = true.
Proof.
  revert b. induction a as [|x a IH]; intros [|y b]; simpl; auto.
  destruct (Z.lt_trichotomy x y) as [H|[->|H]].
  - left. by rewrite (proj2 (Z.ltb_lt _ _) H).
  - rewrite Z.eqb_refl, Z.ltb_irrefl. apply IH.
  - right. by rewrite (proj2 (Z.ltb_lt _ _) H).
Qed.

Lemma lex_le_trans a b c : lex_le a b = true -> lex_le b c = true -> lex_le a c = true.
Proof.
  revert b c. induction a as [|x a IH]; intros [|y b] [|z c]; simpl; try done.
  rewrite !orb_true_iff, !andb_true_iff, !Z.ltb_lt, !Z.eqb_eq.
  intros [H1|[-> H1]] [H2|[-> H2]]; [left; lia|left; lia|left; lia|right; eauto].
Qed.

(** Strictly before. *)
Definition lex_lt (a b : list Z) : Prop := lex_le b a = false.

Lemma lex_lt_le a b : lex_lt a b -> lex_le a b = true.
Proof. unfold lex_lt. destruct (lex_le_total a b) as [|H]; [done|]. by rewrite H. Qed.

Lemma lex_lt_cons x y a b : x < y -> lex_lt (x :: a) (y :: b).
Proof.
  intros H. unfold lex_lt. simpl. rewrite (proj2 (Z.ltb_ge y x)) by lia.
  by rewrite (proj2 (Z.eqb_neq y x)) by lia.
Qed.

Lemma lex_lt_skip x a b : lex_lt a b -> lex_lt (x :: a) (x :: b).
Proof. intros H. unfold lex_lt. simpl. by rewrite Z.ltb_irrefl, Z.eqb_refl, H. Qed.

Lemma lex_lt_app p a b : lex_lt a b -> lex_lt (p ++ a) (p ++ b).
Proof. intros H. induction p; simpl; auto using lex_lt_skip. Qed.

(** A strict difference within equally long prefixes decides, whatever follows. *)
Lemma lex_lt_prefix p q a b : length p = length q -> lex_lt p q -> lex_lt (p ++ a) (q ++ b).
Proof.
  revert q. induction p as [|x p IH]; intros [|y q]; simpl; try done. intros [= Hl]. unfold lex_lt. simpl.
  rewrite !orb_false_iff, !andb_false_iff. intros [H1 H2]. split; [done|].
  destruct H2 as [|H2]; [by left|right; by apply IH].
Qed.

Lemma lex_lt_nulls_last r s a b : r < s -> lex_lt (nulls_last (Some r) ++ a) (nulls_last (Some s) ++ b).
Proof. intros H. simpl. by apply lex_lt_skip, lex_lt_cons. Qed.

#[export] Instance by_keys_total {A} (key : A -> list Z) : Total (by_keys key).
Proof. intros x y. apply lex_le_total. Qed.

#[export] Instance by_keys_trans {A} (key : A -> list Z) : Transitive (by_keys key).
Proof. intros x y z. apply lex_le_trans. Qed.

Section cuts.
Context {A : Type} (key : A -> list Z).
Implicit Types (l : list A).

Lemma order_by_perm l : order_by key l ≡ₚ l.
Proof. apply merge_sort_Permutation. Qed.

Lemma elem_of_order_by x l : x ∈ order_by key l <-> x ∈ l.
Proof. by rewrite order_by_perm. Qed.

Lemma order_by_sorted l : StronglySorted (by_keys key) (order_by key l).
Proof. apply StronglySorted_merge_sort; apply _. Qed.

Lemma sorted_before l1 l2 x y : StronglySorted (by_keys key) (l1 ++ l2) -> x ∈ l1 -> y ∈ l2 -> by_keys key x y.
Proof.
  induction l1 as [|z l1 IH]; intros Hs Hx Hy; [by apply elem_of_nil in Hx|]. simpl in Hs. inversion Hs as [|? ? Hs' Hf]; subst.
  apply elem_of_cons in Hx as [->|Hx]; [|by apply IH]. rewrite Forall_forall in Hf. apply Hf. set_solver.
Qed.

Lemma sorted_take_keeps n l x y :
  StronglySorted (by_keys key) l -> x ∈ take n l -> y ∈ l -> lex_lt (key y) (key x) -> y ∈ take n l.
Proof.
  intros Hs Hx Hy Hlt. rewrite <- (take_drop n l) in Hy, Hs. apply elem_of_app in Hy as [|Hy]; [done|].
  pose proof (sorted_before _ _ _ _ Hs Hx Hy) as Hb. unfold by_keys, lex_lt in *. congruence.
Qed.

(** A cut keeps every row that sorts strictly before a row it kept. *)
Lemma cut_keeps n l x y :
  x ∈ take n (order_by key l) -> y ∈ l -> lex_lt (key y) (key x) -> y ∈ take n (order_by key l).
Proof. intros Hx Hy. apply sorted_take_keeps; [apply order_by_sorted|done|by apply elem_of_order_by]. Qed.

(** A non-empty cut keeps the first row. *)
Lemma cut_head n l y :
  y ∈ l -> (0 < n)%nat -> (forall z, z ∈ l -> z = y \/ lex_lt (key y) (key z)) -> y ∈ take n (order_by key l).
Proof.
  intros Hy Hn Hmin. destruct (order_by key l) as [|h t] eqn:E.
  - apply (elem_of_order_by y l) in Hy. rewrite E in Hy. by apply elem_of_nil in Hy.
  - assert (h ∈ take n (order_by key l)) as Hh by (rewrite E; destruct n; [lia|simpl; set_solver]).
    rewrite <- E. destruct (Hmin h) as [->|Hlt]; [apply elem_of_order_by; rewrite E; set_solver|done|]. by eapply cut_keeps.
Qed.

Lemma sorted_filter (P : A -> Prop) `{!forall x, Decision (P x)} l :
  StronglySorted (by_keys key) l -> StronglySorted (by_keys key) (filter P l).
Proof.
  induction 1 as [|x l Hs IH Hf]; [constructor|]. rewrite filter_cons. case_decide; [|done]. constructor; [done|].
  rewrite Forall_forall in *. intros y [_ Hy]%list_elem_of_filter. by apply Hf.
Qed.
End cuts.

(** ** Row numbers *)

Section numbers.
Context {A P : Type} `{EqDecision P} (part : A -> P).

Lemma number_fst seen l : map fst (number part seen l) = l.
Proof. revert seen. induction l as [|x l IH]; intros seen; simpl; [done|]. by rewrite IH. Qed.

Definition seen_of (p : P) (seen : list P) : Z := Z.of_nat (length (filter (fun q => q = p) seen)).

Lemma seen_of_cons p q seen : seen_of p (q :: seen) = seen_of p seen + (if decide (q = p) then 1 else 0).
Proof. unfold seen_of. rewrite filter_cons. case_decide; simpl; lia. Qed.

Lemma number_above seen l x n : (x, n) ∈ number part seen l -> seen_of (part x) seen < n.
Proof.
  revert seen. induction l as [|y l IH]; intros seen; simpl; [by intros ?%elem_of_nil|].
  intros [[= -> ->]|H]%elem_of_cons; [unfold seen_of; lia|].
  apply IH in H. rewrite seen_of_cons in H. case_decide; lia.
Qed.

(** At most [r] rows of a partition carry a number up to [r]. *)
Lemma number_count seen l p r :
  Z.of_nat (length (filter (fun y => part y.1 = p /\ y.2 <= r) (number part seen l))) <= Z.max 0 (r - seen_of p seen).
Proof.
  revert seen. induction l as [|x l IH]; intros seen; [simpl; lia|]. cbn [number]. rewrite filter_cons.
  specialize (IH (part x :: seen)). rewrite seen_of_cons in IH. fold (seen_of (part x) seen).
  repeat case_decide; simpl in *; destruct_and?; simplify_eq; try done; lia.
Qed.

Lemma elem_number seen l x : x ∈ l -> exists n, (x, n) ∈ number part seen l.
Proof.
  revert seen. induction l as [|y l IH]; intros seen Hx; [by apply elem_of_nil in Hx|]. simpl.
  apply elem_of_cons in Hx as [->|Hx]; [eexists; apply elem_of_cons; by left|].
  destruct (IH (part y :: seen) Hx) as [n Hn]. exists n. apply elem_of_cons. by right.
Qed.

Lemma number_elem seen l x n : (x, n) ∈ number part seen l -> x ∈ l.
Proof. intros H. rewrite <- (number_fst seen l). apply list_elem_of_fmap. by exists (x, n). Qed.

(** A row strictly before another of its partition carries a smaller number. *)
Lemma number_lt (key : A -> list Z) seen l x y n :
  StronglySorted (by_keys key) l -> (x, n) ∈ number part seen l -> y ∈ l -> part y = part x ->
  lex_lt (key y) (key x) -> exists m, (y, m) ∈ number part seen l /\ m < n.
Proof.
  revert seen. induction l as [|z l IH]; intros seen Hs Hx Hy Hp Hlt; [by apply elem_of_nil in Hy|].
  inversion Hs as [|? ? Hs' Hf]; subst. simpl in *. apply elem_of_cons in Hx as [[= -> ->]|Hx].
  - exfalso. apply elem_of_cons in Hy as [->|Hy]; [unfold lex_lt in Hlt; by rewrite lex_le_refl in Hlt|].
    rewrite Forall_forall in Hf. specialize (Hf y Hy). unfold by_keys, lex_lt in *. congruence.
  - apply elem_of_cons in Hy as [->|Hy].
    + eexists. split; [apply elem_of_cons; by left|]. apply number_above in Hx.
      rewrite seen_of_cons, <- Hp in Hx. unfold seen_of in Hx. rewrite decide_True in Hx by done. lia.
    + destruct (IH (part z :: seen)) as (m & Hm & ?); [done..|]. exists m. split; [|done]. apply elem_of_cons. by right.
Qed.

(** The first row of its partition is number one. *)
Lemma number_head (key : A -> list Z) seen l y :
  StronglySorted (by_keys key) l -> y ∈ l -> part y ∉ seen ->
  (forall z, z ∈ l -> part z = part y -> z = y \/ lex_lt (key y) (key z)) -> (y, 1) ∈ number part seen l.
Proof.
  revert seen. induction l as [|z l IH]; intros seen Hs Hy Hn Hmin; [by apply elem_of_nil in Hy|].
  inversion Hs as [|? ? Hs' Hf]; subst. simpl. destruct (decide (part z = part y)) as [Hp|Hp].
  - destruct (Hmin z) as [->|Hlt]; [set_solver|done|..].
    + apply elem_of_cons. left. fold (seen_of (part y) seen). unfold seen_of. destruct (filter _ seen) as [|q qs] eqn:Eq; [done|].
      exfalso. assert (q ∈ filter (fun q => q = part y) seen) as [-> Hq]%list_elem_of_filter by (rewrite Eq; set_solver).
      by apply Hn.
    + exfalso. apply elem_of_cons in Hy as [->|Hy]; [unfold lex_lt in Hlt; by rewrite lex_le_refl in Hlt|].
      rewrite Forall_forall in Hf. specialize (Hf y Hy). unfold by_keys, lex_lt in *. congruence.
  - apply elem_of_cons. right. apply IH; [done|set_solver|set_solver|]. intros z' Hz'. apply Hmin. set_solver.
Qed.

Lemma number_one seen l y : y ∈ l -> part y ∉ seen -> exists z, (z, 1) ∈ number part seen l /\ part z = part y.
Proof.
  revert seen. induction l as [|z l IH]; intros seen Hy Hn; [by apply elem_of_nil in Hy|]. simpl.
  destruct (decide (part z = part y)) as [Hp|Hp].
  - exists z. split; [|done]. apply elem_of_cons. left. f_equal. rewrite Hp. fold (seen_of (part y) seen).
    unfold seen_of. destruct (filter _ seen) as [|q qs] eqn:Eq; [done|]. exfalso.
    assert (q ∈ filter (fun q => q = part y) seen) as [-> Hq]%list_elem_of_filter by (rewrite Eq; set_solver). by apply Hn.
  - destruct (IH (part z :: seen)) as (w & Hw & Hp'); [set_solver|set_solver|]. exists w. split; [|done]. apply elem_of_cons. by right.
Qed.
End numbers.

Lemma row_number_perm {A P} `{EqDecision P} (part : A -> P) key (l : list A) :
  map fst (row_number part key l) ≡ₚ l.
Proof. unfold row_number. rewrite number_fst. apply order_by_perm. Qed.

Lemma elem_row_number {A P} `{EqDecision P} (part : A -> P) key (l : list A) x n :
  (x, n) ∈ row_number part key l -> x ∈ l.
Proof. intros H%number_elem. by apply elem_of_order_by in H. Qed.

Lemma row_number_elem {A P} `{EqDecision P} (part : A -> P) key (l : list A) x :
  x ∈ l -> exists n, (x, n) ∈ row_number part key l.
Proof. intros H. apply elem_number. by apply elem_of_order_by. Qed.

Lemma row_number_lt {A P} `{EqDecision P} (part : A -> P) key (l : list A) x y n :
  (x, n) ∈ row_number part key l -> y ∈ l -> part y = part x -> lex_lt (key y) (key x) ->
  exists m, (y, m) ∈ row_number part key l /\ m < n.
Proof. intros Hx Hy. eapply number_lt; [apply order_by_sorted|done|by apply elem_of_order_by]. Qed.

(** ** The first row of each part *)

Lemma distinct_on_elem {A P} `{EqDecision P} (part : A -> P) seen l x :
  x ∈ distinct_on part seen l -> x ∈ l /\ part x ∉ seen.
Proof.
  revert seen. induction l as [|y l IH]; intros seen; simpl; [by intros ?%elem_of_nil|].
  case_decide as Hd; [intros [? ?]%IH; set_solver|]. intros [->|H]%elem_of_cons; [set_solver|].
  apply IH in H as [? ?]. set_solver.
Qed.

Lemma distinct_on_some {A P} `{EqDecision P} (part : A -> P) seen l x :
  x ∈ l -> part x ∉ seen -> exists y, y ∈ distinct_on part seen l /\ part y = part x.
Proof.
  revert seen. induction l as [|z l IH]; intros seen Hx Hs; [by apply elem_of_nil in Hx|]. simpl.
  apply elem_of_cons in Hx as [->|Hx].
  - rewrite decide_False by done. exists z. split; [by left|done].
  - destruct (decide (part z ∈ seen)); [by apply IH|]. destruct (decide (part x = part z)) as [E|E].
    + exists z. split; [by left|done].
    + destruct (IH (part z :: seen) Hx) as (y & Hy & Ey); [set_solver|]. exists y. split; [by right|done].
Qed.

Lemma distinct_on_unique {A P} `{EqDecision P} (part : A -> P) seen l x y :
  x ∈ distinct_on part seen l -> y ∈ distinct_on part seen l -> part x = part y -> x = y.
Proof.
  revert seen. induction l as [|z l IH]; intros seen; simpl; [by intros ?%elem_of_nil|].
  case_decide; [apply IH|]. intros [->|Hx]%elem_of_cons [->|Hy]%elem_of_cons Hp; try done.
  - apply distinct_on_elem in Hy as [_ Hy]. set_solver.
  - apply distinct_on_elem in Hx as [_ Hx]. set_solver.
  - by apply (IH (part z :: seen)).
Qed.

(** ** The loose index scan *)

(** A collation orders texts strictly and totally. *)
Class Collation (text_lt : string -> string -> bool) : Prop := {
  coll_irrefl : forall a, text_lt a a = false;
  coll_trans : forall a b c, text_lt a b = true -> text_lt b c = true -> text_lt a c = true;
  coll_total : forall a b, a = b \/ text_lt a b = true \/ text_lt b a = true
}.

(** The order of the bytes, the collation named C. *)
Definition byte_lt (a b : string) : bool :=
  match String_as_OT.compare a b with Lt => true | _ => false end.

#[export] Instance byte_collation : Collation byte_lt.
Proof.
  assert (forall a b, byte_lt a b = true <-> String_as_OT.lt a b) as Hlt.
  { intros a b. unfold byte_lt, String_as_OT.lt. destruct (String_as_OT.compare a b); split; congruence. }
  split.
  - intros a. apply not_true_iff_false. rewrite Hlt. apply (@StrictOrder_Irreflexive _ _ String_as_OT.lt_strorder).
  - intros a b c. rewrite !Hlt. apply (@StrictOrder_Transitive _ _ String_as_OT.lt_strorder).
  - intros a b. rewrite !Hlt. destruct (String_as_OT.compare_spec a b); auto.
Qed.

Section scans.
Context (text_lt : string -> string -> bool) `{!Collation text_lt}.
Local Notation lt := (row_lt text_lt).

Lemma row_lt_irrefl a : lt a a = false.
Proof. induction a as [|x a IH]; simpl; [done|]. rewrite coll_irrefl, IH. by rewrite andb_false_r. Qed.

Lemma row_lt_trans a b c : lt a b = true -> lt b c = true -> lt a c = true.
Proof.
  revert b c. induction a as [|x a IH]; intros [|y b] [|z c]; simpl; try done.
  rewrite !orb_true_iff, !andb_true_iff, !bool_decide_eq_true.
  intros [H1|[-> H1]] [H2|[-> H2]]; [left; by eapply coll_trans|by left|by left|right; eauto].
Qed.

Lemma row_lt_total a b : length a = length b -> a = b \/ lt a b = true \/ lt b a = true.
Proof.
  revert b. induction a as [|x a IH]; intros [|y b]; simpl; try done; [by left|]. intros [= Hl].
  destruct (coll_total x y) as [->|[H|H]]; [|right; left; by rewrite H|right; right; by rewrite H].
  rewrite coll_irrefl, bool_decide_true by done. simpl.
  destruct (IH b Hl) as [->|[H|H]]; [by left|right; by left|right; by right].
Qed.

Lemma least_elem ks k : least text_lt ks = Some k -> k ∈ ks.
Proof.
  revert k. induction ks as [|x ks IH]; intros k; simpl; [done|].
  destruct (least text_lt ks) as [b|]; [|intros [= ->]; set_solver].
  destruct (lt b x); intros [= ->]; [apply elem_of_cons; right; by apply IH|set_solver].
Qed.

Lemma least_none ks : least text_lt ks = None -> ks = [].
Proof. destruct ks as [|x ks]; simpl; [done|]. destruct (least text_lt ks); [destruct (lt _ _)|]; done. Qed.

Lemma least_below n ks k x :
  Forall (fun k => length k = n) ks -> least text_lt ks = Some k -> x ∈ ks -> lt x k = false.
Proof.
  intros Hl. revert k. induction Hl as [|y ks Hy Hl IH]; intros k; simpl; [done|].
  assert (forall b, least text_lt ks = Some b -> length b = n) as Hlen.
  { intros b Hb. apply least_elem in Hb. rewrite Forall_forall in Hl. by apply Hl. }
  destruct (least text_lt ks) as [b|] eqn:Eb.
  - intros Hk [->|Hx]%elem_of_cons.
    + destruct (lt b y) eqn:E; injection Hk as <-; [|apply row_lt_irrefl].
      destruct (lt y b) eqn:E2; [|done]. by rewrite <- (row_lt_irrefl y), (row_lt_trans _ _ _ E2 E).
    + specialize (IH b eq_refl Hx). destruct (lt b y) eqn:E; injection Hk as <-; [done|].
      destruct (lt x y) eqn:E2; [|done]. destruct (row_lt_total y b) as [->|[H|H]]; [by rewrite Hy, (Hlen b)|..]; try congruence.
      by rewrite <- IH, (row_lt_trans _ _ _ E2 H).
  - intros [= <-] [->|Hx]%elem_of_cons; [apply row_lt_irrefl|]. apply least_none in Eb. by subst; apply elem_of_nil in Hx.
Qed.

Lemma scan_from_elem fuel cur ks k : k ∈ scan_from text_lt fuel cur ks -> k ∈ ks.
Proof.
  revert cur. induction fuel as [|fuel IH]; intros cur; simpl; [by intros ?%elem_of_nil|].
  destruct (least _ _) as [b|] eqn:E; [|by intros ?%elem_of_nil].
  intros [->|H]%elem_of_cons; [|by eapply IH]. apply least_elem in E. by apply list_elem_of_filter in E as [_ ?].
Qed.

Lemma above_shorter ks cur b :
  lt cur b = true -> b ∈ ks ->
  (length (filter (fun k => lt b k = true) ks) < length (filter (fun k => lt cur k = true) ks))%nat.
Proof.
  intros Hb. assert (forall l, length (filter (fun k => lt b k = true) l) <= length (filter (fun k => lt cur k = true) l))%nat as Hle.
  { induction l as [|x l IH]; [done|]. rewrite !filter_cons. repeat case_decide; simpl; try lia.
    exfalso. eauto using row_lt_trans. }
  induction ks as [|x ks IH]; intros Hin; [by apply elem_of_nil in Hin|]. rewrite !filter_cons.
  apply elem_of_cons in Hin as [<-|Hin].
  - rewrite decide_False by (rewrite row_lt_irrefl; done). rewrite decide_True by done. simpl. specialize (Hle ks). lia.
  - specialize (IH Hin). repeat case_decide; simpl; try lia. exfalso. eauto using row_lt_trans.
Qed.

Lemma scan_from_sorted fuel cur ks :
  StronglySorted (fun a b => lt a b = true) (scan_from text_lt fuel cur ks) /\
  Forall (fun k => lt cur k = true) (scan_from text_lt fuel cur ks).
Proof.
  revert cur. induction fuel as [|fuel IH]; intros cur; simpl; [split; constructor|].
  destruct (least _ _) as [b|] eqn:E; [|split; constructor].
  apply least_elem, list_elem_of_filter in E as [Hb _]. destruct (IH b) as [Hs Hf]. split; [by constructor|].
  constructor; [done|]. eapply Forall_impl; [exact Hf|]. intros k. by apply row_lt_trans.
Qed.

Lemma scan_from_all n fuel cur ks k :
  Forall (fun k => length k = n) ks -> (length (filter (fun k => lt cur k = true) ks) <= fuel)%nat ->
  k ∈ ks -> lt cur k = true -> k ∈ scan_from text_lt fuel cur ks.
Proof.
  intros Hl. revert cur. induction fuel as [|fuel IH]; intros cur Hf Hk Hlt.
  - exfalso. assert (k ∈ filter (fun k => lt cur k = true) ks) as Hi by (by apply list_elem_of_filter).
    destruct (filter (fun k => lt cur k = true) ks); [by apply elem_of_nil in Hi|simpl in Hf; lia].
  - simpl. assert (k ∈ filter (fun k => lt cur k = true) ks) as Hi by (by apply list_elem_of_filter).
    destruct (least text_lt (filter _ ks)) as [b|] eqn:E; [|apply least_none in E; rewrite E in Hi; by apply elem_of_nil in Hi].
    assert (lt k b = false) as Hkb by (eapply (least_below n); [|exact E|done]; rewrite Forall_forall in *; intros ? [_ ?]%list_elem_of_filter; auto).
    apply least_elem, list_elem_of_filter in E as [Hcb Hb]. rewrite Forall_forall in Hl.
    destruct (row_lt_total k b) as [->|[H|H]]; [by rewrite !Hl|set_solver|congruence|]. apply elem_of_cons. right.
    apply IH; [|done..]. pose proof (above_shorter ks cur b Hcb Hb). lia.
Qed.

(** The scan enumerates the distinct keys, in order. *)
Lemma loose_scan_elem n ks k : Forall (fun k => length k = n) ks -> k ∈ loose_scan text_lt ks <-> k ∈ ks.
Proof.
  intros Hl. unfold loose_scan. destruct (least text_lt ks) as [b|] eqn:E; [|by apply least_none in E as ->].
  pose proof (least_elem _ _ E) as Hb. split.
  - intros [->|H]%elem_of_cons; [done|]. by eapply scan_from_elem.
  - intros Hk. pose proof (least_below n _ _ k Hl E Hk) as Hkb. rewrite Forall_forall in Hl.
    destruct (row_lt_total k b) as [->|[H|H]]; [by rewrite !Hl|set_solver|congruence|]. apply elem_of_cons. right.
    apply (scan_from_all n); [by rewrite Forall_forall| |done|done]. apply length_filter.
Qed.

Lemma loose_scan_sorted ks : StronglySorted (fun a b => lt a b = true) (loose_scan text_lt ks).
Proof.
  unfold loose_scan. destruct (least text_lt ks) as [b|]; [|constructor].
  destruct (scan_from_sorted (length ks) b ks) as [Hs Hf]. by constructor.
Qed.
End scans.

(** The loose index scan, which seeks the next key strictly above the last instead of reading
    every row, enumerates exactly the distinct keys of the rows, each once and in order, whatever
    the collation; keys of [n] columns. *)
Theorem loose_scan_distinct text_lt n ks :
  Collation text_lt -> Forall (fun k => length k = n) ks ->
  (forall k, k ∈ loose_scan text_lt ks <-> k ∈ ks) /\ NoDup (loose_scan text_lt ks) /\
  StronglySorted (fun a b => row_lt text_lt a b = true) (loose_scan text_lt ks).
Proof.
  intros Hc Hl. pose proof (loose_scan_sorted text_lt ks) as Hs. split_and!; [intros k; by apply (loose_scan_elem text_lt n)| |done].
  induction Hs as [|k l Hs IH Hf]; constructor; [|done]. intros Hin. rewrite Forall_forall in Hf. specialize (Hf k Hin).
  by rewrite row_lt_irrefl in Hf.
Qed.

Lemma loose_scan_distinct_witness :
  loose_scan byte_lt [["b"; "y"]; ["a"; "z"]; ["b"; "x"]; ["a"; "z"]]%string = [["a"; "z"]; ["b"; "x"]; ["b"; "y"]]%string /\
  NoDup (loose_scan byte_lt [["b"; "y"]; ["a"; "z"]; ["b"; "x"]; ["a"; "z"]]%string).
Proof.
  split; [vm_compute; reflexivity|].
  exact (proj1 (proj2 (loose_scan_distinct byte_lt 2 [["b"; "y"]; ["a"; "z"]; ["b"; "x"]; ["a"; "z"]]%string byte_collation
           (ltac:(repeat constructor))))).
Defined.
