(* ===== verification/DispatchDemo.v ===== *)
(** * Small fleets

    Concrete fleets and claim calls the dispatch witnesses and examples run on. *)

From Stdlib Require Import ZArith Lia.
From stdpp Require Import base tactics list gmap strings sorting.
From S2P Require Import Prelude PyFloat JobRow Terminal Control Lifecycle Reservation Workflow Dispatch DispatchOrder.

Open Scope Z_scope.

(** A pending row of [a], due at [t]. *)
Definition due_row (a : string) (t : Z) : job :=
  demo_job <| status := pending |> <| actor := a |> <| scheduled_at := t |> <| attempt := 0 |>
    <| claim_epoch := 0 |> <| started_at := None |> <| locked_by_worker := None |> <| lock_expires_at := None |>
    <| last_heartbeat_at := None |> <| schedule_to_close := None |>.

Definition on_queue (q : string) : dcols := {| queue := q; priority := 0; identity_key := None; fairness_key := None |}.

Definition keyed (k : string) : dcols :=
  {| queue := "default"; priority := 0; identity_key := Some k; fairness_key := None |}.

Definition in_cohort (k : string) : dcols :=
  {| queue := "default"; priority := 0; identity_key := None; fairness_key := Some k |}.

Definition registered (cap : option Z) (last : option Z) : actor_row :=
  {| max_concurrent := cap; assignment := "default"; last_claimed_at := last |}.

Definition demo_fleet (js : gmap Z job) (cs : gmap Z dcols) (acs : gmap string actor_row) (ss : table) : fleet :=
  {| wf := {| base := (demo_db demo_job) <| jobs := js |>; cols := ∅; edges := ∅; fires := ∅; outbox := [];
              ledger := ∅; arbiter := ∅; deadlines := ∅ |};
     placed := cs; actor_config := acs; reservation_slots := ss; executes := {[7 := false]}; queues := ∅ |}.

Definition demo_call (F : fleet) (v : render) (n os : nat) (held : gset Z) : claim_call :=
  {| world := F; sql := v; on := ["default"%string]; limit_n := n; claimer := 7; lock_lease := 60 * usec_per_sec;
     oversample := os; now := 100; text_lt := byte_lt; passed := held; unstamped := ∅;
     tie_rank := fun i => i; tie_cut := fun i => i |}.

(** The ids claimed. *)
Definition claims_of (C : claim_call) : list Z := snd (dispatch_batch C demo_clk).

(** ** Two actors, one behind the other *)

Definition two_actors : fleet :=
  demo_fleet {[1 := due_row "a" 10; 2 := due_row "a" 20; 3 := due_row "b" 30]}
    {[1 := on_queue "default"; 2 := on_queue "default"; 3 := on_queue "default"]}
    {["a" := registered None (Some 1); "b" := registered None (Some 2)]} ∅.

(** ** One capped actor *)

Definition six_rows : gmap Z job :=
  {[1 := due_row "a" 10; 2 := due_row "a" 20; 3 := due_row "a" 30; 4 := due_row "a" 40; 5 := due_row "a" 50;
    6 := due_row "a" 60]}.

Definition six_cols : gmap Z dcols :=
  {[1 := on_queue "default"; 2 := on_queue "default"; 3 := on_queue "default"; 4 := on_queue "default";
    5 := on_queue "default"; 6 := on_queue "default"]}.

Definition capped_fleet (cap : option Z) : fleet :=
  demo_fleet six_rows six_cols {["a"%string := registered cap None]} ∅.

(** ** An actor that holds one of a bucket's two slots *)

Definition held_slot : slot :=
  {| s_job := Some 9; s_worker := Some 7; s_acquired := Some 0; s_lease := Some 1000; s_keyed := false; s_last_used := 0 |}.

Definition holding_fleet (free : Z) : fleet :=
  demo_fleet (<[9 := demo_job]> six_rows) (<[9 := on_queue "default"]> six_cols) {["a"%string := registered None None]}
    {["bucket"%string := <[0 := held_slot]> (list_to_map ((fun i => (i, fresh_slot false 0)) <$> seqZ 1 free))]}.

(** ** Rows of an identity that runs *)

Definition busy_fleet : fleet :=
  demo_fleet (<[9 := demo_job]> six_rows)
    (<[9 := keyed "k"]> {[1 := keyed "k"; 2 := keyed "k"; 3 := keyed "k"; 4 := keyed "k"; 5 := on_queue "default"; 6 := on_queue "default"]})
    {["a"%string := registered None None]} ∅.

(** ** Two cohorts *)

Definition cohorts_fleet : fleet :=
  demo_fleet six_rows
    {[1 := in_cohort "x"; 2 := in_cohort "x"; 3 := in_cohort "x"; 4 := in_cohort "x"; 5 := in_cohort "y"; 6 := on_queue "default"]}
    {["a"%string := registered None None]} ∅.
