(* ===== verification/DispatchProps.v ===== *)
(** * What a claim takes

    Over every fleet and every set of rows the lock steps pass over: the rows a claim
    statement takes qualify, caps and limits hold after it, an identity never runs twice, and
    a row that sorts ahead of a claimed one is not left behind. *)

From Stdlib Require Import ZArith Lia.
From stdpp Require Import base tactics list gmap strings sorting.
From S2P Require Import Prelude JobRow Terminal Control Lifecycle Reservation ReservationProps Workflow Dispatch DispatchOrder DispatchDemo.

Open Scope Z_scope.

Section claims.
Variable C : claim_call.
Local Notation F := (world C).
Implicit Types (c : candidate) (x : Z * job) (k : capacity).

(** ** Every candidate qualifies *)

Lemma elem_of_table x : x ∈ table_rows C <-> fjobs F !! x.1 = Some x.2.
Proof. apply elem_of_in_order. Qed.

Lemma NoDup_table : NoDup (table_rows C).
Proof. unfold table_rows, in_order. rewrite merge_sort_Permutation. apply NoDup_map_to_list. Qed.

(** Producer-placed on a polled queue, at or above the cursor; or handed back, and its actor
    assigned to a polled queue. *)
Definition routed x : Prop :=
  if assignment_routed x.2 then
    exists ac, actor_config F !! actor x.2 = Some ac /\ assignment ac ∈ on C
  else queue_of C x ∈ on C /\ cursor_bound (sql C) x.1 = true.

Record good c : Prop := {
  g_row : fjobs F !! c_id c = Some (c_row c).2;
  g_live : c_who c ∈ pa_actors C ++ tail_actors C;
  g_cfg : exists ac, actor_config F !! c_who c = Some ac /\ c_cap c = capacity_of C (c_who c) ac;
  g_room : 0 < k_residual (c_cap c);
  g_ready : ready (c_row c) = true;
  g_fence : fenced_in C (c_row c) = true;
  g_due : due C (c_row c) = true;
  g_routed : routed (c_row c)
}.

Lemma elem_of_capacity (f : actor_row -> bool) (actors : list string) k :
  k ∈ omap (fun a => match actor_config F !! a with
                     | Some ac => if f ac then Some (capacity_of C a ac) else None
                     | None => None
                     end) actors <->
  exists ac, k_actor k ∈ actors /\ actor_config F !! k_actor k = Some ac /\ f ac = true /\ k = capacity_of C (k_actor k) ac.
Proof.
  rewrite list_elem_of_omap. split.
  - intros (a & Ha & Hk). destruct (actor_config F !! a) as [ac|] eqn:E; [|done].
    destruct (f ac) eqn:Ef; [|done]. injection Hk as <-. eauto.
  - intros (ac & Hin & Hac & Hf & Hk). exists (k_actor k). rewrite Hac, Hf. split; [done|by rewrite <- Hk].
Qed.

Lemma elem_of_repend k :
  k ∈ repend_capacity C <-> exists ac, k_actor k ∈ tail_actors C /\ actor_config F !! k_actor k = Some ac /\
    polled C (assignment ac) = true /\ k = capacity_of C (k_actor k) ac.
Proof. apply (elem_of_capacity (fun ac => polled C (assignment ac))). Qed.

Lemma elem_of_per_actor k :
  k ∈ per_actor_capacity C <-> exists ac, k_actor k ∈ pa_actors C /\ actor_config F !! k_actor k = Some ac /\
    has_pending C (k_actor k) = true /\ k = capacity_of C (k_actor k) ac.
Proof.
  unfold per_actor_capacity. rewrite list_elem_of_omap. split.
  - intros (a & Ha & Hk). destruct (actor_config F !! a) as [ac|] eqn:E; [|done].
    destruct (has_pending C a) eqn:Ef; [|done]. injection Hk as <-. eauto.
  - intros (ac & Hin & Hac & Hf & Hk). exists (k_actor k). rewrite Hac, Hf. split; [done|by rewrite <- Hk].
Qed.

Lemma elem_of_probe p w x : x ∈ probe C p w -> x ∈ table_rows C /\ p x = true.
Proof.
  unfold probe. intros H%subseteq_take%subseteq_take. apply elem_of_order_by, list_elem_of_filter in H. naive_solver.
Qed.

Lemma elem_of_ranks l y : y ∈ fairness_ranks C l -> y.1 ∈ l.
Proof. unfold fairness_ranks. intros ([x n] & -> & H)%list_elem_of_fmap. by apply elem_row_number in H. Qed.

Lemma elem_of_mjoin_map {A B} (f : A -> list B) (l : list A) b : b ∈ mjoin (map f l) <-> exists a, a ∈ l /\ b ∈ f a.
Proof.
  rewrite list_elem_of_join. split.
  - intros (l' & Hb & Hl). apply list_elem_of_fmap in Hl as (a & -> & Ha). eauto.
  - intros (a & Ha & Hb). exists (f a). split; [done|]. apply list_elem_of_fmap. eauto.
Qed.

Lemma elem_of_strict k q y :
  y ∈ strict_lateral C k q -> y.1 ∈ table_rows C /\ label_where C (k_actor k) q y.1 = true /\ cursor_bound (sql C) y.1.1 = true.
Proof.
  unfold strict_lateral. intros (x & -> & H)%list_elem_of_fmap. apply elem_of_probe in H as [Hx Hp]. simpl. zbool. auto.
Qed.

Lemma elem_of_round_robin k q y :
  y ∈ round_robin_lateral C k q -> y.1 ∈ table_rows C /\ label_where C (k_actor k) q y.1 = true.
Proof.
  intros H%elem_of_ranks. apply elem_of_mjoin_map in H as (key & _ & H). apply elem_of_probe in H as [Hx Hp]. zbool. auto.
Qed.

Lemma elem_of_repended_probes k x :
  x ∈ repended_probes C k -> x ∈ table_rows C /\ exists f, repended_where C (k_actor k) f x = true.
Proof. intros H. apply elem_of_mjoin_map in H as (key & _ & H). apply elem_of_probe in H as [Hx Hp]. eauto. Qed.

Lemma elem_of_repended k y :
  y ∈ repended_lateral C k -> y.1 ∈ table_rows C /\ exists f, repended_where C (k_actor k) f y.1 = true.
Proof.
  unfold repended_lateral. intros H. apply elem_of_repended_probes.
  destruct (sql C); [..|by apply elem_of_ranks]; apply list_elem_of_fmap in H as (x & -> & H); done.
Qed.

Lemma label_where_iff a q x :
  label_where C a q x = true <->
  actor x.2 = a /\ queue_of C x = q /\ assignment_routed x.2 = false /\ ready x = true /\ fenced_in C x = true /\ due C x = true.
Proof. unfold label_where. rewrite !andb_true_iff, !bool_decide_eq_true, negb_true_iff. tauto. Qed.

Lemma repended_where_iff a f x :
  repended_where C a f x = true <->
  actor x.2 = a /\ cohort_of C x = f /\ assignment_routed x.2 = true /\ ready x = true /\ fenced_in C x = true /\ due C x = true.
Proof. unfold repended_where. rewrite !andb_true_iff, !bool_decide_eq_true. tauto. Qed.

Lemma label_good k q y :
  k ∈ per_actor_capacity C -> 0 < k_residual k -> q ∈ on C -> y.1 ∈ table_rows C ->
  label_where C (k_actor k) q y.1 = true -> cursor_bound (sql C) y.1.1 = true -> good (candidate_of k y).
Proof.
  intros (ac & Hin & Hac & _ & Hk)%elem_of_per_actor Hr Hq Ht%elem_of_table (Ha & Hqx & Hm & ? & ? & ?)%label_where_iff Hb.
  destruct y as [[i j] f]. simpl in *. subst q. rewrite <- Ha in *.
  split; try done; [unfold c_who; set_solver|by exists ac|]. unfold routed. simpl. by rewrite Hm.
Qed.

Lemma repended_good k f y :
  k ∈ repend_capacity C -> 0 < k_residual k -> y.1 ∈ table_rows C ->
  repended_where C (k_actor k) f y.1 = true -> good (candidate_of k y).
Proof.
  intros (ac & Hin & Hac & Hp & Hk)%elem_of_repend Hr Ht%elem_of_table (Ha & Hc & Hm & ? & ? & ?)%repended_where_iff.
  destruct y as [[i j] g]. simpl in *. rewrite <- Ha in *. unfold polled in Hp. apply bool_decide_eq_true in Hp.
  split; try done; [unfold c_who; set_solver|by exists ac|]. unfold routed. simpl. rewrite Hm. by exists ac.
Qed.

Lemma candidates_good c : c ∈ candidates C -> good c /\ c_rank c = 0.
Proof.
  unfold candidates, label_arm, repended_arm. rewrite elem_of_app, !elem_of_mjoin_map.
  intros [(k & [Hr Hk]%list_elem_of_filter & (q & Hq & H)%elem_of_mjoin_map)|(k & [Hr Hk]%list_elem_of_filter & H)];
    apply list_elem_of_fmap in H as (y & -> & Hy); (split; [|done]).
  - destruct (sql C) eqn:E;
      [apply elem_of_strict in Hy as (? & ? & ?)|apply elem_of_strict in Hy as (? & ? & ?)|apply elem_of_round_robin in Hy as (? & ?)];
      eapply label_good; eauto. by rewrite E.
  - apply elem_of_repended in Hy as (? & f & ?). by eapply repended_good.
Qed.

(** ** From the candidates to the ids *)

(** Ranking changes nothing but the rank. *)
Definition unranked c : candidate := {| c_row := c_row c; c_fair := c_fair c; c_cap := c_cap c; c_rank := 0 |}.

Lemma good_unranked c : good (unranked c) -> good c.
Proof. intros [? ? ? ? ? ? ? ?]. by split. Qed.

Lemma elem_of_dedup c :
  c ∈ identity_dedup C -> c ∈ candidates C /\ (forall i, c_identity C c = Some i -> running_identity C (c_who c) i = false).
Proof.
  unfold identity_dedup. rewrite elem_of_app. intros [H|H].
  - apply distinct_on_elem in H as [H _]. apply elem_of_order_by, list_elem_of_filter in H as [Hf H]. split; [done|].
    intros i Hi. unfold identity_free in Hf. rewrite Hi in Hf. by apply negb_true_iff in Hf.
  - apply list_elem_of_filter in H as [Hf H]. split; [done|]. congruence.
Qed.

Lemma dedup_unique c c' i :
  c ∈ identity_dedup C -> c' ∈ identity_dedup C -> c_identity C c = Some i -> c_identity C c' = Some i ->
  c_who c = c_who c' -> c = c'.
Proof.
  unfold identity_dedup. rewrite !elem_of_app. intros [H|H] [H'|H'] Hi Hi' Hw.
  - eapply distinct_on_unique; eauto. simpl. congruence.
  - apply list_elem_of_filter in H' as [? _]. congruence.
  - apply list_elem_of_filter in H as [? _]. congruence.
  - apply list_elem_of_filter in H as [? _]. congruence.
Qed.

Lemma elem_of_ranked c : c ∈ ranked C -> unranked c ∈ identity_dedup C.
Proof.
  unfold ranked. intros ([c0 n] & -> & H)%list_elem_of_fmap. apply elem_row_number in H.
  assert (c_rank c0 = 0) as Hr by (by apply elem_of_dedup in H as [[_ ?]%candidates_good _]).
  unfold unranked. simpl. rewrite <- Hr. by destruct c0.
Qed.

Lemma elem_of_claimed c : c ∈ claimed C -> c ∈ ranked C /\ lockable C c = true.
Proof.
  unfold claimed, locked, sliding_locked, top_ids. rewrite elem_of_app. intros [H|H].
  - apply list_elem_of_filter in H as [Hl H]. split; [|done].
    apply subseteq_take, elem_of_order_by, list_elem_of_filter in H. naive_solver.
  - apply subseteq_take, list_elem_of_filter in H as [Hl H]. split; [|done].
    apply elem_of_order_by, list_elem_of_filter in H. naive_solver.
Qed.

Lemma elem_of_eligible c :
  c ∈ eligible C -> c ∈ claimed C /\ exists n, (c, n) ∈ eligible_candidates C /\ within_cap C (c, n) = true.
Proof.
  unfold eligible. intros ([c0 n] & -> & H)%list_elem_of_fmap.
  apply subseteq_take, elem_of_order_by, list_elem_of_filter in H as [Hw H]. split; [|by exists n].
  apply elem_row_number, list_elem_of_filter in H. naive_solver.
Qed.

Lemma eligible_good c : c ∈ eligible C -> good c /\ lockable C c = true /\ unranked c ∈ identity_dedup C.
Proof.
  intros [[Hc Hl]%elem_of_claimed _]%elem_of_eligible. apply elem_of_ranked in Hc as Hd. split_and!; [|done..].
  apply good_unranked. by apply elem_of_dedup in Hd as [[? _]%candidates_good _].
Qed.

Lemma elem_of_claim_ids id : id ∈ claim_ids C <-> exists c, c ∈ eligible C /\ c_id c = id.
Proof.
  unfold claim_ids. rewrite list_elem_of_fmap. split.
  - intros (c & -> & H). apply list_elem_of_filter in H as [_ H]. eauto.
  - intros (c & Hc & <-). exists c. split; [done|]. apply list_elem_of_filter. split; [|done].
    apply eligible_good in Hc as [Hg _]. by apply g_fence.
Qed.

(** ** What the UPDATE writes *)

Lemma claim_rows_other clk w l ids d id : id ∉ ids -> jobs (claim_rows (fun _ => true) clk w l ids d) !! id = jobs d !! id.
Proof.
  revert clk d. induction ids as [|i ids IH]; intros clk d Hn; simpl; [done|]. apply not_elem_of_cons in Hn as [Hi Hn].
  rewrite IH by done. unfold claim_row. destruct (select_row _ _ _); [|done]. cbn. by rewrite lookup_insert_ne.
Qed.

(** The claimed row, with the three clock readings that follow each other. *)
Definition claimed_as (clk : nat -> Z) (w l : Z) (j u : job) : Prop :=
  exists n, u = claim_set (clk n) (clk (S n)) (clk (S (S n))) w l j.

Lemma claim_rows_hit clk w l ids d id j :
  id ∈ ids -> jobs d !! id = Some j -> ready (id, j) = true ->
  exists u, jobs (claim_rows (fun _ => true) clk w l ids d) !! id = Some u /\ claimed_as clk w l j u.
Proof.
  revert clk d. induction ids as [|i ids IH]; intros clk d Hin Hj Hr; [by apply elem_of_nil in Hin|]. simpl.
  destruct (decide (i = id)) as [->|Hne].
  - unfold claim_row, select_row, claim_where. unfold ready in Hr. simpl in Hr. rewrite Hj, Hr. simpl.
    pose proof (claim_rows_lookup (fun _ => true) (fun n => clk (3 + n)%nat) w l ids
                  (write_row id (claim_set (clk 0%nat) (clk 1%nat) (clk 2%nat) w l j) d) id) as Hl.
    cbn [jobs write_row assign] in Hl. rewrite lookup_insert_eq in Hl. inversion Hl as [? u Hu Hs Hk|]; subst.
    destruct Hu as [<-|(? & ? & ? & Hp & _)]; [|by unfold claim_set in Hp; row_simpl].
    eexists. split; [done|]. by exists 0%nat.
  - destruct (IH (fun n => clk (3 + n)%nat) (claim_row (fun _ => true) clk w l i d)) as (u & Hu & n & Hn);
      [set_solver| |done|exists u; split; [done|by exists (3 + n)%nat]].
    unfold claim_row. destruct (select_row _ _ _); [|done]. cbn. by rewrite lookup_insert_ne.
Qed.

(** The row a claim takes, and what it must satisfy. *)
Definition claimable x : Prop :=
  status x.2 = pending /\ deps_pending x.2 = 0 /\ _wf_dispatch_fence F (claimer C) x = true /\
  scheduled_at x.2 <= now C /\ (forall t, schedule_to_close x.2 = Some t -> now C < t) /\
  is_Some (actor_config F !! actor x.2) /\ routed x /\
  (forall key i j, identity_key (cols_at F x.1) = Some key -> fjobs F !! i = Some j -> status j = running ->
     actor j = actor x.2 -> identity_key (cols_at F i) <> Some key) /\
  x.1 ∉ passed C.

Lemma running_identity_false a key i j :
  running_identity C a key = false -> fjobs F !! i = Some j -> status j = running -> actor j = a ->
  identity_key (cols_at F i) <> Some key.
Proof.
  unfold running_identity. intros Hf Hj Hs Ha Hk. rewrite <- not_true_iff_false in Hf. apply Hf. apply existsb_exists.
  exists (i, j). split; [apply list_elem_of_In, elem_of_table; done|]. simpl.
  unfold is_status. by rewrite !bool_decide_true.
Qed.

Lemma eligible_claimable c : c ∈ eligible C -> claimable (c_row c).
Proof.
  intros (Hg & Hl & Hd)%eligible_good. destruct Hg as [Hrow Hlive (ac & Hac & _) Hroom Hr Hf Hdue Hro].
  unfold ready in Hr. unfold due in Hdue. unfold lockable in Hl. rewrite !andb_true_iff, ?negb_true_iff in *.
  rewrite bool_decide_eq_false, Z.leb_le, Z.eqb_eq, is_status_true in *. destruct Hr, Hdue as [? Ht], Hl as [_ ?].
  apply elem_of_dedup in Hd as [_ Hid]. split_and!; try done.
  - intros t Et. rewrite Et in Ht. by apply Z.ltb_lt.
  - intros key i j Hk Hj Hs Ha. eapply running_identity_false; [by apply Hid|done..].
Qed.

Lemma dispatch_row clk id c :
  c ∈ eligible C -> c_id c = id ->
  exists u, fjobs (fst (dispatch_batch C clk)) !! id = Some u /\ claimed_as clk (claimer C) (lock_lease C) (c_row c).2 u.
Proof.
  intros Hc <-. apply claim_rows_hit; [by apply elem_of_claim_ids; eauto|..]; apply eligible_good in Hc as [Hg _];
    [by apply g_row|]. pose proof (g_ready _ Hg) as Hr. unfold c_id. by destruct (c_row c).
Qed.

(** C22: A claim statement - any render, any queues, whatever rows its lock steps pass over -
    takes only rows that were pending with no dependency outstanding, due and not past their
    deadline, admitted by the workflow fence, of a registered actor, routed to the round (by
    their own queue, at or above the cursor, or once handed back by their actor's assigned
    queue), whose identity was not already running, and that no peer held; each becomes running under
    the caller's lease, and every other row is left as it was. *)
Theorem claims_only_claimable clk :
  (forall id, id ∈ snd (dispatch_batch C clk) -> exists j u,
     fjobs F !! id = Some j /\ claimable (id, j) /\
     fjobs (fst (dispatch_batch C clk)) !! id = Some u /\ claimed_as clk (claimer C) (lock_lease C) j u) /\
  (forall id, id ∉ snd (dispatch_batch C clk) -> fjobs (fst (dispatch_batch C clk)) !! id = fjobs F !! id).
Proof.
  cbn [snd dispatch_batch]. split; intros id; rewrite elem_of_remove_dups.
  - intros (c & Hc & Hi)%elem_of_claim_ids. destruct (dispatch_row clk id c Hc Hi) as (u & Hr & Hu).
    exists (c_row c).2, u. subst id. split_and!; [|unfold c_id; rewrite <- surjective_pairing|done|done].
    + apply eligible_good in Hc as [Hg _]. by apply g_row.
    + by apply eligible_claimable.
  - apply claim_rows_other.
Qed.

(** ** Limits and caps *)

Lemma length_claim_ids clk : (length (snd (dispatch_batch C clk)) <= limit_n C)%nat.
Proof.
  cbn. transitivity (length (claim_ids C)).
  { apply submseteq_length, NoDup_submseteq; [apply NoDup_remove_dups|]. intros x. by rewrite elem_of_remove_dups. }
  unfold claim_ids. rewrite length_fmap. etransitivity; [apply length_filter|]. unfold eligible. rewrite length_fmap, length_take. lia.
Qed.

(** A capped live actor's precomputed count is its running count. *)
Lemma in_flight_running a ac m :
  a ∈ pa_actors C ++ tail_actors C -> actor_config F !! a = Some ac -> max_concurrent ac = Some m ->
  in_flight C a = running_in F a.
Proof.
  intros Hl Hac Hm. unfold in_flight. destruct (head _) as [p|] eqn:E.
  - assert (p ∈ filter (fun p => p.1 = a) (capped_running C)) as [Hp Hi]%list_elem_of_filter.
    { destruct (filter _ (capped_running C)); [done|]. injection E as ->. set_solver. }
    unfold capped_running in Hi. apply list_elem_of_omap in Hi as (b & _ & Hb).
    destruct (actor_config F !! b) as [ac'|] eqn:Eb; [|done]. injection Hb as <-. simpl in *. subst b.
    rewrite Hac in Eb. injection Eb as <-. by rewrite Hm.
  - exfalso. apply head_None in E. assert ((a, running_in F a) ∈ filter (fun p => p.1 = a) (capped_running C)) as Hi.
    { apply list_elem_of_filter. split; [done|]. apply list_elem_of_omap. exists a.
      split; [by apply elem_of_remove_dups|]. by rewrite Hac, Hm. }
    rewrite E in Hi. by apply elem_of_nil in Hi.
Qed.

(** What the post-lock limit leaves an actor. *)
Lemma eligible_count a m :
  actor_cap C a = Some m ->
  Z.of_nat (length (filter (fun c => c_who c = a) (eligible C))) <= Z.max 0 (m - in_flight C a).
Proof.
  intros Hm. unfold eligible. set (l := order_by (eligible_key C) _).
  assert (length (filter (fun c => c_who c = a) (map fst (take (limit_n C) l))) <=
          length (filter (fun y => c_who y.1 = a) l))%nat as H1.
  { rewrite <- (take_drop (limit_n C) l) at 2. rewrite filter_app, length_app.
    induction (take (limit_n C) l) as [|y t IH]; simpl; [lia|]. rewrite !filter_cons. case_decide; simpl; lia. }
  assert (length (filter (fun y => c_who y.1 = a) l) <=
          length (filter (fun y => c_who y.1 = a /\ (y.2 <= m - in_flight C a)%Z) (eligible_candidates C)))%nat as H2.
  { unfold l. rewrite (Permutation_length (filter_Permutation _ _ _ (order_by_perm _ _))).
    rewrite list_filter_filter. apply Nat.eq_le_incl. f_equal. apply list_filter_iff. intros y. unfold within_cap.
    split; [|intros [Hy Hn]; split; [done|]; rewrite Hy, Hm; by apply Z.leb_le].
    intros [Hy Hw]. split; [done|]. rewrite Hy, Hm in Hw. by apply Z.leb_le. }
  pose proof (number_count c_who [] (order_by (actor_rank_key C) (filter (fun c => below_cap C c = true) (claimed C)))
    a (m - in_flight C a)) as H3. unfold eligible_candidates, row_number in H2. unfold seen_of in H3. simpl in H3. lia.
Qed.

Lemma NoDup_fst_in_order {A} (m : gmap Z A) (P : Z * A -> Prop) `{!forall z, Decision (P z)} :
  NoDup (map fst (filter P (in_order m))).
Proof.
  assert (NoDup (map fst (in_order m))) as Hn by (unfold in_order; rewrite merge_sort_Permutation; apply NoDup_fst_map_to_list).
  induction (in_order m) as [|x l IH]; simpl in *; [constructor|]. apply NoDup_cons in Hn as [Hx Hn].
  rewrite filter_cons. case_decide; [|auto]. simpl. apply NoDup_cons. split; [|auto].
  intros (y & Hy & [_ Hl]%list_elem_of_filter)%list_elem_of_fmap. apply Hx, list_elem_of_fmap. eauto.
Qed.

(** *** Beside peers *)

(** What peers may have done to the rows since the snapshot: anything but give a row another
    actor or other dispatch columns. *)
Definition peers_wrote (G : fleet) : Prop :=
  forall i j, fjobs F !! i = Some j -> cols_at G i = cols_at F i /\ forall j', fjobs G !! i = Some j' -> actor j' = actor j.

Lemma peers_refl : peers_wrote F.
Proof. intros i j Hj. split; [done|]. intros j' Hj'. congruence. Qed.

Lemma elem_of_landing G id : id ∈ landing_ids C G <-> id ∈ claim_ids C /\ still_lockable C G id = true.
Proof. unfold landing_ids. rewrite list_elem_of_filter. tauto. Qed.

Lemma filter_elem_all {A} (P : A -> Prop) `{!forall z, Decision (P z)} (l : list A) :
  (forall z, z ∈ l -> P z) -> filter P l = l.
Proof.
  induction l as [|z l IH]; intros Hl; [done|]. rewrite filter_cons_True by (apply Hl; by left).
  f_equal. apply IH. intros y Hy. apply Hl. by right.
Qed.

(** With nobody in between it is the claim of its snapshot. *)
Lemma landing_alone clk : dispatch_landing C clk F = dispatch_batch C clk.
Proof.
  assert (landing_ids C F = claim_ids C) as E; [|unfold dispatch_landing, dispatch_batch; by rewrite E].
  assert (forall id, id ∈ claim_ids C -> still_lockable C F id = true) as Hall; [|unfold landing_ids; by apply filter_elem_all].
  intros id (c & Hc & <-)%elem_of_claim_ids.
  apply eligible_good in Hc as [Hg _]. unfold still_lockable. rewrite (g_row _ Hg).
  pose proof (g_ready _ Hg) as Hr. pose proof (g_fence _ Hg) as Hf. unfold fenced_in, c_id in *.
  rewrite <- surjective_pairing. by rewrite Hr, Hf.
Qed.

(** A row that runs after the statement: claimed by it, or running already when it landed. *)
Lemma landing_row clk G i u :
  peers_wrote G -> fjobs (fst (dispatch_landing C clk G)) !! i = Some u -> status u = running ->
  (exists c, c ∈ eligible C /\ c_id c = i /\ actor u = c_who c) \/ fjobs G !! i = Some u.
Proof.
  intros Hp Hu Hs. destruct (decide (i ∈ landing_ids C G)) as [Hc|Hc].
  - left. pose proof Hc as [(c & Hel & Hi)%elem_of_claim_ids Hl]%elem_of_landing. exists c. split_and!; [done..|].
    unfold still_lockable in Hl. destruct (fjobs G !! i) as [j|] eqn:Hj; [|done]. apply andb_true_iff in Hl as [Hr _].
    destruct (claim_rows_hit clk (claimer C) (lock_lease C) (landing_ids C G) (base (wf G)) i j Hc Hj Hr) as (u' & Hu' & n & Hn).
    assert (u' = u) as -> by (change (jobs (claim_rows (fun _ => true) clk (claimer C) (lock_lease C) (landing_ids C G) (base (wf G))) !! i = Some u) in Hu; congruence).
    rewrite Hn. apply eligible_good in Hel as [Hg _]. pose proof (g_row _ Hg) as Hrow. rewrite Hi in Hrow.
    destruct (Hp i _ Hrow) as [_ Ha]. exact (Ha j Hj).
  - right. rewrite <- Hu. symmetry. by apply claim_rows_other.
Qed.

(** The rows that run after the statement ran when it landed or were claimed. *)
Lemma running_after clk G a :
  peers_wrote G ->
  running_in (fst (dispatch_landing C clk G)) a <=
  running_in G a + Z.of_nat (length (filter (fun c => c_who c = a) (eligible C))).
Proof.
  intros Hp. set (F' := fst (dispatch_landing C clk G)). unfold running_in.
  set (P := fun x : Z * job => is_status running x.2 = true /\ actor x.2 = a).
  rewrite <- Nat2Z.inj_add. apply inj_le. rewrite <- (length_fmap fst), <- (length_fmap fst (filter P (in_order (fjobs G)))),
    <- (length_fmap c_id), <- length_app.
  apply submseteq_length, NoDup_submseteq; [apply NoDup_fst_in_order|].
  intros id ([i u] & -> & [[Hs Ha] Hin]%list_elem_of_filter)%list_elem_of_fmap. simpl in *. apply elem_of_app.
  apply elem_of_in_order in Hin. simpl in Hin. apply is_status_true in Hs.
  destruct (landing_row clk G i u Hp Hin Hs) as [(c & Hc & Hi & Hw)|Hr]; [right|left]; apply list_elem_of_fmap.
  - exists c. split; [done|]. apply list_elem_of_filter. by rewrite <- Hw.
  - exists (i, u). split; [done|]. apply list_elem_of_filter. rewrite elem_of_in_order. by split; [split; [apply is_status_true|]|].
Qed.

Lemma length_landing clk G : (length (snd (dispatch_landing C clk G)) <= limit_n C)%nat.
Proof.
  etransitivity; [|apply (length_claim_ids clk)]. cbn. apply submseteq_length, NoDup_submseteq; [apply NoDup_remove_dups|].
  intros x. rewrite !elem_of_remove_dups. by intros [? _]%elem_of_landing.
Qed.

(** C23: A claim statement takes at most its limit, and of a capped actor at most what the cap left
    when its snapshot was taken, whatever its peers commit before it lands ([G]).  So the
    cap is soft in exactly one way: it can be exceeded only by what peers started in
    between.  If they started nothing of the actor, the actor is left running no more than its cap, or
    no more than it already was. *)
Theorem claims_within_caps clk G :
  peers_wrote G ->
  (length (snd (dispatch_landing C clk G)) <= limit_n C)%nat /\
  (forall a ac m, actor_config F !! a = Some ac -> max_concurrent ac = Some m ->
     running_in (fst (dispatch_landing C clk G)) a <= running_in G a + Z.max 0 (m - running_in F a) /\
     (running_in G a <= running_in F a -> running_in (fst (dispatch_landing C clk G)) a <= Z.max m (running_in F a))).
Proof.
  intros Hp. split; [apply length_landing|]. intros a ac m Hac Hm.
  assert (actor_cap C a = Some m) as Hcap by (unfold actor_cap; by rewrite Hac).
  pose proof (running_after clk G a Hp) as H1. pose proof (eligible_count a m Hcap) as H2.
  destruct (filter (fun c => c_who c = a) (eligible C)) as [|c l] eqn:E; [simpl in *; lia|].
  assert (c ∈ filter (fun c => c_who c = a) (eligible C)) as [<- Hc]%list_elem_of_filter by (rewrite E; set_solver).
  apply eligible_good in Hc as [Hg _]. rewrite (in_flight_running _ ac m (g_live _ Hg) Hac Hm) in H2. lia.
Qed.

(** ** Identities *)

(** No two running rows of one actor carry the same identity key. *)
Definition single_flight (G : fleet) : Prop :=
  forall i j i' j' key, fjobs G !! i = Some j -> fjobs G !! i' = Some j' -> status j = running -> status j' = running ->
    actor j = actor j' -> identity_key (cols_at G i) = Some key -> identity_key (cols_at G i') = Some key -> i = i'.

(** A peer started a job of the identity after the snapshot. *)
Definition started_meanwhile (G : fleet) (a key : string) : Prop :=
  exists i j, fjobs G !! i = Some j /\ status j = running /\ actor j = a /\ identity_key (cols_at G i) = Some key /\
    forall j0, fjobs F !! i = Some j0 -> status j0 <> running.

Lemma eligible_identity c i j key :
  c ∈ eligible C -> identity_key (cols_at F (c_id c)) = Some key -> fjobs F !! i = Some j -> status j = running ->
  actor j = c_who c -> identity_key (cols_at F i) <> Some key.
Proof.
  intros Hc Hk. apply eligible_claimable in Hc as (_ & _ & _ & _ & _ & _ & _ & Hid & _). by apply Hid.
Qed.
End claims.

(** An actor that holds a slot of a bucket with none left is not claimed. *)
Lemma saturated_actor_waits C clk a id j :
  reservation_headroom C a = Some 0 -> fjobs (world C) !! id = Some j -> actor j = a -> id ∉ snd (dispatch_batch C clk).
Proof.
  intros Hh Hj Ha. cbn. rewrite elem_of_remove_dups, elem_of_claim_ids. intros (c & Hc & Hi).
  apply eligible_good in Hc as [Hg _]. destruct (g_cfg _ _ Hg) as (ac & Hac & Hk). pose proof (g_room _ _ Hg) as Hr.
  pose proof (g_row _ _ Hg) as Hrow. rewrite Hi, Hj in Hrow. injection Hrow as ->.
  rewrite Hk in Hr. cbn in Hr. unfold residual, c_who in Hr. rewrite Ha, Hh in Hr. cbn in Hr. lia.
Qed.

(** A claimed row's identity runs already when the statement lands only if a peer started it. *)
Lemma claimed_identity_fresh C G c i j key :
  peers_wrote C G -> c ∈ eligible C -> identity_key (cols_at (world C) (c_id c)) = Some key ->
  fjobs G !! i = Some j -> status j = running -> actor j = c_who c -> identity_key (cols_at G i) = Some key ->
  started_meanwhile C G (c_who c) key.
Proof.
  intros Hp Hc Hk Hj Hs Ha Hki. exists i, j. split_and!; try done. intros j0 Hj0 Hs0.
  destruct (Hp i j0 Hj0) as [Hcols Hact]. rewrite Hcols in Hki.
  eapply (eligible_identity C c i j0 key); eauto. rewrite <- (Hact j Hj). done.
Qed.

(** C24: A claim statement starts a second job of an identity only beside a peer that started one
    after its snapshot.  Whatever peers commit before it lands ([G]): if no actor runs two rows
    under one identity key when it lands, then afterwards two running rows of an actor with one key are
    the same row, or a peer started a job of that actor and key since the snapshot.  With no peer in
    between, single flight is kept. *)
Theorem claims_keep_single_flight C clk G :
  peers_wrote C G -> single_flight G ->
  let G' := fst (dispatch_landing C clk G) in
  forall i j i' j' key, fjobs G' !! i = Some j -> fjobs G' !! i' = Some j' -> status j = running -> status j' = running ->
    actor j = actor j' -> identity_key (cols_at G' i) = Some key -> identity_key (cols_at G' i') = Some key ->
    i = i' \/ started_meanwhile C G (actor j) key.
Proof.
  intros Hp H0 G' i j i' j' key Hj Hj' Hs Hs' Ha Hk Hk'. change (cols_at G') with (cols_at G) in *.
  assert (Hcols : forall c, c ∈ eligible C -> cols_at G (c_id c) = cols_at (world C) (c_id c)).
  { intros c [Hg _]%eligible_good. apply (Hp _ _ (g_row _ _ Hg)). }
  destruct (landing_row C clk G i j Hp Hj Hs) as [(c & Hc & <- & Hw)|Hr],
           (landing_row C clk G i' j' Hp Hj' Hs') as [(c' & Hc' & <- & Hw')|Hr'].
  - left. rewrite Hcols in Hk, Hk' by done. apply eligible_good in Hc as (_ & _ & Hd), Hc' as (_ & _ & Hd').
    assert (unranked c = unranked c') as Hu by (eapply (dedup_unique C); eauto; unfold c_who in *; simpl; congruence).
    unfold c_id. by injection Hu as -> _ _.
  - right. rewrite Hcols in Hk by done. rewrite Hw. eapply (claimed_identity_fresh C G c i' j'); eauto. congruence.
  - right. rewrite Hcols in Hk' by done. rewrite Ha, Hw'. eapply (claimed_identity_fresh C G c' i j); eauto. congruence.
  - left. by apply (H0 i j i' j' key).
Qed.

Lemma busy_single_flight : single_flight busy_fleet.
Proof.
  assert (map_Forall (fun i j => status j = running -> i = 9) (fjobs busy_fleet)) as H.
  { apply (bool_decide_unpack _). vm_compute. exact I. }
  intros i j i' j' key Hj Hj' Hs Hs' _ _ _. rewrite (H i j Hj Hs). by rewrite (H i' j' Hj' Hs').
Qed.

(** Nobody in between: the identity that runs is not started again. *)
Lemma claims_keep_single_flight_witness :
  let C := demo_call busy_fleet strict_fifo 2 4 ∅ in
  fst (dispatch_landing C demo_clk busy_fleet) = fst (dispatch_batch C demo_clk) /\
  single_flight (fst (dispatch_landing C demo_clk busy_fleet)).
Proof.
  intros C. split; [vm_compute; reflexivity|]. intros i j i' j' key Hj Hj' Hs Hs' Ha Hk Hk'.
  destruct (claims_keep_single_flight C demo_clk busy_fleet (peers_refl C) busy_single_flight i j i' j' key Hj Hj' Hs Hs' Ha Hk Hk')
    as [Hi|(x & y & Hx & Hr & _ & _ & Hn)]; [exact Hi|destruct (Hn y Hx Hr)].
Defined.

Lemma claims_within_caps_witness :
  let C := demo_call (capped_fleet (Some 2)) strict_fifo 4 4 ∅ in
  snd (dispatch_landing C demo_clk (capped_fleet (Some 2))) = [1; 2] /\
  running_in (fst (dispatch_landing C demo_clk (capped_fleet (Some 2)))) "a" <= 2.
Proof.
  intros C. split; [vm_compute; reflexivity|].
  destruct (claims_within_caps C demo_clk (capped_fleet (Some 2)) (peers_refl C)) as [_ Hc].
  apply (Hc "a"%string (registered (Some 2) None) 2); [vm_compute; reflexivity|reflexivity|vm_compute; congruence].
Defined.

(** Two claims over one snapshot land one after the other. *)
Definition both_land (C C' : claim_call) : fleet :=
  fst (dispatch_landing C' demo_clk (fst (dispatch_landing C demo_clk (world C)))).

(** The second passes over the row the first has locked: an actor capped at 1 runs two rows. *)
Example peers_exceed_cap :
  let F := capped_fleet (Some 1) in
  running_in (both_land (demo_call F strict_fifo 1 4 ∅) (demo_call F strict_fifo 2 4 {[1]})) "a" = 2.
Proof. vm_compute. reflexivity. Qed.

(** They poll two queues that each hold a row of one identity: both rows run. *)
Definition split_identity : fleet :=
  demo_fleet {[1 := due_row "a" 10; 2 := due_row "a" 20]}
    {[1 := keyed "k"; 2 := {| queue := "other"; priority := 0; identity_key := Some "k"%string; fairness_key := None |}]}
    {["a"%string := registered None None]} ∅.

Definition other_call : claim_call :=
  {| world := split_identity; sql := strict_fifo; on := ["other"%string]; limit_n := 1; claimer := 7;
     lock_lease := 60000000; oversample := 4; now := 100; text_lt := byte_lt; passed := ∅; unstamped := ∅;
     tie_rank := fun i => i; tie_cut := fun i => i |}.

Example peers_run_identity_twice :
  map (fun i => status <$> fjobs (both_land (demo_call split_identity strict_fifo 1 4 ∅) other_call) !! i) [1; 2] =
    [Some running; Some running].
Proof. vm_compute. reflexivity. Qed.

(** Headroom bounds a round's claims by the free slots times the oversample, not by the free
    slots: an uncapped actor that holds one slot of a bucket with one slot left is given two of
    its rows in one claim, though the comment on the fold says it admits at most the free count. *)
Theorem headroom_overshoots :
  reservation_headroom (demo_call (holding_fleet 1) strict_fifo 4 2 ∅) "a" = Some 1 /\
  claims_of (demo_call (holding_fleet 1) strict_fifo 4 2 ∅) = [1; 2].
Proof. split; vm_compute; reflexivity. Qed.
