(* ===== verification/DispatchFair.v ===== *)
(** * In which order a claim takes rows

    Rows of one actor are taken in order, strictly by priority and due time or in turns between
    cohorts; actors take turns by their rotation stamp; and a round is not idle while a row it
    could take is within its window. *)

From Stdlib Require Import ZArith Lia.
From stdpp Require Import base tactics list gmap strings sorting.
From S2P Require Import Prelude JobRow Terminal Control Lifecycle Reservation ReservationProps Workflow WorkflowRun Dispatch DispatchOrder DispatchDemo DispatchProps.

Open Scope Z_scope.

Section order.
Variable C : claim_call.
Local Notation F := (world C).
Implicit Types (c : candidate) (x : Z * job) (k : capacity).

(** ** A row ahead of a claimed row of its actor *)

(** What both per-actor windows order by first. *)
Definition front c : list Z :=
  nulls_last (c_fair c) ++ [- priority (cols_at F (c_id c)); scheduled_at (c_row c).2].

Lemma front_length c : length (front c) = 4%nat.
Proof. unfold front. by destruct (c_fair c). Qed.

Lemma rank_key_front c : rank_key C c = front c ++ [c_id c].
Proof. unfold rank_key, front. rewrite <- app_assoc. done. Qed.

Lemma actor_rank_key_front c : actor_rank_key C c = front c ++ [tie_rank C (c_id c)].
Proof. unfold actor_rank_key, front. rewrite <- app_assoc. done. Qed.

Lemma front_lt c c' s t : lex_lt (front c) (front c') -> lex_lt (front c ++ s) (front c' ++ t).
Proof. apply lex_lt_prefix. by rewrite !front_length. Qed.

Definition with_rank (n : Z) c : candidate :=
  {| c_row := c_row c; c_fair := c_fair c; c_cap := c_cap c; c_rank := n |}.

Lemma elem_of_ranked_iff c : c ∈ ranked C <-> exists c0, (c0, c_rank c) ∈ row_number c_who (rank_key C) (identity_dedup C) /\ c = with_rank (c_rank c) c0.
Proof.
  unfold ranked. rewrite list_elem_of_fmap. split.
  - intros ([c0 n] & -> & H). by exists c0.
  - intros (c0 & H & Hc). exists (c0, c_rank c). split; [done|done].
Qed.

Lemma ranked_lt c c0 :
  c ∈ ranked C -> c0 ∈ identity_dedup C -> c_who c0 = c_who c -> lex_lt (front c0) (front c) ->
  exists n, with_rank n c0 ∈ ranked C /\ n < c_rank c.
Proof.
  intros (c1 & H & Hc)%elem_of_ranked_iff H0 Hw Hlt.
  destruct (row_number_lt c_who (rank_key C) (identity_dedup C) c1 c0 (c_rank c)) as (n & Hn & Hl); [done|done|..].
  - rewrite Hw, Hc. done.
  - rewrite !rank_key_front. apply front_lt. rewrite Hc in Hlt. done.
  - exists n. split; [|done]. apply elem_of_ranked_iff. by exists c0.
Qed.

(** The lock steps keep every lockable row of the same kind that their cut puts first. *)
Lemma claimed_ahead c c' :
  c ∈ claimed C -> c' ∈ ranked C -> capped c' = capped c -> lockable C c' = true ->
  lex_lt (cut_key C c') (cut_key C c) -> c' ∈ claimed C.
Proof.
  unfold claimed, locked, sliding_locked, top_ids. rewrite !elem_of_app. intros [H|H] Hr Hc Hl Hlt; [left|right].
  - apply list_elem_of_filter in H as [_ H]. apply list_elem_of_filter. split; [done|]. eapply cut_keeps; [done| |done].
    apply subseteq_take, elem_of_order_by, list_elem_of_filter in H as [Hk _]. apply list_elem_of_filter. by rewrite Hc.
  - eapply sorted_take_keeps; [apply sorted_filter, order_by_sorted|done| |done].
    apply subseteq_take, list_elem_of_filter in H as [_ H]. apply elem_of_order_by, list_elem_of_filter in H as [Hk _].
    apply list_elem_of_filter. split; [done|]. apply elem_of_order_by, list_elem_of_filter. by rewrite Hc.
Qed.

(** The cut after the locks, for a row whose number its actor's cap admits. *)
Lemma eligible_ahead c c' n :
  c ∈ eligible C -> (c', n) ∈ eligible_candidates C -> within_cap C (c', n) = true -> c_rank c' < c_rank c -> c' ∈ eligible C.
Proof.
  unfold eligible. intros ([c0 m] & Heq & H)%list_elem_of_fmap Hn Hw Hlt. simpl in Heq. subst c0. apply list_elem_of_fmap. exists (c', n).
  split; [done|]. eapply cut_keeps; [done|by apply list_elem_of_filter|]. unfold eligible_key. simpl. by apply lex_lt_cons.
Qed.

Lemma ahead_claimed c c0 :
  c ∈ eligible C -> c0 ∈ identity_dedup C -> c_who c0 = c_who c -> c_cap c0 = c_cap c ->
  lex_lt (front c0) (front c) -> lockable C c0 = true -> exists c', c' ∈ eligible C /\ c_row c' = c_row c0.
Proof.
  intros Hc H0 Hw Hk Hlt Hl. destruct (elem_of_eligible C c Hc) as (Hcl & r & Hr & Hwc).
  destruct (elem_of_claimed C c Hcl) as [Hrk _]. destruct (ranked_lt c c0 Hrk H0 Hw Hlt) as (n & Hn & Hnc).
  set (c' := with_rank n c0) in *.
  assert (c' ∈ claimed C) as Hcl'.
  { apply (claimed_ahead c); [done|done|unfold capped; simpl; by rewrite Hk|done|]. by apply lex_lt_cons. }
  pose proof Hr as Hf%elem_row_number. apply list_elem_of_filter in Hf as [Hb _].
  destruct (row_number_lt c_who (actor_rank_key C) (filter (fun c => below_cap C c = true) (claimed C)) c c' r) as (m & Hm & Hmr).
  - exact Hr.
  - apply list_elem_of_filter. split; [|done]. unfold below_cap in *. change (c_who c') with (c_who c0). by rewrite Hw.
  - exact Hw.
  - rewrite !actor_rank_key_front. by apply front_lt.
  - exists c'. split; [|done]. apply (eligible_ahead c c' m); [done|exact Hm| |done].
    unfold within_cap in *. simpl in *. change (c_who c') with (c_who c0). rewrite Hw.
    destruct (actor_cap C (c_who c)); [|done]. apply Z.leb_le. apply Z.leb_le in Hwc. lia.
Qed.

(** ** Where a candidate came from *)

Lemma label_candidate k q x f :
  (sql C = round_robin -> (x, f) ∈ round_robin_lateral C k q) -> (sql C <> round_robin -> (x, f) ∈ strict_lateral C k q) ->
  k ∈ per_actor_capacity C -> 0 < k_residual k -> q ∈ on C -> candidate_of k (x, f) ∈ candidates C.
Proof.
  intros H1 H2 Hk Hr Hq. apply elem_of_app. left. unfold label_arm. apply elem_of_mjoin_map. exists k.
  split; [by apply list_elem_of_filter|]. apply elem_of_mjoin_map. exists q. split; [done|].
  apply list_elem_of_fmap. exists (x, f). split; [done|]. destruct (sql C); auto.
Qed.

Definition strict_probe k q : list (Z * job) :=
  probe C (fun x => label_where C (k_actor k) q x && cursor_bound (sql C) x.1)
    (least_of (k_residual k) (queue_cap_headroom C (k_actor k) q)).

Lemma elem_of_strict_iff k q x f : (x, f) ∈ strict_lateral C k q <-> x ∈ strict_probe k q /\ f = None.
Proof.
  unfold strict_lateral. rewrite list_elem_of_fmap. split; [intros (? & [= <- ->] & ?); done|]. intros [? ->]. by exists x.
Qed.

(** A candidate that its actor never handed back came through its own queue. *)
Lemma candidate_label c :
  c ∈ candidates C -> assignment_routed (c_row c).2 = false ->
  c_cap c ∈ per_actor_capacity C /\ k_actor (c_cap c) = c_who c /\ 0 < k_residual (c_cap c) /\ queue_of C (c_row c) ∈ on C /\
  (sql C = round_robin -> (c_row c, c_fair c) ∈ round_robin_lateral C (c_cap c) (queue_of C (c_row c))) /\
  (sql C <> round_robin -> (c_row c, c_fair c) ∈ strict_lateral C (c_cap c) (queue_of C (c_row c))).
Proof.
  unfold candidates, label_arm, repended_arm. rewrite elem_of_app, !elem_of_mjoin_map.
  intros [(k & [Hr Hk]%list_elem_of_filter & (q & Hq & H)%elem_of_mjoin_map)|(k & [Hr Hk]%list_elem_of_filter & H)] Ha;
    apply list_elem_of_fmap in H as ([x f] & -> & Hy); simpl in *.
  - assert (label_where C (k_actor k) q x = true) as (Hw & Hqx & _)%label_where_iff.
    { destruct (sql C); [by apply elem_of_strict in Hy as (_ & ? & _)..|by apply elem_of_round_robin in Hy as [_ ?]]. }
    rewrite Hqx. unfold c_who. simpl. by destruct (sql C).
  - apply elem_of_repended in Hy as (_ & f' & Hw). apply repended_where_iff in Hw. simpl in *. destruct_and?. congruence.
Qed.

Lemma dedup_plain c : c ∈ candidates C -> c_identity C c = None -> c ∈ identity_dedup C.
Proof. intros H Hi. apply elem_of_app. right. by apply list_elem_of_filter. Qed.

Lemma claimable_where x a q :
  claimable C x -> actor x.2 = a -> queue_of C x = q -> assignment_routed x.2 = false -> label_where C a q x = true.
Proof.
  intros (Hs & Hd & Hf & Ht & Hc & _) Ha Hq Hm. apply label_where_iff. split_and!; try done.
  - unfold ready. rewrite andb_true_iff, Z.eqb_eq. split; [by apply is_status_true|done].
  - unfold due. rewrite andb_true_iff, Z.leb_le. split; [done|]. destruct (schedule_to_close x.2); [|done]. by apply Z.ltb_lt, Hc.
Qed.

Lemma claimable_lockable x k f : claimable C x -> lockable C (candidate_of k (x, f)) = true.
Proof.
  intros (Hs & Hd & Hf & _ & _ & _ & _ & _ & Hp). unfold lockable, ready. simpl. rewrite !andb_true_iff, negb_true_iff.
  split_and!; [by apply is_status_true|by apply Z.eqb_eq|done|by apply bool_decide_eq_false].
Qed.

Lemma probe_keeps p w x y :
  x ∈ probe C p w -> y ∈ table_rows C -> p y = true -> lex_lt (fifo_key C y) (fifo_key C x) -> y ∈ probe C p w.
Proof.
  unfold probe. rewrite !take_take. intros Hx Hy Hp Hlt. eapply cut_keeps; [done| |done]. by apply list_elem_of_filter.
Qed.
End order.

(** The row [y] sorts before [x]: higher priority, or the same and due earlier. *)
Definition sooner (F : fleet) (y x : Z * job) : Prop :=
  priority (cols_at F x.1) < priority (cols_at F y.1) \/
  (priority (cols_at F x.1) = priority (cols_at F y.1) /\ scheduled_at y.2 < scheduled_at x.2).

Lemma sooner_lt C y x s t :
  sooner (world C) y x ->
  lex_lt ([- priority (cols_at (world C) y.1); scheduled_at y.2] ++ s) ([- priority (cols_at (world C) x.1); scheduled_at x.2] ++ t).
Proof.
  intros [H|[H1 H2]]; simpl; [apply lex_lt_cons; lia|]. rewrite H1. by apply lex_lt_skip, lex_lt_cons.
Qed.

(** What a claimed row of an actor's own queue came through, and where a sooner row stands. *)
Lemma sooner_candidate C c i j i' j' :
  sql C <> round_robin -> unranked c ∈ candidates C -> c_row c = (i, j) -> assignment_routed j = false ->
  fjobs (world C) !! i' = Some j' -> label_where C (actor j) (queue_of C (i, j)) (i', j') = true ->
  cursor_bound (sql C) i' = true -> sooner (world C) (i', j') (i, j) ->
  candidate_of (c_cap c) ((i', j'), None) ∈ candidates C /\ c_fair c = None.
Proof.
  intros Hsql Hcand Hrow Hm Hj' Hl Hcb Hs.
  apply candidate_label in Hcand as (Hk & Hka & Hres & Hqon & _ & Hlat); [|by cbn; rewrite Hrow].
  unfold c_who, unranked in *. cbn [c_row c_cap c_fair] in *. rewrite Hrow in *. cbn [snd] in Hka.
  apply elem_of_strict_iff in Hlat as [Hx Hfair]; [|done]. split; [|done].
  apply (label_candidate C _ (queue_of C (i, j))); try done. intros _. apply elem_of_strict_iff. split; [|done].
  eapply probe_keeps; [done|by apply elem_of_table| |by apply (sooner_lt C (i', j') (i, j) [i'] [i])].
  apply andb_true_iff. by rewrite Hka.
Qed.

Lemma front_sooner C c k i j i' j' :
  c_row c = (i, j) -> c_fair c = None -> sooner (world C) (i', j') (i, j) ->
  lex_lt (front C (candidate_of k ((i', j'), None))) (front C c).
Proof.
  intros Hrow Hf Hs. unfold front. cbn [c_fair candidate_of snd]. rewrite Hf. unfold c_id. rewrite Hrow.
  apply (lex_lt_app [1; 0]). by apply (sooner_lt C (i', j') (i, j) [] []).
Qed.

Lemma eligible_row C c i j : c ∈ eligible C -> c_id c = i -> fjobs (world C) !! i = Some j -> c_row c = (i, j).
Proof.
  intros [Hg _]%eligible_good Hi Hj. pose proof (g_row _ _ Hg) as Hr. rewrite Hi, Hj in Hr. unfold c_id in Hi.
  destruct (c_row c). simpl in *. congruence.
Qed.

(** Under the strict renders, a claim never takes a row of a queue past a sooner one: if it
    takes one row of an actor on a queue, it takes every claimable row of that actor on that queue
    that has a higher priority, or the same and was due earlier, and carries no identity key. *)
Theorem strict_fifo_order C clk i j i' j' :
  sql C <> round_robin -> fjobs (world C) !! i = Some j -> fjobs (world C) !! i' = Some j' ->
  actor j' = actor j -> queue (cols_at (world C) i') = queue (cols_at (world C) i) ->
  assignment_routed j = false -> assignment_routed j' = false ->
  claimable C (i', j') -> identity_key (cols_at (world C) i') = None -> sooner (world C) (i', j') (i, j) ->
  i ∈ snd (dispatch_batch C clk) -> i' ∈ snd (dispatch_batch C clk).
Proof.
  intros Hsql Hj Hj' Ha Hq Hm Hm' Hcl Hid Hs. cbn. rewrite !elem_of_remove_dups. intros (c & Hc & Hi)%elem_of_claim_ids.
  apply elem_of_claim_ids. pose proof (eligible_good C c Hc) as (_ & _ & Hd). apply elem_of_dedup in Hd as [Hcand _].
  pose proof (eligible_row C c i j Hc Hi Hj) as Hrow.
  pose proof Hcl as (_ & _ & _ & _ & _ & _ & Hro & _). unfold routed in Hro. simpl in Hro. rewrite Hm' in Hro. destruct Hro as [_ Hcb].
  destruct (sooner_candidate C c i j i' j') as [Hy Hf]; try done; [by apply claimable_where|].
  destruct (ahead_claimed C c (candidate_of (c_cap c) ((i', j'), None))) as (c' & Hc' & Hr'); try done.
  - by apply dedup_plain.
  - unfold c_who. simpl. by rewrite Hrow.
  - by eapply front_sooner.
  - by apply claimable_lockable.
  - exists c'. split; [done|]. unfold c_id. by rewrite Hr'.
Qed.

(** ** The window of a capped actor *)

(** A row of a capped actor that reaches the locks is within the first [limit] rows of its actor. *)
Lemma capped_ahead C c c0 :
  c ∈ locked C -> c0 ∈ identity_dedup C -> c_who c0 = c_who c -> c_cap c0 = c_cap c -> lex_lt (front C c0) (front C c) ->
  exists c', c' ∈ top_ids C /\ c_row c' = c_row c0.
Proof.
  unfold locked, top_ids. intros [_ H]%list_elem_of_filter H0 Hw Hk Hlt.
  pose proof H as Hr%subseteq_take. apply elem_of_order_by, list_elem_of_filter in Hr as [Hcap Hr].
  destruct (ranked_lt C c c0 Hr H0 Hw Hlt) as (n & Hn & Hnc). exists (with_rank n c0). split; [|done].
  eapply cut_keeps; [exact H| |by apply lex_lt_cons]. apply list_elem_of_filter. split; [|done].
  unfold capped in *. simpl. by rewrite Hk.
Qed.

Lemma claimed_capped C c : c ∈ claimed C -> capped c = true -> c ∈ locked C.
Proof.
  unfold claimed. rewrite elem_of_app. intros [H|H] Hc; [done|]. unfold sliding_locked in H.
  apply subseteq_take, list_elem_of_filter in H as [_ H]. apply elem_of_order_by, list_elem_of_filter in H as [Hu _]. congruence.
Qed.

(** A capped actor's window does not slide and does not widen.  Under the strict renders, if
    peers hold [limit] rows of a capped actor on a queue, none with an identity key, then no row of it behind
    them is claimed, whatever the oversample: the re-runs with a doubled window, said to absorb
    such a lock-out, cannot help. *)
Theorem capped_window_stuck C clk i j ac m (H : list Z) :
  sql C <> round_robin -> fjobs (world C) !! i = Some j -> assignment_routed j = false ->
  actor_config (world C) !! actor j = Some ac -> max_concurrent ac = Some m ->
  NoDup H -> length H = limit_n C ->
  (forall h, h ∈ H -> exists jh, fjobs (world C) !! h = Some jh /\ label_where C (actor j) (queue_of C (i, j)) (h, jh) = true /\
     cursor_bound (sql C) h = true /\ identity_key (cols_at (world C) h) = None /\ h ∈ passed C /\ sooner (world C) (h, jh) (i, j)) ->
  i ∉ snd (dispatch_batch C clk).
Proof.
  intros Hsql Hj Hm Hac Hcap Hnd Hlen Hheld. cbn. rewrite elem_of_remove_dups, elem_of_claim_ids. intros (c & Hc & Hi).
  pose proof (eligible_row C c i j Hc Hi Hj) as Hrow. pose proof (eligible_good C c Hc) as (Hg & Hl & Hd).
  apply elem_of_dedup in Hd as [Hcand _]. destruct (g_cfg _ _ Hg) as (ac' & Hac' & Hk).
  assert (capped c = true) as Hcc.
  { unfold capped. rewrite Hk. cbn. unfold c_who in Hac'. rewrite Hrow in Hac'. cbn in Hac'. rewrite Hac in Hac'. injection Hac' as <-. by rewrite Hcap. }
  apply elem_of_eligible in Hc as [Hc _]. apply claimed_capped in Hc; [|done].
  assert (forall h, h ∈ i :: H -> h ∈ map c_id (top_ids C)) as Hin.
  { intros h [->|Hh]%elem_of_cons; apply list_elem_of_fmap.
    - exists c. split; [done|]. unfold locked in Hc. by apply list_elem_of_filter in Hc as [_ ?].
    - destruct (Hheld h Hh) as (jh & Hjh & Hlw & Hcb & Hid & _ & Hs).
      destruct (sooner_candidate C c i j h jh) as [Hy Hf]; try done.
      destruct (capped_ahead C c (candidate_of (c_cap c) ((h, jh), None))) as (c' & Hc' & Hr'); try done.
      + by apply dedup_plain.
      + apply label_where_iff in Hlw as (Ha & _). unfold c_who. cbn. by rewrite Hrow.
      + by eapply front_sooner.
      + exists c'. split; [|done]. unfold c_id. by rewrite Hr'. }
  assert (NoDup (i :: H)) as Hnd'.
  { apply NoDup_cons. split; [|done]. intros Hh. destruct (Hheld i Hh) as (? & _ & _ & _ & _ & Hp & _).
    unfold lockable in Hl. rewrite !andb_true_iff, negb_true_iff, bool_decide_eq_false in Hl. rewrite Hi in Hl. tauto. }
  pose proof (submseteq_length _ _ (NoDup_submseteq _ _ Hnd' Hin)) as Hle. rewrite length_fmap in Hle. unfold top_ids in Hle.
  rewrite length_take in Hle. simpl in Hle. lia.
Qed.

(** ** Turns between cohorts *)

Section turns.
Variable C : claim_call.
Context `{!Collation (text_lt C)}.
Local Notation F := (world C).

Lemma labelled_rows_iff x :
  x ∈ labelled_rows C <-> fjobs F !! x.1 = Some x.2 /\ status x.2 = pending /\ assignment_routed x.2 = false /\ queue_of C x ∈ on C.
Proof.
  unfold labelled_rows, polled. rewrite list_elem_of_filter, elem_of_table, is_status_true, bool_decide_eq_true. tauto.
Qed.

Lemma rr_keys_iff key :
  key ∈ rr_keys C <-> exists x, key = [actor x.2; queue_of C x; cohort_of C x] /\ x ∈ labelled_rows C.
Proof.
  unfold rr_keys. rewrite (loose_scan_elem _ 3).
  - apply list_elem_of_fmap.
  - rewrite Forall_forall. intros k (x & -> & _)%list_elem_of_fmap. done.
Qed.

Lemma pa_keys_iff key :
  key ∈ pa_keys C <-> exists x, key = [queue_of C x; actor x.2] /\ x ∈ labelled_rows C.
Proof.
  unfold pa_keys. rewrite (loose_scan_elem _ 2).
  - apply list_elem_of_fmap.
  - rewrite Forall_forall. intros k (x & -> & _)%list_elem_of_fmap. done.
Qed.

(** The probe of one cohort, and the union the fairness ranks run over. *)
Definition cohort_probe (k : capacity) (q f : string) : list (Z * job) :=
  probe C (fun x => label_where C (k_actor k) q x && bool_decide (cohort_of C x = f))
    (least_of (k_residual k) (queue_cap_headroom C (k_actor k) q)).

Definition probes (k : capacity) (q : string) : list (Z * job) :=
  mjoin (map (fun key => cohort_probe k q (nth_text 2 key))
    (filter (fun key => nth_text 0 key = k_actor k /\ nth_text 1 key = q) (rr_keys C))).

Lemma elem_of_lateral_iff k q x f :
  (x, f) ∈ round_robin_lateral C k q <->
  exists n, f = Some n /\ (x, n) ∈ row_number (cohort_of C) (fifo_key C) (probes k q).
Proof.
  unfold round_robin_lateral, fairness_ranks. rewrite list_elem_of_fmap. split.
  - intros ([y n] & [= <- ->] & H). eauto.
  - intros (n & -> & H). by exists (x, n).
Qed.

Lemma elem_of_probes k q x :
  q ∈ on C -> x ∈ probes k q <-> x ∈ cohort_probe k q (cohort_of C x).
Proof.
  intros Hq. unfold probes. rewrite elem_of_mjoin_map. split.
  - intros (key & _ & H). pose proof H as [_ Hp]%elem_of_probe. rewrite andb_true_iff, bool_decide_eq_true in Hp. by destruct Hp as [_ ->].
  - intros H. exists [k_actor k; q; cohort_of C x]. split; [|done].
    apply elem_of_probe in H as [Ht Hp]. rewrite andb_true_iff, label_where_iff in Hp. destruct Hp as [(Ha & Hqx & Hm & Hr & _) _].
    apply list_elem_of_filter. split; [done|]. apply rr_keys_iff. exists x. rewrite Ha, Hqx. split; [done|].
    apply labelled_rows_iff. unfold ready in Hr. rewrite andb_true_iff, is_status_true in Hr. rewrite Hqx. apply elem_of_table in Ht. tauto.
Qed.

(** The first row of a cohort is in the window as soon as the window takes anything. *)
Lemma cohort_head k q f x y :
  x ∈ cohort_probe k q f -> y ∈ table_rows C -> label_where C (k_actor k) q y = true ->
  (forall z, z ∈ table_rows C -> label_where C (k_actor k) q z = true -> cohort_of C z = cohort_of C y ->
     z = y \/ lex_lt (fifo_key C y) (fifo_key C z)) -> y ∈ cohort_probe k q (cohort_of C y).
Proof.
  unfold cohort_probe, probe. rewrite !take_take. intros Hx Hy Hl Hmin. apply cut_head.
  - apply list_elem_of_filter. rewrite andb_true_iff, bool_decide_eq_true. done.
  - destruct (_ `min` _)%nat; [by apply elem_of_nil in Hx|lia].
  - intros z [Hp Hz]%list_elem_of_filter. rewrite andb_true_iff, bool_decide_eq_true in Hp. destruct Hp. by apply Hmin.
Qed.

(** A row behind another of its cohort has a rank above one; the first has rank one. *)
Lemma behind_rank k q x x0 n :
  q ∈ on C -> (x, n) ∈ row_number (cohort_of C) (fifo_key C) (probes k q) -> x0 ∈ table_rows C ->
  label_where C (k_actor k) q x0 = true -> cohort_of C x0 = cohort_of C x -> lex_lt (fifo_key C x0) (fifo_key C x) -> 1 < n.
Proof.
  intros Hq Hx Ht Hl Hc Hlt. pose proof Hx as Hin%elem_row_number. apply elem_of_probes in Hin; [|done].
  destruct (row_number_lt (cohort_of C) (fifo_key C) (probes k q) x x0 n) as (m & Hm & Hn); [done| |done|done|].
  - apply elem_of_probes; [done|]. rewrite Hc. eapply probe_keeps; [done|done| |done].
    by rewrite Hl, bool_decide_true.
  - apply number_above in Hm. unfold seen_of in Hm. simpl in Hm. lia.
Qed.
End turns.

(** Under round robin no cohort is served twice before another is served once: if a claim takes
    a row of an actor on a queue that is not the first of its cohort there, it takes the first
    claimable row of every cohort of that actor on that queue, unless that row carries an identity
    key. *)
Theorem round_robin_turns C clk i j x0 i' j' :
  Collation (text_lt C) -> sql C = round_robin ->
  fjobs (world C) !! i = Some j -> assignment_routed j = false ->
  x0 ∈ table_rows C -> label_where C (actor j) (queue_of C (i, j)) x0 = true ->
  cohort_of C x0 = cohort_of C (i, j) -> lex_lt (fifo_key C x0) (fifo_key C (i, j)) ->
  fjobs (world C) !! i' = Some j' -> actor j' = actor j -> queue_of C (i', j') = queue_of C (i, j) ->
  assignment_routed j' = false -> claimable C (i', j') -> identity_key (cols_at (world C) i') = None ->
  (forall z, z ∈ table_rows C -> label_where C (actor j) (queue_of C (i, j)) z = true -> cohort_of C z = cohort_of C (i', j') ->
     z = (i', j') \/ lex_lt (fifo_key C (i', j')) (fifo_key C z)) ->
  i ∈ snd (dispatch_batch C clk) -> i' ∈ snd (dispatch_batch C clk).
Proof.
  intros Hcoll Hsql Hj Hm Ht0 Hl0 Hc0 Hlt0 Hj' Ha Hq Hm' Hcl Hid Hmin. cbn. rewrite !elem_of_remove_dups.
  intros (c & Hc & Hi)%elem_of_claim_ids.
  apply elem_of_claim_ids. pose proof (eligible_good C c Hc) as (_ & _ & Hd). apply elem_of_dedup in Hd as [Hcand _].
  pose proof (eligible_row C c i j Hc Hi Hj) as Hrow.
  apply candidate_label in Hcand as (Hk & Hka & Hres & Hqon & Hlat & _); [|by cbn; rewrite Hrow].
  unfold c_who, unranked in *. cbn [c_row c_cap c_fair] in *. rewrite Hrow in *. cbn [snd] in Hka.
  set (q := queue_of C (i, j)) in *. set (k := c_cap c) in *. rewrite <- Hka in Ha, Hl0, Hmin.
  apply elem_of_lateral_iff in Hlat as (n & Hf & Hn); [|done].
  pose proof (behind_rank C k q (i, j) x0 n Hqon Hn Ht0 Hl0 Hc0 Hlt0) as H1.
  pose proof Hn as Hin%elem_row_number. apply elem_of_probes in Hin; [|done..].
  assert (label_where C (k_actor k) q (i', j') = true) as Hly by (by apply claimable_where).
  assert ((i', j') ∈ probes C k q) as Hy.
  { apply elem_of_probes; [done..|]. eapply cohort_head; [done|by apply elem_of_table|done..]. }
  assert (((i', j'), 1) ∈ row_number (cohort_of C) (fifo_key C) (probes C k q)) as Hy1.
  { apply (number_head _ (fifo_key C)); [apply order_by_sorted|by apply elem_of_order_by|apply not_elem_of_nil|].
    intros z Hz Hcz. apply elem_of_order_by, elem_of_probes in Hz; [|done..]. apply elem_of_probe in Hz as [Hzt Hzl].
    apply andb_true_iff in Hzl as [Hzl _]. by apply Hmin. }
  destruct (ahead_claimed C c (candidate_of k ((i', j'), Some 1))) as (c' & Hc' & Hr'); try done.
  - apply dedup_plain; [|done]. apply (label_candidate C _ q); try done. intros _. apply elem_of_lateral_iff. eauto.
  - unfold c_who. cbn. rewrite Hrow. cbn. congruence.
  - unfold front. cbn [c_fair candidate_of snd]. rewrite Hf. by apply lex_lt_nulls_last.
  - by apply claimable_lockable.
  - exists c'. split; [done|]. unfold c_id. by rewrite Hr'.
Qed.

(** ** Witnesses *)

(** A row on a polled queue without an identity key is claimable when its columns say so. *)
Lemma plain_claimable C x :
  status x.2 = pending -> deps_pending x.2 = 0 -> _wf_dispatch_fence (world C) (claimer C) x = true ->
  scheduled_at x.2 <= now C -> schedule_to_close x.2 = None -> is_Some (actor_config (world C) !! actor x.2) ->
  assignment_routed x.2 = false -> queue_of C x ∈ on C -> cursor_bound (sql C) x.1 = true ->
  identity_key (cols_at (world C) x.1) = None -> x.1 ∉ passed C -> claimable C x.
Proof.
  intros ? ? ? ? Hc ? Hm ? ? Hid ?. split_and!; try done.
  - intros t. by rewrite Hc.
  - unfold routed. by rewrite Hm.
  - intros key i j. by rewrite Hid.
Qed.

Definition strict_demo : claim_call := demo_call (capped_fleet None) strict_fifo 2 2 ∅.

Lemma strict_demo_claimable : claimable strict_demo (1, due_row "a" 10).
Proof.
  apply plain_claimable; try reflexivity; [vm_compute; discriminate|by eexists|apply list_elem_of_here|apply not_elem_of_empty].
Qed.

Lemma strict_fifo_order_witness : 2 ∈ snd (dispatch_batch strict_demo demo_clk) /\ 1 ∈ snd (dispatch_batch strict_demo demo_clk).
Proof.
  assert (2 ∈ snd (dispatch_batch strict_demo demo_clk)) as H2 by (change (2 ∈ claims_of strict_demo); vm_compute; set_solver).
  split; [exact H2|]. revert H2.
  refine (strict_fifo_order strict_demo demo_clk 2 (due_row "a" 20) 1 (due_row "a" 10) _ _ _ _ _ _ _ strict_demo_claimable _ _);
    try reflexivity; [discriminate|]. right. split; reflexivity.
Defined.

Definition capped_demo (os : nat) : claim_call := demo_call (capped_fleet (Some 4)) strict_fifo 2 os {[1; 2]}.

Lemma capped_window_stuck_witness : 3 ∉ snd (dispatch_batch (capped_demo 16) demo_clk).
Proof.
  refine (capped_window_stuck (capped_demo 16) demo_clk 3 (due_row "a" 30) (registered (Some 4) None) 4 [1; 2] _ _ _ _ _ _ _ _);
    try reflexivity; [discriminate|apply (bool_decide_unpack _); exact I|].
  intros h Hh. apply elem_of_cons in Hh as [->|Hh]; [|apply elem_of_cons in Hh as [->|Hh]; [|by apply elem_of_nil in Hh]].
  - exists (due_row "a" 10). split_and!; try reflexivity. right. split; reflexivity.
  - exists (due_row "a" 20). split_and!; try reflexivity. right. split; reflexivity.
Defined.

Definition turns_demo : claim_call := demo_call cohorts_fleet round_robin 4 2 ∅.

Lemma turns_demo_claimable : claimable turns_demo (5, due_row "a" 50).
Proof.
  apply plain_claimable; try reflexivity; [vm_compute; discriminate|by eexists|apply list_elem_of_here|apply not_elem_of_empty].
Qed.

Lemma turns_demo_first z :
  z ∈ table_rows turns_demo -> label_where turns_demo "a" "default" z = true ->
  cohort_of turns_demo z = cohort_of turns_demo (5, due_row "a" 50) ->
  z = (5, due_row "a" 50) \/ lex_lt (fifo_key turns_demo (5, due_row "a" 50)) (fifo_key turns_demo z).
Proof.
  intros Hz%elem_of_table _ Hc. left. destruct z as [i j]. simpl in *.
  assert (map_Forall (fun i _ => cohort (cols_at cohorts_fleet i) = "y"%string -> i = 5) (fjobs cohorts_fleet)) as Hy.
  { apply (bool_decide_unpack _). vm_compute. exact I. }
  specialize (Hy i j Hz Hc). subst i. injection Hz as <-. done.
Qed.

Lemma round_robin_turns_witness : 2 ∈ snd (dispatch_batch turns_demo demo_clk) /\ 5 ∈ snd (dispatch_batch turns_demo demo_clk).
Proof.
  assert (2 ∈ snd (dispatch_batch turns_demo demo_clk)) as H2 by (change (2 ∈ claims_of turns_demo); vm_compute; set_solver).
  split; [exact H2|]. revert H2.
  refine (round_robin_turns turns_demo demo_clk 2 (due_row "a" 20) (1, due_row "a" 10) 5 (due_row "a" 50)
            byte_collation _ _ _ _ _ _ _ _ _ _ _ turns_demo_claimable _ turns_demo_first); try reflexivity.
  apply elem_of_table. reflexivity.
Defined.
