(* ===== verification/DispatchLive.v ===== *)
(** * Claims make progress

    A claim round finds an unlocked row of an uncapped actor as long as its window outnumbers
    the rows peers hold; and the rotation stamp serves every waiting actor within as many rounds as there
    are actors that were claimed no later. *)

From Stdlib Require Import ZArith Lia.
From stdpp Require Import base tactics list gmap strings sorting.
From S2P Require Import Prelude JobRow Terminal Control Lifecycle Reservation ReservationProps Workflow WorkflowRun Dispatch DispatchOrder DispatchDemo DispatchProps DispatchFair.

Open Scope Z_scope.

Section progress.
Variable C : claim_call.
Context `{!Collation (text_lt C)}.
Local Notation F := (world C).
Implicit Types (c : candidate) (x : Z * job) (k : capacity).

(** ** A row that qualifies makes its actor a candidate *)

Lemma labelled_where a q x : x ∈ table_rows C -> q ∈ on C -> label_where C a q x = true -> x ∈ labelled_rows C.
Proof.
  intros Ht%elem_of_table Hq (Ha & Hqx & Hm & Hr & _)%label_where_iff. apply labelled_rows_iff.
  unfold ready in Hr. rewrite andb_true_iff, is_status_true in Hr. rewrite Hqx. tauto.
Qed.

Lemma pa_actors_labelled x : x ∈ labelled_rows C -> actor x.2 ∈ pa_actors C.
Proof.
  intros H. unfold pa_actors. apply elem_of_remove_dups.
  destruct (sql C); apply list_elem_of_fmap;
    [exists [queue_of C x; actor x.2]; split; [done|]; apply pa_keys_iff; [done|by exists x]..|].
  exists [actor x.2; queue_of C x; cohort_of C x]. split; [done|]. apply rr_keys_iff; [done|by exists x].
Qed.

(** The actor's capacity row is in the round. *)
Lemma per_actor_in a ac q x :
  x ∈ table_rows C -> q ∈ on C -> label_where C a q x = true -> cursor_bound (sql C) x.1 = true ->
  actor_config F !! a = Some ac -> capacity_of C a ac ∈ per_actor_capacity C.
Proof.
  intros Ht Hq Hl Hb Hac. apply elem_of_per_actor. exists ac. simpl.
  pose proof (labelled_where a q x Ht Hq Hl) as Hlr. apply label_where_iff in Hl as (Ha & Hqx & Hm & Hr & _).
  split_and!; [by rewrite <- Ha; apply pa_actors_labelled|done| |done].
  unfold has_pending. apply existsb_exists. exists q. split; [by apply list_elem_of_In|].
  apply existsb_exists. exists x. split; [by apply list_elem_of_In|].
  rewrite !bool_decide_true by done. by rewrite Hm, Hr, Hb.
Qed.

(** [a] waits on [q]: it is registered and has room, both in its cap and reservations and in the
    queue's, and a due row; no due row of it there carries an identity key. *)
Record waits (a q : string) (ac : actor_row) : Prop := {
  w_strict : sql C <> round_robin;
  w_polled : q ∈ on C;
  w_cfg : actor_config F !! a = Some ac;
  w_room : 0 < residual C a ac;
  w_queue_room : 0 < least_of (residual C a ac) (queue_cap_headroom C a q);
  w_row : exists x, x ∈ table_rows C /\ label_where C a q x = true /\ cursor_bound (sql C) x.1 = true;
  w_plain : forall x, x ∈ table_rows C -> label_where C a q x = true -> identity_key (cols_at F x.1) = None
}.

Lemma waits_candidate a q ac x :
  waits a q ac -> x ∈ strict_probe C (capacity_of C a ac) q ->
  candidate_of (capacity_of C a ac) (x, None) ∈ identity_dedup C.
Proof.
  intros [Hs Hq Hac Hr Hqr (x0 & Ht0 & Hl0 & Hb0) Hp] Hx. apply dedup_plain.
  - apply (label_candidate C _ q); try done; [intros _; by apply elem_of_strict_iff|]. by eapply per_actor_in.
  - apply elem_of_probe in Hx as [Ht Hl]. apply andb_true_iff in Hl as [Hl _]. by apply Hp.
Qed.

End progress.

(** ** From a locked row to a non-empty claim *)

Section nonempty.
Variable C : claim_call.
Implicit Types (c : candidate) (x : Z * job).

Lemma uncapped_cap c : c ∈ claimed C -> capped c = false -> actor_cap C (c_who c) = None.
Proof.
  intros [Hr _]%elem_of_claimed Hc. apply elem_of_ranked, elem_of_dedup in Hr as [[Hg _]%candidates_good _].
  destruct (g_cfg _ _ Hg) as (ac & Hac & Hk). unfold actor_cap. unfold capped in Hc. cbn in Hk. rewrite Hk in Hc. cbn in Hc.
  change (c_who (unranked c)) with (c_who c) in Hac. rewrite Hac. simpl. by destruct (max_concurrent ac).
Qed.

Lemma uncapped_eligible c :
  c ∈ claimed C -> capped c = false -> exists n, (c, n) ∈ eligible_candidates C /\ within_cap C (c, n) = true.
Proof.
  intros Hc Hu. pose proof (uncapped_cap c Hc Hu) as Hcap.
  destruct (row_number_elem c_who (actor_rank_key C) (filter (fun c => below_cap C c = true) (claimed C)) c) as [n Hn].
  { apply list_elem_of_filter. unfold below_cap. by rewrite Hcap. }
  exists n. split; [done|]. unfold within_cap. simpl. by rewrite Hcap.
Qed.

Lemma take_nonempty {A} n (l : list A) y : y ∈ l -> (0 < n)%nat -> exists z, z ∈ take n l.
Proof.
  destruct l as [|z l]; [by intros ?%elem_of_nil|]. intros _ Hn. exists z. destruct n; [lia|]. simpl. set_solver.
Qed.

Lemma eligible_some c : c ∈ claimed C -> capped c = false -> (0 < limit_n C)%nat -> exists c', c' ∈ eligible C.
Proof.
  intros Hc Hu Hn. destruct (uncapped_eligible c Hc Hu) as (n & Hin & Hw).
  destruct (take_nonempty (limit_n C) (order_by (eligible_key C) (filter (fun y => within_cap C y = true) (eligible_candidates C))) (c, n))
    as [z Hz]; [|done|].
  - by apply elem_of_order_by, list_elem_of_filter.
  - exists z.1. unfold eligible. apply list_elem_of_fmap. eauto.
Qed.

Lemma claimed_some c :
  c ∈ ranked C -> capped c = false -> lockable C c = true -> (0 < limit_n C)%nat ->
  exists c', c' ∈ claimed C /\ capped c' = false.
Proof.
  intros Hr Hu Hl Hn.
  destruct (take_nonempty (limit_n C) (filter (fun c => lockable C c = true) (order_by (cut_key C) (filter (fun c => capped c = false) (ranked C)))) c)
    as [z Hz]; [|done|].
  - apply list_elem_of_filter. split; [done|]. by apply elem_of_order_by, list_elem_of_filter.
  - exists z. split; [apply elem_of_app; by right|].
    apply subseteq_take, list_elem_of_filter in Hz as [_ Hz]. apply elem_of_order_by, list_elem_of_filter in Hz. tauto.
Qed.

Lemma dedup_ranked c0 : c0 ∈ identity_dedup C -> exists n, with_rank n c0 ∈ ranked C.
Proof.
  intros H. destruct (row_number_elem c_who (rank_key C) _ c0 H) as [n Hn]. exists n. apply elem_of_ranked_iff. by exists c0.
Qed.

Lemma claim_some c0 clk :
  c0 ∈ identity_dedup C -> capped c0 = false -> lockable C c0 = true -> (0 < limit_n C)%nat ->
  snd (dispatch_batch C clk) <> [].
Proof.
  intros H0 Hu Hl Hn. destruct (dedup_ranked c0 H0) as [n Hr].
  destruct (claimed_some (with_rank n c0)) as (c & Hc & Hcu); [done..|].
  destruct (eligible_some c Hc Hcu Hn) as [c' Hc'].
  intros Hnil. assert (c_id c' ∈ snd (dispatch_batch C clk)) as Hin.
  { cbn. apply elem_of_remove_dups, elem_of_claim_ids. eauto. }
  rewrite Hnil in Hin. by apply elem_of_nil in Hin.
Qed.

(** A window longer than the set of passed rows holds one that is not passed. *)
Lemma window_escapes n (l : list (Z * job)) x :
  NoDup (map fst l) -> x ∈ l -> x.1 ∉ passed C -> (size (passed C) < n)%nat ->
  exists y, y ∈ take n l /\ y.1 ∉ passed C.
Proof.
  intros Hnd Hx Hp Hsz. destruct (decide (Exists (fun y => y.1 ∉ passed C) (take n l))) as [H|H].
  - apply Exists_exists in H as (y & Hy & Hyp). eauto.
  - exfalso. rewrite <- Forall_Exists_neg, Forall_forall in H.
    assert (length (map fst (take n l)) <= size (passed C))%nat as Hle.
    { unfold size, set_size. simpl. apply submseteq_length, NoDup_submseteq.
      - rewrite <- (take_drop n l), map_app in Hnd. by apply NoDup_app in Hnd as (? & _ & _).
      - intros i (y & -> & Hy)%list_elem_of_fmap. apply elem_of_elements. specialize (H y Hy). by apply dec_stable in H. }
    rewrite length_fmap, length_take in Hle. assert (length l <= n)%nat as Hl by lia.
    rewrite take_ge in H by done. by apply (H x).
Qed.

Lemma NoDup_probe_rows p : NoDup (map fst (order_by (fifo_key C) (filter (fun x => p x = true) (table_rows C)))).
Proof. rewrite order_by_perm. apply NoDup_fst_in_order. Qed.
End nonempty.

(** Under the strict renders an uncapped actor that waits on a queue, with no reservations to
    gate it, is never locked out by fewer peers than the window covers: if peers hold fewer than
    [limit * oversample] rows and the actor has a due row there that none of them holds, the claim
    takes something. *)
Lemma window_outlasts_peers C clk a q ac x :
  Collation (text_lt C) -> waits C a q ac -> max_concurrent ac = None ->
  reservation_headroom C a = None -> queue_cap_headroom C a q = None ->
  x ∈ table_rows C -> label_where C a q x = true -> cursor_bound (sql C) x.1 = true -> x.1 ∉ passed C ->
  (size (passed C) < limit_n C * oversample C)%nat -> snd (dispatch_batch C clk) <> [].
Proof.
  intros Hcoll Hw Hu Hrh Hqh Ht Hl Hb Hp Hsz. set (k := capacity_of C a ac).
  assert (k_residual k = Z.of_nat (limit_n C)) as Hres by (unfold k; simpl; unfold residual; by rewrite Hu, Hrh).
  destruct (window_escapes C (limit_n C * oversample C) (order_by (fifo_key C) (filter (fun x => label_where C a q x && cursor_bound (sql C) x.1 = true) (table_rows C))) x)
    as (y & Hy & Hyp); [apply (NoDup_probe_rows C (fun x => label_where C a q x && cursor_bound (sql C) x.1))| |done|done|].
  { apply elem_of_order_by, list_elem_of_filter. by rewrite Hl, Hb. }
  assert (y ∈ strict_probe C k q) as Hyw.
  { unfold strict_probe, probe. change (k_actor k) with a. rewrite Hqh, take_take, Hres. cbn [least_of]. rewrite Nat2Z.id, Nat.min_id. exact Hy. }
  pose proof (waits_candidate C a q ac y Hw Hyw) as Hd. fold k in Hd.
  apply (claim_some C (candidate_of k (y, None))); [done|unfold capped; simpl; by rewrite Hu| |lia].
  apply elem_of_dedup in Hd as [[Hg _]%candidates_good _]. unfold lockable. rewrite !andb_true_iff, negb_true_iff.
  split_and!; [apply (g_ready _ _ Hg)|apply (g_fence _ _ Hg)|]. by apply bool_decide_eq_false.
Qed.

(** ** The rotation *)

Definition stamp_key (o : option Z) : list Z := nulls_first o.

Section rotation.
Variable C : claim_call.
Local Notation F := (world C).
Implicit Types (c : candidate).

(** A round in which nobody is favoured: strict, uncapped actors, rows of one priority, no peer in
    the way, and a clock past every stamp. *)
Record even_round : Prop := {
  ev_strict : sql C <> round_robin;
  ev_limit : (0 < limit_n C)%nat;
  ev_uncapped : forall a ac, actor_config F !! a = Some ac -> max_concurrent ac = None;
  ev_priority : exists p, forall i, priority (cols_at F i) = p;
  ev_free : passed C = ∅ /\ unstamped C = ∅;
  ev_clock : forall a ac t, actor_config F !! a = Some ac -> last_claimed_at ac = Some t -> t < now C
}.

Hypothesis Heven : even_round.

Lemma strict_fair c : c ∈ candidates C -> c_fair c = None.
Proof.
  unfold candidates, label_arm, repended_arm, repended_lateral. rewrite elem_of_app, !elem_of_mjoin_map. pose proof (ev_strict Heven) as Hs.
  intros [(k & _ & (q & Hq & H)%elem_of_mjoin_map)|(k & _ & H)]; apply list_elem_of_fmap in H as ([x f] & -> & Hy); simpl;
    destruct (sql C); try done; try (by apply elem_of_strict_iff in Hy as [_ ->]); by apply list_elem_of_fmap in Hy as (? & [= _ ->] & _).
Qed.

Lemma ranked_even c :
  c ∈ ranked C -> capped c = false /\ lockable C c = true /\ c_fair c = None /\ 1 <= c_rank c /\
  exists ac, actor_config F !! c_who c = Some ac /\ k_stamp (c_cap c) = last_claimed_at ac.
Proof.
  intros Hr. pose proof Hr as (c0 & Hn & _)%elem_of_ranked_iff. apply number_above in Hn.
  apply elem_of_ranked, elem_of_dedup in Hr as [Hc _]. pose proof (strict_fair _ Hc) as Hf. apply candidates_good in Hc as [Hg _].
  destruct (g_cfg _ _ Hg) as (ac & Hac & Hk). cbn in Hk, Hf. change (c_who (unranked c)) with (c_who c) in *.
  split_and!; [|..|done|unfold seen_of in Hn; simpl in Hn; lia|].
  - unfold capped. rewrite Hk. cbn. by rewrite (ev_uncapped Heven _ _ Hac).
  - unfold lockable. rewrite !andb_true_iff, negb_true_iff. split_and!; [apply (g_ready _ _ Hg)|apply (g_fence _ _ Hg)|].
    apply bool_decide_eq_false. rewrite (proj1 (ev_free Heven)). set_solver.
  - exists ac. split; [done|]. by rewrite Hk.
Qed.

(** Both cuts put a first row of an actor with an older stamp ahead. *)
Lemma cut_key_older c c' :
  c_rank c' = 1 -> 1 <= c_rank c -> lex_lt (stamp_key (k_stamp (c_cap c'))) (stamp_key (k_stamp (c_cap c))) ->
  lex_lt (cut_key C c') (cut_key C c).
Proof.
  intros Hr Hc Hlt. unfold cut_key. destruct (ev_priority Heven) as [p Hp]. rewrite !Hp, Hr.
  destruct (decide (c_rank c = 1)) as [->|]; [|by apply lex_lt_cons; lia].
  apply (lex_lt_app [1; - p]), lex_lt_prefix; [|done]. by destruct (k_stamp _), (k_stamp _).
Qed.

Lemma eligible_key_older c c' n m :
  c_rank c' = 1 -> 1 <= c_rank c -> c_fair c = None -> c_fair c' = None ->
  lex_lt (stamp_key (k_stamp (c_cap c'))) (stamp_key (k_stamp (c_cap c))) ->
  lex_lt (eligible_key C (c', n)) (eligible_key C (c, m)).
Proof.
  intros Hr Hc Hf Hf' Hlt. unfold eligible_key. cbn [fst]. destruct (ev_priority Heven) as [p Hp]. rewrite !Hp, Hr, Hf, Hf'.
  destruct (decide (c_rank c = 1)) as [->|]; [|by apply lex_lt_cons; lia].
  apply (lex_lt_app [1; 1; 0; - p]), lex_lt_prefix; [|done]. by destruct (k_stamp _), (k_stamp _).
Qed.

(** An actor with a candidate is served before any actor claimed after it. *)
Lemma older_first c0 c :
  c0 ∈ identity_dedup C -> c ∈ eligible C -> (forall c', c' ∈ eligible C -> c_who c' <> c_who c0) ->
  forall ac ac0, actor_config F !! c_who c = Some ac -> actor_config F !! c_who c0 = Some ac0 ->
  lex_le (stamp_key (last_claimed_at ac)) (stamp_key (last_claimed_at ac0)) = true.
Proof.
  intros H0 Hc Hno ac ac0 Hac Hac0. apply not_false_iff_true. intros Hlt.
  destruct (number_one c_who [] (order_by (rank_key C) (identity_dedup C)) c0) as (c1 & H1 & Hw1); [by apply elem_of_order_by|apply not_elem_of_nil|].
  set (cb := with_rank 1 c1).
  assert (cb ∈ ranked C) as Hb by (apply elem_of_ranked_iff; by exists c1).
  destruct (elem_of_eligible C c Hc) as (Hcl & n & Hn & Hwc). destruct (elem_of_claimed C c Hcl) as [Hr _].
  destruct (ranked_even c Hr) as (Hu & _ & Hf & Hrk & ac' & Hac' & Hst).
  destruct (ranked_even cb Hb) as (Hbu & Hbl & Hbf & _ & acb & Hacb & Hstb).
  assert (lex_lt (stamp_key (k_stamp (c_cap cb))) (stamp_key (k_stamp (c_cap c)))) as Hs.
  { rewrite Hst, Hstb. change (c_who cb) with (c_who c1) in Hacb. rewrite Hw1, Hac0 in Hacb. rewrite Hac in Hac'. by simplify_eq. }
  assert (cb ∈ claimed C) as Hbc.
  { apply (claimed_ahead C c cb Hcl Hb); [by rewrite Hu, Hbu|done|]. by apply cut_key_older. }
  destruct (uncapped_eligible C cb Hbc Hbu) as (m & Hm & Hmw). apply (Hno cb); [|exact Hw1].
  unfold eligible in *. apply list_elem_of_fmap in Hc as ([c2 n2] & Heq & Hcut). cbn in Heq. subst c2. apply list_elem_of_fmap.
  exists (cb, m). split; [done|]. eapply cut_keeps; [exact Hcut|by apply list_elem_of_filter|]. by apply eligible_key_older.
Qed.

(** What the stamp writes. *)
Lemma stamp_lookup a :
  stamp C (actor_config F) !! a =
  if decide (a ∈ map c_who (eligible C)) then (fun r => r <| last_claimed_at := Some (now C) |>) <$> actor_config F !! a
  else actor_config F !! a.
Proof.
  unfold stamp. assert (forall l (m : gmap string actor_row), NoDup l -> foldl (fun m a => alter (fun r => r <| last_claimed_at := Some (now C) |>) a m) m l !! a =
    if decide (a ∈ l) then (fun r : actor_row => r <| last_claimed_at := Some (now C) |>) <$> m !! a else m !! a) as Hfold.
  { induction l as [|b l IH]; intros m Hnd; simpl; [done|]. apply NoDup_cons in Hnd as [Hb Hnd]. rewrite IH by done.
    destruct (decide (a = b)) as [->|Hne].
    - rewrite decide_False by done. rewrite decide_True by set_solver. by rewrite lookup_alter_eq.
    - rewrite lookup_alter_ne by done. repeat case_decide; set_solver. }
  assert (a ∈ stamp_rows C <-> a ∈ map c_who (eligible C)) as Hiff.
  { unfold stamp_rows. rewrite list_elem_of_filter, elem_of_remove_dups, (proj2 (ev_free Heven)). set_solver. }
  rewrite Hfold by (apply NoDup_filter, NoDup_remove_dups).
  repeat case_decide; try done; exfalso; tauto.
Qed.

(** The other actors claimed no later than [o]. *)
Definition ahead_of (cfg : gmap string actor_row) (b : string) (o : option Z) : gset string :=
  dom (filter (fun kv => lex_le (stamp_key (last_claimed_at kv.2)) (stamp_key o) = true) (base.delete b cfg)).

Lemma elem_of_ahead cfg b o a :
  a ∈ ahead_of cfg b o <-> a <> b /\ exists r, cfg !! a = Some r /\ lex_le (stamp_key (last_claimed_at r)) (stamp_key o) = true.
Proof.
  unfold ahead_of. rewrite elem_of_dom. unfold is_Some. setoid_rewrite map_lookup_filter_Some. setoid_rewrite lookup_delete_Some. simpl. naive_solver.
Qed.

Lemma unserved_fewer b ac0 c0 :
  c0 ∈ identity_dedup C -> c_who c0 = b -> actor_config F !! b = Some ac0 -> (forall c', c' ∈ eligible C -> c_who c' <> b) ->
  stamp C (actor_config F) !! b = Some ac0 /\
  ahead_of (stamp C (actor_config F)) b (last_claimed_at ac0) ⊂ ahead_of (actor_config F) b (last_claimed_at ac0).
Proof.
  intros H0 <- Hac0 Hno. assert (c_who c0 ∉ map c_who (eligible C)) as Hnb.
  { intros (c & Hw & Hc)%list_elem_of_fmap. by apply (Hno c). }
  rewrite stamp_lookup, decide_False by done. split; [done|].
  destruct (dedup_ranked C c0 H0) as [n0 Hr0]. destruct (ranked_even _ Hr0) as (Hu0 & Hl0 & _).
  destruct (claimed_some C _ Hr0 Hu0 Hl0 (ev_limit Heven)) as (c1 & Hc1 & Hu1).
  destruct (eligible_some C c1 Hc1 Hu1 (ev_limit Heven)) as [c Hc].
  assert (forall r, lex_le (stamp_key (Some (now C))) (stamp_key (last_claimed_at ac0)) = true -> r) as Hnow.
  { intros r Hle. exfalso. unfold stamp_key, nulls_first in Hle. destruct (last_claimed_at ac0) as [t|] eqn:Et; [|done].
    pose proof (ev_clock Heven _ _ _ Hac0 Et). simpl in Hle. rewrite orb_true_iff, Z.ltb_lt, andb_true_iff, Z.eqb_eq in Hle. lia. }
  split.
  - intros a. rewrite !elem_of_ahead, stamp_lookup. intros (Hne & r & Hr & Hle). split; [done|]. case_decide; [|eauto].
    destruct (actor_config F !! a); [|done]. injection Hr as <-. by apply Hnow.
  - intros Hsub. destruct (elem_of_eligible C c Hc) as [[Hr _]%elem_of_claimed _]. destruct (ranked_even c Hr) as (_ & _ & _ & _ & ac & Hac & _).
    specialize (Hsub (c_who c)). rewrite !elem_of_ahead, stamp_lookup in Hsub. destruct Hsub as (_ & r & Hr' & Hle).
    { split; [by apply Hno|]. exists ac. split; [done|]. by eapply older_first. }
    rewrite decide_True in Hr' by (apply list_elem_of_fmap; eauto). rewrite Hac in Hr'. injection Hr' as <-. by apply Hnow.
Qed.
End rotation.

(** [a] can be served on [q]: it is registered and has room, and the window the round reads for
    it there - as many of its first due rows at or above the cursor as its room times the oversample -
    holds a row whose identity, if it has one, is not running. *)
Record in_turn (C : claim_call) (a q : string) (ac : actor_row) : Prop := {
  it_strict : sql C <> round_robin;
  it_polled : q ∈ on C;
  it_cfg : actor_config (world C) !! a = Some ac;
  it_room : 0 < residual C a ac;
  it_row : exists x, x ∈ strict_probe C (capacity_of C a ac) q /\
    forall key, identity_key (cols_at (world C) x.1) = Some key -> running_identity C a key = false
}.

Lemma in_turn_some C a q ac :
  Collation (text_lt C) -> in_turn C a q ac -> exists c0, c0 ∈ identity_dedup C /\ c_who c0 = a.
Proof.
  intros Hcoll [Hs Hq Hac Hr (x & Hx & Hid)]. pose proof Hx as [Ht Hl]%elem_of_probe. apply andb_true_iff in Hl as [Hl Hb].
  assert (actor x.2 = a) as Ha by (by apply label_where_iff in Hl as [? _]).
  set (c := candidate_of (capacity_of C a ac) (x, None)).
  assert (c ∈ candidates C) as Hc.
  { apply (label_candidate C _ q); try done; [intros _; by apply elem_of_strict_iff|]. by eapply per_actor_in. }
  destruct (c_identity C c) as [key|] eqn:Hk; [|exists c; split; [by apply dedup_plain|done]].
  destruct (distinct_on_some (fun c => (c_who c, c_identity C c)) []
    (order_by (c_fifo C) (filter (fun c => identity_free C c = true) (candidates C))) c) as (y & Hy & Ey).
  - apply elem_of_order_by, list_elem_of_filter. split; [|done]. unfold identity_free. rewrite Hk. apply negb_true_iff.
    change (c_who c) with (actor x.2). rewrite Ha. by apply Hid.
  - apply not_elem_of_nil.
  - exists y. split; [apply elem_of_app; by left|]. injection Ey as Ey _. by rewrite Ey.
Qed.

(** [b] gets a row in the round. *)
Definition served (C : claim_call) (clk : nat -> Z) (b : string) : Prop :=
  exists id j, id ∈ snd (dispatch_batch C clk) /\ fjobs (world C) !! id = Some j /\ actor j = b.

Lemma unserved_eligible C clk b : ~ served C clk b -> forall c, c ∈ eligible C -> c_who c <> b.
Proof.
  intros Hn c Hc Hw. apply Hn. exists (c_id c), (c_row c).2. split_and!; [|..|done].
  - cbn. apply elem_of_remove_dups, elem_of_claim_ids. eauto.
  - apply eligible_good in Hc as [Hg _]. by apply g_row.
Qed.

#[export] Instance served_dec C clk b : Decision (served C clk b).
Proof.
  refine (cast_if (decide (Exists (fun id => actor <$> fjobs (world C) !! id = Some b) (snd (dispatch_batch C clk)))));
    unfold served; rewrite Exists_exists in *.
  - destruct e as (id & Hin & Ha). apply fmap_Some in Ha as (j & Hj & ->). eauto.
  - intros (id & j & Hin & Hj & Ha). apply n. exists id. rewrite Hj. simpl. by rewrite Ha.
Defined.


(** ** Witnesses *)

Lemma even_round_check C :
  sql C = strict_fifo -> (0 < limit_n C)%nat -> passed C = ∅ -> unstamped C = ∅ ->
  map_Forall (fun _ r => max_concurrent r = None /\ default (now C - 1) (last_claimed_at r) < now C) (actor_config (world C)) ->
  map_Forall (fun _ d => priority d = 0) (placed (world C)) -> even_round C.
Proof.
  intros Hs Hl Hp Hu Hc Hpr. split; [by rewrite Hs|done|..|done|].
  - intros a ac Ha. by destruct (Hc a ac Ha).
  - exists 0. intros i. unfold cols_at. destruct (placed (world C) !! i) as [d|] eqn:E; [|done]. by apply (Hpr i d).
  - intros a ac t Ha Ht. destruct (Hc a ac Ha) as [_ Hn]. by rewrite Ht in Hn.
Qed.

Lemma waits_check C a q ac x :
  sql C = strict_fifo -> q ∈ on C -> actor_config (world C) !! a = Some ac -> 0 < residual C a ac ->
  0 < least_of (residual C a ac) (queue_cap_headroom C a q) -> fjobs (world C) !! x.1 = Some x.2 -> label_where C a q x = true ->
  map_Forall (fun _ d => identity_key d = None) (placed (world C)) -> waits C a q ac.
Proof.
  intros Hs Hq Hac Hr Hqr Hx Hl Hid. split; try done; [by rewrite Hs| |].
  - exists x. split_and!; [by apply elem_of_table|done|by rewrite Hs].
  - intros y _ _. unfold cols_at. destruct (placed (world C) !! y.1) as [d|] eqn:E; [|done]. by apply (Hid y.1 d).
Qed.

Definition first_turn : claim_call := demo_call two_actors strict_fifo 1 2 ∅.

Definition second_turn : claim_call :=
  {| world := fst (dispatch_batch first_turn demo_clk); sql := strict_fifo; on := ["default"%string]; limit_n := 1; claimer := 7;
     lock_lease := 60000000; oversample := 2; now := 200; text_lt := byte_lt; passed := ∅; unstamped := ∅;
     tie_rank := fun i => i; tie_cut := fun i => i |}.

Definition turn (n : nat) : claim_call := match n with O => first_turn | S _ => second_turn end.

Lemma turn_ready n : Collation (text_lt (turn n)) /\ even_round (turn n) /\ exists q ac, in_turn (turn n) "b" q ac.
Proof.
  destruct n; (split_and!; [exact byte_collation| |exists "default"%string, (registered None (Some 2))]).
  1, 3: apply even_round_check; [reflexivity|simpl; lia|reflexivity|reflexivity|apply (bool_decide_unpack _); vm_compute; exact I..].
  all: split; [done|apply list_elem_of_here|vm_compute; reflexivity..|exists (3, due_row "b" 30)].
  all: split; [apply (list_elem_of_lookup_2 _ 0); vm_compute; reflexivity|by vm_compute].
Qed.

