(* ===== verification/DispatchRound.v ===== *)
(** * The dispatch round

    [src/taskq/backend/_dispatch.py]: the queue-mode cache, the choice of render, the claim
    re-run with a doubled window while rows remain, the claim cursor's advance, and the decode
    of what was claimed; and the claimable probes of [src/taskq/backend/_dispatch_sql.py].

    Other processes act between the statements of a round: each attempt finds the fleet in
    whatever state its environment says.  Only the last attempt can have claimed anything.
    [decodes] says which rows' JSON columns decode, [drops] which failure writes meet a dead
    connection. *)

From Stdlib Require Import ZArith Lia QArith.
From stdpp Require Import base tactics list gmap strings sorting.
From S2P Require Import Prelude PyFloat JobRow Terminal Control Lifecycle Reservation ReservationProps ClaimCursor Workflow WorkflowProps WorkflowRun Dispatch DispatchOrder DispatchDemo DispatchProps DispatchFair DispatchLive.

Open Scope Z_scope.

(** ** The claimable probes *)

Definition probe_row (F : fleet) (x : Z * job) : bool := ready x && _wf_probe_fence F x.

(** [DISPATCH_CLAIMABLE_PROBE_SQL], and with a bound its cursor render: the handed-back arm is
    not bounded. *)
Definition claimable_probe (F : fleet) (qs : list string) (bound : option Z) : bool :=
  existsb (fun p =>
    existsb (fun q => existsb (fun x =>
        bool_decide (actor x.2 = p.1) && bool_decide (queue (cols_at F x.1) = q) && negb (assignment_routed x.2) &&
        match bound with Some b => b <=? x.1 | None => true end && probe_row F x) (in_order (fjobs F))) qs ||
    (bool_decide (assignment p.2 ∈ qs) &&
     existsb (fun x => bool_decide (actor x.2 = p.1) && assignment_routed x.2 && probe_row F x) (in_order (fjobs F))))
  (map_to_list (actor_config F)).

(** ** Queue modes *)

Section modes.
Context `{Rounding}.

(** [QueueModeCache]: the mode of a queue and when it was stored. *)
Record mode_cache := { ttl_seconds : Q; mc_entries : gmap string (string * Q) }.

#[export] Instance mode_cache_copy : Copy mode_cache := fun c =>
  {| ttl_seconds := ttl_seconds c; mc_entries := mc_entries c |}.

Definition QUEUE_MODE_CACHE_TTL_SECONDS : Q := 5.

Definition STRICT_FIFO : string := "strict_fifo".
Definition ROUND_ROBIN : string := "round_robin".

Fixpoint fresh_modes (t : Q) (c : mode_cache) (qs : list string) : option (list string) :=
  match qs with
  | [] => Some []
  | q :: qs' =>
      match mc_entries c !! q with
      | Some (m, at_) => if Qle_bool (ttl_seconds c) (fsub t at_) then None
                         else match fresh_modes t c qs' with Some ms => Some (m :: ms) | None => None end
      | None => None
      end
  end.

Definition resolved_modes (t : Q) (qs : list string) (c : mode_cache) : option (list string) :=
  match qs with [] => Some [STRICT_FIFO] | _ => fresh_modes t c qs end.

Definition store_modes (t : Q) (modes : list (string * string)) (c : mode_cache) : mode_cache :=
  c <| mc_entries ::= fun m => foldl (fun m p => <[p.1 := (p.2, t)]> m) m modes |>.

Definition clear_modes (c : mode_cache) : mode_cache := c <| mc_entries := ∅ |>.

(** Every live cache of the process, and how many there were. *)
Definition invalidate_queue_mode_caches (cs : list mode_cache) : list mode_cache * nat :=
  (map clear_modes cs, length cs).

Definition _resolve_queue_modes_by_queue (F : fleet) (qs : list string) : list (string * string) :=
  map (fun q => (q, default STRICT_FIFO (queues F !! q))) qs.

(** The first stage of a round: the cache, or the query and a refill.  [t1] and [t2] are the
    cache's clock readings. *)
Definition queue_modes (t1 t2 : Q) (F : fleet) (qs : list string) (c : option mode_cache)
  : option mode_cache * list string :=
  match (match c with Some c => resolved_modes t1 qs c | None => None end) with
  | Some ms => (c, ms)
  | None =>
      let by_queue := _resolve_queue_modes_by_queue F qs in
      (store_modes t2 by_queue <$> c, match by_queue with [] => [STRICT_FIFO] | _ => map snd by_queue end)
  end.

(** ** The round *)

(** What an attempt meets: the fleet its claim sees, and the one its probe sees. *)
Record attempt_env := {
  at_world : fleet; at_now : Z; at_passed : gset Z; at_unstamped : gset string;
  at_rank : Z -> Z; at_cut : Z -> Z; at_clk : nat -> Z; at_tick : nat -> Q;
  at_probe : fleet
}.

Record round_args := {
  r_queues : list string; r_limit : nat; r_worker : Z; r_lease : Z; r_oversample : nat;
  r_lt : string -> string -> bool
}.

Definition _MAX_DISPATCH_WINDOW_EXPANSIONS : nat := 3.

(** [claim_cursor.bound(q)] for each queue in turn; one clock reading each. *)
Fixpoint read_bounds (tick : nat -> Q) (qs : list string) (cc : cursor) : cursor * list Z :=
  match qs with
  | [] => (cc, [])
  | q :: qs' =>
      let '(cc1, b) := bound q (tick 0%nat) cc in
      let '(cc2, bs) := read_bounds (fun n => tick (S n)) qs' cc1 in
      (cc2, match b with Some z => z :: bs | None => bs end)
  end.

Definition round_bound (tick : nat -> Q) (modes qs : list string) (cc : option cursor) : option cursor * option Z :=
  match cc with
  | Some cc0 =>
      if bool_decide (ROUND_ROBIN ∈ modes) then (cc, None)
      else let '(cc1, bs) := read_bounds tick qs cc0 in (Some cc1, min_over bs)
  | None => (None, None)
  end.

Definition choose_render (modes : list string) (b : option Z) : render :=
  match b with
  | Some z => strict_fifo_cursor z
  | None => if bool_decide (ROUND_ROBIN ∈ modes) then round_robin else strict_fifo
  end.

Definition call_of (r : round_args) (e : attempt_env) (v : render) (os : nat) : claim_call :=
  {| world := at_world e; sql := v; on := r_queues r; limit_n := r_limit r; claimer := r_worker r;
     lock_lease := r_lease r; oversample := os; now := at_now e; text_lt := r_lt r;
     passed := at_passed e; unstamped := at_unstamped e; tie_rank := at_rank e; tie_cut := at_cut e |}.

(** The window-expansion loop from the [n]-th expansion on: the fleet after the last claim, what
    it claimed, the cursor, and the last attempt's number. *)
Fixpoint widen (r : round_args) (modes : list string) (env : nat -> attempt_env) (fuel n : nat) (cc : option cursor)
  : fleet * list Z * option cursor * nat :=
  let e := env n in
  let '(cc1, b) := round_bound (at_tick e) modes (r_queues r) cc in
  let '(F, ids) := dispatch_batch (call_of r e (choose_render modes b) (r_oversample r * 2 ^ n)) (at_clk e) in
  if negb (bool_decide (ids = [])) || (_MAX_DISPATCH_WINDOW_EXPANSIONS <=? n)%nat then (F, ids, cc1, n)
  else if claimable_probe (at_probe e) (r_queues r) b then
    match fuel with S fuel' => widen r modes env fuel' (S n) cc1 | O => (F, ids, cc1, n) end
  else (F, ids, cc1, n).

(** The cursor advances for every claimed row whose own queue the round polls; [draw] gives the
    clock reading and the jitter of each. *)
Fixpoint advance_all (draw : nat -> Q * Q) (qs : list string) (F : fleet) (ids : list Z) (cc : cursor) : cursor :=
  match ids with
  | [] => cc
  | id :: ids' =>
      let q := queue (cols_at F id) in
      advance_all (fun n => draw (S n)) qs F ids'
        (if bool_decide (q ∈ qs) then advance q id (draw 0%nat).1 (draw 0%nat).2 cc else cc)
  end.

(** ** Decoding *)

Definition CORRUPT : string := "CorruptJobDataError".

(** The failure write of a row that does not decode: fenced by the record's own epochs, and
    dropped with a warning when it cannot be made. *)
Definition _fail_corrupt_claimed_row (drops : bool) (clk : nat -> Z) (worker : Z) (msg : string) (id : Z) (rec : job) (d : db) : db :=
  if drops then d
  else match mark_failed clk id {| f_worker := worker; f_attempt := Some (attempt rec); f_epoch := Some (claim_epoch rec) |}
               (Some CORRUPT) (Some msg) None (progress_seq rec) None d with
       | Ok (d', _) => d'
       | Err _ => d
       end.

Fixpoint _decode_claimed_rows (decodes drops : Z -> bool) (clk : nat -> nat -> Z) (worker : Z) (msg : Z -> string)
    (recs : list (Z * job)) (d : db) : list Z * db :=
  match recs with
  | [] => ([], d)
  | (id, rec) :: recs' =>
      if decodes id then
        let '(rows, d') := _decode_claimed_rows decodes drops (fun n => clk (S n)) worker msg recs' d in (id :: rows, d')
      else _decode_claimed_rows decodes drops (fun n => clk (S n)) worker msg recs'
             (_fail_corrupt_claimed_row (drops id) (clk 0%nat) worker (msg id) id rec d)
  end.

(** The records RETURNING gives back. *)
Definition records (F : fleet) (ids : list Z) : list (Z * job) :=
  omap (fun id => match fjobs F !! id with Some j => Some (id, j) | None => None end) ids.

Record round_out := {
  ro_fleet : fleet; ro_rows : list Z; ro_cache : option mode_cache; ro_cursor : option cursor
}.

Definition _dispatch_batch (r : round_args) (env : nat -> attempt_env) (t1 t2 : Q) (draw : nat -> Q * Q)
    (decodes drops : Z -> bool) (clk : nat -> nat -> Z) (msg : Z -> string)
    (resolve_at : fleet) (cache : option mode_cache) (cc : option cursor) : round_out :=
  let '(cache', modes) := queue_modes t1 t2 resolve_at (r_queues r) cache in
  let '(F, ids, cc1, _) := widen r modes env _MAX_DISPATCH_WINDOW_EXPANSIONS 0 cc in
  let cc2 := (fun c => advance_all draw (r_queues r) F ids c) <$> cc1 in
  let '(rows, d) := _decode_claimed_rows decodes drops clk (r_worker r) msg (records F ids) (base (wf F)) in
  {| ro_fleet := F <| wf ::= fun W => W <| base := d |> |>; ro_rows := rows; ro_cache := cache'; ro_cursor := cc2 |}.
End modes.

(** ** The mode cache *)

Section cache.
Context `{Rounding}.

(** A hit's modes were all stored within the lifetime. *)
Lemma cache_hit_fresh t qs c ms :
  fresh_modes t c qs = Some ms ->
  Forall2 (fun q m => exists at_, mc_entries c !! q = Some (m, at_) /\ Qle_bool (ttl_seconds c) (fsub t at_) = false) qs ms.
Proof.
  revert ms. induction qs as [|q qs IH]; intros ms; simpl; [intros [= <-]; constructor|].
  destruct (mc_entries c !! q) as [[m at_]|] eqn:E; [|done]. destruct (Qle_bool _ _) eqn:Eq; [done|].
  destruct (fresh_modes t c qs) as [ms'|]; [|done]. intros [= <-]. constructor; [by exists at_|by apply IH].
Qed.

Lemma store_lookup (t : Q) (f : string -> string) qs (m : gmap string (string * Q)) q :
  q ∈ qs -> foldl (fun m p => <[p.1 := (p.2, t)]> m) m (map (fun q => (q, f q)) qs) !! q = Some (f q, t).
Proof.
  assert (Hkeep : forall qs (m : gmap string (string * Q)), m !! q = Some (f q, t) ->
            foldl (fun m p => <[p.1 := (p.2, t)]> m) m (map (fun q => (q, f q)) qs) !! q = Some (f q, t)).
  { intros l. induction l as [|x l IH]; intros m0 Hm; simpl; [done|]. apply IH. destruct (decide (x = q)) as [->|]; [by rewrite lookup_insert_eq|by rewrite lookup_insert_ne]. }
  revert m. induction qs as [|x qs IH]; intros m Hq; [by apply elem_of_nil in Hq|]. simpl.
  apply elem_of_cons in Hq as [->|Hq]; [|by apply IH]. apply Hkeep. by rewrite lookup_insert_eq.
Qed.

(** Within the lifetime of a refill, the cache answers as the query did. *)
Lemma cache_roundtrip t t0 F qs c :
  Qle_bool (ttl_seconds c) (fsub t t0) = false ->
  fresh_modes t (store_modes t0 (_resolve_queue_modes_by_queue F qs) c) qs = Some (map snd (_resolve_queue_modes_by_queue F qs)).
Proof.
  intros Hf. set (c' := store_modes t0 _ c).
  assert (Hl : forall q, q ∈ qs -> mc_entries c' !! q = Some (default STRICT_FIFO (queues F !! q), t0)).
  { intros q Hq. unfold c', store_modes, _resolve_queue_modes_by_queue. cbn [mc_entries assign].
    by apply (store_lookup t0 (fun q => default STRICT_FIFO (queues F !! q))). }
  assert (Ht : ttl_seconds c' = ttl_seconds c) by done. clearbody c'.
  assert (Hall : forall l, (forall q, q ∈ l -> q ∈ qs) -> fresh_modes t c' l = Some (map snd (_resolve_queue_modes_by_queue F l))).
  { induction l as [|q l IH]; intros Hsub; simpl; [done|]. rewrite Hl, Ht, Hf by set_solver. rewrite IH by set_solver. done. }
  by apply Hall.
Qed.

Lemma cleared_cache_misses t qs c : qs <> [] -> resolved_modes t qs (clear_modes c) = None.
Proof. destruct qs; [done|]. intros _. simpl. by rewrite lookup_empty. Qed.
End cache.

(** ** The loop *)

Section loop.
Variables (r : round_args) (modes : list string) (env : nat -> attempt_env).

(** The [n]-th attempt's statement. *)
Definition attempt_call (b : option Z) (n : nat) : claim_call :=
  call_of r (env n) (choose_render modes b) (r_oversample r * 2 ^ n).

Lemma widen_unfold fuel n cc :
  widen r modes env fuel n cc =
  let '(cc1, b) := round_bound (at_tick (env n)) modes (r_queues r) cc in
  let '(F, ids) := dispatch_batch (attempt_call b n) (at_clk (env n)) in
  if negb (bool_decide (ids = [])) || (_MAX_DISPATCH_WINDOW_EXPANSIONS <=? n)%nat then (F, ids, cc1, n)
  else if claimable_probe (at_probe (env n)) (r_queues r) b then
    match fuel with S fuel' => widen r modes env fuel' (S n) cc1 | O => (F, ids, cc1, n) end
  else (F, ids, cc1, n).
Proof. by destruct fuel. Qed.

(** The loop ends with one attempt's claim, within its bound. *)
Lemma widen_last fuel n cc F ids cc' m :
  widen r modes env fuel n cc = (F, ids, cc', m) -> (n <= _MAX_DISPATCH_WINDOW_EXPANSIONS)%nat ->
  (n <= m <= _MAX_DISPATCH_WINDOW_EXPANSIONS)%nat /\ exists b, dispatch_batch (attempt_call b m) (at_clk (env m)) = (F, ids).
Proof.
  revert n cc. induction fuel as [|fuel IH]; intros n cc; rewrite widen_unfold;
    destruct (round_bound _ _ _ cc) as [cc1 b];
    destruct (dispatch_batch (attempt_call b n) (at_clk (env n))) as [G is0] eqn:E; intros Hw Hn.
  - destruct (negb (bool_decide (is0 = [])) || _), (claimable_probe (at_probe (env n)) (r_queues r) b);
      injection Hw as <- <- <- <-; (split; [lia|eauto]).
  - destruct (negb (bool_decide (is0 = [])) || _) eqn:Eb; [injection Hw as <- <- <- <-; split; [lia|eauto]|].
    apply orb_false_iff in Eb as [_ Hlt%Nat.leb_gt].
    destruct (claimable_probe _ _ _); [|injection Hw as <- <- <- <-; split; [lia|eauto]].
    destruct (IH (S n) cc1 Hw) as [Hm He]; [lia|]. split; [lia|done].
Qed.

(** Without a cursor, the loop goes on to the last attempt unless one claims something. *)
Lemma widen_reaches fuel n :
  (fuel + n = _MAX_DISPATCH_WINDOW_EXPANSIONS)%nat ->
  (forall m, (n <= m < _MAX_DISPATCH_WINDOW_EXPANSIONS)%nat -> claimable_probe (at_probe (env m)) (r_queues r) None = true) ->
  snd (dispatch_batch (attempt_call None _MAX_DISPATCH_WINDOW_EXPANSIONS) (at_clk (env _MAX_DISPATCH_WINDOW_EXPANSIONS))) <> [] ->
  snd (fst (fst (widen r modes env fuel n None))) <> [].
Proof.
  revert n. induction fuel as [|fuel IH]; intros n Hf Hp Hlast; rewrite widen_unfold; cbn [round_bound].
  - assert (n = _MAX_DISPATCH_WINDOW_EXPANSIONS) as -> by lia.
    destruct (dispatch_batch _ _) as [G is0]. cbn [snd] in Hlast. by rewrite bool_decide_false.
  - destruct (dispatch_batch (attempt_call None n) _) as [G is0]. destruct (bool_decide_reflect (is0 = [])) as [->|Hne]; [|done].
    cbn [negb orb]. rewrite (proj2 (Nat.leb_gt _ _)) by lia. rewrite Hp by lia. apply IH; [lia|intros m Hm; apply Hp; lia|done].
Qed.
End loop.

(** The claim fence admits no row the probe's does not. *)
Lemma fence_probe F w x : _wf_dispatch_fence F w x = true -> _wf_probe_fence F x = true.
Proof.
  unfold _wf_dispatch_fence, _wf_probe_fence. destruct (cols (wf F) !! x.1) as [c|]; [|done].
  rewrite !andb_true_iff, orb_true_iff, !negb_true_iff. intros [[H1 _] H2]. rewrite H1. simpl.
  destruct H2 as [-> | ->]; [done|]. apply andb_false_r.
Qed.

(** A row the probe counts: ready, on its own polled queue, of a registered actor, past its fence. *)
Definition probe_open (F : fleet) (qs : list string) : Prop :=
  exists x ac, fjobs F !! x.1 = Some x.2 /\ actor_config F !! actor x.2 = Some ac /\ queue (cols_at F x.1) ∈ qs /\
    assignment_routed x.2 = false /\ probe_row F x = true.

Lemma probe_open_true F qs : probe_open F qs -> claimable_probe F qs None = true.
Proof.
  intros (x & ac & Hx & Hac & Hq & Hm & Hp). unfold claimable_probe. apply existsb_exists. exists (actor x.2, ac).
  split; [by apply list_elem_of_In, elem_of_map_to_list|]. apply orb_true_iff. left. apply existsb_exists.
  exists (queue (cols_at F x.1)). split; [by apply list_elem_of_In|]. apply existsb_exists. exists x.
  split; [by apply list_elem_of_In, elem_of_in_order|]. simpl. rewrite !bool_decide_true by done. by rewrite Hm, Hp.
Qed.

(** A dispatch round outlasts its peers.  With the cursor off and strict queues, if rows stay
    routable while the round runs, and at its last attempt peers hold fewer than eight times
    [limit * oversample] rows and an uncapped actor, gated by no reservation, has a due row that none of them
    holds, then the round claims something, at that attempt or before. *)
Theorem round_outlasts_peers r modes env a q ac x :
  let C := attempt_call r modes env None 3 in
  Collation (r_lt r) -> ROUND_ROBIN ∉ modes ->
  (forall n, (n < 3)%nat -> probe_open (at_probe (env n)) (r_queues r)) ->
  waits C a q ac -> max_concurrent ac = None -> reservation_headroom C a = None -> queue_cap_headroom C a q = None ->
  x ∈ table_rows C -> label_where C a q x = true -> x.1 ∉ passed C ->
  (size (at_passed (env 3%nat)) < r_limit r * (r_oversample r * 8))%nat ->
  snd (fst (fst (widen r modes env _MAX_DISPATCH_WINDOW_EXPANSIONS 0 None))) <> [].
Proof.
  intros C Hcoll Hm Hp Hw Hu Hrh Hqh Hx Hl Hxp Hsz. apply widen_reaches; [done|..].
  - intros n Hn. apply probe_open_true, Hp. unfold _MAX_DISPATCH_WINDOW_EXPANSIONS in Hn. lia.
  - apply (window_outlasts_peers C _ a q ac x); try done.
    unfold C, attempt_call, choose_render. simpl. by rewrite bool_decide_false.
Qed.

Definition lone_args : round_args :=
  {| r_queues := ["default"%string]; r_limit := 1; r_worker := 7; r_lease := 60000000; r_oversample := 1; r_lt := byte_lt |}.

(** Peers hold the four oldest of six rows. *)
Definition lone_env (n : nat) : attempt_env :=
  {| at_world := capped_fleet None; at_now := 100; at_passed := {[1; 2; 3; 4]}; at_unstamped := ∅; at_rank := fun i => i;
     at_cut := fun i => i; at_clk := demo_clk; at_tick := fun _ => 0%Q; at_probe := capped_fleet None |}.

Lemma lone_waits : waits (attempt_call lone_args [STRICT_FIFO] lone_env None 3) "a" "default" (registered None None).
Proof.
  apply (waits_check _ _ _ _ (5, due_row "a" 50)); [reflexivity|apply list_elem_of_here|vm_compute; reflexivity..|].
  apply (bool_decide_unpack _). vm_compute. exact I.
Qed.

Lemma round_outlasts_peers_witness :
  snd (fst (fst (widen lone_args [STRICT_FIFO] lone_env _MAX_DISPATCH_WINDOW_EXPANSIONS 0 None))) <> [].
Proof.
  apply (round_outlasts_peers lone_args [STRICT_FIFO] lone_env "a" "default" (registered None None) (5, due_row "a" 50)).
  - exact byte_collation.
  - apply (bool_decide_unpack _). vm_compute. exact I.
  - intros n _. exists (5, due_row "a" 50), (registered None None).
    split_and!; [vm_compute; reflexivity|vm_compute; reflexivity|apply list_elem_of_here|reflexivity|vm_compute; reflexivity].
  - exact lone_waits.
  - reflexivity.
  - vm_compute. reflexivity.
  - vm_compute. reflexivity.
  - apply elem_of_table. vm_compute. reflexivity.
  - vm_compute. reflexivity.
  - apply (bool_decide_unpack _). vm_compute. exact I.
  - vm_compute. lia.
Defined.
