(* ===== verification/DispatchCompose.v ===== *)
(** * Dispatch with the rest of the system

    A round is a sequence of the lifecycle's statements, so what holds of those holds of it; the
    rows it hands to the worker are running under that worker, and a row whose columns do not
    decode is ended in the round that claimed it; and the nodes it takes from a workflow run are
    nodes whose parents have let them go. *)

From Stdlib Require Import ZArith Lia QArith.
From stdpp Require Import base tactics list gmap strings sorting.
From S2P Require Import Prelude PyFloat JobRow Terminal Control Lifecycle TerminalProps Reservation ReservationProps ClaimCursor Workflow WorkflowProps WorkflowRun.
From S2P Require Import Dispatch DispatchOrder DispatchDemo DispatchProps DispatchFair DispatchLive DispatchRound.

Open Scope Z_scope.

(** ** Decoding *)

(** The record of a claim this worker holds, recent at every reading of [clk]. *)
Definition held_record (clk : nat -> nat -> Z) (worker : Z) (rec : job) : Prop :=
  status rec = running /\ locked_by_worker rec = Some worker /\
  exists s, started_at rec = Some s /\ forall k, short_attempt (clk k) s.

Lemma fail_corrupt_other drops clk w msg id rec d id' :
  id' <> id -> jobs (_fail_corrupt_claimed_row drops clk w msg id rec d) !! id' = jobs d !! id'.
Proof.
  intros Hne. unfold _fail_corrupt_claimed_row. destruct drops; [done|].
  destruct (mark_failed _ _ _ _ _ _ _ _ _) as [[d' o]|] eqn:E; [|done].
  apply mark_failed_landed in E. destruct o as [u|]; [|by subst]. destruct E as (j & _ & _ & Ht).
  rewrite (tw_jobs _ _ _ _ _ Ht). by rewrite lookup_insert_ne.
Qed.

Lemma held_fence w rec :
  status rec = running -> locked_by_worker rec = Some w ->
  JOB_FENCE {| f_worker := w; f_attempt := Some (attempt rec); f_epoch := Some (claim_epoch rec) |} rec = true.
Proof.
  intros Hs Hl. unfold JOB_FENCE, sql_eq. simpl. rewrite Hl, !Z.eqb_refl. unfold is_status. by rewrite bool_decide_true.
Qed.

Lemma fail_corrupt_hit clk w msg id rec d s :
  jobs d !! id = Some rec -> status rec = running -> locked_by_worker rec = Some w -> started_at rec = Some s ->
  short_attempt clk s ->
  exists u, jobs (_fail_corrupt_claimed_row false clk w msg id rec d) !! id = Some u /\ status u = failed /\
    error_class u = Some CORRUPT.
Proof.
  intros Hj Hs Hl Hst Hsh. unfold _fail_corrupt_claimed_row, mark_failed, select_row.
  rewrite Hj, held_fence by done. cbv zeta.
  match goal with |- context [terminal_attempt ?a ?b ?c ?v ?o ?x ?y ?z _] => set (u := v);
    destruct (terminal_attempt_records a b c u o x y z (write_row id u d) (clk 0%nat) s) as (d' & Hok & _ & Hd & _) end;
    [done|done|apply Hsh|].
  rewrite Hok. exists u. split; [|by split].
  cbn [rbind insert_event jobs assign]. rewrite Hd. apply lookup_insert_eq.
Qed.

Lemma decode_other decodes drops clk w msg recs d id :
  id ∉ map fst recs -> jobs (snd (_decode_claimed_rows decodes drops clk w msg recs d)) !! id = jobs d !! id.
Proof.
  revert clk d. induction recs as [|[i rec] recs IH]; intros clk d Hn; simpl; [done|].
  apply not_elem_of_cons in Hn as [Hi Hn]. destruct (decodes i).
  - specialize (IH (fun n => clk (S n)) d Hn). by destruct (_decode_claimed_rows _ _ _ _ _ _ _).
  - rewrite IH by done. by apply fail_corrupt_other.
Qed.

Lemma decode_rows decodes drops clk w msg recs d :
  fst (_decode_claimed_rows decodes drops clk w msg recs d) = filter (fun id => decodes id = true) (map fst recs).
Proof.
  revert clk d. induction recs as [|[i rec] recs IH]; intros clk d; cbn [_decode_claimed_rows map fst]; [done|].
  rewrite filter_cons. destruct (decodes i); [rewrite decide_True by done|rewrite decide_False by done; apply IH].
  specialize (IH (fun n => clk (S n)) d). destruct (_decode_claimed_rows _ _ _ _ _ _ _). cbn in *. by rewrite IH.
Qed.

(** What decoding leaves of each claimed row. *)
Definition decoded_as (decodes drops : Z -> bool) (d' : db) (id : Z) (rec : job) : Prop :=
  if decodes id then jobs d' !! id = Some rec
  else drops id = false -> exists u, jobs d' !! id = Some u /\ status u = failed /\ error_class u = Some CORRUPT.

Lemma decode_each decodes drops clk w msg recs d :
  NoDup (map fst recs) ->
  (forall id rec, (id, rec) ∈ recs -> jobs d !! id = Some rec /\ held_record clk w rec) ->
  forall id rec, (id, rec) ∈ recs -> decoded_as decodes drops (snd (_decode_claimed_rows decodes drops clk w msg recs d)) id rec.
Proof.
  revert clk d. induction recs as [|[i rc] recs IH]; intros clk d Hnd Hh id rec Hin; [by apply elem_of_nil in Hin|].
  cbn in Hnd. apply NoDup_cons in Hnd as [Hi Hnd]. cbn [_decode_claimed_rows].
  assert (Hrest : forall d0, (forall id', id' ∈ map fst recs -> jobs d0 !! id' = jobs d !! id') ->
            forall id rec, (id, rec) ∈ recs -> jobs d0 !! id = Some rec /\ held_record (fun n => clk (S n)) w rec).
  { intros d0 Hd0 id' rec' Hr. rewrite Hd0 by (apply list_elem_of_fmap; by exists (id', rec')).
    destruct (Hh id' rec') as (Hj & Hs & Hl & s & Hst & Hsh); [set_solver|]. split; [done|]. split_and!; [done..|]. exists s. split; [done|]. intros k. apply Hsh. }
  destruct (Hh i rc) as (Hj & Hs & Hl & s & Hst & Hsh); [set_solver|]. destruct (decodes i) eqn:Ed.
  - specialize (IH (fun n => clk (S n)) d Hnd (Hrest d (fun _ _ => eq_refl))).
    pose proof (decode_other decodes drops (fun n => clk (S n)) w msg recs d i Hi) as Ho.
    destruct (_decode_claimed_rows _ _ _ _ _ _ _) as [rows d']. cbn [snd] in *.
    apply elem_of_cons in Hin as [[= -> ->]|Hin]; [|by apply IH]. unfold decoded_as. by rewrite Ed, Ho.
  - set (d1 := _fail_corrupt_claimed_row (drops i) (clk 0%nat) w (msg i) i rc d).
    assert (Hd1 : forall id', id' ∈ map fst recs -> jobs d1 !! id' = jobs d !! id').
    { intros id' Hin'. apply fail_corrupt_other. set_solver. }
    apply elem_of_cons in Hin as [[= -> ->]|Hin]; [|by apply (IH _ d1 Hnd (Hrest d1 Hd1))].
    unfold decoded_as. rewrite Ed. intros Hdr. rewrite decode_other by done. unfold d1. rewrite Hdr.
    eapply fail_corrupt_hit; [done..|apply Hsh].
Qed.

(** ** A round as steps *)

Section rounds.
Context `{Rounding}.

Lemma fail_corrupt_steps drops clk w msg id rec d : steps d (_fail_corrupt_claimed_row drops clk w msg id rec d).
Proof.
  unfold _fail_corrupt_claimed_row. destruct drops; [apply rtc_refl|].
  destruct (mark_failed _ _ _ _ _ _ _ _ _) as [[d' o]|] eqn:E; [|apply rtc_refl]. apply rtc_once.
  by apply (s_write (W_failed (Some CORRUPT) (Some msg) None) clk id
             {| f_worker := w; f_attempt := Some (attempt rec); f_epoch := Some (claim_epoch rec) |} (progress_seq rec) None d d' o).
Qed.

Lemma decode_steps decodes drops clk w msg recs d :
  steps d (snd (_decode_claimed_rows decodes drops clk w msg recs d)).
Proof.
  revert clk d. induction recs as [|[i rec] recs IH]; intros clk d; simpl; [apply rtc_refl|]. destruct (decodes i).
  - specialize (IH (fun n => clk (S n)) d). by destruct (_decode_claimed_rows _ _ _ _ _ _ _).
  - etransitivity; [apply fail_corrupt_steps|apply IH].
Qed.

Lemma dispatch_step C clk : step (base (wf (world C))) (base (wf (fst (dispatch_batch C clk)))).
Proof. apply s_claim. Qed.

Lemma claimed_row C clk id :
  id ∈ snd (dispatch_batch C clk) ->
  exists j u, fjobs (fst (dispatch_batch C clk)) !! id = Some u /\ claimed_as clk (claimer C) (lock_lease C) j u.
Proof.
  cbn [snd dispatch_batch]. rewrite elem_of_remove_dups. intros (c & Hc & Hi)%elem_of_claim_ids.
  destruct (dispatch_row C clk id c Hc Hi) as (u & Hu & Hcl). eauto.
Qed.

Lemma records_ids F ids : (forall id, id ∈ ids -> is_Some (fjobs F !! id)) -> map fst (records F ids) = ids.
Proof.
  induction ids as [|i ids IH]; intros Hs; [done|]. cbn. destruct (Hs i) as [j ->]; [set_solver|]. cbn. f_equal.
  apply IH. intros id Hid. apply Hs. set_solver.
Qed.

Lemma elem_of_records F ids id rec : (id, rec) ∈ records F ids <-> id ∈ ids /\ fjobs F !! id = Some rec.
Proof.
  unfold records. rewrite list_elem_of_omap. split.
  - intros (i & Hi & He). destruct (fjobs F !! i) as [j|] eqn:E; [|done]. by injection He as -> ->.
  - intros [Hi Hj]. exists id. by rewrite Hj.
Qed.

Lemma claimed_as_held clk worker C clk0 j u :
  (forall m k i, 0 <= clk k i - clk0 m < int4_ms_span) -> claimer C = worker ->
  claimed_as clk0 (claimer C) (lock_lease C) j u -> held_record clk worker u.
Proof.
  intros Hc <- [n ->]. split_and!; [done|done|]. exists (clk0 n). split; [done|]. intros k i. apply Hc.
Qed.

(** C28: A dispatch round accounts for every row it claims.  Whatever happens between its
    attempts, it ends with the claim of one of them, of at most [limit] rows; it hands to the worker exactly
    those whose columns decode, each running under the worker as claimed; every other one
    is failed in the same round, unless that write is lost; and all it did to the jobs is a
    sequence of lifecycle statements. *)
Theorem round_accounts r env t1 t2 draw decodes drops clk msg F0 cache cc :
  (forall n m k i, 0 <= clk k i - at_clk (env n) m < int4_ms_span) ->
  let out := _dispatch_batch r env t1 t2 draw decodes drops clk msg F0 cache cc in
  exists n modes b, (n <= 3)%nat /\
    let C := attempt_call r modes env b n in
    let ids := snd (dispatch_batch C (at_clk (env n))) in
    (length ids <= r_limit r)%nat /\ ro_rows out = filter (fun id => decodes id = true) ids /\
    (forall id, id ∈ ids -> exists rec, fjobs (fst (dispatch_batch C (at_clk (env n)))) !! id = Some rec /\
       status rec = running /\ locked_by_worker rec = Some (r_worker r) /\
       decoded_as decodes drops (base (wf (ro_fleet out))) id rec) /\
    steps (base (wf (at_world (env n)))) (base (wf (ro_fleet out))).
Proof.
  intros Hclk. unfold _dispatch_batch. destruct (queue_modes t1 t2 F0 (r_queues r) cache) as [cache' modes].
  destruct (widen r modes env _MAX_DISPATCH_WINDOW_EXPANSIONS 0 cc) as [[[F ids] cc1] m] eqn:Ew.
  apply widen_last in Ew as [[_ Hm] [b Hb]]; [|unfold _MAX_DISPATCH_WINDOW_EXPANSIONS; lia].
  set (C := attempt_call r modes env b m) in *. assert (F = fst (dispatch_batch C (at_clk (env m)))) as HF by (by rewrite Hb).
  assert (ids = snd (dispatch_batch C (at_clk (env m)))) as Hids by (by rewrite Hb).
  assert (Hrow : forall id, id ∈ ids -> exists rec, fjobs F !! id = Some rec /\ held_record clk (r_worker r) rec).
  { intros id Hid. rewrite Hids in Hid. apply claimed_row in Hid as (j & u & Hu & Hcl). exists u. rewrite HF. split; [done|].
    by eapply claimed_as_held; [apply Hclk| |exact Hcl]. }
  assert (Hfst : map fst (records F ids) = ids).
  { apply records_ids. intros id (rec & Hr & _)%Hrow. by rewrite Hr. }
  pose proof (decode_rows decodes drops clk (r_worker r) msg (records F ids) (base (wf F))) as Hrows.
  pose proof (decode_steps decodes drops clk (r_worker r) msg (records F ids) (base (wf F))) as Hsteps.
  pose proof (decode_each decodes drops clk (r_worker r) msg (records F ids) (base (wf F))) as Heach.
  rewrite Hfst in Hrows, Heach. destruct (_decode_claimed_rows _ _ _ _ _ _ _) as [rows d]. cbn [fst snd ro_rows ro_fleet wf base assign] in *.
  exists m, modes, b. fold C. rewrite <- HF, <- Hids. split_and!; [done| |done| |].
  - rewrite Hids. apply length_claim_ids.
  - intros id Hid. destruct (Hrow id Hid) as (rec & Hr & Hs & Hl & _). exists rec. split_and!; [done..|].
    apply Heach; [rewrite Hids; apply NoDup_remove_dups| |by apply elem_of_records].
    intros id' rec' [Hi' Hr']%elem_of_records. split; [done|]. destruct (Hrow id' Hi') as (rec0 & Hr0 & Hh). congruence.
  - eapply rtc_l; [|exact Hsteps]. rewrite HF. apply (dispatch_step C).
Qed.
End rounds.

Lemma round_accounts_witness :
  exists n modes b, (n <= 3)%nat /\
    ro_rows (@_dispatch_batch b64_rounding lone_args lone_env 0 0 (fun _ => (0, 1)%Q) (fun _ => false) (fun _ => false)
               (fun _ => demo_clk) (fun _ => ""%string) (capped_fleet None) None None) =
    filter (fun _ => false = true) (snd (dispatch_batch (attempt_call lone_args modes lone_env b n) demo_clk)).
Proof.
  destruct (@round_accounts b64_rounding lone_args lone_env 0 0 (fun _ => (0, 1)%Q) (fun _ => false) (fun _ => false)
              (fun _ => demo_clk) (fun _ => ""%string) (capped_fleet None) None None) as (n & modes & b & Hn & _ & Hr & _).
  - intros n m k i. split; vm_compute; [discriminate|reflexivity].
  - exists n, modes, b. exact (conj Hn Hr).
Defined.

(** ** Workflow nodes *)

(** C27: Dispatch takes a workflow node only when it may run.  From any database a disciplined run
    ([rstep]: no sweep locks a join fed by a half-done finalize or owed an edge, forks are wired in
    advance, no operator retries a finished node) of the workflow engine reaches, each node a claim
    takes has every recorded parent finished and none failed on a fail-closed edge.  And from any database:
    it is not a flow's root; the claiming worker is registered as able to execute flows; and its flow is
    not over, unless it is the loop's escalation step. *)
Theorem claimed_node_may_run `{Rounding} items_len W R C clk :
  blank W -> rtc (rstep items_len) (start W) R -> wf (world C) = store R ->
  forall id, id ∈ snd (dispatch_batch C clk) ->
    (forall p pol, parents (store R) id !! p = Some pol -> lets_go (store R) p pol) /\
    (forall c j, cols (store R) !! id = Some c -> wjobs (store R) !! id = Some j ->
       step_key c <> FLOW_STEP_KEY /\ executes (world C) !! claimer C = Some true /\
       (step_key c = WF_LOOP_ESCALATION_STEP_KEY \/ flow_over (world C) j = false)).
Proof.
  intros Hb Hr Hwf id. cbn [snd dispatch_batch]. rewrite elem_of_remove_dups. intros (c & Hc & Hi)%elem_of_claim_ids.
  pose proof (eligible_good C c Hc) as (Hg & _). pose proof (g_row _ _ Hg) as Hrow. rewrite Hi in Hrow.
  unfold fjobs in Hrow. rewrite Hwf in Hrow. split.
  - intros p pol. apply clear_lets_go. pose proof (run_wired_reachable items_len W R Hb Hr) as Hw.
    destruct (wi_row _ _ _ Hw id _ Hrow) as (_ & _ & _ & H0). apply H0.
    pose proof (g_ready _ _ Hg) as Hrd. unfold ready in Hrd. rewrite andb_true_iff, Z.eqb_eq in Hrd. tauto.
  - intros w j Hw Hj. rewrite Hrow in Hj. injection Hj as <-. pose proof (g_fence _ _ Hg) as Hf.
    unfold fenced_in, _wf_dispatch_fence, wf_exec_capable, step_is in Hf. rewrite Hwf in Hf. unfold c_id in Hi. rewrite Hi, Hw in Hf.
    rewrite !andb_true_iff, orb_true_iff, !negb_true_iff, bool_decide_eq_false, bool_decide_eq_true in Hf.
    destruct Hf as [[Hroot Hcap] Hfl]. split_and!; [done| |done]. by destruct (executes (world C) !! claimer C) as [[]|].
Qed.

(** The join of the demo run, once both its parents are through. *)
Definition node_fleet : fleet :=
  {| wf := demo_4; placed := {[4 := on_queue "default"]}; actor_config := {["join"%string := registered None None]};
     reservation_slots := ∅; executes := {[7 := true]}; queues := ∅ |}.

Lemma claimed_node_may_run_witness :
  4 ∈ snd (dispatch_batch (demo_call node_fleet strict_fifo 2 2 ∅) demo_clk) /\ lets_go demo_4 2 fail_closed.
Proof.
  assert (4 ∈ snd (dispatch_batch (demo_call node_fleet strict_fifo 2 2 ∅) demo_clk)) as H4.
  { change (4 ∈ claims_of (demo_call node_fleet strict_fifo 2 2 ∅)). vm_compute. apply list_elem_of_here. }
  split; [exact H4|]. destruct demo_reaches as (R & Hs & Hr). destruct demo_end as (_ & Ha & _).
  destruct (claimed_node_may_run _ demo_flow R (demo_call node_fleet strict_fifo 2 2 ∅) demo_clk demo_blank Hr (eq_sym Hs) 4 H4) as [Hp _].
  rewrite Hs in Hp. exact (Hp 2 fail_closed Ha).
Defined.

(** ** Examples *)

Example strict_takes_oldest : claims_of (demo_call (capped_fleet None) strict_fifo 2 2 ∅) = [1; 2].
Proof. vm_compute. reflexivity. Qed.

Example slides_past_peers : claims_of (demo_call (capped_fleet None) strict_fifo 2 2 {[1; 2]}) = [3; 4].
Proof. vm_compute. reflexivity. Qed.

Example cap_limits : claims_of (demo_call (capped_fleet (Some 1)) strict_fifo 4 2 ∅) = [1].
Proof. vm_compute. reflexivity. Qed.

Example cohorts_take_turns : claims_of (demo_call cohorts_fleet round_robin 3 2 ∅) = [1; 5; 6].
Proof. vm_compute. reflexivity. Qed.

Example oldest_stamp_first : claims_of (demo_call two_actors strict_fifo 1 2 ∅) = [1].
Proof. vm_compute. reflexivity. Qed.
