(* ===== verification/EnqueueArgs.v ===== *)
(** * What a producer hands to an enqueue

    The struct [EnqueueArgs] of [src/taskq/backend/_protocol.py] with the checks its
    construction makes, and the pure rules beside it that both backends share: the grouping of
    caps per actor, the refusals of a batch, and the naming of the item a bulk write
    aborts on.

    Durations and times are microseconds.  A field the code types as [int] is a [Z], so the
    type test of [_check_is_int] has nothing to refuse.  A dict is an association list in
    insertion order. *)

From Stdlib Require Import ZArith Lia QArith.
From stdpp Require Import base tactics list gmap strings.
From S2P Require Import Prelude PyFloat Retry JobRow.

Open Scope Z_scope.

(** ** The struct *)

(** The constructor's arguments; the two encoding memos are caches and are left out. *)
Record EnqueueArgs := {
  e_id : Z;
  e_actor : string;
  e_queue : string;
  e_payload : jobj;
  e_max_attempts : Z;
  e_retry_kind : RetryKind;
  e_scheduled_at : option Z;
  e_payload_schema_ver : Z;
  e_priority : Z;
  e_max_pending : option Z;
  e_schedule_to_close : option Z;
  e_schedule_to_close_interval : option Z;
  e_start_to_close : option Z;
  e_heartbeat_timeout : option Z;
  e_identity_key : option string;
  e_fairness_key : option string;
  e_idempotency_key : option string;
  e_idempotency_scope : string;
  e_trace_id : option string;
  e_span_id : option string;
  e_result_ttl : option Z;
  e_unique_for : option Z;
  e_unique_states : list JobStatus;
  e_metadata : jobj;
  e_tags : list string;
  e_parent_id : option Z;
  e_retry_base : Z;
  e_retry_cap : Z;
  e_retry_backoff : Backoff;
  e_retry_jitter : Q
}.

#[export] Instance args_copy : Copy EnqueueArgs := fun a =>
  {| e_id := e_id a; e_actor := e_actor a; e_queue := e_queue a; e_payload := e_payload a;
     e_max_attempts := e_max_attempts a; e_retry_kind := e_retry_kind a;
     e_scheduled_at := e_scheduled_at a; e_payload_schema_ver := e_payload_schema_ver a;
     e_priority := e_priority a; e_max_pending := e_max_pending a;
     e_schedule_to_close := e_schedule_to_close a;
     e_schedule_to_close_interval := e_schedule_to_close_interval a;
     e_start_to_close := e_start_to_close a; e_heartbeat_timeout := e_heartbeat_timeout a;
     e_identity_key := e_identity_key a; e_fairness_key := e_fairness_key a;
     e_idempotency_key := e_idempotency_key a; e_idempotency_scope := e_idempotency_scope a;
     e_trace_id := e_trace_id a; e_span_id := e_span_id a; e_result_ttl := e_result_ttl a;
     e_unique_for := e_unique_for a; e_unique_states := e_unique_states a;
     e_metadata := e_metadata a; e_tags := e_tags a; e_parent_id := e_parent_id a;
     e_retry_base := e_retry_base a; e_retry_cap := e_retry_cap a;
     e_retry_backoff := e_retry_backoff a; e_retry_jitter := e_retry_jitter a |}.

Definition DEFAULT_UNIQUE_STATES : list JobStatus := [pending; scheduled; running; succeeded].

(** The struct with every default of the dataclass. *)
Definition default_args (id : Z) (actor queue : string) : EnqueueArgs :=
  {| e_id := id; e_actor := actor; e_queue := queue; e_payload := ∅; e_max_attempts := 3;
     e_retry_kind := transient; e_scheduled_at := None; e_payload_schema_ver := 1; e_priority := 0;
     e_max_pending := None; e_schedule_to_close := None; e_schedule_to_close_interval := None;
     e_start_to_close := None; e_heartbeat_timeout := None; e_identity_key := None;
     e_fairness_key := None; e_idempotency_key := None; e_idempotency_scope := "";
     e_trace_id := None; e_span_id := None; e_result_ttl := None; e_unique_for := None;
     e_unique_states := DEFAULT_UNIQUE_STATES; e_metadata := ∅; e_tags := []; e_parent_id := None;
     e_retry_base := 5000000; e_retry_cap := 3600000000; e_retry_backoff := exponential;
     e_retry_jitter := (1 # 5)%Q |}.

(** ** Construction *)

Inductive args_err :=
| BothDeadlines
| MaxAttemptsTooSmall
| MaxAttemptsTooLarge
| PriorityOutOfRange
| NegativeDuration (what : string)
| NulCharacter (what : string).

Definition SMALLINT_MIN : Z := -32768.

Definition check_max_attempts_domain (v : Z) : result args_err unit :=
  if v <? 1 then Err MaxAttemptsTooSmall
  else if MAX_ENQUEUABLE_MAX_ATTEMPTS <? v then Err MaxAttemptsTooLarge
  else Ok ().

Definition check_priority_domain (v : Z) : result args_err unit :=
  if (v <? SMALLINT_MIN) || (SMALLINT_MAX <? v) then Err PriorityOutOfRange else Ok ().

Definition check_duration (x : option Z * string) : result args_err unit :=
  match x.1 with
  | Some d => if d <? 0 then Err (NegativeDuration x.2) else Ok ()
  | None => Ok ()
  end.

Definition durations (a : EnqueueArgs) : list (option Z * string) :=
  [(e_start_to_close a, "start_to_close"); (e_heartbeat_timeout a, "heartbeat_timeout");
   (e_result_ttl a, "result_ttl"); (e_schedule_to_close_interval a, "schedule_to_close_interval");
   (e_unique_for a, "unique_for"); (Some (e_retry_base a), "retry_base");
   (Some (e_retry_cap a), "retry_cap")]%string.

Definition _check_column_domains (a : EnqueueArgs) : result args_err unit :=
  let* _ := check_max_attempts_domain (e_max_attempts a) in
  let* _ := check_priority_domain (e_priority a) in
  let* _ := traverse check_duration (durations a) in
  Ok ().

Fixpoint contains_nul (s : string) : bool :=
  match s with
  | EmptyString => false
  | String c s' => bool_decide (c = Ascii.zero) || contains_nul s'
  end.

Definition check_no_nul_str (what : string) (s : string) : result args_err unit :=
  if contains_nul s then Err (NulCharacter what) else Ok ().

Definition check_no_nul_opt (x : option string * string) : result args_err unit :=
  match x.1 with Some s => check_no_nul_str x.2 s | None => Ok () end.

Definition _check_no_nul_text (a : EnqueueArgs) : result args_err unit :=
  let* _ := check_no_nul_str "actor" (e_actor a) in
  let* _ := check_no_nul_str "queue" (e_queue a) in
  let* _ := check_no_nul_str "idempotency_scope" (e_idempotency_scope a) in
  let* _ := traverse check_no_nul_opt
    [(e_identity_key a, "identity_key"); (e_fairness_key a, "fairness_key");
     (e_idempotency_key a, "idempotency_key"); (e_trace_id a, "trace_id");
     (e_span_id a, "span_id")]%string in
  let* _ := traverse (check_no_nul_str "tag") (e_tags a) in
  Ok ().

Definition __post_init__ (a : EnqueueArgs) : result args_err unit :=
  match e_schedule_to_close a, e_schedule_to_close_interval a with
  | Some _, Some _ => Err BothDeadlines
  | _, _ => let* _ := _check_column_domains a in _check_no_nul_text a
  end.

(** ** Metadata marks *)

(** [metadata.get("singleton") is True]. *)
Definition is_singleton (a : EnqueueArgs) : bool :=
  bool_decide (e_metadata a !! "singleton"%string = Some (JRaw "true")).

(** The (scope, key) pair the unique index sees; a keyless row is not indexed. *)
Definition pair_of (a : EnqueueArgs) : option (string * string) :=
  match e_idempotency_key a with Some k => Some (e_idempotency_scope a, k) | None => None end.

(** ** Caps of a batch *)

Definition dict (V : Type) : Type := list (string * V).

Fixpoint dict_get {V} (d : dict V) (k : string) : option V :=
  match d with
  | [] => None
  | (k', v) :: d' => if bool_decide (k' = k) then Some v else dict_get d' k
  end.

(** [d[k] = v]: in place when the key is there, last otherwise. *)
Fixpoint dict_set {V} (d : dict V) (k : string) (v : V) : dict V :=
  match d with
  | [] => [(k, v)]
  | (k', v') :: d' => if bool_decide (k' = k) then (k', v) :: d' else (k', v') :: dict_set d' k v
  end.

(** One round of the grouping loop: the count goes up, the strictest cap stays. *)
Definition group_item (g : dict (Z * Z)) (a : EnqueueArgs) : dict (Z * Z) :=
  match e_max_pending a with
  | None => g
  | Some cap =>
      match dict_get g (e_actor a) with
      | None => dict_set g (e_actor a) (1, cap)
      | Some (n, c) => dict_set g (e_actor a) (n + 1, if cap <? c then cap else c)
      end
  end.

Definition batch_cap_groups (l : list EnqueueArgs) : dict (Z * Z) := foldl group_item [] l.

Definition cap_keyed (a : EnqueueArgs) : option (string * (string * string)) :=
  match e_max_pending a, pair_of a with
  | Some _, Some p => Some (e_actor a, p)
  | _, _ => None
  end.

Definition cap_keyed_pairs (l : list EnqueueArgs) : list (string * (string * string)) := omap cap_keyed l.

(** The discount loop: occurrences of a pair that is stored or came earlier in the batch. *)
Fixpoint deduped_for (actor : string) (seen : list (string * string)) (keyed : list (string * (string * string))) : Z :=
  match keyed with
  | [] => 0
  | (b, p) :: keyed' =>
      (if bool_decide (p ∈ seen) && bool_decide (b = actor) then 1 else 0) +
      deduped_for actor (p :: seen) keyed'
  end.

Record cap_refusal := { cr_actor : string; cr_current : Z; cr_max : Z }.

(** [override if override is not None else carried]. *)
Definition effective_cap (overrides : gmap string (option Z)) (actor : string) (carried : Z) : Z :=
  default carried (mjoin (overrides !! actor)).

Definition refuse_group (overrides : gmap string (option Z)) (stored : list (string * string))
    (existing : string -> Z) (keyed : list (string * (string * string))) (g : string * (Z * Z)) : option cap_refusal :=
  let '(actor, (n, carried)) := g in
  let cap := effective_cap overrides actor carried in
  let have := existing actor in
  if cap <? have + (n - deduped_for actor stored keyed)
  then Some {| cr_actor := actor; cr_current := have; cr_max := cap |}
  else None.

Definition batch_cap_refusal_kernel (l : list EnqueueArgs) (overrides : gmap string (option Z))
    (stored : list (string * string)) (existing : string -> Z) : list cap_refusal :=
  omap (refuse_group overrides stored existing (cap_keyed_pairs l)) (batch_cap_groups l).

(** ** Naming the item a bulk write aborts on *)

Fixpoint first_duplicate (seen : list (string * string)) (l : list EnqueueArgs) : option (string * string) :=
  match l with
  | [] => None
  | a :: l' =>
      match pair_of a with
      | None => first_duplicate seen l'
      | Some p => if bool_decide (p ∈ seen) then Some p else first_duplicate (p :: seen) l'
      end
  end.

Definition first_duplicate_idempotency_pair (l : list EnqueueArgs) (stored : list (string * string)) :
    option (string * string) := first_duplicate stored l.

Definition duplicate_pair_actor_mismatch (l : list EnqueueArgs) (p : string * string) (stored_actor : option string) :
    option (string * string) :=
  match map e_actor (filter (fun a => pair_of a = Some p) l), stored_actor with
  | [], _ => None
  | h :: _, Some s => if bool_decide (h = s) then None else Some (h, s)
  | h :: h' :: _, None => if bool_decide (h' = h) then None else Some (h', h)
  | _, None => None
  end.

Fixpoint first_singleton (seen : list string) (l : list EnqueueArgs) : option string :=
  match l with
  | [] => None
  | a :: l' =>
      if is_singleton a then
        if bool_decide (e_actor a ∈ seen) then Some (e_actor a) else first_singleton (e_actor a :: seen) l'
      else first_singleton seen l'
  end.

Definition first_singleton_collision_actor (l : list EnqueueArgs) (stored : list string) : option string :=
  first_singleton stored l.
