(* ===== verification/Session.v ===== *)
(** * Connections, transactions and the statements of an enqueue

    The store a producer writes ([jobs] with the columns enqueue sets, [batches], the
    [max_pending] overrides of [actor_config]), a connection's session, and what each statement
    of [src/taskq/backend/_enqueue.py] does to them.  The statements are those of
    [backend/_sql_templates.py] and [taskq/_advisory.py].

    A session keeps its own uncommitted rows, the locks it holds, and a stack of saved scopes:
    [Begin] opens a transaction, or a savepoint inside one.  A statement reads what is
    committed and its own writes (READ COMMITTED); it waits while another session holds a lock
    or an uncommitted row it collides with.  A statement that fails poisons an open
    transaction until a rollback.  A connection can die under a statement, and the statement
    may have reached the server ([cut]); the driver reports it in one of two ways ([parked]), of
    which [_with_fresh_connection_retry] retries one.  Outside a transaction a statement commits by itself.

    Python code is a tree of statements ([prog]): each node asks one and goes on with its
    reply, an exception included, so that calls can be run alone or interleaved. *)

From Stdlib Require Import ZArith Lia QArith.
From stdpp Require Import base tactics list gmap strings.
From S2P Require Import Prelude PyText PyFloat Retry JobRow Terminal Control Reservation Workflow Dispatch EnqueueArgs.

Open Scope Z_scope.

(** ** The store *)

(** The columns of [jobs] only enqueue and reads use. *)
Record ecols := {
  created_at : Z;
  idempotency_scope : string;
  idempotency_key : option string;
  payload : jobj;
  payload_schema_ver : Z;
  start_to_close : option Z;
  trace : option string;
  span : option string;
  tags : list string;
  parent : option Z
}.

(** A row of [jobs]: the columns of the state machine, of dispatch, of enqueue. *)
Record stored := { s_job : job; s_place : dcols; s_cols : ecols }.

Record store := {
  rows : gmap Z stored;
  batch_rows : gmap Z batch;
  overrides : gmap string (option Z);   (* actor_config.max_pending *)
  legacy_index : bool                   (* jobs_idempotency_key_uniq still there *)
}.

#[export] Instance stored_copy : Copy stored := fun r =>
  {| s_job := s_job r; s_place := s_place r; s_cols := s_cols r |}.

#[export] Instance store_copy : Copy store := fun D =>
  {| rows := rows D; batch_rows := batch_rows D; overrides := overrides D; legacy_index := legacy_index D |}.

Definition row_pair (r : stored) : option (string * string) :=
  match idempotency_key (s_cols r) with Some k => Some (idempotency_scope (s_cols r), k) | None => None end.

Definition row_actor (r : stored) : string := actor (s_job r).
Definition row_status (r : stored) : JobStatus := status (s_job r).
Definition row_identity (r : stored) : option string := identity_key (s_place r).

(** [status IN ('pending', 'scheduled')] and [status IN ('pending', 'scheduled', 'running')]. *)
Definition queued (r : stored) : bool := bool_decide (row_status r ∈ [pending; scheduled]).
Definition live (r : stored) : bool := bool_decide (row_status r ∈ [pending; scheduled; running]).

(** [metadata @> '{"singleton": true}']. *)
Definition singleton_row (r : stored) : bool :=
  bool_decide (metadata (s_job r) !! "singleton"%string = Some (JRaw "true")).

(** ** The row an enqueue writes *)

Section new_row.
Context `{Rounding}.

(** [CASE WHEN COALESCE(at, clock) > clock THEN 'scheduled' ELSE 'pending' END]. *)
Definition due_status (at_ : option Z) (c0 c1 : Z) : JobStatus :=
  if c1 <? default c0 at_ then scheduled else pending.

(** [COALESCE(clock + interval, raw)]. *)
Definition close_at (interval raw : option Z) (c : Z) : option Z :=
  match interval with Some i => Some (c + i) | None => raw end.

Definition expires_at (ttl : option Z) (c : Z) : option Z :=
  match ttl with Some t => Some (c + t) | None => None end.

(** VALUES of the enqueue INSERT: [now] is the transaction's start, [c i] the [i]-th reading
    of the clock; the other columns take the table's defaults. *)
Definition enqueued_row (now : Z) (c : nat -> Z) (a : EnqueueArgs) : stored :=
  {| s_job := {|
       status := due_status (e_scheduled_at a) (c 0%nat) (c 1%nat); actor := e_actor a;
       attempt := 0; max_attempts := e_max_attempts a; retry_kind := e_retry_kind a;
       scheduled_at := default (c 3%nat) (e_scheduled_at a);
       schedule_to_close := close_at (e_schedule_to_close_interval a) (e_schedule_to_close a) (c 2%nat);
       heartbeat_timeout := e_heartbeat_timeout a;
       started_at := None; finished_at := None; last_heartbeat_at := None;
       locked_by_worker := None; lock_expires_at := None; claim_epoch := 0;
       cancel_requested_at := None; cancel_phase := 0;
       error_class := None; error_message := None; error_traceback := None;
       progress_state := ∅; progress_seq := 0;
       result_json := None; result_size_bytes := None;
       result_expires_at := expires_at (e_result_ttl a) (c 4%nat);
       metadata := e_metadata a; assignment_routed := false; deps_pending := 0;
       snooze_count := 0; rate_limit_blocked_count := 0; interrupt_count := 0;
       retry_base_seconds := total_seconds (e_retry_base a);
       retry_cap_seconds := total_seconds (e_retry_cap a);
       retry_backoff := e_retry_backoff a; retry_jitter := e_retry_jitter a |};
     s_place := {| queue := e_queue a; priority := e_priority a; identity_key := e_identity_key a;
                   fairness_key := e_fairness_key a |};
     s_cols := {| created_at := now; idempotency_scope := e_idempotency_scope a;
                  idempotency_key := e_idempotency_key a; payload := e_payload a;
                  payload_schema_ver := e_payload_schema_ver a; start_to_close := e_start_to_close a;
                  trace := e_trace_id a; span := e_span_id a; tags := e_tags a; parent := e_parent_id a |} |}.

(** The COPY record: the columns [COPY_ENQUEUE_COLUMNS] names, the status parked. *)
Definition COPY_ENQUEUE_STATUS : JobStatus := scheduled.

Definition copied_row (now : Z) (a : EnqueueArgs) : stored :=
  (enqueued_row now (fun _ => now) a)
    <| s_job ::= fun j => j <| status := COPY_ENQUEUE_STATUS |> <| scheduled_at := now |>
                            <| schedule_to_close := None |> <| result_expires_at := None |> |>.

(** The SET of [enqueue_batch_fast_fixup]. *)
Definition fixed_row (c : nat -> Z) (a : EnqueueArgs) (r : stored) : stored :=
  r <| s_job ::= fun j =>
         j <| status := due_status (e_scheduled_at a) (c 0%nat) (c 1%nat) |>
           <| scheduled_at := default (c 2%nat) (e_scheduled_at a) |>
           <| schedule_to_close := close_at (e_schedule_to_close_interval a) (e_schedule_to_close a) (c 3%nat) |>
           <| result_expires_at := expires_at (e_result_ttl a) (c 4%nat) |> |>.
End new_row.

(** ** Exceptions *)

Inductive constraint :=
| jobs_pkey | jobs_idempotency_key_uniq | jobs_singleton_uniq | jobs_idempotency_scope_key_uniq.

#[export] Instance constraint_eq_dec : EqDecision constraint.
Proof. solve_decision. Defined.

#[export] Instance batch_status_eq_dec : EqDecision BatchStatus.
Proof. solve_decision. Defined.

Inductive exn :=
| UniqueViolationError (c : constraint)
| LockNotAvailableError
| InternalClientError
| ConnectionDoesNotExistError
| InFailedSqlTransaction
| NulJsonbError (item : option nat)
| EmptyArgsList
| BadBatchId
| BatchIdExists (id : Z)
| UniqueForLockTimeout
| MaxPendingLockTimeout
| IdempotencyKeyLockTimeout
| SingletonCollision (who : string) (blocking : option Z) (retry_after : option Z)
| MaxPendingExceeded (r : cap_refusal)
| BatchMaxPendingExceeded (rs : list cap_refusal) (refused : dict (list nat)) (admitted : nat)
| IdempotencyKeyActorMismatch (existing_actor : string) (existing_id : option Z)
| DuplicateIdempotencyKey (p : option (string * string))
| LegacyIdempotencyKeyConflict
| ScopedIdempotencyMigrationPending
| RuntimeError.

(** ** Sessions *)

Record save := { sv_own : gmap Z stored; sv_advisory : list string; sv_batches : list Z; sv_timeout : Z }.

Record session := {
  own : gmap Z stored;          (* uncommitted rows *)
  advisory : list string;       (* transaction-scoped advisory locks *)
  batch_locks : list Z;         (* batches rows held FOR UPDATE *)
  lock_timeout : Z;             (* milliseconds; 0 waits for ever *)
  saves : list save;            (* open scopes, innermost first *)
  began : Z;                    (* the transaction's now() *)
  poisoned : bool;
  dead : bool
}.

#[export] Instance session_copy : Copy session := fun s =>
  {| own := own s; advisory := advisory s; batch_locks := batch_locks s; lock_timeout := lock_timeout s;
     saves := saves s; began := began s; poisoned := poisoned s; dead := dead s |}.

(** A connection fresh from the pool. *)
Definition bare : session :=
  {| own := ∅; advisory := []; batch_locks := []; lock_timeout := 0; saves := []; began := 0;
     poisoned := false; dead := false |}.

Definition in_transaction (s : session) : bool := match saves s with [] => false | _ => true end.

Definition save_of (s : session) : save :=
  {| sv_own := own s; sv_advisory := advisory s; sv_batches := batch_locks s; sv_timeout := lock_timeout s |}.

(** What surrounds a session: what is committed, and the other sessions. *)
Record surround := { committed : store; foreign : list session }.

(** One statement's luck: its clock readings, whether a wait outlives its budget, whether the
    connection dies under it (and then whether the statement had reached the server), how the
    driver reports a dead connection, and which of several rows a LIMIT 1 meets first. *)
Record luck := { read : nat -> Z; gives_up : bool; cut : option bool; parked : bool; pick : nat }.

(** A death the protocol has parked in its error-consume state, as on a connection handed out just
    killed, fails the statement with the driver's internal state error; a connection lost under a
    statement in flight raises the loss itself. *)
Definition death (k : luck) : exn := if parked k then InternalClientError else ConnectionDoesNotExistError.

Definition visible (D : store) (s : session) : gmap Z stored := own s ∪ rows D.

Definition foreign_rows (F : list session) : list (Z * stored) := concat (map (fun s => map_to_list (own s)) F).

(** The transaction ended well: its rows are committed, its locks gone. *)
Definition publish (s : session) (D : store) : store := D <| rows ::= fun m => own s ∪ m |>.

Definition unlocked (s : session) : session :=
  s <| own := ∅ |> <| advisory := [] |> <| batch_locks := [] |> <| saves := [] |> <| poisoned := false |>.

(** The server drops a dead connection's transaction. *)
Definition die (s : session) : session := unlocked s <| dead := true |>.

(** ** Statements *)

Inductive stmt : Type -> Type :=
| InTransaction : stmt bool
| PyNow : stmt Z
| Acquire : stmt unit
| Release : stmt unit
| NewGuard : stmt unit
| MarkWrote : stmt unit
| Wrote : stmt bool
| Begin : stmt unit
| Commit : stmt unit
| Rollback : stmt unit
| ReadLockTimeout : stmt Z
| SetLockTimeout (ms : Z) : stmt unit
| TryAdvisoryLock (key : string) : stmt bool
| AdvisoryLock (key : string) : stmt unit
| LockBatches (ids : list Z) : stmt (list (Z * BatchStatus))
| UniqueForPreflight (who ident : string) (states : list JobStatus) (window : Z) : stmt (option (Z * stored))
| SingletonPreflight (who : string) : stmt (option (Z * option Z))
| MaxPendingCount (who : string) : stmt Z
| Insert (a : EnqueueArgs) : stmt (option (Z * stored))
| SelectByKey (p : string * string) : stmt (option (Z * stored))
| GetJob (id : Z) : stmt (option (Z * stored))
| ListMaxPending : stmt (gmap string (option Z))
| CountPending (actors : list string) : stmt (string -> Z)
| FetchExisting (pairs : list (string * string)) : stmt (list (Z * stored))
| InsertBatch (l : list EnqueueArgs) : stmt (list (Z * stored))
| SingletonBlockers (actors : list string) : stmt (list string)
| CopyRecords (l : list EnqueueArgs) : stmt nat
| Fixup (l : list EnqueueArgs) : stmt unit.

(** ** Collisions with the unique indexes *)

Inductive verdict := Clear | Hit | Wait.

(** A new entry meets a committed or own entry, or another transaction's uncommitted one. *)
Definition judge (p : Z * stored -> bool) (mine : gmap Z stored) (theirs : list (Z * stored)) : verdict :=
  if existsb p (in_order mine) then Hit else if existsb p theirs then Wait else Clear.

Definition on_pair (a : EnqueueArgs) (x : Z * stored) : bool :=
  match pair_of a with Some p => bool_decide (row_pair x.2 = Some p) | None => false end.

Definition on_id (a : EnqueueArgs) (x : Z * stored) : bool := x.1 =? e_id a.

Definition on_key (a : EnqueueArgs) (x : Z * stored) : bool :=
  match e_idempotency_key a with
  | Some k => bool_decide (idempotency_key (s_cols x.2) = Some k)
  | None => false
  end.

Definition on_singleton (a : EnqueueArgs) (x : Z * stored) : bool :=
  is_singleton a && singleton_row x.2 && live x.2 && bool_decide (row_actor x.2 = e_actor a).

(** The unique indexes other than the arbiter, in the order the server visits them. *)
Definition indexes (legacy : bool) (a : EnqueueArgs) : list (constraint * (Z * stored -> bool)) :=
  [(jobs_pkey, on_id a)] ++ (if legacy then [(jobs_idempotency_key_uniq, on_key a)] else []) ++
  [(jobs_singleton_uniq, on_singleton a)].

Inductive effect (X : Type) :=
| Blocked
| Fails (e : exn)
| Done (x : X).
Arguments Blocked {X}.
Arguments Fails {X} e.
Arguments Done {X} x.

Fixpoint check_indexes (ix : list (constraint * (Z * stored -> bool))) (mine : gmap Z stored)
    (theirs : list (Z * stored)) : effect unit :=
  match ix with
  | [] => Done ()
  | (c, p) :: ix' =>
      match judge p mine theirs with
      | Hit => Fails (UniqueViolationError c)
      | Wait => Blocked
      | Clear => check_indexes ix' mine theirs
      end
  end.

(** ** What a statement does *)

Section statements.
Context `{Rounding}.
Context (W : surround) (k : luck).

Definition transaction_now (s : session) : Z := if in_transaction s then began s else read k 0.

(** One row of INSERT .. ON CONFLICT (idempotency_scope, idempotency_key) DO NOTHING. *)
Definition insert_one (a : EnqueueArgs) (row : stored) (s : session) : effect (session * option (Z * stored)) :=
  let mine := visible (committed W) s in
  let theirs := foreign_rows (foreign W) in
  match judge (on_pair a) mine theirs with
  | Hit => Done (s, None)
  | Wait => Blocked
  | Clear =>
      match check_indexes (indexes (legacy_index (committed W)) a) mine theirs with
      | Done _ => Done (s <| own ::= fun m => <[e_id a := row]> m |>, Some (e_id a, row))
      | Fails e => Fails e
      | Blocked => Blocked
      end
  end.

(** The rows of a set-returning INSERT, one after the other; row [i] reads the clock
    from its [5 i]-th reading on. *)
Fixpoint insert_many (i : nat) (l : list EnqueueArgs) (s : session) : effect (session * list (Z * stored)) :=
  match l with
  | [] => Done (s, [])
  | a :: l' =>
      match insert_one a (enqueued_row (transaction_now s) (fun j => read k (5 * i + j)) a) s with
      | Done (s1, r) =>
          match insert_many (S i) l' s1 with
          | Done (s2, rs) => Done (s2, match r with Some x => x :: rs | None => rs end)
          | Fails e => Fails e
          | Blocked => Blocked
          end
      | Fails e => Fails e
      | Blocked => Blocked
      end
  end.

(** COPY has no arbiter: the pair's index is one more constraint, visited last. *)
Fixpoint copy_many (l : list EnqueueArgs) (s : session) : effect (session * nat) :=
  match l with
  | [] => Done (s, 0%nat)
  | a :: l' =>
      let ix := indexes (legacy_index (committed W)) a ++ [(jobs_idempotency_scope_key_uniq, on_pair a)] in
      match check_indexes ix (visible (committed W) s) (foreign_rows (foreign W)) with
      | Done _ =>
          match copy_many l' (s <| own ::= fun m => <[e_id a := copied_row (transaction_now s) a]> m |>) with
          | Done (s2, n) => Done (s2, S n)
          | Fails e => Fails e
          | Blocked => Blocked
          end
      | Fails e => Fails e
      | Blocked => Blocked
      end
  end.

(** The rows the corrective UPDATE of a list writes, from the rows [V] it sees. *)
Fixpoint fixup_many (i : nat) (l : list EnqueueArgs) (V m : gmap Z stored) : gmap Z stored :=
  match l with
  | [] => m
  | a :: l' =>
      fixup_many (S i) l' V
        (match V !! e_id a with
         | Some r => <[e_id a := fixed_row (fun j => read k (5 * i + j)) a r]> m
         | None => m
         end)
  end.

Definition taken (key : string) : bool := existsb (fun f => bool_decide (key ∈ advisory f)) (foreign W).

Definition batch_taken (id : Z) : bool := existsb (fun f => bool_decide (id ∈ batch_locks f)) (foreign W).

(** [WHERE .. LIMIT 1] over rows the ORDER BY does not separate. *)
Definition limit_1 {A} (l : list A) : option A := l !! (pick k mod length l)%nat.

Definition in_window (who ident : string) (states : list JobStatus) (window : Z) (x : Z * stored) : bool :=
  bool_decide (row_actor x.2 = who) && bool_decide (row_identity x.2 = Some ident) &&
  bool_decide (row_status x.2 ∈ states) && (read k 0 - window <? created_at (s_cols x.2)).

(** The rows with the greatest [created_at] of a list. *)
Definition newest (l : list (Z * stored)) : list (Z * stored) :=
  filter (fun x => Forall (fun y => created_at (s_cols y.2) <= created_at (s_cols x.2)) l) l.

Definition rows_where (p : Z * stored -> bool) (s : session) : list (Z * stored) :=
  filter (fun x => p x = true) (in_order (visible (committed W) s)).

Definition queued_of (who : string) (x : Z * stored) : bool :=
  bool_decide (row_actor x.2 = who) && queued x.2.

Definition count_queued (who : string) (s : session) : Z := Z.of_nat (length (rows_where (queued_of who) s)).

Definition singleton_of (who : string) (x : Z * stored) : bool :=
  bool_decide (row_actor x.2 = who) && live x.2 && singleton_row x.2.

Definition paired (p : string * string) (x : Z * stored) : bool := bool_decide (row_pair x.2 = Some p).

(** A statement on a healthy connection: the session after it and its answer. *)
Definition perform {X} (q : stmt X) (s : session) : effect (session * X) :=
  match q in stmt X return effect (session * X) with
  | InTransaction => Done (s, in_transaction s)
  | PyNow => Done (s, read k 0)
  | ReadLockTimeout => Done (s, lock_timeout s)
  | SetLockTimeout ms => Done (s <| lock_timeout := ms |>, ())
  | TryAdvisoryLock key =>
      if taken key then Done (s, false) else Done (s <| advisory ::= fun l => key :: l |>, true)
  | AdvisoryLock key =>
      if taken key then Blocked else Done (s <| advisory ::= fun l => key :: l |>, ())
  | LockBatches ids =>
      let there := filter (fun id => is_Some (batch_rows (committed W) !! id)) (remove_dups ids) in
      if existsb batch_taken there then Blocked
      else Done (s <| batch_locks ::= fun l => there ++ l |>,
                 omap (fun id => option_map (fun b => (id, b_status b)) (batch_rows (committed W) !! id)) there)
  | UniqueForPreflight who ident states window =>
      Done (s, limit_1 (newest (rows_where (in_window who ident states window) s)))
  | SingletonPreflight who =>
      Done (s, option_map (fun x => (x.1, schedule_to_close (s_job x.2))) (limit_1 (rows_where (singleton_of who) s)))
  | MaxPendingCount who => Done (s, count_queued who s)
  | Insert a => insert_one a (enqueued_row (transaction_now s) (read k) a) s
  | SelectByKey p => Done (s, limit_1 (rows_where (paired p) s))
  | GetJob id => Done (s, option_map (pair id) (visible (committed W) s !! id))
  | ListMaxPending => Done (s, overrides (committed W))
  | CountPending actors => Done (s, fun who => if bool_decide (who ∈ actors) then count_queued who s else 0)
  | FetchExisting pairs => Done (s, rows_where (fun x => existsb (fun p => paired p x) pairs) s)
  | InsertBatch l => insert_many 0 l s
  | SingletonBlockers actors =>
      Done (s, map (fun x => row_actor x.2) (rows_where (fun x => existsb (fun a => singleton_of a x) actors) s))
  | CopyRecords l => copy_many l s
  | Fixup l => Done (s <| own ::= fixup_many 0 l (visible (committed W) s) |>, ())
  | Acquire | Release | NewGuard | MarkWrote | Begin | Commit | Rollback => Done (s, ())
  | Wrote => Done (s, false)
  end.

(** ** Running one statement *)

(** A task: the connection it has out, and its retry guard's flag. *)
Record task := { conn : session; wrote : bool }.

#[export] Instance task_copy : Copy task := fun t => {| conn := conn t; wrote := wrote t |}.

(** The scope a statement error leaves behind: an open transaction is poisoned. *)
Definition failed_in (s : session) : session := if in_transaction s then s <| poisoned := true |> else s.

(** Outside a transaction the statement commits by itself. *)
Definition settle (s : session) (D : store) : store * session :=
  if in_transaction s then (D, s) else (publish s D, unlocked s).

(** Ending a scope: the outermost commit publishes; an inner one keeps the writes; a rollback
    restores what the scope began with. *)
Definition end_scope (ok : bool) (s : session) (D : store) : store * session :=
  match saves s with
  | [] => (D, s)
  | [v] =>
      if ok && negb (poisoned s) then (publish s D, unlocked s <| lock_timeout := sv_timeout v |>)
      else (D, unlocked s <| lock_timeout := sv_timeout v |>)
  | v :: vs =>
      if ok && negb (poisoned s) then (D, s <| saves := vs |>)
      else (D, s <| own := sv_own v |> <| advisory := sv_advisory v |> <| batch_locks := sv_batches v |>
                 <| lock_timeout := sv_timeout v |> <| saves := vs |> <| poisoned := false |>)
  end.

Definition open_scope (s : session) : session :=
  let s1 := if in_transaction s then s else s <| began := read k 0 |> in
  s1 <| saves ::= fun vs => save_of s :: vs |>.

(** The reply of an SQL statement, [None] while it waits. *)
Definition sql_reply {X} (t : task) (done : effect (session * X)) : option (store * task * result exn X) :=
  let s := conn t in
  if poisoned s then Some (committed W, t, Err InFailedSqlTransaction)
  else match done with
       | Done (s', x) =>
           let '(D, s2) := settle s' (committed W) in Some (D, t <| conn := s2 |>, Ok x)
       | Fails e => Some (committed W, t <| conn := failed_in s |>, Err e)
       | Blocked =>
           if gives_up k && (0 <? lock_timeout s)
           then Some (committed W, t <| conn := failed_in s |>, Err LockNotAvailableError)
           else None
       end.

Definition healthy {X} (q : stmt X) (t : task) : option (store * task * result exn X) :=
  match q in stmt X return effect (session * X) -> option (store * task * result exn X) with
  | InTransaction => fun _ => Some (committed W, t, Ok (in_transaction (conn t)))
  | PyNow => fun _ => Some (committed W, t, Ok (read k 0))
  | Acquire | Release => fun _ => Some (committed W, t <| conn := bare |>, Ok ())
  | NewGuard => fun _ => Some (committed W, t <| wrote := false |>, Ok ())
  | MarkWrote => fun _ => Some (committed W, t <| wrote := true |>, Ok ())
  | Wrote => fun _ => Some (committed W, t, Ok (wrote t))
  | Begin => fun _ =>
      if poisoned (conn t) then Some (committed W, t, Err InFailedSqlTransaction)
      else Some (committed W, t <| conn ::= open_scope |>, Ok ())
  | Commit => fun _ =>
      let '(D, s) := end_scope true (conn t) (committed W) in Some (D, t <| conn := s |>, Ok ())
  | Rollback => fun _ =>
      let '(D, s) := end_scope false (conn t) (committed W) in Some (D, t <| conn := s |>, Ok ())
  | _ => sql_reply t
  end (perform q (conn t)).

(** Steps of the process, not round trips; a rollback on a dead connection is one too. *)
Definition is_local {X} (q : stmt X) : bool :=
  match q with
  | InTransaction | PyNow | Acquire | Release | NewGuard | MarkWrote | Wrote | Rollback => true
  | _ => false
  end.

(** One statement of a task.  When the connection dies under it, it may have landed, which
    matters where it was committing; the reply is lost. *)
Definition exec {X} (q : stmt X) (t : task) : option (store * task * result exn X) :=
  if is_local q then healthy q t
  else if dead (conn t) then Some (committed W, t, Err (death k))
  else match cut k with
       | None => healthy q t
       | Some landed =>
           Some (match healthy q t with
                 | Some (D, _, _) => if landed then D else committed W
                 | None => committed W
                 end, t <| conn ::= die |>, Err (death k))
       end.
End statements.

(** ** Programs *)

Inductive prog (A : Type) : Type :=
| Ret (a : A)
| Raise (e : exn)
| Ask {X : Type} (q : stmt X) (next : result exn X -> prog A).
Arguments Ret {A} a.
Arguments Raise {A} e.
Arguments Ask {A X} q next.

Fixpoint pbind {A B} (p : prog A) (f : A -> prog B) : prog B :=
  match p with
  | Ret a => f a
  | Raise e => Raise e
  | Ask q next => Ask q (fun r => pbind (next r) f)
  end.

(** [try: p except e: h(e)]. *)
Fixpoint catch {A} (p : prog A) (h : exn -> prog A) : prog A :=
  match p with
  | Ret a => Ret a
  | Raise e => h e
  | Ask q next => Ask q (fun r => catch (next r) h)
  end.

Definition ask {X} (q : stmt X) : prog X :=
  Ask q (fun r => match r with Ok x => Ret x | Err e => Raise e end).

Notation "'let!' x ':=' p 'in' q" := (pbind p (fun x => q))
  (at level 10, x name, p at level 100, q at level 200,
   format "'[v' 'let!'  x  ':='  p  'in' '/' q ']'") : taskq_scope.

(** [async with conn.transaction(): p]. *)
Definition transaction {A} (p : prog A) : prog A :=
  let! _ := ask Begin in
  let! a := catch p (fun e => let! _ := ask Rollback in Raise e) in
  let! _ := ask Commit in
  Ret a.

Definition _optional_savepoint {A} (enabled : bool) (p : prog A) : prog A :=
  if enabled then transaction p else p.

(** [async with guard.checkout() as conn: p]; the release never raises. *)
Definition checkout {A} (p : prog A) : prog A :=
  let! _ := ask Acquire in
  let! a := catch p (fun e => let! _ := ask Release in Raise e) in
  let! _ := ask Release in
  Ret a.

(** [_with_fresh_connection_retry]; the operation is told whether an attempt of this call
    has died unacknowledged. *)
Definition _with_fresh_connection_retry {A} (op : bool -> prog A) : prog A :=
  let! _ := ask NewGuard in
  catch (op false) (fun e =>
    match e with
    | InternalClientError =>
        let! written := ask Wrote in
        if (written : bool) then Raise e
        else let! _ := ask NewGuard in op true
    | _ => Raise e
    end).

(** [acquire_advisory_xact_lock_bounded]: one try, then a wait bounded by [lock_timeout]
    inside a savepoint; the wait that outlives its budget answers false. *)
Definition acquire_advisory_xact_lock_bounded (key : string) (timeout_ms : Z) : prog bool :=
  let! got := ask (TryAdvisoryLock key) in
  if (got : bool) then Ret true
  else if timeout_ms <=? 0 then let! _ := ask (AdvisoryLock key) in Ret true
  else
    catch
      (let! _ := transaction
         (let! prior := ask ReadLockTimeout in
          let! _ := ask (SetLockTimeout timeout_ms) in
          let! _ := ask (AdvisoryLock key) in
          ask (SetLockTimeout prior)) in
       Ret true)
      (fun e => match e with LockNotAvailableError => Ret false | _ => Raise e end).
