(* ===== verification/SessionProps.v ===== *)
(** * What a statement can do to a session

    The statements of the single enqueue change a session in one of nine ways ([shape]); the
    invariants over interleaved calls are proved over these. *)

From Stdlib Require Import ZArith Lia QArith.
From stdpp Require Import base tactics list gmap strings.
From S2P Require Import Prelude PyText PyFloat Retry JobRow Reservation ReservationProps Workflow Dispatch EnqueueArgs Session.

Open Scope Z_scope.

(** The statements a single enqueue asks. *)
Definition single {X} (q : stmt X) : bool :=
  match q with InsertBatch _ | CopyRecords _ | Fixup _ => false | _ => true end.

(** Outside a transaction a session holds nothing. *)
Definition tidy (s : session) : Prop := saves s = [] -> own s = ∅ /\ advisory s = [].

Definition emptied (s : session) : Prop := own s = ∅ /\ advisory s = [] /\ saves s = [].

Definition same_hold (s s' : session) : Prop := own s' = own s /\ advisory s' = advisory s.

Section shapes.
Context `{Rounding}.

(** The row of an INSERT that met no index entry. *)
Definition admitted (W : surround) (s : session) (a : EnqueueArgs) : Prop :=
  judge (on_pair a) (visible (committed W) s) (foreign_rows (foreign W)) = Clear /\
  check_indexes (indexes (legacy_index (committed W)) a) (visible (committed W) s) (foreign_rows (foreign W)) = Done ().

(** The row a statement inserts. *)
Definition inserts {X} (q : stmt X) (a : EnqueueArgs) : Prop := match q with Insert a' => a' = a | _ => False end.

Inductive shape (ins : EnqueueArgs -> Prop) (W : surround) (s : session) : store -> session -> Prop :=
| sh_keep s' : same_hold s s' -> saves s' = saves s -> began s' = began s -> shape ins W s (committed W) s'
| sh_lock key s' :
    saves s <> [] -> taken W key = false -> own s' = own s -> advisory s' = key :: advisory s ->
    saves s' = saves s -> began s' = began s -> shape ins W s (committed W) s'
| sh_open s' :
    same_hold s s' -> saves s' = save_of s :: saves s -> (saves s <> [] -> began s' = began s) ->
    shape ins W s (committed W) s'
| sh_release v vs s' :
    saves s = v :: vs -> vs <> [] -> same_hold s s' -> saves s' = vs -> began s' = began s ->
    shape ins W s (committed W) s'
| sh_back v vs s' :
    saves s = v :: vs -> vs <> [] -> own s' = sv_own v -> advisory s' = sv_advisory v -> saves s' = vs ->
    began s' = began s -> shape ins W s (committed W) s'
| sh_end s' : emptied s' -> shape ins W s (committed W) s'
| sh_commit s' : saves s <> [] -> emptied s' -> shape ins W s (publish s (committed W)) s'
| sh_insert a c s' :
    saves s <> [] -> ins a -> admitted W s a -> own s' = <[e_id a := enqueued_row (began s) c a]> (own s) ->
    advisory s' = advisory s -> saves s' = saves s -> began s' = began s -> shape ins W s (committed W) s'
| sh_put a now c s' :
    saves s = [] -> ins a -> admitted W s a -> emptied s' ->
    shape ins W s ((committed W) <| rows ::= <[e_id a := enqueued_row now c a]> |>) s'.

Lemma publish_nothing s D : own s = ∅ -> publish s D = D.
Proof. intros E. unfold publish. destruct D. simpl. by rewrite E, (left_id_L ∅ (∪)). Qed.

Lemma unlocked_emptied s : emptied (unlocked s).
Proof. by destruct s. Qed.

Lemma die_emptied s : emptied (die s).
Proof. by destruct s. Qed.

Lemma insert_one_done W a row s s' o :
  insert_one W a row s = Done (s', o) ->
  s' = s /\ o = None \/
  admitted W s a /\ s' = s <| own ::= fun m => <[e_id a := row]> m |> /\ o = Some (e_id a, row).
Proof.
  unfold insert_one, admitted. destruct (judge _ _ _) eqn:Ej; [|naive_solver|done].
  destruct (check_indexes _ _ _) as [|e|[]] eqn:Ec; [done..|]. intros [= <- <-]. right. naive_solver.
Qed.

(** What a statement on a healthy connection did. *)
Lemma perform_done W k {X} (q : stmt X) s s' x :
  single q = true -> perform W k q s = Done (s', x) ->
  (own s' = own s /\ advisory s' = advisory s \/
   (exists key, taken W key = false /\ own s' = own s /\ advisory s' = key :: advisory s) \/
   (exists a c, inserts q a /\ admitted W s a /\
      own s' = <[e_id a := enqueued_row (transaction_now k s) c a]> (own s) /\ advisory s' = advisory s)) /\
  saves s' = saves s /\ began s' = began s.
Proof.
  intros Hq Hp. destruct q; simpl in Hp; try done;
    try (injection Hp as <- <-; destruct s; simpl; tauto).
  - destruct (taken W key) eqn:Et; injection Hp as <- <-; destruct s; simpl; [tauto|]. split; [right; left; eauto|done].
  - destruct (taken W key) eqn:Et; [done|]. injection Hp as <- <-; destruct s; simpl. split; [right; left; eauto|done].
  - destruct (existsb _ _); [done|]. injection Hp as <- <-; destruct s; simpl; tauto.
  - apply insert_one_done in Hp as [[-> ->]|(Ha & -> & ->)]; [tauto|].
    split; [|by destruct s]. right; right. exists a, (read k). destruct s; simpl in *. auto.
Qed.

Lemma in_transaction_saves s : in_transaction s = true <-> saves s <> [].
Proof. unfold in_transaction. destruct (saves s); naive_solver. Qed.

Lemma settle_shape W k {X} (q : stmt X) s s' x :
  tidy s -> single q = true -> perform W k q s = Done (s', x) ->
  shape (inserts q) W s (settle s' (committed W)).1 (settle s' (committed W)).2.
Proof.
  intros Ht Hq Hp. apply perform_done in Hp as (Hc & Hs & Hb); [|done].
  unfold settle. destruct (in_transaction s') eqn:Et; simpl.
  - apply in_transaction_saves in Et. rewrite Hs in Et.
    destruct Hc as [[? ?]|[(key & ? & ? & ?)|(a & c & ? & ? & Ho & ?)]].
    + by apply sh_keep.
    + by eapply sh_lock.
    + unfold transaction_now in Ho. apply in_transaction_saves in Et as Et'. rewrite Et' in Ho. by eapply sh_insert.
  - assert (Hn : saves s = []) by (rewrite <- Hs; unfold in_transaction in Et; by destruct (saves s')).
    destruct (Ht Hn) as [Ho0 Ha0]. destruct Hc as [[Ho Ha]|[(key & ? & Ho & Ha)|(a & c & Hin & Had & Ho & Ha)]].
    + rewrite publish_nothing by congruence. apply sh_end, unlocked_emptied.
    + rewrite publish_nothing by congruence. apply sh_end, unlocked_emptied.
    + assert (E : publish s' (committed W) =
                  (committed W) <| rows ::= <[e_id a := enqueued_row (transaction_now k s) c a]> |>).
      { unfold publish. destruct (committed W) as [m ? ? ?]. simpl. f_equal. rewrite Ho, Ho0, insert_empty.
        by rewrite <- insert_union_singleton_l. }
      rewrite E. apply sh_put; auto using unlocked_emptied.
Qed.

Lemma failed_shape ins W s : shape ins W s (committed W) (failed_in s).
Proof. unfold failed_in. destruct (in_transaction s); apply sh_keep; destruct s; unfold same_hold; auto. Qed.

Lemma keep_shape ins W s : shape ins W s (committed W) s.
Proof. apply sh_keep; unfold same_hold; auto. Qed.

Lemma end_scope_shape ins W ok s :
  tidy s -> shape ins W s (end_scope ok s (committed W)).1 (end_scope ok s (committed W)).2.
Proof.
  intros Ht. unfold end_scope. destruct (saves s) as [|v [|v2 vs]] eqn:Es; simpl.
  - apply keep_shape.
  - destruct (ok && negb (poisoned s)); simpl.
    + apply sh_commit; [congruence|by destruct s].
    + apply sh_end. by destruct s.
  - destruct (ok && negb (poisoned s)); simpl.
    + eapply (sh_release _ _ _ v (v2 :: vs)); unfold same_hold; try done; by destruct s.
    + eapply (sh_back _ _ _ v (v2 :: vs)); try done; by destruct s.
Qed.

Lemma open_shape ins W k s : shape ins W s (committed W) (open_scope k s).
Proof.
  apply sh_open.
  - unfold same_hold, open_scope. destruct (in_transaction s); by destruct s.
  - unfold open_scope. destruct (in_transaction s); by destruct s.
  - intros Hs. apply in_transaction_saves in Hs. unfold open_scope. rewrite Hs. by destruct s.
Qed.

Lemma sql_reply_shape W k {X} (q : stmt X) t D' t' r :
  tidy (conn t) -> single q = true -> sql_reply W k t (perform W k q (conn t)) = Some (D', t', r) ->
  shape (inserts q) W (conn t) D' (conn t').
Proof.
  intros Ht Hq. unfold sql_reply. destruct (poisoned (conn t)).
  { intros [= <- <- <-]. apply keep_shape. }
  destruct (perform W k q (conn t)) as [|e|[s' x]] eqn:Ep.
  - destruct (_ && _); [|done]. intros [= <- <- <-]. apply failed_shape.
  - intros [= <- <- <-]. apply failed_shape.
  - pose proof (settle_shape W k q _ _ _ Ht Hq Ep) as Hs. destruct (settle s' (committed W)). by intros [= <- <- <-].
Qed.

Lemma healthy_shape W k {X} (q : stmt X) t D' t' r :
  tidy (conn t) -> single q = true -> healthy W k q t = Some (D', t', r) -> shape (inserts q) W (conn t) D' (conn t').
Proof.
  intros Ht Hq He. destruct q; try done; simpl in He;
    try (by apply (sql_reply_shape W k _ _ _ _ _ Ht Hq He));
    try (injection He as <- <- <-; first [apply keep_shape | by apply sh_end]).
  - destruct (poisoned _); injection He as <- <- <-; [apply keep_shape|apply open_shape].
  - pose proof (end_scope_shape (inserts Commit) W true _ Ht) as Hs. destruct (end_scope _ _ _). by injection He as <- <- <-.
  - pose proof (end_scope_shape (inserts Rollback) W false _ Ht) as Hs. destruct (end_scope _ _ _). by injection He as <- <- <-.
Qed.

(** A lost reply: the session is gone, the store as the statement left it or as it was. *)
Lemma shape_cut ins W s D' s' : shape ins W s D' s' -> shape ins W s D' (die s).
Proof.
  destruct 1; try (apply sh_end, die_emptied); [apply sh_commit|apply sh_put]; auto using die_emptied.
Qed.

Lemma exec_shape W k {X} (q : stmt X) t D' t' r :
  tidy (conn t) -> single q = true -> exec W k q t = Some (D', t', r) -> shape (inserts q) W (conn t) D' (conn t').
Proof.
  intros Ht Hq. unfold exec. destruct (is_local q); [by apply healthy_shape|].
  destruct (dead (conn t)); [intros [= <- <- <-]; apply keep_shape|].
  destruct (cut k) as [landed|]; [|by apply healthy_shape].
  intros [= <- <- _]. destruct (healthy W k q t) as [[[D1 t1] r1]|] eqn:Eh; simpl.
  - apply healthy_shape in Eh; [|done..]. destruct landed; [by eapply shape_cut|apply sh_end, die_emptied].
  - apply sh_end, die_emptied.
Qed.

Lemma shape_tidy ins W s D' s' : tidy s -> shape ins W s D' s' -> tidy s'.
Proof.
  intros Ht Hs. unfold tidy in *. destruct Hs as [s' [Eo Ea] Es|key s' Hn _ Eo Ea Es|s' [Eo Ea] Es|v vs s' Ev Hv [Eo Ea] Es|
    v vs s' Ev Hv Eo Ea Es|s' (Eo & Ea & _)|s' _ (Eo & Ea & _)|a c s' Hn _ _ Eo Ea Es|a now c s' _ _ _ (Eo & Ea & _)];
    intros E'; try (split; congruence); rewrite Es in E'; rewrite ?Eo, ?Ea; auto; try congruence; try done.
Qed.
End shapes.
