(* ===== verification/Enqueue.v ===== *)
(** * Enqueue

    [src/taskq/backend/_enqueue.py]: the single enqueue with its preflights, on the pool and on
    a caller's connection, and its recovery from a connection that dies unacknowledged.

    Logging, metrics and the wake of the INSERT trigger are left out.  Whether the JSON encoding
    of an object carries a NUL is a parameter ([has_nul]).  Lock budgets are whole
    milliseconds. *)

From Stdlib Require Import ZArith Lia QArith.
From stdpp Require Import base tactics list gmap strings.
From S2P Require Import Prelude PyText PyFloat Retry JobRow Workflow Dispatch EnqueueArgs Session.

Open Scope Z_scope.

Record budgets := {
  max_pending_lock_timeout_ms : Z;
  unique_for_lock_timeout_ms : Z;
  idempotency_lock_timeout_ms : Z
}.

Definition default_budgets : budgets :=
  {| max_pending_lock_timeout_ms := 5000; unique_for_lock_timeout_ms := 5000; idempotency_lock_timeout_ms := 5000 |}.

(** [UUID(str(v))] of a metadata value. *)
Definition as_uuid (v : jval) : option Z :=
  match v with
  | JUuid u => Some u
  | JStr s => uuid_parse (String.list_ascii_of_string s)
  | JInt z => uuid_parse (py_str_int z)
  | JNull | JSeconds _ | JRaw _ => None
  end.

(** The [batch_id] stamp: absent or null, or a value. *)
Definition batch_stamp (a : EnqueueArgs) : option jval :=
  match e_metadata a !! "batch_id"%string with Some JNull => None | o => o end.

Definition batch_uuid (a : EnqueueArgs) : option Z := batch_stamp a ≫= as_uuid.

Definition is_some {A} (o : option A) : bool := match o with Some _ => true | None => false end.

(** [unique_for] and [identity_key] both set. *)
Definition single_flight (a : EnqueueArgs) : option (Z * string) :=
  match e_unique_for a, e_identity_key a with Some w, Some i => Some (w, i) | _, _ => None end.

Section enqueue.
Context (has_nul : jobj -> bool) (schema : string) (B : budgets).

Definition jsonb_param (o : jobj) : prog unit := if has_nul o then Raise (NulJsonbError None) else Ret ().

Definition unique_for_key (who ident : string) : string :=
  "taskq:unique_for:" +:+ schema +:+ ":" +:+ who +:+ ":" +:+ ident.

Definition max_pending_key (who : string) : string := "taskq:max_pending:" +:+ schema +:+ ":" +:+ who.

Definition _acquire_max_pending_lock (who : string) : prog unit :=
  let! got := acquire_advisory_xact_lock_bounded (max_pending_key who) (max_pending_lock_timeout_ms B) in
  if (got : bool) then Ret () else Raise MaxPendingLockTimeout.

Definition _acquire_unique_for_lock (who ident : string) : prog unit :=
  let! got := acquire_advisory_xact_lock_bounded (unique_for_key who ident) (unique_for_lock_timeout_ms B) in
  if (got : bool) then Ret () else Raise UniqueForLockTimeout.

(** [_lock_batch_membership]: the rows FOR UPDATE; a terminal one refuses. *)
Definition _lock_batch_membership (ids : list Z) : prog unit :=
  let! locked := ask (LockBatches ids) in
  match filter (fun x : Z * BatchStatus => x.2 <> b_active) locked with
  | [] => Ret ()
  | (id, _) :: _ => Raise (BatchIdExists id)
  end.

Definition _refuse_cross_actor_idempotency_hit (a : EnqueueArgs) (x : Z * stored) : prog unit :=
  if bool_decide (row_actor x.2 = e_actor a) then Ret ()
  else Raise (IdempotencyKeyActorMismatch (row_actor x.2) (Some x.1)).

(** ** The arms of [_enqueue_on_conn] *)

Definition membership_arm (a : EnqueueArgs) : prog unit :=
  match batch_uuid a with Some b => _lock_batch_membership [b] | None => Ret () end.

Definition unique_for_arm (a : EnqueueArgs) : prog (option (Z * stored)) :=
  match single_flight a with
  | None => Ret None
  | Some (window, ident) =>
      let! _ := _acquire_unique_for_lock (e_actor a) ident in
      ask (UniqueForPreflight (e_actor a) ident (e_unique_states a) window)
  end.

(** The deadline left of the blocking row, as a hint. *)
Definition retry_hint (close : option Z) : prog (option Z) :=
  match close with
  | None => Ret None
  | Some c => let! now := ask PyNow in Ret (if 0 <? c - now then Some (c - now) else None)
  end.

Definition singleton_arm (a : EnqueueArgs) : prog unit :=
  if is_singleton a then
    let! hit := ask (SingletonPreflight (e_actor a)) in
    match hit with
    | None => Ret ()
    | Some (id, close) =>
        let! hint := retry_hint close in
        Raise (SingletonCollision (e_actor a) (Some id) hint)
    end
  else Ret ().

Definition max_pending_arm (a : EnqueueArgs) : prog unit :=
  match e_max_pending a with
  | None => Ret ()
  | Some cap =>
      let! _ := _acquire_max_pending_lock (e_actor a) in
      let! n := ask (MaxPendingCount (e_actor a)) in
      if cap <=? n
      then Raise (MaxPendingExceeded {| cr_actor := e_actor a; cr_current := n; cr_max := cap |})
      else Ret ()
  end.

(** A key, and a bound on the wait for its holder. *)
Definition bounded_wait (a : EnqueueArgs) : bool :=
  is_some (e_idempotency_key a) && (0 <? idempotency_lock_timeout_ms B).

Definition scope_needed (a : EnqueueArgs) (owns : bool) : prog bool :=
  if owns then
    if bounded_wait a then let! tx := ask InTransaction in Ret (negb tx) else Ret false
  else Ret (is_singleton a || bounded_wait a).

Definition insert_statement (a : EnqueueArgs) (owns mark : bool) : prog (option (Z * stored)) :=
  let restore := bounded_wait a && negb owns in
  let! prior := if restore then ask ReadLockTimeout else Ret 0 in
  let! _ := if bounded_wait a then ask (SetLockTimeout (idempotency_lock_timeout_ms B)) else Ret () in
  let! _ := jsonb_param (e_payload a) in
  let! _ := jsonb_param (e_metadata a) in
  let! rec := ask (Insert a) in
  let! _ := if mark then ask MarkWrote else Ret () in
  let! _ := if restore then ask (SetLockTimeout prior) else Ret () in
  Ret rec.

Definition insert_arm (a : EnqueueArgs) (owns mark : bool) : prog (option (Z * stored)) :=
  let! scope := scope_needed a owns in
  catch (_optional_savepoint scope (insert_statement a owns mark))
    (fun e => match e with
              | LockNotAvailableError => Raise IdempotencyKeyLockTimeout
              | UniqueViolationError jobs_singleton_uniq => Raise (SingletonCollision (e_actor a) None None)
              | UniqueViolationError jobs_idempotency_key_uniq => Raise LegacyIdempotencyKeyConflict
              | _ => Raise e
              end).

(** After a conflict: the holder by its key; gone again, the enqueue is retried once.  An INSERT
    without a key has no arbiter to conflict with, so the first branch is never reached. *)
Definition resolve_arm (a : EnqueueArgs) (pop_retry : bool) (retry : prog (Z * stored)) : prog (Z * stored) :=
  match pair_of a with
  | None => Raise RuntimeError
  | Some p =>
      let! found := ask (SelectByKey p) in
      match found with
      | Some x => let! _ := _refuse_cross_actor_idempotency_hit a x in Ret x
      | None => if pop_retry then Raise RuntimeError else retry
      end
  end.

(** The function past the transaction it may open; [retry] is its recursive call. *)
Definition enqueue_body (a : EnqueueArgs) (owns mark pop_retry : bool) (retry : prog (Z * stored)) : prog (Z * stored) :=
  let! _ := membership_arm a in
  let! hit := unique_for_arm a in
  match hit with
  | Some x => Ret x
  | None =>
      let! _ := singleton_arm a in
      let! _ := max_pending_arm a in
      let! rec := insert_arm a owns mark in
      match rec with
      | Some x => Ret x
      | None => resolve_arm a pop_retry retry
      end
  end.

Definition needs_transaction (a : EnqueueArgs) : bool :=
  is_some (e_max_pending a) || is_some (single_flight a) || is_some (batch_uuid a).

(** The inner call of the transaction this function opens sees it open. *)
Definition enqueue_entry (a : EnqueueArgs) (pop_retry owns : bool)
    (body : bool -> bool -> prog (Z * stored)) : prog (Z * stored) :=
  let! tx := ask InTransaction in
  if needs_transaction a && negb tx then transaction (body true false)
  else body (owns || negb tx) pop_retry.

(** The retried call: it does not retry again. *)
Definition enqueue_popped (a : EnqueueArgs) (mark owns : bool) : prog (Z * stored) :=
  enqueue_entry a true owns (fun owns pop => enqueue_body a owns mark pop (Raise RuntimeError)).

Definition _enqueue_on_conn (a : EnqueueArgs) (mark : bool) : prog (Z * stored) :=
  enqueue_entry a false false (fun owns pop => enqueue_body a owns mark pop (enqueue_popped a mark owns)).

(** ** Its callers *)

Definition _enqueue_with_conn (a : EnqueueArgs) : prog (Z * stored) :=
  catch (_enqueue_on_conn a false)
    (fun e => match e with LegacyIdempotencyKeyConflict => Raise ScopedIdempotencyMigrationPending | _ => Raise e end).

Definition _read_back_landed_enqueue (a : EnqueueArgs) : prog (Z * stored) :=
  let! rec := checkout (ask (GetJob (e_id a))) in
  match rec with
  | None => Raise RuntimeError
  | Some x => let! _ := _refuse_cross_actor_idempotency_hit a x in Ret x
  end.

(** A primary-key collision is this call's own row only after a death of this call. *)
Definition zombie_check (a : EnqueueArgs) (armed : bool) (e : exn) : prog (Z * stored) :=
  match e with
  | UniqueViolationError jobs_pkey => if armed then _read_back_landed_enqueue a else Raise e
  | _ => Raise e
  end.

Definition enqueue_attempt (a : EnqueueArgs) (armed : bool) : prog (Z * stored) :=
  let arm := checkout (_enqueue_on_conn a true) in
  catch arm (fun e =>
    match e with
    | LegacyIdempotencyKeyConflict =>
        catch arm (fun e =>
          match e with
          | LegacyIdempotencyKeyConflict => Raise ScopedIdempotencyMigrationPending
          | _ => zombie_check a armed e
          end)
    | _ => zombie_check a armed e
    end).

Definition _enqueue (a : EnqueueArgs) : prog (Z * stored) :=
  _with_fresh_connection_retry (enqueue_attempt a).
End enqueue.

(** ** Running a program alone

    Statement [i] meets the luck [K i]; nobody else is connected, so nothing waits and
    [None] never arises for want of a lock (it is what a wait without an end would be).  The
    result comes with the number of the next statement. *)

Section alone.
Context `{Rounding}.

Fixpoint alone {A} (K : nat -> luck) (i : nat) (p : prog A) (D : store) (t : task) :
    option (nat * store * task * result exn A) :=
  match p with
  | Ret a => Some (i, D, t, Ok a)
  | Raise e => Some (i, D, t, Err e)
  | Ask q next =>
      match exec {| committed := D; foreign := [] |} (K i) q t with
      | Some (D', t', r) => alone K (S i) (next r) D' t'
      | None => None
      end
  end.

(** A quiet call from the pool: no connection dies. *)
Definition calm (clk : nat -> nat -> Z) (i : nat) : luck :=
  {| read := clk i; gives_up := false; cut := None; parked := false; pick := 0 |}.

Definition idle : task := {| conn := bare; wrote := false |}.
End alone.
