(* ===== verification/EnqueueNet.v ===== *)
(** * Enqueues side by side

    Many calls run at once: each a program with its own connection, its statements
    interleaved with the others' in any order, its connection dying at any statement, while
    the rest of the system changes committed rows.  A call is an enqueue from the pool, or a
    script of enqueues in one transaction of the caller's, which sees each result and goes on
    as it likes. *)

From Stdlib Require Import ZArith Lia QArith.
From stdpp Require Import base tactics list gmap strings relations.
From S2P Require Import Prelude PyText PyFloat Retry JobRow Reservation ReservationProps Workflow Dispatch EnqueueArgs Session SessionProps Enqueue.

Open Scope Z_scope.

(** ** Calls *)

(** The caller's code inside its transaction. *)
Inductive script :=
| Finish
| GiveUp (e : exn)
| Enq (a : EnqueueArgs) (next : result exn (Z * stored) -> script).

Inductive call := Pool (a : EnqueueArgs) | Caller (s : script).

(** [try: .. except e: ..] with the outcome in hand. *)
Definition outcome {A} (p : prog A) : prog (result exn A) :=
  catch (let! x := p in Ret (Ok x)) (fun e => Ret (Err e)).

Section calls.
Context (has_nul : jobj -> bool) (schema : string) (B : budgets).

Fixpoint script_prog (s : script) : prog unit :=
  match s with
  | Finish => Ret ()
  | GiveUp e => Raise e
  | Enq a next => let! r := outcome (_enqueue_with_conn has_nul schema B a) in script_prog (next r)
  end.

Definition program_of (c : call) : prog (option (Z * stored)) :=
  match c with
  | Pool a => let! x := _enqueue has_nul schema B a in Ret (Some x)
  | Caller s => let! _ := checkout (transaction (script_prog s)) in Ret None
  end.
End calls.

(** Every argument struct of a call satisfies [ok]. *)
Inductive script_all (ok : EnqueueArgs -> Prop) : script -> Prop :=
| sa_finish : script_all ok Finish
| sa_give e : script_all ok (GiveUp e)
| sa_enq a next : ok a -> (forall r, script_all ok (next r)) -> script_all ok (Enq a next).

Definition call_all (ok : EnqueueArgs -> Prop) (c : call) : Prop :=
  match c with Pool a => ok a | Caller s => script_all ok s end.

(** ** The net *)

Record member := { m_call : call; m_task : task; m_prog : prog (option (Z * stored)) }.

Record net := { shared : store; clock : Z; tasks : gmap nat member }.

Definition m_sess (m : member) : session := conn (m_task m).

Definition others (i : nat) (N : net) : list session :=
  map (fun x => m_sess x.2) (map_to_list (delete i (tasks N))).

Definition around (i : nat) (N : net) : surround := {| committed := shared N; foreign := others i N |}.

(** The rest of the system updates and deletes rows, and leaves the columns enqueue's
    uniqueness rests on. *)
Definition upkeep (D D' : store) : Prop :=
  forall id r', rows D' !! id = Some r' ->
    exists r, rows D !! id = Some r /\ s_cols r' = s_cols r /\ row_actor r' = row_actor r /\
              row_identity r' = row_identity r.

Section net.
Context `{Rounding}.
Context (has_nul : jobj -> bool) (schema : string) (B : budgets).
Context (ok : EnqueueArgs -> Prop).                           (* who enqueues *)
Context (env : store -> store -> Prop).                       (* what the rest may do *)
Context (timely : forall X, stmt X -> session -> luck -> Prop).  (* when statements run *)

Inductive net_step : net -> net -> Prop :=
| ns_call i c N :
    tasks N !! i = None -> call_all ok c ->
    net_step N {| shared := shared N; clock := clock N;
                  tasks := <[i := {| m_call := c; m_task := idle; m_prog := program_of has_nul schema B c |}]> (tasks N) |}
| ns_run i c t X (q : stmt X) next k D' t' r now N :
    tasks N !! i = Some {| m_call := c; m_task := t; m_prog := Ask q next |} ->
    (forall j, clock N <= read k j <= now) -> timely X q (conn t) k ->
    exec (around i N) k q t = Some (D', t', r) ->
    net_step N {| shared := D'; clock := now;
                  tasks := <[i := {| m_call := c; m_task := t'; m_prog := next r |}]> (tasks N) |}
| ns_rest D' now N :
    env (shared N) D' -> clock N <= now ->
    net_step N {| shared := D'; clock := now; tasks := tasks N |}.

(** Before any call. *)
Definition quiet (N : net) : Prop := tasks N = ∅.
End net.

(** ** Entries of the net: committed rows, and the uncommitted ones of each session *)

Definition holding (N : net) (pl : option nat) : gmap Z stored :=
  match pl with
  | None => rows (shared N)
  | Some i => match tasks N !! i with Some m => own (m_sess m) | None => ∅ end
  end.

Definition same_entry (id1 : Z) (r1 : stored) (id2 : Z) (r2 : stored) : Prop :=
  id1 = id2 \/ exists p, row_pair r1 = Some p /\ row_pair r2 = Some p.

(** Two entries under one id, or one idempotency pair, are one entry. *)
Definition distinct (N : net) : Prop :=
  forall pl1 pl2 id1 id2 r1 r2,
    holding N pl1 !! id1 = Some r1 -> holding N pl2 !! id2 = Some r2 -> same_entry id1 r1 id2 r2 ->
    pl1 = pl2 /\ id1 = id2.

(** The savepoints of a session hold less and less. *)
Fixpoint stacked (m : gmap Z stored) (vs : list save) : Prop :=
  match vs with
  | [] => True
  | v :: vs' => sv_own v ⊆ m /\ stacked (sv_own v) vs'
  end.

Definition sound_session (s : session) : Prop := tidy s /\ stacked (own s) (saves s).

(** ** Freshness of an admitted row *)

Lemma judge_clear p mine theirs :
  judge p mine theirs = Clear ->
  (forall id r, mine !! id = Some r -> p (id, r) = false) /\ (forall x, x ∈ theirs -> p x = false).
Proof.
  unfold judge. destruct (existsb p (in_order mine)) eqn:E1; [done|].
  destruct (existsb p theirs) eqn:E2; [done|]. intros _. split.
  - intros id r Hr. destruct (p (id, r)) eqn:Ep; [|done].
    assert (Hin : (id, r) ∈ in_order mine) by (by apply elem_of_in_order).
    assert (existsb p (in_order mine) = true); [|congruence].
    apply existsb_exists. exists (id, r). split; [by apply list_elem_of_In|done].
  - intros x Hx. destruct (p x) eqn:Ep; [|done].
    assert (existsb p theirs = true); [|congruence]. apply existsb_exists. exists x.
    split; [by apply list_elem_of_In|done].
Qed.

Lemma row_pair_enqueued `{Rounding} now c a : row_pair (enqueued_row now c a) = pair_of a.
Proof. done. Qed.

Lemma foreign_row W s id r : s ∈ foreign W -> own s !! id = Some r -> (id, r) ∈ foreign_rows (foreign W).
Proof.
  intros Hs Hr. unfold foreign_rows. apply list_elem_of_In, in_concat. exists (map_to_list (own s)).
  split; [|by apply list_elem_of_In, elem_of_map_to_list].
  apply in_map_iff. exists s. split; [done|by apply list_elem_of_In].
Qed.

Lemma admitted_fresh `{Rounding} W s a now c id r :
  admitted W s a ->
  own s !! id = Some r \/ own s = ∅ /\ rows (committed W) !! id = Some r \/
    own s !! id = None /\ rows (committed W) !! id = Some r \/
    (exists f, f ∈ foreign W /\ own f !! id = Some r) ->
  ~ same_entry id r (e_id a) (enqueued_row now c a).
Proof.
  intros [Hp Hx] Hr. apply judge_clear in Hp as [Hp1 Hp2].
  simpl in Hx. destruct (judge (on_id a) _ _) eqn:Hi; [|done..]. apply judge_clear in Hi as [Hi1 Hi2].
  assert (Hv : on_pair a (id, r) = false /\ on_id a (id, r) = false).
  { destruct Hr as [Hr|[[E Hr]|[[E Hr]|(f & Hf & Hr)]]].
    - split; [apply Hp1|apply Hi1]; unfold visible; by apply lookup_union_Some_l.
    - split; [apply Hp1|apply Hi1]; unfold visible; rewrite E, (left_id_L ∅ (∪)); done.
    - split; [apply Hp1|apply Hi1]; unfold visible; by rewrite lookup_union_r.
    - split; [apply Hp2|apply Hi2]; by eapply foreign_row. }
  destruct Hv as [Hv1 Hv2]. unfold on_id in Hv2. simpl in Hv2. zbool.
  intros [E|(p & E1 & E2)]; [done|]. rewrite row_pair_enqueued in E2. unfold on_pair in Hv1. rewrite E2 in Hv1.
  simpl in Hv1. rewrite bool_decide_eq_false in Hv1. done.
Qed.

(** ** Distinct entries stay distinct *)

Lemma distinct_from N N' :
  (forall pl id r', holding N' pl !! id = Some r' ->
     exists r, holding N pl !! id = Some r /\ row_pair r' = row_pair r) ->
  distinct N -> distinct N'.
Proof.
  intros Hf Hd pl1 pl2 id1 id2 r1 r2 H1 H2 Hs.
  apply Hf in H1 as (r1' & H1 & E1). apply Hf in H2 as (r2' & H2 & E2).
  eapply Hd; eauto. unfold same_entry in *. by rewrite <- E1, <- E2.
Qed.

Lemma distinct_add N N' pl0 id0 r0 :
  holding N' pl0 ⊆ <[id0 := r0]> (holding N pl0) ->
  (forall pl, pl <> pl0 -> holding N' pl ⊆ holding N pl) ->
  (forall pl id r, holding N pl !! id = Some r -> ~ same_entry id r id0 r0) ->
  distinct N -> distinct N'.
Proof.
  intros H0 Ho Hn Hd.
  assert (Hf : forall pl id r, holding N' pl !! id = Some r ->
            pl = pl0 /\ id = id0 /\ r = r0 \/ holding N pl !! id = Some r).
  { intros pl id r Hr. destruct (decide (pl = pl0)) as [->|Hpl].
    - apply (lookup_weaken _ _ _ _ Hr) in H0. apply lookup_insert_Some in H0. naive_solver.
    - right. by apply (lookup_weaken _ _ _ _ Hr), Ho. }
  intros pl1 pl2 id1 id2 r1 r2 H1 H2 Hs.
  apply Hf in H1 as [(-> & -> & ->)|H1]; apply Hf in H2 as [(-> & -> & ->)|H2]; auto.
  - destruct (Hn _ _ _ H2). unfold same_entry in *. naive_solver.
  - by destruct (Hn _ _ _ H1).
  - eauto.
Qed.

Lemma distinct_merge N N' i :
  holding N' None = holding N (Some i) ∪ holding N None -> holding N' (Some i) = ∅ ->
  (forall j, j <> i -> holding N' (Some j) = holding N (Some j)) -> distinct N -> distinct N'.
Proof.
  intros Hm Hi Ho Hd.
  assert (Hf : forall pl id r, holding N' pl !! id = Some r ->
            exists pl', holding N pl' !! id = Some r /\ (pl' = pl \/ pl = None /\ pl' = Some i) /\ pl <> Some i).
  { intros [j|] id r Hr.
    - destruct (decide (j = i)) as [->|Hj]; [by rewrite Hi in Hr|]. rewrite Ho in Hr by done.
      exists (Some j). split_and!; [done|by left|congruence].
    - rewrite Hm in Hr. apply lookup_union_Some_raw in Hr as [Hr|[_ Hr]]; eexists; split_and!; eauto. }
  intros pl1 pl2 id1 id2 r1 r2 H1 H2 Hs.
  apply Hf in H1 as (pl1' & H1 & C1 & N1). apply Hf in H2 as (pl2' & H2 & C2 & N2).
  destruct (Hd _ _ _ _ _ _ H1 H2 Hs) as [-> ->]. naive_solver.
Qed.

(** The net after a step of member [i]. *)
Definition moved (i : nat) (m : member) (D : store) (now : Z) (N : net) : net :=
  {| shared := D; clock := now; tasks := <[i := m]> (tasks N) |}.

Lemma holding_moved_same i m D now N : holding (moved i m D now N) (Some i) = own (m_sess m).
Proof. unfold holding, moved. simpl. by rewrite lookup_insert_eq. Qed.

Lemma holding_moved_other i j m D now N :
  j <> i -> holding (moved i m D now N) (Some j) = holding N (Some j).
Proof. intros Hj. unfold holding, moved. simpl. by rewrite lookup_insert_ne. Qed.

Lemma holding_at i N m : tasks N !! i = Some m -> holding N (Some i) = own (m_sess m).
Proof. intros E. unfold holding. by rewrite E. Qed.

Lemma foreign_around i j N m : tasks N !! j = Some m -> j <> i -> m_sess m ∈ foreign (around i N).
Proof.
  intros E Hj. unfold around, others. simpl. apply list_elem_of_fmap. exists (j, m). split; [done|].
  apply elem_of_map_to_list. by rewrite lookup_delete_ne.
Qed.

(** Nothing a net holds collides with a row it admits. *)
Lemma admitted_nowhere `{Rounding} i N m a now c pl id r :
  distinct N -> tasks N !! i = Some m -> admitted (around i N) (m_sess m) a -> holding N pl !! id = Some r ->
  ~ same_entry id r (e_id a) (enqueued_row now c a).
Proof.
  intros Hd Hm Ha Hr. destruct pl as [j|].
  - destruct (decide (j = i)) as [->|Hj].
    + rewrite (holding_at _ _ _ Hm) in Hr. eapply admitted_fresh; eauto.
    + unfold holding in Hr. destruct (tasks N !! j) as [mj|] eqn:Ej; [|done].
      eapply admitted_fresh; [done|]. right; right; right. exists (m_sess mj). eauto using foreign_around.
  - eapply admitted_fresh; [done|]. right; right; left. split; [|done].
    destruct (own (m_sess m) !! id) as [r'|] eqn:Eo; [|done].
    rewrite <- (holding_at _ _ _ Hm) in Eo. by destruct (Hd _ _ _ _ _ _ Hr Eo (or_introl eq_refl)).
Qed.

Lemma distinct_task `{Rounding} ins i N m D' m' now :
  tasks N !! i = Some m -> shape ins (around i N) (m_sess m) D' (m_sess m') ->
  sound_session (m_sess m) -> distinct N -> distinct (moved i m' D' now N).
Proof.
  intros Hm Hs [_ Hst] Hd.
  assert (Hsub : own (m_sess m') ⊆ own (m_sess m) -> distinct (moved i m' (shared N) now N)).
  { intros Ho. eapply distinct_from; [|done]. intros [j|] id r Hr; [|by exists r].
    destruct (decide (j = i)) as [->|Hj].
    - rewrite holding_moved_same in Hr. rewrite (holding_at _ _ _ Hm).
      exists r. split; [by eapply lookup_weaken|done].
    - rewrite holding_moved_other in Hr by done. by exists r. }
  assert (Hother : forall j, Some j <> Some i -> holding (moved i m' D' now N) (Some j) ⊆ holding N (Some j)).
  { intros j Hj. rewrite holding_moved_other by congruence. done. }
  remember (m_sess m') as s' eqn:Es'.
  destruct Hs as [s' [Eo _]|key s' _ _ Eo|s' [Eo _]|v vs s' _ _ [Eo _]|v vs s' Ev _ Eo|s' (Eo & _)|
    s' _ (Eo & _)|a c s' _ _ Ha Eo|a nw c s' _ _ Ha (Eo & _)].
  1-4: apply Hsub; by rewrite Eo.
  - apply Hsub. rewrite Eo. rewrite Ev in Hst. by destruct Hst.
  - apply Hsub. rewrite Eo. apply map_empty_subseteq.
  - apply (distinct_merge N _ i); [| | |done].
    + by rewrite (holding_at _ _ _ Hm).
    + by rewrite holding_moved_same, <- Es'.
    + intros j Hj. by apply holding_moved_other.
  - apply (distinct_add N _ (Some i) (e_id a) (enqueued_row (began (m_sess m)) c a)); [| | |done].
    + by rewrite holding_moved_same, (holding_at _ _ _ Hm), <- Es', Eo.
    + intros [j|] Hj; [by apply Hother|done].
    + intros pl id r Hr. by eapply admitted_nowhere.
  - apply (distinct_add N _ None (e_id a) (enqueued_row nw c a)); [| | |done].
    + done.
    + intros [j|] Hj; [|done]. destruct (decide (j = i)) as [->|Hji]; [|apply Hother; congruence].
      rewrite holding_moved_same, <- Es', Eo. apply map_empty_subseteq.
    + intros pl id r Hr. by eapply admitted_nowhere.
Qed.

Lemma distinct_rest N D' now :
  upkeep (shared N) D' -> distinct N -> distinct {| shared := D'; clock := now; tasks := tasks N |}.
Proof.
  intros Hu Hd. eapply distinct_from; [|done]. intros [j|] id r Hr; [by exists r|].
  apply Hu in Hr as (r0 & Hr & Ec & _). exists r0. split; [done|]. unfold row_pair. by rewrite Ec.
Qed.

Lemma sound_shape `{Rounding} ins W s D' s' : sound_session s -> shape ins W s D' s' -> sound_session s'.
Proof.
  intros [Ht Hst] Hs. split; [by eapply shape_tidy|].
  destruct Hs as [s' [Eo _] Es|key s' _ _ Eo _ Es|s' [Eo _] Es|v vs s' Ev _ [Eo _] Es|v vs s' Ev _ Eo _ Es|
    s' (Eo & _ & Es)|s' _ (Eo & _ & Es)|a c s' _ _ [_ Ha] Eo _ Es|a nw c s' _ _ _ (Eo & _ & Es)];
    rewrite Eo, Es; try exact I; auto.
  - simpl. auto.
  - rewrite Ev in Hst. destruct Hst as [Hv Hst]. destruct vs as [|v' vs]; [done|]. destruct Hst as [Hv' Hst].
    split; [by etransitivity|done].
  - rewrite Ev in Hst. by destruct Hst.
  - destruct (saves s) as [|v vs]; [done|]. destruct Hst as [Hv Hst]. split; [|done].
    apply insert_subseteq_r; [|done]. simpl in Ha.
    destruct (judge (on_id a) _ _) eqn:Hi; [|done..]. apply judge_clear in Hi as [Hi _].
    destruct (sv_own v !! e_id a) as [r|] eqn:Er; [|done].
    assert (Hvis : visible (committed W) s !! e_id a = Some r)
      by (apply lookup_union_Some_l; by eapply lookup_weaken).
    apply Hi in Hvis. unfold on_id in Hvis. simpl in Hvis. zbool. done.
Qed.
