(* ===== verification/EnqueueLogic.v ===== *)
(** * A program logic for enqueue's programs

    [wp] is the weakest precondition of a program over an abstract state: [upd] says which
    replies a statement can have and what they teach, [pre] what a statement requires.  The
    rules for sequencing and catching follow the program text.

    The first instance is the discipline of an advisory lock: what a call knows of the lock
    with a given key, of its scopes, and of the fact it checked under the lock. *)

From Stdlib Require Import ZArith Lia QArith.
From stdpp Require Import base tactics list gmap strings.
From S2P Require Import Prelude PyText PyFloat Retry JobRow Workflow Dispatch EnqueueArgs Session SessionProps Enqueue EnqueueNet.

Open Scope Z_scope.

Section wp.
Context {K : Type}.
Context (pre : forall X, stmt X -> K -> Prop) (upd : forall X, stmt X -> K -> result exn X -> K -> Prop).

Fixpoint wp {A} (p : prog A) (Q : result exn A -> K -> Prop) (g : K) : Prop :=
  match p with
  | Ret a => Q (Ok a) g
  | Raise e => Q (Err e) g
  | @Ask _ X q next => pre X q g /\ forall r g', upd X q g r g' -> wp (next r) Q g'
  end.

Lemma wp_mono {A} (p : prog A) (Q R : result exn A -> K -> Prop) g :
  (forall r g', Q r g' -> R r g') -> wp p Q g -> wp p R g.
Proof.
  intros HQR. revert g. induction p as [a|e|X q next IH]; simpl; intros g; [apply HQR..|].
  intros [Hp Hn]. split; [done|]. intros r g' Hu. by apply IH, Hn.
Qed.

Lemma wp_bind {A B} (p : prog A) (f : A -> prog B) Q g :
  wp p (fun r g' => match r with Ok a => wp (f a) Q g' | Err e => Q (Err e) g' end) g ->
  wp (pbind p f) Q g.
Proof.
  revert g. induction p as [a|e|X q next IH]; simpl; intros g; [done..|].
  intros [Hp Hn]. split; [done|]. intros r g' Hu. by apply IH, Hn.
Qed.

Lemma wp_catch {A} (p : prog A) h Q g :
  wp p (fun r g' => match r with Ok a => Q (Ok a) g' | Err e => wp (h e) Q g' end) g ->
  wp (catch p h) Q g.
Proof.
  revert g. induction p as [a|e|X q next IH]; simpl; intros g; [done..|].
  intros [Hp Hn]. split; [done|]. intros r g' Hu. by apply IH, Hn.
Qed.

Lemma wp_ask {X} (q : stmt X) Q g :
  pre X q g -> (forall r g', upd X q g r g' -> Q r g') -> wp (ask q) Q g.
Proof. intros Hp Hu. split; [done|]. intros [x|e] g' Hr; by apply Hu. Qed.
End wp.

Arguments wp : simpl never.

(** ** Programs that insert only their own row *)

Fixpoint only {A} (a : EnqueueArgs) (p : prog A) : Prop :=
  match p with
  | Ret _ | Raise _ => True
  | Ask q next => single q = true /\ (forall a', match q with Insert a1 => a1 = a' -> a' = a | _ => True end) /\
                  forall r, only a (next r)
  end.

Lemma only_bind {A B} a (p : prog A) (f : A -> prog B) : only a p -> (forall x, only a (f x)) -> only a (pbind p f).
Proof. intros Hp Hf. induction p as [x|e|X q next IH]; cbn in *; [done..|]. naive_solver. Qed.

Lemma only_catch {A} a (p : prog A) h : only a p -> (forall e, only a (h e)) -> only a (catch p h).
Proof. intros Hp Hf. induction p as [x|e|X q next IH]; cbn in *; [done..|]. naive_solver. Qed.

Lemma only_ask {X} a (q : stmt X) :
  single q = true -> (forall a', match q with Insert a1 => a1 = a' -> a' = a | _ => True end) -> only a (ask q).
Proof. intros H1 H2. split_and!; [done|done|]. by intros [|]. Qed.

Ltac only_step :=
  match goal with
  | |- only _ (pbind _ _) => apply only_bind; [|intros ?]
  | |- only _ (catch _ _) => apply only_catch; [|intros ?]
  | |- only _ (ask _) => apply only_ask; [done|by intros ?]
  | |- only _ (Ret _) => exact I
  | |- only _ (Raise _) => exact I
  | |- only _ (if ?b then _ else _) => destruct b
  | |- only _ (match ?x with _ => _ end) => destruct x
  end.
Ltac only_solve := repeat only_step.

Section only_programs.
Context (has_nul : jobj -> bool) (schema : string) (B : budgets).

Lemma only_advisory a key ms : only a (acquire_advisory_xact_lock_bounded key ms).
Proof. unfold acquire_advisory_xact_lock_bounded, transaction. only_solve. Qed.

Lemma only_body a owns mark pop retry :
  only a retry -> only a (enqueue_body has_nul schema B a owns mark pop retry).
Proof.
  intros Hr. unfold enqueue_body, membership_arm, _lock_batch_membership, unique_for_arm, _acquire_unique_for_lock,
    singleton_arm, retry_hint, max_pending_arm, _acquire_max_pending_lock, insert_arm, scope_needed, insert_statement,
    jsonb_param, _optional_savepoint, transaction, resolve_arm, _refuse_cross_actor_idempotency_hit.
  only_solve; auto using only_advisory.
Qed.

Lemma only_on_conn a mark : only a (_enqueue_on_conn has_nul schema B a mark).
Proof.
  unfold _enqueue_on_conn, enqueue_popped, enqueue_entry, transaction.
  only_solve; repeat (apply only_body; only_solve).
Qed.

Lemma only_with_conn a : only a (_enqueue_with_conn has_nul schema B a).
Proof. unfold _enqueue_with_conn. only_solve; auto using only_on_conn. Qed.

Lemma only_enqueue a : only a (_enqueue has_nul schema B a).
Proof.
  unfold _enqueue, _with_fresh_connection_retry, enqueue_attempt, zombie_check, _read_back_landed_enqueue,
    _refuse_cross_actor_idempotency_hit, checkout.
  only_solve; auto using only_on_conn.
Qed.
End only_programs.

Arguments pbind : simpl never.
Arguments catch : simpl never.

(** ** The discipline of one advisory lock *)

(** How deep in scopes a call is, whether it holds the lock, whether what it checked under the
    lock still stands, whether its transaction may be poisoned. *)
Record ghost := { depth : nat; have : bool; fact : bool; sick : bool }.

Definition reset : ghost := {| depth := 0; have := false; fact := false; sick := false |}.

(** Out of one scope, its locks and what they guarded forgotten. *)
Definition dropped (g : ghost) : ghost :=
  {| depth := pred (depth g); have := false; fact := false; sick := match depth g with O => sick g | _ => false end |}.

Section discipline.
Context (key : string).                          (* the lock *)
Context (cls : EnqueueArgs -> bool).             (* the enqueues it serializes *)
Context (learn : forall X, stmt X -> X -> bool). (* the replies that establish the fact *)

Definition answered (g : ghost) (holds_now learnt keep : bool) : ghost :=
  {| depth := depth g; have := have g || (holds_now && (0 <? depth g)%nat);
     fact := (fact g || (learnt && have g)) && keep; sick := false |}.

Definition lost_reply {X} (g : ghost) (r : result exn X) (g' : ghost) : Prop :=
  exists e, r = Err e /\
    (g' = g \/ g' = reset \/ g' = {| depth := depth g; have := have g; fact := fact g; sick := true |}).

Definition upd_lock {X} (q : stmt X) (g : ghost) (r : result exn X) (g' : ghost) : Prop :=
  match q in stmt X return result exn X -> Prop with
  | InTransaction => fun r => r = Ok (0 <? depth g)%nat /\ g' = g
  | Acquire | Release => fun r => r = Ok () /\ g' = reset
  | NewGuard | MarkWrote => fun r => r = Ok () /\ g' = g
  | Wrote => fun r => (exists b, r = Ok b) /\ g' = g
  | PyNow => fun r => (exists z, r = Ok z) /\ g' = g
  | Rollback => fun r => r = Ok () /\ g' = dropped g
  | Begin => fun r =>
      r = Ok () /\ g' = {| depth := S (depth g); have := have g; fact := fact g; sick := false |} \/ lost_reply g r g'
  | Commit => fun r =>
      r = Ok () /\ g' = (if (depth g <=? 1)%nat || sick g then dropped g
                         else {| depth := pred (depth g); have := have g; fact := fact g; sick := false |}) \/
      lost_reply g r g'
  | TryAdvisoryLock k => fun r =>
      (exists b, r = Ok b /\ g' = answered g (b && bool_decide (k = key)) false true) \/ lost_reply g r g'
  | AdvisoryLock k => fun r => r = Ok () /\ g' = answered g (bool_decide (k = key)) false true \/ lost_reply g r g'
  | Insert a => fun r => (exists o, r = Ok o /\ g' = answered g false false false) \/ lost_reply g r g'
  | q => fun r => (exists x, r = Ok x /\ g' = answered g false (learn _ q x) true) \/ lost_reply g r g'
  end r.

Definition pre_lock {X} (q : stmt X) (g : ghost) : Prop :=
  single q = true /\
  match q with Insert a => cls a = true -> have g = true /\ fact g = true /\ (0 < depth g)%nat | _ => True end.

Notation lwp := (wp (@pre_lock) (@upd_lock)).

(** A program that inserts no row of the class needs no lock. *)
Lemma lwp_only {A} a (p : prog A) g : only a p -> cls a = false -> lwp p (fun _ _ => True) g.
Proof.
  intros Ho Hc. revert g. induction p as [x|e|X q next IH]; intros g; [done..|].
  destruct Ho as (Hs & Hi & Hn). split; [|intros r g' _; by apply IH].
  split; [done|]. destruct q; try done. intros Hc'. specialize (Hi a0 eq_refl) as ->. congruence.
Qed.

(** What an arm leaves of what the call knew. *)
Definition steady (g g' : ghost) : Prop :=
  depth g' = depth g /\ (have g = true -> have g' = true) /\ (fact g = true -> fact g' = true).

Lemma steady_refl g : steady g g.
Proof. unfold steady. auto. Qed.

Lemma steady_trans g1 g2 g3 : steady g1 g2 -> steady g2 g3 -> steady g1 g3.
Proof. unfold steady. naive_solver congruence. Qed.

Definition settled {A} (g : ghost) (r : result exn A) (g' : ghost) : Prop :=
  match r with Ok _ => steady g g' | Err _ => True end.

Lemma steady_answered g h l : steady g (answered g h l true).
Proof. unfold steady, answered. simpl. split_and!; [done|by intros ->|by intros ->]. Qed.

(** The plain statements: neither scopes nor inserts. *)
Definition plain {X} (q : stmt X) : bool :=
  match q with Acquire | Release | Rollback | Begin | Commit | Insert _ => false | _ => single q end.

Lemma plain_steady {X} (q : stmt X) g r g' : plain q = true -> upd_lock q g r g' -> settled g r g'.
Proof.
  intros Hp Hu. destruct q; try done; simpl in Hu;
    try (destruct Hu as [_ ->]; destruct r; [apply steady_refl|exact I]);
    try (destruct Hu as [[_ ->]|(e & -> & _)]; [destruct r; [apply steady_answered|exact I]|exact I]);
    try (destruct Hu as [(x & -> & ->)|(e & -> & _)]; [apply steady_answered|exact I]).
Qed.

Lemma plain_pre {X} (q : stmt X) g : plain q = true -> pre_lock q g.
Proof. intros Hp. split; [by destruct q|]. by destruct q. Qed.

Lemma lwp_plain {X} (q : stmt X) g : plain q = true -> lwp (ask q) (settled g) g.
Proof. intros Hp. apply wp_ask; [by apply plain_pre|]. intros r g' Hu. by eapply plain_steady. Qed.

(** Steady steps compose. *)
Lemma lwp_then {A C} (p : prog A) (f : A -> prog C) g :
  lwp p (settled g) g -> (forall x g', steady g g' -> lwp (f x) (settled g) g') -> lwp (pbind p f) (settled g) g.
Proof.
  intros Hp Hf. apply wp_bind. eapply wp_mono; [|exact Hp]. intros [x|e] g' Hs; [by apply Hf|done].
Qed.

Lemma lwp_from {A} (p : prog A) g0 g : steady g0 g -> lwp p (settled g) g -> lwp p (settled g0) g.
Proof.
  intros Hs. apply wp_mono. intros [x|e] g' H'; [|done]. by eapply steady_trans.
Qed.

(** No demand on how the program ends. *)
Definition anything {A : Type} (r : result exn A) (g : ghost) : Prop := True.

Lemma lwp_top {A} (p : prog A) Q g : lwp p Q g -> lwp p anything g.
Proof. by apply wp_mono. Qed.

Lemma lwp_err {X A} (q : stmt X) (x : prog A) g Q :
  pre_lock q g -> (forall r g', upd_lock q g r g' -> lwp x Q g') -> (forall e g', Q (Err e) g') ->
  lwp (let! _ := ask q in x) Q g.
Proof. intros Hp Hu He. apply wp_bind, wp_ask; [done|]. intros [y|e] g' Hr; [by eapply Hu|done]. Qed.

(** A scope around a program that keeps its depth. *)
Lemma lwp_transaction {A} (p : prog A) (Q : result exn A -> ghost -> Prop) g :
  (forall e g', Q (Err e) g') ->
  (forall g1, depth g1 = S (depth g) -> have g1 = have g -> fact g1 = fact g ->
     lwp p (fun r g' => match r with
                        | Ok x => forall r' g2, upd_lock Commit g' r' g2 ->
                                    match r' with Ok _ => Q (Ok x) g2 | Err e => Q (Err e) g2 end
                        | Err _ => True end) g1) ->
  lwp (transaction p) Q g.
Proof.
  intros He Hp. apply wp_bind, wp_ask; [done|]. intros r g1 [[-> ->]|(e & -> & _)]; [|apply He].
  apply wp_bind, wp_catch. eapply wp_mono; [|by apply Hp]. intros [x|e] g' H'.
  - apply wp_bind, wp_ask; [done|]. intros r' g2 Hu. specialize (H' r' g2 Hu). by destruct r'.
  - apply wp_bind, wp_ask; [done|]. intros r' g2 [-> _]. apply He.
Qed.

Lemma commit_inner g (r : result exn unit) g' :
  (2 <= depth g)%nat -> sick g = false -> upd_lock Commit g r g' ->
  match r with Ok _ => depth g' = pred (depth g) /\ have g' = have g /\ fact g' = fact g | Err _ => True end.
Proof.
  intros Hd Hs [[-> ->]|(e & -> & _)]; [|done]. rewrite Hs, orb_false_r.
  destruct (Nat.leb_spec (depth g) 1); [lia|done].
Qed.

(** Taking a lock: what was known stays known, and the lock with our key is ours. *)
Lemma lwp_acquire k ms g :
  (0 < depth g)%nat ->
  lwp (acquire_advisory_xact_lock_bounded k ms)
    (fun r g' => r = Ok true -> steady g g' /\ (k = key -> have g' = true)) g.
Proof.
  intros Hd. assert (Hg : forall g1, depth g1 = depth g \/ depth g1 = S (depth g) -> steady g1 (answered g1 (bool_decide (k = key)) false true) /\
      (k = key -> have (answered g1 (bool_decide (k = key)) false true) = true)).
  { intros g1 Hg1. split; [apply steady_answered|]. intros ->. simpl. rewrite bool_decide_eq_true_2 by done.
    destruct (Nat.ltb_spec 0 (depth g1)); [apply orb_true_r|lia]. }
  apply wp_bind, wp_ask; [done|]. intros r g1 [(b & -> & ->)|(e & -> & _)]; [|done].
  destruct b; [intros _; by apply Hg; left|]. simpl. destruct (ms <=? 0).
  - apply wp_bind, wp_ask; [done|]. intros r g2 [[-> ->]|(e & -> & _)]; [|done]. intros _.
    split; [eapply steady_trans; apply steady_answered|]. by apply Hg; left.
  - set (g1 := answered g _ _ _). assert (Hd1 : depth g1 = depth g) by done.
    apply wp_catch, wp_bind, lwp_transaction; [intros [] ?; simpl; try done; by intros [=]|].
    intros g2 Ed Eh Ef. apply wp_bind, wp_ask; [done|]. intros r g3 [(x & -> & ->)|(e & -> & _)]; [|done].
    apply wp_bind, wp_ask; [done|]. intros r g4 [(y & -> & ->)|(e & -> & _)]; [|done].
    apply wp_bind, wp_ask; [done|]. intros r g5 [[-> ->]|(e & -> & _)]; [|done].
    apply wp_ask; [done|]. intros r g6 [(z & -> & ->)|(e & -> & _)]; [|done].
    intros r' g7 Hu. apply commit_inner in Hu; [|cbn; lia|done].
    destruct r' as [u|e]; [|destruct e; simpl; try done; by intros [=]]. destruct Hu as (E1 & E2 & E3). intros _.
    simpl in *. split.
    + unfold steady. rewrite E1, E2, E3, Ed, Eh, Ef. simpl. split_and!; [done|by intros ->|by intros ->].
    + intros ->. rewrite E2, bool_decide_eq_true_2 by done. rewrite Ed. simpl. by rewrite !orb_true_r.
Qed.

(** ** The arms *)

Section arms.
Context (has_nul : jobj -> bool) (schema : string) (B : budgets) (a : EnqueueArgs).

Definition locked (k : string) (g : ghost) {A} (r : result exn A) (g' : ghost) : Prop :=
  match r with Ok _ => steady g g' /\ (k = key -> have g' = true) | Err _ => True end.

Lemma lwp_locked k ms e g :
  (0 < depth g)%nat ->
  lwp (let! got := acquire_advisory_xact_lock_bounded k ms in if (got : bool) then Ret () else Raise e) (locked k g) g.
Proof.
  intros Hd. apply wp_bind. eapply wp_mono; [|by apply lwp_acquire]. intros [[]|e'] g' Hg; [by apply Hg|done..].
Qed.

Lemma lwp_membership g : lwp (membership_arm a) (settled g) g.
Proof.
  unfold membership_arm, _lock_batch_membership. destruct (batch_uuid a); [|apply steady_refl].
  apply lwp_then; [by apply lwp_plain|]. intros l g' Hs. by destruct (filter _ l) as [|[] ?].
Qed.

Lemma lwp_singleton g : lwp (singleton_arm a) (settled g) g.
Proof.
  unfold singleton_arm, retry_hint. destruct (is_singleton a); [|apply steady_refl].
  apply lwp_then; [by apply lwp_plain|]. intros [[id [c|]]|] g' Hs; [|done..].
  apply wp_bind, wp_bind, wp_ask; [done|]. intros r g2 [[z ->] ->]. done.
Qed.

(** The lock of [unique_for] and its preflight. *)
Lemma lwp_unique_for g :
  (0 < depth g)%nat ->
  lwp (unique_for_arm schema B a)
    (fun r g' => match r with
       | Ok x => steady g g' /\
           match single_flight a, x with
           | Some (w, i), None =>
               unique_for_key schema (e_actor a) i = key ->
               learn _ (UniqueForPreflight (e_actor a) i (e_unique_states a) w) None = true ->
               have g' = true /\ fact g' = true
           | _, _ => True
           end
       | Err _ => True
       end) g.
Proof.
  intros Hd. unfold unique_for_arm. destruct (single_flight a) as [[w i]|]; [|by split; [apply steady_refl|]].
  apply wp_bind. eapply wp_mono; [|by apply lwp_locked]. intros [[]|e] g1; [|done]. intros [Hs Hk].
  apply wp_ask; [done|]. intros r g2 [(x & -> & ->)|(e & -> & _)]; [|done].
  split; [eapply steady_trans; [done|apply steady_answered]|]. destruct x; [done|]. intros E L.
  simpl. rewrite (Hk E), L. simpl. by rewrite orb_true_r.
Qed.

(** The lock of [max_pending] and its count. *)
Lemma lwp_max_pending g :
  (0 < depth g)%nat ->
  lwp (max_pending_arm schema B a)
    (fun r g' => match r with
       | Ok _ => steady g g' /\
           match e_max_pending a with
           | Some cap =>
               max_pending_key schema (e_actor a) = key ->
               (forall n, n < cap -> learn _ (MaxPendingCount (e_actor a)) n = true) ->
               have g' = true /\ fact g' = true
           | None => True
           end
       | Err _ => True
       end) g.
Proof.
  intros Hd. unfold max_pending_arm. destruct (e_max_pending a) as [cap|]; [|by split; [apply steady_refl|]].
  apply wp_bind. eapply wp_mono; [|by apply lwp_locked]. intros [[]|e] g1; [|done]. intros [Hs Hk].
  apply wp_bind, wp_ask; [done|]. intros r g2 [(n & -> & ->)|(e & -> & _)]; [|done].
  destruct (Z.leb_spec cap n) as [Hn|Hn]; [done|].
  split; [eapply steady_trans; [done|apply steady_answered]|]. intros E L.
  simpl. rewrite (Hk E), (L n Hn). simpl. by rewrite orb_true_r.
Qed.

(** The INSERT, with the lock held and the fact standing; the depth is what it was. *)
Lemma lwp_insert_statement owns mark g :
  have g = true -> fact g = true -> (0 < depth g)%nat ->
  lwp (insert_statement has_nul B a owns mark)
    (fun r g' => match r with Ok _ => depth g' = depth g /\ sick g' = false | Err _ => True end) g.
Proof.
  intros Hh Hf Hd. unfold insert_statement.
  apply wp_bind. eapply (wp_mono _ _ _ (settled g)).
  2: { destruct (bounded_wait B a && negb owns); [by apply lwp_plain|apply steady_refl]. }
  intros [prior|e] g1; [|done]. intros (D1 & H1 & F1).
  apply wp_bind. eapply (wp_mono _ _ _ (settled g1)).
  2: { destruct (bounded_wait B a); [by apply lwp_plain|apply steady_refl]. }
  intros [u|e] g2; [|done]. intros (D2 & H2 & F2). unfold jsonb_param.
  destruct (has_nul (e_payload a)); [done|]. destruct (has_nul (e_metadata a)); [done|].
  apply wp_bind, wp_bind, wp_bind, wp_ask.
  { split; [done|]. intros _. split_and!; [auto..|congruence]. }
  intros r g3 [(o & -> & ->)|(e & -> & _)]; [|done].
  assert (Hm : forall g4, depth g4 = depth g /\ sick g4 = false ->
     lwp (if mark then ask MarkWrote else Ret ()) (fun r g' => depth g' = depth g /\ sick g' = false) g4).
  { intros g4 Hg4. destruct mark; [|done]. apply wp_ask; [done|]. by intros r g5 [-> ->]. }
  apply wp_bind. eapply wp_mono; [|apply Hm; cbn; split; [congruence|done]].
  intros [v|e] g4; [|done]. intros [D4 S4]. apply wp_bind.
  destruct (bounded_wait B a && negb owns); [|done].
  apply wp_ask; [done|]. intros r g5 [(x & -> & ->)|(e & -> & _)]; [|done]. by cbn.
Qed.

Lemma lwp_insert_arm owns mark g :
  have g = true -> fact g = true -> (0 < depth g)%nat -> lwp (insert_arm has_nul B a owns mark) anything g.
Proof.
  intros Hh Hf Hd. unfold insert_arm. apply wp_bind. eapply (wp_mono _ _ _ (settled g)).
  2: { unfold scope_needed. destruct owns, (bounded_wait B a); try apply steady_refl.
       apply lwp_then; [by apply lwp_plain|]. done. }
  intros [scope|e] g1; [|done]. intros (D1 & H1 & F1). apply wp_catch. unfold _optional_savepoint.
  assert (Hc : forall e g2, lwp
      match e with
      | LockNotAvailableError => Raise IdempotencyKeyLockTimeout
      | UniqueViolationError jobs_singleton_uniq => Raise (SingletonCollision (e_actor a) None None)
      | UniqueViolationError jobs_idempotency_key_uniq => Raise LegacyIdempotencyKeyConflict
      | _ => Raise e
      end (@anything (option (Z * stored))) g2) by (by intros [[]| | | | | | | | | | | | | | | | | | |] ?).
  destruct scope.
  - apply lwp_transaction; [apply Hc|]. intros g2 D2 H2 F2. eapply wp_mono; [|apply lwp_insert_statement].
    2-4: first [rewrite H2; by auto|rewrite F2; by auto|lia].
    intros [x|e] g3 Hg; [|done]. intros [u|e] g4 _; [done|apply Hc].
  - eapply wp_mono; [|apply lwp_insert_statement; [by auto..|lia]]. intros [x|e] g3 _; [done|apply Hc].
Qed.

(** The two ways an enqueue of the class checks before it writes. *)
Definition checks : Prop :=
  (exists w i, single_flight a = Some (w, i) /\ unique_for_key schema (e_actor a) i = key /\
     learn _ (UniqueForPreflight (e_actor a) i (e_unique_states a) w) None = true) \/
  (exists cap, e_max_pending a = Some cap /\ max_pending_key schema (e_actor a) = key /\
     forall n, n < cap -> learn _ (MaxPendingCount (e_actor a)) n = true).

Lemma checks_need : checks -> needs_transaction a = true.
Proof.
  unfold needs_transaction. intros [(w & i & E & _)|(cap & E & _)]; rewrite E; simpl; [by rewrite orb_true_r|done].
Qed.

Lemma lwp_body owns mark pop retry g :
  checks -> (forall g', lwp retry anything g') -> (0 < depth g)%nat ->
  lwp (enqueue_body has_nul schema B a owns mark pop retry) anything g.
Proof.
  intros Hc Hr Hd. unfold enqueue_body.
  apply wp_bind. eapply wp_mono; [|apply lwp_membership]. intros [[]|e] g1; [|done]. intros Hs1.
  assert (Hd1 : (0 < depth g1)%nat) by (destruct Hs1 as [-> _]; lia).
  apply wp_bind. eapply wp_mono; [|by apply lwp_unique_for]. intros [[x|]|e] g2; [done| |done]. intros [Hs2 Hu].
  apply wp_bind. eapply wp_mono; [|apply lwp_singleton]. intros [[]|e] g3; [|done]. intros Hs3.
  assert (Hd3 : (0 < depth g3)%nat) by (destruct Hs3 as [-> _], Hs2 as [-> _]; lia).
  apply wp_bind. eapply wp_mono; [|by apply lwp_max_pending]. intros [[]|e] g4; [|done]. intros [Hs4 Hm].
  assert (Hs24 : steady g2 g4) by (by eapply steady_trans).
  assert (Hhf : have g4 = true /\ fact g4 = true).
  { destruct Hc as [(w & i & E & Ek & El)|(cap & E & Ek & El)]; rewrite E in *; [|by apply Hm].
    destruct (Hu Ek El), Hs24 as (_ & ? & ?). auto. }
  destruct Hhf. apply wp_bind. eapply wp_mono; [|apply lwp_insert_arm; [done..|destruct Hs4 as [-> _]; lia]].
  intros [[x|]|e] g5 _; [done| |done]. unfold resolve_arm, _refuse_cross_actor_idempotency_hit.
  destruct (pair_of a); [|done]. apply wp_bind, wp_ask; [done|].
  intros r g6 [(o & -> & ->)|(e & -> & _)]; [|done]. destruct o as [x|].
  - by case_bool_decide.
  - destruct pop; [done|apply Hr].
Qed.

Lemma lwp_entry pop owns body g :
  checks -> (forall o q g', (0 < depth g')%nat -> lwp (body o q) anything g') ->
  lwp (enqueue_entry a pop owns body) anything g.
Proof.
  intros Hc Hb. unfold enqueue_entry. apply wp_bind, wp_ask; [done|]. intros r g1 [-> ->].
  rewrite (checks_need Hc). destruct (Nat.ltb_spec 0 (depth g)) as [Hd|Hd]; [by apply Hb|].
  apply lwp_transaction; [done|]. intros g2 D2 _ _. eapply wp_mono; [|apply Hb; lia].
  by intros [x|e] ? ?; [intros [] ? ?|].
Qed.

Lemma lwp_on_conn mark g : checks -> lwp (_enqueue_on_conn has_nul schema B a mark) anything g.
Proof.
  intros Hc. apply lwp_entry; [done|]. intros o q g' Hd. apply lwp_body; [done| |done]. intros g2.
  apply lwp_entry; [done|]. intros o' q' g3 Hd3. by apply lwp_body.
Qed.
End arms.

(** ** Whole calls *)

(** Disciplined from wherever it starts. *)
Definition tame {A} (p : prog A) : Prop := forall g, lwp p anything g.

Lemma tame_bind {A C} (p : prog A) (f : A -> prog C) : tame p -> (forall x, tame (f x)) -> tame (pbind p f).
Proof. intros Hp Hf g. apply wp_bind. eapply wp_mono; [|apply Hp]. intros [x|e] g' _; [apply Hf|done]. Qed.

Lemma tame_catch {A} (p : prog A) h : tame p -> (forall e, tame (h e)) -> tame (catch p h).
Proof. intros Hp Hf g. apply wp_catch. eapply wp_mono; [|apply Hp]. intros [x|e] g' _; [done|apply Hf]. Qed.

Lemma tame_ask {X} (q : stmt X) : single q = true -> match q with Insert _ => False | _ => True end -> tame (ask q).
Proof. intros Hs Hi g. apply wp_ask; [|done]. split; [done|]. by destruct q. Qed.

Ltac tame_step :=
  match goal with
  | |- tame (pbind _ _) => apply tame_bind; [|intros ?]
  | |- tame (catch _ _) => apply tame_catch; [|intros ?]
  | |- tame (ask _) => by apply tame_ask
  | |- tame (Ret _) => by intros ?
  | |- tame (Raise _) => by intros ?
  | |- tame (if ?b then _ else _) => destruct b
  | |- tame (match ?x with _ => _ end) => destruct x
  end.

Section whole.
Context (has_nul : jobj -> bool) (schema : string) (B : budgets).

(** An enqueue of the class checks; the others may do as they like. *)
Definition disciplined (a : EnqueueArgs) : Prop := cls a = true -> checks schema a.

Lemma tame_on_conn a mark : disciplined a -> tame (_enqueue_on_conn has_nul schema B a mark).
Proof.
  intros Hd g. destruct (cls a) eqn:E; [by apply lwp_on_conn, Hd|]. eapply lwp_only; [|done]. apply only_on_conn.
Qed.

Lemma tame_enqueue a : disciplined a -> tame (_enqueue has_nul schema B a).
Proof.
  intros Hd. pose proof (tame_on_conn a true Hd).
  unfold _enqueue, _with_fresh_connection_retry, enqueue_attempt, zombie_check, _read_back_landed_enqueue,
    _refuse_cross_actor_idempotency_hit, checkout. repeat tame_step; done.
Qed.

Lemma tame_script s : script_all disciplined s -> tame (script_prog has_nul schema B s).
Proof.
  induction 1 as [|e|a next Ha _ IH]; simpl; [by intros ?..|]. pose proof (tame_on_conn a false Ha).
  unfold outcome, _enqueue_with_conn. repeat tame_step; done.
Qed.

Lemma tame_call c : call_all disciplined c -> tame (program_of has_nul schema B c).
Proof.
  destruct c as [a|s]; simpl; intros Hc.
  - pose proof (tame_enqueue a Hc). by repeat tame_step.
  - pose proof (tame_script s Hc). unfold checkout, transaction. by repeat tame_step.
Qed.
End whole.
End discipline.
