(* ===== verification/EnqueueLock.v ===== *)
(** * What an advisory lock buys concurrent enqueues

    A class of rows is written only by calls that hold one advisory lock and have checked
    something under it.  Then what they check ([Know]) still stands when they write, and what
    their writes preserve ([Good]) holds of the committed rows of every reachable net, however
    the calls interleave, roll back or lose their connections. *)

From Stdlib Require Import ZArith Lia QArith.
From stdpp Require Import base tactics list gmap strings relations.
From S2P Require Import Prelude PyText PyFloat Retry JobRow Workflow Dispatch EnqueueArgs Session SessionProps Enqueue EnqueueNet EnqueueLogic.

Open Scope Z_scope.

Lemma perform_poisoned `{Rounding} W k {X} (q : stmt X) s s' x :
  single q = true -> perform W k q s = Done (s', x) -> poisoned s' = poisoned s.
Proof.
  intros Hq Hp. destruct q; simpl in Hp; try done; try (by injection Hp as <- <-).
  - destruct (taken W key); by injection Hp as <- <-.
  - destruct (taken W key); [done|]. by injection Hp as <- <-.
  - destruct (existsb _ _); [done|]. by injection Hp as <- <-.
  - by apply insert_one_done in Hp as [[-> ->]|(_ & -> & ->)].
Qed.

(** Maps that hold the same rows of a class. *)
Definition agree (p : stored -> bool) (V V' : gmap Z stored) : Prop :=
  forall id r, p r = true -> V !! id = Some r <-> V' !! id = Some r.

Lemma agree_sym p V V' : agree p V V' -> agree p V' V.
Proof. intros Ha id r Hr. symmetry. by apply Ha. Qed.

Definition none_of (p : stored -> bool) (m : gmap Z stored) : Prop := forall id r, m !! id = Some r -> p r = false.

Lemma agree_union_l p o V : none_of p o -> o ##ₘ V -> agree p V (o ∪ V).
Proof.
  intros Hn Hd id r Hr. rewrite lookup_union_Some by done. split; [by right|].
  intros [Ho|?]; [|done]. by rewrite (Hn _ _ Ho) in Hr.
Qed.

Lemma agree_insert p V id0 r0 : p r0 = false -> V !! id0 = None -> agree p V (<[id0 := r0]> V).
Proof.
  intros Hp Hn id r Hr. rewrite lookup_insert_Some. split.
  - intros Hv. right. split; [congruence|done].
  - intros [[_ ->]|[_ Hv]]; [congruence|done].
Qed.

Lemma distinct_disjoint N pl1 pl2 : distinct N -> pl1 <> pl2 -> holding N pl1 ##ₘ holding N pl2.
Proof.
  intros Hd Hp. apply map_disjoint_spec. intros id r1 r2 H1 H2.
  by destruct (Hd _ _ _ _ _ _ H1 H2 (or_introl eq_refl)).
Qed.

Lemma script_all_impl (P Q : EnqueueArgs -> Prop) s : (forall a, P a -> Q a) -> script_all P s -> script_all Q s.
Proof. intros Hpq. induction 1; constructor; auto. Qed.

Lemma call_all_impl (P Q : EnqueueArgs -> Prop) c : (forall a, P a -> Q a) -> call_all P c -> call_all Q c.
Proof. intros Hpq. destruct c; simpl; [auto|by apply script_all_impl]. Qed.

Section lock.
Context `{Rounding}.
Context (has_nul : jobj -> bool) (schema : string) (B : budgets).
Context (env : store -> store -> Prop) (timely : forall X, stmt X -> session -> luck -> Prop).
Context (key : string) (cls : EnqueueArgs -> bool) (learn : forall X, stmt X -> X -> bool).
Context (class_row : stored -> bool) (Know : Z -> gmap Z stored -> Prop) (Good : gmap Z stored -> Prop).

(** The laws an instance discharges. *)
Record lawful : Prop := {
  lw_class : forall now c a, class_row (enqueued_row now c a) = cls a;
  lw_know : forall b V V', agree class_row V V' -> Know b V -> Know b V';
  lw_good : forall V V', agree class_row V V' -> Good V -> Good V';
  lw_learn : forall W k X (q : stmt X) s s' x,
    saves s <> [] -> timely X q s k -> single q = true -> perform W k q s = Done (s', x) -> learn X q x = true ->
    Know (began s) (visible (committed W) s);
  lw_grow : forall V b c a,
    cls a = true -> V !! e_id a = None -> Know b V -> Good V -> Good (<[e_id a := enqueued_row b c a]> V);
  lw_env_upkeep : forall D D', env D D' -> upkeep D D';
  lw_env_know : forall D D' b o, env D D' -> o ##ₘ rows D -> Know b (o ∪ rows D) -> Know b (o ∪ rows D');
  lw_env_good : forall D D' o, env D D' -> o ##ₘ rows D -> Good (o ∪ rows D) -> Good (o ∪ rows D')
}.

Context (L : lawful).

Notation upd := (@upd_lock key learn).
Notation lwp := (wp (@pre_lock cls) (@upd_lock key learn)).

(** ** What a call believes is so *)

Definition holds (g : ghost) (D : store) (s : session) : Prop :=
  depth g = length (saves s) /\ (have g = true -> key ∈ advisory s) /\
  (fact g = true -> have g = true /\ Know (began s) (visible D s)) /\ (poisoned s = true -> sick g = true).

Lemma holds_reset D s : emptied s -> poisoned s = false -> holds reset D s.
Proof. intros (_ & _ & E) Ep. unfold holds. rewrite E, Ep. done. Qed.

(** Outside a transaction it believes nothing. *)
Lemma holds_bare g D s : tidy s -> saves s = [] -> holds g D s -> depth g = 0%nat /\ have g = false /\ fact g = false.
Proof.
  intros Ht E (Hd & Hh & Hf & _). rewrite E in Hd. destruct (Ht E) as [_ Ea].
  assert (have g = false) by (destruct (have g); [specialize (Hh eq_refl); rewrite Ea in Hh; by apply not_elem_of_nil in Hh|done]).
  split_and!; [done|done|]. destruct (fact g); [|done]. destruct Hf; congruence.
Qed.

Lemma holds_settled g D D' s s' h l kp :
  tidy s -> saves s = [] -> holds g D s -> holds (answered g h l kp) D' (unlocked s').
Proof.
  intros Ht E Hg. destruct (holds_bare _ _ _ Ht E Hg) as (Ed & Eh & Ef).
  unfold holds, answered. simpl. rewrite Ed, Eh, Ef. simpl. rewrite !andb_false_r. simpl. done.
Qed.

Lemma holds_same g D s s' :
  holds g D s -> same_hold s s' -> saves s' = saves s -> began s' = began s -> poisoned s' = poisoned s -> holds g D s'.
Proof.
  intros (Hd & Hh & Hf & Hp) [Eo Ea] Es Eb Ep. unfold holds. rewrite Ea, Es, Eb, Ep. unfold visible in *. by rewrite Eo.
Qed.

Lemma holds_failed g D s :
  holds g D s -> holds {| depth := depth g; have := have g; fact := fact g; sick := true |} D (failed_in s).
Proof.
  intros (Hd & Hh & Hf & Hp). unfold failed_in. destruct (in_transaction s); by destruct s.
Qed.

(** A reply on an open transaction. *)
Lemma holds_answered W k {X} (q : stmt X) s s' x g :
  saves s <> [] -> timely X q s k -> single q = true -> perform W k q s = Done (s', x) -> poisoned s = false ->
  own s' = own s -> advisory s' = advisory s -> holds g (committed W) s ->
  holds (answered g false (learn X q x) true) (committed W) s'.
Proof.
  intros Hs Hti Hq Hp Epo Eo Ea (Hd & Hh & Hf & _).
  pose proof (perform_done W k q s s' x Hq Hp) as (_ & Es & Eb).
  pose proof (perform_poisoned W k q s s' x Hq Hp) as Ep.
  unfold holds, answered. simpl. rewrite Es, Ea, Eb, Ep, Epo, orb_false_r, andb_true_r.
  unfold visible. rewrite Eo. split_and!; [done|done| |done].
  intros Hl. apply orb_true_iff in Hl as [Hl|Hl]; [auto|]. apply andb_true_iff in Hl as [Hl Hv].
  split; [done|]. by eapply (lw_learn L).
Qed.

Lemma holds_gained W (kk : string) s s' g :
  saves s <> [] -> poisoned s = false -> saves s' = saves s -> began s' = began s -> poisoned s' = poisoned s ->
  own s' = own s -> advisory s' = kk :: advisory s -> holds g (committed W) s ->
  holds (answered g (bool_decide (kk = key)) false true) (committed W) s'.
Proof.
  intros Hs Epo Es Eb Ep Eo Ea (Hd & Hh & Hf & _). unfold holds, answered. simpl.
  rewrite Es, Ea, Eb, Ep, Epo, orb_false_r, andb_true_r. unfold visible. rewrite Eo. split_and!; [done| | |done].
  - intros Hx. apply orb_true_iff in Hx as [Hx|Hx]; [right; auto|]. apply andb_true_iff in Hx as [Hx _].
    apply bool_decide_eq_true in Hx as ->. left.
  - intros Hx. destruct (Hf Hx) as [Hh' Hk]. by rewrite Hh'.
Qed.

Lemma holds_inserted D s s' g :
  saves s' = saves s -> advisory s' = advisory s -> poisoned s' = false -> holds g D s ->
  holds (answered g false false false) D s'.
Proof.
  intros Es Ea Ep (Hd & Hh & _). unfold holds, answered. simpl. rewrite Es, Ea, Ep, orb_false_r, andb_false_r. done.
Qed.

(** The statements that only read, or set the lock budget. *)
Definition reading {X} (q : stmt X) : bool :=
  match q with
  | ReadLockTimeout | SetLockTimeout _ | LockBatches _ | UniqueForPreflight _ _ _ _ | SingletonPreflight _
  | MaxPendingCount _ | SelectByKey _ | GetJob _ | ListMaxPending | CountPending _ | FetchExisting _
  | SingletonBlockers _ => true
  | _ => false
  end.

Lemma upd_reading {X} (q : stmt X) g x :
  reading q = true -> upd q g (Ok x) (answered g false (learn X q x) true).
Proof. intros Hr. destruct q; try done; left; by exists x. Qed.

Lemma reading_hold W k {X} (q : stmt X) s s' x : reading q = true -> perform W k q s = Done (s', x) -> same_hold s s'.
Proof.
  intros Hr Hp. destruct q; try done; simpl in Hp; try (by injection Hp as <- _).
  destruct (existsb _ _); [done|]. by injection Hp as <- _.
Qed.

(** The reply of a statement that is neither a scope nor a step of the process. *)
Lemma done_upd W k {X} (q : stmt X) s s' x g :
  timely X q s k -> single q = true -> plain q || match q with Insert _ => true | _ => false end = true ->
  is_local q = false -> tidy s -> poisoned s = false -> perform W k q s = Done (s', x) -> holds g (committed W) s ->
  exists g', upd q g (Ok x) g' /\ holds g' (settle s' (committed W)).1 (settle s' (committed W)).2.
Proof.
  intros Hti Hq Hpl Hl Ht Hpo Hp Hg. pose proof (perform_done W k q s s' x Hq Hp) as (_ & Es & Eb).
  pose proof (perform_poisoned W k q s s' x Hq Hp) as Ep. unfold settle. destruct (in_transaction s') eqn:Ein; simpl.
  - apply in_transaction_saves in Ein. rewrite Es in Ein. destruct (reading q) eqn:Er.
    { exists (answered g false (learn X q x) true). split; [by apply upd_reading|].
      destruct (reading_hold _ _ _ _ _ _ Er Hp). by eapply holds_answered. }
    destruct q; try done; simpl in Hp.
    + destruct (taken W key0) eqn:Et; injection Hp as <- <-.
      * exists (answered g false false true). split; [left; exists false; by split|].
        destruct Hg as (? & ? & Hf & ?). unfold holds, answered. simpl.
        rewrite orb_false_r, andb_true_r, orb_false_r. by rewrite Hpo.
      * exists (answered g (bool_decide (key0 = key)) false true). split; [left; exists true; by split|].
        by eapply holds_gained.
    + destruct (taken W key0) eqn:Et; [done|]. injection Hp as <- <-.
      exists (answered g (bool_decide (key0 = key)) false true). split; [by left|]. by eapply holds_gained.
    + exists (answered g false false false). split; [left; by exists x|].
      eapply holds_inserted; [done| |congruence|exact Hg].
      by apply insert_one_done in Hp as [[-> ->]|(_ & -> & ->)].
  - assert (Hn : saves s = []) by (rewrite <- Es; unfold in_transaction in Ein; by destruct (saves s')).
    assert (Hu : exists h l kp, upd q g (Ok x) (answered g h l kp)).
    { destruct (reading q) eqn:Er; [exists false, (learn X q x), true; by apply upd_reading|].
      destruct q; try done.
      - exists (x && bool_decide (key0 = key)), false, true. left. by exists x.
      - exists (bool_decide (key0 = key)), false, true. left. split; [by destruct x|done].
      - exists false, false, false. left. by exists x. }
    destruct Hu as (h & l & kp & Hu). eexists; split; [exact Hu|]. by eapply holds_settled.
Qed.

Lemma lost_upd {X} (q : stmt X) g e g' :
  is_local q = false -> single q = true -> @lost_reply X g (Err e) g' -> upd q g (Err e) g'.
Proof. intros Hl Hq Hg. destruct q; try done; by right. Qed.

Lemma sql_upd W k {X} (q : stmt X) t D' t' r g :
  timely X q (conn t) k -> single q = true -> plain q || match q with Insert _ => true | _ => false end = true ->
  is_local q = false -> tidy (conn t) -> holds g (committed W) (conn t) ->
  sql_reply W k t (perform W k q (conn t)) = Some (D', t', r) ->
  exists g', upd q g r g' /\ holds g' D' (conn t').
Proof.
  intros Hti Hq Hpl Hl Ht Hg. unfold sql_reply. destruct (poisoned (conn t)) eqn:Epo.
  { intros [= <- <- <-]. exists g. split; [|done]. apply lost_upd; [done..|]. eexists. split; [done|by left]. }
  assert (Hfail : forall e, exists g', upd q g (Err e) g' /\ holds g' (committed W) (failed_in (conn t))).
  { intros e. eexists. split; [|by apply holds_failed]. apply lost_upd; [done..|]. eexists. split; [done|]. by right; right. }
  destruct (perform W k q (conn t)) as [|e|[s' x]] eqn:Ep.
  - destruct (_ && _); [|done]. intros [= <- <- <-]. apply Hfail.
  - intros [= <- <- <-]. apply Hfail.
  - pose proof (done_upd W k q _ _ _ g Hti Hq Hpl Hl Ht Epo Ep Hg) as Hd.
    destruct (settle s' (committed W)). by intros [= <- <- <-].
Qed.

Lemma holds_open W k s g :
  poisoned s = false -> tidy s -> holds g (committed W) s ->
  holds {| depth := S (depth g); have := have g; fact := fact g; sick := false |} (committed W) (open_scope k s).
Proof.
  intros Hp Ht Hg. unfold open_scope. destruct (in_transaction s) eqn:Ein.
  - destruct Hg as (Hd & Hh & Hf & _). unfold holds. simpl. rewrite Hd, Hp. split_and!; try done.
  - assert (E : saves s = []) by (unfold in_transaction in Ein; by destruct (saves s)).
    destruct (holds_bare _ _ _ Ht E Hg) as (Ed & Eh & Ef). unfold holds. simpl. rewrite Ed, Eh, Ef, E, Hp. done.
Qed.

Lemma holds_dropped W s g :
  tidy s -> holds g (committed W) s ->
  holds (dropped g) (end_scope false s (committed W)).1 (end_scope false s (committed W)).2.
Proof.
  intros Ht (Hd & Hh & Hf & Hp). unfold end_scope.
  destruct (saves s) as [|v [|v2 vs]] eqn:Es; simpl; unfold holds, dropped; simpl; rewrite Hd; simpl; [|done..].
  by rewrite Es.
Qed.

Lemma holds_commit W s g :
  tidy s -> holds g (committed W) s ->
  holds (if (depth g <=? 1)%nat || sick g then dropped g
         else {| depth := pred (depth g); have := have g; fact := fact g; sick := false |})
    (end_scope true s (committed W)).1 (end_scope true s (committed W)).2.
Proof.
  intros Ht Hg. pose proof Hg as (Hd & Hh & Hf & Hp). unfold end_scope.
  destruct (saves s) as [|v [|v2 vs]] eqn:Es.
  - rewrite Hd. simpl. unfold holds, dropped. simpl. by rewrite Hd, Es.
  - rewrite Hd. simpl. unfold dropped. rewrite Hd. by destruct (poisoned s).
  - rewrite Hd. simpl. destruct (poisoned s) eqn:Ep; simpl.
    + rewrite (Hp eq_refl). unfold holds, dropped. simpl. by rewrite Hd.
    + destruct (sick g); unfold holds, dropped; simpl; rewrite ?Hd, ?Ep; simpl; split_and!; try done; congruence.
Qed.

(** One statement of a call takes what it believes to what it then believes. *)
Lemma exec_upd W k {X} (q : stmt X) t D' t' r g :
  timely X q (conn t) k -> single q = true -> tidy (conn t) -> holds g (committed W) (conn t) ->
  exec W k q t = Some (D', t', r) -> exists g', upd q g r g' /\ holds g' D' (conn t').
Proof.
  intros Hti Hq Ht Hg. unfold exec. destruct (is_local q) eqn:Hl.
  { destruct q; try done; simpl; try (intros [= <- <- <-]; eexists; split; [by eauto|]; done).
    - intros [= <- <- <-]. exists g. split; [|done]. split; [|done]. destruct Hg as [-> _].
      unfold in_transaction. by destruct (saves (conn t)).
    - pose proof (holds_dropped W _ _ Ht Hg) as Hd. destruct (end_scope _ _ _). intros [= <- <- <-].
      exists (dropped g). by split. }
  destruct (dead (conn t)).
  { intros [= <- <- <-]. exists g. split; [|done]. apply lost_upd; [done..|]. eexists. split; [done|by left]. }
  destruct (cut k) as [landed|].
  { intros [= _ <- <-]. exists reset. split; [|by apply holds_reset].
    apply lost_upd; [done..|]. eexists. split; [done|]. right; by left. }
  destruct q; try done; try (by apply sql_upd).
  - simpl. destruct (poisoned (conn t)) eqn:Ep; intros [= <- <- <-].
    + exists g. split; [|done]. right. eexists. split; [done|by left].
    + eexists. split; [by left|]. by apply holds_open.
  - simpl. pose proof (holds_commit W _ _ Ht Hg) as Hc. destruct (end_scope _ _ _). intros [= <- <- <-].
    eexists. split; [by left|]. done.
Qed.

(** ** The class is written under the lock *)

(** In every scope of a session, rows of the class come with the lock, and outer scopes hold
    the lock only if inner ones do. *)
Fixpoint keyed (m : gmap Z stored) (l : list string) (vs : list save) : Prop :=
  (forall id r, m !! id = Some r -> class_row r = true -> key ∈ l) /\
  match vs with
  | [] => True
  | v :: vs' => (key ∈ sv_advisory v -> key ∈ l) /\ keyed (sv_own v) (sv_advisory v) vs'
  end.

Definition keyed_session (s : session) : Prop := keyed (own s) (advisory s) (saves s).

(** The uncommitted rows at each scope. *)
Definition levels (s : session) : list (gmap Z stored) := own s :: map sv_own (saves s).

Lemma keyed_none s o : keyed_session s -> key ∉ advisory s -> o ∈ levels s -> none_of class_row o.
Proof.
  unfold keyed_session, levels. generalize (own s) (advisory s). induction (saves s) as [|v vs IH]; intros m l; simpl.
  - intros [Hm _] Hk Ho id r Hr. apply list_elem_of_singleton in Ho as ->.
    destruct (class_row r) eqn:E; [|done]. by destruct Hk; eapply Hm.
  - intros (Hm & Hv & Hvs) Hk Ho. apply elem_of_cons in Ho as [->|Ho]; [|by eapply IH; eauto].
    intros id r Hr. destruct (class_row r) eqn:E; [|done]. by destruct Hk; eapply Hm.
Qed.

Lemma level_sub s o : sound_session s -> o ∈ levels s -> o ⊆ own s.
Proof.
  intros [_ Hs] Ho. unfold levels in Ho. revert Hs Ho. generalize (own s) as m.
  induction (saves s) as [|v vs IH]; intros m; simpl.
  - intros _ Ho. by apply list_elem_of_singleton in Ho as ->.
  - intros [Hv Hs] Ho. apply elem_of_cons in Ho as [->|Ho]; [done|]. etransitivity; [by eapply IH|done].
Qed.

Lemma shape_levels ins W s D' s' o :
  shape ins W s D' s' -> o ∈ levels s' ->
  o ∈ levels s /\ D' = committed W \/ o = ∅ \/
  exists a c, ins a /\ admitted W s a /\ saves s <> [] /\ D' = committed W /\
              o = <[e_id a := enqueued_row (began s) c a]> (own s).
Proof.
  unfold levels. intros Hs Ho.
  destruct Hs as [s' [Eo _] Es|key' s' _ _ Eo _ Es|s' [Eo _] Es|v vs s' Ev _ [Eo _] Es|v vs s' Ev _ Eo _ Es|
    s' (Eo & _ & Es)|s' _ (Eo & _ & Es)|a c s' Hn Hi Ha Eo _ Es|a nw c s' _ _ _ (Eo & _ & Es)];
    rewrite Eo, Es in Ho; try rewrite Ev; simpl in *; try set_solver.
Qed.

Lemma keyed_shape ins W s D' s' :
  keyed_session s -> (forall a, ins a -> cls a = true -> saves s <> [] -> key ∈ advisory s) ->
  shape ins W s D' s' -> keyed_session s'.
Proof.
  intros Hk Hi Hs. unfold keyed_session in *.
  destruct Hs as [s' [Eo Ea] Es|key' s' _ _ Eo Ea Es|s' [Eo Ea] Es|v vs s' Ev _ [Eo Ea] Es|v vs s' Ev _ Eo Ea Es|
    s' (Eo & Ea & Es)|s' _ (Eo & Ea & Es)|a c s' Hn Hin Ha Eo Ea Es|a nw c s' _ _ _ (Eo & Ea & Es)];
    rewrite Eo, Ea, Es; try done.
  - destruct (saves s) as [|v vs]; simpl in *; set_solver.
  - simpl. split_and!; [|done|done]. destruct (saves s); simpl in Hk; by destruct Hk.
  - rewrite Ev in Hk. destruct Hk as (Hm & Hv & Hvs). destruct vs as [|v' vs]; simpl in *; [by split|].
    destruct Hvs as (Hm' & Hv' & Hvs). split_and!; [done|by auto|done].
  - rewrite Ev in Hk. by destruct Hk as (_ & _ & Hvs).
  - assert (Hnew : forall id r, <[e_id a := enqueued_row (began s) c a]> (own s) !! id = Some r ->
      class_row r = true -> key ∈ advisory s).
    { intros id r Hr Hc. apply lookup_insert_Some in Hr as [[_ <-]|[_ Hr]].
      - rewrite (lw_class L) in Hc. by eapply Hi.
      - destruct (saves s) as [|v vs]; destruct Hk as [Hm _]; by eapply Hm. }
    destruct (saves s) as [|v vs]; simpl in *; [by split|]. destruct Hk as (_ & Hv & Hvs). by split_and!.
Qed.

Lemma advisory_shape ins W s D' s' :
  keyed_session s -> shape ins W s D' s' -> key ∈ advisory s' -> key ∈ advisory s \/ taken W key = false.
Proof.
  intros Hk Hs. unfold keyed_session in *.
  destruct Hs as [s' [Eo Ea] Es|key' s' _ Ht Eo Ea Es|s' [Eo Ea] Es|v vs s' Ev _ [Eo Ea] Es|v vs s' Ev _ Eo Ea Es|
    s' (Eo & Ea & Es)|s' _ (Eo & Ea & Es)|a c s' Hn Hin Ha Eo Ea Es|a nw c s' _ _ _ (Eo & Ea & Es)];
    rewrite Ea; auto; try (by intros ?%not_elem_of_nil).
  - intros [<-|?]%elem_of_cons; auto.
  - rewrite Ev in Hk. destruct Hk as (_ & Hv & _). auto.
Qed.

(** ** The invariant of the net *)

Record fits (D : store) (m : member) : Prop := {
  fit_sound : sound_session (m_sess m);
  fit_keyed : keyed_session (m_sess m);
  fit_good : forall o, o ∈ levels (m_sess m) -> Good (o ∪ rows D);
  fit_wp : exists g, holds g D (m_sess m) /\ lwp (m_prog m) anything g
}.

Record in_order_net (N : net) : Prop := {
  io_distinct : distinct N;
  io_fits : forall i m, tasks N !! i = Some m -> fits (shared N) m;
  io_excl : forall i j mi mj, tasks N !! i = Some mi -> tasks N !! j = Some mj ->
    key ∈ advisory (m_sess mi) -> key ∈ advisory (m_sess mj) -> i = j;
  io_good : Good (rows (shared N))
}.

(** What a step of one member did to the committed rows, as the others see it. *)
Definition delta (N : net) (i : nat) (m : member) (D' : store) : Prop :=
  D' = shared N \/
  rows D' = own (m_sess m) ∪ rows (shared N) \/
  exists a now c, cls a = false /\ admitted (around i N) (m_sess m) a /\
    rows D' = <[e_id a := enqueued_row now c a]> (rows (shared N)).

Lemma delta_good N i m D' : in_order_net N -> tasks N !! i = Some m -> delta N i m D' -> Good (rows D').
Proof.
  intros Hn Hm [->|[->|(a & now & c & Hc & Ha & ->)]].
  - apply (io_good _ Hn).
  - apply (fit_good _ _ (io_fits _ Hn _ _ Hm)). left.
  - eapply (lw_good L); [|apply (io_good _ Hn)]. apply agree_insert; [by rewrite (lw_class L)|].
    destruct (rows (shared N) !! e_id a) as [r|] eqn:Er; [|done].
    destruct (admitted_nowhere i N m a now c None (e_id a) r (io_distinct _ Hn) Hm Ha Er). by left.
Qed.

(** For a session without rows of the class under way, or beside a member without any, the
    class is what it was. *)
Lemma delta_agree N i m D' o :
  in_order_net N -> tasks N !! i = Some m -> delta N i m D' -> none_of class_row (own (m_sess m)) ->
  (exists j mj, j <> i /\ tasks N !! j = Some mj /\ o ∈ levels (m_sess mj)) ->
  agree class_row (o ∪ rows (shared N)) (o ∪ rows D').
Proof.
  intros Hn Hm Hd Hnone (j & mj & Hij & Hmj & Ho).
  pose proof (level_sub _ _ (fit_sound _ _ (io_fits _ Hn _ _ Hmj)) Ho) as Hsub.
  assert (Hoi : o ##ₘ own (m_sess m)).
  { apply (map_disjoint_weaken_l _ (own (m_sess mj))); [|done].
    rewrite <- (holding_at _ _ _ Hmj), <- (holding_at _ _ _ Hm). apply distinct_disjoint; [apply Hn|congruence]. }
  assert (Hic : own (m_sess m) ##ₘ rows (shared N)).
  { rewrite <- (holding_at _ _ _ Hm). apply (distinct_disjoint N (Some i) None); [apply Hn|done]. }
  destruct Hd as [->|[->|(a & now & c & Hc & Ha & ->)]].
  - by intros id r _.
  - rewrite (assoc_L (∪)), (map_union_comm o (own (m_sess m))) by done. rewrite <- (assoc_L (∪)).
    apply agree_union_l; [done|]. apply map_disjoint_union_r_2; [by symmetry|done].
  - assert (Hfr : forall pl r, holding N pl !! e_id a <> Some r).
    { intros pl r Hr. destruct (admitted_nowhere i N m a now c pl (e_id a) r (io_distinct _ Hn) Hm Ha Hr). by left. }
    assert (Ho0 : o !! e_id a = None).
    { destruct (o !! e_id a) as [r|] eqn:Er; [|done]. destruct (Hfr (Some j) r).
      rewrite (holding_at _ _ _ Hmj). by eapply lookup_weaken. }
    rewrite <- insert_union_r by done. apply agree_insert; [by rewrite (lw_class L)|].
    apply lookup_union_None. split; [done|]. destruct (rows (shared N) !! e_id a) as [r|] eqn:Er; [|done].
    by destruct (Hfr None r).
Qed.

Lemma excl_other N i j m mj :
  in_order_net N -> tasks N !! i = Some m -> tasks N !! j = Some mj -> j <> i ->
  key ∈ advisory (m_sess mj) -> none_of class_row (own (m_sess m)).
Proof.
  intros Hn Hm Hmj Hij Hk. eapply keyed_none; [apply (fit_keyed _ _ (io_fits _ Hn _ _ Hm))| |left].
  intros Hi. by apply Hij, (io_excl _ Hn j i mj m).
Qed.

Lemma fits_other N i j m mj D' :
  in_order_net N -> tasks N !! i = Some m -> tasks N !! j = Some mj -> j <> i -> delta N i m D' -> fits D' mj.
Proof.
  intros Hn Hm Hmj Hij Hd. destruct (io_fits _ Hn _ _ Hmj) as [Hs Hk Hg (g & (E1 & E2 & E3 & E4) & Hw)].
  split; [done|done| |].
  - intros o Ho. destruct (decide (key ∈ advisory (m_sess mj))) as [Hin|Hout].
    + eapply (lw_good L); [|by apply Hg]. apply (delta_agree N i m); [done..| |by exists j, mj]. by eapply excl_other.
    + pose proof (keyed_none _ _ Hk Hout Ho) as Hno. eapply (lw_good L); [|by apply (delta_good N i m)].
      apply agree_union_l; [done|]. pose proof (level_sub _ _ Hs Ho) as Hsub.
      apply (map_disjoint_weaken_l _ (own (m_sess mj))); [|done]. rewrite <- (holding_at _ _ _ Hmj).
      destruct Hd as [->|[->|(a & now & c & Hc & Ha & ->)]].
      * apply (distinct_disjoint N (Some j) None); [apply Hn|done].
      * rewrite <- (holding_at _ _ _ Hm).
        apply map_disjoint_union_r_2; [|apply (distinct_disjoint N (Some j) None); [apply Hn|done]].
        apply distinct_disjoint; [apply Hn|congruence].
      * apply map_disjoint_insert_r_2; [|apply (distinct_disjoint N (Some j) None); [apply Hn|done]].
        destruct (holding N (Some j) !! e_id a) as [r|] eqn:Er; [|done].
        destruct (admitted_nowhere i N m a now c (Some j) (e_id a) r (io_distinct _ Hn) Hm Ha Er). by left.
  - exists g. split; [|done]. split_and!; [done|done| |done]. intros Hf. destruct (E3 Hf) as [Hh Hkn].
    split; [done|]. eapply (lw_know L); [|exact Hkn]. apply (delta_agree N i m); [done..| |].
    + by eapply (excl_other N i j); eauto.
    + exists j, mj. split_and!; [done|done|left].
Qed.

(** The member that moved. *)
Lemma shape_delta {X} (q : stmt X) N i m D' s' g :
  tasks N !! i = Some m -> tidy (m_sess m) -> holds g (shared N) (m_sess m) -> pre_lock cls q g ->
  shape (inserts q) (around i N) (m_sess m) D' s' -> delta N i m D'.
Proof.
  intros Hm Ht Hg [_ Hpre] Hs. destruct Hs; try (by left); [right; by left|].
  right; right. exists a, now, c. split_and!; [|done|done].
  destruct (holds_bare _ _ _ Ht ltac:(eassumption) Hg) as (Ed & _).
  destruct (cls a) eqn:E; [|done]. destruct q; try done. simpl in *. subst a0. destruct (Hpre E) as (_ & _ & ?). lia.
Qed.

Lemma fits_self {X} (q : stmt X) N i m D' m' g g' :
  in_order_net N -> tasks N !! i = Some m -> holds g (shared N) (m_sess m) -> pre_lock cls q g ->
  shape (inserts q) (around i N) (m_sess m) D' (m_sess m') ->
  holds g' D' (m_sess m') -> lwp (m_prog m') anything g' -> fits D' m'.
Proof.
  intros Hn Hm Hg Hpre Hs Hg' Hw. pose proof (io_fits _ Hn _ _ Hm) as [Hso Hk Hgo _].
  pose proof (shape_delta q N i m D' _ g Hm (proj1 Hso) Hg Hpre Hs) as Hd.
  assert (Hins : forall a, inserts q a -> cls a = true -> have g = true /\ fact g = true).
  { intros a Hi Hc. destruct Hpre as [_ Hpre]. destruct q; try done. simpl in Hi. subst a0. naive_solver. }
  split.
  - by eapply sound_shape.
  - eapply keyed_shape; [done| |done]. intros a Hi Hc _. destruct (Hins a Hi Hc) as [Hh _]. by apply Hg.
  - intros o Ho. destruct (shape_levels _ _ _ _ _ _ Hs Ho) as [[Hin ->]|[->|(a & c & Hi & Ha & _ & -> & ->)]].
    + by apply Hgo.
    + rewrite (left_id_L ∅ (∪)). by eapply delta_good.
    + rewrite <- insert_union_l.
      assert (Hnew : (own (m_sess m) ∪ rows (shared N)) !! e_id a = None).
      { destruct Ha as [_ Hx]. simpl in Hx. destruct (judge (on_id a) _ _) eqn:Hj; [|done..].
        apply judge_clear in Hj as [Hj _]. destruct (_ !! e_id a) as [r|] eqn:Er; [|done].
        apply Hj in Er. unfold on_id in Er. simpl in Er. zbool. done. }
      assert (Hold : Good (own (m_sess m) ∪ rows (shared N))) by (apply Hgo; left).
      destruct (cls a) eqn:Ec.
      * destruct (Hins a Hi Ec) as [_ Hf]. destruct Hg as (_ & _ & HK & _). apply (lw_grow L); auto. by apply HK.
      * eapply (lw_good L); [|exact Hold]. apply agree_insert; [by rewrite (lw_class L)|done].
  - by exists g'.
Qed.

Lemma not_taken i j N mj : tasks N !! j = Some mj -> j <> i -> taken (around i N) key = false -> key ∉ advisory (m_sess mj).
Proof.
  intros Hmj Hij Ht Hk. unfold taken in Ht.
  assert (existsb (fun f => bool_decide (key ∈ advisory f)) (foreign (around i N)) = true); [|congruence].
  apply existsb_exists. exists (m_sess mj). split; [apply list_elem_of_In; by eapply foreign_around|by apply bool_decide_eq_true].
Qed.

Lemma run_in_order {X} (q : stmt X) next k D' t' r now i c t N :
  in_order_net N -> tasks N !! i = Some {| m_call := c; m_task := t; m_prog := Ask q next |} ->
  timely X q (conn t) k -> exec (around i N) k q t = Some (D', t', r) ->
  in_order_net (moved i {| m_call := c; m_task := t'; m_prog := next r |} D' now N).
Proof.
  intros Hn Hm Hti He. pose proof (io_fits _ Hn _ _ Hm) as [Hso Hk Hgo (g & Hg & Hw)].
  destruct Hw as [Hpre Hw]. simpl in Hso.
  pose proof (exec_shape _ _ _ _ _ _ _ (proj1 Hso) (proj1 Hpre) He) as Hs.
  destruct (exec_upd (around i N) k q t D' t' r g Hti (proj1 Hpre) (proj1 Hso) Hg He) as (g' & Hu & Hg').
  pose proof (shape_delta q N i _ D' _ g Hm (proj1 Hso) Hg Hpre Hs) as Hd. split.
  - eapply distinct_task; [exact Hm|exact Hs|done|apply Hn].
  - intros j mj Hj. simpl in Hj. apply lookup_insert_Some in Hj as [[<- <-]|[Hij Hj]].
    + eapply (fits_self q N i _ D'); [done|exact Hm|done..|]. by apply Hw.
    + by apply (fits_other N i j _ mj D' Hn Hm Hj (not_eq_sym Hij)).
  - intros j1 j2 m1 m2 H1 H2 K1 K2. simpl in H1, H2.
    apply lookup_insert_Some in H1 as [[<- <-]|[N1 H1]]; apply lookup_insert_Some in H2 as [[<- <-]|[N2 H2]]; auto.
    + destruct (advisory_shape _ _ _ _ _ Hk Hs K1) as [K|K].
      * by apply (io_excl _ Hn i j2 _ m2 Hm H2).
      * by destruct (not_taken i j2 N m2 H2 (not_eq_sym N2) K).
    + destruct (advisory_shape _ _ _ _ _ Hk Hs K2) as [K|K].
      * by apply (io_excl _ Hn j1 i m1 _ H1 Hm).
      * by destruct (not_taken i j1 N m1 H1 (not_eq_sym N1) K).
    + by apply (io_excl _ Hn j1 j2 m1 m2).
  - simpl. by eapply delta_good.
Qed.

Lemma rest_in_order D' now N :
  in_order_net N -> env (shared N) D' -> in_order_net {| shared := D'; clock := now; tasks := tasks N |}.
Proof.
  intros Hn He. assert (Hdis : forall i m o, tasks N !! i = Some m -> o ⊆ own (m_sess m) -> o ##ₘ rows (shared N)).
  { intros i m o Hm Ho. apply (map_disjoint_weaken_l _ (own (m_sess m))); [|done]. rewrite <- (holding_at _ _ _ Hm).
    apply (distinct_disjoint N (Some i) None); [apply Hn|done]. }
  split.
  - apply distinct_rest; [by apply (lw_env_upkeep L)|apply Hn].
  - intros i m Hm. destruct (io_fits _ Hn _ _ Hm) as [Hs Hk Hg (g & (E1 & E2 & E3 & E4) & Hw)].
    split; [done|done| |].
    + intros o Ho. eapply (lw_env_good L); [done| |by apply Hg]. by eapply Hdis, level_sub.
    + exists g. split; [|done]. split_and!; [done|done| |done]. intros Hf. destruct (E3 Hf) as [Hh HK].
      split; [done|]. eapply (lw_env_know L); [done| |done]. by eapply Hdis.
  - apply (io_excl _ Hn).
  - simpl. rewrite <- (left_id_L ∅ (∪) (rows D')). eapply (lw_env_good L); [done|apply map_disjoint_empty_l|].
    rewrite (left_id_L ∅ (∪)). apply (io_good _ Hn).
Qed.

Lemma call_in_order c i N :
  in_order_net N -> tasks N !! i = None -> call_all (disciplined key cls learn schema) c ->
  in_order_net {| shared := shared N; clock := clock N;
                  tasks := <[i := {| m_call := c; m_task := idle; m_prog := program_of has_nul schema B c |}]> (tasks N) |}.
Proof.
  intros Hn Hi Hc. split.
  - eapply distinct_from; [|apply Hn]. intros [j|] id r Hr; [|by exists r]. simpl in Hr.
    destruct (decide (j = i)) as [->|Hj]; [by rewrite lookup_insert_eq in Hr|]. rewrite lookup_insert_ne in Hr by done.
    by exists r.
  - intros j m Hj. simpl in Hj. apply lookup_insert_Some in Hj as [[<- <-]|[_ Hj]]; [|by apply (io_fits _ Hn j)].
    split; [by split| |intros o Ho|].
    + split; [|done]. simpl. by intros id r ?%lookup_empty_Some.
    + apply list_elem_of_singleton in Ho as ->. simpl. rewrite (left_id_L ∅ (∪)). apply (io_good _ Hn).
    + exists reset. split; [by apply holds_reset|]. by apply tame_call.
  - intros j1 j2 m1 m2 H1 H2 K1 K2. simpl in H1, H2.
    apply lookup_insert_Some in H1 as [[<- <-]|[_ H1]]; [by apply not_elem_of_nil in K1|].
    apply lookup_insert_Some in H2 as [[<- <-]|[_ H2]]; [by apply not_elem_of_nil in K2|].
    by apply (io_excl _ Hn j1 j2 m1 m2).
  - apply (io_good _ Hn).
Qed.

Lemma step_in_order ok N N' :
  (forall a, ok a -> disciplined key cls learn schema a) ->
  net_step has_nul schema B ok env timely N N' -> in_order_net N -> in_order_net N'.
Proof.
  intros Hok Hst Hn. destruct Hst as [i c N Hi Hc|i c t X q next k D' t' r now N Hm _ Hti He|D' now N He _].
  - apply call_in_order; [done..|]. by eapply call_all_impl.
  - by eapply run_in_order.
  - by apply rest_in_order.
Qed.

Lemma reach_in_order ok N0 N :
  quiet N0 -> distinct N0 -> Good (rows (shared N0)) ->
  (forall a, ok a -> disciplined key cls learn schema a) ->
  rtc (net_step has_nul schema B ok env timely) N0 N -> in_order_net N.
Proof.
  intros Hq Hd Hg Hok Hr. assert (Hn : in_order_net N0).
  { split; [done| | |done]; unfold quiet in Hq; rewrite Hq; by intros *; rewrite ?lookup_empty. }
  clear Hq Hd Hg. induction Hr as [|N1 N2 N3 Hs _ IH]; [done|]. by apply IH, (step_in_order ok N1 N2).
Qed.

(** What the calls preserve under the lock holds of the committed rows, whatever happens. *)
Lemma lock_protects ok N0 N :
  quiet N0 -> distinct N0 -> Good (rows (shared N0)) ->
  (forall a, ok a -> disciplined key cls learn schema a) ->
  rtc (net_step has_nul schema B ok env timely) N0 N -> Good (rows (shared N)).
Proof. intros Hq Hd Hg Hok Hr. by apply (io_good N), (reach_in_order ok N0). Qed.
End lock.
