(* ===== verification/EnqueueDemo.v ===== *)
(** * Small nets to run

    A schedule is a list of moves: a call starts, or a member runs its next statement at a
    given time.  Driving a net along a schedule is a run of the step relation. *)

From Stdlib Require Import ZArith Lia QArith.
From stdpp Require Import base tactics list gmap strings relations.
From S2P Require Import Prelude PyText PyFloat Retry JobRow Reservation Workflow Dispatch EnqueueArgs Session Enqueue EnqueueNet.

Open Scope Z_scope.

Inductive move := Start (i : nat) (c : call) | Go (i : nat) (t : Z).

Definition at_time (t : Z) : luck := {| read := fun _ => t; gives_up := false; cut := None; parked := false; pick := 0 |}.

Section drive.
Context `{Rounding}.
Context (has_nul : jobj -> bool) (schema : string) (B : budgets).
Context (may : forall X, stmt X -> session -> luck -> bool).   (* when statements may run *)

Definition drive1 (mv : move) (N : net) : option net :=
  match mv with
  | Start i c =>
      match tasks N !! i with
      | None => Some {| shared := shared N; clock := clock N;
                        tasks := <[i := {| m_call := c; m_task := idle; m_prog := program_of has_nul schema B c |}]> (tasks N) |}
      | Some _ => None
      end
  | Go i now =>
      match tasks N !! i with
      | Some {| m_call := c; m_task := t; m_prog := Ask q next |} =>
          if (clock N <=? now) && may _ q (conn t) (at_time now) then
            match exec (around i N) (at_time now) q t with
            | Some (D', t', r) =>
                Some {| shared := D'; clock := now;
                        tasks := <[i := {| m_call := c; m_task := t'; m_prog := next r |}]> (tasks N) |}
            | None => None
            end
          else None
      | _ => None
      end
  end.

Fixpoint drive (ms : list move) (N : net) : option net :=
  match ms with
  | [] => Some N
  | mv :: ms' => match drive1 mv N with Some N1 => drive ms' N1 | None => None end
  end.

Definition starts_ok (ok : EnqueueArgs -> Prop) (mv : move) : Prop :=
  match mv with Start _ c => call_all ok c | Go _ _ => True end.

Lemma drive_reaches ok env (timely : forall X, stmt X -> session -> luck -> Prop) ms N N' :
  Forall (starts_ok ok) ms -> (forall X (q : stmt X) s k, may X q s k = true -> timely X q s k) ->
  drive ms N = Some N' -> rtc (net_step has_nul schema B ok env timely) N N'.
Proof.
  intros Hs Ht. revert N. induction Hs as [|mv ms Hm _ IH]; intros N; simpl; [by intros [= ->]|].
  destruct (drive1 mv N) as [N1|] eqn:E; [|done]. intros Hd. apply (rtc_l _ _ N1); [|by apply IH]. clear IH Hd.
  destruct mv as [i c|i t]; simpl in E.
  - destruct (tasks N !! i) eqn:Ei; [done|]. injection E as <-. by apply ns_call.
  - destruct (tasks N !! i) as [[c tk [a|e|X q next]]|] eqn:Ei; try done.
    destruct (Z.leb_spec (clock N) t); [|done]. destruct (may X q (conn tk) (at_time t)) eqn:Em; [|done]. simpl in E.
    destruct (exec _ _ q tk) as [[[D' t'] r]|] eqn:Ex; [|done]. injection E as <-.
    apply (ns_run _ _ _ _ _ _ i c tk X q next (at_time t)); auto. intros j. simpl. lia.
Qed.
End drive.

(** An empty store, nobody connected. *)
Definition empty_store : store := {| rows := ∅; batch_rows := ∅; overrides := ∅; legacy_index := false |}.
Definition empty_net : net := {| shared := empty_store; clock := 0; tasks := ∅ |}.

Lemma empty_distinct : distinct empty_net.
Proof. intros [i|] pl2 id1 id2 r1 r2 H1; simpl in H1; by rewrite ?lookup_empty in H1. Qed.

Definition landed {A} (o : option A) : bool := match o with Some _ => true | None => false end.

Lemma landed_default {A} (o : option A) (x : A) : landed o = true -> o = Some (default x o).
Proof. by destruct o. Qed.

(** Member [i] runs [n] statements, at the times from [t] on. *)
Definition goes (i n : nat) (t : Z) : list move := map (fun k => Go i (t + Z.of_nat k)) (seq 0 n).

(** How a member stands: running, or with its outcome. *)
Inductive standing := Running | Returned (id : Z) | NoRow | Raised (e : exn).

Definition stands (N : net) (i : nat) : option standing :=
  match tasks N !! i with
  | None => None
  | Some m => Some match m_prog m with
                   | Ret (Some x) => Returned x.1
                   | Ret None => NoRow
                   | Raise e => Raised e
                   | Ask _ _ => Running
                   end
  end.

Definition always (X : Type) (q : stmt X) (s : session) (k : luck) : bool := true.

(** Nothing an encoder refuses. *)
Definition clean (_ : jobj) : bool := false.
