(* ===== verification/EnqueueRace.v ===== *)
(** * What concurrent enqueues keep

    Two instances of the lock's theorem: a capped actor never has more jobs waiting than its
    cap, and the jobs of one [unique_for] identity keep their distance.  Both hold over every
    interleaving of pool calls and callers' transactions, with any connection dying anywhere.
    The pair index gives the third: an idempotency pair names one job. *)

From Stdlib Require Import ZArith Lia QArith.
From stdpp Require Import base tactics list gmap strings relations.
From S2P Require Import Prelude PyText PyFloat Retry JobRow Reservation ReservationProps Workflow Dispatch EnqueueArgs Session SessionProps Enqueue EnqueueNet EnqueueLogic EnqueueLock EnqueueDemo.

Open Scope Z_scope.

(** ** The cap *)

(** Jobs of an actor waiting to run. *)
Definition queue_length (who : string) (V : gmap Z stored) : Z :=
  Z.of_nat (length (filter (fun x => queued_of who x = true) (in_order V))).

Definition queued_ids (who : string) (V : gmap Z stored) : list Z :=
  map fst (filter (fun x => queued_of who x = true) (in_order V)).

Lemma queue_length_ids who V : queue_length who V = Z.of_nat (length (queued_ids who V)).
Proof. unfold queue_length, queued_ids. by rewrite length_map. Qed.

Lemma elem_of_queued_ids who V id :
  id ∈ queued_ids who V <-> exists r, V !! id = Some r /\ row_actor r = who /\ queued r = true.
Proof.
  unfold queued_ids. rewrite list_elem_of_fmap. split.
  - intros ([i r] & -> & Hx). apply list_elem_of_filter in Hx as [Hq Hx]. apply elem_of_in_order in Hx.
    exists r. unfold queued_of in Hq. simpl in *. apply andb_true_iff in Hq as [Ha Hq].
    by apply bool_decide_eq_true in Ha.
  - intros (r & Hr & Ha & Hq). exists (id, r). split; [done|]. apply list_elem_of_filter. split.
    + unfold queued_of. simpl. by rewrite bool_decide_eq_true_2, Hq.
    + by apply elem_of_in_order.
Qed.

Lemma NoDup_queued_ids who V : NoDup (queued_ids who V).
Proof.
  unfold queued_ids. apply NoDup_fmap_fst.
  - intros i r1 r2 H1 H2. apply list_elem_of_filter in H1 as [_ H1]. apply list_elem_of_filter in H2 as [_ H2].
    apply elem_of_in_order in H1. apply elem_of_in_order in H2. simpl in *. congruence.
  - apply NoDup_filter, NoDup_in_order.
Qed.

Lemma queue_length_le who V V' n :
  (forall id, id ∈ queued_ids who V' -> id ∈ n ++ queued_ids who V) ->
  queue_length who V' <= Z.of_nat (length n) + queue_length who V.
Proof.
  intros Hsub. rewrite !queue_length_ids, <- Nat2Z.inj_add, <- length_app. apply Nat2Z.inj_le.
  apply submseteq_length, NoDup_submseteq; [apply NoDup_queued_ids|done].
Qed.

(** Nothing but an enqueue puts a job of the actor back to waiting. *)
Definition no_refill (who : string) (D D' : store) : Prop :=
  upkeep D D' /\
  forall id r', rows D' !! id = Some r' -> row_actor r' = who -> queued r' = true ->
    exists r, rows D !! id = Some r /\ queued r = true.

Definition capped_at (who : string) (M : Z) (a : EnqueueArgs) : Prop :=
  e_actor a = who -> exists cap, e_max_pending a = Some cap /\ cap <= M.

Definition anytime (X : Type) (q : stmt X) (s : session) (k : luck) : Prop := True.

Section cap.
Context `{Rounding}.
Context (has_nul : jobj -> bool) (schema : string) (B : budgets).
Context (who : string) (M : Z).

Definition of_actor (a : EnqueueArgs) : bool := bool_decide (e_actor a = who).
Definition row_of_actor (r : stored) : bool := bool_decide (row_actor r = who).

(** A count below the cap, read under the lock. *)
Definition learn_room (X : Type) (q : stmt X) : X -> bool :=
  match q in stmt X return X -> bool with
  | MaxPendingCount w => fun n => bool_decide (w = who) && (n <? M)
  | _ => fun _ => false
  end.

Definition room (_ : Z) (V : gmap Z stored) : Prop := queue_length who V < M.
Definition within (V : gmap Z stored) : Prop := queue_length who V <= M.

Lemma agree_queue V V' : agree row_of_actor V V' -> queue_length who V' <= queue_length who V.
Proof.
  intros Ha. apply (queue_length_le who V V' []). intros id. simpl. rewrite !elem_of_queued_ids.
  intros (r & Hr & Hw & Hq). exists r. split; [|done]. apply Ha; [|done]. by apply bool_decide_eq_true.
Qed.

Lemma cap_env D D' o :
  no_refill who D D' -> queue_length who (o ∪ rows D') <= queue_length who (o ∪ rows D).
Proof.
  intros [Hu Hq]. apply (queue_length_le who _ _ []). intros id. simpl. rewrite !elem_of_queued_ids.
  intros (r & Hr & Hw & Hqr). apply lookup_union_Some_raw in Hr as [Hr|[Hn Hr]].
  - exists r. split; [by apply lookup_union_Some_l|done].
  - destruct (Hq _ _ Hr Hw Hqr) as (r0 & Hr0 & Hq0). destruct (Hu _ _ Hr) as (r1 & Hr1 & _ & Ha & _).
    exists r0. split; [by rewrite lookup_union_r|]. split; [congruence|done].
Qed.

Lemma cap_lawful :
  lawful (no_refill who) anytime of_actor learn_room row_of_actor room within.
Proof.
  split.
  - done.
  - intros b V V' Ha Hk. unfold room in *. apply agree_queue in Ha. lia.
  - intros V V' Ha Hg. unfold within in *. apply agree_queue in Ha. lia.
  - intros W k X q s s' x Hs _ Hq Hp Hl. destruct q; try done. simpl in *. injection Hp as <- <-.
    apply andb_true_iff in Hl as [Hw Hl]. apply bool_decide_eq_true in Hw as ->. by apply Z.ltb_lt in Hl.
  - intros V b c a _ _ Hk _. unfold room, within in *.
    pose proof (queue_length_le who V (<[e_id a := enqueued_row b c a]> V) [e_id a]) as Hle.
    simpl in Hle. enough (queue_length who (<[e_id a := enqueued_row b c a]> V) <= 1 + queue_length who V) by lia.
    apply Hle. intros id. rewrite elem_of_cons, !elem_of_queued_ids.
    intros (r & Hr & Hw & Hqr). apply lookup_insert_Some in Hr as [[<- _]|[_ Hr]]; [by left|]. right. by exists r.
  - by intros D D' [? _].
  - intros D D' b o He _ Hk. unfold room in *. pose proof (cap_env D D' o He). lia.
  - intros D D' o He _ Hg. unfold within in *. pose proof (cap_env D D' o He). lia.
Qed.

Lemma cap_disciplined a :
  capped_at who M a -> disciplined (max_pending_key schema who) of_actor learn_room schema a.
Proof.
  intros Hc Ha. apply bool_decide_eq_true in Ha. destruct (Hc Ha) as (cap & E & Hle). right.
  exists cap. split_and!; [done|by rewrite Ha|]. intros n Hn. simpl. rewrite bool_decide_eq_true_2 by done.
  apply Z.ltb_lt. lia.
Qed.

(** C7: A cap is exact.  Whatever number of producers enqueue for an actor whose enqueues carry a
    cap of at most M, from the pool or inside their own transactions, with waits that give
    up, transactions that roll back and connections that die at any statement, and while
    other jobs move on, the actor never has more than M committed jobs waiting, if it had no
    more to begin with and nothing but an enqueue puts a job back to waiting. *)
Theorem cap_exact N0 N :
  quiet N0 -> distinct N0 -> queue_length who (rows (shared N0)) <= M ->
  rtc (net_step has_nul schema B (capped_at who M) (no_refill who) anytime) N0 N ->
  queue_length who (rows (shared N)) <= M.
Proof.
  intros Hq Hd Hg Hr.
  apply (lock_protects has_nul schema B _ _ (max_pending_key schema who) of_actor learn_room row_of_actor room within
    cap_lawful (capped_at who M) N0 N Hq Hd Hg); [|done]. apply cap_disciplined.
Qed.
End cap.

(** Two producers at a cap of one: the second waits for the lock, then counts the first's job. *)
Definition capped_args (id : Z) : EnqueueArgs := (default_args id "mail" "q") <| e_max_pending := Some 1 |>.

Definition cap_moves : list move :=
  [Start 0 (Pool (capped_args 1)); Start 1 (Pool (capped_args 2))] ++
  goes 0 5 0 ++ goes 1 8 10 ++ goes 0 5 20 ++ goes 1 6 30.

Definition cap_run : option net := @drive b64_rounding clean "taskq" default_budgets always cap_moves empty_net.
Definition cap_end : net := default empty_net cap_run.

Lemma cap_exact_witness :
  stands cap_end 0 = Some (Returned 1) /\
  stands cap_end 1 = Some (Raised (MaxPendingExceeded {| cr_actor := "mail"; cr_current := 1; cr_max := 1 |})) /\
  queue_length "mail" (rows (shared cap_end)) = 1 /\ queue_length "mail" (rows (shared cap_end)) <= 1.
Proof.
  split; [vm_compute; reflexivity|]. split; [vm_compute; reflexivity|]. split; [vm_compute; reflexivity|].
  apply (@cap_exact b64_rounding clean "taskq" default_budgets "mail" 1 empty_net).
  - reflexivity.
  - apply empty_distinct.
  - vm_compute. discriminate.
  - apply (@drive_reaches b64_rounding clean "taskq" default_budgets always _ _ _ cap_moves).
    + unfold cap_moves, goes. repeat (constructor; [first [exact I|intros _; exists 1; split; [reflexivity|lia]]|]). constructor.
    + done.
    + apply landed_default. vm_compute. reflexivity.
Defined.

(** ** The window of [unique_for] *)

Section window.
Context `{Rounding}.
Context (has_nul : jobj -> bool) (schema : string) (B : budgets).
Context (who ident : string) (S : list JobStatus) (W lag : Z).

Definition of_identity (a : EnqueueArgs) : bool :=
  bool_decide (e_actor a = who) && bool_decide (e_identity_key a = Some ident).

Definition row_of_identity (r : stored) : bool :=
  bool_decide (row_actor r = who) && bool_decide (row_identity r = Some ident).

(** An empty preflight over at least the states [S] and the window [W]. *)
Definition learn_clear (X : Type) (q : stmt X) : X -> bool :=
  match q in stmt X return X -> bool with
  | UniqueForPreflight w i states window => fun o =>
      match o with
      | None => bool_decide (w = who) && bool_decide (i = ident) && bool_decide (S ⊆ states) && (W <=? window)
      | Some _ => false
      end
  | _ => fun _ => false
  end.

Definition counts (r : stored) : Prop := row_of_identity r = true /\ row_status r ∈ S.

Definition clear_since (began : Z) (V : gmap Z stored) : Prop :=
  exists c, c - lag <= began /\ forall id r, V !! id = Some r -> counts r -> created_at (s_cols r) <= c - W.

Definition apart (V : gmap Z stored) : Prop :=
  forall id1 id2 r1 r2, V !! id1 = Some r1 -> V !! id2 = Some r2 -> id1 <> id2 -> counts r1 -> counts r2 ->
    W - lag <= Z.abs (created_at (s_cols r1) - created_at (s_cols r2)).

(** A preflight runs within [lag] of the start of its transaction. *)
Definition prompt (X : Type) (q : stmt X) (s : session) (k : luck) : Prop :=
  match q with UniqueForPreflight _ _ _ _ => read k 0 - began s <= lag | _ => True end.

(** No job of the identity comes back into the states that count. *)
Definition no_return (D D' : store) : Prop :=
  upkeep D D' /\
  forall id r', rows D' !! id = Some r' -> counts r' -> exists r, rows D !! id = Some r /\ counts r.

Definition flies_single (a : EnqueueArgs) : Prop :=
  of_identity a = true -> exists window, e_unique_for a = Some window /\ W <= window /\ S ⊆ e_unique_states a.

Lemma limit_1_none k {A} (l : list A) : limit_1 k l = None -> l = [].
Proof.
  unfold limit_1. intros E. destruct l as [|x l]; [done|]. apply lookup_ge_None in E.
  pose proof (Nat.mod_upper_bound (pick k) (length (x :: l))). simpl in *. lia.
Qed.

Lemma newest_nil l : newest l = [] -> l = [].
Proof.
  intros E. destruct l as [|x0 l0] eqn:El; [done|]. exfalso. rewrite <- El in E.
  assert (Hmax : exists x, x ∈ l /\ Forall (fun y => created_at (s_cols y.2) <= created_at (s_cols x.2)) l).
  { assert (Hne : l <> []) by congruence. clear E El x0 l0. induction l as [|x l IH]; [done|].
    destruct l as [|y l]; [exists x; split; [left|by constructor]|].
    destruct IH as (z & Hz & Hf); [done|]. destruct (decide (created_at (s_cols x.2) <= created_at (s_cols z.2))) as [Hle|Hgt].
    - exists z. split; [by right|]. by constructor.
    - exists x. split; [left|]. constructor; [lia|]. eapply Forall_impl; [done|]. simpl. intros. lia. }
  destruct Hmax as (x & Hx & Hf). assert (Hin : x ∈ newest l) by (unfold newest; apply list_elem_of_filter; done).
  rewrite E in Hin. by apply not_elem_of_nil in Hin.
Qed.

Lemma preflight_clear Wd k w i states window s :
  limit_1 k (newest (rows_where Wd (in_window k w i states window) s)) = None ->
  forall id r, visible (committed Wd) s !! id = Some r -> row_actor r = w -> row_identity r = Some i ->
    row_status r ∈ states -> created_at (s_cols r) <= read k 0 - window.
Proof.
  intros E id r Hr Ha Hi Hs. apply limit_1_none, newest_nil in E.
  destruct (decide (created_at (s_cols r) <= read k 0 - window)) as [|Hn]; [done|]. exfalso.
  assert (Hin : (id, r) ∈ rows_where Wd (in_window k w i states window) s).
  { unfold rows_where. apply list_elem_of_filter. split; [|by apply elem_of_in_order].
    unfold in_window. simpl. rewrite !bool_decide_eq_true_2 by done. simpl. apply Z.ltb_lt. lia. }
  rewrite E in Hin. by apply not_elem_of_nil in Hin.
Qed.

Lemma counts_enqueued b c a : counts (enqueued_row b c a) -> of_identity a = true.
Proof. by intros [? _]. Qed.

Lemma window_lawful :
  lawful no_return prompt of_identity learn_clear row_of_identity clear_since apart.
Proof.
  split.
  - done.
  - intros b V V' Ha (c & Hc & Hk). exists c. split; [done|]. intros id r Hr Hcr. eapply Hk; [|done].
    apply (Ha id r); [by destruct Hcr|done].
  - intros V V' Ha Hg id1 id2 r1 r2 H1 H2 Hn C1 C2.
    apply (Hg id1 id2); auto; apply Ha; try done; [by destruct C1|by destruct C2].
  - intros Wd k X q s s' x Hs Hti Hq Hp Hl. destruct q; try done. simpl in Hp, Hl, Hti. injection Hp as <- <-.
    destruct (limit_1 k _) as [|] eqn:E; [done|]. repeat (apply andb_true_iff in Hl as [Hl ?]).
    apply bool_decide_eq_true in Hl as ->. repeat match goal with Hb : bool_decide _ = true |- _ => apply bool_decide_eq_true in Hb end.
    subst. zbool. exists (read k 0). split; [lia|]. intros id r Hr [Hi Hst]. unfold row_of_identity in Hi.
    apply andb_true_iff in Hi as [Ha Hi]. apply bool_decide_eq_true in Ha, Hi.
    pose proof (preflight_clear _ _ _ _ _ _ _ E id r Hr Ha Hi ltac:(set_solver)). lia.
  - intros V b c a Hc Hn (c0 & Hb & Hk) Hg.
    assert (Hnew : forall id r, V !! id = Some r -> counts r -> W - lag <= b - created_at (s_cols r)).
    { intros id r Hr Hcr. specialize (Hk _ _ Hr Hcr). lia. }
    intros id1 id2 r1 r2 H1 H2 Hne C1 C2.
    apply lookup_insert_Some in H1 as [[<- <-]|[N1 H1]]; apply lookup_insert_Some in H2 as [[<- <-]|[N2 H2]]; [done| | |].
    + specialize (Hnew _ _ H2 C2). simpl. lia.
    + specialize (Hnew _ _ H1 C1). simpl. lia.
    + by apply (Hg id1 id2).
  - by intros D D' [? _].
  - intros D D' b o [Hu He] _ (c & Hc & Hk). exists c. split; [done|]. intros id r Hr Hcr.
    apply lookup_union_Some_raw in Hr as [Hr|[Hn Hr]]; [eapply Hk; [|done]; by apply lookup_union_Some_l|].
    destruct (He _ _ Hr Hcr) as (r0 & Hr0 & Hc0). destruct (Hu _ _ Hr) as (r1 & Hr1 & Ec & _).
    rewrite Ec. replace r1 with r0 by congruence. eapply Hk; [|done]. by rewrite lookup_union_r.
  - intros D D' o [Hu He] _ Hg.
    assert (Hold : forall id r, (o ∪ rows D') !! id = Some r -> counts r ->
      exists r0, (o ∪ rows D) !! id = Some r0 /\ counts r0 /\ s_cols r = s_cols r0).
    { intros id r Hr Hcr. apply lookup_union_Some_raw in Hr as [Hr|[Hn Hr]].
      - exists r. split; [by apply lookup_union_Some_l|done].
      - destruct (He _ _ Hr Hcr) as (r0 & Hr0 & Hc0). destruct (Hu _ _ Hr) as (r1 & Hr1 & Ec & _).
        exists r0. rewrite lookup_union_r by done. split_and!; [done|done|congruence]. }
    intros id1 id2 r1 r2 H1 H2 Hne C1 C2. destruct (Hold _ _ H1 C1) as (q1 & Q1 & D1 & ->).
    destruct (Hold _ _ H2 C2) as (q2 & Q2 & D2 & ->). by apply (Hg id1 id2).
Qed.

Lemma window_disciplined a :
  flies_single a -> disciplined (unique_for_key schema who ident) of_identity learn_clear schema a.
Proof.
  intros Hf Hc. destruct (Hf Hc) as (window & E & Hw & Hs). unfold of_identity in Hc.
  apply andb_true_iff in Hc as [Ha Hi]. apply bool_decide_eq_true in Ha, Hi. left. exists window, ident.
  unfold single_flight. rewrite E, Hi, Ha. split_and!; [done|done|]. simpl.
  rewrite !bool_decide_eq_true_2 by done. simpl. by apply Z.leb_le.
Qed.

(** C9: Jobs of one identity keep their distance.  Let every enqueue for an actor and an
    identity ask a unique_for window of at least W over at least the states S.  Over every
    interleaving of pool calls and callers' transactions, with any roll back and any
    connection lost, two committed jobs of the identity whose states are in S were created at
    least W - lag apart, where lag bounds the age of a transaction when its preflight runs,
    if no job comes back into S.  (created_at is the start of the transaction.) *)
Theorem single_flight_apart N0 N :
  quiet N0 -> distinct N0 -> apart (rows (shared N0)) ->
  rtc (net_step has_nul schema B flies_single no_return prompt) N0 N -> apart (rows (shared N)).
Proof.
  intros Hq Hd Hg Hr.
  apply (lock_protects has_nul schema B _ _ (unique_for_key schema who ident) of_identity learn_clear row_of_identity
    clear_since apart window_lawful flies_single N0 N Hq Hd Hg); [|done]. apply window_disciplined.
Qed.
End window.

(** Two producers of one identity: the second waits for the first and is given its job. *)
Definition unique_args (id : Z) : EnqueueArgs :=
  (default_args id "sync" "q") <| e_identity_key := Some "tenant"%string |> <| e_unique_for := Some 60000000 |>.

Definition prompt_within (lag : Z) (X : Type) (q : stmt X) (s : session) (k : luck) : bool :=
  match q with UniqueForPreflight _ _ _ _ => read k 0 - began s <=? lag | _ => true end.

Definition window_moves : list move :=
  [Start 0 (Pool (unique_args 1)); Start 1 (Pool (unique_args 2))] ++
  goes 0 5 0 ++ goes 1 8 10 ++ goes 0 5 20 ++ goes 1 6 30.

Definition window_run : option net :=
  @drive b64_rounding clean "taskq" default_budgets (prompt_within 1000) window_moves empty_net.
Definition window_end : net := default empty_net window_run.

Lemma single_flight_apart_witness :
  stands window_end 0 = Some (Returned 1) /\ stands window_end 1 = Some (Returned 1) /\
  apart "sync" "tenant" DEFAULT_UNIQUE_STATES 60000000 1000 (rows (shared window_end)).
Proof.
  split; [vm_compute; reflexivity|]. split; [vm_compute; reflexivity|].
  apply (@single_flight_apart b64_rounding clean "taskq" default_budgets "sync" "tenant" DEFAULT_UNIQUE_STATES 60000000 1000 empty_net).
  - reflexivity.
  - apply empty_distinct.
  - intros id1 id2 r1 r2 H1. discriminate H1.
  - apply (@drive_reaches b64_rounding clean "taskq" default_budgets (prompt_within 1000) _ _ _ window_moves).
    + unfold window_moves, goes.
      repeat (constructor; [first [exact I|intros _; exists 60000000; split; [reflexivity|split; [lia|intros x Hx; exact Hx]]]|]).
      constructor.
    + intros X q s k Hp. destruct q; try exact I. apply Z.leb_le. exact Hp.
    + apply landed_default. vm_compute. reflexivity.
Defined.

(** The caller's transaction is 100 seconds old when its enqueue runs. *)
Definition leak_moves : list move :=
  [Start 0 (Caller (Enq (unique_args 1) (fun _ => Finish))); Start 1 (Pool (unique_args 2))] ++
  goes 0 2 0 ++ goes 0 6 100000000 ++ goes 1 10 101000000.

Definition leak_run : option net := @drive b64_rounding clean "taskq" default_budgets always leak_moves empty_net.

Definition born (x : Z * stored) : Z * JobStatus * Z * Z :=
  (x.1, row_status x.2, created_at (s_cols x.2), scheduled_at (s_job x.2)).

(** The window of unique_for is measured from the start of the transaction.  There is a run in
    which a caller enqueues 100 s into its transaction with a window of 60 s, commits at
    once, and a second enqueue of the same identity 1 s later is admitted: both jobs are
    pending, scheduled 1 s apart, because the first row's created_at is the now() of a
    transaction that began before the window. *)
Theorem unique_window_leaks :
  exists N, rtc (net_step (H := b64_rounding) clean "taskq" default_budgets
                   (flies_single "sync" "tenant" DEFAULT_UNIQUE_STATES 60000000) upkeep anytime) empty_net N /\
    stands N 1 = Some (Returned 2) /\
    map born (in_order (rows (shared N))) =
      [(1, pending, 1, 100000003); (2, pending, 101000003, 101000006)].
Proof.
  exists (default empty_net leak_run). split; [|split; vm_compute; reflexivity].
  apply (@drive_reaches b64_rounding clean "taskq" default_budgets always _ _ _ leak_moves); [|done|].
  - unfold leak_moves, goes.
    assert (Hf : forall id, flies_single "sync" "tenant" DEFAULT_UNIQUE_STATES 60000000 (unique_args id)).
    { intros id _. exists 60000000. split; [reflexivity|]. split; [lia|done]. }
    repeat (constructor; [first [exact I|apply Hf|constructor; [apply Hf|intros r; constructor]]|]). constructor.
  - apply landed_default. vm_compute. reflexivity.
Qed.

(** ** Pairs, and what an enqueue answers *)

Section answers.
Context `{Rounding}.

(** What a reply of a statement tells, whatever happens around it. *)
Definition truth {X} (q : stmt X) : result exn X -> Prop :=
  match q in stmt X return result exn X -> Prop with
  | Insert a => fun r => match r with Ok (Some x) => x.1 = e_id a /\ row_actor x.2 = e_actor a | _ => True end
  | SelectByKey p => fun r => match r with Ok (Some x) => row_pair x.2 = Some p | _ => True end
  | GetJob id => fun r => match r with Ok (Some x) => x.1 = id | _ => True end
  | UniqueForPreflight who ident states _ => fun r =>
      match r with
      | Ok (Some x) => row_actor x.2 = who /\ row_identity x.2 = Some ident /\ row_status x.2 ∈ states
      | _ => True
      end
  | _ => fun _ => True
  end.

Lemma limit_1_elem k {A} (l : list A) x : limit_1 k l = Some x -> x ∈ l.
Proof. apply list_elem_of_lookup_2. Qed.

Lemma rows_where_elem W p s x : x ∈ rows_where W p s -> p x = true.
Proof. by intros [? _]%list_elem_of_filter. Qed.

Lemma perform_truth W k {X} (q : stmt X) s s' x : perform W k q s = Done (s', x) -> truth q (Ok x).
Proof.
  intros Hp. destruct q; try done; simpl in Hp.
  - injection Hp as <- <-. destruct (limit_1 k _) as [x|] eqn:E; [|done]. apply limit_1_elem in E.
    apply list_elem_of_filter in E as [_ E]. apply rows_where_elem in E. unfold in_window in E.
    repeat (apply andb_true_iff in E as [E ?]). by repeat match goal with Hb : bool_decide _ = true |- _ => apply bool_decide_eq_true in Hb end.
  - apply insert_one_done in Hp as [[-> ->]|(_ & _ & ->)]; done.
  - injection Hp as <- <-. destruct (limit_1 k _) as [x|] eqn:E; [|done]. apply limit_1_elem, rows_where_elem in E.
    unfold paired in E. by apply bool_decide_eq_true in E.
  - injection Hp as <- <-. by destruct (visible _ _ !! id).
Qed.

Lemma truth_err {X} (q : stmt X) e : truth q (Err e).
Proof. by destruct q. Qed.

Lemma exec_truth W k {X} (q : stmt X) t D' t' r : exec W k q t = Some (D', t', r) -> truth q r.
Proof.
  unfold exec. destruct (is_local q) eqn:El; [by destruct q|]. destruct (dead (conn t)); [intros [= _ _ <-]; apply truth_err|].
  destruct (cut k); [intros [= _ _ <-]; apply truth_err|].
  assert (Hs : sql_reply W k t (perform W k q (conn t)) = Some (D', t', r) -> truth q r).
  { unfold sql_reply. destruct (poisoned _); [intros [= _ _ <-]; apply truth_err|].
    destruct (perform W k q (conn t)) as [|e|[s' x]] eqn:Ep.
    - destruct (_ && _); [|done]. intros [= _ _ <-]. apply truth_err.
    - intros [= _ _ <-]. apply truth_err.
    - destruct (settle _ _). intros [= _ _ <-]. by eapply perform_truth. }
  by destruct q.
Qed.

Notation twp := (wp (fun _ _ (_ : unit) => True) (fun X (q : stmt X) (_ : unit) r (_ : unit) => truth q r)).

(** A program that returns only what [P] holds of. *)
Definition says {A} (P : A -> Prop) (p : prog A) : Prop :=
  twp p (fun r _ => match r with Ok x => P x | Err _ => True end) ().

Lemma says_bind {A C} (P : A -> Prop) (Q : C -> Prop) p f :
  says P p -> (forall x, P x -> says Q (f x)) -> says Q (pbind p f).
Proof. intros Hp Hf. apply wp_bind. eapply wp_mono; [|exact Hp]. intros [x|e] []; [apply Hf|done]. Qed.

Lemma says_then {A C} (Q : C -> Prop) (p : prog A) f : (forall x, says Q (f x)) -> says Q (pbind p f).
Proof.
  intros Hf. apply (says_bind (fun _ => True)); [|auto]. unfold says. induction p as [x|e|X q next IH]; [done..|].
  split; [done|]. intros r [] _. apply IH.
Qed.

Lemma says_catch {A} (P : A -> Prop) p h : says P p -> (forall e, says P (h e)) -> says P (catch p h).
Proof. intros Hp Hf. apply wp_catch. eapply wp_mono; [|exact Hp]. intros [x|e] []; [done|intros; apply Hf]. Qed.

Lemma says_ask {X} (P : X -> Prop) (q : stmt X) : (forall x, truth q (Ok x) -> P x) -> says P (ask q).
Proof. intros Hq. apply wp_ask; [done|]. intros [x|e] [] Ht; [by apply Hq|done]. Qed.

Lemma says_asked {X} (q : stmt X) : says (fun x => truth q (Ok x)) (ask q).
Proof. by apply says_ask. Qed.

Lemma says_transaction {A} (P : A -> Prop) p : says P p -> says P (transaction p).
Proof.
  intros Hp. unfold transaction. apply says_then. intros _. apply (says_bind P).
  - apply says_catch; [done|]. intros e. by apply says_then.
  - intros x Hx. by apply says_then.
Qed.

Lemma says_checkout {A} (P : A -> Prop) p : says P p -> says P (checkout p).
Proof.
  intros Hp. unfold checkout. apply says_then. intros _. apply (says_bind P).
  - apply says_catch; [done|]. intros e. by apply says_then.
  - intros x Hx. by apply says_then.
Qed.

(** An answer to an enqueue: a job of its actor that is its own, or the holder of its pair, or
    within its window. *)
Definition answers (a : EnqueueArgs) (x : Z * stored) : Prop :=
  row_actor x.2 = e_actor a /\
  (x.1 = e_id a \/
   (exists p, pair_of a = Some p /\ row_pair x.2 = Some p) \/
   (exists w i, single_flight a = Some (w, i) /\ row_identity x.2 = Some i /\ row_status x.2 ∈ e_unique_states a)).

Context (has_nul : jobj -> bool) (schema : string) (B : budgets).

Lemma says_refuse a x (P : (Z * stored) -> Prop) :
  (row_actor x.2 = e_actor a -> P x) ->
  says P (let! _ := _refuse_cross_actor_idempotency_hit a x in Ret x).
Proof. intros HP. unfold _refuse_cross_actor_idempotency_hit. case_bool_decide; [by apply HP|done]. Qed.

Lemma says_insert_arm a owns mark :
  says (fun o => match o with Some x => answers a x | None => True end) (insert_arm has_nul B a owns mark).
Proof.
  unfold insert_arm. apply says_then. intros scope. apply says_catch; [|by intros [[]| | | | | | | | | | | | | | | | | | |]].
  assert (Hi : says (fun o => match o with Some x => answers a x | None => True end) (insert_statement has_nul B a owns mark)).
  { unfold insert_statement. apply says_then. intros prior. do 3 (apply says_then; intros _). eapply says_bind.
    - apply says_asked.
    - intros o Ho. do 2 (apply says_then; intros _). destruct o as [x|]; [|done].
      destruct Ho as [E1 E2]. split; [done|by left]. }
  unfold _optional_savepoint. destruct scope; [by apply says_transaction|done].
Qed.

Lemma says_body a owns mark pop retry :
  says (answers a) retry -> says (answers a) (enqueue_body has_nul schema B a owns mark pop retry).
Proof.
  intros Hr. unfold enqueue_body. apply says_then. intros _.
  apply (says_bind (fun o => match o with Some x => answers a x | None => True end)).
  { unfold unique_for_arm. destruct (single_flight a) as [[w i]|] eqn:Ef; [|done].
    apply says_then. intros _. apply says_ask. intros [x|]; [|done]. intros (E1 & E2 & E3).
    split; [done|]. right; right. by exists w, i. }
  intros [x|] Hx; [done|]. do 2 (apply says_then; intros _).
  eapply says_bind; [apply says_insert_arm|]. intros [x|] Hx'; [done|]. unfold resolve_arm.
  destruct (pair_of a) as [p|] eqn:Ep; [|done].
  eapply says_bind; [apply says_asked|]. intros [x|] Ht; [|by destruct pop].
  apply says_refuse. intros Ha. split; [done|]. right; left. by exists p.
Qed.

Lemma says_on_conn a mark : says (answers a) (_enqueue_on_conn has_nul schema B a mark).
Proof.
  assert (He : forall pop owns body, (forall o q, says (answers a) (body o q)) -> says (answers a) (enqueue_entry a pop owns body)).
  { intros pop owns body Hb. unfold enqueue_entry. apply says_then. intros tx. destruct (_ && _); [by apply says_transaction|done]. }
  apply He. intros o q. apply says_body, He. intros o' q'. by apply says_body.
Qed.

Lemma says_enqueue a : says (answers a) (_enqueue has_nul schema B a).
Proof.
  assert (Hz : forall armed e, says (answers a) (zombie_check a armed e)).
  { intros armed e. unfold zombie_check. destruct e as [[]| | | | | | | | | | | | | | | | | | |]; try done. destruct armed; [|done].
    unfold _read_back_landed_enqueue. eapply says_bind; [apply says_checkout, says_asked|].
    intros [x|] Hx; [|done]. apply says_refuse. intros Ha. split; [done|by left]. }
  assert (Ha : forall armed, says (answers a) (enqueue_attempt has_nul schema B a armed)).
  { intros armed. unfold enqueue_attempt. apply says_catch; [by apply says_checkout, says_on_conn|].
    intros e. destruct e; try apply Hz. apply says_catch; [by apply says_checkout, says_on_conn|].
    intros e. destruct e; try apply Hz. done. }
  unfold _enqueue, _with_fresh_connection_retry. apply says_then. intros _. apply says_catch; [done|].
  intros e. destruct e; try done. apply says_then. intros w. destruct w; [done|]. apply says_then. by intros _.
Qed.

Definition call_says (c : call) (o : option (Z * stored)) : Prop :=
  match c, o with Pool a, Some x => answers a x | _, _ => True end.

Lemma says_call c : says (call_says c) (program_of has_nul schema B c).
Proof.
  destruct c as [a|s]; simpl; [|by apply says_then].
  eapply says_bind; [apply says_enqueue|]. by intros x Hx.
Qed.

Lemma truth_reach ok env timely N0 N :
  quiet N0 -> rtc (net_step has_nul schema B ok env timely) N0 N ->
  forall i m, tasks N !! i = Some m -> says (call_says (m_call m)) (m_prog m).
Proof.
  intros Hq Hr. assert (H0 : forall i m, tasks N0 !! i = Some m -> says (call_says (m_call m)) (m_prog m)).
  { unfold quiet in Hq. rewrite Hq. by intros *; rewrite lookup_empty. }
  clear Hq. induction Hr as [|N1 N2 N3 Hs _ IH]; [done|]. apply IH. clear IH.
  destruct Hs as [i c N Hi Hc|i c t X q next k D' t' r now N Hm _ _ He|D' now N _ _]; [| |done]; intros j m Hj.
  - simpl in Hj. apply lookup_insert_Some in Hj as [[<- <-]|[_ Hj]]; [apply says_call|by apply (H0 j)].
  - simpl in Hj. apply lookup_insert_Some in Hj as [[<- <-]|[_ Hj]]; [|by apply (H0 j)].
    destruct (H0 _ _ Hm) as [_ Hn]. apply (Hn r ()). by eapply exec_truth.
Qed.

(** C8: Enqueue is idempotent under any interleaving.  In every reachable state no two committed
    jobs hold one idempotency pair, and an enqueue from the pool that returned has returned
    a job of its own actor: its own row, or the one holder of its pair, or a job of its
    identity in the states of its unique_for window; never another actor's. *)
Theorem enqueue_idempotent ok timely N0 N :
  quiet N0 -> distinct N0 -> rtc (net_step has_nul schema B ok upkeep timely) N0 N ->
  (forall id1 id2 r1 r2 p, rows (shared N) !! id1 = Some r1 -> rows (shared N) !! id2 = Some r2 ->
     row_pair r1 = Some p -> row_pair r2 = Some p -> id1 = id2) /\
  (forall i a t x, tasks N !! i = Some {| m_call := Pool a; m_task := t; m_prog := Ret (Some x) |} -> answers a x).
Proof.
  intros Hq Hd Hr. split.
  - assert (Hl : lawful upkeep timely (fun _ => false) (fun _ _ _ => false) (fun _ => false) (fun _ _ => True) (fun _ => True))
      by (split; intros; first [exact I|done]).
    pose proof (reach_in_order has_nul schema B upkeep timely "" (fun _ => false) (fun _ _ _ => false) (fun _ => false)
      (fun _ _ => True) (fun _ => True) Hl ok N0 N Hq Hd I ltac:(by intros a _ ?) Hr) as Hn.
    intros id1 id2 r1 r2 p H1 H2 P1 P2. apply (io_distinct _ _ _ _ _ _ _ Hn None None id1 id2 r1 r2 H1 H2). right. by exists p.
  - intros i a t x Hi. apply (truth_reach _ _ _ _ _ Hq Hr) in Hi. done.
Qed.
End answers.

(** Two producers of one pair: the second's INSERT waits for the first's commit, and the second
    is given the first's job. *)
Definition paired_args (id : Z) : EnqueueArgs :=
  (default_args id "mail" "q") <| e_idempotency_key := Some "order-7"%string |>.

Definition pair_moves : list move :=
  [Start 0 (Pool (paired_args 1)); Start 1 (Pool (paired_args 2))] ++
  goes 0 7 0 ++ goes 1 6 10 ++ goes 0 3 20 ++ goes 1 5 30.

Definition pair_run : option net := @drive b64_rounding clean "taskq" default_budgets always pair_moves empty_net.
Definition pair_end : net := default empty_net pair_run.

Lemma enqueue_idempotent_witness :
  stands pair_end 0 = Some (Returned 1) /\ stands pair_end 1 = Some (Returned 1) /\
  (forall id1 id2 r1 r2 p, rows (shared pair_end) !! id1 = Some r1 -> rows (shared pair_end) !! id2 = Some r2 ->
     row_pair r1 = Some p -> row_pair r2 = Some p -> id1 = id2) /\
  (forall i a t x, tasks pair_end !! i = Some {| m_call := Pool a; m_task := t; m_prog := Ret (Some x) |} -> answers a x).
Proof.
  split; [vm_compute; reflexivity|]. split; [vm_compute; reflexivity|].
  apply (@enqueue_idempotent b64_rounding clean "taskq" default_budgets (fun _ => True) anytime empty_net).
  - reflexivity.
  - apply empty_distinct.
  - apply (@drive_reaches b64_rounding clean "taskq" default_budgets always _ _ _ pair_moves).
    + unfold pair_moves, goes. repeat (constructor; [exact I|]). constructor.
    + done.
    + apply landed_default. vm_compute. reflexivity.
Defined.
