(* ===== verification/EnqueueAlone.v ===== *)
(** * One enqueue at a time

    What an enqueue does when nobody else is connected: its answer and its write on every
    branch, and its recovery when its connection dies under a statement. *)

From Stdlib Require Import ZArith Lia QArith.
From stdpp Require Import base tactics list gmap strings.
From S2P Require Import Prelude PyText PyFloat Retry JobRow Reservation ReservationProps Workflow Dispatch EnqueueArgs Session SessionProps Enqueue EnqueueNet EnqueueDemo.

Open Scope Z_scope.

Section steps.
Context `{Rounding}.

Lemma alone_step {A X} K i (q : stmt X) (next : result exn X -> prog A) D t D' t' r :
  exec {| committed := D; foreign := [] |} (K i) q t = Some (D', t', r) ->
  alone K i (Ask q next) D t = alone K (S i) (next r) D' t'.
Proof. intros E. simpl. by rewrite E. Qed.

Lemma alone_bind {A C} K i (p : prog A) (f : A -> prog C) D t :
  alone K i (pbind p f) D t =
  match alone K i p D t with
  | Some (j, D', t', Ok x) => alone K j (f x) D' t'
  | Some (j, D', t', Err e) => Some (j, D', t', Err e)
  | None => None
  end.
Proof.
  revert i D t. induction p as [x|e|X q next IH]; intros i D t; [done..|]. cbn.
  destruct (exec _ _ q t) as [[[D1 t1] r]|]; [apply IH|done].
Qed.

Lemma alone_catch {A} K i (p : prog A) h D t :
  alone K i (catch p h) D t =
  match alone K i p D t with
  | Some (j, D', t', Ok x) => Some (j, D', t', Ok x)
  | Some (j, D', t', Err e) => alone K j (h e) D' t'
  | None => None
  end.
Proof.
  revert i D t. induction p as [x|e|X q next IH]; intros i D t; [done..|]. cbn.
  destruct (exec _ _ q t) as [[[D1 t1] r]|]; [apply IH|done].
Qed.

Lemma alone_ask {X} K i (q : stmt X) D t :
  alone K i (ask q) D t =
  match exec {| committed := D; foreign := [] |} (K i) q t with
  | Some (D', t', r) => Some (S i, D', t', r)
  | None => None
  end.
Proof. cbn. by destruct (exec _ _ q t) as [[[D1 t1] [x|e]]|]. Qed.

Lemma alone_checkout {A} K i (p : prog A) D t :
  alone K i (checkout p) D t =
  match alone K (S i) p D {| conn := bare; wrote := wrote t |} with
  | Some (j, D', t', r) => Some (S j, D', {| conn := bare; wrote := wrote t' |}, r)
  | None => None
  end.
Proof.
  unfold checkout. rewrite alone_bind, alone_ask. cbn [exec is_local healthy]. rewrite alone_bind, alone_catch.
  simpl. destruct (alone K (S i) p D _) as [[[[j D1] t1] [x|e]]|]; done.
Qed.

(** ** Collisions in a store on its own *)

Lemma judge_alone p mine : judge p mine [] = if existsb p (in_order mine) then Hit else Clear.
Proof. unfold judge. by destruct (existsb p (in_order mine)). Qed.

Lemma existsb_false_iff {A} (p : A -> bool) l : existsb p l = false <-> forall x, x ∈ l -> p x = false.
Proof.
  split.
  - intros E x Hx. destruct (p x) eqn:Ep; [|done]. rewrite <- E. symmetry. apply existsb_exists.
    exists x. split; [by apply list_elem_of_In|done].
  - intros Hp. destruct (existsb p l) eqn:E; [|done]. apply existsb_exists in E as (x & Hx & Ex).
    apply list_elem_of_In, Hp in Hx. congruence.
Qed.

Lemma judge_free p mine : (forall id r, mine !! id = Some r -> p (id, r) = false) -> judge p mine [] = Clear.
Proof.
  intros Hp. rewrite judge_alone. replace (existsb p (in_order mine)) with false; [done|]. symmetry.
  apply existsb_false_iff. intros [id r] Hx. apply Hp. by apply elem_of_in_order in Hx.
Qed.

Lemma judge_hit p mine id r : mine !! id = Some r -> p (id, r) = true -> judge p mine [] = Hit.
Proof.
  intros Hr Hp. rewrite judge_alone. replace (existsb p (in_order mine)) with true; [done|]. symmetry.
  apply existsb_exists. exists (id, r). split; [|done]. apply list_elem_of_In. by apply elem_of_in_order.
Qed.

Lemma on_pair_unkeyed a x : e_idempotency_key a = None -> on_pair a x = false.
Proof. intros E. unfold on_pair, pair_of. by rewrite E. Qed.

Lemma on_key_unkeyed a x : e_idempotency_key a = None -> on_key a x = false.
Proof. intros E. unfold on_key. by rewrite E. Qed.

(** An unkeyed row whose id is free, and whose actor has no live singleton if it is one. *)
Definition free_for (a : EnqueueArgs) (V : gmap Z stored) : Prop :=
  V !! e_id a = None /\ forall id r, V !! id = Some r -> on_singleton a (id, r) = false.

Lemma insert_free D a row s :
  e_idempotency_key a = None -> free_for a (visible D s) ->
  insert_one {| committed := D; foreign := [] |} a row s =
    Done (s <| own ::= fun m => <[e_id a := row]> m |>, Some (e_id a, row)).
Proof.
  intros Hk [Hid Hs]. unfold insert_one. simpl. change (foreign_rows []) with (@nil (Z * stored)).
  rewrite judge_free by (intros; by apply on_pair_unkeyed).
  assert (Hi : judge (on_id a) (visible D s) [] = Clear).
  { apply judge_free. intros id r Hr. unfold on_id. simpl. apply Z.eqb_neq. congruence. }
  assert (Hks : judge (on_key a) (visible D s) [] = Clear) by (apply judge_free; intros; by apply on_key_unkeyed).
  assert (Hss : judge (on_singleton a) (visible D s) [] = Clear) by by apply judge_free.
  unfold indexes. destruct (legacy_index D); simpl; by rewrite Hi, ?Hks, Hss.
Qed.

Lemma insert_taken D a row s r :
  e_idempotency_key a = None -> visible D s !! e_id a = Some r ->
  insert_one {| committed := D; foreign := [] |} a row s = Fails (UniqueViolationError jobs_pkey).
Proof.
  intros Hk Hr. unfold insert_one. simpl. change (foreign_rows []) with (@nil (Z * stored)). rewrite judge_free by (intros; by apply on_pair_unkeyed).
  rewrite (judge_hit _ _ (e_id a) r); [done|done|]. unfold on_id. simpl. apply Z.eqb_refl.
Qed.

Lemma visible_bare D : visible D bare = rows D.
Proof. unfold visible. simpl. apply (left_id_L ∅ (∪)). Qed.

Definition put (id : Z) (r : stored) (D : store) : store := D <| rows ::= <[id := r]> |>.

Definition alive : task := {| conn := bare; wrote := false |}.

(** The autocommitted INSERT. *)
Lemma healthy_insert_free D k a w :
  e_idempotency_key a = None -> free_for a (rows D) ->
  let row := enqueued_row (read k 0) (read k) a in
  healthy {| committed := D; foreign := [] |} k (Insert a) {| conn := bare; wrote := w |} =
    Some (put (e_id a) row D, {| conn := bare; wrote := w |}, Ok (Some (e_id a, row))).
Proof.
  intros Hk Hf row. unfold healthy, sql_reply. simpl.
  rewrite insert_free by (by rewrite ?visible_bare). simpl. unfold put, row, transaction_now. simpl.
  do 4 f_equal. unfold publish. destruct D as [m b o l]. simpl. f_equal.
  by rewrite insert_empty, <- insert_union_singleton_l.
Qed.

Lemma exec_insert_free D k a w :
  cut k = None -> e_idempotency_key a = None -> free_for a (rows D) ->
  let row := enqueued_row (read k 0) (read k) a in
  exec {| committed := D; foreign := [] |} k (Insert a) {| conn := bare; wrote := w |} =
    Some (put (e_id a) row D, {| conn := bare; wrote := w |}, Ok (Some (e_id a, row))).
Proof.
  intros Hc Hk Hf row. pose proof (healthy_insert_free D k a w Hk Hf) as E.
  unfold exec. cbn [is_local conn dead bare]. rewrite Hc. exact E.
Qed.

Lemma exec_insert_lost D k a w landed :
  cut k = Some landed -> e_idempotency_key a = None -> free_for a (rows D) ->
  let row := enqueued_row (read k 0) (read k) a in
  exec {| committed := D; foreign := [] |} k (Insert a) {| conn := bare; wrote := w |} =
    Some (if landed then put (e_id a) row D else D, {| conn := die bare; wrote := w |}, Err (death k)).
Proof.
  intros Hc Hk Hf row. pose proof (healthy_insert_free D k a w Hk Hf) as E. cbv zeta in E.
  unfold exec. cbn [is_local conn dead bare]. by rewrite Hc, E.
Qed.

Lemma exec_insert_taken D k a w r :
  cut k = None -> e_idempotency_key a = None -> rows D !! e_id a = Some r ->
  exec {| committed := D; foreign := [] |} k (Insert a) {| conn := bare; wrote := w |} =
    Some (D, {| conn := bare; wrote := w |}, Err (UniqueViolationError jobs_pkey)).
Proof.
  intros Hc Hk Hr. unfold exec. simpl. rewrite Hc. unfold healthy, sql_reply. simpl.
  by rewrite (insert_taken D a _ bare r) by (by rewrite ?visible_bare).
Qed.

(** ** A reply lost *)

(** No cap, no window, no batch, no key: the INSERT commits by itself. *)
Definition unguarded (a : EnqueueArgs) : Prop :=
  needs_transaction a = false /\ e_idempotency_key a = None.

(** Statement [n] loses its connection, having landed or not, reported as the driver's parked
    state or as the loss. *)
Definition cut_at (clk : nat -> nat -> Z) (n : nat) (landed parks : bool) (i : nat) : luck :=
  {| read := clk i; gives_up := false; cut := if Nat.eqb i n then Some landed else None; parked := parks; pick := 0 |}.

Lemma unguarded_none a :
  unguarded a -> e_max_pending a = None /\ single_flight a = None /\ batch_uuid a = None.
Proof.
  intros [Hn _]. unfold needs_transaction in Hn. apply orb_false_iff in Hn as [Hn Hb]. apply orb_false_iff in Hn as [Hm Hs].
  by destruct (e_max_pending a), (single_flight a), (batch_uuid a).
Qed.

Context (has_nul : jobj -> bool) (schema : string) (B : budgets).

(** The statements of an unguarded enqueue on a pool connection. *)
Lemma unguarded_on_conn a :
  unguarded a -> has_nul (e_payload a) = false -> has_nul (e_metadata a) = false ->
  forall K i D w,
  alone K i (_enqueue_on_conn has_nul schema B a true) D {| conn := bare; wrote := w |} =
  alone K (S i) (let! _ := singleton_arm a in
                 let! rec := catch (let! rec := ask (Insert a) in let! _ := ask MarkWrote in Ret rec)
                    (fun e => match e with
                              | LockNotAvailableError => Raise IdempotencyKeyLockTimeout
                              | UniqueViolationError jobs_singleton_uniq => Raise (SingletonCollision (e_actor a) None None)
                              | UniqueViolationError jobs_idempotency_key_uniq => Raise LegacyIdempotencyKeyConflict
                              | _ => Raise e
                              end) in
                 match rec with Some x => Ret x | None => Raise RuntimeError end) D {| conn := bare; wrote := w |}.
Proof.
  intros Hu Hp Hm K i D w. destruct (unguarded_none a Hu) as (E1 & E2 & E3). destruct Hu as [Hn Hk].
  assert (Hbw : bounded_wait B a = false) by (unfold bounded_wait; by rewrite Hk).
  unfold _enqueue_on_conn, enqueue_entry. rewrite Hn. simpl.
  unfold enqueue_body, membership_arm, unique_for_arm, max_pending_arm, insert_arm, scope_needed, insert_statement, jsonb_param,
    resolve_arm, pair_of.
  rewrite E1, E2, E3, Hk, Hbw, Hp, Hm. reflexivity.
Qed.

(** What the INSERT of an unguarded enqueue can meet. *)
Lemma unguarded_insert a K i D w D' t' r :
  unguarded a -> has_nul (e_payload a) = false -> has_nul (e_metadata a) = false -> is_singleton a = false ->
  exec {| committed := D; foreign := [] |} (K (S i)) (Insert a) {| conn := bare; wrote := w |} = Some (D', t', r) ->
  alone K i (_enqueue_on_conn has_nul schema B a true) D {| conn := bare; wrote := w |} =
  match r with
  | Ok (Some x) => Some (S (S (S i)), D', t' <| wrote := true |>, Ok x)
  | Ok None => Some (S (S (S i)), D', t' <| wrote := true |>, Err RuntimeError)
  | Err e => alone K (S (S i))
      (match e with
       | LockNotAvailableError => Raise IdempotencyKeyLockTimeout
       | UniqueViolationError jobs_singleton_uniq => Raise (SingletonCollision (e_actor a) None None)
       | UniqueViolationError jobs_idempotency_key_uniq => Raise LegacyIdempotencyKeyConflict
       | _ => Raise e
       end) D' t'
  end.
Proof.
  intros Hu Hp Hm Hs E. rewrite unguarded_on_conn by done. unfold singleton_arm. rewrite Hs.
  cbn [pbind]. rewrite alone_bind, alone_catch, alone_bind, alone_ask, E.
  destruct r as [[x|]|[[]| | | | | | | | | | | | | | | | | | |]]; reflexivity.
Qed.

Lemma exec_get_job D k id w :
  cut k = None ->
  exec {| committed := D; foreign := [] |} k (GetJob id) {| conn := bare; wrote := w |} =
    Some (D, {| conn := bare; wrote := w |}, Ok (option_map (pair id) (rows D !! id))).
Proof.
  intros Hc. unfold exec. cbn [is_local conn dead bare]. rewrite Hc. unfold healthy, sql_reply. simpl.
  rewrite (publish_nothing bare D eq_refl). by rewrite visible_bare.
Qed.

(** C20: A lost acknowledgement is recovered or reported, never answered with a second row.  Take
    an enqueue without key, cap, window, batch or singleton mark, whose connection dies under any
    one of its statements, whether that statement had reached the server or not.  Where the driver
    reports the death as its parked state, the shape of a connection dead on acquire and the only
    one that is retried, the call returns its own job and the table has gained exactly
    that row: the second attempt writes it or reads back the row the first one left.  Where it
    reports the loss of the connection, the call either had nothing to lose and returns its job, or
    raises that loss, and then the table holds its row exactly if the statement had landed. *)
Theorem lost_ack_recovered a D clk n landed parks :
  unguarded a -> is_singleton a = false -> has_nul (e_payload a) = false -> has_nul (e_metadata a) = false ->
  rows D !! e_id a = None ->
  exists j row c t r D', alone (cut_at clk n landed parks) 0 (_enqueue has_nul schema B a) D idle = Some (j, D', t, r) /\
    row = enqueued_row (c 0%nat) c a /\
    (r = Ok (e_id a, row) /\ D' = put (e_id a) row D \/
     parks = false /\ r = Err ConnectionDoesNotExistError /\ D' = if landed then put (e_id a) row D else D).
Proof.
  intros Hu Hs Hp Hm Hid.
  assert (Hf : free_for a (rows D)).
  { split; [done|]. intros id r _. unfold on_singleton. by rewrite Hs. }
  pose proof (proj2 Hu) as Hk.
  unfold _enqueue, _with_fresh_connection_retry. rewrite alone_bind, alone_ask. cbn [exec is_local healthy].
  rewrite alone_catch. unfold enqueue_attempt at 1. rewrite alone_catch, alone_checkout. cbn [wrote idle].
  destruct (Nat.eqb_spec 3 n) as [<-|Hn].
  - erewrite unguarded_insert; [|done..|by apply (exec_insert_lost D _ a false landed)].
    unfold death. cbn [cut_at parked]. destruct parks.
    2: { cbn [alone]. unfold zombie_check. cbn [alone]. do 6 eexists. split; [reflexivity|]. split; [reflexivity|]. by right. }
    cbn [alone]. unfold zombie_check. cbn [alone].
    rewrite alone_bind, alone_ask. cbn [exec is_local healthy wrote].
    rewrite alone_bind, alone_ask. cbn [exec is_local healthy wrote].
    unfold enqueue_attempt. rewrite alone_catch, alone_checkout. cbn [wrote].
    destruct landed.
    + erewrite unguarded_insert; [|done..|].
      2: { eapply (exec_insert_taken _ _ a false); [done|done|]. unfold put. simpl. apply lookup_insert_eq. }
      cbn [alone]. unfold zombie_check, _read_back_landed_enqueue. rewrite alone_bind, alone_checkout, alone_ask.
      rewrite exec_get_job by done. unfold put at 1. cbn [rows]. simpl (_ !! _). rewrite lookup_insert_eq. cbn [option_map].
      unfold _refuse_cross_actor_idempotency_hit. rewrite bool_decide_eq_true_2 by done.
      do 6 eexists. split; [reflexivity|]. split; [reflexivity|]. by left.
    + erewrite unguarded_insert; [|done..|by apply (exec_insert_free D _ a false)].
      do 6 eexists. split; [reflexivity|]. split; [reflexivity|]. by left.
  - erewrite unguarded_insert; [|done..|].
    2: { apply (exec_insert_free D _ a false); [|done..]. simpl. by destruct n as [|[|[|[|n]]]]. }
    do 6 eexists. split; [reflexivity|]. split; [reflexivity|]. by left.
Qed.

(** ** The singleton's lost reply *)

Lemma exec_singleton_preflight D k who w :
  cut k = None ->
  exec {| committed := D; foreign := [] |} k (SingletonPreflight who) {| conn := bare; wrote := w |} =
    Some (D, {| conn := bare; wrote := w |},
          Ok (option_map (fun x => (x.1, schedule_to_close (s_job x.2)))
                (limit_1 k (filter (fun x => singleton_of who x = true) (in_order (rows D)))))).
Proof.
  intros Hc. unfold exec. cbn [is_local conn dead bare]. rewrite Hc. unfold healthy, sql_reply. simpl.
  rewrite (publish_nothing bare D eq_refl). unfold rows_where. simpl. by rewrite visible_bare.
Qed.

(** The actor's live singletons in a store. *)
Definition live_singletons (who : string) (V : gmap Z stored) : list (Z * stored) :=
  filter (fun x => singleton_of who x = true) (in_order V).

Lemma singleton_enqueued a now c : is_singleton a = true -> singleton_of (e_actor a) (e_id a, enqueued_row now c a) = true.
Proof.
  intros Hs. unfold singleton_of, live, row_status, singleton_row. simpl. rewrite bool_decide_eq_true_2 by done. simpl.
  unfold is_singleton in Hs. rewrite Hs, andb_true_r. apply bool_decide_eq_true. unfold due_status.
  destruct (_ <? _); set_solver.
Qed.

Lemma singletons_put a now c k D :
  is_singleton a = true -> live_singletons (e_actor a) (rows D) = [] ->
  limit_1 k (live_singletons (e_actor a) (rows (put (e_id a) (enqueued_row now c a) D))) =
    Some (e_id a, enqueued_row now c a).
Proof.
  intros Hs Hn. set (l := live_singletons _ (rows (put _ _ _))).
  assert (Hin : (e_id a, enqueued_row now c a) ∈ l).
  { apply list_elem_of_filter. split; [by apply singleton_enqueued|]. apply elem_of_in_order. apply lookup_insert_eq. }
  assert (Hall : forall x, x ∈ l -> x = (e_id a, enqueued_row now c a)).
  { intros [id r] Hx. apply list_elem_of_filter in Hx as [Hx Hr]. apply elem_of_in_order in Hr. simpl in Hr.
    apply lookup_insert_Some in Hr as [[<- <-]|[_ Hr]]; [done|].
    assert (Hx' : (id, r) ∈ live_singletons (e_actor a) (rows D)) by (apply list_elem_of_filter; split; [done|by apply elem_of_in_order]).
    rewrite Hn in Hx'. by apply not_elem_of_nil in Hx'. }
  destruct (limit_1 k l) as [x|] eqn:E.
  - apply list_elem_of_lookup_2, Hall in E. by subst.
  - apply lookup_ge_None in E. destruct l as [|y l0]; [by apply not_elem_of_nil in Hin|].
    pose proof (Nat.mod_upper_bound (pick k) (length (y :: l0))). simpl in *. lia.
Qed.

Lemma singleton_on_conn a K i D w :
  unguarded a -> has_nul (e_payload a) = false -> has_nul (e_metadata a) = false -> is_singleton a = true ->
  cut (K (S i)) = None ->
  alone K i (_enqueue_on_conn has_nul schema B a true) D {| conn := bare; wrote := w |} =
  match limit_1 (K (S i)) (live_singletons (e_actor a) (rows D)) with
  | Some x => alone K (S (S i)) (let! hint := retry_hint (schedule_to_close (s_job x.2)) in
                                 Raise (SingletonCollision (e_actor a) (Some x.1) hint)) D {| conn := bare; wrote := w |}
  | None =>
      alone K (S (S i)) (let! rec := catch (let! rec := ask (Insert a) in let! _ := ask MarkWrote in Ret rec)
         (fun e => match e with
                   | LockNotAvailableError => Raise IdempotencyKeyLockTimeout
                   | UniqueViolationError jobs_singleton_uniq => Raise (SingletonCollision (e_actor a) None None)
                   | UniqueViolationError jobs_idempotency_key_uniq => Raise LegacyIdempotencyKeyConflict
                   | _ => Raise e
                   end) in
        match rec with Some x => Ret x | None => Raise RuntimeError end) D {| conn := bare; wrote := w |}
  end.
Proof.
  intros Hu Hp Hm Hs Hc. rewrite unguarded_on_conn by done. unfold singleton_arm. rewrite Hs.
  rewrite alone_bind, alone_bind, alone_ask, exec_singleton_preflight by done. fold (live_singletons (e_actor a) (rows D)).
  destruct (limit_1 (K (S i)) _) as [[id r]|]; cbn [option_map]; [|done]. simpl fst. simpl snd.
  rewrite (alone_bind K (S (S i)) (retry_hint _)), alone_bind. by destruct (alone K _ (retry_hint _) D _) as [[[[j D1] t1] [x|e]]|].
Qed.

(** A singleton's lost acknowledgement is not recovered.  When the connection of a singleton
    enqueue dies after its INSERT reached the server, and the driver reports it as parked, the job is in the table and the call
    fails with a singleton collision that names the caller's own job. *)
Theorem lost_singleton_refused a D clk :
  unguarded a -> is_singleton a = true -> has_nul (e_payload a) = false -> has_nul (e_metadata a) = false ->
  rows D !! e_id a = None -> live_singletons (e_actor a) (rows D) = [] ->
  exists j row hint t, alone (cut_at clk 4 true true) 0 (_enqueue has_nul schema B a) D idle =
    Some (j, put (e_id a) row D, t, Err (SingletonCollision (e_actor a) (Some (e_id a)) hint)).
Proof.
  intros Hu Hs Hp Hm Hid Hl.
  assert (Hf : free_for a (rows D)).
  { split; [done|]. intros id r Hr. destruct (on_singleton a (id, r)) eqn:E; [|done]. unfold on_singleton in E.
    assert (Hin : (id, r) ∈ live_singletons (e_actor a) (rows D)).
    { apply list_elem_of_filter. split; [|by apply elem_of_in_order]. unfold singleton_of. simpl in *.
      apply andb_true_iff in E as [E ->]. apply andb_true_iff in E as [E ->]. by apply andb_true_iff in E as [_ ->]. }
    rewrite Hl in Hin. by apply not_elem_of_nil in Hin. }
  pose proof (proj2 Hu) as Hk.
  unfold _enqueue, _with_fresh_connection_retry. rewrite alone_bind, alone_ask. cbn [exec is_local healthy committed].
  change (idle <| wrote := false |>) with idle.
  rewrite alone_catch. unfold enqueue_attempt at 1. rewrite alone_catch, alone_checkout. cbn [wrote idle].
  rewrite singleton_on_conn by done. rewrite Hl. change (limit_1 _ []) with (@None (Z * stored)). cbv iota.
  rewrite alone_bind, alone_catch, alone_bind, alone_ask.
  rewrite (exec_insert_lost D (cut_at clk 4 true true 4) a _ true) by done. change (death _) with InternalClientError. cbn [alone]. unfold zombie_check. cbn [alone].
  rewrite alone_bind, alone_ask. cbn [exec is_local healthy wrote committed].
  rewrite alone_bind, alone_ask. cbn [exec is_local healthy wrote committed].
  change ({| conn := bare; wrote := false |} <| wrote := false |>) with idle.
  unfold enqueue_attempt. rewrite alone_catch, alone_checkout. cbn [wrote idle].
  rewrite singleton_on_conn, singletons_put by done. rewrite alone_bind.
  unfold retry_hint. destruct (schedule_to_close _); by eexists _, _, _, _.
Qed.
End steps.


Definition plain_args : EnqueueArgs := default_args 7 "mail" "q".

Lemma lost_ack_recovered_witness :
  exists j row c t r D',
    @alone b64_rounding _ (cut_at (fun i j => Z.of_nat (i + j)) 3 true true) 0
      (_enqueue clean "taskq" default_budgets plain_args) empty_store idle = Some (j, D', t, r) /\
    row = @enqueued_row b64_rounding (c 0%nat) c plain_args /\
    (r = Ok (7, row) /\ D' = put 7 row empty_store \/
     true = false /\ r = Err ConnectionDoesNotExistError /\ D' = put 7 row empty_store).
Proof.
  apply (@lost_ack_recovered b64_rounding clean "taskq" default_budgets plain_args empty_store _ 3 true true);
    [split; reflexivity|reflexivity..].
Defined.

Definition single_args : EnqueueArgs :=
  plain_args <| e_metadata := <["singleton"%string := JRaw "true"]> ∅ |>.

Lemma lost_singleton_refused_witness :
  exists j row hint t,
    @alone b64_rounding _ (cut_at (fun i j => Z.of_nat (i + j)) 4 true true) 0
      (_enqueue clean "taskq" default_budgets single_args) empty_store idle =
    Some (j, put 7 row empty_store, t, Err (SingletonCollision "mail" (Some 7) hint)).
Proof.
  apply (@lost_singleton_refused b64_rounding clean "taskq" default_budgets single_args empty_store);
    [split; reflexivity|vm_compute; reflexivity..].
Defined.
