(* ===== verification/EnqueueBatch.v ===== *)
(** * Bulk enqueue

    [_enqueue_batch] and [_enqueue_batch_fast] of [src/taskq/backend/_enqueue.py]: one INSERT
    with an arbiter, or one COPY with its corrective UPDATE; both partition the admission of
    capped actors.

    The text of the server's message on a unique violation is a parameter ([detail]).  Logging,
    metrics and the wake are left out; what [_assemble] builds from a row is the row. *)

From Stdlib Require Import ZArith Lia QArith.
From stdpp Require Import base tactics list gmap strings.
From S2P Require Import Prelude PyText PyFloat Retry JobRow Reservation Workflow Dispatch EnqueueArgs Session Enqueue.

Open Scope Z_scope.

(** ** Pure parts *)

(** The stamp of one item: absent, a batch, or junk. *)
Definition membership_of (a : EnqueueArgs) : result exn (option Z) :=
  match batch_stamp a with
  | None => Ok None
  | Some v => match as_uuid v with Some u => Ok (Some u) | None => Err BadBatchId end
  end.

(** The distinct batches of a list; a junk stamp raises.  (The code keeps two spellings of one
    id; the lock's ANY does not tell them apart.) *)
Definition _membership_batch_ids (l : list EnqueueArgs) : result exn (list Z) :=
  let* ids := traverse membership_of l in Ok (remove_dups (omap id ids)).

Definition lift {A} (r : result exn A) : prog A := match r with Ok a => Ret a | Err e => Raise e end.

(** Positions of an actor's items. *)
Definition positions (who : string) (l : list EnqueueArgs) : list nat :=
  omap id (imap (fun i a => if bool_decide (e_actor a = who) then Some i else None) l).

Definition refused_positions (rs : list cap_refusal) (l : list EnqueueArgs) : dict (list nat) :=
  map (fun r => (cr_actor r, positions (cr_actor r) l)) rs.

(** The items of the actors that are not refused. *)
Definition admitted_args (rs : list cap_refusal) (l : list EnqueueArgs) : list EnqueueArgs :=
  filter (fun a => e_actor a ∉ map cr_actor rs) l.

Definition keyed_batch (l : list EnqueueArgs) : bool := existsb (fun a => is_some (e_idempotency_key a)) l.
Definition singleton_batch (l : list EnqueueArgs) : bool := existsb is_singleton l.

Definition find_id (id : Z) (l : list (Z * stored)) : option (Z * stored) := find (fun x => x.1 =? id) l.

Definition find_pair (p : string * string) (l : list (Z * stored)) : option (Z * stored) :=
  find (fun x => bool_decide (row_pair x.2 = Some p)) l.

Definition _COMPOSITE_IDEMPOTENCY_DETAIL_TEMPLATE (p : string * string) : string :=
  "Key (idempotency_scope, idempotency_key)=(" +:+ p.1 +:+ ", " +:+ p.2 +:+ ") already exists.".

Definition _SINGLETON_DETAIL_TEMPLATE (who : string) : string := "Key (actor)=(" +:+ who +:+ ") already exists.".

Definition _UNATTRIBUTED_SINGLETON_ACTOR : string := "<unattributed>".

(** The one element of a list. *)
Definition sole {A} (l : list A) : option A := match l with [x] => Some x | _ => None end.

(** The candidate whose rendering is the server's text. *)
Definition _attribute_duplicate_pair (detail : option string) (candidates : list (string * string)) :
    option (string * string) :=
  match detail with
  | None => None
  | Some d =>
      if bool_decide (d = ""%string) then None
      else sole (filter (fun p => _COMPOSITE_IDEMPOTENCY_DETAIL_TEMPLATE p = d) (remove_dups candidates))
  end.

(** [list(dict.fromkeys(..))]: the first of each. *)
Fixpoint fromkeys (seen l : list string) : list string :=
  match l with
  | [] => []
  | x :: l' => if bool_decide (x ∈ seen) then fromkeys seen l' else x :: fromkeys (x :: seen) l'
  end.

Record _CopyDuplicate := { cd_pair : option (string * string); cd_actor : option string; cd_job : option Z }.

Section bulk.
Context (has_nul : jobj -> bool) (detail : option string).

(** The build loop: every item is encoded before any SQL; [tags] only where they travel as
    JSON.  A NUL names the item, counted from [base]. *)
Fixpoint encode_items (with_tags : bool) (i : nat) (l : list EnqueueArgs) : prog unit :=
  match l with
  | [] => Ret ()
  | a :: l' =>
      if has_nul (e_payload a) || has_nul (e_metadata a) || with_tags && existsb contains_nul (e_tags a)
      then Raise (NulJsonbError (Some i))
      else encode_items with_tags (S i) l'
  end.

(** The holders of a list of pairs; no statement for no pair. *)
Definition fetch_existing (ps : list (string * string)) : prog (list (Z * stored)) :=
  match ps with [] => Ret [] | _ => ask (FetchExisting ps) end.

(** ** Preflights *)

Definition _batch_cap_refusals (l : list EnqueueArgs) : prog (list cap_refusal) :=
  match batch_cap_groups l with
  | [] => Ret []
  | groups =>
      let! overrides := ask ListMaxPending in
      let! existing := ask (CountPending (map fst groups)) in
      let! found := fetch_existing (map snd (cap_keyed_pairs l)) in
      Ret (batch_cap_refusal_kernel l overrides (omap (fun x => row_pair x.2) found) existing)
  end.

Definition lock_membership (l : list EnqueueArgs) : prog unit :=
  let! ids := lift (_membership_batch_ids l) in
  match ids with [] => Ret () | _ => _lock_batch_membership ids end.

Definition refusals_of (enforce : bool) (l : list EnqueueArgs) : prog (list cap_refusal) :=
  if enforce then _batch_cap_refusals l else Ret [].

(** ** After a violation *)

Definition _attribute_copy_duplicate (l : list EnqueueArgs) : prog _CopyDuplicate :=
  let keyed := omap pair_of l in
  let! found := fetch_existing keyed in
  match first_duplicate_idempotency_pair l (omap (fun x => row_pair x.2) found) with
  | None => Ret {| cd_pair := _attribute_duplicate_pair detail keyed; cd_actor := None; cd_job := None |}
  | Some p =>
      let holder := find_pair p found in
      Ret {| cd_pair := Some p; cd_actor := option_map (fun x => row_actor x.2) holder;
             cd_job := option_map fst holder |}
  end.

Definition _attribute_singleton_collision (l : list EnqueueArgs) : prog string :=
  let actors := fromkeys [] (map e_actor (filter (fun a => is_singleton a = true) l)) in
  let! held := match actors with [] => Ret [] | _ => ask (SingletonBlockers actors) end in
  Ret match first_singleton_collision_actor l held with
      | Some who => who
      | None =>
          match sole actors with
          | Some who => who
          | None => default _UNATTRIBUTED_SINGLETON_ACTOR
                      (sole (filter (fun who => Some (_SINGLETON_DETAIL_TEMPLATE who) = detail) actors))
          end
      end.

(** ** One INSERT *)

Fixpoint assemble_rows (new found : list (Z * stored)) (l : list EnqueueArgs) : prog (list (Z * stored)) :=
  match l with
  | [] => Ret []
  | a :: l' =>
      let! row :=
        match find_id (e_id a) new, pair_of a ≫= (fun p => find_pair p found) with
        | Some x, _ => Ret x
        | None, Some x => let! _ := _refuse_cross_actor_idempotency_hit a x in Ret x
        | None, None => Raise RuntimeError
        end in
      let! rest := assemble_rows new found l' in
      Ret (row :: rest)
  end.

Definition collisions (new : list (Z * stored)) (l : list EnqueueArgs) : list (string * string) :=
  omap (fun a => match find_id (e_id a) new with Some _ => None | None => pair_of a end) l.

Definition _assemble (l : list EnqueueArgs) (new : list (Z * stored)) : prog (list (Z * stored)) :=
  let! found := fetch_existing (collisions new l) in
  assemble_rows new found l.

(** The INSERT and its assembly under their savepoint, the violations typed. *)
Definition insert_admitted (owns : bool) (l : list EnqueueArgs) : prog (list (Z * stored)) :=
  catch
    (_optional_savepoint (singleton_batch l || keyed_batch l && negb owns)
       (let! new := ask (InsertBatch l) in _assemble l new))
    (fun e =>
       match e with
       | UniqueViolationError jobs_idempotency_key_uniq => Raise LegacyIdempotencyKeyConflict
       | UniqueViolationError jobs_singleton_uniq =>
           let! who := _attribute_singleton_collision l in Raise (SingletonCollision who None None)
       | _ => Raise e
       end).

(** What a bulk write returns to its transaction boundary. *)
Definition bulk (R : Type) : Type := R * list cap_refusal * dict (list nat).

Definition _insert_on_conn (enforce whole : bool) (l : list EnqueueArgs) (owns : bool) : prog (bulk (list (Z * stored))) :=
  let! _ := lock_membership l in
  let! rs := refusals_of enforce l in
  match rs, whole with
  | r :: _, true => Raise (MaxPendingExceeded r)
  | _, _ =>
      match admitted_args rs l with
      | [] => Ret ([], rs, refused_positions rs l)
      | kept => let! rows := insert_admitted owns kept in Ret (rows, rs, refused_positions rs l)
      end
  end.

(** Past the boundary: a partition refusal is raised. *)
Definition raise_refusals {R} (count : R -> nat) (b : bulk R) : prog R :=
  let '(rows, rs, refused) := b in
  match rs with
  | [] => Ret rows
  | _ => Raise (BatchMaxPendingExceeded rs refused (count rows))
  end.

(** A bare connection needs a transaction for the cap's count or the membership lock. *)
Definition bare_needs_transaction (enforce : bool) (l : list EnqueueArgs) : prog bool :=
  match enforce, batch_cap_groups l with
  | true, _ :: _ => Ret true
  | _, _ => let! ids := lift (_membership_batch_ids l) in Ret (match ids with [] => false | _ => true end)
  end.

Definition _attempt_pool {R} (body : prog (bulk R)) : prog (bulk R) :=
  let! b := checkout (transaction body) in
  let! _ := ask MarkWrote in
  Ret b.

Definition _attempt_pool_with_legacy_retry {R} (body : prog (bulk R)) : prog (bulk R) :=
  catch (_attempt_pool body) (fun e =>
    match e with
    | LegacyIdempotencyKeyConflict =>
        catch (_attempt_pool body) (fun e =>
          match e with
          | LegacyIdempotencyKeyConflict => Raise ScopedIdempotencyMigrationPending
          | _ => Raise e
          end)
    | _ => Raise e
    end).

(** On the caller's connection, or on one of the pool's. *)
Inductive supply := GivenConnection | FromPool.

Definition _enqueue_batch (from : supply) (enforce whole : bool) (index_base : nat) (l : list EnqueueArgs) :
    prog (list (Z * stored)) :=
  match l with
  | [] => Raise EmptyArgsList
  | _ =>
      let! _ := encode_items true index_base l in
      let body := _insert_on_conn enforce whole l in
      match from with
      | GivenConnection =>
          let! tx := ask InTransaction in
          let! wrap := if (tx : bool) then Ret false else bare_needs_transaction enforce l in
          let! b := if wrap then transaction (body true)
                    else catch (body false)
                           (fun e => match e with
                                     | LegacyIdempotencyKeyConflict => Raise ScopedIdempotencyMigrationPending
                                     | _ => Raise e
                                     end) in
          raise_refusals length b
      | FromPool =>
          let! b := _with_fresh_connection_retry (fun _ => _attempt_pool_with_legacy_retry (body true)) in
          raise_refusals length b
      end
  end.

(** ** One COPY *)

Definition copy_admitted (l : list EnqueueArgs) : prog nat :=
  let! n := catch
    (_optional_savepoint (keyed_batch l || singleton_batch l) (ask (CopyRecords l)))
    (fun e =>
       match e with
       | UniqueViolationError jobs_idempotency_key_uniq => Raise ScopedIdempotencyMigrationPending
       | UniqueViolationError jobs_idempotency_scope_key_uniq =>
           let! dup := _attribute_copy_duplicate l in
           match cd_pair dup ≫= (fun p => duplicate_pair_actor_mismatch l p (cd_actor dup)) with
           | Some (_, existing) => Raise (IdempotencyKeyActorMismatch existing (cd_job dup))
           | None => Raise (DuplicateIdempotencyKey (cd_pair dup))
           end
       | UniqueViolationError jobs_singleton_uniq =>
           let! who := _attribute_singleton_collision l in Raise (SingletonCollision who None None)
       | _ => Raise e
       end) in
  let! _ := ask (Fixup l) in
  Ret n.

Definition _copy_on_conn (enforce : bool) (l : list EnqueueArgs) : prog (bulk nat) :=
  let! _ := lock_membership l in
  let! rs := refusals_of enforce l in
  match admitted_args rs l with
  | [] => Ret (0%nat, rs, refused_positions rs l)
  | kept => let! n := copy_admitted kept in Ret (n, rs, refused_positions rs l)
  end.

Definition _enqueue_batch_fast (from : supply) (enforce : bool) (index_base : nat) (l : list EnqueueArgs) : prog nat :=
  match l with
  | [] => Raise EmptyArgsList
  | _ =>
      let! _ := encode_items false index_base l in
      let body := _copy_on_conn enforce l in
      match from with
      | GivenConnection =>
          let! tx := ask InTransaction in
          let! wrap := if (tx : bool) then Ret false else bare_needs_transaction enforce l in
          let! b := if wrap then transaction body else body in
          raise_refusals id b
      | FromPool =>
          let! b := _with_fresh_connection_retry (fun _ => _attempt_pool body) in
          raise_refusals id b
      end
  end.
End bulk.
