(* ===== verification/EnqueueQuiet.v ===== *)
(** * A program logic for a store on its own

    The instance of [wp] whose state is the store and the task: nobody else is connected and no
    connection dies, the clock reads anything.  Its rules for scopes and statements follow a
    program through the transaction it opens; [quiet_runs] turns a proof into a run. *)

From Stdlib Require Import ZArith Lia QArith.
From stdpp Require Import base tactics list gmap strings.
From S2P Require Import Prelude PyText PyFloat Retry JobRow Reservation ReservationProps Workflow Dispatch EnqueueArgs Session SessionProps Enqueue EnqueueNet EnqueueLogic.

Open Scope Z_scope.

Section quiet.
Context `{Rounding}.

Definition lone (D : store) : surround := {| committed := D; foreign := [] |}.

Definition moves (X : Type) (q : stmt X) (g : store * task) : Prop :=
  forall k, cut k = None -> exec (lone g.1) k q g.2 <> None.

Definition goes_to (X : Type) (q : stmt X) (g : store * task) (r : result exn X) (g' : store * task) : Prop :=
  exists k, cut k = None /\ exec (lone g.1) k q g.2 = Some (g'.1, g'.2, r).

Definition qwp {A} (p : prog A) (Q : result exn A -> store * task -> Prop) : store * task -> Prop := wp moves goes_to p Q.

Lemma quiet_runs {A} (p : prog A) Q D t K i :
  (forall i, cut (K i) = None) -> qwp p Q (D, t) ->
  exists j D' t' r, alone K i p D t = Some (j, D', t', r) /\ Q r (D', t').
Proof.
  intros HK. revert D t i. induction p as [a|e|X q next IH]; intros D t i Hp.
  - by exists i, D, t, (Ok a).
  - by exists i, D, t, (Err e).
  - destruct Hp as [Hm Hn]. simpl. change {| committed := D; foreign := [] |} with (lone D).
    destruct (exec (lone D) (K i) q t) as [[[D' t'] r]|] eqn:E; [|by destruct (Hm (K i) (HK i))].
    apply IH, (Hn r (D', t')). by exists (K i).
Qed.

Lemma qwp_mono {A} (p : prog A) (Q R : result exn A -> store * task -> Prop) g :
  (forall r g', Q r g' -> R r g') -> qwp p Q g -> qwp p R g.
Proof. apply wp_mono. Qed.

Lemma qwp_bind {A B} (p : prog A) (f : A -> prog B) Q g :
  qwp p (fun r g' => match r with Ok a => qwp (f a) Q g' | Err e => Q (Err e) g' end) g -> qwp (pbind p f) Q g.
Proof. apply wp_bind. Qed.

Lemma qwp_catch {A} (p : prog A) h Q g :
  qwp p (fun r g' => match r with Ok a => Q (Ok a) g' | Err e => qwp (h e) Q g' end) g -> qwp (catch p h) Q g.
Proof. apply wp_catch. Qed.

(** A statement that always succeeds, whatever the clock. *)
Lemma qwp_step {X} (q : stmt X) Q D t :
  (forall k, cut k = None -> match exec (lone D) k q t with Some (D', t', r) => Q r (D', t') | None => False end) ->
  qwp (ask q) Q (D, t).
Proof.
  intros Hs. apply wp_ask.
  - intros k Hk E. specialize (Hs k Hk). simpl in E. by rewrite E in Hs.
  - intros r [D' t'] (k & Hk & E). specialize (Hs k Hk). simpl in E. by rewrite E in Hs.
Qed.

(** ** Sessions by what they hold *)

Definition held (vs : list save) (m : gmap Z stored) (s : session) : Prop :=
  saves s = vs /\ own s = m /\ dead s = false.

Definition fit (vs : list save) (m : gmap Z stored) (s : session) : Prop := held vs m s /\ poisoned s = false.

Lemma fit_bare : fit [] ∅ bare.
Proof. done. Qed.

Definition on_conn (t : task) (s : session) : task := {| conn := s; wrote := wrote t |}.

(** A statement inside a scope. *)
Lemma qwp_sql {X} (q : stmt X) Q D t vs m :
  fit vs m (conn t) -> vs <> [] -> is_local q = false ->
  match q with Begin | Commit => False | _ => True end ->
  (forall k, cut k = None ->
     match perform (lone D) k q (conn t) with
     | Done (s', x) => saves s' = vs /\ Q (Ok x) (D, on_conn t s')
     | Fails e => forall s', held vs m s' -> Q (Err e) (D, on_conn t s')
     | Blocked => False
     end) ->
  qwp (ask q) Q (D, t).
Proof.
  intros [(Hs & Ho & Hd) Hp] Hvs Hl Hq Hk. apply qwp_step. intros k Ek. specialize (Hk k Ek).
  assert (Hr : exec (lone D) k q t = sql_reply (lone D) k t (perform (lone D) k q (conn t))).
  { unfold exec. rewrite Hl, Hd, Ek. by destruct q. }
  rewrite Hr. unfold sql_reply. rewrite Hp. destruct (perform (lone D) k q (conn t)) as [|e|[s' x]]; [done| |].
  - simpl. replace (t <| conn := _ |>) with (on_conn t (failed_in (conn t))) by (by destruct t). apply Hk.
    unfold failed_in. destruct (in_transaction (conn t)); by destruct (conn t).
  - destruct Hk as [Es HQ]. unfold settle. replace (in_transaction s') with true; [simpl; by destruct t|].
    symmetry. apply in_transaction_saves. by rewrite Es.
Qed.

(** ** Scopes *)

(** [async with conn.transaction()] on a connection outside one. *)
Lemma qwp_transaction {A} (p : prog A) Q D t :
  fit [] ∅ (conn t) ->
  (forall v s, fit [v] ∅ s ->
     qwp p (fun r g => g.1 = D /\
        match r with
        | Ok a => exists m, fit [v] m (conn g.2) /\
                    forall s', fit [] ∅ s' -> Q (Ok a) (D <| rows ::= fun d => m ∪ d |>, on_conn g.2 s')
        | Err e => (exists m, held [v] m (conn g.2)) /\ forall s', fit [] ∅ s' -> Q (Err e) (D, on_conn g.2 s')
        end) (D, on_conn t s)) ->
  qwp (transaction p) Q (D, t).
Proof.
  intros [(Hs & Ho & Hd) Hp] Hbody. unfold transaction. apply qwp_bind, qwp_step. intros k Hk.
  unfold exec. simpl. rewrite Hd, Hk. unfold healthy. rewrite Hp.
  apply qwp_bind, qwp_catch.
  replace (t <| conn ::= open_scope k |>) with (on_conn t (open_scope k (conn t))) by (by destruct t).
  eapply qwp_mono; [|apply (Hbody (save_of (conn t)))].
  - intros [a|e] [D' t']; simpl; intros [-> Hr].
    + destruct Hr as (m & [(Es & Eo & Ed) Ep] & HQ). apply qwp_bind, qwp_step. intros k' Hk'.
      unfold exec. simpl. rewrite Ed, Hk'. unfold healthy, end_scope. simpl. rewrite Es, Ep. simpl.
      rewrite <- Eo in HQ. specialize (HQ (unlocked (conn t') <| lock_timeout := sv_timeout (save_of (conn t)) |>)).
      destruct t' as [[] w]; simpl in *; subst. by apply HQ.
    + destruct Hr as ((m & Es & Eo & Ed) & HQ). apply qwp_bind, qwp_step. intros k' Hk'.
      unfold exec, healthy, end_scope. simpl. rewrite Es. simpl.
      specialize (HQ (unlocked (conn t') <| lock_timeout := sv_timeout (save_of (conn t)) |>)).
      destruct t' as [[] w]; simpl in *; subst. by apply HQ.
  - unfold open_scope, in_transaction. rewrite Hs. destruct (conn t). simpl in *. by rewrite Hs.
Qed.

(** [async with conn.transaction()] inside a transaction: a savepoint; [lock_timeout] is kept
    by its release and restored by its rollback. *)
Lemma qwp_savepoint_timeout {A} (p : prog A) Q D t vs m :
  fit vs m (conn t) -> vs <> [] ->
  (forall v s, fit (v :: vs) m s -> lock_timeout s = lock_timeout (conn t) ->
     qwp p (fun r g => g.1 = D /\
        match r with
        | Ok a => exists m', fit (v :: vs) m' (conn g.2) /\
            forall s', fit vs m' s' -> lock_timeout s' = lock_timeout (conn g.2) -> Q (Ok a) (D, on_conn g.2 s')
        | Err e => (exists m', held (v :: vs) m' (conn g.2)) /\
            forall s', fit vs m s' -> lock_timeout s' = lock_timeout (conn t) -> Q (Err e) (D, on_conn g.2 s')
        end) (D, on_conn t s)) ->
  qwp (transaction p) Q (D, t).
Proof.
  intros [(Hs & Ho & Hd) Hp] Hvs Hbody. unfold transaction. apply qwp_bind, qwp_step. intros k Hk.
  unfold exec. simpl. rewrite Hd, Hk. unfold healthy. rewrite Hp. apply qwp_bind, qwp_catch.
  replace (t <| conn ::= open_scope k |>) with (on_conn t (open_scope k (conn t))) by (by destruct t).
  destruct vs as [|v0 vs]; [done|].
  assert (Hfit : fit (save_of (conn t) :: v0 :: vs) m (open_scope k (conn t)) /\
                 lock_timeout (open_scope k (conn t)) = lock_timeout (conn t)).
  { unfold open_scope, in_transaction. rewrite Hs. destruct (conn t). simpl in *. by rewrite Hs. }
  eapply qwp_mono; [|apply (Hbody (save_of (conn t))); apply Hfit].
  intros [a|e] [D' t']; simpl; intros [-> Hr].
  - destruct Hr as (m' & [(Es & Eo & Ed) Ep] & HQ). apply qwp_bind, qwp_step. intros k' Hk'.
    unfold exec. simpl. rewrite Ed, Hk'. unfold healthy, end_scope. simpl. rewrite Es, Ep. simpl.
    specialize (HQ ((conn t') <| saves := v0 :: vs |>)). destruct t' as [[] w]; simpl in *; subst. by apply HQ.
  - destruct Hr as ((m' & Es & Eo & Ed) & HQ). apply qwp_bind, qwp_step. intros k' Hk'.
    unfold exec, healthy, end_scope. simpl. rewrite Es. simpl.
    specialize (HQ ((conn t') <| own := sv_own (save_of (conn t)) |> <| advisory := sv_advisory (save_of (conn t)) |>
      <| batch_locks := sv_batches (save_of (conn t)) |> <| lock_timeout := sv_timeout (save_of (conn t)) |>
      <| saves := v0 :: vs |> <| poisoned := false |>)).
    destruct t' as [[] w]; simpl in *; subst. by apply HQ.
Qed.

Lemma qwp_savepoint {A} (p : prog A) Q D t vs m :
  fit vs m (conn t) -> vs <> [] ->
  (forall v s, fit (v :: vs) m s ->
     qwp p (fun r g => g.1 = D /\
        match r with
        | Ok a => exists m', fit (v :: vs) m' (conn g.2) /\ forall s', fit vs m' s' -> Q (Ok a) (D, on_conn g.2 s')
        | Err e => (exists m', held (v :: vs) m' (conn g.2)) /\ forall s', fit vs m s' -> Q (Err e) (D, on_conn g.2 s')
        end) (D, on_conn t s)) ->
  qwp (transaction p) Q (D, t).
Proof.
  intros Hf Hvs Hp. apply (qwp_savepoint_timeout p Q D t vs m); [done|done|]. intros v s Hs _.
  eapply qwp_mono; [|by apply (Hp v s)]. intros [a|e] g; simpl; naive_solver.
Qed.

(** A checkout from the pool: the connection is fresh, and gone afterwards. *)
Lemma qwp_checkout {A} (p : prog A) Q D t :
  qwp p (fun r g => Q r (g.1, on_conn g.2 bare)) (D, on_conn t bare) -> qwp (checkout p) Q (D, t).
Proof.
  intros Hp. unfold checkout. apply qwp_bind, qwp_step. intros k Hk. simpl.
  replace (t <| conn := bare |>) with (on_conn t bare) by (by destruct t).
  apply qwp_bind, qwp_catch. eapply qwp_mono; [|exact Hp].
  intros [a|e] [D' t'] HQ; simpl in HQ; apply qwp_bind, qwp_step; intros k' Hk'; simpl; by destruct t'.
Qed.
End quiet.

Arguments qwp : simpl never.
