(* ===== verification/EnqueueBulk.v ===== *)
(** * What a bulk enqueue does

    One call of [_enqueue_batch] or [_enqueue_batch_fast] from the pool, nobody else connected:
    its answer and its writes on every branch, and the caps it keeps. *)

From Stdlib Require Import ZArith Lia QArith.
From stdpp Require Import base tactics list gmap strings.
From S2P Require Import Prelude PyText PyFloat Retry JobRow Reservation ReservationProps Workflow Dispatch EnqueueArgs Session SessionProps Enqueue EnqueueNet EnqueueLogic EnqueueDemo EnqueueRace EnqueueAlone EnqueueBatch EnqueueQuiet.

Open Scope Z_scope.

(** ** The rows of one INSERT *)

Section inserted.
Context `{Rounding}.

(** A row of the list, as the INSERT writes it. *)
Definition row_of (a : EnqueueArgs) (r : stored) : Prop := exists now c, r = enqueued_row now c a.

(** Somebody holds the item's pair. *)
Definition pair_held (a : EnqueueArgs) (V : gmap Z stored) : Prop :=
  exists p id r, pair_of a = Some p /\ V !! id = Some r /\ row_pair r = Some p.

Lemma pair_held_mono a V V' : V ⊆ V' -> pair_held a V -> pair_held a V'.
Proof. intros Hs (p & id & r & ? & Hr & ?). exists p, id, r. split_and!; try done. by eapply lookup_weaken. Qed.

(** Nothing but new rows of the list. *)
Definition grows_by (l : list EnqueueArgs) (V V' : gmap Z stored) : Prop :=
  V ⊆ V' /\
  forall id r, V' !! id = Some r -> V !! id = Some r \/ V !! id = None /\ exists a, a ∈ l /\ id = e_id a /\ row_of a r.

Lemma grows_refl l V : grows_by l V V.
Proof. split; [done|]. auto. Qed.

Lemma grows_trans l V1 V2 V3 : grows_by l V1 V2 -> grows_by l V2 V3 -> grows_by l V1 V3.
Proof.
  intros [S1 G1] [S2 G2]. split; [by etransitivity|]. intros id r Hr.
  destruct (G2 _ _ Hr) as [Hr2|[Hn Hx]]; [by apply G1|]. right. split; [|done].
  by eapply lookup_weaken_None.
Qed.

Lemma grows_weaken l l' V V' : (forall a, a ∈ l -> a ∈ l') -> grows_by l V V' -> grows_by l' V V'.
Proof. intros Hl [S G]. split; [done|]. intros id r Hr. destruct (G _ _ Hr) as [?|[? (a & ? & ?)]]; eauto 8. Qed.

(** The items an INSERT answered with new rows. *)
Definition fresh_rows (l : list EnqueueArgs) (V V' : gmap Z stored) (new : list (Z * stored)) : Prop :=
  forall x, x ∈ new -> V !! x.1 = None /\ V' !! x.1 = Some x.2 /\ exists a, a ∈ l /\ x.1 = e_id a /\ row_of a x.2.

Lemma insert_one_lone D a row s s' o :
  insert_one (lone D) a row s = Done (s', o) ->
  (o = None /\ s' = s /\ pair_held a (visible D s)) \/
  (o = Some (e_id a, row) /\ s' = s <| own ::= <[e_id a := row]> |> /\ visible D s !! e_id a = None /\
   ~ pair_held a (visible D s)).
Proof.
  unfold insert_one. simpl. change (foreign_rows []) with (@nil (Z * stored)).
  rewrite judge_alone. destruct (existsb (on_pair a) _) eqn:Ep.
  - intros [= <- <-]. left. split_and!; [done|done|]. apply existsb_exists in Ep as ([id r] & Hin & Hp).
    apply list_elem_of_In, elem_of_in_order in Hin. unfold on_pair in Hp. simpl in *. destruct (pair_of a) as [p|] eqn:E; [|done].
    apply bool_decide_eq_true in Hp. by exists p, id, r.
  - rewrite judge_alone. destruct (existsb (on_id a) _) eqn:Ei; [done|].
    destruct (check_indexes _ _ _); [done..|]. intros [= <- <-]. right.
    split_and!; [done|by destruct s| |].
    + destruct (visible D s !! e_id a) as [r|] eqn:Er; [|done].
      rewrite existsb_false_iff in Ei. specialize (Ei (e_id a, r)). unfold on_id in Ei. simpl in Ei.
      rewrite Z.eqb_refl in Ei. ospecialize (Ei _); [by apply elem_of_in_order|done].
    + intros (p & id & r & Ea & Hr & Hp). rewrite existsb_false_iff in Ep. specialize (Ep (id, r)).
      unfold on_pair in Ep. rewrite Ea in Ep. simpl in Ep. rewrite bool_decide_eq_false in Ep.
      apply Ep; [by apply elem_of_in_order|done].
Qed.

Lemma visible_put D s id r : visible D (s <| own ::= <[id := r]> |>) = <[id := r]> (visible D s).
Proof. unfold visible. destruct s. simpl. by rewrite insert_union_l. Qed.

Lemma insert_many_lone D k i l s s' new :
  insert_many (lone D) k i l s = Done (s', new) ->
  s' = s <| own := own s' |> /\ grows_by l (visible D s) (visible D s') /\
  fresh_rows l (visible D s) (visible D s') new /\
  forall a, a ∈ l -> (exists r, (e_id a, r) ∈ new /\ row_of a r) \/ pair_held a (visible D s').
Proof.
  revert i s s' new. induction l as [|a l IH]; intros i s s' new; simpl.
  - intros [= <- <-]. split_and!; [by destruct s|apply grows_refl|by intros ? ?%not_elem_of_nil|by intros ? ?%not_elem_of_nil].
  - destruct (insert_one _ _ _ _) as [|e|[s1 o]] eqn:E1; [done..|].
    destruct (insert_many _ _ _ _ s1) as [|e|[s2 rs]] eqn:E2; [done..|]. intros [= <- <-].
    destruct (IH _ _ _ _ E2) as (Es & [S2 G2] & F2 & A2). clear IH E2.
    set (row := enqueued_row (transaction_now k s) (fun j => read k (5 * i + j)) a) in *.
    apply insert_one_lone in E1 as [(-> & -> & Hp)|(-> & -> & Hn & Hp)].
    + split_and!; [done| | |].
      * eapply grows_weaken; [|by split]. intros; by right.
      * intros x Hx. destruct (F2 x Hx) as (? & ? & a' & ? & ?). split_and!; [done..|]. exists a'. split; [by right|done].
      * intros a' [->|Ha']%elem_of_cons; [|auto]. right. by eapply pair_held_mono.
    + rewrite visible_put in *.
      assert (Hrow : visible D s2 !! e_id a = Some row) by (eapply lookup_weaken; [apply lookup_insert_eq|done]).
      split_and!.
      * rewrite Es. by destruct s.
      * eapply grows_trans; [|eapply grows_weaken; [|by split]; intros; by right].
        split; [by apply insert_subseteq|]. intros id r [[<- <-]|[? ?]]%lookup_insert_Some; [|auto].
        right. split; [done|]. exists a. split; [left|]. split; [done|]. by eexists _, _.
      * intros x [->|Hx]%elem_of_cons; simpl.
        -- split_and!; [done..|]. exists a. split; [left|]. split; [done|]. by eexists _, _.
        -- destruct (F2 x Hx) as (Hx1 & ? & a' & ? & ?). apply lookup_insert_None in Hx1 as [? ?].
           split_and!; [done..|]. exists a'. split; [by right|done].
      * intros a' [->|Ha']%elem_of_cons.
        -- left. exists row. split; [left|]. by eexists _, _.
        -- destruct (A2 a' Ha') as [(r & ? & ?)|?]; [|auto]. left. exists r. split; [by right|done].
Qed.
End inserted.

(** ** The program's parts *)

Lemma Forall2_impl_elem {A B} (P R : A -> B -> Prop) l k :
  Forall2 P l k -> (forall a x, a ∈ l -> P a x -> R a x) -> Forall2 R l k.
Proof.
  induction 1 as [|a x l k Hp _ IH]; intros Hi; constructor; [apply Hi; [left|done]|].
  apply IH. intros b y Hb. apply Hi. by right.
Qed.

(** Errors other than the driver's, the assembly's own and the partition's. *)
Definition plain_error (e : exn) : bool :=
  match e with RuntimeError | InternalClientError | ConnectionDoesNotExistError | BatchMaxPendingExceeded _ _ _ => false | _ => true end.

Section parts.
Context `{Rounding}.

Lemma judge_lone p V : judge p V [] <> Wait.
Proof. rewrite judge_alone. by destruct (existsb _ _). Qed.

Lemma check_indexes_lone ix V :
  match check_indexes ix V [] with Blocked => False | Fails e => exists c, e = UniqueViolationError c | Done _ => True end.
Proof.
  induction ix as [|[c p] ix IH]; simpl; [done|]. pose proof (judge_lone p V). destruct (judge p V []); [done| |done]. by exists c.
Qed.

Lemma insert_many_total D k i l s :
  match insert_many (lone D) k i l s with
  | Blocked => False | Fails e => exists c, e = UniqueViolationError c | Done _ => True
  end.
Proof.
  revert i s. induction l as [|a l IH]; intros i s; cbn [insert_many]; [done|]. unfold insert_one. cbn [committed foreign lone].
  change (foreign_rows []) with (@nil (Z * stored)).
  pose proof (judge_lone (on_pair a) (visible D s)).
  destruct (judge (on_pair a) _ _); [| |done].
  - match goal with |- context [check_indexes ?ix ?V []] => generalize (check_indexes_lone ix V) end.
    destruct (check_indexes _ _ _) as [|e|]; [done|intros [c ->]; by exists c|intros _].
    specialize (IH (S i) (s <| own ::= fun m => <[e_id a := enqueued_row (transaction_now k s) (fun j => read k (5 * i + j)) a]> m |>)).
    by destruct (insert_many _ _ _ _ _) as [| |[]].
  - specialize (IH (S i) s). by destruct (insert_many _ _ _ _ _) as [| |[]].
Qed.

(** The rows that hold one of the pairs. *)
Definition found_in (V : gmap Z stored) (ps : list (string * string)) : list (Z * stored) :=
  filter (fun x => existsb (fun p => paired p x) ps = true) (in_order V).

Lemma elem_of_found V ps x :
  x ∈ found_in V ps <-> V !! x.1 = Some x.2 /\ exists p, p ∈ ps /\ row_pair x.2 = Some p.
Proof.
  unfold found_in. rewrite list_elem_of_filter, elem_of_in_order, existsb_exists. unfold paired.
  setoid_rewrite bool_decide_eq_true. setoid_rewrite <- list_elem_of_In. naive_solver.
Qed.

Lemma visible_fit D vs m s : held vs m s -> visible D s = m ∪ rows D.
Proof. by intros (_ & <- & _). Qed.

Lemma qwp_fetch_existing ps Q D t vs m :
  fit vs m (conn t) -> vs <> [] -> Q (Ok (found_in (m ∪ rows D) ps)) (D, t) -> qwp (ask (FetchExisting ps)) Q (D, t).
Proof.
  intros Hf Hvs HQ. eapply qwp_sql; try done. intros k _. cbn [perform]. split; [apply Hf|].
  destruct Hf as [Hh _]. destruct t as [s w]. simpl in *. unfold rows_where. simpl. by rewrite (visible_fit D vs m).
Qed.

(** A lookup that is skipped for an empty list. *)
Lemma qwp_fetch_some ps Q D t vs m :
  fit vs m (conn t) -> vs <> [] -> Q (Ok (found_in (m ∪ rows D) ps)) (D, t) ->
  qwp (fetch_existing ps) Q (D, t).
Proof.
  intros Hf Hvs HQ. unfold fetch_existing. destruct ps as [|p ps]; [|by eapply qwp_fetch_existing].
  replace (@nil (Z * stored)) with (found_in (m ∪ rows D) []); [done|]. unfold found_in. simpl.
  induction (in_order _) as [|x l IH]; [done|]. rewrite filter_cons_False; done.
Qed.

(** ** Assembly *)

(** The row an assembly picks for an item. *)
Definition picked (new found : list (Z * stored)) (a : EnqueueArgs) (x : Z * stored) : Prop :=
  find_id (e_id a) new = Some x \/
  find_id (e_id a) new = None /\ pair_of a ≫= (fun p => find_pair p found) = Some x /\ row_actor x.2 = e_actor a.

Lemma qwp_assemble_rows new found l Q g :
  (forall a, a ∈ l -> is_Some (find_id (e_id a) new) \/ is_Some (pair_of a ≫= (fun p => find_pair p found))) ->
  (forall rws, Forall2 (picked new found) l rws -> Q (Ok rws) g) ->
  (forall who id, Q (Err (IdempotencyKeyActorMismatch who id)) g) ->
  qwp (assemble_rows new found l) Q g.
Proof.
  revert Q. induction l as [|a l IH]; intros Q Hl HQ HE; simpl; [by apply HQ|]. apply qwp_bind.
  assert (Hrest : forall x, picked new found a x ->
            qwp (let! rest := assemble_rows new found l in Ret (x :: rest)) Q g).
  { intros x Hx. apply qwp_bind, IH; [intros; apply Hl; by right| |done]. intros rws Hr. apply HQ. by constructor. }
  destruct (find_id (e_id a) new) as [x|] eqn:En; [apply Hrest; by left|].
  destruct (Hl a) as [[y Hy]|[y Hy]]; [left|congruence|]. rewrite Hy. apply qwp_bind.
  unfold _refuse_cross_actor_idempotency_hit. case_bool_decide; [|apply HE]. apply Hrest. by right.
Qed.

Lemma find_id_some id l x : find_id id l = Some x -> x ∈ l /\ x.1 = id.
Proof. intros E. apply find_some in E as [Hi He]. split; [by apply list_elem_of_In|by apply Z.eqb_eq]. Qed.

Lemma find_id_none id l x : find_id id l = None -> x ∈ l -> x.1 <> id.
Proof. intros E Hx. apply list_elem_of_In in Hx. eapply find_none in E; [|done]. by apply Z.eqb_neq. Qed.

Lemma find_pair_some p l x : find_pair p l = Some x -> x ∈ l /\ row_pair x.2 = Some p.
Proof. intros E. apply find_some in E as [Hi He]. split; [by apply list_elem_of_In|by apply bool_decide_eq_true in He]. Qed.

Lemma find_pair_is p l x : x ∈ l -> row_pair x.2 = Some p -> is_Some (find_pair p l).
Proof.
  intros Hx Hp. destruct (find_pair p l) eqn:E; [by eexists|]. apply list_elem_of_In in Hx. eapply find_none in E; [|done].
  simpl in E. by rewrite bool_decide_eq_false in E.
Qed.

Definition stands_for (V : gmap Z stored) (a : EnqueueArgs) (x : Z * stored) : Prop :=
  V !! x.1 = Some x.2 /\ row_actor x.2 = e_actor a /\
  (x.1 = e_id a /\ row_of a x.2 \/ exists p, pair_of a = Some p /\ row_pair x.2 = Some p).

(** Every item has its row, and nothing but rows of the items was added. *)
Definition settled (l : list EnqueueArgs) (V V' : gmap Z stored) (rws : list (Z * stored)) : Prop :=
  Forall2 (stands_for V') l rws /\ grows_by l V V'.

Lemma id_inj (l : list EnqueueArgs) a b : NoDup (map e_id l) -> a ∈ l -> b ∈ l -> e_id a = e_id b -> a = b.
Proof.
  induction l as [|c l IH]; simpl; [by intros _ ?%not_elem_of_nil|]. intros [Hn Hd]%NoDup_cons.
  assert (Hc : forall x, x ∈ l -> e_id x <> e_id c) by (intros x Hx E; apply Hn; rewrite <- E; by apply list_elem_of_fmap_2).
  intros [->|Ha]%elem_of_cons [->|Hb]%elem_of_cons E; [done| | |auto].
  - by destruct (Hc _ Hb).
  - by destruct (Hc _ Ha).
Qed.

Lemma picked_stands l V V' new ps a x :
  NoDup (map e_id l) -> a ∈ l -> fresh_rows l V V' new -> picked new (found_in V' ps) a x -> stands_for V' a x.
Proof.
  intros Hd Ha Hf [Hx|(_ & Hx & Hact)].
  - apply find_id_some in Hx as [Hx E]. destruct (Hf x Hx) as (_ & Hr & a' & Ha' & E' & Hrow).
    assert (a' = a) as -> by (apply (id_inj l); try done; congruence).
    split_and!; [done| |by left]. destruct Hrow as (now & c & ->). done.
  - destruct (pair_of a) as [p|] eqn:Ep; [|done]. simpl in Hx. apply find_pair_some in Hx as [Hx Hp].
    apply elem_of_found in Hx as [Hr _]. split_and!; [done|done|]. right. by exists p.
Qed.

(** The INSERT and its assembly. *)
Lemma qwp_insert_assemble l Q D t vs m :
  fit vs m (conn t) -> vs <> [] -> NoDup (map e_id l) ->
  (forall k s' new rws, insert_many (lone D) k 0 l (conn t) = Done (s', new) ->
     settled l (m ∪ rows D) (own s' ∪ rows D) rws -> fit vs (own s') s' -> Q (Ok rws) (D, on_conn t s')) ->
  (forall e s' m', plain_error e = true -> held vs m' s' -> Q (Err e) (D, on_conn t s')) ->
  qwp (let! new := ask (InsertBatch l) in _assemble l new) Q (D, t).
Proof.
  intros Hf Hvs Hd HQ HE. apply qwp_bind. eapply qwp_sql; try done. intros k _. cbn [perform].
  pose proof (insert_many_total D k 0 l (conn t)) as Ht.
  destruct (insert_many (lone D) k 0 l (conn t)) as [|e|[s' new]] eqn:E; [done| |].
  { intros s' Hs'. destruct Ht as [c ->]. by eapply HE. }
  destruct (insert_many_lone _ _ _ _ _ _ _ E) as (Es & Hg & Hfr & Hall).
  assert (Hf' : fit vs (own s') s').
  { rewrite Es. destruct Hf as [(? & ? & ?) ?]. destruct (conn t). done. }
  split; [apply Hf'|]. rewrite (visible_fit D vs m) in Hg, Hfr by apply Hf. change (visible D s') with (own s' ∪ rows D) in *.
  unfold _assemble. apply qwp_bind.
  apply (qwp_fetch_some (collisions new l) _ D (on_conn t s') vs (own s')); [done|done|].
  apply qwp_assemble_rows.
  - intros a Ha. destruct (find_id (e_id a) new) eqn:En; [left; by eexists|]. right.
    destruct (Hall a Ha) as [(r & Hr & _)|(p & id & r & Ep & Hr & Hp)].
    + by apply (find_id_none _ _ _ En) in Hr.
    + rewrite Ep. simpl. apply (find_pair_is p _ (id, r)); [|done]. apply elem_of_found. split; [done|].
      exists p. split; [|done]. unfold collisions. apply list_elem_of_omap. exists a. by rewrite En.
  - intros rws Hr. eapply HQ; [done| |done]. split; [|done]. eapply Forall2_impl_elem; [exact Hr|].
    intros a x Ha Hx. by eapply picked_stands.
  - intros who id. eapply HE; [done|apply Hf'].
Qed.
(** ** Preflights and the typed violations *)

Lemma qwp_lock_membership_typed l Q D t vs m :
  fit vs m (conn t) -> vs <> [] ->
  (forall s', fit vs m s' -> Q (Ok ()) (D, on_conn t s')) ->
  (forall e s', e = BadBatchId \/ (exists b, e = BatchIdExists b) -> held vs m s' -> Q (Err e) (D, on_conn t s')) ->
  qwp (lock_membership l) Q (D, t).
Proof.
  intros Hf Hvs HQ HE. assert (Et : t = on_conn t (conn t)) by (by destruct t).
  unfold lock_membership, _membership_batch_ids. apply qwp_bind.
  assert (Hm : forall e, traverse membership_of l = Err e -> e = BadBatchId).
  { intros e. induction l as [|a l IH]; simpl; [done|]. unfold membership_of at 1.
    destruct (batch_stamp a) as [v|]; [destruct (as_uuid v)|]; simpl; [|by intros [= <-]|]; destruct (traverse _ l); naive_solver. }
  destruct (traverse membership_of l) as [ids|e]; simpl; [|rewrite Et, (Hm e eq_refl); apply HE; [by left|apply Hf]].
  destruct (remove_dups (omap id ids)) as [|b bs]; [rewrite Et; by apply HQ|].
  unfold _lock_batch_membership. apply qwp_bind. eapply qwp_sql; try done. intros k _. cbn [perform].
  replace (existsb (batch_taken (lone D)) _) with false by (symmetry; by apply existsb_false_iff).
  assert (Hf' : forall bl, fit vs m ((conn t) <| batch_locks := bl |>)) by (intros bl; destruct (conn t); exact Hf).
  split; [by destruct (Hf' (batch_locks (conn t))) as [[? _] _]; destruct (conn t); apply Hf|].
  destruct (filter _ _) as [|[id st] ?]; [apply HQ, Hf'|apply HE; [right; by eexists|apply Hf']].
Qed.

Lemma qwp_lock_membership l Q D t vs m :
  fit vs m (conn t) -> vs <> [] ->
  (forall s', fit vs m s' -> Q (Ok ()) (D, on_conn t s')) ->
  (forall e s', plain_error e = true -> held vs m s' -> Q (Err e) (D, on_conn t s')) ->
  qwp (lock_membership l) Q (D, t).
Proof.
  intros Hf Hvs HQ HE. apply (qwp_lock_membership_typed l Q D t vs m); [done..|]. intros e s' He Hs'.
  apply HE; [by destruct He as [->|[b ->]]|done].
Qed.

(** The refusals of a call: the kernel on what the store holds. *)
Definition refusals_in (D : store) (enforce : bool) (l : list EnqueueArgs) : list cap_refusal :=
  if enforce then
    batch_cap_refusal_kernel l (overrides D)
      (omap (fun x => row_pair x.2) (found_in (rows D) (map snd (cap_keyed_pairs l))))
      (fun who => if bool_decide (who ∈ map fst (batch_cap_groups l)) then queue_length who (rows D) else 0)
  else [].

Lemma qwp_refusals enforce l Q D t vs :
  fit vs ∅ (conn t) -> vs <> [] -> Q (Ok (refusals_in D enforce l)) (D, t) -> qwp (refusals_of enforce l) Q (D, t).
Proof.
  intros Hf Hvs HQ. unfold refusals_of, refusals_in in *. destruct enforce; [|done]. unfold _batch_cap_refusals.
  assert (Et : t = on_conn t (conn t)) by (by destruct t).
  destruct (batch_cap_groups l) as [|g gs] eqn:Eg; [by unfold batch_cap_refusal_kernel in HQ; rewrite Eg in HQ|]. rewrite <- Eg in *.
  apply qwp_bind. eapply qwp_sql; try done. intros k _. cbn [perform]. split; [apply Hf|]. rewrite <- Et.
  apply qwp_bind. eapply qwp_sql; try done. intros k' _. cbn [perform]. split; [apply Hf|]. rewrite <- Et.
  apply qwp_bind. apply (qwp_fetch_some _ _ D t vs ∅); [done|done|]. rewrite (left_id_L ∅ (∪)).
  unfold count_queued, rows_where. rewrite (visible_fit D vs ∅) by apply Hf. rewrite (left_id_L ∅ (∪)). exact HQ.
Qed.

Lemma qwp_blockers actors Q D t vs m :
  held vs m (conn t) -> vs <> [] ->
  (forall x, Q (Ok x) (D, t)) -> Q (Err InFailedSqlTransaction) (D, t) -> qwp (ask (SingletonBlockers actors)) Q (D, t).
Proof.
  intros (Hs & Ho & Hd) Hvs HQ HE. apply qwp_step. intros k Hk. unfold exec. simpl. rewrite Hd, Hk. unfold healthy, sql_reply.
  destruct (poisoned (conn t)); [done|]. simpl. unfold settle.
  replace (in_transaction (conn t)) with true; [by destruct t|]. symmetry. apply in_transaction_saves. by rewrite Hs.
Qed.

Context (has_nul : jobj -> bool) (detail : option string).

Lemma qwp_attribute_singleton l Q D t vs m :
  held vs m (conn t) -> vs <> [] ->
  (forall who, Q (Ok who) (D, t)) -> Q (Err InFailedSqlTransaction) (D, t) ->
  qwp (_attribute_singleton_collision detail l) Q (D, t).
Proof.
  intros Hh Hvs HQ HE. unfold _attribute_singleton_collision. apply qwp_bind.
  destruct (fromkeys _ _) as [|a actors]; [apply HQ|]. eapply qwp_blockers; [done|done| |done]. intros x. apply HQ.
Qed.

(** What the handlers of a violation leave. *)
Lemma qwp_insert_handler l Q D t v m e :
  held [v] m (conn t) -> plain_error e = true ->
  (forall e', plain_error e' = true -> Q (Err e') (D, t)) ->
  qwp (match e with
       | UniqueViolationError jobs_idempotency_key_uniq => Raise LegacyIdempotencyKeyConflict
       | UniqueViolationError jobs_singleton_uniq =>
           let! who := _attribute_singleton_collision detail l in Raise (SingletonCollision who None None)
       | _ => Raise e
       end : prog (list (Z * stored))) Q (D, t).
Proof.
  intros Hh He HQ. destruct e as [[]| | | | | | | | | | | | | | | | | | |]; try by apply HQ.
  apply qwp_bind. eapply qwp_attribute_singleton; [done|done| |by apply HQ]. intros who. by apply HQ.
Qed.

Lemma qwp_insert_admitted l Q D t v :
  fit [v] ∅ (conn t) -> NoDup (map e_id l) ->
  (forall k s0 s' new rws s1, insert_many (lone D) k 0 l s0 = Done (s', new) -> own s0 = ∅ ->
     settled l (rows D) (own s' ∪ rows D) rws -> fit [v] (own s') s1 -> Q (Ok rws) (D, on_conn t s1)) ->
  (forall e m' s', plain_error e = true -> held [v] m' s' -> Q (Err e) (D, on_conn t s')) ->
  qwp (insert_admitted detail true l) Q (D, t).
Proof.
  intros Hf Hd HQ HE. unfold insert_admitted. apply qwp_catch.
  assert (Hh : forall e m s, plain_error e = true -> held [v] m s -> qwp
      (match e with
       | UniqueViolationError jobs_idempotency_key_uniq => Raise LegacyIdempotencyKeyConflict
       | UniqueViolationError jobs_singleton_uniq =>
           let! who := _attribute_singleton_collision detail l in Raise (SingletonCollision who None None)
       | _ => Raise e
       end : prog (list (Z * stored))) Q (D, on_conn t s)).
  { intros e m s He Hs. eapply qwp_insert_handler; [exact Hs|done|]. intros e' He'. by eapply HE. }
  unfold _optional_savepoint. destruct (_ || _).
  - apply (qwp_savepoint _ _ D t [v] ∅); [done|done|]. intros v' s Hs.
    apply (qwp_insert_assemble l _ D _ (v' :: [v]) ∅); [done|done|done| |].
    + rewrite (left_id_L ∅ (∪)). intros k s' new rws E Hset Hfit. simpl in *. split; [done|]. exists (own s').
      split; [done|]. intros s1 Hs1. eapply HQ; try done. apply Hs.
    + intros e s' m' He Hs'. simpl. split; [done|]. split; [by exists m'|]. intros s1 Hs1. by eapply Hh, Hs1.
  - apply (qwp_insert_assemble l _ D t [v] ∅); [done|done|done| |].
    + rewrite (left_id_L ∅ (∪)). intros k s' new rws E Hset Hfit. eapply HQ; try done. apply Hf.
    + intros e s' m' He Hs'. by eapply Hh.
Qed.
End parts.

(** ** A call from the pool *)

Section call.
Context `{Rounding}.
Context (has_nul : jobj -> bool) (detail : option string).

(** What the INSERT of a list left: nothing for an empty one. *)
Definition inserted_to (D : store) (l : list EnqueueArgs) (V' : gmap Z stored) (rws : list (Z * stored)) : Prop :=
  settled l (rows D) V' rws /\
  (V' = rows D \/ exists k s0 s' new, insert_many (lone D) k 0 l s0 = Done (s', new) /\ own s0 = ∅ /\ V' = own s' ∪ rows D).

Lemma admitted_all l : admitted_args [] l = l.
Proof. unfold admitted_args. induction l as [|a l IH]; [done|]. rewrite filter_cons_True; [by rewrite IH|]. apply not_elem_of_nil. Qed.

Lemma NoDup_admitted rs l : NoDup (map e_id l) -> NoDup (map e_id (admitted_args rs l)).
Proof.
  induction l as [|a l IH]; [done|]. simpl. intros [Hn Hd]%NoDup_cons. unfold admitted_args in *. rewrite filter_cons.
  destruct (decide _); [|auto]. simpl. apply NoDup_cons. split; [|auto]. intros (b & E & Hb)%list_elem_of_fmap.
  apply Hn. rewrite E. apply list_elem_of_fmap_2. by apply list_elem_of_filter in Hb as [_ ?].
Qed.

Lemma qwp_insert_on_conn enforce whole l Q D t v :
  let rs := refusals_in D enforce l in
  fit [v] ∅ (conn t) -> NoDup (map e_id l) ->
  (forall rws m s', (whole = true -> rs = []) -> inserted_to D (admitted_args rs l) (m ∪ rows D) rws -> fit [v] m s' ->
     Q (Ok (rws, rs, refused_positions rs l)) (D, on_conn t s')) ->
  (forall e m s', plain_error e = true -> held [v] m s' -> Q (Err e) (D, on_conn t s')) ->
  qwp (_insert_on_conn detail enforce whole l true) Q (D, t).
Proof.
  intros rs Hf Hd HQ HE. unfold _insert_on_conn. apply qwp_bind.
  apply (qwp_lock_membership _ _ D t [v] ∅); [done|done| |intros; by eapply HE]. intros s1 Hf1.
  apply qwp_bind, (qwp_refusals _ _ _ D _ [v]); [done|done|]. fold rs.
  assert (Hins : (whole = true -> rs = []) ->
    qwp (match admitted_args rs l with
         | [] => Ret ([], rs, refused_positions rs l)
         | kept => let! rws := insert_admitted detail true kept in Ret (rws, rs, refused_positions rs l)
         end) Q (D, on_conn t s1)).
  { intros Hw. destruct (admitted_args rs l) as [|a kept] eqn:Ek.
    - apply (HQ [] ∅); [done| |done]. rewrite (left_id_L ∅ (∪)). split; [|by left]. split; [constructor|apply grows_refl].
    - rewrite <- Ek in HQ |- *. apply qwp_bind, (qwp_insert_admitted detail _ _ D _ v); [done|by apply NoDup_admitted| |].
      + intros k s0 s' new rws s2 E E0 Hset Hf2. apply (HQ rws (own s')); [done| |done]. split; [done|].
        right. by exists k, s0, s', new.
      + intros e m' s' He Hs'. by eapply HE. }
  destruct rs as [|r rs'] eqn:Ers; [by apply Hins|]. destruct whole; [|by apply Hins]. eapply HE; [done|apply Hf1].
Qed.

Definition out (w : bool) : task := {| conn := bare; wrote := w |}.

Lemma qwp_attempt enforce whole l Q D t :
  let rs := refusals_in D enforce l in
  NoDup (map e_id l) ->
  (forall rws V', (whole = true -> rs = []) -> inserted_to D (admitted_args rs l) V' rws ->
     Q (Ok (rws, rs, refused_positions rs l)) (D <| rows := V' |>, out true)) ->
  (forall e, plain_error e = true -> Q (Err e) (D, out (wrote t))) ->
  qwp (_attempt_pool (_insert_on_conn detail enforce whole l true)) Q (D, t).
Proof.
  intros rs Hd HQ HE. unfold _attempt_pool. apply qwp_bind, qwp_checkout, qwp_transaction; [apply fit_bare|].
  intros v s Hs. apply (qwp_insert_on_conn _ _ _ _ D _ v); [done|done| |].
  - intros rws m s' Hw Hi Hf. simpl. split; [done|]. exists m. split; [done|]. intros s1 Hs1.
    apply qwp_bind, qwp_step. intros k Hk. simpl. by apply HQ.
  - intros e m s' He Hs'. simpl. split; [done|]. split; [by exists m|]. intros s1 Hs1. by apply HE.
Qed.

Lemma qwp_encode with_tags i l Q g :
  Q (Ok ()) g -> (forall j, Q (Err (NulJsonbError (Some j))) g) -> qwp (encode_items has_nul with_tags i l) Q g.
Proof.
  intros HQ HE. revert i. induction l as [|a l IH]; intros i; simpl; [done|].
  destruct (_ || _); [apply HE|apply IH].
Qed.

Lemma plain_not_lost {R} e : plain_error e = true -> (Err e : result exn R) <> Err InternalClientError.
Proof. by intros He [= ->]. Qed.

(** Every way a quiet call ends. *)
Definition batch_end (D : store) (enforce whole : bool) (l : list EnqueueArgs) (D' : store)
    (r : result exn (list (Z * stored))) : Prop :=
  let rs := refusals_in D enforce l in
  (exists V' rws, D' = D <| rows := V' |> /\ inserted_to D (admitted_args rs l) V' rws /\ (whole = true -> rs = []) /\
     r = match rs with [] => Ok rws | _ => Err (BatchMaxPendingExceeded rs (refused_positions rs l) (length rws)) end) \/
  D' = D /\ exists e, r = Err e /\ plain_error e = true.

Lemma qwp_retry_plain {R} (p : prog R) Q D t :
  qwp p (fun r g => Q r g /\ r <> Err InternalClientError) (D, t <| wrote := false |>) ->
  qwp (_with_fresh_connection_retry (fun _ => p)) Q (D, t).
Proof.
  intros Hp. unfold _with_fresh_connection_retry. apply qwp_bind, qwp_step. intros k Hk. simpl.
  apply qwp_catch. eapply qwp_mono; [|exact Hp]. intros [x|e] g [HQ Hn]; [done|]. by destruct e.
Qed.

Lemma qwp_enqueue_batch enforce whole base l D :
  NoDup (map e_id l) ->
  qwp (_enqueue_batch has_nul detail FromPool enforce whole base l) (fun r g => batch_end D enforce whole l g.1 r) (D, idle).
Proof.
  intros Hd. unfold _enqueue_batch. destruct l as [|a l0] eqn:El; [right; eauto|]. rewrite <- El in *. clear El a l0.
  assert (Herr : forall e, plain_error e = true -> batch_end D enforce whole l D (Err e)) by (intros e He; right; eauto).
  apply qwp_bind, qwp_encode; [|intros j; by apply Herr]. apply qwp_bind, qwp_retry_plain.
  assert (Hrefuse : forall rws V' t, (whole = true -> refusals_in D enforce l = []) ->
    inserted_to D (admitted_args (refusals_in D enforce l) l) V' rws ->
    qwp (raise_refusals length (rws, refusals_in D enforce l, refused_positions (refusals_in D enforce l) l))
      (fun r g => batch_end D enforce whole l g.1 r) (D <| rows := V' |>, t)).
  { intros rws V' t Hw Hi. unfold raise_refusals.
    assert (Hb : batch_end D enforce whole l (D <| rows := V' |>)
      match refusals_in D enforce l with
      | [] => Ok rws
      | _ => Err (BatchMaxPendingExceeded (refusals_in D enforce l) (refused_positions (refusals_in D enforce l) l) (length rws))
      end) by (left; by exists V', rws).
    by destruct (refusals_in D enforce l). }
  unfold _attempt_pool_with_legacy_retry. apply qwp_catch, qwp_attempt; [done| |].
  { intros rws V' Hw Hi. split; [by apply Hrefuse|done]. }
  intros e He. destruct e; try (split; [by apply Herr|by apply plain_not_lost]).
  apply qwp_catch, qwp_attempt; [done| |].
  { intros rws V' Hw Hi. split; [by apply Hrefuse|done]. }
  intros e He'. destruct e; (split; [by apply Herr|by apply plain_not_lost]).
Qed.
End call.
