(* ===== verification/EnqueueBulkCap.v ===== *)
(** * The outcomes and the caps of a bulk enqueue

    The claims on [_enqueue_batch]: how a call ends, the caps it keeps when it runs alone, and
    the two ways its accounting goes wrong. *)

From Stdlib Require Import ZArith Lia QArith.
From stdpp Require Import base tactics list gmap strings.
From S2P Require Import Prelude PyText PyFloat Retry JobRow Reservation ReservationProps Workflow Dispatch EnqueueArgs Session SessionProps Enqueue EnqueueNet EnqueueLogic EnqueueDemo EnqueueRace EnqueueAlone EnqueueBatch EnqueueQuiet EnqueueBulk.

Open Scope Z_scope.

(** ** The groups of a batch *)

Definition of_who (who : string) (a : EnqueueArgs) : Prop := e_actor a = who.
#[export] Instance of_who_dec who a : Decision (of_who who a) := decide (e_actor a = who).

Definition capped_of (who : string) (a : EnqueueArgs) : Prop := e_actor a = who /\ is_Some (e_max_pending a).
#[export] Instance capped_of_dec who a : Decision (capped_of who a).
Proof. unfold capped_of. apply _. Defined.

Lemma dict_get_set {V} (d : dict V) k v k' : dict_get (dict_set d k v) k' = if bool_decide (k = k') then Some v else dict_get d k'.
Proof. induction d as [|[x y] d IH]; simpl; [done|]. repeat (case_bool_decide; simpl; subst; try done). Qed.

Lemma dict_get_elem {V} (d : dict V) k v : dict_get d k = Some v -> (k, v) ∈ d.
Proof.
  induction d as [|[x y] d IH]; simpl; [done|]. case_bool_decide as Hx; [|intros; right; auto].
  subst. intros [= ->]. left.
Qed.

(** One actor's group: the number of its capped items and a cap none of theirs is below. *)
Lemma groups_get who l g :
  let n := Z.of_nat (length (filter (capped_of who) l)) in
  match dict_get (foldl group_item g l) who with
  | Some (m, c) =>
      m = match dict_get g who with Some (m0, _) => m0 | None => 0 end + n /\
      (forall m0 c0, dict_get g who = Some (m0, c0) -> c <= c0) /\
      (forall a c0, a ∈ l -> e_actor a = who -> e_max_pending a = Some c0 -> c <= c0)
  | None => dict_get g who = None /\ n = 0
  end.
Proof.
  revert g. induction l as [|a l IH]; intros g; simpl.
  - destruct (dict_get g who) as [[m c]|]; [|done]. split_and!; [lia|by intros ?? [= -> ->]|by intros ?? ?%not_elem_of_nil].
  - specialize (IH (group_item g a)). simpl in IH.
    assert (Hget : dict_get (group_item g a) who =
      match e_max_pending a with
      | Some cap => if bool_decide (e_actor a = who) then
          Some match dict_get g who with Some (m0, c0) => (m0 + 1, if cap <? c0 then cap else c0) | None => (1, cap) end
          else dict_get g who
      | None => dict_get g who
      end).
    { unfold group_item. destruct (e_max_pending a) as [cap|]; [|done].
      destruct (dict_get g (e_actor a)) as [[m0 c0]|] eqn:Eg; rewrite dict_get_set; repeat case_bool_decide; subst; by rewrite ?Eg. }
    rewrite filter_cons. destruct (decide (capped_of who a)) as [[Ha [cap Hc]]|Hn].
    + rewrite Hget, Hc, bool_decide_eq_true_2 in IH by done. cbn [length].
      destruct (dict_get (foldl _ _ l) who) as [[m c]|]; [|by destruct IH].
      destruct IH as (Hm & H1 & H2). split_and!.
      * destruct (dict_get g who) as [[m0 c0]|]; lia.
      * intros m0 c0 E. rewrite E in H1. specialize (H1 _ _ eq_refl). destruct (Z.ltb_spec cap c0); lia.
      * intros b c0 [->|Hb]%elem_of_cons Hw Hcb; [|by eapply H2]. rewrite Hc in Hcb. injection Hcb as <-.
        destruct (dict_get g who) as [[m0 c0]|]; specialize (H1 _ _ eq_refl); [destruct (Z.ltb_spec cap c0)|]; lia.
    + assert (Hsame : dict_get (group_item g a) who = dict_get g who).
      { rewrite Hget. destruct (e_max_pending a) as [cap|] eqn:Ec; [|done]. rewrite bool_decide_eq_false_2; [done|].
        intros Hw. apply Hn. by split; [|exists cap]. }
      rewrite Hsame in IH. destruct (dict_get (foldl _ _ l) who) as [[m c]|]; [|done]. destruct IH as (Hm & H1 & H2).
      split_and!; [done|done|]. intros b c0 [->|Hb]%elem_of_cons Hw Hcb; [|by eapply H2].
      destruct Hn. split; [done|by exists c0].
Qed.

(** ** The discount *)

(** Pairs of other actors change nothing for an actor that shares none. *)
Lemma deduped_filter who seen1 seen2 keyed :
  (forall b p, (who, p) ∈ keyed -> (b, p) ∈ keyed -> b = who) ->
  (forall p, (who, p) ∈ keyed -> p ∈ seen1 <-> p ∈ seen2) ->
  deduped_for who seen1 keyed = deduped_for who seen2 (filter (fun x => x.1 = who) keyed).
Proof.
  revert seen1 seen2. induction keyed as [|[b p] keyed IH]; intros seen1 seen2 Hown Hseen; simpl; [done|].
  rewrite filter_cons. destruct (decide _) as [Hb|Hb]; simpl in Hb.
  - subst b. simpl. f_equal.
    + rewrite (bool_decide_ext (p ∈ seen1) (p ∈ seen2)); [done|]. apply Hseen. left.
    + apply IH; [intros; eapply Hown; right; eauto|]. intros p' Hp'. rewrite !elem_of_cons, (Hseen p') by (by right). done.
  - rewrite (bool_decide_eq_false_2 (b = who)), andb_false_r by done. apply IH.
    + intros; eapply Hown; right; eauto.
    + intros p' Hp'. rewrite elem_of_cons, (Hseen p') by (by right). split; [|tauto]. intros [->|?]; [|done].
      destruct Hb. eapply Hown; [by right|left].
Qed.

Lemma deduped_mono who seen1 seen2 keyed :
  (forall p, p ∈ seen1 -> p ∈ seen2) -> deduped_for who seen1 keyed <= deduped_for who seen2 keyed.
Proof.
  revert seen1 seen2. induction keyed as [|[b p] keyed IH]; intros seen1 seen2 Hs; simpl; [lia|].
  assert (deduped_for who (p :: seen1) keyed <= deduped_for who (p :: seen2) keyed).
  { apply IH. intros q. rewrite !elem_of_cons. naive_solver. }
  destruct (decide (p ∈ seen1)) as [Hp|Hp].
  - rewrite !(bool_decide_eq_true_2 (p ∈ _)) by auto. lia.
  - rewrite (bool_decide_eq_false_2 (p ∈ seen1)) by done. simpl. case_match; lia.
Qed.

Section count.
Context `{Rounding}.

Lemma queue_length_new who V a now c :
  V !! e_id a = None ->
  queue_length who (<[e_id a := enqueued_row now c a]> V) <= queue_length who V + (if bool_decide (e_actor a = who) then 1 else 0).
Proof.
  intros Hn. case_bool_decide as Hw.
  - pose proof (queue_length_le who V (<[e_id a := enqueued_row now c a]> V) [e_id a]) as Hle. simpl in Hle.
    rewrite (Z.add_comm (queue_length who V)). apply Hle. intros id. rewrite elem_of_cons, !elem_of_queued_ids.
    intros (r & [[<- _]|[_ Hr]]%lookup_insert_Some & ? & ?); [by left|]. right. by exists r.
  - rewrite Z.add_0_r. apply (queue_length_le who V _ []). intros id. simpl. rewrite !elem_of_queued_ids.
    intros (r & [[<- <-]|[_ Hr]]%lookup_insert_Some & Hr' & ?); [by destruct Hw|]. by exists r.
Qed.

(** The keyed items of one actor. *)
Definition keyed_of (who : string) (l : list EnqueueArgs) : list (string * (string * string)) :=
  cap_keyed_pairs (filter (of_who who) l).

Lemma insert_many_count who D k i l s s' new seen :
  insert_many (lone D) k i l s = Done (s', new) ->
  (forall a, a ∈ l -> e_actor a = who -> is_Some (e_max_pending a)) ->
  (forall a p, a ∈ l -> e_actor a = who -> pair_of a = Some p -> p ∈ seen -> pair_held a (visible D s)) ->
  queue_length who (visible D s') <=
    queue_length who (visible D s) + (Z.of_nat (length (filter (of_who who) l)) - deduped_for who seen (keyed_of who l)).
Proof.
  revert i s s' new seen. induction l as [|a l IH]; intros i s s' new seen; cbn [insert_many].
  - intros [= <- <-] _ _. simpl. lia.
  - destruct (insert_one _ _ _ _) as [|e|[s1 o]] eqn:E1; [done..|].
    destruct (insert_many _ _ _ _ s1) as [|e|[s2 rs]] eqn:E2; [done..|]. intros [= <- <-] Hcap Hseen.
    specialize (IH _ _ _ _ (match pair_of a with Some p => p :: seen | None => seen end) E2 ltac:(intros; apply Hcap; [by right|done])).
    assert (Hmono : visible D s ⊆ visible D s1 /\ (is_Some (pair_of a) -> pair_held a (visible D s1)) /\
      queue_length who (visible D s1) <= queue_length who (visible D s) + (if bool_decide (e_actor a = who) then 1 else 0) /\
      (pair_held a (visible D s) -> s1 = s)).
    { apply insert_one_lone in E1 as [(-> & -> & Hp)|(-> & -> & Hn & Hp)]; [split_and!; [done..| |done]; case_bool_decide; lia|].
      rewrite visible_put. split_and!; [by apply insert_subseteq| |by apply queue_length_new|done].
      intros [p Hp']. exists p, (e_id a). eexists. split_and!; [done|apply lookup_insert_eq|done]. }
    destruct Hmono as (Hsub & Hheld & Hq & Hsame). ospecialize (IH _).
    { intros b p Hb Hw Hp Hin. destruct (pair_of a) as [pa|] eqn:Ea.
      - apply elem_of_cons in Hin as [->|Hin]; [|eapply pair_held_mono; [done|]; apply (Hseen b p); [by right|done..]].
        destruct Hheld as (p' & id & r & ? & ? & ?); [by eexists|]. exists pa, id, r. naive_solver.
      - eapply pair_held_mono; [done|]. apply (Hseen b p); [by right|done..]. }
    unfold keyed_of in *. rewrite filter_cons. destruct (decide (of_who who a)) as [Hw|Hw]; unfold of_who in Hw.
    + rewrite bool_decide_eq_true_2 in Hq by done. destruct (Hcap a) as [cap Hc]; [left|done|].
      unfold cap_keyed_pairs in *. cbn [omap list_omap]. unfold cap_keyed at 1. rewrite Hc.
      destruct (pair_of a) as [p|] eqn:Ea; cbn [deduped_for length] in *; [|lia].
      destruct (decide (p ∈ seen)) as [Hin|Hin].
      * rewrite (bool_decide_eq_true_2 (p ∈ seen)), (bool_decide_eq_true_2 (e_actor a = who)) by done. cbn [andb].
        rewrite (Hsame (Hseen a p ltac:(left) Hw Ea Hin)) in IH. lia.
      * rewrite (bool_decide_eq_false_2 (p ∈ seen)) by done. cbn [andb]. lia.
    + rewrite bool_decide_eq_false_2 in Hq by done.
      enough (Hd : deduped_for who seen (cap_keyed_pairs (filter (of_who who) l)) <=
                   deduped_for who (match pair_of a with Some p => p :: seen | None => seen end) (cap_keyed_pairs (filter (of_who who) l))) by lia.
      apply deduped_mono. intros q Hq'. destruct (pair_of a); [by right|done].
Qed.
End count.

Section claims.
Context `{Rounding}.
Context (has_nul : jobj -> bool) (detail : option string).

(** ** How a call ends *)

(** C17: A batch enqueued alone ends in one of three ways.  It returns one committed job per item,
    in the order of the items: the item's own new row, or the row of its actor that holds
    its idempotency pair; nothing but rows of items was added.  Or it raises the partition
    refusal, which names exactly the actors the cap rule refuses, with the positions of
    their items, after committing the items of all other actors and counting them.  Or it
    raises something else, and the store is as it was; the branch the code calls a bug is
    not reached. *)
Theorem batch_outcome K enforce whole base l D :
  (forall i, cut (K i) = None) -> NoDup (map e_id l) ->
  exists j D' t r, alone K 0 (_enqueue_batch has_nul detail FromPool enforce whole base l) D idle = Some (j, D', t, r) /\
    D' = D <| rows := rows D' |> /\
    match r with
    | Ok rws => refusals_in D enforce l = [] /\ settled l (rows D) (rows D') rws
    | Err (BatchMaxPendingExceeded rs refused n) =>
        rs = refusals_in D enforce l /\ rs <> [] /\ whole = false /\ refused = refused_positions rs l /\
        exists rws, n = length rws /\ settled (admitted_args rs l) (rows D) (rows D') rws
    | Err RuntimeError => False
    | Err _ => rows D' = rows D
    end.
Proof.
  intros HK Hd. destruct (quiet_runs _ _ D idle K 0 HK (qwp_enqueue_batch has_nul detail enforce whole base l D Hd))
    as (j & D' & t & r & Hrun & Hend).
  exists j, D', t, r. split; [done|]. unfold batch_end in Hend. cbn [fst] in Hend. destruct Hend as [(V' & rws & -> & [Hs _] & Hw & ->)|(Hdd & e & -> & He)]; simpl in *.
  - split; [by destruct D|]. destruct D as [dr db do dl]. simpl in *.
    destruct (refusals_in _ enforce l) as [|r0 rs] eqn:Er.
    + split; [done|]. by rewrite admitted_all in Hs.
    + split_and!; [done|done|by destruct whole; [specialize (Hw eq_refl)|]|done|]. by exists rws.
  - subst D'. split; [by destruct D|]. by destruct e.
Qed.

(** ** Caps of a call on its own *)

(** The pairs of an actor's items are no other actor's. *)
Definition own_pairs (who : string) (l : list EnqueueArgs) : Prop :=
  forall a b p, a ∈ l -> b ∈ l -> e_actor a = who -> pair_of a = Some p -> pair_of b = Some p -> e_actor b = who.

Lemma keyed_elem l b p :
  (b, p) ∈ cap_keyed_pairs l <-> exists a, a ∈ l /\ e_actor a = b /\ pair_of a = Some p /\ is_Some (e_max_pending a).
Proof.
  unfold cap_keyed_pairs. rewrite list_elem_of_omap. split.
  - intros (a & Ha & E). exists a. unfold cap_keyed in E. destruct (e_max_pending a); [|done].
    destruct (pair_of a); [|done]. injection E as <- <-. by split_and!; eauto.
  - intros (a & Ha & <- & Ep & [c Ec]). exists a. split; [done|]. unfold cap_keyed. by rewrite Ec, Ep.
Qed.

Lemma keyed_filter who l : filter (fun x => x.1 = who) (cap_keyed_pairs l) = keyed_of who l.
Proof.
  unfold keyed_of, cap_keyed_pairs. induction l as [|a l IH]; [done|]. rewrite filter_cons. cbn [omap list_omap].
  destruct (decide (of_who who a)) as [Hw|Hw]; unfold of_who in Hw.
  - cbn [omap list_omap]. destruct (cap_keyed a) as [[b p]|] eqn:E; [|done]. rewrite filter_cons_True; [by f_equal|].
    unfold cap_keyed in E. destruct (e_max_pending a), (pair_of a); naive_solver.
  - destruct (cap_keyed a) as [[b p]|] eqn:E; [|done]. rewrite filter_cons_False; [done|].
    unfold cap_keyed in E. destruct (e_max_pending a), (pair_of a); naive_solver.
Qed.

Lemma admitted_filter who rs l : who ∉ map cr_actor rs -> filter (of_who who) (admitted_args rs l) = filter (of_who who) l.
Proof.
  intros Hn. unfold admitted_args. induction l as [|a l IH]; [done|]. rewrite !filter_cons. destruct (decide (of_who who a)) as [Hw|Hw].
  - unfold of_who in Hw. rewrite decide_True by congruence. rewrite filter_cons_True by done. by f_equal.
  - destruct (decide _); [rewrite filter_cons_False by done|]; done.
Qed.

Lemma admitted_none who rs l : who ∈ map cr_actor rs -> filter (of_who who) (admitted_args rs l) = [].
Proof.
  intros Hn. unfold admitted_args. induction l as [|a l IH]; [done|]. rewrite filter_cons. destruct (decide _) as [Ha|Ha]; [|done].
  rewrite filter_cons_False; [done|]. unfold of_who. congruence.
Qed.

Lemma filter_capped who (l : list EnqueueArgs) :
  (forall a, a ∈ l -> e_actor a = who -> is_Some (e_max_pending a)) ->
  filter (capped_of who) l = filter (of_who who) l.
Proof.
  intros Hc. induction l as [|a l IH]; [done|].
  rewrite !filter_cons. rewrite IH by (intros; apply Hc; [by right|done]).
  destruct (decide (of_who who a)) as [Hw|Hw]; [rewrite decide_True; [done|split; [done|apply Hc; [left|done]]]|].
  rewrite decide_False; [done|]. by intros [? _].
Qed.

(** An actor the rule admits has room for its items that write. *)
Lemma admitted_room who D (l : list EnqueueArgs) a c :
  (forall b, b ∈ l -> e_actor b = who -> is_Some (e_max_pending b)) ->
  a ∈ l -> e_actor a = who -> e_max_pending a = Some c -> who ∉ map cr_actor (refusals_in D true l) ->
  queue_length who (rows D) + (Z.of_nat (length (filter (of_who who) l)) -
    deduped_for who (omap (fun x => row_pair x.2) (found_in (rows D) (map snd (cap_keyed_pairs l)))) (cap_keyed_pairs l)) <=
  effective_cap (overrides D) who c.
Proof.
  intros Hcap Ha Hw Hc Hn. pose proof (groups_get who l []) as Hg. cbv zeta in Hg. rewrite filter_capped in Hg by done.
  fold (batch_cap_groups l) in Hg. simpl (dict_get [] who) in Hg.
  destruct (dict_get (batch_cap_groups l) who) as [[m c']|] eqn:Eg.
  2: { destruct Hg as [_ Hg]. assert (Hin : a ∈ filter (of_who who) l) by (by apply list_elem_of_filter).
       destruct (filter (of_who who) l); [by apply not_elem_of_nil in Hin|done]. }
  destruct Hg as (-> & _ & Hmin). specialize (Hmin a c Ha Hw Hc). apply dict_get_elem in Eg.
  destruct (Z.leb_spec (queue_length who (rows D) + (Z.of_nat (length (filter (of_who who) l)) -
    deduped_for who (omap (fun x => row_pair x.2) (found_in (rows D) (map snd (cap_keyed_pairs l)))) (cap_keyed_pairs l)))
    (effective_cap (overrides D) who c')) as [Hle|Hgt].
  { unfold effective_cap in *. destruct (mjoin _); simpl in *; lia. }
  destruct Hn. unfold refusals_in, batch_cap_refusal_kernel. apply list_elem_of_fmap.
  eexists {| cr_actor := who; cr_current := queue_length who (rows D); cr_max := effective_cap (overrides D) who c' |}. split; [done|].
  apply list_elem_of_omap. eexists. split; [exact Eg|]. unfold refuse_group.
  rewrite bool_decide_eq_true_2 by (apply list_elem_of_fmap; by eexists (who, _)).
  destruct (Z.ltb_spec (effective_cap (overrides D) who c') (queue_length who (rows D) + (0 + Z.of_nat (length (filter (of_who who) l)) -
    deduped_for who (omap (fun x => row_pair x.2) (found_in (rows D) (map snd (cap_keyed_pairs l)))) (cap_keyed_pairs l)))); [done|lia].
Qed.

(** A batch enqueued alone keeps every cap.  When all items of an actor carry a cap and no
    other actor's item shares one of its idempotency pairs, the call leaves at most as many
    jobs of the actor waiting as its effective cap allows (the operator's override, else the
    strictest cap carried), or as many as there were, on every outcome of the call. *)
Theorem batch_cap_kept K whole base l D who a c :
  (forall i, cut (K i) = None) -> NoDup (map e_id l) ->
  (forall b, b ∈ l -> e_actor b = who -> is_Some (e_max_pending b)) -> own_pairs who l ->
  a ∈ l -> e_actor a = who -> e_max_pending a = Some c ->
  exists j D' t r, alone K 0 (_enqueue_batch has_nul detail FromPool true whole base l) D idle = Some (j, D', t, r) /\
    queue_length who (rows D') <= Z.max (queue_length who (rows D)) (effective_cap (overrides D) who c).
Proof.
  intros HK Hd Hcap Hown Ha Hw Hc.
  destruct (quiet_runs _ _ D idle K 0 HK (qwp_enqueue_batch has_nul detail true whole base l D Hd)) as (j & D' & t & r & Hrun & Hend).
  exists j, D', t, r. split; [done|]. unfold batch_end in Hend. cbn [fst] in Hend. destruct Hend as [(V' & rws & -> & [_ Hi] & _ & _)|(-> & _)]; [|simpl; lia].
  replace (rows (D <| rows := V' |>)) with V' by (by destruct D).
  destruct Hi as [->|(k & s0 & s' & new & E & E0 & ->)]; [lia|]. simpl in E.
  set (stored := omap (fun x => row_pair x.2) (found_in (rows D) (map snd (cap_keyed_pairs l)))).
  apply (insert_many_count who _ _ _ _ _ _ _ stored) in E.
  - unfold visible in E. rewrite E0, (left_id_L ∅ (∪)) in E.
    destruct (decide (who ∈ map cr_actor (refusals_in D true l))) as [Hr|Hr].
    + unfold keyed_of in E. rewrite admitted_none in E by done. simpl in E. lia.
    + pose proof (admitted_room who D l a c Hcap Ha Hw Hc Hr) as Hroom. fold stored in Hroom.
      unfold keyed_of in E. rewrite admitted_filter in E by done. fold (keyed_of who l) in E. rewrite <- keyed_filter in E.
      rewrite (deduped_filter who stored stored) in Hroom; [lia| |done].
      intros b p (x & Hx & Hxw & Hxp & _)%keyed_elem (y & Hy & <- & Hyp & _)%keyed_elem. by eapply (Hown x y).
  - intros b [_ Hb]%list_elem_of_filter. by apply Hcap.
  - intros b p _ _ Hp (x & [Hx _]%elem_of_found & Hxp)%list_elem_of_omap. exists p, x.1, x.2.
    split_and!; [done| |done]. unfold visible. by rewrite E0, (left_id_L ∅ (∪)).
Qed.
End claims.

(** ** Small batches *)

Definition item (id : Z) (who : string) (cap : option Z) (key : option string) : EnqueueArgs :=
  (default_args id who "q") <| e_max_pending := cap |> <| e_idempotency_key := key |>.

Definition ticks (i j : nat) : Z := Z.of_nat (10 * i + j).

(** A call of the pool on a store: the store it leaves, and its answer with the ids only. *)
Definition batch_run (K : nat -> luck) (D : store) (l : list EnqueueArgs) : option (store * result exn (list Z)) :=
  match @alone b64_rounding _ K 0 (_enqueue_batch clean None FromPool true false 0 l) D idle with
  | Some (_, D', _, Ok rws) => Some (D', Ok (map fst rws))
  | Some (_, D', _, Err e) => Some (D', Err e)
  | None => None
  end.

Definition batch_store (D : store) (l : list EnqueueArgs) : store :=
  match batch_run (calm ticks) D l with Some (D', _) => D' | None => D end.

Definition mixed_batch : list EnqueueArgs := [item 1 "a" None None; item 2 "b" (Some 1) None; item 3 "b" (Some 1) None].

Lemma batch_outcome_witness :
  batch_run (calm ticks) empty_store mixed_batch =
    Some (batch_store empty_store mixed_batch,
          Err (BatchMaxPendingExceeded [{| cr_actor := "b"; cr_current := 0; cr_max := 1 |}] [("b"%string, [1%nat; 2%nat])] 1)) /\
  exists j D' t r, @alone b64_rounding _ (calm ticks) 0 (_enqueue_batch clean None FromPool true false 0 mixed_batch) empty_store idle =
      Some (j, D', t, r) /\
    D' = empty_store <| rows := rows D' |> /\
    match r with
    | Ok rws => refusals_in empty_store true mixed_batch = [] /\ @settled b64_rounding mixed_batch (rows empty_store) (rows D') rws
    | Err (BatchMaxPendingExceeded rs refused n) =>
        rs = refusals_in empty_store true mixed_batch /\ rs <> [] /\ false = false /\ refused = refused_positions rs mixed_batch /\
        exists rws, n = length rws /\ @settled b64_rounding (admitted_args rs mixed_batch) (rows empty_store) (rows D') rws
    | Err RuntimeError => False
    | Err _ => rows D' = rows empty_store
    end.
Proof.
  split; [vm_compute; reflexivity|].
  apply (@batch_outcome b64_rounding clean None (calm ticks) true false 0 mixed_batch empty_store); [done|].
  apply (bool_decide_unpack _). vm_compute. exact I.
Defined.

Definition capped_batch : list EnqueueArgs := [item 1 "b" (Some 2) (Some "k"%string); item 2 "b" (Some 2) (Some "k"%string); item 3 "b" (Some 2) None].

Lemma batch_cap_kept_witness :
  queue_length "b" (rows (batch_store empty_store capped_batch)) = 2 /\
  exists j D' t r, @alone b64_rounding _ (calm ticks) 0 (_enqueue_batch clean None FromPool true false 0 capped_batch) empty_store idle =
      Some (j, D', t, r) /\
    queue_length "b" (rows D') <= Z.max (queue_length "b" (rows empty_store)) (effective_cap (overrides empty_store) "b" 2).
Proof.
  split; [vm_compute; reflexivity|].
  apply (@batch_cap_kept b64_rounding clean None (calm ticks) false 0 capped_batch empty_store "b" (item 3 "b" (Some 2) None)); try done.
  - apply (bool_decide_unpack _). vm_compute. exact I.
  - intros b Hb _. unfold capped_batch in Hb. rewrite !elem_of_cons, elem_of_nil in Hb.
    destruct Hb as [->|[->|[->|[]]]]; by eexists.
  - intros x y p _ Hy _ _ _. unfold capped_batch in Hy. rewrite !elem_of_cons, elem_of_nil in Hy.
    by destruct Hy as [->|[->|[->|[]]]].
  - right; right; left.
Defined.

(** A refused actor's pair can lift another actor over its cap.  With one job of actor b
    waiting under a cap of 1, a batch of an item of a (cap 0, pair k) and an item of b (cap
    1, the same pair k) admits b's item: the rule discounts it as a repeat of a's, then
    drops a's, and b's item is written.  Two jobs of b wait under a cap of 1. *)
Theorem batch_cap_overrun :
  let D := batch_store empty_store [item 9 "b" (Some 1) None] in
  let l := [item 1 "a" (Some 0) (Some "k"%string); item 2 "b" (Some 1) (Some "k"%string)] in
  queue_length "b" (rows D) = 1 /\
  queue_length "b" (rows (batch_store D l)) = 2 /\
  option_map snd (batch_run (calm ticks) D l) =
    Some (Err (BatchMaxPendingExceeded [{| cr_actor := "a"; cr_current := 0; cr_max := 0 |}] [("a"%string, [0%nat])] 1)).
Proof. vm_compute. done. Qed.

(** A bulk enqueue whose COMMIT lands but is not acknowledged, the driver reporting its connection
    as parked, is run again and reports its
    own rows against itself: a batch of one item at a cap of 1 raises the partition refusal
    with the item refused and nothing admitted, a batch of one uncapped item the raw
    primary-key violation; in both the row is committed. *)
Theorem lost_commit_misreported :
  (exists D, batch_run (cut_at ticks 6 true true) empty_store [item 1 "b" (Some 1) None] =
     Some (D, Err (BatchMaxPendingExceeded [{| cr_actor := "b"; cr_current := 1; cr_max := 1 |}] [("b"%string, [0%nat])] 0)) /\
     map fst (in_order (rows D)) = [1]) /\
  (exists D, batch_run (cut_at ticks 4 true true) empty_store [item 1 "b" None None] =
     Some (D, Err (UniqueViolationError jobs_pkey)) /\ map fst (in_order (rows D)) = [1]).
Proof.
  split.
  - exists (match batch_run (cut_at ticks 6 true true) empty_store [item 1 "b" (Some 1) None] with Some (D, _) => D | None => empty_store end).
    split; vm_compute; reflexivity.
  - exists (match batch_run (cut_at ticks 4 true true) empty_store [item 1 "b" None None] with Some (D, _) => D | None => empty_store end).
    split; vm_compute; reflexivity.
Qed.

(** ** On a bare connection of the caller's *)

(** A call on the caller's connection outside a transaction. *)
Definition given_run (D : store) (l : list EnqueueArgs) : option (result exn (list (Z * stored))) :=
  option_map snd (@alone b64_rounding _ (calm ticks) 0 (_enqueue_batch clean None GivenConnection true false 0 l) D idle).

(** A key held under another scope while the legacy index is there. *)
Definition legacy_store : store := batch_store (empty_store <| legacy_index := true |>) [item 9 "a" None (Some "k"%string)].

Definition rescoped (cap : option Z) : list EnqueueArgs :=
  [(item 1 "a" cap (Some "k"%string)) <| e_idempotency_scope := "other"%string |>].

(** A capped batch on a bare connection of the caller's lets the internal marker of a legacy
    conflict escape, where the same batch without a cap raises the public error. *)
Theorem legacy_marker_escapes :
  given_run legacy_store (rescoped (Some 5)) = Some (Err LegacyIdempotencyKeyConflict) /\
  given_run legacy_store (rescoped None) = Some (Err ScopedIdempotencyMigrationPending).
Proof. split; vm_compute; reflexivity. Qed.

(** On a bare connection of the caller's an uncapped COPY without a batch stamp commits before
    its corrective UPDATE: when the connection dies between the two, a job for time 5000 is
    committed as due at 10. *)
Theorem copy_half_fixed :
  match @alone b64_rounding _ (cut_at ticks 2 false true) 0
          (_enqueue_batch_fast clean None GivenConnection true 0 [(item 1 "a" None None) <| e_scheduled_at := Some 5000 |>])
          empty_store idle with
  | Some (_, D, _, r) =>
      r = Err InternalClientError /\
      map (fun x => (x.1, row_status x.2, scheduled_at (s_job x.2))) (in_order (rows D)) = [(1, scheduled, 10)]
  | None => False
  end.
Proof. vm_compute. done. Qed.
