(* ===== verification/EnqueueCopy.v ===== *)
(** * What a COPY does

    One call of [_enqueue_batch_fast] from the pool, nobody else connected: its outcome on
    every branch, the rows it leaves, and the pair it names when an index refuses it. *)

From Stdlib Require Import ZArith Lia QArith.
From stdpp Require Import base tactics list gmap strings.
From S2P Require Import Prelude PyText PyFloat Retry JobRow Reservation ReservationProps Workflow Dispatch EnqueueArgs Session SessionProps Enqueue EnqueueNet EnqueueLogic EnqueueDemo EnqueueRace EnqueueAlone EnqueueBatch EnqueueQuiet EnqueueBulk EnqueueBulkCap.

Open Scope Z_scope.

(** ** Rows copied, rows fixed *)

Section copied.
Context `{Rounding}.

(** The clock of an INSERT that writes what the corrective UPDATE writes. *)
Definition reordered (c : nat -> Z) (i : nat) : Z :=
  match i with 2%nat => c 3%nat | 3%nat => c 2%nat | _ => c i end.

Lemma fixed_copied now c a : fixed_row c a (copied_row now a) = enqueued_row now (reordered c) a.
Proof. done. Qed.

Lemma fixup_other k i l V m id : id ∉ map e_id l -> fixup_many k i l V m !! id = m !! id.
Proof.
  revert i m. induction l as [|a l IH]; intros i m; simpl; [done|]. intros [Hn Hl]%not_elem_of_cons.
  rewrite IH by done. destruct (V !! e_id a); [|done]. by rewrite lookup_insert_ne.
Qed.

Lemma fixup_item k i l V m a r :
  NoDup (map e_id l) -> a ∈ l -> V !! e_id a = Some r -> exists c, fixup_many k i l V m !! e_id a = Some (fixed_row c a r).
Proof.
  revert i m. induction l as [|b l IH]; intros i m; simpl; [by intros _ ?%not_elem_of_nil|].
  intros [Hn Hd]%NoDup_cons [->|Ha]%elem_of_cons Hr; [|by apply IH].
  rewrite fixup_other by done. rewrite Hr, lookup_insert_eq. by eexists.
Qed.

(** ** Pairs *)

Definition holds (p : string * string) (V : gmap Z stored) : Prop := exists id r, V !! id = Some r /\ row_pair r = Some p.

(** No pair of the list is held, nor twice in it. *)
Definition unrepeated (V : gmap Z stored) (l : list EnqueueArgs) : Prop :=
  NoDup (omap pair_of l) /\ forall p, p ∈ omap pair_of l -> ~ holds p V.

(** The first item a list repeats a pair at. *)
Definition repeats_at (V : gmap Z stored) (l l1 : list EnqueueArgs) (a : EnqueueArgs) (p : string * string) : Prop :=
  (exists l2, l = l1 ++ a :: l2) /\ unrepeated V l1 /\ pair_of a = Some p /\ (holds p V \/ p ∈ omap pair_of l1).

Lemma unrepeated_snoc V l a :
  unrepeated V l -> (forall p, pair_of a = Some p -> ~ holds p V /\ p ∉ omap pair_of l) -> unrepeated V (l ++ [a]).
Proof.
  intros [Hd Hh] Ha. unfold unrepeated. rewrite omap_app. cbn [omap list_omap]. destruct (pair_of a) as [p|]; [|by rewrite app_nil_r].
  destruct (Ha p eq_refl) as [H1 H2]. split.
  - apply NoDup_app. split_and!; [done| |apply NoDup_singleton]. intros q Hq ->%list_elem_of_singleton. done.
  - intros q [Hq| ->%list_elem_of_singleton]%elem_of_app; auto.
Qed.

Lemma check_indexes_fails ix V c :
  check_indexes ix V [] = Fails (UniqueViolationError c) -> exists p, (c, p) ∈ ix /\ existsb p (in_order V) = true.
Proof.
  induction ix as [|[c' p'] ix IH]; simpl; [done|]. rewrite judge_alone. destruct (existsb p' _) eqn:E.
  - intros [= ->]. exists p'. split; [left|done].
  - intros Hf. destruct (IH Hf) as (p & ? & ?). exists p. split; [by right|done].
Qed.

Lemma check_indexes_done ix V :
  check_indexes ix V [] = Done () -> forall c p, (c, p) ∈ ix -> existsb p (in_order V) = false.
Proof.
  induction ix as [|[c' p'] ix IH]; simpl; [by intros _ ?? ?%not_elem_of_nil|]. rewrite judge_alone.
  destruct (existsb p' _) eqn:E; [done|]. intros Hd c p [[= -> ->]|Hin]%elem_of_cons; [done|]. by eapply IH.
Qed.

Lemma on_pair_holds a V : existsb (on_pair a) (in_order V) = true <-> exists p, pair_of a = Some p /\ holds p V.
Proof.
  rewrite existsb_exists. split.
  - intros ([id r] & Hin & Hp). apply list_elem_of_In, elem_of_in_order in Hin. unfold on_pair in Hp.
    destruct (pair_of a) as [p|]; [|done]. apply bool_decide_eq_true in Hp. exists p. split; [done|]. by exists id, r.
  - intros (p & Ep & id & r & Hr & Hp). exists (id, r). split; [by apply list_elem_of_In, elem_of_in_order|].
    unfold on_pair. rewrite Ep. by apply bool_decide_eq_true.
Qed.

(** The indexes of a COPY. *)
Definition copy_indexes (D : store) (a : EnqueueArgs) : list (constraint * (Z * stored -> bool)) :=
  indexes (legacy_index D) a ++ [(jobs_idempotency_scope_key_uniq, on_pair a)].

Lemma copy_admits D a V :
  check_indexes (copy_indexes D a) V [] = Done () ->
  V !! e_id a = None /\ forall p, pair_of a = Some p -> ~ holds p V.
Proof.
  intros Hd. pose proof (check_indexes_done _ _ Hd) as Hc. split.
  - specialize (Hc jobs_pkey (on_id a) ltac:(left)). rewrite existsb_false_iff in Hc.
    destruct (V !! e_id a) as [r|] eqn:Er; [|done]. specialize (Hc (e_id a, r) ltac:(by apply elem_of_in_order)).
    unfold on_id in Hc. simpl in Hc. zbool. done.
  - intros p Ep Hh. specialize (Hc jobs_idempotency_scope_key_uniq (on_pair a)).
    assert (Ht : existsb (on_pair a) (in_order V) = true) by (apply on_pair_holds; by exists p).
    rewrite Hc in Ht; [done|]. unfold copy_indexes. apply elem_of_app. right. left.
Qed.

Lemma copy_refuses_pair D a V :
  check_indexes (copy_indexes D a) V [] = Fails (UniqueViolationError jobs_idempotency_scope_key_uniq) ->
  exists p, pair_of a = Some p /\ holds p V.
Proof.
  intros (q & Hin & Hq)%check_indexes_fails. unfold copy_indexes, indexes in Hin.
  assert (q = on_pair a) as -> by (destruct (legacy_index D); simpl in Hin; rewrite !elem_of_cons, elem_of_nil in Hin; naive_solver).
  by apply on_pair_holds in Hq.
Qed.
(** ** The COPY of a list *)

Lemma holds_insert p V id r : V !! id = None -> holds p (<[id := r]> V) <-> row_pair r = Some p \/ holds p V.
Proof.
  intros Hn. split.
  - intros (i & q & [[<- <-]|[_ Hq]]%lookup_insert_Some & Hp); [by left|]. right. by exists i, q.
  - intros [Hp|(i & q & Hq & Hp)].
    + exists id, r. by rewrite lookup_insert_eq.
    + exists i, q. rewrite lookup_insert_ne; [done|]. congruence.
Qed.

(** Every item in place, nothing else changed; [row] says how an item's row reads. *)
Definition placed (row : EnqueueArgs -> stored -> Prop) (l : list EnqueueArgs) (V V' : gmap Z stored) : Prop :=
  (forall a, a ∈ l -> V !! e_id a = None /\ exists r, V' !! e_id a = Some r /\ row a r) /\
  (forall id, id ∉ map e_id l -> V' !! id = V !! id).

Lemma placed_cons (row : EnqueueArgs -> stored -> Prop) a l V V' r :
  V !! e_id a = None -> row a r -> placed row l (<[e_id a := r]> V) V' -> placed row (a :: l) V V'.
Proof.
  intros Hn Hr [Hl Ho].
  assert (Hnot : e_id a ∉ map e_id l).
  { intros (b & E & Hb)%list_elem_of_fmap. destruct (Hl b Hb) as [Hb' _]. by rewrite <- E, lookup_insert_eq in Hb'. }
  split.
  - intros b [->|Hb]%elem_of_cons.
    + split; [done|]. exists r. split; [|done]. rewrite Ho by done. apply lookup_insert_eq.
    + destruct (Hl b Hb) as [Hb1 Hb2]. split; [|done]. by apply lookup_insert_None in Hb1 as [? _].
  - intros id [Hi Hil]%not_elem_of_cons. rewrite Ho by done. by rewrite lookup_insert_ne.
Qed.

Lemma copy_many_lone D k V0 pre l s :
  unrepeated V0 pre -> (forall p, holds p (visible D s) <-> holds p V0 \/ p ∈ omap pair_of pre) ->
  match copy_many (lone D) k l s with
  | Done (s', n) =>
      n = length l /\ s' = s <| own := own s' |> /\
      placed (fun a r => r = copied_row (transaction_now k s) a) l (visible D s) (visible D s')
  | Fails e => exists c, e = UniqueViolationError c /\
      (c = jobs_idempotency_scope_key_uniq ->
       exists l1 a p, repeats_at V0 (pre ++ l) (pre ++ l1) a p)
  | Blocked => False
  end.
Proof.
  revert pre s. induction l as [|a l IH]; intros pre s Hu Hh; cbn [copy_many].
  - split_and!; [done|by destruct s|]. split; [by intros ? ?%not_elem_of_nil|done].
  - cbn [committed foreign lone]. change (foreign_rows []) with (@nil (Z * stored)). fold (copy_indexes D a).
    pose proof (check_indexes_lone (copy_indexes D a) (visible D s)) as Hl.
    destruct (check_indexes (copy_indexes D a) (visible D s) []) as [|e|[]] eqn:Ec; [done| |].
    + destruct Hl as [c ->]. exists c. split; [done|]. intros ->. apply copy_refuses_pair in Ec as (p & Ep & Hp).
      exists [], a, p. rewrite app_nil_r. split_and!; [by exists l|done|done|by apply Hh].
    + apply copy_admits in Ec as [Hn Hp]. set (row := copied_row (transaction_now k s) a).
      specialize (IH (pre ++ [a]) (s <| own ::= fun m => <[e_id a := row]> m |>)).
      change (s <| own ::= fun m => <[e_id a := row]> m |>) with (s <| own ::= <[e_id a := row]> |>) in *.
      rewrite visible_put in IH. ospecialize (IH _ _).
      { apply unrepeated_snoc; [done|]. intros p Ep. specialize (Hp p Ep). rewrite Hh in Hp. tauto. }
      { intros p. rewrite holds_insert, Hh, omap_app, elem_of_app by done. change (row_pair row) with (pair_of a).
        cbn [omap list_omap]. destruct (pair_of a); rewrite ?list_elem_of_singleton, ?elem_of_nil; naive_solver. }
      assert (Et : transaction_now k (s <| own ::= <[e_id a := row]> |>) = transaction_now k s) by (by destruct s).
      destruct (copy_many (lone D) k l _) as [|e|[s' n]]; [done| |].
      * destruct IH as (c & -> & Hr). exists c. split; [done|]. intros Hc. destruct (Hr Hc) as (l1 & b & p & Hrep).
        exists (a :: l1), b, p. by rewrite <- !(assoc_L (++)) in Hrep.
      * destruct IH as (-> & Es & Hpl). split_and!; [done|rewrite Es; by destruct s|]. rewrite Et in Hpl.
        by apply (placed_cons _ a l _ _ row).
Qed.

(** After the corrective UPDATE. *)
Lemma placed_fixed k now l m V m' D :
  NoDup (map e_id l) -> V = m ∪ rows D ->
  placed (fun a r => r = copied_row now a) l V (m' ∪ rows D) ->
  placed row_of l V (fixup_many k 0 l (m' ∪ rows D) m' ∪ rows D).
Proof.
  intros Hd -> [Hl Ho]. split.
  - intros a Ha. destruct (Hl a Ha) as (Hn & r & Hr & ->). split; [done|].
    destruct (fixup_item k 0 l _ m' a _ Hd Ha Hr) as [c Hc]. rewrite fixed_copied in Hc.
    eexists. split; [by apply lookup_union_Some_l|]. by eexists _, _.
  - intros id Hid. rewrite <- Ho by done. rewrite !lookup_union, fixup_other by done. done.
Qed.
End copied.

(** ** Naming the pair *)

Section attribution.
Context `{Rounding}.

Lemma first_duplicate_at seen l1 a l2 p :
  NoDup (omap pair_of l1) -> (forall q, q ∈ omap pair_of l1 -> q ∉ seen) -> pair_of a = Some p ->
  p ∈ seen \/ p ∈ omap pair_of l1 -> first_duplicate seen (l1 ++ a :: l2) = Some p.
Proof.
  revert seen. induction l1 as [|b l1 IH]; intros seen Hd Hs Hp Hor; cbn [app first_duplicate].
  - rewrite Hp. destruct Hor as [Hor|Hor]; [|by apply not_elem_of_nil in Hor]. by rewrite bool_decide_eq_true_2.
  - cbn [omap list_omap] in Hd, Hs, Hor. destruct (pair_of b) as [q|] eqn:Eb; [|by apply IH].
    apply NoDup_cons in Hd as [Hn Hd]. rewrite bool_decide_eq_false_2 by (apply Hs; left). apply IH; [done| |done|].
    + intros r Hr [->|?]%elem_of_cons; [done|]. by apply (Hs r); [right|].
    + destruct Hor as [?|[->|?]%elem_of_cons]; [left; by right|left; left|by right].
Qed.

Definition with_pair (p : string * string) (l : list EnqueueArgs) : list EnqueueArgs := filter (fun a => pair_of a = Some p) l.

Lemma with_pair_none p l : p ∉ omap pair_of l -> with_pair p l = [].
Proof.
  intros Hn. unfold with_pair. induction l as [|b l IH]; [done|]. cbn [omap list_omap] in Hn.
  destruct (pair_of b) as [q|] eqn:Eb.
  - apply not_elem_of_cons in Hn as [Hq Hn]. rewrite filter_cons_False by congruence. auto.
  - rewrite filter_cons_False by congruence. auto.
Qed.

Lemma with_pair_one p l : NoDup (omap pair_of l) -> p ∈ omap pair_of l -> exists b, b ∈ l /\ pair_of b = Some p /\ with_pair p l = [b].
Proof.
  unfold with_pair. induction l as [|b l IH]; cbn [omap list_omap]; [by intros _ ?%not_elem_of_nil|].
  destruct (pair_of b) as [q|] eqn:Eb.
  - intros [Hn Hd]%NoDup_cons [->|Hp]%elem_of_cons.
    + exists b. split_and!; [left|done|]. rewrite filter_cons_True by done. f_equal. by apply with_pair_none.
    + destruct (IH Hd Hp) as (c & Hc & Ec & E). exists c. split_and!; [by right|done|].
      rewrite filter_cons_False; [done|]. intros Hx. apply Hn. congruence.
  - intros Hd Hp. destruct (IH Hd Hp) as (c & Hc & Ec & E). exists c. split_and!; [by right|done|].
    by rewrite filter_cons_False by congruence.
Qed.

(** Who holds the pair an item repeats: a stored row, or an earlier item. *)
Definition holder_is (V : gmap Z stored) (l1 : list EnqueueArgs) (p : string * string) (who : string) (id : option Z) : Prop :=
  (exists i r, V !! i = Some r /\ row_pair r = Some p /\ who = row_actor r /\ id = Some i) \/
  (~ holds p V /\ id = None /\ exists b, b ∈ l1 /\ pair_of b = Some p /\ who = e_actor b).

(** What the error of a refused COPY says. *)
Definition named_right (V : gmap Z stored) (l : list EnqueueArgs) (e : exn) : Prop :=
  match e with
  | DuplicateIdempotencyKey o => exists l1 a p id, repeats_at V l l1 a p /\ o = Some p /\ holder_is V l1 p (e_actor a) id
  | IdempotencyKeyActorMismatch who id => exists l1 a p, repeats_at V l l1 a p /\ who <> e_actor a /\ holder_is V l1 p who id
  | _ => True
  end.

Lemma found_stored V l q :
  q ∈ omap pair_of l -> q ∈ omap (fun x : Z * stored => row_pair x.2) (found_in V (omap pair_of l)) <-> holds q V.
Proof.
  intros Hq. rewrite list_elem_of_omap. split.
  - intros (x & [Hx _]%elem_of_found & Hp). by exists x.1, x.2.
  - intros (id & r & Hr & Hp). exists (id, r). split; [|done]. apply elem_of_found. split; [done|]. by exists q.
Qed.

Lemma mismatch_named V l l1 a p :
  repeats_at V l l1 a p ->
  let holder := find_pair p (found_in V (omap pair_of l)) in
  named_right V l
    match duplicate_pair_actor_mismatch l p (option_map (fun x => row_actor x.2) holder) with
    | Some (_, existing) => IdempotencyKeyActorMismatch existing (option_map fst holder)
    | None => DuplicateIdempotencyKey (Some p)
    end.
Proof.
  intros Hrep holder. pose proof Hrep as ((l2 & ->) & [Hd Hh] & Ep & Hor). unfold duplicate_pair_actor_mismatch.
  fold (with_pair p (l1 ++ a :: l2)).
  assert (Hf : with_pair p (l1 ++ a :: l2) = with_pair p l1 ++ a :: with_pair p l2).
  { unfold with_pair. by rewrite filter_app, filter_cons_True. }
  assert (Hpl : p ∈ omap pair_of (l1 ++ a :: l2)) by (apply list_elem_of_omap; exists a; split; [apply elem_of_app; right; left|done]).
  rewrite Hf. subst holder. destruct (find_pair p _) as [x|] eqn:Ex; cbn [option_map].
  - apply find_pair_some in Ex as [[Hx _]%elem_of_found Hxp].
    rewrite (with_pair_none p l1) by (intros Hin; apply (Hh p Hin); by exists x.1, x.2). cbn [app map].
    destruct (map e_actor (with_pair p l2)); case_bool_decide as Ha.
    1, 3: exists l1, a, p, (Some x.1); split_and!; [done|done|]; left; by exists x.1, x.2.
    all: exists l1, a, p; split_and!; [done|by intros ?; apply Ha|]; left; by exists x.1, x.2.
  - assert (Hno : ~ holds p V).
    { intros (i & r & Hr & Hp). destruct (find_pair_is p (found_in V (omap pair_of (l1 ++ a :: l2))) (i, r)) as [y Hy]; [|done|congruence].
      apply elem_of_found. split; [done|]. by exists p. }
    destruct (with_pair_one p l1 Hd) as (b & Hb & Eb & ->); [by destruct Hor|]. cbn [app map].
    case_bool_decide as Ha.
    + exists l1, a, p, None. split_and!; [done|done|]. right. split_and!; [done|done|]. by exists b.
    + exists l1, a, p. split_and!; [done|by intros ?; apply Ha|]. right. split_and!; [done|done|]. by exists b.
Qed.

Context (detail : option string).

Lemma qwp_attribute_copy l l1 a p Q D t vs :
  fit vs ∅ (conn t) -> vs <> [] -> repeats_at (rows D) l l1 a p ->
  (let holder := find_pair p (found_in (rows D) (omap pair_of l)) in
   Q (Ok {| cd_pair := Some p; cd_actor := option_map (fun x => row_actor x.2) holder; cd_job := option_map fst holder |}) (D, t)) ->
  qwp (_attribute_copy_duplicate detail l) Q (D, t).
Proof.
  intros Hf Hvs Hrep HQ. unfold _attribute_copy_duplicate. apply qwp_bind.
  apply (qwp_fetch_some _ _ D t vs ∅); [done|done|]. rewrite (left_id_L ∅ (∪)).
  unfold first_duplicate_idempotency_pair. destruct Hrep as ((l2 & E) & [Hd Hh] & Ep & Hor).
  assert (Hin : forall q, q ∈ omap pair_of l1 -> q ∈ omap pair_of l).
  { intros q Hq. rewrite E, omap_app, elem_of_app. by left. }
  assert (Hp : p ∈ omap pair_of l) by (apply list_elem_of_omap; exists a; split; [rewrite E; apply elem_of_app; right; left|done]).
  pattern l at 2. rewrite E. erewrite first_duplicate_at; [exact HQ|done| |exact Ep|].
  - intros q Hq. rewrite found_stored by auto. auto.
  - rewrite found_stored by done. done.
Qed.
End attribution.

(** ** The program *)

Section program.
Context `{Rounding}.
Context (has_nul : jobj -> bool) (detail : option string).

Lemma unrepeated_nil V : unrepeated V [].
Proof. split; [constructor|by intros p ?%not_elem_of_nil]. Qed.

Lemma qwp_copy l Q D t vs :
  fit vs ∅ (conn t) -> vs <> [] ->
  (forall now s', placed (fun a r => r = copied_row now a) l (rows D) (own s' ∪ rows D) -> fit vs (own s') s' ->
     Q (Ok (length l)) (D, on_conn t s')) ->
  (forall c s', (c = jobs_idempotency_scope_key_uniq -> exists l1 a p, repeats_at (rows D) l l1 a p) -> held vs ∅ s' ->
     Q (Err (UniqueViolationError c)) (D, on_conn t s')) ->
  qwp (ask (CopyRecords l)) Q (D, t).
Proof.
  intros Hf Hvs HQ HE. eapply qwp_sql; try done. intros k _. cbn [perform].
  pose proof (copy_many_lone D k (rows D) [] l (conn t) (unrepeated_nil _)) as Hc. ospecialize (Hc _).
  { intros p. rewrite (visible_fit D vs ∅) by apply Hf. rewrite (left_id_L ∅ (∪)). cbn. set_solver. }
  destruct (copy_many (lone D) k l (conn t)) as [|e|[s' n]]; [done| |].
  - destruct Hc as (c & -> & Hr). intros s' Hs'. apply HE; [|done]. intros ->. destruct (Hr eq_refl) as (l1 & a & p & Hrep).
    by exists l1, a, p.
  - destruct Hc as (-> & Es & Hp).
    assert (Hf' : fit vs (own s') s') by (rewrite Es; destruct Hf as [(? & ? & ?) ?]; by destruct (conn t)).
    split; [apply Hf'|]. rewrite (visible_fit D vs ∅) in Hp by apply Hf. rewrite (left_id_L ∅ (∪)) in Hp. by eapply HQ.
Qed.

Lemma repeats_keyed V l l1 a p : repeats_at V l l1 a p -> keyed_batch l = true.
Proof.
  intros ((l2 & ->) & _ & Ep & _). unfold keyed_batch. apply existsb_exists. exists a. split.
  - apply in_or_app. right. left. done.
  - unfold pair_of in Ep. by destruct (e_idempotency_key a).
Qed.

(** The handler of a violation, its scope rolled back. *)
Lemma qwp_copy_handler l (Q : result exn nat -> store * task -> Prop) D t v c :
  held [v] ∅ (conn t) -> (keyed_batch l = true -> poisoned (conn t) = false) ->
  (c = jobs_idempotency_scope_key_uniq -> exists l1 a p, repeats_at (rows D) l l1 a p) ->
  (forall e, plain_error e = true -> named_right (rows D) l e -> Q (Err e) (D, t)) ->
  qwp (match UniqueViolationError c with
       | UniqueViolationError jobs_idempotency_key_uniq => Raise ScopedIdempotencyMigrationPending
       | UniqueViolationError jobs_idempotency_scope_key_uniq =>
           let! dup := _attribute_copy_duplicate detail l in
           match cd_pair dup ≫= (fun p => duplicate_pair_actor_mismatch l p (cd_actor dup)) with
           | Some (_, existing) => Raise (IdempotencyKeyActorMismatch existing (cd_job dup))
           | None => Raise (DuplicateIdempotencyKey (cd_pair dup))
           end
       | UniqueViolationError jobs_singleton_uniq =>
           let! who := _attribute_singleton_collision detail l in Raise (SingletonCollision who None None)
       | _ => Raise (UniqueViolationError c)
       end : prog nat) Q (D, t).
Proof.
  intros Hh Hp Hr HQ. destruct c; [by apply HQ|by apply HQ| |].
  - apply qwp_bind. eapply qwp_attribute_singleton; [done|done| |by apply HQ]. intros who. by apply HQ.
  - destruct (Hr eq_refl) as (l1 & a & p & Hrep). apply qwp_bind.
    apply (qwp_attribute_copy detail l l1 a p _ D t [v]); [split; [done|by eapply Hp, repeats_keyed]|done|done|].
    cbn [cd_pair cd_actor cd_job]. simpl (_ ≫= _). pose proof (mismatch_named _ _ _ _ _ Hrep) as Hn. cbv zeta in Hn.
    destruct (duplicate_pair_actor_mismatch l p _) as [[inc ex]|]; by apply HQ.
Qed.

Lemma qwp_copy_admitted l Q D t v :
  fit [v] ∅ (conn t) -> NoDup (map e_id l) ->
  (forall m s', placed row_of l (rows D) (m ∪ rows D) -> fit [v] m s' -> Q (Ok (length l)) (D, on_conn t s')) ->
  (forall e s', plain_error e = true -> named_right (rows D) l e -> held [v] ∅ s' -> Q (Err e) (D, on_conn t s')) ->
  qwp (copy_admitted detail l) Q (D, t).
Proof.
  intros Hf Hd HQ HE. unfold copy_admitted. apply qwp_bind, qwp_catch.
  assert (Hfix : forall now s', placed (fun a r => r = copied_row now a) l (rows D) (own s' ∪ rows D) -> fit [v] (own s') s' ->
    qwp (let! _ := ask (Fixup l) in Ret (length l)) Q (D, on_conn t s')).
  { intros now s' Hp Hs'. apply qwp_bind. eapply qwp_sql; try done. intros k _. cbn [perform]. split; [apply Hs'|].
    apply (HQ (fixup_many k 0 l (own s' ∪ rows D) (own s'))).
    - apply (placed_fixed k now l ∅); [done| |done]. by rewrite (left_id_L ∅ (∪)).
    - destruct Hs' as [(? & ? & ?) ?]. destruct s'. done. }
  unfold _optional_savepoint. destruct (keyed_batch l || singleton_batch l) eqn:Es.
  - apply (qwp_savepoint _ _ D t [v] ∅); [done|done|]. intros v' s Hs.
    apply (qwp_copy l _ D _ (v' :: [v])); [done|done| |].
    + intros now s' Hp Hs'. split; [done|]. exists (own s'). split; [done|]. intros s1 Hs1.
      pose proof Hs1 as [(_ & Eo & _) _]. apply (Hfix now); by rewrite Eo.
    + intros c s' Hr Hs'. split; [done|]. split; [by exists ∅|]. intros s1 Hs1.
      apply (qwp_copy_handler l _ D _ v c); [apply Hs1|by destruct Hs1|done|]. intros e He Hn. eapply HE; [done|done|apply Hs1].
  - apply orb_false_iff in Es as [Ek _]. apply (qwp_copy l _ D _ [v]); [done|done| |].
    + intros now s' Hp Hs'. by eapply Hfix.
    + intros c s' Hr Hs'. apply (qwp_copy_handler l _ D _ v c); [done|by rewrite Ek|done|]. intros e He Hn. by eapply HE.
Qed.
(** Every way a quiet call ends. *)
Definition fast_end (D : store) (enforce : bool) (l : list EnqueueArgs) (D' : store) (r : result exn nat) : Prop :=
  let rs := refusals_in D enforce l in
  let kept := admitted_args rs l in
  (exists V', D' = D <| rows := V' |> /\ placed row_of kept (rows D) V' /\
     r = match rs with [] => Ok (length kept) | _ => Err (BatchMaxPendingExceeded rs (refused_positions rs l) (length kept)) end) \/
  D' = D /\ exists e, r = Err e /\ plain_error e = true /\ named_right (rows D) kept e.

Lemma qwp_copy_on_conn enforce l Q D t v :
  let rs := refusals_in D enforce l in
  let kept := admitted_args rs l in
  fit [v] ∅ (conn t) -> NoDup (map e_id l) ->
  (forall m s', placed row_of kept (rows D) (m ∪ rows D) -> fit [v] m s' ->
     Q (Ok (length kept, rs, refused_positions rs l)) (D, on_conn t s')) ->
  (forall e s', plain_error e = true -> named_right (rows D) kept e -> held [v] ∅ s' -> Q (Err e) (D, on_conn t s')) ->
  qwp (_copy_on_conn detail enforce l) Q (D, t).
Proof.
  intros rs kept Hf Hd HQ HE. unfold _copy_on_conn. apply qwp_bind.
  apply (qwp_lock_membership_typed _ _ D t [v] ∅); [done|done| |intros e s' He Hs'; apply HE; [by destruct He as [->|[b ->]]..|done]].
  intros s1 Hf1. apply qwp_bind, (qwp_refusals _ _ _ D _ [v]); [done|done|]. fold rs. fold kept.
  destruct kept as [|a kept'] eqn:Ek.
  - apply (HQ ∅); [|done]. rewrite (left_id_L ∅ (∪)). split; [by intros b ?%not_elem_of_nil|done].
  - rewrite <- Ek in *. apply qwp_bind, (qwp_copy_admitted _ _ D _ v); [done|subst kept; by apply NoDup_admitted| |].
    + intros m s' Hp Hs'. by apply (HQ m).
    + intros e s' He Hn Hs'. by apply HE.
Qed.

Lemma qwp_enqueue_batch_fast enforce base l D :
  NoDup (map e_id l) ->
  qwp (_enqueue_batch_fast has_nul detail FromPool enforce base l) (fun r g => fast_end D enforce l g.1 r) (D, idle).
Proof.
  intros Hd. unfold _enqueue_batch_fast.
  assert (Herr : forall e, plain_error e = true -> named_right (rows D) (admitted_args (refusals_in D enforce l) l) e ->
            fast_end D enforce l D (Err e)) by (intros e He Hn; right; eauto).
  destruct l as [|a l0] eqn:El; [by apply Herr|]. rewrite <- El in *. clear El a l0.
  apply qwp_bind, qwp_encode; [|intros j; by apply Herr]. apply qwp_bind, qwp_retry_plain.
  unfold _attempt_pool. apply qwp_bind, qwp_checkout, qwp_transaction; [apply fit_bare|].
  intros v s Hs. apply (qwp_copy_on_conn _ _ _ D _ v); [done|done| |].
  - intros m s' Hp Hf. simpl. split; [done|]. exists m. split; [done|]. intros s1 Hs1.
    apply qwp_bind, qwp_step. intros k Hk. simpl. split; [|done]. unfold raise_refusals.
    set (rs := refusals_in D enforce l) in *.
    assert (Hb : fast_end D enforce l (D <| rows := m ∪ rows D |>)
      match rs with
      | [] => Ok (length (admitted_args rs l))
      | _ => Err (BatchMaxPendingExceeded rs (refused_positions rs l) (length (admitted_args rs l)))
      end) by (left; by exists (m ∪ rows D)).
    by destruct rs.
  - intros e s' He Hn Hs'. simpl. split; [done|]. split; [by exists ∅|]. intros s1 Hs1.
    split; [by apply Herr|by apply plain_not_lost].
Qed.

(** C18: A bulk import by COPY, run alone, ends like a batch: it returns the number of its items,
    all of them in place and each row reading as an INSERT would have written it, nothing
    else changed; or it raises the partition refusal with the other actors' items in place
    and counted; or it raises something else and the store is as it was. *)
Theorem fast_outcome K enforce base l D :
  (forall i, cut (K i) = None) -> NoDup (map e_id l) ->
  exists j D' t r, alone K 0 (_enqueue_batch_fast has_nul detail FromPool enforce base l) D idle = Some (j, D', t, r) /\
    match r with
    | Ok n => n = length l /\ refusals_in D enforce l = [] /\ placed row_of l (rows D) (rows D')
    | Err (BatchMaxPendingExceeded rs refused n) =>
        rs = refusals_in D enforce l /\ rs <> [] /\ refused = refused_positions rs l /\
        n = length (admitted_args rs l) /\ placed row_of (admitted_args rs l) (rows D) (rows D')
    | Err RuntimeError => False
    | Err _ => rows D' = rows D
    end.
Proof.
  intros HK Hd. destruct (quiet_runs _ _ D idle K 0 HK (qwp_enqueue_batch_fast enforce base l D Hd)) as (j & D' & t & r & Hrun & Hend).
  exists j, D', t, r. split; [done|]. unfold fast_end in Hend. cbn [fst] in Hend.
  destruct Hend as [(V' & -> & Hp & ->)|(-> & e & -> & He & _)]; [|by destruct e].
  replace (rows (D <| rows := V' |>)) with V' by (by destruct D).
  destruct (refusals_in D enforce l) as [|r0 rs] eqn:Er; [|done]. by rewrite admitted_all in *.
Qed.

(** C19: A refused COPY names the pair exactly, whatever the server's message says.  The pair of
    the error is that of the first item whose pair is stored or came earlier among the
    admitted items; the actor mismatch is raised when its holder, the stored row or the
    earlier item, is another actor's, with that actor and, for a row, its id, and the
    duplicate error only when the holder is the item's own actor's. *)
Theorem copy_names_pair K enforce base l D j D' t e :
  (forall i, cut (K i) = None) -> NoDup (map e_id l) ->
  alone K 0 (_enqueue_batch_fast has_nul detail FromPool enforce base l) D idle = Some (j, D', t, Err e) ->
  named_right (rows D) (admitted_args (refusals_in D enforce l) l) e.
Proof.
  intros HK Hd Hrun. destruct (quiet_runs _ _ D idle K 0 HK (qwp_enqueue_batch_fast enforce base l D Hd)) as (j' & D1 & t' & r & Hrun' & Hend).
  assert (Er : r = Err e) by congruence. subst r. destruct Hend as [(V' & _ & _ & Hr)|(_ & e' & [= <-] & _ & Hn)]; [|done].
  destruct (refusals_in D enforce l); [done|]. by injection Hr as ->.
Qed.
End program.

Definition fast_run (l : list EnqueueArgs) : option (nat * store * task * result exn nat) :=
  @alone b64_rounding _ (calm ticks) 0 (_enqueue_batch_fast clean None FromPool true 0 l) empty_store idle.

Definition later_batch : list EnqueueArgs :=
  [item 1 "a" None (Some "k"%string); (item 2 "a" None None) <| e_scheduled_at := Some 5000 |>].

Lemma fast_outcome_witness :
  match fast_run later_batch with
  | Some (_, D', _, r) =>
      r = Ok 2%nat /\ map (fun x => (x.1, row_status x.2, scheduled_at (s_job x.2))) (in_order (rows D')) = [(1, pending, 62); (2, scheduled, 5000)]
  | None => False
  end /\
  exists j D' t r, fast_run later_batch = Some (j, D', t, r) /\
    match r with
    | Ok n => n = length later_batch /\ refusals_in empty_store true later_batch = [] /\
              placed (@row_of b64_rounding) later_batch (rows empty_store) (rows D')
    | Err (BatchMaxPendingExceeded rs refused n) =>
        rs = refusals_in empty_store true later_batch /\ rs <> [] /\ refused = refused_positions rs later_batch /\
        n = length (admitted_args rs later_batch) /\
        placed (@row_of b64_rounding) (admitted_args rs later_batch) (rows empty_store) (rows D')
    | Err RuntimeError => False
    | Err _ => rows D' = rows empty_store
    end.
Proof.
  split; [vm_compute; done|].
  apply (@fast_outcome b64_rounding clean None (calm ticks) true 0 later_batch empty_store); [done|].
  apply (bool_decide_unpack _). vm_compute. exact I.
Defined.

(** The second item repeats the pair of the first, another actor's. *)
Definition clashing_batch : list EnqueueArgs := [item 1 "a" None (Some "k"%string); item 2 "b" None (Some "k"%string)].

Lemma copy_names_pair_witness :
  option_map snd (fast_run clashing_batch) = Some (Err (IdempotencyKeyActorMismatch "a" None)) /\
  named_right (rows empty_store) (admitted_args (refusals_in empty_store true clashing_batch) clashing_batch)
    (IdempotencyKeyActorMismatch "a" None).
Proof.
  split; [vm_compute; reflexivity|].
  apply (@copy_names_pair b64_rounding clean None (calm ticks) true 0 clashing_batch empty_store
    (match fast_run clashing_batch with Some (j, _, _, _) => j | None => 0%nat end)
    (match fast_run clashing_batch with Some (_, D', _, _) => D' | None => empty_store end)
    (match fast_run clashing_batch with Some (_, _, t, _) => t | None => idle end)); [done| |vm_compute; reflexivity].
  apply (bool_decide_unpack _). vm_compute. exact I.
Defined.
