(* ===== verification/EnqueueCaller.v ===== *)
(** * An enqueue inside its caller's transaction

    What [_enqueue_with_conn] answers on a caller's open transaction, nobody else connected:
    the checks in their order, each refusal typed, and the transaction left usable. *)

From Stdlib Require Import ZArith Lia QArith.
From stdpp Require Import base tactics list gmap strings.
From S2P Require Import Prelude PyText PyFloat Retry JobRow Terminal Control Sweeps Lifecycle Reservation ReservationProps Workflow Dispatch EnqueueArgs Session SessionProps Enqueue EnqueueNet EnqueueLogic EnqueueDemo EnqueueRace EnqueueAlone EnqueueBatch EnqueueQuiet EnqueueBulk EnqueueBulkCap.

Open Scope Z_scope.

Section spec.
Context `{Rounding}.
Context (has_nul : jobj -> bool).

(** ** The decision

    [V] is what the transaction sees, its own writes included. *)

(** The batch of the stamp is open, or there is no such batch. *)
Definition batch_open (D : store) (a : EnqueueArgs) : Prop :=
  forall b st, batch_uuid a = Some b -> batch_rows D !! b = Some st -> b_status st = b_active.

(** A job of the identity inside the window at a time. *)
Definition flies (V : gmap Z stored) (a : EnqueueArgs) (now : Z) (x : Z * stored) : Prop :=
  exists w i, single_flight a = Some (w, i) /\ V !! x.1 = Some x.2 /\ row_actor x.2 = e_actor a /\
    row_identity x.2 = Some i /\ row_status x.2 ∈ e_unique_states a /\ now - w < created_at (s_cols x.2).

(** A live singleton of the actor, for a singleton. *)
Definition blocks (V : gmap Z stored) (a : EnqueueArgs) (x : Z * stored) : Prop :=
  is_singleton a = true /\ V !! x.1 = Some x.2 /\ singleton_of (e_actor a) x = true.

Definition over_cap (V : gmap Z stored) (a : EnqueueArgs) : Prop :=
  exists cap, e_max_pending a = Some cap /\ cap <= queue_length (e_actor a) V.

(** Past the preflights. *)
Definition clear_of (D : store) (V : gmap Z stored) (a : EnqueueArgs) : Prop :=
  batch_open D a /\ (exists now, forall x, ~ flies V a now x) /\ (forall x, ~ blocks V a x) /\ ~ over_cap V a.

Definition key_used (V : gmap Z stored) (a : EnqueueArgs) : Prop :=
  exists k id r, e_idempotency_key a = Some k /\ V !! id = Some r /\ idempotency_key (s_cols r) = Some k.

(** The answer, and the row written if any. *)
Inductive decides (D : store) (V : gmap Z stored) (a : EnqueueArgs) : result exn (Z * stored) -> option stored -> Prop :=
| dc_batch b st :
    batch_uuid a = Some b -> batch_rows D !! b = Some st -> b_status st <> b_active ->
    decides D V a (Err (BatchIdExists b)) None
| dc_flies now x : batch_open D a -> flies V a now x -> decides D V a (Ok x) None
| dc_blocked now x hint :
    batch_open D a -> (forall y, ~ flies V a now y) -> blocks V a x ->
    decides D V a (Err (SingletonCollision (e_actor a) (Some x.1) hint)) None
| dc_over now cap :
    batch_open D a -> (forall y, ~ flies V a now y) -> (forall y, ~ blocks V a y) ->
    e_max_pending a = Some cap -> cap <= queue_length (e_actor a) V ->
    decides D V a (Err (MaxPendingExceeded {| cr_actor := e_actor a; cr_current := queue_length (e_actor a) V; cr_max := cap |})) None
| dc_nul :
    clear_of D V a -> has_nul (e_payload a) || has_nul (e_metadata a) = true -> decides D V a (Err (NulJsonbError None)) None
| dc_held p id r :
    clear_of D V a -> pair_of a = Some p -> V !! id = Some r -> row_pair r = Some p -> row_actor r = e_actor a ->
    decides D V a (Ok (id, r)) None
| dc_foreign p id r :
    clear_of D V a -> pair_of a = Some p -> V !! id = Some r -> row_pair r = Some p -> row_actor r <> e_actor a ->
    decides D V a (Err (IdempotencyKeyActorMismatch (row_actor r) (Some id))) None
| dc_id r :
    clear_of D V a -> ~ pair_held a V -> V !! e_id a = Some r -> decides D V a (Err (UniqueViolationError jobs_pkey)) None
| dc_legacy :
    clear_of D V a -> ~ pair_held a V -> V !! e_id a = None -> legacy_index D = true -> key_used V a ->
    decides D V a (Err ScopedIdempotencyMigrationPending) None
| dc_new r :
    clear_of D V a -> ~ pair_held a V -> V !! e_id a = None -> row_of a r -> decides D V a (Ok (e_id a, r)) (Some r).

(** ** The INSERT, case by case *)

Lemma on_pair_held a V : existsb (on_pair a) (in_order V) = true <-> pair_held a V.
Proof.
  rewrite existsb_exists. split.
  - intros ([id r] & Hin & Hp). apply list_elem_of_In, elem_of_in_order in Hin. unfold on_pair in Hp.
    destruct (pair_of a) as [p|] eqn:Ep; [|done]. apply bool_decide_eq_true in Hp. by exists p, id, r.
  - intros (p & id & r & Ep & Hr & Hp). exists (id, r). split; [by apply list_elem_of_In, elem_of_in_order|].
    unfold on_pair. rewrite Ep. by apply bool_decide_eq_true.
Qed.

Lemma insert_one_verdict D a row s :
  let V := visible D s in
  (forall x, ~ blocks V a x) ->
  match insert_one (lone D) a row s with
  | Blocked => False
  | Done (s', None) => s' = s /\ pair_held a V
  | Done (s', Some x) => s' = s <| own ::= <[e_id a := row]> |> /\ x = (e_id a, row) /\ ~ pair_held a V /\ V !! e_id a = None
  | Fails e => ~ pair_held a V /\
      ((exists r, e = UniqueViolationError jobs_pkey /\ V !! e_id a = Some r) \/
       (e = UniqueViolationError jobs_idempotency_key_uniq /\ V !! e_id a = None /\ legacy_index D = true /\ key_used V a))
  end.
Proof.
  intros V Hb. unfold insert_one. cbn [committed foreign lone]. change (foreign_rows []) with (@nil (Z * stored)). fold V.
  rewrite judge_alone. pose proof (on_pair_held a V) as Hp. destruct (existsb (on_pair a) (in_order V)); [split; [done|by apply Hp]|].
  assert (Hn : ~ pair_held a V) by (rewrite <- Hp; done). clear Hp.
  assert (Hs : judge (on_singleton a) V [] = Clear).
  { apply judge_free. intros id r Hr. destruct (on_singleton a (id, r)) eqn:E; [|done]. destruct (Hb (id, r)).
    unfold on_singleton in E. repeat (apply andb_true_iff in E as [E ?]). split_and!; [done|done|].
    unfold singleton_of. simpl in *. repeat (apply andb_true_iff; split); done. }
  unfold indexes. cbn [app check_indexes].
  destruct (judge (on_id a) V []) eqn:Ei.
  - assert (Hid : V !! e_id a = None).
    { destruct (V !! e_id a) as [r|] eqn:Er; [|done]. rewrite (judge_hit _ _ (e_id a) r) in Ei; [done|done|]. apply Z.eqb_refl. }
    destruct (legacy_index D) eqn:El; cbn [app check_indexes]; [|by rewrite Hs].
    rewrite judge_alone. destruct (existsb (on_key a) (in_order V)) eqn:Ek; [|by rewrite Hs].
    split; [done|]. right. split_and!; [done..|]. apply existsb_exists in Ek as ([id r] & Hin & Hk).
    apply list_elem_of_In, elem_of_in_order in Hin. unfold on_key in Hk. destruct (e_idempotency_key a) as [k|] eqn:Ea; [|done].
    apply bool_decide_eq_true in Hk. exists k, id, r. by split_and!.
  - split; [done|]. left. rewrite judge_alone in Ei. destruct (existsb _ _) eqn:E; [|done].
    apply existsb_exists in E as ([id r] & Hin & Hx). apply list_elem_of_In, elem_of_in_order in Hin.
    apply Z.eqb_eq in Hx. simpl in *. subst. by exists r.
  - by apply judge_lone in Ei.
Qed.
End spec.

(** ** The arms *)

Section arms.
Context `{Rounding}.
Context (has_nul : jobj -> bool) (schema : string) (B : budgets).

Definition usable (tau : Z) (vs : list save) (m : gmap Z stored) (s : session) : Prop := fit vs m s /\ lock_timeout s = tau.

Lemma on_conn_self t : on_conn t (conn t) = t.
Proof. by destruct t. Qed.

(** A statement that only reads. *)
Lemma qwp_read {X} (q : stmt X) Q D t vs m :
  fit vs m (conn t) -> vs <> [] -> is_local q = false -> match q with Begin | Commit => False | _ => True end ->
  (forall k, exists x, perform (lone D) k q (conn t) = Done (conn t, x) /\ Q (Ok x) (D, t)) ->
  qwp (ask q) Q (D, t).
Proof.
  intros Hf Hvs Hl Hq Hx. apply (qwp_sql q Q D t vs m); try done. intros k _. destruct (Hx k) as (x & -> & HQ).
  rewrite on_conn_self. split; [apply Hf|done].
Qed.

Lemma qwp_membership_arm a Q D t tau vs m :
  usable tau vs m (conn t) -> vs <> [] ->
  (forall s', batch_open D a -> usable tau vs m s' -> Q (Ok ()) (D, on_conn t s')) ->
  (forall b st s', batch_uuid a = Some b -> batch_rows D !! b = Some st -> b_status st <> b_active -> usable tau vs m s' ->
     Q (Err (BatchIdExists b)) (D, on_conn t s')) ->
  qwp (membership_arm a) Q (D, t).
Proof.
  intros [Hf Ht] Hvs HQ HE. unfold membership_arm. destruct (batch_uuid a) as [b|] eqn:Eb.
  2: { rewrite <- (on_conn_self t). apply HQ; [|done]. unfold batch_open. by rewrite Eb. }
  unfold _lock_batch_membership. apply qwp_bind, (qwp_sql _ _ D t vs m); try done. intros k _. cbn [perform].
  replace (existsb (batch_taken (lone D)) _) with false by (symmetry; by apply existsb_false_iff).
  assert (Hu : forall bl, usable tau vs m ((conn t) <| batch_locks := bl |>)).
  { intros bl. destruct Hf as [(? & ? & ?) ?]. by destruct (conn t). }
  split; [by destruct (conn t); apply Hf|]. change (remove_dups [b]) with [b].
  cbn [committed lone]. rewrite filter_cons. destruct (batch_rows D !! b) as [st|] eqn:Est.
  - rewrite decide_True by (by eexists). cbn [omap list_omap option_map filter]. rewrite Est. cbn [option_map].
    rewrite filter_cons. cbn [snd]. destruct (decide (b_status st <> b_active)) as [Hs|Hs].
    + by apply (HE b st).
    + apply HQ, Hu. intros b' st' E1 E2. rewrite Eb in E1. injection E1 as <-. rewrite Est in E2. injection E2 as <-.
      by apply dec_stable.
  - rewrite decide_False by (by intros [? ?]). apply HQ, Hu. intros b' st' E1 E2. rewrite Eb in E1. injection E1 as <-. congruence.
Qed.

Lemma qwp_advisory key ms (Q : result exn bool -> store * task -> Prop) D t tau vs m :
  usable tau vs m (conn t) -> vs <> [] ->
  (forall s', usable tau vs m s' -> Q (Ok true) (D, on_conn t s')) ->
  qwp (acquire_advisory_xact_lock_bounded key ms) Q (D, t).
Proof.
  intros [Hf Ht] Hvs HQ. unfold acquire_advisory_xact_lock_bounded. apply qwp_bind, (qwp_sql _ _ D t vs m); try done.
  intros k _. cbn [perform taken lone foreign existsb].
  assert (Hu : usable tau vs m ((conn t) <| advisory ::= fun l => key :: l |>)).
  { destruct Hf as [(? & ? & ?) ?]. by destruct (conn t). }
  split; [apply Hu|]. by apply HQ.
Qed.

Lemma flies_window k V a w i x :
  single_flight a = Some (w, i) ->
  x ∈ filter (fun x => in_window k (e_actor a) i (e_unique_states a) w x = true) (in_order V) <-> flies V a (read k 0) x.
Proof.
  intros Es. rewrite list_elem_of_filter, elem_of_in_order. unfold in_window, flies. rewrite !andb_true_iff, !bool_decide_eq_true, Z.ltb_lt.
  rewrite Es. split; [intros ((((?&?)&?)&?)&?); by exists w, i|]. intros (w' & i' & [= <- <-] & ?). naive_solver.
Qed.

Lemma qwp_unique_for_arm a Q D t tau vs m :
  usable tau vs m (conn t) -> vs <> [] ->
  (forall now s', (forall y, ~ flies (m ∪ rows D) a now y) -> usable tau vs m s' -> Q (Ok None) (D, on_conn t s')) ->
  (forall now x s', flies (m ∪ rows D) a now x -> usable tau vs m s' -> Q (Ok (Some x)) (D, on_conn t s')) ->
  qwp (unique_for_arm schema B a) Q (D, t).
Proof.
  intros Hu Hvs HN HS. unfold unique_for_arm. destruct (single_flight a) as [[w i]|] eqn:Es.
  2: { rewrite <- (on_conn_self t). apply (HN 0); [|done]. intros y (? & ? & ? & _). congruence. }
  unfold _acquire_unique_for_lock. apply qwp_bind, qwp_bind. apply (qwp_advisory _ _ _ D t tau vs m); [done|done|].
  intros s1 Hu1. apply (qwp_read _ _ D _ vs m); [apply Hu1|done|done|done|]. intros k. eexists. split; [done|].
  unfold rows_where. cbn [committed lone]. rewrite (visible_fit D vs m) by apply Hu1.
  set (l := filter _ _). assert (Hl : forall x, x ∈ l <-> flies (m ∪ rows D) a (read k 0) x) by (intros x; by apply flies_window).
  destruct (limit_1 k (newest l)) as [x|] eqn:Ex.
  - apply (HS (read k 0)); [|done]. apply Hl. apply limit_1_elem in Ex. by apply list_elem_of_filter in Ex as [_ ?].
  - apply (HN (read k 0)); [|done]. intros y Hy. apply Hl in Hy. apply limit_1_none, newest_nil in Ex.
    rewrite Ex in Hy. by apply not_elem_of_nil in Hy.
Qed.

Lemma qwp_singleton_arm a Q D t vs m :
  fit vs m (conn t) -> vs <> [] ->
  ((forall y, ~ blocks (m ∪ rows D) a y) -> Q (Ok ()) (D, t)) ->
  (forall x hint, blocks (m ∪ rows D) a x -> Q (Err (SingletonCollision (e_actor a) (Some x.1) hint)) (D, t)) ->
  qwp (singleton_arm a) Q (D, t).
Proof.
  intros Hf Hvs HN HS. unfold singleton_arm. destruct (is_singleton a) eqn:Es; [|apply HN; by intros y [? _]; congruence].
  apply qwp_bind, (qwp_read _ _ D _ vs m); [done..|]. intros k. eexists. split; [done|].
  unfold rows_where. cbn [committed lone]. rewrite (visible_fit D vs m) by apply Hf.
  set (l := filter _ _). assert (Hl : forall x, x ∈ l <-> blocks (m ∪ rows D) a x).
  { intros x. unfold l, blocks. rewrite list_elem_of_filter, elem_of_in_order. naive_solver. }
  destruct (limit_1 k l) as [x|] eqn:Ex; cbn [option_map].
  - apply limit_1_elem, Hl in Ex. apply qwp_bind. unfold retry_hint. destruct (schedule_to_close _); [|by apply HS].
    apply qwp_bind, qwp_step. intros k' _. cbn. by apply HS.
  - apply HN. intros y Hy. apply Hl in Hy. apply limit_1_none in Ex. rewrite Ex in Hy. by apply not_elem_of_nil in Hy.
Qed.

Lemma qwp_max_pending_arm a Q D t tau vs m :
  usable tau vs m (conn t) -> vs <> [] ->
  (forall s', ~ over_cap (m ∪ rows D) a -> usable tau vs m s' -> Q (Ok ()) (D, on_conn t s')) ->
  (forall cap s', e_max_pending a = Some cap -> cap <= queue_length (e_actor a) (m ∪ rows D) -> usable tau vs m s' ->
     Q (Err (MaxPendingExceeded {| cr_actor := e_actor a; cr_current := queue_length (e_actor a) (m ∪ rows D); cr_max := cap |}))
       (D, on_conn t s')) ->
  qwp (max_pending_arm schema B a) Q (D, t).
Proof.
  intros Hu Hvs HN HS. unfold max_pending_arm. destruct (e_max_pending a) as [cap|] eqn:Em.
  2: { rewrite <- (on_conn_self t). apply HN; [|done]. intros (? & ? & _). congruence. }
  unfold _acquire_max_pending_lock. apply qwp_bind, qwp_bind. apply (qwp_advisory _ _ _ D t tau vs m); [done|done|].
  intros s1 Hu1. apply qwp_bind, (qwp_read _ _ D _ vs m); [apply Hu1|done|done|done|]. intros k. eexists. split; [done|].
  unfold count_queued, rows_where. cbn [committed lone]. rewrite (visible_fit D vs m) by apply Hu1.
  fold (queue_length (e_actor a) (m ∪ rows D)).
  destruct (Z.leb_spec cap (queue_length (e_actor a) (m ∪ rows D))); [by apply HS|].
  apply HN; [|done]. intros (c & E & Hc). rewrite Em in E. injection E as <-. lia.
Qed.
(** ** The INSERT *)

Definition clean_args (a : EnqueueArgs) : bool := negb (has_nul (e_payload a) || has_nul (e_metadata a)).

(** How the INSERT of a caller's enqueue ends; [nul] and [failed] say what is left of the session. *)
Definition insert_end (a : EnqueueArgs) (D : store) (tau : Z) (vs : list save) (m : gmap Z stored)
    (nul failed : session -> Prop) (r : result exn (option (Z * stored))) (s : session) : Prop :=
  let V := m ∪ rows D in
  match r with
  | Ok None => clean_args a = true /\ pair_held a V /\ usable tau vs m s
  | Ok (Some x) => exists row, clean_args a = true /\ x = (e_id a, row) /\ row_of a row /\ ~ pair_held a V /\ V !! e_id a = None /\
                     usable tau vs (<[e_id a := row]> m) s
  | Err (NulJsonbError None) => clean_args a = false /\ nul s
  | Err (UniqueViolationError jobs_pkey) => clean_args a = true /\ ~ pair_held a V /\ (exists r, V !! e_id a = Some r) /\ failed s
  | Err (UniqueViolationError jobs_idempotency_key_uniq) =>
      clean_args a = true /\ ~ pair_held a V /\ V !! e_id a = None /\ legacy_index D = true /\ key_used V a /\ failed s
  | Err _ => False
  end.

Lemma qwp_set_timeout ms (Q : result exn unit -> store * task -> Prop) D t vs m :
  fit vs m (conn t) -> vs <> [] -> (forall s', usable ms vs m s' -> Q (Ok ()) (D, on_conn t s')) ->
  qwp (ask (SetLockTimeout ms)) Q (D, t).
Proof.
  intros Hf Hvs HQ. apply (qwp_sql _ _ D t vs m); try done. intros k _. cbn [perform].
  assert (Hu : usable ms vs m ((conn t) <| lock_timeout := ms |>)) by (destruct Hf as [(? & ? & ?) ?]; by destruct (conn t)).
  split; [apply Hu|by apply HQ].
Qed.

(** The parameters, the INSERT, and the restored timeout. *)
Lemma qwp_insert_core a restore tau Q D t cur vs m :
  usable cur vs m (conn t) -> vs <> [] -> (forall y, ~ blocks (m ∪ rows D) a y) ->
  (restore = false -> cur = tau) ->
  (forall r g, g.1 = D -> insert_end a D tau vs m (usable cur vs m) (held vs m) r (conn g.2) -> Q r g) ->
  qwp (let! _ := jsonb_param has_nul (e_payload a) in
       let! _ := jsonb_param has_nul (e_metadata a) in
       let! rec := ask (Insert a) in
       let! _ := Ret () in
       let! _ := if (restore : bool) then ask (SetLockTimeout tau) else Ret () in
       Ret rec) Q (D, t).
Proof.
  intros [Hf Ht] Hvs Hb Hcur HQ. unfold jsonb_param. apply qwp_bind.
  destruct (has_nul (e_payload a)) eqn:E1; [apply HQ; [done|]; unfold insert_end, clean_args; by rewrite E1|].
  apply qwp_bind. destruct (has_nul (e_metadata a)) eqn:E2; [apply HQ; [done|]; unfold insert_end, clean_args; by rewrite E1, E2|].
  assert (Hc : clean_args a = true) by (unfold clean_args; by rewrite E1, E2). clear E1 E2.
  apply qwp_bind, (qwp_sql _ _ D t vs m); try done. intros k _. cbn [perform].
  pose proof (insert_one_verdict D a (enqueued_row (transaction_now k (conn t)) (read k) a) (conn t)) as Hv. cbv zeta in Hv.
  rewrite (visible_fit D vs m) in Hv by apply Hf. specialize (Hv Hb). destruct (insert_one _ _ _ _) as [|e|[s' o]]; [done| |].
  - intros s' Hs'. apply HQ; [done|]. destruct Hv as [Hn [(r & -> & Hr)|(-> & Hr & Hl & Hk)]]; simpl; [split_and!; eauto|done].
  - assert (Hend : forall m', usable cur vs m' s' ->
      (forall s2, usable tau vs m' s2 -> insert_end a D tau vs m (usable cur vs m) (held vs m) (Ok o) s2) ->
      saves s' = vs /\ qwp (let! _ := Ret () in let! _ := if restore then ask (SetLockTimeout tau) else Ret () in Ret o) Q (D, on_conn t s')).
    { intros m' [Hf' Ht'] Hi. split; [apply Hf'|]. apply qwp_bind, qwp_bind. destruct restore.
      - apply (qwp_set_timeout _ _ D _ vs m'); [done|done|]. intros s2 Hs2. apply HQ; [done|]. by apply Hi.
      - apply HQ; [done|]. apply Hi. split; [done|]. simpl. rewrite Ht'. by apply Hcur. }
    destruct o as [x|].
    + destruct Hv as (-> & -> & Hn & Hid). apply (Hend (<[e_id a := enqueued_row (transaction_now k (conn t)) (read k) a]> m)).
      * destruct Hf as [(? & <- & ?) ?]. by destruct (conn t).
      * intros s2 Hs2. eexists. split_and!; [done|done|by eexists _, _|done|done|exact Hs2].
    + destruct Hv as (-> & Hp). apply (Hend m); [done|]. intros s2 Hs2. done.
Qed.

(** The INSERT runs in a scope of its own, to take a violation back. *)
Definition scoped (a : EnqueueArgs) : bool := is_singleton a || bounded_wait B a.

Lemma key_scoped a V :
  key_used V a -> 0 < idempotency_lock_timeout_ms B \/ is_singleton a = true -> scoped a = true.
Proof.
  intros (k & _ & _ & E & _) Hs. unfold scoped, bounded_wait. rewrite E. destruct Hs as [Hs| ->]; [|done].
  apply Z.ltb_lt in Hs. by rewrite Hs, orb_true_r.
Qed.

Lemma qwp_insert_arm a Q D t tau vs m :
  usable tau vs m (conn t) -> vs <> [] -> (forall y, ~ blocks (m ∪ rows D) a y) ->
  (forall r g, g.1 = D ->
     match r with
     | Err LegacyIdempotencyKeyConflict =>
         clean_args a = true /\ ~ pair_held a (m ∪ rows D) /\ (m ∪ rows D) !! e_id a = None /\ legacy_index D = true /\
         key_used (m ∪ rows D) a /\ (scoped a = true -> usable tau vs m (conn g.2))
     | Err (UniqueViolationError jobs_idempotency_key_uniq) => False
     | _ => insert_end a D tau vs m (usable tau vs m) (held vs m) r (conn g.2)
     end -> Q r g) ->
  qwp (insert_arm has_nul B a false false) Q (D, t).
Proof.
  intros [Hf Ht] Hvs Hb HQ. subst tau. unfold insert_arm, scope_needed. apply qwp_bind, qwp_catch. unfold _optional_savepoint, insert_statement.
  cbn [negb]. rewrite andb_true_r. destruct (is_singleton a || bounded_wait B a) eqn:Esc.
  - apply (qwp_savepoint_timeout _ _ D t vs m); [done|done|]. intros v s Hs Hts. apply qwp_bind.
    assert (Hend : forall cur r g, g.1 = D -> insert_end a D (lock_timeout (conn t)) (v :: vs) m (usable cur (v :: vs) m) (held (v :: vs) m) r (conn g.2) ->
      g.1 = D /\ match r with
        | Ok o => exists m', fit (v :: vs) m' (conn g.2) /\
            forall s', fit vs m' s' -> lock_timeout s' = lock_timeout (conn g.2) -> Q (Ok o) (D, on_conn g.2 s')
        | Err e => (exists m', held (v :: vs) m' (conn g.2)) /\
            forall s', fit vs m s' -> lock_timeout s' = lock_timeout (conn t) -> qwp
              (match e with
               | LockNotAvailableError => Raise IdempotencyKeyLockTimeout
               | UniqueViolationError jobs_singleton_uniq => Raise (SingletonCollision (e_actor a) None None)
               | UniqueViolationError jobs_idempotency_key_uniq => Raise LegacyIdempotencyKeyConflict
               | _ => Raise e
               end) Q (D, on_conn g.2 s')
        end).
    { intros cur r [D' t'] Hg Hi. simpl in *. split; [done|]. destruct r as [[x|]|e].
      - destruct Hi as (row & Hc & -> & Hrow & Hn & Hid & [Hf' Ht']). eexists. split; [exact Hf'|]. intros s' Hs' Es'.
        apply HQ; [done|]. exists row. split_and!; [done..|]. split; [done|simpl in *; congruence].
      - destruct Hi as (Hc & Hp & [Hf' Ht']). exists m. split; [done|]. intros s' Hs' Es'. apply HQ; [done|]. split_and!; [done..|].
        split; [done|simpl in *; congruence].
      - destruct e as [[]| | | | |[]| | | | | | | | | | | | | |]; try done.
        + destruct Hi as (Hc & Hn & Hid & Hs'). split; [by exists m|]. intros s1 Hs1 _. apply HQ; [done|]. split_and!; [done..|apply Hs1].
        + destruct Hi as (Hc & Hn & Hid & Hl & Hk & Hs'). split; [by exists m|]. intros s1 Hs1 Es1. apply HQ; [done|].
          split_and!; [done..|]. intros _. split; [done|simpl in *; congruence].
        + destruct Hi as [Hc [Hs' _]]. split; [exists m; apply Hs'|]. intros s1 Hs1 Es1. apply HQ; [done|]. split; [done|]. split; [done|simpl in *; congruence]. }
    destruct (bounded_wait B a) eqn:Ebw.
    + apply (qwp_read _ _ D _ (v :: vs) m); [done..|]. intros k. eexists. split; [done|]. cbn [conn on_conn]. rewrite Hts.
      apply qwp_bind, (qwp_set_timeout _ _ D _ (v :: vs) m); [done|done|]. intros s1 Hs1.
      apply (qwp_insert_core a true (lock_timeout (conn t)) _ D _ (idempotency_lock_timeout_ms B) (v :: vs) m); [done|done|done|done|]. intros r g Hg Hi.
      apply (Hend _ r g Hg) in Hi. by destruct r.
    + apply qwp_bind. apply (qwp_insert_core a false (lock_timeout (conn t)) _ D _ (lock_timeout (conn t)) (v :: vs) m); [split; [done|simpl in *; congruence]|done|done|done|].
      intros r g Hg Hi. apply (Hend _ r g Hg) in Hi. by destruct r.
  - assert (Ebw : bounded_wait B a = false) by (by apply orb_false_iff in Esc as [_ ?]). rewrite Ebw. apply qwp_bind, qwp_bind.
    apply (qwp_insert_core a false (lock_timeout (conn t)) _ D _ (lock_timeout (conn t)) vs m); [done|done|done|done|]. intros r [D' t'] Hg Hi. simpl in *. subst D'.
    destruct r as [o|e]; [by apply HQ|]. destruct e as [[]| | | | |[]| | | | | | | | | | | | | |]; try done; try by apply HQ.
    destruct Hi as (Hc & Hn & Hid & Hl & Hk & _). apply HQ; [done|]. split_and!; try done. unfold scoped. by rewrite Esc.
Qed.
(** ** The call *)

(** The decision, and the transaction as the caller has it back: a raw violation of the primary
    key poisons it, and without a lock budget so does a legacy conflict, unless the job is a singleton. *)
Definition decided (D : store) (tau : Z) (vs : list save) (m : gmap Z stored) (a : EnqueueArgs)
    (r : result exn (Z * stored)) (g : store * task) : Prop :=
  g.1 = D /\ exists w, decides has_nul D (m ∪ rows D) a r w /\
    match r with
    | Err (UniqueViolationError _) => True
    | Err ScopedIdempotencyMigrationPending =>
        0 < idempotency_lock_timeout_ms B \/ is_singleton a = true -> usable tau vs m (conn g.2)
    | _ => usable tau vs (match w with Some row => <[e_id a := row]> m | None => m end) (conn g.2)
    end.

Lemma qwp_resolve a retry Q D t vs m :
  fit vs m (conn t) -> vs <> [] -> pair_held a (m ∪ rows D) ->
  (forall p id r, pair_of a = Some p -> (m ∪ rows D) !! id = Some r -> row_pair r = Some p ->
     Q (if bool_decide (row_actor r = e_actor a) then Ok (id, r) else Err (IdempotencyKeyActorMismatch (row_actor r) (Some id))) (D, t)) ->
  qwp (resolve_arm a false retry) Q (D, t).
Proof.
  intros Hf Hvs (p & id & r & Ep & Hr & Hp) HQ. unfold resolve_arm. rewrite Ep.
  apply qwp_bind, (qwp_read _ _ D _ vs m); [done..|]. intros k. eexists. split; [done|].
  unfold rows_where. cbn [committed lone]. rewrite (visible_fit D vs m) by apply Hf. set (l := filter _ _).
  assert (Hl : forall x, x ∈ l <-> (m ∪ rows D) !! x.1 = Some x.2 /\ row_pair x.2 = Some p).
  { intros x. unfold l, paired. rewrite list_elem_of_filter, elem_of_in_order, bool_decide_eq_true. naive_solver. }
  destruct (limit_1 k l) as [[id' r']|] eqn:Ex.
  - apply limit_1_elem, Hl in Ex as [Hr' Hp']. specialize (HQ p id' r' Ep Hr' Hp'). apply qwp_bind.
    unfold _refuse_cross_actor_idempotency_hit. cbn [fst snd]. by case_bool_decide.
  - apply limit_1_none in Ex. assert (Hin : (id, r) ∈ l) by by apply Hl. rewrite Ex in Hin. by apply not_elem_of_nil in Hin.
Qed.

Lemma qwp_body a retry D t tau vs m :
  usable tau vs m (conn t) -> vs <> [] ->
  qwp (enqueue_body has_nul schema B a false false false retry)
    (fun r g => decided D tau vs m a match r with Err LegacyIdempotencyKeyConflict => Err ScopedIdempotencyMigrationPending | _ => r end g) (D, t).
Proof.
  intros Hu Hvs. unfold enqueue_body. apply qwp_bind, (qwp_membership_arm a _ D t tau vs m); [done|done| |].
  2: { intros b st s' E1 E2 E3 Hs'. split; [done|]. exists None. split; [by eapply dc_batch|done]. }
  intros s1 Hopen Hu1. apply qwp_bind, (qwp_unique_for_arm a _ D _ tau vs m); [done|done| |].
  2: { intros now x s' Hx Hs'. split; [done|]. exists None. split; [by eapply dc_flies|done]. }
  intros now s2 Hfly Hu2. apply qwp_bind, (qwp_singleton_arm a _ D _ vs m); [apply Hu2|done| |].
  2: { intros x hint Hx. split; [done|]. exists None. split; [by eapply dc_blocked|done]. }
  intros Hblk. apply qwp_bind, (qwp_max_pending_arm a _ D _ tau vs m); [done|done| |].
  2: { intros cap s' E1 E2 Hs'. split; [done|]. exists None. split; [by eapply dc_over|done]. }
  intros s3 Hroom Hu3. assert (Hclear : clear_of D (m ∪ rows D) a) by (split_and!; [done|by exists now|done|done]).
  apply qwp_bind, (qwp_insert_arm a _ D _ tau vs m); [done|done|done|]. intros r [D' t'] HD Hr. simpl in HD, Hr. subst D'.
  destruct r as [[x|]|e].
  - destruct Hr as (row & _ & -> & Hrow & Hn & Hid & Hs). split; [done|]. exists (Some row). split; [by apply dc_new|done].
  - destruct Hr as (_ & Hp & Hs). apply (qwp_resolve a retry _ D _ vs m); [apply Hs|done|done|]. intros p id r Ep Hr Hrp.
    split; [done|]. exists None. case_bool_decide; (split; [by econstructor|done]).
  - destruct e as [[]| | | | |[]| | | | | | | | | | | |  | |]; try done.
    + destruct Hr as (_ & Hn & (r & Hid) & _). split; [done|]. exists None. split; [by eapply dc_id|done].
    + destruct Hr as [Hc Hs]. split; [done|]. exists None. split; [|done]. apply dc_nul; [done|].
      unfold clean_args in Hc. by apply negb_false_iff in Hc.
    + destruct Hr as (_ & Hn & Hid & Hl & Hk & Hs). split; [done|]. exists None. split; [by apply dc_legacy|].
      intros Hb. by eapply Hs, key_scoped.
Qed.

(** C16: An enqueue in its caller's transaction decides in a fixed order and leaves the transaction
    usable.  Run alone, it answers: a closed batch refuses; else a job of the identity in
    its window is returned; else a live singleton refuses a singleton; else a full queue
    refuses; else a NUL refuses; else the holder of its pair is returned, or refused as
    another actor's; else a taken id or, while the legacy index is there, a used key
    refuses; else its row is written.  After every answer the transaction is not poisoned, and
    has its own rows (with the new one), its scopes and its lock timeout as before, with two
    exceptions: the raw violation of the primary key, and, when the budget of the key's lock is 0 or
    less and the job is no singleton, so that the INSERT has no scope of its own, the legacy
    conflict. *)
Theorem caller_decides K i a D tau vs m s w :
  (forall i, cut (K i) = None) -> usable tau vs m s -> vs <> [] ->
  exists j t r, alone K i (_enqueue_with_conn has_nul schema B a) D {| conn := s; wrote := w |} = Some (j, D, t, r) /\
    decided D tau vs m a r (D, t).
Proof.
  intros HK Hu Hvs.
  assert (Hw : qwp (_enqueue_with_conn has_nul schema B a) (decided D tau vs m a) (D, {| conn := s; wrote := w |})).
  { unfold _enqueue_with_conn, _enqueue_on_conn, enqueue_entry. apply qwp_catch, qwp_bind, qwp_step. intros k _.
    cbn [exec is_local healthy committed lone conn]. replace (in_transaction s) with true.
    2: { symmetry. apply in_transaction_saves. destruct Hu as [[(-> & _) _] _]. done. }
    rewrite andb_false_r. cbn [orb negb]. eapply qwp_mono; [|by apply qwp_body].
    intros [x|e] g Hd; [done|]. destruct e; exact Hd. }
  destruct (quiet_runs _ _ _ _ K i HK Hw) as (j & D' & t & r & Hrun & Hd). pose proof Hd as [HD _]. simpl in HD. subst D'.
  by exists j, t, r.
Qed.
End arms.

Definition begun : session := bare <| saves := [save_of bare] |>.

Lemma caller_decides_witness :
  exists j t r, @alone b64_rounding _ (calm ticks) 0 (_enqueue_with_conn clean "taskq" default_budgets (item 1 "a" (Some 1) (Some "k"%string)))
      empty_store {| conn := begun; wrote := false |} = Some (j, empty_store, t, r) /\
    @decided b64_rounding clean default_budgets empty_store 0 [save_of bare] ∅ (item 1 "a" (Some 1) (Some "k"%string)) r (empty_store, t).
Proof.
  apply (@caller_decides b64_rounding clean "taskq" default_budgets (calm ticks) 0
    (item 1 "a" (Some 1) (Some "k"%string)) empty_store 0 [save_of bare] ∅ begun false); done.
Defined.

(** Without a lock budget the INSERT has no scope: a legacy conflict of a caller's enqueue poisons
    the caller's transaction, with the default budget it does not. *)
Definition unbounded : budgets :=
  {| max_pending_lock_timeout_ms := 5000; unique_for_lock_timeout_ms := 5000; idempotency_lock_timeout_ms := 0 |}.

Definition legacy_conflict (B : budgets) : option (bool * result exn (Z * stored)) :=
  option_map (fun x => (poisoned (conn x.1.2), x.2))
    (@alone b64_rounding _ (calm ticks) 0
       (_enqueue_with_conn clean "taskq" B ((item 1 "a" None (Some "k"%string)) <| e_idempotency_scope := "other"%string |>))
       legacy_store {| conn := begun; wrote := false |}).

Example unbounded_conflict_poisons :
  legacy_conflict default_budgets = Some (false, Err ScopedIdempotencyMigrationPending) /\
  legacy_conflict unbounded = Some (true, Err ScopedIdempotencyMigrationPending).
Proof. split; vm_compute; reflexivity. Qed.

(** ** The life cycle begins *)

Lemma traverse_all {E A B} (f : A -> result E B) l ys : traverse f l = Ok ys -> forall x, x ∈ l -> exists y, f x = Ok y.
Proof.
  revert ys. induction l as [|a l IH]; intros ys; simpl; [by intros _ x ?%not_elem_of_nil|].
  destruct (f a) as [y|] eqn:Ea; [|done]. simpl. destruct (traverse f l) as [zs|]; [|done]. intros _ x [->|Hx]%elem_of_cons; eauto.
Qed.

(** The columns a struct that was constructed can write. *)
Definition in_domain (r : stored) : Prop :=
  1 <= max_attempts (s_job r) <= MAX_ENQUEUABLE_MAX_ATTEMPTS /\ SMALLINT_MIN <= priority (s_place r) <= SMALLINT_MAX /\
  (forall d, heartbeat_timeout (s_job r) = Some d \/ start_to_close (s_cols r) = Some d -> 0 <= d).

(** C21: Every job is born well formed.  The row an enqueue writes for a struct whose construction
    succeeded is a well-formed job of the life cycle, waiting, unclaimed and at attempt 0,
    with its numeric columns in their domains: the start of every invariant of the state
    machine. *)
Theorem born_well_formed `{Rounding} a r :
  __post_init__ a = Ok () -> row_of a r ->
  wf_job (s_job r) /\ waiting (row_status r) = true /\ attempt (s_job r) = 0 /\ locked_by_worker (s_job r) = None /\ in_domain r.
Proof.
  intros Hi (now & c & ->). unfold __post_init__ in Hi.
  assert (Hcol : _check_column_domains a = Ok ()).
  { revert Hi. destruct (_check_column_domains a) as [[]|e]; [done|]. by destruct (e_schedule_to_close a), (e_schedule_to_close_interval a). }
  unfold _check_column_domains, check_max_attempts_domain, check_priority_domain in Hcol.
  destruct (Z.ltb_spec (e_max_attempts a) 1); [done|]. destruct (Z.ltb_spec MAX_ENQUEUABLE_MAX_ATTEMPTS (e_max_attempts a)); [done|].
  cbn [rbind] in Hcol. destruct (Z.ltb_spec (e_priority a) SMALLINT_MIN); [done|]. destruct (Z.ltb_spec SMALLINT_MAX (e_priority a)); [done|].
  cbn [orb rbind] in Hcol. destruct (traverse check_duration (durations a)) as [ys|] eqn:Ed; [|done].
  assert (Hdur : forall d what, (Some d, what) ∈ durations a -> 0 <= d).
  { intros d what Hin. destruct (traverse_all _ _ _ Ed _ Hin) as [y Hy]. unfold check_duration in Hy. simpl in Hy.
    destruct (Z.ltb_spec d 0); [done|lia]. }
  assert (Hw : waiting (due_status (e_scheduled_at a) (c 0%nat) (c 1%nat)) = true) by (unfold due_status; by destruct (_ <? _)).
  assert (Hmax : MAX_ENQUEUABLE_MAX_ATTEMPTS <= SMALLINT_MAX) by done.
  split_and!; [|done|done|done|].
  - unfold wf_job. simpl. split_and!; try done; try lia.
    + intros E. by rewrite E in Hw.
    + intros Ht. apply terminal_not_active in Ht as [_ Ht]. congruence.
  - split_and!; simpl; try lia. intros d [E|E].
    + apply (Hdur d "heartbeat_timeout"%string). unfold durations. rewrite <- E. set_solver.
    + apply (Hdur d "start_to_close"%string). unfold durations. rewrite <- E. set_solver.
Qed.

Lemma born_well_formed_witness :
  wf_job (s_job (@enqueued_row b64_rounding 0 (fun _ => 0) (item 1 "a" None None))) /\
  waiting (row_status (@enqueued_row b64_rounding 0 (fun _ => 0) (item 1 "a" None None))) = true /\
  attempt (s_job (@enqueued_row b64_rounding 0 (fun _ => 0) (item 1 "a" None None))) = 0 /\
  locked_by_worker (s_job (@enqueued_row b64_rounding 0 (fun _ => 0) (item 1 "a" None None))) = None /\
  in_domain (@enqueued_row b64_rounding 0 (fun _ => 0) (item 1 "a" None None)).
Proof.
  apply (@born_well_formed b64_rounding (item 1 "a" None None)); [vm_compute; reflexivity|].
  exists 0, (fun _ => 0). reflexivity.
Defined.
