(* ===== verification/Zone.v ===== *)
(** * Time zones

    Python's [zoneinfo.ZoneInfo] as the cron code uses it: the offset of an instant, the
    wall clock it shows ([fromutc], with [fold]), and the instant of a wall clock ([utcoffset]
    by [fold]).  A zone is its offset before the first transition and its transitions, in
    order; a wall clock (a naive [datetime]) and an instant are microseconds from the same
    epoch.

    [ZoneInfo] looks a wall clock up in the transitions shifted to local time: by the larger
    of the two offsets for [fold = 0], by the smaller for [fold = 1].  So a wall clock that
    occurs twice maps to its earlier and later instant, and one that is skipped to an instant
    on the far side of the gap. *)

From Stdlib Require Import ZArith Lia.
From stdpp Require Import base list.
From S2P Require Import Prelude.

Definition second : Z := 1000000.
Definition minute : Z := 60 * second.

Record zone := mkzone { z_before : Z; z_trans : list (Z * Z) }.

(** A [datetime] whose [tzinfo] is the zone at hand. *)
Record aware := mkaware { wall : Z; fold : bool }.

#[export] Instance aware_eq_dec : EqDecision aware.
Proof. solve_decision. Defined.

(** Transitions at or before [t]: [bisect_right] over the sorted instants. *)
Definition passed_by (l : list (Z * Z)) (t : Z) : bool :=
  match l with
  | (T, _) :: _ => T <=? t
  | [] => false
  end.

Fixpoint utc_info (o : Z) (l : list (Z * Z)) (t : Z) : Z * bool :=
  match l with
  | [] => (o, false)
  | (T, o') :: l' =>
      if T <=? t then
        if passed_by l' t then utc_info o' l' t else (o', t - T <? o - o')
      else (o, false)
  end.

Definition from_utc (z : zone) (t : Z) : aware :=
  let '(o, f) := utc_info (z_before z) (z_trans z) t in mkaware (t + o) f.

Fixpoint wall_offset (f : bool) (o : Z) (l : list (Z * Z)) (w : Z) : Z :=
  match l with
  | [] => o
  | (T, o') :: l' =>
      if T + (if f then Z.min o o' else Z.max o o') <=? w then wall_offset f o' l' w else o
  end.

Definition utcoffset (z : zone) (d : aware) : Z := wall_offset (fold d) (z_before z) (z_trans z) (wall d).

Definition to_utc (z : zone) (d : aware) : Z := wall d - utcoffset z d.

(** The wall clock at an instant. *)
Definition clock_at (z : zone) (t : Z) : Z := wall (from_utc z t).

(** The clock reaches [m] for the first time at [t]: when it shows [m], or when it jumps past
    it. *)
Definition reaches (z : zone) (t m : Z) : Prop :=
  m <= clock_at z t /\ forall t', t' < t -> clock_at z t' < m.

(** ** Zones whose transitions keep apart

    Transitions and offsets are whole minutes and each transition's shift is over before the next begins.
    A shift is at most fifteen hours: the zones that skipped or repeated a whole day at
    the date line are left out. *)

Definition max_shift : Z := 900 * minute.

Definition clear_of (o : Z) (T o' : Z) (l : list (Z * Z)) : Prop :=
  match l with
  | [] => True
  | (T2, o2) :: _ => T + Z.abs (o - o') + Z.abs (o' - o2) < T2
  end.

Fixpoint apart (o : Z) (l : list (Z * Z)) : Prop :=
  match l with
  | [] => True
  | (T, o') :: l' =>
      T mod minute = 0 /\ o' mod minute = 0 /\ Z.abs (o - o') <= max_shift /\
      clear_of o T o' l' /\ apart o' l'
  end.

Definition wf_zone (z : zone) : Prop := z_before z mod minute = 0 /\ apart (z_before z) (z_trans z).

Lemma apart_step o T o' l : apart o ((T, o') :: l) -> passed_by l T = false /\ apart o' l.
Proof.
  intros (_ & _ & _ & Hc & Hl). split; [|done].
  destruct l as [|[T2 o2] l]; [done|]. cbn in *. apply Z.leb_gt. lia.
Qed.

(** Before the first transition of the rest, the offset is the rest's own. *)
Lemma utc_info_early o l t : passed_by l t = false -> utc_info o l t = (o, false).
Proof. destruct l as [|[T o'] l]; [done|]. cbn. now intros ->. Qed.

Lemma utc_info_step o T o' l t :
  T <= t ->
  utc_info o ((T, o') :: l) t =
  if passed_by l t then utc_info o' l t else (o', t - T <? o - o').
Proof. intros H. cbn. now rewrite (proj2 (Z.leb_le _ _) H). Qed.

Lemma utc_info_fst o T o' l t :
  T <= t -> (utc_info o ((T, o') :: l) t).1 = (utc_info o' l t).1.
Proof.
  intros H. rewrite utc_info_step by done. destruct (passed_by l t) eqn:E; [done|].
  now rewrite utc_info_early.
Qed.

Lemma utc_info_before o T o' l t : t < T -> utc_info o ((T, o') :: l) t = (o, false).
Proof. intros H. apply utc_info_early. cbn. now apply Z.leb_gt. Qed.

Definition clock_of (o : Z) (l : list (Z * Z)) (t : Z) : Z := t + (utc_info o l t).1.

Lemma clock_at_eq z t : clock_at z t = clock_of (z_before z) (z_trans z) t.
Proof. unfold clock_at, from_utc, clock_of. now destruct utc_info. Qed.

(** ** Where a wall clock can be *)

(** [w] is shown at one instant, and the clock shows less before and more after. *)
Definition plain_at (o : Z) (l : list (Z * Z)) (w t : Z) : Prop :=
  utc_info o l t = (w - t, false) /\ wall_offset false o l w = w - t /\
  wall_offset true o l w = w - t /\
  (forall t', t' < t -> clock_of o l t' < w) /\ (forall t', t < t' -> w < clock_of o l t').

(** A repeated range: at [T] the offset falls from [a] to [b], and the walls from [T + b] to
    [T + a] are shown twice. *)
Record overlap (o : Z) (l : list (Z * Z)) (T a b : Z) : Prop := {
  ov_falls : b < a;
  ov_small : a - b <= max_shift;
  ov_minute : T mod minute = 0 /\ a mod minute = 0 /\ b mod minute = 0;
  ov_first : forall t, T + b - a - minute <= t < T -> utc_info o l t = (a, false);
  ov_second : forall t, T <= t < T + a - b -> utc_info o l t = (b, true);
  ov_below : forall t, t < T + b - a -> clock_of o l t < T + b;
  ov_above : forall t, T + a - b <= t -> T + a <= clock_of o l t;
  ov_wall : forall f w, T + b <= w < T + a -> wall_offset f o l w = if f then b else a;
  ov_edge : forall f w, T + b - minute <= w < T + b -> wall_offset f o l w = a;
  ov_far : forall f w, T + a <= w < T + a + minute -> wall_offset f o l w = b
}.

(** A gap: at [T] the offset rises from [a] to [b], and the walls from [T + a] to [T + b] are
    skipped. *)
Record gap (o : Z) (l : list (Z * Z)) (T a b : Z) : Prop := {
  gp_rises : a < b;
  gp_small : b - a <= max_shift;
  gp_minute : T mod minute = 0 /\ a mod minute = 0 /\ b mod minute = 0;
  gp_after : forall t, T <= t < T + b - a + minute -> utc_info o l t = (b, false);
  gp_below : forall t, t < T -> clock_of o l t < T + a;
  gp_above : forall t, T <= t -> T + b <= clock_of o l t;
  gp_wall : forall f w, T + a <= w < T + b -> wall_offset f o l w = if f then b else a;
  gp_far : forall f w, T + b <= w < T + b + minute -> wall_offset f o l w = b
}.

(** ** Every wall clock is plain, repeated or skipped *)

Ltac minutes :=
  repeat match goal with
  | H : _ /\ _ |- _ => destruct H
  | H : _ mod minute = 0 |- _ => apply Z.mod_divide in H; [destruct H as [? H]|done]
  end; unfold max_shift, minute, second in *.

Definition room (s o : Z) (l : list (Z * Z)) : Prop :=
  match l with
  | [] => True
  | (T, o') :: _ => s + Z.abs (o - o') < T
  end.

Lemma clear_room o T o' l : clear_of o T o' l -> room (T + Z.abs (o - o')) o' l.
Proof. destruct l as [|[T2 o2] l]; done. Qed.

Lemma room_from_clear o T o' l : clear_of o T o' l -> room T o' l.
Proof. destruct l as [|[T2 o2] l]; cbn; [done|lia]. Qed.

Lemma room_early s o l t : room s o l -> t <= s -> passed_by l t = false.
Proof. destruct l as [|[T o'] l]; [done|]. cbn. intros. apply Z.leb_gt. lia. Qed.

Lemma clock_floor o l s t : apart o l -> room s o l -> s <= t -> s + o <= clock_of o l t.
Proof.
  revert o s t. induction l as [|[T o'] l IH]; intros o s t Ha Hr Hst.
  { unfold clock_of. cbn. lia. }
  destruct Ha as (HT & Ho' & _ & Hc & Ha). cbn in Hr. unfold clock_of.
  destruct (Z.le_gt_cases T t).
  - rewrite utc_info_fst by done.
    specialize (IH o' T t Ha (room_from_clear _ _ _ _ Hc)). unfold clock_of in IH. lia.
  - rewrite utc_info_before by done. cbn. lia.
Qed.

(** How far a block of the rest stands from the transition before. *)
Definition stands_off (o : Z) (l : list (Z * Z)) (T s : Z) : Prop :=
  forall T0 p, T0 mod minute = 0 -> p mod minute = 0 -> clear_of p T0 o l ->
  T0 + Z.abs (p - o) + Z.abs s + minute <= T.

Section Lift.
Context (o T o' : Z) (l : list (Z * Z)).
Context (Ho : o mod minute = 0) (Ha : apart o ((T, o') :: l)).

Lemma lift_clock t : T <= t -> clock_of o ((T, o') :: l) t = clock_of o' l t.
Proof using. intros. unfold clock_of. now rewrite utc_info_fst. Qed.

Lemma lift_early t : t < T -> clock_of o ((T, o') :: l) t = t + o.
Proof using. intros. unfold clock_of. now rewrite utc_info_before. Qed.

Lemma lift_wall f w :
  T + Z.max o o' <= w -> wall_offset f o ((T, o') :: l) w = wall_offset f o' l w.
Proof using. intros. cbn. replace (_ <=? w) with true; [done|]. symmetry. apply Z.leb_le. destruct f; lia. Qed.

Lemma lift_info t r :
  utc_info o' l t = r -> T + Z.abs (o - o') <= t -> utc_info o ((T, o') :: l) t = r.
Proof using.
  intros H Ht. rewrite utc_info_step by lia. destruct (passed_by l t) eqn:E; [done|].
  rewrite utc_info_early in H by done. subst r. f_equal. apply Z.ltb_ge. lia.
Qed.

(** Up to a minute past its shift, the rest still has its first offset. *)
Lemma rest_clock t : t < T + Z.abs (o - o') + minute -> clock_of o' l t = t + o'.
Proof using Ho Ha.
  intros H. unfold clock_of. rewrite utc_info_early; [done|].
  destruct Ha as (? & ? & ? & Hc & Hl). destruct l as [|[T2 o2] l']; [done|].
  destruct Hl as (? & ? & _). cbn in *. apply Z.leb_gt. minutes. lia.
Qed.

Lemma lift_plain w t :
  T + Z.max o o' <= w -> plain_at o' l w t -> plain_at o ((T, o') :: l) w t.
Proof using Ho Ha.
  intros Hw (Hu & H0 & H1 & Hlt & Hgt). destruct (apart_step _ _ _ _ Ha) as [HT _].
  assert (T <= t) as Ht.
  { destruct (Z.le_gt_cases T t) as [|Hlt']; [done|]. specialize (Hgt T Hlt').
    rewrite rest_clock in Hgt by (unfold minute, second; lia). lia. }
  split_and!.
  - rewrite utc_info_step by done. destruct (passed_by l t) eqn:E; [done|].
    rewrite utc_info_early in Hu by done. injection Hu as Hu. rewrite <- Hu. f_equal.
    apply Z.ltb_ge. lia.
  - now rewrite lift_wall.
  - now rewrite lift_wall.
  - intros t' Ht'. destruct (Z.le_gt_cases T t').
    + rewrite lift_clock by done. auto.
    + rewrite lift_early by done. lia.
  - intros t' Ht'. rewrite lift_clock by lia. auto.
Qed.

Lemma lift_overlap T1 a b :
  overlap o' l T1 a b -> stands_off o' l T1 (a - b) -> overlap o ((T, o') :: l) T1 a b.
Proof using Ho Ha.
  intros H Hs. pose proof Ha as (HT & Ho' & _ & Hc & _).
  specialize (Hs T o HT Ho Hc). pose proof (ov_falls _ _ _ _ _ H) as Hf.
  assert (T + Z.max o o' <= T1 + b - minute) as Hw.
  { pose proof (ov_below _ _ _ _ _ H (T + Z.abs (o - o') + minute - 1) ltac:(lia)) as Hb.
    rewrite rest_clock in Hb by lia. lia. }
  assert (0 < minute) by done.
  destruct H. constructor; try done; intros.
  - apply lift_info; [eauto|lia].
  - apply lift_info; [eauto|lia].
  - destruct (Z.le_gt_cases T t); [rewrite lift_clock by done; auto|rewrite lift_early by done; lia].
  - rewrite lift_clock by lia. auto.
  - rewrite lift_wall by lia. auto.
  - rewrite lift_wall by lia. auto.
  - rewrite lift_wall by lia. auto.
Qed.

Lemma lift_gap T1 a b :
  gap o' l T1 a b -> stands_off o' l T1 (a - b) -> gap o ((T, o') :: l) T1 a b.
Proof using Ho Ha.
  intros H Hs. pose proof Ha as (HT & Ho' & _ & Hc & _).
  specialize (Hs T o HT Ho Hc). pose proof (gp_rises _ _ _ _ _ H) as Hf.
  assert (T + Z.max o o' <= T1 + a - minute) as Hw.
  { pose proof (gp_below _ _ _ _ _ H (T + Z.abs (o - o') + minute - 1) ltac:(lia)) as Hb.
    rewrite rest_clock in Hb by lia. lia. }
  assert (0 < minute) by done.
  destruct H. constructor; try done; intros.
  - apply lift_info; [eauto|lia].
  - destruct (Z.le_gt_cases T t); [rewrite lift_clock by done; auto|rewrite lift_early by done; lia].
  - rewrite lift_clock by lia. auto.
  - rewrite lift_wall by lia. auto.
  - rewrite lift_wall by lia. auto.
Qed.

Lemma stands_off_cons T1 s : stands_off o' l T1 s -> stands_off o ((T, o') :: l) T1 s.
Proof using Ho Ha.
  intros Hs T0 p HT0 Hp Hc0. pose proof Ha as (HT & Ho' & _ & Hc & _).
  specialize (Hs T o HT Ho Hc). cbn in Hc0. lia.
Qed.

(** The block of the first transition. *)
Lemma head_stands_off : stands_off o ((T, o') :: l) T (o - o').
Proof using Ho Ha.
  intros T0 p HT0 Hp Hc. destruct Ha as (HT & Ho' & _). cbn in Hc. minutes. lia.
Qed.

Lemma head_far f w :
  T + Z.max o o' <= w < T + Z.max o o' + minute -> wall_offset f o ((T, o') :: l) w = o'.
Proof using Ho Ha.
  intros Hw. rewrite lift_wall by lia. pose proof Ha as (HT & Ho' & _ & Hc & Hl).
  destruct l as [|[T2 o2] l']; [done|]. destruct Hl as (HT2 & Ho2 & _). cbn in *.
  replace (_ <=? w) with false; [done|]. symmetry. apply Z.leb_gt. minutes. destruct f; lia.
Qed.

Lemma head_overlap : o' < o -> overlap o ((T, o') :: l) T o o'.
Proof using Ho Ha.
  intros Hlt. pose proof Ha as (HT & Ho' & Hm & Hc & Hl). constructor; try done; try lia; intros.
  - apply utc_info_before. lia.
  - rewrite utc_info_step by lia. rewrite (room_early _ _ _ _ (clear_room _ _ _ _ Hc)) by lia.
    f_equal. apply Z.ltb_lt. lia.
  - rewrite lift_early by lia. lia.
  - rewrite lift_clock by lia.
    pose proof (clock_floor o' l _ t Hl (clear_room _ _ _ _ Hc)). lia.
  - cbn. destruct f.
    + replace (_ <=? w) with true by (symmetry; apply Z.leb_le; lia).
      destruct l as [|[T2 o2] l']; [done|]. cbn in *.
      replace (_ <=? w) with false; [done|]. symmetry. apply Z.leb_gt. lia.
    + replace (_ <=? w) with false; [done|]. symmetry. apply Z.leb_gt. lia.
  - cbn. replace (_ <=? w) with false; [done|]. symmetry. apply Z.leb_gt. destruct f; lia.
  - apply head_far. lia.
Qed.

Lemma head_gap : o < o' -> gap o ((T, o') :: l) T o o'.
Proof using Ho Ha.
  intros Hlt. pose proof Ha as (HT & Ho' & Hm & Hc & Hl). constructor; try done; try lia; intros.
  - rewrite utc_info_step by lia. replace (passed_by l t) with false.
    + f_equal. apply Z.ltb_ge. lia.
    + symmetry. destruct l as [|[T2 o2] l']; [done|]. destruct Hl as (? & ? & _). cbn in *.
      apply Z.leb_gt. minutes. lia.
  - rewrite lift_early by lia. lia.
  - rewrite lift_clock by lia. now apply clock_floor; [|apply (room_from_clear o)|].
  - cbn. destruct f.
    + replace (_ <=? w) with true by (symmetry; apply Z.leb_le; lia).
      destruct l as [|[T2 o2] l']; [done|]. cbn in *.
      replace (_ <=? w) with false; [done|]. symmetry. apply Z.leb_gt. lia.
    + replace (_ <=? w) with false; [done|]. symmetry. apply Z.leb_gt. lia.
  - apply head_far. lia.
Qed.

Lemma head_plain w : w < T + Z.min o o' -> plain_at o ((T, o') :: l) w (w - o).
Proof using Ho Ha.
  intros Hw. pose proof Ha as (HT & Ho' & Hm & Hc & Hl). split_and!.
  - rewrite utc_info_before by lia. f_equal. lia.
  - cbn. replace (_ <=? w) with false by (symmetry; apply Z.leb_gt; lia). lia.
  - cbn. replace (_ <=? w) with false by (symmetry; apply Z.leb_gt; lia). lia.
  - intros t' ?. rewrite lift_early by lia. lia.
  - intros t' ?. destruct (Z.le_gt_cases T t').
    + rewrite lift_clock by done.
      pose proof (clock_floor o' l T t' Hl (room_from_clear _ _ _ _ Hc)). lia.
    + rewrite lift_early by done. lia.
Qed.
End Lift.

Lemma wall_cases_from o l w :
  o mod minute = 0 -> apart o l ->
  (exists t, plain_at o l w t) \/
  (exists T a b, overlap o l T a b /\ T + b <= w < T + a /\ stands_off o l T (a - b)) \/
  (exists T a b, gap o l T a b /\ T + a <= w < T + b /\ stands_off o l T (a - b)).
Proof.
  revert o. induction l as [|[T o'] l IH]; intros o Ho Ha.
  { left. exists (w - o). unfold plain_at, clock_of. cbn. split_and!; [f_equal; lia|lia|lia|lia|lia]. }
  destruct (Z.lt_ge_cases w (T + Z.min o o')); [left; eauto using head_plain|].
  destruct (Z.lt_ge_cases w (T + Z.max o o')) as [Hw|Hw].
  { right. destruct (Z.lt_trichotomy o o') as [Hlt|[->|Hlt]]; [right|lia|left];
      exists T, o, o'; split_and!; eauto using head_gap, head_overlap, head_stands_off; lia. }
  destruct (IH o' ltac:(apply Ha) (proj2 (apart_step _ _ _ _ Ha))) as [(t & Ht)|[(T1 & a & b & H1 & H2 & H3)|(T1 & a & b & H1 & H2 & H3)]].
  - left. exists t. now apply lift_plain.
  - right; left. exists T1, a, b. eauto using lift_overlap, stands_off_cons.
  - right; right. exists T1, a, b. eauto using lift_gap, stands_off_cons.
Qed.

(** ** The same, of a zone *)

Definition plain (z : zone) (w t : Z) : Prop := plain_at (z_before z) (z_trans z) w t.

(** [w] is in the range repeated at [T]. *)
Definition repeated (z : zone) (T a b w : Z) : Prop :=
  overlap (z_before z) (z_trans z) T a b /\ T + b <= w < T + a.

(** [w] is in the gap skipped at [T]. *)
Definition skipped (z : zone) (T a b w : Z) : Prop :=
  gap (z_before z) (z_trans z) T a b /\ T + a <= w < T + b.

Lemma wall_cases z w :
  wf_zone z ->
  (exists t, plain z w t) \/ (exists T a b, repeated z T a b w) \/ (exists T a b, skipped z T a b w).
Proof.
  intros [Ho Ha]. unfold plain, repeated, skipped.
  destruct (wall_cases_from _ _ w Ho Ha) as [?|[(T & a & b & ? & ? & _)|(T & a & b & ? & ? & _)]]; eauto 10.
Qed.

Section Plain.
Context (z : zone) (w t : Z) (H : plain z w t).

Lemma plain_from_utc : from_utc z t = mkaware w false.
Proof using H. destruct H as (Hu & _). unfold from_utc. rewrite Hu. f_equal. lia. Qed.

Lemma plain_to_utc f : to_utc z (mkaware w f) = t.
Proof using H. destruct H as (_ & H0 & H1 & _). unfold to_utc, utcoffset. cbn. destruct f; lia. Qed.

Lemma plain_before t' : t' < t <-> clock_at z t' < w.
Proof using H.
  destruct H as (Hu & _ & _ & Hlt & Hgt). rewrite clock_at_eq. split; [auto|]. intros Hc.
  destruct (Z.lt_trichotomy t' t) as [|[->|Hl]]; [done| |].
  - unfold clock_of in Hc. rewrite Hu in Hc. cbn in Hc. lia.
  - specialize (Hgt _ Hl). lia.
Qed.

Lemma plain_clock : clock_at z t = w.
Proof using H. unfold clock_at. now rewrite plain_from_utc. Qed.

Lemma plain_after t' : t < t' <-> w < clock_at z t'.
Proof using H.
  pose proof (plain_before t'). pose proof plain_clock. split; intros.
  - destruct H as (_ & _ & _ & _ & Hgt). rewrite clock_at_eq. auto.
  - destruct (Z.lt_trichotomy t' t) as [|[->|]]; [lia|lia|done].
Qed.

Lemma plain_unique t' : clock_at z t' = w -> t' = t.
Proof using H. pose proof (plain_before t'). pose proof (plain_after t'). lia. Qed.

Lemma plain_reaches : reaches z t w.
Proof using H. split; [rewrite plain_clock; lia|]. intros. now apply plain_before. Qed.
End Plain.

Section Repeated.
Context (z : zone) (T a b : Z) (H : overlap (z_before z) (z_trans z) T a b).

Lemma rep_falls : b < a.
Proof using H. exact (ov_falls _ _ _ _ _ H). Qed.

Lemma rep_from_first t : T + b - a - minute <= t < T -> from_utc z t = mkaware (t + a) false.
Proof using H. intros. unfold from_utc. now rewrite (ov_first _ _ _ _ _ H). Qed.

Lemma rep_from_second t : T <= t < T + a - b -> from_utc z t = mkaware (t + b) true.
Proof using H. intros. unfold from_utc. now rewrite (ov_second _ _ _ _ _ H). Qed.

Lemma rep_to_utc f w : T + b <= w < T + a -> to_utc z (mkaware w f) = w - if f then b else a.
Proof using H. intros. unfold to_utc, utcoffset. cbn. now rewrite (ov_wall _ _ _ _ _ H). Qed.

Lemma rep_clock_first t : T + b - a - minute <= t < T -> clock_at z t = t + a.
Proof using H. intros. unfold clock_at. now rewrite rep_from_first. Qed.

Lemma rep_clock_second t : T <= t < T + a - b -> clock_at z t = t + b.
Proof using H. intros. unfold clock_at. now rewrite rep_from_second. Qed.

Lemma rep_below t : clock_at z t < T + b <-> t < T + b - a.
Proof using H.
  pose proof rep_falls. split; [|rewrite clock_at_eq; apply (ov_below _ _ _ _ _ H)].
  intros Hc. destruct (Z.lt_ge_cases t (T + b - a)); [done|]. exfalso.
  destruct (Z.lt_ge_cases t T); [rewrite rep_clock_first in Hc by (unfold minute, second; lia); lia|].
  destruct (Z.lt_ge_cases t (T + a - b)); [rewrite rep_clock_second in Hc by lia; lia|].
  rewrite clock_at_eq in Hc. pose proof (ov_above _ _ _ _ _ H t). lia.
Qed.

Lemma rep_above t : T + a <= clock_at z t <-> T + a - b <= t.
Proof using H.
  pose proof rep_falls. split; [|rewrite clock_at_eq; apply (ov_above _ _ _ _ _ H)].
  intros Hc. destruct (Z.lt_ge_cases t (T + a - b)); [|done]. exfalso.
  destruct (Z.lt_ge_cases t (T + b - a)) as [Hl|Hl].
  { apply rep_below in Hl. lia. }
  destruct (Z.lt_ge_cases t T); [rewrite rep_clock_first in Hc by (unfold minute, second; lia); lia|].
  rewrite rep_clock_second in Hc by lia. lia.
Qed.

(** What an instant of the range is: its first pass, or its second. *)
Lemma rep_inside t :
  T + b <= clock_at z t < T + a ->
  (T + b - a <= t < T /\ clock_at z t = t + a /\ from_utc z t = mkaware (t + a) false) \/
  (T <= t < T + a - b /\ clock_at z t = t + b /\ from_utc z t = mkaware (t + b) true).
Proof using H.
  intros Hc. pose proof (rep_below t). pose proof (rep_above t). assert (0 < minute) by done.
  destruct (Z.lt_ge_cases t T).
  - left. rewrite rep_clock_first, rep_from_first by lia. repeat split; lia.
  - right. rewrite rep_clock_second, rep_from_second by lia. repeat split; lia.
Qed.

Lemma rep_reaches w : T + b <= w < T + a -> reaches z (w - a) w.
Proof using H.
  intros Hw. pose proof rep_falls. assert (0 < minute) by done.
  split; [rewrite rep_clock_first by lia; lia|]. intros t' Ht'.
  destruct (Z.lt_ge_cases t' (T + b - a)) as [Hl|Hl].
  - apply rep_below in Hl. lia.
  - rewrite rep_clock_first by lia. lia.
Qed.
End Repeated.

Section Skipped.
Context (z : zone) (T a b : Z) (H : gap (z_before z) (z_trans z) T a b).

Lemma skip_rises : a < b.
Proof using H. exact (gp_rises _ _ _ _ _ H). Qed.

Lemma skip_from_utc t : T <= t < T + b - a + minute -> from_utc z t = mkaware (t + b) false.
Proof using H. intros. unfold from_utc. now rewrite (gp_after _ _ _ _ _ H). Qed.

Lemma skip_to_utc w : T + a <= w < T + b -> to_utc z (mkaware w false) = w - a.
Proof using H. intros. unfold to_utc, utcoffset. cbn. now rewrite (gp_wall _ _ _ _ _ H). Qed.

Lemma skip_far f w : T + b <= w < T + b + minute -> to_utc z (mkaware w f) = w - b.
Proof using H. intros. unfold to_utc, utcoffset. cbn. now rewrite (gp_far _ _ _ _ _ H). Qed.

(** No instant shows a wall clock of the gap; the clock jumps past it at [T]. *)
Lemma skip_never t w : T + a <= w < T + b -> clock_at z t <> w.
Proof using H.
  rewrite clock_at_eq. intros Hw Hc. destruct (Z.lt_ge_cases t T) as [Hl|Hl].
  - apply (gp_below _ _ _ _ _ H) in Hl. lia.
  - apply (gp_above _ _ _ _ _ H) in Hl. lia.
Qed.

Lemma skip_reaches w : T + a <= w <= T + b -> reaches z T w.
Proof using H.
  intros Hw. split; [rewrite clock_at_eq; pose proof (gp_above _ _ _ _ _ H T); lia|].
  intros t Ht. rewrite clock_at_eq. apply (gp_below _ _ _ _ _ H) in Ht. lia.
Qed.
End Skipped.

(** ** Facts of any zone *)

(** A [datetime] that is the local time of its own instant. *)
Definition shown (z : zone) (d : aware) : Prop := from_utc z (to_utc z d) = d.

Lemma from_utc_cases z t :
  wf_zone z ->
  plain z (clock_at z t) t \/ exists T a b, repeated z T a b (clock_at z t).
Proof.
  intros Hz. destruct (wall_cases z (clock_at z t) Hz) as [(t' & Hp)|[?|(T & a & b & Hg & Hw)]].
  - left. now destruct (plain_unique _ _ _ Hp t eq_refl).
  - now right.
  - destruct (skip_never _ _ _ _ Hg t _ Hw eq_refl).
Qed.

Lemma to_from_utc z t : wf_zone z -> to_utc z (from_utc z t) = t.
Proof.
  intros Hz. destruct (from_utc_cases z t Hz) as [Hp|(T & a & b & Hr & Hw)].
  - rewrite (plain_from_utc _ _ _ Hp). now apply plain_to_utc.
  - destruct (rep_inside _ _ _ _ Hr t Hw) as [(? & Hc & ->)|(? & Hc & ->)];
      rewrite Hc in Hw; rewrite (rep_to_utc _ _ _ _ Hr) by lia; lia.
Qed.

Lemma from_utc_shown z t : wf_zone z -> shown z (from_utc z t).
Proof. intros. unfold shown. now rewrite to_from_utc. Qed.

Lemma shown_clock z d : shown z d -> clock_at z (to_utc z d) = wall d.
Proof. unfold clock_at. now intros ->. Qed.

(** A [fold] is set only on the second pass of a repeated range. *)
Lemma fold_repeated z t :
  wf_zone z -> fold (from_utc z t) = true ->
  exists T a b, repeated z T a b (clock_at z t) /\ T <= t < T + a - b.
Proof.
  intros Hz Hf. destruct (from_utc_cases z t Hz) as [Hp|(T & a & b & Hr & Hw)].
  - now rewrite (plain_from_utc _ _ _ Hp) in Hf.
  - exists T, a, b. split; [done|].
    destruct (rep_inside _ _ _ _ Hr t Hw) as [(? & _ & He)|(? & _)]; [|done]. now rewrite He in Hf.
Qed.

Lemma reaches_mono z t m t' m' : reaches z t m -> reaches z t' m' -> m <= m' -> t <= t'.
Proof.
  intros [H1 H2] [H3 H4] Hm. destruct (Z.le_gt_cases t t') as [|Hlt]; [done|].
  specialize (H2 _ Hlt). lia.
Qed.

Lemma reaches_unique z t t' m : reaches z t m -> reaches z t' m -> t = t'.
Proof. intros H1 H2. apply Z.le_antisymm; eapply reaches_mono; eauto; lia. Qed.

(** Where a wall clock is first reached, computed. *)
Fixpoint first_reach (o : Z) (l : list (Z * Z)) (m : Z) : Z :=
  match l with
  | [] => m - o
  | (T, o') :: l' =>
      if m - o <? T then m - o else if m <=? T + o' then T else first_reach o' l' m
  end.

Definition first_at (z : zone) (m : Z) : Z := first_reach (z_before z) (z_trans z) m.

Lemma first_reach_after o l s m :
  apart o l -> room s o l -> s + o <= m -> s <= first_reach o l m.
Proof.
  revert o s. induction l as [|[T o'] l IH]; intros o s Ha Hr Hs; cbn; [lia|].
  destruct Ha as (_ & _ & _ & Hc & Ha). cbn in Hr. split_ifs; zbool; [lia|lia|].
  pose proof (IH o' T Ha (room_from_clear _ _ _ _ Hc)). lia.
Qed.

Lemma first_reach_spec o l m :
  apart o l ->
  m <= clock_of o l (first_reach o l m) /\
  forall t', t' < first_reach o l m -> clock_of o l t' < m.
Proof.
  revert o. induction l as [|[T o'] l IH]; intros o Ha.
  { unfold clock_of. cbn. split; intros; lia. }
  pose proof Ha as (_ & _ & _ & Hc & Hl). cbn [first_reach]. split_ifs; zbool.
  - rewrite lift_early by done. split; [lia|]. intros. rewrite lift_early by lia. lia.
  - rewrite lift_clock by lia. split.
    + pose proof (clock_floor o' l T T Hl (room_from_clear _ _ _ _ Hc)). lia.
    + intros. rewrite lift_early by lia. lia.
  - destruct (IH o' Hl) as [H1 H2].
    pose proof (first_reach_after o' l T m Hl (room_from_clear _ _ _ _ Hc) ltac:(lia)).
    rewrite lift_clock by done. split; [done|]. intros t' Ht'.
    destruct (Z.le_gt_cases T t'); [rewrite lift_clock by done; auto|rewrite lift_early by done; lia].
Qed.

Lemma first_at_reaches z m : wf_zone z -> reaches z (first_at z m) m.
Proof.
  intros [_ Ha]. destruct (first_reach_spec _ _ m Ha) as [H1 H2].
  split; [now rewrite clock_at_eq|]. intros. rewrite clock_at_eq. auto.
Qed.
