(* ===== verification/CronTime.v ===== *)
(** * Fire times

    [src/taskq/cron.py]: [compute_next_fire_after] and its helpers, which turn the wall-clock
    walk of a cron expression into the instants a schedule fires at, across the repeated and
    the skipped hours of its zone.

    The expression arithmetic is the package croniter's and the zone data the system's; both
    are parameters ([Croniter], [zones]).  A walk with an aware seed answers an aware time, so
    the code's [tzinfo is None] repairs have nothing to do.  The seed is an instant: the
    times the function is called with are local times of their own instant. *)

From Stdlib Require Import ZArith Lia String.
From stdpp Require Import base list strings.
From S2P Require Import Prelude Zone.

Inductive DstStrategy := skip | firstof | allof.

#[export] Instance DstStrategy_eq_dec : EqDecision DstStrategy.
Proof. solve_decision. Defined.

Inductive cron_error :=
| CroniterBadDateError
| ValueError
| ZoneInfoNotFoundError
| RecursionError
| Diverges.

#[export] Instance cron_error_eq_dec : EqDecision cron_error.
Proof. solve_decision. Defined.

(** The package: [croniter(expr, seed).get_next(datetime)] with a naive and with an aware seed.
    [None] is its [CroniterBadDateError]. *)
Class Croniter := {
  is_valid : string -> bool;
  get_next : string -> Z -> option Z;
  get_next_aware : string -> zone -> aware -> option aware
}.

Definition or_bad_date {A} (r : option A) : result cron_error A :=
  match r with Some x => Ok x | None => Err CroniterBadDateError end.

(** [dt.replace(second=0, microsecond=0)]. *)
Definition to_minute (w : Z) : Z := w - w mod minute.

Definition _is_ambiguous_time (z : zone) (w : Z) : bool :=
  negb (to_utc z (mkaware w false) =? to_utc z (mkaware w true)).

Definition _fold_to_utc (w : Z) (f : bool) : aware := mkaware w f.

(** The two loops of [repeated_range_bounds]. *)
Fixpoint back_to_start (n : nat) (z : zone) (start : Z) : Z :=
  match n with
  | O => start
  | S n' => if _is_ambiguous_time z (start - minute) then back_to_start n' z (start - minute) else start
  end.

Fixpoint on_to_end (n : nat) (z : zone) (end_ : Z) : Z :=
  match n with
  | O => end_
  | S n' => if _is_ambiguous_time z end_ then on_to_end n' z (end_ + minute) else end_
  end.

Definition shift_fuel : nat := Z.to_nat 2880.

Definition repeated_range_bounds (z : zone) (w : Z) : option (Z * Z) :=
  if _is_ambiguous_time z w then
    let start := back_to_start shift_fuel z (to_minute w) in
    Some (start, on_to_end shift_fuel z (start + minute))
  else None.

(** One frame a minute; Python gives up at its recursion limit. *)
Definition recursion_room : nat := Z.to_nat 901.

Fixpoint _check_gap (n : nat) (z : zone) (d : aware) : result cron_error aware :=
  match n with
  | O => Err RecursionError
  | S n' =>
      let roundtrip := from_utc z (to_utc z d) in
      if negb (to_minute (wall roundtrip) =? to_minute (wall d))
      then _check_gap n' z (mkaware (wall d + minute) false)
      else Ok d
  end.

Section Walk.
Context `{Croniter}.

Definition in_range (r : Z * Z) (w : Z) : bool := (fst r <=? w) && (w <? snd r).

(** [beyond = get_next(...)], repeated while it is in the range. *)
Fixpoint step_over (n : nat) (cron_expr : string) (r : Z * Z) (beyond : Z) : result cron_error Z :=
  if in_range r beyond then
    match n with
    | O => Err Diverges
    | S n' => let* nxt := or_bad_date (get_next cron_expr beyond) in step_over n' cron_expr r nxt
    end
  else Ok beyond.

Definition range_fuel (r : Z * Z) : nat := Z.to_nat ((snd r - fst r) / second + 1).

Definition beyond_range (cron_expr : string) (bounds : option (Z * Z)) (w : Z) : result cron_error Z :=
  let* beyond := or_bad_date (get_next cron_expr w) in
  match bounds with
  | Some r => step_over (range_fuel r) cron_expr r beyond
  | None => Ok beyond
  end.

Definition _first_match_beyond_repeated_range (cron_expr : string) (candidate : aware) (z : zone)
  : result cron_error aware :=
  let* beyond := beyond_range cron_expr (repeated_range_bounds z (wall candidate)) (wall candidate) in
  _check_gap recursion_room z (mkaware beyond false).

Definition _next_fold1_fire (cron_expr : string) (after_local : aware) (z : zone)
  : result cron_error (option aware) :=
  if fold after_local then Ok None
  else match repeated_range_bounds z (wall after_local) with
       | None => Ok None
       | Some (start, end_) =>
           let* nxt := or_bad_date (get_next cron_expr (wall after_local)) in
           if nxt <? end_ then Ok None
           else
             let* first := or_bad_date (get_next cron_expr (start - second)) in
             if end_ <=? first then Ok None else Ok (Some (_fold_to_utc first true))
       end.

(** A seed on the second pass of a repeated range, and the match still in the range. *)
Definition fold1_seed_arm (cron_expr : string) (after_local : aware) (z : zone) (dst_strategy : DstStrategy)
  : result cron_error (option aware) :=
  if fold after_local then
    match repeated_range_bounds z (wall after_local) with
    | None => Ok None
    | Some r =>
        let* candidate := or_bad_date (get_next_aware cron_expr z after_local) in
        if in_range r (wall candidate) then
          if decide (dst_strategy = allof) then Ok (Some (_fold_to_utc (wall candidate) true))
          else
            let* beyond := beyond_range cron_expr (Some r) (wall candidate) in
            let* d := _check_gap recursion_room z (mkaware beyond false) in
            Ok (Some d)
        else Ok None
    end
  else Ok None.

(** The ordinary walk. *)
Definition ordinary_arm (cron_expr timezone_name : string) (after : Z) (z : zone)
    (dst_strategy : DstStrategy) : result cron_error (list aware) :=
  let* candidate := or_bad_date (get_next_aware cron_expr z (from_utc z after)) in
  if bool_decide (dst_strategy = skip) && String.eqb timezone_name "UTC" then Ok [candidate]
  else
    let candidate_roundtrip := from_utc z (to_utc z candidate) in
    if negb (to_minute (wall candidate_roundtrip) =? to_minute (wall candidate)) then
      let* next_valid := or_bad_date (get_next_aware cron_expr z candidate_roundtrip) in
      let* d := _check_gap recursion_room z next_valid in
      Ok [d]
    else if _is_ambiguous_time z (wall candidate) then
      let earlier := _fold_to_utc (wall candidate) false in
      if decide (dst_strategy = allof) then Ok [earlier; _fold_to_utc (wall candidate) true]
      else if after <? to_utc z earlier then Ok [earlier]
      else
        let* d := _first_match_beyond_repeated_range cron_expr candidate z in
        Ok [d]
    else Ok [candidate].

Definition walk_in_zone (cron_expr timezone_name : string) (after : Z) (z : zone)
    (dst_strategy : DstStrategy) : result cron_error (list aware) :=
  let after_local := from_utc z after in
  let* fold1_next :=
    if decide (dst_strategy = allof) then _next_fold1_fire cron_expr after_local z else Ok None in
  match fold1_next with
  | Some d => Ok [d]
  | None =>
      let* replay := fold1_seed_arm cron_expr after_local z dst_strategy in
      match replay with
      | Some d => Ok [d]
      | None => ordinary_arm cron_expr timezone_name after z dst_strategy
      end
  end.

Context (zones : string -> option zone).

Definition _compute_next_fire_after_walking (cron_expr timezone_name : string) (after : Z)
    (dst_strategy : DstStrategy) : result cron_error (list aware) :=
  match zones timezone_name with
  | None => Err ZoneInfoNotFoundError
  | Some z => walk_in_zone cron_expr timezone_name after z dst_strategy
  end.

Definition compute_next_fire_after (cron_expr timezone_name : string) (after : Z)
    (dst_strategy : DstStrategy) : result cron_error (list aware) :=
  match _compute_next_fire_after_walking cron_expr timezone_name after dst_strategy with
  | Err CroniterBadDateError => Err ValueError
  | r => r
  end.
End Walk.
