(* ===== verification/CronTimeProps.v ===== *)
(** * What the fire times are

    A schedule owes a fire whenever the wall clock of its zone reaches a match of its
    expression; under [allof] also when the clock shows a match for the second time.
    [compute_next_fire_after] answers the next fire owed, for every seed, zone and strategy,
    given what the package documents of its walk ([CroniterLaws]). *)

From Stdlib Require Import ZArith Lia String.
From stdpp Require Import base list strings.
From S2P Require Import Prelude Zone CronTime.

(** What the walk of croniter promises, for the matches of an expression.

    A naive walk finds the first match after its seed.  An aware walk answers a local time at
    which the schedule's clock shows a match, or jumps past one; it is later than the seed,
    by its wall clock or as an instant (the package does not promise which pass of a repeated
    range it answers); and it does not pass over a match ahead of the seed's wall clock. *)
Class CroniterLaws (C : Croniter) (matches : string -> Z -> Prop) := {
  naive_next e w m :
    get_next e w = Some m ->
    w < m /\ matches e m /\ forall m', w < m' < m -> ~ matches e m';
  matches_seconds e m : matches e m -> m mod second = 0;
  aware_shown e z d c :
    wf_zone z -> shown z d -> get_next_aware e z d = Some c ->
    shown z c /\ exists m, matches e m /\ (wall c = m \/ reaches z (to_utc z c) m);
  aware_later e z d c :
    wf_zone z -> shown z d -> get_next_aware e z d = Some c ->
    wall d < wall c \/ to_utc z d < to_utc z c;
  aware_first e z d c m :
    wf_zone z -> shown z d -> get_next_aware e z d = Some c ->
    matches e m -> wall d < m -> to_utc z d < first_at z m \/ m < wall c ->
    to_utc z c <= first_at z m
}.

(** ** The specification *)

(** The instants at which a schedule with the matches [M] owes a fire. *)
Definition owed (z : zone) (M : Z -> Prop) (s : DstStrategy) (t : Z) : Prop :=
  exists m, M m /\ (reaches z t m \/ (s = allof /\ clock_at z t = m)).

Definition next_owed (z : zone) (M : Z -> Prop) (s : DstStrategy) (after t : Z) : Prop :=
  after < t /\ owed z M s t /\ forall t', after < t' < t -> ~ owed z M s t'.

(** One fire, or the two passes of one repeated match. *)
Definition answers (z : zone) (M : Z -> Prop) (s : DstStrategy) (after : Z) (r : list aware) : Prop :=
  match r with
  | [d] => shown z d /\ next_owed z M s after (to_utc z d)
  | [d; d'] =>
      s = allof /\ shown z d /\ shown z d' /\ next_owed z M s after (to_utc z d) /\
      wall d' = wall d /\ to_utc z d < to_utc z d'
  | _ => False
  end.

(** ** The bounds of a repeated range *)

Section Bounds.
Context (z : zone) (T a b : Z) (H : overlap (z_before z) (z_trans z) T a b).

Lemma ambiguous_inside w : T + b <= w < T + a -> _is_ambiguous_time z w = true.
Proof using H.
  intros Hw. unfold _is_ambiguous_time. rewrite !(rep_to_utc _ _ _ _ H) by done.
  pose proof (rep_falls _ _ _ _ H). apply negb_true_iff, Z.eqb_neq. lia.
Qed.

Lemma ambiguous_edge : _is_ambiguous_time z (T + b - minute) = false.
Proof using H.
  unfold _is_ambiguous_time, to_utc, utcoffset. cbn.
  rewrite !(ov_edge _ _ _ _ _ H) by (unfold minute, second; lia). now rewrite Z.eqb_refl.
Qed.

Lemma ambiguous_far : _is_ambiguous_time z (T + a) = false.
Proof using H.
  unfold _is_ambiguous_time, to_utc, utcoffset. cbn.
  rewrite !(ov_far _ _ _ _ _ H) by (unfold minute, second; lia). now rewrite Z.eqb_refl.
Qed.

Lemma back_walk k n :
  (k < n)%nat -> T + b + minute * Z.of_nat k < T + a ->
  back_to_start n z (T + b + minute * Z.of_nat k) = T + b.
Proof using H.
  revert n. induction k as [|k IH]; intros [|n] Hn Hk; try lia.
  - cbn -[minute]. rewrite Z.mul_0_r, Z.add_0_r. now rewrite ambiguous_edge.
  - cbn [back_to_start].
    replace (T + b + minute * Z.of_nat (S k) - minute) with (T + b + minute * Z.of_nat k) by lia.
    assert (0 < minute) by done. rewrite ambiguous_inside by lia. apply IH; lia.
Qed.

Lemma end_walk k n :
  (k < n)%nat -> T + b <= T + a - minute * Z.of_nat k ->
  on_to_end n z (T + a - minute * Z.of_nat k) = T + a.
Proof using H.
  revert n. induction k as [|k IH]; intros [|n] Hn Hk; try lia.
  - cbn -[minute]. rewrite Z.mul_0_r, Z.sub_0_r. now rewrite ambiguous_far.
  - cbn [on_to_end]. assert (0 < minute) by done. rewrite ambiguous_inside by lia.
    replace (T + a - minute * Z.of_nat (S k) + minute) with (T + a - minute * Z.of_nat k) by lia.
    apply IH; lia.
Qed.

Lemma bounds_repeated w : T + b <= w < T + a -> repeated_range_bounds z w = Some (T + b, T + a).
Proof using H.
  intros Hw. unfold repeated_range_bounds. rewrite ambiguous_inside by done.
  pose proof (ov_minute _ _ _ _ _ H) as Hm. pose proof (ov_small _ _ _ _ _ H) as Hs.
  assert (exists k, to_minute w = T + b + minute * Z.of_nat k) as [k Hk].
  { exists (Z.to_nat ((w - (T + b)) / minute)). unfold to_minute.
    assert (0 < minute) as Hp by done. rewrite Z2Nat.id by (apply Z.div_pos; lia).
    minutes. Z.to_euclidean_division_equations. lia. }
  assert (exists k, T + b + minute = T + a - minute * Z.of_nat k /\ (k < shift_fuel)%nat) as (j & Hj & Hjn).
  { exists (Z.to_nat ((a - b) / minute - 1)). unfold shift_fuel. pose proof (rep_falls _ _ _ _ H). minutes.
    Z.to_euclidean_division_equations. lia. }
  assert (T + b + minute * Z.of_nat k < T + a) as Hk'.
  { unfold to_minute in Hk. pose proof (Z.mod_pos_bound w minute). assert (0 < minute) by done. lia. }
  cbv zeta. rewrite Hk, back_walk; [|unfold shift_fuel; minutes; lia|done].
  rewrite Hj, end_walk; [done|done|]. rewrite <- Hj. assert (0 < minute) by done. lia.
Qed.
End Bounds.

Lemma bounds_plain z w t : plain z w t -> repeated_range_bounds z w = None.
Proof.
  intros H. unfold repeated_range_bounds, _is_ambiguous_time.
  now rewrite !(plain_to_utc _ _ _ H), Z.eqb_refl.
Qed.

Lemma unambiguous_plain z w t : plain z w t -> _is_ambiguous_time z w = false.
Proof. intros H. unfold _is_ambiguous_time. now rewrite !(plain_to_utc _ _ _ H), Z.eqb_refl. Qed.

(** ** Out of a gap *)

Lemma check_gap_shown n z d : shown z d -> _check_gap (S n) z d = Ok d.
Proof. intros H. cbn. rewrite H, Z.eqb_refl. done. Qed.

Lemma gap_steps z T a b k n :
  gap (z_before z) (z_trans z) T a b -> (k < n)%nat -> T + a <= T + b - minute * Z.of_nat k ->
  _check_gap n z (mkaware (T + b - minute * Z.of_nat k) false) = Ok (mkaware (T + b) false).
Proof.
  intros H. revert n. assert (0 < minute) as Hp by done.
  pose proof (gp_minute _ _ _ _ _ H) as Hm. induction k as [|k IH]; intros [|n] Hn Hk; try lia.
  - rewrite Z.mul_0_r, Z.sub_0_r. apply check_gap_shown. unfold shown.
    rewrite (skip_far _ _ _ _ H) by lia. rewrite (skip_from_utc _ _ _ _ H); [f_equal; lia|].
    pose proof (skip_rises _ _ _ _ H). lia.
  - cbn [_check_gap wall]. set (w := T + b - minute * Z.of_nat (S k)) in *.
    assert (T + a <= w < T + b) as Hw by lia.
    rewrite (skip_to_utc _ _ _ _ H) by done.
    rewrite (skip_from_utc _ _ _ _ H) by lia. cbn [wall].
    pose proof (skip_rises _ _ _ _ H) as Hr.
    replace (negb _) with true.
    2:{ symmetry. apply negb_true_iff, Z.eqb_neq. unfold to_minute. clear IH. clearbody w.
        minutes. Z.to_euclidean_division_equations. lia. }
    replace (w + minute) with (T + b - minute * Z.of_nat k) by lia. apply IH; lia.
Qed.

(** ** The next fire *)

Section Exact.
Context {C : Croniter} {matches : string -> Z -> Prop} {L : CroniterLaws C matches}.
Context (z : zone) (Hz : wf_zone z) (e : string).

(** Matches never run out, and those a gap skips are whole minutes. *)
Context (Hnaive : forall w, is_Some (get_next e w)).
Context (Haware : forall d, shown z d -> is_Some (get_next_aware e z d)).
Context (Hgap : forall m T a b, matches e m -> skipped z T a b m -> m mod minute = 0).

Lemma check_gap_resolves m :
  matches e m ->
  exists d, _check_gap recursion_room z (mkaware m false) = Ok d /\ shown z d /\ reaches z (to_utc z d) m.
Proof using Hz Hgap.
  intros Hm. destruct (wall_cases z m Hz) as [(t & H)|[(T & a & b & H & Hw)|(T & a & b & H & Hw)]].
  - exists (mkaware m false).
    assert (shown z (mkaware m false)) as Hs.
    { unfold shown. rewrite (plain_to_utc _ _ _ H). exact (plain_from_utc _ _ _ H). }
    split_and!; [now apply check_gap_shown|done|].
    rewrite (plain_to_utc _ _ _ H). exact (plain_reaches _ _ _ H).
  - exists (mkaware m false). assert (0 < minute) by done.
    assert (shown z (mkaware m false)) as Hs.
    { unfold shown. rewrite (rep_to_utc _ _ _ _ H) by done.
      rewrite (rep_from_first _ _ _ _ H) by lia. f_equal. lia. }
    split_and!; [now apply check_gap_shown|done|].
    rewrite (rep_to_utc _ _ _ _ H) by done. now apply (rep_reaches _ _ _ _ H).
  - exists (mkaware (T + b) false). assert (0 < minute) by done.
    pose proof (skip_rises _ _ _ _ H) as Hr.
    pose proof (gp_minute _ _ _ _ _ H) as Hmin. pose proof (gp_small _ _ _ _ _ H) as Hsm.
    pose proof (Hgap _ _ _ _ Hm (conj H Hw)) as Hmm.
    assert (exists k, m = T + b - minute * Z.of_nat k /\ (k < recursion_room)%nat) as (k & Hk & Hkn).
    { exists (Z.to_nat ((T + b - m) / minute)). unfold recursion_room. minutes.
      Z.to_euclidean_division_equations. lia. }
    rewrite Hk at 1. split_and!.
    + apply (gap_steps _ _ a); [done|done|lia].
    + unfold shown. rewrite (skip_far _ _ _ _ H) by lia. rewrite (skip_from_utc _ _ _ _ H) by lia. f_equal. lia.
    + rewrite (skip_far _ _ _ _ H) by lia. replace (T + b - b) with T by lia.
      apply (skip_reaches _ _ _ _ H). lia.
Qed.

Lemma next_second w m : matches e w -> get_next e w = Some m -> w + second <= m.
Proof using L.
  intros Hw Hm. apply naive_next in Hm as (Hlt & Hm & _).
  apply matches_seconds in Hw, Hm. apply Z.mod_divide in Hw as [x ->], Hm as [y ->]; try done.
  unfold second in *. lia.
Qed.

Lemma step_over_ends n r x :
  fst r <= x -> matches e x -> (forall m, matches e m -> snd r <= m -> x <= m) ->
  snd r - x <= Z.of_nat n * second ->
  exists m, step_over n e r x = Ok m /\ matches e m /\ snd r <= m /\
            forall m', matches e m' -> snd r <= m' -> m <= m'.
Proof using Hnaive L.
  assert (0 < second) by done. revert x. induction n as [|n IH]; intros x Hr Hx Hmin Hn.
  all: cbn [step_over]; unfold in_range; destruct (Z.lt_ge_cases x (snd r)) as [Hlt|Hge].
  all: try (rewrite (proj2 (Z.ltb_ge _ _) Hge), andb_false_r; by eauto).
  { lia. }
  rewrite (proj2 (Z.leb_le _ _) Hr), (proj2 (Z.ltb_lt _ _) Hlt). cbn [andb].
  destruct (Hnaive x) as [y Hy]. rewrite Hy. cbn [or_bad_date rbind].
  pose proof (next_second _ _ Hx Hy). apply naive_next in Hy as (? & Hm & Hnone).
  apply IH; [lia|done| |lia].
  intros m' Hm' Hge. destruct (Z.le_gt_cases y m'); [done|]. destruct (Hnone m'); [lia|done].
Qed.

Lemma beyond_range_ends r w :
  fst r <= w < snd r ->
  exists m, beyond_range e (Some r) w = Ok m /\ matches e m /\ snd r <= m /\
            forall m', matches e m' -> snd r <= m' -> m <= m'.
Proof using Hnaive L.
  intros Hw. unfold beyond_range. destruct (Hnaive w) as [x Hx]. rewrite Hx. cbn [or_bad_date rbind].
  apply naive_next in Hx as (Hlt & Hm & Hnone). apply step_over_ends; [lia|done| |].
  - intros m' Hm' Hge. destruct (Z.le_gt_cases x m'); [done|]. destruct (Hnone m'); [lia|done].
  - unfold range_fuel. rewrite Z2Nat.id; [|apply Z.add_nonneg_nonneg; [apply Z.div_pos; [lia|done]|lia]].
    pose proof (Z.mul_succ_div_gt (snd r - fst r) second). unfold second in *. lia.
Qed.

(** Inside a repeated range the clock only ever reaches what it shows, on the first pass. *)
Lemma reaches_inside T a b t m :
  overlap (z_before z) (z_trans z) T a b -> T + b <= clock_at z t < T + a -> reaches z t m ->
  clock_at z t = m /\ t < T.
Proof using.
  intros H Hc [Hm Hr]. assert (0 < minute) by done.
  destruct (rep_inside _ _ _ _ H t Hc) as [(Ht & He & _)|(Ht & He & _)].
  - specialize (Hr (t - 1) ltac:(lia)). rewrite (rep_clock_first _ _ _ _ H) in Hr by lia. lia.
  - specialize (Hr (T - 1) ltac:(lia)). rewrite (rep_clock_first _ _ _ _ H) in Hr; lia.
Qed.

Lemma first_at_eq t m : reaches z t m -> first_at z m = t.
Proof using Hz. intros H. exact (reaches_unique _ _ _ _ (first_at_reaches z m Hz) H). Qed.

Section Seed.
Context (after : Z).
Abbreviation seed := (from_utc z after).

Lemma seed_shown : shown z seed.
Proof using Hz. now apply from_utc_shown. Qed.

Lemma seed_utc : to_utc z seed = after.
Proof using Hz. now apply to_from_utc. Qed.

Lemma seed_wall : wall seed = clock_at z after.
Proof using. done. Qed.

Context (c : aware) (Hc : get_next_aware e z seed = Some c).

Lemma candidate_shown : shown z c.
Proof using Hz Hc L. exact (proj1 (aware_shown _ _ _ _ Hz seed_shown Hc)). Qed.

Lemma candidate_later : clock_at z after < wall c \/ after < to_utc z c.
Proof using Hz Hc L. rewrite <- seed_utc at 2. exact (aware_later _ _ _ _ Hz seed_shown Hc). Qed.

(** Nothing the clock still has to reach comes before the candidate. *)
Lemma candidate_first t m : matches e m -> reaches z t m -> after < t -> to_utc z c <= t.
Proof using Hz Hc L.
  intros Hm Hr Ht. rewrite <- (first_at_eq _ _ Hr).
  apply (aware_first e z seed); try done; [exact seed_shown|apply Hr; done|].
  left. now rewrite seed_utc, (first_at_eq _ _ Hr).
Qed.

Lemma candidate_plain t :
  plain z (wall c) t -> to_utc z c = t /\ after < t /\ exists m, matches e m /\ reaches z t m.
Proof using Hz Hc L.
  intros Hp. assert (to_utc z c = t) as He.
  { destruct c as [w f]. exact (plain_to_utc _ _ _ Hp f). }
  split_and!; [done| |].
  - destruct candidate_later as [Hl|Hl]; [|lia]. now apply (plain_before _ _ _ Hp).
  - destruct (aware_shown _ _ _ _ Hz seed_shown Hc) as (_ & m & Hm & [<-|Hr]); [|rewrite <- He; eauto].
    exists (wall c). split; [done|]. exact (plain_reaches _ _ _ Hp).
Qed.

(** A candidate in a repeated range is a match. *)
Lemma candidate_repeated T a b :
  repeated z T a b (wall c) -> matches e (wall c) /\ to_utc z c = wall c - (if fold c then b else a).
Proof using Hz Hc L.
  intros [H Hw]. destruct (aware_shown _ _ _ _ Hz seed_shown Hc) as (Hs & m & Hm & Hor).
  split; [|destruct c as [w f]; now apply (rep_to_utc _ _ _ _ H)].
  destruct Hor as [->|Hr]; [done|]. pose proof (shown_clock _ _ Hs) as Hcl.
  apply (reaches_inside _ _ _ _ _ H) in Hr as [Hr _]; [|now rewrite Hcl]. now rewrite <- Hcl, Hr.
Qed.

(** A candidate in a repeated range that is not ahead of the seed: the seed is in the
    range. *)
Lemma seed_in_range T a b :
  repeated z T a b (wall c) -> wall c - a <= after -> T + b - a <= after < T + a - b.
Proof using Hz Hc L.
  intros Hrep Hle. pose proof (candidate_repeated _ _ _ Hrep) as [_ Hu]. destruct Hrep as [H Hw].
  pose proof (rep_falls _ _ _ _ H). split; [lia|].
  destruct candidate_later as [Hl|Hl].
  - pose proof (rep_above _ _ _ _ H after). lia.
  - rewrite Hu in Hl. destruct (fold c); lia.
Qed.

Lemma candidate_cases :
  (exists t, plain z (wall c) t) \/ exists T a b, repeated z T a b (wall c).
Proof using Hz Hc L.
  rewrite <- (shown_clock _ _ candidate_shown).
  destruct (from_utc_cases z (to_utc z c) Hz); eauto.
Qed.
End Seed.

(** *** One fire a match *)

Lemma owed_once st t : st <> allof -> owed z (matches e) st t <-> exists m, matches e m /\ reaches z t m.
Proof using.
  unfold owed. split; [intros (m & Hm & [?|[? _]]); [eauto|done]|intros (m & ? & ?); eauto].
Qed.

Lemma next_once st after t m :
  st <> allof -> after < t -> matches e m -> reaches z t m ->
  (forall t' m', matches e m' -> reaches z t' m' -> after < t' -> t <= t') ->
  next_owed z (matches e) st after t.
Proof using.
  intros Hst Hlt Hm Hr Hfirst. split_and!; [done|apply owed_once; eauto|].
  intros t' Ht' (m' & Hm' & Hr')%owed_once; [|done]. specialize (Hfirst t' m' Hm' Hr'). lia.
Qed.

(** Past a range whose first pass is spent. *)
Lemma next_beyond st after T a b m d :
  st <> allof -> overlap (z_before z) (z_trans z) T a b -> T + b - a <= after < T + a - b ->
  (forall m', matches e m' -> T + b <= m' < T + a -> m' - a <= after) ->
  matches e m -> T + a <= m -> (forall m', matches e m' -> T + a <= m' -> m <= m') ->
  reaches z (to_utc z d) m ->
  next_owed z (matches e) st after (to_utc z d).
Proof using.
  intros Hst H Hs Hspent Hm Hge Hmin Hr. apply (next_once st after _ m); try done.
  - assert (T + a - b <= to_utc z d); [|lia]. apply (rep_above _ _ _ _ H). destruct Hr. lia.
  - intros t' m' Hm' Hr' Ht'. destruct (Z.le_gt_cases (T + a) m') as [Hbig|Hsmall].
    { eapply reaches_mono; [exact Hr|exact Hr'|auto]. }
    destruct (Z.le_gt_cases (T + b) m') as [Hin|Hlow].
    + specialize (Hspent m' Hm' ltac:(lia)).
      pose proof (reaches_unique _ _ _ _ Hr' (rep_reaches _ _ _ _ H m' ltac:(lia))). lia.
    + pose proof (rep_falls _ _ _ _ H).
      pose proof (reaches_mono _ _ _ _ _ Hr' (rep_reaches _ _ _ _ H (T + b) ltac:(lia))). lia.
Qed.

Lemma beyond_arm st after T a b w :
  st <> allof -> repeated z T a b w -> T + b - a <= after < T + a - b ->
  (forall m', matches e m' -> T + b <= m' < T + a -> m' - a <= after) ->
  exists d, (let* beyond := beyond_range e (Some (T + b, T + a)) w in
             _check_gap recursion_room z (mkaware beyond false)) = Ok d /\
            shown z d /\ next_owed z (matches e) st after (to_utc z d).
Proof using Hz Hnaive Hgap L.
  intros Hst [H Hw] Hs Hspent.
  destruct (beyond_range_ends (T + b, T + a) w Hw) as (m & -> & Hm & Hge & Hmin).
  destruct (check_gap_resolves m Hm) as (d & Hd & Hsh & Hr). cbn [rbind].
  exists d. split_and!; [done|done|]. now apply (next_beyond _ _ T a b m).
Qed.

Lemma ordinary_once st tz after :
  st <> allof -> (tz = "UTC"%string -> z_trans z = []) ->
  exists d, ordinary_arm e tz after z st = Ok [d] /\ shown z d /\
            next_owed z (matches e) st after (to_utc z d).
Proof using Hz Hnaive Haware Hgap L.
  intros Hst Hutc. unfold ordinary_arm.
  destruct (Haware _ (seed_shown after)) as [c Hc]. rewrite Hc. cbn [or_bad_date rbind].
  pose proof (candidate_shown after c Hc) as Hsh.
  rewrite Hsh, Z.eqb_refl. cbn [negb].
  destruct (candidate_cases after c Hc) as [(t & Hp)|(T & a & b & Hrep)].
  - rewrite (unambiguous_plain _ _ _ Hp).
    destruct (candidate_plain after c Hc t Hp) as (He & Hlt & m & Hm & Hr).
    exists c. split_and!; [now destruct (_ && _)|done|].
    rewrite He. apply (next_once st after t m); try done.
    intros t' m' Hm' Hr' Ht'. rewrite <- He. exact (candidate_first after c Hc t' m' Hm' Hr' Ht').
  - replace (_ && _) with false.
    2:{ symmetry. apply andb_false_iff. right. apply String.eqb_neq. intros Htz.
        destruct Hrep as [H ?]. pose proof (ov_second _ _ _ _ _ H T) as Hs.
        pose proof (rep_falls _ _ _ _ H). rewrite (Hutc Htz) in Hs. specialize (Hs ltac:(lia)). done. }
    pose proof (candidate_repeated after c Hc _ _ _ Hrep) as [Hm Hu].
    pose proof Hrep as [H Hw]. rewrite (ambiguous_inside _ _ _ _ H) by done.
    rewrite decide_False by done. unfold _fold_to_utc. rewrite (rep_to_utc _ _ _ _ H) by done.
    pose proof (rep_falls _ _ _ _ H) as Hf. destruct (Z.ltb_spec after (wall c - a)) as [Hlt|Hle].
    + exists (mkaware (wall c) false). assert (0 < minute) by done.
      unfold shown. rewrite (rep_to_utc _ _ _ _ H) by done. split_and!; [done| |].
      { rewrite (rep_from_first _ _ _ _ H) by lia. f_equal. lia. }
      apply (next_once st after _ (wall c)); try done; [now apply (rep_reaches _ _ _ _ H)|].
      intros t' m' Hm' Hr' Ht'. pose proof (candidate_first after c Hc t' m' Hm' Hr' Ht').
      destruct (fold c); lia.
    + pose proof (seed_in_range after c Hc _ _ _ Hrep Hle) as Hs.
      unfold _first_match_beyond_repeated_range. rewrite (bounds_repeated _ _ _ _ H) by done.
      destruct (beyond_arm st after T a b (wall c)) as (d & -> & ?); try done; [|eauto].
      intros m' Hm' Hin. destruct (Z.le_gt_cases (m' - a) after) as [|Hgt]; [done|].
      pose proof (candidate_first after c Hc (m' - a) m' Hm' (rep_reaches _ _ _ _ H m' Hin) Hgt) as Hcf.
      destruct (candidate_later after c Hc) as [Hl|Hl]; [|destruct (fold c); lia].
      rewrite (rep_clock_first _ _ _ _ H) in Hl by (unfold minute, second; lia). lia.
Qed.

Lemma seed_arm_once st after :
  st <> allof ->
  fold1_seed_arm e (from_utc z after) z st = Ok None \/
  exists d, fold1_seed_arm e (from_utc z after) z st = Ok (Some d) /\ shown z d /\
            next_owed z (matches e) st after (to_utc z d).
Proof using Hz Hnaive Haware Hgap L.
  intros Hst. unfold fold1_seed_arm. destruct (fold (from_utc z after)) eqn:Hf; [|by left].
  destruct (fold_repeated z after Hz Hf) as (T & a & b & [H Hw] & Ht).
  rewrite seed_wall, (bounds_repeated _ _ _ _ H) by done.
  destruct (Haware _ (seed_shown after)) as [c Hc]. rewrite Hc. cbn [or_bad_date rbind].
  destruct (in_range _ _) eqn:Hin; [|by left]. right. unfold in_range in Hin. cbn in Hin. zbool.
  rewrite decide_False by done. pose proof (rep_falls _ _ _ _ H).
  destruct (beyond_arm st after T a b (wall c)) as (d & Hd & ?); try done; [lia|lia|].
  exists d. split; [|done]. destruct (beyond_range _ _ _); [|done]. cbn [rbind] in *. now rewrite Hd.
Qed.

Lemma walk_once st tz after :
  st <> allof -> (tz = "UTC"%string -> z_trans z = []) ->
  exists r, walk_in_zone e tz after z st = Ok r /\ answers z (matches e) st after r.
Proof using Hz Hnaive Haware Hgap L.
  intros Hst Hutc. unfold walk_in_zone. rewrite decide_False by done. cbn [rbind].
  destruct (seed_arm_once st after Hst) as [->|(d & -> & ?)]; cbn [rbind]; [|by exists [d]].
  destruct (ordinary_once st tz after Hst Hutc) as (d & -> & ?). by exists [d].
Qed.

(** *** Both passes of a repeated range *)

(** What is owed is reached for the first time, or shown again on a second pass. *)
Lemma owed_cases t :
  owed z (matches e) allof t ->
  (exists m, matches e m /\ reaches z t m) \/
  exists T a b, overlap (z_before z) (z_trans z) T a b /\ T <= t < T + a - b /\ matches e (t + b).
Proof using Hz.
  intros (m & Hm & [Hr|[_ Hc]]); [by eauto|].
  destruct (from_utc_cases z t Hz) as [Hp|(T & a & b & H & Hw)].
  - left. exists m. split; [done|]. rewrite <- Hc. exact (plain_reaches _ _ _ Hp).
  - destruct (rep_inside _ _ _ _ H t Hw) as [(Ht & He & _)|(Ht & He & _)].
    + left. exists m. split; [done|]. pose proof (rep_reaches _ _ _ _ H (t + a) ltac:(lia)) as Hr.
      replace (t + a - a) with t in Hr by lia. now rewrite <- Hc, He.
    + right. exists T, a, b. split_and!; try done; try lia. now rewrite <- He, Hc.
Qed.

(** In a repeated range, what is owed is what the clock shows. *)
Lemma owed_inside T a b t :
  overlap (z_before z) (z_trans z) T a b -> T + b - a <= t < T + a - b ->
  owed z (matches e) allof t -> matches e (if t <? T then t + a else t + b).
Proof using.
  intros H Ht (m & Hm & Hor). assert (T + b <= clock_at z t < T + a) as Hin.
  { pose proof (rep_below _ _ _ _ H t). pose proof (rep_above _ _ _ _ H t). lia. }
  assert (clock_at z t = m) as Hc.
  { destruct Hor as [Hr|[_ Hc]]; [|done]. now apply (reaches_inside _ _ _ _ _ H Hin). }
  destruct (rep_inside _ _ _ _ H t Hin) as [(? & He & _)|(? & He & _)].
  - rewrite (proj2 (Z.ltb_lt t T)) by lia. congruence.
  - rewrite (proj2 (Z.ltb_ge t T)) by lia. congruence.
Qed.

(** The two arms ahead of the ordinary walk, when they have nothing to answer. *)
Definition first_pass_left (after : Z) : Prop :=
  forall T a b, overlap (z_before z) (z_trans z) T a b -> T + b - a <= after < T ->
  (exists n, matches e n /\ T + b <= n < T + a /\ after < n - a) \/
  (forall m, matches e m -> ~ T + b <= m < T + a).

Definition second_pass_left (after : Z) (c : aware) : Prop :=
  forall T a b, overlap (z_before z) (z_trans z) T a b -> T <= after < T + a - b ->
  ~ T + b <= wall c < T + a.

Lemma fold1_arm after :
  (_next_fold1_fire e (from_utc z after) z = Ok None /\ first_pass_left after) \/
  exists d, _next_fold1_fire e (from_utc z after) z = Ok (Some d) /\ shown z d /\
            next_owed z (matches e) allof after (to_utc z d).
Proof using Hz Hnaive L.
  unfold _next_fold1_fire. rewrite seed_wall.
  destruct (from_utc_cases z after Hz) as [Hp|(T & a & b & H & Hw)].
  { left. rewrite (plain_from_utc _ _ _ Hp), (bounds_plain _ _ _ Hp). split; [done|].
    intros T a b H Ht. assert (0 < minute) by done. pose proof (rep_falls _ _ _ _ H).
    pose proof (bounds_plain _ _ _ Hp) as Hb.
    rewrite (rep_clock_first _ _ _ _ H), (bounds_repeated _ _ _ _ H) in Hb by lia. done. }
  rewrite (bounds_repeated _ _ _ _ H) by done. pose proof (rep_falls _ _ _ _ H) as Hf.
  assert (0 < minute) as Hmin by done.
  destruct (rep_inside _ _ _ _ H after Hw) as [(Ht & He & ->)|(Ht & He & Hfu)]; cbn [fold].
  2:{ left. rewrite Hfu. split; [done|]. intros T' a' b' H' Ht'.
      rewrite (rep_from_first _ _ _ _ H') in Hfu by lia. done. }
  assert (forall T' a' b', overlap (z_before z) (z_trans z) T' a' b' -> T' + b' - a' <= after < T' ->
            T' = T /\ a' = a /\ b' = b) as Hsame.
  { intros T' a' b' H' Ht'. pose proof (rep_falls _ _ _ _ H').
    pose proof (rep_clock_first _ _ _ _ H' after ltac:(lia)) as He'.
    pose proof (bounds_repeated _ _ _ _ H' (after + a') ltac:(lia)) as Hb'.
    replace (after + a') with (after + a) in Hb' by lia.
    rewrite (bounds_repeated _ _ _ _ H) in Hb' by lia. injection Hb'. lia. }
  destruct (Hnaive (clock_at z after)) as [nxt Hn]. rewrite Hn. cbn [or_bad_date rbind].
  apply naive_next in Hn as (Hn1 & Hn2 & Hn3). destruct (Z.ltb_spec nxt (T + a)).
  { left. split; [done|]. intros T' a' b' H' (-> & -> & ->)%Hsame; [|done].
    left. exists nxt. split_and!; try done; lia. }
  destruct (Hnaive (T + b - second)) as [first Hfi]. rewrite Hfi. cbn [or_bad_date rbind].
  apply naive_next in Hfi as (Hf1 & Hf2 & Hf3). assert (0 < second) by done.
  destruct (Z.leb_spec (T + a) first) as [Hge|Hlt].
  { left. split; [done|]. intros T' a' b' H' (-> & -> & ->)%Hsame; [|done].
    right. intros m Hm Hin. destruct (Hf3 m); [lia|done]. }
  assert (T + b <= first) as Hfirst.
  { pose proof (ov_minute _ _ _ _ _ H) as Hm. apply matches_seconds, Z.mod_divide in Hf2 as [x ->]; [|done].
    clear -Hm Hf1. minutes. lia. }
  right. eexists. split; [done|]. unfold shown, _fold_to_utc. rewrite (rep_to_utc _ _ _ _ H) by lia.
  split; [rewrite (rep_from_second _ _ _ _ H) by lia; f_equal; lia|]. split_and!; [lia| |].
  { exists first. split; [done|]. right. split; [done|]. rewrite (rep_clock_second _ _ _ _ H); lia. }
  intros t' Ht' Ho. apply (owed_inside _ _ _ _ H) in Ho; [|lia].
  destruct (Z.ltb_spec t' T); [apply (Hn3 (t' + a))|apply (Hf3 (t' + b))]; try done; lia.
Qed.

Section Passes.
Context (after : Z) (c : aware) (Hc : get_next_aware e z (from_utc z after) = Some c).

Lemma seed_arm_both :
  (fold1_seed_arm e (from_utc z after) z allof = Ok None /\ second_pass_left after c) \/
  exists d, fold1_seed_arm e (from_utc z after) z allof = Ok (Some d) /\ shown z d /\
            next_owed z (matches e) allof after (to_utc z d).
Proof using Hz Hc L.
  unfold fold1_seed_arm. destruct (fold (from_utc z after)) eqn:Hf.
  2:{ left. split; [done|]. intros T a b H Ht. now rewrite (rep_from_second _ _ _ _ H) in Hf by lia. }
  destruct (fold_repeated z after Hz Hf) as (T & a & b & [H Hw] & Ht).
  rewrite seed_wall, (bounds_repeated _ _ _ _ H), Hc by done. cbn [or_bad_date rbind].
  pose proof (rep_falls _ _ _ _ H) as Hlt.
  pose proof (rep_clock_second _ _ _ _ H after ltac:(lia)) as He.
  unfold in_range. cbn [fst snd]. destruct (_ && _) eqn:Hin.
  2:{ left. split; [done|]. intros T' a' b' H' Ht' Hw'.
      pose proof (rep_falls _ _ _ _ H').
      pose proof (rep_clock_second _ _ _ _ H' after ltac:(lia)) as He'.
      pose proof (bounds_repeated _ _ _ _ H' (after + b') ltac:(lia)) as Hb'.
      replace (after + b') with (after + b) in Hb' by lia.
      rewrite (bounds_repeated _ _ _ _ H) in Hb' by lia. injection Hb' as Hb1 Hb2.
      rewrite Hb1, Hb2 in Hin. apply andb_false_iff in Hin as [Hi|Hi]; zbool; lia. }
  zbool. rewrite decide_True by done. right.
  pose proof (candidate_repeated after c Hc T a b (conj H (conj H0 H1))) as [Hm Hu].
  eexists. split; [done|]. unfold shown, _fold_to_utc. rewrite (rep_to_utc _ _ _ _ H) by done.
  assert (after < wall c - b) as Hlater.
  { destruct (candidate_later after c Hc) as [Hl|Hl]; [lia|destruct (fold c); lia]. }
  split; [rewrite (rep_from_second _ _ _ _ H) by lia; f_equal; lia|]. split_and!; [done| |].
  { exists (wall c). split; [done|]. right. split; [done|]. rewrite (rep_clock_second _ _ _ _ H); lia. }
  intros t' Ht' Ho. apply (owed_inside _ _ _ _ H) in Ho; [|lia].
  rewrite (proj2 (Z.ltb_ge t' T)) in Ho by lia.
  pose proof (aware_first e z _ c (t' + b) Hz (seed_shown after) Hc Ho) as Hfirst.
  rewrite seed_wall, He, (first_at_eq _ _ (rep_reaches _ _ _ _ H (t' + b) ltac:(lia))) in Hfirst.
  specialize (Hfirst ltac:(lia) ltac:(lia)). destruct (fold c); lia.
Qed.

Context (Hone : first_pass_left after) (Htwo : second_pass_left after c).

(** No second pass comes between the seed and the candidate. *)
Lemma no_replay T a b t :
  overlap (z_before z) (z_trans z) T a b -> T <= t < T + a - b -> matches e (t + b) ->
  after < t < to_utc z c -> False.
Proof using Hz Hc Hone Htwo L.
  intros H Ht Hm Hbetween. pose proof (rep_falls _ _ _ _ H).
  pose proof (rep_reaches _ _ _ _ H (t + b) ltac:(lia)) as Hr.
  destruct (Z.lt_ge_cases after (t + b - a)) as [Hlt|Hge].
  { pose proof (candidate_first after c Hc _ _ Hm Hr Hlt). lia. }
  destruct (Z.lt_ge_cases after T) as [Hfirst|Hsecond].
  - destruct (Hone T a b H ltac:(lia)) as [(n & Hn & Hin & Hgt)|Hnone].
    + pose proof (candidate_first after c Hc _ _ Hn (rep_reaches _ _ _ _ H n Hin) Hgt). lia.
    + apply (Hnone _ Hm). lia.
  - specialize (Htwo T a b H ltac:(lia)).
    pose proof (shown_clock _ _ (candidate_shown after c Hc)) as Hcl.
    pose proof (rep_below _ _ _ _ H (to_utc z c)) as Hb. rewrite Hcl in Hb.
    pose proof (aware_first e z _ c (t + b) Hz (seed_shown after) Hc Hm) as Hf.
    rewrite seed_wall, (rep_clock_second _ _ _ _ H after), (first_at_eq _ _ Hr) in Hf by lia. lia.
Qed.

Lemma next_both t :
  after < t -> t <= to_utc z c -> owed z (matches e) allof t ->
  next_owed z (matches e) allof after t.
Proof using Hz Hc Hone Htwo L.
  intros Hlt Hle Ho. split_and!; [done|done|].
  intros t' Ht' [(m & Hm & Hr)|(T & a & b & H & Hin & Hm)]%owed_cases.
  - pose proof (candidate_first after c Hc _ _ Hm Hr). lia.
  - apply (no_replay T a b t' H Hin Hm). lia.
Qed.

Lemma ordinary_both tz :
  exists r, ordinary_arm e tz after z allof = Ok r /\ answers z (matches e) allof after r.
Proof using Hz Hc Hone Htwo L.
  unfold ordinary_arm. rewrite Hc. cbn [or_bad_date rbind].
  rewrite bool_decide_false by done. cbn [andb].
  pose proof (candidate_shown after c Hc) as Hsh. rewrite Hsh, Z.eqb_refl. cbn [negb].
  destruct (candidate_cases after c Hc) as [(t & Hp)|(T & a & b & Hrep)].
  - rewrite (unambiguous_plain _ _ _ Hp).
    destruct (candidate_plain after c Hc t Hp) as (He & Hlt & m & Hm & Hr).
    exists [c]. split; [done|]. split; [done|]. rewrite He. apply next_both; [done|lia|].
    exists m. auto.
  - pose proof (candidate_repeated after c Hc _ _ _ Hrep) as [Hm Hu].
    pose proof Hrep as [H Hw]. rewrite (ambiguous_inside _ _ _ _ H) by done.
    rewrite decide_True by done. unfold _fold_to_utc. eexists. split; [done|].
    pose proof (rep_falls _ _ _ _ H) as Hf. assert (0 < minute) by done.
    unfold answers, shown. rewrite !(rep_to_utc _ _ _ _ H) by done.
    rewrite (rep_from_first _ _ _ _ H), (rep_from_second _ _ _ _ H) by lia.
    split_and!; [done|f_equal; lia|f_equal; lia| |done|lia].
    apply next_both; [|destruct (fold c); lia|].
    + destruct (Z.lt_ge_cases after (wall c - a)) as [|Hge]; [done|exfalso].
      pose proof (seed_in_range after c Hc _ _ _ Hrep Hge) as Hs.
      destruct (Z.lt_ge_cases after T) as [Hfirst|Hsecond]; [|by apply (Htwo T a b H ltac:(lia))].
      destruct (Hone T a b H ltac:(lia)) as [(n & Hn & Hin & Hgt)|Hnone]; [|by apply (Hnone _ Hm)].
      pose proof (candidate_first after c Hc _ _ Hn (rep_reaches _ _ _ _ H n Hin) Hgt) as Hcf.
      destruct (candidate_later after c Hc) as [Hl|Hl]; [|destruct (fold c); lia].
      rewrite (rep_clock_first _ _ _ _ H) in Hl by lia. lia.
    + exists (wall c). split; [done|]. left. now apply (rep_reaches _ _ _ _ H).
Qed.
End Passes.

Lemma walk_both tz after :
  exists r, walk_in_zone e tz after z allof = Ok r /\ answers z (matches e) allof after r.
Proof using Hz Hnaive Haware L.
  unfold walk_in_zone. rewrite decide_True by done.
  destruct (fold1_arm after) as [[-> Hone]|(d & -> & ?)]; cbn [rbind]; [|by exists [d]].
  destruct (Haware _ (seed_shown after)) as [c Hc].
  destruct (seed_arm_both after c Hc) as [[-> Htwo]|(d & -> & ?)]; cbn [rbind]; [|by exists [d]].
  now apply (ordinary_both after c).
Qed.
End Exact.

(** ** The interface can be met

    A package that walks wall clocks and resolves the match it finds has the laws, whatever
    its expressions. *)

Section WallWalk.
Context (nx : string -> Z -> option Z) (matches : string -> Z -> Prop).
Context (Hnx : forall e w m, nx e w = Some m ->
  w < m /\ matches e m /\ forall m', w < m' < m -> ~ matches e m').
Context (Hsec : forall e m, matches e m -> m mod second = 0).

Definition wall_walker : Croniter := {|
  is_valid := fun _ => true;
  get_next := nx;
  get_next_aware e z d :=
    match nx e (wall d) with Some m => Some (from_utc z (first_at z m)) | None => None end
|}.

Lemma wall_walker_laws : CroniterLaws wall_walker matches.
Proof using Hnx Hsec.
  split; cbn; try done.
  all: intros e z d c; intros.
  all: destruct (nx e (wall d)) as [n|] eqn:Hn; [|done]; simplify_eq.
  all: destruct (Hnx _ _ _ Hn) as (Hlt & Hm & Hnone).
  all: pose proof (first_at_reaches z n ltac:(done)) as Hr.
  - split; [now apply from_utc_shown|]. exists n. rewrite to_from_utc by done. auto.
  - left. destruct Hr as [Hr _]. unfold clock_at in Hr. lia.
  - rewrite to_from_utc by done.
    apply (reaches_mono z _ _ _ _ Hr (first_at_reaches z _ ltac:(done))).
    destruct (Z.le_gt_cases n m); [done|]. destruct (Hnone m); [lia|done].
Qed.
End WallWalk.

(** Expressions that match every so often, and the zone of New York in 2026. *)
Definition hour : Z := 60 * minute.

Definition demo_period (e : string) : Z * Z :=
  if String.eqb e "30 1 * * *" then (24 * hour, 90 * minute)
  else if String.eqb e "*/30 * * * *" then (30 * minute, 0)
  else (hour, 0).

Definition demo_next (e : string) (w : Z) : option Z :=
  let '(p, k) := demo_period e in Some (((w - k) / p + 1) * p + k).

Definition demo_matches (e : string) (m : Z) : Prop :=
  let '(p, k) := demo_period e in (m - k) mod p = 0.

Definition demo_croniter : Croniter := wall_walker demo_next.

Definition new_york : zone :=
  mkzone (-5 * hour)
    [(1772953200 * second, -4 * hour); (1793512800 * second, -5 * hour); (1805007600 * second, -4 * hour)].

Definition demo_zones (tz : string) : option zone :=
  if String.eqb tz "America/New_York" then Some new_york
  else if String.eqb tz "UTC" then Some (mkzone 0 []) else None.

Lemma demo_period_minutes e :
  0 < (demo_period e).1 /\ (minute | (demo_period e).1) /\ (minute | (demo_period e).2).
Proof.
  unfold demo_period. repeat case_match; cbn [fst snd]; (split; [reflexivity|]); split.
  - exists (24 * 60). reflexivity.
  - exists 90. reflexivity.
  - exists 30. reflexivity.
  - exists 0. reflexivity.
  - exists 60. reflexivity.
  - exists 0. reflexivity.
Qed.

Lemma demo_matches_minutes e m : demo_matches e m -> m mod minute = 0.
Proof.
  unfold demo_matches. destruct (demo_period_minutes e) as (Hp & Hd1 & Hd2), (demo_period e) as [p k].
  cbn [fst snd] in *. intros H. apply Z.mod_divide in H; [|lia]. apply Z.mod_divide; [done|].
  replace m with (m - k + k) by lia. apply Z.divide_add_r; [|done]. now apply (Z.divide_trans _ p).
Qed.

Lemma demo_next_first e w m :
  demo_next e w = Some m ->
  w < m /\ demo_matches e m /\ forall m', w < m' < m -> ~ demo_matches e m'.
Proof.
  unfold demo_next, demo_matches. destruct (demo_period_minutes e) as (Hp & _), (demo_period e) as [p k].
  cbn [fst snd] in *. intros [= <-].
  pose proof (Z.mul_div_le (w - k) p Hp) as Hlo. pose proof (Z.mul_succ_div_gt (w - k) p Hp) as Hhi.
  set (q := (w - k) / p) in *. split_and!; [lia| |].
  - replace ((q + 1) * p + k - k) with ((q + 1) * p) by lia. now apply Z.mod_mul; lia.
  - intros m' Hm' Hd. apply Z.mod_divide in Hd as [j Hj]; [|lia].
    assert (j * p < (q + 1) * p) as Hlt by lia. apply Z.mul_lt_mono_pos_r in Hlt; [|done].
    assert (j * p <= q * p) by (apply Z.mul_le_mono_nonneg_r; lia). lia.
Qed.

#[export] Instance demo_laws : CroniterLaws demo_croniter demo_matches.
Proof.
  apply wall_walker_laws; [exact demo_next_first|].
  intros e m H%demo_matches_minutes. apply Z.mod_divide in H as [x ->]; [|done].
  apply Z.mod_divide; [done|]. exists (x * 60). unfold minute. lia.
Qed.

Lemma new_york_wf : wf_zone new_york.
Proof. split; [done|]. cbn. repeat split; vm_compute; done. Qed.

(** ** Both strategies, and the function that wraps them *)

(** What is asked of a zone and an expression: transitions that keep apart, matches that never
    run out, and no match inside a gap but on a whole minute. *)
Record fit {C : Croniter} (matches : string -> Z -> Prop) (z : zone) (e tz : string) : Prop := {
  fit_zone : wf_zone z;
  fit_utc : tz = "UTC"%string -> z_trans z = [];
  fit_naive w : is_Some (get_next e w);
  fit_aware d : shown z d -> is_Some (get_next_aware e z d);
  fit_gaps m T a b : matches e m -> skipped z T a b m -> m mod minute = 0
}.

Lemma walk_exact {C : Croniter} {matches} {L : CroniterLaws C matches} z e tz after st :
  fit matches z e tz ->
  exists r, walk_in_zone e tz after z st = Ok r /\ answers z (matches e) st after r.
Proof.
  intros [Hz Hutc Hn Ha Hg]. destruct (decide (st = allof)) as [->|Hst].
  - exact (walk_both z Hz e Hn Ha tz after).
  - exact (walk_once z Hz e Hn Ha Hg st tz after Hst Hutc).
Qed.

Lemma demo_fit e : fit (C := demo_croniter) demo_matches new_york e "America/New_York".
Proof.
  split; [exact new_york_wf|done|..].
  - intros w. cbn. unfold demo_next. destruct (demo_period e). eauto.
  - intros d _. cbn. unfold demo_next. destruct (demo_period e). eauto.
  - intros m T a b Hm _. now apply demo_matches_minutes in Hm.
Qed.

(** An expression no date satisfies. *)
Lemma never_matching {C : Croniter} z e tz after st :
  (forall w, get_next e w = None) -> (forall d, get_next_aware e z d = None) ->
  walk_in_zone e tz after z st = Err CroniterBadDateError.
Proof.
  intros Hn Ha. unfold walk_in_zone, _next_fold1_fire, fold1_seed_arm, ordinary_arm. rewrite !Hn, !Ha. cbn.
  destruct (fold (from_utc z after)), (repeated_range_bounds z _) as [[]|]; case_decide; done.
Qed.

(** C10: The fire times are exact.  For a zone whose offsets and transitions are whole minutes, each
    transition's shift at most fifteen hours and over before the next begins, and for an
    expression whose matches never run out and lie on whole minutes where the clock skips them,
    given what croniter documents of its walk ([CroniterLaws]): for every strategy and seed,
    [compute_next_fire_after] returns, and it answers the first instant after its seed at which a fire is
    owed: when the zone's clock reaches a match (at a gap's end for a match the clock jumps over),
    and under [allof] also when the clock shows a match for the second time; two answers are the two
    passes of one match.  For an expression no date satisfies it raises [ValueError]. *)
Theorem fire_times_exact {C : Croniter} {matches} {L : CroniterLaws C matches} zones z e tz after st :
  zones tz = Some z ->
  (fit matches z e tz -> exists r, compute_next_fire_after zones e tz after st = Ok r /\ answers z (matches e) st after r) /\
  ((forall w, get_next e w = None) -> (forall d, get_next_aware e z d = None) ->
   compute_next_fire_after zones e tz after st = Err ValueError).
Proof.
  intros Hz. unfold compute_next_fire_after, _compute_next_fire_after_walking. rewrite Hz. split.
  - intros Hf. destruct (walk_exact z e tz after st Hf) as (r & -> & Hr). eauto.
  - intros Hn Ha. by rewrite never_matching.
Qed.

(** The day before New York falls back: the schedule at 01:30 fires on both passes. *)
Theorem fire_times_exact_witness :
  let fall_back := 1793512800 * second in
  let before := fall_back - 24 * hour - 30 * minute in
  fit (C := demo_croniter) demo_matches new_york "30 1 * * *" "America/New_York" /\
  compute_next_fire_after (H := demo_croniter) demo_zones "30 1 * * *" "America/New_York" before allof
    = Ok [mkaware (fall_back - 4 * hour - 30 * minute) false; mkaware (fall_back - 4 * hour - 30 * minute) true] /\
  exists r, compute_next_fire_after (H := demo_croniter) demo_zones "30 1 * * *" "America/New_York" before allof = Ok r /\
            answers new_york (demo_matches "30 1 * * *") allof before r.
Proof.
  split; [apply demo_fit|]. split; [vm_compute; reflexivity|].
  apply (fire_times_exact (C := demo_croniter) (matches := demo_matches) demo_zones new_york); [reflexivity|apply demo_fit].
Defined.

(** The errors: an unknown zone is a [KeyError]'s kin, not the [ValueError] the docstring names,
    and the package's own exception never escapes. *)
Theorem unknown_zone_is_no_value_error {C : Croniter} zones e tz after st :
  zones tz = None -> compute_next_fire_after zones e tz after st = Err ZoneInfoNotFoundError.
Proof. intros Hz. unfold compute_next_fire_after, _compute_next_fire_after_walking. now rewrite Hz. Qed.

Theorem bad_date_is_wrapped {C : Croniter} zones e tz after st :
  compute_next_fire_after zones e tz after st <> Err CroniterBadDateError.
Proof. unfold compute_next_fire_after. destruct (_compute_next_fire_after_walking _ _ _ _ _) as [|[]]; done. Qed.
