(* ===== verification/CronTick.v ===== *)
(** * The cron tick

    [src/taskq/worker/cron_loop.py]: one tick selects a bounded batch of due schedules, plans
    each fire in memory, passes over repeated-hour occurrences already delivered, drops what a
    singleton or a cap refuses, writes the jobs, and advances the schedules.

    A tick is one transaction.  It takes the cron lock, reads the due schedules, and writes at
    its end; [rows_then] are the schedules as the writes find them, so that an operator's
    change between the two is part of the model.  The payload factories are user code and
    the time they take is the world's: what a factory does and what the monotonic clock reads
    are arguments ([fire_luck]), as is what the backend's [enqueue_batch] does ([writer]) and which
    errors the driver calls transient.  Spans, logs, metrics and the commit gate they wait
    behind are left out. *)

From Stdlib Require Import ZArith Lia QArith String Ascii.
From stdpp Require Import base gmap list sorting strings.
From S2P Require Import Prelude PyText PyFloat Retry JobRow EnqueueArgs Session Zone CronTime.

Open Scope Z_scope.

(** ** Rows *)

Inductive disabler := auto | operator.

#[export] Instance disabler_eq_dec : EqDecision disabler.
Proof. solve_decision. Defined.

(** A row of [cron_schedules]; of [metadata] the static payload is what a fire reads. *)
Record schedule := {
  c_actor : string;
  c_name : string;
  cron_expr : string;
  timezone : string;
  dst_strategy : string;
  payload_factory : option string;
  c_identity_key : option string;
  enabled : bool;
  disabled_by : option disabler;
  last_fired_at : option Z;
  last_fire_error : option string;
  consecutive_failures : Z;
  next_fire_at : Z;
  static_payload : option jobj
}.

#[export] Instance schedule_copy : Copy schedule := fun s =>
  {| c_actor := c_actor s; c_name := c_name s; cron_expr := cron_expr s; timezone := timezone s;
     dst_strategy := dst_strategy s; payload_factory := payload_factory s;
     c_identity_key := c_identity_key s; enabled := enabled s; disabled_by := disabled_by s;
     last_fired_at := last_fired_at s; last_fire_error := last_fire_error s;
     consecutive_failures := consecutive_failures s; next_fire_at := next_fire_at s;
     static_payload := static_payload s |}.

Record ActorFirePolicy := { p_singleton : bool; p_max_pending : option Z }.

Record _ActorConfig := {
  ac_queue : string;
  ac_max_attempts : Z;
  ac_retry_kind : string;
  ac_max_pending : option Z;
  ac_retry_base : option Z;
  ac_retry_cap : option Z;
  ac_retry_backoff : option string;
  ac_retry_jitter : option Q
}.

Record cron_settings := {
  dispatcher_command_timeout : Q;
  cron_payload_factory_timeout : Q;
  cron_catch_up_window : Z;
  cron_auto_disable_threshold : Z
}.

(** ** Exceptions *)

(** A unique violation carries its constraint and detail; the carrier is what a factory's
    [SystemExit] crosses the loop in; anything else is its class and text, and the exception it
    was raised [from], if any. *)
Inductive pyexn :=
| UniqueViolation (constraint_name detail : option string) (shown : string)
| _CronFactorySystemExitError (original : pyexn)
| Raised (class_name shown : string)
| RaisedFrom (class_name shown : string) (cause : pyexn).

Definition class_of (e : pyexn) : string :=
  match e with
  | UniqueViolation _ _ _ => "UniqueViolationError"
  | _CronFactorySystemExitError _ => "_CronFactorySystemExitError"
  | Raised c _ | RaisedFrom c _ _ => c
  end.

(** [str(exc)]; the carrier's own text does not matter, it is unwrapped before use. *)
Fixpoint str_of (e : pyexn) : string :=
  match e with
  | UniqueViolation _ _ t => t
  | _CronFactorySystemExitError o => str_of o
  | Raised _ t | RaisedFrom _ t _ => t
  end.

Definition _unwrap_cron_factory_system_exit (e : pyexn) : pyexn :=
  match e with _CronFactorySystemExitError o => o | _ => e end.

Definition cause_of (e : pyexn) : option pyexn :=
  match e with
  | RaisedFrom _ _ c => Some c
  | _ => None
  end.

(** [value.replace("\x00", "\\x00")]. *)
Fixpoint sanitize_nul_str (s : string) : string :=
  match s with
  | EmptyString => EmptyString
  | String c s' =>
      if bool_decide (c = Ascii.zero) then "\x00" +:+ sanitize_nul_str s' else String c (sanitize_nul_str s')
  end.

(** Planning ends in an exception, or in the budget's own one. *)
Inductive plan_exn :=
| _TickBudgetExhaustedError (skipped : Z)
| PlanError (e : pyexn).

(** ** Plans *)

Record _FireSuccess := {
  f_id : Z;
  f_row : schedule;
  f_args : list EnqueueArgs;
  f_next : aware;
  f_actor : string;
  f_skipped_slots : Z;
  f_partial : bool
}.

#[export] Instance fire_copy : Copy _FireSuccess := fun p =>
  {| f_id := f_id p; f_row := f_row p; f_args := f_args p; f_next := f_next p;
     f_actor := f_actor p; f_skipped_slots := f_skipped_slots p; f_partial := f_partial p |}.

Record _FireFailure := {
  x_id : Z;
  x_error_text : string;
  x_consecutive : Z;
  x_auto_disable : bool
}.

Inductive reason := singleton_collision | max_pending_reached | tick_budget.

Record _SuppressedFire := {
  u_id : Z;
  u_actor : string;
  u_next : Z;
  u_reason : reason;
  u_blocking_job_id : option Z;
  u_current_count : option Z;
  u_max_pending : option Z;
  u_skipped_slots : Z
}.

(** What planning one schedule meets: the factory's outcome under its deadline, the monotonic
    clock since the walk began at its [i]-th check and at its end, the same since the tick
    began, and the ids it mints. *)
Record fire_luck := {
  at_check : nat -> Q;
  walk_took : Q;
  elapsed : Q;
  factory : string -> option Q -> result pyexn jobj;
  first_id : Z;
  second_id : Z
}.

Definition DST_STRATEGIES (s : string) : option DstStrategy :=
  if String.eqb s "skip" then Some skip
  else if String.eqb s "firstof" then Some firstof
  else if String.eqb s "allof" then Some allof else None.

Definition parse_retry_kind (s : string) : result pyexn RetryKind :=
  if String.eqb s "transient" then Ok transient
  else if String.eqb s "indefinite" then Ok indefinite
  else if String.eqb s "non_retryable" then Ok non_retryable
  else Err (Raised "ValueError" ("unknown retry_kind from backend row: " +:+ s)).

Definition parse_backoff (s : option string) : option Backoff :=
  match s with
  | Some b =>
      if String.eqb b "exponential" then Some exponential
      else if String.eqb b "linear" then Some linear
      else if String.eqb b "fixed" then Some fixed_backoff else None
  | None => None
  end.

Definition _DEFAULT_RETRY_BASE : Z := 5 * second.
Definition _DEFAULT_RETRY_CAP : Z := 3600 * second.
Definition _DEFAULT_RETRY_BACKOFF : Backoff := exponential.
Definition _DEFAULT_RETRY_JITTER : Q := (1 # 5)%Q.

(** [stored or default] of a timedelta: a zero is as good as none. *)
Definition or_default (d : Z) (o : option Z) : Z :=
  match o with Some v => if v =? 0 then d else v | None => d end.

Definition _resolve_max_pending (stored_ literal : option Z) : option Z :=
  match stored_ with Some _ => stored_ | None => literal end.

Definition _TICK_BUDGET_RETRY_DELAY : Z := second.

Section Tick.
Context `{Rounding} `{Croniter} (zones : string -> option zone).
Context (settings : cron_settings).
Context (cron_message : string -> cron_error -> string).
Context (transient_pg : pyexn -> bool).

(** ** Planning *)

Definition _factory_deadline (elapsed_s : Q) : option Q :=
  let whole_tick := dispatcher_command_timeout settings in
  let funded := fmul whole_tick (fsub 1 (rnd (1 # 10))) in
  let remaining := fsub funded elapsed_s in
  let budget := fmin (cron_payload_factory_timeout settings) remaining in
  let min_fundable := fmin (fmul funded (1 # 4)) (cron_payload_factory_timeout settings) in
  if Qle_bool min_fundable budget then Some budget else None.

Definition walk_slice : Q := fmul (dispatcher_command_timeout settings) (rnd (1 # 10)).

Definition cron_class (e : cron_error) : string :=
  match e with
  | ValueError => "ValueError"
  | ZoneInfoNotFoundError => "ZoneInfoNotFoundError"
  | RecursionError => "RecursionError"
  | CroniterBadDateError => "CroniterBadDateError"
  | Diverges => "Diverges"
  end.

Definition strategy_of (row : schedule) : DstStrategy := default skip (DST_STRATEGIES (dst_strategy row)).

Definition fires_after (row : schedule) (after : Z) (st : DstStrategy) : result pyexn (list aware) :=
  match compute_next_fire_after zones (cron_expr row) (timezone row) after st with
  | Ok l => Ok l
  | Err e => Err (Raised (cron_class e) (cron_message (cron_expr row) e))
  end.

(** [compute_next_fire_after(...)[0]]. *)
Definition first_fire (row : schedule) (after : Z) (st : DstStrategy) : result pyexn aware :=
  let* l := fires_after row after st in
  match l with
  | d :: _ => Ok d
  | [] => Err (Raised "IndexError" "list index out of range")
  end.

(** The instant of a time in the row's zone. *)
Definition instant (row : schedule) (d : aware) : Z :=
  match zones (timezone row) with Some z => to_utc z d | None => wall d end.

(** The count of the slots a late schedule drops: hops from the owed slot to the recomputed one,
    within the tick's slice of walking time. *)
Fixpoint skip_walk (n : nat) (row : schedule) (st : DstStrategy) (lk : fire_luck) (allowance : Q)
    (i : nat) (cursor target count : Z) : result pyexn (Z * bool) :=
  if cursor <? target then
    if Qle_bool allowance (at_check lk i) then Ok (count, true)
    else match n with
         | O => Err (Raised "Diverges" "")
         | S n' =>
             let* nxt := first_fire row cursor st in
             if instant row nxt <=? cursor then Ok (count, false)
             else skip_walk n' row st lk allowance (S i) (instant row nxt) target (count + 1)
         end
  else Ok (count, false).

Definition walk_fuel (cursor target : Z) : nat := Z.to_nat ((target - cursor) / second + 1).

Definition to_plan_exn {A} (r : result pyexn A) : result plan_exn A :=
  match r with Ok a => Ok a | Err e => Err (PlanError e) end.

(** Where the fire stands: the slot it consumes, and what the catch-up dropped.  The budget left
    to later walks is returned beside it, and stays charged when what follows raises. *)
Definition catch_up (row : schedule) (server_now : Z) (lk : fire_luck) (remaining : Q)
  : Q * result plan_exn (Z * Z * bool) :=
  let st := strategy_of row in
  if next_fire_at row <? server_now - cron_catch_up_window settings then
    match first_fire row server_now st with
    | Err e => (remaining, Err (PlanError e))
    | Ok recomputed =>
        let target := instant row recomputed in
        match skip_walk (walk_fuel (next_fire_at row) target) row st lk remaining 0 (next_fire_at row) target 0 with
        | Err e => (remaining, Err (PlanError e))
        | Ok (count, partial) => (fsub remaining (walk_took lk), Ok (target, count, partial))
        end
    end
  else (remaining, Ok (next_fire_at row, 0, false)).

(** The metadata a fire's jobs carry. *)
Definition stamped_metadata (sid : Z) (policy : option ActorFirePolicy) : jobj :=
  let m : jobj := {[ "cron_schedule_id"%string := JUuid sid ]} in
  match policy with
  | Some p => if p_singleton p then <["singleton"%string := JRaw "true"]> m else m
  | None => m
  end.

(** [EnqueueArgs(...)]: the struct is checked as it is built. *)
Definition make_args (a : EnqueueArgs) : result pyexn EnqueueArgs :=
  match __post_init__ a with
  | Ok _ => Ok a
  | Err _ => Err (Raised "ValueError" "EnqueueArgs")
  end.

Definition resolve_payload (row : schedule) (lk : fire_luck) (timeout_s : option Q) : result pyexn jobj :=
  match payload_factory row with
  | Some path => factory lk path timeout_s
  | None => Ok (default ∅ (static_payload row))
  end.

Definition immediate_args (sid : Z) (row : schedule) (ac : _ActorConfig) (policy : option ActorFirePolicy)
    (id : Z) (body : jobj) : result pyexn EnqueueArgs :=
  let* kind := parse_retry_kind (ac_retry_kind ac) in
  make_args
    ((default_args id (c_actor row) (ac_queue ac))
       <| e_payload := body |> <| e_max_attempts := ac_max_attempts ac |> <| e_retry_kind := kind |>
       <| e_retry_base := or_default _DEFAULT_RETRY_BASE (ac_retry_base ac) |>
       <| e_retry_cap := or_default _DEFAULT_RETRY_CAP (ac_retry_cap ac) |>
       <| e_retry_backoff := default _DEFAULT_RETRY_BACKOFF (parse_backoff (ac_retry_backoff ac)) |>
       <| e_retry_jitter := default _DEFAULT_RETRY_JITTER (ac_retry_jitter ac) |>
       <| e_identity_key := c_identity_key row |>
       <| e_metadata := stamped_metadata sid policy |>
       <| e_max_pending := _resolve_max_pending (ac_max_pending ac) (policy ≫= p_max_pending) |>).

(** The later occurrence of a repeated match: it names no retry curve. *)
Definition twin_args (sid : Z) (row : schedule) (ac : _ActorConfig) (policy : option ActorFirePolicy)
    (id : Z) (body : jobj) (at_ : Z) : result pyexn EnqueueArgs :=
  let* kind := parse_retry_kind (ac_retry_kind ac) in
  make_args
    ((default_args id (c_actor row) (ac_queue ac))
       <| e_payload := body |> <| e_max_attempts := ac_max_attempts ac |> <| e_retry_kind := kind |>
       <| e_scheduled_at := Some at_ |>
       <| e_identity_key := c_identity_key row |>
       <| e_metadata := stamped_metadata sid policy |>
       <| e_max_pending := _resolve_max_pending (ac_max_pending ac) (policy ≫= p_max_pending) |>).

Definition is_singleton_policy (policy : option ActorFirePolicy) : bool :=
  match policy with Some p => p_singleton p | None => false end.

(** The half of [_plan_fire] past the catch-up. *)
Definition plan_args (sid : Z) (row : schedule) (configs : gmap string _ActorConfig)
    (policies : gmap string ActorFirePolicy) (lk : fire_luck) (fire_at skipped : Z) (partial : bool)
  : result plan_exn _FireSuccess :=
  match configs !! c_actor row with
  | None => Err (PlanError (Raised "LookupError" ("Actor '" +:+ c_actor row +:+ "' not found in actor_config")))
  | Some ac =>
      let policy := policies !! c_actor row in
      let payload_budget := _factory_deadline (elapsed lk) in
      match payload_factory row, payload_budget with
      | Some _, None => Err (_TickBudgetExhaustedError skipped)
      | _, _ =>
          to_plan_exn (
            let* body := resolve_payload row lk payload_budget in
            let* one := immediate_args sid row ac policy (first_id lk) body in
            let* fires := fires_after row fire_at (strategy_of row) in
            match fires with
            | [] => Err (Raised "IndexError" "list index out of range")
            | next :: later =>
                let plan args := Ok {| f_id := sid; f_row := row; f_args := args; f_next := next;
                                       f_actor := c_actor row; f_skipped_slots := skipped; f_partial := partial |} in
                match later with
                | d :: _ =>
                    if bool_decide (strategy_of row = allof) && negb (is_singleton_policy policy) then
                      let* two := twin_args sid row ac policy (second_id lk) body (instant row d) in
                      plan [one; two]
                    else plan [one]
                | [] => plan [one]
                end
            end)
      end
  end.

Definition _plan_fire (sid : Z) (row : schedule) (server_now : Z) (configs : gmap string _ActorConfig)
    (policies : gmap string ActorFirePolicy) (lk : fire_luck) (remaining : Q)
  : Q * result plan_exn _FireSuccess :=
  let '(remaining', r) := catch_up row server_now lk remaining in
  (remaining',
   let* c := r in
   let '(fire_at, skipped, partial) := c in
   plan_args sid row configs policies lk fire_at skipped partial).

Definition _compute_fire_failure (sid : Z) (row : schedule) (exc : pyexn) : _FireFailure :=
  let consecutive := consecutive_failures row + 1 in
  let said := if String.eqb (str_of exc) "" then class_of exc else str_of exc in
  {| x_id := sid; x_error_text := sanitize_nul_str said; x_consecutive := consecutive;
     x_auto_disable := cron_auto_disable_threshold settings <=? consecutive |}.

Record planned := {
  pl_successes : list _FireSuccess;
  pl_failures : list _FireFailure;
  pl_suppressed : list _SuppressedFire
}.

Definition budget_deferred (sid : Z) (row : schedule) (server_now skipped : Z) : _SuppressedFire :=
  {| u_id := sid; u_actor := c_actor row; u_next := server_now + _TICK_BUDGET_RETRY_DELAY;
     u_reason := tick_budget; u_blocking_job_id := None; u_current_count := None; u_max_pending := None;
     u_skipped_slots := skipped |}.

(** The planning loop: one outcome a due row, the walk budget threaded through. *)
Fixpoint plan_rows (rows : list (Z * schedule)) (server_now : Z) (configs : gmap string _ActorConfig)
    (policies : gmap string ActorFirePolicy) (lk : Z -> fire_luck) (remaining : Q) : planned :=
  match rows with
  | [] => {| pl_successes := []; pl_failures := []; pl_suppressed := [] |}
  | (sid, row) :: rows' =>
      let '(remaining', r) := _plan_fire sid row server_now configs policies (lk sid) remaining in
      let P := plan_rows rows' server_now configs policies lk remaining' in
      match r with
      | Ok p => {| pl_successes := p :: pl_successes P; pl_failures := pl_failures P;
                   pl_suppressed := pl_suppressed P |}
      | Err (_TickBudgetExhaustedError skipped) =>
          {| pl_successes := pl_successes P; pl_failures := pl_failures P;
             pl_suppressed := budget_deferred sid row server_now skipped :: pl_suppressed P |}
      | Err (PlanError e) =>
          {| pl_successes := pl_successes P;
             pl_failures := _compute_fire_failure sid row (_unwrap_cron_factory_system_exit e) :: pl_failures P;
             pl_suppressed := pl_suppressed P |}
      end
  end.

(** ** Occurrences already delivered *)

(** [status IN ('pending', 'scheduled', 'running', 'succeeded', 'cancelled', 'abandoned')]. *)
Definition owns_delivery (r : stored) : bool :=
  bool_decide (row_status r ∈ [pending; scheduled; running; succeeded; cancelled; abandoned]).

(** A job of the schedule's own. *)
Definition stamped_by (sid : Z) (who : string) (r : stored) : bool :=
  bool_decide (row_actor r = who) &&
  bool_decide (metadata (s_job r) !! "cron_schedule_id"%string = Some (JUuid sid)).

Definition delivers (sid : Z) (who : string) (from_ts to_ts : Z) (x : Z * stored) : bool :=
  let at_ := scheduled_at (s_job x.2) in
  stamped_by sid who x.2 && (from_ts <=? at_) && (at_ <? to_ts) && owns_delivery x.2.

Definition delivered (V : gmap Z stored) (sid : Z) (who : string) (from_ts to_ts : Z) : list Z :=
  map (fun x => scheduled_at (s_job x.2)) (List.filter (delivers sid who from_ts to_ts) (map_to_list V)).

Fixpoint hop (n : nat) (row : schedule) (covered : list Z) (range_end : Z) (current : aware) : result pyexn aware :=
  if (instant row current <? range_end) && bool_decide (instant row current ∈ covered) then
    match n with
    | O => Err (Raised "Diverges" "")
    | S n' =>
        let* nxt := first_fire row (instant row current) allof in
        if instant row nxt <=? instant row current then Ok current
        else hop n' row covered range_end nxt
    end
  else Ok current.

(** The end of the repeated range a plan's next fire is in, when the plan is one to look at. *)
Definition twin_query (policies : gmap string ActorFirePolicy) (p : _FireSuccess) : option Z :=
  if is_singleton_policy (policies !! f_actor p) then None
  else if negb (String.eqb (dst_strategy (f_row p)) "allof") then None
  else match zones (timezone (f_row p)) with
       | Some z =>
           match repeated_range_bounds z (wall (f_next p)) with
           | Some (_, end_) => Some (to_utc z (mkaware end_ false))
           | None => None
           end
       | None => None
       end.

Definition skip_delivered (V : gmap Z stored) (policies : gmap string ActorFirePolicy) (p : _FireSuccess)
  : result pyexn _FireSuccess :=
  match twin_query policies p with
  | None => Ok p
  | Some range_end =>
      let covered := delivered V (f_id p) (f_actor p) (instant (f_row p) (f_next p)) range_end in
      let* d := hop (length covered) (f_row p) covered range_end (f_next p) in
      Ok (p <| f_next := d |>)
  end.

Definition _skip_already_delivered_overlap_twins (V : gmap Z stored) (policies : gmap string ActorFirePolicy)
    (successes : list _FireSuccess) : result pyexn (list _FireSuccess) :=
  traverse (skip_delivered V policies) successes.

(** ** The policy preflight *)

Definition min_id (l : list Z) : option Z :=
  match l with
  | [] => None
  | x :: l' => Some (fold_left Z.min l' x)
  end.

(** The actor's oldest live singleton job. *)
Definition blocking (V : gmap Z stored) (policies : gmap string ActorFirePolicy) (who : string) : option Z :=
  if is_singleton_policy (policies !! who) then
    min_id (map fst (List.filter (fun x => bool_decide (row_actor x.2 = who) && live x.2 && singleton_row x.2) (map_to_list V)))
  else None.

Definition capped (V : gmap Z stored) (policies : gmap string ActorFirePolicy)
    (configs : gmap string _ActorConfig) (who : string) : option Z :=
  match blocking V policies who with
  | Some _ => None
  | None => _resolve_max_pending (configs !! who ≫= ac_max_pending) (policies !! who ≫= p_max_pending)
  end.

Definition pending_count (V : gmap Z stored) (who : string) : Z :=
  Z.of_nat (length (List.filter (fun x => bool_decide (row_actor x.2 = who) && queued x.2) (map_to_list V))).

Definition _singleton_suppressed (p : _FireSuccess) (job : Z) : _SuppressedFire :=
  {| u_id := f_id p; u_actor := f_actor p; u_next := instant (f_row p) (f_next p);
     u_reason := singleton_collision; u_blocking_job_id := Some job; u_current_count := None;
     u_max_pending := None; u_skipped_slots := f_skipped_slots p |}.

Definition _max_pending_suppressed (p : _FireSuccess) (current cap : Z) : _SuppressedFire :=
  {| u_id := f_id p; u_actor := f_actor p; u_next := instant (f_row p) (f_next p);
     u_reason := max_pending_reached; u_blocking_job_id := None; u_current_count := Some current;
     u_max_pending := Some cap; u_skipped_slots := f_skipped_slots p |}.

(** What the tick itself is about to create: the first job of each singleton actor, and the
    pending jobs of each capped one. *)
Record intra := { fired_singleton_job : gmap string Z; intra_pending : gmap string Z }.

(** A time of a row's zone, from the instant an argument carries. *)
Definition local_time (row : schedule) (t : Z) : aware :=
  match zones (timezone row) with Some z => from_utc z t | None => mkaware t false end.

Definition admit_plan (V : gmap Z stored) (policies : gmap string ActorFirePolicy)
    (configs : gmap string _ActorConfig) (I : intra) (p : _FireSuccess) : _FireSuccess + _SuppressedFire :=
  match blocking V policies (f_actor p) with
  | Some job => inr (_singleton_suppressed p job)
  | None =>
      match (if is_singleton_policy (policies !! f_actor p) then fired_singleton_job I !! f_actor p else None) with
      | Some job => inr (_singleton_suppressed p job)
      | None =>
          match capped V policies configs (f_actor p) with
          | None => inl p
          | Some cap =>
              let occupied := pending_count V (f_actor p) + default 0 (intra_pending I !! f_actor p) in
              if cap <=? occupied then inr (_max_pending_suppressed p occupied cap)
              else
                let capacity := Z.to_nat (cap - occupied) in
                if (capacity <? length (f_args p))%nat then
                  match f_args p !! capacity ≫= e_scheduled_at with
                  | None => inr (_max_pending_suppressed p occupied cap)
                  | Some deferred_at =>
                      inl (p <| f_args ::= take capacity |> <| f_next := local_time (f_row p) deferred_at |>)
                  end
                else inl p
          end
      end
  end.

Definition note_kept (V : gmap Z stored) (policies : gmap string ActorFirePolicy)
    (configs : gmap string _ActorConfig) (I : intra) (p : _FireSuccess) : intra :=
  {| fired_singleton_job :=
       match is_singleton_policy (policies !! f_actor p), f_args p with
       | true, a :: _ => <[f_actor p := e_id a]> (fired_singleton_job I)
       | _, _ => fired_singleton_job I
       end;
     intra_pending :=
       match capped V policies configs (f_actor p) with
       | Some _ => <[f_actor p := default 0 (intra_pending I !! f_actor p) + Z.of_nat (length (f_args p))]> (intra_pending I)
       | None => intra_pending I
       end |}.

Fixpoint suppress_from (V : gmap Z stored) (policies : gmap string ActorFirePolicy)
    (configs : gmap string _ActorConfig) (I : intra) (l : list _FireSuccess)
  : list _FireSuccess * list _SuppressedFire :=
  match l with
  | [] => ([], [])
  | p :: l' =>
      match admit_plan V policies configs I p with
      | inr u => let '(k, s) := suppress_from V policies configs I l' in (k, u :: s)
      | inl p' =>
          let '(k, s) := suppress_from V policies configs (note_kept V policies configs I p') l' in (p' :: k, s)
      end
  end.

Definition _suppress_policy_collisions (V : gmap Z stored) (successes : list _FireSuccess)
    (policies : gmap string ActorFirePolicy) (configs : gmap string _ActorConfig)
  : list _FireSuccess * list _SuppressedFire :=
  suppress_from V policies configs {| fired_singleton_job := ∅; intra_pending := ∅ |} successes.

(** ** Writing the jobs *)

Fixpoint strip_prefix (p s : text) : option text :=
  match p, s with
  | [], _ => Some s
  | a :: p', b :: s' => if ascii_eqb a b then strip_prefix p' s' else None
  | _ :: _, [] => None
  end.

Definition strip_suffix (p s : text) : option text :=
  match strip_prefix (rev p) (rev s) with Some r => Some (rev r) | None => None end.

(** Up to the first closing parenthesis. *)
Fixpoint to_paren (s : text) : option (text * text) :=
  match s with
  | [] => None
  | c :: s' =>
      if ascii_eqb c ")"%char then Some ([], s')
      else match to_paren s' with Some (a, b) => Some (c :: a, b) | None => None end
  end.

Definition newline : ascii := ascii_of_nat 10.

(** [^Key \((?P<cols>[^)]* )\)=\((?P<vals>.* )\) already exists\.$]: the dollar also stands before a
    last newline, and the dot is no newline. *)
Definition _DETAIL_KEY_RE (detail : string) : option (text * text) :=
  s ← strip_prefix (txt "Key (") (txt detail);
  cv ← to_paren s;
  rest ← strip_prefix (txt "=(") cv.2;
  vals ← match strip_suffix (txt ") already exists.") rest with
         | Some v => Some v
         | None => strip_suffix (txt ") already exists." ++ [newline]) rest
         end;
  if occurs newline vals then None else Some (cv.1, vals).

Fixpoint violation_within (n : nat) (e : pyexn) : option pyexn :=
  match n with
  | O => None
  | S n' =>
      match e with
      | UniqueViolation _ _ _ => Some e
      | _ => match cause_of e with Some c => violation_within n' c | None => None end
      end
  end.

Definition _attributable_violation (e : pyexn) : option pyexn := violation_within 8 e.

Definition _ATTRIBUTABLE_CONSTRAINTS : list string := ["jobs_pkey"%string; "jobs_singleton_uniq"%string].

Definition mints (id : Z) (p : _FireSuccess) : bool := existsb (fun a => e_id a =? id) (f_args p).

Definition singleton_plan (who : text) (p : _FireSuccess) : bool :=
  bool_decide (txt (f_actor p) = who) && existsb is_singleton (f_args p).

Definition offenders_of (cols vals : text) (pending_ : list _FireSuccess) : list _FireSuccess :=
  if bool_decide (cols = txt "id") then
    match uuid_parse vals with
    | Some id => List.filter (mints id) pending_
    | None => []
    end
  else if bool_decide (cols = txt "actor") then List.filter (singleton_plan vals) pending_
  else [].

Definition _attribute_violation (pending_ : list _FireSuccess) (exc : pyexn)
  : option (pyexn * list _FireSuccess * list _FireSuccess) :=
  v ← _attributable_violation exc;
  match v with
  | UniqueViolation (Some name) (Some detail) _ =>
      if bool_decide (name ∈ _ATTRIBUTABLE_CONSTRAINTS) then
        cv ← _DETAIL_KEY_RE detail;
        match offenders_of cv.1 cv.2 pending_ with
        | [] => None
        | off => Some (v, off, List.filter (fun p => negb (bool_decide (f_id p ∈ map f_id off))) pending_)
        end
      else None
  | _ => None
  end.

Definition _strike_plans (plans : list _FireSuccess) (exc : pyexn) : list _FireFailure :=
  map (fun p => _compute_fire_failure (f_id p) (f_row p) exc) plans.

(** [backend.enqueue_batch] in a savepoint of the tick's transaction, by the number of the call: the
    jobs it leaves, or the exception after which the savepoint left them alone. *)
Definition writer := nat -> list EnqueueArgs -> gmap Z stored -> result pyexn (gmap Z stored).

Record written := { w_landed : list _FireSuccess; w_struck : list _FireFailure; w_jobs : gmap Z stored }.

(** Each plan on its own. *)
Fixpoint enqueue_apart (W : writer) (i : nat) (plans : list _FireSuccess) (V : gmap Z stored)
  : result pyexn written :=
  match plans with
  | [] => Ok {| w_landed := []; w_struck := []; w_jobs := V |}
  | p :: plans' =>
      match W i (f_args p) V with
      | Ok V' =>
          let* w := enqueue_apart W (S i) plans' V' in
          Ok {| w_landed := p :: w_landed w; w_struck := w_struck w; w_jobs := w_jobs w |}
      | Err e =>
          if transient_pg e then Err e
          else
            let* w := enqueue_apart W (S i) plans' V in
            Ok {| w_landed := w_landed w; w_struck := _strike_plans [p] e ++ w_struck w; w_jobs := w_jobs w |}
      end
  end.

(** The loop: the whole batch, then what an attributed violation leaves of it. *)
Fixpoint enqueue_together (n : nat) (W : writer) (i : nat) (plans : list _FireSuccess) (V : gmap Z stored)
  : result pyexn written :=
  match plans with
  | [] => Ok {| w_landed := []; w_struck := []; w_jobs := V |}
  | _ =>
      match W i (concat (map f_args plans)) V with
      | Ok V' => Ok {| w_landed := plans; w_struck := []; w_jobs := V' |}
      | Err e =>
          if transient_pg e then Err e
          else match _attribute_violation plans e with
               | Some (v, off, survivors) =>
                   match n with
                   | O => Err (Raised "Diverges" "")
                   | S n' =>
                       let* w := enqueue_together n' W (S i) survivors V in
                       Ok {| w_landed := w_landed w; w_struck := _strike_plans off v ++ w_struck w; w_jobs := w_jobs w |}
                   end
               | None => enqueue_apart W (S i) plans V
               end
      end
  end.

Definition _enqueue_planned_fires (W : writer) (plans : list _FireSuccess) (V : gmap Z stored)
  : result pyexn written :=
  enqueue_together (length plans) W 0 plans V.

(** ** The tick *)

Definition earlier (x y : Z * schedule) : Prop :=
  next_fire_at x.2 < next_fire_at y.2 \/ (next_fire_at x.2 = next_fire_at y.2 /\ x.1 <= y.1).

#[local] Instance earlier_dec : RelDecision earlier.
Proof. intros x y. unfold earlier. apply _. Defined.

Definition is_due (server_now : Z) (x : Z * schedule) : bool :=
  enabled x.2 && (next_fire_at x.2 <=? server_now).

Definition cron_due_sql (S : gmap Z schedule) (server_now : Z) (limit : nat) : list (Z * schedule) :=
  take limit (merge_sort earlier (List.filter (is_due server_now) (map_to_list S))).

(** UPDATE .. FROM unnest(..) AS f WHERE s.id = f.id. *)
Definition advance_fired (clock : Z) (S : gmap Z schedule) (p : _FireSuccess) : gmap Z schedule :=
  alter (fun s => s <| last_fired_at := Some clock |> <| last_fire_error := None |>
                    <| consecutive_failures := 0 |> <| next_fire_at := instant (f_row p) (f_next p) |>) (f_id p) S.

Definition advance_suppressed (S : gmap Z schedule) (u : _SuppressedFire) : gmap Z schedule :=
  alter (fun s => s <| next_fire_at := u_next u |>) (u_id u) S.

Definition strike (S : gmap Z schedule) (x : _FireFailure) : gmap Z schedule :=
  alter (fun s =>
    if enabled s then
      s <| last_fire_error := Some (x_error_text x) |> <| consecutive_failures := x_consecutive x |>
        <| enabled := if x_auto_disable x then false else enabled s |>
        <| disabled_by := if x_auto_disable x then Some auto else disabled_by s |>
    else s) (x_id x) S.

Record outcome := {
  o_fired : list _FireSuccess;
  o_suppressed : list _SuppressedFire;
  o_failed : list _FireFailure
}.

Definition tick_writes (clock : Z) (o : outcome) (S : gmap Z schedule) : gmap Z schedule :=
  let S1 := fold_left (advance_fired clock) (o_fired o) S in
  let S2 := fold_left advance_suppressed (o_suppressed o) S1 in
  fold_left strike (o_failed o) S2.

(** What a tick decides, from the schedules it reads to the jobs it leaves. *)
Definition decide_tick (server_now : Z) (due : list (Z * schedule)) (configs : gmap string _ActorConfig)
    (policies : gmap string ActorFirePolicy) (lk : Z -> fire_luck) (W : writer) (V : gmap Z stored)
  : result pyexn (outcome * gmap Z stored) :=
  let P := plan_rows due server_now configs policies lk walk_slice in
  let* plans := _skip_already_delivered_overlap_twins V policies (pl_successes P) in
  let '(kept, refused) :=
    if bool_decide (policies = ∅) then (plans, [])
    else _suppress_policy_collisions V plans policies configs in
  let* w := _enqueue_planned_fires W kept V in
  Ok ({| o_fired := w_landed w; o_suppressed := pl_suppressed P ++ refused;
         o_failed := pl_failures P ++ w_struck w |}, w_jobs w).

(** One tick: its schedules, jobs and count of fires, or the exception that rolls it back.
    [got] is the try-lock's answer. *)
Definition tick_cron (got : bool) (server_now clock : Z) (limit : Z) (rows_read rows_then : gmap Z schedule)
    (configs : gmap string _ActorConfig) (policies : gmap string ActorFirePolicy) (lk : Z -> fire_luck)
    (W : writer) (V : gmap Z stored) : result pyexn (gmap Z schedule * gmap Z stored * Z) :=
  if limit <? 1 then Err (Raised "ValueError" "limit")
  else if negb got then Ok (rows_then, V, 0)
  else match cron_due_sql rows_read server_now (Z.to_nat limit) with
       | [] => Ok (rows_then, V, 0)
       | due =>
           let* r := decide_tick server_now due configs policies lk W V in
           Ok (tick_writes clock r.1 rows_then, r.2, Z.of_nat (length (o_fired r.1)))
       end.
End Tick.
