(* ===== verification/CronTickProps.v ===== *)
(** * What a tick does

    Every due schedule a tick selects has exactly one outcome: it fires, it is put off, or it
    is struck.  The first two move it strictly ahead, the third counts against it; no other
    schedule changes. *)

From Stdlib Require Import ZArith Lia QArith String.
From stdpp Require Import base gmap list sorting strings.
From S2P Require Import Prelude PyText PyFloat Retry JobRow EnqueueArgs Session Zone CronTime CronTimeProps CronTick.

Open Scope Z_scope.

Section Accounts.
Context `{Rounding} {C : Croniter} (zones : string -> option zone).
Context (settings : cron_settings) (cron_message : string -> cron_error -> string).
Context (transient_pg : pyexn -> bool).

Abbreviation _plan_fire := (_plan_fire zones settings cron_message).
Abbreviation plan_rows := (plan_rows zones settings cron_message).
Abbreviation instant := (instant zones).

(** ** One outcome each *)

Lemma plan_args_row sid row configs policies lk at_ sk pa p :
  plan_args zones settings cron_message sid row configs policies lk at_ sk pa = Ok p ->
  f_id p = sid /\ f_row p = row /\ f_actor p = c_actor row.
Proof using.
  unfold plan_args, to_plan_exn. intros Hp. repeat (case_match; simplify_eq); inv_ok; simplify_eq;
    repeat (case_match; simplify_eq); inv_ok; simplify_eq; done.
Qed.

Lemma plan_fire_row sid row now configs policies lk q q' p :
  _plan_fire sid row now configs policies lk q = (q', Ok p) -> f_id p = sid /\ f_row p = row /\ f_actor p = c_actor row.
Proof using.
  unfold CronTick._plan_fire. destruct (catch_up _ _ _ _ _ _ _) as [q0 r]. intros [= <- Hp].
  apply rbind_ok in Hp as ([[at_ sk] pa] & _ & Hp). by apply plan_args_row in Hp.
Qed.

Lemma plan_rows_ids rows now configs policies lk q :
  map f_id (pl_successes (plan_rows rows now configs policies lk q)) ++
  map u_id (pl_suppressed (plan_rows rows now configs policies lk q)) ++
  map x_id (pl_failures (plan_rows rows now configs policies lk q)) ≡ₚ map fst rows.
Proof using.
  revert q. induction rows as [|[sid row] rows IH]; intros q; cbn; [done|].
  destruct (CronTick._plan_fire _ _ _ _ _ _ _ _ _ _) as [q' r] eqn:E. specialize (IH q').
  destruct r as [p|[sk|e]]; cbn.
  - apply plan_fire_row in E as (-> & _). by rewrite IH.
  - by rewrite <- Permutation_middle, IH.
  - rewrite <- IH, <- !Permutation_middle. done.
Qed.

Lemma skip_delivered_row V policies p p' :
  skip_delivered zones cron_message V policies p = Ok p' ->
  f_id p' = f_id p /\ f_row p' = f_row p /\ f_actor p' = f_actor p /\ f_args p' = f_args p.
Proof using. unfold skip_delivered. intros Hp. case_match; inv_ok; simplify_eq; done. Qed.

Lemma traverse_Forall2 {A B : Type} (f : A -> result pyexn B) l l' :
  traverse f l = Ok l' -> Forall2 (fun x y => f x = Ok y) l l'.
Proof using.
  revert l'. induction l as [|x l IH]; intros l' Hl; cbn in Hl; inv_ok; simplify_eq; constructor; auto.
Qed.

Lemma skip_twins_ids V policies l l' :
  _skip_already_delivered_overlap_twins zones cron_message V policies l = Ok l' -> map f_id l' = map f_id l.
Proof using.
  intros Hl%traverse_Forall2. induction Hl as [|p p' l l' Hp _ IH]; cbn; [done|].
  apply skip_delivered_row in Hp as (-> & _). by f_equal.
Qed.

Lemma admit_plan_row V policies configs I p r :
  admit_plan zones V policies configs I p = r ->
  match r with
  | inl p' => f_id p' = f_id p /\ f_row p' = f_row p /\ f_actor p' = f_actor p
  | inr u => u_id u = f_id p
  end.
Proof using. intros <-. unfold admit_plan. repeat case_match; simplify_eq; done. Qed.

Lemma suppress_ids V policies configs I l :
  map f_id (suppress_from zones V policies configs I l).1 ++
  map u_id (suppress_from zones V policies configs I l).2 ≡ₚ map f_id l.
Proof using.
  revert I. induction l as [|p l IH]; intros I; cbn; [done|].
  destruct (admit_plan _ _ _ _ _ p) as [p'|u] eqn:E; apply admit_plan_row in E.
  - specialize (IH (note_kept V policies configs I p')). destruct (suppress_from _ _ _ _ _ l) as [k s].
    cbn in *. destruct E as (-> & _). by rewrite IH.
  - specialize (IH I). destruct (suppress_from _ _ _ _ _ l) as [k s]. cbn in *.
    by rewrite <- Permutation_middle, E, IH.
Qed.

Lemma strike_ids off e : map x_id (_strike_plans settings off e) = map f_id off.
Proof using. unfold _strike_plans. rewrite map_map. done. Qed.

Lemma filter_split_ids (q : _FireSuccess -> bool) l :
  NoDup (map f_id l) ->
  map f_id (List.filter q l) ++
  map f_id (List.filter (fun p => negb (bool_decide (f_id p ∈ map f_id (List.filter q l)))) l) ≡ₚ map f_id l.
Proof using.
  intros Hnd.
  assert (List.filter (fun p => negb (bool_decide (f_id p ∈ map f_id (List.filter q l)))) l
          = List.filter (fun p => negb (q p)) l) as ->.
  { assert (forall p, p ∈ l -> (f_id p ∈ map f_id (List.filter q l)) <-> q p = true) as Hq.
    { intros p Hp. split.
      - intros (p' & He & Hp')%list_elem_of_fmap. apply list_elem_of_In, filter_In in Hp' as [Hp' Hq].
        apply list_elem_of_In in Hp'. apply list_elem_of_lookup in Hp as [i Hi], Hp' as [j Hj].
        assert (i = j) as <-; [|congruence].
        eapply (NoDup_lookup (map f_id l)); [done| |].
        + change (map f_id l) with (f_id <$> l). rewrite list_lookup_fmap, Hi. done.
        + change (map f_id l) with (f_id <$> l). rewrite list_lookup_fmap, Hj. by rewrite He.
      - intros Hq. apply list_elem_of_fmap. exists p. split; [done|].
        apply list_elem_of_In, filter_In. split; [by apply list_elem_of_In|done]. }
    apply filter_ext_in. intros p Hp%list_elem_of_In. specialize (Hq p Hp).
    destruct (q p); case_bool_decide as Hb; try done; [by destruct Hb; apply Hq|by apply Hq in Hb]. }
  clear Hnd. induction l as [|p l IH]; cbn; [done|]. destruct (q p); cbn; [by rewrite IH|].
  by rewrite <- Permutation_middle, IH.
Qed.

Lemma offenders_filter cols vals l : exists q, offenders_of cols vals l = List.filter q l.
Proof using.
  unfold offenders_of. repeat case_match; eauto.
  - exists (fun _ => false). by induction l.
  - exists (fun _ => false). by induction l.
Qed.

Lemma attribute_splits l e v off sv :
  NoDup (map f_id l) -> _attribute_violation l e = Some (v, off, sv) ->
  map f_id off ++ map f_id sv ≡ₚ map f_id l /\ off <> [] /\
  (exists q, off = List.filter q l) /\ exists q, sv = List.filter q l.
Proof using.
  intros Hnd. unfold _attribute_violation. intros Ha.
  apply bind_Some in Ha as (v0 & _ & Ha).
  destruct v0 as [[name|] [detail|] sh| | |]; try done. destruct (bool_decide _); [|done].
  apply bind_Some in Ha as (cv & _ & Ha).
  destruct (offenders_filter cv.1 cv.2 l) as [q Hq]. rewrite Hq in Ha.
  destruct (List.filter q l) as [|p0 off0] eqn:Ef; [done|]. simplify_eq.
  rewrite <- Ef. split; [by apply filter_split_ids|]. split; [intros Hnil; congruence|]. eauto.
Qed.

Lemma apart_ids W i l V w :
  enqueue_apart settings transient_pg W i l V = Ok w ->
  map f_id (w_landed w) ++ map x_id (w_struck w) ≡ₚ map f_id l.
Proof using.
  revert i V w. induction l as [|p l IH]; intros i V w Hw; cbn in Hw; [by simplify_eq|].
  destruct (W i (f_args p) V) as [V'|e].
  - inv_ok. apply IH in H0. cbn. by rewrite H0.
  - destruct (transient_pg e); [done|]. inv_ok. apply IH in H0. cbn.
    by rewrite <- Permutation_middle, H0.
Qed.

Lemma NoDup_filter_ids (q : _FireSuccess -> bool) l : NoDup (map f_id l) -> NoDup (map f_id (List.filter q l)).
Proof using.
  intros Hnd. eapply sublist_NoDup; [exact Hnd|]. clear Hnd. induction l as [|p l IH]; cbn; [constructor|].
  destruct (q p); by constructor.
Qed.

Lemma together_ids n W i l V w :
  NoDup (map f_id l) -> enqueue_together settings transient_pg n W i l V = Ok w ->
  map f_id (w_landed w) ++ map x_id (w_struck w) ≡ₚ map f_id l.
Proof using.
  revert i l V w. induction n as [|n IH]; intros i l V w Hnd Hw; destruct l as [|p l]; cbn [enqueue_together] in Hw;
    try (by simplify_eq).
  all: destruct (W i _ V) as [V'|e]; [simplify_eq; cbn; by rewrite app_nil_r|].
  all: destruct (transient_pg e); [done|].
  all: destruct (_attribute_violation _ e) as [[[v off] sv]|] eqn:Ea; [|by apply apart_ids in Hw].
  { done. }
  destruct (attribute_splits _ _ _ _ _ Hnd Ea) as (Hp & _ & _ & q & ->). inv_ok. apply IH in H0; [|by apply NoDup_filter_ids].
  cbn [w_landed w_struck]. rewrite map_app, strike_ids, <- Hp, <- H0.
  rewrite !app_assoc, (Permutation_app_comm (map f_id off)). done.
Qed.


(** ** Every plan looks ahead *)

Context {matches : string -> Z -> Prop} {L : CroniterLaws C matches}.

Definition fit_row (row : schedule) : Prop :=
  forall z, zones (timezone row) = Some z -> fit matches z (cron_expr row) (timezone row).

Lemma fires_after_answers row after st l :
  fit_row row -> fires_after zones cron_message row after st = Ok l ->
  exists z, zones (timezone row) = Some z /\ wf_zone z /\ answers z (matches (cron_expr row)) st after l.
Proof using L.
  intros Hf. unfold fires_after, compute_next_fire_after, _compute_next_fire_after_walking.
  destruct (zones (timezone row)) as [z|] eqn:Hz; [|done].
  specialize (Hf z Hz). destruct (walk_exact z _ _ after st Hf) as (r & -> & Hr).
  intros [= <-]. exists z. split_and!; [done|apply Hf|done].
Qed.

Lemma first_fire_next row after st d :
  fit_row row -> first_fire zones cron_message row after st = Ok d ->
  exists z, zones (timezone row) = Some z /\ wf_zone z /\ shown z d /\ instant row d = to_utc z d /\
            next_owed z (matches (cron_expr row)) st after (to_utc z d).
Proof using L.
  intros Hf Hd. unfold first_fire in Hd. apply rbind_ok in Hd as (l & Hl & Hd).
  destruct (fires_after_answers _ _ _ _ Hf Hl) as (z & Hz & Hwf & Ha).
  destruct l as [|d' l]; [done|]. injection Hd as <-. exists z.
  unfold CronTick.instant. rewrite Hz. destruct l as [|d2 [|]]; cbn in Ha; [|destruct Ha as (_ & ? & _ & ? & _)|done].
  - destruct Ha. by split_and!.
  - by split_and!.
Qed.

Lemma first_fire_later row after st d :
  fit_row row -> first_fire zones cron_message row after st = Ok d -> after < instant row d.
Proof using L. intros Hf Hd. destruct (first_fire_next _ _ _ _ Hf Hd) as (z & _ & _ & _ & -> & H1 & _). done. Qed.

(** A plan is past the slot that came due, and so is whatever it schedules. *)
Definition ahead (p : _FireSuccess) : Prop :=
  next_fire_at (f_row p) < instant (f_row p) (f_next p) /\
  forall a t, a ∈ f_args p -> e_scheduled_at a = Some t -> next_fire_at (f_row p) < t.

Lemma make_args_same a b : make_args a = Ok b -> b = a.
Proof using. unfold make_args. destruct (__post_init__ a); by intros [= <-]. Qed.

Lemma immediate_due sid row ac policy id body a :
  immediate_args sid row ac policy id body = Ok a -> e_scheduled_at a = None.
Proof using. unfold immediate_args. intros Ha. inv_ok. apply make_args_same in H1. by subst. Qed.

Lemma twin_due sid row ac policy id body at_ a :
  twin_args sid row ac policy id body at_ = Ok a -> e_scheduled_at a = Some at_.
Proof using. unfold twin_args. intros Ha. inv_ok. apply make_args_same in H1. by subst. Qed.

Lemma to_plan_exn_ok {A : Type} (r : result pyexn A) a : to_plan_exn r = Ok a -> r = Ok a.
Proof using. destruct r; [by intros [= <-]|done]. Qed.

Lemma plan_args_inv sid row configs policies lk at_ sk pa p :
  plan_args zones settings cron_message sid row configs policies lk at_ sk pa = Ok p ->
  exists ac body one next later,
    configs !! c_actor row = Some ac /\
    resolve_payload row lk (_factory_deadline settings (elapsed lk)) = Ok body /\
    immediate_args sid row ac (policies !! c_actor row) (first_id lk) body = Ok one /\
    fires_after zones cron_message row at_ (strategy_of row) = Ok (next :: later) /\
    f_next p = next /\
    ((later = [] \/ strategy_of row <> allof \/ is_singleton_policy (policies !! c_actor row) = true) /\ f_args p = [one] \/
     exists d l two, later = d :: l /\ strategy_of row = allof /\ is_singleton_policy (policies !! c_actor row) = false /\
       twin_args sid row ac (policies !! c_actor row) (second_id lk) body (instant row d) = Ok two /\ f_args p = [one; two]).
Proof using.
  unfold plan_args. intros Hp. destruct (configs !! c_actor row) as [ac|]; [|done].
  assert (to_plan_exn (
            let* body := resolve_payload row lk (_factory_deadline settings (elapsed lk)) in
            let* one := immediate_args sid row ac (policies !! c_actor row) (first_id lk) body in
            let* fires := fires_after zones cron_message row at_ (strategy_of row) in
            match fires with
            | [] => Err (Raised "IndexError" "list index out of range")
            | next :: later =>
                let plan args := Ok {| f_id := sid; f_row := row; f_args := args; f_next := next;
                                       f_actor := c_actor row; f_skipped_slots := sk; f_partial := pa |} in
                match later with
                | d :: _ =>
                    if bool_decide (strategy_of row = allof) && negb (is_singleton_policy (policies !! c_actor row)) then
                      let* two := twin_args sid row ac (policies !! c_actor row) (second_id lk) body (instant row d) in
                      plan [one; two]
                    else plan [one]
                | [] => plan [one]
                end
            end) = Ok p) as Hp'.
  { by destruct (payload_factory row), (_factory_deadline _ _). }
  clear Hp. apply to_plan_exn_ok in Hp'.
  apply rbind_ok in Hp' as (body & Hbody & Hp). apply rbind_ok in Hp as (one & Hone & Hp).
  apply rbind_ok in Hp as (fires & Hfires & Hp). destruct fires as [|next later]; [done|].
  exists ac, body, one, next, later. do 4 (split; [done|]). cbv zeta in Hp.
  destruct later as [|d l]; [injection Hp as <-; by auto|].
  destruct (bool_decide_reflect (strategy_of row = allof)); cbn in Hp; [|injection Hp as <-; split; [done|]; by left; auto].
  destruct (is_singleton_policy _) eqn:Es; cbn in Hp; [injection Hp as <-; split; [done|]; by left; auto|].
  apply rbind_ok in Hp as (two & Htwo & Hp). injection Hp as <-. split; [done|]. right. exists d, l, two. done.
Qed.

Lemma plan_args_ahead sid row configs policies lk at_ sk pa p :
  fit_row row -> next_fire_at row <= at_ ->
  plan_args zones settings cron_message sid row configs policies lk at_ sk pa = Ok p -> ahead p.
Proof using L.
  intros Hf Hle Hp. pose proof (plan_args_row _ _ _ _ _ _ _ _ _ Hp) as (_ & Hrow & _).
  destruct (plan_args_inv _ _ _ _ _ _ _ _ _ Hp) as (ac & body & one & next & later & _ & _ & Hone & Hfires & Hn & Hargs).
  destruct (fires_after_answers _ _ _ _ Hf Hfires) as (z & Hz & Hwf & Ha).
  assert (at_ < instant row next) as Hnext.
  { unfold CronTick.instant. rewrite Hz. destruct later as [|d [|]]; cbn in Ha; [|destruct Ha as (_ & _ & _ & [? _] & _)|done]; [|done].
    destruct Ha as [_ [? _]]. done. }
  unfold ahead. rewrite Hrow, Hn. split; [lia|]. intros a t Hin Ht.
  destruct Hargs as [[_ He]|(d & l & two & -> & _ & _ & Htwo & He)]; rewrite He in Hin.
  - apply list_elem_of_singleton in Hin as ->. by rewrite (immediate_due _ _ _ _ _ _ _ Hone) in Ht.
  - rewrite !elem_of_cons in Hin. destruct Hin as [->|[->|?%not_elem_of_nil]]; [|..|done].
    + by rewrite (immediate_due _ _ _ _ _ _ _ Hone) in Ht.
    + rewrite (twin_due _ _ _ _ _ _ _ _ Htwo) in Ht. injection Ht as <-.
      destruct l as [|]; cbn in Ha; [|done]. destruct Ha as (_ & _ & _ & _ & _ & Hlt).
      unfold CronTick.instant in *. rewrite Hz in *. lia.
Qed.

Lemma catch_up_past row now lk q q' at_ sk pa :
  fit_row row -> next_fire_at row <= now ->
  catch_up zones settings cron_message row now lk q = (q', Ok (at_, sk, pa)) -> next_fire_at row <= at_.
Proof using L.
  intros Hf Hle. unfold catch_up. destruct (_ <? _); [|intros [= _ <-]; lia].
  destruct (first_fire _ _ _ _ _) as [d|] eqn:Hd; [|done].
  apply first_fire_later in Hd; [|done]. destruct (skip_walk _ _ _ _ _ _ _ _ _ _ _) as [[c b]|]; [|done].
  intros [= _ <-]. lia.
Qed.

Lemma plan_fire_ahead sid row now configs policies lk q q' p :
  fit_row row -> next_fire_at row <= now -> _plan_fire sid row now configs policies lk q = (q', Ok p) -> ahead p.
Proof using L.
  intros Hf Hle. unfold CronTick._plan_fire. destruct (catch_up _ _ _ _ _ _ _) as [q0 r] eqn:E. intros [= <- Hp].
  apply rbind_ok in Hp as ([[at_ sk] pa] & -> & Hp). eapply plan_args_ahead; [done| |done]. by eapply catch_up_past.
Qed.

Lemma hop_ahead n row covered range_end d d' :
  fit_row row -> hop zones cron_message n row covered range_end d = Ok d' -> instant row d <= instant row d'.
Proof using L.
  intros Hf. revert d. induction n as [|n IH]; intros d; cbn [hop]; destruct (_ && _); try done.
  - intros [= <-]. lia.
  - intros Hd. apply rbind_ok in Hd as (nx & Hnx & Hd). apply first_fire_later in Hnx; [|done].
    destruct (_ <=? _); [simplify_eq; lia|]. apply IH in Hd. lia.
  - intros [= <-]. lia.
Qed.

Lemma skip_delivered_ahead V policies p p' :
  fit_row (f_row p) -> skip_delivered zones cron_message V policies p = Ok p' -> ahead p -> ahead p'.
Proof using L.
  intros Hf Hp [H1 H2]. unfold skip_delivered in Hp. destruct (twin_query _ _ _); [|by simplify_eq].
  inv_ok. apply hop_ahead in H0; [|done]. split; cbn; [lia|done].
Qed.

Lemma admit_plan_ahead V policies configs I p :
  (forall z, zones (timezone (f_row p)) = Some z -> wf_zone z) -> ahead p ->
  match admit_plan zones V policies configs I p with
  | inl p' => ahead p'
  | inr u => next_fire_at (f_row p) < u_next u
  end.
Proof using.
  intros Hwf [H1 H2]. unfold admit_plan.
  destruct (blocking _ _ _); [done|]. destruct (if is_singleton_policy _ then _ else _); [done|].
  destruct (capped _ _ _ _) as [cap|]; [|by split]. destruct (_ <=? _); [done|].
  destruct (_ <? _)%nat; [|by split].
  destruct (f_args p !! _) as [a|] eqn:Ea; cbn; [|done]. destruct (e_scheduled_at a) as [t|] eqn:Et; [|done].
  assert (next_fire_at (f_row p) < t) as Ht by (eapply H2; [by eapply list_elem_of_lookup_2|done]).
  split; cbn.
  - unfold CronTick.instant, local_time. destruct (zones (timezone (f_row p))) as [z|] eqn:Hz; [|done].
    rewrite to_from_utc; [done|by apply Hwf].
  - intros a' t' Hin Ht'. eapply H2; [|done].
    apply list_elem_of_lookup in Hin as [i Hi]. apply lookup_take_Some in Hi as [Hi _]. by eapply list_elem_of_lookup_2.
Qed.

(** ** What each outcome says of its schedule *)

Section Due.
Context (due : list (Z * schedule)).

Definition fire_of (p : _FireSuccess) : Prop := (f_id p, f_row p) ∈ due /\ ahead p.

Definition put_off_of (u : _SuppressedFire) : Prop :=
  exists row, (u_id u, row) ∈ due /\ next_fire_at row < u_next u.

Definition strike_of (x : _FireFailure) : Prop :=
  exists row e, (x_id x, row) ∈ due /\ x = _compute_fire_failure settings (x_id x) row e.

Lemma plan_rows_good rows now configs policies lk q :
  (forall x, x ∈ rows -> x ∈ due /\ fit_row x.2 /\ next_fire_at x.2 <= now) ->
  let P := plan_rows rows now configs policies lk q in
  Forall fire_of (pl_successes P) /\ Forall put_off_of (pl_suppressed P) /\ Forall strike_of (pl_failures P).
Proof using L.
  revert q. induction rows as [|[sid row] rows IH]; intros q Hrows; cbn; [done|].
  destruct (Hrows (sid, row) ltac:(left)) as (Hin & Hf & Hle). cbn in Hf, Hle.
  destruct (CronTick._plan_fire _ _ _ _ _ _ _ _ _ _) as [q' r] eqn:E.
  destruct (IH q') as (H1 & H2 & H3); [intros x Hx; apply Hrows; by right|].
  destruct r as [p|[sk|e]]; cbn; split_and!; try done; constructor; try done.
  - pose proof (plan_fire_row _ _ _ _ _ _ _ _ _ E) as (Hi & Hr & _).
    pose proof (plan_fire_ahead _ _ _ _ _ _ _ _ _ Hf Hle E). split; [by rewrite Hi, Hr|done].
  - exists row. cbn. split; [done|]. unfold _TICK_BUDGET_RETRY_DELAY, second. lia.
  - eexists row, _. by split.
Qed.

Lemma skip_twins_good V policies l l' :
  (forall x, x ∈ due -> fit_row x.2) ->
  _skip_already_delivered_overlap_twins zones cron_message V policies l = Ok l' ->
  Forall fire_of l -> Forall fire_of l'.
Proof using L.
  intros Hfit Hl%traverse_Forall2. induction Hl as [|p p' l l' Hp _ IH]; [done|].
  intros [[Hin Ha] Hl]%Forall_cons. constructor; [|auto].
  pose proof (skip_delivered_row _ _ _ _ Hp) as (Hi & Hr & _ & _). split; [by rewrite Hi, Hr|].
  eapply skip_delivered_ahead; [|done|done]. exact (Hfit _ Hin).
Qed.

Lemma suppress_good V policies configs I l :
  (forall x, x ∈ due -> fit_row x.2) -> Forall fire_of l ->
  Forall fire_of (suppress_from zones V policies configs I l).1 /\
  Forall put_off_of (suppress_from zones V policies configs I l).2.
Proof using L.
  intros Hfit. revert I. induction l as [|p l IH]; intros I; cbn; [done|].
  intros [[Hin Ha] Hl]%Forall_cons.
  assert (forall z, zones (timezone (f_row p)) = Some z -> wf_zone z) as Hwf.
  { intros z Hz. exact (fit_zone _ _ _ _ (Hfit _ Hin z Hz)). }
  pose proof (admit_plan_ahead V policies configs I p Hwf Ha) as Hadm.
  destruct (admit_plan _ _ _ _ _ p) as [p'|u] eqn:E; apply admit_plan_row in E.
  - destruct (IH (note_kept V policies configs I p') Hl) as [H1 H2].
    destruct (suppress_from _ _ _ _ _ l). cbn in *. split; [|done]. constructor; [|done].
    destruct E as (Hi & Hr & _). split; [by rewrite Hi, Hr|done].
  - destruct (IH I Hl) as [H1 H2]. destruct (suppress_from _ _ _ _ _ l). cbn in *. split; [done|].
    constructor; [|done]. exists (f_row p). by rewrite E.
Qed.

Lemma struck_good l e : Forall fire_of l -> Forall strike_of (_strike_plans settings l e).
Proof using.
  intros Hl. unfold _strike_plans. apply Forall_map. eapply Forall_impl; [exact Hl|].
  intros p [Hin _]. exists (f_row p), e. by split.
Qed.

Lemma apart_good W i l V w :
  enqueue_apart settings transient_pg W i l V = Ok w -> Forall fire_of l ->
  Forall fire_of (w_landed w) /\ Forall strike_of (w_struck w).
Proof using.
  revert i V w. induction l as [|p l IH]; intros i V w Hw Hl; cbn in Hw; [by simplify_eq|].
  apply Forall_cons in Hl as [Hp Hl]. destruct (W i (f_args p) V) as [V'|e].
  - apply rbind_ok in Hw as (w' & Hw' & [= <-]). destruct (IH _ _ _ Hw' Hl). split; [by constructor|done].
  - destruct (transient_pg e); [done|]. apply rbind_ok in Hw as (w' & Hw' & [= <-]).
    destruct (IH _ _ _ Hw' Hl). split; [done|]. cbn. constructor; [|done].
    destruct Hp as [Hin _]. exists (f_row p), e. by split.
Qed.

Lemma Forall_filter_bool {A : Type} (P : A -> Prop) (q : A -> bool) l : Forall P l -> Forall P (List.filter q l).
Proof using. induction 1; cbn; [done|]. destruct (q x); by try constructor. Qed.

Lemma together_good n W i l V w :
  NoDup (map f_id l) -> enqueue_together settings transient_pg n W i l V = Ok w -> Forall fire_of l ->
  Forall fire_of (w_landed w) /\ Forall strike_of (w_struck w).
Proof using.
  revert i l V w. induction n as [|n IH]; intros i l V w Hnd Hw Hl; destruct l as [|p l];
    cbn [enqueue_together] in Hw; try (by simplify_eq).
  all: destruct (W i _ V) as [V'|e]; [by simplify_eq|].
  all: destruct (transient_pg e); [done|].
  all: destruct (_attribute_violation _ e) as [[[v off] sv]|] eqn:Ea; [|by eapply apart_good].
  { done. }
  destruct (attribute_splits _ _ _ _ _ Hnd Ea) as (_ & _ & [q ->] & q' & ->).
  apply rbind_ok in Hw as (w' & Hw' & [= <-]).
  destruct (IH _ _ _ _ (NoDup_filter_ids _ _ Hnd) Hw' (Forall_filter_bool _ _ _ Hl)) as [H1 H2].
  split; [done|]. apply Forall_app. split; [|done].
  apply (struck_good (List.filter q (p :: l))). exact (Forall_filter_bool _ q (p :: l) Hl).
Qed.

Lemma decide_tick_good now configs policies lk W V o V' :
  NoDup (map fst due) -> (forall x, x ∈ due -> fit_row x.2 /\ next_fire_at x.2 <= now) ->
  decide_tick zones settings cron_message transient_pg now due configs policies lk W V = Ok (o, V') ->
  Forall fire_of (o_fired o) /\ Forall put_off_of (o_suppressed o) /\ Forall strike_of (o_failed o) /\
  map f_id (o_fired o) ++ map u_id (o_suppressed o) ++ map x_id (o_failed o) ≡ₚ map fst due.
Proof using L.
  intros Hnd Hdue. unfold decide_tick. set (P := plan_rows due now configs policies lk (walk_slice settings)).
  intros Hd. apply rbind_ok in Hd as (plans & Hplans & Hd).
  destruct (plan_rows_good due now configs policies lk (walk_slice settings)) as (G1 & G2 & G3).
  { intros x Hx. by split; [|apply Hdue]. }
  pose proof (plan_rows_ids due now configs policies lk (walk_slice settings)) as Hids.
  fold P in G1, G2, G3, Hids.
  pose proof (skip_twins_ids _ _ _ _ Hplans) as Hpids.
  apply skip_twins_good in Hplans; [|by intros x Hx; apply Hdue|done].
  set (split_ := if bool_decide (policies = ∅) then _ else _) in Hd.
  assert (Forall fire_of split_.1 /\ Forall put_off_of split_.2 /\
          map f_id split_.1 ++ map u_id split_.2 ≡ₚ map f_id plans) as (S1 & S2 & S3).
  { unfold split_. case_bool_decide; [cbn; by rewrite app_nil_r|].
    destruct (suppress_good V policies configs {| fired_singleton_job := ∅; intra_pending := ∅ |} plans) as [??];
      [by intros x Hx; apply Hdue|done|]. split_and!; try done. apply suppress_ids. }
  destruct split_ as [kept refused]. cbn in S1, S2, S3.
  apply rbind_ok in Hd as (w & Hw & [= <- <-]). unfold _enqueue_planned_fires in Hw.
  assert (map f_id kept ++ map u_id refused ++ map u_id (pl_suppressed P) ++ map x_id (pl_failures P)
          ≡ₚ map fst due) as Hall.
  { rewrite <- Hids, <- Hpids, <- S3. by rewrite <- app_assoc. }
  assert (NoDup (map f_id kept)) as Hk.
  { rewrite <- Hall in Hnd. by apply NoDup_app in Hnd as [? _]. }
  pose proof (together_ids _ _ _ _ _ _ Hk Hw) as Hwids.
  destruct (together_good _ _ _ _ _ _ Hk Hw S1) as [W1 W2]. cbn.
  split_and!; [done|by apply Forall_app|by apply Forall_app|].
  rewrite <- Hall, <- Hwids, !map_app. clear. generalize (map f_id (w_landed w)), (map x_id (w_struck w)),
    (map u_id refused), (map u_id (pl_suppressed P)), (map x_id (pl_failures P)). intros a b c d e.
  rewrite <- !app_assoc. apply Permutation_app_head.
  rewrite (Permutation_app_comm b), <- !app_assoc.
  rewrite (app_assoc d c), (app_assoc c d), (Permutation_app_comm d c). done.
Qed.
End Due.
End Accounts.

(** ** The due read and the writes *)

Lemma due_spec S now n x :
  x ∈ cron_due_sql S now n -> S !! x.1 = Some x.2 /\ enabled x.2 = true /\ next_fire_at x.2 <= now.
Proof.
  unfold cron_due_sql. intros Hx%elem_of_take. destruct Hx as (i & Hi & _).
  apply list_elem_of_lookup_2 in Hi. rewrite merge_sort_Permutation in Hi.
  apply list_elem_of_In, filter_In in Hi as [Hi Hd]. apply list_elem_of_In in Hi.
  destruct x as [sid row]. apply elem_of_map_to_list in Hi. unfold is_due in Hd. zbool. by cbn in *.
Qed.

Lemma due_NoDup S now n : NoDup (map fst (cron_due_sql S now n)).
Proof.
  unfold cron_due_sql. rewrite <- firstn_map. eapply sublist_NoDup; [|apply sublist_take].
  change (map fst ?l) with (l.*1).
  rewrite (merge_sort_Permutation earlier). eapply sublist_NoDup; [exact (NoDup_fst_map_to_list S)|].
  generalize (map_to_list S). intros l. induction l as [|x l IH]; cbn; [constructor|].
  destruct (is_due now x); cbn; by constructor.
Qed.

Section Folds.
Context {A : Type} (key : A -> Z) (f : A -> schedule -> schedule).
Abbreviation sweep := (fold_left (fun (S : gmap Z schedule) a => alter (f a) (key a) S)).

Lemma fold_alter_other l S i : i ∉ map key l -> sweep l S !! i = S !! i.
Proof.
  revert S. induction l as [|a l IH]; intros S Hi; cbn; [done|].
  cbn in Hi. apply not_elem_of_cons in Hi as [Hne Hi]. rewrite IH by done. by apply lookup_alter_ne.
Qed.

Lemma fold_alter_hit l S a s :
  NoDup (map key l) -> a ∈ l -> S !! key a = Some s -> sweep l S !! key a = Some (f a s).
Proof.
  revert S. induction l as [|b l IH]; intros S Hnd Ha Hs; cbn; [by apply not_elem_of_nil in Ha|].
  cbn in Hnd. apply NoDup_cons in Hnd as [Hnb Hnd]. apply elem_of_cons in Ha as [->|Ha].
  - rewrite fold_alter_other by done. by rewrite lookup_alter_eq, Hs.
  - apply IH; [done|done|]. rewrite lookup_alter_ne; [done|]. intros He. apply Hnb. rewrite He.
    by apply (list_elem_of_fmap_2 key).
Qed.
End Folds.

(** What one tick may do to a schedule it selected. *)
Inductive settled (settings : cron_settings) (clock : Z) (row : schedule) : schedule -> Prop :=
| Fired t :
    next_fire_at row < t ->
    settled settings clock row
      (row <| last_fired_at := Some clock |> <| last_fire_error := None |>
           <| consecutive_failures := 0 |> <| next_fire_at := t |>)
| PutOff t :
    next_fire_at row < t -> settled settings clock row (row <| next_fire_at := t |>)
| Struck why :
    let count := consecutive_failures row + 1 in
    let out := cron_auto_disable_threshold settings <=? count in
    settled settings clock row
      (row <| last_fire_error := Some why |> <| consecutive_failures := count |>
           <| enabled := negb out |> <| disabled_by := if out then Some auto else disabled_by row |>).

Section Settles.
Context `{Rounding} {C : Croniter} {matches : string -> Z -> Prop} {L : CroniterLaws C matches}.
Context (zones : string -> option zone).
Context (settings : cron_settings) (cron_message : string -> cron_error -> string).
Context (transient_pg : pyexn -> bool).

Lemma tick_writes_settles clock due o S :
  NoDup (map fst due) -> (forall x, x ∈ due -> S !! x.1 = Some x.2 /\ enabled x.2 = true) ->
  Forall (fire_of zones due) (o_fired o) -> Forall (put_off_of due) (o_suppressed o) ->
  Forall (strike_of settings due) (o_failed o) ->
  map f_id (o_fired o) ++ map u_id (o_suppressed o) ++ map x_id (o_failed o) ≡ₚ map fst due ->
  (forall i, i ∉ map fst due -> tick_writes zones clock o S !! i = S !! i) /\
  forall sid row, (sid, row) ∈ due ->
    exists s, tick_writes zones clock o S !! sid = Some s /\ settled settings clock row s.
Proof using.
  intros Hnd Hdue Hf Hp Hx Hids. pose proof Hnd as Hnd'. rewrite <- Hids in Hnd'.
  apply NoDup_app in Hnd' as (N1 & D1 & Hnd'). apply NoDup_app in Hnd' as (N2 & D2 & N3).
  assert (forall i, i ∈ map fst due <-> i ∈ map f_id (o_fired o) \/ i ∈ map u_id (o_suppressed o) \/ i ∈ map x_id (o_failed o)) as Hmem.
  { intros i. by rewrite <- Hids, !elem_of_app. }
  assert (forall i r r', (i, r) ∈ due -> (i, r') ∈ due -> r = r') as Huniq.
  { intros i r r' H1 H2. apply Hdue in H1 as [H1 _], H2 as [H2 _]. cbn in *. congruence. }
  unfold tick_writes, advance_fired, advance_suppressed, strike. split.
  - intros i Hi. rewrite Hmem in Hi. rewrite !fold_alter_other; tauto.
  - intros sid row Hin. assert (sid ∈ map fst due) as Hs by (by apply (list_elem_of_fmap_2 fst _ (sid, row))).
    pose proof (Hdue _ Hin) as [Hrow Hen]. cbn in Hrow, Hen.
    apply Hmem in Hs as [Hs|[Hs|Hs]]; apply list_elem_of_fmap in Hs as (y & -> & Hy).
    + rewrite Forall_forall in Hf. destruct (Hf _ Hy) as [Hd Ha]. rewrite (Huniq _ _ _ Hin Hd) in *.
      assert (f_id y ∈ map f_id (o_fired o)) as Hk by (by apply (list_elem_of_fmap_2 f_id)).
      pose proof (D1 _ Hk) as Hno. rewrite elem_of_app in Hno.
      eexists. split.
      * rewrite !fold_alter_other by tauto. by apply (fold_alter_hit f_id).
      * apply Fired. apply Ha.
    + rewrite Forall_forall in Hp. destruct (Hp _ Hy) as (r & Hd & Hlt). rewrite (Huniq _ _ _ Hin Hd) in *.
      assert (u_id y ∈ map u_id (o_suppressed o)) as Hk by (by apply (list_elem_of_fmap_2 u_id)).
      eexists. split.
      * rewrite fold_alter_other by (by apply D2). apply (fold_alter_hit u_id); [done|done|].
        rewrite fold_alter_other; [done|]. intros Hb. apply (D1 _ Hb). apply elem_of_app. by left.
      * by apply PutOff.
    + rewrite Forall_forall in Hx. destruct (Hx _ Hy) as (r & e & Hd & He). rewrite (Huniq _ _ _ Hin Hd) in *.
      assert (x_id y ∈ map x_id (o_failed o)) as Hk by (by apply (list_elem_of_fmap_2 x_id)).
      eexists. split.
      * apply (fold_alter_hit x_id); [done|done|].
        rewrite fold_alter_other; [rewrite fold_alter_other; [done|]|].
        -- intros Hb. apply (D1 _ Hb). apply elem_of_app. by right.
        -- intros Hb. by apply (D2 _ Hb).
      * rewrite Hen, He. cbn. pose proof (Struck settings clock r (x_error_text (_compute_fire_failure settings (x_id y) r e))) as Hst.
        cbn in Hst. by destruct (_ <=? _).
Qed.

Lemma tick_cron_decides S S' now clock limit configs policies lk W V V' n :
  tick_cron zones settings cron_message transient_pg true now clock limit S S configs policies lk W V = Ok (S', V', n) ->
  exists o, decide_tick zones settings cron_message transient_pg now (cron_due_sql S now (Z.to_nat limit))
              configs policies lk W V = Ok (o, V') /\ S' = tick_writes zones clock o S.
Proof using.
  unfold tick_cron. destruct (limit <? 1); [done|]. cbn [negb].
  destruct (cron_due_sql _ _ _) as [|x due].
  - intros [= <- <- _]. exists {| o_fired := []; o_suppressed := []; o_failed := [] |}. split; [|done].
    unfold decide_tick. cbn. by case_bool_decide.
  - intros Ht. apply rbind_ok in Ht as ([o V0] & Hd & [= <- <- _]). eauto.
Qed.

(** C12: A tick settles what it selects.  In a tick that commits, every due schedule within its limit
    has exactly one outcome: it fired (stamped, failures cleared), it was put off (nothing but
    its next fire changes), or it was struck (one more failure, disabled and marked [auto] exactly at
    the threshold, its slot still owed); fired or put off, its next fire is strictly later than the
    slot that was due, so no slot is fired twice and none is retried for ever.  No other
    schedule changes.  Whatever the payload factories, the writer and the clocks do. *)
Theorem tick_settles S S' now clock limit configs policies lk W V V' n :
  (forall sid row, S !! sid = Some row -> fit_row zones (matches := matches) row) ->
  tick_cron zones settings cron_message transient_pg true now clock limit S S configs policies lk W V = Ok (S', V', n) ->
  (forall sid row, (sid, row) ∈ cron_due_sql S now (Z.to_nat limit) ->
     exists s, S' !! sid = Some s /\ settled settings clock row s) /\
  (forall sid, (forall row, (sid, row) ∉ cron_due_sql S now (Z.to_nat limit)) -> S' !! sid = S !! sid).
Proof using L.
  intros Hfit (o & Hd & ->)%tick_cron_decides.
  set (due := cron_due_sql S now (Z.to_nat limit)).
  assert (forall x, x ∈ due -> S !! x.1 = Some x.2 /\ enabled x.2 = true /\ next_fire_at x.2 <= now) as Hdue
    by (intros x; apply due_spec).
  assert (NoDup (map fst due)) as Hnd by apply due_NoDup.
  destruct (decide_tick_good zones settings cron_message transient_pg due now configs policies lk W V o V') as (G1 & G2 & G3 & G4).
  { done. } { intros x Hx. destruct (Hdue x Hx) as (Hr & _ & Hle). split; [by eapply Hfit|done]. } { done. }
  destruct (tick_writes_settles clock due o S Hnd) as [T1 T2]; try done.
  { intros x Hx. destruct (Hdue x Hx) as (? & ? & _). done. }
  split; [done|]. intros sid Hno. apply T1. intros Hi. apply list_elem_of_fmap in Hi as ([i r] & -> & Hin).
  by apply (Hno r).
Qed.
End Settles.
