(* ===== verification/CronOnce.v ===== *)
(** * Each occurrence once

    Under [allof] a schedule owes a job at every instant its clock shows a match.  A tick that
    fires a slot also writes, ahead of time, the second pass of the match that comes next, and
    later ticks pass over what is already written.  Over any run of punctual ticks every
    occurrence is delivered exactly once. *)

From Stdlib Require Import ZArith Lia QArith String.
From stdpp Require Import base gmap list sorting strings.
From S2P Require Import Prelude PyText PyFloat Retry JobRow EnqueueArgs Session EnqueueBulk Zone CronTime CronTimeProps CronTick CronTickProps.

Open Scope Z_scope.

(** ** Second passes *)

(** [x] is on the second pass of a repeated range; [twin_of z x u] is the first pass of the same
    wall clock. *)
Definition twin_of (z : zone) (x u : Z) : Prop :=
  exists T a b, overlap (z_before z) (z_trans z) T a b /\ T <= x < T + a - b /\ u = x + b - a.

Lemma twin_earlier z x u : twin_of z x u -> u < x.
Proof. intros (T & a & b & H & Ht & ->). pose proof (rep_falls _ _ _ _ H). lia. Qed.

Lemma pair_is_twin z d d' :
  wf_zone z -> shown z d -> shown z d' -> wall d' = wall d -> to_utc z d < to_utc z d' ->
  twin_of z (to_utc z d') (to_utc z d).
Proof.
  intros Hz H1 H2 Hw Hlt. apply shown_clock in H1, H2.
  destruct (from_utc_cases z (to_utc z d') Hz) as [Hp|(T & a & b & H & Hin)].
  - rewrite H2, Hw in Hp. apply (plain_unique _ _ _ Hp) in H1. lia.
  - exists T, a, b. split; [done|].
    pose proof (rep_inside _ _ _ _ H _ Hin) as C2. rewrite H2, Hw in Hin, C2.
    pose proof (rep_inside _ _ _ _ H (to_utc z d)) as C1. rewrite H1 in C1. specialize (C1 Hin).
    pose proof (rep_falls _ _ _ _ H). lia.
Qed.

(** The range a second pass is in is the one its bounds name. *)
Lemma twin_bounds z x u :
  twin_of z x u ->
  exists s e, repeated_range_bounds z (clock_at z x) = Some (s, e) /\
    forall t, u <= t -> t < to_utc z (mkaware e false) ->
    repeated_range_bounds z (clock_at z t) = Some (s, e).
Proof.
  intros (T & a & b & H & Ht & ->). exists (T + b), (T + a). pose proof (rep_falls _ _ _ _ H).
  rewrite (rep_clock_second _ _ _ _ H) by done. rewrite (bounds_repeated _ _ _ _ H) by lia. split; [done|].
  intros t Hlo Hhi. unfold to_utc, utcoffset in Hhi. cbn in Hhi.
  rewrite (ov_far _ _ _ _ _ H) in Hhi by (unfold minute, second; lia).
  apply (bounds_repeated _ _ _ _ H). pose proof (rep_below _ _ _ _ H t). pose proof (rep_above _ _ _ _ H t). lia.
Qed.

Lemma twin_range_end z x u s e :
  twin_of z x u -> repeated_range_bounds z (clock_at z x) = Some (s, e) -> x < to_utc z (mkaware e false).
Proof.
  intros (T & a & b & H & Ht & ->) Hb. pose proof (rep_falls _ _ _ _ H).
  rewrite (rep_clock_second _ _ _ _ H), (bounds_repeated _ _ _ _ H) in Hb by lia. injection Hb as <- <-.
  unfold to_utc, utcoffset. cbn. rewrite (ov_far _ _ _ _ _ H) by (unfold minute, second; lia). lia.
Qed.

Lemma twin_unique z x u u' : twin_of z x u -> twin_of z x u' -> u = u'.
Proof.
  intros (T & a & b & H & Ht & ->) (T' & a' & b' & H' & Ht' & ->).
  pose proof (rep_falls _ _ _ _ H). pose proof (rep_falls _ _ _ _ H').
  pose proof (rep_clock_second _ _ _ _ H x Ht) as E. rewrite (rep_clock_second _ _ _ _ H' x Ht') in E.
  pose proof (bounds_repeated _ _ _ _ H (x + b) ltac:(lia)) as B.
  replace (x + b) with (x + b') in B by lia. rewrite (bounds_repeated _ _ _ _ H') in B by lia.
  injection B. lia.
Qed.

(** ** Whole seconds *)

Lemma utc_info_minutes o l t : o mod minute = 0 -> apart o l -> (utc_info o l t).1 mod minute = 0.
Proof.
  revert o. induction l as [|[T o'] l IH]; intros o Ho Ha; [done|].
  destruct Ha as (HT & Ho' & _ & _ & Ha). destruct (Z.le_gt_cases T t).
  - rewrite utc_info_fst by done. auto.
  - by rewrite utc_info_before.
Qed.

Lemma utc_info_jump o l t :
  apart o l -> (utc_info o l t).1 = (utc_info o l (t - 1)).1 \/ t mod minute = 0.
Proof.
  revert o. induction l as [|[T o'] l IH]; intros o Ha; [by left|].
  pose proof (apart_step _ _ _ _ Ha) as [Hp _]. destruct Ha as (HT & Ho' & _ & _ & Ha).
  destruct (Z.lt_trichotomy T t) as [|[->|]]; [|by right|].
  - rewrite !utc_info_fst by lia. auto.
  - left. by rewrite !utc_info_before by lia.
Qed.

Lemma seconds_sub m o : m mod second = 0 -> o mod minute = 0 -> (m - o) mod second = 0.
Proof.
  intros Hm Ho. apply Z.mod_divide in Hm as [x ->], Ho as [y ->]; try done. apply Z.mod_divide; [done|].
  exists (x - y * 60). unfold minute. lia.
Qed.

Lemma reaches_seconds z t m : wf_zone z -> reaches z t m -> m mod second = 0 -> t mod second = 0.
Proof.
  intros [Ho Ha] [H1 H2] Hm. specialize (H2 (t - 1) ltac:(lia)). rewrite clock_at_eq in H1, H2.
  unfold clock_of in *. destruct (utc_info_jump _ _ t Ha) as [He|Ht].
  - pose proof (utc_info_minutes _ _ t Ho Ha) as Hmin. rewrite <- He in H2.
    assert (t = m - (utc_info (z_before z) (z_trans z) t).1) as -> by lia.
    by apply seconds_sub.
  - apply Z.mod_divide in Ht as [y ->]; [|done]. apply Z.mod_divide; [done|]. exists (y * 60). unfold minute. lia.
Qed.

Section Once.
Context `{Rounding} {C : Croniter} {matches : string -> Z -> Prop} {L : CroniterLaws C matches}.
Context (zones : string -> option zone).
Context (settings : cron_settings) (cron_message : string -> cron_error -> string).
Context (transient_pg : pyexn -> bool).

Lemma owed_seconds z e st t :
  wf_zone z -> owed z (matches e) st t -> t mod second = 0.
Proof using L.
  intros Hz (m & Hm & [Hr|[_ Hc]]); pose proof (matches_seconds _ _ Hm) as Hs.
  - by eapply reaches_seconds.
  - destruct (from_utc_cases z t Hz) as [Hp|(T & a & b & Ho & Hw)].
    + eapply reaches_seconds; [done| |exact Hs]. rewrite <- Hc. exact (plain_reaches _ _ _ Hp).
    + pose proof (ov_minute _ _ _ _ _ Ho) as (_ & Ha & Hb). rewrite Hc in *.
      assert (exists o, o mod minute = 0 /\ t = m - o) as (o & Hmo & ->).
      { destruct (rep_inside _ _ _ _ Ho t) as [(_ & He & _)|(_ & He & _)]; [by rewrite Hc|exists a|exists b]; split; try done; lia. }
      by apply seconds_sub.
Qed.

Section Row.
Context (row : schedule) (z : zone) (Hz : zones (timezone row) = Some z) (Hfit : fit_row zones (matches := matches) row).

Abbreviation M := (matches (cron_expr row)).
Abbreviation instant := (instant zones row).

Lemma row_zone : wf_zone z.
Proof using Hz Hfit. exact (fit_zone _ _ _ _ (Hfit z Hz)). Qed.

Lemma first_fire_total after st :
  exists d, first_fire zones cron_message row after st = Ok d /\ shown z d /\ instant d = to_utc z d /\
            next_owed z M st after (instant d).
Proof using Hz Hfit L.
  assert (exists d, first_fire zones cron_message row after st = Ok d) as [d Hd].
  { destruct (walk_exact z (cron_expr row) (timezone row) after st (Hfit z Hz)) as (r & Hr & Ha).
    unfold first_fire, fires_after, compute_next_fire_after, _compute_next_fire_after_walking. rewrite Hz, Hr.
    destruct r as [|d r]; [done|]. by exists d. }
  exists d. destruct (first_fire_next _ _ _ _ _ _ Hfit Hd) as (z' & Hz' & _ & Hs & Hi & Hn).
  assert (z' = z) as -> by congruence. by rewrite Hi.
Qed.

(** The occurrences between two instants, in order. *)
Definition occurrences (st : DstStrategy) (from_ to_ : Z) (l : list Z) : Prop :=
  StronglySorted Z.lt l /\ forall t, t ∈ l <-> from_ < t <= to_ /\ owed z M st t.

Lemma occurrences_nil st t : occurrences st t t [].
Proof using. split; [constructor|]. intros x. rewrite elem_of_nil. split; [done|lia]. Qed.

Lemma occurrences_cons st from_ next to_ l :
  next_owed z M st from_ next -> next <= to_ -> occurrences st next to_ l -> occurrences st from_ to_ (next :: l).
Proof using.
  intros (Hlt & Ho & Hnone) Hle [Hs Hm]. split.
  - constructor; [done|]. apply Forall_forall. intros x Hx. apply Hm in Hx. lia.
  - intros t. rewrite elem_of_cons, Hm. split.
    + intros [->|[??]]; [split; [lia|done]|split; [lia|done]].
    + intros [Ht Hot]. destruct (Z.lt_trichotomy t next) as [Hl|[->|Hg]]; [|by left|right; split; [lia|done]].
      destruct (Hnone t); [lia|done].
Qed.

(** The walk ends, and unless its time ran out it has counted every occurrence up to the
    recomputed slot. *)
Lemma skip_walk_counts st lk allowance n i cursor target count :
  owed z M st target -> cursor <= target ->
  (cursor mod second = 0 -> (target - cursor) / second <= Z.of_nat n) ->
  (target - cursor) / second + 1 <= Z.of_nat n \/ cursor mod second = 0 ->
  exists c partial, skip_walk zones cron_message n row st lk allowance i cursor target count = Ok (c, partial) /\
    (partial = false -> exists l, occurrences st cursor target l /\ c = count + Z.of_nat (length l)).
Proof using Hz Hfit L.
  intros Ho. pose proof (owed_seconds z _ _ _ row_zone Ho) as Hts. assert (0 < second) as Hsec by done.
  revert i cursor count. induction n as [|n IH]; intros i cursor count Hle Hn Hn'; cbn [skip_walk].
  all: destruct (Z.ltb_spec cursor target) as [Hlt|Hge];
    [|assert (cursor = target) as -> by lia; eexists _, _; split; [done|];
      intros _; exists []; split; [apply occurrences_nil|cbn; lia]].
  all: destruct (Qle_bool allowance (at_check lk i)); [eexists _, _; by split|].
  - exfalso. assert (0 <= (target - cursor) / second) by (apply Z.div_pos; lia).
    destruct Hn' as [|Hc]; [lia|]. specialize (Hn Hc).
    assert (1 <= (target - cursor) / second); [|lia]. apply Z.div_le_lower_bound; [done|].
    apply Z.mod_divide in Hts as [x ->], Hc as [y ->]; try done. unfold second in *. lia.
  - destruct (first_fire_total cursor st) as (d & Hd & _ & _ & Hnext). rewrite Hd. cbn [rbind].
    pose proof Hnext as (Hgt & Hod & Hnone). rewrite (proj2 (Z.leb_gt _ _) Hgt).
    assert (instant d <= target) as Hdt.
    { destruct (Z.le_gt_cases (instant d) target) as [|Hbig]; [done|]. destruct (Hnone target); [lia|done]. }
    pose proof (owed_seconds z _ _ _ row_zone Hod) as Hds.
    assert ((target - instant d) / second <= Z.of_nat n) as Hfuel.
    { destruct Hn' as [Hbig|Hc].
      - assert ((target - instant d) / second <= (target - cursor) / second) by (apply Z.div_le_mono; lia). lia.
      - specialize (Hn Hc). assert ((target - instant d) / second + 1 <= (target - cursor) / second); [|lia].
        rewrite <- Z.div_add by done. apply Z.div_le_mono; [done|].
        apply Z.mod_divide in Hds as [x Hx], Hc as [y Hy]; try done. unfold second in *. lia. }
    destruct (IH (S i) (instant d) (count + 1)) as (c & pa & Hw & Hc); [done|auto|auto|].
    exists c, pa. split; [done|]. intros Hp. destruct (Hc Hp) as (l & Hl & ->).
    exists (instant d :: l). split; [by apply occurrences_cons|]. cbn. lia.
Qed.

(** ** Passing over what is delivered *)

Lemma hop_spec n covered range_end d d' :
  owed z M allof (instant d) -> hop zones cron_message n row covered range_end d = Ok d' ->
  shown z d ->
  shown z d' /\ owed z M allof (instant d') /\ instant d <= instant d' /\
  (forall x, owed z M allof x -> instant d <= x < instant d' -> x ∈ covered) /\
  (instant d' ∉ covered \/ range_end <= instant d').
Proof using Hz Hfit L.
  revert d. induction n as [|n IH]; intros d Ho Hh Hs; cbn [hop] in Hh.
  all: destruct (_ && _) eqn:Hc;
    [|injection Hh as <-; apply andb_false_iff in Hc;
      (split; [done|]); (split; [done|]); (split; [lia|]); (split; [intros; lia|]);
      destruct Hc as [Hc|Hc]; [right; zbool; lia|left; by apply bool_decide_eq_false in Hc]].
  { done. }
  apply andb_true_iff in Hc as [_ Hc]. apply bool_decide_eq_true in Hc.
  destruct (first_fire_total (instant d) allof) as (d1 & Hd1 & Hs1 & _ & Hnext). rewrite Hd1 in Hh. cbn [rbind] in Hh.
  pose proof Hnext as (Hgt & Ho1 & Hnone). rewrite (proj2 (Z.leb_gt _ _) Hgt) in Hh.
  destruct (IH d1 Ho1 Hh Hs1) as (H1 & H2 & H3 & H4 & H5).
  split; [done|]. split; [done|]. split; [lia|]. split; [|done].
  intros x Hx Hin. destruct (Z.lt_trichotomy x (instant d1)) as [Hl|[->|Hg]].
  - destruct (decide (x = instant d)) as [->|]; [done|]. destruct (Hnone x); [lia|done].
  - apply H4; [done|lia].
  - apply H4; [done|lia].
Qed.

Lemma hop_total covered range_end n d :
  (length (List.filter (fun x => (instant d <=? x)%Z) covered) <= n)%nat ->
  exists d', hop zones cron_message n row covered range_end d = Ok d'.
Proof using Hz Hfit L.
  revert d. induction n as [|n IH]; intros d Hn; cbn [hop]; (destruct (_ && _) eqn:Hc; [|by eauto]).
  all: apply andb_true_iff in Hc as [_ Hc]; apply bool_decide_eq_true in Hc.
  - assert (instant d ∈ List.filter (fun x => instant d <=? x) covered) as Hin.
    { apply list_elem_of_In, filter_In. split; [by apply list_elem_of_In|apply Z.leb_refl]. }
    destruct (List.filter _ _); [by apply not_elem_of_nil in Hin|cbn in Hn; lia].
  - destruct (first_fire_total (instant d) allof) as (d1 & -> & _ & _ & Hgt & _). cbn [rbind].
    rewrite (proj2 (Z.leb_gt _ _) Hgt). apply IH. apply Nat.lt_succ_r. eapply Nat.lt_le_trans; [|exact Hn].
    clear -Hc Hgt. induction covered as [|x l IHl]; [by apply not_elem_of_nil in Hc|]. cbn.
    assert (length (List.filter (fun y => (instant d1 <=? y)%Z) l) <= length (List.filter (fun y => (instant d <=? y)%Z) l))%nat as Hmono.
    { clear -Hgt. induction l as [|y l IHl]; cbn; [lia|].
      destruct (Z.leb_spec (instant d1) y), (Z.leb_spec (instant d) y); cbn; lia. }
    apply elem_of_cons in Hc as [<-|Hc].
    + rewrite Z.leb_refl, (proj2 (Z.leb_gt (instant d1) (instant d)) Hgt). cbn. lia.
    + specialize (IHl Hc). destruct (Z.leb_spec (instant d1) x), (Z.leb_spec (instant d) x); cbn; lia.
Qed.
End Row.

(** ** What the writes deliver *)

(** A job of the schedule stands for the instant [x]. *)
Definition covers (V : gmap Z stored) (sid : Z) (who : string) (x : Z) : Prop :=
  exists id r, V !! id = Some r /\ stamped_by sid who r = true /\ scheduled_at (s_job r) = x /\ owns_delivery r = true.

(** What the tick relies on of the backend's batch insert: a call that returns has written one fresh
    row for each item without an idempotency key, its clock readings no later than [hi], and
    nothing else. *)
Class BatchWriter (W : writer) (hi : Z) : Prop := {
  batch_lands i l V V' :
    W i l V = Ok V' -> Forall (fun a => e_idempotency_key a = None) l ->
    (forall id, id ∉ map e_id l -> V' !! id = V !! id) /\
    forall a, a ∈ l -> V !! e_id a = None /\
      exists now c, (forall j, c j <= hi) /\ V' !! e_id a = Some (enqueued_row now c a)
}.

Definition carries (sid : Z) (who : string) (a : EnqueueArgs) : Prop :=
  e_actor a = who /\ e_metadata a !! "cron_schedule_id"%string = Some (JUuid sid).

Lemma enqueued_covers sid who now c a hi x :
  (forall j, c j <= hi) -> hi < x ->
  stamped_by sid who (enqueued_row now c a) = true /\ scheduled_at (s_job (enqueued_row now c a)) = x /\
    owns_delivery (enqueued_row now c a) = true
  <-> carries sid who a /\ e_scheduled_at a = Some x.
Proof using.
  intros Hc Hx. unfold stamped_by, owns_delivery, row_actor, row_status, carries. cbn.
  rewrite andb_true_iff, !bool_decide_eq_true. split.
  - intros ([??] & Ha & _). split; [done|]. destruct (e_scheduled_at a); cbn in Ha; [by subst|]. specialize (Hc 3%nat). lia.
  - intros ([??] & ->). split_and!; try done. unfold due_status. case_match; rewrite !elem_of_cons; auto.
Qed.

Lemma lands_covers W hi i l V V' sid who x :
  BatchWriter W hi -> W i l V = Ok V' -> Forall (fun a => e_idempotency_key a = None) l -> hi < x ->
  covers V' sid who x <-> covers V sid who x \/ exists a, a ∈ l /\ carries sid who a /\ e_scheduled_at a = Some x.
Proof using.
  intros HW Hl Hk Hx. destruct (batch_lands _ _ _ _ Hl Hk) as [Hother Hnew]. split.
  - intros (id & r & Hr & Hs). destruct (decide (id ∈ map e_id l)) as [Hin|Hout].
    + apply list_elem_of_fmap in Hin as (a & -> & Ha). destruct (Hnew a Ha) as (_ & now & c & Hc & Hrow).
      right. exists a. split; [done|]. rewrite Hr in Hrow. injection Hrow as ->. by apply (enqueued_covers _ _ now c a hi).
    + left. exists id, r. by rewrite <- Hother.
  - intros [(id & r & Hr & Hs)|(a & Ha & Hs)].
    + exists id, r. rewrite Hother; [done|]. intros (a & -> & Ha)%list_elem_of_fmap.
      destruct (Hnew a Ha) as [Hn _]. by rewrite Hn in Hr.
    + destruct (Hnew a Ha) as (_ & now & c & Hc & Hrow). exists (e_id a), (enqueued_row now c a).
      split; [done|]. by apply (enqueued_covers _ _ now c a hi).
Qed.

(** The arguments of a plan are its schedule's own. *)
Definition own_args (p : _FireSuccess) : Prop :=
  Forall (fun a => e_idempotency_key a = None /\ carries (f_id p) (f_actor p) a) (f_args p).

Lemma stamped_lookup sid policy : stamped_metadata sid policy !! "cron_schedule_id"%string = Some (JUuid sid).
Proof using.
  destruct policy as [[[] m]|]; vm_compute; reflexivity.
Qed.

Lemma immediate_own sid row ac policy id body a :
  immediate_args sid row ac policy id body = Ok a ->
  e_idempotency_key a = None /\ carries sid (c_actor row) a.
Proof using.
  unfold immediate_args. intros Ha. apply rbind_ok in Ha as (k & _ & Ha). apply make_args_same in Ha as ->.
  split; [done|]. split; [done|]. apply stamped_lookup.
Qed.

Lemma twin_own sid row ac policy id body t a :
  twin_args sid row ac policy id body t = Ok a -> e_idempotency_key a = None /\ carries sid (c_actor row) a.
Proof using.
  unfold twin_args. intros Ha. apply rbind_ok in Ha as (k & _ & Ha). apply make_args_same in Ha as ->.
  split; [done|]. split; [done|]. apply stamped_lookup.
Qed.

Lemma plan_args_own sid row configs policies lk at_ sk pa p :
  plan_args zones settings cron_message sid row configs policies lk at_ sk pa = Ok p -> own_args p.
Proof using.
  intros Hp. pose proof (plan_args_row _ _ _ _ _ _ _ _ _ _ _ _ Hp) as (Hi & _ & Ha). unfold own_args. rewrite Hi, Ha.
  destruct (plan_args_inv _ _ _ _ _ _ _ _ _ _ _ _ Hp) as (ac & body & one & nx & later & _ & _ & Hone & _ & _ & Hargs).
  destruct Hargs as [[_ ->]|(d & l & two & _ & _ & _ & Htwo & ->)].
  - apply Forall_singleton. exact (immediate_own _ _ _ _ _ _ _ Hone).
  - constructor; [exact (immediate_own _ _ _ _ _ _ _ Hone)|].
    constructor; [exact (twin_own _ _ _ _ _ _ _ _ Htwo)|constructor].
Qed.

(** Somebody among [plans] is the schedule and carries [x]. *)
Definition plans_carry (plans : list _FireSuccess) (sid : Z) (who : string) (x : Z) : Prop :=
  exists p a, p ∈ plans /\ f_id p = sid /\ f_actor p = who /\ a ∈ f_args p /\ e_scheduled_at a = Some x.

Lemma plans_carry_cons p l sid who x :
  plans_carry (p :: l) sid who x <-> plans_carry [p] sid who x \/ plans_carry l sid who x.
Proof using.
  unfold plans_carry. split.
  - intros (q & a & [Hq|Hq]%elem_of_cons & Hr); [left|right]; exists q, a; [|done]. by rewrite list_elem_of_singleton.
  - intros [(q & a & Hq & Hr)|(q & a & Hq & Hr)]; exists q, a; rewrite elem_of_cons; [|by auto].
    apply list_elem_of_singleton in Hq as ->. by auto.
Qed.

Lemma own_carry sid who x plans :
  Forall own_args plans ->
  (exists a, a ∈ concat (map f_args plans) /\ carries sid who a /\ e_scheduled_at a = Some x) <-> plans_carry plans sid who x.
Proof using.
  intros Hown. rewrite Forall_forall in Hown. split.
  - intros (a & Ha & Hc & Hx). apply list_elem_of_In, in_concat in Ha as (l & Hl & Ha).
    apply in_map_iff in Hl as (p & <- & Hp). apply list_elem_of_In in Hp, Ha. exists p, a.
    specialize (Hown p Hp). unfold own_args in Hown. rewrite Forall_forall in Hown. destruct (Hown a Ha) as [_ [Hw Hm]].
    destruct Hc as [Hw' Hm']. rewrite Hm in Hm'. split_and!; try done; congruence.
  - intros (p & a & Hp & <- & <- & Ha & Hx). exists a. split.
    + apply list_elem_of_In, in_concat. exists (f_args p). split; [|by apply list_elem_of_In].
      apply in_map, list_elem_of_In, Hp.
    + specialize (Hown p Hp). unfold own_args in Hown. rewrite Forall_forall in Hown. destruct (Hown a Ha) as [_ Hc]. done.
Qed.

Lemma own_keyless plans : Forall own_args plans -> Forall (fun a => e_idempotency_key a = None) (concat (map f_args plans)).
Proof using.
  intros Hown. apply Forall_concat, Forall_map. eapply Forall_impl; [exact Hown|].
  intros p Hp. eapply Forall_impl; [exact Hp|]. by intros a [? _].
Qed.

Lemma apart_covers W hi i l V w sid who x :
  BatchWriter W hi -> Forall own_args l -> hi < x -> enqueue_apart settings transient_pg W i l V = Ok w ->
  covers (w_jobs w) sid who x <-> covers V sid who x \/ plans_carry (w_landed w) sid who x.
Proof using.
  intros HW Hown Hx. revert i V w. induction l as [|p l IH]; intros i V w Hw; cbn in Hw.
  { injection Hw as <-. cbn. split; [by left|]. by intros [?|(q & a & ?%not_elem_of_nil & _)]. }
  apply Forall_cons in Hown as [Hp Hown]. destruct (W i (f_args p) V) as [V'|e] eqn:E.
  - apply rbind_ok in Hw as (w' & Hw' & [= <-]). cbn. rewrite (IH Hown _ _ _ Hw'), plans_carry_cons.
    pose proof (own_carry sid who x [p] ltac:(by constructor)) as Hc. cbn in Hc. rewrite app_nil_r in Hc.
    pose proof (own_keyless [p] ltac:(by constructor)) as Hk. cbn in Hk. rewrite app_nil_r in Hk.
    rewrite (lands_covers _ _ _ _ _ _ sid who x HW E Hk Hx), Hc. apply Logic.or_assoc.
  - destruct (transient_pg e); [done|]. apply rbind_ok in Hw as (w' & Hw' & [= <-]). by apply IH in Hw'.
Qed.

Lemma together_covers n W hi i l V w sid who x :
  BatchWriter W hi -> NoDup (map f_id l) -> Forall own_args l -> hi < x ->
  enqueue_together settings transient_pg n W i l V = Ok w ->
  covers (w_jobs w) sid who x <-> covers V sid who x \/ plans_carry (w_landed w) sid who x.
Proof using.
  intros HW. revert i l V w. induction n as [|n IH]; intros i l V w Hnd Hown Hx Hw; destruct l as [|p l].
  all: cbn [enqueue_together] in Hw.
  all: try (injection Hw as <-; cbn; split; [by left|]; by intros [?|(q & a & ?%not_elem_of_nil & _)]).
  all: destruct (W i (concat (map f_args (p :: l))) V) as [V'|e] eqn:E;
    [injection Hw as <-; rewrite <- (own_carry sid who x _ Hown);
     exact (lands_covers _ _ _ _ _ _ sid who x HW E (own_keyless _ Hown) Hx)|].
  all: destruct (transient_pg e); [done|].
  all: destruct (_attribute_violation _ e) as [[[v off] sv]|] eqn:Ea; [|by eapply apart_covers].
  { done. }
  destruct (attribute_splits _ _ _ _ _ Hnd Ea) as (_ & _ & _ & q & ->).
  apply rbind_ok in Hw as (w' & Hw' & [= <-]).
  exact (IH _ _ _ _ (NoDup_filter_ids _ _ Hnd) (Forall_filter_bool _ q (p :: l) Hown) Hx Hw').
Qed.

(** ** Where a fired plan comes from *)

Lemma apart_landed W i l V w p :
  enqueue_apart settings transient_pg W i l V = Ok w -> p ∈ w_landed w -> p ∈ l.
Proof using.
  revert i V w. induction l as [|q l IH]; intros i V w Hw Hp; cbn in Hw; [injection Hw as <-; done|].
  rewrite elem_of_cons. destruct (W i (f_args q) V) as [V'|e].
  - apply rbind_ok in Hw as (w' & Hw' & [= <-]). apply elem_of_cons in Hp as [Hp|Hp]; [by left|right; by eapply IH].
  - destruct (transient_pg e); [done|]. apply rbind_ok in Hw as (w' & Hw' & [= <-]). right. by eapply IH.
Qed.

Lemma together_landed n W i l V w p :
  NoDup (map f_id l) -> enqueue_together settings transient_pg n W i l V = Ok w -> p ∈ w_landed w -> p ∈ l.
Proof using.
  revert i l V w. induction n as [|n IH]; intros i l V w Hnd Hw Hp; destruct l as [|q l]; cbn [enqueue_together] in Hw.
  all: try (by injection Hw as <-).
  all: destruct (W i _ V) as [V'|e]; [by injection Hw as <-|].
  all: destruct (transient_pg e); [done|].
  all: destruct (_attribute_violation _ e) as [[[v off] sv]|] eqn:Ea; [|by eapply apart_landed].
  { done. }
  destruct (attribute_splits _ _ _ _ _ Hnd Ea) as (_ & _ & _ & q' & ->).
  apply rbind_ok in Hw as (w' & Hw' & [= <-]).
  apply (IH _ _ _ _ (NoDup_filter_ids _ _ Hnd) Hw') in Hp. apply list_elem_of_In, filter_In in Hp as [Hp _].
  by apply list_elem_of_In.
Qed.

Section Source.
Context (now : Z) (configs : gmap string _ActorConfig) (policies : gmap string ActorFirePolicy) (lk : Z -> fire_luck).

(** [p] is what planning made of [row]. *)
Definition planned_from (row : schedule) (p : _FireSuccess) : Prop :=
  exists q q', _plan_fire zones settings cron_message (f_id p) row now configs policies (lk (f_id p)) q = (q', Ok p).

Lemma plan_rows_source rows q p :
  p ∈ pl_successes (plan_rows zones settings cron_message rows now configs policies lk q) ->
  (f_id p, f_row p) ∈ rows /\ planned_from (f_row p) p.
Proof using.
  revert q. induction rows as [|[sid row] rows IH]; intros q Hp; cbn in Hp; [by apply not_elem_of_nil in Hp|].
  destruct (_plan_fire _ _ _ _ _ _ _ _ _ _) as [q' r] eqn:E. rewrite elem_of_cons.
  assert (p ∈ pl_successes (plan_rows zones settings cron_message rows now configs policies lk q') \/ r = Ok p) as [Hin|Hr].
  { destruct r as [p0|[sk|e]]; cbn in Hp; try (by left). apply elem_of_cons in Hp as [->|]; auto. }
  - destruct (IH _ Hin). split; [by right|done].
  - subst r. pose proof (plan_fire_row _ _ _ _ _ _ _ _ _ _ _ _ E) as (Hi & Hrow & _).
    split; [left; by rewrite Hi, Hrow|]. exists q, q'. by rewrite Hi, Hrow.
Qed.

Lemma plan_rows_deferred rows q u :
  u ∈ pl_suppressed (plan_rows zones settings cron_message rows now configs policies lk q) ->
  exists row, (u_id u, row) ∈ rows /\ payload_factory row <> None.
Proof using.
  revert q. induction rows as [|[sid row] rows IH]; intros q Hu; cbn in Hu; [by apply not_elem_of_nil in Hu|].
  destruct (_plan_fire _ _ _ _ _ _ _ _ _ _) as [q' r] eqn:E.
  assert (u ∈ pl_suppressed (plan_rows zones settings cron_message rows now configs policies lk q') \/
          exists sk, r = Err (_TickBudgetExhaustedError sk) /\ u = budget_deferred sid row now sk) as [Hin|(sk & -> & ->)].
  { destruct r as [p0|[sk|e]]; cbn in Hu; try (by left). apply elem_of_cons in Hu as [->|]; eauto. }
  - destruct (IH _ Hin) as (r' & ? & ?). exists r'. split; [by right|done].
  - exists row. split; [by left|]. intros Hpf. unfold _plan_fire in E.
    destruct (catch_up _ _ _ _ _ _ _) as [q0 [[[at_ sk'] pa]|e']] eqn:Ec; cbn in E.
    + injection E as _ E. unfold plan_args in E. rewrite Hpf in E. destruct (configs !! _); [|done].
      unfold to_plan_exn in E. by destruct (rbind _ _).
    + injection E as _ ->. unfold catch_up in Ec. destruct (_ <? _); [|done].
      destruct (first_fire _ _ _ _ _) as [d|]; [|done]. by destruct (skip_walk _ _ _ _ _ _ _ _ _ _ _) as [[]|].
Qed.
End Source.

(** ** The ledger of one schedule *)

Lemma twin_first_pass z x u v : twin_of z x u -> twin_of z u v -> False.
Proof using.
  intros (T & a & b & Ho & Ht & ->) (T' & a' & b' & Ho' & Ht' & _).
  pose proof (rep_falls _ _ _ _ Ho). assert (0 < minute) by done.
  pose proof (rep_from_first _ _ _ _ Ho (x + b - a) ltac:(lia)) as E.
  rewrite (rep_from_second _ _ _ _ Ho') in E by done. done.
Qed.

Lemma twin_owed z e x u : twin_of z x u -> owed z (matches e) allof u -> owed z (matches e) allof x.
Proof using.
  intros (T & a & b & Ho & Ht & ->) Hu. pose proof (rep_falls _ _ _ _ Ho).
  apply (owed_inside _ _ _ _ _ _ Ho) in Hu; [|lia]. rewrite (proj2 (Z.ltb_lt _ _)) in Hu by lia.
  exists (x + b - a + a). split; [done|]. right. split; [done|]. rewrite (rep_clock_second _ _ _ _ Ho) by done. lia.
Qed.

(** What is delivered so far, when the next fire is [n]: everything owed since [n0] and before
    [n], and ahead of [n] only second passes whose first pass is not after [n]. *)
Record ledger (z : zone) (e : string) (n0 n : Z) (log : list Z) : Prop := {
  lg_next : owed z (matches e) allof n;
  lg_start : n0 <= n;
  lg_all : forall x, owed z (matches e) allof x -> n0 <= x < n -> x ∈ log;
  lg_once : NoDup log;
  lg_owed : forall x, x ∈ log -> owed z (matches e) allof x /\ n0 <= x /\ (x < n \/ exists u, twin_of z x u /\ u <= n);
  lg_open : n ∉ log
}.

Lemma ledger_step z e n0 n log n1 tw n' :
  ledger z e n0 n log -> next_owed z (matches e) allof n n1 ->
  (tw = [] \/ exists t, tw = [t] /\ twin_of z t n1) ->
  owed z (matches e) allof n' -> n1 <= n' ->
  (forall x, owed z (matches e) allof x -> n1 <= x < n' -> x ∈ log) -> n' ∉ log ->
  ledger z e n0 n' (log ++ n :: tw).
Proof using.
  intros Hl (Hlt & Ho1 & Hnone) Htw Ho' Hle Hpassed Hopen. destruct Hl as [Hn Hs Hall Honce Howed Hn_open].
  assert (forall t, tw = [t] -> (t ∉ log) /\ n1 < t /\ n' = n1) as Htwin.
  { intros t Ht. destruct Htw as [->|(t' & -> & Ht')]; [done|]. injection Ht as ->.
    pose proof (twin_earlier _ _ _ Ht'). split_and!; [|done|].
    - intros Hin. destruct (Howed _ Hin) as (_ & _ & [?|(u & Hu & ?)]); [lia|].
      pose proof (twin_unique _ _ _ _ Ht' Hu). lia.
    - assert (n1 ∉ log) as Hn1.
      { intros Hin. destruct (Howed _ Hin) as (_ & _ & [?|(u & Hu & ?)]); [lia|]. exact (twin_first_pass _ _ _ _ Ht' Hu). }
      destruct (Z.lt_trichotomy n1 n') as [Hlt'|[|]]; [|done|lia]. destruct Hn1. apply Hpassed; [done|lia]. }
  split; [done|lia|..].
  - intros x Hx Hin. rewrite elem_of_app, elem_of_cons.
    destruct (Z.lt_trichotomy x n) as [?|[->|?]]; [left; apply Hall; [done|lia]|by auto|].
    destruct (Z.lt_ge_cases x n1); [destruct (Hnone x); [lia|done]|]. left. apply Hpassed; [done|lia].
  - apply NoDup_app. split_and!; [done| |].
    + intros x Hx Hin. apply elem_of_cons in Hin as [->|Hin]; [done|].
      destruct Htw as [->|(t & -> & _)]; [by apply not_elem_of_nil in Hin|].
      apply list_elem_of_singleton in Hin as ->. by destruct (Htwin t eq_refl).
    + destruct Htw as [->|(t & -> & _)]; [apply NoDup_singleton|]. destruct (Htwin t eq_refl) as (_ & ? & _).
      constructor; [|apply NoDup_singleton]. rewrite list_elem_of_singleton. lia.
  - intros x Hx. apply elem_of_app in Hx as [Hx|[->|Hx]%elem_of_cons].
    + destruct (Howed _ Hx) as (? & ? & [?|(u & ? & ?)]); split_and!; try done; [left; lia|right; exists u; split; [done|lia]].
    + split_and!; [done|done|left; lia].
    + destruct Htw as [->|(t & -> & Ht)]; [by apply not_elem_of_nil in Hx|]. apply list_elem_of_singleton in Hx as ->.
      pose proof (twin_earlier _ _ _ Ht). split_and!; [by eapply twin_owed|lia|]. right. exists n1. split; [done|lia].
  - rewrite elem_of_app, elem_of_cons. intros [?|[?|Hx]]; [done|lia|].
    destruct Htw as [->|(t & -> & _)]; [by apply not_elem_of_nil in Hx|]. apply list_elem_of_singleton in Hx.
    destruct (Htwin t eq_refl) as (_ & ? & ?). lia.
Qed.

Lemma delivered_covers V sid who from_ts to_ts x :
  x ∈ delivered V sid who from_ts to_ts <-> from_ts <= x < to_ts /\ covers V sid who x.
Proof using.
  unfold delivered. change (map ?f ?l) with (f <$> l). rewrite list_elem_of_fmap. split.
  - intros ([id r] & -> & Hin). apply list_elem_of_In, filter_In in Hin as [Hin Hd]. unfold delivers in Hd. cbn in *.
    rewrite !andb_true_iff in Hd. destruct Hd as (((? & ?) & ?) & ?). zbool. split; [lia|].
    exists id, r. split_and!; try done. by apply elem_of_map_to_list, list_elem_of_In.
  - intros [Hx (id & r & Hr & Hs & <- & Ho)]. exists (id, r). split; [done|].
    apply list_elem_of_In, filter_In. split; [by apply list_elem_of_In, elem_of_map_to_list|].
    unfold delivers. cbn. rewrite Hs, Ho, (proj2 (Z.leb_le _ _)), (proj2 (Z.ltb_lt _ _)) by lia. done.
Qed.
End Once.
