(* ===== verification/CronRun.v ===== *)
(** * Runs of punctual ticks

    A run interleaves ticks with whatever else happens to the jobs and to other schedules.
    The ledger of an [allof] schedule holds in every state of such a run, so each occurrence of
    a repeated hour is delivered once: by its own tick, or by the job written ahead for it. *)

From Stdlib Require Import ZArith Lia QArith String.
From stdpp Require Import base gmap list sorting strings relations.
From S2P Require Import Prelude PyText PyFloat Retry JobRow EnqueueArgs Session EnqueueBulk Zone CronTime CronTimeProps CronTick CronTickProps CronOnce.

Open Scope Z_scope.

(** What makes a schedule the same one, and when it is next due. *)
Definition same_core (s s' : schedule) : Prop :=
  cron_expr s' = cron_expr s /\ timezone s' = timezone s /\ dst_strategy s' = dst_strategy s /\
  c_actor s' = c_actor s /\ payload_factory s' = payload_factory s.

Section Run.
Context `{Rounding} {C : Croniter} {matches : string -> Z -> Prop} {L : CroniterLaws C matches}.
Context (zones : string -> option zone).
Context (settings : cron_settings) (cron_message : string -> cron_error -> string).
Context (transient_pg : pyexn -> bool).

(** ** The writes, at one schedule *)

Lemma strikes_core l S sid row :
  S !! sid = Some row ->
  exists row', fold_left strike l S !! sid = Some row' /\ same_core row row' /\ next_fire_at row' = next_fire_at row.
Proof using.
  revert S row. induction l as [|x l IH]; intros S row Hr; cbn; [by exists row|].
  assert (exists r1, strike S x !! sid = Some r1 /\ same_core row r1 /\ next_fire_at r1 = next_fire_at row) as (r1 & H1 & H2 & H3).
  { unfold strike. destruct (decide (x_id x = sid)) as [->|Hne].
    - rewrite lookup_alter_eq, Hr. eexists. split; [reflexivity|]. by destruct (enabled row).
    - rewrite lookup_alter_ne by done. by exists row. }
  destruct (IH _ _ H1) as (r2 & ? & Hc & Hn). exists r2. split; [done|].
  unfold same_core in *. destruct H2 as (? & ? & ? & ? & ?), Hc as (? & ? & ? & ? & ?). rewrite Hn, H3. split_and!; congruence.
Qed.

Lemma writes_unfired clock o S sid row :
  S !! sid = Some row -> sid ∉ map f_id (o_fired o) -> sid ∉ map u_id (o_suppressed o) ->
  exists row', tick_writes zones clock o S !! sid = Some row' /\ same_core row row' /\ next_fire_at row' = next_fire_at row.
Proof using.
  intros Hr Hf Hu. unfold tick_writes. apply strikes_core. unfold advance_suppressed, advance_fired.
  by rewrite !fold_alter_other.
Qed.

Lemma writes_fired clock o S p row :
  NoDup (map f_id (o_fired o) ++ map u_id (o_suppressed o) ++ map x_id (o_failed o)) ->
  p ∈ o_fired o -> S !! f_id p = Some row ->
  exists row', tick_writes zones clock o S !! f_id p = Some row' /\ same_core row row' /\
               next_fire_at row' = instant zones (f_row p) (f_next p).
Proof using.
  intros Hnd Hp Hr. apply NoDup_app in Hnd as (N1 & D1 & _).
  assert (f_id p ∈ map f_id (o_fired o)) as Hin by (by apply (list_elem_of_fmap_2 f_id)).
  pose proof (D1 _ Hin) as Hno. rewrite elem_of_app in Hno.
  unfold tick_writes, strike, advance_suppressed, advance_fired.
  rewrite fold_alter_other by (intros ?; apply Hno; by right).
  rewrite fold_alter_other by (intros ?; apply Hno; by left).
  eexists. split; [by apply (fold_alter_hit f_id)|]. done.
Qed.

(** ** One schedule *)

Context (sid : Z) (e tz who : string) (z : zone).
Context (Hz : zones tz = Some z) (Hfit : fit matches z e tz).

(** An [allof] schedule of this zone with a static payload. *)
Definition is_ours (row : schedule) : Prop :=
  cron_expr row = e /\ timezone row = tz /\ dst_strategy row = "allof"%string /\ c_actor row = who /\ payload_factory row = None.

Lemma ours_core row row' : is_ours row -> same_core row row' -> is_ours row'.
Proof using. unfold is_ours, same_core. intros (? & ? & ? & ? & ?) (? & ? & ? & ? & ?). split_and!; congruence. Qed.

Lemma ours_fit row : is_ours row -> fit_row zones (matches := matches) row.
Proof using Hz Hfit.
  intros (He & Htz & _). unfold fit_row. rewrite He, Htz. intros z' Hz'. assert (z' = z) as -> by congruence. exact Hfit.
Qed.

Lemma ours_instant row d : is_ours row -> instant zones row d = to_utc z d.
Proof using Hz. intros (_ & Htz & _). unfold instant. by rewrite Htz, Hz. Qed.

(** What one fire of it plans: the next occurrence, the second pass of it if there is one, and no
    delivered occurrence as the next fire. *)
Lemma fire_of_ours row now configs policies lk V p0 p q q' :
  is_ours row -> policies !! who = None -> now <= next_fire_at row + cron_catch_up_window settings ->
  _plan_fire zones settings cron_message sid row now configs policies lk q = (q', Ok p0) ->
  skip_delivered zones cron_message V policies p0 = Ok p ->
  exists n1 tw, next_owed z (matches e) allof (next_fire_at row) n1 /\
    omap e_scheduled_at (f_args p) = tw /\ (tw = [] \/ exists t, tw = [t] /\ twin_of z t n1) /\
    (instant zones row (f_next p) = n1 /\ repeated_range_bounds z (clock_at z n1) = None \/
     exists b_s b_e covered, repeated_range_bounds z (clock_at z n1) = Some (b_s, b_e) /\
       covered = delivered V sid who n1 (to_utc z (mkaware b_e false)) /\
       owed z (matches e) allof (instant zones row (f_next p)) /\ n1 <= instant zones row (f_next p) /\
       (forall x, owed z (matches e) allof x -> n1 <= x < instant zones row (f_next p) -> x ∈ covered) /\
       (instant zones row (f_next p) ∉ covered \/ to_utc z (mkaware b_e false) <= instant zones row (f_next p))).
Proof using Hz Hfit L.
  intros Hours Hfree Hpun Hplan Hskip. pose proof (ours_fit row Hours) as Hrow.
  pose proof (plan_fire_row _ _ _ _ _ _ _ _ _ _ _ _ Hplan) as (Hi & Hr & Hact).
  pose proof Hours as (He & Htz & Hdst & Hwho & _).
  assert (strategy_of row = allof) as Hst by (unfold strategy_of; by rewrite Hdst).
  unfold _plan_fire in Hplan. destruct (catch_up _ _ _ _ _ _ _) as [q0 r] eqn:Ec. injection Hplan as <- Hp0.
  unfold catch_up in Ec. rewrite (proj2 (Z.ltb_ge _ _)) in Ec by lia. injection Ec as <- <-. cbn [rbind] in Hp0.
  destruct (plan_args_inv _ _ _ _ _ _ _ _ _ _ _ _ Hp0) as (ac & body & one & nx & later & _ & _ & Hone & Hfires & Hnx & Hargs).
  rewrite Hst in Hfires. destruct (fires_after_answers _ _ _ _ _ _ Hrow Hfires) as (z' & Hz' & Hwf & Hans).
  assert (z' = z) as -> by congruence. rewrite He in Hans.
  assert (shown z nx /\ next_owed z (matches e) allof (next_fire_at row) (to_utc z nx)) as [Hsh Hnext].
  { destruct later as [|d [|]]; cbn in Hans; [done|by destruct Hans as (_ & ? & _ & ? & _)|done]. }
  pose proof (skip_delivered_row _ _ _ _ _ _ Hskip) as (_ & Hrow' & _ & Hargs').
  exists (to_utc z nx), (omap e_scheduled_at (f_args p)). split; [done|]. split; [done|]. split.
  { rewrite Hargs'. pose proof (immediate_due _ _ _ _ _ _ _ Hone) as Hd1.
    destruct Hargs as [[_ ->]|(d & l & two & -> & _ & _ & Htwo & ->)]; cbn; rewrite Hd1; [by left|].
    rewrite (twin_due _ _ _ _ _ _ _ _ Htwo). right. eexists. split; [done|].
    rewrite (ours_instant row d Hours). destruct l; cbn in Hans; [|done].
    destruct Hans as (_ & ? & ? & _ & ? & ?). by apply pair_is_twin. }
  unfold skip_delivered in Hskip. unfold twin_query in Hskip. rewrite Hact, Hwho, Hfree, Hr, Hdst, Htz, Hz, Hnx in Hskip. cbn in Hskip.
  rewrite (shown_clock z nx Hsh). destruct (repeated_range_bounds z (wall nx)) as [[b_s b_e]|] eqn:Hb.
  - right. apply rbind_ok in Hskip as (d & Hhop & [= <-]). cbn.
    rewrite Hi, (ours_instant row nx Hours) in Hhop.
    exists b_s, b_e, (delivered V sid who (to_utc z nx) (to_utc z (mkaware b_e false))). split; [done|]. split; [done|].
    assert (zones (timezone row) = Some z) as Hzr by (by rewrite Htz).
    pose proof (hop_spec zones cron_message row z Hzr Hrow _ _ _ _ _ ltac:(rewrite (ours_instant row nx Hours), He; apply Hnext) Hhop Hsh)
      as (_ & H2 & H3 & H4 & H5).
    rewrite (ours_instant row nx Hours), He in *. by split_and!.
  - left. injection Hskip as <-. rewrite Hnx, (ours_instant row nx Hours). done.
Qed.

(** ** An actor without a policy *)

(** No singleton and no cap for the actor: the preflight has nothing to refuse. *)
Definition unrestricted (policies : gmap string ActorFirePolicy) (configs : gmap string _ActorConfig) : Prop :=
  policies !! who = None /\ configs !! who ≫= ac_max_pending = None.

Lemma admit_unrestricted V policies configs I p :
  unrestricted policies configs -> f_actor p = who -> admit_plan zones V policies configs I p = inl p.
Proof using.
  intros [Hp Hc] Ha. unfold admit_plan, capped, blocking. by rewrite Ha, Hp, Hc.
Qed.

Lemma suppress_sources V policies configs I l :
  (forall p', p' ∈ (suppress_from zones V policies configs I l).1 ->
     exists p I', p ∈ l /\ admit_plan zones V policies configs I' p = inl p') /\
  (forall u, u ∈ (suppress_from zones V policies configs I l).2 ->
     exists p I', p ∈ l /\ admit_plan zones V policies configs I' p = inr u).
Proof using.
  revert I. induction l as [|p l IH]; intros I; cbn; [by split; intros ? ?%not_elem_of_nil|].
  destruct (admit_plan zones V policies configs I p) as [p1|u1] eqn:E.
  - destruct (IH (note_kept V policies configs I p1)) as [IH1 IH2].
    destruct (suppress_from _ _ _ _ _ _) as [k s]. cbn in *. split.
    + intros p' [->|(q & I' & ? & ?)%IH1]%elem_of_cons; [exists p, I|exists q, I']; by rewrite elem_of_cons; auto.
    + intros u (q & I' & ? & ?)%IH2. exists q, I'. by rewrite elem_of_cons; auto.
  - destruct (IH I) as [IH1 IH2]. destruct (suppress_from _ _ _ _ _ _) as [k s]. cbn in *. split.
    + intros p' (q & I' & ? & ?)%IH1. exists q, I'. by rewrite elem_of_cons; auto.
    + intros u [->|(q & I' & ? & ?)%IH2]%elem_of_cons; [exists p, I|exists q, I']; by rewrite elem_of_cons; auto.
Qed.

Lemma admit_own V policies configs I p p' : admit_plan zones V policies configs I p = inl p' -> own_args p -> own_args p'.
Proof using.
  unfold admit_plan, own_args. intros Ha Hown. repeat (case_match; simplify_eq); try done.
  all: cbn; by apply Forall_take.
Qed.

(** ** What a tick does to it *)

Section Decided.
Context (now hi : Z) (due : list (Z * schedule)) (configs : gmap string _ActorConfig).
Context (policies : gmap string ActorFirePolicy) (lk : Z -> fire_luck) (W : writer) (V : gmap Z stored).
Context (row : schedule) (o : outcome) (V' : gmap Z stored).
Context (HW : BatchWriter W hi) (Hfree : unrestricted policies configs) (Hours : is_ours row).
Context (Hnd : NoDup (map fst due)) (Huniq : forall r, (sid, r) ∈ due -> r = row).
Context (Hd : decide_tick zones settings cron_message transient_pg now due configs policies lk W V = Ok (o, V')).

(** The plan of the schedule, before and after the preflights. *)
Definition our_plan (p : _FireSuccess) : Prop :=
  exists p0 q q', (sid, row) ∈ due /\ f_id p = sid /\ f_row p = row /\ f_actor p = who /\
    _plan_fire zones settings cron_message sid row now configs policies (lk sid) q = (q', Ok p0) /\
    skip_delivered zones cron_message V policies p0 = Ok p.

Lemma skipped_source plans p :
  _skip_already_delivered_overlap_twins zones cron_message V policies
    (pl_successes (plan_rows zones settings cron_message due now configs policies lk (walk_slice settings))) = Ok plans ->
  p ∈ plans -> own_args p /\ (f_id p = sid -> our_plan p).
Proof using Hours Huniq.
  intros Hl%traverse_Forall2 Hp.
  apply list_elem_of_lookup in Hp as [i Hi]. destruct (Forall2_lookup_r _ _ _ _ _ Hl Hi) as (p0 & Hi0 & Hskip).
  apply list_elem_of_lookup_2, plan_rows_source in Hi0 as [Hin (q & q' & Hplan)].
  pose proof (skip_delivered_row _ _ _ _ _ _ Hskip) as (H1 & H2 & H3 & H4).
  pose proof (plan_fire_row _ _ _ _ _ _ _ _ _ _ _ _ Hplan) as (_ & _ & H5). split.
  - unfold own_args. rewrite H1, H3, H4. unfold _plan_fire in Hplan.
    destruct (catch_up _ _ _ _ _ _ _) as [q0 r]. injection Hplan as _ Hp0.
    apply rbind_ok in Hp0 as ([[at_ sk] pa] & _ & Hp0). exact (plan_args_own _ _ _ _ _ _ _ _ _ _ _ _ Hp0).
  - intros Hid. rewrite H1 in Hid. rewrite Hid in Hin, Hplan. pose proof (Huniq _ Hin) as Hr. rewrite Hr in *.
    destruct Hours as (_ & _ & _ & Hw & _). exists p0, q, q'. split_and!; try done; congruence.
Qed.

Lemma decided_at_ours :
  (forall p, p ∈ o_fired o -> f_id p = sid -> our_plan p) /\ (sid ∉ map u_id (o_suppressed o)) /\
  forall x, hi < x -> covers V' sid who x <-> covers V sid who x \/ plans_carry (o_fired o) sid who x.
Proof using HW Hfree Hours Hnd Huniq Hd.
  unfold decide_tick in Hd. set (P := plan_rows _ _ _ due _ _ _ _ _) in Hd.
  apply rbind_ok in Hd as (plans & Hplans & Hd').
  pose proof (skip_twins_ids _ _ _ _ _ _ Hplans) as Hids. pose proof (skipped_source plans) as Hsrc.
  pose proof (plan_rows_ids zones settings cron_message due now configs policies lk (walk_slice settings)) as Hall. fold P in Hall, Hsrc.
  assert (NoDup (map f_id plans)) as Hndp.
  { rewrite Hids. rewrite <- Hall in Hnd. by apply NoDup_app in Hnd as [? _]. }
  assert (forall I p, p ∈ plans -> f_id p = sid -> admit_plan zones V policies configs I p = inl p) as Hadm.
  { intros I p Hp Hi. destruct (proj2 (Hsrc p Hplans Hp) Hi) as (? & ? & ? & _ & _ & _ & Ha & _).
    by apply admit_unrestricted. }
  set (split_ := if bool_decide (policies = ∅) then _ else _) in Hd'.
  assert ((forall p, p ∈ split_.1 -> own_args p /\ (f_id p = sid -> our_plan p)) /\ (sid ∉ map u_id split_.2) /\ NoDup (map f_id split_.1)) as (S1 & S2 & S3).
  { unfold split_. case_bool_decide; cbn; [split_and!; auto; apply not_elem_of_nil|].
    unfold _suppress_policy_collisions. set (I0 := {| fired_singleton_job := ∅; intra_pending := ∅ |}).
    destruct (suppress_sources V policies configs I0 plans) as [K1 K2]. split_and!.
    - intros p' Hp'. destruct (K1 p' Hp') as (p & I' & Hp & Ha). destruct (Hsrc p Hplans Hp) as [Ho Hour].
      split; [by eapply admit_own|]. intros Hi. pose proof (admit_plan_row _ _ _ _ _ _ _ Ha) as (Hi' & _).
      rewrite Hi in Hi'. rewrite (Hadm I' p Hp ltac:(done)) in Ha. injection Ha as <-. by apply Hour.
    - intros (u & Hu & Hin)%list_elem_of_fmap. destruct (K2 u Hin) as (p & I' & Hp & Ha).
      pose proof (admit_plan_row _ _ _ _ _ _ _ Ha) as Hi'. cbn in Hi'. by rewrite (Hadm I' p Hp ltac:(congruence)) in Ha.
    - pose proof (suppress_ids zones V policies configs I0 plans) as Hs. rewrite <- Hs in Hndp. by apply NoDup_app in Hndp as [? _]. }
  destruct split_ as [kept refused]. cbn in S1, S2, S3. apply rbind_ok in Hd' as (w & Hw & [= <- <-]). cbn.
  unfold _enqueue_planned_fires in Hw. split_and!.
  - intros p Hp. apply (together_landed _ _ _ _ _ _ _ _ _ S3 Hw) in Hp. apply (S1 p Hp).
  - rewrite map_app, elem_of_app. intros [(u & Hu & Hin)%list_elem_of_fmap|]; [|done].
    apply plan_rows_deferred in Hin as (r & Hr & Hpf). rewrite <- Hu in Hr. rewrite (Huniq _ Hr) in Hpf.
    destruct Hours as (_ & _ & _ & _ & ?). done.
  - intros x Hx. eapply together_covers; [done|done| |done|done]. apply Forall_forall. intros p Hp. apply (S1 p Hp).
Qed.
End Decided.

(** ** Runs *)

(** The slot a fire consumes, and what it writes ahead. *)
Definition deliveries (fired : list _FireSuccess) : list Z :=
  flat_map (fun p => if f_id p =? sid then next_fire_at (f_row p) :: omap e_scheduled_at (f_args p) else []) fired.

Lemma deliveries_none l : sid ∉ map f_id l -> deliveries l = [].
Proof using.
  induction l as [|p l IH]; intros Hn; [done|]. cbn in *. apply not_elem_of_cons in Hn as [Hne Hn].
  rewrite (proj2 (Z.eqb_neq _ _)) by auto. by apply IH.
Qed.

Lemma deliveries_one l p :
  NoDup (map f_id l) -> p ∈ l -> f_id p = sid -> deliveries l = next_fire_at (f_row p) :: omap e_scheduled_at (f_args p).
Proof using.
  induction l as [|q l IH]; intros Hnd Hp Hi; [by apply not_elem_of_nil in Hp|]. cbn in *.
  apply NoDup_cons in Hnd as [Hq Hnd]. apply elem_of_cons in Hp as [->|Hp].
  - rewrite Hi, Z.eqb_refl. rewrite Hi in Hq. fold (deliveries l). rewrite deliveries_none by done. apply app_nil_r.
  - rewrite (proj2 (Z.eqb_neq _ _)); [by apply IH|]. intros He. apply Hq. rewrite He, <- Hi.
    by apply (list_elem_of_fmap_2 f_id).
Qed.

(** The schedules, the jobs, the occurrences delivered so far, and the time. *)
Record run_state := {
  r_rows : gmap Z schedule;
  r_jobs : gmap Z stored;
  r_log : list Z;
  r_time : Z
}.

(** A tick in time: within the catch-up window of the slot it fires, and done before the next one. *)
Definition punctual (now hi : Z) (rows : gmap Z schedule) : Prop :=
  forall row, rows !! sid = Some row -> next_fire_at row <= now ->
    now <= next_fire_at row + cron_catch_up_window settings /\
    forall t, next_owed z (matches e) allof (next_fire_at row) t -> hi < t.

(** A tick that commits between [now] and [hi]; or time passes, and the rest of the world does what it
    likes to the jobs and the schedules, but leaves the schedule's definition and slot and
    the jobs that stand for its coming occurrences. *)
Inductive run_step : run_state -> run_state -> Prop :=
| Run_tick st now hi clock limit configs policies lk W S' V' n :
    r_time st <= now <= hi -> BatchWriter W hi -> unrestricted policies configs ->
    (forall i r, r_rows st !! i = Some r -> fit_row zones (matches := matches) r) ->
    punctual now hi (r_rows st) ->
    tick_cron zones settings cron_message transient_pg true now clock limit (r_rows st) (r_rows st)
      configs policies lk W (r_jobs st) = Ok (S', V', n) ->
    run_step st
      {| r_rows := S'; r_jobs := V';
         r_log := r_log st ++
           match decide_tick zones settings cron_message transient_pg now (cron_due_sql (r_rows st) now (Z.to_nat limit))
                   configs policies lk W (r_jobs st) with
           | Ok (o, _) => deliveries (o_fired o)
           | Err _ => []
           end;
         r_time := hi |}
| Run_world st st' row row' :
    r_time st <= r_time st' -> r_log st' = r_log st ->
    r_rows st !! sid = Some row -> r_rows st' !! sid = Some row' -> same_core row row' ->
    next_fire_at row' = next_fire_at row ->
    (forall x, r_time st' < x -> covers (r_jobs st') sid who x <-> covers (r_jobs st) sid who x) ->
    run_step st st'.

(** The ledger holds, and the jobs ahead are those of the log. *)
Definition on_course (n0 : Z) (st : run_state) : Prop :=
  exists row, r_rows st !! sid = Some row /\ is_ours row /\
    ledger z e n0 (next_fire_at row) (r_log st) (matches := matches) /\
    forall x, next_fire_at row <= x -> r_time st < x -> covers (r_jobs st) sid who x <-> x ∈ r_log st.

(** Past the delivered occurrences of the range it is in, a next fire is not in the log. *)
Lemma next_is_open n0 n log n1 n' :
  ledger z e n0 n log (matches := matches) -> n < n1 -> n1 <= n' ->
  (n' = n1 /\ repeated_range_bounds z (clock_at z n1) = None \/
   exists b_s b_e (covered : list Z), repeated_range_bounds z (clock_at z n1) = Some (b_s, b_e) /\
     (forall x, n1 <= x < to_utc z (mkaware b_e false) -> x ∈ log -> x ∈ covered) /\
     (n' ∉ covered \/ to_utc z (mkaware b_e false) <= n')) ->
  n' ∉ log.
Proof using.
  intros Hl Hlt Hle Hcase Hin. destruct (lg_owed _ _ _ _ _ Hl _ Hin) as (_ & _ & [?|(u & Hu & Hun)]); [lia|].
  destruct (twin_bounds _ _ _ Hu) as (s & e' & Hb & Hrange). pose proof (twin_range_end _ _ _ _ _ Hu Hb) as Hend.
  assert (repeated_range_bounds z (clock_at z n1) = Some (s, e')) as Hb1 by (apply Hrange; lia).
  destruct Hcase as [[_ Hnone]|(b_s & b_e & covered & Hb' & Hcov & Hout)]; [congruence|].
  rewrite Hb1 in Hb'. injection Hb' as <- <-. destruct Hout as [Hout|?]; [|lia]. apply Hout, Hcov; [lia|done].
Qed.

Lemma fired_on_course n0 st row now hi due configs policies lk p V' row' :
  r_rows st !! sid = Some row -> is_ours row ->
  ledger z e n0 (next_fire_at row) (r_log st) (matches := matches) ->
  (forall x, next_fire_at row <= x -> r_time st < x -> covers (r_jobs st) sid who x <-> x ∈ r_log st) ->
  r_time st <= now <= hi -> unrestricted policies configs -> punctual now hi (r_rows st) -> next_fire_at row <= now ->
  our_plan now due configs policies lk (r_jobs st) row p ->
  same_core row row' -> next_fire_at row' = instant zones row (f_next p) ->
  (forall x, hi < x -> covers V' sid who x <-> covers (r_jobs st) sid who x \/ x ∈ omap e_scheduled_at (f_args p)) ->
  let log := r_log st ++ next_fire_at row :: omap e_scheduled_at (f_args p) in
  ledger z e n0 (next_fire_at row') log (matches := matches) /\
  forall x, next_fire_at row' <= x -> hi < x -> covers V' sid who x <-> x ∈ log.
Proof using Hz Hfit L.
  intros Hrow Hours Hl Hinv Htime [Hfree _] Hpun Hdue (p0 & q & q' & _ & _ & _ & _ & Hplan & Hskip) Hcore Hnext Hcov. cbn zeta.
  destruct (Hpun row Hrow Hdue) as [Hwin Hhi].
  destruct (fire_of_ours row now configs policies (lk sid) (r_jobs st) p0 p q q' Hours Hfree Hwin Hplan Hskip)
    as (n1 & tw & Hn1 & Htw & Htwin & Hcase).
  pose proof (Hhi n1 Hn1) as Hhi1. pose proof Hn1 as (Hlt & Ho1 & _). rewrite Htw, Hnext in *. clear Htw.
  set (n' := instant zones row (f_next p)) in *.
  assert (owed z (matches e) allof n' /\ n1 <= n' /\
          (forall x, owed z (matches e) allof x -> n1 <= x < n' -> x ∈ r_log st) /\ (n' ∉ r_log st)) as (Hon' & Hle & Hpassed & Hopen).
  { destruct Hcase as [[He Hb]|(b_s & b_e & covered & Hb & -> & Ho & Hle & Hp & Hout)].
    - rewrite He. split_and!; [done|lia|intros; lia|]. apply (next_is_open n0 _ _ n1 n1 Hl); [done|lia|by left].
    - split_and!; [done|done| |].
      + intros x Hx Hin. specialize (Hp x Hx Hin). apply delivered_covers in Hp as [Hr Hc].
        by apply (Hinv x ltac:(lia) ltac:(lia)).
      + apply (next_is_open n0 _ _ n1 n' Hl); [done|done|right]. exists b_s, b_e, (delivered (r_jobs st) sid who n1 (to_utc z (mkaware b_e false))).
        split_and!; [done| |done]. intros x Hx Hin. apply delivered_covers. split; [done|].
        by apply (Hinv x ltac:(lia) ltac:(lia)). }
  split; [by eapply ledger_step|].
  intros x Hx Hhx. rewrite (Hcov x Hhx), (Hinv x ltac:(lia) ltac:(lia)), elem_of_app, elem_of_cons.
  split; [intuition auto|]. intros [?|[?|?]]; [by left|lia|by right].
Qed.

Lemma tick_on_course n0 st now hi clock n configs policies lk W S' V' o :
  r_time st <= now <= hi -> BatchWriter W hi -> unrestricted policies configs ->
  (forall i r, r_rows st !! i = Some r -> fit_row zones (matches := matches) r) -> punctual now hi (r_rows st) ->
  decide_tick zones settings cron_message transient_pg now (cron_due_sql (r_rows st) now n) configs policies lk W (r_jobs st) = Ok (o, V') ->
  S' = tick_writes zones clock o (r_rows st) -> on_course n0 st ->
  on_course n0 {| r_rows := S'; r_jobs := V'; r_log := r_log st ++ deliveries (o_fired o); r_time := hi |}.
Proof using Hz Hfit L.
  intros Htime HW Hfree Hfits Hpun Hd -> (row & Hrow & Hours & Hl & Hinv). set (due := cron_due_sql _ _ _) in Hd.
  pose proof (due_NoDup (r_rows st) now n) as Hnd. fold due in Hnd.
  assert (forall r, (sid, r) ∈ due -> r = row) as Huniq by (intros r Hr; apply due_spec in Hr as [? _]; cbn in *; congruence).
  destruct (decided_at_ours now hi due configs policies lk W (r_jobs st) row o V' HW Hfree Hours Hnd Huniq Hd) as (Hfired & Hsup & Hcov).
  destruct (decide_tick_good zones settings cron_message transient_pg due now configs policies lk W (r_jobs st) o V' Hnd) as (_ & _ & _ & Hids); [|done|].
  { intros x Hx. apply due_spec in Hx as (Hx & _ & ?). split; [by eapply Hfits|done]. }
  rewrite <- Hids in Hnd. pose proof (proj1 (proj1 (NoDup_app _ _) Hnd)) as Hndf. unfold on_course. cbn [r_rows r_jobs r_log r_time].
  destruct (decide (sid ∈ map f_id (o_fired o))) as [(p & Hi & Hp)%list_elem_of_fmap|Hno].
  - pose proof (Hfired p Hp ltac:(done)) as Hour. pose proof Hour as (_ & _ & _ & Hdue & _ & Hr & Ha & _).
    apply due_spec in Hdue as (_ & _ & Hdue). cbn in Hdue. rewrite Hi in Hrow.
    destruct (writes_fired clock o (r_rows st) p row Hnd Hp Hrow) as (row' & Hrow' & Hcore & Hnext). rewrite Hr, <- Hi in *.
    exists row'. rewrite (deliveries_one _ p Hndf Hp ltac:(done)), Hr.
    split; [done|]. split; [by eapply ours_core|].
    eapply (fired_on_course n0 st row now hi); try done. intros x Hx. rewrite (Hcov x Hx).
    assert (plans_carry (o_fired o) sid who x <-> x ∈ omap e_scheduled_at (f_args p)) as ->; [|done].
    rewrite list_elem_of_omap. split.
    + intros (p' & a & Hp' & Hi' & _ & Hin & Hs). exists a. split; [|done].
      assert (p' = p) as ->; [|done]. apply list_elem_of_lookup in Hp as [i Hp], Hp' as [j Hp'].
      assert (i = j) as <-; [|congruence]. eapply NoDup_lookup; [exact Hndf|..];
        rewrite list_lookup_fmap; [rewrite Hp; cbn; by rewrite <- Hi|rewrite Hp'; cbn; by rewrite Hi'].
    + intros (a & Hin & Hs). by exists p, a.
  - destruct (writes_unfired clock o (r_rows st) sid row Hrow Hno Hsup) as (row' & Hrow' & Hcore & Hnext).
    exists row'. rewrite (deliveries_none _ Hno), app_nil_r, Hnext. split; [done|]. split; [by eapply ours_core|]. split; [done|].
    intros x Hx Hhx. rewrite (Hcov x Hhx), (Hinv x Hx ltac:(lia)). split; [|by left].
    intros [?|(p' & a & Hp' & Hi' & _)]; [done|]. destruct Hno. rewrite <- Hi'. by apply (list_elem_of_fmap_2 f_id).
Qed.

Lemma step_on_course n0 st st' : run_step st st' -> on_course n0 st -> on_course n0 st'.
Proof using Hz Hfit L.
  intros Hstep Hst. destruct Hstep as [st now hi clock limit configs policies lk W S' V' n Htime HW Hfree Hfits Hpun Ht|st st' row row' Htime Hlog Hrow Hrow' Hcore Hnext Hcov].
  - apply tick_cron_decides in Ht as (o & Hd & HS). rewrite Hd. by eapply tick_on_course.
  - destruct Hst as (r & Hr & Hours & Hl & Hinv). rewrite Hrow in Hr. injection Hr as <-.
    exists row'. rewrite Hnext, Hlog. split; [done|]. split; [by eapply ours_core|]. split; [done|].
    intros x Hx Ht. rewrite (Hcov x Ht). apply Hinv; [done|lia].
Qed.

End Run.
