(* ===== verification/CronDemo.v ===== *)
(** * The tick at work

    The INSERT of the enqueue model meets what the tick asks of its writer, and a daily schedule at
    01:30 in New York runs through the night the clocks fall back. *)

From Stdlib Require Import ZArith Lia QArith String.
From stdpp Require Import base gmap list sorting strings relations.
From S2P Require Import Prelude PyText PyFloat Retry JobRow EnqueueArgs Session EnqueueDemo EnqueueQuiet EnqueueBulk Zone CronTime CronTimeProps CronTick CronTickProps CronOnce CronRun.

Open Scope Z_scope.

(** ** The writer *)

Lemma insert_many_keyless `{Rounding} D k hi i l s s' new :
  (forall j, read k j <= hi) -> insert_many (lone D) k i l s = Done (s', new) ->
  Forall (fun a => e_idempotency_key a = None) l ->
  (forall id, id ∉ map e_id l -> visible D s' !! id = visible D s !! id) /\
  forall a, a ∈ l -> visible D s !! e_id a = None /\
    exists now c, (forall j, c j <= hi) /\ visible D s' !! e_id a = Some (enqueued_row now c a).
Proof.
  intros Hk. revert i s s' new. induction l as [|a l IH]; intros i s s' new; cbn [insert_many].
  { intros [= <- <-] _. split; [done|]. by intros a ?%not_elem_of_nil. }
  destruct (insert_one _ _ _ _) as [|err|[s1 o]] eqn:E1; [done..|].
  destruct (insert_many _ _ _ _ s1) as [|err|[s2 rs]] eqn:E2; [done..|]. intros [= <- <-] [Ha Hl]%Forall_cons.
  apply insert_one_lone in E1 as [(_ & _ & (p & ? & ? & Hp & _))|(_ & -> & Hnone & _)].
  { unfold pair_of in Hp. by rewrite Ha in Hp. }
  destruct (IH _ _ _ _ E2 Hl) as [Hother Hnew]. rewrite visible_put in *.
  assert (forall b, b ∈ l -> e_id b <> e_id a) as Hne.
  { intros b Hb He. destruct (Hnew b Hb) as [Hn _]. by rewrite He, lookup_insert_eq in Hn. }
  split.
  - intros id [Hi Hid]%not_elem_of_cons. rewrite Hother by done. by rewrite lookup_insert_ne.
  - intros b [->|Hb]%elem_of_cons.
    + split; [done|]. eexists _, _. split; [|rewrite Hother; [apply lookup_insert_eq|]].
      * intros j. apply Hk.
      * intros (c & He & Hc)%list_elem_of_fmap. by apply (Hne c Hc).
    + destruct (Hnew b Hb) as [Hn Hr]. rewrite lookup_insert_ne in Hn by (by apply not_eq_sym, Hne). done.
Qed.

(** The batch INSERT, alone in its store. *)
Definition insert_writer `{Rounding} (k : nat -> luck) : writer := fun i l V =>
  match insert_many (lone (empty_store <| rows := V |>)) (k i) 0 l bare with
  | Done (s, _) => Ok (own s ∪ V)
  | Fails _ => Err (Raised "UniqueViolationError" "")
  | Blocked => Err (Raised "LockNotAvailableError" "")
  end.

Lemma insert_writer_lands `{Rounding} k hi : (forall i j, read (k i) j <= hi) -> BatchWriter (insert_writer k) hi.
Proof.
  intros Hk. split. intros i l V V'. unfold insert_writer.
  destruct (insert_many _ _ _ _ _) as [|err|[s new]] eqn:E; [done..|]. intros [= <-] Hl.
  pose proof (insert_many_keyless _ _ hi _ _ _ _ _ (Hk i) E Hl) as Hx.
  unfold visible in Hx. cbn in Hx. by rewrite (left_id_L ∅ (∪)) in Hx.
Qed.

(** ** A night in New York *)

#[local] Existing Instance demo_croniter.

Definition demo_settings : cron_settings :=
  {| dispatcher_command_timeout := 60; cron_payload_factory_timeout := 5; cron_catch_up_window := 300 * second;
     cron_auto_disable_threshold := 3 |}.

Definition demo_config : _ActorConfig :=
  {| ac_queue := "default"; ac_max_attempts := 3; ac_retry_kind := "transient"; ac_max_pending := None;
     ac_retry_base := Some (30 * second); ac_retry_cap := None; ac_retry_backoff := Some "linear"%string; ac_retry_jitter := None |}.

Definition demo_configs : gmap string _ActorConfig := {[ "report"%string := demo_config ]}.

Definition demo_luck (now : Z) : fire_luck :=
  {| at_check := fun _ => 0%Q; walk_took := 0%Q; elapsed := 0%Q;
     factory := fun _ _ => Err (Raised "TypeError" ""); first_id := now; second_id := now + 1 |}.

Definition demo_schedule (at_ : Z) : schedule :=
  {| c_actor := "report"; c_name := "nightly"; cron_expr := "30 1 * * *"; timezone := "America/New_York";
     dst_strategy := "allof"; payload_factory := None; c_identity_key := None; enabled := true; disabled_by := None;
     last_fired_at := None; last_fire_error := None; consecutive_failures := 0; next_fire_at := at_;
     static_payload := None |}.

Definition demo_message (expr : string) (e : cron_error) : string := "".

Definition fall_back : Z := 1793512800 * second.

(** 01:30 of the day before. *)
Definition eve : Z := fall_back - 24 * hour - 30 * minute.

Definition start : run_state :=
  {| r_rows := {[ 1 := demo_schedule eve ]}; r_jobs := ∅; r_log := []; r_time := eve |}.

Definition demo_tick (now : Z) (rows_ : gmap Z schedule) (jobs_ : gmap Z stored) :=
  tick_cron demo_zones demo_settings demo_message (fun _ => false) true now now 10 rows_ rows_
    demo_configs ∅ (fun _ => demo_luck now) (insert_writer (fun _ => at_time now)) jobs_.

(** The tick on the dot, if the schedule is due. *)
Definition on_the_dot (now : Z) (st : run_state) : option run_state :=
  if bool_decide (next_fire_at <$> r_rows st !! 1 = Some now) && (r_time st <=? now) &&
     bool_decide (map_Forall (fun _ r => timezone r = "America/New_York"%string) (r_rows st))
  then match demo_tick now (r_rows st) (r_jobs st) with
       | Ok (S', V', _) =>
           Some {| r_rows := S'; r_jobs := V';
                   r_log := r_log st ++
                     match decide_tick demo_zones demo_settings demo_message (fun _ => false) now
                             (cron_due_sql (r_rows st) now (Z.to_nat 10)) demo_configs ∅ (fun _ => demo_luck now)
                             (insert_writer (fun _ => at_time now)) (r_jobs st) with
                     | Ok (o, _) => deliveries 1 (o_fired o)
                     | Err _ => []
                     end;
                   r_time := now |}
       | Err _ => None
       end
  else None.

Abbreviation demo_step :=
  (run_step (matches := demo_matches) demo_zones demo_settings demo_message (fun _ => false) 1 "30 1 * * *" "report" new_york).

Lemma demo_fit_row row : timezone row = "America/New_York"%string -> fit_row demo_zones (matches := demo_matches) row.
Proof. intros Htz. unfold fit_row. rewrite Htz. intros z [= <-]. apply demo_fit. Qed.

Lemma on_the_dot_step now st st' : on_the_dot now st = Some st' -> demo_step st st'.
Proof.
  unfold on_the_dot, demo_tick. destruct (_ && _) eqn:Hg; [|done].
  apply andb_true_iff in Hg as [[Hn Ht]%andb_true_iff Hz]. apply bool_decide_eq_true in Hn, Hz. zbool.
  destruct (tick_cron _ _ _ _ _ _ _ _ _ _ _ _ _ _ _) as [[[S' V'] n]|] eqn:E; [|done]. intros [= <-].
  eapply Run_tick; [split; [exact Ht|apply Z.le_refl]|..|exact E].
  - apply insert_writer_lands. intros; apply Z.le_refl.
  - split; reflexivity.
  - intros i r Hr. apply demo_fit_row. exact (Hz i r Hr).
  - intros row Hrow _. rewrite Hrow in Hn. injection Hn as ->. split; [cbn [cron_catch_up_window demo_settings]; unfold second; lia|]. by intros t (? & _).
Qed.

Definition night : option run_state := on_the_dot eve start ≫= on_the_dot (fall_back - 30 * minute).

Lemma night_runs st : night = Some st -> rtc demo_step start st.
Proof.
  unfold night. intros (st1 & H1 & H2)%bind_Some. eapply rtc_l; [by eapply on_the_dot_step|]. eapply rtc_once. by eapply on_the_dot_step.
Qed.

Lemma night_log : r_log <$> night = Some [eve; fall_back + 30 * minute; fall_back - 30 * minute].
Proof. vm_compute. reflexivity. Qed.

Lemma night_next : (st ← night; next_fire_at <$> r_rows st !! 1) = Some (fall_back + 30 * minute + 24 * hour).
Proof. vm_compute. reflexivity. Qed.


(** The same first tick, as a tick. *)
Theorem tick_settles_witness :
  match demo_tick eve {[ 1 := demo_schedule eve ]} ∅ with
  | Err _ => False
  | Ok (S', V', n) =>
      n = 1 /\ cron_due_sql {[ 1 := demo_schedule eve ]} eve 10 = [(1, demo_schedule eve)] /\
      (forall sid row, (sid, row) ∈ cron_due_sql {[ 1 := demo_schedule eve ]} eve (Z.to_nat 10) ->
         exists s, S' !! sid = Some s /\ settled demo_settings eve row s) /\
      (forall sid, (forall row, (sid, row) ∉ cron_due_sql {[ 1 := demo_schedule eve ]} eve (Z.to_nat 10)) ->
         S' !! sid = ({[ 1 := demo_schedule eve ]} : gmap Z schedule) !! sid)
  end.
Proof.
  assert (match demo_tick eve {[ 1 := demo_schedule eve ]} ∅ with Ok x => x.2 = 1 | Err _ => False end) as Hn by (vm_compute; reflexivity).
  destruct (demo_tick _ _ _) as [[[S' V'] n]|] eqn:E; [|done].
  split; [exact Hn|split; [vm_compute; reflexivity|]].
  - apply (tick_settles (matches := demo_matches) demo_zones demo_settings demo_message (fun _ => false) _ S' eve eve 10 demo_configs ∅
      (fun _ => demo_luck eve) (insert_writer (fun _ => at_time eve)) ∅ V' n); [|exact E].
    intros sid row [_ <-]%lookup_singleton_Some. by apply demo_fit_row.
Defined.

(** ** What the tick loses *)

(** A cap that leaves no room for the occurrence written ahead: the schedule is set to the second
    pass, and the first pass of the same night, still owed, is behind it and has no job. *)
Theorem trim_drops_first_pass :
  let capped_ := {[ "report"%string := {| p_singleton := false; p_max_pending := Some 1 |} ]} in
  let first_pass := fall_back - 30 * minute in
  match tick_cron demo_zones demo_settings demo_message (fun _ => false) true eve eve 10
          {[ 1 := demo_schedule eve ]} {[ 1 := demo_schedule eve ]} demo_configs capped_ (fun _ => demo_luck eve)
          (insert_writer (fun _ => at_time eve)) ∅ with
  | Err _ => False
  | Ok (S', V', _) =>
      next_fire_at <$> S' !! 1 = Some (fall_back + 30 * minute) /\
      map (fun x => scheduled_at (s_job x.2)) (map_to_list V') = [eve] /\
      eve < first_pass < fall_back + 30 * minute
  end /\
  owed new_york (demo_matches "30 1 * * *") allof first_pass.
Proof.
  split; [vm_compute; done|]. exists (first_at new_york (fall_back - 30 * minute - 4 * hour) - 4 * hour).
  split; [vm_compute; reflexivity|right; split; [reflexivity|vm_compute; reflexivity]].
Qed.

(** An actor that declares a retry curve has it on the immediate job, not on the one written ahead. *)
Theorem twin_loses_curve sid row policy id id' body at_ one two :
  immediate_args sid row demo_config policy id body = Ok one ->
  twin_args sid row demo_config policy id' body at_ = Ok two ->
  (e_retry_base one, e_retry_backoff one) = (30 * second, linear) /\
  (e_retry_base two, e_retry_backoff two) = (_DEFAULT_RETRY_BASE, exponential).
Proof.
  unfold immediate_args, twin_args. intros H1 H2. apply rbind_ok in H1 as (k & _ & H1), H2 as (k' & _ & H2).
  apply make_args_same in H1, H2. by subst.
Qed.
