(* ===== verification/CronAdmin.v ===== *)
(** * Who owns a schedule

    The writes to [cron_schedules] beside the tick's: create, update and delete
    ([src/taskq/backend/_schedules.py]), the boot's registration pass
    ([worker/_bootstrap.py]), the recovery of stale auto-disables ([worker/_cron_recovery.py]), the
    admin's three buttons ([web/admin/ops.py]) and the disable of a deregistration
    ([actor_config_ops.py]); and what the marker [disabled_by] guarantees over all of them. *)

From Stdlib Require Import ZArith Lia QArith String.
From stdpp Require Import base gmap list strings relations.
From S2P Require Import Prelude PyFloat EnqueueArgs Session Zone CronTime CronTimeProps CronTick CronTickProps CronDemo.

Open Scope Z_scope.

Inductive CronScheduleOwner := code | by_operator.

#[export] Instance owner_eq_dec : EqDecision CronScheduleOwner.
Proof. solve_decision. Defined.

Record CronScheduleSpec := {
  sp_actor : string;
  sp_cron_expr : string;
  sp_timezone : string;
  sp_dst_strategy : string;
  sp_payload_factory : option string;
  sp_static_payload : option JobRow.jobj;
  sp_name : string;
  sp_identity_key : option string;
  sp_enabled : bool;
  sp_owner : CronScheduleOwner
}.

Record ScheduleCreateArgs := { sc_spec : CronScheduleSpec; sc_next_fire_at : Z }.

Record ScheduleUpdateArgs := {
  su_cron_expr : option string;
  su_next_fire_at : option Z;
  su_enabled : option bool;
  su_payload_factory : option string;
  su_clear_payload_factory : bool;
  su_static_payload : option (option JobRow.jobj);
  su_consecutive_failures : option Z;
  su_last_fire_error : option string
}.

Section Admin.
Context `{Croniter} (zones : string -> option zone) (cron_message : string -> cron_error -> string).

Definition value_error (what : string) : pyexn := Raised "ValueError" what.

Definition no_nul (what : string) (s : option string) : result pyexn unit :=
  match s with
  | Some t => if contains_nul t then Err (value_error what) else Ok ()
  | None => Ok ()
  end.

(** [ScheduleCreateArgs.__post_init__]. *)
Definition check_create (a : CronScheduleSpec) : result pyexn unit :=
  if negb (is_valid (sp_cron_expr a)) then Err (value_error "Invalid cron expression")
  else match DST_STRATEGIES (sp_dst_strategy a) with
       | None => Err (value_error "Invalid dst_strategy")
       | Some _ =>
           let* _ := no_nul "actor" (Some (sp_actor a)) in
           let* _ := no_nul "name" (Some (sp_name a)) in
           let* _ := no_nul "timezone" (Some (sp_timezone a)) in
           let* _ := no_nul "payload_factory" (sp_payload_factory a) in
           no_nul "identity_key" (sp_identity_key a)
       end.

(** [ScheduleUpdateArgs.__post_init__]. *)
Definition check_update (a : ScheduleUpdateArgs) : result pyexn unit :=
  match su_cron_expr a, su_next_fire_at a with
  | Some _, None => Err (value_error "next_fire_at must be provided when cron_expr is changed")
  | _, _ =>
      match su_clear_payload_factory a, su_payload_factory a with
      | true, Some _ => Err (value_error "clear_payload_factory and payload_factory are mutually exclusive")
      | _, _ =>
          let* _ := no_nul "cron_expr" (su_cron_expr a) in
          let* _ := no_nul "payload_factory" (su_payload_factory a) in
          no_nul "last_fire_error" (su_last_fire_error a)
      end
  end.

Definition named (who name : string) (s : schedule) : bool :=
  bool_decide (c_actor s = who) && bool_decide (c_name s = name).

Definition taken_name (who name : string) (S : gmap Z schedule) : bool :=
  existsb (fun x => named who name x.2) (map_to_list S).

Definition new_schedule (a : ScheduleCreateArgs) : schedule :=
  let s := sc_spec a in
  {| c_actor := sp_actor s; c_name := sp_name s; cron_expr := sp_cron_expr s;
     timezone := sp_timezone s; dst_strategy := sp_dst_strategy s; payload_factory := sp_payload_factory s;
     c_identity_key := sp_identity_key s; enabled := sp_enabled s;
     disabled_by := if negb (sp_enabled s) && bool_decide (sp_owner s = by_operator) then Some operator else None;
     last_fired_at := None; last_fire_error := None; consecutive_failures := 0;
     next_fire_at := sc_next_fire_at a; static_payload := sp_static_payload s |}.

(** The INSERT under the (actor, name) UNIQUE constraint; [sid] is the id it mints. *)
Definition create_schedule (sid : Z) (a : ScheduleCreateArgs) (S : gmap Z schedule) : result pyexn (gmap Z schedule) :=
  if taken_name (sp_actor (sc_spec a)) (sp_name (sc_spec a)) S
  then Err (UniqueViolation (Some "cron_schedules_actor_name_key"%string) None "")
  else Ok (<[sid := new_schedule a]> S).

Definition set_some {A} (o : option A) (f : A -> schedule -> schedule) (s : schedule) : schedule :=
  match o with Some v => f v s | None => s end.

(** The SET list of [update_schedule]. *)
Definition apply_update (a : ScheduleUpdateArgs) (s : schedule) : schedule :=
  let s := set_some (su_cron_expr a) (fun v s => s <| cron_expr := v |>) s in
  let s := set_some (su_next_fire_at a) (fun v s => s <| next_fire_at := v |>) s in
  let s := set_some (su_enabled a) (fun v s =>
             let s := s <| enabled := v |> in
             if v then s <| consecutive_failures := 0 |> <| last_fire_error := None |> <| disabled_by := None |>
             else s <| disabled_by := Some operator |>) s in
  let s := match su_payload_factory a with
           | Some v => s <| payload_factory := Some v |>
           | None => if su_clear_payload_factory a then s <| payload_factory := None |> else s
           end in
  let s := set_some (su_static_payload a) (fun v s => s <| static_payload := v |>) s in
  let s := set_some (su_consecutive_failures a) (fun v s => s <| consecutive_failures := v |>) s in
  set_some (su_last_fire_error a) (fun v s => s <| last_fire_error := Some v |>) s.

(** A column the SET list names twice is refused by the server. *)
Definition names_twice (a : ScheduleUpdateArgs) : bool :=
  match su_enabled a with
  | Some true => bool_decide (is_Some (su_consecutive_failures a)) || bool_decide (is_Some (su_last_fire_error a))
  | _ => false
  end.

Definition update_schedule (sid : Z) (a : ScheduleUpdateArgs) (S : gmap Z schedule) : result pyexn (gmap Z schedule) :=
  if names_twice a then Err (Raised "PostgresSyntaxError" "multiple assignments to same column")
  else match S !! sid with
       | None => Err (Raised "KeyError" "schedule not found")
       | Some s => Ok (<[sid := apply_update a s]> S)
       end.

Definition delete_schedule (sid : Z) (S : gmap Z schedule) : gmap Z schedule := delete sid S.

(** The admin's enable, disable and skip. *)
Definition admin_enable (sid : Z) (S : gmap Z schedule) : gmap Z schedule :=
  alter (fun s => s <| enabled := true |> <| consecutive_failures := 0 |> <| last_fire_error := None |>
                    <| disabled_by := None |>) sid S.

Definition admin_disable (sid : Z) (S : gmap Z schedule) : gmap Z schedule :=
  alter (fun s => s <| enabled := false |> <| disabled_by := Some operator |>) sid S.

(** At most a thousand slots ahead, until one is in the future. *)
Fixpoint until_future (n : nat) (row : schedule) (db_now new_next : Z) : result pyexn Z :=
  match n with
  | O => Err (Raised "HTTPException" "cron expression produces no future fire time")
  | S n' =>
      if db_now <? new_next then Ok new_next
      else
        let* d := first_fire zones cron_message row new_next (strategy_of row) in
        until_future n' row db_now (instant zones row d)
  end.

Definition skip_target (row : schedule) (db_now : Z) : result pyexn Z :=
  let* d := first_fire zones cron_message row (next_fire_at row) (strategy_of row) in
  until_future (Z.to_nat 1000) row db_now (instant zones row d).

Definition admin_skip (sid db_now : Z) (S : gmap Z schedule) : result pyexn (gmap Z schedule) :=
  match S !! sid with
  | None => Err (Raised "HTTPException" "Schedule not found")
  | Some row => let* t := skip_target row db_now in Ok (<[sid := row <| next_fire_at := t |>]> S)
  end.

(** _DEREGISTER_DISABLE_SCHEDULES_SQL. *)
Definition deregister_disable (who : string) (S : gmap Z schedule) : gmap Z schedule :=
  (fun s => if bool_decide (c_actor s = who) && enabled s
            then s <| enabled := false |> <| disabled_by := Some operator |> else s) <$> S.

(** ** The recovery *)

(** The WHERE of the recovery: the tick's own marker, or the unmarked fingerprint of an older
    release's tick. *)
Definition stale_auto (threshold : Z) (s : schedule) : bool :=
  negb (enabled s) &&
  match disabled_by s with
  | Some auto => true
  | Some operator => false
  | None => (threshold <=? consecutive_failures s) && bool_decide (is_Some (last_fire_error s))
  end.

Definition revert_row (threshold : Z) (who name : string) (s : schedule) : schedule :=
  if named who name s && stale_auto threshold s
  then s <| enabled := true |> <| consecutive_failures := 0 |> <| last_fire_error := None |> <| disabled_by := None |>
  else s.

Definition revert_stale_auto_disable (threshold : Z) (sp : CronScheduleSpec) (S : gmap Z schedule) : gmap Z schedule :=
  if bool_decide (sp_owner sp = code) && sp_enabled sp
  then revert_row threshold (sp_actor sp) (sp_name sp) <$> S
  else S.

(** The takeover's pass: [down i] is a spec whose statement failed; it is logged and left. *)
Fixpoint revert_stale_auto_disables (down : nat -> bool) (i : nat) (threshold : Z) (specs : list CronScheduleSpec)
    (S : gmap Z schedule) : gmap Z schedule :=
  match specs with
  | [] => S
  | sp :: specs' =>
      revert_stale_auto_disables down (Datatypes.S i) threshold specs'
        (if down i then S else revert_stale_auto_disable threshold sp S)
  end.

(** The boot's pass over the declared specs, until one raises; [mint] are the ids it would create. *)
Fixpoint _register_cron_schedules (mint : nat -> Z) (i : nat) (threshold seed_now : Z)
    (specs : list CronScheduleSpec) (S : gmap Z schedule) : gmap Z schedule * result pyexn unit :=
  match specs with
  | [] => (S, Ok ())
  | sp :: specs' =>
      match compute_next_fire_after zones (sp_cron_expr sp) (sp_timezone sp) seed_now
              (default skip (DST_STRATEGIES (sp_dst_strategy sp))) with
      | Err e => (S, Err (Raised (cron_class e) ""))
      | Ok [] => (S, Err (Raised "IndexError" ""))
      | Ok (d :: _) =>
          let at_ := match zones (sp_timezone sp) with Some z => to_utc z d | None => wall d end in
          match check_create sp with
          | Err e => (S, Err e)
          | Ok _ =>
              match create_schedule (mint i) {| sc_spec := sp; sc_next_fire_at := at_ |} S with
              | Ok S' => _register_cron_schedules mint (Datatypes.S i) threshold seed_now specs' S'
              | Err _ => _register_cron_schedules mint (Datatypes.S i) threshold seed_now specs'
                           (revert_stale_auto_disable threshold sp S)
              end
          end
      end
  end.

(** ** Declaring a schedule *)

Definition _LANDABLE_PROBE_SEED : Z := 1767225600 * second.

Definition _require_landable (expr : string) : result pyexn unit :=
  match compute_next_fire_after zones expr "UTC" _LANDABLE_PROBE_SEED skip with
  | Ok _ => Ok ()
  | Err e => Err (Raised (cron_class e) (cron_message expr e))
  end.

Definition _validate_spec (sp : CronScheduleSpec) : result pyexn unit :=
  if negb (is_valid (sp_cron_expr sp)) then Err (value_error "Invalid cron expression")
  else
    let* _ := _require_landable (sp_cron_expr sp) in
    match sp_payload_factory sp, sp_static_payload sp with
    | Some _, Some _ => Err (value_error "payload_factory and static_payload are mutually exclusive")
    | _, _ => Ok ()
    end.

Definition register_cron (sp : CronScheduleSpec) (registry : list CronScheduleSpec)
  : result pyexn (list CronScheduleSpec) :=
  let* _ := _validate_spec sp in Ok (registry ++ [sp]).
End Admin.

(** ** What the marker guarantees

    The writes that may follow one another on the table.  An operator's enable and a delete of
    the schedule [sid] are left out: they are how its disable ends. *)

Section Ownership.
Context `{Rounding} `{Croniter} (zones : string -> option zone) (cron_message : string -> cron_error -> string).
Context (settings : cron_settings) (transient_pg : pyexn -> bool) (sid : Z).

Inductive write_step : gmap Z schedule -> gmap Z schedule -> Prop :=
| W_tick S S' got now clock limit rows_read configs policies lk W V V' n :
    tick_cron zones settings cron_message transient_pg got now clock limit rows_read S configs policies lk W V
      = Ok (S', V', n) ->
    write_step S S'
| W_boot S mint threshold now specs :
    (forall i, S !! mint i = None) ->
    write_step S (_register_cron_schedules zones mint 0 threshold now specs S).1
| W_takeover S down threshold specs :
    write_step S (revert_stale_auto_disables down 0 threshold specs S)
| W_create S S' id a : S !! id = None -> create_schedule id a S = Ok S' -> write_step S S'
| W_update S S' id a :
    update_schedule id a S = Ok S' -> (id = sid -> su_enabled a <> Some true) -> write_step S S'
| W_delete S id : id <> sid -> write_step S (delete_schedule id S)
| W_enable S id : id <> sid -> write_step S (admin_enable id S)
| W_disable S id : write_step S (admin_disable id S)
| W_skip S S' id now : admin_skip zones cron_message id now S = Ok S' -> write_step S S'
| W_deregister S who : write_step S (deregister_disable who S).

Definition held_down (s : schedule) : Prop := enabled s = false /\ disabled_by s = Some operator.

Definition stays_down (S : gmap Z schedule) : Prop := exists s, S !! sid = Some s /\ held_down s.

Lemma stays_alter f id S : (forall s, held_down s -> held_down (f s)) -> stays_down S -> stays_down (alter f id S).
Proof using.
  intros Hf (s & Hs & Hd). unfold stays_down. destruct (decide (id = sid)) as [->|Hne].
  - exists (f s). rewrite lookup_alter_eq, Hs. auto.
  - exists s. by rewrite lookup_alter_ne.
Qed.

Lemma stays_fmap f S : (forall s, held_down s -> held_down (f s)) -> stays_down S -> stays_down (f <$> S).
Proof using. intros Hf (s & Hs & Hd). exists (f s). rewrite lookup_fmap, Hs. auto. Qed.

Lemma stays_insert id s S : id <> sid -> stays_down S -> stays_down (<[id := s]> S).
Proof using. intros Hne (s0 & Hs & Hd). exists s0. by rewrite lookup_insert_ne. Qed.

Lemma stays_fold {A} (f : gmap Z schedule -> A -> gmap Z schedule) l S :
  (forall S a, stays_down S -> stays_down (f S a)) -> stays_down S -> stays_down (fold_left f l S).
Proof using. intros Hf. revert S. induction l as [|a l IH]; intros S HS; cbn; auto. Qed.

Lemma stays_revert threshold sp S : stays_down S -> stays_down (revert_stale_auto_disable threshold sp S).
Proof using.
  unfold revert_stale_auto_disable. destruct (_ && _); [|done]. apply stays_fmap.
  intros s [He Hd]. unfold revert_row, stale_auto. rewrite He, Hd. by rewrite andb_false_r.
Qed.

Lemma stays_tick_writes clock o S : stays_down S -> stays_down (tick_writes zones clock o S).
Proof using.
  intros HS. unfold tick_writes. apply stays_fold.
  { intros S0 x. apply stays_alter. intros s [He Hd]. rewrite He. done. }
  apply stays_fold; [intros S0 u; apply stays_alter; intros s [He Hd]; done|].
  apply stays_fold; [intros S0 p; apply stays_alter; intros s [He Hd]; done|done].
Qed.

Lemma apply_update_down a s : su_enabled a <> Some true -> held_down s -> held_down (apply_update a s).
Proof using.
  intros Ha [He Hd]. unfold apply_update, set_some, held_down.
  destruct (su_enabled a) as [[]|]; try done; repeat case_match; cbn; done.
Qed.

Lemma stays_register mint i threshold now specs S :
  (forall j, mint j <> sid) -> stays_down S ->
  stays_down (_register_cron_schedules zones mint i threshold now specs S).1.
Proof using.
  intros Hm. revert i S. induction specs as [|sp specs IH]; intros i S HS; cbn; [done|].
  destruct (compute_next_fire_after _ _ _ _ _) as [[|d ?]|]; [done| |done].
  destruct (check_create sp); [|done]. unfold create_schedule.
  destruct (taken_name _ _ _); apply IH; auto using stays_revert, stays_insert.
Qed.

Lemma step_stays S S' : write_step S S' -> stays_down S -> stays_down S'.
Proof using.
  intros Hstep HS. destruct Hstep as
    [S S' got now clock limit rd configs policies lk W V V' n Ht|S mint threshold now specs Hf|S down threshold specs
    |S S' id a Hf Hc|S S' id a Hu Hna|S id Hne|S id Hne|S id|S S' id now Hs|S who].
  - unfold tick_cron in Ht. repeat case_match; simplify_eq; try done; inv_ok; by apply stays_tick_writes.
  - apply stays_register; [|done]. intros j Hj. destruct HS as (s & Hs & _). by rewrite <- Hj, Hf in Hs.
  - generalize 0%nat as i. revert S HS. induction specs as [|sp specs IH]; intros S HS i; cbn; [done|].
    apply IH. destruct (down i); auto using stays_revert.
  - unfold create_schedule in Hc. destruct (taken_name _ _ _); simplify_eq.
    apply stays_insert; [|done]. intros Hj. destruct HS as (s & Hs & _). by rewrite <- Hj, Hf in Hs.
  - unfold update_schedule in Hu. destruct (names_twice a); [done|].
    destruct (S !! id) as [s|] eqn:E; simplify_eq. destruct (decide (id = sid)) as [->|Hne]; [|by apply stays_insert].
    destruct HS as (s0 & Hs & Hd). rewrite E in Hs. simplify_eq.
    exists (apply_update a s0). rewrite lookup_insert_eq. auto using apply_update_down.
  - destruct HS as (s & Hs & Hd). exists s. unfold delete_schedule. by rewrite lookup_delete_ne.
  - destruct HS as (s & Hs & Hd). exists s. unfold admin_enable. by rewrite lookup_alter_ne.
  - apply stays_alter; [|done]. by intros s _.
  - unfold admin_skip in Hs. destruct (S !! id) as [s|] eqn:E; [|done].
    apply rbind_ok in Hs as (t & _ & Hs). simplify_eq.
    destruct (decide (id = sid)) as [->|Hne]; [|by apply stays_insert].
    destruct HS as (s0 & Hs & Hd). rewrite E in Hs. simplify_eq.
    eexists. rewrite lookup_insert_eq. by split.
  - apply stays_fmap; [|done]. intros s [He Hd]. by rewrite He, andb_false_r.
Qed.

Lemma steps_stay S S' : rtc write_step S S' -> stays_down S -> stays_down S'.
Proof using. induction 1; eauto using step_stays. Qed.

(** C13: An operator's disable holds.  Over any sequence of ticks, boots, takeovers of the leadership,
    creations, updates that do not enable it, skips, deregistrations and whatever is done to other
    schedules, a schedule an operator disabled stays disabled and stays marked as the
    operator's, also when a tick that read it before the disable comes to write; no tick selects it. *)
Theorem operator_disable_kept S S' :
  stays_down S -> rtc write_step S S' ->
  stays_down S' /\ forall now n row, (sid, row) ∉ cron_due_sql S' now n.
Proof using.
  intros HS Hrun. apply steps_stay in Hrun as (s & Hs & Hd); [|done]. split; [by exists s|].
  intros now n row Hin. apply due_spec in Hin as (Hr & He & _). cbn in *. destruct Hd as [Hd _]. congruence.
Qed.
End Ownership.

(** ** On concrete schedules *)

#[local] Existing Instance demo_croniter.

Definition demo_spec (tz : string) : CronScheduleSpec :=
  {| sp_actor := "report"; sp_cron_expr := "30 1 * * *"; sp_timezone := tz; sp_dst_strategy := "allof";
     sp_payload_factory := None; sp_static_payload := None; sp_name := "nightly"; sp_identity_key := None;
     sp_enabled := true; sp_owner := code |}.

Definition ny_spec : CronScheduleSpec := demo_spec "America/New_York".

Definition struck_out : schedule :=
  (demo_schedule eve) <| enabled := false |> <| disabled_by := Some auto |> <| consecutive_failures := 3 |>
                    <| last_fire_error := Some "boom"%string |>.

(** A boot and a takeover that declare the schedule, after an operator disabled it. *)
Theorem operator_disable_kept_witness :
  let S := admin_disable 1 {[ 1 := struck_out ]} in
  let S1 := (_register_cron_schedules demo_zones (fun i => 100 + Z.of_nat i) 0 3 eve [ny_spec] S).1 in
  let S2 := revert_stale_auto_disables (fun _ => false) 0 3 [ny_spec] S1 in
  stays_down 1 S /\ stays_down 1 S2 /\ forall now n row, (1, row) ∉ cron_due_sql S2 now n.
Proof.
  intros S S1 S2. assert (stays_down 1 S) as HS by (eexists; split; [vm_compute; reflexivity|by split]).
  split; [done|]. apply (operator_disable_kept demo_zones demo_message demo_settings (fun _ => false) 1 S S2 HS).
  eapply rtc_l; [apply (W_boot demo_zones demo_message demo_settings (fun _ => false) 1 S (fun i => 100 + Z.of_nat i) 3 eve [ny_spec])|].
  - intros i. unfold S, admin_disable. rewrite lookup_alter_ne by lia. apply lookup_singleton_ne. lia.
  - apply rtc_once. apply (W_takeover demo_zones demo_message demo_settings (fun _ => false) 1 S1 (fun _ => false) 3 [ny_spec]).
Defined.

(** What the tick struck out, a boot that declares it turns back on, its count cleared. *)
Theorem takeover_restores :
  revert_stale_auto_disables (fun _ => false) 0 3 [ny_spec] {[ 1 := struck_out ]} !! 1 = Some (demo_schedule eve).
Proof. vm_compute. reflexivity. Qed.

(** A deregistration passes over a struck-out schedule, so its marker stays the tick's and the next boot
    that declares it turns it on again. *)
Theorem deregister_leaves_struck_out :
  revert_stale_auto_disables (fun _ => false) 0 3 [ny_spec] (deregister_disable "report" {[ 1 := struck_out ]}) !! 1
  = Some (demo_schedule eve).
Proof. vm_compute. reflexivity. Qed.

(** An unknown zone passes the registration and stops the boot's pass, so a good schedule declared
    after it is never created. *)
Theorem bad_zone_stops_boot :
  let bad := demo_spec "America/New_Yrok" in
  register_cron demo_zones demo_message bad [] = Ok [bad] /\
  _register_cron_schedules demo_zones Z.of_nat 0 3 eve [bad; ny_spec] ∅ = (∅, Err (Raised "ZoneInfoNotFoundError" "")) /\
  size (_register_cron_schedules demo_zones Z.of_nat 0 3 eve [ny_spec] ∅).1 = 1%nat.
Proof. split_and!; vm_compute; reflexivity. Qed.

(** An update that enables and sets the failure count at once is not valid SQL. *)
Theorem enable_with_count_refused id S :
  update_schedule id {| su_cron_expr := None; su_next_fire_at := None; su_enabled := Some true; su_payload_factory := None;
                        su_clear_payload_factory := false; su_static_payload := None;
                        su_consecutive_failures := Some 0; su_last_fire_error := None |} S
  = Err (Raised "PostgresSyntaxError" "multiple assignments to same column").
Proof. reflexivity. Qed.

(** The admin's skip refuses an hourly schedule six weeks behind, though it has a future fire time. *)
Theorem skip_refuses_backlog :
  let row := (demo_schedule eve) <| cron_expr := "0 * * * *"%string |> <| timezone := "UTC"%string |> in
  let now := eve + 1002 * hour in
  admin_skip demo_zones demo_message 1 now {[ 1 := row ]} = Err (Raised "HTTPException" "cron expression produces no future fire time") /\
  match first_fire demo_zones demo_message row now (strategy_of row) with Ok d => now < instant demo_zones row d | Err _ => False end.
Proof. split; vm_compute; reflexivity. Qed.
