(* ===== verification/Leader.v ===== *)
(** * Maintenance leadership

    The lease row of [maintenance_leader] and the three statements on it, and the election loop of
    each pod ([src/taskq/worker/leader.py], [worker/deps.py]) as a state machine whose states are
    the loop's awaits.  A world holds the row, the pods and the statements in flight: a
    statement a pod gave up on stays on the wire and may still run, an answer may be lost, and
    between two awaits of the loop the pod's other tasks (the watchdog's probe, the cron loop,
    a reload, the orchestrator) take theirs.  Times are microseconds. *)

From Stdlib Require Import ZArith Lia.
From stdpp Require Import base gmap list relations functions.
From S2P Require Import Prelude.

Open Scope Z_scope.
Open Scope taskq_scope.

(** ** The lease row *)

Record maintenance_leader := {
  worker_id : nat;
  elected_at : Z;
  last_seen_at : Z;
  expires_at : option Z
}.

(** The readings of [clock_timestamp()] in one statement, each by its own call. *)
Record readings := {
  at_elected : Z;   (** the [elected_at] of the [VALUES] *)
  at_seen : Z;      (** the [last_seen_at] written *)
  at_expires : Z;   (** the base of the [expires_at] written *)
  at_lapse : Z;     (** the comparison with [expires_at] *)
  at_silence : Z    (** the comparison with [last_seen_at] *)
}.

(** A comparison with a NULL [expires_at] is not true. *)
Definition expired (x : option Z) (t : Z) : bool :=
  match x with Some x => Z.ltb x t | None => false end.

Definition live (x : option Z) (t : Z) : bool :=
  match x with Some x => Z.leb t x | None => false end.

Definition is_null {A : Type} (x : option A) : bool :=
  match x with Some _ => false | None => true end.

(** [_LEADER_ELECT_SQL_TEMPLATE]: the row after it, and its [RETURNING elected_at]. *)
Definition elect_sql (w : nat) (lease pre_lease_slack : Z) (c : readings) (row : option maintenance_leader) :
    option maintenance_leader * option Z :=
  let excluded := {| worker_id := w; elected_at := at_elected c; last_seen_at := at_seen c;
                     expires_at := Some (at_expires c + lease) |} in
  match row with
  | None => (Some excluded, Some (at_elected c))
  | Some r =>
      if Nat.eqb (worker_id r) w ||
         ((is_null (expires_at r) || expired (expires_at r) (at_lapse c)) &&
          Z.ltb (last_seen_at r) (at_silence c - pre_lease_slack))
      then (Some excluded, Some (at_elected c))
      else (Some r, None)
  end.

(** [_LEADER_RENEW_SQL_TEMPLATE], with its [RETURNING expires_at]. *)
Definition renew_sql (w : nat) (elected lease : Z) (c : readings) (row : option maintenance_leader) :
    option maintenance_leader * option Z :=
  match row with
  | None => (None, None)
  | Some r =>
      if Nat.eqb (worker_id r) w && Z.eqb (elected_at r) elected && live (expires_at r) (at_lapse c)
      then (Some {| worker_id := worker_id r; elected_at := elected_at r; last_seen_at := at_seen c;
                    expires_at := Some (at_expires c + lease) |}, Some (at_expires c + lease))
      else (Some r, None)
  end.

(** [_LEADER_RESIGN_SQL_TEMPLATE], with whether its tag counts a row. *)
Definition resign_sql (w : nat) (elected : Z) (row : option maintenance_leader) :
    option maintenance_leader * bool :=
  match row with
  | Some r => if Nat.eqb (worker_id r) w && Z.eqb (elected_at r) elected then (None, true) else (Some r, false)
  | None => (None, false)
  end.

(** ** A pod *)

Record LeaderTerm := {
  term_elected_at : Z;
  trusted_until : Z
}.

(** A connection object: its identity, and [is_closed()]. *)
Record conn := { cid : nat; is_closed : bool }.

Record leader_settings := {
  leader_lease : Z;
  heartbeat_interval : Z;
  owns_leader_conn : bool
}.

Definition resolved_leader_lease (s : leader_settings) : Z :=
  Z.max (leader_lease s) (4 * heartbeat_interval s).

Definition _LEADER_TRUST_MARGIN_SECS : Z := 1000000.
Definition _PRE_LEASE_STALE_HEARTBEATS : Z := 4.

Definition pre_lease_slack (s : leader_settings) : Z := _PRE_LEASE_STALE_HEARTBEATS * heartbeat_interval s.

(** Where a close sequence waits: for [leader_conn], or for a leader-owned connection. *)
Inductive closing :=
  | dropping
  | closing_cron (c : nat)
  | closing_monitor (c : nat).

(** What follows a close sequence: the loop's next tick, the rest of a cycle whose flag had no
    term, or the end of [run]. *)
Inductive again := next_tick | candidate | finished.

(** Who awaits a resign. *)
Inductive after := hand_over | won_race | hand_back | assume_stop | teardown.

(** What the assume awaits: the courtesy lock and the two dedicated connections. *)
Inductive assume_stage := lock_probe | monitor_open | cron_open.

(** The awaits of the election loop.  [waiting] is a wait for the next tick, a retry's sleep or
    an immediate [continue]: the loop's top runs next. *)
Inductive point :=
  | waiting
  | renewing (id : nat) (term : LeaderTerm) (attempt_started : Z)
  | opening
  | electing (id : nat) (attempt_started : Z)
  | assuming (term : LeaderTerm) (stage : assume_stage)
  | recovering
  | resigning (id : nat) (k : after)
  | closing_conns (c : closing) (k : again)
  | parked
  | gone.

Record pod := {
  is_leader : bool;
  leader_term : option LeaderTerm;
  _resign_fence : option LeaderTerm;
  _unassumable_anchor : option LeaderTerm;
  leader_conn : option conn;
  _leader_monitor_conn : option conn;
  _cron_conn : option conn;
  stopping : bool;               (** [shutdown_start_event] *)
  at_ : point;                   (** the election loop *)
  watchdog : option closing;     (** a step-down of the watchdog under way *)
  cron_task : option closing     (** a close of the cron loop under way *)
}.

#[export] Instance pod_copy : Copy pod := fun p =>
  {| is_leader := is_leader p; leader_term := leader_term p; _resign_fence := _resign_fence p;
     _unassumable_anchor := _unassumable_anchor p; leader_conn := leader_conn p;
     _leader_monitor_conn := _leader_monitor_conn p; _cron_conn := _cron_conn p;
     stopping := stopping p; at_ := at_ p; watchdog := watchdog p; cron_task := cron_task p |}.

Definition started : pod :=
  {| is_leader := false; leader_term := None; _resign_fence := None; _unassumable_anchor := None;
     leader_conn := None; _leader_monitor_conn := None; _cron_conn := None; stopping := false;
     at_ := waiting; watchdog := None; cron_task := None |}.

(** What a pod sends. *)
Inductive request :=
  | rq_elect
  | rq_renew (elected : Z)
  | rq_resign (elected : Z).

Definition usable (c : option conn) : bool :=
  match c with Some c => negb (is_closed c) | None => false end.

(** *** [WorkerDeps] *)

Definition lead (term : LeaderTerm) (p : pod) : pod := p <| leader_term := Some term |> <| is_leader := true |>.

Definition stop_leading (p : pod) : pod := p <| is_leader := false |> <| leader_term := None |>.

(** [leading] at the reading [t] of the process's monotonic clock. *)
Definition leading (t : Z) (p : pod) : bool :=
  is_leader p && match leader_term p with None => true | Some term => Z.ltb t (trusted_until term) end.

(** ** Demotion and closing *)

Definition _demote (p : pod) : pod := stop_leading p.

(** The last lap of [_close_leader_owned_conns]. *)
Definition close_monitor (p : pod) : pod * option closing :=
  match _leader_monitor_conn p with
  | Some c => if is_closed c then (p <| _leader_monitor_conn := None |>, None) else (p, Some (closing_monitor (cid c)))
  | None => (p, None)
  end.

Definition _close_leader_owned_conns (p : pod) : pod * option closing :=
  let p := _demote p in
  match _cron_conn p with
  | Some c => if is_closed c then close_monitor (p <| _cron_conn := None |>) else (p, Some (closing_cron (cid c)))
  | None => close_monitor p
  end.

(** [_drop_leader_conn] and the [_close_leader_owned_conns] that follows it everywhere. *)
Definition _drop_leader_conn (s : leader_settings) (p : pod) : pod * option closing :=
  match leader_conn p with
  | None => _close_leader_owned_conns p
  | Some c =>
      if owns_leader_conn s && negb (is_closed c) then (p, Some dropping)
      else _close_leader_owned_conns (p <| leader_conn := None |>)
  end.

Definition _step_down (s : leader_settings) (p : pod) : pod * option closing := _drop_leader_conn s (_demote p).

(** The identity guard: only the connection that was closed is nulled. *)
Definition null_if (c : nat) (x : option conn) : option conn :=
  match x with Some y => if Nat.eqb (cid y) c then None else x | None => None end.

(** A bounded close returned. *)
Definition closed (c : closing) (p : pod) : pod * option closing :=
  match c with
  | dropping => _close_leader_owned_conns (p <| leader_conn := None |>)
  | closing_cron i => close_monitor (p <| _cron_conn ::= null_if i |>)
  | closing_monitor i => (p <| _leader_monitor_conn ::= null_if i |>, None)
  end.

(** ** The election loop

    Each definition runs from one await to the next: the pod, and the statement it sends.
    [id] is the number of the statement or connection it would make, [t] its monotonic clock. *)

Definition won_term (s : leader_settings) (elected attempt_started : Z) : LeaderTerm :=
  {| term_elected_at := elected;
     trusted_until := attempt_started + resolved_leader_lease s - _LEADER_TRUST_MARGIN_SECS |}.

(** A candidate with its connection elects; one without opens it first. *)
Definition elect_or_open (id : nat) (t : Z) (p : pod) : pod * option request :=
  if usable (leader_conn p) then (p <| at_ := electing id t |>, Some rq_elect) else (p <| at_ := opening |>, None).

Definition settle (id : nat) (t : Z) (k : again) (r : pod * option closing) : pod * option request :=
  match r with
  | (p, Some c) => (p <| at_ := closing_conns c k |>, None)
  | (p, None) =>
      match k with
      | next_tick => (p <| at_ := waiting |>, None)
      | candidate => elect_or_open id t p
      | finished => (p <| at_ := gone |>, None)
      end
  end.

(** The rest of each caller of [resign], given what it returned. *)
Definition after_resign (s : leader_settings) (id : nat) (t : Z) (k : after) (deleted : bool) (p : pod) :
    pod * option request :=
  match k with
  | hand_over =>
      let p := if deleted then p <| _resign_fence := None |> else p in
      (p <| at_ := if is_null (_resign_fence p) then parked else waiting |>, None)
  | won_race => ((if deleted then p <| _resign_fence := None |> else p) <| at_ := waiting |>, None)
  | hand_back => settle id t next_tick (_drop_leader_conn s p)
  | assume_stop => (p <| at_ := waiting |>, None)
  | teardown => settle id t finished (_close_leader_owned_conns p)
  end.

(** [leader_term or _resign_fence]. *)
Definition resign_term (p : pod) : option LeaderTerm :=
  match leader_term p with Some term => Some term | None => _resign_fence p end.

Definition resign (s : leader_settings) (id : nat) (t : Z) (k : after) (p : pod) : pod * option request :=
  match resign_term p with
  | None => after_resign s id t k false p
  | Some term =>
      if usable (leader_conn p) || usable (_leader_monitor_conn p)
      then (p <| at_ := resigning id k |>, Some (rq_resign (term_elected_at term)))
      else after_resign s id t k false p
  end.

Definition _hand_over_at_stop (s : leader_settings) (id : nat) (t : Z) (p : pod) : pod * option request :=
  if leading t p || negb (is_null (leader_term p)) || negb (is_null (_resign_fence p))
  then resign s id t hand_over (_demote p)
  else after_resign s id t hand_over false p.

Definition _renew_term (s : leader_settings) (id : nat) (t : Z) (term : LeaderTerm) (p : pod) : pod * option request :=
  if Z.leb (trusted_until term) t then settle id t next_tick (_step_down s p)
  else if usable (leader_conn p)
  then (p <| at_ := renewing id term t |>, Some (rq_renew (term_elected_at term)))
  else settle id t next_tick (_step_down s p).

(** The top of [_election_loop]. *)
Definition loop_top (s : leader_settings) (id : nat) (t : Z) (p : pod) : pod * option request :=
  if stopping p then _hand_over_at_stop s id t p
  else
    match is_leader p, leader_term p with
    | true, Some term => _renew_term s id t term p
    | true, None => settle id t candidate (_step_down s p)
    | false, _ => elect_or_open id t p
    end.

(** [_renew_lease] returned: the new expiry, or no row. *)
Definition renewed (s : leader_settings) (id : nat) (t : Z) (term : LeaderTerm) (attempt_started : Z)
    (expires : option Z) (p : pod) : pod * option request :=
  match expires with
  | None => settle id t next_tick (_step_down s p)
  | Some _ => (p <| leader_term := Some (won_term s (term_elected_at term) attempt_started) |> <| at_ := waiting |>, None)
  end.

Definition _renew_failed (s : leader_settings) (id : nat) (t : Z) (term : LeaderTerm) (p : pod) : pod * option request :=
  if Z.leb (trusted_until term - t) 0 then settle id t next_tick (_step_down s p) else (p <| at_ := waiting |>, None).

Definition _resign_won_lease (s : leader_settings) (id : nat) (t elected attempt_started : Z) (p : pod) :
    pod * option request :=
  resign s id t won_race (p <| _resign_fence := Some (won_term s elected attempt_started) |>).

(** The elect statement answered. *)
Definition elected (s : leader_settings) (id : nat) (t attempt_started : Z) (answer : option Z) (p : pod) :
    pod * option request :=
  match answer with
  | Some e =>
      if stopping p then _resign_won_lease s id t e attempt_started p
      else
        let term := won_term s e attempt_started in
        (p <| _resign_fence := Some term |> <| at_ := assuming term lock_probe |>, None)
  | None => (p <| _unassumable_anchor := None |> <| at_ := waiting |>, None)
  end.

Definition _hand_back_unassumable_lease (s : leader_settings) (id : nat) (t : Z) (p : pod) : pod * option request :=
  match _unassumable_anchor p with
  | None => settle id t next_tick (_drop_leader_conn s (p <| _unassumable_anchor := _resign_fence p |>))
  | Some anchor =>
      if Z.ltb t (trusted_until anchor) then settle id t next_tick (_drop_leader_conn s p)
      else resign s id t hand_back p
  end.

(** [_election_attempt_failed]; [won_row] when the statement had won. *)
Definition _election_attempt_failed (s : leader_settings) (id : nat) (t : Z) (won_row : bool) (p : pod) :
    pod * option request :=
  if won_row then _hand_back_unassumable_lease s id t p else settle id t next_tick (_drop_leader_conn s p).

(** [_assume_leadership], await by await: [ok] is whether the awaited call returned. *)
Definition assume (s : leader_settings) (id : nat) (t : Z) (term : LeaderTerm) (stage : assume_stage) (ok : bool) (p : pod) :
    pod * option request :=
  let fresh := Some {| cid := id; is_closed := false |} in
  match stage with
  | lock_probe =>
      if ok then (p <| at_ := assuming term monitor_open |>, None) else _election_attempt_failed s id t true p
  | monitor_open =>
      if ok then (p <| _leader_monitor_conn := fresh |> <| at_ := assuming term cron_open |>, None)
      else _hand_back_unassumable_lease s id t p
  | cron_open =>
      if ok then
        let p := p <| _cron_conn := fresh |> in
        if stopping p then resign s id t assume_stop p
        else (lead term p <| at_ := recovering |>, None)
      else _hand_back_unassumable_lease s id t p
  end.

(** ** The world *)

Record statement := { sender : nat; issued : Z; what : request }.

Inductive answer :=
  | a_elect (e : option Z)
  | a_renew (x : option Z)
  | a_resign (deleted : bool).

Record world := {
  now : Z;
  row : option maintenance_leader;
  pods : nat -> pod;
  wire : gmap nat statement;
  answers : gmap nat answer;
  serial : nat
}.

#[export] Instance world_copy : Copy world := fun w =>
  {| now := now w; row := row w; pods := pods w; wire := wire w; answers := answers w; serial := serial w |}.

(** The loops of a pod run until [run] begins its teardown. *)
Definition running (p : pod) : bool :=
  match at_ p with resigning _ teardown | closing_conns _ finished | gone => false | _ => true end.

Inductive move :=
  | Elapse (t : Z)
  | Tick (i : nat)                        (** a wait of the loop ends *)
  | Opened (i : nat) (ok : bool)          (** an open, or the courtesy probe, returns or raises *)
  | Execute (n : nat) (c : readings)      (** the server runs a statement in flight *)
  | Deliver (i : nat)                     (** its answer arrives *)
  | Fails (i : nat)                       (** the await raises: a timeout, a dead connection *)
  | Closed (i : nat)                      (** a bounded close of the loop returns *)
  | Recovered (i : nat)                   (** the takeover's cron recovery returns *)
  | ProbeFailed (i : nat)                 (** the watchdog's probe raises *)
  | WatchdogClosed (i : nat)
  | CronConnLost (i : nat)                (** the cron loop finds its connection dead *)
  | CronClosed (i : nat)
  | ConnDies (i : nat)                    (** [leader_conn] is found closed *)
  | ConnTaken (i : nat)                   (** a reload or the orchestrator nulls [leader_conn] *)
  | OwnedDie (i : nat)                    (** a leader-owned connection is found closed *)
  | Stop (i : nat)                        (** [shutdown_start_event] *)
  | Exit (i : nat)                        (** [run] reaches its [finally] *)
  | Deregister (i : nat).                 (** the departed pod's [workers] row goes, and cascades *)

Definition die (c : option conn) : option conn :=
  match c with Some c => Some {| cid := cid c; is_closed := true |} | None => None end.

Section World.
Variable s : leader_settings.
Variable srv : Z -> Z.           (** the server's clock *)
Variable mono : nat -> Z -> Z.   (** each pod's monotonic clock *)

(** A pod's step: its record, and its statement on the wire under the current number. *)
Definition put (i : nat) (r : pod * option request) (w : world) : world :=
  {| now := now w; row := row w; pods := <[i := fst r]> (pods w);
     wire := match snd r with
             | Some q => <[serial w := {| sender := i; issued := now w; what := q |}]> (wire w)
             | None => wire w
             end;
     answers := answers w; serial := S (serial w) |}.

(** A statement runs: at most once, and its answer waits to be delivered. *)
Definition execute (n : nat) (c : readings) (w : world) : option world :=
  match wire w !! n with
  | None => None
  | Some st =>
      let '(row', a) :=
        match what st with
        | rq_elect => let '(r, e) := elect_sql (sender st) (resolved_leader_lease s) (pre_lease_slack s) c (row w) in (r, a_elect e)
        | rq_renew e0 => let '(r, x) := renew_sql (sender st) e0 (resolved_leader_lease s) c (row w) in (r, a_renew x)
        | rq_resign e0 => let '(r, b) := resign_sql (sender st) e0 (row w) in (r, a_resign b)
        end in
      Some (w <| row := row' |> <| wire ::= delete n |> <| answers ::= <[n := a]> |>)
  end.

(** The answer the loop awaits. *)
Definition deliver (i : nat) (w : world) : option world :=
  let p := pods w i in
  let t := mono i (now w) in
  match at_ p with
  | renewing n term started =>
      match answers w !! n with
      | Some (a_renew x) => Some (put i (renewed s (serial w) t term started x p) w)
      | _ => None
      end
  | electing n started =>
      match answers w !! n with
      | Some (a_elect e) => Some (put i (elected s (serial w) t started e p) w)
      | _ => None
      end
  | resigning n k =>
      match answers w !! n with
      | Some (a_resign b) => Some (put i (after_resign s (serial w) t k b p) w)
      | _ => None
      end
  | _ => None
  end.

Definition fails (i : nat) (w : world) : option world :=
  let p := pods w i in
  let t := mono i (now w) in
  match at_ p with
  | renewing n term started => Some (put i (_renew_failed s (serial w) t term p) w)
  | electing n started => Some (put i (_election_attempt_failed s (serial w) t false p) w)
  | resigning n k => Some (put i (after_resign s (serial w) t k false p) w)
  | _ => None
  end.

Definition opened (i : nat) (ok : bool) (w : world) : option world :=
  let p := pods w i in
  let t := mono i (now w) in
  match at_ p with
  | opening =>
      Some (put i (if ok then elect_or_open (serial w) t (p <| leader_conn := Some {| cid := serial w; is_closed := false |} |>)
                   else (p <| leader_conn := None |> <| at_ := waiting |>, None)) w)
  | assuming term stage => Some (put i (assume s (serial w) t term stage ok p) w)
  | _ => None
  end.

(** The tasks beside the election loop.  The probe or the tick that raises began while the pod led;
    it need not lead any more. *)
Definition _watchdog_probe_failed (p : pod) : option pod :=
  if running p && is_null (watchdog p)
  then let '(p', c) := _step_down s p in Some (p' <| watchdog := c |>)
  else None.

Definition _cron_conn_lost (p : pod) : option pod :=
  if running p && is_null (cron_task p)
  then let '(p', c) := _close_leader_owned_conns p in Some (p' <| cron_task := c |>)
  else None.

Definition watchdog_closed (p : pod) : option pod :=
  match watchdog p with
  | Some c => let '(p', c') := closed c p in Some (p' <| watchdog := c' |>)
  | None => None
  end.

Definition cron_closed (p : pod) : option pod :=
  match cron_task p with
  | Some c => let '(p', c') := closed c p in Some (p' <| cron_task := c' |>)
  | None => None
  end.

(** [run] reaches its [finally]: the loops are gone, the lease is resigned. *)
Definition exit_run (id : nat) (t : Z) (p : pod) : pod * option request :=
  resign s id t teardown (p <| watchdog := None |> <| cron_task := None |>).

Definition side (i : nat) (p : option pod) (w : world) : option world :=
  match p with Some p => Some (put i (p, None) w) | None => None end.

Definition advance (m : move) (w : world) : option world :=
  match m with
  | Elapse t => if Z.leb (now w) t then Some (w <| now := t |>) else None
  | Tick i =>
      match at_ (pods w i) with
      | waiting => Some (put i (loop_top s (serial w) (mono i (now w)) (pods w i)) w)
      | _ => None
      end
  | Opened i ok => opened i ok w
  | Execute n c => execute n c w
  | Deliver i => deliver i w
  | Fails i => fails i w
  | Closed i =>
      match at_ (pods w i) with
      | closing_conns c k => Some (put i (settle (serial w) (mono i (now w)) k (closed c (pods w i))) w)
      | _ => None
      end
  | Recovered i =>
      match at_ (pods w i) with
      | recovering => side i (Some ((pods w i) <| _unassumable_anchor := None |> <| at_ := waiting |>)) w
      | _ => None
      end
  | ProbeFailed i => side i (_watchdog_probe_failed (pods w i)) w
  | WatchdogClosed i => side i (watchdog_closed (pods w i)) w
  | CronConnLost i => side i (_cron_conn_lost (pods w i)) w
  | CronClosed i => side i (cron_closed (pods w i)) w
  | ConnDies i => side i (Some ((pods w i) <| leader_conn ::= die |>)) w
  | ConnTaken i => side i (Some ((pods w i) <| leader_conn := None |>)) w
  | OwnedDie i => side i (Some ((pods w i) <| _leader_monitor_conn ::= die |> <| _cron_conn ::= die |>)) w
  | Stop i => side i (Some ((pods w i) <| stopping := true |>)) w
  | Exit i => if running (pods w i) then Some (put i (exit_run (serial w) (mono i (now w)) (pods w i)) w) else None
  | Deregister i =>
      match at_ (pods w i), row w with
      | gone, Some r => Some (w <| row := if Nat.eqb (worker_id r) i then None else Some r |>)
      | _, _ => None
      end
  end.

Fixpoint advances (ms : list move) (w : world) : option world :=
  match ms with
  | [] => Some w
  | m :: ms => match advance m w with Some w' => advances ms w' | None => None end
  end.

(** A pod acts as leader: its leader-gated loops run and read [leading()] as true. *)
Definition acts (w : world) (i : nat) : bool := running (pods w i) && leading (mono i (now w)) (pods w i).

(** The server reads its clock between the sending of a statement and its end. *)
Definition read_between (lo hi : Z) (c : readings) : Prop :=
  lo < at_elected c <= hi /\ lo <= at_expires c <= hi /\ at_seen c <= hi /\ at_lapse c <= hi /\ at_silence c <= hi.

(** A write of the holder moves its own row forward: the statement was not held up, its clock
    read, behind a later write of the same pod. *)
Definition not_overtaken (i : nat) (q : request) (c : readings) (r : option maintenance_leader) : Prop :=
  match r with
  | Some r => worker_id r = i ->
      (q = rq_elect -> elected_at r < at_elected c) /\
      match expires_at r with Some x => x <= at_expires c + resolved_leader_lease s | None => True end
  | None => True
  end.

Definition faithful_move (m : move) (w : world) : Prop :=
  match m with
  | Execute n c =>
      match wire w !! n with
      | Some st =>
          read_between (srv (issued st)) (srv (now w)) c /\
          match what st with rq_resign _ => True | q => not_overtaken (sender st) q c (row w) end
      | None => True
      end
  | _ => True
  end.

Definition step (w w' : world) : Prop := exists m, faithful_move m w /\ advance m w = Some w'.

(** A fleet about to start, over whatever row is left. *)
Definition initial (w : world) : Prop :=
  (forall i, exists c, pods w i = started <| leader_conn := c |>) /\ wire w = ∅ /\ answers w = ∅.

End World.
