(* ===== verification/LeaderProps.v ===== *)
(** * At most one pod acts as leader

    The invariant behind the lease: a pod that trusts its term is named by the row, from an
    election not older than the term's, with an expiry the server has not reached.  It is kept by
    every step of the loops and by every statement in flight, those a pod gave up on included. *)

From Stdlib Require Import ZArith Lia.
From stdpp Require Import base gmap list relations functions.
From S2P Require Import Prelude Leader.

Open Scope Z_scope.
Open Scope taskq_scope.

(** What the trust window needs of the clocks: none runs backwards, and while the server counts a
    whole lease a pod counts all of it but the margin. *)
Record clock_laws (s : leader_settings) (srv : Z -> Z) (mono : nat -> Z -> Z) : Prop := {
  srv_forward : forall t t', t <= t' -> srv t <= srv t';
  mono_forward : forall i t t', t <= t' -> mono i t <= mono i t';
  mono_keeps_up : forall i t t', t <= t' ->
    srv t + resolved_leader_lease s <= srv t' ->
    mono i t + resolved_leader_lease s - _LEADER_TRUST_MARGIN_SECS <= mono i t'
}.

Section Safety.
Variable s : leader_settings.
Variable srv : Z -> Z.
Variable mono : nat -> Z -> Z.
Hypothesis laws : clock_laws s srv mono.

Abbreviation lease := (resolved_leader_lease s).
Abbreviation margin := _LEADER_TRUST_MARGIN_SECS.

(** ** The invariant *)

(** The row is [i]'s, from an election not before [e], and lives until [x] at least. *)
Definition held (r : option maintenance_leader) (i : nat) (e x : Z) : Prop :=
  exists l, r = Some l /\ worker_id l = i /\ e <= elected_at l /\ exists y, expires_at l = Some y /\ x <= y.

(** The resigns of [i] still in flight are fenced on elections that satisfy [P]. *)
Definition resigns (w : world) (i : nat) (P : Z -> Prop) : Prop :=
  forall n st e, wire w !! n = Some st -> sender st = i -> what st = rq_resign e -> P e.

(** A term whose trust the row backs. *)
Definition backed (w : world) (i : nat) (term : LeaderTerm) : Prop :=
  term_elected_at term <= srv (now w) /\
  resigns w i (fun e => e < term_elected_at term) /\
  exists g, g <= now w /\ trusted_until term = mono i g + lease - margin /\
    (mono i (now w) < trusted_until term -> held (row w) i (term_elected_at term) (srv g + lease)).

(** The terms a pod remembers were answered to it. *)
Definition known (w : world) (p : pod) : Prop :=
  (forall term, leader_term p = Some term -> term_elected_at term <= srv (now w)) /\
  (forall term, _resign_fence p = Some term -> term_elected_at term <= srv (now w)).

(** The statement a pod awaits, while in flight. *)
Definition awaits (w : world) (i n : nat) (q : request) (started : Z) : Prop :=
  (n < serial w)%nat /\ forall st, wire w !! n = Some st ->
    sender st = i /\ what st = q /\ issued st <= now w /\ started = mono i (issued st) /\
    (q = rq_elect -> resigns w i (fun e => e <= srv (issued st))).

Definition point_ok (w : world) (i : nat) (p : pod) : Prop :=
  match at_ p with
  | waiting | recovering | resigning _ teardown | gone => True
  | renewing n term started =>
      term_elected_at term <= srv (now w) /\ awaits w i n (rq_renew (term_elected_at term)) started /\
      (is_leader p = true -> leader_term p = Some term /\
        forall x, answers w !! n = Some (a_renew (Some x)) -> backed w i (won_term s (term_elected_at term) started))
  | electing n started =>
      is_leader p = false /\ awaits w i n rq_elect started /\
      forall e, answers w !! n = Some (a_elect (Some e)) -> backed w i (won_term s e started)
  | assuming term _ => is_leader p = false /\ backed w i term
  | opening | resigning _ _ | closing_conns _ _ | parked => is_leader p = false
  end.

Definition leader_ok (w : world) (i : nat) (p : pod) : Prop :=
  running p = true -> is_leader p = true -> exists term, leader_term p = Some term /\ backed w i term.

Definition pod_ok (w : world) (i : nat) (p : pod) : Prop := known w p /\ point_ok w i p /\ leader_ok w i p.

Definition sound (w : world) : Prop :=
  (forall n, (serial w <= n)%nat -> wire w !! n = None /\ answers w !! n = None) /\
  (forall i, resigns w i (fun e => e <= srv (now w))) /\
  (forall i, pod_ok w i (pods w i)).

(** ** A pod's step *)

(** What a step may leave behind: a pod that keeps the invariant, or one that awaits what it sent. *)
Definition good (w : world) (i : nat) (r : pod * option request) : Prop :=
  known w (fst r) /\
  match snd r with
  | None => pod_ok w i (fst r)
  | Some rq_elect => at_ (fst r) = electing (serial w) (mono i (now w)) /\ is_leader (fst r) = false
  | Some (rq_renew e) =>
      exists term, at_ (fst r) = renewing (serial w) term (mono i (now w)) /\
        e = term_elected_at term /\ e <= srv (now w) /\
        (is_leader (fst r) = true -> leader_term (fst r) = Some term /\ backed w i term)
  | Some (rq_resign e) =>
      e <= srv (now w) /\ exists k, at_ (fst r) = resigning (serial w) k /\ (k <> teardown -> is_leader (fst r) = false)
  end.

(** A world that differs in what [i] does not depend on. *)
Definition same_for (i : nat) (w w' : world) : Prop :=
  now w' = now w /\ row w' = row w /\ answers w' = answers w /\ (serial w <= serial w')%nat /\
  (forall n, (n < serial w)%nat -> wire w' !! n = wire w !! n) /\
  (forall P, resigns w i P -> resigns w' i P).

Lemma same_backed i w w' term : same_for i w w' -> backed w i term -> backed w' i term.
Proof.
  intros (Hn & Hr & _ & _ & _ & Hre) (He & Hb & g & Hg). unfold backed. rewrite Hn, Hr.
  split; [done|]. split; [by apply Hre|]. by exists g.
Qed.

Lemma same_awaits i w w' n q t : same_for i w w' -> awaits w i n q t -> awaits w' i n q t.
Proof.
  intros (Hn & _ & _ & Hs & Hw & Hre) (Hlt & Ha). split; [lia|]. intros st. rewrite Hw by done. intros Hst.
  destruct (Ha st Hst) as (? & ? & ? & ? & ?). rewrite Hn. repeat split; try done. eauto.
Qed.

Lemma same_known i w w' p : same_for i w w' -> known w p -> known w' p.
Proof. intros (Hn & _) Hk. unfold known. by rewrite Hn. Qed.

Lemma same_point i w w' p : same_for i w w' -> point_ok w i p -> point_ok w' i p.
Proof.
  intros Hs. assert (answers w' = answers w) as Ha by apply Hs. unfold point_ok.
  destruct (at_ p) as [|n term t| |n t|term st| |n k|c k| |]; rewrite ?Ha; try done.
  - intros (Hk & Haw & Hl). assert (now w' = now w) as -> by apply Hs. split; [done|].
    split; [by eapply same_awaits|]. intros Hle. destruct (Hl Hle) as [Ht Hx].
    split; [done|]. intros x Hx'. eapply same_backed; eauto.
  - intros (Hl & Haw & Hx). split; [done|]. split; [by eapply same_awaits|]. intros e He. eapply same_backed; eauto.
  - intros [Hl Hb]. split; [done|by eapply same_backed].
Qed.

Lemma same_leader i w w' p : same_for i w w' -> leader_ok w i p -> leader_ok w' i p.
Proof. intros Hs H Hr Hl. destruct (H Hr Hl) as (term & ? & ?). exists term. split; [done|by eapply same_backed]. Qed.

Lemma same_pod i w w' p : same_for i w w' -> pod_ok w i p -> pod_ok w' i p.
Proof. intros Hs (? & ? & ?). split_and!; [eapply same_known|eapply same_point|eapply same_leader]; eauto. Qed.

Lemma put_same i j r w :
  (forall n, (serial w <= n)%nat -> wire w !! n = None) ->
  (i <> j \/ forall e, snd r <> Some (rq_resign e)) -> same_for j w (put i r w).
Proof.
  intros Hfree Hj. unfold same_for, put; cbn. split_and!; try done; [lia|..].
  - intros n Hn. destruct (snd r); [|done]. rewrite lookup_insert_ne; [done|lia].
  - intros P HP n st e. cbn. destruct (snd r) as [q|] eqn:Hq; [|by apply HP].
    destruct (decide (n = serial w)) as [->|Hne]; [|rewrite lookup_insert_ne by done; by apply HP].
    rewrite lookup_insert, decide_True by done. intros [= <-]. cbn. intros -> ->.
    destruct Hj as [|Hj]; [done|]. by destruct (Hj e).
Qed.

Lemma put_pod_self i r w : pods (put i r w) i = fst r.
Proof. cbn. by rewrite fn_lookup_insert. Qed.

Lemma put_pod_other i j r w : i <> j -> pods (put i r w) j = pods w j.
Proof. intros. cbn. by rewrite fn_lookup_insert_ne. Qed.

(** The pod that took the step, as it stands beside what it sent. *)
Lemma put_self i r w : sound w -> good w i r -> pod_ok (put i r w) i (fst r).
Proof.
  intros (Hfree & Hre & _) [Hk Hg]. pose proof (fun n Hn => proj1 (Hfree n Hn)) as Hf.
  destruct r as [p [[|e|e]|]]; cbn [fst snd] in *.
  - destruct Hg as [Hat Hl]. split; [done|]. split; [|intros _ ?; congruence]. unfold point_ok. rewrite Hat.
    split; [done|]. split; cbn.
    + split; [cbn; lia|]. cbn. intros st. rewrite lookup_insert, decide_True by done. intros [= <-]. cbn.
      split_and!; try done. intros _ n st e. cbn. destruct (decide (n = serial w)) as [->|].
      * rewrite lookup_insert, decide_True by done. by intros [= <-].
      * rewrite lookup_insert_ne by done. apply Hre.
    + intros e. by rewrite (proj2 (Hfree (serial w) ltac:(lia))).
  - destruct Hg as (term & Hat & -> & Hle0 & Hl).
    assert (same_for i w (put i (p, Some (rq_renew (term_elected_at term))) w)) as Hs by (apply put_same; [done|by right]).
    split; [done|]. split.
    + unfold point_ok. rewrite Hat. split; [done|]. split.
      * split; [cbn; lia|]. cbn. intros st. rewrite lookup_insert, decide_True by done. by intros [= <-].
      * intros Hle. split; [by apply Hl|]. cbn. intros x. by rewrite (proj2 (Hfree (serial w) ltac:(lia))).
    + intros _ Hle. destruct (Hl Hle). exists term. split; [done|by eapply same_backed].
  - destruct Hg as (_ & k & Hat & Hl). split; [done|]. unfold point_ok, leader_ok, running. rewrite Hat.
    destruct k; (split; [try done; by apply Hl|]); intros Hr Hle; try done; by rewrite Hl in Hle.
  - eapply same_pod; [|exact Hg]. apply put_same; [done|by right].
Qed.

Lemma put_sound i r w : sound w -> good w i r -> sound (put i r w).
Proof.
  intros Hs Hg. pose proof Hs as (Hfree & Hre & Hp). split_and!.
  - cbn. intros n Hn. destruct (Hfree n ltac:(lia)) as [? ?]. split; [|done].
    destruct (snd r); [|done]. rewrite lookup_insert_ne by lia. done.
  - intros j n st e. cbn. destruct (snd r) as [q|] eqn:Hq; [|by apply Hre].
    destruct (decide (n = serial w)) as [->|Hne]; [|rewrite lookup_insert_ne by done; by apply Hre].
    rewrite lookup_insert, decide_True by done. intros [= <-]. cbn. intros _ ->.
    destruct Hg as [_ Hg]. rewrite Hq in Hg. apply Hg.
  - intros j. destruct (decide (i = j)) as [<-|Hne].
    + rewrite put_pod_self. by apply put_self.
    + rewrite put_pod_other by done. eapply same_pod; [|apply Hp]. apply put_same; [exact (fun n Hn => proj1 (Hfree n Hn))|by left].
Qed.

(** ** Pods that do not lead *)

(** A step that ends in a wait without the role keeps the invariant whatever it waits for. *)
Definition quiet (w : world) (p : pod) : Prop := known w p /\ is_leader p = false.

Lemma demote_quiet w p : known w p -> quiet w (_demote p).
Proof. intros [_ Hf]. split; [|done]. by split. Qed.

(** The close sequences change the connections and, at most, demote. *)
Definition at_most (p p' : pod) : Prop :=
  at_ p' = at_ p /\ _resign_fence p' = _resign_fence p /\ _unassumable_anchor p' = _unassumable_anchor p /\
  (leader_term p' = leader_term p /\ is_leader p' = is_leader p \/ leader_term p' = None /\ is_leader p' = false).

#[local] Instance at_most_preorder : PreOrder at_most.
Proof.
  split; [intros p; repeat split; auto|].
  intros p q r (Ha & Hf & Hu & Hl) (Ha' & Hf' & Hu' & Hl'). split; [congruence|]. split; [congruence|]. split; [congruence|].
  destruct Hl' as [[Ht Hb]|]; [|by right]. rewrite Ht, Hb. destruct Hl as [[-> ->]|[-> ->]]; auto.
Qed.

Lemma at_most_demote p : at_most p (_demote p).
Proof. repeat split. by right. Qed.

Lemma at_most_monitor p : at_most p (fst (close_monitor p)).
Proof. unfold close_monitor. destruct (_leader_monitor_conn p) as [c|]; [destruct (is_closed c)|]; cbn; repeat split; auto. Qed.

Lemma at_most_owned p : at_most p (fst (_close_leader_owned_conns p)) /\ is_leader (fst (_close_leader_owned_conns p)) = false.
Proof.
  unfold _close_leader_owned_conns, close_monitor; cbn.
  destruct (_cron_conn p) as [c|]; [destruct (is_closed c)|]; cbn;
    try (destruct (_leader_monitor_conn p) as [d|]; [destruct (is_closed d)|]); cbn; repeat split; auto.
Qed.

Lemma at_most_drop p : at_most p (fst (_drop_leader_conn s p)).
Proof.
  unfold _drop_leader_conn. destruct (leader_conn p) as [c|]; [destruct (_ && _)|]; cbn; [done|..];
    (etransitivity; [|apply at_most_owned]); repeat split; auto.
Qed.

Lemma at_most_step_down p : at_most p (fst (_step_down s p)).
Proof. unfold _step_down. etransitivity; [apply at_most_demote|apply at_most_drop]. Qed.

Lemma at_most_closed c p : at_most p (fst (closed c p)).
Proof.
  destruct c; cbn [closed fst]; [|etransitivity; [|apply at_most_monitor]|]; [etransitivity; [|apply at_most_owned]|..];
    repeat split; auto.
Qed.

Lemma at_most_known w p p' : at_most p p' -> known w p -> known w p'.
Proof. intros (_ & Hf & _ & Hl) [Ht Hk]. split; rewrite ?Hf; [|done]. intros t. destruct Hl as [[-> _]|[-> _]]; [apply Ht|done]. Qed.

Lemma at_most_quiet w p p' : at_most p p' -> quiet w p -> quiet w p'.
Proof. intros Ha [Hk Hl]. split; [by eapply at_most_known|]. destruct Ha as (_ & _ & _ & [[_ ->]|[_ ->]]); done. Qed.


(** Waits at which the invariant asks no more than that the role is not held. *)
Definition idle (a : point) : Prop :=
  match a with renewing _ _ _ | electing _ _ | assuming _ _ => False | _ => True end.

Lemma quiet_good w i p a : quiet w p -> idle a -> good w i (p <| at_ := a |>, None).
Proof.
  intros [Hk Hl] Ha. split; [done|]. split; [done|]. split.
  - unfold point_ok; cbn. destruct a as [| | | | | |? []|? []| |]; done.
  - intros _. cbn. congruence.
Qed.

Lemma elect_or_open_good w i p : quiet w p -> good w i (elect_or_open (serial w) (mono i (now w)) p).
Proof. intros Hq. unfold elect_or_open. destruct (usable _); [|by apply quiet_good]. destruct Hq. by split; [|split]. Qed.

Lemma settle_good w i k r : quiet w (fst r) -> good w i (settle (serial w) (mono i (now w)) k r).
Proof.
  destruct r as [p [c|]]; cbn; intros Hq; [by apply quiet_good|].
  destruct k; [by apply quiet_good|by apply elect_or_open_good|by apply quiet_good].
Qed.

Lemma drop_good w i k p : quiet w p -> good w i (settle (serial w) (mono i (now w)) k (_drop_leader_conn s p)).
Proof. intros. apply settle_good. eapply at_most_quiet; [apply at_most_drop|done]. Qed.

Lemma step_down_good w i k p : known w p -> good w i (settle (serial w) (mono i (now w)) k (_step_down s p)).
Proof. intros. apply settle_good. eapply at_most_quiet; [apply at_most_drop|by apply demote_quiet]. Qed.

Lemma owned_good w i k p : known w p -> good w i (settle (serial w) (mono i (now w)) k (_close_leader_owned_conns p)).
Proof. intros. apply settle_good. split; [eapply at_most_known; [apply at_most_owned|done]|apply at_most_owned]. Qed.

Lemma quiet_unfence w p : quiet w p -> quiet w (p <| _resign_fence := None |>).
Proof. intros [[Hk _] Hl]. by split; [split|]. Qed.

Lemma after_resign_good w i k b p :
  known w p -> (k <> teardown -> is_leader p = false) -> good w i (after_resign s (serial w) (mono i (now w)) k b p).
Proof.
  intros Hk Hl. assert (k <> teardown -> quiet w p) as Hq by (intros; split; auto).
  destruct k; cbn [after_resign].
  - apply quiet_good; [destruct b; [apply quiet_unfence|]; by apply Hq|]. by destruct (is_null _).
  - apply quiet_good; [destruct b; [apply quiet_unfence|]; by apply Hq|done].
  - by apply drop_good, Hq.
  - apply quiet_good; [by apply Hq|done].
  - by apply owned_good.
Qed.

Lemma resign_good w i k p :
  known w p -> (k <> teardown -> is_leader p = false) -> good w i (resign s (serial w) (mono i (now w)) k p).
Proof.
  intros Hk Hl. unfold resign. destruct (resign_term p) as [term|] eqn:Ht; [|by apply after_resign_good].
  destruct (_ || _); [|by apply after_resign_good]. split; [done|]. cbn. split; [|by exists k].
  destruct Hk as [Hk Hf]. unfold resign_term in Ht. destruct (leader_term p); [injection Ht as ->|]; auto.
Qed.

Lemma hand_back_good w i p : quiet w p -> good w i (_hand_back_unassumable_lease s (serial w) (mono i (now w)) p).
Proof.
  intros Hq. unfold _hand_back_unassumable_lease. destruct (_unassumable_anchor p) as [a|]; [|by apply drop_good].
  destruct (_ <? _); [by apply drop_good|]. destruct Hq. by apply resign_good.
Qed.

(** ** Every step of the loop *)

Lemma loop_top_good w i : sound w -> at_ (pods w i) = waiting -> good w i (loop_top s (serial w) (mono i (now w)) (pods w i)).
Proof.
  intros (_ & _ & Hp) Hat. destruct (Hp i) as (Hk & _ & Hl). set (p := pods w i) in *. unfold loop_top.
  destruct (stopping p).
  { unfold _hand_over_at_stop. destruct (leading _ p || _ || _) eqn:Hc.
    - apply resign_good; [by apply at_most_known with p; [apply at_most_demote|]|done].
    - apply after_resign_good; [done|]. intros _. apply orb_false_iff in Hc as [Hc _]. apply orb_false_iff in Hc as [Hc Ht].
      unfold leading in Hc. destruct (leader_term p); [done|]. by rewrite andb_true_r in Hc. }
  destruct (is_leader p) eqn:Hle; [|by apply elect_or_open_good].
  destruct (leader_term p) as [term|] eqn:Ht; [|by apply step_down_good].
  unfold _renew_term. destruct (_ <=? _); [by apply step_down_good|]. destruct (usable _); [|by apply step_down_good].
  split; [done|]. cbn. exists term. split_and!; try done; [by apply (proj1 Hk)|]. intros _. split; [done|].
  destruct (Hl ltac:(unfold running; by rewrite Hat) Hle) as (term' & Ht' & Hb). congruence.
Qed.

Lemma renewed_good w i n term t x :
  sound w -> at_ (pods w i) = renewing n term t -> answers w !! n = Some (a_renew x) ->
  good w i (renewed s (serial w) (mono i (now w)) term t x (pods w i)).
Proof.
  intros (_ & _ & Hp) Hat Ha. destruct (Hp i) as (Hk & Hpt & Hl). set (p := pods w i) in *.
  unfold renewed. destruct x as [x|]; [|by apply step_down_good].
  unfold point_ok in Hpt. rewrite Hat in Hpt. destruct Hpt as (Hte & _ & Hpt).
  assert (known w (p <| leader_term := Some (won_term s (term_elected_at term) t) |>)) as Hk'.
  { destruct Hk as [_ Hf]. split; [|done]. by intros ? [= <-]. }
  split; [done|]. split; [done|]. split; [done|]. intros _ Hle. cbn in Hle.
  eexists. split; [done|]. destruct (Hpt Hle) as [_ Hx]. eapply Hx, Ha.
Qed.

Lemma elected_good w i n t x :
  sound w -> at_ (pods w i) = electing n t -> answers w !! n = Some (a_elect x) ->
  good w i (elected s (serial w) (mono i (now w)) t x (pods w i)).
Proof.
  intros (_ & _ & Hp) Hat Ha. destruct (Hp i) as (Hk & Hpt & _). set (p := pods w i) in *.
  unfold point_ok in Hpt. rewrite Hat in Hpt. destruct Hpt as (Hl & _ & Hx).
  unfold elected. destruct x as [e|]; [|by apply quiet_good].
  pose proof (Hx e Ha) as Hb.
  assert (known w (p <| _resign_fence := Some (won_term s e t) |>)) as Hk'.
  { destruct Hk as [Ht _]. split; [done|]. intros ? [= <-]. apply Hb. }
  destruct (stopping p); [by apply resign_good|].
  split; [done|]. split; [done|]. split; [by split|]. intros _. cbn. congruence.
Qed.

Lemma renew_failed_good w i n term t :
  sound w -> at_ (pods w i) = renewing n term t -> good w i (_renew_failed s (serial w) (mono i (now w)) term (pods w i)).
Proof.
  intros (_ & _ & Hp) Hat. destruct (Hp i) as (Hk & _ & Hl). unfold _renew_failed.
  destruct (_ <=? _); [by apply step_down_good|]. split; [done|]. split; [done|]. split; [done|].
  intros _. apply Hl. unfold running. by rewrite Hat.
Qed.

Lemma assume_good w i term stage ok :
  sound w -> at_ (pods w i) = assuming term stage -> good w i (assume s (serial w) (mono i (now w)) term stage ok (pods w i)).
Proof.
  intros (_ & _ & Hp) Hat. destruct (Hp i) as (Hk & Hpt & _). set (p := pods w i) in *.
  unfold point_ok in Hpt. rewrite Hat in Hpt. destruct Hpt as [Hl Hb].
  assert (quiet w p) as Hq by done.
  assert (forall p' a, known w p' -> is_leader p' = false -> good w i (p' <| at_ := assuming term a |>, None)) as Hst.
  { intros p' a Hk' Hl'. split; [done|]. split; [done|]. split; [by split|]. intros _. cbn. congruence. }
  destruct stage, ok; cbn [assume _election_attempt_failed]; try (by apply hand_back_good); [by apply Hst|by apply Hst|].
  destruct (stopping _); [by apply resign_good|]. destruct Hk as [_ Hf].
  assert (forall p', leader_term p' = Some term -> _resign_fence p' = _resign_fence p -> known w p') as Hk'.
  { intros p' Ht Hf'. split; rewrite ?Ht, ?Hf'; [|done]. intros ? [= <-]. apply Hb. }
  split; [by apply Hk'|]. split; [by apply Hk'|]. split; [done|]. intros _ _. by exists term.
Qed.

Lemma at_most_pod w i p p' : at_most p p' -> pod_ok w i p -> pod_ok w i p'.
Proof.
  intros Hm (Hk & Hpt & Hl). split; [by eapply at_most_known|]. destruct Hm as (Hat & _ & _ & Hm). split.
  - unfold point_ok in *. rewrite Hat. destruct Hm as [[Ht Hb]|[Ht Hb]]; rewrite Ht, Hb; [done|].
    destruct (at_ p) as [| | | | | |? []| | |]; try done; destruct Hpt as (? & ? & ?); try done; by split_and!.
  - intros Hr Hle. assert (running p = true) as Hrp by (unfold running in *; by rewrite <- Hat).
    destruct Hm as [[Ht Hb]|[Ht Hb]]; [|congruence]. rewrite Ht. apply Hl; congruence.
Qed.

Lemma side_sound w i p w' :
  sound w -> (forall p', p = Some p' -> at_most (pods w i) p') -> side i p w = Some w' -> sound w'.
Proof.
  intros Hs Hp. destruct p as [p'|]; [|done]. cbn. intros [= <-]. apply put_sound; [done|].
  assert (pod_ok w i p') as Hok by (eapply at_most_pod; [by apply Hp|apply Hs]). split; [apply Hok|done].
Qed.

(** The other tasks' steps are closes and demotions. *)
Lemma probe_at_most p p' : _watchdog_probe_failed s p = Some p' -> at_most p p'.
Proof.
  unfold _watchdog_probe_failed. destruct (_ && _); [|done]. pose proof (at_most_step_down p) as Hm.
  destruct (_step_down s p) as [q c]. by intros [= <-].
Qed.

Lemma cron_lost_at_most p p' : _cron_conn_lost p = Some p' -> at_most p p'.
Proof.
  unfold _cron_conn_lost. destruct (_ && _); [|done]. pose proof (proj1 (at_most_owned p)) as Hm.
  destruct (_close_leader_owned_conns p) as [q c]. by intros [= <-].
Qed.

Lemma watchdog_closed_at_most p p' : watchdog_closed p = Some p' -> at_most p p'.
Proof.
  unfold watchdog_closed. destruct (watchdog p) as [c|]; [|done]. pose proof (at_most_closed c p) as Hm.
  destruct (closed c p) as [q c']. by intros [= <-].
Qed.

Lemma cron_closed_at_most p p' : cron_closed p = Some p' -> at_most p p'.
Proof.
  unfold cron_closed. destruct (cron_task p) as [c|]; [|done]. pose proof (at_most_closed c p) as Hm.
  destruct (closed c p) as [q c']. by intros [= <-].
Qed.

(** ** The server's steps *)

(** A statement in flight, run where the row is held, leaves it held: a peer's predicates fail, the
    holder's own writes move the row forward, and its resigns are fenced on older elections. *)
Lemma held_executed w n c w' st i e x :
  wire w !! n = Some st -> faithful_move s srv (Execute n c) w -> execute s n c w = Some w' ->
  resigns w i (fun e' => e' < e) -> srv (now w) < x -> held (row w) i e x -> held (row w') i e x.
Proof.
  intros Hst Hf Hex Hre Hx (l & Hl & Hw & He & y & Hy & Hxy). cbn in Hf. rewrite Hst, Hl in Hf.
  destruct Hf as [(_ & _ & _ & Hlapse & _) Hf]. unfold execute in Hex. rewrite Hst, Hl in Hex.
  destruct (what st) as [|e0|e0] eqn:Hwhat; cbn in Hex, Hf.
  - destruct (Nat.eqb_spec (worker_id l) (sender st)) as [Heq|Hne]; cbn in Hex.
    + injection Hex as <-. cbn. destruct (Hf Heq) as [Hel Hex]. rewrite Hy in Hex. specialize (Hel eq_refl).
      eexists. split; [done|]. cbn. split; [congruence|]. split; [lia|]. eexists. split; [done|]. lia.
    + rewrite Hy in Hex. cbn in Hex. destruct (Z.ltb_spec y (at_lapse c)); [lia|]. cbn in Hex. injection Hex as <-.
      cbn. exists l. split; [done|]. split; [done|]. split; [done|]. by exists y.
  - destruct (_ && _ && _) eqn:Hc; injection Hex as <-; cbn.
    + apply andb_true_iff in Hc as [Hc _]. apply andb_true_iff in Hc as [Hc _]. apply Nat.eqb_eq in Hc.
      destruct (Hf Hc) as [_ Hex]. rewrite Hy in Hex.
      eexists. split; [done|]. cbn. split; [done|]. split; [done|]. eexists. split; [done|]. lia.
    + exists l. split; [done|]. split; [done|]. split; [done|]. by exists y.
  - destruct (_ && _) eqn:Hc; injection Hex as <-; cbn.
    + apply andb_true_iff in Hc as [Hc1 Hc2]. apply Nat.eqb_eq in Hc1. apply Z.eqb_eq in Hc2.
      assert (e0 < e) by (apply (Hre n st e0 Hst); congruence). lia.
    + exists l. split; [done|]. split; [done|]. split; [done|]. by exists y.
Qed.

Lemma executed_frame w n c w' st :
  wire w !! n = Some st -> execute s n c w = Some w' ->
  now w' = now w /\ pods w' = pods w /\ wire w' = delete n (wire w) /\ serial w' = serial w /\
  exists a, answers w' = <[n := a]> (answers w).
Proof.
  intros Hst. unfold execute. rewrite Hst.
  destruct (match what st with rq_elect => _ | rq_renew _ => _ | rq_resign _ => _ end) as [r a].
  intros [= <-]. cbn. split_and!; try done. by exists a.
Qed.

Lemma executed_resigns w n c w' st i P :
  wire w !! n = Some st -> execute s n c w = Some w' -> resigns w i P -> resigns w' i P.
Proof.
  intros Hst Hex HP m st' e. destruct (executed_frame _ _ _ _ _ Hst Hex) as (_ & _ & -> & _).
  intros [_ Hm]%lookup_delete_Some. by apply HP with m.
Qed.

(** Trust left means time left on the row. *)
Lemma trust_in_time i g t : g <= t -> mono i t < mono i g + lease - margin -> srv t < srv g + lease.
Proof. intros Hg Ht. destruct (Z.lt_ge_cases (srv t) (srv g + lease)) as [|Hge]; [done|]. pose proof (mono_keeps_up _ _ _ laws i g t Hg Hge). lia. Qed.

Lemma executed_backed w n c w' st i term :
  wire w !! n = Some st -> faithful_move s srv (Execute n c) w -> execute s n c w = Some w' ->
  backed w i term -> backed w' i term.
Proof.
  intros Hst Hf Hex (He & Hre & g & Hg & Htu & Hh).
  destruct (executed_frame _ _ _ _ _ Hst Hex) as (Hn & _). unfold backed. rewrite Hn.
  split; [done|]. split; [by eapply executed_resigns|]. exists g. split; [done|]. split; [done|]. intros Ht.
  eapply held_executed; eauto. apply (trust_in_time i); [done|lia].
Qed.

(** A won election backs the term its candidate will compute, and a renewal the renewed one. *)
Lemma elect_executed w n c w' st i e :
  wire w !! n = Some st -> faithful_move s srv (Execute n c) w -> execute s n c w = Some w' ->
  sender st = i -> what st = rq_elect -> issued st <= now w -> resigns w i (fun e' => e' <= srv (issued st)) ->
  answers w' !! n = Some (a_elect (Some e)) -> backed w' i (won_term s e (mono i (issued st))).
Proof.
  intros Hst Hf Hex Hi Hwhat Hle Hre Ha. destruct (executed_frame _ _ _ _ _ Hst Hex) as (Hn & _).
  pose proof (executed_resigns _ _ _ _ _ _ _ Hst Hex Hre) as Hre'. clear Hre.
  cbn in Hf. rewrite Hst in Hf. destruct Hf as [(Hel & Hxp & _) _].
  unfold execute in Hex. rewrite Hst, Hwhat in Hex.
  assert (exists r', elect_sql (sender st) lease (pre_lease_slack s) c (row w) = (r', Some e) /\ row w' = r') as (r' & Hsql & Hr').
  { destruct (elect_sql _ _ _ c (row w)) as [r' o]. injection Hex as <-. cbn in Ha.
    rewrite lookup_insert, decide_True in Ha by done. injection Ha as ->. by exists r'. }
  assert (e = at_elected c /\ r' = Some {| worker_id := sender st; elected_at := at_elected c; last_seen_at := at_seen c;
                     expires_at := Some (at_expires c + lease) |}) as [-> ->].
  { unfold elect_sql in Hsql. destruct (row w) as [l|]; [destruct (_ || _)|]; try discriminate; by injection Hsql as <- <-. }
  unfold backed. rewrite Hn, Hr'. cbn. split; [lia|]. split.
  - intros m st' e' Hm Hs He. pose proof (Hre' m st' e' Hm Hs He) as Hb. cbn in Hb. lia.
  - exists (issued st). split; [done|]. split; [done|]. intros _. eexists. split; [done|]. cbn.
    split; [done|]. split; [lia|]. eexists. split; [done|]. lia.
Qed.

Lemma renew_executed w n c w' st i term x :
  wire w !! n = Some st -> faithful_move s srv (Execute n c) w -> execute s n c w = Some w' ->
  sender st = i -> what st = rq_renew (term_elected_at term) -> issued st <= now w -> backed w i term ->
  answers w' !! n = Some (a_renew (Some x)) -> backed w' i (won_term s (term_elected_at term) (mono i (issued st))).
Proof.
  intros Hst Hf Hex Hi Hwhat Hle (He & Hre & _) Ha. destruct (executed_frame _ _ _ _ _ Hst Hex) as (Hn & _).
  pose proof (executed_resigns _ _ _ _ _ _ _ Hst Hex Hre) as Hre'.
  cbn in Hf. rewrite Hst in Hf. destruct Hf as [(_ & Hxp & _) _].
  unfold execute in Hex. rewrite Hst, Hwhat in Hex.
  assert (renew_sql (sender st) (term_elected_at term) lease c (row w) = (row w', Some x)) as Hsql.
  { destruct (renew_sql _ _ _ c (row w)) as [r' o]. injection Hex as <-. cbn in Ha |- *.
    rewrite lookup_insert, decide_True in Ha by done. by injection Ha as ->. }
  unfold backed. rewrite Hn. cbn. split; [done|]. split; [done|].
  exists (issued st). split; [done|]. split; [done|]. intros _.
  unfold renew_sql in Hsql. destruct (row w) as [l|]; [|done]. destruct (_ && _ && _) eqn:Hc; [|done].
  apply andb_true_iff in Hc as [Hc _]. apply andb_true_iff in Hc as [Hc1 Hc2].
  apply Nat.eqb_eq in Hc1. apply Z.eqb_eq in Hc2. injection Hsql as <- _.
  eexists. split; [done|]. cbn. split; [congruence|]. split; [lia|]. eexists. split; [done|]. lia.
Qed.

Lemma awaits_executed w n c w' st i m q t :
  wire w !! n = Some st -> execute s n c w = Some w' -> awaits w i m q t -> awaits w' i m q t.
Proof.
  intros Hst Hex [Hlt Ha]. destruct (executed_frame _ _ _ _ _ Hst Hex) as (Hn & _ & Hw & Hs & _).
  split; [lia|]. rewrite Hw, Hn. intros st' [_ Hm]%lookup_delete_Some.
  destruct (Ha st' Hm) as (H1 & H2 & H3 & H4 & Hre). refine (conj H1 (conj H2 (conj H3 (conj H4 _)))).
  intros Hq. exact (executed_resigns _ _ _ _ _ _ _ Hst Hex (Hre Hq)).
Qed.

Lemma execute_sound w n c w' :
  sound w -> faithful_move s srv (Execute n c) w -> execute s n c w = Some w' -> sound w'.
Proof.
  intros (Hfree & Hre & Hp) Hf Hex.
  destruct (wire w !! n) as [st|] eqn:Hst; [|unfold execute in Hex; by rewrite Hst in Hex].
  destruct (executed_frame _ _ _ _ _ Hst Hex) as (Hn & Hpods & Hw & Hs & a & Ha).
  split_and!.
  - intros m. rewrite Hs, Hw, Ha. intros Hm. destruct (Hfree m Hm) as [Hm1 Hm2].
    assert (n <> m) by (intros ->; congruence). by rewrite lookup_delete_ne, lookup_insert_ne.
  - rewrite Hn. intros i. exact (executed_resigns _ _ _ _ _ _ _ Hst Hex (Hre i)).
  - intros i. rewrite Hpods. destruct (Hp i) as (Hk & Hpt & Hl). set (p := pods w i) in *.
    assert (forall term, backed w i term -> backed w' i term) as Hb by (intros; eapply executed_backed; eauto).
    split; [unfold known; by rewrite Hn|]. split.
    + unfold point_ok in *. destruct (at_ p) as [|m term t| |m t|term stg| |m k|cl k| |] eqn:Hat; try done.
      * destruct Hpt as (Hte & Haw & Hpt). rewrite Hn. split; [done|]. split; [by eapply awaits_executed|].
        intros Hle. destruct (Hpt Hle) as [Ht Hx]. split; [done|]. intros x Hax.
        destruct (decide (n = m)) as [->|Hne]; [|rewrite Ha, lookup_insert_ne in Hax by done; eauto].
        destruct Haw as [_ Haw]. destruct (Haw st Hst) as (? & ? & ? & -> & _).
        destruct (Hl ltac:(unfold running; by rewrite Hat) Hle) as (term' & Ht' & Hb'). assert (term' = term) as -> by congruence.
        eapply renew_executed; eauto.
      * destruct Hpt as (Hle & Haw & Hx). split; [done|]. split; [by eapply awaits_executed|]. intros e Hae.
        destruct (decide (n = m)) as [->|Hne]; [|rewrite Ha, lookup_insert_ne in Hae by done; eauto].
        destruct Haw as [_ Haw]. destruct (Haw st Hst) as (? & ? & ? & -> & ?). eapply elect_executed; eauto.
      * destruct Hpt as [? ?]. split; auto.
    + intros Hr Hle. destruct (Hl Hr Hle) as (term & ? & ?). exists term. auto.
Qed.

(** ** Time, and a departed pod's row *)

(** A change of the clock or the row that keeps a pod's terms backed keeps its invariant. *)
Lemma pod_moved w w' i p :
  now w <= now w' -> serial w' = serial w -> wire w' = wire w -> answers w' = answers w ->
  (running p = true -> forall term, backed w i term -> backed w' i term) -> pod_ok w i p -> pod_ok w' i p.
Proof.
  intros Hn Hs Hw Ha Hb ([Hk1 Hk2] & Hpt & Hl). pose proof (srv_forward _ _ _ laws _ _ Hn) as Hsrv.
  assert (forall m q t, awaits w i m q t -> awaits w' i m q t) as Haw.
  { intros m q t [Hlt H]. split; [lia|]. rewrite Hw. intros st Hst. destruct (H st Hst) as (H1 & H2 & H3 & H4 & H5).
    refine (conj H1 (conj H2 (conj (Z.le_trans _ _ _ H3 Hn) (conj H4 _)))).
    intros Hq m' st' e. rewrite Hw. exact (H5 Hq m' st' e). }
  split; [split; intros term Ht; [apply Hk1 in Ht|apply Hk2 in Ht]; lia|]. split.
  - unfold point_ok, running in *. rewrite Ha. destruct (at_ p) as [| | | | | |? []| | |]; try done.
    + destruct Hpt as (? & ? & Hx). split; [lia|]. split; [auto|]. intros Hle. destruct (Hx Hle). split; eauto.
    + destruct Hpt as (? & ? & Hx). split; [done|]. split; [auto|]. eauto.
    + destruct Hpt as (? & ?). split; auto.
  - intros Hr Hle. destruct (Hl Hr Hle) as (term & ? & ?). exists term. auto.
Qed.

Lemma elapse_sound w t : sound w -> now w <= t -> sound (w <| now := t |>).
Proof.
  intros (Hfree & Hre & Hp) Ht. pose proof (srv_forward _ _ _ laws _ _ Ht) as Hsrv. split; [done|]. split.
  - intros i n st e Hst Hi He. pose proof (Hre i n st e Hst Hi He) as Hle. cbn in *. lia.
  - intros i. eapply pod_moved; [exact Ht|done..| |apply Hp]. intros _ term (He & Hr & g & Hg & Htu & Hh).
    split; [cbn; lia|]. split; [exact Hr|]. exists g. cbn. split; [lia|]. split; [done|]. intros Hm. apply Hh.
    pose proof (mono_forward _ _ _ laws i _ _ Ht). lia.
Qed.

Lemma deregister_sound w i r :
  sound w -> at_ (pods w i) = gone -> row w = Some r ->
  sound (w <| row := if Nat.eqb (worker_id r) i then None else Some r |>).
Proof.
  intros (Hfree & Hre & Hp) Hat Hr. split; [done|]. split; [done|]. intros j.
  eapply pod_moved; [by cbn|done..| |apply Hp]. cbn. intros Hrun term (He & Hr' & g & Hg & Htu & Hh).
  split; [done|]. split; [exact Hr'|]. exists g. cbn. split; [done|]. split; [done|]. intros Hm.
  destruct (Hh Hm) as (l & Hl & Hw & Hrest). assert (l = r) as -> by congruence.
  destruct (Nat.eqb_spec (worker_id r) i) as [<-|]; [|by exists r].
  unfold running in Hrun. rewrite <- Hw, Hat in Hrun. done.
Qed.

(** ** Every step of the world *)

Lemma deliver_sound w i w' : sound w -> deliver s mono i w = Some w' -> sound w'.
Proof.
  intros Hs. pose proof Hs as (_ & _ & Hp). destruct (Hp i) as (Hk & Hpt & _). unfold deliver.
  destruct (at_ (pods w i)) as [|n term t| |n t| | |n k| | |] eqn:Hat; try done;
    destruct (answers w !! n) as [[]|] eqn:Ha; try done; intros [= <-]; (apply put_sound; [done|]).
  - by eapply renewed_good.
  - by eapply elected_good.
  - apply after_resign_good; [done|]. unfold point_ok in Hpt. rewrite Hat in Hpt. by destruct k.
Qed.

Lemma fails_sound w i w' : sound w -> fails s mono i w = Some w' -> sound w'.
Proof.
  intros Hs. pose proof Hs as (_ & _ & Hp). destruct (Hp i) as (Hk & Hpt & _). unfold fails.
  unfold point_ok in Hpt. destruct (at_ (pods w i)) as [|n term t| |n t| | |n k| | |] eqn:Hat; try done;
    intros [= <-]; (apply put_sound; [done|]).
  - by eapply renew_failed_good.
  - apply drop_good. split; [done|apply Hpt].
  - apply after_resign_good; [done|]. by destruct k.
Qed.

Lemma opened_sound w i ok w' : sound w -> opened s mono i ok w = Some w' -> sound w'.
Proof.
  intros Hs. pose proof Hs as (_ & _ & Hp). destruct (Hp i) as (Hk & Hpt & _). unfold opened, point_ok in *.
  destruct (at_ (pods w i)) as [| | | |term stage| | | | |] eqn:Hat; try done; intros [= <-]; (apply put_sound; [done|]).
  - destruct ok; [by apply elect_or_open_good|by apply quiet_good].
  - by apply assume_good.
Qed.

Lemma advance_sound m w w' : sound w -> faithful_move s srv m w -> advance s mono m w = Some w' -> sound w'.
Proof.
  intros Hs Hf. pose proof Hs as (_ & _ & Hp).
  destruct m as [t|i|i ok|n c|i|i|i|i|i|i|i|i|i|i|i|i|i|i]; cbn [advance].
  - destruct (Z.leb_spec (now w) t); [|done]. intros [= <-]. by apply elapse_sound.
  - destruct (at_ (pods w i)) eqn:Hat; try done. intros [= <-]. apply put_sound; [done|by apply loop_top_good].
  - by apply opened_sound.
  - by apply execute_sound.
  - by apply deliver_sound.
  - by apply fails_sound.
  - destruct (Hp i) as (Hk & Hpt & _). unfold point_ok in Hpt.
    destruct (at_ (pods w i)) as [| | | | | | |c k| |]; try done. intros [= <-]. apply put_sound; [done|].
    apply settle_good. by eapply at_most_quiet; [apply at_most_closed|].
  - destruct (Hp i) as (Hk & _ & Hl). destruct (at_ (pods w i)) eqn:Hat; try done. cbn. intros [= <-].
    apply put_sound; [done|]. split; [done|]. split; [done|]. split; [done|]. intros _. cbn. apply Hl. unfold running. by rewrite Hat.
  - apply side_sound; [done|apply probe_at_most].
  - apply side_sound; [done|apply watchdog_closed_at_most].
  - apply side_sound; [done|apply cron_lost_at_most].
  - apply side_sound; [done|apply cron_closed_at_most].
  - apply side_sound; [done|]. intros ? [= <-]. repeat split; auto.
  - apply side_sound; [done|]. intros ? [= <-]. repeat split; auto.
  - apply side_sound; [done|]. intros ? [= <-]. repeat split; auto.
  - apply side_sound; [done|]. intros ? [= <-]. repeat split; auto.
  - destruct (running _); [|done]. intros [= <-]. apply put_sound; [done|]. apply resign_good; [apply (Hp i)|done].
  - destruct (at_ (pods w i)) eqn:Hat; try done. destruct (row w) as [r|] eqn:Hr; [|done]. intros [= <-]. by apply deregister_sound.
Qed.

Lemma initial_sound w : initial w -> sound w.
Proof.
  intros (Hp & Hw & Ha). split_and!.
  - intros n _. by rewrite Hw, Ha, !lookup_empty.
  - intros i n st e. by rewrite Hw, lookup_empty.
  - intros i. destruct (Hp i) as [c ->]. split; [done|]. by split.
Qed.

Lemma reachable_sound w0 w : initial w0 -> rtc (step s srv mono) w0 w -> sound w.
Proof.
  intros H0 Hrun. assert (sound w0) as Hs by by apply initial_sound. clear H0.
  induction Hrun as [|w1 w2 w3 (m & Hf & Hm) _ IH]; [done|]. apply IH. by eapply advance_sound.
Qed.

(** Who acts is named by a row that has not lapsed. *)
Lemma acting_holds w i :
  sound w -> acts mono w i = true ->
  exists r x, row w = Some r /\ worker_id r = i /\ expires_at r = Some x /\ srv (now w) < x.
Proof.
  intros (_ & _ & Hp) Hact. destruct (Hp i) as (_ & _ & Hl). unfold acts, leading in Hact.
  apply andb_true_iff in Hact as [Hr Hact]. apply andb_true_iff in Hact as [Hle Hact].
  destruct (Hl Hr Hle) as (term & Ht & _ & _ & g & Hg & Htu & Hh). rewrite Ht in Hact. apply Z.ltb_lt in Hact.
  destruct (Hh Hact) as (l & Hrow & Hw & _ & y & Hy & Hxy). exists l, y. split_and!; try done.
  rewrite Htu in Hact. pose proof (trust_in_time i g (now w) Hg Hact). lia.
Qed.

(** C6: At most one pod acts as leader, whatever statements are delayed, answers lost,
    connections dropped or processes suspended; and the one that acts is named by the row, with an
    expiry the server has not reached, so no peer's takeover can match. *)
Theorem one_leader w0 w i :
  initial w0 -> rtc (step s srv mono) w0 w -> acts mono w i = true ->
  (exists r x, row w = Some r /\ worker_id r = i /\ expires_at r = Some x /\ srv (now w) < x) /\
  (forall j, acts mono w j = true -> j = i).
Proof.
  intros H0 Hrun Hi. pose proof (reachable_sound _ _ H0 Hrun) as Hs.
  destruct (acting_holds w i Hs Hi) as (r & x & Hr & Hw & Hrest). split; [by exists r, x|].
  intros j Hj. destruct (acting_holds w j Hs Hj) as (r' & x' & Hr' & Hw' & _). congruence.
Qed.

(** ** Shutting down *)

(** What holds of a pod whose shutdown began and that has given up the role, through any step. *)
Definition retired (p : pod) : Prop := stopping p = true /\ is_leader p = false.

Lemma monitor_stopping p : stopping (fst (close_monitor p)) = stopping p.
Proof. unfold close_monitor. destruct (_leader_monitor_conn p) as [c|]; [destruct (is_closed c)|]; done. Qed.

Lemma owned_stopping p : stopping (fst (_close_leader_owned_conns p)) = stopping p.
Proof.
  unfold _close_leader_owned_conns; cbn. destruct (_cron_conn p) as [c|]; [destruct (is_closed c)|]; cbn; [|done|];
    by rewrite monitor_stopping.
Qed.

Lemma closed_stopping c p : stopping (fst (closed c p)) = stopping p.
Proof. destruct c; cbn [closed fst]; [by rewrite owned_stopping|by rewrite monitor_stopping|done]. Qed.

Lemma drop_stopping p : stopping (fst (_drop_leader_conn s p)) = stopping p.
Proof.
  unfold _drop_leader_conn. destruct (leader_conn p) as [c|]; [destruct (_ && _)|]; [done| |];
    etransitivity; try apply owned_stopping; done.
Qed.

Lemma retired_closing p p' : at_most p p' -> stopping p' = stopping p -> retired p -> retired p'.
Proof. intros (_ & _ & _ & [[_ Hl]|[_ Hl]]) Hs [H1 H2]; split; congruence. Qed.

Lemma retired_settle id t k r : retired (fst r) -> retired (fst (settle id t k r)).
Proof. destruct r as [p [c|]], k; cbn; try done. unfold elect_or_open. by destruct (usable _). Qed.

Lemma retired_drop id t k p : retired p -> retired (fst (settle id t k (_drop_leader_conn s p))).
Proof. intros. apply retired_settle. eapply retired_closing; [apply at_most_drop|apply drop_stopping|done]. Qed.

Lemma retired_owned id t k p : retired p -> retired (fst (settle id t k (_close_leader_owned_conns p))).
Proof. intros. apply retired_settle. eapply retired_closing; [apply at_most_owned|apply owned_stopping|done]. Qed.

Lemma retired_demote p : stopping p = true -> retired (_demote p).
Proof. by split. Qed.

Lemma retired_after id t k b p : retired p -> retired (fst (after_resign s id t k b p)).
Proof. intros Hp. destruct k; cbn; try (destruct b; exact Hp); [by apply retired_drop|by apply retired_owned]. Qed.

Lemma retired_resign id t k p : retired p -> retired (fst (resign s id t k p)).
Proof. intros Hp. unfold resign. destruct (resign_term p); [destruct (_ || _)|]; [exact Hp|by apply retired_after..]. Qed.

Lemma retired_hand_back id t p : retired p -> retired (fst (_hand_back_unassumable_lease s id t p)).
Proof.
  intros Hp. unfold _hand_back_unassumable_lease.
  destruct (_unassumable_anchor p); [destruct (_ <? _)|]; [by apply retired_drop|by apply retired_resign|].
  apply retired_drop. exact Hp.
Qed.

Lemma retired_loop_top id t p : stopping p = true -> retired (fst (loop_top s id t p)).
Proof.
  intros Hs. unfold loop_top. rewrite Hs. unfold _hand_over_at_stop. destruct (leading t p || _ || _) eqn:Hc.
  - by apply retired_resign, retired_demote.
  - apply retired_after. split; [done|]. apply orb_false_iff in Hc as [Hc _]. apply orb_false_iff in Hc as [Hc Ht].
    unfold leading in Hc. destruct (leader_term p); [done|]. by rewrite andb_true_r in Hc.
Qed.

Lemma retired_put w i j r : retired (pods w j) -> (i = j -> retired (fst r)) -> retired (pods (put i r w) j).
Proof. intros Hj Hi. destruct (decide (i = j)) as [<-|]; [rewrite put_pod_self; auto|by rewrite put_pod_other]. Qed.

Lemma retired_side w i j p w' :
  retired (pods w j) -> (forall p', p = Some p' -> at_most (pods w i) p' /\ (stopping (pods w i) = true -> stopping p' = true)) ->
  side i p w = Some w' -> retired (pods w' j).
Proof.
  intros Hj Hp. destruct p as [p'|]; [|done]. cbn. intros [= <-]. apply retired_put; [done|]. intros ->.
  destruct (Hp p' eq_refl) as [Hm Hs]. eapply retired_closing; [done| |done]. destruct Hj as [H _]. rewrite H. auto.
Qed.

(** The loop's own steps, of a pod that has retired. *)
Lemma retired_step_down id t k p : retired p -> retired (fst (settle id t k (_step_down s p))).
Proof. intros [Hs _]. by apply retired_drop, retired_demote. Qed.

Lemma retired_elected id t u x p : retired p -> retired (fst (elected s id t u x p)).
Proof.
  intros Hp. unfold elected. destruct x as [e|]; [|exact Hp]. rewrite (proj1 Hp).
  unfold _resign_won_lease. apply retired_resign. exact Hp.
Qed.

Lemma retired_assume id t term stage ok p : retired p -> retired (fst (assume s id t term stage ok p)).
Proof.
  intros Hp. destruct stage, ok; cbn [assume _election_attempt_failed]; try (by apply retired_hand_back); try exact Hp.
  destruct Hp as [Hs Hl]. cbn -[resign]. rewrite Hs. apply retired_resign. by split.
Qed.

Lemma retired_deliver w i j w' : retired (pods w j) -> deliver s mono i w = Some w' -> retired (pods w' j).
Proof.
  intros Hj. unfold deliver.
  destruct (at_ (pods w i)) as [|n term t| |n t| | |n k| | |]; try done;
    destruct (answers w !! n) as [[]|]; try done; intros [= <-]; (apply retired_put; [done|]); intros <-.
  - unfold renewed. destruct x; [exact Hj|by apply retired_step_down].
  - by apply retired_elected.
  - by apply retired_after.
Qed.

Lemma retired_fails w i j w' : retired (pods w j) -> fails s mono i w = Some w' -> retired (pods w' j).
Proof.
  intros Hj. unfold fails.
  destruct (at_ (pods w i)) as [|n term t| |n t| | |n k| | |]; try done;
    intros [= <-]; (apply retired_put; [done|]); intros <-.
  - unfold _renew_failed. destruct (_ <=? _); [by apply retired_step_down|exact Hj].
  - by apply retired_drop.
  - by apply retired_after.
Qed.

Lemma retired_opened w i ok j w' : retired (pods w j) -> opened s mono i ok w = Some w' -> retired (pods w' j).
Proof.
  intros Hj. unfold opened. destruct (at_ (pods w i)) as [| | | |term stage| | | | |]; try done;
    intros [= <-]; (apply retired_put; [done|]); intros <-; [|by apply retired_assume].
  destruct ok; [|exact Hj]. unfold elect_or_open. cbn. exact Hj.
Qed.

Lemma side_step_stopping p p' :
  (_watchdog_probe_failed s p = Some p' \/ watchdog_closed p = Some p' \/ _cron_conn_lost p = Some p' \/ cron_closed p = Some p') ->
  stopping p' = stopping p.
Proof.
  unfold _watchdog_probe_failed, watchdog_closed, _cron_conn_lost, cron_closed. intros [H|[H|[H|H]]].
  - destruct (_ && _); [|done]. unfold _step_down in H. pose proof (drop_stopping (_demote p)) as Hd.
    destruct (_drop_leader_conn s (_demote p)). by injection H as <-.
  - destruct (watchdog p) as [c|]; [|done]. pose proof (closed_stopping c p). destruct (closed c p). by injection H as <-.
  - destruct (_ && _); [|done]. pose proof (owned_stopping p). destruct (_close_leader_owned_conns p). by injection H as <-.
  - destruct (cron_task p) as [c|]; [|done]. pose proof (closed_stopping c p). destruct (closed c p). by injection H as <-.
Qed.

Lemma retired_advance m w w' j : retired (pods w j) -> advance s mono m w = Some w' -> retired (pods w' j).
Proof.
  intros Hj. destruct m as [t|i|i ok|n c|i|i|i|i|i|i|i|i|i|i|i|i|i|i]; cbn [advance].
  - destruct (_ <=? _); [|done]. by intros [= <-].
  - destruct (at_ (pods w i)); try done. intros [= <-]. apply retired_put; [done|]. intros <-. apply retired_loop_top, Hj.
  - by apply retired_opened.
  - intros Hex. destruct (wire w !! n) as [st|] eqn:Hst; [|unfold execute in Hex; by rewrite Hst in Hex].
    by destruct (executed_frame _ _ _ _ _ Hst Hex) as (_ & -> & _).
  - by apply retired_deliver.
  - by apply retired_fails.
  - destruct (at_ (pods w i)) as [| | | | | | |c k| |]; try done. intros [= <-]. apply retired_put; [done|]. intros <-.
    apply retired_settle. eapply retired_closing; [apply at_most_closed|apply closed_stopping|done].
  - destruct (at_ (pods w i)); try done. cbn. intros [= <-]. apply retired_put; [done|]. intros <-. exact Hj.
  - apply retired_side; [done|]. intros p' Hp. split; [by apply probe_at_most|]. by rewrite (side_step_stopping _ p' (or_introl Hp)).
  - apply retired_side; [done|]. intros p' Hp. split; [by apply watchdog_closed_at_most|].
    by rewrite (side_step_stopping _ p' (or_intror (or_introl Hp))).
  - apply retired_side; [done|]. intros p' Hp. split; [by apply cron_lost_at_most|].
    by rewrite (side_step_stopping _ p' (or_intror (or_intror (or_introl Hp)))).
  - apply retired_side; [done|]. intros p' Hp. split; [by apply cron_closed_at_most|].
    by rewrite (side_step_stopping _ p' (or_intror (or_intror (or_intror Hp)))).
  - cbn. intros [= <-]. apply retired_put; [done|]. intros <-. exact Hj.
  - cbn. intros [= <-]. apply retired_put; [done|]. intros <-. exact Hj.
  - cbn. intros [= <-]. apply retired_put; [done|]. intros <-. exact Hj.
  - cbn. intros [= <-]. apply retired_put; [done|]. intros <-. split; [done|apply Hj].
  - destruct (running _); [|done]. intros [= <-]. apply retired_put; [done|]. intros <-. apply retired_resign. exact Hj.
  - destruct (at_ (pods w i)); try done. destruct (row w); [|done]. by intros [= <-].
Qed.

Lemma retired_run w w' i : rtc (step s srv mono) w w' -> retired (pods w i) -> retired (pods w' i).
Proof. induction 1 as [|w1 w2 w3 (m & _ & Hm) _ IH]; [done|]. intros Hr. by eapply IH, retired_advance. Qed.

(** The awaits a stopping pod's tick can end in, and what it sends. *)
Lemma stop_tick id t p :
  stopping p = true ->
  match at_ (fst (loop_top s id t p)) with
  | parked | waiting => snd (loop_top s id t p) = None
  | resigning _ hand_over => exists e, snd (loop_top s id t p) = Some (rq_resign e)
  | _ => False
  end.
Proof.
  intros Hs. unfold loop_top. rewrite Hs. unfold _hand_over_at_stop, resign.
  destruct (_ || _); [destruct (resign_term _) as [term|]; [destruct (_ || _)|]|]; cbn; try (by destruct (is_null _)).
  by eexists.
Qed.

(** C15: The shutdown contract.  A pod whose shutdown began and that does not lead never leads
    again, whatever wins, answers or connections are still on their way to it; and one that
    does lead gives the role up at its next tick, at which it neither elects nor renews: it sends nothing,
    or its fenced resign. *)
Theorem stopping_never_leads w i :
  stopping (pods w i) = true ->
  (is_leader (pods w i) = false -> forall w', rtc (step s srv mono) w w' -> is_leader (pods w' i) = false) /\
  (forall w1, advance s mono (Tick i) w = Some w1 ->
    (forall w', rtc (step s srv mono) w1 w' -> is_leader (pods w' i) = false) /\
    (wire w1 = wire w \/ exists e, wire w1 = <[serial w := {| sender := i; issued := now w; what := rq_resign e |}]> (wire w))).
Proof.
  intros Hs. split; [intros Hl w' Hrun; by apply (retired_run w w' i)|]. intros w1. cbn.
  destruct (at_ (pods w i)) eqn:Hat; try done. intros [= <-]. split.
  - intros w' Hrun. apply (retired_run _ _ i Hrun). rewrite put_pod_self. by apply retired_loop_top.
  - pose proof (stop_tick (serial w) (mono i (now w)) (pods w i) Hs) as Ht. cbn.
    destruct (at_ (fst _)) as [| | | | | |? []| | |]; try done; [rewrite Ht; by left| |rewrite Ht; by left].
    destruct Ht as [e ->]. right. by exists e.
Qed.
End Safety.
