(* ===== verification/LeaderLive.v ===== *)
(** * Failover and hand-back

    The role is never stuck: a row no pod renews is takeable a lease later, a resigned one at once,
    and one candidate's cycle takes it; and a pod that keeps winning a row it cannot assume
    resigns the election it holds once the episode's budget is spent.  Then a fleet of two pods, run. *)

From Stdlib Require Import ZArith Lia.
From stdpp Require Import base gmap list relations functions.
From S2P Require Import Prelude Leader LeaderProps.

Open Scope Z_scope.
Open Scope taskq_scope.

Section Live.
Variable s : leader_settings.
Variable srv : Z -> Z.
Variable mono : nat -> Z -> Z.
Hypothesis laws : clock_laws s srv mono.

Abbreviation lease := (resolved_leader_lease s).
Abbreviation margin := _LEADER_TRUST_MARGIN_SECS.

(** ** How far ahead a row can be *)

Definition row_bounded (w : world) : Prop :=
  forall r, row w = Some r ->
    elected_at r <= srv (now w) /\ last_seen_at r <= srv (now w) /\
    match expires_at r with Some x => x <= srv (now w) + lease | None => True end.

Lemma execute_bounded w n c w' :
  row_bounded w -> faithful_move s srv (Execute n c) w -> execute s n c w = Some w' -> row_bounded w'.
Proof.
  intros Hb Hf Hex. cbn in Hf. unfold execute in Hex. destruct (wire w !! n) as [st|] eqn:Hst; [|done].
  destruct Hf as [(Hel & Hxp & Hse & _) _]. destruct (what st) as [|e0|e0]; cbn in Hex.
  - unfold elect_sql in Hex. destruct (row w) as [l|] eqn:Hr; [destruct (_ || _)|]; injection Hex as <-;
      intros r [= <-]; cbn; try lia. by apply (Hb l).
  - unfold renew_sql in Hex. destruct (row w) as [l|] eqn:Hr; [destruct (_ && _ && _)|]; injection Hex as <-;
      intros r [= <-]; cbn; [|by apply (Hb l)]. destruct (Hb l Hr) as (? & ? & ?). lia.
  - unfold resign_sql in Hex. destruct (row w) as [l|] eqn:Hr; [destruct (_ && _)|]; injection Hex as <-;
      intros r [= <-]; cbn. by apply (Hb l).
Qed.

Lemma advance_row m w w' :
  advance s mono m w = Some w' ->
  (exists n c, m = Execute n c) \/ now w <= now w' /\ (row w' = row w \/ row w' = None).
Proof.
  destruct m as [t|i|i ok|n c|i|i|i|i|i|i|i|i|i|i|i|i|i|i]; try (left; by eexists _, _); intros Hm; right; revert Hm; cbn [advance];
    unfold opened, deliver, fails, side, put;
    repeat match goal with
    | |- match ?x with _ => _ end = Some _ -> _ => destruct x eqn:?; try done
    end; intros [= <-]; cbn; split; try lia; auto.
  destruct (Nat.eqb _ _); auto.
Qed.

Lemma advance_bounded m w w' :
  row_bounded w -> faithful_move s srv m w -> advance s mono m w = Some w' -> row_bounded w'.
Proof using laws.
  intros Hb Hf Hm. destruct (advance_row m w w' Hm) as [(n & c & ->)|[Hn Hr]]; [by eapply execute_bounded|].
  pose proof (srv_forward _ _ _ laws _ _ Hn) as Hsrv. intros r Hr'. destruct Hr as [Hr|Hr]; [|congruence].
  destruct (Hb r ltac:(congruence)) as (? & ? & Hx). split; [lia|]. split; [lia|]. destruct (expires_at r); lia.
Qed.

Lemma run_bounded w0 w : row_bounded w0 -> rtc (step s srv mono) w0 w -> row_bounded w.
Proof using laws.
  intros Hb Hrun. induction Hrun as [|w1 w2 w3 (m & Hf & Hm) _ IH]; [done|]. by eapply IH, advance_bounded.
Qed.

(** ** A candidate's cycle *)

Definition candidate_pod (p : pod) : Prop := at_ p = waiting /\ stopping p = false /\ is_leader p = false.

Definition all_at (t : Z) : readings :=
  {| at_elected := t; at_seen := t; at_expires := t; at_lapse := t; at_silence := t |}.

(** A pod awaiting its elect, sent at [t]. *)
Definition elect_sent (w : world) (j n : nat) (t : Z) : Prop :=
  at_ (pods w j) = electing n (mono j t) /\
  wire w !! n = Some {| sender := j; issued := t; what := rq_elect |}.

(** A candidate's tick sends an elect, or opens the connection whose return sends it. *)
Lemma candidate_elects w j :
  candidate_pod (pods w j) ->
  exists ms w' n, (ms = [Tick j] \/ ms = [Tick j; Opened j true]) /\ advances s mono ms w = Some w' /\
    now w' = now w /\ row w' = row w /\ elect_sent w' j n (now w).
Proof.
  intros (Hat & Hs & Hl). destruct (usable (leader_conn (pods w j))) eqn:Hu.
  - exists [Tick j], (put j ((pods w j) <| at_ := electing (serial w) (mono j (now w)) |>, Some rq_elect) w), (serial w).
    split; [by left|]. split; [|split_and!; try done].
    + cbn [advances advance]. rewrite Hat. unfold loop_top, elect_or_open. by rewrite Hs, Hl, Hu.
    + unfold elect_sent. rewrite put_pod_self. cbn. by rewrite lookup_insert, decide_True.
  - set (w1 := put j ((pods w j) <| at_ := opening |>, None) w).
    set (p2 := (pods w1 j) <| leader_conn := Some {| cid := serial w1; is_closed := false |} |>
                 <| at_ := electing (serial w1) (mono j (now w1)) |>).
    exists [Tick j; Opened j true], (put j (p2, Some rq_elect) w1), (serial w1).
    split; [by right|]. split; [|split_and!; try done].
    + cbn [advances advance]. rewrite Hat. unfold loop_top, elect_or_open. rewrite Hs, Hl, Hu. fold w1. cbn [advances].
      unfold opened. assert (at_ (pods w1 j) = opening) as -> by (unfold w1; by rewrite put_pod_self). done.
    + unfold elect_sent. rewrite put_pod_self. cbn. by rewrite lookup_insert, decide_True.
Qed.

(** The elect's predicate over a row of a silent holder: every reading more than a lease after the
    row was last written. *)
Lemma elect_takes w j c :
  row_bounded w -> (row w = None \/ srv (now w) + lease < at_lapse c /\ srv (now w) + lease < at_silence c) ->
  elect_sql j lease (pre_lease_slack s) c (row w) =
    (Some {| worker_id := j; elected_at := at_elected c; last_seen_at := at_seen c; expires_at := Some (at_expires c + lease) |},
     Some (at_elected c)).
Proof.
  intros Hb Hfree. unfold elect_sql. destruct (row w) as [r|] eqn:Hr; [|done].
  destruct Hfree as [|[Hlapse Hsilence]]; [done|]. destruct (Hb r Hr) as (_ & Hseen & Hx).
  assert (is_null (expires_at r) || expired (expires_at r) (at_lapse c) = true) as ->.
  { destruct (expires_at r); cbn; [apply Z.ltb_lt; lia|done]. }
  assert (last_seen_at r <? at_silence c - pre_lease_slack s = true) as ->; [|by rewrite orb_true_r].
  apply Z.ltb_lt. unfold pre_lease_slack, resolved_leader_lease, _PRE_LEASE_STALE_HEARTBEATS in *. lia.
Qed.

(** An answer, once there, stays until it is delivered. *)
Definition answered (w : world) (n : nat) (a : answer) : Prop :=
  (n < serial w)%nat /\ wire w !! n = None /\ answers w !! n = Some a.

Lemma put_answered w i r n a : answered w n a -> answered (put i r w) n a.
Proof.
  intros (Hn & Hw & Ha). split_and!; cbn; [lia| |done]. destruct (snd r); [|done]. by rewrite lookup_insert_ne by lia.
Qed.

Lemma advance_answered m w w' n a : answered w n a -> advance s mono m w = Some w' -> answered w' n a.
Proof.
  intros Ha. destruct m as [t|i|i ok|k c|i|i|i|i|i|i|i|i|i|i|i|i|i|i]; cbn [advance];
    unfold opened, deliver, fails, side;
    try (repeat match goal with
    | |- match ?x with _ => _ end = Some _ -> _ => destruct x eqn:?; try done
    end; intros [= <-]; (by apply put_answered) || exact Ha).
  intros Hex. destruct (wire w !! k) as [st|] eqn:Hst; [|unfold execute in Hex; by rewrite Hst in Hex].
  destruct (executed_frame _ _ _ _ _ _ Hst Hex) as (_ & _ & Hw & Hs & a' & Ha'). destruct Ha as (Hn & Hwn & Han).
  assert (k <> n) by congruence. unfold answered. rewrite Hw, Hs, Ha'.
  split_and!; [done|by rewrite lookup_delete_ne|by rewrite lookup_insert_ne].
Qed.

Lemma run_answered w w' n a : rtc (step s srv mono) w w' -> answered w n a -> answered w' n a.
Proof. induction 1 as [|w1 w2 w3 (m & _ & Hm) _ IH]; [done|]. intros Ha. by eapply IH, advance_answered. Qed.

(** The elect's answer and the assume's three awaits. *)
Definition takes_lead (j : nat) : list move := [Deliver j; Opened j true; Opened j true; Opened j true].

(** Where the assume goes when the await of a stage returns. *)
Lemma opened_assuming w j term stage :
  at_ (pods w j) = assuming term stage -> stopping (pods w j) = false ->
  exists w', opened s mono j true w = Some w' /\ now w' = now w /\ row w' = row w /\
    match stage with
    | lock_probe => at_ (pods w' j) = assuming term monitor_open /\ stopping (pods w' j) = false
    | monitor_open => at_ (pods w' j) = assuming term cron_open /\ stopping (pods w' j) = false
    | cron_open => acts mono w' j = (mono j (now w) <? trusted_until term)
    end.
Proof.
  intros Hat Hs. unfold opened. rewrite Hat. eexists. split; [reflexivity|]. split; [done|]. split; [done|].
  destruct stage; unfold acts; rewrite put_pod_self; cbn; try done. by rewrite Hs.
Qed.

Lemma won_elect_leads w j n started e :
  at_ (pods w j) = electing n started -> stopping (pods w j) = false -> answers w !! n = Some (a_elect (Some e)) ->
  mono j (now w) < started + lease - margin ->
  exists w', advances s mono (takes_lead j) w = Some w' /\ row w' = row w /\ acts mono w' j = true.
Proof.
  intros Hat Hs Ha Ht. unfold takes_lead. cbn [advances advance]. unfold deliver. rewrite Hat, Ha. unfold elected. rewrite Hs.
  set (w1 := put j _ w). set (term := won_term s e started) in *.
  destruct (opened_assuming w1 j term lock_probe) as (w2 & -> & Hn2 & Hr2 & Hat2 & Hs2); [unfold w1; by rewrite put_pod_self..|].
  destruct (opened_assuming w2 j term monitor_open Hat2 Hs2) as (w3 & -> & Hn3 & Hr3 & Hat3 & Hs3).
  destruct (opened_assuming w3 j term cron_open Hat3 Hs3) as (w4 & -> & _ & Hr4 & Hact).
  exists w4. split; [done|]. split; [by rewrite Hr4, Hr3, Hr2|]. rewrite Hact, Hn3, Hn2. by apply Z.ltb_lt.
Qed.

(** C14: Failover.  Take any state [w] a fleet reaches, and any later state [w1] whose row is as it
    was, the holder having written nothing since.  Whatever became of the holder, every elect
    of any pod [j] that the server runs in [w1] takes the role if there is no row, as
    after a resign, or if its clock readings are more than a lease past the server's time in [w]:
    the row becomes [j]'s with a fresh lease, and the answer says so.  And in every state that
    follows in which [j], not stopping and inside its trust window, still awaits that elect, the
    arrival of the answer and the return of the assume's three awaits make it act as leader.
    No lock or connection of the old holder is involved. *)
Theorem failover_within_lease w0 w w1 w2 j n t c :
  initial w0 -> row_bounded w0 -> rtc (step s srv mono) w0 w -> rtc (step s srv mono) w w1 -> row w1 = row w ->
  wire w1 !! n = Some {| sender := j; issued := t; what := rq_elect |} ->
  (row w = None \/ srv (now w) + lease < at_lapse c /\ srv (now w) + lease < at_silence c) ->
  advance s mono (Execute n c) w1 = Some w2 ->
  row w2 = Some {| worker_id := j; elected_at := at_elected c; last_seen_at := at_seen c;
                   expires_at := Some (at_expires c + lease) |} /\
  answers w2 !! n = Some (a_elect (Some (at_elected c))) /\
  forall w3 started, rtc (step s srv mono) w2 w3 -> at_ (pods w3 j) = electing n started ->
    stopping (pods w3 j) = false -> mono j (now w3) < started + lease - margin ->
    exists w4, advances s mono (takes_lead j) w3 = Some w4 /\ row w4 = row w3 /\ acts mono w4 j = true.
Proof using laws.
  intros H0 Hb0 Hrun Hrun1 Hrow Hwire Hfree Hex.
  pose proof (run_bounded _ _ Hb0 Hrun) as Hb.
  destruct (reachable_sound s srv mono laws w0 w1 H0) as (Hfresh & _); [by etransitivity|].
  assert (Hser : (n < serial w1)%nat).
  { destruct (Nat.lt_ge_cases n (serial w1)) as [|Hge]; [done|]. destruct (Hfresh n Hge). congruence. }
  cbn [advance] in Hex. unfold execute in Hex. rewrite Hwire in Hex. cbn [what sender] in Hex.
  rewrite Hrow, (elect_takes w j c Hb Hfree) in Hex. injection Hex as <-.
  assert (Ha : answered (w1 <| row := Some {| worker_id := j; elected_at := at_elected c; last_seen_at := at_seen c;
      expires_at := Some (at_expires c + lease) |} |> <| wire ::= delete n |>
      <| answers ::= <[n := a_elect (Some (at_elected c))]> |>) n (a_elect (Some (at_elected c)))).
  { split_and!; cbn; [done|by rewrite lookup_delete_eq|by rewrite lookup_insert_eq]. }
  split_and!; [done|apply Ha|]. intros w3 started Hrun3 Hat Hs Ht.
  eapply won_elect_leads; [done|done|eapply (run_answered _ _ _ _ Hrun3 Ha)|done].
Qed.

(** ** The fence of a hand-back

    A renewal answered after another task demoted the pod leaves a term without the flag, and
    [resign] prefers a term to the fence; so the hand-back resigns what it holds only because such
    a leftover never meets a spent episode. *)

Definition no_leftover (p : pod) : Prop := leader_term p = None \/ _unassumable_anchor p = None.

Definition fenced (p : pod) : Prop :=
  running p = true ->
  match at_ p with
  | recovering | closing_conns dropping _ => True
  | assuming term _ => _resign_fence p = Some term /\ no_leftover p
  | renewing _ _ _ => _unassumable_anchor p = None
  | _ => no_leftover p
  end.

Lemma owned_no_term p : leader_term (fst (_close_leader_owned_conns p)) = None.
Proof.
  unfold _close_leader_owned_conns, close_monitor; cbn.
  destruct (_cron_conn p) as [c|]; [destruct (is_closed c)|]; cbn;
    try (destruct (_leader_monitor_conn p) as [d|]; [destruct (is_closed d)|]); done.
Qed.

Lemma settle_fenced id t k r : leader_term (fst r) = None -> fenced (fst (settle id t k r)).
Proof.
  intros Ht. assert (no_leftover (fst r)) as Hn by by left. destruct r as [p [[]|]]; cbn; try done; intros Hr; try exact Hn.
  destruct k; try exact Hn. cbn. unfold elect_or_open. destruct (usable _); exact Hn.
Qed.

Lemma owned_fenced id t k p : fenced (fst (settle id t k (_close_leader_owned_conns p))).
Proof. apply settle_fenced, owned_no_term. Qed.

Lemma drop_fenced id t k p : fenced (fst (settle id t k (_drop_leader_conn s p))).
Proof.
  unfold _drop_leader_conn. destruct (leader_conn p) as [c|]; [destruct (_ && _)|]; [done|apply owned_fenced..].
Qed.

Lemma after_resign_fenced id t k b p : no_leftover p -> fenced (fst (after_resign s id t k b p)).
Proof.
  intros Hn. destruct k; cbn; [| |apply drop_fenced|exact (fun _ => Hn)|apply owned_fenced].
  - destruct b; cbn; [exact (fun _ => Hn)|]. intros _. cbn. destruct (is_null _); exact Hn.
  - destruct b; exact (fun _ => Hn).
Qed.

Lemma resign_fenced id t k p : no_leftover p \/ k = teardown -> fenced (fst (resign s id t k p)).
Proof.
  intros Hn. assert (fenced (fst (after_resign s id t k false p))) as Ha.
  { destruct Hn as [Hn| ->]; [by apply after_resign_fenced|apply owned_fenced]. }
  unfold resign. destruct (resign_term p) as [term|]; [|done]. destruct (_ || _); [|done].
  destruct Hn as [Hn| ->]; [exact (fun _ => Hn)|done].
Qed.

Lemma hand_back_fenced id t p : no_leftover p -> fenced (fst (_hand_back_unassumable_lease s id t p)).
Proof.
  intros Hn. unfold _hand_back_unassumable_lease. destruct (_unassumable_anchor p); [|apply drop_fenced].
  destruct (_ <? _); [apply drop_fenced|]. by apply resign_fenced; left.
Qed.

Lemma loop_top_fenced id t p : at_ p = waiting -> fenced p -> fenced (fst (loop_top s id t p)).
Proof.
  intros Hat Hf. unfold fenced, running in Hf. rewrite Hat in Hf. specialize (Hf eq_refl). unfold loop_top.
  destruct (stopping p).
  { unfold _hand_over_at_stop. destruct (_ || _); [apply resign_fenced; left; by left|by apply after_resign_fenced]. }
  assert (fenced (fst (elect_or_open id t p))) as He by (unfold elect_or_open; destruct (usable _); exact (fun _ => Hf)).
  destruct (is_leader p); [|done]. destruct (leader_term p) as [term|] eqn:Ht; [|apply drop_fenced].
  unfold _renew_term. destruct (_ <=? _); [apply drop_fenced|]. destruct (usable _); [|apply drop_fenced].
  intros _. cbn. destruct Hf as [?|?]; [congruence|done].
Qed.

Lemma side_fenced p p' : at_most p p' -> fenced p -> fenced p'.
Proof.
  intros (Hat & Hf & Hu & Hl) H Hr. unfold running in Hr. rewrite Hat in Hr. specialize (H Hr). rewrite Hat.
  assert (no_leftover p -> no_leftover p') as Hn.
  { unfold no_leftover. rewrite Hu. destruct Hl as [[-> _]|[-> _]]; auto. }
  destruct (at_ p) as [| | | | | | |[]| |]; try done; try (by apply Hn); [by rewrite Hu|].
  destruct H. rewrite Hf. auto.
Qed.

(** What the point of a running pod tells. *)
Lemma fenced_at p a : at_ p = a -> fenced p ->
  match a with
  | electing _ _ | opening | waiting | parked => no_leftover p
  | resigning _ k => no_leftover p \/ k = teardown
  | assuming term _ => _resign_fence p = Some term /\ no_leftover p
  | renewing _ _ _ => _unassumable_anchor p = None
  | closing_conns c k => leader_term (fst (closed c p)) = None \/ no_leftover p \/ k = finished
  | recovering | gone => True
  end.
Proof.
  intros Hat Hf. unfold fenced, running in Hf. rewrite Hat in Hf.
  destruct a as [| | | | | |? []|[] []| |]; auto; try (left; apply owned_no_term).
Qed.

Lemma closed_fenced id t c k p :
  leader_term (fst (closed c p)) = None \/ no_leftover p \/ k = finished -> fenced (fst (settle id t k (closed c p))).
Proof.
  intros H. assert (no_leftover (fst (closed c p)) \/ k = finished) as Hn.
  { destruct H as [H|[H|H]]; [by left; left| |by right]. left. destruct (at_most_closed c p) as (_ & _ & Hu & Hl).
    unfold no_leftover. rewrite Hu. destruct H as [H|H]; [|by right]. left. destruct Hl as [[-> _]|[-> _]]; done. }
  clear H. destruct (closed c p) as [q [d|]]; cbn in *; intros Hr.
  - destruct d; cbn; try done; destruct Hn as [Hn| ->]; try done; exact Hn.
  - destruct Hn as [Hn| ->]; [|done]. destruct k; try exact Hn. unfold elect_or_open. destruct (usable _); exact Hn.
Qed.

Definition all_fenced (w : world) : Prop := forall i, fenced (pods w i).

Lemma put_fenced w i r : all_fenced w -> fenced (fst r) -> all_fenced (put i r w).
Proof. intros Hw Hr j. destruct (decide (i = j)) as [<-|]; [by rewrite put_pod_self|rewrite put_pod_other by done; apply Hw]. Qed.

Lemma side_all_fenced w i p w' :
  all_fenced w -> (forall p', p = Some p' -> at_most (pods w i) p') -> side i p w = Some w' -> all_fenced w'.
Proof.
  intros Hw Hp. destruct p as [p'|]; [|done]. cbn. intros [= <-]. apply put_fenced; [done|].
  eapply side_fenced; [by apply Hp|apply Hw].
Qed.

Lemma deliver_fenced w i w' : all_fenced w -> deliver s mono i w = Some w' -> all_fenced w'.
Proof.
  intros Hw. unfold deliver. destruct (at_ (pods w i)) as [|n term t| |n t| | |n k| | |] eqn:Hat; try done;
    pose proof (fenced_at _ _ Hat (Hw i)) as Hf; destruct (answers w !! n) as [[]|]; try done; intros [= <-]; (apply put_fenced; [done|]).
  - unfold renewed. destruct x; [intros _; by right|apply drop_fenced].
  - unfold elected. destruct e; [|intros _; by right]. destruct (stopping _); [|by intros _].
    unfold _resign_won_lease. apply resign_fenced. left. exact Hf.
  - destruct Hf as [Hf| ->]; [by apply after_resign_fenced|apply owned_fenced].
Qed.

Lemma fails_fenced w i w' : all_fenced w -> fails s mono i w = Some w' -> all_fenced w'.
Proof.
  intros Hw. unfold fails. destruct (at_ (pods w i)) as [|n term t| |n t| | |n k| | |] eqn:Hat; try done;
    pose proof (fenced_at _ _ Hat (Hw i)) as Hf; intros [= <-]; (apply put_fenced; [done|]).
  - unfold _renew_failed. destruct (_ <=? _); [apply drop_fenced|intros _; by right].
  - apply drop_fenced.
  - destruct Hf as [Hf| ->]; [by apply after_resign_fenced|apply owned_fenced].
Qed.

Lemma opened_fenced w i ok w' : all_fenced w -> opened s mono i ok w = Some w' -> all_fenced w'.
Proof.
  intros Hw. unfold opened. destruct (at_ (pods w i)) as [| | | |term stage| | | | |] eqn:Hat; try done;
    pose proof (fenced_at _ _ Hat (Hw i)) as Hf; intros [= <-]; (apply put_fenced; [done|]).
  - destruct ok; [unfold elect_or_open; cbn|]; exact (fun _ => Hf).
  - destruct Hf as [Hfe Hn]. destruct stage, ok; cbn [assume _election_attempt_failed]; try (by apply hand_back_fenced);
      [exact (fun _ => conj Hfe Hn)|exact (fun _ => conj Hfe Hn)|].
    destruct (stopping _); [|done]. apply resign_fenced. left. exact Hn.
Qed.

Lemma advance_fenced m w w' : all_fenced w -> advance s mono m w = Some w' -> all_fenced w'.
Proof.
  intros Hw. destruct m as [t|i|i ok|n c|i|i|i|i|i|i|i|i|i|i|i|i|i|i]; cbn [advance].
  - destruct (_ <=? _); [|done]. by intros [= <-].
  - destruct (at_ (pods w i)) eqn:Hat; try done. intros [= <-]. apply put_fenced; [done|]. by apply loop_top_fenced.
  - by apply opened_fenced.
  - intros Hex. destruct (wire w !! n) as [st|] eqn:Hst; [|unfold execute in Hex; by rewrite Hst in Hex].
    destruct (executed_frame _ _ _ _ _ _ Hst Hex) as (_ & Hp & _). intros i. by rewrite Hp.
  - by apply deliver_fenced.
  - by apply fails_fenced.
  - destruct (at_ (pods w i)) as [| | | | | | |c k| |] eqn:Hat; try done. intros [= <-]. apply put_fenced; [done|].
    apply closed_fenced. apply (fenced_at _ _ Hat (Hw i)).
  - destruct (at_ (pods w i)); try done. cbn. intros [= <-]. apply put_fenced; [done|]. intros _. by right.
  - apply side_all_fenced; [done|apply probe_at_most].
  - apply side_all_fenced; [done|apply watchdog_closed_at_most].
  - apply side_all_fenced; [done|apply cron_lost_at_most].
  - apply side_all_fenced; [done|apply cron_closed_at_most].
  - apply side_all_fenced; [done|]. intros ? [= <-]. repeat split; auto.
  - apply side_all_fenced; [done|]. intros ? [= <-]. repeat split; auto.
  - apply side_all_fenced; [done|]. intros ? [= <-]. repeat split; auto.
  - apply side_all_fenced; [done|]. intros ? [= <-]. repeat split; auto.
  - destruct (running _); [|done]. intros [= <-]. apply put_fenced; [done|]. apply resign_fenced. by right.
  - destruct (at_ (pods w i)); try done. destruct (row w); [|done]. by intros [= <-].
Qed.

Lemma reachable_fenced w0 w : initial w0 -> rtc (step s srv mono) w0 w -> all_fenced w.
Proof.
  intros (Hp & _) Hrun. assert (all_fenced w0) as Hs.
  { intros i. destruct (Hp i) as [c ->]. intros _. by left. }
  clear Hp. induction Hrun as [|w1 w2 w3 (m & _ & Hm) _ IH]; [done|]. by eapply IH, advance_fenced.
Qed.

(** A won row that cannot be assumed is handed back.  When an assume fails after the first failed
    win of the episode spent its trust window, the pod resigns, over the connection its elect
    just used, exactly the election it holds; so the resign removes that row, and a peer's next cycle can
    win, unless it was replaced meanwhile, and then it removes nothing. *)
Theorem unassumable_handed_back w0 w i term stage anchor :
  initial w0 -> rtc (step s srv mono) w0 w -> at_ (pods w i) = assuming term stage ->
  _unassumable_anchor (pods w i) = Some anchor -> trusted_until anchor <= mono i (now w) ->
  usable (leader_conn (pods w i)) = true ->
  exists w', advance s mono (Opened i false) w = Some w' /\ row w' = row w /\
    forall c, exists w'', advance s mono (Execute (serial w) c) w' = Some w'' /\
      row w'' = match row w with
                | Some r => if decide (worker_id r = i /\ elected_at r = term_elected_at term) then None else Some r
                | None => None
                end.
Proof.
  intros H0 Hrun Hat Han Ht Hu. destruct (fenced_at _ _ Hat (reachable_fenced _ _ H0 Hrun i)) as [Hfe Hn].
  assert (leader_term (pods w i) = None) as Hlt by (destruct Hn; congruence).
  set (w1 := put i ((pods w i) <| at_ := resigning (serial w) hand_back |>, Some (rq_resign (term_elected_at term))) w).
  exists w1. split.
  { assert (_hand_back_unassumable_lease s (serial w) (mono i (now w)) (pods w i) =
      ((pods w i) <| at_ := resigning (serial w) hand_back |>, Some (rq_resign (term_elected_at term)))) as Hh.
    { unfold _hand_back_unassumable_lease, resign, resign_term. rewrite Han, Hlt, Hfe, Hu.
      assert ((mono i (now w) <? trusted_until anchor) = false) as -> by (by apply Z.ltb_ge). done. }
    cbn [advance]. unfold opened. rewrite Hat. unfold w1. destruct stage; cbn [assume _election_attempt_failed]; by rewrite Hh. }
  split; [done|]. intros c. cbn [advance]. unfold execute. cbn. rewrite lookup_insert, decide_True by done. cbn.
  assert (forall o : option maintenance_leader, fst (resign_sql i (term_elected_at term) o) =
    match o with Some r => if decide (worker_id r = i /\ elected_at r = term_elected_at term) then None else Some r | None => None end) as Hsql.
  { intros [r|]; [|done]. cbn. destruct (Nat.eqb_spec (worker_id r) i), (Z.eqb_spec (elected_at r) (term_elected_at term)); cbn;
      destruct (decide _); tauto || done. }
  specialize (Hsql (row w)). destruct (resign_sql i (term_elected_at term) (row w)) as [r b]. eexists. split; [reflexivity|]. exact Hsql.
Qed.
End Live.
