(* ===== verification/LeaderDemo.v ===== *)
(** * A fleet, run

    Two pods under the default lease and heartbeat: an election, a stop, a failover, an episode of
    wins that cannot be assumed; and what the election does outside the bounds its theorems state. *)

From Stdlib Require Import ZArith Lia.
From stdpp Require Import base gmap list relations functions.
From S2P Require Import Prelude Leader LeaderProps LeaderLive.

Open Scope Z_scope.
Open Scope taskq_scope.

(** ** Runs that check themselves *)

Definition read_betweenb (lo hi : Z) (c : readings) : bool :=
  Z.ltb lo (at_elected c) && Z.leb (at_elected c) hi && Z.leb lo (at_expires c) && Z.leb (at_expires c) hi &&
  Z.leb (at_seen c) hi && Z.leb (at_lapse c) hi && Z.leb (at_silence c) hi.

Section Runs.
Variable s : leader_settings.
Variable srv : Z -> Z.
Variable mono : nat -> Z -> Z.

Definition not_overtakenb (i : nat) (c : readings) (r : option maintenance_leader) : bool :=
  match r with
  | Some r => negb (Nat.eqb (worker_id r) i) ||
      Z.ltb (elected_at r) (at_elected c) &&
      match expires_at r with Some x => Z.leb x (at_expires c + resolved_leader_lease s) | None => true end
  | None => true
  end.

Definition faithfulb (m : move) (w : world) : bool :=
  match m with
  | Execute n c =>
      match wire w !! n with
      | Some st => read_betweenb (srv (issued st)) (srv (now w)) c &&
                   match what st with rq_resign _ => true | _ => not_overtakenb (sender st) c (row w) end
      | None => true
      end
  | _ => true
  end.

Fixpoint runs (ms : list move) (w : world) : option world :=
  match ms with
  | [] => Some w
  | m :: ms => if faithfulb m w then match advance s mono m w with Some w' => runs ms w' | None => None end else None
  end.

Lemma faithfulb_faithful m w : faithfulb m w = true -> faithful_move s srv m w.
Proof.
  destruct m as [| | |n c| | | | | | | | | | | | | |]; try done. cbn. destruct (wire w !! n) as [st|]; [|done].
  intros [Hr Ho]%andb_true_iff. unfold read_betweenb in Hr. repeat rewrite andb_true_iff in Hr. rewrite Z.ltb_lt, !Z.leb_le in Hr.
  split; [unfold read_between; lia|]. destruct (what st); [| |done];
    (unfold not_overtakenb, not_overtaken in *; destruct (row w) as [r|]; [|done]; intros Hw; rewrite Hw, Nat.eqb_refl in Ho; cbn in Ho;
     apply andb_true_iff in Ho as [He Hx]; apply Z.ltb_lt in He; destruct (expires_at r); [apply Z.leb_le in Hx|]; by split).
Qed.

Lemma runs_steps ms w w' : runs ms w = Some w' -> rtc (step s srv mono) w w'.
Proof.
  revert w. induction ms as [|m ms IH]; cbn; intros w; [by intros [= ->]|].
  destruct (faithfulb m w) eqn:Hf; [|done]. destruct (advance s mono m w) as [w1|] eqn:Hm; [|done].
  intros Hr. eapply rtc_l; [|by apply IH]. exists m. split; [by apply faithfulb_faithful|done].
Qed.
End Runs.

(** ** The fleet *)

Definition second : Z := 1000000.

Definition demo_settings : leader_settings :=
  {| leader_lease := 40 * second; heartbeat_interval := 10 * second; owns_leader_conn := true |}.

Definition demo_srv (t : Z) : Z := t.
Definition demo_mono (i : nat) (t : Z) : Z := t + 1000 * Z.of_nat i.

Lemma demo_laws : clock_laws demo_settings demo_srv demo_mono.
Proof. split; unfold demo_srv, demo_mono, _LEADER_TRUST_MARGIN_SECS; lia. Qed.

Definition fleet : world :=
  {| now := 0; row := None; pods := fun _ => started; wire := ∅; answers := ∅; serial := 0 |}.

Lemma fleet_initial : initial fleet.
Proof. split; [|done]. intros i. by exists None. Qed.

Lemma fleet_bounded : row_bounded demo_settings demo_srv fleet.
Proof. by intros r. Qed.

(** The world a list of moves reaches from the start. *)
Definition after_moves (ms : list move) : world := default fleet (runs demo_settings demo_srv demo_mono ms fleet).

Lemma after_moves_run ms :
  is_null (runs demo_settings demo_srv demo_mono ms fleet) = false -> rtc (step demo_settings demo_srv demo_mono) fleet (after_moves ms).
Proof. intros H. apply runs_steps with ms. unfold after_moves. by destruct (runs _ _ _ ms fleet). Qed.

(** Pod [i] opens its connection, elects with the statement numbered [n], run at [t], and assumes. *)
Definition elects (i n : nat) (t : Z) : list move :=
  [Tick i; Opened i true; Elapse t; Execute n (all_at t); Deliver i].

Definition assumes_all (i : nat) : list move := [Opened i true; Opened i true; Opened i true; Recovered i].

Definition led : list move := elects 0 1 10 ++ assumes_all 0.

(** Two wins that cannot be assumed, the second after the first one's trust. *)
Definition broken : list move :=
  elects 0 1 10 ++ [Opened 0 true; Opened 0 false; Closed 0] ++ [Elapse (45 * second)] ++ elects 0 7 (45 * second + 10).

Example led_leads : acts demo_mono (after_moves led) 0 = true /\ acts demo_mono (after_moves led) 1 = false.
Proof. by vm_compute. Qed.

Theorem one_leader_witness :
  acts demo_mono (after_moves led) 0 = true /\
  (exists r x, row (after_moves led) = Some r /\ worker_id r = 0%nat /\ expires_at r = Some x /\ demo_srv (now (after_moves led)) < x) /\
  (forall j, acts demo_mono (after_moves led) j = true -> j = 0%nat).
Proof.
  split; [by vm_compute|]. apply (one_leader demo_settings demo_srv demo_mono demo_laws fleet); [apply fleet_initial| |by vm_compute].
  apply after_moves_run. by vm_compute.
Defined.

(** The leader stops: its next tick demotes it and sends its resign. *)
Definition stopped : list move := led ++ [Stop 0].

Theorem stopping_never_leads_witness :
  stopping (pods (after_moves stopped) 0) = true /\ is_leader (pods (after_moves stopped) 0) = true /\
  (forall w1, advance demo_settings demo_mono (Tick 0) (after_moves stopped) = Some w1 ->
    (forall w', rtc (step demo_settings demo_srv demo_mono) w1 w' -> is_leader (pods w' 0) = false) /\
    (wire w1 = wire (after_moves stopped) \/
     exists e, wire w1 = <[serial (after_moves stopped) := {| sender := 0; issued := now (after_moves stopped); what := rq_resign e |}]> (wire (after_moves stopped)))).
Proof.
  split; [by vm_compute|]. split; [by vm_compute|].
  apply (stopping_never_leads demo_settings demo_srv demo_mono (after_moves stopped) 0). by vm_compute.
Defined.

(** The leader falls silent: an elect its peer sends and the server runs a lease later takes the role,
    and the peer acts once its assume returned. *)
Definition silent : list move := led ++ [Elapse (40 * second + 11); Tick 1; Opened 1 true; Elapse (41 * second)].

Theorem failover_within_lease_witness :
  exists w2 w4, advance demo_settings demo_mono (Execute 8 (all_at (41 * second))) (after_moves silent) = Some w2 /\
    row w2 = Some {| worker_id := 1; elected_at := 41 * second; last_seen_at := 41 * second; expires_at := Some (81 * second) |} /\
    advances demo_settings demo_mono (takes_lead 1) w2 = Some w4 /\ acts demo_mono w4 1 = true.
Proof.
  destruct (advance demo_settings demo_mono (Execute 8 (all_at (41 * second))) (after_moves silent)) as [w2|] eqn:Hex;
    [|exfalso; vm_compute in Hex; discriminate].
  destruct (failover_within_lease demo_settings demo_srv demo_mono demo_laws fleet (after_moves led) (after_moves silent) w2
    1 8 (40 * second + 11) (all_at (41 * second))) as (Hrow & _ & Hlead).
  - apply fleet_initial.
  - apply fleet_bounded.
  - apply after_moves_run. by vm_compute.
  - apply (runs_steps _ _ _ [Elapse (40 * second + 11); Tick 1; Opened 1 true; Elapse (41 * second)]). by vm_compute.
  - by vm_compute.
  - by vm_compute.
  - right. by vm_compute.
  - exact Hex.
  - assert (Hw2 : at_ (pods w2 1) = electing 8 (demo_mono 1 (40 * second + 11)) /\ stopping (pods w2 1) = false /\
      demo_mono 1 (now w2) < demo_mono 1 (40 * second + 11) + 40 * second - _LEADER_TRUST_MARGIN_SECS).
    { vm_compute in Hex. injection Hex as <-. by vm_compute. }
    destruct Hw2 as (Hat & Hs & Ht).
    destruct (Hlead w2 _ (rtc_refl _ _) Hat Hs Ht) as (w4 & Hadv & _ & Hact).
    exists w2, w4. split_and!; [reflexivity|exact Hrow|exact Hadv|exact Hact].
Defined.

Theorem unassumable_handed_back_witness :
  exists term stage anchor, at_ (pods (after_moves broken) 0) = assuming term stage /\
    _unassumable_anchor (pods (after_moves broken) 0) = Some anchor /\
    exists w', advance demo_settings demo_mono (Opened 0 false) (after_moves broken) = Some w' /\ row w' = row (after_moves broken) /\
      forall c, exists w'', advance demo_settings demo_mono (Execute (serial (after_moves broken)) c) w' = Some w'' /\
        row w'' = match row (after_moves broken) with
                  | Some r => if decide (worker_id r = 0%nat /\ elected_at r = term_elected_at term) then None else Some r
                  | None => None
                  end.
Proof.
  exists (won_term demo_settings (45 * second + 10) (45 * second)), lock_probe, (won_term demo_settings 10 0).
  split; [by vm_compute|]. split; [by vm_compute|].
  apply (unassumable_handed_back demo_settings demo_srv demo_mono fleet _ 0 _ lock_probe (won_term demo_settings 10 0));
    [apply fleet_initial|apply after_moves_run; by vm_compute|by vm_compute..].
Defined.

(** ** Outside the bounds *)

Definition moved (ms : list move) : world := default fleet (advances demo_settings demo_mono ms fleet).

(** An elect its pod gave up on, its clock read before the wait for the row, runs after the pod was
    elected by a later one: the own-row arm puts the older expiry back, a peer takes the lapsed row, and two pods act. *)
Definition overtaken : list move :=
  [Tick 0; Opened 0 true; Fails 0; Closed 0; Elapse (10 * second)] ++
  elects 0 5 (10 * second + 10) ++ assumes_all 0 ++ [Execute 1 (all_at (1 * second)); Elapse (42 * second)] ++
  elects 1 12 (42 * second + 10) ++ assumes_all 1.

Example overtaken_elect_splits : acts demo_mono (moved overtaken) 0 = true /\ acts demo_mono (moved overtaken) 1 = true.
Proof. by vm_compute. Qed.

(** The watchdog demotes while a renewal is in flight: its answer restores the term without the flag. *)
Definition half_set : list move := led ++ [Elapse 30; Tick 0; ProbeFailed 0; Elapse 40; Execute 7 (all_at 40); Deliver 0].

Example half_set_role :
  is_leader (pods (moved half_set) 0) = false /\ is_null (leader_term (pods (moved half_set) 0)) = false.
Proof. by vm_compute. Qed.

(** The shutdown begins while [leader_conn] is being opened: the elect is sent all the same. *)
Definition stop_in_open : list move := [Tick 0; Stop 0; Opened 0 true].

Example elect_sent_after_stop :
  stopping (pods (moved stop_in_open) 0) = true /\
  wire (moved stop_in_open) !! 2%nat = Some {| sender := 0; issued := 0; what := rq_elect |}.
Proof. by vm_compute. Qed.

(** [run]'s [finally] resigns before it demotes: a peer acts while the departing pod, whose
    loops are gone, still reads as leading. *)
Definition departing : list move := led ++ [Exit 0; Execute 7 (all_at 10)] ++ elects 1 9 20 ++ assumes_all 1.

Example departing_still_flagged :
  acts demo_mono (moved departing) 1 = true /\ leading (demo_mono 0 (now (moved departing))) (pods (moved departing) 0) = true.
Proof. by vm_compute. Qed.
